(* ===== verification/_CoqProject ===== *)
-Q . S2P
Prelude.v
RustStd.v
Model.v
Validation.v
Durability.v
BrokerState.v
BrokerDurable.v
BrokerMaintain.v
BrokerOps.v
BrokerInv.v
BrokerPrim.v
BrokerTrans.v
BrokerImage.v
BrokerRecover.v
BrokerRestore.v
BrokerWorld.v
BrokerUpkeep.v
BrokerMaintained.v
BrokerSpec.v
BrokerDelivery.v
BrokerRegistry.v
BrokerStart.v
BrokerReach.v
BrokerRuns.v
BrokerProgress.v
Scenario.v
BrokerSafety.v
BrokerContracts.v
BrokerDirectory.v
ValidationTheorems.v
Sqlite.v
Identity.v
IdentityNames.v
IdentityTable.v
IdentityClaims.v
LedgerCodec.v
Ledger.v
LedgerRows.v
LedgerCommit.v
Admissions.v
TaskStore.v
LedgerStartup.v
SdkStore.v
SdkStoreTheorems.v
TaskListing.v
ListingTheorems.v
A2aFront.v
A2aSending.v
A2aAccess.v
A2aGates.v
A2aHandler.v
Api.v
ApiRuns.v
ApiTheorems.v
CliText.v
Health.v
HealthTheorems.v
Generation.v
Recovery.v
Runtime.v
RuntimeFiles.v
RuntimeLogic.v
RuntimeRules.v
RuntimePrograms.v
RuntimeTheorems.v
RuntimeProgress.v
RecoveryTheorems.v
SessionFrames.v
SessionLoop.v
SessionLoopTheorems.v
TaskAttempts.v
TaskAttemptsTheorems.v
SessionWire.v
SessionWireTheorems.v
SessionMethods.v
SessionMethodsTheorems.v
Team.v
TeamTheorems.v
Coordinator.v
CoordinatorTheorems.v
