(* ===== verification/Prelude.v ===== *)
(** * herdr-a2a: verification of the message broker

    herdr-a2a lets coding agents that run in the panes of a terminal multiplexer
    send each other tasks.  A broker process keeps the registered agents, queues a
    task for its recipient, leases it on a poll, takes acknowledgements, replies,
    rejections and cancellations, and wakes those who wait for an outcome.  Every
    change is written to SQLite before it takes effect; after a crash, or a commit
    whose fate is unknown, the broker rebuilds itself from the tables.

    ** Parts, files and sources

    The crate [herdr-a2a-core]:
    - [Prelude] : results, errors and panics; the state-and-error monad [ST] with its
      notation; the weakest precondition [wp] (total: a panic satisfies nothing), its
      rules, the tactics and the hint databases of the development.
    - [RustStd] : the integers, bytes, UTF-8 strings, paths, [HashMap] of [HashSet]
      and [BinaryHeap] of the standard library, as far as the sources use them.
    - [Model] : [model.rs].  [Validation], [ValidationTheorems] : [validation.rs].
    - [Durability] : [durability.rs]; the trait [BrokerPersistence] is a class and
      what the broker relies on is the class [PersistenceSpec].
    - [BrokerState], [BrokerDurable], [BrokerMaintain], [BrokerOps] : [broker.rs].
      [State] is the content of the mutex; [Shared] holds the objects reached through
      an [Arc] (notification cells, wait flags, the directory counter, reply
      channels) under a key, so that every reference sees an update; [World] is
      state, store and shared objects.  [BrokerDurable] has the functions on durable
      rows and recovery, [BrokerMaintain] the transitions of a task, the commit, the
      reconciliation and [maintain_state], [BrokerOps] the public operations.
    - [BrokerInv], [BrokerPrim], [BrokerTrans], [BrokerImage] : the invariant of the
      state and the durable image; each write of the state preserves them.
      [BrokerRecover], [BrokerRestore] : snapshots back to states.  [BrokerWorld] :
      state, store and waiters together, commit and reconciliation.  [BrokerUpkeep],
      [BrokerMaintained] : [maintain_state].  [BrokerSpec], [BrokerDelivery],
      [BrokerRegistry], [BrokerStart] : one specification per operation.
      [BrokerProgress] : when operations return.
    - [BrokerReach], [BrokerRuns] : the abstract life cycle of a task, an automaton on
      its row; runs of the broker, what they do to tasks and to registrations.
    - [Scenario] : a concrete run, on which the witnesses are evaluated.
    - [BrokerSafety], [BrokerContracts], [BrokerDirectory] : the theorems.

    The crate [herdr-a2a-broker]:
    - [Sqlite] : a connection with transactions and a fault oracle ([rusqlite] is not
      part of the repository).
    - [Identity], [IdentityNames], [IdentityTable], [IdentityClaims] : [identity.rs].
    - [LedgerCodec], [Ledger], [LedgerStartup] : [ledger.rs]; [LedgerRows],
      [LedgerCommit] : its theorems.
    - [Admissions], [TaskStore] : the projection admissions and
      the persistence of [store.rs].  [TaskStore] makes the SQLite store an instance of
      [PersistenceSpec], so every theorem about the broker holds for the broker on
      SQLite.  [SdkStore], [SdkStoreTheorems] : what the
      A2A SDK writes through [store.rs], and the owners of tasks.  [TaskListing],
      [ListingTheorems] : listing tasks page by page.
    - [A2aFront], [A2aGates], [A2aHandler] : [a2a.rs], the request handler and the
      executor around the SDK; [A2aSending], [A2aAccess] : their theorems.
    - [Api] : [api.rs], the private interface; [ApiRuns], [ApiTheorems] : runs of its
      handlers beside each other, and the theorems.
    - [Runtime], [RuntimeFiles] : [runtime.rs], scopes, paths and descriptors, and the
      functions on the runtime directory as programs of system calls; [RuntimeLogic],
      [RuntimeRules], [RuntimePrograms] : a rely-guarantee logic for them and the
      specification of every function; [RuntimeTheorems], [RuntimeProgress] : processes
      beside each other, and what one of them can do alone.

    The crate [herdr-a2a-cli]:
    - [CliText] : text as bytes, and the binary64 arithmetic of
      [Duration::mul_f64].
    - [Health], [HealthTheorems] : [health.rs], the probes of the broker's identity.
    - [Generation] : [managed/generation.rs], which executables may follow each other.
    - [Recovery], [RecoveryTheorems] : [recovery.rs], the connection of a session.
    - [session.rs]: [SessionFrames] the framing of its input; [SessionLoop],
      [SessionLoopTheorems] the loop, the identifiers in flight and the ordered outputs;
      [TaskAttempts], [TaskAttemptsTheorems] the state machine that sends a task and
      follows it; [SessionWire], [SessionWireTheorems] the readers of HTTP answers and
      event streams; [SessionMethods], [SessionMethodsTheorems] the
      methods a harness calls.
    - [Team], [TeamTheorems] : [team.rs] and the [create_team] method, with the commands of
      Herdr and the verification of panes ([herdr.rs] of the broker).
    - [Coordinator], [CoordinatorTheorems] : [coordinator.rs], the process that starts the
      broker of a workspace and supervises it, and the commands that ensure, stop, restart
      and retire one.

    How they interact: a session reads requests from its harness ([SessionFrames],
    [SessionLoop]), keeps a connection to the broker of its workspace ([Recovery], with
    the proof of [Health] and the generations of [Generation]) and asks it through the
    private interface ([Api]) and the A2A protocol ([A2aHandler]).  Both front ends call
    the operations of the broker ([BrokerOps]) and the task store ([SdkStore]), which
    share the tables of the ledger.  A broker holds the session lock of its workspace and
    publishes where it listens in a descriptor ([RuntimeFiles]), which sessions read.  It is
    started by a coordinator ([Coordinator]), which holds another lock of the scope as long
    as its broker runs, and which a session launches when it finds no broker.

    ** What the theorems show

    - Runs ([BrokerSafety]).  From a recovered broker, whatever the order of the
      operations and however the store fails: the indexes, inboxes, leases and
      deadlines agree with the tasks; nothing panics; what was confirmed to a caller
      is durable; a failed operation is atomic; tasks move along the life cycle and
      an outcome is final; a restart keeps the tasks.
    - Contracts ([BrokerContracts], [BrokerDirectory]).  What each operation promises
      its caller: who may call it, what it records and whom it wakes, first-in
      first-out delivery, fencing of old registrations, exact listings and counts;
      and that it succeeds when its own conditions hold and the store works.
    - Ledger ([TaskStore], [LedgerStartup]).  Rows round-trip; a commit applies
      its batch or leaves the tables, whatever statement fails; no row is replaced by
      an older one; loading returns exactly the stored tasks; start-up keeps them;
      the broker composed with the ledger is durable.
    - Admissions ([Admissions]).  The registry of admitted projections stays
      within its bounds and hands out what was recorded.
    - The store of the SDK ([SdkStoreTheorems], [ListingTheorems]).  The
      SDK can write projections of durable tasks only; a task has one owner; paging
      lists every matching task once and ends.
    - Identities ([IdentityClaims]).  Names the allocator makes are accepted, a pane
      keeps its name, a name has one pane, and a pane can be resolved.
    - Validation ([ValidationTheorems]).  The grammar of names, the limits of
      metadata against a reference measure, file references inside the workspace,
      and that a payload accepted on receipt is accepted on recovery.
    - The A2A front end ([A2aSending], [A2aAccess], [A2aGates], [A2aHandler]).  A send is
      authentic and durable before the SDK sees it, executions use one admission each,
      only sender and recipient reach a task, sends of a task exclude each other.
    - The private interface ([ApiTheorems]).  Its handlers are sequences of critical
      sections that keep registrations backed by identities; the directory is
      consistent and targets resolve; proofs of different answers differ.
    - The runtime directory ([RuntimeTheorems], [RuntimeProgress]).  However processes
      interleave, fail and die, a workspace has one broker session at a time, descriptors
      are complete and outlive those who may not remove them; a session that nobody holds
      can be acquired, and a published descriptor is read back.
    - The client ([HealthTheorems], [Generation], [RecoveryTheorems]).  The probes
      recognise the broker and agree with each other; recovery ends, keeps the identity
      of the session and replaces what was lost.
    - The session ([SessionFrames], [SessionLoopTheorems], [TaskAttemptsTheorems],
      [SessionWireTheorems], [SessionMethodsTheorems]).  Framing and event streams do not
      depend on the pieces they arrive in; every accepted request is answered once,
      listings in order, and outputs never block each other; a task is sent at most
      twice; results are about the task that was asked for; deliveries are acknowledged
      before they are handed out; errors of the broker reach the harness.

    - Teams ([TeamTheorems]).  Creating a team ends, acts only in panes that came out of
      its own splits, and reports one member per role; starting an agent is bounded in time;
      a verified pane is the one that was asked for.
    - The coordinator ([CoordinatorTheorems]).  Whatever the system answers, its commands
      end; a process is signalled only after its identity was looked at; a stop goes to the
      coordinator that the lock names; a restart that succeeds has seen the old processes
      gone and a new broker proved and supervised; one broker is spawned, under the lock.

    ** How the code is modelled

    - The broker holds its mutex through the await of the store, so a critical
      section is atomic; a run is a sequence of critical sections in any order, with
      a clock that does not go back.  [now] and the identifiers the [uuid] crate
      makes are arguments; freshness is a hypothesis where it matters.
    - An operation that releases the lock or suspends ([wait_next],
      [wait_for_reply], [wait_for_agents], [start_or_resume]) takes what the rest of
      the process does in between as functions on the [World], and a list of
      wake-ups; [None] means that it is still suspended.
    - Errors keep the state they leave behind; [expect], a checked index and an
      underflow are the outcome [Panic].
    - A [HashMap] is a [gmap]; where the code iterates over one, the order is that of
      [map_to_list], and no theorem depends on it.  A [BinaryHeap] is a sorted list.
    - Machine integers are in [Z] with [checked_add] at their width.
    - Tables with a primary key are finite maps.  Every SQL statement may fail as the
      fault oracle says, and then has no effect; a dropped transaction is rolled
      back; a column of the wrong type is a fault of its statement; the constraints
      of the schemas are guards of the insertions.
    - In the front ends and the client a call to another process is given by its answer:
      [Round], [Turn], [MethodTurn], [InboxTurn] and [ReadEvent] are the answers of one
      turn of a loop, and a run is the list of its turns; the theorems hold for all
      lists.  An [Event] of the session is what happens next; the writer's queue includes
      the senders that wait for room in it, and a write that fails ends the session.
    - The runtime directory is that of one user, its files are touched by these functions
      only, and every system call is one step: between two calls any process may run, fail
      or be killed.  A function that returns closes its files in the same step.  A call
      that fails has no effect, but a write may stop halfway; power failures are not
      modelled.  A session counts as held until its own release unlinks the lock file or
      returns, or its process dies.  The hooks that tests pass are those of production.
    - In [Team] and [Coordinator] the outside is a function of the calls that were made so
      far: it answers each call and says how long it took, a sleep at least its duration and
      a timeout that expires at least its own.  A world is a clock and this history, and the
      theorems speak of the history: every call, with what had been seen before it.
    - Rowids and sequence numbers that SQLite assigns are one above the largest.
    - [f64] is the binary64 of [SpecFloat] with rounding to nearest even.
    - [serde_json], [uuid], [chrono], [a2a] with its SDK handler, [rusqlite], [reqwest],
      [axum], base64, SHA-256, HMAC and the file system are parameters.  Their laws are named classes ([RusqliteSpec],
      [LedgerSerdeSpec] and so on), each with an instance in a witness.  That a JSON
      text decodes to the value it was made from includes the numbers of metadata.
    - [PersistenceSpec]: an error means no change, [ReconciliationRequired] means
      applied completely or not at all.  A reference store that fails on demand
      ([OracleStore] in [Durability]) and the SQLite store satisfy it; the batches of
      the latter are those made of values of the Rust types.  [VolatilePersistence]
      serves tests only.
    - Fuel: [u64_to_string] makes at most 20 digits, enough for 64 bits; the UTF-8
      decoder has as much fuel as bytes; both are proved sufficient where used.  The
      loop of [start_or_resume] takes its rounds as a list, one per wake-up.  The loops of
      [Team] and [Coordinator] have a deadline and wait in every turn: 30 s in turns of 50 ms
      are 600 turns, a stop is 200 turns of 25 ms, the publication of a descriptor 400.  A
      wait that a change of the directory may cut short has a turn for every nanosecond.

    ** Not modelled

    From [store.rs]: the checks of the database file and the read-only inspection.  From
    [a2a.rs]: the literal of the agent card and the router.  [server.rs]: the router and the
    start of the process.  From [coordinator.rs]: [dispatch_exec], the watcher of the
    descriptor, the check of the environment a broker inherits, and process proofs on macOS.
    From [session.rs]: the start of the process, the drain when it ends, and the methods
    that call the installer, the doctor and the status.  The installer ([managed.rs]) but for
    the authorization of executables and the entries of its registry; [status.rs],
    [status_tui.rs], [doctor.rs], [main.rs]; the TypeScript integration and scripts. *)
From stdpp Require Import prelude gmap strings sorting.

(** Outcome of a Rust function: a value, an [Err], or a panic (an [expect]
    that fires). *)
Inductive Outcome (E A : Type) : Type :=
| Done (a : A)
| Fail (e : E)
| Panic (msg : string).
Arguments Done {E A} a.
Arguments Fail {E A} e.
Arguments Panic {E A} msg.

(** [Result<A, E>] as the value a trait method or a channel hands back. *)
Inductive Result (E A : Type) : Type :=
| Ok (a : A)
| Err (e : E).
Arguments Ok {E A} a.
Arguments Err {E A} e.

Definition of_result {E A} (r : Result E A) : Outcome E A :=
  match r with Ok a => Done a | Err e => Fail e end.

(** [Option::is_some], [Option::is_none] and [Option::and_then]. *)
Definition is_some {A} (o : option A) : bool :=
  match o with Some _ => true | None => false end.
Definition is_none {A} (o : option A) : bool := negb (is_some o).
Definition and_then {A B} (o : option A) (f : A → option B) : option B :=
  match o with Some a => f a | None => None end.

(** A computation over a mutable state.  The state survives an error: Rust
    code mutates behind a reference and then returns [Err]. *)
Definition ST (S E A : Type) : Type := S → Outcome E A * S.

Section monad.
Context {S E : Type}.

Definition out_bind {A B} (m : Outcome E A) (k : A → Outcome E B) : Outcome E B :=
  match m with
  | Done a => k a
  | Fail e => Fail e
  | Panic msg => Panic msg
  end.

Definition st_ret {A} (a : A) : ST S E A := λ s, (Done a, s).

Definition st_bind {A B} (m : ST S E A) (k : A → ST S E B) : ST S E B := λ s,
  match m s with
  | (Done a, s') => k a s'
  | (Fail e, s') => (Fail e, s')
  | (Panic msg, s') => (Panic msg, s')
  end.

Definition st_fail {A} (e : E) : ST S E A := λ s, (Fail e, s).

Definition st_get : ST S E S := λ s, (Done s, s).

Definition st_gets {A} (f : S → A) : ST S E A := λ s, (Done (f s), s).

Definition st_modify (f : S → S) : ST S E () := λ s, (Done tt, f s).

(** A fallible computation that does not touch the state. *)
Definition st_lift {A} (m : Outcome E A) : ST S E A := λ s, (m, s).

(** [Option::ok_or] and [Option::expect]. *)
Definition ok_or {A} (o : option A) (e : E) : Outcome E A :=
  match o with Some a => Done a | None => Fail e end.

Definition expect {A} (o : option A) (msg : string) : Outcome E A :=
  match o with Some a => Done a | None => Panic msg end.

(** [map_err(|_| e)] *)
Definition map_err {E' A} (e : E) (m : Outcome E' A) : Outcome E A :=
  match m with Done a => Done a | Fail _ => Fail e | Panic msg => Panic msg end.

(** [map_err] with a function of the error. *)
Definition map_error {E' A} (f : E' → E) (m : Outcome E' A) : Outcome E A :=
  match m with Done a => Done a | Fail e => Fail (f e) | Panic msg => Panic msg end.

(** [if cond { return Err(e) }] *)
Definition reject_if (cond : bool) (e : E) : Outcome E () :=
  if cond then Fail e else Done tt.

End monad.

Section loops.
Context {S E A : Type}.

(** A [for] loop whose body may fail. *)
Definition for_each (body : A → ST S E ()) : list A → ST S E () :=
  fix go l :=
    match l with
    | [] => st_ret tt
    | a :: l => st_bind (body a) (λ _, go l)
    end.

(** [iter.map(f).collect::<Result<Vec<_>, _>>()] *)
Fixpoint try_map {B} (f : A → Outcome E B) (l : list A) : Outcome E (list B) :=
  match l with
  | [] => Done []
  | a :: l =>
      out_bind (f a) (λ b, out_bind (try_map f l) (λ bs, Done (b :: bs)))
  end.

(** A loop that pushes some of the items it visits. *)
Definition try_filter_map {B} (f : A → Outcome E (option B)) (l : list A)
    : Outcome E (list B) :=
  out_bind (try_map f l) (λ os, Done (omap id os)).
End loops.

(** [map_err] on a computation over a state. *)
Definition st_map_err {S E E' A} (f : E → E') (m : ST S E A) : ST S E' A := λ s,
  match m s with
  | (Done a, s') => (Done a, s')
  | (Fail e, s') => (Fail (f e), s')
  | (Panic msg, s') => (Panic msg, s')
  end.

(** Running a computation on a part of a larger state. *)
Definition zoom {S T E A} (get : T → S) (put : S → T → T) (m : ST S E A) : ST T E A :=
  λ t, let '(r, s) := m (get t) in (r, put s t).

Declare Scope herdr_scope.
Delimit Scope herdr_scope with herdr.
Notation "'let!' x ':=' m 'in' k" := (st_bind m (λ x, k))
  (at level 10, x pattern, m at level 200, k at level 200,
   format "'[v' 'let!'  x  ':='  m  'in' '/' k ']'") : herdr_scope.
Notation "'let?' x ':=' m 'in' k" := (out_bind m (λ x, k))
  (at level 10, x pattern, m at level 200, k at level 200,
   format "'[v' 'let?'  x  ':='  m  'in' '/' k ']'") : herdr_scope.
Open Scope herdr_scope.

(** ** Field assignment

    [r <| field := v |>] is [r.field = v;].  A record type declares its
    expansion over its fields ([Fields]); the update of a field is derived. *)
Class Fields (R : Type) := fields : R → R.
Class Update {R T : Type} (field : R → T) := update : (T → T) → R → R.
Arguments update {R T} field {_} f r : simpl nomatch.

Ltac derive_update :=
  match goal with
  | |- @Update ?R ?T ?field =>
      let inst := constr:(_ : Fields R) in
      let f := fresh "f" in
      let r := fresh "r" in
      intros f r;
      let expansion := eval red in inst in
      let body := eval cbv beta in (expansion r) in
      let body := eval pattern (field r) in body in
      match body with
      | ?g _ => let t := eval cbv beta in (g (f (field r))) in exact t
      end
  end.
#[global] Hint Extern 1 (Update _) => derive_update : typeclass_instances.

Notation "r <| field := v |>" := (update field (λ _, v) r)
  (at level 1, left associativity, field at level 9, v at level 200,
   format "r  <|  field  :=  v  |>") : herdr_scope.
Notation "r <| field ::= f |>" := (update field f r)
  (at level 1, left associativity, field at level 9, f at level 200,
   format "r  <|  field  ::=  f  |>") : herdr_scope.

(** ** Weakest preconditions

    [wp m Q X s]: from [s], [m] does not panic, a returned value and its final
    state satisfy [Q], an error and its final state satisfy [X]. *)
Definition wp {S E A} (m : ST S E A) (Q : A → S → Prop) (X : E → S → Prop) (s : S) : Prop :=
  match m s with
  | (Done a, s') => Q a s'
  | (Fail e, s') => X e s'
  | (Panic _, _) => False
  end.

Section wp_rules.
Context {S E : Type}.
Implicit Types (s : S).

Lemma wp_mono {A} (m : ST S E A) (Q Q' : A → S → Prop) (X X' : E → S → Prop) s :
  wp m Q X s → (∀ a s', Q a s' → Q' a s') → (∀ e s', X e s' → X' e s') → wp m Q' X' s.
Proof. unfold wp. destruct (m s) as [[] ?]; auto. Qed.

Lemma wp_bind {A B} (m : ST S E A) (k : A → ST S E B) Q X s :
  wp m (λ a s', wp (k a) Q X s') X s → wp (st_bind m k) Q X s.
Proof. unfold wp, st_bind. destruct (m s) as [[] ?]; auto. Qed.

Lemma wp_bind_inv {A B} (m : ST S E A) (k : A → ST S E B) Q X s :
  wp (st_bind m k) Q X s → wp m (λ a s', wp (k a) Q X s') X s.
Proof. unfold wp, st_bind. destruct (m s) as [[] ?]; auto. Qed.

Lemma wp_ret {A} (a : A) Q (X : E → S → Prop) s : Q a s → wp (st_ret a) Q X s.
Proof. done. Qed.

Lemma wp_fail {A} (e : E) (Q : A → S → Prop) (X : E → S → Prop) s :
  X e s → wp (st_fail e) Q X s.
Proof. done. Qed.

Lemma wp_get Q (X : E → S → Prop) s : Q s s → wp st_get Q X s.
Proof. done. Qed.

Lemma wp_gets {A} (f : S → A) Q (X : E → S → Prop) s : Q (f s) s → wp (st_gets f) Q X s.
Proof. done. Qed.

Lemma wp_modify f Q (X : E → S → Prop) s : Q tt (f s) → wp (st_modify f) Q X s.
Proof. done. Qed.

(** A lifted computation does not change the state. *)
Lemma wp_lift {A} (m : Outcome E A) Q X s :
  match m with Done a => Q a s | Fail e => X e s | Panic _ => False end →
  wp (st_lift m) Q X s.
Proof. unfold wp, st_lift. by destruct m. Qed.

Lemma wp_ok_or {A} (o : option A) (e : E) (Q : A → S → Prop) X s :
  (∀ a, o = Some a → Q a s) → (o = None → X e s) → wp (st_lift (ok_or o e)) Q X s.
Proof. intros HQ HX. apply wp_lift. destruct o; simpl; auto. Qed.

Lemma wp_reject_if (b : bool) (e : E) (Q : () → S → Prop) X s :
  (b = false → Q tt s) → (b = true → X e s) → wp (st_lift (reject_if b e)) Q X s.
Proof. intros HQ HX. apply wp_lift. destruct b; simpl; auto. Qed.

Lemma wp_expect {A} (o : option A) msg a (Q : A → S → Prop) (X : E → S → Prop) s :
  o = Some a → Q a s → wp (st_lift (expect o msg)) Q X s.
Proof. intros -> HQ. by apply wp_lift. Qed.

Lemma wp_if {A} (b : bool) (m1 m2 : ST S E A) Q X s :
  (b = true → wp m1 Q X s) → (b = false → wp m2 Q X s) → wp (if b then m1 else m2) Q X s.
Proof. destruct b; auto. Qed.

(** Loop rule: an invariant over the part of the list that is done. *)
Lemma wp_for_each {A} (body : A → ST S E ()) (I : list A → S → Prop) (X : E → S → Prop) l s :
  I [] s →
  (∀ done a todo s, l = done ++ a :: todo → I done s →
     wp (body a) (λ _ s', I (done ++ [a]) s') X s) →
  wp (for_each body l) (λ _ s', I l s') X s.
Proof.
  intros H0 Hstep.
  assert (∀ todo done s, l = done ++ todo → I done s →
            wp (for_each body todo) (λ _ s', I l s') X s) as Hgen.
  { clear s H0. intros todo. induction todo as [|a todo IH]; intros done s Hl HI; simpl.
    - rewrite app_nil_r in Hl. subst. by apply wp_ret.
    - apply wp_bind. eapply wp_mono; [by apply (Hstep done a todo)| |done].
      simpl. intros _ s' HI'. apply (IH (done ++ [a])); [|done].
      by rewrite Hl, <-app_assoc. }
  by apply (Hgen l []).
Qed.

(** The common loop: one predicate holds throughout. *)
Lemma wp_for_each_inv {A} (body : A → ST S E ()) (I : S → Prop) (X : E → S → Prop) l s :
  I s →
  (∀ a s, a ∈ l → I s → wp (body a) (λ _, I) X s) →
  wp (for_each body l) (λ _, I) X s.
Proof.
  intros H0 Hstep. apply (wp_for_each body (λ _, I) X l s H0).
  intros done a todo s' -> HI. apply Hstep; [set_solver|done].
Qed.
End wp_rules.

Lemma wp_map_err {S E E' A} (f : E → E') (m : ST S E A) Q X s :
  wp m Q (λ e, X (f e)) s → wp (st_map_err f m) Q X s.
Proof. unfold wp, st_map_err. by destruct (m s) as [[] ?]. Qed.

(** [wp] over a part of the state. *)
Lemma wp_zoom {S T E A} (get : T → S) (put : S → T → T) (m : ST S E A) Q X t :
  wp m (λ a s, Q a (put s t)) (λ e s, X e (put s t)) (get t) →
  wp (zoom get put m) Q X t.
Proof. unfold wp, zoom. by destruct (m (get t)) as [[] ?]. Qed.

Lemma try_map_Forall2 {E A B} (f : A → Outcome E B) l bs :
  try_map f l = Done bs ↔ Forall2 (λ a b, f a = Done b) l bs.
Proof.
  revert bs. induction l as [|a l IH]; intros bs; simpl.
  - split; [intros [= <-]; constructor|]. by inversion 1.
  - split.
    + destruct (f a) as [b|e|msg] eqn:Ha; simpl; [|done..].
      destruct (try_map f l) as [bs'|e|msg] eqn:Hl; simpl; [|done..].
      intros [= <-]. constructor; [done|]. by apply IH.
    + intros Hf2. inversion_clear Hf2 as [|? b ? bs' Ha Hl]. rewrite Ha. simpl.
      apply IH in Hl. by rewrite Hl.
Qed.

(** What can go wrong in a collected list went wrong at one of its items. *)
Lemma try_map_not_done {E A B} (f : A → Outcome E B) l :
  match try_map f l with
  | Done _ => True
  | Fail e => ∃ a, a ∈ l ∧ f a = Fail e
  | Panic msg => ∃ a, a ∈ l ∧ f a = Panic msg
  end.
Proof.
  induction l as [|a l IH]; simpl; [done|].
  destruct (f a) as [b|e|msg] eqn:Ha; simpl.
  - destruct (try_map f l) as [bs|e|msg]; simpl; [done|set_solver..].
  - exists a. set_solver.
  - exists a. set_solver.
Qed.

(** ** Absence of panics

    [no_panic] holds of a computation without state that returns or fails.  The
    [herdr] hints discharge it for the combinators. *)
Definition no_panic {E A} (m : Outcome E A) : Prop :=
  match m with Panic _ => False | _ => True end.

Create HintDb herdr.

Lemma no_panic_done {E A} (a : A) : no_panic (E := E) (Done a).
Proof. done. Qed.

Lemma no_panic_fail {E A} (e : E) : no_panic (A := A) (Fail e).
Proof. done. Qed.

Lemma no_panic_bind {E A B} (m : Outcome E A) (k : A → Outcome E B) :
  no_panic m → (∀ a, no_panic (k a)) → no_panic (out_bind m k).
Proof. destruct m; simpl; auto. Qed.

Lemma no_panic_reject_if {E} b (e : E) : no_panic (reject_if b e).
Proof. by destruct b. Qed.

Lemma no_panic_ok_or {E A} (o : option A) (e : E) : no_panic (ok_or o e).
Proof. by destruct o. Qed.

Lemma no_panic_map_err {E E' A} (e : E) (m : Outcome E' A) : no_panic m → no_panic (map_err e m).
Proof. by destruct m. Qed.

Lemma no_panic_map_error {E E' A} (f : E' → E) (m : Outcome E' A) :
  no_panic m → no_panic (map_error f m).
Proof. by destruct m. Qed.

Lemma no_panic_try_map {E A B} (f : A → Outcome E B) l :
  (∀ a, no_panic (f a)) → no_panic (try_map f l).
Proof.
  intros Hf. pose proof (try_map_not_done f l) as Ht. destruct (try_map f l) as [| |msg]; [done..|].
  destruct Ht as (a & _ & Ha). specialize (Hf a). by rewrite Ha in Hf.
Qed.

#[export] Hint Resolve no_panic_done no_panic_fail no_panic_bind no_panic_reject_if
  no_panic_ok_or no_panic_map_err no_panic_map_error no_panic_try_map : herdr.

Lemma wp_lift_no_panic {S E A} (m : Outcome E A) (Q : A → S → Prop) (X : E → S → Prop) s :
  no_panic m → (∀ a, m = Done a → Q a s) → (∀ e, m = Fail e → X e s) → wp (st_lift m) Q X s.
Proof. intros Hm HQ HX. apply wp_lift. destruct m; auto. Qed.

(** [wp] of a computation that returns at a known value. *)
Lemma wp_run {S E A} (m : ST S E A) (Q : A → S → Prop) (X : E → S → Prop) s a s' :
  m s = (Done a, s') → Q a s' → wp m Q X s.
Proof. unfold wp. by intros ->. Qed.

Lemma wp_done {S E A} (m : ST S E A) (Q : A → S → Prop) (X : E → S → Prop) s a s' :
  wp m Q X s → m s = (Done a, s') → Q a s'.
Proof. unfold wp. intros Hm Hrun. by rewrite Hrun in Hm. Qed.

(** What a run that returned has done, and that it is this run. *)
Lemma wp_ran {S E A} (m : ST S E A) (Q : A → S → Prop) (X : E → S → Prop) s :
  wp m Q X s → wp m (λ a s', Q a s' ∧ m s = (Done a, s')) X s.
Proof. unfold wp. by destruct (m s) as [[] ?]. Qed.

Lemma wp_and {S E A} (m : ST S E A) (Q Q' : A → S → Prop) (X X' : E → S → Prop) s :
  wp m Q X s → wp m Q' X' s → wp m (λ a s', Q a s' ∧ Q' a s') (λ e s', X e s' ∧ X' e s') s.
Proof. unfold wp. destruct (m s) as [[] ?]; auto. Qed.

(** A computation that cannot fail returns. *)
Lemma wp_total {S E A} (m : ST S E A) (Q : A → S → Prop) s :
  wp m Q (λ _ _, False) s → ∃ a s', m s = (Done a, s') ∧ Q a s'.
Proof. unfold wp. destruct (m s) as [[a|e|msg] s']; [eauto|done..]. Qed.

(** Guards that are passed and lookups that succeed. *)
Lemma wp_accept {S E} b (e : E) (Q : () → S → Prop) (X : E → S → Prop) s :
  b = false → Q tt s → wp (st_lift (reject_if b e)) Q X s.
Proof. by intros ->. Qed.

Lemma wp_found {S E A} (o : option A) a (e : E) (Q : A → S → Prop) (X : E → S → Prop) s :
  o = Some a → Q a s → wp (st_lift (ok_or o e)) Q X s.
Proof. by intros ->. Qed.

(** A computation without state that returned: its parts returned. *)
Lemma out_bind_Done {E A B} (m : Outcome E A) (k : A → Outcome E B) b :
  out_bind m k = Done b → ∃ a, m = Done a ∧ k a = Done b.
Proof. destruct m; simpl; [eauto|done..]. Qed.

Lemma reject_if_Done {E} b (e : E) u : reject_if b e = Done u → b = false.
Proof. by destruct b. Qed.

Lemma ok_or_Done {E A} (o : option A) (e : E) a : ok_or o e = Done a → o = Some a.
Proof. destruct o; simpl; [by intros [= ->]|done]. Qed.

Lemma map_err_Done {E E' A} (e : E) (m : Outcome E' A) a : map_err e m = Done a → m = Done a.
Proof. destruct m; simpl; congruence. Qed.

Lemma map_error_Done {E E' A} (f : E' → E) (m : Outcome E' A) a :
  map_error f m = Done a → m = Done a.
Proof. destruct m; simpl; congruence. Qed.

(** Take a successful computation apart. *)
Ltac run_done H :=
  repeat match type of H with
  | out_bind _ _ = Done _ => apply out_bind_Done in H as (? & ? & H)
  end.

Lemma negb_decide_false (P : Prop) `{Decision P} : P → negb (bool_decide P) = false.
Proof. intros HP. by rewrite bool_decide_eq_true_2. Qed.

(** One step of symbolic execution. *)
Ltac wp_step :=
  cbv beta;
  lazymatch goal with
  | |- wp (st_bind _ _) _ _ _ => apply wp_bind
  | |- wp (st_ret _) _ _ _ => apply wp_ret
  | |- wp st_get _ _ _ => apply wp_get
  | |- wp (st_gets _) _ _ _ => apply wp_gets
  | |- wp (st_modify _) _ _ _ => apply wp_modify
  | |- wp (st_fail _) _ _ _ => apply wp_fail
  | |- wp (st_lift (ok_or _ _)) _ _ _ => apply wp_ok_or
  | |- wp (st_lift (reject_if _ _)) _ _ _ => apply wp_reject_if
  | |- wp (zoom _ _ _) _ _ _ => apply wp_zoom
  end; cbv beta.

(** All the steps that need no choice. *)
Ltac wp_steps :=
  repeat (cbv beta;
  lazymatch goal with
  | |- wp (st_bind _ _) _ _ _ => apply wp_bind
  | |- wp (st_ret _) _ _ _ => apply wp_ret
  | |- wp st_get _ _ _ => apply wp_get
  | |- wp (st_gets _) _ _ _ => apply wp_gets
  | |- wp (st_modify _) _ _ _ => apply wp_modify
  | |- wp (st_fail _) _ _ _ => apply wp_fail
  end); cbv beta.
