(* ===== verification/RustStd.v ===== *)
(** * The parts of Rust's language and standard library the sources use

    Machine integers ([checked_add] at its width), byte predicates of [u8],
    UTF-8 decoding ([str::chars], [to_string_lossy]), [Path::components] and
    [Path::starts_with], [HashMap<K, HashSet<V>>] used as an index, and
    [BinaryHeap<Reverse<(i64, String)>>] as a priority queue. *)
From stdpp Require Import prelude gmap strings sorting.
From S2P Require Import Prelude.

(** ** Integers *)

Definition i64_min : Z := -9223372036854775808.
Definition i64_max : Z := 9223372036854775807.
Definition u64_max : Z := 18446744073709551615.
Definition u32_max : Z := 4294967295.

Definition in_i64 (z : Z) : Prop := (i64_min ≤ z ≤ i64_max)%Z.
Definition in_u64 (z : Z) : Prop := (0 ≤ z ≤ u64_max)%Z.
Definition in_u32 (z : Z) : Prop := (0 ≤ z ≤ u32_max)%Z.

Definition checked (lo hi z : Z) : option Z :=
  if ((lo <=? z) && (z <=? hi))%Z then Some z else None.

Definition checked_add_i64 (a b : Z) : option Z := checked i64_min i64_max (a + b).
Definition checked_sub_i64 (a b : Z) : option Z := checked i64_min i64_max (a - b).
Definition checked_add_u64 (a b : Z) : option Z := checked 0 u64_max (a + b).
Definition checked_add_u32 (a b : Z) : option Z := checked 0 u32_max (a + b).

Lemma checked_Some lo hi z z' :
  checked lo hi z = Some z' ↔ z' = z ∧ (lo ≤ z ≤ hi)%Z.
Proof.
  unfold checked. destruct (_ && _) eqn:H.
  - rewrite andb_true_iff, !Z.leb_le in H.
    split; [intros [= <-]; done|by intros [-> _]].
  - rewrite andb_false_iff, !Z.leb_gt in H. split; [done|lia].
Qed.

Lemma checked_None lo hi z : checked lo hi z = None ↔ ¬ (lo ≤ z ≤ hi)%Z.
Proof.
  rewrite eq_None_not_Some. split.
  - intros H Hz. apply H. exists z. by apply checked_Some.
  - intros H [z' [-> ?]%checked_Some]. done.
Qed.

Lemma checked_add_value a b z : checked_add_i64 a b = Some z → z = (a + b)%Z.
Proof. by intros [-> _]%checked_Some. Qed.

(** ** Bytes and characters *)

(** The bytes of a [str]. *)
Definition as_bytes (s : string) : list Z :=
  (λ a, Z.of_N (Ascii.N_of_ascii a)) <$> Stdlib.Strings.String.list_ascii_of_string s.

(** [str::len]: the number of bytes. *)
Definition str_len (s : string) : nat := String.length s.

Definition is_ascii_digit (b : Z) : bool := ((48 <=? b) && (b <=? 57))%Z.
Definition is_ascii_lowercase (b : Z) : bool := ((97 <=? b) && (b <=? 122))%Z.
Definition is_ascii_uppercase (b : Z) : bool := ((65 <=? b) && (b <=? 90))%Z.
Definition is_ascii_alphanumeric (b : Z) : bool :=
  is_ascii_digit b || is_ascii_lowercase b || is_ascii_uppercase b.
Definition to_ascii_lowercase (b : Z) : Z :=
  if is_ascii_uppercase b then (b + 32)%Z else b.

(** One step of UTF-8 decoding: a scalar value with the bytes it takes, or the
    length of the longest prefix of an encoding that the ill-formed bytes hold. *)
Inductive Utf8Step := Scalar (c : Z) (len : nat) | Malformed (len : nat).

Definition in_range (lo hi b : Z) : bool := ((lo <=? b) && (b <=? hi))%Z.

(** The range of the second byte after the lead byte of a three or four byte
    sequence. *)
Definition second_byte_range (b0 : Z) : Z * Z :=
  if (b0 =? 224)%Z then (160, 191)%Z
  else if (b0 =? 237)%Z then (128, 159)%Z
  else if (b0 =? 240)%Z then (144, 191)%Z
  else if (b0 =? 244)%Z then (128, 143)%Z
  else (128, 191)%Z.

Definition utf8_step (b0 : Z) (rest : list Z) : Utf8Step :=
  let cont b := in_range 128 191 b in
  let low b := Z.land b 63 in
  if (b0 <? 128)%Z then Scalar b0 1
  else if in_range 194 223 b0 then
    match rest with
    | b1 :: _ =>
        if cont b1 then Scalar (Z.lor (Z.shiftl (Z.land b0 31) 6) (low b1)) 2
        else Malformed 1
    | [] => Malformed 1
    end
  else if in_range 224 239 b0 then
    let '(lo, hi) := second_byte_range b0 in
    match rest with
    | b1 :: rest =>
        if in_range lo hi b1 then
          match rest with
          | b2 :: _ =>
              if cont b2 then
                Scalar (Z.lor (Z.shiftl (Z.land b0 15) 12)
                          (Z.lor (Z.shiftl (low b1) 6) (low b2))) 3
              else Malformed 2
          | [] => Malformed 2
          end
        else Malformed 1
    | [] => Malformed 1
    end
  else if in_range 240 244 b0 then
    let '(lo, hi) := second_byte_range b0 in
    match rest with
    | b1 :: rest =>
        if in_range lo hi b1 then
          match rest with
          | b2 :: rest =>
              if cont b2 then
                match rest with
                | b3 :: _ =>
                    if cont b3 then
                      Scalar (Z.lor (Z.shiftl (Z.land b0 7) 18)
                                (Z.lor (Z.shiftl (low b1) 12)
                                   (Z.lor (Z.shiftl (low b2) 6) (low b3)))) 4
                    else Malformed 3
                | [] => Malformed 3
                end
              else Malformed 2
          | [] => Malformed 2
          end
        else Malformed 1
    | [] => Malformed 1
    end
  else Malformed 1.

(** Every step with the bytes it takes. A step takes at least one byte, so the
    number of bytes is enough fuel. *)
Fixpoint utf8_chunks (fuel : nat) (bytes : list Z) : list (Utf8Step * list Z) :=
  match fuel, bytes with
  | S fuel, b0 :: rest =>
      let step := utf8_step b0 rest in
      let len := match step with Scalar _ n => n | Malformed n => n end in
      (step, take len bytes) :: utf8_chunks fuel (drop (len - 1) rest)
  | _, _ => []
  end.

Definition utf8_decode (s : string) : list (Utf8Step * list Z) :=
  let bytes := as_bytes s in utf8_chunks (length bytes) bytes.

(** [str::chars] as code points. A [str] is well-formed UTF-8, so the ill-formed
    steps do not occur on it; they only count for [to_string_lossy]. *)
Definition chars (s : string) : list Z :=
  omap (λ chunk, match chunk.1 with Scalar c _ => Some c | Malformed _ => None end)
    (utf8_decode s).

Definition string_of_bytes (bytes : list Z) : string :=
  Stdlib.Strings.String.string_of_list_ascii
    ((λ b, Ascii.ascii_of_N (Z.to_N b)) <$> bytes).

(** [Path::to_string_lossy]: each ill-formed piece becomes U+FFFD. *)
Definition to_string_lossy (s : string) : string :=
  string_of_bytes (mjoin ((λ chunk, match chunk.1 with
    | Scalar _ _ => chunk.2
    | Malformed _ => [239; 191; 189]%Z
    end) <$> utf8_decode s)).

(** Well-formed UTF-8. *)
Definition utf8_valid (s : string) : bool :=
  forallb (λ chunk, match chunk.1 with Scalar _ _ => true | Malformed _ => false end)
    (utf8_decode s).

(** [char::is_control]: the general category Cc. *)
Definition is_control (c : Z) : bool := in_range 0 31 c || in_range 127 159 c.

(** *** Bytes of strings *)

Definition byte_range (b : Z) : Prop := (0 ≤ b < 256)%Z.
Definition ascii_range (b : Z) : Prop := (0 ≤ b < 128)%Z.

Lemma as_bytes_inj s1 s2 : as_bytes s1 = as_bytes s2 → s1 = s2.
Proof.
  intros Heq. rewrite <-(String.string_of_list_ascii_of_string s1), <-(String.string_of_list_ascii_of_string s2).
  f_equal. eapply (list_fmap_eq_inj _ _ _ _ Heq). Unshelve.
  intros a1 a2 Ha. apply N2Z.inj in Ha. rewrite <-(Ascii.ascii_N_embedding a1), Ha. apply Ascii.ascii_N_embedding.
Qed.

Lemma as_bytes_app s1 s2 : as_bytes (s1 +:+ s2) = as_bytes s1 ++ as_bytes s2.
Proof.
  unfold as_bytes. rewrite <-fmap_app. f_equal.
  induction s1 as [|a s1 IH]; simpl; [done|]. by f_equal.
Qed.

Lemma length_as_bytes s : length (as_bytes s) = str_len s.
Proof. unfold as_bytes, str_len. rewrite length_fmap. induction s; simpl; by f_equal. Qed.

Lemma as_bytes_string_of_bytes l : Forall byte_range l → as_bytes (string_of_bytes l) = l.
Proof.
  intros Hl. unfold as_bytes, string_of_bytes.
  rewrite String.list_ascii_of_string_of_list_ascii. rewrite <-list_fmap_compose.
  induction Hl as [|b l Hb _ IH]; simpl; [done|]. f_equal; [|done].
  rewrite Ascii.N_ascii_embedding; unfold byte_range in *; lia.
Qed.

Lemma as_bytes_range s : Forall byte_range (as_bytes s).
Proof.
  unfold as_bytes. apply Forall_fmap, Forall_true. intros c. unfold byte_range. cbn.
  pose proof (Ascii.N_ascii_bounded c). lia.
Qed.

Lemma ascii_is_byte l : Forall ascii_range l → Forall byte_range l.
Proof. intros Hl. eapply Forall_impl; [exact Hl|]. unfold ascii_range, byte_range. lia. Qed.

(** An ASCII string is its own decoding. *)
Lemma chars_ascii s : Forall ascii_range (as_bytes s) → chars s = as_bytes s.
Proof.
  unfold chars, utf8_decode. induction 1 as [|b l Hb _ IH]; simpl; [done|].
  unfold utf8_step. destruct (Z.ltb_spec b 128); [|unfold ascii_range in *; lia].
  simpl. f_equal. exact IH.
Qed.

(** ** Paths *)

Inductive Component := RootDir | CurDir | ParentDir | Normal (s : string).

#[global] Instance Component_eq_dec : EqDecision Component.
Proof. solve_decision. Defined.

Definition slash : Ascii.ascii := Ascii.ascii_of_nat 47.

Fixpoint split_slash (cur : string) (s : string) : list string :=
  match s with
  | EmptyString => [cur]
  | String a s =>
      if Ascii.eqb a slash then cur :: split_slash "" s
      else split_slash (cur +:+ String a "") s
  end.

Definition normal_component (s : string) : Component :=
  if String.eqb s ".." then ParentDir else Normal s.

(** [Path::components]: repeated separators and inner [.] disappear; a leading
    [.] of a relative path is kept. *)
Definition components (p : string) : list Component :=
  let rooted := match p with String a _ => Ascii.eqb a slash | _ => false end in
  let pieces := filter (λ s, s ≠ "") (split_slash "" p) in
  let inner := λ l, normal_component <$> filter (λ s, s ≠ ".") l in
  if rooted then RootDir :: inner pieces
  else match pieces with
       | s :: l => if String.eqb s "." then CurDir :: inner l else inner pieces
       | [] => []
       end.

(** [Path::starts_with]: whole components, not characters. *)
Definition path_starts_with (p base : string) : bool :=
  bool_decide (components base `prefix_of` components p).

(** ** An index [HashMap<K, HashSet<V>>] *)

Section index.
Context `{Countable K} `{Countable V}.
Implicit Types m : gmap K (gset V).

(** [m.entry(k).or_default().insert(v)] *)
Definition idx_insert (k : K) (v : V) m : gmap K (gset V) :=
  <[k := {[ v ]} ∪ default ∅ (m !! k)]> m.

(** Remove [v] under [k], and the entry when it becomes empty. *)
Definition idx_remove (k : K) (v : V) m : gmap K (gset V) :=
  match m !! k with
  | None => m
  | Some s =>
      let s' := s ∖ {[ v ]} in
      if decide (s' = ∅) then delete k m else <[k := s']> m
  end.

Definition idx_mem (k : K) (v : V) m : Prop := v ∈ default ∅ (m !! k).

(** No key is kept for an empty set. *)
Definition idx_tight m : Prop := ∀ k s, m !! k = Some s → s ≠ ∅.

Lemma idx_mem_empty k v : ¬ idx_mem k v ∅.
Proof. unfold idx_mem. rewrite lookup_empty. set_solver. Qed.

Lemma idx_mem_insert k v k' v' m :
  idx_mem k' v' (idx_insert k v m) ↔ (k' = k ∧ v' = v) ∨ idx_mem k' v' m.
Proof.
  unfold idx_mem, idx_insert. destruct (decide (k = k')) as [<-|Hne].
  - rewrite lookup_insert_eq; simpl. set_solver.
  - rewrite lookup_insert_ne by done. naive_solver.
Qed.

Lemma idx_mem_remove k v k' v' m :
  idx_mem k' v' (idx_remove k v m) ↔ idx_mem k' v' m ∧ ¬ (k' = k ∧ v' = v).
Proof.
  unfold idx_mem, idx_remove. destruct (m !! k) as [s|] eqn:Hk.
  - destruct (decide (k = k')) as [<-|Hne].
    + rewrite Hk. case_decide as Hs.
      * rewrite lookup_delete_eq; simpl. set_solver.
      * rewrite lookup_insert_eq; simpl. set_solver.
    + case_decide; simplify_map_eq; naive_solver.
  - destruct (decide (k = k')) as [<-|Hne]; [rewrite Hk; set_solver|naive_solver].
Qed.

Lemma idx_tight_empty : idx_tight ∅.
Proof. intros k s Hk. by rewrite lookup_empty in Hk. Qed.

Lemma idx_tight_insert k v m : idx_tight m → idx_tight (idx_insert k v m).
Proof.
  intros Hm k' s. unfold idx_insert. destruct (decide (k = k')) as [<-|Hne].
  - rewrite lookup_insert_eq. intros [= <-]. set_solver.
  - rewrite lookup_insert_ne by done. apply Hm.
Qed.

Lemma idx_tight_remove k v m : idx_tight m → idx_tight (idx_remove k v m).
Proof.
  intros Hm k' s. unfold idx_remove. destruct (m !! k) as [s0|] eqn:Hk; [|apply Hm].
  case_decide.
  - intros [? ?]%lookup_delete_Some. by eapply Hm.
  - destruct (decide (k = k')) as [<-|Hne].
    + rewrite lookup_insert_eq. by intros [= <-].
    + rewrite lookup_insert_ne by done. apply Hm.
Qed.
End index.

(** ** [BinaryHeap<Reverse<(i64, String)>>] *)

(** The heap as the list of its entries in the order [pop] returns them. *)
Definition Deadline : Type := (Z * string)%type.

Definition deadline_le (a b : Deadline) : Prop :=
  (a.1 < b.1)%Z ∨ (a.1 = b.1 ∧ String.le a.2 b.2).

#[global] Instance deadline_le_dec : RelDecision deadline_le.
Proof. intros a b. unfold deadline_le. apply _. Defined.

Fixpoint heap_push (d : Deadline) (h : list Deadline) : list Deadline :=
  match h with
  | [] => [d]
  | x :: h => if decide (deadline_le d x) then d :: x :: h else x :: heap_push d h
  end.

#[global] Instance deadline_le_total : Total deadline_le.
Proof.
  intros [a s] [b t]. unfold deadline_le; simpl.
  destruct (Z.lt_trichotomy a b) as [?|[->|?]]; [lia| |lia].
  destruct (total String.le s t); naive_solver.
Qed.

#[global] Instance deadline_le_trans : Transitive deadline_le.
Proof.
  intros [a s] [b t] [c u]. unfold deadline_le; simpl.
  intros [?|[-> ?]] [?|[-> ?]]; [left; lia|left; lia|left; lia|].
  right. split; [done|]. by etrans.
Qed.

Lemma elem_of_heap_push d x h : x ∈ heap_push d h ↔ x = d ∨ x ∈ h.
Proof.
  induction h as [|y h IH]; simpl; [set_solver|].
  case_decide; rewrite !elem_of_cons, ?IH; naive_solver.
Qed.

Lemma heap_push_sorted d h :
  StronglySorted deadline_le h → StronglySorted deadline_le (heap_push d h).
Proof.
  induction 1 as [|x h Hs IH Hx]; simpl.
  { by repeat constructor. }
  case_decide as Hd.
  - constructor; [by constructor|]. constructor; [done|].
    eapply Forall_impl; [exact Hx|]. intros y Hy. by trans x.
  - constructor; [done|]. rewrite Forall_forall in Hx |- *.
    intros y [->|Hy]%elem_of_heap_push; [|by apply Hx].
    by destruct (total deadline_le d x).
Qed.
