(* ===== verification/Model.v ===== *)
(** * Data model of the core crate

    The types of [herdr-a2a-core/src/model.rs] and the error type of
    [validation.rs].  [serde_json] is not part of the repository: its number
    type is a parameter ([JsonNumber]), its [Value] has the constructors its
    documentation lists, and its serialiser is a parameter ([SerdeJson]). *)
From stdpp Require Import prelude gmap strings sorting.
From S2P Require Import Prelude RustStd.

(** ** serde_json *)

Class JsonNumber := {
  Number : Type;
  Number_eq_dec :: EqDecision Number;
  is_f64 : Number → bool;
}.

Inductive Value `{JsonNumber} : Type :=
| VNull
| VBool (b : bool)
| VNumber (n : Number)
| VString (s : string)
| VArray (items : list Value)
| VObject (map : list (string * Value)).

(** [serde_json::to_vec(value).expect(..).len()]: the length of the compact
    serialisation. *)
Class SerdeJson `{JsonNumber} := {
  to_vec_len : Value → nat;
}.

(** Induction over a value and the values inside it. *)
Section value_ind.
Context `{JsonNumber} (P : Value → Prop).
Hypotheses
  (Hnull : P VNull) (Hbool : ∀ b, P (VBool b)) (Hnum : ∀ n, P (VNumber n))
  (Hstr : ∀ s, P (VString s))
  (Harr : ∀ items, Forall P items → P (VArray items))
  (Hobj : ∀ map, Forall (λ kv, P kv.2) map → P (VObject map)).

Fixpoint value_ind' (v : Value) : P v :=
  match v with
  | VNull => Hnull
  | VBool b => Hbool b
  | VNumber n => Hnum n
  | VString s => Hstr s
  | VArray items =>
      Harr items ((fix go l := match l return Forall P l with
                     | [] => Forall_nil_2 _
                     | x :: l => Forall_cons_2 _ _ _ (value_ind' x) (go l)
                     end) items)
  | VObject map =>
      Hobj map ((fix go l := match l return Forall (λ kv, P kv.2) l with
                   | [] => Forall_nil_2 _
                   | (k, x) :: l =>
                       Forall_cons_2 (λ kv : string * Value, P kv.2) (k, x) l
                         (value_ind' x) (go l)
                   end) map)
  end.
End value_ind.

(** No number of the value is a float ([Number::is_f64]): integers, strings and the
    rest are read back from their text as they were, a float only with the feature
    [float_roundtrip], which the workspace does not enable. *)
Fixpoint no_floats `{JsonNumber} (v : Value) : bool :=
  match v with
  | VNumber n => negb (is_f64 n)
  | VArray items => forallb no_floats items
  | VObject map => forallb (λ kv, no_floats kv.2) map
  | _ => true
  end.

(** Numbers that are all integers. *)
Class IntegerNumbers `{JsonNumber} : Prop := integer_number : ∀ n, is_f64 n = false.

Lemma integers_no_floats `{IntegerNumbers} v : no_floats v = true.
Proof.
  induction v as [| |n| |items IH|map IH] using value_ind'; simpl; try done.
  - by rewrite integer_number.
  - apply forallb_forall. intros v Hv%list_elem_of_In. rewrite Forall_forall in IH. auto.
  - apply forallb_forall. intros v Hv%list_elem_of_In. rewrite Forall_forall in IH. auto.
Qed.

(** Equality of values ([PartialEq] of [Value]) as a boolean. *)
Fixpoint value_eqb `{JsonNumber} (v w : Value) {struct v} : bool :=
  match v, w with
  | VNull, VNull => true
  | VBool a, VBool b => Bool.eqb a b
  | VNumber a, VNumber b => bool_decide (a = b)
  | VString a, VString b => String.eqb a b
  | VArray xs, VArray ys =>
      (fix go xs ys := match xs, ys with
         | [], [] => true
         | x :: xs, y :: ys => value_eqb x y && go xs ys
         | _, _ => false
         end) xs ys
  | VObject xs, VObject ys =>
      (fix go xs ys := match xs, ys with
         | [], [] => true
         | (j, x) :: xs, (k, y) :: ys => String.eqb j k && (value_eqb x y && go xs ys)
         | _, _ => false
         end) xs ys
  | _, _ => false
  end.

Lemma value_eqb_eq `{JsonNumber} v w : value_eqb v w = true ↔ v = w.
Proof.
  revert w. induction v as [|b|n|s|xs IH|xs IH] using value_ind'; intros w;
    destruct w as [|b'|n'|s'|ys|ys]; simpl; try done.
  - rewrite Bool.eqb_true_iff. naive_solver.
  - rewrite bool_decide_eq_true. naive_solver.
  - rewrite String.eqb_eq. naive_solver.
  - revert ys. induction IH as [|x xs Hx _ IH]; intros [|y ys]; try done.
    rewrite andb_true_iff, Hx, (IH ys). naive_solver.
  - revert ys. induction IH as [|[j x] xs Hx _ IH]; intros [|[k y] ys]; try done.
    rewrite !andb_true_iff, String.eqb_eq, Hx, (IH ys). naive_solver.
Qed.

#[global] Instance Value_eq_dec `{JsonNumber} : EqDecision Value.
Proof.
  refine (λ v w, match value_eqb v w as b return value_eqb v w = b → _ with
                 | true => λ E, left _
                 | false => λ E, right _
                 end eq_refl).
  - by apply value_eqb_eq.
  - intros Heq%value_eqb_eq. congruence.
Defined.

(** ** Errors *)

Abbreviation PathBuf := string (only parsing).

Inductive DomainError :=
| InvalidAgentName
| InvalidRoleLabel
| InvalidRegistrationId
| InvalidDeliveryId
| InvalidTaskId
| TextTooLarge
| MetadataTooLarge
| MetadataTooDeep
| TooManyMetadataEntries
| TooManyFileReferences
| PathTooLong
| FileLabelTooLong
| FileNotFound (path : PathBuf)
| WorkspaceNotFound (path : PathBuf)
| FileOutsideWorkspace (path workspace : PathBuf)
| RegistrationNotFound
| RegistrationExpired
| AgentNotRegistered
| SenderMismatch
| WaitAlreadyActive
| WaitTimedOut
| DeliveryNotFound
| DeliveryNotOwned
| TaskNotFound
| TaskNotOwned
| DuplicateTask
| ReplyWaitAlreadyActive
| ReplyAlreadySubmitted
| TaskCanceled
| TaskExpired
| TaskFailed
| TaskRejected
| TaskAlreadyCompleted
| TooManyActiveTasks
| TooManyRetainedTasks
| PersistenceUnavailable.

#[global] Instance DomainError_eq_dec : EqDecision DomainError.
Proof. solve_decision. Defined.

(** ** Identifiers *)

Definition MAX_TASK_ID_BYTES : nat := 256.
Definition MAX_ROLE_LABEL_BYTES : nat := 256.

Definition validate_task_id (task_id : string) : Outcome DomainError () :=
  let bytes := as_bytes task_id in
  if negb ((1 <=? length bytes) && (length bytes <=? MAX_TASK_ID_BYTES))%nat
     || negb (forallb (λ b, is_ascii_alphanumeric b || (b =? 95)%Z || (b =? 45)%Z) bytes)
  then Fail InvalidTaskId
  else Done tt.

Record AgentName := MkAgentName { agent_str : string }.
Record RoleLabel := MkRoleLabel { role_str : string }.
Record RegistrationId := MkRegistrationId { rid_str : string }.
Record DeliveryId := MkDeliveryId { did_str : string }.
Record RegistrationEpoch := MkRegistrationEpoch { epoch_get : Z }.

#[global] Instance AgentName_eq_dec : EqDecision AgentName.
Proof. solve_decision. Defined.
#[global] Instance RoleLabel_eq_dec : EqDecision RoleLabel.
Proof. solve_decision. Defined.
#[global] Instance RegistrationId_eq_dec : EqDecision RegistrationId.
Proof. solve_decision. Defined.
#[global] Instance DeliveryId_eq_dec : EqDecision DeliveryId.
Proof. solve_decision. Defined.
#[global] Instance RegistrationEpoch_eq_dec : EqDecision RegistrationEpoch.
Proof. solve_decision. Defined.

#[global] Instance AgentName_countable : Countable AgentName.
Proof. by apply (inj_countable' agent_str MkAgentName); intros []. Defined.
#[global] Instance RegistrationId_countable : Countable RegistrationId.
Proof. by apply (inj_countable' rid_str MkRegistrationId); intros []. Defined.
#[global] Instance DeliveryId_countable : Countable DeliveryId.
Proof. by apply (inj_countable' did_str MkDeliveryId); intros []. Defined.
#[global] Instance RegistrationEpoch_countable : Countable RegistrationEpoch.
Proof. by apply (inj_countable' epoch_get MkRegistrationEpoch); intros []. Defined.

(** The decimal value of a digit string ([str::parse::<u64>] before its range
    check). *)
Definition digits_value (bytes : list Z) : Z :=
  foldl (λ acc b, 10 * acc + (b - 48))%Z 0%Z bytes.

(** [RegistrationEpoch::parse] *)
Definition epoch_parse (value : string) : option RegistrationEpoch :=
  let bytes := as_bytes value in
  if (length bytes =? 0)%nat
     || negb (forallb is_ascii_digit bytes)
     || ((1 <? length bytes)%nat && bool_decide (head bytes = Some 48%Z))
  then None
  else match checked 0 u64_max (digits_value bytes) with
       | Some v => if (0 <? v)%Z then Some (MkRegistrationEpoch v) else None
       | None => None
       end.

(** ** Panes, agents, registrations *)

Record VerifiedPane := MkVerifiedPane {
  pane_pane_id : string;
  pane_workspace_id : string;
  pane_role : RoleLabel;
  pane_harness : string;
  pane_workspace_path : PathBuf;
}.

Record AgentIdentity := MkAgentIdentity {
  canonical_name : AgentName;
  original_role_slug : string;
  current_role : RoleLabel;
  identity_pane_id : string;
  identity_harness : string;
  identity_harness_session_id : string;
  identity_workspace_id : string;
}.

Record VerifiedAgent := MkVerifiedAgent {
  agent_name : AgentName;
  agent_pane_id : string;
  agent_harness : string;
  agent_workspace : PathBuf;
}.

Record RegistrationCredentials := MkCredentials {
  cred_id : RegistrationId;
  cred_epoch : RegistrationEpoch;
}.

#[global] Instance RegistrationCredentials_eq_dec : EqDecision RegistrationCredentials.
Proof. solve_decision. Defined.
#[global] Instance RegistrationCredentials_countable : Countable RegistrationCredentials.
Proof.
  by apply (inj_countable' (λ c, (cred_id c, cred_epoch c)) (λ p, MkCredentials p.1 p.2));
    intros [].
Defined.

Record Registration := MkRegistration {
  reg_id : RegistrationId;
  reg_epoch : RegistrationEpoch;
  reg_agent : VerifiedAgent;
  reg_harness_session_id : string;
  reg_expires_unix_ms : Z;
}.

(** [Registration::credentials] *)
Definition credentials (r : Registration) : RegistrationCredentials :=
  MkCredentials (reg_id r) (reg_epoch r).

(** ** Messages *)

Record FileReference := MkFileReference {
  file_path : PathBuf;
  file_media_type : option string;
  file_label : option string;
}.

#[global] Instance FileReference_eq_dec : EqDecision FileReference.
Proof. solve_decision. Defined.

Section messages.
Context `{JsonNumber}.

Record MessagePayload := MkMessagePayload {
  msg_text : string;
  msg_metadata : Value;
  msg_file_refs : list FileReference;
}.

Record ValidatedPayload := MkValidatedPayload {
  vp_text : string;
  vp_metadata : Value;
  vp_file_refs : list FileReference;
}.

Record ReplyPayload := MkReplyPayload {
  rp_text : string;
  rp_metadata : Value;
  rp_file_refs : list FileReference;
}.

Record QueuedDelivery := MkQueuedDelivery {
  qd_task_id : string;
  qd_context_id : string;
  qd_sender : AgentName;
  qd_recipient : AgentName;
  qd_payload : ValidatedPayload;
  qd_created_unix_ms : Z;
  qd_attempt : Z;
}.

Record DeliveredMessage := MkDeliveredMessage {
  dm_delivery_id : DeliveryId;
  dm_task_id : string;
  dm_context_id : string;
  dm_sender : AgentName;
  dm_recipient : AgentName;
  dm_payload : ValidatedPayload;
  dm_leased_until_unix_ms : Z;
  dm_attempt : Z;
}.
End messages.

#[global] Instance ValidatedPayload_eq_dec `{JsonNumber} : EqDecision ValidatedPayload.
Proof. solve_decision. Defined.
#[global] Instance ReplyPayload_eq_dec `{JsonNumber} : EqDecision ReplyPayload.
Proof. solve_decision. Defined.
#[global] Instance QueuedDelivery_eq_dec `{JsonNumber} : EqDecision QueuedDelivery.
Proof. solve_decision. Defined.
