(* ===== verification/Validation.v ===== *)
(** * Validation

    [herdr-a2a-core/src/validation.rs]: identifiers, role labels, payload and
    metadata bounds.  The file system ([Path::canonicalize]) is an argument of
    [validate_payload]; the [uuid] crate is the parameter [UuidLib]. *)
From stdpp Require Import prelude gmap strings sorting.
From S2P Require Import Prelude RustStd Model.

Definition MAX_TEXT_BYTES : nat := 64 * 1024.
Definition MAX_METADATA_BYTES : nat := 32 * 1024.
Definition MAX_METADATA_DEPTH : nat := 8.
Definition MAX_METADATA_ENTRIES : nat := 256.
Definition MAX_FILE_REFS : nat := 32.
Definition MAX_PATH_BYTES : nat := 4 * 1024.
Definition MAX_FILE_LABEL_BYTES : nat := 256.

(** [impl Display for DomainError] *)
Definition DomainError_display (e : DomainError) : string :=
  match e with
  | InvalidAgentName => "invalid agent name"
  | InvalidRoleLabel => "invalid role label"
  | InvalidRegistrationId => "invalid registration ID"
  | InvalidDeliveryId => "invalid delivery ID"
  | InvalidTaskId => "invalid task ID"
  | TextTooLarge => "message text exceeds the size limit"
  | MetadataTooLarge => "message metadata exceeds the size limit"
  | MetadataTooDeep => "message metadata exceeds the nesting limit"
  | TooManyMetadataEntries => "message metadata exceeds the entry limit"
  | TooManyFileReferences => "message has too many file references"
  | PathTooLong => "file reference path exceeds the size limit"
  | FileLabelTooLong => "file reference label exceeds the size limit"
  | FileNotFound path => "file reference does not exist: " +:+ to_string_lossy path
  | WorkspaceNotFound path => "workspace does not exist: " +:+ to_string_lossy path
  | FileOutsideWorkspace path workspace =>
      "file reference " +:+ to_string_lossy path +:+ " is outside workspace "
        +:+ to_string_lossy workspace
  | RegistrationNotFound => "registration not found"
  | RegistrationExpired => "registration expired"
  | AgentNotRegistered => "agent is not registered"
  | SenderMismatch => "authenticated sender does not match delivery sender"
  | WaitAlreadyActive => "registration already has an active wait"
  | WaitTimedOut => "wait timed out"
  | DeliveryNotFound => "delivery not found"
  | DeliveryNotOwned => "delivery is owned by another registration"
  | TaskNotFound => "task not found"
  | TaskNotOwned => "task is owned by another registration"
  | DuplicateTask => "task already exists"
  | ReplyWaitAlreadyActive => "task already has a reply waiter"
  | ReplyAlreadySubmitted => "a conflicting reply already exists"
  | TaskCanceled => "task was canceled"
  | TaskExpired => "task delivery deadline expired"
  | TaskFailed => "task failed"
  | TaskRejected => "task was rejected"
  | TaskAlreadyCompleted => "task is already completed"
  | TooManyActiveTasks => "registration has too many active outbound tasks"
  | TooManyRetainedTasks => "retained task capacity is exhausted"
  | PersistenceUnavailable => "broker persistence unavailable"
  end.

(** ** Names *)

Definition agent_name_byte (b : Z) : bool :=
  is_ascii_lowercase b || is_ascii_digit b || (b =? 95)%Z || (b =? 45)%Z.

(** [AgentName::parse]: [bytes[0]] and [bytes[1..]] are only reached when the
    length test has passed. *)
Definition AgentName_parse (value : string) : Outcome DomainError AgentName :=
  let bytes := as_bytes value in
  match bytes with
  | [] => Fail InvalidAgentName
  | first :: rest =>
      if negb (length bytes <=? 32)%nat
         || negb (is_ascii_lowercase first)
         || negb (forallb agent_name_byte rest)
      then Fail InvalidAgentName
      else Done (MkAgentName value)
  end.

(** [RoleLabel::parse] *)
Definition RoleLabel_parse (value : string) : Outcome DomainError RoleLabel :=
  if (str_len value =? 0)%nat
     || (MAX_ROLE_LABEL_BYTES <? str_len value)%nat
     || existsb (λ c, is_control c || (c =? 8232)%Z || (c =? 8233)%Z) (chars value)
  then Fail InvalidRoleLabel
  else Done (MkRoleLabel value).

(** The [uuid] crate: parsing, the version and variant of a parsed identifier,
    and its hyphenated form. *)
Class UuidLib := {
  Uuid : Type;
  uuid_parse_str : string → option Uuid;
  uuid_version_num : Uuid → Z;
  uuid_is_rfc4122 : Uuid → bool;
  uuid_to_string : Uuid → string;
}.

Section uuids.
Context `{UuidLib}.

Definition parse_uuid_v7 (value : string) (error : DomainError)
    : Outcome DomainError string :=
  let? id := ok_or (uuid_parse_str value) error in
  if negb (uuid_version_num id =? 7)%Z || negb (uuid_is_rfc4122 id)
  then Fail error
  else Done (uuid_to_string id).

Definition RegistrationId_parse (value : string) : Outcome DomainError RegistrationId :=
  let? s := parse_uuid_v7 value InvalidRegistrationId in Done (MkRegistrationId s).

Definition DeliveryId_parse (value : string) : Outcome DomainError DeliveryId :=
  let? s := parse_uuid_v7 value InvalidDeliveryId in Done (MkDeliveryId s).
End uuids.

(** ** Metadata *)

Section payloads.
Context `{JsonNumber}.

(** [FileReference::new] and [MessagePayload::text] *)
Definition FileReference_new (path : PathBuf) : FileReference :=
  MkFileReference path None None.

Definition MessagePayload_text (text : string) : MessagePayload :=
  MkMessagePayload text (VObject []) [].

(** [validate_metadata_node]; the state is the counter [entries]. *)
Fixpoint validate_metadata_node (value : Value) (depth : nat) {struct value}
    : ST nat DomainError () :=
  match value with
  | VArray items =>
      let next_depth := S depth in
      let! _ := st_lift (reject_if (MAX_METADATA_DEPTH <? next_depth)%nat MetadataTooDeep) in
      let! _ := st_modify (λ entries, entries + length items)%nat in
      let! entries := st_get in
      let! _ := st_lift (reject_if (MAX_METADATA_ENTRIES <? entries)%nat
                           TooManyMetadataEntries) in
      for_each (λ item, validate_metadata_node item next_depth) items
  | VObject map =>
      let next_depth := S depth in
      let! _ := st_lift (reject_if (MAX_METADATA_DEPTH <? next_depth)%nat MetadataTooDeep) in
      let! _ := st_modify (λ entries, entries + length map)%nat in
      let! entries := st_get in
      let! _ := st_lift (reject_if (MAX_METADATA_ENTRIES <? entries)%nat
                           TooManyMetadataEntries) in
      for_each (λ kv, validate_metadata_node kv.2 next_depth) map
  | _ => st_ret tt
  end.

Context {serde : SerdeJson}.

Definition validate_metadata (metadata : Value) : Outcome DomainError () :=
  if (MAX_METADATA_BYTES <? to_vec_len metadata)%nat then Fail MetadataTooLarge
  else (validate_metadata_node metadata 0 0).1.

(** ** Payloads *)

Definition validate_file_reference_shape (file_ref : FileReference)
    : Outcome DomainError () :=
  let? _ := reject_if (MAX_PATH_BYTES <? str_len (file_path file_ref))%nat PathTooLong in
  reject_if (from_option (λ label, MAX_FILE_LABEL_BYTES <? str_len label)%nat false
               (file_label file_ref)) FileLabelTooLong.

Definition validate_canonical_path (path : PathBuf) : Outcome DomainError () :=
  reject_if (MAX_PATH_BYTES <? str_len path)%nat PathTooLong.

(** The body of the loop of [validate_payload] over the file references. *)
Definition validate_file_reference (canonicalize : PathBuf → option PathBuf)
    (workspace : PathBuf) (file_ref : FileReference) : Outcome DomainError FileReference :=
  let canonical_workspace := canonicalize workspace in
  let workspace_for_check := default workspace canonical_workspace in
  let? _ := validate_file_reference_shape file_ref in
  let? canonical_path :=
    ok_or (canonicalize (file_path file_ref)) (FileNotFound (file_path file_ref)) in
  let? _ := validate_canonical_path canonical_path in
  let? _ := reject_if (negb (path_starts_with canonical_path workspace_for_check))
              (FileOutsideWorkspace canonical_path workspace_for_check) in
  let? _ := ok_or canonical_workspace (WorkspaceNotFound workspace) in
  Done (MkFileReference canonical_path (file_media_type file_ref) (file_label file_ref)).

Definition validate_payload (canonicalize : PathBuf → option PathBuf)
    (payload : MessagePayload) (workspace : PathBuf) : Outcome DomainError ValidatedPayload :=
  let? _ := reject_if (MAX_TEXT_BYTES <? str_len (msg_text payload))%nat TextTooLarge in
  let? _ := validate_metadata (msg_metadata payload) in
  let? _ := reject_if (MAX_FILE_REFS <? length (msg_file_refs payload))%nat
              TooManyFileReferences in
  let? file_refs :=
    try_map (validate_file_reference canonicalize workspace) (msg_file_refs payload) in
  Done (MkValidatedPayload (msg_text payload) (msg_metadata payload) file_refs).

Definition validate_persisted_file_reference (file_ref : FileReference)
    : Outcome DomainError () :=
  let? _ := reject_if (MAX_PATH_BYTES <? str_len (to_string_lossy (file_path file_ref)))%nat
              PathTooLong in
  reject_if (from_option (λ label, MAX_FILE_LABEL_BYTES <? str_len label)%nat false
               (file_label file_ref)) FileLabelTooLong.

Definition validate_persisted_payload (payload : ValidatedPayload)
    : Outcome DomainError () :=
  let? _ := reject_if (MAX_TEXT_BYTES <? str_len (vp_text payload))%nat TextTooLarge in
  let? _ := validate_metadata (vp_metadata payload) in
  let? _ := reject_if (MAX_FILE_REFS <? length (vp_file_refs payload))%nat
              TooManyFileReferences in
  let? _ := try_map validate_persisted_file_reference (vp_file_refs payload) in
  Done tt.
End payloads.
