(* ===== verification/Durability.v ===== *)
(** * Durable data and the persistence interface

    [herdr-a2a-core/src/durability.rs].  [BrokerPersistence] is the trait; its
    laws ([PersistenceSpec]) say what a store promises to the broker. *)
From stdpp Require Import prelude gmap strings sorting.
From S2P Require Import Prelude RustStd Model.

Inductive DurableTaskState :=
| Queued | Leased | Acknowledged | Replied | Failed | Rejected | Canceled | Expired.

#[global] Instance DurableTaskState_eq_dec : EqDecision DurableTaskState.
Proof. solve_decision. Defined.

Inductive PersistenceCommitOutcome := Complete | ReconciliationRequired.

#[global] Instance PersistenceCommitOutcome_eq_dec : EqDecision PersistenceCommitOutcome.
Proof. solve_decision. Defined.

Record DurableLease := MkDurableLease {
  dl_delivery_id : DeliveryId;
  dl_owner : AgentName;
  dl_leased_until_unix_ms : Z;
  dl_attempt : Z;
}.

#[global] Instance DurableLease_eq_dec : EqDecision DurableLease.
Proof. solve_decision. Defined.

Section durable.
Context `{JsonNumber}.

Record DurableTask := MkDurableTask {
  dt_task_id : string;
  dt_context_id : string;
  dt_sender : AgentName;
  dt_recipient : AgentName;
  dt_payload : ValidatedPayload;
  dt_created_unix_ms : Z;
  dt_delivery_deadline_unix_ms : Z;
  dt_state_version : Z;
  dt_state : DurableTaskState;
  dt_lease : option DurableLease;
  dt_attempt : Z;
  dt_acknowledged_unix_ms : option Z;
  dt_reply : option ReplyPayload;
  dt_terminal_unix_ms : option Z;
  dt_retention_deadline_unix_ms : option Z;
}.

Record DurableBrokerSnapshot := MkSnapshot {
  snap_last_registration_epoch : RegistrationEpoch;
  snap_tasks : list DurableTask;
}.

Record PersistenceBatch := MkBatch {
  batch_registration_epoch_high_watermark : option RegistrationEpoch;
  batch_upsert_tasks : list DurableTask;
  batch_delete_task_ids : list string;
}.

#[global] Instance DurableTask_fields : Fields DurableTask := λ r,
  MkDurableTask
    (dt_task_id r) (dt_context_id r) (dt_sender r) (dt_recipient r)
    (dt_payload r) (dt_created_unix_ms r) (dt_delivery_deadline_unix_ms r)
    (dt_state_version r) (dt_state r) (dt_lease r) (dt_attempt r)
    (dt_acknowledged_unix_ms r) (dt_reply r) (dt_terminal_unix_ms r)
    (dt_retention_deadline_unix_ms r).

(** [PersistenceBatch::is_empty] *)
Definition batch_is_empty (batch : PersistenceBatch) : bool :=
  match batch_registration_epoch_high_watermark batch with None => true | _ => false end
  && match batch_upsert_tasks batch with [] => true | _ => false end
  && match batch_delete_task_ids batch with [] => true | _ => false end.
End durable.

#[global] Instance DurableTask_eq_dec `{JsonNumber} : EqDecision DurableTask.
Proof. solve_decision. Defined.

(** The trait [BrokerPersistence] over a store [P]. *)
Class BrokerPersistence `{JsonNumber} (P : Type) := {
  load : Z → P → Result DomainError DurableBrokerSnapshot * P;
  commit : PersistenceBatch → P → Result DomainError PersistenceCommitOutcome * P;
}.

(** [VolatilePersistence]: remembers nothing. *)
Definition VolatilePersistence : Type := ().

#[global] Instance volatile_persistence `{JsonNumber} : BrokerPersistence VolatilePersistence := {|
  load _ p := (Ok (MkSnapshot (MkRegistrationEpoch 0) []), p);
  commit _ p := (Ok Complete, p);
|}.

(** ** What a store promises *)

Section view.
Context `{JsonNumber}.

(** What a store holds, as a finite map. *)
Record DurableView := MkView {
  view_epoch : Z;
  view_tasks : gmap string DurableTask;
}.

#[global] Instance DurableView_fields : Fields DurableView := λ r,
  MkView (view_epoch r) (view_tasks r).

Definition upsert_all (ts : list DurableTask) (m : gmap string DurableTask)
    : gmap string DurableTask :=
  foldl (λ m t, <[dt_task_id t := t]> m) m ts.

Definition delete_all (ids : list string) (m : gmap string DurableTask)
    : gmap string DurableTask :=
  foldl (λ m id, delete id m) m ids.

(** The effect of a committed batch: the epoch never decreases, deletions come
    first, then the rows are replaced or added. *)
Definition apply_batch (b : PersistenceBatch) (v : DurableView) : DurableView :=
  MkView
    (match batch_registration_epoch_high_watermark b with
     | Some e => Z.max (epoch_get e) (view_epoch v)
     | None => view_epoch v
     end)
    (upsert_all (batch_upsert_tasks b) (delete_all (batch_delete_task_ids b) (view_tasks v))).

(** A snapshot lists each row of the view once. *)
Definition snapshot_of (v : DurableView) (snap : DurableBrokerSnapshot) : Prop :=
  epoch_get (snap_last_registration_epoch snap) = view_epoch v ∧
  NoDup (dt_task_id <$> snap_tasks snap) ∧
  ∀ t, t ∈ snap_tasks snap ↔ view_tasks v !! dt_task_id t = Some t.

Definition keyed (m : gmap string DurableTask) : Prop :=
  ∀ id t, m !! id = Some t → dt_task_id t = id.

Lemma lookup_delete_all ids m id :
  delete_all ids m !! id = if decide (id ∈ ids) then None else m !! id.
Proof.
  revert m. induction ids as [|i ids IH]; intros m; [done|].
  change (delete_all (i :: ids) m) with (delete_all ids (delete i m)).
  rewrite IH. destruct (decide (i = id)) as [->|Hne].
  - rewrite lookup_delete_eq. repeat case_decide; set_solver.
  - rewrite lookup_delete_ne by done. repeat case_decide; set_solver.
Qed.

Lemma lookup_upsert_all_ne ts m id :
  id ∉ dt_task_id <$> ts → upsert_all ts m !! id = m !! id.
Proof.
  revert m. induction ts as [|t ts IH]; intros m Hid; simpl; [done|].
  rewrite IH by set_solver. apply lookup_insert_ne. set_solver.
Qed.

Lemma lookup_upsert_all ts m t :
  NoDup (dt_task_id <$> ts) → t ∈ ts → upsert_all ts m !! dt_task_id t = Some t.
Proof.
  revert m. induction ts as [|t' ts IH]; intros m Hnd Ht; [set_solver|].
  simpl in *. apply NoDup_cons in Hnd as [Hni Hnd].
  apply elem_of_cons in Ht as [<-|Ht].
  - rewrite lookup_upsert_all_ne by done. apply lookup_insert_eq.
  - by apply IH.
Qed.

Lemma upsert_all_keyed ts m : keyed m → keyed (upsert_all ts m).
Proof.
  revert m. induction ts as [|t ts IH]; intros m Hm; simpl; [done|].
  apply IH. intros id t'. rewrite lookup_insert. case_decide; naive_solver.
Qed.
End view.

(** The laws of [BrokerPersistence].  [Err] leaves the store as it was; a store
    that asks for reconciliation has applied the whole batch or nothing of it. *)
Class PersistenceSpec `{JsonNumber} (P : Type) {persistence : BrokerPersistence P} := {
  view : P → DurableView;
  view_keyed : ∀ p, keyed (view_tasks (view p));
  load_ok : ∀ now p snap p',
    load now p = (Ok snap, p') → view p' = view p ∧ snapshot_of (view p) snap;
  load_err : ∀ now p e p', load now p = (Err e, p') → view p' = view p;
  commit_complete : ∀ b p p',
    commit b p = (Ok Complete, p') → view p' = apply_batch b (view p);
  commit_reconcile : ∀ b p p',
    commit b p = (Ok ReconciliationRequired, p') →
    view p' = view p ∨ view p' = apply_batch b (view p);
  commit_err : ∀ b p e p', commit b p = (Err e, p') → view p' = view p;
}.

(** ** A store that fails on demand

    A reference implementation of the laws: rows in a list, and for each call
    whether it fails, asks for reconciliation, or succeeds. *)
Module OracleStore.
Section store.
Context `{JsonNumber}.

Inductive Fault := NoFault | Fails | LosesBatch | KeepsBatch.

Record Store := MkStore {
  epoch : Z;
  rows : list DurableTask;
  faults : list Fault;
}.

Definition put (rows : list DurableTask) (t : DurableTask) : list DurableTask :=
  t :: filter (λ t', dt_task_id t' ≠ dt_task_id t) rows.

Definition rows_map (rows : list DurableTask) : gmap string DurableTask :=
  list_to_map ((λ t, (dt_task_id t, t)) <$> rows).

Definition apply (b : PersistenceBatch) (s : Store) : Store :=
  MkStore
    (match batch_registration_epoch_high_watermark b with
     | Some e => Z.max (epoch_get e) (epoch s)
     | None => epoch s
     end)
    (foldl put (filter (λ t, dt_task_id t ∉ batch_delete_task_ids b) (rows s))
       (batch_upsert_tasks b))
    (faults s).

Definition next_fault (s : Store) : Fault * Store :=
  match faults s with
  | [] => (NoFault, s)
  | f :: fs => (f, MkStore (epoch s) (rows s) fs)
  end.

#[global] Instance store_persistence : BrokerPersistence Store := {|
  load _ s :=
    let '(f, s) := next_fault s in
    match f with
    | NoFault =>
        (Ok (MkSnapshot (MkRegistrationEpoch (epoch s))
               ((map_to_list (rows_map (rows s))).*2)), s)
    | _ => (Err PersistenceUnavailable, s)
    end;
  commit b s :=
    let '(f, s) := next_fault s in
    match f with
    | NoFault => (Ok Complete, apply b s)
    | Fails => (Err PersistenceUnavailable, s)
    | LosesBatch => (Ok ReconciliationRequired, s)
    | KeepsBatch => (Ok ReconciliationRequired, apply b s)
    end;
|}.

Definition store_view (s : Store) : DurableView := MkView (epoch s) (rows_map (rows s)).

Lemma next_fault_view s f s' : next_fault s = (f, s') → store_view s' = store_view s.
Proof. unfold next_fault. destruct (faults s); by intros [= <- <-]. Qed.

Lemma rows_map_cons t rows :
  rows_map (t :: rows) = <[dt_task_id t := t]> (rows_map rows).
Proof. done. Qed.

Lemma rows_map_filter (Q : string → Prop) `{∀ id, Decision (Q id)}
    `{∀ t : DurableTask, Decision (Q (dt_task_id t))} rows id :
  rows_map (filter (λ t, Q (dt_task_id t)) rows) !! id
  = if decide (Q id) then rows_map rows !! id else None.
Proof.
  induction rows as [|t rows IH].
  { unfold rows_map. simpl. rewrite !lookup_empty. by case_decide. }
  rewrite filter_cons, rows_map_cons. destruct (decide (dt_task_id t = id)) as [<-|Hne].
  - rewrite lookup_insert_eq. repeat case_decide; try done.
    by rewrite rows_map_cons, lookup_insert_eq.
  - rewrite lookup_insert_ne, <-IH by done. clear IH. case_decide; [|done].
    by rewrite rows_map_cons, lookup_insert_ne.
Qed.

Lemma rows_map_put rows t : rows_map (put rows t) = <[dt_task_id t := t]> (rows_map rows).
Proof.
  unfold put. rewrite rows_map_cons. apply map_eq. intros id.
  destruct (decide (dt_task_id t = id)) as [<-|Hne].
  - by rewrite !lookup_insert_eq.
  - rewrite !lookup_insert_ne by done.
    etrans; [apply (rows_map_filter (λ id', id' ≠ dt_task_id t))|].
    case_decide; naive_solver.
Qed.

Lemma apply_view b s : store_view (apply b s) = apply_batch b (store_view s).
Proof.
  unfold store_view, apply_batch, apply; simpl. f_equal.
  assert (∀ ts rows, rows_map (foldl put rows ts) = upsert_all ts (rows_map rows)) as ->.
  { intros ts. induction ts as [|t ts IH]; intros rows; simpl; [done|].
    by rewrite IH, rows_map_put. }
  f_equal. apply map_eq. intros id. rewrite lookup_delete_all.
  etrans; [apply (rows_map_filter (λ id', id' ∉ batch_delete_task_ids b))|].
  repeat case_decide; naive_solver.
Qed.

Lemma rows_map_keyed rows : keyed (rows_map rows).
Proof.
  induction rows as [|t rows IH].
  - intros id t Hid. unfold rows_map in Hid. simpl in Hid. by rewrite lookup_empty in Hid.
  - rewrite rows_map_cons. intros id t'. rewrite lookup_insert. case_decide; naive_solver.
Qed.

Lemma snapshot_of_view s :
  snapshot_of (store_view s)
    (MkSnapshot (MkRegistrationEpoch (epoch s)) ((map_to_list (rows_map (rows s))).*2)).
Proof.
  split; [done|]. pose proof (rows_map_keyed (rows s)) as Hkey. simpl.
  assert (dt_task_id <$> (map_to_list (rows_map (rows s))).*2
          = (map_to_list (rows_map (rows s))).*1) as Hids.
  { rewrite <-list_fmap_compose. apply list_fmap_ext. intros i [id t] Hi. simpl.
    apply Hkey, elem_of_map_to_list, list_elem_of_lookup. eauto. }
  rewrite Hids. split; [apply NoDup_fst_map_to_list|].
  intros t. rewrite list_elem_of_fmap. split.
  - intros [[id t'] [-> Ht]]. apply elem_of_map_to_list in Ht. simpl.
    by rewrite (Hkey _ _ Ht).
  - intros Ht. exists (dt_task_id t, t). by rewrite elem_of_map_to_list.
Qed.

#[global] Instance store_spec : PersistenceSpec Store.
Proof.
  refine {| view := store_view |}.
  - intros s. apply rows_map_keyed.
  - intros now s snap s'. unfold load, store_persistence.
    destruct (next_fault s) as [f s1] eqn:Hf. apply next_fault_view in Hf.
    destruct f; [|done..]. intros [= <- <-]. split; [done|].
    rewrite <-Hf. apply snapshot_of_view.
  - intros now s e s'. unfold load, store_persistence.
    destruct (next_fault s) as [f s1] eqn:Hf. apply next_fault_view in Hf.
    destruct f; intros [=]; by subst.
  - intros b s s'. unfold commit, store_persistence.
    destruct (next_fault s) as [f s1] eqn:Hf. apply next_fault_view in Hf.
    destruct f; intros [=]; subst. by rewrite apply_view, Hf.
  - intros b s s'. unfold commit, store_persistence.
    destruct (next_fault s) as [f s1] eqn:Hf. apply next_fault_view in Hf.
    destruct f; intros [=]; subst; [by left|]. right. by rewrite apply_view, Hf.
  - intros b s e s'. unfold commit, store_persistence.
    destruct (next_fault s) as [f s1] eqn:Hf. apply next_fault_view in Hf.
    destruct f; intros [=]; by subst.
Defined.
End store.
End OracleStore.
