(* ===== verification/BrokerState.v ===== *)
(** * The broker's state

    The types and constants of [herdr-a2a-core/src/broker.rs].

    [State] is what the mutex of [BrokerInner] protects.  Objects reached
    through an [Arc] from several places (the notification cell and the wait
    flag of a registration, the directory counter, the reply channels) live in
    [Shared] and are referred to by a key, so an update through one reference
    is seen through the others.  [World] adds the store. *)
From stdpp Require Import prelude gmap strings sorting.
From S2P Require Import Prelude RustStd Model Durability.

Definition REGISTRATION_TTL_MS : Z := 30000.
Definition DELIVERY_LEASE_MS : Z := 60000.
Definition DELIVERY_TTL_MS : Z := 24 * 60 * 60 * 1000.
Definition TERMINAL_RETENTION_MS : Z := 30 * 24 * 60 * 60 * 1000.
Definition MAX_RETAINED_TASKS : nat := 4096.
Definition MAX_RETIRED_REGISTRATION_IDS : nat := MAX_RETAINED_TASKS.
Definition MAX_ACTIVE_OUTBOUND_TASKS : nat := 32.

(** [SystemClock::now_unix_ms] on the result of [duration_since(UNIX_EPOCH)] in
    milliseconds, [None] when the system clock is before the epoch. *)
Definition SystemClock_now_unix_ms (since_epoch : option Z) : Z :=
  let millis := default 0%Z since_epoch in
  default i64_max (checked i64_min i64_max millis).

Record DirectoryChanges := MkDirectoryChanges {
  generation : Z;           (** [AtomicU64] *)
  notify_waiters_calls : Z; (** wake-ups seen by a [Notified] future *)
}.

#[global] Instance DirectoryChanges_fields : Fields DirectoryChanges := λ r,
  MkDirectoryChanges (generation r) (notify_waiters_calls r).

(** [DirectoryChanges::record]; [fetch_add] wraps. *)
Definition directory_record (d : DirectoryChanges) : DirectoryChanges :=
  d <| generation ::= λ g, ((g + 1) mod (u64_max + 1))%Z |>
    <| notify_waiters_calls ::= λ n, (n + 1)%Z |>.

Record RegistrationState := MkRegistrationState {
  rs_registration : Registration;
  rs_inbox : list string;
  rs_notify : nat;      (** key of the [Notify] *)
  rs_wait_active : nat; (** key of the [AtomicBool] shared with [WaitGuard] *)
}.

#[global] Instance RegistrationState_fields : Fields RegistrationState := λ r,
  MkRegistrationState (rs_registration r) (rs_inbox r) (rs_notify r) (rs_wait_active r).

#[global] Instance Registration_fields : Fields Registration := λ r,
  MkRegistration (reg_id r) (reg_epoch r) (reg_agent r) (reg_harness_session_id r)
    (reg_expires_unix_ms r).

Record DeliveryLease := MkDeliveryLease {
  lease_delivery_id : DeliveryId;
  lease_owner : option RegistrationCredentials;
  lease_until_unix_ms : Z;
  lease_attempt : Z;
}.

#[global] Instance DeliveryLease_fields : Fields DeliveryLease := λ r,
  MkDeliveryLease (lease_delivery_id r) (lease_owner r) (lease_until_unix_ms r)
    (lease_attempt r).

Record BrokerStatusEvent := MkBrokerStatusEvent {
  event_kind : string;
  event_canonical_name : AgentName;
  event_unix_time : Z;
}.

Record DeliveryHandle := MkDeliveryHandle {
  handle_task_id : string;
  handle_context_id : string;
}.

Record BrokerRecoveryReport := MkBrokerRecoveryReport {
  report_requeued : nat;
  report_expired : nat;
  report_pruned : nat;
  report_restored : nat;
}.

#[global] Instance BrokerRecoveryReport_fields : Fields BrokerRecoveryReport := λ r,
  MkBrokerRecoveryReport (report_requeued r) (report_expired r) (report_pruned r)
    (report_restored r).

Record AgentDirectoryWait := MkAgentDirectoryWait {
  dir_generation : Z;
  dir_registrations : list Registration;
}.

Record BrokerTaskCounts := MkBrokerTaskCounts {
  count_queued : nat;
  count_leased : nat;
  count_waiting_reply : nat;
  count_terminal : nat;
}.

#[global] Instance BrokerTaskCounts_fields : Fields BrokerTaskCounts := λ r,
  MkBrokerTaskCounts (count_queued r) (count_leased r) (count_waiting_reply r)
    (count_terminal r).

Record BrokerOperationsSnapshot := MkBrokerOperationsSnapshot {
  ops_registrations : nat;
  ops_agents : list AgentName;
  ops_tasks : BrokerTaskCounts;
  ops_last_event : option BrokerStatusEvent;
}.

Section state.
Context `{JsonNumber}.

Definition ReplyResult : Type := Result DomainError ReplyPayload.

(** A [oneshot] channel: waiting, its receiver dropped, or resolved. *)
Inductive ReplyChannel := ChannelOpen | ChannelClosed | ChannelResolved (r : ReplyResult).

Record TaskRecord := MkTaskRecord {
  enqueue_sequence : Z;
  state_version : Z;
  original_delivery : QueuedDelivery;
  delivery : option QueuedDelivery;
  recipient : AgentName;
  sender : AgentName;
  lease : option DeliveryLease;
  last_delivery_attempt : option Z;
  acknowledged : bool;
  acknowledged_unix_ms : option Z;
  reply : option ReplyPayload;
  reply_waiters : list nat; (** keys of the [oneshot] channels *)
  failed : bool;
  rejected : bool;
  canceled : bool;
  expired : bool;
  terminal_unix_ms : option Z;
  terminal_deadline_unix_ms : option Z;
}.

#[global] Instance TaskRecord_fields : Fields TaskRecord := λ r,
  MkTaskRecord (enqueue_sequence r) (state_version r) (original_delivery r) (delivery r)
    (recipient r) (sender r) (lease r) (last_delivery_attempt r) (acknowledged r)
    (acknowledged_unix_ms r) (reply r) (reply_waiters r) (failed r) (rejected r)
    (canceled r) (expired r) (terminal_unix_ms r) (terminal_deadline_unix_ms r).

Record State := MkState {
  reconciliation_required : bool;
  last_event : option BrokerStatusEvent;
  next_registration_epoch : Z;
  next_task_sequence : Z;
  registrations : gmap RegistrationId RegistrationState;
  registrations_by_agent : gmap AgentName RegistrationId;
  retired_registration_ids : gset RegistrationId;
  retired_registration_order : list RegistrationId;
  active_tasks_by_agent : gmap AgentName (gset string);
  outbound_tasks_by_agent : gmap AgentName (gset string);
  tasks_by_sender : gmap AgentName (gset string);
  tasks_by_recipient : gmap AgentName (gset string);
  tasks : gmap string TaskRecord;
  tasks_by_delivery : gmap DeliveryId string;
  delivery_deadlines : list Deadline;
  terminal_deadlines : list Deadline;
}.

#[global] Instance State_fields : Fields State := λ r,
  MkState (reconciliation_required r) (last_event r) (next_registration_epoch r)
    (next_task_sequence r) (registrations r) (registrations_by_agent r)
    (retired_registration_ids r) (retired_registration_order r)
    (active_tasks_by_agent r) (outbound_tasks_by_agent r) (tasks_by_sender r)
    (tasks_by_recipient r) (tasks r) (tasks_by_delivery r) (delivery_deadlines r)
    (terminal_deadlines r).

(** [State::default()] *)
Definition State_default : State :=
  MkState false None 0 0 ∅ ∅ ∅ [] ∅ ∅ ∅ ∅ ∅ ∅ [] [].

Inductive StartOrResume :=
| Started (task : DurableTask)
| Active (task : DurableTask)
| Terminal (task : DurableTask).

Inductive DeliveryPoll :=
| Ready (message : DeliveredMessage)
| Pending (next_deadline_unix_ms : Z).

Inductive RecipientTerminalState := RecipientFailed | RecipientRejected.

Inductive TerminalState :=
| TerminalReplied (r : ReplyPayload)
| TerminalFailed (message : ReplyPayload)
| TerminalRejected (message : ReplyPayload)
| TerminalCanceled
| TerminalExpired.

(** The objects behind [Arc]s. *)
Record Shared := MkShared {
  permits : gset nat;             (** [Notify]s holding a permit of [notify_one] *)
  flags : gmap nat bool;          (** [AtomicBool]s *)
  next_key : nat;
  directory : DirectoryChanges;
  channels : gmap nat ReplyChannel;
  next_channel : nat;
}.

#[global] Instance Shared_fields : Fields Shared := λ r,
  MkShared (permits r) (flags r) (next_key r) (directory r) (channels r) (next_channel r).

Definition Shared_default : Shared :=
  MkShared ∅ ∅ 0 (MkDirectoryChanges 0 0) ∅ 0.
End state.

(** [BrokerInner]: the protected state, the store, the shared objects.  The
    clock is an input of every operation: each critical section samples it once,
    after taking the lock. *)
Record World `{JsonNumber} (P : Type) := MkWorld {
  w_state : State;
  w_store : P;
  w_shared : Shared;
}.
Arguments MkWorld {_ _} _ _ _.
Arguments w_state {_ _} _.
Arguments w_store {_ _} _.
Arguments w_shared {_ _} _.

#[global] Instance World_fields `{JsonNumber} P : Fields (World P) := λ r,
  MkWorld (w_state r) (w_store r) (w_shared r).

(** [BrokerState::with_clock] *)
Definition BrokerState_with_clock `{JsonNumber} : World VolatilePersistence :=
  MkWorld State_default tt Shared_default.

(** ** Helpers on the state *)

Section helpers.
Context `{JsonNumber}.

Definition record_status_event (kind : string) (name : AgentName) (unix_ms : Z)
    (st : State) : State :=
  st <| last_event := Some (MkBrokerStatusEvent kind name (unix_ms / 1000)%Z) |>.

Definition active_registration_id (st : State) (name : AgentName) (now : Z)
    : option RegistrationId :=
  registration_id ← registrations_by_agent st !! name;
  registration ← registrations st !! registration_id;
  if (now <? reg_expires_unix_ms (rs_registration registration))%Z
  then Some registration_id else None.

Definition push_inbox (task_id : string) (r : RegistrationState) : RegistrationState :=
  r <| rs_inbox ::= λ inbox, inbox ++ [task_id] |>.

(** [inbox.retain(|queued| queued != task_id)] *)
Definition retain_inbox (task_id : string) (r : RegistrationState) : RegistrationState :=
  r <| rs_inbox ::= filter (λ queued, queued ≠ task_id) |>.

Definition validate_active_registration (st : State) (c : RegistrationCredentials)
    (now : Z) : Outcome DomainError () :=
  match registrations st !! cred_id c with
  | None =>
      if bool_decide (cred_id c ∈ retired_registration_ids st)
      then Fail RegistrationExpired else Fail RegistrationNotFound
  | Some registration =>
      let r := rs_registration registration in
      reject_if
        (negb (bool_decide (reg_epoch r = cred_epoch c))
         || (reg_expires_unix_ms r <=? now)%Z
         || negb (bool_decide (registrations_by_agent st !! agent_name (reg_agent r)
                               = Some (cred_id c))))
        RegistrationExpired
  end.

(** [!task.acknowledged && task.lease.is_some_and(|l| l.owner == Some(c))] *)
Definition leased_to (c : RegistrationCredentials) (task : TaskRecord) : bool :=
  negb (acknowledged task) &&
  match lease task with
  | Some l => bool_decide (lease_owner l = Some c)
  | None => false
  end.

(** [duration_until] in milliseconds; the difference of two [i64] fits. *)
Definition duration_until (now deadline : Z) : Z := Z.max (deadline - now) 0.

(** [reply_result_for_task] *)
Definition reply_result_for_task (task : TaskRecord) : option ReplyResult :=
  if canceled task then Some (Err TaskCanceled)
  else if expired task then Some (Err TaskExpired)
  else if failed task then Some (Err TaskFailed)
  else if rejected task then Some (Err TaskRejected)
  else Ok <$> reply task.

(** ** Shared objects *)

Definition notify_one (key : nat) (sh : Shared) : Shared :=
  sh <| permits ::= λ p, {[ key ]} ∪ p |>.

(** [oneshot::Sender::send]; the result is dropped when the receiver is gone. *)
Definition send_reply (waiter : nat) (result : ReplyResult) (sh : Shared) : Shared :=
  match channels sh !! waiter with
  | Some ChannelOpen => sh <| channels ::= insert waiter (ChannelResolved result) |>
  | _ => sh
  end.

(** [resolve_reply_waiters] *)
Definition resolve_reply_waiters (resolutions : list (nat * ReplyResult)) (sh : Shared)
    : Shared :=
  foldl (λ sh r, send_reply r.1 r.2 sh) sh resolutions.

(** [waiter.is_closed()] *)
Definition waiter_is_closed (sh : Shared) (waiter : nat) : bool :=
  match channels sh !! waiter with Some ChannelOpen => false | _ => true end.
End helpers.
