(* ===== verification/BrokerDurable.v ===== *)
(** * Durable images of tasks

    The functions of [broker.rs] that build the durable row of a task, check the
    rows of a snapshot, and restore a task from its row. *)
From stdpp Require Import prelude gmap strings sorting.
From S2P Require Import Prelude RustStd Model Validation Durability BrokerState.

(** [x.ok_or(DomainError::PersistenceUnavailable)?] *)
Definition or_unavailable {A} (o : option A) : Outcome DomainError A :=
  ok_or o PersistenceUnavailable.

Section durable_tasks.
Context `{JsonNumber}.

Definition single_task_batch (task : DurableTask) : PersistenceBatch :=
  MkBatch None [task] [].

Definition next_state_version (task : TaskRecord) : Outcome DomainError Z :=
  or_unavailable (checked_add_u64 (state_version task) 1).

Definition durable_state (task : TaskRecord) : DurableTaskState :=
  if failed task then Failed
  else if rejected task then Rejected
  else if is_some (reply task) then Replied
  else if canceled task then Canceled
  else if expired task then Expired
  else if acknowledged task then Acknowledged
  else if is_some (lease task) then Leased
  else Queued.

Definition durable_lease (task : TaskRecord) (l : DeliveryLease) : DurableLease :=
  MkDurableLease (lease_delivery_id l) (recipient task) (lease_until_unix_ms l)
    (lease_attempt l).

Definition durable_task (task_id : string) (task : TaskRecord)
    : Outcome DomainError DurableTask :=
  let original := original_delivery task in
  let? deadline := or_unavailable
    (checked_add_i64 (qd_created_unix_ms original) DELIVERY_TTL_MS) in
  Done {|
    dt_task_id := task_id;
    dt_context_id := qd_context_id original;
    dt_sender := sender task;
    dt_recipient := recipient task;
    dt_payload := qd_payload original;
    dt_created_unix_ms := qd_created_unix_ms original;
    dt_delivery_deadline_unix_ms := deadline;
    dt_state_version := state_version task;
    dt_state := durable_state task;
    dt_lease := durable_lease task <$> lease task;
    dt_attempt := default (qd_attempt original) (last_delivery_attempt task);
    dt_acknowledged_unix_ms := acknowledged_unix_ms task;
    dt_reply := reply task;
    dt_terminal_unix_ms := terminal_unix_ms task;
    dt_retention_deadline_unix_ms := terminal_deadline_unix_ms task;
  |}.

Definition durable_requeued_task (task_id : string) (task : TaskRecord)
    : Outcome DomainError DurableTask :=
  let? durable := durable_task task_id task in
  let? version := next_state_version task in
  Done (durable <| dt_state_version := version |>
                <| dt_state := Queued |>
                <| dt_lease := None |>
                <| dt_acknowledged_unix_ms := None |>).

Definition durable_leased_task (task_id : string) (task : TaskRecord) (l : DeliveryLease)
    : Outcome DomainError DurableTask :=
  let? durable := durable_task task_id task in
  let? version := next_state_version task in
  Done (durable <| dt_state_version := version |>
                <| dt_state := Leased |>
                <| dt_lease := Some (durable_lease task l) |>
                <| dt_attempt := lease_attempt l |>
                <| dt_acknowledged_unix_ms := None |>).

Definition durable_acknowledged_task (task_id : string) (task : TaskRecord) (now : Z)
    : Outcome DomainError DurableTask :=
  let? durable := durable_task task_id task in
  let? version := next_state_version task in
  Done (durable <| dt_state_version := version |>
                <| dt_state := Acknowledged |>
                <| dt_acknowledged_unix_ms := Some now |>).

Definition durable_terminal_task (task_id : string) (task : TaskRecord) (now : Z)
    (state : DurableTaskState) (r : option ReplyPayload) : Outcome DomainError DurableTask :=
  let? durable := durable_task task_id task in
  let? version := next_state_version task in
  let? retention := or_unavailable (checked_add_i64 now TERMINAL_RETENTION_MS) in
  Done (durable <| dt_state_version := version |>
                <| dt_state := state |>
                <| dt_lease := None |>
                <| dt_acknowledged_unix_ms := None |>
                <| dt_reply := r |>
                <| dt_terminal_unix_ms := Some now |>
                <| dt_retention_deadline_unix_ms := Some retention |>).

(** [matches!(state, Replied | Failed | Rejected | Canceled | Expired)] *)
Definition state_is_terminal (state : DurableTaskState) : bool :=
  match state with
  | Replied | Failed | Rejected | Canceled | Expired => true
  | Queued | Leased | Acknowledged => false
  end.

Section validate.
Context {serde : SerdeJson}.

(** The columns each state requires. *)
Definition valid_state (task : DurableTask) : bool :=
  match dt_state task with
  | Queued =>
      is_none (dt_lease task) && is_none (dt_acknowledged_unix_ms task)
      && is_none (dt_reply task) && is_none (dt_terminal_unix_ms task)
  | Leased =>
      is_some (dt_lease task) && is_none (dt_acknowledged_unix_ms task)
      && is_none (dt_reply task) && is_none (dt_terminal_unix_ms task)
  | Acknowledged =>
      is_some (dt_lease task) && is_some (dt_acknowledged_unix_ms task)
      && is_none (dt_reply task) && is_none (dt_terminal_unix_ms task)
  | Replied | Failed | Rejected =>
      is_none (dt_lease task) && is_none (dt_acknowledged_unix_ms task)
      && is_some (dt_reply task) && is_some (dt_terminal_unix_ms task)
  | Canceled | Expired =>
      is_none (dt_lease task) && is_none (dt_acknowledged_unix_ms task)
      && is_none (dt_reply task) && is_some (dt_terminal_unix_ms task)
  end.

Definition terminal_times_valid (task : DurableTask) : bool :=
  match dt_terminal_unix_ms task, dt_retention_deadline_unix_ms task with
  | None, None => true
  | Some terminal, Some retention =>
      (dt_created_unix_ms task <=? terminal)%Z
      && bool_decide (checked_add_i64 terminal TERMINAL_RETENTION_MS = Some retention)
  | _, _ => false
  end.

Definition lease_columns_valid (task : DurableTask) : bool :=
  match dt_lease task with
  | None => true
  | Some l =>
      bool_decide (dl_owner l = dt_recipient task)
      && (dl_attempt l =? dt_attempt task)%Z
      && (dt_created_unix_ms task <=? dl_leased_until_unix_ms l)%Z
  end.

Definition payload_of_reply (r : ReplyPayload) : ValidatedPayload :=
  MkValidatedPayload (rp_text r) (rp_metadata r) (rp_file_refs r).

Definition validate_durable_task (task : DurableTask) : Outcome DomainError () :=
  let unavailable {A} (m : Outcome DomainError A) := map_err PersistenceUnavailable m in
  let? _ := unavailable (validate_task_id (dt_task_id task)) in
  let? _ := unavailable (validate_task_id (dt_context_id task)) in
  let? _ := unavailable (AgentName_parse (agent_str (dt_sender task))) in
  let? _ := unavailable (AgentName_parse (agent_str (dt_recipient task))) in
  let? _ := unavailable (validate_persisted_payload (dt_payload task)) in
  let? _ := match dt_reply task with
            | Some r => unavailable (validate_persisted_payload (payload_of_reply r))
            | None => Done tt
            end in
  let? deadline := or_unavailable
    (checked_add_i64 (dt_created_unix_ms task) DELIVERY_TTL_MS) in
  let? _ := reject_if
    ((dt_created_unix_ms task <? 0)%Z
     || negb (dt_delivery_deadline_unix_ms task =? deadline)%Z
     || (dt_state_version task =? 0)%Z) PersistenceUnavailable in
  let? _ := reject_if (negb (lease_columns_valid task)) PersistenceUnavailable in
  let? _ := reject_if
    (from_option (λ ack, (ack <? dt_created_unix_ms task)
                         || (dt_delivery_deadline_unix_ms task <? ack))%Z false
       (dt_acknowledged_unix_ms task)) PersistenceUnavailable in
  let? _ := reject_if (negb (terminal_times_valid task)) PersistenceUnavailable in
  reject_if (negb (valid_state task)) PersistenceUnavailable.

(** The loop of [validate_and_reconcile_snapshot]. *)
Record Reconcile := MkReconcile {
  rec_task_ids : gset string;
  rec_delivery_ids : gset DeliveryId;
  rec_restored : list DurableTask;
  rec_upserts : list DurableTask;
  rec_deletes : list string;
  rec_report : BrokerRecoveryReport;
}.

#[global] Instance Reconcile_fields : Fields Reconcile := λ r,
  MkReconcile (rec_task_ids r) (rec_delivery_ids r) (rec_restored r) (rec_upserts r)
    (rec_deletes r) (rec_report r).

(** What becomes of a row that is kept: expired past its delivery deadline,
    an unacknowledged lease requeued, anything else unchanged.  [Some] of a
    count marks a row that changed. *)
Inductive Reconciled := Unchanged | WasExpired | WasRequeued.

Definition reconcile_task (task : DurableTask) (now : Z)
    : Outcome DomainError (DurableTask * Reconciled) :=
  if negb (state_is_terminal (dt_state task))
     && (dt_delivery_deadline_unix_ms task <=? now)%Z
  then
    let? retention := or_unavailable (checked_add_i64 now TERMINAL_RETENTION_MS) in
    let? version := or_unavailable (checked_add_u64 (dt_state_version task) 1) in
    Done (task <| dt_state_version := version |>
               <| dt_state := Expired |>
               <| dt_lease := None |>
               <| dt_acknowledged_unix_ms := None |>
               <| dt_reply := None |>
               <| dt_terminal_unix_ms := Some now |>
               <| dt_retention_deadline_unix_ms := Some retention |>, WasExpired)
  else if bool_decide (dt_state task = Leased) then
    let? version := or_unavailable (checked_add_u64 (dt_state_version task) 1) in
    Done (task <| dt_state_version := version |>
               <| dt_state := Queued |>
               <| dt_lease := None |>, WasRequeued)
  else Done (task, Unchanged).

Definition reconcile_step (now : Z) (task : DurableTask) : ST Reconcile DomainError () :=
  let! _ := st_lift (validate_durable_task task) in
  let! acc := st_get in
  let! _ := st_lift (reject_if (bool_decide (dt_task_id task ∈ rec_task_ids acc))
                       PersistenceUnavailable) in
  let! _ := st_modify (λ acc, acc <| rec_task_ids ::= λ s, {[ dt_task_id task ]} ∪ s |>) in
  let! _ := match dt_lease task with
            | None => st_ret tt
            | Some l =>
                let! _ := st_lift (reject_if
                  (bool_decide (dl_delivery_id l ∈ rec_delivery_ids acc))
                  PersistenceUnavailable) in
                st_modify (λ acc, acc <| rec_delivery_ids ::=
                                           λ s, {[ dl_delivery_id l ]} ∪ s |>)
            end in
  if from_option (λ deadline, (deadline <=? now)%Z) false (dt_retention_deadline_unix_ms task)
  then st_modify (λ acc,
         acc <| rec_deletes ::= λ l, l ++ [dt_task_id task] |>
             <| rec_report ::= λ r, r <| report_pruned ::= S |> |>)
  else
    let! (task, change) := st_lift (reconcile_task task now) in
    let! _ := match change with
              | Unchanged => st_ret tt
              | WasExpired => st_modify (λ acc,
                  acc <| rec_upserts ::= λ l, l ++ [task] |>
                      <| rec_report ::= λ r, r <| report_expired ::= S |> |>)
              | WasRequeued => st_modify (λ acc,
                  acc <| rec_upserts ::= λ l, l ++ [task] |>
                      <| rec_report ::= λ r, r <| report_requeued ::= S |> |>)
              end in
    st_modify (λ acc, acc <| rec_restored ::= λ l, l ++ [task] |>).

Definition validate_and_reconcile_snapshot (tasks : list DurableTask) (now : Z)
    (report : BrokerRecoveryReport)
    : Outcome DomainError (list DurableTask * PersistenceBatch * BrokerRecoveryReport) :=
  if (MAX_RETAINED_TASKS <? length tasks)%nat then Fail PersistenceUnavailable
  else
    match for_each (reconcile_step now) tasks (MkReconcile ∅ ∅ [] [] [] report) with
    | (Done _, acc) =>
        Done (rec_restored acc, MkBatch None (rec_upserts acc) (rec_deletes acc),
              rec_report acc)
    | (Fail e, _) => Fail e
    | (Panic msg, _) => Panic msg
    end.
End validate.

(** ** Restoring *)

(** The record a durable row becomes. *)
Definition restored_record (sequence : Z) (task : DurableTask) : TaskRecord :=
  let original := {|
    qd_task_id := dt_task_id task;
    qd_context_id := dt_context_id task;
    qd_sender := dt_sender task;
    qd_recipient := dt_recipient task;
    qd_payload := dt_payload task;
    qd_created_unix_ms := dt_created_unix_ms task;
    qd_attempt := dt_attempt task;
  |} in
  {|
    enqueue_sequence := sequence;
    state_version := dt_state_version task;
    original_delivery := original;
    delivery := if state_is_terminal (dt_state task) then None else Some original;
    recipient := dt_recipient task;
    sender := dt_sender task;
    lease := (λ l, MkDeliveryLease (dl_delivery_id l) None (dl_leased_until_unix_ms l)
                     (dl_attempt l)) <$> dt_lease task;
    last_delivery_attempt :=
      if (1 <? dt_state_version task)%Z then Some (dt_attempt task) else None;
    acknowledged := bool_decide (dt_state task = Acknowledged);
    acknowledged_unix_ms := dt_acknowledged_unix_ms task;
    reply := dt_reply task;
    reply_waiters := [];
    failed := bool_decide (dt_state task = Failed);
    rejected := bool_decide (dt_state task = Rejected);
    canceled := bool_decide (dt_state task = Canceled);
    expired := bool_decide (dt_state task = Expired);
    terminal_unix_ms := dt_terminal_unix_ms task;
    terminal_deadline_unix_ms := dt_retention_deadline_unix_ms task;
  |}.

Definition restore_task (task : DurableTask) : ST State DomainError () :=
  let task_id := dt_task_id task in
  let! sequence := st_gets next_task_sequence in
  let record := restored_record sequence task in
  let! _ :=
    if state_is_terminal (dt_state task) then
      let! deadline := st_lift (or_unavailable (terminal_deadline_unix_ms record)) in
      st_modify (λ st, st <| terminal_deadlines ::= heap_push (deadline, task_id) |>)
    else st_modify (λ st,
      st <| tasks_by_delivery ::= λ m,
              match lease record with
              | Some l => <[lease_delivery_id l := task_id]> m
              | None => m
              end |>
         <| delivery_deadlines ::= heap_push (dt_delivery_deadline_unix_ms task, task_id) |>
         <| active_tasks_by_agent ::= idx_insert (sender record) task_id |>
         <| active_tasks_by_agent ::= idx_insert (recipient record) task_id |>
         <| outbound_tasks_by_agent ::= idx_insert (sender record) task_id |>
         <| tasks_by_sender ::= idx_insert (sender record) task_id |>
         <| tasks_by_recipient ::= idx_insert (recipient record) task_id |>) in
  st_modify (λ st, st <| tasks ::= insert task_id record |>).

(** The order of [tasks.sort_by] in [recover] and in the reconciliation. *)
Definition recovery_le (a b : DurableTask) : Prop :=
  deadline_le (dt_created_unix_ms a, dt_task_id a) (dt_created_unix_ms b, dt_task_id b).

#[global] Instance recovery_le_dec : RelDecision recovery_le.
Proof. intros a b. unfold recovery_le. apply _. Defined.

(** The loop that restores a sorted snapshot, the sequence number first. *)
Definition restore_tasks (tasks : list DurableTask) : ST State DomainError () :=
  for_each (λ task,
    let! sequence := st_gets next_task_sequence in
    let! sequence := st_lift (or_unavailable (checked_add_u64 sequence 1)) in
    let! _ := st_modify (λ st, st <| next_task_sequence := sequence |>) in
    restore_task task) tasks.

(** [tasks.retain(|t| t.retention_deadline.is_none_or(|d| d > now))] *)
Definition retained_at (now : Z) (task : DurableTask) : bool :=
  from_option (λ deadline, (now <? deadline)%Z) true (dt_retention_deadline_unix_ms task).
End durable_tasks.
