(* ===== verification/BrokerMaintain.v ===== *)
(** * Transitions and maintenance

    The functions of [broker.rs] that move a task to a terminal state, detach a
    registration, prune, commit a batch, reload the state from the store, and
    [maintain_state], which every operation runs under the lock before its own
    work. *)
From stdpp Require Import prelude gmap strings sorting.
From S2P Require Import Prelude RustStd Model Validation Durability BrokerState BrokerDurable.

Section transitions.
Context `{JsonNumber}.

(** The field assignments of [terminalize_task] on the record. *)
Definition terminal_record (now deadline version : Z) (terminal_state : TerminalState)
    (task : TaskRecord) : TaskRecord :=
  let cleared :=
    task <| reply_waiters := [] |>
         <| state_version := version |>
         <| delivery := None |>
         <| lease := None |>
         <| acknowledged := false |>
         <| acknowledged_unix_ms := None |>
         <| reply := None |>
         <| failed := false |>
         <| rejected := false |>
         <| canceled := false |>
         <| expired := false |> in
  let marked :=
    match terminal_state with
    | TerminalReplied r => cleared <| reply := Some r |>
    | TerminalFailed message => cleared <| reply := Some message |> <| failed := true |>
    | TerminalRejected message => cleared <| reply := Some message |> <| rejected := true |>
    | TerminalCanceled => cleared <| canceled := true |>
    | TerminalExpired => cleared <| expired := true |>
    end in
  marked <| terminal_unix_ms := Some now |> <| terminal_deadline_unix_ms := Some deadline |>.

(** [if tasks_by_delivery.get(&d) == Some(task_id) { remove }] *)
Definition forget_delivery (d : option DeliveryId) (task_id : string) (st : State) : State :=
  match d with
  | Some d =>
      if bool_decide (tasks_by_delivery st !! d = Some task_id)
      then st <| tasks_by_delivery ::= delete d |> else st
  | None => st
  end.

(** Drop the task from the inbox of the recipient's current registration. *)
Definition forget_inbox (agent : AgentName) (task_id : string) (st : State) : State :=
  match registrations_by_agent st !! agent with
  | Some registration_id =>
      st <| registrations ::= alter (retain_inbox task_id) registration_id |>
  | None => st
  end.

Definition terminalize_task (task_id : string) (now : Z) (terminal_state : TerminalState)
    : ST State DomainError (list nat) :=
  let! deadline := st_lift (or_unavailable (checked_add_i64 now TERMINAL_RETENTION_MS)) in
  let! st := st_get in
  let! task := st_lift (expect (tasks st !! task_id)
                          "active task index must reference a task") in
  if is_some (terminal_deadline_unix_ms task) then st_ret []
  else
    let delivery_id := lease_delivery_id <$> lease task in
    let waiters := reply_waiters task in
    let! version := st_lift (expect (checked_add_u64 (state_version task) 1)
                               "validated durable state version must advance") in
    let! _ := st_modify (λ st,
      st <| tasks ::= insert task_id
                        (terminal_record now deadline version terminal_state task) |>) in
    let! _ := st_modify (forget_delivery delivery_id task_id) in
    let! _ := st_modify (forget_inbox (recipient task) task_id) in
    let! _ := st_modify (λ st,
      st <| active_tasks_by_agent ::= idx_remove (recipient task) task_id |>
         <| active_tasks_by_agent ::= idx_remove (sender task) task_id |>
         <| outbound_tasks_by_agent ::= idx_remove (sender task) task_id |>
         <| tasks_by_sender ::= idx_remove (sender task) task_id |>
         <| tasks_by_recipient ::= idx_remove (recipient task) task_id |>
         <| terminal_deadlines ::= heap_push (deadline, task_id) |>) in
    st_ret waiters.

(** [retire_registration_id]; one insertion makes the queue at most one too
    long, and the loop removes from the front until it fits. *)
Fixpoint trim_retired (order : list RegistrationId) (ids : gset RegistrationId)
    : list RegistrationId * gset RegistrationId :=
  match order with
  | expired_id :: rest =>
      if (MAX_RETIRED_REGISTRATION_IDS <? length order)%nat
      then trim_retired rest (ids ∖ {[ expired_id ]})
      else (order, ids)
  | [] => (order, ids)
  end.

Definition retire_registration_id (registration_id : RegistrationId) (st : State) : State :=
  let ids := retired_registration_ids st in
  let order :=
    if bool_decide (registration_id ∈ ids) then retired_registration_order st
    else retired_registration_order st ++ [registration_id] in
  let '(order, ids) := trim_retired order ({[ registration_id ]} ∪ ids) in
  st <| retired_registration_ids := ids |> <| retired_registration_order := order |>.

(** Take the lease of one task and forget its delivery. *)
Definition take_lease (task_id : string) (st : State) : State :=
  match tasks st !! task_id with
  | Some task =>
      forget_delivery (lease_delivery_id <$> lease task) task_id
        (st <| tasks ::= insert task_id (task <| lease := None |>) |>)
  | None => st
  end.

Definition detach_registration (registration_id : RegistrationId) (retire : bool)
    (st : State) : option RegistrationState * State :=
  match registrations st !! registration_id with
  | None => (None, st)
  | Some registration =>
      let st := st <| registrations ::= delete registration_id |> in
      let name := agent_name (reg_agent (rs_registration registration)) in
      let st :=
        if bool_decide (registrations_by_agent st !! name = Some registration_id)
        then st <| registrations_by_agent ::= delete name |> else st in
      let st := if retire then retire_registration_id registration_id st else st in
      let c := credentials (rs_registration registration) in
      let leased_task_ids :=
        (filter (λ kv, leased_to c kv.2 = true) (map_to_list (tasks st))).*1 in
      (Some registration, foldl (λ st task_id, take_lease task_id st) st leased_task_ids)
  end.

(** The [while] loop of [prune_terminal_tasks] over the queue. *)
Fixpoint prune_terminal_queue (now : Z) (queue : list Deadline)
    (ts : gmap string TaskRecord) : list Deadline * gmap string TaskRecord :=
  match queue with
  | (deadline, task_id) :: rest =>
      if (deadline <=? now)%Z then
        let due := match ts !! task_id with
                   | Some task =>
                       bool_decide (terminal_deadline_unix_ms task = Some deadline)
                   | None => false
                   end in
        prune_terminal_queue now rest (if due then delete task_id ts else ts)
      else (queue, ts)
  | [] => (queue, ts)
  end.

Definition prune_terminal_tasks (now : Z) (st : State) : State :=
  let '(queue, ts) := prune_terminal_queue now (terminal_deadlines st) (tasks st) in
  st <| terminal_deadlines := queue |> <| tasks := ts |>.

Fixpoint prune_delivery_queue (now : Z) (queue : list Deadline) : list Deadline :=
  match queue with
  | (deadline, _) :: rest =>
      if (deadline <=? now)%Z then prune_delivery_queue now rest else queue
  | [] => queue
  end.

Definition prune_delivery_deadlines (now : Z) (st : State) : State :=
  st <| delivery_deadlines ::= prune_delivery_queue now |>.

(** [bump_requeued_versions_for_credentials]: every task still leased to [c]. *)
Definition bump_requeued_versions_for_credentials (c : RegistrationCredentials)
    : ST State DomainError () :=
  let! st := st_get in
  for_each (λ kv : string * TaskRecord,
    if leased_to c kv.2 then
      let! version := st_lift (expect (checked_add_u64 (state_version kv.2) 1)
                                 "persisted requeue version must have advanced") in
      st_modify (λ st, st <| tasks ::= insert kv.1 (kv.2 <| state_version := version |>) |>)
    else st_ret tt) (map_to_list (tasks st)).
End transitions.

(** ** With the store *)

Section maintenance.
Context `{JsonNumber} {serde : SerdeJson} {P : Type} {persistence : BrokerPersistence P}.

#[local] Abbreviation M := (ST (World P) DomainError).

Definition on_state {A} (m : ST State DomainError A) : M A :=
  zoom w_state (λ st w, w <| w_state := st |>) m.
Definition get_state : M State := st_gets w_state.
Definition modify_state (f : State → State) : M () := st_modify (λ w, w <| w_state ::= f |>).
Definition modify_shared (f : Shared → Shared) : M () :=
  st_modify (λ w, w <| w_shared ::= f |>).

Definition persistence_load (now : Z) : M DurableBrokerSnapshot := λ w,
  let '(r, p) := load now (w_store w) in (of_result r, w <| w_store := p |>).
Definition persistence_commit (batch : PersistenceBatch) : M PersistenceCommitOutcome := λ w,
  let '(r, p) := commit batch (w_store w) in (of_result r, w <| w_store := p |>).

Definition commit_transition (batch : PersistenceBatch) : M () :=
  let! outcome := persistence_commit batch in
  match outcome with
  | Complete => st_ret tt
  | ReconciliationRequired =>
      let! _ := modify_state (λ st, st <| reconciliation_required := true |>) in
      st_fail PersistenceUnavailable
  end.

(** Forget every task; the waiters have been taken out before. *)
Definition clear_tasks (epoch : Z) (st : State) : State :=
  st <| next_registration_epoch ::= λ e, Z.max e epoch |>
     <| next_task_sequence := 0%Z |>
     <| active_tasks_by_agent := ∅ |>
     <| outbound_tasks_by_agent := ∅ |>
     <| tasks_by_sender := ∅ |>
     <| tasks_by_recipient := ∅ |>
     <| tasks := ∅ |>
     <| tasks_by_delivery := ∅ |>
     <| delivery_deadlines := [] |>
     <| terminal_deadlines := [] |>
     <| registrations ::= fmap (λ r, r <| rs_inbox := [] |>) |>.

(** The live credentials of each agent. *)
Definition active_credentials (now : Z) (st : State)
    : gmap AgentName RegistrationCredentials :=
  omap (λ registration_id,
    r ← registrations st !! registration_id;
    if (now <? reg_expires_unix_ms (rs_registration r))%Z
    then Some (credentials (rs_registration r)) else None) (registrations_by_agent st).

Definition assign_lease_owners (now : Z) (st : State) : State :=
  let active := active_credentials now st in
  st <| tasks ::= fmap (λ task,
          match lease task with
          | Some l => task <| lease := Some (l <| lease_owner := active !! recipient task |>) |>
          | None => task
          end) |>.

(** Give the waiters of one task back to it, or resolve them. *)
Definition rewait (st : State) (entry : string * list nat)
    : State * list (nat * ReplyResult) :=
  let '(task_id, waiters) := entry in
  match tasks st !! task_id with
  | Some task =>
      match reply_result_for_task task with
      | Some result => (st, (λ waiter, (waiter, result)) <$> waiters)
      | None =>
          (st <| tasks ::= insert task_id
                             (task <| reply_waiters ::= λ l, l ++ waiters |>) |>, [])
      end
  | None => (st, (λ waiter, (waiter, Err TaskNotFound)) <$> waiters)
  end.

Fixpoint rewait_all (entries : list (string * list nat)) (st : State)
    : State * list (nat * ReplyResult) :=
  match entries with
  | [] => (st, [])
  | e :: entries =>
      let '(st, r) := rewait st e in
      let '(st, rs) := rewait_all entries st in
      (st, r ++ rs)
  end.

(** One entry per task that waits for the live registration of its recipient. *)
Definition inbox_entry (now : Z) (st : State) (kv : string * TaskRecord)
    : option (string * Deadline) :=
  let '(task_id, task) := kv in
  if is_some (delivery task) && negb (acknowledged task) && negb (canceled task)
     && negb (expired task) && is_none (reply task) && is_none (lease task)
  then
    registration_id ← registrations_by_agent st !! recipient task;
    r ← registrations st !! registration_id;
    if (now <? reg_expires_unix_ms (rs_registration r))%Z
    then Some (rid_str registration_id, (enqueue_sequence task, task_id)) else None
  else None.

Definition inbox_entry_le (a b : string * Deadline) : Prop :=
  (a.1 ≠ b.1 ∧ String.le a.1 b.1) ∨ (a.1 = b.1 ∧ deadline_le a.2 b.2).

#[global] Instance inbox_entry_le_dec : RelDecision inbox_entry_le.
Proof. intros a b. unfold inbox_entry_le. apply _. Defined.

(** Push the sorted entries and collect the cells to notify. *)
Definition push_entries (entries : list (string * Deadline)) (st : State) : State * list nat :=
  foldl (λ acc entry,
    let '(st, keys) := acc in
    let registration_id := MkRegistrationId entry.1 in
    match registrations st !! registration_id with
    | Some r =>
        (st <| registrations ::= insert registration_id (push_inbox entry.2.2 r) |>,
         keys ++ [rs_notify r])
    | None => (st, keys)
    end) (st, []) entries.

Definition reconcile_state_if_required (now : Z) : M () :=
  let! st := get_state in
  if negb (reconciliation_required st) then st_ret tt
  else
    let! repair := persistence_commit (MkBatch None [] []) in
    let! _ := st_lift (reject_if (bool_decide (repair = ReconciliationRequired))
                         PersistenceUnavailable) in
    let! snapshot := persistence_load now in
    let epoch := epoch_get (snap_last_registration_epoch snapshot) in
    let! _ := st_lift (reject_if (epoch =? u64_max)%Z PersistenceUnavailable) in
    let! (restored, batch, _) := st_lift
      (validate_and_reconcile_snapshot (snap_tasks snapshot) now
         (MkBrokerRecoveryReport 0 0 0 0)) in
    let! _ :=
      if negb (batch_is_empty batch) then
        let! outcome := persistence_commit batch in
        st_lift (reject_if (bool_decide (outcome = ReconciliationRequired))
                   PersistenceUnavailable)
      else st_ret tt in
    let restored := merge_sort recovery_le (filter (λ t, retained_at now t = true) restored) in
    let! st := get_state in
    let retained_waiters :=
      filter (λ kv, kv.2 ≠ []) (prod_map id reply_waiters <$> map_to_list (tasks st)) in
    let! _ := modify_state (clear_tasks epoch) in
    let! _ := on_state (restore_tasks restored) in
    let! _ := modify_state (assign_lease_owners now) in
    let! st := get_state in
    let '(st, resolutions) := rewait_all retained_waiters st in
    let entries :=
      merge_sort inbox_entry_le (omap (inbox_entry now st) (map_to_list (tasks st))) in
    let '(st, keys) := push_entries entries st in
    let! _ := modify_state (λ _, st <| reconciliation_required := false |>) in
    let! _ := modify_shared (resolve_reply_waiters resolutions) in
    modify_shared (λ sh, foldl (λ sh key, notify_one key sh) sh keys).

(** [Some task_id] for a task past its delivery deadline. *)
Definition due_task_id (now : Z) (kv : string * TaskRecord)
    : Outcome DomainError (option string) :=
  let '(task_id, task) := kv in
  match terminal_deadline_unix_ms task, delivery task with
  | None, Some d =>
      let? deadline := or_unavailable
        (checked_add_i64 (qd_created_unix_ms d) DELIVERY_TTL_MS) in
      Done (if (deadline <=? now)%Z then Some task_id else None)
  | _, _ => Done None
  end.

Definition expiring_upsert (now : Z) (st : State) (task_id : string)
    : Outcome DomainError DurableTask :=
  let? task := expect (tasks st !! task_id) "selected task must exist" in
  durable_terminal_task task_id task now Expired None.

(** A lease, not due itself, whose owner expires now. *)
Definition requeue_upsert (due : list string) (expired : gset RegistrationCredentials)
    (kv : string * TaskRecord) : Outcome DomainError (option DurableTask) :=
  let '(task_id, task) := kv in
  if negb (bool_decide (task_id ∈ due)) && negb (acknowledged task)
     && match lease task with
        | Some l => from_option (λ c, bool_decide (c ∈ expired)) false (lease_owner l)
        | None => false
        end
  then let? durable := durable_requeued_task task_id task in Done (Some durable)
  else Done None.

(** The loop over [due_task_ids] that moves each to [Expired]. *)
Fixpoint expire_tasks (now : Z) (task_ids : list string) : ST State DomainError (list nat) :=
  match task_ids with
  | [] => st_ret []
  | task_id :: task_ids =>
      let! waiters := terminalize_task task_id now TerminalExpired in
      let! rest := expire_tasks now task_ids in
      st_ret (waiters ++ rest)
  end.

(** Detach each expired registration and wake what waits on it. *)
Fixpoint detach_expired (ids : list RegistrationId) : M () :=
  match ids with
  | [] => st_ret tt
  | id :: ids =>
      let! st := get_state in
      let '(registration, st) := detach_registration id true st in
      let! _ := modify_state (λ _, st) in
      let! _ := match registration with
                | Some r => modify_shared (notify_one (rs_notify r))
                | None => st_ret tt
                end in
      detach_expired ids
  end.

Definition expired_registrations (now : Z) (st : State) : list RegistrationId :=
  (filter (λ kv, (reg_expires_unix_ms (rs_registration kv.2) ≤ now)%Z)
     (map_to_list (registrations st))).*1.

Definition maintenance_batch (now : Z) (st : State)
    : Outcome DomainError (list string * gset RegistrationCredentials * PersistenceBatch) :=
  let? due := try_filter_map (due_task_id now) (map_to_list (tasks st)) in
  let expired : gset RegistrationCredentials := list_to_set
    (omap (λ id, (λ r, credentials (rs_registration r)) <$> registrations st !! id)
       (expired_registrations now st)) in
  let? expiring := try_map (expiring_upsert now st) due in
  let? requeued := try_filter_map (requeue_upsert due expired) (map_to_list (tasks st)) in
  let deletes :=
    (filter (λ kv, from_option (λ deadline, (deadline <=? now)%Z) false
                     (terminal_deadline_unix_ms kv.2) = true) (map_to_list (tasks st))).*1 in
  Done (due, expired, MkBatch None (expiring ++ requeued) deletes).

Definition maintain_state (now : Z) : M () :=
  let! _ := reconcile_state_if_required now in
  let! st := get_state in
  let! (due, expired, batch) := st_lift (maintenance_batch now st) in
  let expired_ids := expired_registrations now st in
  let! _ := if negb (batch_is_empty batch) then commit_transition batch else st_ret tt in
  let! waiters := on_state (expire_tasks now due) in
  let! _ := on_state (for_each bump_requeued_versions_for_credentials (elements expired)) in
  let! _ := detach_expired expired_ids in
  let! _ := if bool_decide (expired = ∅) then st_ret tt
            else modify_shared (λ sh, sh <| directory ::= directory_record |>) in
  let! _ := modify_state (prune_delivery_deadlines now) in
  let! _ := modify_state (prune_terminal_tasks now) in
  modify_shared (resolve_reply_waiters ((λ w, (w, Err TaskExpired)) <$> waiters)).

Definition validate_registration_and_maintain (c : RegistrationCredentials) (now : Z) : M () :=
  let! st := get_state in
  let validation := validate_active_registration st c now in
  let! _ := maintain_state now in
  st_lift validation.
End maintenance.
