(* ===== verification/BrokerOps.v ===== *)
(** * The operations of [BrokerState]

    Each critical section takes [now], the clock as sampled under the lock, and
    the identifiers the [uuid] crate hands out ([fresh]) as arguments.  An
    operation that releases the lock between two critical sections, or suspends,
    takes what the rest of the process did in between as functions on the
    [World]. *)
From stdpp Require Import prelude gmap strings sorting.
From S2P Require Import Prelude RustStd Model Validation Durability BrokerState BrokerDurable.
From S2P Require Import BrokerMaintain.

Section operations.
Context `{JsonNumber} {serde : SerdeJson} {P : Type} {persistence : BrokerPersistence P}.

#[local] Abbreviation M := (ST (World P) DomainError).

(** The registration of validated credentials. *)
Definition validated_registration (c : RegistrationCredentials) (msg : string)
    : M RegistrationState :=
  let! st := get_state in
  st_lift (expect (registrations st !! cred_id c) msg).

Definition registered_name (r : RegistrationState) : AgentName :=
  agent_name (reg_agent (rs_registration r)).

(** ** Start-up *)

(** [recover] runs over the store alone: the broker does not exist yet. *)
Definition store_load (now : Z) : ST P DomainError DurableBrokerSnapshot := λ p,
  let '(r, p) := load now p in (of_result r, p).
Definition store_commit (batch : PersistenceBatch)
    : ST P DomainError PersistenceCommitOutcome := λ p,
  let '(r, p) := commit batch p in (of_result r, p).

Definition recover (now : Z) : ST P DomainError (World P * BrokerRecoveryReport) :=
  let! snapshot := store_load now in
  let! (restored, batch, report) := st_lift
    (validate_and_reconcile_snapshot (snap_tasks snapshot) now
       (MkBrokerRecoveryReport 0 0 0 0)) in
  let epoch := epoch_get (snap_last_registration_epoch snapshot) in
  let! _ := st_lift (reject_if (epoch =? u64_max)%Z PersistenceUnavailable) in
  let! _ :=
    if negb (batch_is_empty batch) then
      let! outcome := store_commit batch in
      st_lift (reject_if (bool_decide (outcome ≠ Complete)) PersistenceUnavailable)
    else st_ret tt in
  let restored := merge_sort recovery_le (filter (λ t, retained_at now t = true) restored) in
  let '(result, st) :=
    restore_tasks restored (State_default <| next_registration_epoch := epoch |>) in
  let! _ := st_lift result in
  let! p := st_get in
  st_ret (MkWorld st p Shared_default,
          report <| report_restored ::= λ n, (n + length restored)%nat |>).

(** ** Registrations *)

(** The tasks that wait for an agent, in the order they were queued. *)
Definition queued_task_id (st : State) (name : AgentName) (task_id : string)
    : Outcome DomainError (option Deadline) :=
  let? task := expect (tasks st !! task_id) "active task index must reference a task" in
  Done (if bool_decide (recipient task = name) && negb (acknowledged task)
           && negb (canceled task) && negb (expired task) && is_none (reply task)
        then (λ _, (enqueue_sequence task, task_id)) <$> delivery task
        else None).

Definition queued_task_ids (st : State) (name : AgentName)
    : Outcome DomainError (list string) :=
  let? queued := try_filter_map (queued_task_id st name)
    (elements (default ∅ (active_tasks_by_agent st !! name))) in
  Done ((merge_sort deadline_le queued).*2).

(** The leases of [c], as the rows that requeue them. *)
Definition requeued_tasks (c : RegistrationCredentials) (st : State)
    : Outcome DomainError (list DurableTask) :=
  try_map (λ kv, durable_requeued_task kv.1 kv.2)
    (filter (λ kv, leased_to c kv.2 = true) (map_to_list (tasks st))).

Definition register (agent : VerifiedAgent) (harness_session_id : string) (now : Z)
    (fresh : RegistrationId) : M Registration :=
  let! _ := maintain_state now in
  let! st := get_state in
  let! expiry := st_lift (or_unavailable (checked_add_i64 now REGISTRATION_TTL_MS)) in
  let! epoch := st_lift (or_unavailable (checked_add_u64 (next_registration_epoch st) 1)) in
  let registration :=
    MkRegistration fresh (MkRegistrationEpoch epoch) agent harness_session_id expiry in
  let name := agent_name agent in
  let old_registration_id := registrations_by_agent st !! name in
  let old_credentials :=
    id ← old_registration_id; r ← registrations st !! id;
    Some (credentials (rs_registration r)) in
  let! requeued := st_lift match old_credentials with
                           | Some c => requeued_tasks c st
                           | None => Done []
                           end in
  let! _ := commit_transition (MkBatch (Some (MkRegistrationEpoch epoch)) requeued []) in
  let! _ := modify_state (λ st, st <| next_registration_epoch := epoch |>) in
  let! _ := match old_credentials with
            | Some c => on_state (bump_requeued_versions_for_credentials c)
            | None => st_ret tt
            end in
  let! st := get_state in
  let '(old_registration, st) :=
    match old_registration_id with
    | Some id => detach_registration id true st
    | None => (None, st)
    end in
  let! _ := modify_state (λ _, st) in
  let! inbox := st_lift (queued_task_ids st name) in
  let! key := st_gets (λ w, next_key (w_shared w)) in
  let! _ := modify_shared (λ sh,
    sh <| next_key ::= λ k, (k + 2)%nat |> <| flags ::= insert (S key) false |>) in
  let entry := MkRegistrationState registration inbox key (S key) in
  let! _ := modify_state (λ st,
    record_status_event "registered" name now
      (st <| registrations_by_agent ::= insert name fresh |>
          <| registrations ::= insert fresh entry |>)) in
  let! _ := modify_shared (λ sh, sh <| directory ::= directory_record |>) in
  let! _ := match old_registration with
            | Some r => modify_shared (notify_one (rs_notify r))
            | None => st_ret tt
            end in
  st_ret registration.

Definition renew (c : RegistrationCredentials) (now : Z) : M Registration :=
  let! _ := validate_registration_and_maintain c now in
  let! expiry := st_lift (or_unavailable (checked_add_i64 now REGISTRATION_TTL_MS)) in
  let! r := validated_registration c "validated registration must remain active" in
  let r := r <| rs_registration ::= λ reg, reg <| reg_expires_unix_ms := expiry |> |> in
  let! _ := modify_state (λ st, st <| registrations ::= insert (cred_id c) r |>) in
  st_ret (rs_registration r).

Definition remove_registration (c : RegistrationCredentials) (now : Z) : M () :=
  let! _ := validate_registration_and_maintain c now in
  let! st := get_state in
  let! requeued := st_lift (requeued_tasks c st) in
  let! _ := match requeued with
            | [] => st_ret tt
            | _ => commit_transition (MkBatch None requeued [])
            end in
  let! _ := on_state (bump_requeued_versions_for_credentials c) in
  let! st := get_state in
  let '(registration, st) := detach_registration (cred_id c) false st in
  let! _ := modify_state (λ _, st) in
  let! r := st_lift (expect registration "validated registration must remain active") in
  let! _ := modify_shared (λ sh, sh <| directory ::= directory_record |>) in
  modify_shared (notify_one (rs_notify r)).

Definition authenticate (c : RegistrationCredentials) (now : Z) : M Registration :=
  let! _ := validate_registration_and_maintain c now in
  let! r := validated_registration c "validated registration must remain active" in
  st_ret (rs_registration r).

(** ** Directory *)

Definition registration_le (a b : Registration) : Prop :=
  let key r := (agent_str (agent_name (reg_agent r)), rid_str (reg_id r)) in
  ((key a).1 ≠ (key b).1 ∧ String.le (key a).1 (key b).1)
  ∨ ((key a).1 = (key b).1 ∧ String.le (key a).2 (key b).2).

#[global] Instance registration_le_dec : RelDecision registration_le.
Proof. intros a b. unfold registration_le. apply _. Defined.

Definition live_registrations (now : Z) (st : State) : list Registration :=
  filter (λ r, (now < reg_expires_unix_ms r)%Z)
    (rs_registration <$> (map_to_list (registrations st)).*2).

Definition list_agents (now : Z) (w : World P) : list Registration * World P :=
  match maintain_state now w with
  | (Done _, w) => (merge_sort registration_le (live_registrations now (w_state w)), w)
  | (_, w) => ([], w)
  end.

Definition count_task (counts : BrokerTaskCounts) (task : TaskRecord) : BrokerTaskCounts :=
  if is_some (reply task) || failed task || rejected task || canceled task || expired task
  then counts <| count_terminal ::= S |>
  else if acknowledged task then counts <| count_waiting_reply ::= S |>
  else if is_some (lease task) then counts <| count_leased ::= S |>
  else counts <| count_queued ::= S |>.

Definition agent_le (a b : AgentName) : Prop := String.le (agent_str a) (agent_str b).

#[global] Instance agent_le_dec : RelDecision agent_le.
Proof. intros a b. unfold agent_le. apply _. Defined.

Definition operations_snapshot (now : Z) : M BrokerOperationsSnapshot :=
  let! _ := maintain_state now in
  let! st := get_state in
  let agents := merge_sort agent_le
    ((λ r, agent_name (reg_agent r)) <$> live_registrations now st) in
  let counts :=
    foldl count_task (MkBrokerTaskCounts 0 0 0 0) ((map_to_list (tasks st)).*2) in
  st_ret (MkBrokerOperationsSnapshot (length agents) agents counts (last_event st)).

(** [directory_snapshot]; a later agent of the sorted list replaces an earlier
    one of the same pane in the [HashMap]. *)
Definition directory_snapshot (pane_ids : list string) (now : Z) (w : World P)
    : AgentDirectoryWait * World P :=
  let '(agents, w) := list_agents now w in
  let by_pane : gmap string Registration := list_to_map
    (reverse ((λ r, (agent_pane_id (reg_agent r), r)) <$> agents)) in
  (MkAgentDirectoryWait (generation (directory (w_shared w)))
     (omap (λ pane_id, by_pane !! pane_id) pane_ids), w).

(** What happens while [wait_for_agents] is suspended: other operations, then a
    directory change or the caller's timeout. *)
Record DirectoryResume := MkDirectoryResume {
  dr_others : World P → World P;
  dr_timed_out : bool;
  dr_now : Z;
}.

(** [wait_for_agents]; [None] while it is still suspended. *)
Fixpoint wait_for_agents (pane_ids : list string) (now : Z)
    (resumes : list DirectoryResume) (w : World P)
    : option AgentDirectoryWait * World P :=
  let '(snapshot, w) := directory_snapshot pane_ids now w in
  if (length (dir_registrations snapshot) =? length pane_ids)%nat then (Some snapshot, w)
  else match resumes with
       | [] => (None, w)
       | resume :: resumes =>
           let w := dr_others resume w in
           if dr_timed_out resume then
             let '(snapshot, w) := directory_snapshot pane_ids (dr_now resume) w in
             (Some snapshot, w)
           else wait_for_agents pane_ids (dr_now resume) resumes w
       end.

(** ** Tasks *)

Definition task_snapshot_for_sender (name : AgentName) (task_id : string) (now : Z)
    : M DurableTask :=
  let! _ := maintain_state now in
  let! st := get_state in
  let! task := st_lift (ok_or (tasks st !! task_id) TaskNotFound) in
  let! _ := st_lift (reject_if (negb (bool_decide (sender task = name))) TaskNotOwned) in
  st_lift (durable_task task_id task).

Definition task_snapshot (c : RegistrationCredentials) (task_id : string) (now : Z)
    : M DurableTask :=
  let! _ := validate_registration_and_maintain c now in
  let! r := validated_registration c "validated registration must exist" in
  let! st := get_state in
  let! task := st_lift (ok_or (tasks st !! task_id) TaskNotFound) in
  let! _ := st_lift (reject_if (negb (bool_decide (sender task = registered_name r)))
                       TaskNotOwned) in
  st_lift (durable_task task_id task).

(** The durable row and the record of a new task. *)
Definition new_durable_task (name : AgentName) (d : QueuedDelivery) (deadline : Z)
    : DurableTask := {|
  dt_task_id := qd_task_id d;
  dt_context_id := qd_context_id d;
  dt_sender := name;
  dt_recipient := qd_recipient d;
  dt_payload := qd_payload d;
  dt_created_unix_ms := qd_created_unix_ms d;
  dt_delivery_deadline_unix_ms := deadline;
  dt_state_version := 1;
  dt_state := Queued;
  dt_lease := None;
  dt_attempt := qd_attempt d;
  dt_acknowledged_unix_ms := None;
  dt_reply := None;
  dt_terminal_unix_ms := None;
  dt_retention_deadline_unix_ms := None;
|}.

Definition new_task_record (sequence : Z) (name : AgentName) (d : QueuedDelivery)
    : TaskRecord := {|
  enqueue_sequence := sequence;
  state_version := 1;
  original_delivery := d;
  delivery := Some d;
  recipient := qd_recipient d;
  sender := name;
  lease := None;
  last_delivery_attempt := None;
  acknowledged := false;
  acknowledged_unix_ms := None;
  reply := None;
  reply_waiters := [];
  failed := false;
  rejected := false;
  canceled := false;
  expired := false;
  terminal_unix_ms := None;
  terminal_deadline_unix_ms := None;
|}.

#[global] Instance QueuedDelivery_fields : Fields QueuedDelivery := λ r,
  MkQueuedDelivery (qd_task_id r) (qd_context_id r) (qd_sender r) (qd_recipient r)
    (qd_payload r) (qd_created_unix_ms r) (qd_attempt r).

(** The indexes of a new task and the task itself. *)
Definition insert_new_task (sequence deadline : Z) (name : AgentName) (d : QueuedDelivery)
    (st : State) : State :=
  let task_id := qd_task_id d in
  st <| active_tasks_by_agent ::= idx_insert name task_id |>
     <| tasks_by_sender ::= idx_insert name task_id |>
     <| tasks_by_recipient ::= idx_insert (qd_recipient d) task_id |>
     <| outbound_tasks_by_agent ::= idx_insert name task_id |>
     <| active_tasks_by_agent ::= idx_insert (qd_recipient d) task_id |>
     <| tasks ::= insert task_id (new_task_record sequence name d) |>
     <| delivery_deadlines ::= heap_push (deadline, task_id) |>.

Definition enqueue (c : RegistrationCredentials) (d : QueuedDelivery) (now : Z)
    : M DeliveryHandle :=
  let! _ := validate_registration_and_maintain c now in
  let! st := get_state in
  let task_id := qd_task_id d in
  let! _ := st_lift (reject_if (is_some (tasks st !! task_id)) DuplicateTask) in
  let! _ := st_lift (reject_if (MAX_RETAINED_TASKS <=? size (tasks st))%nat
                       TooManyRetainedTasks) in
  let! r := validated_registration c "validated sender registration must exist" in
  let name := registered_name r in
  let! _ := st_lift (reject_if (negb (bool_decide (name = qd_sender d))) SenderMismatch) in
  let! _ := st_lift (reject_if
    (MAX_ACTIVE_OUTBOUND_TASKS <=? size (default ∅ (outbound_tasks_by_agent st !! name)))%nat
    TooManyActiveTasks) in
  let! recipient_registration_id := st_lift
    (ok_or (active_registration_id st (qd_recipient d) now) AgentNotRegistered) in
  let d := d <| qd_created_unix_ms := now |> in
  let! sequence := st_lift (or_unavailable (checked_add_u64 (next_task_sequence st) 1)) in
  let! deadline := st_lift (or_unavailable
    (checked_add_i64 (qd_created_unix_ms d) DELIVERY_TTL_MS)) in
  let! _ := commit_transition (MkBatch None [new_durable_task name d deadline] []) in
  let! _ := modify_state (λ st, st <| next_task_sequence := sequence |>) in
  let! st := get_state in
  let! recipient_state := st_lift (expect (registrations st !! recipient_registration_id)
    "active registration index must reference a registration") in
  let! _ := modify_state (λ st,
    st <| registrations ::= insert recipient_registration_id
                              (push_inbox task_id recipient_state) |>) in
  let! _ := modify_state (λ st,
    record_status_event "task_queued" name now (insert_new_task sequence deadline name d st)) in
  let! _ := modify_shared (notify_one (rs_notify recipient_state)) in
  st_ret (MkDeliveryHandle task_id (qd_context_id d)).

(** The first critical section of [start_or_resume]: [Some] when the task
    exists, [None] to go on and enqueue. *)
Definition start_or_resume_lookup (c : RegistrationCredentials) (d : QueuedDelivery)
    (now : Z) : M (option StartOrResume) :=
  let! _ := validate_registration_and_maintain c now in
  let! r := validated_registration c "validated registration must exist" in
  let! _ := st_lift (reject_if (negb (bool_decide (registered_name r = qd_sender d)))
                       SenderMismatch) in
  let! st := get_state in
  match tasks st !! qd_task_id d with
  | Some task =>
      let original := original_delivery task in
      let! _ := st_lift (reject_if
        (negb (bool_decide (sender task = qd_sender d))
         || negb (bool_decide (recipient task = qd_recipient d))
         || negb (bool_decide (qd_context_id original = qd_context_id d))
         || negb (bool_decide (qd_payload original = qd_payload d))) DuplicateTask) in
      let! snapshot := st_lift (durable_task (qd_task_id d) task) in
      st_ret (Some (if state_is_terminal (dt_state snapshot)
                    then Terminal snapshot else Active snapshot))
  | None =>
      let! _ := st_lift (ok_or (active_registration_id st (qd_recipient d) now)
                           AgentNotRegistered) in
      st_ret None
  end.

(** Between two critical sections of one call: what other calls did, and the
    clock of the next section. *)
Record Interleaving := MkInterleaving {
  il_now_lookup : Z;
  il_before_enqueue : World P → World P;
  il_now_enqueue : Z;
  il_before_snapshot : World P → World P;
  il_now_snapshot : Z;
  il_before_retry : World P → World P;
}.

(** [start_or_resume]: the loop runs at most twice, one round per element. *)
Fixpoint start_or_resume_rounds (c : RegistrationCredentials) (d : QueuedDelivery)
    (rounds : list Interleaving) : M StartOrResume :=
  match rounds with
  | [] => st_fail DuplicateTask
  | il :: rounds =>
      let! found := start_or_resume_lookup c d (il_now_lookup il) in
      match found with
      | Some result => st_ret result
      | None => λ w,
          match enqueue c d (il_now_enqueue il) (il_before_enqueue il w) with
          | (Done _, w) =>
              (let! snapshot := task_snapshot c (qd_task_id d) (il_now_snapshot il) in
               st_ret (Started snapshot)) (il_before_snapshot il w)
          | (Fail e, w) =>
              if decide (e = DuplicateTask)
              then start_or_resume_rounds c d rounds (il_before_retry il w)
              else (Fail e, w)
          | (Panic msg, w) => (Panic msg, w)
          end
      end
  end.

Definition start_or_resume (c : RegistrationCredentials) (d : QueuedDelivery)
    (first second : Interleaving) : M StartOrResume :=
  start_or_resume_rounds c d [first; second].

(** ** Delivery *)

(** [begin_wait]: the key of the flag the guard clears. *)
Definition begin_wait (c : RegistrationCredentials) (now : Z) : M nat :=
  let! _ := validate_registration_and_maintain c now in
  let! r := validated_registration c "validated registration must remain active" in
  let key := rs_wait_active r in
  let! active := st_gets (λ w, default false (flags (w_shared w) !! key)) in
  let! _ := st_lift (reject_if active WaitAlreadyActive) in
  let! _ := modify_shared (λ sh, sh <| flags ::= insert key true |>) in
  st_ret key.

(** [WaitGuard::drop] *)
Definition drop_wait_guard (key : nat) (w : World P) : World P :=
  w <| w_shared ::= λ sh, sh <| flags ::= insert key false |> |>.

(** Lease a selected task: commit, then update the record and the index. *)
Definition lease_task (c : RegistrationCredentials) (now : Z) (fresh : DeliveryId)
    (task_id : string) (task : TaskRecord) (d : QueuedDelivery) : M DeliveryPoll :=
  let! attempt := st_lift match last_delivery_attempt task with
                          | Some attempt => or_unavailable (checked_add_u32 attempt 1)
                          | None => Done (qd_attempt d)
                          end in
  let old_delivery_id := lease_delivery_id <$> lease task in
  let! until := st_lift (or_unavailable (checked_add_i64 now DELIVERY_LEASE_MS)) in
  let l := MkDeliveryLease fresh (Some c) until attempt in
  let delivered := {|
    dm_delivery_id := fresh;
    dm_task_id := qd_task_id d;
    dm_context_id := qd_context_id d;
    dm_sender := qd_sender d;
    dm_recipient := qd_recipient d;
    dm_payload := qd_payload d;
    dm_leased_until_unix_ms := until;
    dm_attempt := attempt;
  |} in
  let! durable := st_lift (durable_leased_task task_id task l) in
  let! _ := commit_transition (single_task_batch durable) in
  let! st := get_state in
  let! task := st_lift (expect (tasks st !! task_id) "selected task must remain present") in
  let! version := st_lift (or_unavailable (checked_add_u64 (state_version task) 1)) in
  let! _ := modify_state (λ st,
    st <| tasks ::= insert task_id
            (task <| state_version := version |>
                  <| last_delivery_attempt := Some attempt |>
                  <| lease := Some l |>) |>) in
  let! _ := modify_state (forget_delivery old_delivery_id task_id) in
  let! _ := modify_state (λ st, st <| tasks_by_delivery ::= insert fresh task_id |>) in
  st_ret (Ready delivered).

(** The loop of [poll_delivery] over the inbox. *)
Fixpoint poll_tasks (c : RegistrationCredentials) (now : Z) (fresh : DeliveryId)
    (task_ids : list string) (next_deadline : Z) : M DeliveryPoll :=
  match task_ids with
  | [] => st_ret (Pending next_deadline)
  | task_id :: task_ids =>
      let! st := get_state in
      match tasks st !! task_id with
      | None => poll_tasks c now fresh task_ids next_deadline
      | Some task =>
          if canceled task || expired task || is_some (reply task) || acknowledged task
          then poll_tasks c now fresh task_ids next_deadline
          else match delivery task with
               | None => poll_tasks c now fresh task_ids next_deadline
               | Some d =>
                   let! deadline := st_lift (or_unavailable
                     (checked_add_i64 (qd_created_unix_ms d) DELIVERY_TTL_MS)) in
                   let next_deadline := Z.min next_deadline deadline in
                   match lease task with
                   | Some l =>
                       if (now <? lease_until_unix_ms l)%Z
                       then poll_tasks c now fresh task_ids
                              (Z.min next_deadline (lease_until_unix_ms l))
                       else lease_task c now fresh task_id task d
                   | None => lease_task c now fresh task_id task d
                   end
               end
      end
  end.

Definition poll_delivery (c : RegistrationCredentials) (now : Z) (fresh : DeliveryId)
    : M DeliveryPoll :=
  let! _ := validate_registration_and_maintain c now in
  let! r := validated_registration c "validated registration must remain active" in
  poll_tasks c now fresh (rs_inbox r) (reg_expires_unix_ms (rs_registration r)).

(** Why a suspended [wait_next] runs again. *)
Inductive WakeCause := Notified | BrokerDeadline | CallerTimeout.

(** The state around the broker while it waits: other calls, [wr_others], may
    change all of it. *)
Record WaitResume {S : Type} := MkWaitResume {
  wr_others : S → S;
  wr_cause : WakeCause;
  wr_now : Z;
  wr_fresh : DeliveryId;
}.

(** The loop of [wait_next]; [None] while it is suspended.  A notification
    takes the permit; the timeout branch exists only with a timeout. *)
Fixpoint wait_loop {S : Type} (broker : S → World P) (set_broker : World P → S → S)
    (c : RegistrationCredentials) (key : nat) (timeout : bool) (now : Z)
    (fresh : DeliveryId) (resumes : list (WaitResume (S := S)))
    : ST S DomainError (option DeliveredMessage) :=
  let! poll := zoom broker set_broker (poll_delivery c now fresh) in
  match poll with
  | Ready message => st_ret (Some message)
  | Pending _ =>
      match resumes with
      | [] => st_ret None
      | resume :: resumes =>
          let! _ := st_modify (wr_others resume) in
          match wr_cause resume with
          | CallerTimeout => if timeout then st_fail WaitTimedOut else st_ret None
          | Notified =>
              let! available := st_gets (λ s, permits (w_shared (broker s))) in
              if bool_decide (key ∈ available) then
                let! _ := zoom broker set_broker
                            (modify_shared (λ sh, sh <| permits ::= λ p, p ∖ {[ key ]} |>)) in
                wait_loop broker set_broker c key timeout (wr_now resume) (wr_fresh resume) resumes
              else st_ret None
          | BrokerDeadline =>
              wait_loop broker set_broker c key timeout (wr_now resume) (wr_fresh resume) resumes
          end
      end
  end.

(** The guard is dropped on every way out. *)
Definition wait_next {S : Type} (broker : S → World P) (set_broker : World P → S → S)
    (c : RegistrationCredentials) (timeout : bool) (now_begin : Z)
    (before_notify before_poll : S → S) (now : Z) (fresh : DeliveryId)
    (resumes : list (WaitResume (S := S))) : ST S DomainError (option DeliveredMessage) :=
  let! guard := zoom broker set_broker (begin_wait c now_begin) in
  λ s,
    let s := before_notify s in
    let '(result, s) :=
      match registrations (w_state (broker s)) !! cred_id c with
      | None => (Fail RegistrationNotFound, s)
      | Some r =>
          wait_loop broker set_broker c (rs_notify r) timeout now fresh resumes (before_poll s)
      end in
    match result with
    | Done None => (result, s)
    | _ => (result, set_broker (drop_wait_guard guard (broker s)) s)
    end.

(** The guard conditions on the lease in [ack_delivery]. *)
Definition valid_delivery (task : TaskRecord) (delivery_id : DeliveryId) (now : Z) : bool :=
  match lease task with
  | Some l =>
      bool_decide (lease_delivery_id l = delivery_id)
      && (acknowledged task || (now <? lease_until_unix_ms l)%Z)
      && is_some (delivery task) && negb (canceled task) && negb (expired task)
      && is_none (reply task)
  | None => false
  end.

Definition ack_delivery (c : RegistrationCredentials) (delivery_id : DeliveryId) (now : Z)
    : M () :=
  let! _ := validate_registration_and_maintain c now in
  let! r := validated_registration c "validated registration must remain active" in
  let! st := get_state in
  let! task_id := st_lift (ok_or (tasks_by_delivery st !! delivery_id) DeliveryNotFound) in
  let! task := st_lift (expect (tasks st !! task_id)
                          "delivery lookup must reference a task") in
  let! _ := st_lift (reject_if (negb (valid_delivery task delivery_id now))
                       DeliveryNotFound) in
  if acknowledged task then
    st_lift (reject_if (negb (bool_decide (recipient task = registered_name r)))
               DeliveryNotOwned)
  else
    let! _ := st_lift (reject_if
      (negb (bool_decide ((lease task ≫= lease_owner) = Some c))) DeliveryNotOwned) in
    let! durable := st_lift (durable_acknowledged_task task_id task now) in
    let! _ := commit_transition (single_task_batch durable) in
    let! st := get_state in
    let! task := st_lift (expect (tasks st !! task_id)
                            "delivery lookup must reference a task") in
    let! version := st_lift (or_unavailable (checked_add_u64 (state_version task) 1)) in
    let! _ := modify_state (λ st,
      st <| tasks ::= insert task_id
              (task <| state_version := version |>
                    <| acknowledged := true |>
                    <| acknowledged_unix_ms := Some now |>) |>) in
    let! r := validated_registration c "validated registration must exist" in
    modify_state (λ st,
      st <| registrations ::= insert (cred_id c) (retain_inbox task_id r) |>).

(** ** Replies *)

Definition send_all (waiters : list nat) (result : ReplyResult) : M () :=
  modify_shared (resolve_reply_waiters ((λ w, (w, result)) <$> waiters)).

Definition reply_task (c : RegistrationCredentials) (task_id : string) (r : ReplyPayload)
    (now : Z) : M () :=
  let! _ := validate_registration_and_maintain c now in
  let! registration := validated_registration c "validated registration must remain active" in
  let! st := get_state in
  let! task := st_lift (ok_or (tasks st !! task_id) TaskNotFound) in
  let! _ := st_lift (reject_if
    (negb (bool_decide (recipient task = registered_name registration))) TaskNotOwned) in
  let! _ := st_lift (reject_if (canceled task) TaskCanceled) in
  let! _ := st_lift (reject_if (expired task) TaskExpired) in
  let! _ := st_lift (reject_if (failed task || rejected task) TaskAlreadyCompleted) in
  match reply task with
  | Some existing =>
      st_lift (reject_if (negb (bool_decide (existing = r))) ReplyAlreadySubmitted)
  | None =>
      let! durable := st_lift (durable_terminal_task task_id task now Replied (Some r)) in
      let! _ := commit_transition (single_task_batch durable) in
      let! waiters := on_state (terminalize_task task_id now (TerminalReplied r)) in
      send_all waiters (Ok r)
  end.

Definition recipient_terminal (c : RegistrationCredentials) (task_id : string)
    (message : ReplyPayload) (outcome : RecipientTerminalState) (now : Z) : M () :=
  let! _ := validate_registration_and_maintain c now in
  let! registration := validated_registration c "validated registration must remain active" in
  let! st := get_state in
  let! task := st_lift (ok_or (tasks st !! task_id) TaskNotFound) in
  let! _ := st_lift (reject_if
    (negb (bool_decide (recipient task = registered_name registration))) TaskNotOwned) in
  let same_outcome :=
    match outcome with RecipientFailed => failed task | RecipientRejected => rejected task end in
  if same_outcome && bool_decide (reply task = Some message) then st_ret tt
  else
    let! _ := st_lift (reject_if
      (canceled task || expired task || failed task || rejected task
       || is_some (reply task)) TaskAlreadyCompleted) in
    let '(durable_state, terminal_state, error) :=
      match outcome with
      | RecipientFailed => (Failed, TerminalFailed message, TaskFailed)
      | RecipientRejected => (Rejected, TerminalRejected message, TaskRejected)
      end in
    let! durable := st_lift
      (durable_terminal_task task_id task now durable_state (Some message)) in
    let! _ := commit_transition (single_task_batch durable) in
    let! waiters := on_state (terminalize_task task_id now terminal_state) in
    send_all waiters (Err error).

Definition fail_task (c : RegistrationCredentials) (task_id : string)
    (message : ReplyPayload) (now : Z) : M () :=
  recipient_terminal c task_id message RecipientFailed now.

Definition reject_task (c : RegistrationCredentials) (task_id : string)
    (message : ReplyPayload) (now : Z) : M () :=
  recipient_terminal c task_id message RecipientRejected now.

Definition cancel_task (c : RegistrationCredentials) (task_id : string) (now : Z) : M () :=
  let! _ := validate_registration_and_maintain c now in
  let! registration := validated_registration c "validated registration must remain active" in
  let! st := get_state in
  let! task := st_lift (ok_or (tasks st !! task_id) TaskNotFound) in
  let! _ := st_lift (reject_if
    (negb (bool_decide (sender task = registered_name registration))) TaskNotOwned) in
  if canceled task then st_ret tt
  else
    let! _ := st_lift (reject_if (expired task) TaskExpired) in
    let! _ := st_lift (reject_if (is_some (reply task)) TaskAlreadyCompleted) in
    let! durable := st_lift (durable_terminal_task task_id task now Canceled None) in
    let! _ := commit_transition (single_task_batch durable) in
    let! waiters := on_state (terminalize_task task_id now TerminalCanceled) in
    send_all waiters (Err TaskCanceled).

(** The terminal checks of [wait_for_reply_for_sender], in their order. *)
Definition reply_or_error (task : TaskRecord) : Outcome DomainError (option ReplyPayload) :=
  let? _ := reject_if (canceled task) TaskCanceled in
  let? _ := reject_if (expired task) TaskExpired in
  let? _ := reject_if (failed task) TaskFailed in
  let? _ := reject_if (rejected task) TaskRejected in
  Done (reply task).

(** The first critical section: the reply, or the key of a new channel. *)
Definition reply_wait_begin (name : AgentName) (task_id : string) (now : Z)
    : M (ReplyPayload + nat) :=
  let! _ := maintain_state now in
  let! st := get_state in
  let! task := st_lift (ok_or (tasks st !! task_id) TaskNotFound) in
  let! _ := st_lift (reject_if (negb (bool_decide (sender task = name))) TaskNotOwned) in
  let! found := st_lift (reply_or_error task) in
  match found with
  | Some r => st_ret (inl r)
  | None =>
      let! sh := st_gets w_shared in
      let waiter := next_channel sh in
      let open := filter (λ w, waiter_is_closed sh w = false) (reply_waiters task) in
      let! _ := modify_shared (λ sh,
        sh <| channels ::= insert waiter ChannelOpen |> <| next_channel ::= S |>) in
      let! _ := modify_state (λ st,
        st <| tasks ::= insert task_id (task <| reply_waiters := open ++ [waiter] |>) |>) in
      st_ret (inr waiter)
  end.

(** The check at the head of the loop: the reply, or the delivery deadline. *)
Definition reply_wait_check (task_id : string) : M (ReplyPayload + option Z) :=
  let! st := get_state in
  let! task := st_lift (ok_or (tasks st !! task_id) TaskNotFound) in
  let! found := st_lift (reply_or_error task) in
  match found with
  | Some r => st_ret (inl r)
  | None =>
      match delivery task with
      | None => st_ret (inr None)
      | Some d =>
          let! deadline := st_lift (or_unavailable
            (checked_add_i64 (qd_created_unix_ms d) DELIVERY_TTL_MS)) in
          st_ret (inr (Some deadline))
      end
  end.

(** [resolve_reply_wait]; [None] is a channel whose sender was dropped. *)
Definition resolve_reply_wait (task_id : string) (received : option ReplyResult)
    : M ReplyPayload :=
  match received with
  | Some result => st_lift (of_result result)
  | None =>
      let! st := get_state in
      let! task := st_lift (ok_or (tasks st !! task_id) TaskNotFound) in
      let! found := st_lift (reply_or_error task) in
      st_lift (ok_or found TaskNotFound)
  end.

Inductive ReplyWake := ChannelReady | SenderDropped | DeadlineElapsed (now : Z).

Record ReplyResume := MkReplyResume {
  rr_before_check : World P → World P;
  rr_others : World P → World P;
  rr_wake : ReplyWake;
}.

(** The loop of [wait_for_reply_for_sender]; [None] while it is suspended. *)
Fixpoint reply_wait_loop (task_id : string) (waiter : nat) (resumes : list ReplyResume)
    : M (option ReplyPayload) :=
  match resumes with
  | [] => st_ret None
  | resume :: resumes => λ w,
      (let! checked := reply_wait_check task_id in
       match checked with
       | inl r => st_ret (Some r)
       | inr deadline => λ w,
           let w := rr_others resume w in
           match rr_wake resume with
           | ChannelReady =>
               match channels (w_shared w) !! waiter with
               | Some (ChannelResolved result) =>
                   (let! r := resolve_reply_wait task_id (Some result) in
                    st_ret (Some r)) w
               | _ => (Done None, w)
               end
           | SenderDropped =>
               (let! r := resolve_reply_wait task_id None in st_ret (Some r)) w
           | DeadlineElapsed now =>
               match deadline with
               | None => (Done None, w)
               | Some _ =>
                   (let! _ := maintain_state now in
                    reply_wait_loop task_id waiter resumes) w
               end
           end
       end) (rr_before_check resume w)
  end.

Definition wait_for_reply_for_sender (name : AgentName) (task_id : string) (now : Z)
    (resumes : list ReplyResume) : M (option ReplyPayload) :=
  let! begun := reply_wait_begin name task_id now in
  match begun with
  | inl r => st_ret (Some r)
  | inr waiter => reply_wait_loop task_id waiter resumes
  end.

Definition wait_for_reply (c : RegistrationCredentials) (task_id : string) (now : Z)
    (between : World P → World P) (now_begin : Z) (resumes : list ReplyResume)
    : M (option ReplyPayload) :=
  let! _ := validate_registration_and_maintain c now in
  let! r := validated_registration c "validated registration must remain active" in
  λ w, wait_for_reply_for_sender (registered_name r) task_id now_begin resumes (between w).
End operations.
