(* ===== verification/BrokerInv.v ===== *)
(** * The invariant of the broker's state

    [Core] relates the indexes, the deadline queues, the inboxes and the leases of
    [State] to its tasks; [Inv now] adds that a live registration's inbox is
    complete.  Every primitive of [broker.rs] that writes the state is shown to
    preserve them. *)
From stdpp Require Import prelude gmap strings sorting.
From S2P Require Import Prelude RustStd Model Validation Durability BrokerState BrokerDurable.
From S2P Require Import BrokerMaintain BrokerOps.

(** What the indexes, the queues and the inboxes see of a task. *)
Record Shape := MkShape {
  sh_sender : AgentName;
  sh_recipient : AgentName;
  sh_sequence : Z;
  sh_acknowledged : bool;
  sh_deadline : option Z;
  sh_due : Z;
}.

Definition sh_live (s : Shape) : Prop := sh_deadline s = None.

(** Live and not acknowledged: the recipient has to see it. *)
Definition sh_waiting (s : Shape) : Prop := sh_live s ∧ sh_acknowledged s = false.

Definition owns_active (a : AgentName) (s : Shape) : Prop :=
  a = sh_sender s ∨ a = sh_recipient s.
Definition owns_sent (a : AgentName) (s : Shape) : Prop := a = sh_sender s.
Definition owns_received (a : AgentName) (s : Shape) : Prop := a = sh_recipient s.

#[local] Abbreviation Index := (gmap AgentName (gset string)).
#[local] Abbreviation Shapes := (gmap string Shape).
#[local] Abbreviation Registrations := (gmap RegistrationId RegistrationState).

Definition reg_name (r : RegistrationState) : AgentName :=
  agent_name (reg_agent (rs_registration r)).
Definition reg_expiry (r : RegistrationState) : Z :=
  reg_expires_unix_ms (rs_registration r).
Definition reg_credentials (r : RegistrationState) : RegistrationCredentials :=
  credentials (rs_registration r).

(** An index holds exactly the live tasks of each agent and no empty entry. *)
Definition IdxOK (owns : AgentName → Shape → Prop) (idx : Index) (σ : Shapes) : Prop :=
  idx_tight idx ∧
  ∀ a id, idx_mem a id idx ↔ ∃ s, σ !! id = Some s ∧ sh_live s ∧ owns a s.

(** Two registrations never share a name or an epoch, and both lookups agree. *)
Record RegsOK (regs : Registrations) (by_agent : gmap AgentName RegistrationId)
    (next : Z) : Prop := {
  regs_key : ∀ id r, regs !! id = Some r → reg_id (rs_registration r) = id;
  regs_named : ∀ id r, regs !! id = Some r → by_agent !! reg_name r = Some id;
  regs_indexed : ∀ a id, by_agent !! a = Some id → ∃ r, regs !! id = Some r ∧ reg_name r = a;
  regs_epoch : ∀ id r, regs !! id = Some r → (epoch_get (reg_epoch (rs_registration r)) ≤ next)%Z;
  regs_epoch_inj : ∀ id1 id2 r1 r2, regs !! id1 = Some r1 → regs !! id2 = Some r2 →
    reg_epoch (rs_registration r1) = reg_epoch (rs_registration r2) → id1 = id2;
}.

Definition seq_lt (σ : Shapes) (a b : string) : Prop :=
  ∃ sa sb, σ !! a = Some sa ∧ σ !! b = Some sb ∧ (sh_sequence sa < sh_sequence sb)%Z.

(** An inbox holds tasks that wait for its agent, oldest first, each once. *)
Definition InboxOK (regs : Registrations) (σ : Shapes) : Prop :=
  ∀ rid r, regs !! rid = Some r →
    (∀ id, id ∈ rs_inbox r →
       ∃ s, σ !! id = Some s ∧ sh_waiting s ∧ sh_recipient s = reg_name r) ∧
    StronglySorted (seq_lt σ) (rs_inbox r).

(** The inbox of a registration that is live at [now] misses nothing. *)
Definition CompleteOK (now : Z) (regs : Registrations) (σ : Shapes) : Prop :=
  ∀ rid r id s, regs !! rid = Some r → (now < reg_expiry r)%Z →
    σ !! id = Some s → sh_waiting s → sh_recipient s = reg_name r → id ∈ rs_inbox r.

Definition SeqOK (σ : Shapes) (next : Z) : Prop :=
  (∀ id s, σ !! id = Some s → (sh_sequence s ≤ next)%Z) ∧
  (∀ id1 id2 s1 s2, σ !! id1 = Some s1 → σ !! id2 = Some s2 →
     sh_sequence s1 = sh_sequence s2 → id1 = id2).

(** The terminal tasks, and nothing else, are queued for deletion, each at the
    end of its retention, the earliest first. *)
Definition HeapOK (σ : Shapes) (queue : list Deadline) : Prop :=
  StronglySorted deadline_le queue ∧
  ∀ id d, (d, id) ∈ queue ↔ ∃ s, σ !! id = Some s ∧ sh_deadline s = Some d.

(** Every live task is queued for the end of its delivery time, the earliest
    first. *)
Definition DueOK (σ : Shapes) (queue : list Deadline) : Prop :=
  StronglySorted deadline_le queue ∧
  ∀ id s, σ !! id = Some s → sh_live s → (sh_due s, id) ∈ queue.

Definition RetiredOK (ids : gset RegistrationId) (order : list RegistrationId) : Prop :=
  NoDup order ∧ ids = list_to_set order ∧ (length order ≤ MAX_RETIRED_REGISTRATION_IDS)%nat.

Section invariant.
Context `{JsonNumber}.

#[local] Abbreviation Tasks := (gmap string TaskRecord).

Definition shape (t : TaskRecord) : Shape :=
  MkShape (sender t) (recipient t) (enqueue_sequence t) (acknowledged t)
    (terminal_deadline_unix_ms t)
    (qd_created_unix_ms (original_delivery t) + DELIVERY_TTL_MS).
Definition shapes (ts : Tasks) : Shapes := shape <$> ts.

Definition live (t : TaskRecord) : Prop := terminal_deadline_unix_ms t = None.

(** The five ways a task ends, as the fields that record them. *)
Definition outcome_fields (o : TerminalState) : option ReplyPayload * (bool * bool * bool * bool) :=
  match o with
  | TerminalReplied r => (Some r, (false, false, false, false))
  | TerminalFailed m => (Some m, (true, false, false, false))
  | TerminalRejected m => (Some m, (false, true, false, false))
  | TerminalCanceled => (None, (false, false, true, false))
  | TerminalExpired => (None, (false, false, false, true))
  end.

Definition task_fields (t : TaskRecord) : option ReplyPayload * (bool * bool * bool * bool) :=
  (reply t, (failed t, rejected t, canceled t, expired t)).

Record live_wf (t : TaskRecord) : Prop := {
  live_delivery : delivery t = Some (original_delivery t);
  live_fields : task_fields t = (None, (false, false, false, false));
  live_no_terminal : terminal_unix_ms t = None;
  live_acknowledged : acknowledged t = true ↔ is_Some (acknowledged_unix_ms t);
  live_leased : acknowledged t = true → is_Some (lease t);
  live_attempt : ∀ l, lease t = Some l →
    lease_attempt l = default (qd_attempt (original_delivery t)) (last_delivery_attempt t);
}.

Record terminal_wf (d : Z) (t : TaskRecord) : Prop := {
  terminal_delivery : delivery t = None;
  terminal_lease : lease t = None;
  terminal_ack : acknowledged t = false ∧ acknowledged_unix_ms t = None;
  terminal_waiters : reply_waiters t = [];
  terminal_outcome : ∃ o, task_fields t = outcome_fields o;
  terminal_times : ∃ now, terminal_unix_ms t = Some now ∧
    checked_add_i64 now TERMINAL_RETENTION_MS = Some d;
}.

Record task_wf (id : string) (t : TaskRecord) : Prop := {
  wf_id : qd_task_id (original_delivery t) = id;
  wf_sender : qd_sender (original_delivery t) = sender t;
  wf_recipient : qd_recipient (original_delivery t) = recipient t;
  wf_deadline :
    is_Some (checked_add_i64 (qd_created_unix_ms (original_delivery t)) DELIVERY_TTL_MS);
  wf_phase :
    match terminal_deadline_unix_ms t with
    | None => live_wf t
    | Some d => terminal_wf d t
    end;
}.

(** The delivery lookup is exactly the leases. *)
Definition DelivOK (ts : Tasks) (by_delivery : gmap DeliveryId string) : Prop :=
  ∀ d id, by_delivery !! d = Some id ↔
    ∃ t l, ts !! id = Some t ∧ lease t = Some l ∧ lease_delivery_id l = d.

(** An unacknowledged lease belongs to the registration of its recipient. *)
Definition OwnerOK (ts : Tasks) (regs : Registrations) : Prop :=
  ∀ id t l, ts !! id = Some t → acknowledged t = false → lease t = Some l →
    ∃ rid r, regs !! rid = Some r ∧ reg_name r = recipient t ∧
      lease_owner l = Some (reg_credentials r).

Record Core (st : State) : Prop := {
  core_tasks : map_Forall task_wf (tasks st);
  core_regs : RegsOK (registrations st) (registrations_by_agent st)
                (next_registration_epoch st);
  core_active : IdxOK owns_active (active_tasks_by_agent st) (shapes (tasks st));
  core_outbound : IdxOK owns_sent (outbound_tasks_by_agent st) (shapes (tasks st));
  core_sender : IdxOK owns_sent (tasks_by_sender st) (shapes (tasks st));
  core_recipient : IdxOK owns_received (tasks_by_recipient st) (shapes (tasks st));
  core_deliveries : DelivOK (tasks st) (tasks_by_delivery st);
  core_owners : OwnerOK (tasks st) (registrations st);
  core_inbox : InboxOK (registrations st) (shapes (tasks st));
  core_seq : SeqOK (shapes (tasks st)) (next_task_sequence st);
  core_heap : HeapOK (shapes (tasks st)) (terminal_deadlines st);
  core_due : DueOK (shapes (tasks st)) (delivery_deadlines st);
  core_retired : RetiredOK (retired_registration_ids st) (retired_registration_order st);
  core_size : (size (tasks st) ≤ MAX_RETAINED_TASKS)%nat;
}.

Record Inv (now : Z) (st : State) : Prop := {
  inv_core : Core st;
  inv_complete : CompleteOK now (registrations st) (shapes (tasks st));
}.
End invariant.

(** ** Indexes *)

Section index_lemmas.
Implicit Types (idx : Index) (σ : Shapes) (owns : AgentName → Shape → Prop).

Lemma IdxOK_empty owns : IdxOK owns ∅ ∅.
Proof.
  split; [apply idx_tight_empty|]. intros a id. split.
  - by intros []%idx_mem_empty.
  - intros (s & Hs & _). by rewrite lookup_empty in Hs.
Qed.

(** Only the live tasks and their owners matter. *)
Lemma IdxOK_ext owns idx σ σ' :
  (∀ a id, (∃ s, σ !! id = Some s ∧ sh_live s ∧ owns a s) ↔
           (∃ s, σ' !! id = Some s ∧ sh_live s ∧ owns a s)) →
  IdxOK owns idx σ → IdxOK owns idx σ'.
Proof. intros Hext [Ht Hm]. split; [done|]. intros a id. by rewrite Hm, Hext. Qed.

Lemma IdxOK_insert owns idx σ id s ks :
  σ !! id = None → sh_live s → (∀ a, owns a s ↔ a ∈ ks) →
  IdxOK owns idx σ → IdxOK owns (foldr (λ k, idx_insert k id) idx ks) (<[id := s]> σ).
Proof.
  intros Hid Hs Hks [Ht Hm]. split.
  { clear Hks. induction ks; simpl; [done|]. by apply idx_tight_insert. }
  assert (∀ a id', idx_mem a id' (foldr (λ k, idx_insert k id) idx ks)
                   ↔ (a ∈ ks ∧ id' = id) ∨ idx_mem a id' idx) as Hfold.
  { intros a id'. clear Hks. induction ks as [|k ks IH]; simpl.
    - set_solver.
    - rewrite idx_mem_insert, IH. set_solver. }
  intros a id'. rewrite Hfold, Hm, <-Hks. destruct (decide (id = id')) as [<-|Hne].
  - rewrite lookup_insert_eq, Hid. naive_solver.
  - rewrite lookup_insert_ne by done. naive_solver.
Qed.

Lemma IdxOK_remove owns idx σ id s s' ks :
  σ !! id = Some s → (∀ a, owns a s ↔ a ∈ ks) → ¬ sh_live s' →
  IdxOK owns idx σ → IdxOK owns (foldr (λ k, idx_remove k id) idx ks) (<[id := s']> σ).
Proof.
  intros Hid Hks Hs' [Ht Hm]. split.
  { clear Hks. induction ks; simpl; [done|]. by apply idx_tight_remove. }
  assert (∀ a id', idx_mem a id' (foldr (λ k, idx_remove k id) idx ks)
                   ↔ idx_mem a id' idx ∧ ¬ (a ∈ ks ∧ id' = id)) as Hfold.
  { intros a id'. clear Hks. induction ks as [|k ks IH]; simpl.
    - set_solver.
    - rewrite idx_mem_remove, IH. set_solver. }
  intros a id'. rewrite Hfold, Hm, <-Hks. destruct (decide (id = id')) as [<-|Hne].
  - rewrite lookup_insert_eq, Hid. naive_solver.
  - rewrite lookup_insert_ne by done. naive_solver.
Qed.

(** A field the index does not see. *)
Lemma IdxOK_update owns idx σ id s s' :
  σ !! id = Some s → (sh_live s' ↔ sh_live s) → (∀ a, owns a s' ↔ owns a s) →
  IdxOK owns idx σ → IdxOK owns idx (<[id := s']> σ).
Proof.
  intros Hid Hl Ho. apply IdxOK_ext. intros a id'.
  destruct (decide (id = id')) as [<-|Hne].
  - rewrite lookup_insert_eq, Hid. naive_solver.
  - by rewrite lookup_insert_ne.
Qed.
End index_lemmas.

(** ** Terminal tasks leave *)

(** [σ'] is [σ] without some of its terminal tasks. *)
Definition drops_terminal (σ σ' : Shapes) : Prop :=
  ∀ id, σ' !! id = σ !! id ∨ (σ' !! id = None ∧ ∃ s, σ !! id = Some s ∧ ¬ sh_live s).

Section drop_lemmas.
Implicit Types (σ : Shapes).

Lemma drops_lookup σ σ' id s : drops_terminal σ σ' → σ' !! id = Some s → σ !! id = Some s.
Proof. intros Hd Hid. destruct (Hd id) as [<-|[Hn _]]; congruence. Qed.

Lemma drops_live σ σ' id s :
  drops_terminal σ σ' → σ !! id = Some s → sh_live s → σ' !! id = Some s.
Proof.
  intros Hd Hid Hs. destruct (Hd id) as [->|(_ & s' & Hs' & Hl)]; [done|congruence].
Qed.

Lemma IdxOK_drop owns idx σ σ' :
  drops_terminal σ σ' → IdxOK owns idx σ → IdxOK owns idx σ'.
Proof.
  intros Hd. apply IdxOK_ext. intros a id. split; intros (s & Hs & Hl & Ho); exists s.
  - eauto using drops_live.
  - eauto using drops_lookup.
Qed.

Lemma InboxOK_drop regs σ σ' :
  drops_terminal σ σ' → InboxOK regs σ → InboxOK regs σ'.
Proof.
  intros Hd HI rid r Hr. destruct (HI rid r Hr) as [Hin Hs]. split.
  - intros id Hid. destruct (Hin id Hid) as (s & Hs' & [Hl Ha] & Hn).
    exists s. split_and!; [by eapply drops_live|done..].
  - clear Hr. induction Hs as [|id inbox Hs IH Hall]; constructor.
    + apply IH. intros id' Hid'. apply Hin. set_solver.
    + rewrite Forall_forall in Hall |- *. intros id' Hid'.
      destruct (Hall id' Hid') as (s1 & s2 & H1 & H2 & Hlt). exists s1, s2.
      destruct (Hin id) as (s1' & ? & [? _] & _); [set_solver|].
      destruct (Hin id') as (s2' & ? & [? _] & _); [set_solver|]. simplify_eq.
      split_and!; [by eapply drops_live..|done].
Qed.

Lemma CompleteOK_drop now regs σ σ' :
  drops_terminal σ σ' → CompleteOK now regs σ → CompleteOK now regs σ'.
Proof. intros Hd HC rid r id s Hr Hnow Hs. apply (HC rid r id s Hr Hnow). by eapply drops_lookup. Qed.

Lemma SeqOK_drop σ σ' next : drops_terminal σ σ' → SeqOK σ next → SeqOK σ' next.
Proof. intros Hd [Hb Hi]. split; intros; eauto using drops_lookup. Qed.
End drop_lemmas.

(** ** Inboxes *)

Section inbox_lemmas.
Implicit Types (regs : Registrations) (σ : Shapes).

(** Sequence numbers are what [seq_lt] sees. *)
Lemma seq_lt_ext σ σ' a b :
  (∀ id s, id = a ∨ id = b → σ !! id = Some s →
     ∃ s', σ' !! id = Some s' ∧ sh_sequence s' = sh_sequence s) →
  seq_lt σ a b → seq_lt σ' a b.
Proof.
  intros Hext (sa & sb & Ha & Hb & Hlt).
  destruct (Hext a sa) as (sa' & ? & ?); [by left|done|].
  destruct (Hext b sb) as (sb' & ? & ?); [by right|done|].
  exists sa', sb'. split_and!; [done..|lia].
Qed.

Lemma sorted_seq_ext σ σ' l :
  (∀ id s, id ∈ l → σ !! id = Some s →
     ∃ s', σ' !! id = Some s' ∧ sh_sequence s' = sh_sequence s) →
  StronglySorted (seq_lt σ) l → StronglySorted (seq_lt σ') l.
Proof.
  intros Hext Hs. induction Hs as [|id l Hs IH Hall]; constructor.
  - apply IH. intros id' s Hid'. apply Hext. set_solver.
  - rewrite Forall_forall in Hall |- *. intros id' Hid'.
    apply (seq_lt_ext σ); [|by apply Hall].
    intros i s [->| ->]; apply Hext; set_solver.
Qed.

Lemma sorted_filter {A} (R : A → A → Prop) (P : A → Prop) `{∀ x, Decision (P x)} l :
  StronglySorted R l → StronglySorted R (filter P l).
Proof.
  induction 1 as [|x l Hs IH Hall]; [constructor|]. rewrite filter_cons.
  case_decide; [|done]. constructor; [done|]. rewrite Forall_forall in Hall |- *.
  intros y [_ Hy]%list_elem_of_filter. by apply Hall.
Qed.

Lemma sorted_seq_NoDup σ l : StronglySorted (seq_lt σ) l → NoDup l.
Proof.
  induction 1 as [|id l Hs IH Hall]; constructor; [|done].
  intros Hin. rewrite Forall_forall in Hall.
  destruct (Hall id Hin) as (s1 & s2 & H1 & H2 & Hlt). simplify_eq. lia.
Qed.

(** Each registration of [regs'] is one of [regs] with [id] out of its inbox. *)
Definition forgets (id : string) regs regs' : Prop :=
  ∀ rid r', regs' !! rid = Some r' →
    ∃ r, regs !! rid = Some r ∧ rs_registration r' = rs_registration r ∧
         rs_inbox r' = filter (λ queued, queued ≠ id) (rs_inbox r).

Lemma filter_absent (id : string) (l : list string) : id ∉ l → filter (λ queued, queued ≠ id) l = l.
Proof.
  intros Hid. induction l as [|x l IH]; [done|]. rewrite filter_cons.
  rewrite decide_True by set_solver. f_equal. apply IH. set_solver.
Qed.

(** Forgetting a task at the registration of its recipient forgets it everywhere. *)
Lemma forgets_alter regs by_agent next σ rid id s :
  RegsOK regs by_agent next → InboxOK regs σ → σ !! id = Some s →
  by_agent !! sh_recipient s = Some rid →
  forgets id regs (alter (retain_inbox id) rid regs).
Proof.
  intros HR HI Hid Hrid rid' r'. destruct (decide (rid = rid')) as [<-|Hne].
  - rewrite lookup_alter_eq. intros (r & Hr & ->)%fmap_Some. by exists r.
  - rewrite lookup_alter_ne by done. intros Hr'. exists r'. split_and!; [done..|].
    rewrite filter_absent; [done|]. intros Hin.
    destruct (proj1 (HI rid' r' Hr') id Hin) as (s' & Hs' & _ & Hn). simplify_eq.
    apply (regs_named _ _ _ HR) in Hr'. congruence.
Qed.

Lemma forgets_none regs by_agent next σ id s :
  RegsOK regs by_agent next → InboxOK regs σ → σ !! id = Some s →
  by_agent !! sh_recipient s = None → forgets id regs regs.
Proof.
  intros HR HI Hid Hrid rid' r' Hr'. exists r'. split_and!; [done..|].
  rewrite filter_absent; [done|]. intros Hin.
  destruct (proj1 (HI rid' r' Hr') id Hin) as (s' & Hs' & _ & Hn). simplify_eq.
  apply (regs_named _ _ _ HR) in Hr'. congruence.
Qed.

Lemma InboxOK_forget regs regs' σ id s s' :
  σ !! id = Some s → sh_sequence s' = sh_sequence s → forgets id regs regs' →
  InboxOK regs σ → InboxOK regs' (<[id := s']> σ).
Proof.
  intros Hid Hseq Hf HI rid r' Hr'. destruct (Hf rid r' Hr') as (r & Hr & Hn & Hib).
  unfold reg_name. rewrite Hib, Hn. destruct (HI rid r Hr) as [Hin Hs]. split.
  - intros id' [Hne Hid']%list_elem_of_filter. rewrite lookup_insert_ne by done. by apply Hin.
  - apply sorted_filter, (sorted_seq_ext σ); [|done]. intros id' s0 _ Hs0.
    destruct (decide (id = id')) as [<-|Hne].
    + exists s'. rewrite lookup_insert_eq. simplify_eq. by rewrite Hseq.
    + exists s0. by rewrite lookup_insert_ne.
Qed.

Lemma CompleteOK_forget now regs regs' σ id s' :
  ¬ sh_waiting s' → forgets id regs regs' →
  CompleteOK now regs σ → CompleteOK now regs' (<[id := s']> σ).
Proof.
  intros Hw Hf HC rid r' id' s Hr' Hnow Hs Hws Hn.
  destruct (Hf rid r' Hr') as (r & Hr & Hreg & Hib). rewrite Hib.
  unfold reg_expiry, reg_name in *. rewrite Hreg in *.
  destruct (decide (id = id')) as [<-|Hne].
  - rewrite lookup_insert_eq in Hs. simplify_eq. by destruct Hw.
  - rewrite lookup_insert_ne in Hs by done. apply list_elem_of_filter.
    split; [done|]. by eapply HC.
Qed.

(** A new task at the end of the inbox of its recipient. *)
Lemma InboxOK_push regs σ rid r id s :
  regs !! rid = Some r → σ !! id = None → sh_waiting s → sh_recipient s = reg_name r →
  (∀ id' s', σ !! id' = Some s' → (sh_sequence s' < sh_sequence s)%Z) →
  InboxOK regs σ → InboxOK (<[rid := push_inbox id r]> regs) (<[id := s]> σ).
Proof.
  intros Hr Hid Hw Hn Hseq HI rid' r'.
  assert (∀ r0 rid0, regs !! rid0 = Some r0 →
            (∀ id', id' ∈ rs_inbox r0 → ∃ s', <[id := s]> σ !! id' = Some s' ∧
               sh_waiting s' ∧ sh_recipient s' = reg_name r0) ∧
            StronglySorted (seq_lt (<[id := s]> σ)) (rs_inbox r0)) as Hold.
  { intros r0 rid0 Hr0. destruct (HI rid0 r0 Hr0) as [Hin Hs]. split.
    - intros id' Hid'. destruct (Hin id' Hid') as (s' & Hs' & ?). exists s'.
      rewrite lookup_insert_ne by congruence. done.
    - eapply sorted_seq_ext; [|done]. intros id' s' _ Hs'. exists s'.
      rewrite lookup_insert_ne by congruence. done. }
  rewrite lookup_insert. case_decide as Heq; [|by apply Hold].
  intros [= <-]. destruct (Hold r rid Hr) as [Hin Hs]. simpl. split.
  - intros id' [Hid'|Hid']%elem_of_app; [by apply Hin|].
    apply list_elem_of_singleton in Hid' as ->. exists s. by rewrite lookup_insert_eq.
  - apply StronglySorted_app_2; [|done|by repeat constructor].
    intros id1 id2 H1 ->%list_elem_of_singleton.
    destruct (HI rid r Hr) as [Hin0 _]. destruct (Hin0 id1 H1) as (s1 & Hs1 & _).
    exists s1, s. rewrite lookup_insert_eq, lookup_insert_ne by congruence. eauto.
Qed.

Lemma CompleteOK_push now regs by_agent next σ rid r id s :
  RegsOK regs by_agent next → regs !! rid = Some r → sh_recipient s = reg_name r →
  CompleteOK now regs σ → CompleteOK now (<[rid := push_inbox id r]> regs) (<[id := s]> σ).
Proof.
  intros HR Hr Hn HC rid' r' id' s' Hr' Hnow Hs' Hw Hn'.
  destruct (decide (rid = rid')) as [<-|Hne].
  - rewrite lookup_insert_eq in Hr'. simplify_eq. simpl. apply elem_of_app.
    destruct (decide (id = id')) as [<-|Hne']; [right; by apply list_elem_of_singleton|left].
    rewrite lookup_insert_ne in Hs' by done. by eapply HC.
  - rewrite lookup_insert_ne in Hr' by done.
    destruct (decide (id = id')) as [<-|Hne'].
    + rewrite lookup_insert_eq in Hs'. simplify_eq.
      pose proof (regs_named _ _ _ HR _ _ Hr). pose proof (regs_named _ _ _ HR _ _ Hr').
      congruence.
    + rewrite lookup_insert_ne in Hs' by done. by eapply HC.
Qed.

(** A registration whose name and inbox stay as they are. *)
Lemma InboxOK_subset regs regs' σ :
  (∀ rid r', regs' !! rid = Some r' → ∃ r, regs !! rid = Some r ∧
     reg_name r' = reg_name r ∧ rs_inbox r' = rs_inbox r) →
  InboxOK regs σ → InboxOK regs' σ.
Proof.
  intros Hsub HI rid r' Hr'. destruct (Hsub rid r' Hr') as (r & Hr & -> & ->).
  by apply (HI rid).
Qed.

Lemma CompleteOK_mono now now' regs σ :
  (now ≤ now')%Z → CompleteOK now regs σ → CompleteOK now' regs σ.
Proof. intros Hle HC rid r id s Hr Hnow. apply (HC rid r id s Hr). lia. Qed.
End inbox_lemmas.

(** ** Registrations *)

Section registration_lemmas.
Implicit Types (regs : Registrations) (by_agent : gmap AgentName RegistrationId).

Lemma RegsOK_same_name regs by_agent next id1 id2 r1 r2 :
  RegsOK regs by_agent next → regs !! id1 = Some r1 → regs !! id2 = Some r2 →
  reg_name r1 = reg_name r2 → id1 = id2.
Proof.
  intros HR H1 H2 Hn. apply (regs_named _ _ _ HR) in H1, H2. congruence.
Qed.

Lemma RegsOK_delete regs by_agent next id r :
  RegsOK regs by_agent next → regs !! id = Some r →
  RegsOK (delete id regs) (delete (reg_name r) by_agent) next.
Proof.
  intros HR Hr. split.
  - intros id' r' [_ Hr']%lookup_delete_Some. by eapply regs_key.
  - intros id' r' [Hne Hr']%lookup_delete_Some. rewrite lookup_delete_ne.
    + by eapply regs_named.
    + intros Hn. apply Hne. by eapply RegsOK_same_name.
  - intros a id' [Hne Ha]%lookup_delete_Some.
    destruct (regs_indexed _ _ _ HR _ _ Ha) as (r' & Hr' & <-).
    exists r'. split; [|done]. rewrite lookup_delete_ne; [done|]. intros <-. by simplify_eq.
  - intros id' r' [_ Hr']%lookup_delete_Some. by eapply regs_epoch.
  - intros id1 id2 r1 r2 [_ H1]%lookup_delete_Some [_ H2]%lookup_delete_Some.
    by eapply regs_epoch_inj.
Qed.

Lemma RegsOK_insert regs by_agent next id r :
  RegsOK regs by_agent next → regs !! id = None → by_agent !! reg_name r = None →
  reg_id (rs_registration r) = id →
  (∀ id' r', regs !! id' = Some r' →
     (epoch_get (reg_epoch (rs_registration r')) < epoch_get (reg_epoch (rs_registration r)))%Z) →
  (epoch_get (reg_epoch (rs_registration r)) ≤ next)%Z →
  RegsOK (<[id := r]> regs) (<[reg_name r := id]> by_agent) next.
Proof.
  intros HR Hid Ha Hkey Hlt Hle. split.
  - intros id' r' [[<- <-]|[_ Hr']]%lookup_insert_Some; [done|by eapply regs_key].
  - intros id' r' [[<- <-]|[Hne Hr']]%lookup_insert_Some; [by rewrite lookup_insert_eq|].
    apply (regs_named _ _ _ HR) in Hr'. rewrite lookup_insert_ne; congruence.
  - intros a id' [[<- <-]|[Hne Ha']]%lookup_insert_Some.
    + exists r. by rewrite lookup_insert_eq.
    + destruct (regs_indexed _ _ _ HR _ _ Ha') as (r' & Hr' & <-).
      exists r'. rewrite lookup_insert_ne by congruence. done.
  - intros id' r' [[<- <-]|[_ Hr']]%lookup_insert_Some; [done|by eapply regs_epoch].
  - intros id1 id2 r1 r2 [[<- <-]|[_ H1]]%lookup_insert_Some
      [[<- <-]|[_ H2]]%lookup_insert_Some Heq; [done|..].
    + apply Hlt in H2. rewrite Heq in H2. lia.
    + apply Hlt in H1. rewrite Heq in H1. lia.
    + by eapply regs_epoch_inj.
Qed.

(** Updates of the inboxes and of the expiry times. *)
Lemma RegsOK_update regs regs' by_agent next next' :
  (next ≤ next')%Z →
  (∀ id, is_Some (regs' !! id) ↔ is_Some (regs !! id)) →
  (∀ id r', regs' !! id = Some r' → ∃ r, regs !! id = Some r ∧
     credentials (rs_registration r') = credentials (rs_registration r) ∧
     reg_name r' = reg_name r) →
  RegsOK regs by_agent next → RegsOK regs' by_agent next'.
Proof.
  intros Hle Hdom Hold HR. split.
  - intros id r' Hr'. destruct (Hold id r' Hr') as (r & Hr & [= -> _] & _). by eapply regs_key.
  - intros id r' Hr'. destruct (Hold id r' Hr') as (r & Hr & _ & ->). by eapply regs_named.
  - intros a id Ha. destruct (regs_indexed _ _ _ HR _ _ Ha) as (r & Hr & <-).
    destruct (proj2 (Hdom id)) as [r' Hr']; [by eexists|]. exists r'. split; [done|].
    destruct (Hold id r' Hr') as (r0 & Hr0 & _ & ->). by simplify_eq.
  - intros id r' Hr'. destruct (Hold id r' Hr') as (r & Hr & [= _ ->] & _).
    apply (regs_epoch _ _ _ HR) in Hr. lia.
  - intros id1 id2 r1' r2' H1 H2. destruct (Hold _ _ H1) as (r1 & Hr1 & [= _ ->] & _).
    destruct (Hold _ _ H2) as (r2 & Hr2 & [= _ ->] & _). by eapply regs_epoch_inj.
Qed.

Lemma trim_retired_ok order ids :
  NoDup order → ids = list_to_set order →
  let '(order', ids') := trim_retired order ids in RetiredOK ids' order'.
Proof.
  revert ids. induction order as [|id order IH]; intros ids Hnd ->.
  - split_and!; [done..|]. apply Nat.le_0_l.
  - cbn [trim_retired].
    destruct (MAX_RETIRED_REGISTRATION_IDS <? length (id :: order))%nat eqn:Hlen.
    + apply NoDup_cons in Hnd as [Hni Hnd]. apply IH; [done|]. set_solver.
    + apply Nat.ltb_ge in Hlen. split_and!; done.
Qed.
End registration_lemmas.

(** ** Sequence numbers and the queue of terminal tasks *)

Section shape_lemmas.
Implicit Types (σ : Shapes).

Lemma SeqOK_insert σ next id s :
  σ !! id = None → sh_sequence s = (next + 1)%Z →
  SeqOK σ next → SeqOK (<[id := s]> σ) (next + 1).
Proof.
  intros Hid Hseq [Hb Hi]. split.
  - intros id' s' [[<- <-]|[_ Hs']]%lookup_insert_Some; [lia|].
    apply Hb in Hs'. lia.
  - intros id1 id2 s1 s2 [[<- <-]|[_ H1]]%lookup_insert_Some
      [[<- <-]|[_ H2]]%lookup_insert_Some Heq; [done|..].
    + apply Hb in H2. lia.
    + apply Hb in H1. lia.
    + by eapply Hi.
Qed.

Lemma SeqOK_update σ next id s s' :
  σ !! id = Some s → sh_sequence s' = sh_sequence s →
  SeqOK σ next → SeqOK (<[id := s']> σ) next.
Proof.
  intros Hid Hseq [Hb Hi].
  assert (∀ id0 s0, <[id := s']> σ !! id0 = Some s0 →
            ∃ s1, σ !! id0 = Some s1 ∧ sh_sequence s1 = sh_sequence s0) as Hold.
  { intros id0 s0 [[<- <-]|[_ Hs0]]%lookup_insert_Some; eauto. }
  split.
  - intros id0 s0 (s1 & H1 & <-)%Hold. by eapply Hb.
  - intros id1 id2 s1 s2 (? & ? & <-)%Hold (? & ? & <-)%Hold. by eapply Hi.
Qed.

Lemma HeapOK_empty : HeapOK ∅ [].
Proof. split; [constructor|]. intros id d. split; [by intros ?%elem_of_nil|]. by intros (s & ? & _). Qed.

Lemma DueOK_empty : DueOK ∅ [].
Proof. by split; [constructor|]. Qed.

(** [id] is not queued for deletion yet. *)
Definition not_terminal (id : string) (σ : Shapes) : Prop :=
  ∀ s, σ !! id = Some s → sh_live s.

Lemma not_terminal_None σ id : σ !! id = None → not_terminal id σ.
Proof. intros Hid s. by rewrite Hid. Qed.

Lemma not_terminal_Some σ id s : σ !! id = Some s → sh_live s → not_terminal id σ.
Proof. intros Hid Hl s'. rewrite Hid. by intros [= <-]. Qed.

Lemma HeapOK_insert_live σ queue id s :
  not_terminal id σ → sh_live s → HeapOK σ queue → HeapOK (<[id := s]> σ) queue.
Proof.
  intros Hn Hl [Hs Hq]. split; [done|]. intros id' d. rewrite Hq.
  destruct (decide (id = id')) as [<-|Hne]; [|by rewrite lookup_insert_ne].
  rewrite lookup_insert_eq. unfold not_terminal, sh_live in *.
  split; intros (s' & Hs' & Hd); [apply Hn in Hs'|]; congruence.
Qed.

Lemma HeapOK_insert_terminal σ queue id s d :
  not_terminal id σ → sh_deadline s = Some d →
  HeapOK σ queue → HeapOK (<[id := s]> σ) (heap_push (d, id) queue).
Proof.
  intros Hn Hd [Hs Hq]. split; [by apply heap_push_sorted|]. intros id' d'.
  rewrite elem_of_heap_push, Hq. destruct (decide (id = id')) as [<-|Hne].
  - rewrite lookup_insert_eq. unfold not_terminal, sh_live in *. split.
    + intros [[= ->]|(s' & Hs' & Hd')]; [eauto|]. apply Hn in Hs'. congruence.
    + intros (s' & [= <-] & Hd'). left. congruence.
  - rewrite lookup_insert_ne by done. split; [|by right]. intros [[= _ ->]|?]; done.
Qed.

Lemma DueOK_drop σ σ' queue : drops_terminal σ σ' → DueOK σ queue → DueOK σ' queue.
Proof. intros Hd [Hs Hq]. split; [done|]. intros id s Hid. by eapply Hq, drops_lookup. Qed.

(** A task that keeps its delivery time. *)
Lemma DueOK_update σ queue id s s' :
  σ !! id = Some s → (sh_live s' → sh_live s) → sh_due s' = sh_due s →
  DueOK σ queue → DueOK (<[id := s']> σ) queue.
Proof.
  intros Hid Hl Hdue [Hs Hq]. split; [done|].
  intros id' s0 [[<- <-]|[_ Hs0]]%lookup_insert_Some Hlive; [|by apply Hq].
  rewrite Hdue. by apply Hq; [|apply Hl].
Qed.

Lemma DueOK_push σ queue id s :
  DueOK σ queue → DueOK (<[id := s]> σ) (heap_push (sh_due s, id) queue).
Proof.
  intros [Hs Hq]. split; [by apply heap_push_sorted|].
  intros id' s' [[<- <-]|[_ Hs']]%lookup_insert_Some Hl; apply elem_of_heap_push; [by left|].
  right. by apply Hq.
Qed.

Lemma DueOK_insert_terminal σ queue id s :
  ¬ sh_live s → DueOK σ queue → DueOK (<[id := s]> σ) queue.
Proof.
  intros Hl [Hs Hq]. split; [done|].
  intros id' s' [[<- <-]|[_ Hs']]%lookup_insert_Some Hlive; [done|by apply Hq].
Qed.
End shape_lemmas.
