(* ===== verification/BrokerPrim.v ===== *)
(** * The primitives that write the state preserve the invariant

    Closed forms of the helpers of [broker.rs] that loop over the state, and for
    each primitive the lemma that it preserves [Core] and [CompleteOK]. *)
From stdpp Require Import prelude gmap strings sorting.
From S2P Require Import Prelude RustStd Model Validation Durability BrokerState BrokerDurable.
From S2P Require Import BrokerMaintain BrokerOps BrokerInv.

#[local] Abbreviation Registrations := (gmap RegistrationId RegistrationState).

(** [∀ a, owns a s ↔ a ∈ ks] *)
Ltac solve_owns :=
  let a := fresh "a" in
  intros a; unfold owns_active, owns_sent, owns_received; simpl;
  rewrite ?elem_of_cons, ?list_elem_of_singleton, ?elem_of_nil; tauto.

Section shapes_of_tasks.
Context `{JsonNumber}.
Implicit Types (ts : gmap string TaskRecord) (t : TaskRecord).

Lemma lookup_shapes ts id s :
  shapes ts !! id = Some s ↔ ∃ t, ts !! id = Some t ∧ s = shape t.
Proof. unfold shapes. rewrite lookup_fmap, fmap_Some. done. Qed.

Lemma lookup_shapes_Some ts id t : ts !! id = Some t → shapes ts !! id = Some (shape t).
Proof. intros Hid. unfold shapes. by rewrite lookup_fmap, Hid. Qed.

Lemma lookup_shapes_None ts id : ts !! id = None → shapes ts !! id = None.
Proof. intros Hid. unfold shapes. by rewrite lookup_fmap, Hid. Qed.

Lemma shapes_insert ts id t : shapes (<[id := t]> ts) = <[id := shape t]> (shapes ts).
Proof. apply fmap_insert. Qed.

Lemma shapes_update ts id t t' :
  ts !! id = Some t → shape t' = shape t → shapes (<[id := t']> ts) = shapes ts.
Proof.
  intros Hid Hs. rewrite shapes_insert, Hs. apply insert_id. by apply lookup_shapes_Some.
Qed.

Lemma shapes_fmap ts (f : TaskRecord → TaskRecord) :
  (∀ t, shape (f t) = shape t) → shapes (f <$> ts) = shapes ts.
Proof.
  intros Hf. unfold shapes. rewrite <-map_fmap_compose. apply map_fmap_ext.
  intros id t _. apply Hf.
Qed.

(** ** Deliveries *)

(** [forget_delivery] and [forget_inbox] on the field they write. *)
Definition forget_in (d : option DeliveryId) (id : string) (m : gmap DeliveryId string)
    : gmap DeliveryId string :=
  match d with
  | Some d => if bool_decide (m !! d = Some id) then delete d m else m
  | None => m
  end.

Lemma forget_delivery_eq d id st :
  forget_delivery d id st = st <| tasks_by_delivery ::= forget_in d id |>.
Proof.
  destruct st as [????????????? by_delivery], d as [d|]; [|done].
  unfold forget_delivery, update; simpl. by destruct (bool_decide (by_delivery !! d = Some id)).
Qed.

Definition retain_at (o : option RegistrationId) (id : string) (regs : Registrations)
    : Registrations :=
  match o with Some rid => alter (retain_inbox id) rid regs | None => regs end.

Lemma forget_inbox_eq a id st :
  forget_inbox a id st
  = st <| registrations ::= retain_at (registrations_by_agent st !! a) id |>.
Proof. unfold forget_inbox. destruct st as [????? by_agent]; simpl. by destruct (by_agent !! a). Qed.

Lemma DelivOK_update ts by_delivery id t t' :
  ts !! id = Some t → lease t' = lease t →
  DelivOK ts by_delivery → DelivOK (<[id := t']> ts) by_delivery.
Proof.
  intros Hid Hl HD d id'. rewrite (HD d id'). destruct (decide (id = id')) as [<-|Hne].
  - rewrite lookup_insert_eq, Hid.
    split; intros (t0 & l0 & [= <-] & ? & ?); eexists _, l0; (split_and!; [done|congruence|done]).
  - by rewrite lookup_insert_ne.
Qed.

Lemma DelivOK_new ts by_delivery id t :
  ts !! id = None → lease t = None →
  DelivOK ts by_delivery → DelivOK (<[id := t]> ts) by_delivery.
Proof.
  intros Hid Hl HD d id'. rewrite (HD d id'). destruct (decide (id = id')) as [<-|Hne].
  - rewrite lookup_insert_eq, Hid. split; intros (t0 & l0 & [=] & ? & _). congruence.
  - by rewrite lookup_insert_ne.
Qed.

Lemma DelivOK_forget ts by_delivery id t t' :
  ts !! id = Some t → lease t' = None → DelivOK ts by_delivery →
  DelivOK (<[id := t']> ts) (forget_in (lease_delivery_id <$> lease t) id by_delivery).
Proof.
  intros Hid Hl HD d id'.
  assert (∀ l, lease t = Some l → by_delivery !! lease_delivery_id l = Some id) as Hmine.
  { intros l Hlt. apply HD. eauto. }
  assert (forget_in (lease_delivery_id <$> lease t) id by_delivery !! d = Some id'
          ↔ by_delivery !! d = Some id' ∧ id' ≠ id) as ->.
  { destruct (lease t) as [l|] eqn:Hlt; simpl.
    - rewrite bool_decide_true by auto. rewrite lookup_delete_Some. split.
      + intros [Hne Hd]. split; [done|]. intros ->. apply HD in Hd as (t0 & l0 & ? & ? & <-).
        by simplify_eq.
      + intros [Hd Hne]. split; [|done]. intros <-. rewrite Hmine in Hd by done. congruence.
    - split; [|tauto]. intros Hd. split; [done|]. intros ->.
      apply HD in Hd as (t0 & l0 & ? & ? & <-). by simplify_eq. }
  rewrite (HD d id'). destruct (decide (id = id')) as [<-|Hne].
  - rewrite lookup_insert_eq. split; [by intros [_ []]|].
    intros (t0 & l0 & [= <-] & ? & _). congruence.
  - rewrite lookup_insert_ne by done. split; [by intros [? _]|by intros ?].
Qed.

(** A new lease: the old delivery is forgotten, the new one recorded. *)
Lemma DelivOK_lease ts by_delivery id t t' l :
  ts !! id = Some t → lease t' = Some l → by_delivery !! lease_delivery_id l = None →
  DelivOK ts by_delivery →
  DelivOK (<[id := t']> ts)
    (<[lease_delivery_id l := id]>
       (forget_in (lease_delivery_id <$> lease t) id by_delivery)).
Proof.
  intros Hid Hl Hfresh HD.
  pose proof (DelivOK_forget ts by_delivery id t (t <| lease := None |>) Hid eq_refl HD) as HD'.
  intros d id'. rewrite lookup_insert_Some, (HD' d id').
  destruct (decide (id = id')) as [<-|Hne].
  - rewrite !lookup_insert_eq. split.
    + intros [[<- _]|(_ & t0 & l0 & ? & ? & _)]; [eauto|by simplify_eq].
    + intros (t0 & l0 & ? & ? & <-). simplify_eq. by left.
  - rewrite !lookup_insert_ne by done. split; [by intros [[_ <-]|[_ ?]]|].
    intros (t0 & l0 & H0 & H1 & H2). right. split; [|eauto]. intros Heq.
    assert (by_delivery !! d = Some id') as Hd by (apply HD; eauto). congruence.
Qed.

(** ** Owners *)

Lemma OwnerOK_update ts regs id t' :
  (∀ l, acknowledged t' = false → lease t' = Some l →
     ∃ rid r, regs !! rid = Some r ∧ reg_name r = recipient t' ∧
       lease_owner l = Some (reg_credentials r)) →
  OwnerOK ts regs → OwnerOK (<[id := t']> ts) regs.
Proof.
  intros Hnew HO id' t l [[<- <-]|[_ Ht]]%lookup_insert_Some; [apply Hnew|exact (HO _ _ _ Ht)].
Qed.

(** Registrations keep their names and credentials. *)
Lemma OwnerOK_regs ts regs regs' :
  (∀ rid r, regs !! rid = Some r → ∃ r', regs' !! rid = Some r' ∧
     reg_name r' = reg_name r ∧ reg_credentials r' = reg_credentials r) →
  OwnerOK ts regs → OwnerOK ts regs'.
Proof.
  intros Hregs HO id t l Ht Ha Hl. destruct (HO id t l Ht Ha Hl) as (rid & r & Hr & Hn & Ho).
  destruct (Hregs rid r Hr) as (r' & Hr' & Hn' & Hc'). exists rid, r'.
  by rewrite Hn', Hc'.
Qed.
End shapes_of_tasks.

(** ** [terminalize_task] *)

Section terminalize.
Context `{JsonNumber}.
Implicit Types (st : State) (t : TaskRecord).

(** The state [terminalize_task] leaves. *)
Definition terminalized (id : string) (now deadline version : Z) (o : TerminalState)
    (t : TaskRecord) (st : State) : State :=
  st <| tasks ::= insert id (terminal_record now deadline version o t) |>
     <| tasks_by_delivery ::= forget_in (lease_delivery_id <$> lease t) id |>
     <| registrations ::= retain_at (registrations_by_agent st !! recipient t) id |>
     <| active_tasks_by_agent ::= idx_remove (recipient t) id |>
     <| active_tasks_by_agent ::= idx_remove (sender t) id |>
     <| outbound_tasks_by_agent ::= idx_remove (sender t) id |>
     <| tasks_by_sender ::= idx_remove (sender t) id |>
     <| tasks_by_recipient ::= idx_remove (recipient t) id |>
     <| terminal_deadlines ::= heap_push (deadline, id) |>.

Lemma terminalize_task_run id now o st t deadline version :
  tasks st !! id = Some t → live t →
  checked_add_i64 now TERMINAL_RETENTION_MS = Some deadline →
  checked_add_u64 (state_version t) 1 = Some version →
  terminalize_task id now o st
  = (Done (reply_waiters t), terminalized id now deadline version o t st).
Proof.
  intros Hid Hlive Hd Hv. unfold terminalize_task, st_bind, st_lift, st_get, or_unavailable.
  rewrite Hd. simpl. rewrite Hid. simpl. rewrite Hlive, Hv. simpl. unfold st_modify, st_ret.
  do 2 f_equal. rewrite forget_delivery_eq, forget_inbox_eq. done.
Qed.

Lemma terminal_record_fields now d v o t :
  task_fields (terminal_record now d v o t) = outcome_fields o.
Proof. by destruct o. Qed.

Lemma terminal_record_wf id now d v o t :
  task_wf id t → checked_add_i64 now TERMINAL_RETENTION_MS = Some d →
  task_wf id (terminal_record now d v o t).
Proof.
  intros [Hid Hs Hr Hdl _] Hd. split; try by destruct o.
  assert (terminal_deadline_unix_ms (terminal_record now d v o t) = Some d) as ->
    by by destruct o.
  split; try by destruct o.
  - exists o. apply terminal_record_fields.
  - exists now. split; [by destruct o|done].
Qed.

Definition ended_shape (d : Z) t : Shape :=
  MkShape (sender t) (recipient t) (enqueue_sequence t) false (Some d) (sh_due (shape t)).

Lemma terminal_record_shape now d v o t :
  shape (terminal_record now d v o t)
  = ended_shape d t.
Proof. by destruct o. Qed.

Lemma retain_at_forgets st id t :
  Core st → tasks st !! id = Some t →
  forgets id (registrations st)
    (retain_at (registrations_by_agent st !! recipient t) id (registrations st)).
Proof.
  intros HC Hid. apply lookup_shapes_Some in Hid.
  destruct (registrations_by_agent st !! recipient t) as [rid|] eqn:Hrid; simpl.
  - by eapply forgets_alter; [apply core_regs|apply core_inbox|..].
  - by eapply forgets_none; [apply core_regs|apply core_inbox|..].
Qed.

(** Dropping a task from an inbox keeps the registrations. *)
Lemma retain_at_lookup o id regs rid :
  retain_at o id regs !! rid
  = if bool_decide (o = Some rid) then retain_inbox id <$> regs !! rid else regs !! rid.
Proof.
  destruct o as [rid'|]; simpl.
  - destruct (decide (rid' = rid)) as [->|Hne].
    + by rewrite lookup_alter_eq, bool_decide_true.
    + by rewrite lookup_alter_ne, bool_decide_false by congruence.
  - done.
Qed.

Lemma retain_at_inv o id regs rid r' :
  retain_at o id regs !! rid = Some r' →
  ∃ r, regs !! rid = Some r ∧ rs_registration r' = rs_registration r.
Proof.
  rewrite retain_at_lookup. case_bool_decide; [|eauto].
  intros (r & Hr & ->)%fmap_Some. by exists r.
Qed.

Lemma retain_at_fwd o id regs rid r :
  regs !! rid = Some r →
  ∃ r', retain_at o id regs !! rid = Some r' ∧ rs_registration r' = rs_registration r.
Proof.
  intros Hr. rewrite retain_at_lookup, Hr. case_bool_decide; eexists; by split.
Qed.

Lemma RegsOK_retain o id regs by_agent next :
  RegsOK regs by_agent next → RegsOK (retain_at o id regs) by_agent next.
Proof.
  apply RegsOK_update; [done| |].
  - intros rid. split; intros [r Hr].
    + apply retain_at_inv in Hr as (r0 & ? & _). by eexists.
    + apply (retain_at_fwd o id) in Hr as (r0 & ? & _). by eexists.
  - intros rid r' (r & Hr & Heq)%retain_at_inv. exists r. unfold reg_name. by rewrite Heq.
Qed.

Lemma OwnerOK_retain o id ts regs : OwnerOK ts regs → OwnerOK ts (retain_at o id regs).
Proof.
  apply OwnerOK_regs. intros rid r (r' & Hr' & Heq)%(retain_at_fwd o id).
  exists r'. unfold reg_name, reg_credentials. by rewrite Heq.
Qed.

Lemma Core_terminalized id now d v o t st :
  Core st → tasks st !! id = Some t → live t →
  checked_add_i64 now TERMINAL_RETENTION_MS = Some d →
  Core (terminalized id now d v o t st).
Proof.
  intros HC Hid Hlive Hd. pose proof (lookup_shapes_Some _ _ _ Hid) as Hsh.
  assert (tasks (terminalized id now d v o t st)
          = <[id := terminal_record now d v o t]> (tasks st)) as Hts by done.
  assert (shapes (tasks (terminalized id now d v o t st))
          = <[id := ended_shape d t]>
              (shapes (tasks st))) as Hσ.
  { by rewrite Hts, shapes_insert, terminal_record_shape. }
  split; rewrite ?Hσ, ?Hts; simpl.
  - apply map_Forall_insert_2; [|apply HC]. apply terminal_record_wf; [|done]. by apply HC.
  - apply RegsOK_retain, HC.
  - apply (IdxOK_remove _ _ _ _ _ _ [sender t; recipient t] Hsh); [solve_owns|done|apply HC].
  - apply (IdxOK_remove _ _ _ _ _ _ [sender t] Hsh); [solve_owns|done|apply HC].
  - apply (IdxOK_remove _ _ _ _ _ _ [sender t] Hsh); [solve_owns|done|apply HC].
  - apply (IdxOK_remove _ _ _ _ _ _ [recipient t] Hsh); [solve_owns|done|apply HC].
  - apply DelivOK_forget; [done|by destruct o|apply HC].
  - apply OwnerOK_update; [by destruct o|]. apply OwnerOK_retain, HC.
  - by eapply InboxOK_forget; [done..|apply retain_at_forgets|apply HC].
  - by eapply SeqOK_update; [done..|apply HC].
  - apply HeapOK_insert_terminal; [by eapply not_terminal_Some|done|apply HC].
  - by apply DueOK_insert_terminal, HC.
  - apply HC.
  - rewrite map_size_insert_Some by by eexists. apply HC.
Qed.

Lemma Inv_terminalized clk id now d v o t st :
  Inv clk st → tasks st !! id = Some t → live t →
  checked_add_i64 now TERMINAL_RETENTION_MS = Some d →
  Inv clk (terminalized id now d v o t st).
Proof.
  intros [HC HK] Hid Hlive Hd. split; [by apply Core_terminalized|].
  assert (shapes (tasks (terminalized id now d v o t st))
          = <[id := ended_shape d t]>
              (shapes (tasks st))) as ->.
  { simpl. by rewrite shapes_insert, terminal_record_shape. }
  simpl. eapply CompleteOK_forget; [|by apply retain_at_forgets|done].
  intros [Hl _]. done.
Qed.
End terminalize.

(** ** Requeued leases *)

Section requeue.
Context `{JsonNumber}.
Implicit Types (st : State) (t : TaskRecord) (c : RegistrationCredentials).

Definition bump_task c t : TaskRecord :=
  if leased_to c t then t <| state_version ::= λ v, (v + 1)%Z |> else t.

Definition drop_lease c t : TaskRecord :=
  if leased_to c t then t <| lease := None |> else t.

(** The version of every task leased to [c] can advance. *)
Definition can_requeue c st : Prop :=
  ∀ id t, tasks st !! id = Some t → leased_to c t = true →
    checked_add_u64 (state_version t) 1 = Some (state_version t + 1)%Z.

Lemma bump_run c st :
  can_requeue c st →
  bump_requeued_versions_for_credentials c st
  = (Done tt, st <| tasks ::= fmap (bump_task c) |>).
Proof.
  intros Hcan. unfold bump_requeued_versions_for_credentials, st_bind, st_get.
  set (body := λ kv : string * TaskRecord, _).
  assert (∀ l st0, NoDup l.*1 → (∀ kv, kv ∈ l → tasks st !! kv.1 = Some kv.2) →
    ∃ ts, for_each body l st0 = (Done tt, st0 <| tasks := ts |>) ∧
      ∀ id, ts !! id = match list_to_map (M := gmap string TaskRecord) l !! id with
                       | Some t => if leased_to c t then Some (bump_task c t)
                                   else tasks st0 !! id
                       | None => tasks st0 !! id
                       end) as Hloop.
  { intros l. induction l as [|[k t] l IH]; intros st0 Hnd Hl.
    - exists (tasks st0). split; [by destruct st0|]. done.
    - apply NoDup_cons in Hnd as [Hk Hnd]. cbn [for_each]. unfold st_bind, body at 1; simpl.
      assert (tasks st !! k = Some t) as Ht by (apply (Hl (k, t)); set_solver).
      assert (list_to_map (M := gmap string TaskRecord) l !! k = None) as Hno
        by by apply not_elem_of_list_to_map.
      destruct (leased_to c t) eqn:Hlt; simpl.
      + rewrite (Hcan k t Ht Hlt); simpl.
        destruct (IH (st0 <| tasks ::= insert k (t <| state_version := (state_version t + 1)%Z |>) |>)
                    Hnd) as (ts & -> & Hts); [set_solver|].
        exists ts. split; [by destruct st0|]. intros id. rewrite Hts; simpl.
        destruct (decide (k = id)) as [<-|Hne].
        * rewrite Hno, !lookup_insert_eq, Hlt. unfold bump_task. by rewrite Hlt.
        * by rewrite !lookup_insert_ne.
      + destruct (IH st0 Hnd) as (ts & -> & Hts); [set_solver|].
        exists ts. split; [done|]. intros id. rewrite Hts.
        destruct (decide (k = id)) as [<-|Hne].
        * by rewrite Hno, lookup_insert_eq, Hlt.
        * by rewrite lookup_insert_ne. }
  destruct (Hloop (map_to_list (tasks st)) st) as (ts & -> & Hts).
  { apply NoDup_fst_map_to_list. }
  { intros [k t] Hkt. by apply elem_of_map_to_list. }
  f_equal. destruct st. unfold update; simpl. f_equal. apply map_eq. intros id. rewrite Hts.
  rewrite list_to_map_to_list, lookup_fmap. simpl. destruct (_ !! id) as [t|]; [|done].
  simpl. unfold bump_task. by destruct (leased_to c t).
Qed.

(** An update of every task that the indexes do not see. *)
Lemma Core_fmap (f : TaskRecord → TaskRecord) st :
  (∀ id t, task_wf id t → task_wf id (f t)) →
  (∀ t, shape (f t) = shape t) →
  (∀ t, lease_delivery_id <$> lease (f t) = lease_delivery_id <$> lease t) →
  OwnerOK (f <$> tasks st) (registrations st) →
  Core st → Core (st <| tasks ::= fmap f |>).
Proof.
  intros Hwf Hsh Hl HO HC.
  split; simpl; rewrite ?(shapes_fmap _ _ Hsh); try apply HC; try done.
  - intros id t. rewrite lookup_fmap. intros (t0 & Ht & ->)%fmap_Some.
    by apply Hwf, HC.
  - intros d id. rewrite (core_deliveries _ HC d id), lookup_fmap.
    split; [intros (t & l & -> & Hlt & Hd)|intros (t' & l & (t & -> & ->)%fmap_Some & Hlt & Hd)];
      specialize (Hl t); rewrite Hlt in Hl; simpl in Hl.
    + exists (f t). destruct (lease (f t)) as [l'|]; [|done]. exists l'. naive_solver.
    + exists t. destruct (lease t) as [l'|]; [|done]. exists l'. naive_solver.
  - rewrite map_size_fmap. apply HC.
Qed.

Lemma task_wf_version id t v : task_wf id t → task_wf id (t <| state_version := v |>).
Proof.
  intros [? ? ? ? Hp]. split; simpl; [done..|].
  by destruct (terminal_deadline_unix_ms t); destruct Hp.
Qed.

Lemma task_wf_waiters id t l :
  live t → task_wf id t → task_wf id (t <| reply_waiters := l |>).
Proof.
  intros Hlive [? ? ? ? Hp]. split; simpl; [done..|].
  rewrite Hlive in *. by destruct Hp.
Qed.

Lemma leased_to_iff c t :
  leased_to c t = true ↔
  acknowledged t = false ∧ ∃ l, lease t = Some l ∧ lease_owner l = Some c.
Proof.
  unfold leased_to. destruct (acknowledged t), (lease t) as [l|]; simpl; try naive_solver.
  rewrite bool_decide_eq_true. naive_solver.
Qed.

Lemma task_wf_drop_lease id c t : task_wf id t → task_wf id (drop_lease c t).
Proof.
  unfold drop_lease. destruct (leased_to c t) eqn:Hl; [|done].
  apply leased_to_iff in Hl as (Ha & l & Hl & _).
  intros [? ? ? ? Hp]. split; simpl; [done..|].
  destruct (terminal_deadline_unix_ms t); destruct Hp; split; simpl; congruence || done.
Qed.

Lemma shape_bump c t : shape (bump_task c t) = shape t.
Proof. unfold bump_task. by destruct (leased_to c t). Qed.
Lemma lease_bump c t : lease (bump_task c t) = lease t.
Proof. unfold bump_task. by destruct (leased_to c t). Qed.
Lemma shape_drop_lease c t : shape (drop_lease c t) = shape t.
Proof. unfold drop_lease. by destruct (leased_to c t). Qed.

Lemma Core_bump c st : Core st → Core (st <| tasks ::= fmap (bump_task c) |>).
Proof.
  intros HC. apply Core_fmap; [..|done].
  - intros id t Hwf. unfold bump_task. destruct (leased_to c t); [|done].
    by apply task_wf_version.
  - apply shape_bump.
  - intros t. by rewrite lease_bump.
  - intros id t' l. rewrite lookup_fmap. intros (t & Ht & ->)%fmap_Some.
    rewrite lease_bump. unfold bump_task. destruct (leased_to c t); exact (core_owners _ HC id t l Ht).
Qed.

Lemma Inv_bump clk c st : Inv clk st → Inv clk (st <| tasks ::= fmap (bump_task c) |>).
Proof.
  intros [HC HK]. split; [by apply Core_bump|]. simpl.
  by rewrite (shapes_fmap _ _ (shape_bump c)).
Qed.

Lemma leased_to_bump c c' t : leased_to c (bump_task c' t) = leased_to c t.
Proof. unfold bump_task. by destruct (leased_to c' t). Qed.
End requeue.

(** ** [detach_registration] *)

Section detach.
Context `{JsonNumber}.
Implicit Types (st : State) (t : TaskRecord) (c : RegistrationCredentials).

Lemma take_lease_eq id st t :
  tasks st !! id = Some t →
  take_lease id st
  = st <| tasks ::= insert id (t <| lease := None |>) |>
       <| tasks_by_delivery ::= forget_in (lease_delivery_id <$> lease t) id |>.
Proof. intros Hid. unfold take_lease. rewrite Hid. by rewrite forget_delivery_eq. Qed.

(** The loop that takes the leases writes two fields, and keeps the lookup of
    deliveries exact. *)
Lemma take_leases_run ids st :
  NoDup ids → (∀ id, id ∈ ids → is_Some (tasks st !! id)) →
  DelivOK (tasks st) (tasks_by_delivery st) →
  ∃ ts m,
    foldl (λ st id, take_lease id st) st ids
    = st <| tasks := ts |> <| tasks_by_delivery := m |> ∧ DelivOK ts m ∧
    ∀ id, ts !! id = if bool_decide (id ∈ ids)
                     then (λ t, t <| lease := None |>) <$> tasks st !! id
                     else tasks st !! id.
Proof.
  revert st. induction ids as [|i ids IH]; intros st Hnd Hin HD.
  { exists (tasks st), (tasks_by_delivery st). split; [by destruct st|]. split; [done|].
    intros id. by rewrite bool_decide_false by set_solver. }
  apply NoDup_cons in Hnd as [Hi Hnd]. destruct (Hin i) as [t Ht]; [set_solver|].
  cbn [foldl]. rewrite (take_lease_eq i st t Ht).
  set (st1 := st <| tasks ::= _ |> <| tasks_by_delivery ::= _ |>).
  destruct (IH st1 Hnd) as (ts & m & Heq & HD' & Hts).
  { intros id Hid. simpl. rewrite lookup_insert. case_decide; [by eexists|].
    apply Hin. set_solver. }
  { by apply DelivOK_forget. }
  exists ts, m. split; [rewrite Heq; by destruct st|]. split; [done|].
  intros id. rewrite Hts. simpl. destruct (decide (i = id)) as [<-|Hne].
  - rewrite bool_decide_false, bool_decide_true by set_solver.
    by rewrite lookup_insert_eq, Ht.
  - rewrite lookup_insert_ne by done.
    destruct (decide (id ∈ ids)) as [Hid|Hid].
    + by rewrite !bool_decide_true by set_solver.
    + by rewrite !bool_decide_false by set_solver.
Qed.

Lemma retire_registration_id_eq rid st :
  RetiredOK (retired_registration_ids st) (retired_registration_order st) →
  ∃ ids order,
    retire_registration_id rid st
    = st <| retired_registration_ids := ids |> <| retired_registration_order := order |> ∧
    RetiredOK ids order.
Proof.
  intros (Hnd & Hset & Hlen). unfold retire_registration_id.
  set (order0 := if bool_decide _ then _ else _).
  assert (NoDup order0 ∧ {[ rid ]} ∪ retired_registration_ids st = list_to_set order0)
    as [Hnd0 Hset0].
  { unfold order0. rewrite Hset. case_bool_decide as Hin; rewrite elem_of_list_to_set in Hin.
    - split; [done|]. set_solver.
    - split; [|set_solver]. apply NoDup_app. split_and!; [done|set_solver|apply NoDup_singleton]. }
  pose proof (trim_retired_ok order0 _ Hnd0 Hset0) as Hok.
  destruct (trim_retired order0 _) as [order ids]. by exists ids, order.
Qed.

(** What [detach_registration] leaves: one registration less, its leases gone. *)
Record Detached (rid : RegistrationId) (r : RegistrationState) (st st' : State) : Prop := {
  det_tasks : tasks st' = drop_lease (reg_credentials r) <$> tasks st;
  det_regs : registrations st' = delete rid (registrations st);
  det_by_agent : registrations_by_agent st' = delete (reg_name r) (registrations_by_agent st);
  det_rest :
    st' = st <| registrations := registrations st' |>
             <| registrations_by_agent := registrations_by_agent st' |>
             <| retired_registration_ids := retired_registration_ids st' |>
             <| retired_registration_order := retired_registration_order st' |>
             <| tasks := tasks st' |>
             <| tasks_by_delivery := tasks_by_delivery st' |>;
  det_deliveries : DelivOK (tasks st') (tasks_by_delivery st');
  det_retired : RetiredOK (retired_registration_ids st') (retired_registration_order st');
}.

Lemma detach_registration_run rid retire r st :
  Core st → registrations st !! rid = Some r →
  ∃ st', detach_registration rid retire st = (Some r, st') ∧ Detached rid r st st'.
Proof.
  intros HC Hr. unfold detach_registration. rewrite Hr.
  pose proof (regs_named _ _ _ (core_regs _ HC) _ _ Hr) as Hname.
  set (st1 := st <| registrations ::= delete rid |>).
  rewrite bool_decide_true by done.
  set (st2 := st1 <| registrations_by_agent ::= _ |>).
  assert (∃ ids order, (if retire then retire_registration_id rid st2 else st2)
      = st2 <| retired_registration_ids := ids |> <| retired_registration_order := order |>
      ∧ RetiredOK ids order) as (ids & order & -> & Hret).
  { destruct retire; [apply retire_registration_id_eq, HC|].
    eexists (retired_registration_ids st), (retired_registration_order st).
    split; [by destruct st|apply HC]. }
  set (st3 := st2 <| retired_registration_ids := _ |> <| retired_registration_order := _ |>).
  set (l := filter _ _).
  destruct (take_leases_run l.*1 st3) as (ts & m & -> & HD & Hts).
  { eapply sublist_NoDup; [apply (NoDup_fst_map_to_list (tasks st))|].
    apply fmap_sublist, sublist_filter. }
  { intros id ([k t] & -> & [_ Ht]%list_elem_of_filter)%list_elem_of_fmap.
    apply elem_of_map_to_list in Ht. by eexists. }
  { apply HC. }
  eexists. split; [done|]. split; simpl; try done.
  apply map_eq. intros id. rewrite Hts, lookup_fmap. simpl.
  assert (id ∈ l.*1 ↔ ∃ t, tasks st !! id = Some t ∧ leased_to (reg_credentials r) t = true)
    as Hmem.
  { rewrite list_elem_of_fmap. split.
    - intros ([k t] & -> & [Hl Ht]%list_elem_of_filter). apply elem_of_map_to_list in Ht. eauto.
    - intros (t & Ht & Hl). exists (id, t). split; [done|]. apply list_elem_of_filter.
      split; [done|]. by apply elem_of_map_to_list. }
  unfold drop_lease. destruct (tasks st !! id) as [t|] eqn:Hid; simpl.
  - destruct (leased_to (reg_credentials r) t) eqn:Hl.
    + rewrite bool_decide_true by (apply Hmem; eauto). done.
    + rewrite bool_decide_false by (rewrite Hmem; intros (t0 & [= <-] & ?); congruence). done.
  - by case_bool_decide.
Qed.

Lemma Core_detached rid r st st' :
  Core st → registrations st !! rid = Some r → Detached rid r st st' → Core st'.
Proof.
  intros HC Hr [Hts Hregs Hby Hst HD Hret].
  assert (shapes (tasks st') = shapes (tasks st)) as Hσ.
  { rewrite Hts. apply shapes_fmap, shape_drop_lease. }
  split; rewrite ?Hσ; try done.
  - rewrite Hts. intros id t'. rewrite lookup_fmap. intros (t & Ht & ->)%fmap_Some.
    by apply task_wf_drop_lease, HC.
  - rewrite Hregs, Hby, Hst. by apply RegsOK_delete; [apply HC|].
  - rewrite Hst. apply HC.
  - rewrite Hst. apply HC.
  - rewrite Hst. apply HC.
  - rewrite Hst. apply HC.
  - rewrite Hts, Hregs. intros id t' l. rewrite lookup_fmap. intros (t & Ht & ->)%fmap_Some.
    unfold drop_lease. destruct (leased_to (reg_credentials r) t) eqn:Hlt; [done|].
    intros Ha Hl. destruct (core_owners _ HC id t l Ht Ha Hl) as (rid' & r' & Hr' & Hn & Ho).
    exists rid', r'. rewrite lookup_delete_ne; [done|]. intros <-. simplify_eq.
    assert (leased_to (reg_credentials r) t = true); [|congruence]. apply leased_to_iff; eauto.
  - rewrite Hregs. eapply InboxOK_subset; [|apply HC].
    intros rid' r' [_ Hr']%lookup_delete_Some. eauto.
  - rewrite Hst. apply HC.
  - rewrite Hst. apply HC.
  - rewrite Hst. apply HC.
  - rewrite Hts, map_size_fmap. apply HC.
Qed.

Lemma Inv_detached clk rid r st st' :
  Inv clk st → registrations st !! rid = Some r → Detached rid r st st' → Inv clk st'.
Proof.
  intros [HC HK] Hr HDet. split; [by eapply Core_detached|].
  destruct HDet as [Hts Hregs _ _ _ _]. rewrite Hts, (shapes_fmap _ _ (shape_drop_lease _)).
  rewrite Hregs. intros rid' r' id s [_ Hr']%lookup_delete_Some. by apply (HK rid').
Qed.
End detach.
