(* ===== verification/BrokerTrans.v ===== *)
(** * Transitions of a task and of a registration preserve the invariant

    Pruning, queueing, leasing, acknowledging, waiting, registering, renewing:
    the writes the operations of [broker.rs] perform after their commit. *)
From stdpp Require Import prelude gmap strings sorting.
From S2P Require Import Prelude RustStd Model Validation Durability BrokerState BrokerDurable.
From S2P Require Import BrokerMaintain BrokerOps BrokerInv BrokerPrim.

#[local] Abbreviation Registrations := (gmap RegistrationId RegistrationState).

(** ** Pruning *)

Section prune.
Context `{JsonNumber}.
Implicit Types (st : State) (ts : gmap string TaskRecord) (t : TaskRecord).

(** A terminal task whose retention is over at [now]. *)
Definition overdue (now : Z) t : bool :=
  from_option (λ d, (d <=? now)%Z) false (terminal_deadline_unix_ms t).

Definition prune_one (now : Z) t : option TaskRecord :=
  if overdue now t then None else Some t.

Definition queued_for_deletion ts (queue : list Deadline) : Prop :=
  ∀ id t d, ts !! id = Some t → terminal_deadline_unix_ms t = Some d → (d, id) ∈ queue.

Lemma prune_terminal_queue_run now queue ts queue' ts' :
  StronglySorted deadline_le queue → queued_for_deletion ts queue →
  prune_terminal_queue now queue ts = (queue', ts') →
  (∀ id, ts' !! id = ts !! id ≫= prune_one now) ∧
  StronglySorted deadline_le queue' ∧ queued_for_deletion ts' queue' ∧ queue' ⊆ queue ∧
  Forall (λ d : Deadline, (now < d.1)%Z) queue'.
Proof.
  revert ts. induction queue as [|[d id0] rest IH]; intros ts Hs Hq; simpl.
  { intros [= <- <-]. split_and!; [|done..|constructor]. intros id.
    destruct (ts !! id) as [t|] eqn:Ht; simpl; [|done]. unfold prune_one, overdue.
    destruct (terminal_deadline_unix_ms t) as [d|] eqn:Hd; simpl; [|done].
    by apply (Hq _ _ _ Ht), elem_of_nil in Hd. }
  inversion_clear Hs as [|? ? Hs' Hall]. destruct (d <=? now)%Z eqn:Hnow.
  - apply Z.leb_le in Hnow. set (due := match ts !! id0 with Some _ => _ | None => _ end).
    set (ts1 := if due then delete id0 ts else ts).
    assert (∀ id, ts1 !! id ≫= prune_one now = ts !! id ≫= prune_one now) as Hts1.
    { intros id. unfold ts1, due. destruct (ts !! id0) as [t|] eqn:Ht; [|done].
      case_bool_decide as Hd; [|done]. destruct (decide (id0 = id)) as [<-|Hne].
      - rewrite lookup_delete_eq, Ht. simpl. unfold prune_one, overdue. rewrite Hd. simpl.
        by rewrite (proj2 (Z.leb_le d now) Hnow).
      - by rewrite lookup_delete_ne. }
    intros Hrun. destruct (IH ts1 Hs') with (2 := Hrun) as (H1 & H2 & H3 & H4 & H5).
    { intros id t d' Ht Hd'. unfold ts1, due in Ht.
      assert (ts !! id = Some t) as Ht0.
      { destruct (ts !! id0); [|done]. case_bool_decide; [|done].
        by apply lookup_delete_Some in Ht as [_ ?]. }
      pose proof (Hq _ _ _ Ht0 Hd') as Hin.
      apply elem_of_cons in Hin as [[= -> ->]|Hin]; [|done].
      rewrite Ht0, bool_decide_true, lookup_delete_eq in Ht by done. done. }
    split_and!; [|done|done|set_solver|done]. intros id. by rewrite H1, Hts1.
  - apply Z.leb_gt in Hnow. intros [= <- <-].
    assert (Forall (λ d : Deadline, (now < d.1)%Z) ((d, id0) :: rest)) as Hfut.
    { constructor; [done|]. eapply Forall_impl; [exact Hall|].
      intros [d' id'] [Hlt|[Heq _]]; simpl in *; lia. }
    split_and!; [|by constructor|done..]. intros id.
    destruct (ts !! id) as [t|] eqn:Ht; simpl; [|done]. unfold prune_one, overdue.
    destruct (terminal_deadline_unix_ms t) as [d'|] eqn:Hd; simpl; [|done].
    pose proof (Hq _ _ _ Ht Hd) as Hin. rewrite Forall_forall in Hfut.
    apply Hfut in Hin. simpl in Hin. by rewrite (proj2 (Z.leb_gt d' now) Hin).
Qed.

(** The queue [prune_terminal_tasks] leaves is the one of the tasks it leaves. *)
Lemma HeapOK_pruned now ts ts' queue queue' :
  HeapOK (shapes ts) queue → (∀ id, ts' !! id = ts !! id ≫= prune_one now) →
  StronglySorted deadline_le queue' → queued_for_deletion ts' queue' → queue' ⊆ queue →
  Forall (λ d : Deadline, (now < d.1)%Z) queue' → HeapOK (shapes ts') queue'.
Proof.
  intros [_ Hq] Hts Hs Hfwd Hsub Hfut. split; [done|]. intros id d. split.
  - intros Hin. pose proof (proj1 (Hq id d) (Hsub _ Hin)) as (s & Hid & Hd).
    exists s. split; [|done]. apply lookup_shapes in Hid as (t & Hid & ->).
    apply lookup_shapes. exists t. split; [|done]. rewrite Hts, Hid. simpl.
    unfold prune_one, overdue. simpl in Hd. rewrite Hd. simpl.
    rewrite Forall_forall in Hfut. apply Hfut in Hin. simpl in Hin.
    by rewrite (proj2 (Z.leb_gt d now) Hin).
  - intros (s & (t & Hid & ->)%lookup_shapes & Hd). by eapply Hfwd.
Qed.

Lemma prune_terminal_tasks_run now st :
  Core st →
  ∃ ts queue, prune_terminal_tasks now st
    = st <| terminal_deadlines := queue |> <| tasks := ts |> ∧
    (∀ id, ts !! id = tasks st !! id ≫= prune_one now) ∧
    HeapOK (shapes ts) queue ∧ Forall (λ d : Deadline, (now < d.1)%Z) queue.
Proof.
  intros HC. unfold prune_terminal_tasks.
  destruct (prune_terminal_queue now (terminal_deadlines st) (tasks st)) as [queue ts] eqn:Hrun.
  pose proof (core_heap _ HC) as [Hs Hq].
  destruct (prune_terminal_queue_run now (terminal_deadlines st) (tasks st) queue ts Hs)
    as (H1 & H2 & H3 & H4 & H5); [|done|].
  { intros id t d Hid Hd. apply Hq. exists (shape t). split; [by apply lookup_shapes_Some|done]. }
  exists ts, queue. split_and!; [done..| |done]. by eapply HeapOK_pruned; [apply core_heap|..].
Qed.

Lemma pruned_drops now ts ts' :
  (∀ id, ts' !! id = ts !! id ≫= prune_one now) → drops_terminal (shapes ts) (shapes ts').
Proof.
  intros Hts id. unfold shapes. rewrite !lookup_fmap, Hts.
  destruct (ts !! id) as [t|]; simpl; [|by left]. unfold prune_one, overdue.
  destruct (terminal_deadline_unix_ms t) as [d|] eqn:Hd; simpl; [|by left].
  destruct (d <=? now)%Z; simpl; [|by left]. right. split; [done|].
  exists (shape t). split; [done|]. unfold sh_live; simpl. congruence.
Qed.

Lemma pruned_lookup now ts ts' id t :
  (∀ id, ts' !! id = ts !! id ≫= prune_one now) → ts' !! id = Some t → ts !! id = Some t.
Proof.
  intros Hts. rewrite Hts. destruct (ts !! id) as [t'|]; simpl; [|done].
  unfold prune_one. by destruct (overdue now t').
Qed.

Lemma Core_pruned now st ts queue :
  Core st → (∀ id, ts !! id = tasks st !! id ≫= prune_one now) → HeapOK (shapes ts) queue →
  Core (st <| terminal_deadlines := queue |> <| tasks := ts |>).
Proof.
  intros HC Hts Hheap. pose proof (pruned_drops _ _ _ Hts) as Hd.
  split; simpl; try done; try (by apply HC); try (by eapply IdxOK_drop; [|apply HC]).
  - intros id t Ht. apply HC. by eapply pruned_lookup.
  - intros d id. rewrite (core_deliveries _ HC d id). split.
    + intros (t & l & Ht & Hl & Hdl). exists t, l. split; [|done]. rewrite Hts, Ht. simpl.
      pose proof (wf_phase _ _ (core_tasks _ HC _ _ Ht)) as Hp. unfold prune_one, overdue.
      destruct (terminal_deadline_unix_ms t); [|done]. destruct Hp. congruence.
    + intros (t & l & Ht & ?). exists t, l. split; [|done]. by eapply pruned_lookup.
  - intros id t l Ht. apply (core_owners _ HC id). by eapply pruned_lookup.
  - by eapply InboxOK_drop; [|apply HC].
  - by eapply SeqOK_drop; [|apply HC].
  - by eapply DueOK_drop; [|apply HC].
  - etrans; [|apply (core_size _ HC)]. apply map_subseteq_size, map_subseteq_spec.
    intros id t. by apply pruned_lookup with (now := now).
Qed.

Lemma Inv_pruned clk now st :
  Inv clk st → Inv clk (prune_terminal_tasks now st).
Proof.
  intros [HC HK]. destruct (prune_terminal_tasks_run now st HC) as (ts & q & -> & Hts & Hh & _).
  split; [by eapply Core_pruned|]. simpl.
  eapply CompleteOK_drop; [|done]. by eapply pruned_drops.
Qed.
End prune.

(** ** Fields outside the invariant *)

Section irrelevant.
Context `{JsonNumber}.
Implicit Types (st : State).

Lemma Inv_flag clk st b : Inv clk st → Inv clk (st <| reconciliation_required := b |>).
Proof. intros [[] ?]. by split; [split|]. Qed.

Lemma Inv_event clk st kind name now : Inv clk st → Inv clk (record_status_event kind name now st).
Proof. intros [[] ?]. by split; [split|]. Qed.

Lemma prune_delivery_queue_run now queue :
  StronglySorted deadline_le queue →
  StronglySorted deadline_le (prune_delivery_queue now queue) ∧
  ∀ e, e ∈ queue → (now < e.1)%Z → e ∈ prune_delivery_queue now queue.
Proof.
  induction 1 as [|[d id] queue Hs IH Hall]; simpl; [by split; [constructor|]|].
  destruct (d <=? now)%Z eqn:Hd; [|by split; [constructor|]].
  destruct IH as [Hs' Hin]. split; [done|]. intros e [->|He]%elem_of_cons Hlt; [|by apply Hin].
  apply Z.leb_le in Hd. simpl in Hlt. lia.
Qed.

(** Deadlines that are over can go once no live task is past its delivery time. *)
Lemma Inv_delivery_queue clk now st :
  (∀ id t, tasks st !! id = Some t → live t → (now < sh_due (shape t))%Z) →
  Inv clk st → Inv clk (prune_delivery_deadlines now st).
Proof.
  intros Hnow [HC HK]. split; [|done]. split; simpl; try apply HC.
  destruct (core_due _ HC) as [Hs Hq].
  destruct (prune_delivery_queue_run now _ Hs) as [Hs' Hin]. split; [done|].
  intros id s Hid Hl. apply Hin; [by apply Hq|]. apply lookup_shapes in Hid as (t & Hid & ->).
  by eapply Hnow.
Qed.

Lemma Inv_later clk clk' st : (clk ≤ clk')%Z → Inv clk st → Inv clk' st.
Proof. intros Hle [HC HK]. split; [done|]. by eapply CompleteOK_mono. Qed.
End irrelevant.

(** ** Transitions of one task *)

Section one_task.
Context `{JsonNumber}.
Implicit Types (st : State) (t : TaskRecord) (d : QueuedDelivery).

(** An update of a live task that keeps its shape. *)
Lemma Core_task_update st id t t' m :
  Core st → tasks st !! id = Some t → task_wf id t' → shape t' = shape t →
  DelivOK (<[id := t']> (tasks st)) m →
  (∀ l, acknowledged t' = false → lease t' = Some l →
     ∃ rid r, registrations st !! rid = Some r ∧ reg_name r = recipient t' ∧
       lease_owner l = Some (reg_credentials r)) →
  Core (st <| tasks ::= insert id t' |> <| tasks_by_delivery := m |>).
Proof.
  intros HC Hid Hwf Hsh HD HO.
  split; simpl; rewrite ?(shapes_update _ _ _ _ Hid Hsh); try done; try apply HC.
  - apply map_Forall_insert_2; [done|apply HC].
  - apply OwnerOK_update; [done|apply HC].
  - rewrite map_size_insert_Some by by eexists. apply HC.
Qed.

Lemma Inv_task_update clk st id t t' m :
  Inv clk st → tasks st !! id = Some t → task_wf id t' → shape t' = shape t →
  DelivOK (<[id := t']> (tasks st)) m →
  (∀ l, acknowledged t' = false → lease t' = Some l →
     ∃ rid r, registrations st !! rid = Some r ∧ reg_name r = recipient t' ∧
       lease_owner l = Some (reg_credentials r)) →
  Inv clk (st <| tasks ::= insert id t' |> <| tasks_by_delivery := m |>).
Proof.
  intros [HC HK] Hid Hwf Hsh HD HO. split; [by eapply Core_task_update|].
  simpl. by rewrite (shapes_update _ _ _ _ Hid Hsh).
Qed.

Definition leased_record (version : Z) (l : DeliveryLease) t : TaskRecord :=
  t <| state_version := version |>
    <| last_delivery_attempt := Some (lease_attempt l) |>
    <| lease := Some l |>.

(** What [poll_delivery] writes. *)
Definition leased (id : string) (version : Z) (l : DeliveryLease) t st : State :=
  st <| tasks ::= insert id (leased_record version l t) |>
     <| tasks_by_delivery ::= λ m,
          <[lease_delivery_id l := id]>
            (forget_in (lease_delivery_id <$> lease t) id m) |>.

Lemma leased_record_wf id version l t :
  task_wf id t → live t → acknowledged t = false → task_wf id (leased_record version l t).
Proof.
  intros [? ? ? ? Hp] Hlive Ha. split; simpl; [done..|]. rewrite Hlive in *.
  destruct Hp. split; simpl; try done. by intros l' [= <-].
Qed.

Lemma Inv_leased clk id version l t rid r st :
  Inv clk st → tasks st !! id = Some t → live t → acknowledged t = false →
  tasks_by_delivery st !! lease_delivery_id l = None →
  registrations st !! rid = Some r → reg_name r = recipient t →
  lease_owner l = Some (reg_credentials r) →
  Inv clk (leased id version l t st).
Proof.
  intros HI Hid Hlive Ha Hfresh Hr Hn Ho. pose proof (inv_core _ _ HI) as HC.
  apply (Inv_task_update clk st id t); try done.
  - apply leased_record_wf; [by apply HC|done..].
  - by apply DelivOK_lease; [..|apply HC].
  - intros l' _ [= <-]. eauto.
Qed.

Lemma Inv_waiters clk id l t st :
  Inv clk st → tasks st !! id = Some t → live t →
  Inv clk (st <| tasks ::= insert id (t <| reply_waiters := l |>) |>).
Proof.
  intros HI Hid Hlive. pose proof (inv_core _ _ HI) as HC.
  replace (st <| tasks ::= insert id (t <| reply_waiters := l |>) |>)
    with (st <| tasks ::= insert id (t <| reply_waiters := l |>) |>
             <| tasks_by_delivery := tasks_by_delivery st |>) by by destruct st.
  apply (Inv_task_update clk st id t); try done.
  - apply task_wf_waiters; [done|by apply HC].
  - eapply DelivOK_update; [done..|apply HC].
  - intros l' Ha Hl. by apply (core_owners _ HC id t).
Qed.

Definition acknowledged_record (version now : Z) t : TaskRecord :=
  t <| state_version := version |>
    <| acknowledged := true |>
    <| acknowledged_unix_ms := Some now |>.

(** What [ack_delivery] writes. *)
Definition acked (id : string) (version now : Z) (rid : RegistrationId) t st : State :=
  st <| tasks ::= insert id (acknowledged_record version now t) |>
     <| registrations ::= alter (retain_inbox id) rid |>.

Lemma acknowledged_record_wf id version now t :
  task_wf id t → live t → is_Some (lease t) → task_wf id (acknowledged_record version now t).
Proof.
  intros [? ? ? ? Hp] Hlive Hl. split; simpl; [done..|]. rewrite Hlive in *.
  destruct Hp. split; simpl; try done.
Qed.

Lemma Inv_acked clk id version now rid t st :
  Inv clk st → tasks st !! id = Some t → live t → is_Some (lease t) →
  registrations_by_agent st !! recipient t = Some rid →
  Inv clk (acked id version now rid t st).
Proof.
  intros [HC HK] Hid Hlive Hl Hrid. pose proof (lookup_shapes_Some _ _ _ Hid) as Hsh.
  set (s' := MkShape (sender t) (recipient t) (enqueue_sequence t) true
               (terminal_deadline_unix_ms t) (sh_due (shape t))).
  assert (shapes (tasks (acked id version now rid t st)) = <[id := s']> (shapes (tasks st)))
    as Hσ by (etrans; [apply shapes_insert|done]).
  assert (forgets id (registrations st) (alter (retain_inbox id) rid (registrations st))) as Hf.
  { by eapply forgets_alter; [apply HC|apply HC|..]. }
  split.
  - split; rewrite ?Hσ; simpl; try (by apply HC);
      try (eapply IdxOK_update; [done|done|done|apply HC]).
    + apply map_Forall_insert_2; [|apply HC]. by apply acknowledged_record_wf; [apply HC|..].
    + apply (RegsOK_retain (Some rid)), HC.
    + eapply DelivOK_update; [done..|apply HC].
    + apply OwnerOK_update; [done|]. apply (OwnerOK_retain (Some rid)), HC.
    + by eapply InboxOK_forget; [done..|apply HC].
    + by eapply SeqOK_update; [done..|apply HC].
    + apply HeapOK_insert_live; [by eapply not_terminal_Some|done|apply HC].
    + by eapply DueOK_update; [done..|apply HC].
    + rewrite map_size_insert_Some by by eexists. apply HC.
  - rewrite Hσ. eapply CompleteOK_forget; [|done..]. by intros [_ ?].
Qed.
End one_task.

(** ** A new task *)

Section new_task.
Context `{JsonNumber} {P : Type}.
Implicit Types (st : State) (d : QueuedDelivery).

(** What [enqueue] writes. *)
Definition enqueued (deadline : Z) (name : AgentName) d (now : Z) (rid : RegistrationId)
    (r : RegistrationState) st : State :=
  let sequence := (next_task_sequence st + 1)%Z in
  record_status_event "task_queued" name now
    (insert_new_task sequence deadline name d
       (st <| next_task_sequence := sequence |>
           <| registrations ::= insert rid (push_inbox (qd_task_id d) r) |>)).

Lemma new_task_record_wf sequence d :
  is_Some (checked_add_i64 (qd_created_unix_ms d) DELIVERY_TTL_MS) →
  task_wf (qd_task_id d) (new_task_record sequence (qd_sender d) d).
Proof. intros Hd. split; try done. split; simpl; try done. Qed.

(** Pushing to an inbox keeps names, credentials and expiry. *)
Lemma push_inbox_lookup (regs : Registrations) rid r id rid' r' :
  regs !! rid = Some r → <[rid := push_inbox id r]> regs !! rid' = Some r' →
  ∃ r0, regs !! rid' = Some r0 ∧ rs_registration r' = rs_registration r0.
Proof. intros Hr [[<- <-]|[_ Hr']]%lookup_insert_Some; eauto. Qed.

Lemma Inv_enqueued clk deadline d now rid r st :
  Inv clk st → tasks st !! qd_task_id d = None →
  (size (tasks st) < MAX_RETAINED_TASKS)%nat →
  registrations st !! rid = Some r → reg_name r = qd_recipient d →
  checked_add_i64 (qd_created_unix_ms d) DELIVERY_TTL_MS = Some deadline →
  Inv clk (enqueued deadline (qd_sender d) d now rid r st).
Proof.
  intros [HC HK] Hid Hsize Hr Hn Hd. apply Inv_event.
  set (id := qd_task_id d) in *. set (seq := (next_task_sequence st + 1)%Z).
  pose proof (lookup_shapes_None _ _ Hid) as Hsh.
  set (s := MkShape (qd_sender d) (qd_recipient d) seq false None
              (qd_created_unix_ms d + DELIVERY_TTL_MS)).
  set (st' := insert_new_task _ _ _ _ _).
  assert (shapes (tasks st') = <[id := s]> (shapes (tasks st))) as Hσ by apply shapes_insert.
  pose proof (core_regs _ HC) as HR.
  split.
  - split; rewrite ?Hσ; simpl; try (by apply HC).
    + apply map_Forall_insert_2; [by apply new_task_record_wf; rewrite Hd|apply HC].
    + apply (RegsOK_update (registrations st)) with (next := next_registration_epoch st); try done.
      * intros rid'. rewrite lookup_insert. case_decide; [|done]. subst.
        split; intros _; by eexists.
      * intros rid' r' Hr'. destruct (push_inbox_lookup _ _ _ _ _ _ Hr Hr') as (r0 & H0 & Heq).
        exists r0. unfold reg_name. by rewrite Heq.
    + by apply (IdxOK_insert _ _ _ _ s [qd_recipient d; qd_sender d]); [..|solve_owns|apply HC].
    + by apply (IdxOK_insert _ _ _ _ s [qd_sender d]); [..|solve_owns|apply HC].
    + by apply (IdxOK_insert _ _ _ _ s [qd_sender d]); [..|solve_owns|apply HC].
    + by apply (IdxOK_insert _ _ _ _ s [qd_recipient d]); [..|solve_owns|apply HC].
    + apply DelivOK_new; [done..|apply HC].
    + apply OwnerOK_update; [done|]. eapply OwnerOK_regs; [|apply HC]. intros rid' r' Hr'.
      rewrite lookup_insert. case_decide; [|eauto]. subst. simplify_eq. by eexists.
    + apply InboxOK_push; try done; [|apply HC]. intros id' s' Hs'.
      apply (proj1 (core_seq _ HC)) in Hs'. unfold s, seq; simpl. lia.
    + by apply SeqOK_insert; [..|apply HC].
    + apply HeapOK_insert_live; [by apply not_terminal_None|done|apply HC].
    + rewrite (checked_add_value _ _ _ Hd). apply (DueOK_push _ _ id s), HC.
    + rewrite map_size_insert_None by done. unfold MAX_RETAINED_TASKS in *. lia.
  - rewrite Hσ. by eapply CompleteOK_push.
Qed.
End new_task.

(** ** Inboxes built by sorting *)

Section sorted_inbox.
(** Entries sorted by sequence number and identifier are in the order of the
    sequence numbers. *)
Lemma sorted_by_sequence (σ : gmap string Shape) next (l : list Deadline) :
  SeqOK σ next → StronglySorted deadline_le l → NoDup l.*2 →
  (∀ e, e ∈ l → ∃ s, σ !! e.2 = Some s ∧ sh_sequence s = e.1) →
  StronglySorted (seq_lt σ) l.*2.
Proof.
  intros HS Hs. induction Hs as [|e l Hs IH Hall]; intros Hnd Hl; [constructor|].
  rewrite fmap_cons in *. apply NoDup_cons in Hnd as [He Hnd]. constructor.
  - apply IH; [done|]. intros e' He'. apply Hl. set_solver.
  - apply Forall_forall. intros id (e' & -> & He')%list_elem_of_fmap.
    pose proof (proj1 (Forall_forall _ _) Hall e' He') as Hle.
    destruct (Hl e) as (s & Hs1 & Hq1); [set_solver|].
    destruct (Hl e') as (s' & Hs2 & Hq2); [set_solver|].
    exists s, s'. split_and!; [done..|]. rewrite Hq1, Hq2.
    destruct Hle as [?|[Heq _]]; [done|]. destruct He.
    assert (e.2 = e'.2) as -> by (eapply (proj2 HS); [done..|congruence]).
    by apply list_elem_of_fmap_2.
Qed.
End sorted_inbox.

(** ** Registrations *)

Section one_registration.
Context `{JsonNumber}.
Implicit Types (st : State) (r : RegistrationState).

(** What [register] writes once the previous registration is detached. *)
Definition registered (rid : RegistrationId) r (now : Z) st : State :=
  record_status_event "registered" (reg_name r) now
    (st <| registrations_by_agent ::= insert (reg_name r) rid |>
        <| registrations ::= insert rid r |>).

(** [inbox] holds the tasks that wait for [name], oldest first. *)
Definition is_inbox (name : AgentName) (inbox : list string) st : Prop :=
  (∀ id, id ∈ inbox ↔ ∃ s, shapes (tasks st) !! id = Some s ∧ sh_waiting s ∧
                             sh_recipient s = name) ∧
  StronglySorted (seq_lt (shapes (tasks st))) inbox.

Lemma Inv_registered clk rid r now st :
  Inv clk st → registrations st !! rid = None →
  registrations_by_agent st !! reg_name r = None →
  reg_id (rs_registration r) = rid →
  (∀ rid' r', registrations st !! rid' = Some r' →
     (epoch_get (reg_epoch (rs_registration r')) < epoch_get (reg_epoch (rs_registration r)))%Z) →
  (epoch_get (reg_epoch (rs_registration r)) ≤ next_registration_epoch st)%Z →
  is_inbox (reg_name r) (rs_inbox r) st →
  Inv clk (registered rid r now st).
Proof.
  intros [HC HK] Hrid Hname Hkey Hlt Hep [Hmem Hs]. apply Inv_event. split.
  - split; simpl; try apply HC.
    + by apply RegsOK_insert; [apply HC|..].
    + eapply OwnerOK_regs; [|apply HC]. intros rid' r' Hr'. exists r'.
      rewrite lookup_insert_ne by congruence. done.
    + intros rid' r' [[<- <-]|[_ Hr']]%lookup_insert_Some; [|by apply (core_inbox _ HC rid')].
      split; [|done]. intros id Hid. by apply Hmem.
  - simpl. intros rid' r' id s [[<- <-]|[_ Hr']]%lookup_insert_Some.
    + intros _ Hs' Hw Hn. apply Hmem. eauto.
    + by apply (HK rid').
Qed.

(** A later epoch. *)
Lemma Inv_epoch clk st epoch :
  (next_registration_epoch st ≤ epoch)%Z → Inv clk st →
  Inv clk (st <| next_registration_epoch := epoch |>).
Proof.
  intros Hle [HC HK]. split; [|done]. split; simpl; try apply HC.
  apply (RegsOK_update (registrations st)) with (next := next_registration_epoch st);
    [done|done| |apply HC]. eauto.
Qed.

(** What [renew] writes. *)
Definition renewed (rid : RegistrationId) (expiry : Z) r st : State :=
  st <| registrations ::= insert rid
          (r <| rs_registration ::= λ reg, reg <| reg_expires_unix_ms := expiry |> |>) |>.

Lemma Inv_renewed clk rid expiry r st :
  Inv clk st → registrations st !! rid = Some r → (clk < reg_expiry r)%Z →
  Inv clk (renewed rid expiry r st).
Proof.
  intros [HC HK] Hr Hclk. split.
  - split; simpl; try apply HC.
    + apply (RegsOK_update (registrations st)) with (next := next_registration_epoch st);
        [done| | |apply HC].
      * intros rid'. rewrite lookup_insert. case_decide; [|done]. subst.
        split; intros _; by eexists.
      * intros rid' r' [[<- <-]|[_ Hr']]%lookup_insert_Some; eauto.
    + eapply OwnerOK_regs; [|apply HC]. intros rid' r' Hr'.
      rewrite lookup_insert. case_decide; [|eauto]. subst. simplify_eq. by eexists.
    + eapply InboxOK_subset; [|apply HC].
      intros rid' r' [[<- <-]|[_ Hr']]%lookup_insert_Some; eauto.
  - simpl. intros rid' r' id s [[<- <-]|[_ Hr']]%lookup_insert_Some; [|by apply (HK rid')].
    intros _ Hs Hw Hn. by apply (HK rid r id s).
Qed.
End one_registration.
