(* ===== verification/BrokerImage.v ===== *)
(** * The durable image of the state

    [image id t] is the row the store holds for a task; [durable_rows] is the
    image of all tasks.  Each row an operation commits before it writes the state
    is the image of the record it writes afterwards, and a valid row is the image
    of the record it is restored to. *)
From stdpp Require Import prelude gmap strings sorting.
From S2P Require Import Prelude RustStd Model Validation Durability BrokerState BrokerDurable.
From S2P Require Import BrokerMaintain BrokerOps BrokerInv BrokerPrim BrokerTrans.

Section image.
Context `{JsonNumber}.

(** Two rows with the same columns are equal. *)
Lemma DurableTask_ext (a b : DurableTask) :
  dt_task_id a = dt_task_id b → dt_context_id a = dt_context_id b →
  dt_sender a = dt_sender b → dt_recipient a = dt_recipient b →
  dt_payload a = dt_payload b → dt_created_unix_ms a = dt_created_unix_ms b →
  dt_delivery_deadline_unix_ms a = dt_delivery_deadline_unix_ms b →
  dt_state_version a = dt_state_version b → dt_state a = dt_state b →
  dt_lease a = dt_lease b → dt_attempt a = dt_attempt b →
  dt_acknowledged_unix_ms a = dt_acknowledged_unix_ms b → dt_reply a = dt_reply b →
  dt_terminal_unix_ms a = dt_terminal_unix_ms b →
  dt_retention_deadline_unix_ms a = dt_retention_deadline_unix_ms b → a = b.
Proof. destruct a, b; simpl; intros; by subst. Qed.

Implicit Types (t : TaskRecord) (id : string).

Definition image id t : DurableTask := {|
  dt_task_id := id;
  dt_context_id := qd_context_id (original_delivery t);
  dt_sender := sender t;
  dt_recipient := recipient t;
  dt_payload := qd_payload (original_delivery t);
  dt_created_unix_ms := qd_created_unix_ms (original_delivery t);
  dt_delivery_deadline_unix_ms := qd_created_unix_ms (original_delivery t) + DELIVERY_TTL_MS;
  dt_state_version := state_version t;
  dt_state := durable_state t;
  dt_lease := durable_lease t <$> lease t;
  dt_attempt := default (qd_attempt (original_delivery t)) (last_delivery_attempt t);
  dt_acknowledged_unix_ms := acknowledged_unix_ms t;
  dt_reply := reply t;
  dt_terminal_unix_ms := terminal_unix_ms t;
  dt_retention_deadline_unix_ms := terminal_deadline_unix_ms t;
|}.

Definition durable_rows (ts : gmap string TaskRecord) : gmap string DurableTask :=
  map_imap (λ id t, Some (image id t)) ts.

Lemma lookup_durable_rows ts id : durable_rows ts !! id = image id <$> ts !! id.
Proof. unfold durable_rows. rewrite map_lookup_imap. by destruct (ts !! id). Qed.

Lemma durable_rows_insert ts id t :
  durable_rows (<[id := t]> ts) = <[id := image id t]> (durable_rows ts).
Proof.
  apply map_eq. intros id'. rewrite lookup_insert, !lookup_durable_rows, lookup_insert.
  by case_decide; subst.
Qed.

Lemma durable_rows_update ts id t t' :
  ts !! id = Some t → image id t' = image id t →
  durable_rows (<[id := t']> ts) = durable_rows ts.
Proof.
  intros Hid Heq. rewrite durable_rows_insert, Heq. apply insert_id.
  by rewrite lookup_durable_rows, Hid.
Qed.

Lemma durable_rows_keyed ts : keyed (durable_rows ts).
Proof.
  intros id row. rewrite lookup_durable_rows. by intros (t & _ & ->)%fmap_Some.
Qed.

Lemma durable_task_image id t :
  task_wf id t → durable_task id t = Done (image id t).
Proof.
  intros Hwf. destruct (wf_deadline _ _ Hwf) as [deadline Hd]. unfold durable_task.
  rewrite Hd. apply checked_Some in Hd as [-> _]. done.
Qed.

Lemma durable_task_done id t row : durable_task id t = Done row → row = image id t.
Proof.
  unfold durable_task. destruct (checked_add_i64 _ _) as [deadline|] eqn:Hd; [|done].
  apply checked_Some in Hd as [-> _]. by intros [= <-].
Qed.

Lemma next_version_done t v :
  next_state_version t = Done v → checked_add_u64 (state_version t) 1 = Some v.
Proof. unfold next_state_version. by destruct (checked_add_u64 _ _); intros [= ->]. Qed.

Lemma checked_version t v :
  checked_add_u64 (state_version t) 1 = Some v → v = (state_version t + 1)%Z.
Proof. by intros [-> _]%checked_Some. Qed.

(** The phase of a live task is in four fields. *)
Lemma live_durable_state t :
  live_wf t →
  durable_state t = if acknowledged t then Acknowledged
                    else if is_some (lease t) then Leased else Queued.
Proof. intros Hl. pose proof (live_fields _ Hl) as [= Hr Hf Hrj Hc He].
  unfold durable_state. by rewrite Hr, Hf, Hrj, Hc, He. Qed.

Lemma live_unacknowledged t :
  live_wf t → acknowledged t = false → acknowledged_unix_ms t = None.
Proof.
  intros Hl Ha. destruct (acknowledged_unix_ms t) as [ms|] eqn:Hms; [|done].
  assert (acknowledged t = true); [|congruence]. apply live_acknowledged; [done|]. by exists ms.
Qed.

Definition outcome_state (o : TerminalState) : DurableTaskState :=
  match o with
  | TerminalReplied _ => Replied
  | TerminalFailed _ => Failed
  | TerminalRejected _ => Rejected
  | TerminalCanceled => Canceled
  | TerminalExpired => Expired
  end.

Lemma outcome_durable_state o t : task_fields t = outcome_fields o → durable_state t = outcome_state o.
Proof.
  unfold task_fields, durable_state. destruct o; simpl; intros [= Hr Hf Hrj Hc He];
    by rewrite ?Hr, ?Hf, ?Hrj, ?Hc, ?He.
Qed.

Definition requeued_record t : TaskRecord :=
  t <| state_version ::= λ v, (v + 1)%Z |> <| lease := None |>.

Lemma durable_requeued_done id t row :
  task_wf id t → live t → acknowledged t = false →
  durable_requeued_task id t = Done row →
  checked_add_u64 (state_version t) 1 = Some (state_version t + 1)%Z ∧
  row = image id (requeued_record t).
Proof.
  intros Hwf Hlive Ha. unfold durable_requeued_task. rewrite durable_task_image by done. simpl.
  destruct (next_state_version t) as [v|e|m] eqn:Hv; [|done..]. simpl. intros [= <-].
  apply next_version_done in Hv. pose proof (checked_version _ _ Hv) as ->. split; [done|].
  pose proof (wf_phase _ _ Hwf) as Hp. rewrite Hlive in Hp.
  pose proof (live_fields _ Hp) as [= Hr Hf Hrj Hc He].
  pose proof (live_unacknowledged _ Hp Ha) as Hms.
  apply DurableTask_ext; try reflexivity; [|by symmetry].
  change (Queued = durable_state (requeued_record t)). unfold durable_state. simpl.
  by rewrite Hr, Hf, Hrj, Hc, He, Ha.
Qed.

Lemma durable_leased_done id t l row :
  task_wf id t → live t → acknowledged t = false →
  durable_leased_task id t l = Done row →
  ∃ v, checked_add_u64 (state_version t) 1 = Some v ∧ row = image id (leased_record v l t).
Proof.
  intros Hwf Hlive Ha. unfold durable_leased_task. rewrite durable_task_image by done. simpl.
  destruct (next_state_version t) as [v|e|m] eqn:Hv; [|done..]. simpl. intros [= <-].
  apply next_version_done in Hv. exists v. split; [done|].
  pose proof (wf_phase _ _ Hwf) as Hp. rewrite Hlive in Hp.
  pose proof (live_fields _ Hp) as [= Hr Hf Hrj Hc He].
  pose proof (live_unacknowledged _ Hp Ha) as Hms.
  apply DurableTask_ext; try reflexivity; [|by symmetry].
  change (Leased = durable_state (leased_record v l t)). unfold durable_state. simpl.
  by rewrite Hr, Hf, Hrj, Hc, He, Ha.
Qed.

Lemma durable_acknowledged_done id t now row :
  task_wf id t → live t → durable_acknowledged_task id t now = Done row →
  ∃ v, checked_add_u64 (state_version t) 1 = Some v ∧
    row = image id (acknowledged_record v now t).
Proof.
  intros Hwf Hlive. unfold durable_acknowledged_task. rewrite durable_task_image by done. simpl.
  destruct (next_state_version t) as [v|e|m] eqn:Hv; [|done..]. simpl. intros [= <-].
  apply next_version_done in Hv. exists v. split; [done|].
  pose proof (wf_phase _ _ Hwf) as Hp. rewrite Hlive in Hp.
  pose proof (live_fields _ Hp) as [= Hr Hf Hrj Hc He].
  apply DurableTask_ext; try reflexivity.
  change (Acknowledged = durable_state (acknowledged_record v now t)).
  unfold durable_state. simpl. by rewrite Hr, Hf, Hrj, Hc, He.
Qed.

Lemma durable_terminal_done id t now o row :
  durable_terminal_task id t now (outcome_state o) (outcome_fields o).1 = Done row →
  ∃ v d, checked_add_u64 (state_version t) 1 = Some v ∧
    checked_add_i64 now TERMINAL_RETENTION_MS = Some d ∧
    row = image id (terminal_record now d v o t).
Proof.
  unfold durable_terminal_task.
  destruct (durable_task id t) as [row0|e|m] eqn:Hrow; [|done..]. simpl.
  apply durable_task_done in Hrow as ->.
  destruct (next_state_version t) as [v|e|m] eqn:Hv; [|done..]. simpl.
  destruct (checked_add_i64 now _) as [d|] eqn:Hd; [|done]. simpl. intros [= <-].
  exists v, d. split; [by apply next_version_done|]. split; [done|].
  apply DurableTask_ext; by destruct o.
Qed.

Lemma new_durable_task_image sequence d deadline :
  checked_add_i64 (qd_created_unix_ms d) DELIVERY_TTL_MS = Some deadline →
  new_durable_task (qd_sender d) d deadline
  = image (qd_task_id d) (new_task_record sequence (qd_sender d) d).
Proof. by intros [-> _]%checked_Some. Qed.
End image.

(** ** The life cycle of a task

    The abstract specification of the broker towards one task: an automaton on
    the row the store holds. *)
Section automaton.
Context `{JsonNumber}.
Implicit Types (row : DurableTask).

(** The message itself never changes. *)
Record same_message row row' : Prop := {
  sm_id : dt_task_id row' = dt_task_id row;
  sm_context : dt_context_id row' = dt_context_id row;
  sm_sender : dt_sender row' = dt_sender row;
  sm_recipient : dt_recipient row' = dt_recipient row;
  sm_payload : dt_payload row' = dt_payload row;
  sm_created : dt_created_unix_ms row' = dt_created_unix_ms row;
  sm_deadline : dt_delivery_deadline_unix_ms row' = dt_delivery_deadline_unix_ms row;
}.

(** One transition: the states it joins and the columns it writes. *)
Inductive transition : DurableTask → DurableTask → Prop :=
| to_leased row row' l :
    dt_state row = Queued ∨ dt_state row = Leased →
    dt_state row' = Leased → dt_lease row' = Some l → dl_owner l = dt_recipient row →
    dl_attempt l = dt_attempt row' →
    dt_acknowledged_unix_ms row' = None → dt_reply row' = None →
    dt_terminal_unix_ms row' = None → transition row row'
| to_queued row row' :
    dt_state row = Leased → dt_state row' = Queued → dt_lease row' = None →
    dt_attempt row' = dt_attempt row →
    dt_acknowledged_unix_ms row' = None → dt_reply row' = None →
    dt_terminal_unix_ms row' = None → transition row row'
| to_acknowledged row row' now :
    dt_state row = Leased → dt_state row' = Acknowledged → dt_lease row' = dt_lease row →
    dt_attempt row' = dt_attempt row →
    dt_acknowledged_unix_ms row' = Some now → dt_reply row' = None →
    dt_terminal_unix_ms row' = None → transition row row'
| to_terminal row row' now o :
    state_is_terminal (dt_state row) = false → dt_state row' = outcome_state o →
    dt_reply row' = (outcome_fields o).1 → dt_lease row' = None →
    dt_acknowledged_unix_ms row' = None → dt_attempt row' = dt_attempt row →
    dt_terminal_unix_ms row' = Some now →
    dt_retention_deadline_unix_ms row' = Some (now + TERMINAL_RETENTION_MS)%Z →
    transition row row'.

Record row_step row row' : Prop := {
  step_message : same_message row row';
  step_version : dt_state_version row' = (dt_state_version row + 1)%Z;
  step_transition : transition row row';
}.

#[global] Instance same_message_preorder : PreOrder same_message.
Proof. split; [by split|]. intros r1 r2 r3 [] []. split; congruence. Qed.

Lemma rtc_same_message row row' : rtc row_step row row' → same_message row row'.
Proof. induction 1 as [|r1 r2 r3 [? _ _] _ IH]; [done|]. by etrans. Qed.

Lemma rtc_version row row' :
  rtc row_step row row' → row' = row ∨ (dt_state_version row < dt_state_version row')%Z.
Proof.
  induction 1 as [|r1 r2 r3 [_ Hv _] _ IH]; [by left|right].
  destruct IH as [->|?]; lia.
Qed.

Lemma rtc_terminal row row' :
  rtc row_step row row' → state_is_terminal (dt_state row) = true → row' = row.
Proof.
  destruct 1 as [|r1 r2 r3 [_ _ Ht] _]; [done|]. intros Hterm.
  destruct Ht as [? ? ? [Hs|Hs]|? ? Hs|? ? ? Hs|? ? ? ? Hs];
    (rewrite Hs in Hterm; done) || congruence.
Qed.

(** A terminal row whose retention is over at [now]. *)
Definition row_overdue (now : Z) row : bool :=
  from_option (λ deadline, (deadline <=? now)%Z) false (dt_retention_deadline_unix_ms row).

(** A row moves along its life cycle at [now]; if it ends there, its retention
    starts there. *)
Definition row_moved (now : Z) row row' : Prop :=
  rtc row_step row row' ∧
  (row' = row ∨ dt_retention_deadline_unix_ms row' = None ∨
   dt_retention_deadline_unix_ms row' = Some (now + TERMINAL_RETENTION_MS)%Z).

#[global] Instance row_moved_preorder now : PreOrder (row_moved now).
Proof.
  split; [intros row; split; [apply rtc_refl|by left]|].
  intros r1 r2 r3 [H12 O12] [H23 O23]. split; [by etrans|].
  destruct O23 as [->|O23]; [done|by right].
Qed.

Lemma row_moved_overdue now row row' :
  row_moved now row row' → row_overdue now row' = true → row' = row.
Proof.
  intros [_ [?|[Hd|Hd]]]; [done|..]; unfold row_overdue; rewrite Hd; simpl; [done|].
  unfold TERMINAL_RETENTION_MS. intros Hle%Z.leb_le. lia.
Qed.

(** What time and the operations do to the rows of the store: every row moves
    along its life cycle, and only one whose retention is over may go. *)
Definition store_evolved (now : Z) (m m' : gmap string DurableTask) : Prop :=
  ∀ id row, m !! id = Some row →
    row_overdue now row = true ∨ ∃ row', m' !! id = Some row' ∧ row_moved now row row'.

#[global] Instance store_evolved_preorder now : PreOrder (store_evolved now).
Proof.
  split; [intros m id row Hrow; right; by exists row|].
  intros m1 m2 m3 H12 H23 id row Hrow. destruct (H12 id row Hrow) as [?|(r2 & H2 & M2)]; [by left|].
  destruct (H23 id r2 H2) as [Ho|(r3 & H3 & M3)].
  - left. pose proof (row_moved_overdue _ _ _ M2 Ho) as <-. done.
  - right. exists r3. split; [done|]. by etrans.
Qed.

(** The outcome of a task survives. *)
Lemma store_evolved_terminal now m m' id row :
  store_evolved now m m' → m !! id = Some row → state_is_terminal (dt_state row) = true →
  row_overdue now row = false → m' !! id = Some row.
Proof.
  intros Hev Hrow Ht Ho. destruct (Hev id row Hrow) as [?|(row' & Hrow' & Hs & _)]; [congruence|].
  by rewrite (rtc_terminal row row') in Hrow'.
Qed.

(** ** The writes of the operations are transitions *)

Implicit Types (t : TaskRecord).

Lemma leased_live id t l : task_wf id t → lease t = Some l → live t.
Proof.
  intros Hwf Hl. pose proof (wf_phase _ _ Hwf) as Hp. unfold live.
  destruct (terminal_deadline_unix_ms t); [|done]. destruct Hp. congruence.
Qed.

Lemma step_terminal id now o t :
  task_wf id t → live t →
  row_step (image id t)
    (image id (terminal_record now (now + TERMINAL_RETENTION_MS) (state_version t + 1) o t)).
Proof.
  intros Hwf Hlive. pose proof (wf_phase _ _ Hwf) as Hp. rewrite Hlive in Hp.
  split; [by destruct o; split|by destruct o|].
  apply (to_terminal _ _ now o); try (by destruct o).
  - simpl. rewrite (live_durable_state t Hp). by destruct (acknowledged t), (is_some (lease t)).
Qed.

Lemma step_requeued id t l :
  task_wf id t → acknowledged t = false → lease t = Some l →
  row_step (image id t) (image id (requeued_record t)).
Proof.
  intros Hwf Ha Hl. pose proof (leased_live _ _ _ Hwf Hl) as Hlive.
  pose proof (wf_phase _ _ Hwf) as Hp. rewrite Hlive in Hp.
  pose proof (live_fields _ Hp) as [= Hr Hf Hrj Hc He].
  pose proof (live_unacknowledged _ Hp Ha) as Hms.
  split; [by split|done|]. apply to_queued; simpl; try done.
  - rewrite (live_durable_state t Hp). by rewrite Ha, Hl.
  - unfold durable_state. simpl. by rewrite Hr, Hf, Hrj, Hc, He, Ha.
  - by apply Hp.
Qed.

Lemma step_leased id t l :
  task_wf id t → live t → acknowledged t = false →
  row_step (image id t) (image id (leased_record (state_version t + 1) l t)).
Proof.
  intros Hwf Hlive Ha. pose proof (wf_phase _ _ Hwf) as Hp. rewrite Hlive in Hp.
  pose proof (live_fields _ Hp) as [= Hr Hf Hrj Hc He].
  pose proof (live_unacknowledged _ Hp Ha) as Hms.
  split; [by split|done|]. apply (to_leased _ _ (durable_lease t l)); simpl; try done.
  - rewrite (live_durable_state t Hp), Ha. destruct (lease t); auto.
  - unfold durable_state. simpl. by rewrite Hr, Hf, Hrj, Hc, He, Ha.
  - by apply Hp.
Qed.

Lemma step_acknowledged id t l now :
  task_wf id t → acknowledged t = false → lease t = Some l →
  row_step (image id t) (image id (acknowledged_record (state_version t + 1) now t)).
Proof.
  intros Hwf Ha Hl. pose proof (leased_live _ _ _ Hwf Hl) as Hlive.
  pose proof (wf_phase _ _ Hwf) as Hp. rewrite Hlive in Hp.
  pose proof (live_fields _ Hp) as [= Hr Hf Hrj Hc He].
  split; [by split|done|]. apply (to_acknowledged _ _ now); simpl; try done.
  - rewrite (live_durable_state t Hp). by rewrite Ha, Hl.
  - unfold durable_state. simpl. by rewrite Hr, Hf, Hrj, Hc, He.
  - by apply Hp.
Qed.
(** A step to a live row. *)
Lemma row_moved_live now row row' :
  rtc row_step row row' → dt_retention_deadline_unix_ms row' = None → row_moved now row row'.
Proof. intros Hs Hd. split; [done|]. by right; left. Qed.

(** A step that ends the task now. *)
Lemma row_moved_terminal now id o t :
  task_wf id t → live t →
  row_moved now (image id t)
    (image id (terminal_record now (now + TERMINAL_RETENTION_MS) (state_version t + 1) o t)).
Proof.
  intros Hwf Hlive. split; [by apply rtc_once, step_terminal|].
  right. right. by destruct o.
Qed.

Lemma row_moved_requeued now id t l :
  task_wf id t → acknowledged t = false → lease t = Some l →
  row_moved now (image id t) (image id (requeued_record t)).
Proof.
  intros Hwf Ha Hl. apply row_moved_live; [by eapply rtc_once, step_requeued|].
  simpl. by eapply leased_live.
Qed.

(** The rows of two sets of tasks. *)
Lemma rows_evolved now (ts ts' : gmap string TaskRecord) :
  (∀ id t, ts !! id = Some t →
     overdue now t = true ∨ ∃ t', ts' !! id = Some t' ∧ row_moved now (image id t) (image id t')) →
  store_evolved now (durable_rows ts) (durable_rows ts').
Proof.
  intros Hts id row. rewrite lookup_durable_rows. intros (t & Ht & ->)%fmap_Some.
  destruct (Hts id t Ht) as [?|(t' & Ht' & Hm)]; [by left|right].
  exists (image id t'). by rewrite lookup_durable_rows, Ht'.
Qed.

Lemma rows_evolved_update now (ts : gmap string TaskRecord) id t t' :
  ts !! id = Some t → row_moved now (image id t) (image id t') →
  store_evolved now (durable_rows ts) (<[id := image id t']> (durable_rows ts)).
Proof.
  intros Ht Hm. rewrite <-durable_rows_insert. apply rows_evolved. intros id' t0 Ht0. right.
  destruct (decide (id = id')) as [<-|Hne].
  - simplify_eq. exists t'. by rewrite lookup_insert_eq.
  - exists t0. by rewrite lookup_insert_ne.
Qed.

Lemma store_evolved_new now (m : gmap string DurableTask) id row :
  m !! id = None → store_evolved now m (<[id := row]> m).
Proof.
  intros Hid id' row' Hrow'. right. exists row'. by rewrite lookup_insert_ne by congruence.
Qed.
End automaton.
