(* ===== verification/BrokerRecover.v ===== *)
(** * Recovery: rows to records and back

    What [validate_and_reconcile_snapshot] accepts and produces, and that the
    restored state satisfies the invariant and has the accepted rows as its
    durable image. *)
From stdpp Require Import prelude gmap strings sorting.
From S2P Require Import Prelude RustStd Model Validation Durability BrokerState BrokerDurable.
From S2P Require Import BrokerMaintain BrokerOps BrokerInv BrokerPrim BrokerTrans BrokerImage.

(** ** Valid rows *)

Section rows.
Context `{JsonNumber} {serde : SerdeJson}.
Implicit Types (row : DurableTask).

Record RowOK row : Prop := {
  row_deadline : checked_add_i64 (dt_created_unix_ms row) DELIVERY_TTL_MS
                 = Some (dt_delivery_deadline_unix_ms row);
  row_lease : lease_columns_valid row = true;
  row_times : terminal_times_valid row = true;
  row_state : valid_state row = true;
}.

Lemma validate_durable_task_ok row : validate_durable_task row = Done tt → RowOK row.
Proof.
  unfold validate_durable_task. intros Hv.
  repeat match type of Hv with
  | out_bind ?m _ = _ => destruct m as [?|?|?] eqn:?; simpl in Hv; [|done..]
  end.
  repeat match goal with
  | Hb : reject_if ?b _ = Done _ |- _ => destruct b eqn:?; simpl in Hb; [done|clear Hb]
  end.
  destruct (checked_add_i64 _ _) as [deadline|] eqn:Hd; simpl in *; simplify_eq.
  repeat match goal with
  | Hb : (_ || _) = false |- _ => apply orb_false_iff in Hb as [? ?]
  | Hb : negb _ = false |- _ => apply negb_false_iff in Hb
  end.
  split; try done. rewrite Hd. f_equal. symmetry. by apply Z.eqb_eq.
Qed.

Lemma validate_metadata_node_no_panic value depth entries :
  no_panic (validate_metadata_node value depth entries).1.
Proof.
  assert (wp (validate_metadata_node value depth) (λ _ _, True) (λ _ _, True) entries) as Hwp.
  { revert depth entries. induction value as [| | | |items IH|map IH] using value_ind';
      intros depth entries; try done; cbn [validate_metadata_node].
    - wp_steps. wp_step; [intros _|done]. wp_steps. wp_step; [intros _|done].
      apply wp_for_each_inv; [done|].
      intros item n Hitem _. rewrite Forall_forall in IH. by apply IH.
    - wp_steps. wp_step; [intros _|done]. wp_steps. wp_step; [intros _|done].
      apply wp_for_each_inv; [done|].
      intros item n Hitem _. rewrite Forall_forall in IH. by apply IH. }
  unfold wp in Hwp. by destruct (validate_metadata_node value depth entries) as [[] ?].
Qed.

Lemma validate_persisted_payload_no_panic payload :
  no_panic (validate_persisted_payload payload).
Proof.
  unfold validate_persisted_payload, validate_persisted_file_reference, validate_metadata.
  destruct (MAX_METADATA_BYTES <? _)%nat; auto 10 using validate_metadata_node_no_panic with herdr.
Qed.

Lemma validate_durable_task_no_panic row : no_panic (validate_durable_task row).
Proof.
  unfold validate_durable_task, validate_task_id, AgentName_parse, or_unavailable.
  repeat first [apply validate_persisted_payload_no_panic | apply no_panic_map_err
               | apply no_panic_bind; [|intros ?]].
  all: repeat case_match; auto using validate_persisted_payload_no_panic with herdr.
Qed.
End rows.

(** ** A row and its record *)

Section restored.
Context `{JsonNumber}.
Implicit Types (row : DurableTask).

(** The columns of a valid row, state by state. *)
Lemma row_live row :
  RowOK row → state_is_terminal (dt_state row) = false →
  dt_reply row = None ∧ dt_terminal_unix_ms row = None ∧
  dt_retention_deadline_unix_ms row = None ∧
  (dt_state row = Acknowledged ↔ is_Some (dt_acknowledged_unix_ms row)) ∧
  (dt_state row = Queued ↔ dt_lease row = None).
Proof.
  intros [_ _ Ht Hs] Hlive. unfold valid_state in Hs. unfold terminal_times_valid in Ht.
  destruct (dt_state row); try done; destruct (dt_lease row); try done;
    destruct (dt_acknowledged_unix_ms row); try done;
    destruct (dt_reply row); try done; destruct (dt_terminal_unix_ms row); try done;
    destruct (dt_retention_deadline_unix_ms row); try done;
    split_and!; try done; split; try done; by intros [? ?].
Qed.

Lemma row_terminal row :
  RowOK row → state_is_terminal (dt_state row) = true →
  dt_lease row = None ∧ dt_acknowledged_unix_ms row = None ∧
  ∃ now d, dt_terminal_unix_ms row = Some now ∧ dt_retention_deadline_unix_ms row = Some d ∧
    checked_add_i64 now TERMINAL_RETENTION_MS = Some d.
Proof.
  intros [_ _ Ht Hs] Hterm. unfold valid_state in Hs. unfold terminal_times_valid in Ht.
  assert (dt_lease row = None ∧ dt_acknowledged_unix_ms row = None ∧
          is_Some (dt_terminal_unix_ms row)) as (Hl & Ha & now & Hnow).
  { destruct (dt_state row); try done; destruct (dt_lease row); try done;
    destruct (dt_acknowledged_unix_ms row); try done;
    destruct (dt_reply row); try done; destruct (dt_terminal_unix_ms row); try done;
    split_and!; eauto. }
  rewrite Hnow in Ht. destruct (dt_retention_deadline_unix_ms row) as [d|]; [|done].
  apply andb_true_iff in Ht as [_ Hd%bool_decide_eq_true]. eauto 10.
Qed.

(** The outcome of a terminal row. *)
Definition row_outcome row : TerminalState :=
  match dt_state row, dt_reply row with
  | Failed, Some r => TerminalFailed r
  | Rejected, Some r => TerminalRejected r
  | Replied, Some r => TerminalReplied r
  | Canceled, _ => TerminalCanceled
  | _, _ => TerminalExpired
  end.

Lemma restored_terminal_fields sequence row :
  RowOK row → state_is_terminal (dt_state row) = true →
  task_fields (restored_record sequence row) = outcome_fields (row_outcome row).
Proof.
  intros [_ _ _ Hs] Hterm. unfold task_fields, row_outcome; simpl. unfold valid_state in Hs.
  destruct (dt_state row); try done; destruct (dt_lease row); try done;
    destruct (dt_acknowledged_unix_ms row); try done; destruct (dt_reply row); done.
Qed.

Lemma restored_live_fields sequence row :
  RowOK row → state_is_terminal (dt_state row) = false →
  task_fields (restored_record sequence row) = (None, (false, false, false, false)).
Proof.
  intros HR Hlive. destruct (row_live row HR Hlive) as (Hr & _).
  unfold task_fields; simpl. rewrite Hr. by destruct (dt_state row).
Qed.

Lemma restored_attempt sequence row :
  default (qd_attempt (original_delivery (restored_record sequence row)))
    (last_delivery_attempt (restored_record sequence row)) = dt_attempt row.
Proof. simpl. by destruct (1 <? dt_state_version row)%Z. Qed.

Lemma restored_live_wf sequence row :
  RowOK row → state_is_terminal (dt_state row) = false →
  live_wf (restored_record sequence row).
Proof.
  intros HR Hlive. destruct (row_live row HR Hlive) as (Hr & Ht & Hd & Hack & Hq).
  pose proof (row_lease _ HR) as Hl. unfold lease_columns_valid in Hl. split.
  - simpl. by rewrite Hlive.
  - by apply restored_live_fields.
  - done.
  - simpl. by rewrite bool_decide_eq_true.
  - simpl. rewrite bool_decide_eq_true. intros Ha.
    destruct (dt_lease row) as [l|] eqn:Hrl; [by eexists|].
    assert (dt_state row = Queued) by (by apply Hq). congruence.
  - intros l. rewrite restored_attempt. simpl. destruct (dt_lease row) as [dl|]; [|done].
    intros [= <-]. simpl. apply andb_true_iff in Hl as [[_ Ha]%andb_true_iff _].
    by apply Z.eqb_eq.
Qed.

Lemma restored_record_wf sequence row :
  RowOK row → task_wf (dt_task_id row) (restored_record sequence row).
Proof.
  intros HR. split; try done.
  { simpl. rewrite (row_deadline _ HR). by eexists. }
  simpl. destruct (state_is_terminal (dt_state row)) eqn:Hterm.
  - destruct (row_terminal row HR Hterm) as (Hl & Ha & now & d & Hnow & Hd & Hret).
    rewrite Hd. split; simpl.
    + by rewrite Hterm.
    + by rewrite Hl.
    + split; [|done]. by destruct (dt_state row).
    + done.
    + exists (row_outcome row). by apply restored_terminal_fields.
    + eauto.
  - destruct (row_live row HR Hterm) as (_ & _ & -> & _). by apply restored_live_wf.
Qed.

(** Restoring a valid row and taking its image gives the row back. *)
Lemma image_restored sequence row :
  RowOK row → image (dt_task_id row) (restored_record sequence row) = row.
Proof.
  intros HR. apply DurableTask_ext; try reflexivity.
  - simpl. pose proof (row_deadline _ HR) as Hd. by apply checked_Some in Hd as [-> _].
  - change (durable_state (restored_record sequence row) = dt_state row).
    destruct (state_is_terminal (dt_state row)) eqn:Hterm.
    + rewrite (outcome_durable_state (row_outcome row)) by by apply restored_terminal_fields.
      pose proof (row_state _ HR) as Hs. unfold valid_state in Hs. unfold row_outcome.
      destruct (dt_state row); try done; destruct (dt_lease row); try done;
        destruct (dt_acknowledged_unix_ms row); try done; by destruct (dt_reply row).
    + rewrite live_durable_state by by apply restored_live_wf. simpl.
      destruct (row_live row HR Hterm) as (_ & _ & _ & _ & Hq).
      pose proof (row_state _ HR) as Hs. unfold valid_state in Hs.
      destruct (dt_state row); try done; by destruct (dt_lease row).
  - simpl. pose proof (row_lease _ HR) as Hl. unfold lease_columns_valid in Hl.
    destruct (dt_lease row) as [[did owner until attempt]|]; [|done]. simpl in *.
    apply andb_true_iff in Hl as [[Ho%bool_decide_eq_true _]%andb_true_iff _].
    unfold durable_lease; simpl. by rewrite Ho.
  - exact (restored_attempt sequence row).
Qed.

Lemma restored_shape sequence row :
  shape (restored_record sequence row)
  = MkShape (dt_sender row) (dt_recipient row) sequence
      (bool_decide (dt_state row = Acknowledged)) (dt_retention_deadline_unix_ms row)
      (dt_created_unix_ms row + DELIVERY_TTL_MS).
Proof. done. Qed.
End restored.

(** ** [validate_and_reconcile_snapshot] *)

Section reconcile.
Context `{JsonNumber} {serde : SerdeJson}.
Implicit Types (row : DurableTask).

#[global] Instance Reconciled_eq_dec : EqDecision Reconciled.
Proof. solve_decision. Defined.

(** What becomes of one row. *)
Inductive Verdict := Pruned (id : string) | Kept (row : DurableTask) (change : Reconciled).

Definition kept (v : Verdict) : option DurableTask :=
  match v with Kept row _ => Some row | Pruned _ => None end.
Definition changed (v : Verdict) : option DurableTask :=
  match v with
  | Kept row (WasExpired | WasRequeued) => Some row
  | _ => None
  end.
Definition pruned (v : Verdict) : option string :=
  match v with Pruned id => Some id | Kept _ _ => None end.

Definition reconciles (now : Z) row (v : Verdict) : Prop :=
  RowOK row ∧
  match v with
  | Pruned id => id = dt_task_id row ∧ row_overdue now row = true
  | Kept row' change =>
      row_overdue now row = false ∧ reconcile_task row now = Done (row', change)
  end.

Definition lease_id row : option DeliveryId := dl_delivery_id <$> dt_lease row.

(** The accumulator after the rows [rows]. *)
Record reconciled (now : Z) (rows : list DurableTask) (vs : list Verdict) (acc : Reconcile)
    : Prop := {
  rc_rows : Forall2 (reconciles now) rows vs;
  rc_ids : NoDup (dt_task_id <$> rows) ∧ rec_task_ids acc = list_to_set (dt_task_id <$> rows);
  rc_leases : NoDup (omap lease_id rows) ∧
              rec_delivery_ids acc = list_to_set (omap lease_id rows);
  rc_restored : rec_restored acc = omap kept vs;
  rc_upserts : rec_upserts acc = omap changed vs;
  rc_deletes : rec_deletes acc = omap pruned vs;
}.

Lemma reconcile_task_no_panic row now : no_panic (reconcile_task row now).
Proof. unfold reconcile_task, or_unavailable. repeat case_match; auto 10 with herdr. Qed.

Lemma NoDup_snoc {A} (l : list A) x : NoDup l → x ∉ l → NoDup (l ++ [x]).
Proof. intros Hl Hx. apply NoDup_app. split_and!; [done|set_solver|apply NoDup_singleton]. Qed.

(** The duplicate checks of the loop body. *)
Lemma reconcile_ids_step rows row acc :
  NoDup (dt_task_id <$> rows) ∧ rec_task_ids acc = list_to_set (dt_task_id <$> rows) →
  bool_decide (dt_task_id row ∈ rec_task_ids acc) = false →
  NoDup (dt_task_id <$> rows ++ [row]) ∧
  {[ dt_task_id row ]} ∪ rec_task_ids acc = list_to_set (dt_task_id <$> rows ++ [row]).
Proof.
  intros [Hnd Hset] Hin%bool_decide_eq_false. rewrite Hset, elem_of_list_to_set in Hin.
  rewrite fmap_app. simpl. split; [by apply NoDup_snoc|]. rewrite Hset. set_solver.
Qed.

Lemma reconcile_lease_step rows row l acc :
  NoDup (omap lease_id rows) ∧ rec_delivery_ids acc = list_to_set (omap lease_id rows) →
  dt_lease row = Some l → bool_decide (dl_delivery_id l ∈ rec_delivery_ids acc) = false →
  NoDup (omap lease_id (rows ++ [row])) ∧
  {[ dl_delivery_id l ]} ∪ rec_delivery_ids acc = list_to_set (omap lease_id (rows ++ [row])).
Proof.
  intros [Hnd Hset] Hl Hin%bool_decide_eq_false. rewrite Hset, elem_of_list_to_set in Hin.
  rewrite omap_app. simpl. unfold lease_id at 2 4. rewrite Hl. simpl.
  split; [by apply NoDup_snoc|]. rewrite Hset. set_solver.
Qed.

Lemma reconcile_no_lease_step rows row acc :
  NoDup (omap lease_id rows) ∧ rec_delivery_ids acc = list_to_set (omap lease_id rows) →
  dt_lease row = None →
  NoDup (omap lease_id (rows ++ [row])) ∧
  rec_delivery_ids acc = list_to_set (omap lease_id (rows ++ [row])).
Proof.
  intros Hacc Hl. rewrite omap_app. simpl. unfold lease_id at 2 4. rewrite Hl. simpl.
  by rewrite app_nil_r.
Qed.

(** The rest of the loop body, once the row is known to be new. *)
Lemma reconcile_verdict now rows row vs acc :
  Forall2 (reconciles now) rows vs → RowOK row →
  NoDup (dt_task_id <$> rows ++ [row]) ∧
    rec_task_ids acc = list_to_set (dt_task_id <$> rows ++ [row]) →
  NoDup (omap lease_id (rows ++ [row])) ∧
    rec_delivery_ids acc = list_to_set (omap lease_id (rows ++ [row])) →
  rec_restored acc = omap kept vs → rec_upserts acc = omap changed vs →
  rec_deletes acc = omap pruned vs →
  wp (if row_overdue now row
      then st_modify (λ acc,
             acc <| rec_deletes ::= λ l, l ++ [dt_task_id row] |>
                 <| rec_report ::= λ r, r <| report_pruned ::= S |> |>)
      else
        let! (task, change) := st_lift (reconcile_task row now) in
        let! _ := match change with
                  | Unchanged => st_ret tt
                  | WasExpired => st_modify (λ acc,
                      acc <| rec_upserts ::= λ l, l ++ [task] |>
                          <| rec_report ::= λ r, r <| report_expired ::= S |> |>)
                  | WasRequeued => st_modify (λ acc,
                      acc <| rec_upserts ::= λ l, l ++ [task] |>
                          <| rec_report ::= λ r, r <| report_requeued ::= S |> |>)
                  end in
        st_modify (λ acc, acc <| rec_restored ::= λ l, l ++ [task] |>))
    (λ _ acc', ∃ v, reconciled now (rows ++ [row]) (vs ++ [v]) acc') (λ _ _, True) acc.
Proof.
  intros Hrows Hok Hids Hleases Hre Hup Hde. destruct (row_overdue now row) eqn:Hover.
  - apply wp_modify. exists (Pruned (dt_task_id row)). split; simpl; try done.
    + apply Forall2_app; [done|]. apply Forall2_cons_2; [by split|apply Forall2_nil_2].
    + rewrite Hre, omap_app. simpl. by rewrite app_nil_r.
    + rewrite Hup, omap_app. simpl. by rewrite app_nil_r.
    + by rewrite Hde, omap_app.
  - wp_step. apply wp_lift_no_panic; [apply reconcile_task_no_panic| |done].
    intros [row' change] Hrow'. simpl.
    assert (Forall2 (reconciles now) (rows ++ [row]) (vs ++ [Kept row' change])) as Hf2.
    { apply Forall2_app; [done|]. apply Forall2_cons_2; [by split|apply Forall2_nil_2]. }
    wp_step. destruct change; wp_step; apply wp_modify; eexists; split;
      try exact Hf2; try done; simpl; rewrite ?Hre, ?Hup, ?Hde, ?omap_app; simpl;
      by rewrite ?app_nil_r.
Qed.

Lemma reconcile_step_spec now rows row vs acc :
  reconciled now rows vs acc →
  wp (reconcile_step now row) (λ _ acc', ∃ v, reconciled now (rows ++ [row]) (vs ++ [v]) acc')
    (λ _ _, True) acc.
Proof.
  intros [Hrows Hids Hleases Hre Hup Hde]. unfold reconcile_step. wp_step.
  apply wp_lift_no_panic; [apply validate_durable_task_no_panic| |done].
  intros [] Hvalid%validate_durable_task_ok. wp_steps. wp_step; [intros Hnew|done].
  pose proof (reconcile_ids_step _ _ _ Hids Hnew) as Hids'. wp_steps.
  destruct (dt_lease row) as [l|] eqn:Hl.
  - wp_step. wp_step; [intros Hfresh|done]. wp_step.
    apply (reconcile_verdict now rows row vs); try done. by apply reconcile_lease_step.
  - apply wp_ret. apply (reconcile_verdict now rows row vs); try done.
    by apply reconcile_no_lease_step.
Qed.

Lemma reconcile_loop_spec now rows report :
  wp (for_each (reconcile_step now) rows)
    (λ _ acc, ∃ vs, reconciled now rows vs acc) (λ _ _, True) (MkReconcile ∅ ∅ [] [] [] report).
Proof.
  apply (wp_for_each _ (λ seen acc, ∃ vs, reconciled now seen vs acc)).
  - exists []. split; simpl; try done; split; done || constructor.
  - intros seen row todo acc _ [vs Hacc]. eapply wp_mono; [by apply reconcile_step_spec| |done].
    intros _ acc' [v Hv]. by exists (vs ++ [v]).
Qed.

Lemma reconcile_snapshot_no_panic rows now report :
  no_panic (validate_and_reconcile_snapshot rows now report).
Proof.
  unfold validate_and_reconcile_snapshot. destruct (_ <? _)%nat; [done|].
  pose proof (reconcile_loop_spec now rows report) as Hwp. unfold wp in Hwp.
  by destruct (for_each _ _ _) as [[] ?].
Qed.

Lemma reconcile_snapshot_done rows now report restored batch report' :
  validate_and_reconcile_snapshot rows now report = Done (restored, batch, report') →
  ∃ vs, Forall2 (reconciles now) rows vs ∧
    NoDup (dt_task_id <$> rows) ∧ NoDup (omap lease_id rows) ∧
    restored = omap kept vs ∧ batch = MkBatch None (omap changed vs) (omap pruned vs) ∧
    (length rows ≤ MAX_RETAINED_TASKS)%nat.
Proof.
  unfold validate_and_reconcile_snapshot.
  destruct (MAX_RETAINED_TASKS <? length rows)%nat eqn:Hlen; [done|].
  apply Nat.ltb_ge in Hlen.
  pose proof (reconcile_loop_spec now rows report) as Hwp. unfold wp in Hwp.
  destruct (for_each _ _ _) as [[[]| |] acc]; [|done..]. intros [= <- <- <-].
  destruct Hwp as (vs & [Hrows [Hids _] [Hleases _] Hre Hup Hde]). exists vs.
  by rewrite Hre, Hup, Hde.
Qed.

(** *** What the verdicts say of the rows *)

(** A row that can be restored. *)
Definition restorable row : Prop := RowOK row ∧ dt_state row ≠ Leased.

Lemma expired_row_ok now row row' :
  RowOK row → (dt_delivery_deadline_unix_ms row <= now)%Z →
  checked_add_i64 now TERMINAL_RETENTION_MS = dt_retention_deadline_unix_ms row' →
  dt_created_unix_ms row' = dt_created_unix_ms row →
  dt_delivery_deadline_unix_ms row' = dt_delivery_deadline_unix_ms row →
  dt_lease row' = None → dt_acknowledged_unix_ms row' = None → dt_reply row' = None →
  dt_terminal_unix_ms row' = Some now → dt_state row' = Expired →
  is_Some (dt_retention_deadline_unix_ms row') → restorable row'.
Proof.
  intros HR Hdue Hret Hc Hdl Hl Ha Hr Ht Hs [d Hd]. pose proof (row_deadline _ HR) as Hdead.
  split; [|congruence]. split.
  - by rewrite Hc, Hdl.
  - unfold lease_columns_valid. by rewrite Hl.
  - unfold terminal_times_valid. rewrite Ht, Hd, Hc. apply andb_true_iff.
    apply checked_Some in Hdead as [Hdead _]. unfold DELIVERY_TTL_MS in Hdead.
    rewrite bool_decide_eq_true, Z.leb_le. split; [lia|congruence].
  - unfold valid_state. by rewrite Hs, Hl, Ha, Hr, Ht.
Qed.

Lemma reconcile_task_ok now row row' change :
  RowOK row → reconcile_task row now = Done (row', change) → row_overdue now row = false →
  restorable row' ∧ dt_task_id row' = dt_task_id row ∧ retained_at now row' = true ∧
  (change = Unchanged → row' = row) ∧ (dt_lease row' = None ∨ dt_lease row' = dt_lease row).
Proof.
  intros HR. unfold reconcile_task. destruct (negb _ && _) eqn:Hdue.
  - apply andb_true_iff in Hdue as [Hlive Hdue]. apply Z.leb_le in Hdue.
    destruct (checked_add_i64 now _) as [d|] eqn:Hd; [|done]. simpl.
    destruct (checked_add_u64 _ _) as [v|]; [|done]. simpl. intros [= <- <-] _.
    pose proof Hd as Hd'. apply checked_Some in Hd' as [-> _].
    split_and!; try done; [by eapply expired_row_ok| |by left].
    unfold retained_at. simpl. apply Z.ltb_lt. unfold TERMINAL_RETENTION_MS. lia.
  - case_bool_decide as Hs.
    + destruct (checked_add_u64 _ _) as [v|]; [|done]. simpl. intros [= <- <-] Hover.
      pose proof (row_live row HR) as Hrl. rewrite Hs in Hrl.
      destruct Hrl as (Hr & Ht & Hret & Hack & _); [done|].
      assert (dt_acknowledged_unix_ms row = None) as Ha.
      { destruct (dt_acknowledged_unix_ms row); [|done].
        by assert (Leased = Acknowledged) by (apply Hack; eauto). }
      split_and!; try done; [| |by left].
      * split; [|done]. destruct HR. split; try done.
        unfold valid_state; simpl. by rewrite Ha, Hr, Ht.
      * unfold retained_at; simpl. by rewrite Hret.
    + intros [= <- <-] Hover. split_and!; try done; [|by right].
      unfold retained_at. unfold row_overdue in Hover.
      destruct (dt_retention_deadline_unix_ms row); [|done]. simpl in *.
      apply Z.leb_gt in Hover. by apply Z.ltb_lt.
Qed.

Definition verdict_id (v : Verdict) : string :=
  match v with Pruned id => id | Kept row _ => dt_task_id row end.

Lemma reconciles_kept now row row' change :
  reconciles now row (Kept row' change) →
  restorable row' ∧ dt_task_id row' = dt_task_id row ∧ retained_at now row' = true ∧
  (change = Unchanged → row' = row) ∧ (dt_lease row' = None ∨ dt_lease row' = dt_lease row).
Proof. intros (HR & Hover & Hrun). by eapply reconcile_task_ok. Qed.

Lemma verdict_ids now rows vs :
  Forall2 (reconciles now) rows vs → verdict_id <$> vs = dt_task_id <$> rows.
Proof.
  induction 1 as [|row v rows vs Hv _ IH]; [done|].
  rewrite !fmap_cons, IH. f_equal.
  destruct v as [id|row' change]; [by destruct Hv as (_ & -> & _)|].
  by apply reconciles_kept in Hv as (_ & ? & _).
Qed.

Lemma kept_ids_sublist vs : dt_task_id <$> omap kept vs `sublist_of` verdict_id <$> vs.
Proof. induction vs as [|[id|row change] vs IH]; simpl; by constructor. Qed.

Lemma changed_ids_sublist vs : dt_task_id <$> omap changed vs `sublist_of` verdict_id <$> vs.
Proof. induction vs as [|[id|row []] vs IH]; simpl; by constructor. Qed.

Lemma kept_leases_sublist now rows vs :
  Forall2 (reconciles now) rows vs → omap lease_id (omap kept vs) `sublist_of` omap lease_id rows.
Proof.
  induction 1 as [|row v rows vs Hv _ IH]; [done|].
  destruct v as [id|row' change]; simpl; [by case_match; [constructor|]|].
  apply reconciles_kept in Hv as (_ & _ & _ & _ & Hl).
  assert (lease_id row' = None ∨ lease_id row' = lease_id row) as [-> | ->].
  { unfold lease_id. destruct Hl as [-> | ->]; auto. }
  all: destruct (lease_id row); try done; by constructor.
Qed.

Lemma kept_all now rows vs :
  Forall2 (reconciles now) rows vs →
  Forall (λ row, restorable row ∧ retained_at now row = true) (omap kept vs).
Proof.
  induction 1 as [|row v rows vs Hv _ IH]; [constructor|].
  destruct v as [id|row' change]; simpl; [done|].
  apply reconciles_kept in Hv as (? & _ & ? & _). by constructor.
Qed.

(** *** What the batch leaves in the store *)

(** [m] holds exactly the rows [rows], each under its identifier. *)
Definition holds_rows (m : gmap string DurableTask) (rows : list DurableTask) : Prop :=
  ∀ id row, m !! id = Some row ↔ row ∈ rows ∧ dt_task_id row = id.

Lemma NoDup_fmap_inj {A B} (f : A → B) (l : list A) x y :
  NoDup (f <$> l) → x ∈ l → y ∈ l → f x = f y → x = y.
Proof.
  induction l as [|z l IH]; intros Hnd Hx Hy Hf; [set_solver|].
  rewrite fmap_cons in Hnd. apply NoDup_cons in Hnd as [Hz Hnd].
  apply elem_of_cons in Hx as [->|Hx]; apply elem_of_cons in Hy as [->|Hy]; [done|..].
  - destruct Hz. rewrite Hf. by apply list_elem_of_fmap_2.
  - destruct Hz. rewrite <-Hf. by apply list_elem_of_fmap_2.
  - by apply IH.
Qed.

Lemma elem_of_omap_kept (vs : list Verdict) row : row ∈ omap kept vs ↔ ∃ change, Kept row change ∈ vs.
Proof.
  rewrite list_elem_of_omap. split.
  - intros ([id|row' change] & Hv & [=]); subst. by eexists.
  - intros [change Hv]. by exists (Kept row change).
Qed.

Lemma elem_of_omap_changed (vs : list Verdict) row :
  row ∈ omap changed vs ↔ ∃ change, Kept row change ∈ vs ∧ change ≠ Unchanged.
Proof.
  rewrite list_elem_of_omap. split.
  - intros ([id|row' []] & Hv & [=]); subst; by eexists.
  - intros ([] & Hv & Hch); [done|by exists (Kept row WasExpired)|by exists (Kept row WasRequeued)].
Qed.

Lemma elem_of_omap_pruned (vs : list Verdict) id : id ∈ omap pruned vs ↔ Pruned id ∈ vs.
Proof.
  rewrite list_elem_of_omap. split.
  - by intros ([id'|row change] & Hv & [=]); subst.
  - intros Hv. by exists (Pruned id).
Qed.

Lemma reconciles_lookup now rows vs v :
  Forall2 (reconciles now) rows vs → v ∈ vs → ∃ row, row ∈ rows ∧ reconciles now row v.
Proof.
  intros Hf2 Hv. apply list_elem_of_lookup in Hv as [i Hi].
  destruct (Forall2_lookup_r _ _ _ _ _ Hf2 Hi) as (row & Hrow & Hrec).
  exists row. split; [by eapply list_elem_of_lookup_2|done].
Qed.

Lemma reconciled_view now rows vs m :
  holds_rows m rows → NoDup (dt_task_id <$> rows) → Forall2 (reconciles now) rows vs →
  holds_rows (upsert_all (omap changed vs) (delete_all (omap pruned vs) m)) (omap kept vs).
Proof.
  intros Hm Hnd Hf2 id row'. rewrite <-(verdict_ids _ _ _ Hf2) in Hnd.
  assert (NoDup (dt_task_id <$> omap changed vs)) as Hndc
    by (eapply sublist_NoDup; [exact Hnd|apply changed_ids_sublist]).
  rewrite elem_of_omap_kept.
  destruct (decide (id ∈ dt_task_id <$> omap changed vs)) as [Hin|Hin].
  { apply list_elem_of_fmap in Hin as (row & -> & Hrow).
    rewrite (lookup_upsert_all _ _ _ Hndc Hrow).
    apply elem_of_omap_changed in Hrow as (change & Hv & _). split.
    - intros [= <-]. eauto.
    - intros [[change' Hv'] Hid].
      pose proof (NoDup_fmap_inj _ _ _ _ Hnd Hv' Hv Hid). congruence. }
  rewrite lookup_upsert_all_ne by done. rewrite lookup_delete_all.
  case_decide as Hdel.
  { apply elem_of_omap_pruned in Hdel. split; [done|]. intros [[change Hv] Hid].
    by pose proof (NoDup_fmap_inj _ _ _ _ Hnd Hv Hdel Hid). }
  rewrite (Hm id row'). split.
  - intros [Hrow <-]. split; [|done].
    apply list_elem_of_lookup in Hrow as [i Hi].
    destruct (Forall2_lookup_l _ _ _ _ _ Hf2 Hi) as ([id|row change] & Hv & Hrec);
      apply list_elem_of_lookup_2 in Hv.
    + destruct Hrec as (_ & -> & _). by destruct Hdel; apply elem_of_omap_pruned.
    + apply reconciles_kept in Hrec as (_ & Hid & _ & Hun & _). exists change.
      destruct (decide (change = Unchanged)) as [Hch|Hch]; [by rewrite <-Hun|].
      destruct Hin. rewrite <-Hid. apply list_elem_of_fmap_2, elem_of_omap_changed. eauto.
  - intros [[change Hv] <-]. split; [|done].
    destruct (reconciles_lookup _ _ _ _ Hf2 Hv) as (row & Hrow & Hrec).
    apply reconciles_kept in Hrec as (_ & Hid & _ & Hun & _).
    destruct (decide (change = Unchanged)) as [Hch|Hch]; [by rewrite (Hun Hch)|].
    destruct Hin. apply list_elem_of_fmap_2, elem_of_omap_changed. eauto.
Qed.

(** A row that is kept moves along its life cycle. *)
Lemma reconcile_task_moves now row row' change :
  RowOK row → reconcile_task row now = Done (row', change) → row_moved now row row'.
Proof.
  intros HR. unfold reconcile_task. destruct (negb _ && _) eqn:Hdue.
  - apply andb_true_iff in Hdue as [Hlive%negb_true_iff _].
    destruct (checked_add_i64 now _) as [d|] eqn:Hd; [|done]. simpl.
    destruct (checked_add_u64 _ _) as [v|] eqn:Hv; [|done]. simpl. intros [= <- <-].
    apply checked_Some in Hd as [-> _]. apply checked_Some in Hv as [-> _]. split.
    + apply rtc_once. split; [by split|done|]. by apply (to_terminal _ _ now TerminalExpired).
    + by right; right.
  - case_bool_decide as Hs; [|by intros [= <- <-]].
    destruct (checked_add_u64 _ _) as [v|] eqn:Hv; [|done]. simpl. intros [= <- <-].
    apply checked_Some in Hv as [-> _]. pose proof (row_live row HR) as Hrl. rewrite Hs in Hrl.
    destruct Hrl as (Hr & Ht & Hret & Hack & _); [done|]. apply row_moved_live; [|done].
    apply rtc_once. split; [by split|done|]. apply to_queued; simpl; try done.
    destruct (dt_acknowledged_unix_ms row); [|done].
    by assert (Leased = Acknowledged) by (apply Hack; eauto).
Qed.

Lemma reconciled_evolved now rows vs m m' :
  holds_rows m rows → Forall2 (reconciles now) rows vs → holds_rows m' (omap kept vs) →
  store_evolved now m m'.
Proof.
  intros Hm Hf2 Hm' id row [Hrow <-]%Hm. apply list_elem_of_lookup in Hrow as [i Hi].
  destruct (Forall2_lookup_l _ _ _ _ _ Hf2 Hi) as ([id|row' change] & Hv & Hrec);
    apply list_elem_of_lookup_2 in Hv.
  - left. apply Hrec.
  - right. exists row'. pose proof (reconciles_kept _ _ _ _ Hrec) as (_ & Hid & _).
    destruct Hrec as (HR & _ & Hrun). split; [|by eapply reconcile_task_moves].
    apply Hm'. split; [|done]. apply elem_of_omap_kept. eauto.
Qed.
End reconcile.
