(* ===== verification/BrokerRestore.v ===== *)
(** * Restoring the state

    [restore_tasks], the reassignment of leases, waiters and inboxes of
    [reconcile_state_if_required], and [recover]: from valid rows to a state that
    satisfies the invariant and whose durable image is those rows. *)
From stdpp Require Import prelude gmap strings sorting.
From S2P Require Import Prelude RustStd Model Validation Durability BrokerState BrokerDurable.
From S2P Require Import BrokerMaintain BrokerOps BrokerInv BrokerPrim BrokerTrans BrokerImage.
From S2P Require Import BrokerRecover.

#[local] Abbreviation Registrations := (gmap RegistrationId RegistrationState).

(** Fields that restoring tasks leaves alone. *)
Record same_registry `{JsonNumber} (st st' : State) : Prop := {
  same_regs : registrations st' = registrations st;
  same_by_agent : registrations_by_agent st' = registrations_by_agent st;
  same_retired : retired_registration_ids st' = retired_registration_ids st ∧
                 retired_registration_order st' = retired_registration_order st;
  same_epoch : next_registration_epoch st' = next_registration_epoch st;
  same_flag : reconciliation_required st' = reconciliation_required st;
}.

#[global] Instance same_registry_preorder `{JsonNumber} : PreOrder same_registry.
Proof.
  split; [by split|]. intros st1 st2 st3 [? ? [? ?] ? ?] [? ? [? ?] ? ?].
  split; try split; congruence.
Qed.

Section restore.
Context `{JsonNumber}.
Implicit Types (st : State) (row : DurableTask).

Definition inboxes_empty (regs : Registrations) : Prop :=
  ∀ rid r, regs !! rid = Some r → rs_inbox r = [].

(** What one round of [restore_tasks] writes. *)
Definition restored_state row st : State :=
  let sequence := (next_task_sequence st + 1)%Z in
  let id := dt_task_id row in
  let st := st <| next_task_sequence := sequence |> in
  let st :=
    match dt_retention_deadline_unix_ms row with
    | Some deadline => st <| terminal_deadlines ::= heap_push (deadline, id) |>
    | None =>
        st <| tasks_by_delivery ::= λ m,
                match lease_id row with Some d => <[d := id]> m | None => m end |>
           <| delivery_deadlines ::= heap_push (dt_delivery_deadline_unix_ms row, id) |>
           <| active_tasks_by_agent ::= idx_insert (dt_sender row) id |>
           <| active_tasks_by_agent ::= idx_insert (dt_recipient row) id |>
           <| outbound_tasks_by_agent ::= idx_insert (dt_sender row) id |>
           <| tasks_by_sender ::= idx_insert (dt_sender row) id |>
           <| tasks_by_recipient ::= idx_insert (dt_recipient row) id |>
    end in
  st <| tasks ::= insert id (restored_record sequence row) |>.

Lemma row_terminal_iff row :
  RowOK row → state_is_terminal (dt_state row) = is_some (dt_retention_deadline_unix_ms row).
Proof.
  intros HR. destruct (state_is_terminal (dt_state row)) eqn:Hterm.
  - by destruct (row_terminal row HR Hterm) as (_ & _ & now & d & _ & -> & _).
  - by destruct (row_live row HR Hterm) as (_ & _ & -> & _).
Qed.

Lemma restore_round row st :
  RowOK row → (0 ≤ next_task_sequence st < u64_max)%Z →
  (let! sequence := st_gets next_task_sequence in
   let! sequence := st_lift (or_unavailable (checked_add_u64 sequence 1)) in
   let! _ := st_modify (λ st, st <| next_task_sequence := sequence |>) in
   restore_task row) st = (Done tt, restored_state row st).
Proof.
  intros HR Hseq. unfold st_bind at 1, st_gets at 1.
  assert (checked_add_u64 (next_task_sequence st) 1 = Some (next_task_sequence st + 1)%Z) as Hc
    by (apply checked_Some; lia).
  unfold st_bind at 1, st_lift, or_unavailable. rewrite Hc. cbn [ok_or].
  unfold st_bind at 1, st_modify at 1. unfold restore_task.
  rewrite (row_terminal_iff _ HR). unfold restored_state, lease_id, st_bind, st_gets, st_lift.
  destruct (dt_retention_deadline_unix_ms row) as [d|] eqn:Hd; cbn [is_some].
  - simpl. rewrite Hd. done.
  - unfold st_modify. simpl. by destruct (dt_lease row).
Qed.

Lemma restored_unleased sequence row :
  restorable row → acknowledged (restored_record sequence row) = false →
  lease (restored_record sequence row) = None.
Proof.
  intros [HR Hs]. simpl. rewrite bool_decide_eq_false. intros Ha.
  destruct (state_is_terminal (dt_state row)) eqn:Hterm.
  - by destruct (row_terminal row HR Hterm) as (-> & _).
  - destruct (row_live row HR Hterm) as (_ & _ & _ & _ & Hq).
    rewrite (proj1 Hq); [done|]. by destruct (dt_state row).
Qed.

Lemma DelivOK_restored ts m sequence row :
  ts !! dt_task_id row = None → RowOK row →
  (∀ d, lease_id row = Some d → m !! d = None) → DelivOK ts m →
  DelivOK (<[dt_task_id row := restored_record sequence row]> ts)
    (match dt_retention_deadline_unix_ms row with
     | Some _ => m
     | None => match lease_id row with Some d => <[d := dt_task_id row]> m | None => m end
     end).
Proof.
  intros Hid HR Hfresh HD. set (t := restored_record sequence row).
  assert (lease_delivery_id <$> lease t = lease_id row) as Hl.
  { unfold lease_id. simpl. by destruct (dt_lease row). }
  destruct (dt_retention_deadline_unix_ms row) eqn:Hd.
  - apply DelivOK_new; [done| |done]. simpl.
    assert (state_is_terminal (dt_state row) = true) as Hterm by by rewrite row_terminal_iff, Hd.
    by destruct (row_terminal row HR Hterm) as (-> & _).
  - destruct (lease t) as [l|] eqn:Hlt; simpl in Hl; rewrite <-Hl in Hfresh |- *;
      [|by apply DelivOK_new].
    intros d id. rewrite lookup_insert_Some, (HD d id).
    destruct (decide (dt_task_id row = id)) as [<-|Hne].
    + rewrite lookup_insert_eq, Hid. split.
      * intros [[<- _]|(_ & ? & ? & [=] & _)]. eauto.
      * intros (t0 & l0 & [= <-] & Hl0 & <-). left. by simplify_eq.
    + rewrite lookup_insert_ne by done. split; [by intros [[_ <-]|[_ ?]]|].
      intros Ht. right. split; [|done]. intros <-.
      apply HD in Ht. rewrite Hfresh in Ht; done.
Qed.

Lemma Core_restored row st :
  Core st → inboxes_empty (registrations st) → restorable row →
  tasks st !! dt_task_id row = None →
  (∀ d, lease_id row = Some d → tasks_by_delivery st !! d = None) →
  (size (tasks st) < MAX_RETAINED_TASKS)%nat →
  Core (restored_state row st).
Proof.
  intros HC Hib [HR Hs] Hid Hfresh Hsize.
  set (seq := (next_task_sequence st + 1)%Z). set (id := dt_task_id row) in *.
  set (s := shape (restored_record seq row)).
  assert (tasks (restored_state row st) = <[id := restored_record seq row]> (tasks st)) as Hts.
  { unfold restored_state. by destruct (dt_retention_deadline_unix_ms row). }
  assert (shapes (tasks (restored_state row st)) = <[id := s]> (shapes (tasks st))) as Hσ
    by by rewrite Hts, shapes_insert.
  pose proof (lookup_shapes_None _ _ Hid) as Hsh.
  assert (∀ owns idx ks, IdxOK owns idx (shapes (tasks st)) → (∀ a, owns a s ↔ a ∈ ks) →
    IdxOK owns (match dt_retention_deadline_unix_ms row with
                | Some _ => idx | None => foldr (λ k, idx_insert k id) idx ks end)
      (<[id := s]> (shapes (tasks st)))) as Hidx.
  { intros owns idx ks Hidx Hks. destruct (dt_retention_deadline_unix_ms row) as [d|] eqn:Hd.
    - eapply IdxOK_ext; [|done]. intros a id'. destruct (decide (id = id')) as [<-|Hne].
      + rewrite lookup_insert_eq, Hsh. split; [naive_solver|].
        intros (s' & [= <-] & Hl & _). unfold sh_live, s in Hl. simpl in Hl. congruence.
      + by rewrite lookup_insert_ne.
    - by apply IdxOK_insert. }
  split; rewrite ?Hσ, ?Hts.
  - apply map_Forall_insert_2; [by apply restored_record_wf|apply HC].
  - unfold restored_state. destruct (dt_retention_deadline_unix_ms row); apply HC.
  - assert (∀ a, owns_active a s ↔ a ∈ [dt_recipient row; dt_sender row]) as Hks by solve_owns.
    pose proof (Hidx _ _ _ (core_active _ HC) Hks) as Hi.
    unfold restored_state. by destruct (dt_retention_deadline_unix_ms row).
  - assert (∀ a, owns_sent a s ↔ a ∈ [dt_sender row]) as Hks by solve_owns.
    pose proof (Hidx _ _ _ (core_outbound _ HC) Hks) as Hi.
    unfold restored_state. by destruct (dt_retention_deadline_unix_ms row).
  - assert (∀ a, owns_sent a s ↔ a ∈ [dt_sender row]) as Hks by solve_owns.
    pose proof (Hidx _ _ _ (core_sender _ HC) Hks) as Hi.
    unfold restored_state. by destruct (dt_retention_deadline_unix_ms row).
  - assert (∀ a, owns_received a s ↔ a ∈ [dt_recipient row]) as Hks by solve_owns.
    pose proof (Hidx _ _ _ (core_recipient _ HC) Hks) as Hi.
    unfold restored_state. by destruct (dt_retention_deadline_unix_ms row).
  - pose proof (DelivOK_restored (tasks st) (tasks_by_delivery st) seq row) as HD.
    unfold restored_state. destruct (dt_retention_deadline_unix_ms row); by apply HD; [..|apply HC].
  - apply OwnerOK_update.
    + intros l Ha Hl. by rewrite (restored_unleased seq row (conj HR Hs) Ha) in Hl.
    + unfold restored_state. destruct (dt_retention_deadline_unix_ms row); apply HC.
  - intros rid r Hr. assert (rs_inbox r = []) as ->; [|split; [set_solver|constructor]].
    apply (Hib rid). unfold restored_state in Hr.
    by destruct (dt_retention_deadline_unix_ms row).
  - unfold restored_state. destruct (dt_retention_deadline_unix_ms row);
      by apply SeqOK_insert; [..|apply HC].
  - unfold restored_state. destruct (dt_retention_deadline_unix_ms row) as [d|] eqn:Hd.
    + apply HeapOK_insert_terminal; [by apply not_terminal_None|done|apply HC].
    + apply HeapOK_insert_live; [by apply not_terminal_None|done|apply HC].
  - unfold restored_state. destruct (dt_retention_deadline_unix_ms row) as [d|] eqn:Hd.
    + apply DueOK_insert_terminal; [|apply HC]. unfold sh_live, s; simpl. congruence.
    + rewrite (checked_add_value _ _ _ (row_deadline _ HR)). apply (DueOK_push _ _ id s), HC.
  - unfold restored_state. destruct (dt_retention_deadline_unix_ms row); apply HC.
  - rewrite map_size_insert_None by done. unfold MAX_RETAINED_TASKS in *. lia.
Qed.

Lemma restored_registry row st : same_registry st (restored_state row st).
Proof. unfold restored_state. destruct (dt_retention_deadline_unix_ms row); by split. Qed.

Lemma restored_tasks row st :
  tasks (restored_state row st)
  = <[dt_task_id row := restored_record (next_task_sequence st + 1) row]> (tasks st).
Proof. unfold restored_state. by destruct (dt_retention_deadline_unix_ms row). Qed.

Lemma restored_sequence row st :
  next_task_sequence (restored_state row st) = (next_task_sequence st + 1)%Z.
Proof. unfold restored_state. by destruct (dt_retention_deadline_unix_ms row). Qed.

(** The deliveries recorded so far are leases of restored tasks. *)
Lemma restored_deliveries row st d :
  tasks_by_delivery st !! d = None → lease_id row ≠ Some d →
  tasks_by_delivery (restored_state row st) !! d = None.
Proof.
  intros Hd Hne. unfold restored_state.
  destruct (dt_retention_deadline_unix_ms row); [done|]. simpl.
  destruct (lease_id row) as [d'|]; [|done]. rewrite lookup_insert_ne; congruence.
Qed.

(** What a restored task cannot have. *)
Definition fresh_record (t : TaskRecord) : Prop :=
  reply_waiters t = [] ∧ (acknowledged t = false → lease t = None).

(** Preconditions of the loop. *)
Record Restorable (rows : list DurableTask) st : Prop := {
  rst_rows : Forall restorable rows;
  rst_ids : NoDup (dt_task_id <$> rows);
  rst_new : ∀ row, row ∈ rows → tasks st !! dt_task_id row = None;
  rst_leases : NoDup (omap lease_id rows);
  rst_deliveries : ∀ d, d ∈ omap lease_id rows → tasks_by_delivery st !! d = None;
  rst_size : (size (tasks st) + length rows ≤ MAX_RETAINED_TASKS)%nat;
  rst_seq : (0 ≤ next_task_sequence st)%Z ∧
            (next_task_sequence st + Z.of_nat (length rows) ≤ u64_max)%Z;
}.

Lemma Restorable_next row rows st :
  Restorable (row :: rows) st → Restorable rows (restored_state row st).
Proof.
  intros [Hr Hi Hn Hl Hd Hsz Hsq]. apply Forall_cons in Hr as [Hrow Hr].
  rewrite fmap_cons in Hi. apply NoDup_cons in Hi as [Hni Hi]. cbn [length] in *.
  assert (omap lease_id (row :: rows)
          = match lease_id row with Some d => d :: omap lease_id rows
                                  | None => omap lease_id rows end) as Hom by done.
  rewrite Hom in Hl, Hd. split; try done.
  - intros row' Hrow'. rewrite restored_tasks, lookup_insert_ne.
    + apply Hn. set_solver.
    + intros Heq. apply Hni. rewrite Heq. by apply list_elem_of_fmap_2.
  - destruct (lease_id row); [by apply NoDup_cons in Hl as [_ ?]|done].
  - intros d Hin. apply restored_deliveries.
    + apply Hd. destruct (lease_id row); set_solver.
    + intros Heq. rewrite Heq in Hl. by apply NoDup_cons in Hl as [? _].
  - rewrite restored_tasks, map_size_insert_None by (apply Hn; set_solver). lia.
  - rewrite restored_sequence. lia.
Qed.

Lemma restore_tasks_run rows st :
  Core st → inboxes_empty (registrations st) → Restorable rows st →
  map_Forall (λ _, fresh_record) (tasks st) →
  ∃ st', restore_tasks rows st = (Done tt, st') ∧ Core st' ∧ same_registry st st' ∧
    durable_rows (tasks st') = upsert_all rows (durable_rows (tasks st)) ∧
    map_Forall (λ _, fresh_record) (tasks st').
Proof.
  revert st. induction rows as [|row rows IH]; intros st HC Hib HR Hf.
  { exists st. by split_and!. }
  destruct HR as [Hrows Hi Hn Hl Hd Hsz Hsq] eqn:HReq. clear HReq.
  pose proof (Restorable_next _ _ _ (Build_Restorable _ _ Hrows Hi Hn Hl Hd Hsz Hsq)) as HR'.
  apply Forall_cons in Hrows as [Hrow _]. cbn [length] in *.
  assert (tasks st !! dt_task_id row = None) as Hid by (apply Hn; set_solver).
  destruct (IH (restored_state row st)) as (st' & Hrun & HC' & Hreg & Hdr & Hf'); [|..].
  - apply Core_restored; try done; [|lia]. intros d Hlease. apply Hd. cbn. rewrite Hlease.
    set_solver.
  - by rewrite (same_regs _ _ (restored_registry row st)).
  - done.
  - rewrite restored_tasks. apply map_Forall_insert_2; [|done]. split; [done|].
    by apply restored_unleased.
  - exists st'. split_and!; try done.
    + unfold restore_tasks. cbn [for_each]. unfold st_bind at 1.
      rewrite restore_round; [exact Hrun|apply Hrow|lia].
    + by etrans; [apply restored_registry|].
    + rewrite Hdr, restored_tasks, durable_rows_insert, image_restored by apply Hrow. done.
Qed.

Lemma upsert_all_holds rows : NoDup (dt_task_id <$> rows) → holds_rows (upsert_all rows ∅) rows.
Proof.
  intros Hnd id row. split.
  - intros Hid. destruct (decide (id ∈ dt_task_id <$> rows)) as [Hin|Hin].
    + apply list_elem_of_fmap in Hin as (row' & -> & Hrow').
      rewrite (lookup_upsert_all _ _ _ Hnd Hrow') in Hid. by simplify_eq.
    + rewrite lookup_upsert_all_ne in Hid by done. by rewrite lookup_empty in Hid.
  - intros [Hrow <-]. by apply lookup_upsert_all.
Qed.

Lemma holds_rows_eq m1 m2 rows1 rows2 :
  holds_rows m1 rows1 → holds_rows m2 rows2 → (∀ row, row ∈ rows1 ↔ row ∈ rows2) → m1 = m2.
Proof.
  intros H1 H2 Hrows. apply map_eq. intros id. apply option_eq. intros row.
  by rewrite (H1 id row), (H2 id row), Hrows.
Qed.
End restore.

(** ** Forgetting the tasks, reassigning leases and waiters *)

Section reassign.
Context `{JsonNumber}.
Implicit Types (st : State) (t : TaskRecord).

Definition attached (ts : gmap string TaskRecord) (waiter : nat) : Prop :=
  ∃ id t, ts !! id = Some t ∧ waiter ∈ reply_waiters t.

(** No lease but that of an acknowledged task: true after a restore. *)
Definition unleased (ts : gmap string TaskRecord) : Prop :=
  map_Forall (λ _ t, acknowledged t = false → lease t = None) ts.

Lemma OwnerOK_unleased ts (regs : Registrations) : unleased ts → OwnerOK ts regs.
Proof. intros Hu id t l Ht Ha Hl. rewrite (Hu id t Ht Ha) in Hl. done. Qed.

Lemma Core_cleared epoch st :
  Core st → Core (clear_tasks epoch st) ∧ inboxes_empty (registrations (clear_tasks epoch st)).
Proof.
  intros HC. assert (inboxes_empty (registrations (clear_tasks epoch st))) as Hib.
  { intros rid r'. simpl. rewrite lookup_fmap. by intros (r & _ & ->)%fmap_Some. }
  split; [|done].
  split; simpl; try (by apply IdxOK_empty); try (by apply (core_retired _ HC)); try done.
  - apply (RegsOK_update (registrations st)) with (next := next_registration_epoch st);
      [lia| | |apply HC].
    + intros id. rewrite lookup_fmap. by rewrite fmap_is_Some.
    + intros id r'. rewrite lookup_fmap. intros (r & Hr & ->)%fmap_Some. by exists r.
  - intros d id. rewrite lookup_empty. split; [done|]. by intros (t & l & Ht & _).
  - intros rid r Hr. rewrite (Hib rid r Hr). split; [set_solver|constructor].
  - apply HeapOK_empty.
  - apply DueOK_empty.
  - rewrite map_size_empty. unfold MAX_RETAINED_TASKS. lia.
Qed.

(** *** [assign_lease_owners] *)

Definition reowned (active : gmap AgentName RegistrationCredentials) t : TaskRecord :=
  match lease t with
  | Some l => t <| lease := Some (l <| lease_owner := active !! recipient t |>) |>
  | None => t
  end.

Lemma reowned_image active id t : image id (reowned active t) = image id t.
Proof.
  unfold reowned. destruct (lease t) as [l|] eqn:Hl; [|done].
  apply DurableTask_ext; try reflexivity; simpl.
  - unfold durable_state; simpl. by rewrite Hl.
  - by rewrite Hl.
Qed.

Lemma reowned_wf active id t : task_wf id t → task_wf id (reowned active t).
Proof.
  unfold reowned. destruct (lease t) as [l|] eqn:Hl; [|done]. intros [? ? ? ? Hp].
  split; simpl; try done. destruct (terminal_deadline_unix_ms t).
  - destruct Hp. congruence.
  - destruct Hp as [? ? ? ? ? Hat]. split; simpl; try done. intros l' [= <-]. simpl. by apply Hat.
Qed.

Lemma durable_rows_fmap (f : TaskRecord → TaskRecord) ts :
  (∀ id t, ts !! id = Some t → image id (f t) = image id t) →
  durable_rows (f <$> ts) = durable_rows ts.
Proof.
  intros Hf. apply map_eq. intros id. rewrite !lookup_durable_rows, lookup_fmap.
  destruct (ts !! id) as [t|] eqn:Ht; simpl; [|done]. by rewrite Hf.
Qed.

Lemma assign_lease_owners_ok now st :
  Core st → unleased (tasks st) →
  Core (assign_lease_owners now st) ∧ unleased (tasks (assign_lease_owners now st)) ∧
  durable_rows (tasks (assign_lease_owners now st)) = durable_rows (tasks st) ∧
  same_registry st (assign_lease_owners now st).
Proof.
  intros HC Hu. set (f := reowned (active_credentials now st)).
  assert (assign_lease_owners now st = st <| tasks ::= fmap f |>) as -> by done.
  assert (unleased (f <$> tasks st)) as Hu'.
  { intros id t'. rewrite lookup_fmap. intros (t & Ht & ->)%fmap_Some. unfold f, reowned.
    destruct (lease t) eqn:Hl; [|by intros]. simpl. intros Ha. by rewrite (Hu id t Ht Ha) in Hl. }
  split_and!; [|done| |by split].
  - apply Core_fmap; [by apply reowned_wf|..|by apply OwnerOK_unleased|done];
      intros t; unfold f, reowned; by destruct (lease t) eqn:Hl; simpl; rewrite ?Hl.
  - apply durable_rows_fmap. intros id t _. apply reowned_image.
Qed.

(** *** [rewait_all] *)

Lemma reply_result_live id t : task_wf id t → reply_result_for_task t = None → live t.
Proof.
  intros Hwf Hr. pose proof (wf_phase _ _ Hwf) as Hp. unfold live.
  destruct (terminal_deadline_unix_ms t); [|done]. destruct Hp as [? ? ? ? [o Ho] ?].
  unfold reply_result_for_task in Hr. unfold task_fields in Ho.
  destruct o; simpl in Ho; injection Ho as Hre Hf Hrj Hc He;
    by rewrite ?Hc, ?He, ?Hf, ?Hrj, ?Hre in Hr.
Qed.

Lemma Core_waiters id l t st :
  Core st → tasks st !! id = Some t → live t →
  Core (st <| tasks ::= insert id (t <| reply_waiters := l |>) |>).
Proof.
  intros HC Hid Hlive.
  replace (st <| tasks ::= insert id (t <| reply_waiters := l |>) |>)
    with (st <| tasks ::= insert id (t <| reply_waiters := l |>) |>
             <| tasks_by_delivery := tasks_by_delivery st |>) by by destruct st.
  apply (Core_task_update st id t); try done.
  - apply task_wf_waiters; [done|by apply HC].
  - eapply DelivOK_update; [done..|apply HC].
  - intros l' Ha Hl. by apply (core_owners _ HC id t).
Qed.

(** What handing waiters back keeps. *)
Record rewaited st st' : Prop := {
  rw_core : Core st';
  rw_unleased : unleased (tasks st');
  rw_registry : same_registry st st';
  rw_rows : durable_rows (tasks st') = durable_rows (tasks st);
  rw_attached : ∀ k, attached (tasks st) k → attached (tasks st') k;
}.

Lemma rewait_ok st entry :
  Core st → unleased (tasks st) →
  rewaited st (rewait st entry).1 ∧
  ∀ k, k ∈ entry.2 → attached (tasks (rewait st entry).1) k ∨ k ∈ (rewait st entry).2.*1.
Proof.
  intros HC Hu. destruct entry as [id waiters]. unfold rewait.
  assert (∀ result : ReplyResult, ∀ k, k ∈ waiters →
            k ∈ ((λ waiter, (waiter, result)) <$> waiters).*1) as Hres.
  { intros result k Hk. rewrite <-list_fmap_compose. apply list_elem_of_fmap. eauto. }
  destruct (tasks st !! id) as [t|] eqn:Hid; [|split; [by split|simpl; auto]].
  destruct (reply_result_for_task t) as [result|] eqn:Hr; [split; [by split|simpl; auto]|].
  pose proof (reply_result_live id t (core_tasks _ HC _ _ Hid) Hr) as Hlive.
  simpl. split.
  - split; [by apply Core_waiters| |by split|by eapply durable_rows_update|].
    + simpl. apply map_Forall_insert_2; [|done]. simpl. by apply (Hu id).
    + intros k (id' & t' & Ht' & Hk). destruct (decide (id = id')) as [<-|Hne].
      * exists id. eexists. simpl. rewrite lookup_insert_eq. split; [done|]. simpl.
        simplify_eq. set_solver.
      * exists id', t'. simpl. by rewrite lookup_insert_ne.
  - intros k Hk. left. exists id. eexists. simpl. rewrite lookup_insert_eq. split; [done|].
    simpl. set_solver.
Qed.

Lemma rewait_all_ok entries st :
  Core st → unleased (tasks st) →
  rewaited st (rewait_all entries st).1 ∧
  ∀ entry k, entry ∈ entries → k ∈ entry.2 →
    attached (tasks (rewait_all entries st).1) k ∨ k ∈ (rewait_all entries st).2.*1.
Proof.
  revert st. induction entries as [|entry entries IH]; intros st HC Hu; simpl.
  { split; [by split|set_solver]. }
  destruct (rewait_ok st entry HC Hu) as [[HC1 Hu1 Hreg1 Hrows1 Hat1] Hk1].
  destruct (rewait st entry) as [st1 r1]. simpl in *.
  destruct (IH st1 HC1 Hu1) as [[HC2 Hu2 Hreg2 Hrows2 Hat2] Hk2].
  destruct (rewait_all entries st1) as [st2 r2]. simpl in *. split.
  - split; try done; [by etrans|by rewrite Hrows2|auto].
  - intros e k He Hk. rewrite fmap_app, elem_of_app.
    apply elem_of_cons in He as [->|He].
    + destruct (Hk1 k Hk); auto.
    + destruct (Hk2 e k He Hk); auto.
Qed.
End reassign.

(** ** Refilling the inboxes *)

#[global] Instance inbox_entry_le_total : Total inbox_entry_le.
Proof.
  intros [a x] [b y]. unfold inbox_entry_le; simpl.
  destruct (decide (a = b)) as [->|Hne].
  - destruct (total deadline_le x y); auto.
  - destruct (total String.le a b); auto.
Qed.

#[global] Instance inbox_entry_le_trans : Transitive inbox_entry_le.
Proof.
  intros [a x] [b y] [c z]. unfold inbox_entry_le; simpl.
  intros [[Hab ?]|[-> ?]] [[Hbc ?]|[-> ?]].
  - left. split; [|by etrans]. intros ->. apply Hab. by apply (anti_symm String.le).
  - by left.
  - by left.
  - right. split; [done|]. by etrans.
Qed.

Section refill.
Context `{JsonNumber}.
Implicit Types (st : State) (t : TaskRecord).

(** The entries of one registration, in their order. *)
Definition entries_of (rid : RegistrationId) (entries : list (string * Deadline))
    : list Deadline :=
  (filter (λ e : string * Deadline, e.1 = rid_str rid) entries).*2.

Definition extend_inbox (ids : list string) (r : RegistrationState) : RegistrationState :=
  r <| rs_inbox ::= λ inbox, inbox ++ ids |>.

Lemma push_entries_run entries st :
  ∃ regs keys, push_entries entries st = (st <| registrations := regs |>, keys) ∧
    ∀ rid, regs !! rid
           = extend_inbox (entries_of rid entries).*2 <$> registrations st !! rid.
Proof.
  unfold push_entries.
  assert (∀ keys0 st0, ∃ regs keys,
    foldl (λ acc entry, let '(st, keys) := acc in
      match registrations st !! MkRegistrationId entry.1 with
      | Some r => (st <| registrations ::= insert (MkRegistrationId entry.1)
                                             (push_inbox entry.2.2 r) |>,
                   keys ++ [rs_notify r])
      | None => (st, keys)
      end) (st0, keys0) entries = (st0 <| registrations := regs |>, keys) ∧
    ∀ rid, regs !! rid
           = extend_inbox (entries_of rid entries).*2 <$> registrations st0 !! rid) as Hgen;
    [|apply Hgen].
  induction entries as [|[s [seq id]] entries IH]; intros keys0 st0.
  { exists (registrations st0), keys0. split; [by destruct st0|]. intros rid.
    destruct (registrations st0 !! rid) as [[]|]; simpl; [|done].
    unfold extend_inbox, update; simpl. by rewrite app_nil_r. }
  cbn [foldl fst snd].
  assert (∀ rid, (entries_of rid ((s, (seq, id)) :: entries)).*2
    = if decide (s = rid_str rid) then id :: (entries_of rid entries).*2
      else (entries_of rid entries).*2) as Hcons.
  { intros rid. unfold entries_of. rewrite filter_cons. simpl. by case_decide. }
  destruct (registrations st0 !! MkRegistrationId s) as [r|] eqn:Hr.
  - destruct (IH (keys0 ++ [rs_notify r])
      (st0 <| registrations ::= insert (MkRegistrationId s) (push_inbox id r) |>))
      as (regs & keys & Hrun & Hregs).
    exists regs, keys. split; [rewrite Hrun; by destruct st0|].
    intros rid. rewrite Hregs, Hcons. simpl.
    destruct (decide (s = rid_str rid)) as [->|Hne].
    + destruct rid as [s]. simpl in *. rewrite lookup_insert_eq, Hr. simpl.
      unfold extend_inbox, push_inbox, update; simpl. by rewrite <-app_assoc.
    + rewrite lookup_insert_ne; [done|]. intros <-. by apply Hne.
  - destruct (IH keys0 st0) as (regs & keys & -> & Hregs).
    exists regs, keys. split; [done|]. intros rid. rewrite Hregs, Hcons.
    destruct (decide (s = rid_str rid)) as [->|Hne]; [|done].
    destruct rid as [s]. simpl in *. by rewrite Hr.
Qed.

(** The entry of a task: its registration is live and the task waits. *)
Lemma inbox_entry_Some now st id t s e :
  Core st → tasks st !! id = Some t →
  inbox_entry now st (id, t) = Some (s, e) →
  e = (enqueue_sequence t, id) ∧ sh_waiting (shape t) ∧
  ∃ r, registrations st !! MkRegistrationId s = Some r ∧ reg_name r = recipient t.
Proof.
  intros HC Hid. unfold inbox_entry.
  destruct (is_some (delivery t) && _ && _ && _ && _ && _) eqn:Hcond; [|done].
  repeat (apply andb_true_iff in Hcond as [Hcond ?]).
  destruct (registrations_by_agent st !! recipient t) as [rid|] eqn:Hrid; simpl; [|done].
  destruct (registrations st !! rid) as [r|] eqn:Hr; simpl; [|done].
  destruct (now <? _)%Z; [|done]. intros [= <- <-]. split; [done|].
  destruct rid as [s]. split; [|exists r; split; [done|]].
  - split; [|by apply negb_true_iff].
    pose proof (wf_phase _ _ (core_tasks _ HC _ _ Hid)) as Hp. unfold sh_live; simpl.
    destruct (terminal_deadline_unix_ms t); [|done]. destruct Hp as [Hd _ _ _ _ _].
    by rewrite Hd in Hcond.
  - destruct (regs_indexed _ _ _ (core_regs _ HC) _ _ Hrid) as (r' & Hr' & <-). by simplify_eq.
Qed.

Lemma inbox_entry_complete now st id t rid r :
  Core st → unleased (tasks st) → tasks st !! id = Some t → sh_waiting (shape t) →
  registrations st !! rid = Some r → recipient t = reg_name r → (now < reg_expiry r)%Z →
  inbox_entry now st (id, t) = Some (rid_str rid, (enqueue_sequence t, id)).
Proof.
  intros HC Hu Hid [Hlive Ha] Hr Hn Hnow. unfold inbox_entry.
  pose proof (wf_phase _ _ (core_tasks _ HC _ _ Hid)) as Hp.
  unfold sh_live in Hlive. simpl in Hlive, Ha. rewrite Hlive in Hp.
  pose proof (live_fields _ Hp) as [= Hre Hf Hrj Hc He].
  rewrite (live_delivery _ Hp), Ha, Hc, He, Hre, (Hu id t Hid Ha). simpl.
  rewrite Hn, (regs_named _ _ _ (core_regs _ HC) _ _ Hr). simpl. rewrite Hr. simpl.
  unfold reg_expiry in Hnow. by rewrite (proj2 (Z.ltb_lt _ _) Hnow).
Qed.

Definition all_entries (now : Z) st : list (string * Deadline) :=
  merge_sort inbox_entry_le (omap (inbox_entry now st) (map_to_list (tasks st))).

Lemma elem_of_all_entries now st e :
  e ∈ all_entries now st ↔ ∃ id t, tasks st !! id = Some t ∧ inbox_entry now st (id, t) = Some e.
Proof.
  unfold all_entries. rewrite merge_sort_Permutation, list_elem_of_omap. split.
  - intros ([id t] & Ht & He). apply elem_of_map_to_list in Ht. eauto.
  - intros (id & t & Ht & He). exists (id, t). by rewrite elem_of_map_to_list.
Qed.

(** Each task has at most one entry. *)
Lemma NoDup_all_entries now st : Core st → NoDup ((λ e, e.2.2) <$> all_entries now st).
Proof.
  intros HC. unfold all_entries. rewrite merge_sort_Permutation.
  assert (∀ l, (∀ kv, kv ∈ l → tasks st !! kv.1 = Some kv.2) →
    (λ e, e.2.2) <$> omap (inbox_entry now st) l `sublist_of` l.*1) as Hsub.
  { intros l. induction l as [|[id t] l IH]; intros Hl; [done|]. cbn [omap list_omap].
    rewrite (fmap_cons fst). specialize (IH ltac:(set_solver)).
    destruct (inbox_entry now st (id, t)) as [[s e]|] eqn:He; [|by constructor].
    assert (tasks st !! id = Some t) as Hid by (apply (Hl (id, t)); set_solver).
    destruct (inbox_entry_Some now st id t s e HC Hid He) as (-> & _). by constructor. }
  eapply sublist_NoDup; [apply (NoDup_fst_map_to_list (tasks st))|].
  apply Hsub. intros [id t] Ht. by apply elem_of_map_to_list.
Qed.

Lemma entries_sorted now st rid :
  Core st →
  StronglySorted (seq_lt (shapes (tasks st))) (entries_of rid (all_entries now st)).*2.
Proof.
  intros HC. set (l := filter (λ e : string * Deadline, e.1 = rid_str rid) (all_entries now st)).
  assert (∀ e, e ∈ l → ∃ id t, tasks st !! id = Some t ∧
            inbox_entry now st (id, t) = Some e ∧ e.1 = rid_str rid) as Hl.
  { intros e [He1 (id & t & Ht & He)%elem_of_all_entries]%list_elem_of_filter. eauto. }
  eapply sorted_by_sequence; [apply (core_seq _ HC)|..].
  - change (entries_of rid (all_entries now st)) with l.*2.
    assert (StronglySorted inbox_entry_le l) as Hs
      by (apply sorted_filter; apply StronglySorted_merge_sort; apply _).
    clearbody l. induction Hs as [|e l Hs IH Hall]; [constructor|]. cbn. constructor.
    + apply IH. intros e' He'. apply Hl. set_solver.
    + apply Forall_fmap, Forall_forall. intros e' He'. simpl.
      destruct (Hl e) as (? & ? & _ & _ & He1); [set_solver|].
      destruct (Hl e') as (? & ? & _ & _ & He1'); [set_solver|].
      destruct (proj1 (Forall_forall _ _) Hall e' He') as [[Hne _]|[_ Hle]]; [congruence|done].
  - unfold entries_of. rewrite <-list_fmap_compose.
    eapply sublist_NoDup; [apply (NoDup_all_entries now st HC)|].
    apply fmap_sublist, sublist_filter.
  - intros d (e & -> & (id & t & Ht & He & _)%Hl)%list_elem_of_fmap. destruct e as [s d].
    destruct (inbox_entry_Some now st id t s d HC Ht He) as (-> & _). simpl.
    exists (shape t). split; [by apply lookup_shapes_Some|done].
Qed.

(** The refilled inboxes are sound, sorted and complete. *)
Lemma Inv_refilled now st regs :
  Core st → unleased (tasks st) → inboxes_empty (registrations st) →
  (∀ rid, regs !! rid
          = extend_inbox (entries_of rid (all_entries now st)).*2 <$> registrations st !! rid) →
  Inv now (st <| registrations := regs |>).
Proof.
  intros HC Hu Hib Hregs.
  assert (∀ rid r', regs !! rid = Some r' → ∃ r, registrations st !! rid = Some r ∧
    rs_registration r' = rs_registration r ∧
    rs_inbox r' = (entries_of rid (all_entries now st)).*2) as Hback.
  { intros rid r'. rewrite Hregs. intros (r & Hr & ->)%fmap_Some. exists r.
    split_and!; [done..|]. simpl. by rewrite (Hib rid r Hr). }
  split; [split; simpl; try apply HC|].
  - apply (RegsOK_update (registrations st)) with (next := next_registration_epoch st);
      [done| | |apply HC].
    + intros rid. by rewrite Hregs, fmap_is_Some.
    + intros rid r' Hr'. destruct (Hback rid r' Hr') as (r & Hr & Heq & _). exists r.
      unfold reg_name. by rewrite Heq.
  - by apply OwnerOK_unleased.
  - intros rid r' Hr'. destruct (Hback rid r' Hr') as (r & Hr & Heq & ->).
    split; [|by apply entries_sorted]. intros id (d & -> & Hd)%list_elem_of_fmap.
    unfold entries_of in Hd. apply list_elem_of_fmap in Hd as ([s d'] & -> & [Hs He]%list_elem_of_filter).
    simpl in *. subst s. apply elem_of_all_entries in He as (id & t & Ht & He).
    destruct (inbox_entry_Some now st id t _ _ HC Ht He) as (-> & Hw & r0 & Hr0 & Hn).
    exists (shape t). split_and!; [by apply lookup_shapes_Some|done|].
    destruct rid. simpl in Hr0. unfold reg_name in *. rewrite Heq. by simplify_eq.
  - simpl. intros rid r' id s Hr' Hnow Hs Hw Hn.
    destruct (Hback rid r' Hr') as (r & Hr & Heq & ->).
    apply lookup_shapes in Hs as (t & Ht & ->). apply list_elem_of_fmap.
    exists (enqueue_sequence t, id). split; [done|]. apply list_elem_of_fmap.
    exists (rid_str rid, (enqueue_sequence t, id)). split; [done|].
    apply list_elem_of_filter. split; [done|]. apply elem_of_all_entries. exists id, t.
    split; [done|]. unfold reg_expiry, reg_name in *. rewrite Heq in *.
    by eapply inbox_entry_complete.
Qed.
End refill.
