(* ===== verification/BrokerWorld.v ===== *)
(** * State, store and waiters together

    [WInv now w]: the state satisfies the invariant, the store holds the durable
    image of the state unless a reconciliation is due, and every open reply
    channel is attached to a task.  The rules for the commit of a batch, and the
    specification of [reconcile_state_if_required]. *)
From stdpp Require Import prelude gmap strings sorting.
From S2P Require Import Prelude RustStd Model Validation Durability BrokerState BrokerDurable.
From S2P Require Import BrokerMaintain BrokerOps BrokerInv BrokerPrim BrokerTrans BrokerImage.
From S2P Require Import BrokerRecover BrokerRestore.

(** ** Reply channels *)

Section waiters.
Context `{JsonNumber}.
Implicit Types (sh : Shared) (ts : gmap string TaskRecord).

(** Every open channel is attached to a task or about to be resolved. *)
Record WaitOK (pending : list nat) ts sh : Prop := {
  wait_attached : ∀ k, channels sh !! k = Some ChannelOpen → attached ts k ∨ k ∈ pending;
  wait_fresh : ∀ k, is_Some (channels sh !! k) → (k < next_channel sh)%nat;
}.

Lemma lookup_send_reply k result sh k' :
  channels (send_reply k result sh) !! k'
  = match channels sh !! k' with
    | Some ChannelOpen =>
        if decide (k = k') then Some (ChannelResolved result) else Some ChannelOpen
    | c => c
    end.
Proof.
  unfold send_reply. destruct (decide (k = k')) as [<-|Hne].
  - destruct (channels sh !! k) as [[]|] eqn:Hk; simpl; try done. by rewrite lookup_insert_eq.
  - assert (channels (match channels sh !! k with
                      | Some ChannelOpen =>
                          sh <| channels ::= insert k (ChannelResolved result) |>
                      | _ => sh end) !! k' = channels sh !! k') as ->.
    { destruct (channels sh !! k) as [[]|]; simpl; try done. by rewrite lookup_insert_ne. }
    by destruct (channels sh !! k') as [[]|].
Qed.

Lemma send_reply_frame k result sh :
  permits (send_reply k result sh) = permits sh ∧ flags (send_reply k result sh) = flags sh ∧
  next_key (send_reply k result sh) = next_key sh ∧
  directory (send_reply k result sh) = directory sh ∧
  next_channel (send_reply k result sh) = next_channel sh.
Proof. unfold send_reply. by destruct (channels sh !! k) as [[]|]. Qed.

(** The channels after a list of resolutions: an open channel that is named is
    resolved by its first entry, the others are untouched. *)
Lemma lookup_resolve resolutions sh k :
  channels (resolve_reply_waiters resolutions sh) !! k
  = match channels sh !! k with
    | Some ChannelOpen =>
        match list_find (λ r : nat * ReplyResult, r.1 = k) resolutions with
        | Some (_, r) => Some (ChannelResolved r.2)
        | None => Some ChannelOpen
        end
    | c => c
    end.
Proof.
  unfold resolve_reply_waiters. revert sh.
  induction resolutions as [|[k' result] rs IH]; intros sh; simpl.
  - by destruct (channels sh !! k) as [[]|].
  - rewrite IH, lookup_send_reply. destruct (channels sh !! k) as [[]|]; try done.
    destruct (decide (k' = k)) as [Heq|Hne]; [done|].
    by destruct (list_find _ rs) as [[]|].
Qed.

Lemma resolve_open resolutions sh k :
  channels (resolve_reply_waiters resolutions sh) !! k = Some ChannelOpen →
  channels sh !! k = Some ChannelOpen ∧ k ∉ resolutions.*1.
Proof.
  rewrite lookup_resolve. destruct (channels sh !! k) as [[]|]; try done.
  destruct (list_find _ resolutions) as [[]|] eqn:Hf; [done|]. intros _. split; [done|].
  intros ([k' r] & -> & Hin)%list_elem_of_fmap. apply list_find_None in Hf.
  by apply (proj1 (Forall_forall _ _) Hf (k', r)).
Qed.

Lemma resolve_channels_ext resolutions sh sh' :
  channels sh = channels sh' →
  channels (resolve_reply_waiters resolutions sh)
  = channels (resolve_reply_waiters resolutions sh').
Proof. intros Hc. apply map_eq. intros k. by rewrite !lookup_resolve, Hc. Qed.

Lemma resolve_dom resolutions sh k :
  is_Some (channels (resolve_reply_waiters resolutions sh) !! k) ↔ is_Some (channels sh !! k).
Proof.
  rewrite lookup_resolve. destruct (channels sh !! k) as [[]|]; try done.
  destruct (list_find _ resolutions) as [[]|]; split; intros _; by eexists.
Qed.

Lemma resolve_next resolutions sh :
  next_channel (resolve_reply_waiters resolutions sh) = next_channel sh.
Proof.
  unfold resolve_reply_waiters. revert sh.
  induction resolutions as [|[k r] rs IH]; intros sh; simpl; [done|].
  rewrite IH. by destruct (send_reply_frame k r sh) as (_ & _ & _ & _ & ->).
Qed.

(** Resolving the pending channels. *)
Lemma WaitOK_resolve pending ts sh resolutions :
  WaitOK pending ts sh → (∀ k, k ∈ pending → k ∈ resolutions.*1) →
  WaitOK [] ts (resolve_reply_waiters resolutions sh).
Proof.
  intros [Hat Hfr] Hp. split.
  - intros k [Hk Hni]%resolve_open. destruct (Hat k Hk) as [?|Hin]; [by left|].
    by destruct Hni; apply Hp.
  - intros k Hk%resolve_dom. rewrite resolve_next. by apply Hfr.
Qed.

(** Fields of [Shared] that the waiters do not see. *)
Lemma WaitOK_shared pending ts sh sh' :
  channels sh' = channels sh → next_channel sh' = next_channel sh →
  WaitOK pending ts sh → WaitOK pending ts sh'.
Proof. intros Hc Hn [Hat Hfr]. by split; rewrite Hc, ?Hn. Qed.

Lemma WaitOK_tasks pending pending' ts ts' sh :
  (∀ k, attached ts k → attached ts' k ∨ k ∈ pending') →
  (∀ k, k ∈ pending → k ∈ pending') →
  WaitOK pending ts sh → WaitOK pending' ts' sh.
Proof.
  intros Hts Hp [Hat Hfr]. split; [|done]. intros k Hk.
  destruct (Hat k Hk) as [Ha|Ha]; auto.
Qed.

(** One task replaced by one with the same waiters. *)
Lemma attached_update ts id t t' k :
  ts !! id = Some t → reply_waiters t' = reply_waiters t →
  attached ts k → attached (<[id := t']> ts) k.
Proof.
  intros Hid Hw (id' & t0 & Ht0 & Hk). destruct (decide (id = id')) as [<-|Hne].
  - exists id, t'. rewrite lookup_insert_eq. split; [done|]. simplify_eq. by rewrite Hw.
  - exists id', t0. by rewrite lookup_insert_ne.
Qed.

Lemma attached_fmap (f : TaskRecord → TaskRecord) ts k :
  (∀ t, reply_waiters (f t) = reply_waiters t) → attached ts k → attached (f <$> ts) k.
Proof.
  intros Hf (id & t & Ht & Hk). exists id, (f t). by rewrite lookup_fmap, Ht, Hf.
Qed.
End waiters.

(** ** The store *)

Section world.
Context `{JsonNumber} {serde : SerdeJson} {P : Type} {persistence : BrokerPersistence P}.
Context {spec : PersistenceSpec P}.
Implicit Types (w : World P) (st : State) (p : P).

(** The store holds the image of the state unless a reconciliation is due. *)
Record Sync st p : Prop := {
  sync_epoch_le : (next_registration_epoch st ≤ view_epoch (view p))%Z;
  sync_epoch : reconciliation_required st = false →
    view_epoch (view p) = next_registration_epoch st;
  sync_rows : reconciliation_required st = false →
    view_tasks (view p) = durable_rows (tasks st);
}.

Record WInv (now : Z) w : Prop := {
  wi_inv : Inv now (w_state w);
  wi_sync : Sync (w_state w) (w_store w);
  wi_wait : WaitOK [] (tasks (w_state w)) (w_shared w);
}.

Lemma WInv_later now now' w : (now ≤ now')%Z → WInv now w → WInv now' w.
Proof. intros Hle [HI HS HW]. split; [by eapply Inv_later|done..]. Qed.

Lemma apply_batch_epoch b v : (view_epoch v ≤ view_epoch (apply_batch b v))%Z.
Proof. unfold apply_batch; simpl. destruct (batch_registration_epoch_high_watermark b); lia. Qed.

Lemma apply_empty_batch v : apply_batch (MkBatch None [] []) v = v.
Proof. by destruct v. Qed.

Lemma batch_is_empty_eq b : batch_is_empty b = true → b = MkBatch None [] [].
Proof.
  destruct b as [[e|] [|t ts] [|id ids]]; unfold batch_is_empty; simpl; done.
Qed.

(** A delivery identifier no lease uses, in the state or in the store. *)
Definition unused_in_rows (d : DeliveryId) (m : gmap string DurableTask) : Prop :=
  ∀ id row l, m !! id = Some row → dt_lease row = Some l → dl_delivery_id l ≠ d.

Record fresh_delivery (d : DeliveryId) w : Prop := {
  fd_state : ∀ id t l, tasks (w_state w) !! id = Some t → lease t = Some l →
    lease_delivery_id l ≠ d;
  fd_store : unused_in_rows d (view_tasks (view (w_store w)));
}.

Lemma fresh_from_store d w :
  Sync (w_state w) (w_store w) → reconciliation_required (w_state w) = false →
  unused_in_rows d (view_tasks (view (w_store w))) → fresh_delivery d w.
Proof.
  intros HS Hflag Hrows. split; [|done]. intros id t l Ht Hl.
  apply (Hrows id (image id t) (durable_lease t l)).
  - by rewrite (sync_rows _ _ HS Hflag), lookup_durable_rows, Ht.
  - simpl. by rewrite Hl.
Qed.

Lemma fresh_from_state d w :
  Sync (w_state w) (w_store w) → reconciliation_required (w_state w) = false →
  (∀ id t l, tasks (w_state w) !! id = Some t → lease t = Some l → lease_delivery_id l ≠ d) →
  fresh_delivery d w.
Proof.
  intros HS Hflag Hts. split; [done|]. intros id row l.
  rewrite (sync_rows _ _ HS Hflag), lookup_durable_rows. intros (t & Ht & ->)%fmap_Some. simpl.
  intros (l' & Hl & ->)%fmap_Some. by apply (Hts id t).
Qed.

Lemma fresh_lookup now d w :
  Inv now (w_state w) → fresh_delivery d w → tasks_by_delivery (w_state w) !! d = None.
Proof.
  intros HI Hf. apply eq_None_not_Some. intros [id Hid].
  apply (core_deliveries _ (inv_core _ _ HI)) in Hid as (t & l & Ht & Hl & Hd).
  by apply (fd_state _ _ Hf id t l).
Qed.

(** The three ways a commit goes. *)
Lemma wp_persistence_commit b Q X w :
  (∀ p', view p' = apply_batch b (view (w_store w)) → Q Complete (w <| w_store := p' |>)) →
  (∀ p', view p' = view (w_store w) ∨ view p' = apply_batch b (view (w_store w)) →
     Q ReconciliationRequired (w <| w_store := p' |>)) →
  (∀ e p', view p' = view (w_store w) → X e (w <| w_store := p' |>)) →
  wp (persistence_commit b) Q X w.
Proof.
  intros HQ1 HQ2 HX. unfold wp, persistence_commit.
  destruct (commit b (w_store w)) as [[[]|e] p'] eqn:Hc; simpl.
  - apply HQ1. by eapply commit_complete.
  - apply HQ2. by eapply commit_reconcile.
  - apply HX. by eapply commit_err.
Qed.

Lemma wp_persistence_load now Q X w :
  (∀ p' snap, view p' = view (w_store w) → snapshot_of (view (w_store w)) snap →
     Q snap (w <| w_store := p' |>)) →
  (∀ e p', view p' = view (w_store w) → X e (w <| w_store := p' |>)) →
  wp (persistence_load now) Q X w.
Proof.
  intros HQ HX. unfold wp, persistence_load.
  destruct (load now (w_store w)) as [[snap|e] p'] eqn:Hl; simpl.
  - destruct (load_ok _ _ _ _ Hl) as [Hv Hs]. by apply HQ.
  - apply HX. by eapply load_err.
Qed.

(** What a failed commit may leave: nothing, or the request to reconcile. *)
Inductive commit_failed (b : PersistenceBatch) w : World P → Prop :=
| commit_lost p' :
    view p' = view (w_store w) → commit_failed b w (w <| w_store := p' |>)
| commit_unknown p' :
    view p' = view (w_store w) ∨ view p' = apply_batch b (view (w_store w)) →
    commit_failed b w
      (w <| w_store := p' |> <| w_state ::= λ st, st <| reconciliation_required := true |> |>).

Lemma wp_commit_transition b Q X w :
  (∀ p', view p' = apply_batch b (view (w_store w)) → Q tt (w <| w_store := p' |>)) →
  (∀ e w', commit_failed b w w' → X e w') →
  wp (commit_transition b) Q X w.
Proof.
  intros HQ HX. unfold commit_transition, modify_state. wp_steps.
  apply wp_persistence_commit.
  - intros p' Hp'. wp_steps. by apply HQ.
  - intros p' Hp'. wp_steps. apply HX. by apply commit_unknown.
  - intros e p' Hp'. apply HX. by apply commit_lost.
Qed.

Lemma commit_failed_WInv now b w w' : WInv now w → commit_failed b w w' → WInv now w'.
Proof.
  intros [HI [Hle He Hr] HW] [p' Hp'|p' Hp'].
  - split; [done| |done]. split; simpl; by rewrite Hp'.
  - split; [by apply Inv_flag| |done]. split; simpl; try done.
    pose proof (apply_batch_epoch b (view (w_store w))). destruct Hp' as [-> | ->]; lia.
Qed.

(** ** Reconciliation *)

Definition same_reg (r r' : RegistrationState) : Prop :=
  rs_registration r' = rs_registration r ∧ rs_notify r' = rs_notify r ∧
  rs_wait_active r' = rs_wait_active r.

(** The same registrations, with other inboxes. *)
Definition regs_kept (regs regs' : gmap RegistrationId RegistrationState) : Prop :=
  ∀ rid, option_Forall2 same_reg (regs !! rid) (regs' !! rid).

#[global] Instance same_reg_preorder : PreOrder same_reg.
Proof.
  split; [by intros r|]. intros r1 r2 r3 (? & ? & ?) (? & ? & ?). split_and!; congruence.
Qed.

#[global] Instance regs_kept_preorder : PreOrder regs_kept.
Proof.
  split; [intros regs rid; reflexivity|]. intros r1 r2 r3 H12 H23 rid.
  specialize (H12 rid). specialize (H23 rid).
  destruct H12; inversion_clear H23; constructor. by etrans.
Qed.

(** The directory of registrations is as it was. *)
Record registry_kept st st' : Prop := {
  rk_regs : regs_kept (registrations st) (registrations st');
  rk_by_agent : registrations_by_agent st' = registrations_by_agent st;
  rk_retired : retired_registration_ids st' = retired_registration_ids st;
}.

(** The part of the reconciliation that follows the exchange with the store. *)
Definition rebuild (now epoch : Z) (restored : list DurableTask) : ST (World P) DomainError () :=
  let! st := get_state in
  let retained_waiters :=
    filter (λ kv, kv.2 ≠ []) (prod_map id reply_waiters <$> map_to_list (tasks st)) in
  let! _ := modify_state (clear_tasks epoch) in
  let! _ := on_state (restore_tasks restored) in
  let! _ := modify_state (assign_lease_owners now) in
  let! st := get_state in
  let '(st, resolutions) := rewait_all retained_waiters st in
  let entries :=
    merge_sort inbox_entry_le (omap (inbox_entry now st) (map_to_list (tasks st))) in
  let '(st, keys) := push_entries entries st in
  let! _ := modify_state (λ _, st <| reconciliation_required := false |>) in
  let! _ := modify_shared (resolve_reply_waiters resolutions) in
  modify_shared (λ sh, foldl (λ sh key, notify_one key sh) sh keys).

Lemma attached_retained ts k :
  attached ts k →
  ∃ entry, entry ∈ filter (λ kv : string * list nat, kv.2 ≠ [])
                     (prod_map id reply_waiters <$> map_to_list ts) ∧ k ∈ entry.2.
Proof.
  intros (id & t & Ht & Hk). exists (id, reply_waiters t). split; [|done].
  apply list_elem_of_filter. split; [simpl; intros Heq; rewrite Heq in Hk; set_solver|].
  apply list_elem_of_fmap. exists (id, t). split; [done|]. by apply elem_of_map_to_list.
Qed.

Lemma foldl_notify keys sh :
  channels (foldl (λ sh key, notify_one key sh) sh keys) = channels sh ∧
  next_channel (foldl (λ sh key, notify_one key sh) sh keys) = next_channel sh.
Proof.
  revert sh. induction keys as [|k keys IH]; intros sh; simpl; [done|].
  by destruct (IH (notify_one k sh)) as [-> ->].
Qed.

Lemma Restorable_cleared epoch rows st :
  Forall restorable rows → NoDup (dt_task_id <$> rows) → NoDup (omap lease_id rows) →
  (length rows ≤ MAX_RETAINED_TASKS)%nat → Restorable rows (clear_tasks epoch st).
Proof.
  intros Hr Hi Hl Hlen. split; try done; simpl.
  - unfold MAX_RETAINED_TASKS in Hlen. unfold u64_max. lia.
Qed.

Lemma extend_regs_kept (regs regs' : gmap RegistrationId RegistrationState)
    (ids : RegistrationId → list string) :
  (∀ rid, regs' !! rid = extend_inbox (ids rid) <$> regs !! rid) → regs_kept regs regs'.
Proof. intros Hregs rid. rewrite Hregs. by destruct (regs !! rid); constructor. Qed.

Lemma cleared_regs_kept epoch st :
  regs_kept (registrations st) (registrations (clear_tasks epoch st)).
Proof. intros rid. simpl. rewrite lookup_fmap. by destruct (_ !! rid); constructor. Qed.

(** What [rebuild] computes from a cleared and restored state. *)
Lemma rebuild_spec now rows w :
  Core (w_state w) → (next_registration_epoch (w_state w) ≤ view_epoch (view (w_store w)))%Z →
  WaitOK [] (tasks (w_state w)) (w_shared w) →
  Forall restorable rows → NoDup (dt_task_id <$> rows) → NoDup (omap lease_id rows) →
  (length rows ≤ MAX_RETAINED_TASKS)%nat →
  holds_rows (view_tasks (view (w_store w))) rows →
  wp (rebuild now (view_epoch (view (w_store w))) rows)
    (λ _ w', WInv now w' ∧ reconciliation_required (w_state w') = false ∧
             registry_kept (w_state w) (w_state w') ∧ w_store w' = w_store w)
    (λ _ _, False) w.
Proof.
  intros HC Hep HW Hrows Hids Hleases Hlen Hholds.
  unfold rebuild, get_state, modify_state, modify_shared, on_state. wp_steps. apply wp_zoom.
  set (epoch := view_epoch (view (w_store w))). set (st0 := w_state w).
  destruct (Core_cleared epoch st0 HC) as [HC0 Hib0].
  destruct (restore_tasks_run rows (clear_tasks epoch st0))
    as (st1 & Hrun & HC1 & Hreg1 & Hrows1 & Hf1); try done.
  { by apply Restorable_cleared. }
  eapply wp_run; [exact Hrun|]. wp_steps. cbn [w_state].
  assert (unleased (tasks st1)) as Hu1 by (intros id t Ht; apply (Hf1 id t Ht)).
  destruct (assign_lease_owners_ok now st1 HC1 Hu1) as (HC2 & Hu2 & Hrows2 & Hreg2).
  set (st2 := assign_lease_owners now st1) in *.
  set (entries := filter _ _). change (rewait_all entries _) with (rewait_all entries st2).
  destruct (rewait_all_ok entries st2 HC2 Hu2) as [[HC3 Hu3 Hreg3 Hrows3 _] Hk3].
  destruct (rewait_all entries st2) as [st3 resolutions]. cbn [fst snd] in *.
  assert (same_registry (clear_tasks epoch st0) st3) as Hreg by (etrans; [done|by etrans]).
  destruct (push_entries_run (all_entries now st3) st3) as (regs & keys & Hpush & Hregs).
  cbv beta iota zeta. change (merge_sort inbox_entry_le _) with (all_entries now st3).
  rewrite Hpush. cbv beta iota zeta. wp_steps.
  assert (inboxes_empty (registrations st3)) as Hib3 by by rewrite (same_regs _ _ Hreg).
  pose proof (Inv_refilled now st3 regs HC3 Hu3 Hib3 Hregs) as HI.
  split_and!; [|done| |done].
  - split; simpl.
    + by apply (Inv_flag now (st3 <| registrations := regs |>)).
    + split; simpl; rewrite ?(same_epoch _ _ Hreg); simpl; unfold epoch, st0; try lia. intros _.
      rewrite Hrows3, Hrows2, Hrows1. simpl.
      eapply holds_rows_eq; [exact Hholds|by apply upsert_all_holds|done].
    + eapply WaitOK_shared; [apply foldl_notify..|].
      eapply (WaitOK_resolve resolutions.*1); [|done].
      eapply (WaitOK_tasks []); [|set_solver|exact HW].
      intros k (entry & He & Hk)%attached_retained. by eapply Hk3.
  - split; simpl.
    + etrans; [apply (cleared_regs_kept epoch)|]. rewrite <-(same_regs _ _ Hreg).
      exact (extend_regs_kept _ _ (λ rid, (entries_of rid (all_entries now st3)).*2) Hregs).
    + by rewrite (same_by_agent _ _ Hreg).
    + by rewrite (proj1 (same_retired _ _ Hreg)).
Qed.

(** The rows that are restored: sorted, the retained ones only. *)
Definition recovery_order (now : Z) (rows : list DurableTask) : list DurableTask :=
  merge_sort recovery_le (filter (λ t, retained_at now t = true) rows).

Lemma recovery_order_perm now rows :
  Forall (λ row, restorable row ∧ retained_at now row = true) rows →
  recovery_order now rows ≡ₚ rows.
Proof.
  intros Hall. unfold recovery_order. rewrite merge_sort_Permutation.
  induction Hall as [|row rows [_ Hr] _ IH]; [done|].
  rewrite filter_cons, decide_True by done. by rewrite IH.
Qed.

Lemma recovery_order_ok now rows vs m :
  Forall2 (reconciles now) rows vs → NoDup (dt_task_id <$> rows) →
  NoDup (omap lease_id rows) → (length rows ≤ MAX_RETAINED_TASKS)%nat →
  holds_rows m (omap kept vs) →
  let restored := recovery_order now (omap kept vs) in
  Forall restorable restored ∧ NoDup (dt_task_id <$> restored) ∧
  NoDup (omap lease_id restored) ∧ (length restored ≤ MAX_RETAINED_TASKS)%nat ∧
  holds_rows m restored.
Proof.
  intros Hf2 Hids Hleases Hlen Hm restored.
  pose proof (kept_all _ _ _ Hf2) as Hall.
  assert (restored ≡ₚ omap kept vs) as Hperm by by apply recovery_order_perm.
  clearbody restored. split_and!; try rewrite Hperm.
  - eapply Forall_impl; [exact Hall|]. by intros row [? _].
  - eapply sublist_NoDup; [|apply kept_ids_sublist]. by rewrite (verdict_ids _ _ _ Hf2).
  - eapply sublist_NoDup; [exact Hleases|]. by eapply kept_leases_sublist.
  - etrans; [|exact Hlen].
    pose proof (f_equal length (verdict_ids _ _ _ Hf2)) as Hl. rewrite !length_fmap in Hl.
    rewrite <-Hl. pose proof (sublist_length _ _ (kept_ids_sublist vs)) as Hs.
    by rewrite !length_fmap in Hs.
  - intros id row. by rewrite (Hm id row), Hperm.
Qed.

Lemma snapshot_holds p snap :
  snapshot_of (view p) snap → holds_rows (view_tasks (view p)) (snap_tasks snap).
Proof.
  intros (_ & _ & Hs) id row. split.
  - intros Hid. pose proof (view_keyed p _ _ Hid) as <-. by rewrite Hs.
  - intros [Hin <-]. by apply Hs.
Qed.

(** The rows of the store. *)
Definition held_rows w : gmap string DurableTask := view_tasks (view (w_store w)).

(** The store moved, the state did not. *)
Record stale (now : Z) w w' : Prop := {
  stale_state : w_state w' = w_state w;
  stale_shared : w_shared w' = w_shared w;
  stale_epoch : (next_registration_epoch (w_state w) ≤ view_epoch (view (w_store w')))%Z;
  stale_rows : store_evolved now (held_rows w) (held_rows w');
}.

Lemma stale_WInv now w w' :
  WInv now w → reconciliation_required (w_state w) = true → stale now w w' → WInv now w'.
Proof.
  intros [HI _ HW] Hflag [Hst Hsh Hep _]. split; rewrite ?Hst, ?Hsh; [done| |done].
  by split; rewrite ?Hflag.
Qed.

Lemma stale_store now w w1 p :
  stale now w w1 → (view_epoch (view (w_store w1)) ≤ view_epoch (view p))%Z →
  store_evolved now (held_rows w1) (view_tasks (view p)) → stale now w (w1 <| w_store := p |>).
Proof. intros [Hst Hsh Hep Hrows] Hle Hev. split; simpl; [done..|lia|]. by etrans. Qed.

(** A store that has not moved. *)
Lemma stale_same now w w1 p :
  stale now w w1 → view p = view (w_store w1) → stale now w (w1 <| w_store := p |>).
Proof. intros Hst Hv. apply stale_store; [done|by rewrite Hv|]. by rewrite Hv. Qed.

(** Reconciliation makes no lease. *)
Lemma kept_unused now d rows vs m m' :
  Forall2 (reconciles now) rows vs → holds_rows m rows → holds_rows m' (omap kept vs) →
  unused_in_rows d m → unused_in_rows d m'.
Proof.
  intros Hf2 Hm Hm' Hd id row l Hrow Hl. apply Hm' in Hrow as [Hin <-].
  apply elem_of_omap_kept in Hin as [change Hv].
  destruct (reconciles_lookup _ _ _ _ Hf2 Hv) as (row0 & Hin0 & Hrec).
  apply reconciles_kept in Hrec as (_ & _ & _ & _ & [Hn|Heq]); [congruence|].
  apply (Hd (dt_task_id row0) row0); [by apply Hm|congruence].
Qed.

(** The commit of the reconciled rows, then the rebuild. *)
Lemma reconcile_commit_spec now vs rows batch w w1 :
  WInv now w → reconciliation_required (w_state w) = true → stale now w w1 →
  Forall2 (reconciles now) rows vs → NoDup (dt_task_id <$> rows) →
  NoDup (omap lease_id rows) → (length rows ≤ MAX_RETAINED_TASKS)%nat →
  holds_rows (view_tasks (view (w_store w1))) rows →
  batch = MkBatch None (omap changed vs) (omap pruned vs) →
  wp (let! _ :=
        if negb (batch_is_empty batch) then
          let! outcome := persistence_commit batch in
          st_lift (reject_if (bool_decide (outcome = ReconciliationRequired))
                     PersistenceUnavailable)
        else st_ret tt in
      rebuild now (view_epoch (view (w_store w1))) (recovery_order now (omap kept vs)))
    (λ _ w', WInv now w' ∧ reconciliation_required (w_state w') = false ∧
             registry_kept (w_state w) (w_state w') ∧ store_evolved now (held_rows w1) (held_rows w') ∧
             ∀ d, unused_in_rows d (held_rows w1) → fresh_delivery d w')
    (λ _ w', stale now w w') w1.
Proof.
  intros HWI Hflag Hst Hf2 Hids Hleases Hlen Hholds Hb.
  assert (holds_rows (view_tasks (apply_batch batch (view (w_store w1)))) (omap kept vs)) as Hkept.
  { rewrite Hb. by eapply reconciled_view. }
  assert (store_evolved now (held_rows w1) (view_tasks (apply_batch batch (view (w_store w1))))) as Hev
    by by eapply reconciled_evolved.
  assert (∀ p', view p' = apply_batch batch (view (w_store w1)) →
    wp (rebuild now (view_epoch (view (w_store w1))) (recovery_order now (omap kept vs)))
      (λ _ w', WInv now w' ∧ reconciliation_required (w_state w') = false ∧
               registry_kept (w_state w) (w_state w') ∧ store_evolved now (held_rows w1) (held_rows w') ∧
               ∀ d, unused_in_rows d (held_rows w1) → fresh_delivery d w')
      (λ _ w', stale now w w') (w1 <| w_store := p' |>)) as Hrebuild.
  { intros p' Hp'.
    assert (view_epoch (view p') = view_epoch (view (w_store w1))) as Hep
      by by rewrite Hp', Hb.
    assert (holds_rows (view_tasks (view p')) (omap kept vs)) as Hh by by rewrite Hp'.
    destruct (recovery_order_ok now rows vs _ Hf2 Hids Hleases Hlen Hh) as (H1 & H2 & H3 & H4 & H5).
    destruct HWI as [HI _ HW]. destruct Hst as [Hs Hsh Hle _].
    pose proof (rebuild_spec now (recovery_order now (omap kept vs)) (w1 <| w_store := p' |>))
      as Hspec. simpl in Hspec. rewrite Hs, Hsh, Hep in Hspec.
    eapply wp_mono; [apply Hspec; try done; apply HI| |done].
    intros _ w' (HW' & Hf' & Hreg & Hst'). split_and!; [done..| |].
    { unfold held_rows at 2. by rewrite Hst', Hp'. }
    intros d Hd.
    apply fresh_from_store; [apply HW'|done|]. rewrite Hst'. by eapply kept_unused. }
  wp_step. apply wp_if; intros Hempty.
  - wp_step. apply wp_persistence_commit.
    + intros p' Hp'. wp_step; [intros _; by apply Hrebuild|done].
    + intros p' Hp'. wp_step; [done|intros _]. destruct Hp' as [Hp'|Hp']; [by apply stale_same|].
      apply stale_store; rewrite ?Hp'; [done|apply apply_batch_epoch|done].
    + intros e p' Hp'. by apply stale_same.
  - apply wp_ret. apply negb_false_iff, batch_is_empty_eq in Hempty.
    replace w1 with (w1 <| w_store := w_store w1 |>) by by destruct w1.
    apply Hrebuild. by rewrite Hempty, apply_empty_batch.
Qed.

Lemma reconcile_spec clk now w :
  WInv clk w → (clk ≤ now)%Z →
  wp (reconcile_state_if_required now)
    (λ _ w', WInv now w' ∧ reconciliation_required (w_state w') = false ∧
             registry_kept (w_state w) (w_state w') ∧
             (reconciliation_required (w_state w) = false → w' = w) ∧
             store_evolved now (held_rows w) (held_rows w') ∧
             ∀ d, fresh_delivery d w → fresh_delivery d w')
    (λ _ w', stale now w w' ∧ reconciliation_required (w_state w) = true) w.
Proof.
  intros HWI Hle. apply (WInv_later _ now) in HWI; [|done]. clear clk Hle.
  unfold reconcile_state_if_required, get_state at 1. wp_steps.
  destruct (reconciliation_required (w_state w)) eqn:Hflag; cbn [negb].
  2: { wp_steps. by split_and!. }
  assert (∀ w', stale now w w' → stale now w w' ∧ true = true) as HX by by intros.
  assert (stale now w w) as Hst0 by (split; [done..|apply HWI|done]).
  wp_steps. apply wp_persistence_commit.
  2: { intros p' Hp'. wp_steps. wp_step; [done|intros _]. apply HX, stale_same; [done|].
       rewrite apply_empty_batch in Hp'. by destruct Hp'. }
  2: { intros e p' Hp'. by apply HX, stale_same. }
  intros p1 Hp1. rewrite apply_empty_batch in Hp1. wp_steps. wp_step; [intros _|done]. wp_steps.
  apply wp_persistence_load.
  2: { intros e p' Hp'. simpl in Hp'.
       by apply HX, stale_same; [apply stale_same|]. }
  intros p2 snap Hp2 Hsnap. simpl in Hp2, Hsnap.
  set (w2 := w <| w_store := p1 |> <| w_store := p2 |>).
  assert (stale now w w2) as Hst2 by by apply stale_same; [apply stale_same|].
  assert (view (w_store w2) = view (w_store w)) as Hv2 by (simpl; congruence).
  wp_steps. wp_step; [intros _|intros _; by apply HX]. wp_steps.
  apply wp_lift_no_panic; [apply reconcile_snapshot_no_panic| |intros e _; by apply HX].
  intros [[restored batch] report] Hrec.
  apply reconcile_snapshot_done in Hrec as (vs & Hf2 & Hids & Hleases & -> & Hb & Hlen).
  pose proof Hsnap as (Hep & _ & _). rewrite Hp1 in Hsnap, Hep. rewrite Hep, <-Hv2.
  eapply wp_mono; [apply (reconcile_commit_spec now vs (snap_tasks snap) batch w w2); try done|..].
  - rewrite Hv2. by apply snapshot_holds.
  - cbv beta. intros _ w' (? & ? & ? & Hev & Hfr). split_and!; [done..| |].
    + unfold held_rows at 1. by rewrite <-Hv2.
    + intros d [_ Hd]. apply Hfr. unfold held_rows. by rewrite Hv2.
  - intros e w' ?. by apply HX.
Qed.
(** A reconciliation that returned. *)
Lemma reconcile_rows clk now w w1 :
  WInv clk w → (clk ≤ now)%Z → reconcile_state_if_required now w = (Done tt, w1) →
  WInv now w1 ∧ store_evolved now (held_rows w) (held_rows w1).
Proof.
  intros HWI Hle Hrun. pose proof (reconcile_spec clk now w HWI Hle) as Hwp.
  eapply wp_done in Hwp; [|exact Hrun]. by destruct Hwp as (? & _ & _ & _ & ? & _).
Qed.
End world.
