(* ===== verification/BrokerUpkeep.v ===== *)
(** * [maintain_state]

    The batch the maintenance commits, the state it leaves, and that the two
    agree: no live task is past its delivery deadline, no registration is past its
    expiry, no terminal task is past its retention, and every lease of an expired
    registration is back in the queue. *)
From stdpp Require Import prelude gmap strings sorting.
From S2P Require Import Prelude RustStd Model Validation Durability BrokerState BrokerDurable.
From S2P Require Import BrokerMaintain BrokerOps BrokerInv BrokerPrim BrokerTrans BrokerImage.
From S2P Require Import BrokerRecover BrokerRestore BrokerWorld.

(** ** The batch *)

Section batch.
Context `{JsonNumber}.
Implicit Types (st : State) (t : TaskRecord) (ts : gmap string TaskRecord).

Definition is_due (now : Z) t : bool :=
  is_none (terminal_deadline_unix_ms t)
  && (qd_created_unix_ms (original_delivery t) + DELIVERY_TTL_MS <=? now)%Z.

(** The keys of the tasks that satisfy a test. *)
Definition keys_where (test : string → TaskRecord → bool) ts : list string :=
  omap (λ kv, if test kv.1 kv.2 then Some kv.1 else None) (map_to_list ts).

Lemma elem_of_keys_where test ts id :
  id ∈ keys_where test ts ↔ ∃ t, ts !! id = Some t ∧ test id t = true.
Proof.
  unfold keys_where. rewrite list_elem_of_omap. split.
  - intros ([k t] & Hkt & Hk). apply elem_of_map_to_list in Hkt. simpl in Hk.
    destruct (test k t) eqn:Ht; [|done]. simplify_eq. eauto.
  - intros (t & Ht & Htest). exists (id, t). rewrite elem_of_map_to_list. simpl.
    by rewrite Htest.
Qed.

Lemma NoDup_keys_where test ts : NoDup (keys_where test ts).
Proof.
  eapply sublist_NoDup; [apply (NoDup_fst_map_to_list ts)|]. unfold keys_where.
  induction (map_to_list ts) as [|[k t] l IH]; [done|]. cbn.
  destruct (test k t); by constructor.
Qed.

Lemma try_filter_map_done {E A B} (f : A → Outcome E (option B)) (g : A → option B) l :
  (∀ a, a ∈ l → f a = Done (g a)) → try_filter_map f l = Done (omap g l).
Proof.
  unfold try_filter_map. intros Hf.
  assert (try_map f l = Done (g <$> l)) as ->.
  { apply try_map_Forall2, Forall2_fmap_r, Forall_Forall2_diag, Forall_forall. auto. }
  simpl. f_equal. induction l as [|a l IH]; [done|]. cbn. rewrite IH by set_solver. done.
Qed.

Lemma due_task_id_run now id t :
  task_wf id t → due_task_id now (id, t) = Done (if is_due now t then Some id else None).
Proof.
  intros Hwf. unfold due_task_id, is_due. pose proof (wf_phase _ _ Hwf) as Hp.
  destruct (terminal_deadline_unix_ms t); [done|]. rewrite (live_delivery _ Hp).
  destruct (wf_deadline _ _ Hwf) as [d Hd]. rewrite Hd. apply checked_Some in Hd as [-> _]. done.
Qed.

Lemma due_run now st :
  Core st →
  try_filter_map (due_task_id now) (map_to_list (tasks st))
  = Done (keys_where (λ _, is_due now) (tasks st)).
Proof.
  intros HC. unfold keys_where. apply try_filter_map_done. intros [id t] Ht.
  apply due_task_id_run. apply HC. by apply elem_of_map_to_list.
Qed.

(** An unacknowledged lease of an expired registration, not itself due. *)
Definition is_orphan (now : Z) (expired : gset RegistrationCredentials) t : bool :=
  negb (is_due now t) && negb (acknowledged t)
  && match lease t with
     | Some l => from_option (λ c, bool_decide (c ∈ expired)) false (lease_owner l)
     | None => false
     end.

Lemma requeue_upsert_run now expired st id t :
  tasks st !! id = Some t →
  requeue_upsert (keys_where (λ _, is_due now) (tasks st)) expired (id, t)
  = if is_orphan now expired t
    then out_bind (durable_requeued_task id t) (λ row, Done (Some row)) else Done None.
Proof.
  intros Hid. unfold requeue_upsert, is_orphan.
  assert (bool_decide (id ∈ keys_where (λ _, is_due now) (tasks st)) = is_due now t) as ->.
  { apply eq_bool_prop_intro. rewrite bool_decide_spec, elem_of_keys_where.
    split; [|intros Hd%Is_true_true; eauto].
    intros (t' & Ht' & Hd). simplify_eq. by apply Is_true_true. }
  done.
Qed.

(** What the rows of the batch say of the tasks. *)
Record BatchOK (now : Z) (expired : gset RegistrationCredentials) st
    (due : list string) (batch : PersistenceBatch) : Prop := {
  bo_due : due = keys_where (λ _, is_due now) (tasks st);
  bo_epoch : batch_registration_epoch_high_watermark batch = None;
  bo_deletes : ∀ id, id ∈ batch_delete_task_ids batch ↔
    ∃ t, tasks st !! id = Some t ∧ overdue now t = true;
  bo_ids : NoDup (dt_task_id <$> batch_upsert_tasks batch);
  bo_rows : ∀ row, row ∈ batch_upsert_tasks batch ↔
    ∃ t, tasks st !! dt_task_id row = Some t ∧
      ((is_due now t = true ∧
        ∃ v d, checked_add_u64 (state_version t) 1 = Some v ∧
          checked_add_i64 now TERMINAL_RETENTION_MS = Some d ∧
          row = image (dt_task_id row) (terminal_record now d v TerminalExpired t)) ∨
       (is_orphan now expired t = true ∧
        checked_add_u64 (state_version t) 1 = Some (state_version t + 1)%Z ∧
        row = image (dt_task_id row) (requeued_record t)));
  bo_due_ok : ∀ id t, tasks st !! id = Some t → is_due now t = true →
    ∃ v d, checked_add_u64 (state_version t) 1 = Some v ∧
      checked_add_i64 now TERMINAL_RETENTION_MS = Some d;
  bo_orphan_ok : ∀ id t, tasks st !! id = Some t → is_orphan now expired t = true →
    checked_add_u64 (state_version t) 1 = Some (state_version t + 1)%Z;
}.

Lemma elem_of_expired_registrations now st rid :
  rid ∈ expired_registrations now st ↔
  ∃ r, registrations st !! rid = Some r ∧ (reg_expiry r ≤ now)%Z.
Proof.
  unfold expired_registrations. rewrite list_elem_of_fmap. split.
  - intros ([k r] & -> & [Hexp Hr]%list_elem_of_filter). apply elem_of_map_to_list in Hr. eauto.
  - intros (r & Hr & Hexp). exists (rid, r). split; [done|]. apply list_elem_of_filter.
    split; [done|]. by apply elem_of_map_to_list.
Qed.

Lemma NoDup_expired_registrations now st : NoDup (expired_registrations now st).
Proof.
  eapply sublist_NoDup; [apply (NoDup_fst_map_to_list (registrations st))|].
  apply fmap_sublist, sublist_filter.
Qed.

Definition expired_credentials (now : Z) st : gset RegistrationCredentials :=
  list_to_set (omap (λ id, (λ r, credentials (rs_registration r)) <$> registrations st !! id)
                 (expired_registrations now st)).

Lemma elem_of_expired_credentials now st c :
  c ∈ expired_credentials now st ↔
  ∃ rid r, registrations st !! rid = Some r ∧ (reg_expiry r ≤ now)%Z ∧ c = reg_credentials r.
Proof.
  unfold expired_credentials. rewrite elem_of_list_to_set, list_elem_of_omap. split.
  - intros (rid & (r & Hr & Hexp)%elem_of_expired_registrations & Hc). rewrite Hr in Hc.
    simplify_eq/=. eauto 10.
  - intros (rid & r & Hr & Hexp & ->). exists rid. rewrite Hr. split; [|done].
    apply elem_of_expired_registrations. eauto.
Qed.

Lemma expiring_rows now st due rows :
  try_map (expiring_upsert now st) due = Done rows →
  Forall2 (λ id row, dt_task_id row = id ∧ ∃ t v d, tasks st !! id = Some t ∧
    checked_add_u64 (state_version t) 1 = Some v ∧
    checked_add_i64 now TERMINAL_RETENTION_MS = Some d ∧
    row = image id (terminal_record now d v TerminalExpired t)) due rows.
Proof.
  intros Hrows%try_map_Forall2. eapply Forall2_impl; [exact Hrows|].
  intros id row. unfold expiring_upsert. destruct (tasks st !! id) as [t|] eqn:Ht; [|done].
  simpl. intros Hrow%(durable_terminal_done id t now TerminalExpired).
  destruct Hrow as (v & d & Hv & Hd & ->). split; [done|]. eauto 10.
Qed.

Lemma expiring_no_panic now st due :
  (∀ id, id ∈ due → is_Some (tasks st !! id)) → no_panic (try_map (expiring_upsert now st) due).
Proof.
  intros Hdue. pose proof (try_map_not_done (expiring_upsert now st) due) as Ht.
  destruct (try_map _ _) as [| |msg]; [done..|]. destruct Ht as (id & Hid & Hrun).
  destruct (Hdue id Hid) as [t Htk]. unfold expiring_upsert in Hrun. rewrite Htk in Hrun.
  simpl in Hrun. unfold durable_terminal_task, durable_task, next_state_version, or_unavailable in Hrun.
  by repeat (destruct (checked_add_i64 _ _); simpl in Hrun; try done);
    destruct (checked_add_u64 _ _); simpl in Hrun; try done;
    destruct (checked_add_i64 _ _).
Qed.

(** A lease that is not acknowledged belongs to a live task. *)
Lemma orphan_live now expired id t :
  task_wf id t → is_orphan now expired t = true →
  live t ∧ acknowledged t = false ∧ is_due now t = false.
Proof.
  intros Hwf Ho. unfold is_orphan in Ho.
  apply andb_true_iff in Ho as [[Hd%negb_true_iff Ha%negb_true_iff]%andb_true_iff Hl].
  split_and!; [|done..]. pose proof (wf_phase _ _ Hwf) as Hp. unfold live.
  destruct (terminal_deadline_unix_ms t); [|done]. destruct Hp as [_ Hlease _ _ _ _].
  by rewrite Hlease in Hl.
Qed.

Definition requeue_row (now : Z) (expired : gset RegistrationCredentials)
    (kv : string * TaskRecord) : Outcome DomainError (option DurableTask) :=
  if is_orphan now expired kv.2
  then out_bind (durable_requeued_task kv.1 kv.2) (λ row, Done (Some row)) else Done None.

Lemma requeue_rows now expired st l os :
  Core st → (∀ kv, kv ∈ l → tasks st !! kv.1 = Some kv.2) → NoDup l.*1 →
  Forall2 (λ kv o, requeue_row now expired kv = Done o) l os →
  NoDup (dt_task_id <$> omap id os) ∧
  (∀ row, row ∈ omap id os → dt_task_id row ∈ l.*1) ∧
  (∀ row, row ∈ omap id os ↔ ∃ k t, (k, t) ∈ l ∧ k = dt_task_id row ∧
     is_orphan now expired t = true ∧
     checked_add_u64 (state_version t) 1 = Some (state_version t + 1)%Z ∧
     row = image k (requeued_record t)) ∧
  (∀ k t, (k, t) ∈ l → is_orphan now expired t = true →
     checked_add_u64 (state_version t) 1 = Some (state_version t + 1)%Z).
Proof.
  intros HC Hl Hnd Hf2. revert Hl Hnd.
  induction Hf2 as [|[k t] o l os Ho Hf2 IH]; intros Hl Hnd.
  { cbn. split_and!; [constructor|set_solver|set_solver|set_solver]. }
  rewrite fmap_cons in Hnd. apply NoDup_cons in Hnd as [Hk Hnd]. simpl in Hk.
  destruct IH as (H1 & H2 & H3 & H4); [set_solver|done|].
  assert (tasks st !! k = Some t) as Ht by (apply (Hl (k, t)); set_solver).
  unfold requeue_row in Ho. simpl in Ho. destruct (is_orphan now expired t) eqn:Horph.
  - destruct (durable_requeued_task k t) as [row0|e|m] eqn:Hrow; [|done..]. simpl in Ho.
    injection Ho as <-.
    destruct (orphan_live _ _ k t (core_tasks _ HC _ _ Ht) Horph) as (Hlive & Ha & _).
    apply durable_requeued_done in Hrow as [Hv ->]; [|by apply HC|done..].
    change (omap id (Some (image k (requeued_record t)) :: os))
      with (image k (requeued_record t) :: omap id os).
    split_and!.
    + rewrite fmap_cons. apply NoDup_cons. split; [|done]. simpl.
      intros (row & Heq & Hin)%list_elem_of_fmap. apply Hk. rewrite Heq. by apply H2.
    + intros row [->|Hin]%elem_of_cons; simpl; [set_solver|]. apply H2 in Hin. set_solver.
    + intros row. rewrite elem_of_cons, H3. split.
      * intros [->|(k' & t' & Hin & ?)].
        -- exists k, t. split_and!; try done. set_solver.
        -- exists k', t'. split; [set_solver|done].
      * intros (k' & t' & Hin & Hk' & Ho' & Hv' & Hrow).
        apply elem_of_cons in Hin as [[= -> ->]|Hin]; [by left|right; eauto 10].
    + intros k' t' [[= -> ->]|Hin]%elem_of_cons Ho'; [done|by eapply H4].
  - injection Ho as <-. change (omap id (None :: os)) with (omap id os). split_and!.
    + done.
    + intros row Hin. apply H2 in Hin. set_solver.
    + intros row. rewrite H3. split; intros (k' & t' & Hin & Hk' & Ho' & Hrest).
      * exists k', t'. split; [set_solver|done].
      * apply elem_of_cons in Hin as [[= -> ->]|Hin]; [congruence|eauto 10].
    + intros k' t' [[= -> ->]|Hin]%elem_of_cons Ho'; [congruence|by eapply H4].
Qed.

Lemma requeue_map_eq now expired st :
  try_map (requeue_upsert (keys_where (λ _, is_due now) (tasks st)) expired)
    (map_to_list (tasks st))
  = try_map (requeue_row now expired) (map_to_list (tasks st)).
Proof.
  assert (∀ l, (∀ kv, kv ∈ l → tasks st !! kv.1 = Some kv.2) →
    try_map (requeue_upsert (keys_where (λ _, is_due now) (tasks st)) expired) l
    = try_map (requeue_row now expired) l) as Heq.
  { intros l. induction l as [|[k t] l IH]; intros Hl; [done|]. cbn [try_map].
    rewrite (requeue_upsert_run now expired st k t) by (apply (Hl (k, t)); set_solver).
    by rewrite IH by set_solver. }
  apply Heq. intros [k t] Ht. by apply elem_of_map_to_list.
Qed.

Lemma requeue_row_no_panic now expired kv : no_panic (requeue_row now expired kv).
Proof.
  unfold requeue_row, durable_requeued_task, durable_task, next_state_version, or_unavailable.
  destruct (is_orphan _ _ _); auto 10 with herdr.
Qed.

Lemma maintenance_batch_no_panic now st : Core st → no_panic (maintenance_batch now st).
Proof.
  intros HC. unfold maintenance_batch, try_filter_map at 2. rewrite (due_run now st HC). simpl.
  apply no_panic_bind; [|intros rows].
  - apply expiring_no_panic. intros id (t & Ht & _)%elem_of_keys_where. by eexists.
  - rewrite requeue_map_eq. auto using requeue_row_no_panic with herdr.
Qed.

Lemma maintenance_batch_ok now st due expired batch :
  Core st → maintenance_batch now st = Done (due, expired, batch) →
  expired = expired_credentials now st ∧ BatchOK now expired st due batch.
Proof.
  intros HC. unfold maintenance_batch, try_filter_map at 2. rewrite (due_run now st HC). simpl.
  set (due0 := keys_where _ _). set (expired0 := list_to_set _).
  destruct (try_map (expiring_upsert now st) due0) as [rows1|e|m] eqn:Hrows1; [|done..].
  simpl. unfold due0. rewrite requeue_map_eq.
  destruct (try_map (requeue_row now expired0) _) as [os|e|m] eqn:Hos; [|done..]. simpl.
  intros [= <- <- <-]. split; [done|].
  apply expiring_rows in Hrows1. apply try_map_Forall2 in Hos.
  destruct (requeue_rows now expired0 st (map_to_list (tasks st)) os) as (H1 & H2 & H3 & H4);
    [done|by intros [k t] ?%elem_of_map_to_list|apply NoDup_fst_map_to_list|done|].
  assert (∀ row, row ∈ rows1 → dt_task_id row ∈ due0 ∧ ∃ t v d,
    tasks st !! dt_task_id row = Some t ∧ checked_add_u64 (state_version t) 1 = Some v ∧
    checked_add_i64 now TERMINAL_RETENTION_MS = Some d ∧
    row = image (dt_task_id row) (terminal_record now d v TerminalExpired t)) as Hin1.
  { intros row Hrow. apply list_elem_of_lookup in Hrow as [i Hi].
    destruct (Forall2_lookup_r _ _ _ _ _ Hrows1 Hi) as (id & Hid & Heq & Hex). subst id.
    split; [by eapply list_elem_of_lookup_2|done]. }
  assert (∀ id t, tasks st !! id = Some t → is_due now t = true →
    ∃ row, row ∈ rows1 ∧ dt_task_id row = id ∧ ∃ v d,
      checked_add_u64 (state_version t) 1 = Some v ∧
      checked_add_i64 now TERMINAL_RETENTION_MS = Some d ∧
      row = image id (terminal_record now d v TerminalExpired t)) as Hdue1.
  { intros id t Ht Hd. assert (id ∈ due0) as Hin by (apply elem_of_keys_where; eauto).
    apply list_elem_of_lookup in Hin as [i Hi].
    destruct (Forall2_lookup_l _ _ _ _ _ Hrows1 Hi) as (row & Hrow & Heq & t' & v & d & Ht' & ?).
    simplify_eq. exists row. split; [by eapply list_elem_of_lookup_2|eauto 10]. }
  split; try done; simpl.
  - intros id. rewrite list_elem_of_fmap. split.
    + intros ([k t] & -> & [Hd Ht]%list_elem_of_filter). apply elem_of_map_to_list in Ht. eauto.
    + intros (t & Ht & Hd). exists (id, t). split; [done|]. apply list_elem_of_filter.
      split; [done|]. by apply elem_of_map_to_list.
  - rewrite fmap_app. apply NoDup_app. split_and!; [| |done].
    + assert (dt_task_id <$> rows1 = due0) as ->; [|apply NoDup_keys_where].
      clear -Hrows1. induction Hrows1 as [|id row l rows [Heq _] _ IH]; [done|].
      cbn. by rewrite Heq, IH.
    + intros id (row & -> & Hrow)%list_elem_of_fmap (row' & Heq & Hrow')%list_elem_of_fmap.
      apply H3 in Hrow' as (k & t & Hkt & -> & Ho & _). apply elem_of_map_to_list in Hkt.
      destruct (Hin1 row Hrow) as [Hd _]. apply elem_of_keys_where in Hd as (t' & Ht' & Hd).
      rewrite Heq in Ht'. simplify_eq. unfold is_orphan in Ho. by rewrite Hd in Ho.
  - intros row. rewrite elem_of_app. split.
    + intros [Hrow|Hrow].
      * destruct (Hin1 row Hrow) as (Hd & t & v & d & Ht & Hv & Hdl & Hr).
        apply elem_of_keys_where in Hd as (t' & Ht' & Hd). simplify_eq. eauto 10.
      * apply H3 in Hrow as (k & t & Hkt & -> & Ho & Hv & Hr). apply elem_of_map_to_list in Hkt.
        eauto 10.
    + intros (t & Ht & [(Hd & v & d & Hv & Hdl & Hr)|(Ho & Hv & Hr)]).
      * left. destruct (Hdue1 _ _ Ht Hd) as (row' & Hrow' & Heq & v' & d' & Hv' & Hdl' & Hr').
        simplify_eq. rewrite Hr. congruence.
      * right. apply H3. exists (dt_task_id row), t. rewrite elem_of_map_to_list. eauto 10.
  - intros id t Ht Hd. destruct (Hdue1 _ _ Ht Hd) as (_ & _ & _ & v & d & ? & ? & _). eauto.
  - intros id t Ht Ho. eapply H4; [by apply elem_of_map_to_list|done].
Qed.
End batch.

(** ** The writes *)

(** What the writes of the maintenance leave alone. *)
Record upkeep_frame `{JsonNumber} (st st' : State) : Prop := {
  uf_epoch : next_registration_epoch st' = next_registration_epoch st;
  uf_flag : reconciliation_required st' = reconciliation_required st;
  uf_sequence : next_task_sequence st' = next_task_sequence st;
  uf_event : last_event st' = last_event st;
}.

#[global] Instance upkeep_frame_preorder `{JsonNumber} : PreOrder upkeep_frame.
Proof. split; [by split|]. intros st1 st2 st3 [] []. split; congruence. Qed.

Section writes.
Context `{JsonNumber}.
Implicit Types (st : State) (t : TaskRecord).

Definition expire (now : Z) t : TaskRecord :=
  terminal_record now (now + TERMINAL_RETENTION_MS) (state_version t + 1) TerminalExpired t.

Lemma terminalized_registry id now d v o t st :
  registry_kept st (terminalized id now d v o t st).
Proof.
  split; [|done..]. intros rid. simpl. rewrite retain_at_lookup.
  case_bool_decide; destruct (registrations st !! rid); by repeat constructor.
Qed.

Lemma expire_tasks_run clk now ids st :
  Inv clk st → NoDup ids →
  (∀ id, id ∈ ids → ∃ t v d, tasks st !! id = Some t ∧ live t ∧
     checked_add_u64 (state_version t) 1 = Some v ∧
     checked_add_i64 now TERMINAL_RETENTION_MS = Some d) →
  ∃ waiters st', expire_tasks now ids st = (Done waiters, st') ∧ Inv clk st' ∧
    (∀ id, tasks st' !! id = if bool_decide (id ∈ ids) then expire now <$> tasks st !! id
                             else tasks st !! id) ∧
    registry_kept st st' ∧ upkeep_frame st st' ∧
    (∀ id t k, id ∈ ids → tasks st !! id = Some t → k ∈ reply_waiters t → k ∈ waiters).
Proof.
  revert st. induction ids as [|i ids IH]; intros st HI Hnd Hok.
  { exists [], st. split_and!; [done..|by split|done|set_solver]. }
  apply NoDup_cons in Hnd as [Hi Hnd].
  destruct (Hok i) as (t & v & d & Ht & Hlive & Hv & Hd); [set_solver|].
  cbn [expire_tasks]. unfold st_bind at 1.
  rewrite (terminalize_task_run i now TerminalExpired st t d v) by done.
  apply checked_Some in Hv as [-> _]. pose proof Hd as Hd'. apply checked_Some in Hd' as [-> _].
  set (st1 := terminalized _ _ _ _ _ _ _).
  assert (∀ id, tasks st1 !! id = if decide (i = id) then Some (expire now t)
                                  else tasks st !! id) as Hst1.
  { intros id. simpl. by rewrite lookup_insert. }
  destruct (IH st1) as (waiters & st' & Hrun & HI' & Hts & Hreg & Hfr & Hw); [|done|..].
  - by apply Inv_terminalized.
  - intros id Hid. rewrite Hst1, decide_False by (intros ->; done). apply Hok. set_solver.
  - exists (reply_waiters t ++ waiters), st'. unfold st_bind. rewrite Hrun.
    split_and!; try done.
    + intros id. rewrite Hts, Hst1. destruct (decide (i = id)) as [<-|Hne].
      * rewrite bool_decide_false, bool_decide_true by set_solver. by rewrite Ht.
      * destruct (decide (id ∈ ids)) as [Hin|Hin].
        -- by rewrite !bool_decide_true by set_solver.
        -- by rewrite !bool_decide_false by set_solver.
    + assert (registry_kept st st1) as [A B C] by apply terminalized_registry.
      destruct Hreg as [A' B' C']. split; [by etrans|congruence..].
    + etrans; [|done]. by split.
    + intros id t' k [->|Hid]%elem_of_cons Ht' Hk; apply elem_of_app.
      * left. by simplify_eq.
      * right. apply (Hw id t'); [done| |done]. rewrite Hst1, decide_False by (intros ->; done). done.
Qed.

(** *** The versions of the requeued tasks *)

Definition leased_to_any (cs : list RegistrationCredentials) t : bool :=
  existsb (λ c, leased_to c t) cs.

Definition bump_any (cs : list RegistrationCredentials) t : TaskRecord :=
  if leased_to_any cs t then t <| state_version ::= λ v, (v + 1)%Z |> else t.

Lemma leased_to_unique c c' t : leased_to c t = true → leased_to c' t = true → c = c'.
Proof.
  intros (_ & l & Hl & Ho)%leased_to_iff (_ & l' & Hl' & Ho')%leased_to_iff. congruence.
Qed.

Lemma bump_any_cons c cs t :
  c ∉ cs → bump_any cs (bump_task c t) = bump_any (c :: cs) t.
Proof.
  intros Hc. unfold bump_any. cbn.
  assert (leased_to_any cs (bump_task c t) = leased_to_any cs t) as ->.
  { unfold leased_to_any. clear Hc. induction cs as [|c' cs IH]; [done|]. cbn.
    by rewrite leased_to_bump, IH. }
  unfold bump_task. destruct (leased_to c t) eqn:Hl; [|done]. simpl.
  assert (leased_to_any cs t = false) as ->; [|done].
  unfold leased_to_any. apply not_true_is_false. rewrite existsb_exists.
  intros (c' & Hin%list_elem_of_In & Hl'). by rewrite (leased_to_unique _ _ _ Hl Hl') in Hc.
Qed.

Lemma bump_all_run clk cs st :
  Inv clk st → NoDup cs → (∀ c, c ∈ cs → can_requeue c st) →
  for_each bump_requeued_versions_for_credentials cs st
    = (Done tt, st <| tasks ::= fmap (bump_any cs) |>) ∧
  Inv clk (st <| tasks ::= fmap (bump_any cs) |>).
Proof.
  revert st. induction cs as [|c cs IH]; intros st HI Hnd Hcan.
  { assert (st <| tasks ::= fmap (bump_any []) |> = st) as ->; [|done].
    destruct st. unfold update; simpl. f_equal. apply map_fmap_id. }
  apply NoDup_cons in Hnd as [Hc Hnd]. cbn [for_each]. unfold st_bind at 1.
  rewrite bump_run by (apply Hcan; set_solver).
  set (st1 := st <| tasks ::= fmap (bump_task c) |>).
  assert (st <| tasks ::= fmap (bump_any (c :: cs)) |> = st1 <| tasks ::= fmap (bump_any cs) |>)
    as ->.
  { destruct st. unfold st1, update; simpl. f_equal. rewrite <-map_fmap_compose.
    apply map_fmap_ext. intros id t _. symmetry. by apply bump_any_cons. }
  apply IH; [by apply Inv_bump|done|].
  intros c' Hc' id t'. simpl. rewrite lookup_fmap. intros (t & Ht & ->)%fmap_Some.
  rewrite leased_to_bump. intros Hl.
  assert (leased_to c t = false) as Hlc.
  { apply not_true_is_false. intros Hl'. by rewrite (leased_to_unique _ _ _ Hl' Hl) in Hc. }
  unfold bump_task. rewrite Hlc. eapply Hcan; [|done..]. set_solver.
Qed.
End writes.

(** ** Detaching the expired registrations *)

Section detach_all.
Context `{JsonNumber} {P : Type}.
Implicit Types (w : World P) (st : State) (t : TaskRecord).

(** A lease of one of the registrations [ids]. *)
Definition lost (ids : list RegistrationId) (regs : gmap RegistrationId RegistrationState) t
    : bool :=
  existsb (λ rid, match regs !! rid with
                  | Some r => leased_to (reg_credentials r) t
                  | None => false
                  end) ids.

Definition drop_lost (ids : list RegistrationId) regs t : TaskRecord :=
  if lost ids regs t then t <| lease := None |> else t.

Lemma detached_frame rid r st st' : Detached rid r st st' → upkeep_frame st st'.
Proof. intros [_ _ _ Hst _ _]. by split; rewrite Hst. Qed.

Lemma lost_delete rid ids (regs : gmap RegistrationId RegistrationState) t :
  rid ∉ ids → lost ids (delete rid regs) t = lost ids regs t.
Proof.
  unfold lost. induction ids as [|rid' ids IH]; intros Hni; [done|]. cbn.
  rewrite lookup_delete_ne by set_solver. by rewrite IH by set_solver.
Qed.

Lemma lost_unleased ids (regs : gmap RegistrationId RegistrationState) t :
  lease t = None → lost ids regs t = false.
Proof.
  intros Hl. unfold lost. induction ids as [|rid ids IH]; [done|]. cbn. rewrite IH.
  destruct (regs !! rid); [|done]. unfold leased_to. by rewrite Hl, andb_false_r.
Qed.

(** Only the state and the wake-ups change. *)
Record detach_frame w w' : Prop := {
  df_store : w_store w' = w_store w;
  df_channels : channels (w_shared w') = channels (w_shared w);
  df_next : next_channel (w_shared w') = next_channel (w_shared w);
  df_state : upkeep_frame (w_state w) (w_state w');
}.

#[global] Instance detach_frame_trans : Transitive detach_frame.
Proof. intros w1 w2 w3 [? ? ? ?] [? ? ? ?]. split; [congruence..|by etrans]. Qed.

Lemma detach_expired_run clk ids w :
  Inv clk (w_state w) → NoDup ids →
  (∀ rid, rid ∈ ids → is_Some (registrations (w_state w) !! rid)) →
  ∃ w', detach_expired ids w = (Done tt, w') ∧ Inv clk (w_state w') ∧ detach_frame w w' ∧
    tasks (w_state w') = drop_lost ids (registrations (w_state w)) <$> tasks (w_state w) ∧
    (∀ rid, registrations (w_state w') !! rid
            = if bool_decide (rid ∈ ids) then None else registrations (w_state w) !! rid).
Proof.
  revert w. induction ids as [|i ids IH]; intros w HI Hnd Hok.
  { exists w. split_and!; [done..|by rewrite map_fmap_id|done]. }
  apply NoDup_cons in Hnd as [Hi Hnd]. destruct (Hok i) as [r Hr]; [set_solver|].
  destruct (detach_registration_run i true r (w_state w)) as (st1 & Hrun & HD);
    [apply HI|done|].
  set (w1 := w <| w_state := st1 |> <| w_shared ::= notify_one (rs_notify r) |>).
  destruct (IH w1) as (w' & Hrun' & HI' & Hfr & Hts & Hregs); [|done|..].
  - by apply (Inv_detached clk i r (w_state w)).
  - intros rid Hrid. simpl. rewrite (det_regs _ _ _ _ HD), lookup_delete_ne by set_solver.
    apply Hok. set_solver.
  - exists w'. split_and!; [|done| |..].
    + cbn [detach_expired]. unfold get_state, st_bind at 1, st_gets at 1. rewrite Hrun.
      exact Hrun'.
    + etrans; [|exact Hfr]. split; try done. by eapply detached_frame.
    + rewrite Hts. simpl. rewrite (det_tasks _ _ _ _ HD), (det_regs _ _ _ _ HD).
      rewrite <-map_fmap_compose. apply map_fmap_ext. intros id t _. simpl.
      unfold drop_lost. rewrite lost_delete by done. cbn [lost existsb]. rewrite Hr.
      change (existsb _ ids) with (lost ids (registrations (w_state w)) t).
      unfold drop_lease. destruct (leased_to (reg_credentials r) t); simpl.
      * by rewrite lost_unleased.
      * done.
    + intros rid. rewrite Hregs. simpl. rewrite (det_regs _ _ _ _ HD).
      destruct (decide (i = rid)) as [<-|Hne].
      * rewrite bool_decide_false, bool_decide_true by set_solver. by rewrite lookup_delete_eq.
      * rewrite lookup_delete_ne by done. destruct (decide (rid ∈ ids)).
        -- by rewrite !bool_decide_true by set_solver.
        -- by rewrite !bool_decide_false by set_solver.
Qed.
End detach_all.
