(* ===== verification/BrokerMaintained.v ===== *)
(** * The specification of [maintain_state]

    Every operation of the broker starts from the state this describes. *)
From stdpp Require Import prelude gmap strings sorting.
From S2P Require Import Prelude RustStd Model Validation Durability BrokerState BrokerDurable.
From S2P Require Import BrokerMaintain BrokerOps BrokerInv BrokerPrim BrokerTrans BrokerImage.
From S2P Require Import BrokerRecover BrokerRestore BrokerWorld BrokerUpkeep.

Section upkeep.
Context `{JsonNumber}.
Implicit Types (st : State) (t : TaskRecord).

(** What the maintenance makes of one task. *)
Definition upkeep (now : Z) (expired : gset RegistrationCredentials) t : option TaskRecord :=
  if overdue now t then None
  else Some (if is_due now t then expire now t
             else if is_orphan now expired t then requeued_record t else t).

Lemma overdue_live now t : live t → overdue now t = false.
Proof. intros Hl. unfold overdue. by rewrite Hl. Qed.

Lemma is_due_live now t : is_due now t = true → live t.
Proof.
  unfold is_due, live. destruct (terminal_deadline_unix_ms t); [done|]. done.
Qed.

(** The committed batch turns the image of the old tasks into that of the new. *)
Lemma upkeep_rows now expired st due batch ts' :
  Core st → BatchOK now expired st due batch →
  (∀ id, ts' !! id = tasks st !! id ≫= upkeep now expired) →
  upsert_all (batch_upsert_tasks batch)
    (delete_all (batch_delete_task_ids batch) (durable_rows (tasks st))) = durable_rows ts'.
Proof.
  intros HC HB Hts. destruct HB as [_ _ Hdel Hnd Hrows Hdue Horph].
  apply map_eq. intros id. rewrite lookup_durable_rows, Hts.
  destruct (tasks st !! id) as [t|] eqn:Ht; simpl.
  2: { rewrite lookup_upsert_all_ne, lookup_delete_all, lookup_durable_rows, Ht; [by case_decide|].
       intros (row & -> & Hrow)%list_elem_of_fmap. apply Hrows in Hrow as (t & Ht' & _). congruence. }
  assert (∀ row, row ∈ batch_upsert_tasks batch → dt_task_id row = id →
            is_due now t = true ∨ is_orphan now expired t = true) as Hups.
  { intros row Hrow <-. apply Hrows in Hrow as (t' & Ht' & Hc). simplify_eq. tauto. }
  pose proof (core_tasks _ HC _ _ Ht) as Hwf. unfold upkeep.
  destruct (is_due now t) eqn:Hd; [|destruct (is_orphan now expired t) eqn:Ho].
  - rewrite overdue_live by by eapply is_due_live. simpl.
    destruct (Hdue id t Ht Hd) as (v & d & Hv & Hdl).
    set (row := image id (terminal_record now d v TerminalExpired t)).
    assert (row ∈ batch_upsert_tasks batch) as Hrow.
    { apply Hrows. exists t. split; [done|]. left. split; [done|]. by exists v, d. }
    rewrite (lookup_upsert_all _ _ _ Hnd Hrow). unfold row, expire.
    apply checked_Some in Hv as [-> _]. by apply checked_Some in Hdl as [-> _].
  - destruct (orphan_live _ _ _ _ Hwf Ho) as (Hlive & _ & _). rewrite overdue_live by done. simpl.
    set (row := image id (requeued_record t)).
    assert (row ∈ batch_upsert_tasks batch) as Hrow.
    { apply Hrows. exists t. split; [done|]. right. split_and!; [done|by eapply Horph|done]. }
    by rewrite (lookup_upsert_all _ _ _ Hnd Hrow).
  - rewrite lookup_upsert_all_ne.
    + rewrite lookup_delete_all, lookup_durable_rows, Ht. destruct (overdue now t) eqn:Hod; simpl.
      * case_decide as Hin; [done|]. destruct Hin. apply Hdel. eauto.
      * case_decide as Hin; [|done]. apply Hdel in Hin as (t' & Ht' & Hod'). congruence.
    + intros (row & -> & Hrow)%list_elem_of_fmap. by destruct (Hups row Hrow).
Qed.

(** The writes, task by task. *)
Lemma upkeep_composed now st t id (regs : gmap RegistrationId RegistrationState) :
  task_wf id t → (∀ c, c ∈ expired_credentials now st ↔
    ∃ rid r, rid ∈ expired_registrations now st ∧ regs !! rid = Some r ∧ c = reg_credentials r) →
  prune_one now
    (drop_lost (expired_registrations now st) regs
       (bump_any (elements (expired_credentials now st))
          (if is_due now t then expire now t else t)))
  = upkeep now (expired_credentials now st) t.
Proof.
  intros Hwf Hexp. unfold upkeep.
  assert (∀ t', leased_to_any (elements (expired_credentials now st)) t'
                = lost (expired_registrations now st) regs t') as Hlost.
  { intros t'. apply eq_bool_prop_intro. rewrite !Is_true_true. unfold leased_to_any, lost.
    rewrite !existsb_exists. split.
    - intros (c & Hc%list_elem_of_In & Hl). rewrite elem_of_elements in Hc.
      apply Hexp in Hc as (rid & r & Hrid & Hr & ->). exists rid.
      split; [by apply list_elem_of_In|]. by rewrite Hr.
    - intros (rid & Hrid%list_elem_of_In & Hl). destruct (regs !! rid) as [r|] eqn:Hr; [|done].
      exists (reg_credentials r). split; [|done]. apply list_elem_of_In, elem_of_elements, Hexp.
      eauto. }
  destruct (is_due now t) eqn:Hd.
  { rewrite overdue_live by by eapply is_due_live. unfold bump_any. rewrite Hlost.
    rewrite (lost_unleased _ _ (expire now t)) by done. unfold drop_lost.
    rewrite lost_unleased by done. unfold prune_one, overdue. simpl. unfold TERMINAL_RETENTION_MS. by rewrite (proj2 (Z.leb_gt _ _)) by lia. }
  assert (is_orphan now (expired_credentials now st) t
          = leased_to_any (elements (expired_credentials now st)) t) as Ho.
  { unfold is_orphan. rewrite Hd. apply eq_bool_prop_intro. rewrite !Is_true_true.
    unfold leased_to_any. rewrite existsb_exists. simpl. split.
    - intros [Ha%negb_true_iff Hl]%andb_true_iff. destruct (lease t) as [l|] eqn:Hlt; [|done].
      destruct (lease_owner l) as [c|] eqn:Hown; [|done]. simpl in Hl.
      apply bool_decide_eq_true in Hl. exists c. split; [by apply list_elem_of_In, elem_of_elements|].
      apply leased_to_iff. eauto.
    - intros (c & Hc%list_elem_of_In & (Ha & l & Hl & Hown)%leased_to_iff).
      rewrite elem_of_elements in Hc. rewrite Ha, Hl. simpl. rewrite Hown. simpl.
      by apply bool_decide_eq_true. }
  rewrite Ho. unfold bump_any. destruct (leased_to_any _ t) eqn:Hl.
  - destruct (orphan_live _ _ _ _ Hwf Ho) as (Hlive & _ & _).
    unfold drop_lost.
    assert (lost (expired_registrations now st) regs (t <| state_version ::= λ v, (v + 1)%Z |>)
            = true) as ->.
    { rewrite Hlost in Hl. unfold lost in *. rewrite existsb_exists in *.
      destruct Hl as (rid & Hrid & Hl). exists rid. split; [done|].
      by destruct (regs !! rid). }
    unfold prune_one. by rewrite !overdue_live by done.
  - unfold drop_lost. rewrite Hlost in Hl. by rewrite Hl.
Qed.
End upkeep.

Section maintain.
Context `{JsonNumber} {serde : SerdeJson} {P : Type} {persistence : BrokerPersistence P}.
Context {spec : PersistenceSpec P}.
Implicit Types (w : World P) (st : State).

(** Every registration was there before. *)
Definition regs_back st st' : Prop :=
  ∀ rid r', registrations st' !! rid = Some r' →
    ∃ r, registrations st !! rid = Some r ∧ same_reg r r'.

Lemma regs_back_same st st' : registrations st' = registrations st → regs_back st st'.
Proof. intros Heq rid r'. rewrite Heq. by exists r'. Qed.

Lemma regs_back_trans st1 st2 st3 : regs_back st1 st2 → regs_back st2 st3 → regs_back st1 st3.
Proof.
  intros H12 H23 rid r3 Hr3. destruct (H23 _ _ Hr3) as (r2 & Hr2 & ?).
  destruct (H12 _ _ Hr2) as (r1 & Hr1 & ?). exists r1. split; [done|]. by etrans.
Qed.

Lemma registry_kept_back st st' : registry_kept st st' → regs_back st st'.
Proof.
  intros [Hk _ _] rid r' Hr'. specialize (Hk rid). rewrite Hr' in Hk. inversion Hk. eauto.
Qed.

(** What the maintenance at [now] leaves. *)
Record upkept (now : Z) w w' : Prop := {
  mt_inv : WInv now w';
  mt_flag : reconciliation_required (w_state w') = false;
  mt_unexpired : ∀ rid r, registrations (w_state w') !! rid = Some r → (now < reg_expiry r)%Z;
  mt_kept : ∀ rid r, registrations (w_state w) !! rid = Some r → (now < reg_expiry r)%Z →
    ∃ r', registrations (w_state w') !! rid = Some r' ∧ same_reg r r';
  mt_back : ∀ rid r', registrations (w_state w') !! rid = Some r' →
    ∃ r, registrations (w_state w) !! rid = Some r ∧ same_reg r r';
  mt_not_due : ∀ id t, tasks (w_state w') !! id = Some t → is_due now t = false;
  mt_not_overdue : ∀ id t, tasks (w_state w') !! id = Some t → overdue now t = false;
  mt_tasks : reconciliation_required (w_state w) = false →
    ∀ id, tasks (w_state w') !! id
          = tasks (w_state w) !! id ≫= upkeep now (expired_credentials now (w_state w));
  mt_frame : reconciliation_required (w_state w) = false →
    upkeep_frame (w_state w) (w_state w');
  mt_fresh : ∀ d, fresh_delivery d w → fresh_delivery d w';
  mt_rows : store_evolved now (held_rows w) (held_rows w');
}.

(** What every operation finds: the maintenance at [now] has run. *)
Record Maintained (now : Z) w w' : Prop := {
  mt_upkept :> upkept now w w';
  mt_run : maintain_state now w = (Done tt, w');
}.

(** Only the request to reconcile may have been added to the state of [w]; the
    store may have moved. *)
Record halted (now : Z) w w' : Prop := {
  halt_shared : w_shared w' = w_shared w;
  halt_state : w_state w'
    = (w_state w) <| reconciliation_required := reconciliation_required (w_state w') |>;
  halt_rows : store_evolved now (held_rows w) (held_rows w');
}.

Lemma halted_refl now w : halted now w w.
Proof. split; [done| |done]. by destruct (w_state w). Qed.

Lemma halted_commit now b w w' :
  store_evolved now (held_rows w) (view_tasks (apply_batch b (view (w_store w)))) →
  commit_failed b w w' → halted now w w'.
Proof.
  intros Hev Hf. destruct Hf as [p' Hp'|p' Hp']; split; try done.
  - simpl. by destruct (w_state w).
  - unfold held_rows; simpl. by rewrite Hp'.
  - unfold held_rows; simpl. by destruct Hp' as [-> | ->].
Qed.

(** The maintenance fails while it reconciles, which leaves the state alone, or
    after it. *)
Record maintenance_failed (now : Z) w w' : Prop := {
  mf_inv : WInv now w';
  mf_source : ∃ w1, halted now w1 w' ∧
    (w1 = w ∨ (reconcile_state_if_required now w = (Done tt, w1) ∧ WInv now w1 ∧
               reconciliation_required (w_state w1) = false));
  mf_rows : store_evolved now (held_rows w) (held_rows w');
  mf_back : regs_back (w_state w) (w_state w');
}.

Lemma reconcile_not_required now w :
  reconciliation_required (w_state w) = false →
  reconcile_state_if_required now w = (Done tt, w).
Proof.
  intros Hflag. unfold reconcile_state_if_required, get_state, st_bind, st_gets. by rewrite Hflag.
Qed.

(** A failed maintenance that had nothing to reconcile. *)
Lemma maintenance_failed_halted now w w' :
  reconciliation_required (w_state w) = false → maintenance_failed now w w' → halted now w w'.
Proof.
  intros Hflag [_ (w1 & Hh & [->|(Hrun & _)]) _ _]; [done|].
  rewrite reconcile_not_required in Hrun by done. by injection Hrun as <-.
Qed.

Lemma upkeep_moves now expired id t t' :
  task_wf id t → upkeep now expired t = Some t' → row_moved now (image id t) (image id t').
Proof.
  intros Hwf. unfold upkeep. destruct (overdue now t); [done|]. intros [= <-].
  destruct (is_due now t) eqn:Hdue; [apply row_moved_terminal; [done|by eapply is_due_live]|].
  destruct (is_orphan now expired t) eqn:Ho; [|done].
  destruct (orphan_live _ _ _ _ Hwf Ho) as (_ & Ha & _). unfold is_orphan in Ho.
  destruct (lease t) as [l|] eqn:Hl; [|by rewrite andb_false_r in Ho].
  by eapply row_moved_requeued.
Qed.

(** What the batch of the maintenance does to the store. *)
Lemma batch_evolved now due batch st (p : DurableView) :
  Core st → BatchOK now (expired_credentials now st) st due batch →
  view_tasks p = durable_rows (tasks st) →
  store_evolved now (view_tasks p) (view_tasks (apply_batch batch p)).
Proof.
  intros HC HB Hp. simpl. rewrite Hp.
  rewrite (upkeep_rows now _ st due batch (omap (upkeep now (expired_credentials now st)) (tasks st)) HC HB)
    by (intros id; apply lookup_omap).
  apply rows_evolved. intros id t Ht. rewrite lookup_omap, Ht. simpl.
  destruct (upkeep now _ t) as [t'|] eqn:Hup.
  - right. exists t'. split; [done|]. eapply upkeep_moves; [by apply HC|done].
  - left. unfold upkeep in Hup. by destruct (overdue now t).
Qed.

Lemma upkeep_not_due now expired t t' :
  upkeep now expired t = Some t' → is_due now t' = false ∧ overdue now t' = false.
Proof.
  unfold upkeep. destruct (overdue now t) eqn:Ho; [done|].
  destruct (is_due now t) eqn:Hd.
  - intros [= <-]. split; [done|]. unfold overdue; simpl. unfold TERMINAL_RETENTION_MS.
    apply Z.leb_gt. lia.
  - destruct (is_orphan now expired t); by intros [= <-].
Qed.

Lemma upkeep_lease now expired t t' :
  upkeep now expired t = Some t' → lease t' = None ∨ lease t' = lease t.
Proof.
  unfold upkeep. destruct (overdue now t); [done|].
  destruct (is_due now t); [|destruct (is_orphan now expired t)]; intros [= <-]; auto.
Qed.

(** The rows of the batch have no lease. *)
Lemma batch_unused now expired st due batch d p :
  BatchOK now expired st due batch → unused_in_rows d (view_tasks p) →
  unused_in_rows d (view_tasks (apply_batch batch p)).
Proof.
  intros [_ _ _ Hnd Hrows _ _] Hd id row l. simpl.
  destruct (decide (id ∈ dt_task_id <$> batch_upsert_tasks batch)) as [Hin|Hin].
  - apply list_elem_of_fmap in Hin as (row' & -> & Hrow').
    rewrite (lookup_upsert_all _ _ _ Hnd Hrow'). intros [= <-] Hl.
    apply Hrows in Hrow' as (t & _ & [(_ & v & dl & _ & _ & Hr)|(_ & _ & Hr)]); by rewrite Hr in Hl.
  - rewrite lookup_upsert_all_ne, lookup_delete_all by done. case_decide; [done|]. apply Hd.
Qed.

(** The state after the commit, as the maintenance writes it. *)
Definition maintain_writes (now : Z) (due : list string)
    (expired : gset RegistrationCredentials) (expired_ids : list RegistrationId)
    : ST (World P) DomainError () :=
  let! waiters := on_state (expire_tasks now due) in
  let! _ := on_state (for_each bump_requeued_versions_for_credentials (elements expired)) in
  let! _ := detach_expired expired_ids in
  let! _ := if bool_decide (expired = ∅) then st_ret tt
            else modify_shared (λ sh, sh <| directory ::= directory_record |>) in
  let! _ := modify_state (prune_delivery_deadlines now) in
  let! _ := modify_state (prune_terminal_tasks now) in
  modify_shared (resolve_reply_waiters ((λ k, (k, Err TaskExpired)) <$> waiters)).

Lemma attached_upkeep now expired (ts ts' : gmap string TaskRecord)
    (waiters : list nat) k :
  map_Forall task_wf ts →
  (∀ id, ts' !! id = ts !! id ≫= upkeep now expired) →
  (∀ id t k, ts !! id = Some t → is_due now t = true → k ∈ reply_waiters t → k ∈ waiters) →
  attached ts k → attached ts' k ∨ k ∈ waiters.
Proof.
  intros Hwf Hts Hdue (id & t & Ht & Hk).
  destruct (is_due now t) eqn:Hd; [right; by eapply Hdue|left].
  destruct (overdue now t) eqn:Ho.
  { pose proof (wf_phase _ _ (Hwf _ _ Ht)) as Hp. unfold overdue in Ho.
    destruct (terminal_deadline_unix_ms t); [|done]. destruct Hp as [_ _ _ Hw _ _].
    rewrite Hw in Hk. set_solver. }
  exists id. specialize (Hts id). rewrite Ht in Hts. simpl in Hts. unfold upkeep in Hts.
  rewrite Ho, Hd in Hts. destruct (is_orphan now expired t); eexists; by split.
Qed.

(** The state once the due tasks are expired and the versions are advanced. *)
Lemma requeue_writes now due batch w :
  Inv now (w_state w) →
  BatchOK now (expired_credentials now (w_state w)) (w_state w) due batch →
  ∃ waiters st1 st2,
    expire_tasks now due (w_state w) = (Done waiters, st1) ∧
    for_each bump_requeued_versions_for_credentials
      (elements (expired_credentials now (w_state w))) st1 = (Done tt, st2) ∧
    Inv now st2 ∧ registry_kept (w_state w) st2 ∧ upkeep_frame (w_state w) st2 ∧
    (∀ id, tasks st2 !! id
           = (λ t, bump_any (elements (expired_credentials now (w_state w)))
                     (if is_due now t then expire now t else t)) <$> tasks (w_state w) !! id) ∧
    (∀ id t k, tasks (w_state w) !! id = Some t → is_due now t = true →
       k ∈ reply_waiters t → k ∈ waiters).
Proof.
  intros HI HB. set (st := w_state w) in *. set (expired := expired_credentials now st) in *.
  pose proof HB as [Hdue _ _ _ _ Hdue_ok Horph_ok].
  destruct (expire_tasks_run now now due st HI) as
    (waiters & st1 & Hrun1 & HI1 & Hts1 & Hreg1 & Hfr1 & Hw1).
  { rewrite Hdue. apply NoDup_keys_where. }
  { intros id Hid. rewrite Hdue in Hid. apply elem_of_keys_where in Hid as (t & Ht & Hd).
    destruct (Hdue_ok id t Ht Hd) as (v & d & Hv & Hdl). exists t, v, d.
    split_and!; try done. by eapply is_due_live. }
  assert (∀ id, tasks st1 !! id = (λ t, if is_due now t then expire now t else t)
                                    <$> tasks st !! id) as Hts1'.
  { intros id. rewrite Hts1, Hdue. destruct (tasks st !! id) as [t|] eqn:Ht.
    - destruct (is_due now t) eqn:Hd.
      + rewrite bool_decide_true by (apply elem_of_keys_where; eauto). simpl. by rewrite Hd.
      + rewrite bool_decide_false.
        * simpl. by rewrite Hd.
        * intros (t' & Ht' & Hd')%elem_of_keys_where. congruence.
    - by case_bool_decide. }
  destruct (bump_all_run now (elements expired) st1 HI1) as [Hrun2 HI2].
  { apply NoDup_elements. }
  { intros c Hc id t' Ht' Hl. rewrite Hts1' in Ht'. apply fmap_Some in Ht' as (t & Ht & ->).
    destruct (is_due now t) eqn:Hd; [by apply leased_to_iff in Hl as (_ & l & ? & _)|].
    eapply Horph_ok; [done|]. unfold is_orphan. rewrite Hd. simpl.
    apply leased_to_iff in Hl as (-> & l & -> & Ho). rewrite Ho. simpl.
    apply bool_decide_eq_true. by apply elem_of_elements. }
  exists waiters, st1, (st1 <| tasks ::= fmap (bump_any (elements expired)) |>).
  split_and!; try done.
  - destruct Hreg1 as [A B C]. by split.
  - etrans; [done|]. by split.
  - intros id. simpl. rewrite lookup_fmap, Hts1'. by destruct (tasks st !! id).
  - intros id t k Ht Hd. apply (Hw1 id t); [|done]. rewrite Hdue. apply elem_of_keys_where. eauto.
Qed.

(** What is still live has its delivery time ahead. *)
Lemma upkeep_still_ahead now cs ids regs t :
  live (drop_lost ids regs (bump_any cs (if is_due now t then expire now t else t))) →
  (now < sh_due (shape (drop_lost ids regs
            (bump_any cs (if is_due now t then expire now t else t)))))%Z.
Proof.
  set (t1 := if is_due now t then _ else _).
  assert (shape (drop_lost ids regs (bump_any cs t1)) = shape t1) as Hsh.
  { unfold drop_lost, bump_any. destruct (leased_to_any cs t1); by destruct (lost _ _ _). }
  unfold live. change (terminal_deadline_unix_ms ?t) with (sh_deadline (shape t)). rewrite Hsh.
  unfold t1, is_due. simpl. destruct (terminal_deadline_unix_ms t) eqn:Hd; simpl; [congruence|].
  destruct (_ <=? now)%Z eqn:Hnow; simpl; [done|]. by apply Z.leb_gt in Hnow.
Qed.

(** Collecting what the writes have done. *)
Lemma maintained_intro now due batch w p st2 w3 w' waiters :
  Inv now (w_state w) → reconciliation_required (w_state w) = false →
  view_epoch (view (w_store w)) = next_registration_epoch (w_state w) →
  view_tasks p = durable_rows (tasks (w_state w)) →
  view (w_store w) = apply_batch batch p →
  WaitOK [] (tasks (w_state w)) (w_shared w) →
  BatchOK now (expired_credentials now (w_state w)) (w_state w) due batch →
  registry_kept (w_state w) st2 → upkeep_frame (w_state w) st2 →
  (∀ id, tasks st2 !! id
         = (λ t, bump_any (elements (expired_credentials now (w_state w)))
                   (if is_due now t then expire now t else t)) <$> tasks (w_state w) !! id) →
  (∀ id t k, tasks (w_state w) !! id = Some t → is_due now t = true →
     k ∈ reply_waiters t → k ∈ waiters) →
  Inv now (w_state w3) → upkeep_frame st2 (w_state w3) →
  tasks (w_state w3)
    = drop_lost (expired_registrations now (w_state w)) (registrations st2) <$> tasks st2 →
  (∀ rid, registrations (w_state w3) !! rid
          = if bool_decide (rid ∈ expired_registrations now (w_state w)) then None
            else registrations st2 !! rid) →
  w_state w' = prune_terminal_tasks now (prune_delivery_deadlines now (w_state w3)) →
  w_store w' = w_store w →
  channels (w_shared w') = channels (resolve_reply_waiters
    ((λ k, (k, Err TaskExpired)) <$> waiters) (w_shared w)) →
  next_channel (w_shared w') = next_channel (w_shared w) →
  upkept now w w'.
Proof.
  intros HI Hflag Hep Hview Hbatch HW HB Hreg2 Hfr2 Hts2 Hwait HI3 Hfr3 Hts3 Hregs3
    Hst' Hstore Hch Hnext.
  assert (Inv now (prune_delivery_deadlines now (w_state w3))) as HI4.
  { apply Inv_delivery_queue; [|done]. intros id t3 Ht3 Hl3. rewrite Hts3, lookup_fmap, Hts2 in Ht3.
    destruct (tasks (w_state w) !! id) as [t|]; [|done]. simplify_eq/=. by apply upkeep_still_ahead. }
  pose proof (Inv_pruned now now _ HI4) as HI5.
  destruct (prune_terminal_tasks_run now (prune_delivery_deadlines now (w_state w3)))
    as (ts & queue & Heq & Hts & _ & _); [apply HI4|].
  assert (∀ id, tasks (w_state w') !! id
                = tasks (w_state w) !! id ≫= upkeep now (expired_credentials now (w_state w)))
    as Htasks.
  { intros id. rewrite Hst', Heq. simpl. rewrite Hts. simpl. rewrite Hts3, lookup_fmap, Hts2.
    destruct (tasks (w_state w) !! id) as [t|] eqn:Ht; [|done]. simpl.
    apply (upkeep_composed now (w_state w) t id); [by apply HI|].
    intros c. rewrite elem_of_expired_credentials. split.
    - intros (rid & r & Hr & Hexp & ->). pose proof (rk_regs _ _ Hreg2 rid) as Hk.
      rewrite Hr in Hk. inversion Hk as [? r2 (Hsame & _) Heq1 Heq2|]; subst. exists rid, r2.
      split_and!; [by apply elem_of_expired_registrations; eauto|done|].
      unfold reg_credentials. by rewrite Hsame.
    - intros (rid & r2 & (r & Hr & Hexp)%elem_of_expired_registrations & Hr2 & ->).
      pose proof (rk_regs _ _ Hreg2 rid) as Hk. rewrite Hr, Hr2 in Hk.
      inversion Hk as [? ? (Hsame & _)|]; subst. exists rid, r.
      split_and!; [done..|]. unfold reg_credentials. by rewrite Hsame. }
  assert (registrations (w_state w') = registrations (w_state w3)) as Hregs' by by rewrite Hst', Heq.
  assert (upkeep_frame (w_state w) (w_state w')) as Hframe.
  { etrans; [done|]. etrans; [done|]. rewrite Hst', Heq. by split. }
  assert (∀ rid r', registrations (w_state w') !! rid = Some r' →
    ∃ r, registrations (w_state w) !! rid = Some r ∧ same_reg r r' ∧ (now < reg_expiry r)%Z)
    as Hback.
  { intros rid r'. rewrite Hregs', Hregs3. case_bool_decide as Hin; [done|]. intros Hr'.
    pose proof (rk_regs _ _ Hreg2 rid) as Hk. rewrite Hr' in Hk.
    inversion Hk as [r ? Hsame Hr|]; subst. exists r. split_and!; [done..|].
    apply Z.nle_gt. intros Hexp. apply Hin, elem_of_expired_registrations. eauto. }
  split.
  - split; [by rewrite Hst'| |].
    + rewrite Hstore. split; rewrite ?(uf_epoch _ _ Hframe); [lia|done|]. intros _.
      rewrite Hbatch. simpl. rewrite Hview. by eapply upkeep_rows; [apply HI|..].
    + apply (WaitOK_shared _ _ (resolve_reply_waiters
               ((λ k, (k, Err TaskExpired)) <$> waiters) (w_shared w)));
        [done|by rewrite resolve_next|].
      apply (WaitOK_resolve waiters).
      * eapply (WaitOK_tasks []); [|set_solver|exact HW].
        intros k. by eapply attached_upkeep; [apply HI|..].
      * intros k Hk. rewrite <-list_fmap_compose. apply list_elem_of_fmap. eauto.
  - by rewrite (uf_flag _ _ Hframe).
  - intros rid r' (r & _ & (Hsame & _) & Hexp)%Hback. unfold reg_expiry. by rewrite Hsame.
  - intros rid r Hr Hexp. pose proof (rk_regs _ _ Hreg2 rid) as Hk. rewrite Hr in Hk.
    inversion Hk as [? r2 Hsame Heq1 Heq2|]; subst. exists r2. rewrite Hregs', Hregs3.
    rewrite bool_decide_false; [done|]. intros (r0 & Hr0 & ?)%elem_of_expired_registrations.
    simplify_eq. lia.
  - intros rid r' (r & Hr & Hsame & _)%Hback. eauto.
  - intros id t'. rewrite Htasks. intros (t & _ & Hup)%bind_Some.
    by apply upkeep_not_due in Hup as [? _].
  - intros id t'. rewrite Htasks. intros (t & _ & Hup)%bind_Some.
    by apply upkeep_not_due in Hup as [_ ?].
  - done.
  - done.
  - intros d Hd. apply fresh_from_state.
    + rewrite Hstore. split; rewrite ?(uf_epoch _ _ Hframe); [lia|done|]. intros _.
      rewrite Hbatch. simpl. rewrite Hview. by eapply upkeep_rows; [apply HI|..].
    + by rewrite (uf_flag _ _ Hframe).
    + intros id t' l. rewrite Htasks. intros (t & Ht & Hup)%bind_Some Hl.
      apply upkeep_lease in Hup as [Hn|Hsame]; [congruence|].
      apply (fd_state _ _ Hd id t); congruence.
  - unfold held_rows. by rewrite Hstore.
Qed.

Lemma maintain_writes_spec now due batch w p :
  Inv now (w_state w) → reconciliation_required (w_state w) = false →
  view_epoch (view (w_store w)) = next_registration_epoch (w_state w) →
  view_tasks p = durable_rows (tasks (w_state w)) →
  view (w_store w) = apply_batch batch p →
  WaitOK [] (tasks (w_state w)) (w_shared w) →
  BatchOK now (expired_credentials now (w_state w)) (w_state w) due batch →
  wp (maintain_writes now due (expired_credentials now (w_state w))
        (expired_registrations now (w_state w)))
    (λ _ w', upkept now w w') (λ _ _, False) w.
Proof.
  intros HI Hflag Hep Hview Hbatch HW HB.
  destruct (requeue_writes now due batch w HI HB) as
    (waiters & st1 & st2 & Hrun1 & Hrun2 & HI2 & Hreg2 & Hfr2 & Hts2 & Hwait).
  destruct (detach_expired_run now (expired_registrations now (w_state w))
              (w <| w_state := st2 |>)) as (w3 & Hrun3 & HI3 & [Hst3 Hch3 Hnx3 Hfr3] & Hts3 & Hregs3);
    [done|apply NoDup_expired_registrations| |].
  { intros rid (r & Hr & _)%elem_of_expired_registrations. simpl.
    pose proof (rk_regs _ _ Hreg2 rid) as Hk. rewrite Hr in Hk. inversion Hk; subst. by eexists. }
  unfold maintain_writes, on_state, modify_state, modify_shared.
  wp_step. wp_step. eapply wp_run; [exact Hrun1|]. wp_step. wp_step. simpl.
  eapply wp_run; [exact Hrun2|]. wp_step. simpl. eapply wp_run; [exact Hrun3|]. wp_step.
  apply wp_if; intros _; wp_steps; eapply maintained_intro; try done; simpl.
  all: rewrite ?resolve_next; try done; by apply resolve_channels_ext.
Qed.

(** The maintenance after a reconciliation. *)
Lemma upkept_after now w w1 w' :
  registry_kept (w_state w) (w_state w1) →
  (reconciliation_required (w_state w) = false → w_state w1 = w_state w) →
  reconciliation_required (w_state w1) = false →
  (∀ d, fresh_delivery d w → fresh_delivery d w1) →
  store_evolved now (held_rows w) (held_rows w1) →
  upkept now w1 w' → upkept now w w'.
Proof.
  intros Hreg Hsame Hflag Hfresh Hev [H1 H2 H3 Hkept Hback H6 H7 Hts Hfr Hd Hev'].
  split; try done; [..|by auto|by etrans].
  - intros rid r Hr Hexp. pose proof (rk_regs _ _ Hreg rid) as Hk. rewrite Hr in Hk.
    inversion Hk as [? r1 Hs1 Heq1 Heq2|]; subst. symmetry in Heq2.
    destruct (Hkept rid r1) as (r' & Hr' & Hs'); [done| |].
    { unfold reg_expiry. destruct Hs1 as (-> & _). done. }
    exists r'. split; [done|]. by etrans.
  - intros rid r' Hr'. destruct (Hback rid r' Hr') as (r1 & Hr1 & Hs1).
    pose proof (rk_regs _ _ Hreg rid) as Hk. rewrite Hr1 in Hk.
    inversion Hk as [r ? Hs Heq1 Heq2|]; subst. exists r. split; [done|]. by etrans.
  - intros Hf. rewrite <-(Hsame Hf). by apply Hts.
  - intros Hf. rewrite <-(Hsame Hf). by apply Hfr.
Qed.

Lemma stale_failed clk now w w' :
  WInv clk w → (clk ≤ now)%Z → reconciliation_required (w_state w) = true → stale now w w' →
  maintenance_failed now w w'.
Proof.
  intros HWI Hle Hflag Hst. pose proof Hst as [Hs Hsh _ Hrows]. split; [| |done|].
  - eapply stale_WInv; [by eapply WInv_later|done..].
  - exists w. split; [|by left]. split; [done| |done]. rewrite Hs. by destruct (w_state w).
  - apply regs_back_same. by rewrite Hs.
Qed.

Lemma maintain_upkept clk now w :
  WInv clk w → (clk ≤ now)%Z →
  wp (maintain_state now) (λ _ w', upkept now w w') (λ _ w', maintenance_failed now w w') w.
Proof.
  intros HWI Hle. unfold maintain_state. wp_step.
  eapply wp_mono; [by eapply wp_ran, reconcile_spec| |].
  2: { intros e w' [Hst Hflag]. by eapply stale_failed. }
  cbn. intros [] w1 [(HWI1 & Hflag1 & Hreg1 & Hsame & Hev1 & Hfresh) Hrun1].
  assert (∀ w', halted now w1 w' → WInv now w' → maintenance_failed now w w') as Hfailed.
  { intros w' Hh HW. split; [done| | |].
    - exists w1. split; [done|]. by right.
    - etrans; [exact Hev1|apply Hh].
    - eapply regs_back_trans; [by apply registry_kept_back|]. apply regs_back_same.
      by rewrite (halt_state _ _ _ Hh). }
  unfold get_state. wp_steps.
  pose proof HWI1 as [HI1 HS1 HW1]. pose proof (inv_core _ _ HI1) as HC1.
  pose proof (sync_rows _ _ HS1 Hflag1) as Hrows.
  apply wp_lift_no_panic; [by apply maintenance_batch_no_panic| |].
  2: { intros e _. by apply Hfailed; [apply halted_refl|]. }
  intros [[due expired] batch] Hbatch.
  destruct (maintenance_batch_ok now (w_state w1) due expired batch HC1 Hbatch) as [-> HB].
  pose proof (batch_evolved now due batch (w_state w1) (view (w_store w1)) HC1 HB Hrows) as Hev.
  assert (∀ w2, w_state w2 = w_state w1 → w_shared w2 = w_shared w1 →
    view (w_store w2) = apply_batch batch (view (w_store w1)) →
    wp (maintain_writes now due (expired_credentials now (w_state w1))
          (expired_registrations now (w_state w1)))
      (λ _ w', upkept now w w') (λ _ w', maintenance_failed now w w') w2) as Hwrites.
  { intros w2 Hst2 Hsh2 Hv2.
    pose proof (maintain_writes_spec now due batch w2 (view (w_store w1))) as Hspec.
    rewrite Hst2, Hsh2 in Hspec. eapply wp_mono; [apply Hspec; try done| |done].
    - rewrite Hv2. unfold apply_batch; simpl. rewrite (bo_epoch _ _ _ _ _ HB).
      by apply (sync_epoch _ _ HS1).
    - cbn. intros _ w'. apply upkept_after; rewrite ?Hst2; try done.
      + intros Hf. by rewrite (Hsame Hf).
      + intros d Hd. destruct (Hfresh d Hd) as [Hd1 Hd2]. split; [by rewrite Hst2|].
        rewrite Hv2. by eapply batch_unused.
      + etrans; [exact Hev1|]. unfold held_rows at 2. by rewrite Hv2. }
  wp_step. apply wp_if; intros Hempty.
  - apply wp_commit_transition.
    + intros p' Hp'. by apply (Hwrites (w1 <| w_store := p' |>)).
    + intros e w' Hfail.
      apply Hfailed; [by eapply halted_commit|by eapply commit_failed_WInv].
  - apply wp_ret, Hwrites; try done. apply negb_false_iff, batch_is_empty_eq in Hempty.
    by rewrite Hempty, apply_empty_batch.
Qed.

Lemma maintain_spec clk now w :
  WInv clk w → (clk ≤ now)%Z →
  wp (maintain_state now) (λ _ w', Maintained now w w')
    (λ _ w', maintenance_failed now w w') w.
Proof.
  intros HWI Hle. eapply wp_mono; [by eapply wp_ran, maintain_upkept| |done].
  intros [] w' [Hup Hrun]. by split.
Qed.
End maintain.
