(* ===== verification/BrokerSpec.v ===== *)
(** * Specifications of the operations

    For each critical section of [broker.rs]: it never panics, it keeps [WInv]
    whether it returns or fails, and what it returns and leaves is described in
    terms of the state [maintain_state] left before it. *)
From stdpp Require Import prelude gmap strings sorting.
From S2P Require Import Prelude RustStd Model Validation Durability BrokerState BrokerDurable.
From S2P Require Import BrokerMaintain BrokerOps BrokerInv BrokerPrim BrokerTrans BrokerImage.
From S2P Require Import BrokerRecover BrokerRestore BrokerWorld BrokerUpkeep BrokerMaintained.

Section specs.
Context `{JsonNumber} {serde : SerdeJson} {P : Type} {persistence : BrokerPersistence P}.
Context {spec : PersistenceSpec P}.
Implicit Types (w : World P) (st : State) (t : TaskRecord) (c : RegistrationCredentials).

(** The credentials [c] name a registration that is live at [now]. *)
Record authentic (now : Z) c st (r : RegistrationState) : Prop := {
  au_lookup : registrations st !! cred_id c = Some r;
  au_credentials : reg_credentials r = c;
  au_live : (now < reg_expiry r)%Z;
}.

Lemma validate_active_ok now c st :
  Core st → validate_active_registration st c now = Done tt → ∃ r, authentic now c st r.
Proof.
  intros HC. unfold validate_active_registration.
  destruct (registrations st !! cred_id c) as [r|] eqn:Hr; [|by case_bool_decide].
  intros Hok. destruct (negb _ || _ || _) eqn:Hb; [done|].
  apply orb_false_iff in Hb as [[He Hexp]%orb_false_iff _].
  apply negb_false_iff, bool_decide_eq_true in He. apply Z.leb_gt in Hexp.
  exists r. split; [done| |done]. pose proof (regs_key _ _ _ (core_regs _ HC) _ _ Hr) as Hid.
  unfold reg_credentials, credentials. rewrite He, Hid. by destruct c.
Qed.

Lemma validate_active_no_panic now c st : no_panic (validate_active_registration st c now).
Proof.
  unfold validate_active_registration. destruct (registrations st !! cred_id c);
    [apply no_panic_reject_if|by case_bool_decide].
Qed.

(** ** Failures *)

(** A critical section that stopped in [w]. *)
Record stopped (now : Z) w w' : Prop := {
  stop_inv : WInv now w';
  stop_halted :> halted now w w';
}.

Lemma stopped_refl now w : WInv now w → stopped now w w.
Proof. intros HW. split; [done|apply halted_refl]. Qed.

Lemma stopped_commit now b w w' :
  WInv now w → store_evolved now (held_rows w) (view_tasks (apply_batch b (view (w_store w)))) →
  commit_failed b w w' → stopped now w w'.
Proof. intros HW Hev Hf. split; [by eapply commit_failed_WInv|by eapply halted_commit]. Qed.

(** The row of one task moves. *)
Lemma single_row_evolved now w id t t' :
  WInv now w → reconciliation_required (w_state w) = false → tasks (w_state w) !! id = Some t →
  row_moved now (image id t) (image id t') →
  store_evolved now (held_rows w)
    (view_tasks (apply_batch (single_task_batch (image id t')) (view (w_store w)))).
Proof.
  intros [_ HS _] Hflag Ht Hm. unfold held_rows. simpl. rewrite (sync_rows _ _ HS Hflag).
  by eapply rows_evolved_update.
Qed.

(** Rows are replaced by those of updated tasks. *)
Lemma upserted_rows_evolved now e ups (f : TaskRecord → TaskRecord) w :
  WInv now w → reconciliation_required (w_state w) = false →
  upsert_all ups (durable_rows (tasks (w_state w))) = durable_rows (f <$> tasks (w_state w)) →
  (∀ id t, tasks (w_state w) !! id = Some t → row_moved now (image id t) (image id (f t))) →
  store_evolved now (held_rows w) (view_tasks (apply_batch (MkBatch e ups []) (view (w_store w)))).
Proof.
  intros [_ HS _] Hflag Hups Hf. unfold held_rows. simpl. rewrite (sync_rows _ _ HS Hflag), Hups.
  apply rows_evolved. intros id t Ht. right. exists (f t). rewrite lookup_fmap, Ht. eauto.
Qed.

(** An operation that failed: in the maintenance, or after it. *)
Definition aborted (now : Z) w w' : Prop :=
  (maintenance_failed now w w') ∨ (∃ w1, Maintained now w w1 ∧ stopped now w1 w').

Lemma aborted_inv now w w' : aborted now w w' → WInv now w'.
Proof. by intros [[]|(w1 & _ & [])]. Qed.

Lemma aborted_maintained now w w1 : Maintained now w w1 → aborted now w w1.
Proof. intros HM. right. exists w1. split; [done|]. apply stopped_refl, HM. Qed.

Lemma aborted_stopped now w w1 w' : Maintained now w w1 → stopped now w1 w' → aborted now w w'.
Proof. intros HM Hs. right. by exists w1. Qed.

Lemma aborted_commit now b w w1 w' :
  Maintained now w w1 →
  store_evolved now (held_rows w1) (view_tasks (apply_batch b (view (w_store w1)))) →
  commit_failed b w1 w' → aborted now w w'.
Proof. intros HM Hev Hf. eapply aborted_stopped; [done|]. eapply stopped_commit; [apply HM|done..]. Qed.

Lemma aborted_rows now w w' : aborted now w w' → store_evolved now (held_rows w) (held_rows w').
Proof.
  intros [Hf|(w1 & HM & Hs)]; [apply Hf|]. etrans; [apply (mt_rows _ _ _ HM)|apply Hs].
Qed.

(** The start of an authenticated operation. *)
Record begun (now : Z) c w w1 (r : RegistrationState) : Prop := {
  bg_maintained : Maintained now w w1;
  bg_authentic : authentic now c (w_state w1) r;
  bg_before : ∃ r0, authentic now c (w_state w) r0 ∧ same_reg r0 r;
}.

Lemma validate_and_maintain_spec clk now c w :
  WInv clk w → (clk ≤ now)%Z →
  wp (validate_registration_and_maintain c now) (λ _ w1, ∃ r, begun now c w w1 r)
    (λ _ w', aborted now w w') w.
Proof.
  intros HWI Hle. unfold validate_registration_and_maintain, get_state. wp_steps.
  eapply wp_mono; [by eapply maintain_spec| |by left].
  cbv beta. intros _ w1 HM. pose proof (aborted_maintained _ _ _ HM) as Hab. apply wp_lift_no_panic; [apply validate_active_no_panic| |].
  - intros [] Hok. apply validate_active_ok in Hok as [r0 Hr0]; [|apply HWI].
    destruct (mt_kept _ _ _ HM _ _ (au_lookup _ _ _ _ Hr0)) as (r & Hr & Hsame);
      [apply Hr0|]. exists r. split; [done| |by exists r0].
    destruct Hsame as (Hreg & _). destruct Hr0 as [_ Hc Hl]. split; [done|..];
      unfold reg_credentials, reg_expiry in *; by rewrite Hreg.
  - done.
Qed.

Lemma wp_validated_registration c msg now w r Q X :
  authentic now c (w_state w) r → Q r w →
  wp (validated_registration c msg) Q X w.
Proof.
  intros Hau HQ. unfold validated_registration, get_state. wp_steps.
  eapply wp_expect; [apply Hau|done].
Qed.

(** ** The store after a commit of one row *)

Lemma Sync_put st st' p p' id t' :
  reconciliation_required st = false → Sync st p →
  view p' = apply_batch (single_task_batch (image id t')) (view p) →
  durable_rows (tasks st') = <[id := image id t']> (durable_rows (tasks st)) →
  next_registration_epoch st' = next_registration_epoch st →
  Sync st' p'.
Proof.
  intros Hflag [_ He Hr] Hv Hrows Hep. split; rewrite Hv; simpl.
  - rewrite Hep, He by done. lia.
  - intros _. by rewrite Hep, He.
  - intros _. rewrite Hrows, Hr by done. done.
Qed.

Lemma Sync_same st st' p :
  reconciliation_required st = false → Sync st p →
  durable_rows (tasks st') = durable_rows (tasks st) →
  next_registration_epoch st' = next_registration_epoch st → Sync st' p.
Proof.
  intros Hflag [Hle He Hr] Hrows Hep.
  split; rewrite ?Hep, ?Hrows; [done|by intros _; apply He|by intros _; apply Hr].
Qed.

(** ** Reads *)

Lemma authenticate_spec clk now c w :
  WInv clk w → (clk ≤ now)%Z →
  wp (authenticate c now)
    (λ reg w1, ∃ r, begun now c w w1 r ∧ reg = rs_registration r) (λ _ w', aborted now w w') w.
Proof.
  intros HWI Hle. unfold authenticate. wp_step.
  eapply wp_mono; [by eapply validate_and_maintain_spec| |done].
  cbv beta. intros _ w1 [r Hb]. wp_step. eapply wp_validated_registration; [apply Hb|]. wp_steps. eauto.
Qed.

Lemma task_snapshot_spec clk now c id w :
  WInv clk w → (clk ≤ now)%Z →
  wp (task_snapshot c id now)
    (λ row w1, ∃ r t, begun now c w w1 r ∧ tasks (w_state w1) !! id = Some t ∧
                      sender t = reg_name r ∧ row = image id t) (λ _ w', aborted now w w') w.
Proof.
  intros HWI Hle. unfold task_snapshot. wp_step.
  eapply wp_mono; [by eapply validate_and_maintain_spec| |done].
  cbv beta. intros _ w1 [r Hb]. pose proof (bg_maintained _ _ _ _ _ Hb) as HM.
  pose proof (mt_inv _ _ _ HM) as HWI1. pose proof (aborted_maintained _ _ _ HM) as Hab.
  wp_step. eapply wp_validated_registration; [apply Hb|]. unfold get_state. wp_steps.
  wp_step; [|done]. intros t Ht. wp_steps. wp_step; [|done].
  intros Hs%negb_false_iff%bool_decide_eq_true.
  rewrite durable_task_image by by apply HWI1. apply wp_lift. eauto 10.
Qed.

Lemma task_snapshot_for_sender_spec clk now name id w :
  WInv clk w → (clk ≤ now)%Z →
  wp (task_snapshot_for_sender name id now)
    (λ row w1, ∃ t, Maintained now w w1 ∧ tasks (w_state w1) !! id = Some t ∧
                    sender t = name ∧ row = image id t) (λ _ w', aborted now w w') w.
Proof.
  intros HWI Hle. unfold task_snapshot_for_sender. wp_step.
  eapply wp_mono; [by eapply maintain_spec| |by left].
  cbv beta. intros _ w1 HM. pose proof (aborted_maintained _ _ _ HM) as Hab. pose proof (mt_inv _ _ _ HM) as HWI1. unfold get_state. wp_steps.
  wp_step; [|done]. intros t Ht. wp_steps. wp_step; [|done].
  intros Hs%negb_false_iff%bool_decide_eq_true.
  rewrite durable_task_image by by apply HWI1. apply wp_lift. eauto 10.
Qed.

(** ** Acknowledging *)

Lemma alter_as_insert {K A} `{Countable K} (f : A → A) (m : gmap K A) k x :
  m !! k = Some x → alter f k m = <[k := f x]> m.
Proof.
  intros Hk. apply map_eq. intros k'. destruct (decide (k = k')) as [<-|Hne].
  - by rewrite lookup_alter_eq, lookup_insert_eq, Hk.
  - by rewrite lookup_alter_ne, lookup_insert_ne.
Qed.

(** The owner of an unacknowledged lease is the recipient's registration. *)
Lemma owner_registration st id t l c r :
  Core st → tasks st !! id = Some t → acknowledged t = false → lease t = Some l →
  lease_owner l = Some c → registrations st !! cred_id c = Some r →
  reg_name r = recipient t ∧ registrations_by_agent st !! recipient t = Some (cred_id c).
Proof.
  intros HC Ht Ha Hl Ho Hr. destruct (core_owners _ HC id t l Ht Ha Hl) as (rid & r' & Hr' & Hn & Ho').
  assert (rid = cred_id c) as ->.
  { pose proof (regs_key _ _ _ (core_regs _ HC) _ _ Hr') as Hk. rewrite Ho in Ho'.
    injection Ho' as ->. unfold reg_credentials. simpl. by rewrite Hk. }
  simplify_eq. split; [done|]. rewrite <-Hn. by apply (regs_named _ _ _ (core_regs _ HC)).
Qed.

Lemma valid_delivery_lease t d now :
  valid_delivery t d now = true →
  ∃ l, lease t = Some l ∧ lease_delivery_id l = d ∧
    (acknowledged t = true ∨ (now < lease_until_unix_ms l)%Z).
Proof.
  unfold valid_delivery. destruct (lease t) as [l|]; [|done]. intros Hv.
  repeat apply andb_true_iff in Hv as [Hv ?]. apply bool_decide_eq_true in Hv.
  exists l. split_and!; [done..|]. destruct (acknowledged t); [by left|right].
  by apply Z.ltb_lt.
Qed.

(** What a successful acknowledgement has done. *)
Definition ack_post (now : Z) c (d : DeliveryId) w w' : Prop :=
  ∃ w1 r id t l, begun now c w w1 r ∧ tasks_by_delivery (w_state w1) !! d = Some id ∧
    tasks (w_state w1) !! id = Some t ∧ lease t = Some l ∧ lease_delivery_id l = d ∧
    ((acknowledged t = true ∧ recipient t = reg_name r ∧ w' = w1) ∨
     (acknowledged t = false ∧ lease_owner l = Some c ∧ (now < lease_until_unix_ms l)%Z ∧
      w_shared w' = w_shared w1 ∧
      w_state w' = acked id (state_version t + 1) now (cred_id c) t (w_state w1))).

Lemma ack_delivery_spec clk now c d w :
  WInv clk w → (clk ≤ now)%Z →
  wp (ack_delivery c d now) (λ _ w', WInv now w' ∧ ack_post now c d w w')
    (λ _ w', aborted now w w') w.
Proof.
  intros HWI Hle. unfold ack_delivery. wp_step.
  eapply wp_mono; [by eapply validate_and_maintain_spec| |done].
  cbv beta. intros _ w1 [r Hb]. pose proof Hb as [HM Hau _].
  pose proof (aborted_maintained _ _ _ HM) as Hab.
  pose proof (mt_inv _ _ _ HM) as HWI1. pose proof (inv_core _ _ (wi_inv _ _ HWI1)) as HC.
  wp_step. eapply wp_validated_registration; [exact Hau|]. unfold get_state. wp_steps.
  wp_step; [|done]. intros id Hid. wp_steps.
  pose proof (proj1 (core_deliveries _ HC d id) Hid) as (t & l & Ht & Hl & Hdl).
  eapply wp_expect; [exact Ht|]. wp_steps. wp_step; [|done].
  intros Hv%negb_false_iff%valid_delivery_lease. destruct Hv as (l' & Hl' & _ & Huntil).
  rewrite Hl in Hl'. injection Hl' as <-. pose proof (core_tasks _ HC _ _ Ht) as Hwf.
  pose proof (leased_live _ _ _ Hwf Hl) as Hlive.
  apply wp_if; intros Ha.
  { wp_step; [|done]. intros Hn%negb_false_iff%bool_decide_eq_true.
    split; [done|]. exists w1, r, id, t, l. split_and!; try done. left. by split_and!. }
  wp_steps. wp_step; [|done]. intros Ho%negb_false_iff%bool_decide_eq_true.
  rewrite Hl in Ho. simpl in Ho. wp_steps.
  apply wp_lift_no_panic.
  { unfold durable_acknowledged_task, durable_task, next_state_version, or_unavailable.
    auto with herdr. }
  2: done.
  intros row Hrow. apply durable_acknowledged_done in Hrow as (v & Hv & ->); [|done..].
  wp_steps. pose proof (checked_version _ _ Hv) as ->. apply wp_commit_transition.
  2: { intros e w'. apply aborted_commit; [done|]. eapply single_row_evolved; [apply HM..|exact Ht|].
       apply row_moved_live; [by eapply rtc_once, step_acknowledged|done]. }
  intros p' Hp'. wp_steps. eapply wp_expect; [exact Ht|]. wp_steps.
  apply wp_lift. unfold or_unavailable. rewrite Hv. simpl. unfold modify_state. wp_steps.
  eapply (wp_validated_registration c _ now _ r); [by destruct Hau; split|]. wp_steps. simpl.
  set (w' := _ <| w_state ::= _ |> <| w_state ::= _ |>).
  assert (w_state w' = acked id (state_version t + 1) now (cred_id c) t (w_state w1)) as Hst.
  { pose proof (alter_as_insert (retain_inbox id) _ _ _ (au_lookup _ _ _ _ Hau)) as Halter.
    unfold w', acked. clear -Halter. destruct w1 as [[] ? ?]. unfold update; simpl in *.
    by rewrite Halter. }
  destruct (owner_registration _ _ _ _ _ _ HC Ht Ha Hl Ho (au_lookup _ _ _ _ Hau)) as [_ Hby].
  split.
  - split.
    + rewrite Hst. apply Inv_acked; [apply HWI1|done|done|by eexists|done].
    + eapply Sync_put; [exact (mt_flag _ _ _ HM)|apply HWI1|exact Hp'|..]; rewrite Hst; simpl.
      * by rewrite durable_rows_insert.
      * done.
    + rewrite Hst. simpl. eapply (WaitOK_tasks []); [|done|apply HWI1].
      intros k Hk. left. by eapply attached_update.
  - exists w1, r, id, t, l. split_and!; try done. right. destruct Huntil; [congruence|].
    by split_and!.
Qed.
End specs.
