(* ===== verification/BrokerDelivery.v ===== *)
(** * Specification of [poll_delivery] *)
From stdpp Require Import prelude gmap strings sorting.
From S2P Require Import Prelude RustStd Model Validation Durability BrokerState BrokerDurable BrokerMaintain BrokerOps.
From S2P Require Import BrokerInv BrokerPrim BrokerTrans BrokerImage BrokerRecover BrokerRestore BrokerWorld BrokerUpkeep.
From S2P Require Import BrokerMaintained BrokerSpec.

Section delivery.
Context `{JsonNumber} {serde : SerdeJson} {P : Type} {persistence : BrokerPersistence P}.
Context {spec : PersistenceSpec P}.
Implicit Types (w : World P) (st : State) (t : TaskRecord) (c : RegistrationCredentials).

(** The lease and the message [poll_delivery] makes for a task. *)
Definition next_attempt t : option Z :=
  match last_delivery_attempt t with
  | Some attempt => checked_add_u32 attempt 1
  | None => Some (qd_attempt (original_delivery t))
  end.

Definition new_lease c (fresh : DeliveryId) (now attempt : Z) : DeliveryLease :=
  MkDeliveryLease fresh (Some c) (now + DELIVERY_LEASE_MS) attempt.

Definition message_of (fresh : DeliveryId) (now attempt : Z) t : DeliveredMessage :=
  let d := original_delivery t in
  MkDeliveredMessage fresh (qd_task_id d) (qd_context_id d) (qd_sender d) (qd_recipient d)
    (qd_payload d) (now + DELIVERY_LEASE_MS) attempt.

(** Task [id] of [w] has been leased to [c], giving [w']. *)
Definition leased_post (now : Z) c (fresh : DeliveryId) (id : string) t
    (message : DeliveredMessage) w w' : Prop :=
  ∃ attempt, next_attempt t = Some attempt ∧ message = message_of fresh now attempt t ∧
    w_shared w' = w_shared w ∧
    w_state w' = leased id (state_version t + 1) (new_lease c fresh now attempt) t (w_state w).

Lemma lease_task_spec now c r fresh id t d w :
  WInv now w → reconciliation_required (w_state w) = false → authentic now c (w_state w) r →
  tasks (w_state w) !! id = Some t → live t → acknowledged t = false →
  delivery t = Some d → recipient t = reg_name r →
  tasks_by_delivery (w_state w) !! fresh = None →
  wp (lease_task c now fresh id t d)
    (λ poll w', WInv now w' ∧ ∃ message, poll = Ready message ∧
                leased_post now c fresh id t message w w')
    (λ _ w', stopped now w w') w.
Proof.
  intros HWI Hflag Hau Ht Hlive Ha Hd Hn Hfresh. pose proof (stopped_refl _ _ HWI) as Hst0.
  pose proof (inv_core _ _ (wi_inv _ _ HWI)) as HC.
  pose proof (core_tasks _ HC _ _ Ht) as Hwf. pose proof (wf_phase _ _ Hwf) as Hp.
  rewrite Hlive in Hp. pose proof (live_delivery _ Hp) as Hd'. rewrite Hd in Hd'.
  injection Hd' as ->. unfold lease_task. wp_step.
  apply wp_lift_no_panic; [destruct (last_delivery_attempt t); unfold or_unavailable; auto with herdr| |done].
  intros attempt Hattempt.
  assert (next_attempt t = Some attempt) as Hnext.
  { unfold next_attempt, or_unavailable in *. destruct (last_delivery_attempt t); [|congruence].
    destruct (checked_add_u32 _ _); by simplify_eq/=. }
  wp_steps. unfold or_unavailable. wp_step; [|done]. intros ends Huntil. wp_steps.
  apply checked_Some in Huntil as [-> _].
  apply wp_lift_no_panic.
  { unfold durable_leased_task, durable_task, next_state_version, or_unavailable. auto with herdr. }
  2: done.
  intros row Hrow. apply durable_leased_done in Hrow as (v & Hv & ->); [|done..].
  wp_steps. apply wp_commit_transition.
  2: { intros e w'. apply stopped_commit; [done|]. pose proof (checked_version _ _ Hv) as ->.
       eapply single_row_evolved; [done..|exact Ht|].
       by apply row_moved_live; [apply rtc_once, step_leased|]. }
  intros p' Hp'. unfold get_state, modify_state. wp_steps. eapply wp_expect; [exact Ht|].
  wp_steps. wp_step; [|by rewrite Hv]. intros v' Hv'. rewrite Hv in Hv'. injection Hv' as <-.
  wp_steps. pose proof (checked_version _ _ Hv) as ->.
  set (w' := _ <| w_state ::= _ |> <| w_state ::= _ |> <| w_state ::= _ |>).
  set (l := new_lease c fresh now attempt).
  assert (w_state w' = leased id (state_version t + 1) l t (w_state w)) as Hst.
  { unfold w'. simpl. rewrite forget_delivery_eq. done. }
  split; [|exists (message_of fresh now attempt t); split; [done|by exists attempt]].
  split.
  - rewrite Hst. apply (Inv_leased now id _ l t (cred_id c) r); try done; [apply HWI|apply Hau|].
    simpl. by rewrite (au_credentials _ _ _ _ Hau).
  - eapply Sync_put; [exact Hflag|apply HWI|exact Hp'|..]; rewrite Hst; simpl.
    + by rewrite durable_rows_insert.
    + done.
  - rewrite Hst. simpl. eapply (WaitOK_tasks []); [|done|apply HWI].
    intros k Hk. left. by eapply attached_update.
Qed.

(** A task that is out on a lease at [now]. *)
Definition out_on_lease (now : Z) st (id : string) : Prop :=
  ∃ t l, tasks st !! id = Some t ∧ lease t = Some l ∧ (now < lease_until_unix_ms l)%Z.

(** The next event of a waiting task: the end of its lease or of its delivery. *)
Definition wakes_by (st : State) (id : string) (deadline : Z) : Prop :=
  ∀ t l, tasks st !! id = Some t → lease t = Some l →
    (deadline ≤ lease_until_unix_ms l)%Z ∧
    (deadline ≤ qd_created_unix_ms (original_delivery t) + DELIVERY_TTL_MS)%Z.

(** The oldest task that is not out on a lease is delivered; when all are, the
    poll names the next deadline, which is in the future. *)
Definition poll_post (now : Z) c (fresh : DeliveryId) (r : RegistrationState) (inbox : list string)
    (bound : Z) w (poll : DeliveryPoll) w' : Prop :=
  match poll with
  | Ready message =>
      ∃ before id after t, inbox = before ++ id :: after ∧
        Forall (out_on_lease now (w_state w)) before ∧
        tasks (w_state w) !! id = Some t ∧ ¬ out_on_lease now (w_state w) id ∧
        leased_post now c fresh id t message w w'
  | Pending deadline =>
      w' = w ∧ Forall (out_on_lease now (w_state w)) inbox ∧
      (now < deadline ≤ bound)%Z ∧ Forall (λ id, wakes_by (w_state w) id deadline) inbox
  end.

Lemma poll_tasks_spec now c r fresh inbox bound w :
  WInv now w → reconciliation_required (w_state w) = false → authentic now c (w_state w) r →
  tasks_by_delivery (w_state w) !! fresh = None →
  (∀ id t, tasks (w_state w) !! id = Some t → is_due now t = false) →
  (∀ id, id ∈ inbox → ∃ t, tasks (w_state w) !! id = Some t ∧ live t ∧
     acknowledged t = false ∧ recipient t = reg_name r) →
  (now < bound)%Z →
  wp (poll_tasks c now fresh inbox bound)
    (λ poll w', WInv now w' ∧ poll_post now c fresh r inbox bound w poll w')
    (λ _ w', stopped now w w') w.
Proof.
  intros HWI Hflag Hau Hfresh Hdue. pose proof (stopped_refl _ _ HWI) as Hst0. revert bound.
  induction inbox as [|id inbox IH]; intros bound Hin Hbound; cbn [poll_tasks].
  { wp_steps. split; [done|]. split_and!; try done; try constructor; lia. }
  destruct (Hin id) as (t & Ht & Hlive & Ha & Hn); [set_solver|].
  pose proof (inv_core _ _ (wi_inv _ _ HWI)) as HC.
  pose proof (core_tasks _ HC _ _ Ht) as Hwf. pose proof (wf_phase _ _ Hwf) as Hp.
  rewrite Hlive in Hp. pose proof (live_fields _ Hp) as [= Hre Hf Hrj Hc He].
  unfold get_state. wp_steps. rewrite Ht, Hc, He, Hre, Ha. cbn [orb is_some].
  rewrite (live_delivery _ Hp). wp_steps.
  destruct (wf_deadline _ _ Hwf) as [deadline Hdl]. apply wp_lift. unfold or_unavailable.
  rewrite Hdl. cbn [ok_or]. apply checked_Some in Hdl as [-> _].
  assert (now < qd_created_unix_ms (original_delivery t) + DELIVERY_TTL_MS)%Z as Hnow.
  { specialize (Hdue id t Ht). unfold is_due in Hdue. rewrite Hlive in Hdue.
    by apply Z.leb_gt in Hdue. }
  assert (¬ out_on_lease now (w_state w) id →
    wp (lease_task c now fresh id t (original_delivery t))
      (λ poll w', WInv now w' ∧ poll_post now c fresh r (id :: inbox) bound w poll w')
      (λ _ w', stopped now w w') w) as Hlease.
  { intros Hout. eapply wp_mono; [by apply (lease_task_spec now c r); [..|apply Hp| |]| |done].
    cbv beta. intros poll w' (HWI' & message & -> & Hpost). split; [done|].
    exists [], id, inbox, t. by split_and!. }
  destruct (lease t) as [l|] eqn:Hl.
  2: { apply Hlease. intros (t' & l & ? & ? & _). congruence. }
  apply wp_if; intros Hcmp.
  2: { apply Hlease. intros (t' & l' & ? & ? & Hlt). simplify_eq.
       apply Z.ltb_ge in Hcmp. lia. }
  apply Z.ltb_lt in Hcmp.
  assert (out_on_lease now (w_state w) id) as Hout by (exists t, l; by split_and!).
  eapply wp_mono; [apply IH; [set_solver|lia]| |done].
  cbv beta. intros [message|deadline] w' [HWI' Hpost]; (split; [done|]).
  - destruct Hpost as (before & id' & after & t' & -> & Hall & Hrest).
    exists (id :: before), id', after, t'. split_and!; [done|by constructor|apply Hrest..].
  - destruct Hpost as (-> & Hall & Hdead & Hwake). split_and!; [done|by constructor|lia|lia|].
    constructor; [|done]. intros t' l' ? ?. simplify_eq. lia.
Qed.

Lemma poll_delivery_spec clk now c fresh w :
  WInv clk w → (clk ≤ now)%Z →
  fresh_delivery fresh w →
  wp (poll_delivery c now fresh)
    (λ poll w', WInv now w' ∧ ∃ w1 r, begun now c w w1 r ∧
                poll_post now c fresh r (rs_inbox r) (reg_expiry r) w1 poll w')
    (λ _ w', aborted now w w') w.
Proof.
  intros HWI Hle Hfresh. unfold poll_delivery. wp_step.
  eapply wp_mono; [by eapply validate_and_maintain_spec| |done].
  cbv beta. intros _ w1 [r Hb]. pose proof Hb as [HM Hau _].
  pose proof (aborted_maintained _ _ _ HM) as Hab.
  pose proof (mt_inv _ _ _ HM) as HWI1. pose proof (inv_core _ _ (wi_inv _ _ HWI1)) as HC.
  wp_step. eapply wp_validated_registration; [exact Hau|].
  eapply wp_mono; [apply (poll_tasks_spec now c r)| |intros e w'; by apply aborted_stopped]; try done.
  - apply HM.
  - eapply fresh_lookup; [apply HWI1|]. by apply HM.
  - apply HM.
  - intros id Hid. destruct (core_inbox _ HC _ _ (au_lookup _ _ _ _ Hau)) as [Hin _].
    destruct (Hin id Hid) as (s & Hs & [Hl Ha] & Hn).
    apply lookup_shapes in Hs as (t & Ht & ->). by exists t.
  - apply Hau.
  - cbv beta. intros poll w' [? ?]. eauto.
Qed.
End delivery.

(** * Specifications of the operations that end a task

    [reply_task], [fail_task], [reject_task] and [cancel_task] share one
    transaction: commit the terminal row, write it, resolve the waiters. *)
Section terminal.
Context `{JsonNumber} {serde : SerdeJson} {P : Type} {persistence : BrokerPersistence P}.
Context {spec : PersistenceSpec P}.
Implicit Types (w : World P) (st : State) (t : TaskRecord) (c : RegistrationCredentials).

(** Task [id] of [w] has ended in [o] and its waiters have received [result]. *)
Record finished (now : Z) (id : string) t (o : TerminalState) (result : ReplyResult) w w'
    : Prop := {
  fin_state : w_state w' = terminalized id now (now + TERMINAL_RETENTION_MS)
                             (state_version t + 1) o t (w_state w);
  fin_shared : w_shared w' = resolve_reply_waiters
                 ((λ k, (k, result)) <$> reply_waiters t) (w_shared w);
}.

Lemma attached_terminalized id now d v o t st k :
  tasks st !! id = Some t → attached (tasks st) k →
  attached (tasks (terminalized id now d v o t st)) k ∨ k ∈ reply_waiters t.
Proof.
  intros Hid (id' & t' & Ht' & Hk). simpl. destruct (decide (id = id')) as [<-|Hne].
  - right. by simplify_eq.
  - left. exists id', t'. by rewrite lookup_insert_ne.
Qed.

(** The transaction all four operations end with. *)
Lemma finish_spec now id t o result w :
  WInv now w → reconciliation_required (w_state w) = false →
  tasks (w_state w) !! id = Some t → live t →
  wp (let! durable := st_lift
        (durable_terminal_task id t now (outcome_state o) (outcome_fields o).1) in
      let! _ := commit_transition (single_task_batch durable) in
      let! waiters := on_state (terminalize_task id now o) in
      send_all waiters result)
    (λ _ w', WInv now w' ∧ finished now id t o result w w') (λ _ w', stopped now w w') w.
Proof.
  intros HWI Hflag Ht Hlive. pose proof (stopped_refl _ _ HWI) as Hst0. wp_steps. apply wp_lift_no_panic.
  { unfold durable_terminal_task, durable_task, next_state_version, or_unavailable.
    auto 10 with herdr. }
  2: done.
  intros row Hrow. apply durable_terminal_done in Hrow as (v & d & Hv & Hd & ->).
  wp_steps. apply wp_commit_transition.
  2: { intros e w'. apply stopped_commit; [done|]. pose proof (checked_version _ _ Hv) as ->.
       apply checked_Some in Hd as [-> _]. eapply single_row_evolved; [done..|exact Ht|].
       apply row_moved_terminal; [by apply HWI|done]. }
  intros p' Hp'. wp_steps. apply wp_zoom. simpl.
  eapply wp_run; [by apply terminalize_task_run|]. unfold send_all, modify_shared. wp_steps. simpl.
  pose proof (checked_version _ _ Hv) as ->. pose proof Hd as Hd'.
  apply checked_Some in Hd' as [-> _]. split; [|by split].
  split; simpl.
  - by apply Inv_terminalized; [apply HWI|..].
  - eapply Sync_put; [exact Hflag|apply HWI|exact Hp'|..]; [|done].
    simpl. by rewrite durable_rows_insert.
  - apply (WaitOK_resolve (reply_waiters t)).
    + eapply (WaitOK_tasks []); [|set_solver|apply HWI].
      intros k. by apply attached_terminalized.
    + intros k Hk. rewrite <-list_fmap_compose. apply list_elem_of_fmap. eauto.
Qed.

(** A task without a recorded outcome is live. *)
Lemma no_outcome_live id t :
  task_wf id t → canceled t = false → expired t = false → reply t = None → live t.
Proof.
  intros Hwf Hc He Hr. pose proof (wf_phase _ _ Hwf) as Hp. unfold live.
  destruct (terminal_deadline_unix_ms t); [|done]. destruct Hp as [_ _ _ _ [o Ho] _].
  unfold task_fields in Ho. destruct o; simpl in Ho; congruence.
Qed.

(** ** [reply_task] *)

Definition reply_post (now : Z) c (id : string) (rp : ReplyPayload) w w' : Prop :=
  ∃ w1 r t, begun now c w w1 r ∧ tasks (w_state w1) !! id = Some t ∧
    recipient t = reg_name r ∧
    ((task_fields t = outcome_fields (TerminalReplied rp) ∧ w' = w1) ∨
     (live t ∧ finished now id t (TerminalReplied rp) (Ok rp) w1 w')).

Lemma reply_task_spec clk now c id rp w :
  WInv clk w → (clk ≤ now)%Z →
  wp (reply_task c id rp now) (λ _ w', WInv now w' ∧ reply_post now c id rp w w')
    (λ _ w', aborted now w w') w.
Proof.
  intros HWI Hle. unfold reply_task. wp_step.
  eapply wp_mono; [by eapply validate_and_maintain_spec| |done].
  cbv beta. intros _ w1 [r Hb]. pose proof Hb as [HM Hau _].
  pose proof (aborted_maintained _ _ _ HM) as Hab.
  pose proof (mt_inv _ _ _ HM) as HWI1. pose proof (inv_core _ _ (wi_inv _ _ HWI1)) as HC.
  wp_step. eapply wp_validated_registration; [exact Hau|]. unfold get_state. wp_steps.
  wp_step; [|done]. intros t Ht. wp_steps. wp_step; [|done].
  intros Hn%negb_false_iff%bool_decide_eq_true. wp_steps. wp_step; [intros Hc|done]. wp_steps.
  wp_step; [intros He|done]. wp_steps. wp_step; [intros Hfr%orb_false_iff|done].
  pose proof (core_tasks _ HC _ _ Ht) as Hwf.
  destruct (reply t) as [existing|] eqn:Hr.
  - wp_step; [intros Heq%negb_false_iff%bool_decide_eq_true|done]. split; [done|].
    exists w1, r, t. split_and!; try done. left. split; [|done].
    unfold task_fields. destruct Hfr as [-> ->]. by rewrite Hr, Hc, He, Heq.
  - pose proof (no_outcome_live _ _ Hwf Hc He Hr) as Hlive.
    eapply wp_mono; [apply (finish_spec now id t (TerminalReplied rp)); try done; apply HM| |intros e w'; by apply aborted_stopped].
    cbv beta. intros _ w' [? ?]. split; [done|]. exists w1, r, t.
    split_and!; [done..|]. by right.
Qed.

(** ** [fail_task] and [reject_task] *)

Definition recipient_outcome (outcome : RecipientTerminalState) (m : ReplyPayload)
    : TerminalState :=
  match outcome with RecipientFailed => TerminalFailed m | RecipientRejected => TerminalRejected m end.

Definition recipient_error (outcome : RecipientTerminalState) : DomainError :=
  match outcome with RecipientFailed => TaskFailed | RecipientRejected => TaskRejected end.

Definition recipient_terminal_post (now : Z) c (id : string) (m : ReplyPayload)
    (outcome : RecipientTerminalState) w w' : Prop :=
  ∃ w1 r t, begun now c w w1 r ∧ tasks (w_state w1) !! id = Some t ∧
    recipient t = reg_name r ∧
    ((task_fields t = outcome_fields (recipient_outcome outcome m) ∧ w' = w1) ∨
     (live t ∧ finished now id t (recipient_outcome outcome m) (Err (recipient_error outcome)) w1 w')).

Lemma same_outcome_fields id t outcome m :
  task_wf id t →
  match outcome with RecipientFailed => failed t | RecipientRejected => rejected t end
    && bool_decide (reply t = Some m) = true →
  task_fields t = outcome_fields (recipient_outcome outcome m).
Proof.
  intros Hwf [Hf Hr%bool_decide_eq_true]%andb_true_iff. pose proof (wf_phase _ _ Hwf) as Hp.
  unfold task_fields in *. destruct (terminal_deadline_unix_ms t).
  - destruct Hp as [_ _ _ _ [o Ho] _]. unfold task_fields in Ho.
    destruct o, outcome; simpl in *; simplify_eq; congruence.
  - pose proof (live_fields _ Hp) as [=]. congruence.
Qed.

Lemma recipient_terminal_spec clk now c id m outcome w :
  WInv clk w → (clk ≤ now)%Z →
  wp (recipient_terminal c id m outcome now)
    (λ _ w', WInv now w' ∧ recipient_terminal_post now c id m outcome w w')
    (λ _ w', aborted now w w') w.
Proof.
  intros HWI Hle. unfold recipient_terminal. wp_step.
  eapply wp_mono; [by eapply validate_and_maintain_spec| |done].
  cbv beta. intros _ w1 [r Hb]. pose proof Hb as [HM Hau _].
  pose proof (aborted_maintained _ _ _ HM) as Hab.
  pose proof (mt_inv _ _ _ HM) as HWI1. pose proof (inv_core _ _ (wi_inv _ _ HWI1)) as HC.
  wp_step. eapply wp_validated_registration; [exact Hau|]. unfold get_state. wp_steps.
  wp_step; [|done]. intros t Ht. wp_steps. wp_step; [|done].
  intros Hn%negb_false_iff%bool_decide_eq_true. pose proof (core_tasks _ HC _ _ Ht) as Hwf.
  apply wp_if; intros Hsame.
  - wp_steps. split; [done|]. exists w1, r, t. split_and!; try done. left. split; [|done].
    by eapply same_outcome_fields.
  - wp_step. wp_step; [intros Hno|done].
    apply orb_false_iff in Hno as [[[[Hc He]%orb_false_iff _]%orb_false_iff _]%orb_false_iff Hr].
    assert (reply t = None) as Hr' by by destruct (reply t).
    pose proof (no_outcome_live _ _ Hwf Hc He Hr') as Hlive.
    destruct outcome; cbv iota beta.
    + eapply wp_mono; [apply (finish_spec now id t (TerminalFailed m)); try done; apply HM| |intros e w'; by apply aborted_stopped].
      cbv beta. intros _ w' [? ?]. split; [done|]. exists w1, r, t.
      split_and!; [done..|]. by right.
    + eapply wp_mono; [apply (finish_spec now id t (TerminalRejected m)); try done; apply HM| |intros e w'; by apply aborted_stopped].
      cbv beta. intros _ w' [? ?]. split; [done|]. exists w1, r, t.
      split_and!; [done..|]. by right.
Qed.

(** ** [cancel_task] *)

Definition cancel_post (now : Z) c (id : string) w w' : Prop :=
  ∃ w1 r t, begun now c w w1 r ∧ tasks (w_state w1) !! id = Some t ∧
    sender t = reg_name r ∧
    ((canceled t = true ∧ w' = w1) ∨
     (live t ∧ finished now id t TerminalCanceled (Err TaskCanceled) w1 w')).

Lemma cancel_task_spec clk now c id w :
  WInv clk w → (clk ≤ now)%Z →
  wp (cancel_task c id now) (λ _ w', WInv now w' ∧ cancel_post now c id w w')
    (λ _ w', aborted now w w') w.
Proof.
  intros HWI Hle. unfold cancel_task. wp_step.
  eapply wp_mono; [by eapply validate_and_maintain_spec| |done].
  cbv beta. intros _ w1 [r Hb]. pose proof Hb as [HM Hau _].
  pose proof (aborted_maintained _ _ _ HM) as Hab.
  pose proof (mt_inv _ _ _ HM) as HWI1. pose proof (inv_core _ _ (wi_inv _ _ HWI1)) as HC.
  wp_step. eapply wp_validated_registration; [exact Hau|]. unfold get_state. wp_steps.
  wp_step; [|done]. intros t Ht. wp_steps. wp_step; [|done].
  intros Hn%negb_false_iff%bool_decide_eq_true. pose proof (core_tasks _ HC _ _ Ht) as Hwf.
  apply wp_if; intros Hc.
  - wp_steps. split; [done|]. exists w1, r, t. split_and!; try done. by left.
  - wp_steps. wp_step; [intros He|done]. wp_steps. wp_step; [intros Hr|done].
    assert (reply t = None) as Hr' by by destruct (reply t).
    pose proof (no_outcome_live _ _ Hwf Hc He Hr') as Hlive.
    eapply wp_mono; [apply (finish_spec now id t TerminalCanceled); try done; apply HM| |intros e w'; by apply aborted_stopped].
    cbv beta. intros _ w' [? ?]. split; [done|]. exists w1, r, t.
    split_and!; [done..|]. by right.
Qed.
End terminal.

(** * Specifications of [enqueue], [start_or_resume] and the waits *)
Section queue.
Context `{JsonNumber} {serde : SerdeJson} {P : Type} {persistence : BrokerPersistence P}.
Context {spec : PersistenceSpec P}.
Implicit Types (w : World P) (st : State) (t : TaskRecord) (c : RegistrationCredentials).
Implicit Types (d : QueuedDelivery).

Lemma active_registration_ok st name now rid :
  Core st → active_registration_id st name now = Some rid →
  ∃ r, registrations st !! rid = Some r ∧ reg_name r = name ∧ (now < reg_expiry r)%Z.
Proof.
  intros HC. unfold active_registration_id.
  destruct (registrations_by_agent st !! name) as [rid'|] eqn:Hby; [|done]. simpl.
  destruct (registrations st !! rid') as [r|] eqn:Hr; [|done]. simpl.
  destruct (now <? _)%Z eqn:Hlt; [|done]. intros [= <-]. apply Z.ltb_lt in Hlt.
  destruct (regs_indexed _ _ _ (core_regs _ HC) _ _ Hby) as (r' & Hr' & Hn). simplify_eq.
  by exists r.
Qed.

(** What a successful [enqueue] has done. *)
Definition enqueue_post (now : Z) c d (handle : DeliveryHandle) w w' : Prop :=
  ∃ w1 r rid rr, begun now c w w1 r ∧ reg_name r = qd_sender d ∧
    tasks (w_state w1) !! qd_task_id d = None ∧
    (size (tasks (w_state w1)) < MAX_RETAINED_TASKS)%nat ∧
    (size (default ∅ (outbound_tasks_by_agent (w_state w1) !! qd_sender d))
       < MAX_ACTIVE_OUTBOUND_TASKS)%nat ∧
    registrations (w_state w1) !! rid = Some rr ∧ reg_name rr = qd_recipient d ∧
    handle = MkDeliveryHandle (qd_task_id d) (qd_context_id d) ∧
    w_state w' = enqueued (now + DELIVERY_TTL_MS) (qd_sender d)
                   (d <| qd_created_unix_ms := now |>) now rid rr (w_state w1) ∧
    w_shared w' = notify_one (rs_notify rr) (w_shared w1).

Lemma enqueue_spec clk now c d w :
  WInv clk w → (clk ≤ now)%Z →
  wp (enqueue c d now) (λ handle w', WInv now w' ∧ enqueue_post now c d handle w w')
    (λ _ w', aborted now w w') w.
Proof.
  intros HWI Hle. unfold enqueue. wp_step.
  eapply wp_mono; [by eapply validate_and_maintain_spec| |done].
  cbv beta. intros _ w1 [r Hb]. pose proof Hb as [HM Hau _].
  pose proof (aborted_maintained _ _ _ HM) as Hab.
  pose proof (mt_inv _ _ _ HM) as HWI1. pose proof (inv_core _ _ (wi_inv _ _ HWI1)) as HC.
  unfold get_state. wp_steps. wp_step; [intros Hnew|done].
  assert (tasks (w_state w1) !! qd_task_id d = None) as Hid
    by by destruct (tasks (w_state w1) !! qd_task_id d).
  wp_steps. wp_step; [intros Hsize%Nat.leb_gt|done]. wp_steps.
  eapply wp_validated_registration; [exact Hau|]. wp_steps.
  wp_step; [intros Hn%negb_false_iff%bool_decide_eq_true|done]. wp_steps.
  wp_step; [intros Hout%Nat.leb_gt|done]. wp_steps. wp_step; [|done]. intros rid Hrid.
  destruct (active_registration_ok _ _ _ _ HC Hrid) as (rr & Hrr & Hnr & _).
  wp_steps. unfold or_unavailable. wp_step; [|done]. intros seq Hseq. wp_steps.
  wp_step; [|done]. intros deadline Hdl. wp_steps.
  apply wp_commit_transition.
  2: { intros e w'. apply aborted_commit; [done|]. apply (store_evolved_new now _ (qd_task_id d)).
       unfold held_rows. by rewrite (sync_rows _ _ (wi_sync _ _ HWI1) (mt_flag _ _ _ HM)), lookup_durable_rows, Hid. }
  intros p' Hp'. unfold modify_state, modify_shared. wp_steps.
  eapply wp_expect; [exact Hrr|]. wp_steps.
  apply checked_Some in Hseq as [-> _].
  set (d' := d <| qd_created_unix_ms := now |>) in *.
  change (registered_name r) with (reg_name r) in *. rewrite Hn in *.
  assert (checked_add_i64 (qd_created_unix_ms d') DELIVERY_TTL_MS = Some deadline) as Hdl' by done.
  pose proof Hdl as Hdv. apply checked_Some in Hdv as [-> _].
  set (w' := _ <| w_shared ::= notify_one _ |>).
  assert (w_state w' = enqueued (now + DELIVERY_TTL_MS) (qd_sender d) d' now rid rr (w_state w1))
    as Hst by done.
  assert (Inv now (enqueued (now + DELIVERY_TTL_MS) (qd_sender d) d' now rid rr (w_state w1)))
    as HI'.
  { apply (Inv_enqueued now _ d'); try done; [apply HWI1]. }
  split; [|by exists w1, r, rid, rr].
  split; [by rewrite Hst| |].
  - eapply (Sync_put (w_state w1) _ (w_store w1) p' (qd_task_id d)); [apply HM|apply HWI1| |..].
    + rewrite Hp'. change (qd_sender d) with (qd_sender d'). change (qd_task_id d) with (qd_task_id d').
      rewrite (new_durable_task_image (next_task_sequence (w_state w1) + 1) d') by done. done.
    + rewrite Hst. simpl. by rewrite durable_rows_insert.
    + by rewrite Hst.
  - rewrite Hst. apply (WaitOK_shared _ _ (w_shared w1)); [done..|].
    eapply (WaitOK_tasks []); [|done|apply HWI1]. intros k (id & t & Ht & Hk). left.
    exists id, t. split; [|done]. simpl. rewrite lookup_insert_ne; [done|]. intros <-.
    change (qd_task_id d') with (qd_task_id d) in Ht. congruence.
Qed.

(** [start_or_resume_lookup]: an existing task is returned as it is. *)
Lemma start_or_resume_lookup_spec clk now c d w :
  WInv clk w → (clk ≤ now)%Z →
  wp (start_or_resume_lookup c d now)
    (λ found w1, ∃ r, begun now c w w1 r ∧ reg_name r = qd_sender d ∧
       match tasks (w_state w1) !! qd_task_id d with
       | Some t =>
           sender t = qd_sender d ∧ recipient t = qd_recipient d ∧
           qd_context_id (original_delivery t) = qd_context_id d ∧
           qd_payload (original_delivery t) = qd_payload d ∧
           found = Some (if is_some (terminal_deadline_unix_ms t)
                         then Terminal (image (qd_task_id d) t)
                         else Active (image (qd_task_id d) t))
       | None => found = None
       end)
    (λ _ w', aborted now w w') w.
Proof.
  intros HWI Hle. unfold start_or_resume_lookup. wp_step.
  eapply wp_mono; [by eapply validate_and_maintain_spec| |done].
  cbv beta. intros _ w1 [r Hb]. pose proof Hb as [HM Hau _].
  pose proof (aborted_maintained _ _ _ HM) as Hab.
  pose proof (mt_inv _ _ _ HM) as HWI1. pose proof (inv_core _ _ (wi_inv _ _ HWI1)) as HC.
  wp_step. eapply wp_validated_registration; [exact Hau|]. unfold get_state. wp_steps.
  wp_step; [intros Hn%negb_false_iff%bool_decide_eq_true|done]. wp_steps.
  destruct (tasks (w_state w1) !! qd_task_id d) as [t|] eqn:Ht.
  - pose proof (core_tasks _ HC _ _ Ht) as Hwf. wp_steps. wp_step; [|done]. intros Hsame.
    apply orb_false_iff in Hsame as [[[H1 H2]%orb_false_iff H3]%orb_false_iff H4].
    apply negb_false_iff, bool_decide_eq_true in H1, H2, H3, H4.
    rewrite (durable_task_image _ _ Hwf). wp_steps. apply wp_lift. wp_steps.
    exists r. split_and!; try done. rewrite Ht. split_and!; try done. f_equal.
    simpl. pose proof (wf_phase _ _ Hwf) as Hp.
    destruct (terminal_deadline_unix_ms t); simpl.
    + destruct Hp as [_ _ _ _ [o Ho] _]. rewrite (outcome_durable_state o t Ho). by destruct o.
    + rewrite (live_durable_state t Hp). by destruct (acknowledged t), (is_some (lease t)).
  - wp_steps. wp_step; [|done]. intros rid _. wp_steps. exists r. split_and!; try done. by rewrite Ht.
Qed.

(** ** Waiting for a delivery *)

Lemma begin_wait_spec clk now c w :
  WInv clk w → (clk ≤ now)%Z →
  wp (begin_wait c now)
    (λ key w', ∃ w1 r, begun now c w w1 r ∧ key = rs_wait_active r ∧
       default false (flags (w_shared w1) !! key) = false ∧ WInv now w' ∧
       w_state w' = w_state w1 ∧ flags (w_shared w') = <[key := true]> (flags (w_shared w1)))
    (λ _ w', aborted now w w') w.
Proof.
  intros HWI Hle. unfold begin_wait. wp_step.
  eapply wp_mono; [by eapply validate_and_maintain_spec| |done].
  cbv beta. intros _ w1 [r Hb]. pose proof (bg_maintained _ _ _ _ _ Hb) as HM.
  pose proof (mt_inv _ _ _ HM) as HWI1. pose proof (aborted_maintained _ _ _ HM) as Hab.
  wp_step. eapply wp_validated_registration; [apply Hb|]. unfold modify_shared. wp_steps.
  wp_step; [intros Hflag|done]. wp_steps. exists w1, r. split_and!; try done.
  destruct HWI1 as [HI HS HW]. split; [done..|]. by apply (WaitOK_shared _ _ (w_shared w1)).
Qed.

Lemma drop_wait_guard_inv now key w : WInv now w → WInv now (drop_wait_guard key w).
Proof. intros [HI HS HW]. split; [done..|]. by apply (WaitOK_shared _ _ (w_shared w)). Qed.

(** ** Waiting for a reply *)

Lemma reply_or_error_no_panic t : no_panic (reply_or_error t).
Proof. unfold reply_or_error. auto 10 with herdr. Qed.

Lemma reply_or_error_done t found :
  reply_or_error t = Done found → found = reply t ∧ (reply t = None → reply_result_for_task t = None).
Proof.
  unfold reply_or_error, reply_result_for_task.
  destruct (canceled t), (expired t), (failed t), (rejected t); simpl; try done.
  intros [= <-]. split; [done|]. by intros ->.
Qed.

Lemma reply_wait_begin_spec clk now name id w :
  WInv clk w → (clk ≤ now)%Z →
  wp (reply_wait_begin name id now)
    (λ result w', WInv now w' ∧ ∃ w1 t, Maintained now w w1 ∧
       tasks (w_state w1) !! id = Some t ∧ sender t = name ∧
       match result with
       | inl r => reply t = Some r ∧ w' = w1
       | inr k => live t ∧ k = next_channel (w_shared w1) ∧
                  channels (w_shared w') = <[k := ChannelOpen]> (channels (w_shared w1)) ∧
                  (∃ waiters, k ∈ waiters ∧ w_state w' = (w_state w1)
                     <| tasks ::= insert id (t <| reply_waiters := waiters |>) |>)
       end)
    (λ _ w', aborted now w w') w.
Proof.
  intros HWI Hle. unfold reply_wait_begin. wp_step.
  eapply wp_mono; [by eapply maintain_spec| |by left].
  cbv beta. intros _ w1 HM. pose proof (aborted_maintained _ _ _ HM) as Hab. pose proof (mt_inv _ _ _ HM) as HWI1.
  pose proof (inv_core _ _ (wi_inv _ _ HWI1)) as HC. unfold get_state. wp_steps.
  wp_step; [|done]. intros t Ht. wp_steps.
  wp_step; [intros Hs%negb_false_iff%bool_decide_eq_true|done]. wp_steps.
  apply wp_lift_no_panic; [apply reply_or_error_no_panic| |done].
  intros found [-> Hlive]%reply_or_error_done.
  destruct (reply t) as [r|] eqn:Hr.
  { wp_steps. split; [done|]. exists w1, t. by split_and!. }
  specialize (Hlive eq_refl). pose proof (core_tasks _ HC _ _ Ht) as Hwf.
  apply (reply_result_live id) in Hlive; [|done].
  unfold modify_shared, modify_state. wp_steps. simpl.
  set (k := next_channel (w_shared w1)). set (waiters := filter _ (reply_waiters t) ++ [k]).
  split.
  2: { exists w1, t. split_and!; try done. exists waiters. split; [|done].
       unfold waiters. set_solver. }
  destruct HWI1 as [HI HS [Hat Hfr]]. split; simpl.
  - by apply Inv_waiters.
  - eapply Sync_same; [apply HM|exact HS| |done]. simpl. by eapply durable_rows_update.
  - split; simpl.
    + intros k'. rewrite lookup_insert_Some. intros [[<- _]|[Hne Hk']].
      * left. exists id. eexists. rewrite lookup_insert_eq. split; [done|]. simpl.
        unfold waiters. set_solver.
      * destruct (Hat k' Hk') as [(id' & t' & Ht' & Hin)|?]; [left|set_solver].
        destruct (decide (id = id')) as [<-|Hid].
        -- exists id. eexists. rewrite lookup_insert_eq. split; [done|]. simpl. unfold waiters.
           apply elem_of_app. left. apply list_elem_of_filter. simplify_eq.
           split; [|done]. unfold waiter_is_closed. by rewrite Hk'.
        -- exists id', t'. by rewrite lookup_insert_ne.
    + intros k' Hk'. rewrite lookup_insert in Hk'. case_decide; [subst; unfold k; lia|].
      apply Hfr in Hk'. lia.
Qed.
End queue.
