(* ===== verification/BrokerRegistry.v ===== *)
(** * Specifications of [register], [renew] and [remove_registration] *)
From stdpp Require Import prelude gmap strings sorting.
From S2P Require Import Prelude RustStd Model Validation Durability BrokerState BrokerDurable.
From S2P Require Import BrokerMaintain BrokerOps BrokerInv BrokerPrim BrokerTrans BrokerImage.
From S2P Require Import BrokerRecover BrokerRestore BrokerWorld BrokerUpkeep BrokerMaintained.
From S2P Require Import BrokerSpec.

(** ** Requeueing the leases of one registration *)

Section requeue.
Context `{JsonNumber}.
Implicit Types (st : State) (t : TaskRecord) (c : RegistrationCredentials).

Definition requeue c t : TaskRecord := drop_lease c (bump_task c t).

Lemma requeue_eq c t : requeue c t = if leased_to c t then requeued_record t else t.
Proof.
  unfold requeue, drop_lease. rewrite leased_to_bump. unfold bump_task.
  by destruct (leased_to c t).
Qed.

Lemma requeue_moves now st c id t :
  Core st → tasks st !! id = Some t → row_moved now (image id t) (image id (requeue c t)).
Proof.
  intros HC Ht. rewrite requeue_eq. destruct (leased_to c t) eqn:Hl; [|done].
  apply leased_to_iff in Hl as (Ha & l & Hl & _). eapply row_moved_requeued; [by apply HC|done..].
Qed.

(** The committed rows are the images of the requeued records. *)
Lemma requeued_tasks_done c st rows :
  Core st → requeued_tasks c st = Done rows →
  can_requeue c st ∧
  upsert_all rows (durable_rows (tasks st)) = durable_rows (requeue c <$> tasks st).
Proof.
  intros HC Hrows%try_map_Forall2. set (l := filter _ _) in Hrows.
  assert (∀ kv, kv ∈ l ↔ tasks st !! kv.1 = Some kv.2 ∧ leased_to c kv.2 = true) as Hl.
  { intros [k t]. unfold l. rewrite list_elem_of_filter, elem_of_map_to_list. simpl. tauto. }
  assert (NoDup l.*1) as Hnd.
  { eapply sublist_NoDup; [apply (NoDup_fst_map_to_list (tasks st))|].
    apply fmap_sublist, sublist_filter. }
  clearbody l.
  assert (Forall2 (λ kv row, row = image kv.1 (requeued_record kv.2) ∧
    checked_add_u64 (state_version kv.2) 1 = Some (state_version kv.2 + 1)%Z) l rows) as Hf2.
  { apply Forall2_same_length_lookup_2; [by eapply Forall2_length|].
    intros i [k t] row Hi Hrow. pose proof (Forall2_lookup_lr _ _ _ _ _ _ Hrows Hi Hrow) as Hrun.
    apply list_elem_of_lookup_2, Hl in Hi as [Ht Hlt]. simpl in *.
    pose proof (core_tasks _ HC _ _ Ht) as Hwf. apply leased_to_iff in Hlt as (Ha & lt & Hlt & _).
    apply durable_requeued_done in Hrun as [Hv ->]; [|done|by eapply leased_live|done]. done. }
  split.
  - intros id t Ht Hlt. assert ((id, t) ∈ l) as Hin by by apply Hl.
    apply list_elem_of_lookup in Hin as [i Hi].
    by destruct (Forall2_lookup_l _ _ _ _ _ Hf2 Hi) as (row & _ & _ & ?).
  - apply map_eq. intros id. rewrite lookup_durable_rows, lookup_fmap.
    assert (dt_task_id <$> rows = l.*1) as Hids.
    { clear -Hf2. induction Hf2 as [|[k t] row l rows [-> _] _ IH]; [done|]. cbn. by rewrite IH. }
    destruct (decide (id ∈ l.*1)) as [Hin|Hin].
    + apply list_elem_of_fmap in Hin as ([k t] & -> & Hin). simpl.
      pose proof (proj1 (Hl _) Hin) as [Ht Hlt]. simpl in *. rewrite Ht. simpl.
      apply list_elem_of_lookup in Hin as [i Hi].
      destruct (Forall2_lookup_l _ _ _ _ _ Hf2 Hi) as (row & Hrow & -> & _).
      apply list_elem_of_lookup_2 in Hrow.
      rewrite (lookup_upsert_all rows _ (image k (requeued_record t))); [|by rewrite Hids|done].
      by rewrite requeue_eq, Hlt.
    + rewrite lookup_upsert_all_ne by by rewrite Hids. rewrite lookup_durable_rows.
      destruct (tasks st !! id) as [t|] eqn:Ht; [|done]. simpl. rewrite requeue_eq.
      destruct (leased_to c t) eqn:Hlt; [|done]. destruct Hin.
      apply list_elem_of_fmap. exists (id, t). split; [done|]. by apply Hl.
Qed.

Lemma requeued_tasks_no_panic c st : no_panic (requeued_tasks c st).
Proof.
  unfold requeued_tasks, durable_requeued_task, durable_task, next_state_version, or_unavailable.
  auto 10 with herdr.
Qed.

(** The two writes that follow the commit. *)
Lemma requeue_detach_run clk rid retire r st :
  Inv clk st → registrations st !! rid = Some r → can_requeue (reg_credentials r) st →
  ∃ st1 st2, bump_requeued_versions_for_credentials (reg_credentials r) st = (Done tt, st1) ∧
    detach_registration rid retire st1 = (Some r, st2) ∧ Inv clk st2 ∧
    tasks st2 = requeue (reg_credentials r) <$> tasks st ∧
    registrations st2 = delete rid (registrations st) ∧
    registrations_by_agent st2 = delete (reg_name r) (registrations_by_agent st) ∧
    upkeep_frame st st2.
Proof.
  intros HI Hr Hcan. pose proof (Inv_bump clk (reg_credentials r) st HI) as HI1.
  set (st1 := st <| tasks ::= fmap (bump_task (reg_credentials r)) |>) in *.
  destruct (detach_registration_run rid retire r st1) as (st2 & Hrun & HD);
    [apply HI1|done|]. exists st1, st2. split_and!.
  - by apply bump_run.
  - done.
  - by eapply Inv_detached.
  - rewrite (det_tasks _ _ _ _ HD). simpl. by rewrite <-map_fmap_compose.
  - by rewrite (det_regs _ _ _ _ HD).
  - by rewrite (det_by_agent _ _ _ _ HD).
  - etrans; [|by eapply detached_frame]. by split.
Qed.

(** The inbox [register] builds for an agent. *)
Lemma queued_task_id_run st name id :
  Core st → idx_mem name id (active_tasks_by_agent st) →
  ∃ t, tasks st !! id = Some t ∧ live t ∧
    queued_task_id st name id
    = Done (if bool_decide (recipient t = name) && negb (acknowledged t)
            then Some (enqueue_sequence t, id) else None).
Proof.
  intros HC Hmem. apply (proj2 (core_active _ HC)) in Hmem as (s & Hs & Hlive & _).
  apply lookup_shapes in Hs as (t & Ht & ->). exists t. split_and!; [done..|].
  unfold queued_task_id. rewrite Ht. simpl. pose proof (wf_phase _ _ (core_tasks _ HC _ _ Ht)) as Hp.
  unfold sh_live in Hlive. simpl in Hlive. rewrite Hlive in Hp.
  pose proof (live_fields _ Hp) as [= Hre Hf Hrj Hc He].
  rewrite Hc, He, Hre, (live_delivery _ Hp). simpl.
  by destruct (bool_decide _), (acknowledged t).
Qed.

Definition queued_entry st (name : AgentName) (id : string) : option Deadline :=
  t ← tasks st !! id;
  if bool_decide (recipient t = name) && negb (acknowledged t)
  then Some (enqueue_sequence t, id) else None.

Lemma queued_task_ids_run st name :
  Core st → ∃ inbox, queued_task_ids st name = Done inbox ∧ is_inbox name inbox st.
Proof.
  intros HC. unfold queued_task_ids. set (ids := elements _).
  assert (∀ id, id ∈ ids ↔ idx_mem name id (active_tasks_by_agent st)) as Hids.
  { intros id. unfold ids, idx_mem. by rewrite elem_of_elements. }
  rewrite (try_filter_map_done _ (queued_entry st name)).
  2: { intros id Hid%Hids. destruct (queued_task_id_run st name id HC Hid) as (t & Ht & _ & ->).
       unfold queued_entry. by rewrite Ht. }
  simpl. eexists. split; [done|]. set (l := omap (queued_entry st name) ids).
  assert (∀ e, e ∈ l ↔ ∃ t, tasks st !! e.2 = Some t ∧ live t ∧ recipient t = name ∧
            acknowledged t = false ∧ e.1 = enqueue_sequence t) as Hl.
  { intros [seq id]. unfold l. rewrite list_elem_of_omap. split.
    - intros (id' & Hid & He). apply Hids in Hid.
      destruct (queued_task_id_run st name id' HC Hid) as (t & Ht & Hlive & _).
      unfold queued_entry in He. rewrite Ht in He. simpl in He.
      destruct (bool_decide_reflect (recipient t = name)) as [Hn|]; [|done].
      destruct (acknowledged t) eqn:Ha; [done|]. simpl in He. simplify_eq. eauto 10.
    - intros (t & Ht & Hlive & Hn & Ha & Hseq). simpl in *. exists id. split.
      + apply Hids, (proj2 (core_active _ HC)). exists (shape t).
        split_and!; [by apply lookup_shapes_Some|done|by right].
      + unfold queued_entry. rewrite Ht. simpl. by rewrite bool_decide_true, Ha, Hseq. }
  assert (NoDup l.*2) as Hnd.
  { eapply sublist_NoDup; [apply (NoDup_elements (default ∅ (active_tasks_by_agent st !! name)))|].
    fold ids. unfold l. clear. induction ids as [|id ids IH]; [done|]. cbn [omap list_omap].
    unfold queued_entry at 1. destruct (tasks st !! id) as [t|]; simpl; [|by constructor].
    destruct (_ && _); by constructor. }
  split.
  - intros id. rewrite merge_sort_Permutation, list_elem_of_fmap. split.
    + intros (e & -> & (t & Ht & Hlive & Hn & Ha & _)%Hl). exists (shape t).
      split_and!; [by apply lookup_shapes_Some|by split|done].
    + intros (s & (t & Ht & ->)%lookup_shapes & [Hlive Ha] & Hn).
      exists (enqueue_sequence t, id). split; [done|]. apply Hl. by exists t.
  - eapply sorted_by_sequence; [apply (core_seq _ HC)|apply StronglySorted_merge_sort; apply _|..].
    + by rewrite merge_sort_Permutation.
    + intros e. rewrite merge_sort_Permutation. intros (t & Ht & _ & _ & _ & Hseq)%Hl.
      exists (shape t). split; [by apply lookup_shapes_Some|done].
Qed.
End requeue.

(** ** The operations *)

Section registry.
Context `{JsonNumber} {serde : SerdeJson} {P : Type} {persistence : BrokerPersistence P}.
Context {spec : PersistenceSpec P}.
Implicit Types (w : World P) (st : State) (t : TaskRecord) (c : RegistrationCredentials).

(** The registration an agent had, and what becomes of its leases. *)
Definition old_registration st (name : AgentName) : option RegistrationState :=
  id ← registrations_by_agent st !! name; registrations st !! id.

Definition requeue_old st (name : AgentName) (t : TaskRecord) : TaskRecord :=
  match old_registration st name with
  | Some r => requeue (reg_credentials r) t
  | None => t
  end.

Lemma requeue_old_moves now st name id t :
  Core st → tasks st !! id = Some t → row_moved now (image id t) (image id (requeue_old st name t)).
Proof.
  intros HC Ht. unfold requeue_old. destruct (old_registration st name); [|done].
  by eapply requeue_moves.
Qed.

(** What a successful [register] has done. *)
Record register_post (now : Z) (agent : VerifiedAgent) (session : string)
    (fresh : RegistrationId) (reg : Registration) w1 w' : Prop := {
  rp_reg : reg = MkRegistration fresh
    (MkRegistrationEpoch (next_registration_epoch (w_state w1) + 1)) agent session
    (now + REGISTRATION_TTL_MS);
  rp_entry : ∃ r, registrations (w_state w') !! fresh = Some r ∧ rs_registration r = reg ∧
    is_inbox (agent_name agent) (rs_inbox r) (w_state w');
  rp_name : registrations_by_agent (w_state w') !! agent_name agent = Some fresh;
  rp_others : ∀ rid, rid ≠ fresh →
    registrations (w_state w') !! rid
    = if bool_decide (registrations_by_agent (w_state w1) !! agent_name agent = Some rid)
      then None else registrations (w_state w1) !! rid;
  rp_epoch : next_registration_epoch (w_state w') = (next_registration_epoch (w_state w1) + 1)%Z;
  rp_tasks : tasks (w_state w')
    = requeue_old (w_state w1) (agent_name agent) <$> tasks (w_state w1);
  rp_flag : reconciliation_required (w_state w') = reconciliation_required (w_state w1);
}.

(** The writes that detach the previous registration, if there is one. *)
Lemma detach_old_run clk st name :
  Inv clk st →
  (∀ r, old_registration st name = Some r → can_requeue (reg_credentials r) st) →
  ∃ st1 st2,
    match (id ← registrations_by_agent st !! name; r ← registrations st !! id;
           Some (credentials (rs_registration r))) with
    | Some c => bump_requeued_versions_for_credentials c
    | None => st_ret tt
    end st = (Done tt, st1) ∧
    match registrations_by_agent st !! name with
    | Some id => detach_registration id true st1
    | None => (None, st1)
    end = (old_registration st name, st2) ∧
    Inv clk st2 ∧ tasks st2 = requeue_old st name <$> tasks st ∧
    registrations_by_agent st2 !! name = None ∧
    (∀ rid, registrations st2 !! rid
            = if bool_decide (registrations_by_agent st !! name = Some rid)
              then None else registrations st !! rid) ∧ upkeep_frame st st2.
Proof.
  intros HI Hcan. unfold requeue_old, old_registration in *.
  destruct (registrations_by_agent st !! name) as [rid|] eqn:Hby; simpl in *.
  - destruct (regs_indexed _ _ _ (core_regs _ (inv_core _ _ HI)) _ _ Hby) as (r & Hr & Hn).
    rewrite Hr in *. simpl in *.
    destruct (requeue_detach_run clk rid true r st HI Hr (Hcan r eq_refl))
      as (st1 & st2 & H1 & H2 & HI2 & Hts & Hregs & Hby2 & Hfr).
    exists st1, st2. split_and!; try done.
    + by rewrite Hby2, Hn, lookup_delete_eq.
    + intros rid'. rewrite Hregs. destruct (decide (rid = rid')) as [<-|Hne].
      * by rewrite lookup_delete_eq, bool_decide_true.
      * by rewrite lookup_delete_ne, bool_decide_false by congruence.
  - exists st, st. split_and!; try done. by rewrite map_fmap_id.
Qed.

Lemma renew_spec clk now c w :
  WInv clk w → (clk ≤ now)%Z →
  wp (renew c now)
    (λ reg w', WInv now w' ∧ ∃ w1 r, begun now c w w1 r ∧
       reg = (rs_registration r) <| reg_expires_unix_ms := (now + REGISTRATION_TTL_MS)%Z |> ∧
       w_state w' = renewed (cred_id c) (now + REGISTRATION_TTL_MS) r (w_state w1) ∧
       w_shared w' = w_shared w1)
    (λ _ w', aborted now w w') w.
Proof.
  intros HWI Hle. unfold renew. wp_step.
  eapply wp_mono; [by eapply validate_and_maintain_spec| |done].
  cbv beta. intros _ w1 [r Hb]. pose proof Hb as [HM Hau _].
  pose proof (aborted_maintained _ _ _ HM) as Hab.
  pose proof (mt_inv _ _ _ HM) as [HI HS HW]. wp_steps. unfold or_unavailable.
  wp_step; [|done]. intros expiry Hexp. wp_steps. apply checked_Some in Hexp as [-> _].
  eapply wp_validated_registration; [exact Hau|]. unfold modify_state. wp_steps.
  split; [|by exists w1, r]. split; simpl.
  - by apply Inv_renewed; [|apply Hau..].
  - eapply Sync_same; [apply HM|exact HS|done..].
  - done.
Qed.

(** What a successful [remove_registration] has done. *)
Definition remove_post (now : Z) c w w' : Prop :=
  ∃ w1 r, begun now c w w1 r ∧
    registrations (w_state w') = delete (cred_id c) (registrations (w_state w1)) ∧
    registrations_by_agent (w_state w')
    = delete (reg_name r) (registrations_by_agent (w_state w1)) ∧
    tasks (w_state w') = requeue c <$> tasks (w_state w1) ∧
    reconciliation_required (w_state w') = reconciliation_required (w_state w1).

Lemma Sync_upsert st st' p p' e rows :
  reconciliation_required st = false → Sync st p →
  view p' = apply_batch (MkBatch e rows []) (view p) →
  upsert_all rows (durable_rows (tasks st)) = durable_rows (tasks st') →
  next_registration_epoch st' = match e with
                                | Some e => Z.max (epoch_get e) (next_registration_epoch st)
                                | None => next_registration_epoch st
                                end →
  Sync st' p'.
Proof.
  intros Hflag [_ He Hr] Hv Hrows Hep.
  assert (view_epoch (view p') = next_registration_epoch st') as Hve.
  { rewrite Hv, Hep. simpl. rewrite He by done. by destruct e. }
  split; [lia|done|]. intros _. rewrite Hv. simpl. by rewrite Hr, Hrows.
Qed.

Lemma attached_requeue c (ts : gmap string TaskRecord) k :
  attached ts k → attached (requeue c <$> ts) k.
Proof. apply attached_fmap. intros t. rewrite requeue_eq. by destruct (leased_to c t). Qed.

Lemma remove_registration_spec clk now c w :
  WInv clk w → (clk ≤ now)%Z →
  wp (remove_registration c now) (λ _ w', WInv now w' ∧ remove_post now c w w')
    (λ _ w', aborted now w w') w.
Proof.
  intros HWI Hle. unfold remove_registration. wp_step.
  eapply wp_mono; [by eapply validate_and_maintain_spec| |done].
  cbv beta. intros _ w1 [r Hb]. pose proof Hb as [HM Hau _].
  pose proof (aborted_maintained _ _ _ HM) as Hab.
  pose proof (mt_inv _ _ _ HM) as HWI1. pose proof HWI1 as [HI HS HW].
  pose proof (inv_core _ _ HI) as HC. unfold get_state. wp_steps.
  apply wp_lift_no_panic; [apply requeued_tasks_no_panic| |done].
  intros rows Hrows. apply requeued_tasks_done in Hrows as [Hcan Hrows]; [|done].
  destruct Hau as [Hr Hc Hexp]. rewrite <-Hc in Hcan.
  destruct (requeue_detach_run now (cred_id c) false r (w_state w1) HI Hr Hcan)
    as (st1 & st2 & H1 & H2 & HI2 & Hts & Hregs & Hby & Hfr). rewrite Hc in *.
  assert (∀ w2, w_state w2 = w_state w1 → w_shared w2 = w_shared w1 →
    view (w_store w2) = apply_batch (MkBatch None rows []) (view (w_store w1)) →
    wp (let! _ := on_state (bump_requeued_versions_for_credentials c) in
        let! st := st_gets w_state in
        let '(registration, st) := detach_registration (cred_id c) false st in
        let! _ := modify_state (λ _, st) in
        let! r := st_lift (expect registration "validated registration must remain active") in
        let! _ := modify_shared (λ sh, sh <| directory ::= directory_record |>) in
        modify_shared (notify_one (rs_notify r)))
      (λ _ w', WInv now w' ∧ remove_post now c w w') (λ _ w', aborted now w w') w2) as Hrest.
  { intros w2 Hs2 Hsh2 Hv2. wp_steps. apply wp_zoom. rewrite Hs2. eapply wp_run; [exact H1|].
    wp_steps. simpl. rewrite H2. cbv iota beta. unfold modify_state, modify_shared. wp_steps.
    eapply wp_expect; [done|]. wp_steps. simpl.
    split; [|exists w1, r; split_and!; try done; apply Hfr].
    split; simpl; [done| |].
    - eapply Sync_upsert; [apply HM|exact HS|exact Hv2|by rewrite Hts|]. apply Hfr.
    - apply (WaitOK_shared _ _ (w_shared w1)); [by rewrite <-Hsh2..|].
      eapply (WaitOK_tasks []); [|done|exact HW]. intros k Hk. left. rewrite Hts.
      by apply attached_requeue. }
  destruct rows as [|row rows].
  - do 2 wp_step. by apply Hrest; rewrite ?apply_empty_batch.
  - wp_step. apply wp_commit_transition.
    2: { intros e w'. apply aborted_commit; [done|].
         eapply upserted_rows_evolved; [done|apply HM|exact Hrows|].
         intros id t Ht. by eapply requeue_moves. }
    intros p' Hp'. by apply Hrest.
Qed.

(** The rows [register] commits for the previous registration. *)
Definition old_rows st (name : AgentName) : Outcome DomainError (list DurableTask) :=
  match (id ← registrations_by_agent st !! name; r ← registrations st !! id;
         Some (credentials (rs_registration r))) with
  | Some c => requeued_tasks c st
  | None => Done []
  end.

Lemma old_rows_no_panic st name : no_panic (old_rows st name).
Proof. unfold old_rows. case_match; [apply requeued_tasks_no_panic|done]. Qed.

Lemma old_rows_done st name rows :
  Core st → old_rows st name = Done rows →
  (∀ r, old_registration st name = Some r → can_requeue (reg_credentials r) st) ∧
  upsert_all rows (durable_rows (tasks st)) = durable_rows (requeue_old st name <$> tasks st).
Proof.
  intros HC. unfold old_rows, requeue_old, old_registration.
  destruct (registrations_by_agent st !! name) as [rid|]; simpl.
  - destruct (registrations st !! rid) as [r|]; simpl.
    + intros [Hcan Hrows]%requeued_tasks_done; [|done]. split; [|done]. by intros r' [= <-].
    + intros [= <-]. by rewrite map_fmap_id.
  - intros [= <-]. by rewrite map_fmap_id.
Qed.

Lemma attached_requeue_old st name k :
  attached (tasks st) k → attached (requeue_old st name <$> tasks st) k.
Proof.
  apply attached_fmap. intros t. unfold requeue_old. destruct (old_registration st name); [|done].
  rewrite requeue_eq. by destruct (leased_to _ t).
Qed.

(** The writes of [register] after its commit. *)
Definition register_writes (agent : VerifiedAgent) (registration : Registration)
    (fresh : RegistrationId) (epoch now : Z) (old_registration_id : option RegistrationId)
    (old_credentials : option RegistrationCredentials) : ST (World P) DomainError Registration :=
  let name := agent_name agent in
  let! _ := modify_state (λ st, st <| next_registration_epoch := epoch |>) in
  let! _ := match old_credentials with
            | Some c => on_state (bump_requeued_versions_for_credentials c)
            | None => st_ret tt
            end in
  let! st := get_state in
  let '(old_registration, st) :=
    match old_registration_id with
    | Some id => detach_registration id true st
    | None => (None, st)
    end in
  let! _ := modify_state (λ _, st) in
  let! inbox := st_lift (queued_task_ids st name) in
  let! key := st_gets (λ w, next_key (w_shared w)) in
  let! _ := modify_shared (λ sh,
    sh <| next_key ::= λ k, (k + 2)%nat |> <| flags ::= insert (S key) false |>) in
  let entry := MkRegistrationState registration inbox key (S key) in
  let! _ := modify_state (λ st,
    record_status_event "registered" name now
      (st <| registrations_by_agent ::= insert name fresh |>
          <| registrations ::= insert fresh entry |>)) in
  let! _ := modify_shared (λ sh, sh <| directory ::= directory_record |>) in
  let! _ := match old_registration with
            | Some r => modify_shared (notify_one (rs_notify r))
            | None => st_ret tt
            end in
  st_ret registration.

Lemma bump_old_run (o : option RegistrationCredentials) w st1 Q X :
  match o with
  | Some c => bump_requeued_versions_for_credentials c
  | None => st_ret tt
  end (w_state w) = (Done tt, st1) →
  Q tt (w <| w_state := st1 |>) →
  wp (match o with
      | Some c => on_state (bump_requeued_versions_for_credentials c)
      | None => st_ret tt
      end) Q X w.
Proof.
  intros Hrun HQ. destruct o as [c|].
  - apply wp_zoom. by eapply wp_run.
  - apply wp_ret. injection Hrun as <-. by destruct w.
Qed.

Lemma register_writes_spec now agent session fresh rows w1 w2 :
  WInv now w1 → reconciliation_required (w_state w1) = false →
  registrations (w_state w1) !! fresh = None →
  old_rows (w_state w1) (agent_name agent) = Done rows →
  let epoch := (next_registration_epoch (w_state w1) + 1)%Z in
  let reg := MkRegistration fresh (MkRegistrationEpoch epoch) agent session
               (now + REGISTRATION_TTL_MS) in
  w_state w2 = w_state w1 → w_shared w2 = w_shared w1 →
  view (w_store w2)
    = apply_batch (MkBatch (Some (MkRegistrationEpoch epoch)) rows []) (view (w_store w1)) →
  wp (register_writes agent reg fresh epoch now
        (registrations_by_agent (w_state w1) !! agent_name agent)
        (id ← registrations_by_agent (w_state w1) !! agent_name agent;
         r ← registrations (w_state w1) !! id; Some (credentials (rs_registration r))))
    (λ reg' w', reg' = reg ∧ WInv now w' ∧ register_post now agent session fresh reg w1 w')
    (λ _ _, False) w2.
Proof.
  intros HWI Hflag Hfresh Hrows epoch reg Hs2 Hsh2 Hv2. pose proof HWI as [HI HS HW].
  set (name := agent_name agent) in *. set (st := w_state w1) in *.
  apply old_rows_done in Hrows as [Hcan Hrows]; [|apply HI].
  set (st0 := st <| next_registration_epoch := epoch |>).
  assert (Inv now st0) as HI0 by (apply Inv_epoch; [unfold epoch; lia|done]).
  destruct (detach_old_run now st0 name HI0 Hcan)
    as (st1 & st2 & H1 & H2 & HI2 & Hts & Hby & Hregs & Hfr).
  destruct (queued_task_ids_run st2 name) as (inbox & Hinbox & His); [apply HI2|].
  unfold register_writes, get_state, modify_state, modify_shared. wp_steps.
  eapply bump_old_run; [simpl; rewrite Hs2; exact H1|]. wp_steps. simpl.
  change (registrations_by_agent st !! name) with (registrations_by_agent st0 !! name).
  rewrite H2. cbv iota beta. wp_steps. change (agent_name agent) with name. rewrite Hinbox. apply wp_lift. wp_steps. simpl.
  set (key := next_key (w_shared w2)). set (entry := MkRegistrationState reg inbox key (S key)).
  assert (registrations st2 !! fresh = None) as Hfresh2.
  { rewrite Hregs. case_bool_decide; done. }
  assert (Inv now (registered fresh entry now st2)) as HI'.
  { apply Inv_registered; try done.
    - intros rid r'. rewrite Hregs. case_bool_decide; [done|]. intros Hr'.
      apply (regs_epoch _ _ _ (core_regs _ (inv_core _ _ HI))) in Hr'. unfold entry, reg, epoch, st in *. simpl in *. lia.
    - simpl. by rewrite (uf_epoch _ _ Hfr). }
  assert (∀ sh', channels sh' = channels (w_shared w1) → next_channel sh' = next_channel (w_shared w1) →
    WInv now (MkWorld (registered fresh entry now st2) (w_store w2) sh') ∧
    register_post now agent session fresh reg w1
      (MkWorld (registered fresh entry now st2) (w_store w2) sh')) as Hend.
  { intros sh' Hch Hnx. split.
    - split; [done| |].
      + eapply (Sync_upsert st); [exact Hflag|exact HS|exact Hv2|simpl; by rewrite Hts|].
        simpl. rewrite (uf_epoch _ _ Hfr). simpl. unfold epoch, st. lia.
      + apply (WaitOK_shared _ _ (w_shared w1)); [done..|].
        eapply (WaitOK_tasks []); [|done|exact HW]. intros k Hk. left. simpl. rewrite Hts.
        by apply attached_requeue_old.
    - split; simpl.
      + done.
      + exists entry. rewrite lookup_insert_eq. by split_and!.
      + by rewrite lookup_insert_eq.
      + intros rid Hne. rewrite lookup_insert_ne by done. by rewrite Hregs.
      + by rewrite (uf_epoch _ _ Hfr).
      + by rewrite Hts.
      + by rewrite (uf_flag _ _ Hfr). }
  rewrite <-Hsh2 in Hend. destruct (old_registration st0 name); wp_steps;
    (split; [done|]); by apply Hend.
Qed.

Lemma register_spec clk now agent session fresh w :
  WInv clk w → (clk ≤ now)%Z → registrations (w_state w) !! fresh = None →
  wp (register agent session now fresh)
    (λ reg w', WInv now w' ∧ ∃ w1, Maintained now w w1 ∧
       register_post now agent session fresh reg w1 w')
    (λ _ w', aborted now w w') w.
Proof.
  intros HWI Hle Hfresh. unfold register. wp_step.
  eapply wp_mono; [by eapply maintain_spec| |by left].
  cbv beta. intros _ w1 HM. pose proof (aborted_maintained _ _ _ HM) as Hab. pose proof (mt_inv _ _ _ HM) as HWI1.
  assert (registrations (w_state w1) !! fresh = None) as Hfresh1.
  { apply eq_None_not_Some. intros [r Hr]. destruct (mt_back _ _ _ HM _ _ Hr) as (? & ? & _).
    congruence. }
  unfold get_state at 1, or_unavailable. wp_steps. wp_step; [|done]. intros expiry Hexp.
  apply checked_Some in Hexp as [-> _]. wp_steps. wp_step; [|done]. intros epoch Hep.
  apply checked_Some in Hep as [-> _]. wp_steps.
  apply wp_lift_no_panic; [apply old_rows_no_panic| |done]. intros rows Hrows.
  wp_step. apply wp_commit_transition.
  2: { intros e w'. apply aborted_commit; [done|].
       pose proof (inv_core _ _ (wi_inv _ _ HWI1)) as HC.
       apply old_rows_done in Hrows as [_ Hrows]; [|done].
       eapply upserted_rows_evolved; [done|apply HM|exact Hrows|].
       intros id t Ht. by eapply requeue_old_moves. }
  intros p' Hp'.
  eapply wp_mono; [apply (register_writes_spec now agent session fresh rows w1); try done; apply HM|..];
    [|done].
  cbv beta. intros reg w' (-> & ? & ?). eauto.
Qed.
End registry.
