(* ===== verification/BrokerStart.v ===== *)
(** * Specifications of [recover] and of the directory *)
From stdpp Require Import prelude gmap strings sorting.
From S2P Require Import Prelude RustStd Model Validation Durability BrokerState BrokerDurable.
From S2P Require Import BrokerMaintain BrokerOps BrokerInv BrokerPrim BrokerTrans BrokerImage.
From S2P Require Import BrokerRecover BrokerRestore BrokerWorld BrokerUpkeep BrokerMaintained.
From S2P Require Import BrokerSpec.

Section start.
Context `{JsonNumber} {serde : SerdeJson} {P : Type} {persistence : BrokerPersistence P}.
Context {spec : PersistenceSpec P}.
Implicit Types (w : World P) (st : State) (p : P).

Definition initial_state (epoch : Z) : State :=
  State_default <| next_registration_epoch := epoch |>.

Lemma Core_initial epoch : Core (initial_state epoch).
Proof.
  assert (∀ owns, IdxOK owns ∅ (shapes (tasks (initial_state epoch)))) as Hidx
    by apply IdxOK_empty.
  split; simpl; try apply Hidx; try done.
  - intros d id. rewrite lookup_empty. split; [done|]. by intros (t & l & Ht & _).
  - apply HeapOK_empty.
  - apply DueOK_empty.
  - split_and!; [constructor|done|]. apply Nat.le_0_l.
  - rewrite map_size_empty. apply Nat.le_0_l.
Qed.

(** What the store of a recovered broker holds: each row reconciled. *)
Definition recovered (now : Z) p (w : World P) (report : BrokerRecoveryReport) : Prop :=
  ∃ rows vs, holds_rows (view_tasks (view p)) rows ∧ NoDup (dt_task_id <$> rows) ∧
    Forall2 (reconciles now) rows vs ∧
    holds_rows (durable_rows (tasks (w_state w))) (omap kept vs) ∧
    next_registration_epoch (w_state w) = view_epoch (view p) ∧
    registrations (w_state w) = ∅ ∧ w_shared w = Shared_default ∧
    reconciliation_required (w_state w) = false ∧
    report_restored report = length (omap kept vs).

Lemma recover_finish now vs rows p report p0 epoch :
  Forall2 (reconciles now) rows vs → NoDup (dt_task_id <$> rows) →
  NoDup (omap lease_id rows) → (length rows ≤ MAX_RETAINED_TASKS)%nat →
  holds_rows (view_tasks (view p0)) rows → epoch = view_epoch (view p0) →
  report_restored report = 0%nat →
  view p = apply_batch (MkBatch None (omap changed vs) (omap pruned vs)) (view p0) →
  let restored := recovery_order now (omap kept vs) in
  ∃ st, restore_tasks restored (initial_state epoch) = (Done tt, st) ∧
    WInv now (MkWorld st p Shared_default) ∧
    recovered now p0 (MkWorld st p Shared_default)
      (report <| report_restored ::= λ n, (n + length restored)%nat |>).
Proof.
  intros Hf2 Hids Hleases Hlen Hholds Hep Hrep Hv restored.
  assert (holds_rows (view_tasks (view p)) (omap kept vs)) as Hh.
  { rewrite Hv. by eapply reconciled_view. }
  destruct (recovery_order_ok now rows vs _ Hf2 Hids Hleases Hlen Hh) as (H1 & H2 & H3 & H4 & H5).
  fold restored in H1, H2, H3, H4, H5.
  destruct (restore_tasks_run restored (initial_state epoch))
    as (st & Hrun & HC & Hreg & Hrows & _).
  { apply Core_initial. }
  { by intros rid r Hr. }
  { split; try done. simpl. unfold MAX_RETAINED_TASKS in H4. unfold u64_max. lia. }
  { apply map_Forall_empty. }
  exists st. split; [done|].
  assert (durable_rows (tasks st) = view_tasks (view p)) as Himg.
  { rewrite Hrows. eapply holds_rows_eq; [by apply upsert_all_holds|exact H5|done]. }
  assert (next_registration_epoch st = view_epoch (view p0)) as Hnext.
  { rewrite (same_epoch _ _ Hreg). done. }
  split.
  - split; simpl.
    + split; [done|]. rewrite (same_regs _ _ Hreg). by intros rid r id s Hr.
    + split; rewrite ?Hnext, ?Himg, ?Hv; simpl; done.
    + split; simpl; [|intros k [? ?]]; done.
  - exists rows, vs. simpl. rewrite Himg, (same_regs _ _ Hreg), (same_flag _ _ Hreg), Hrep.
    split_and!; try done. simpl. apply Permutation_length, recovery_order_perm.
    by eapply kept_all.
Qed.

Lemma wp_store_commit b Q X p :
  (∀ p', view p' = apply_batch b (view p) → Q Complete p') →
  (∀ p', Q ReconciliationRequired p') → (∀ e p', X e p') →
  wp (store_commit b) Q X p.
Proof.
  intros HQ1 HQ2 HX. unfold wp, store_commit.
  destruct (commit b p) as [[[]|e] p'] eqn:Hc; simpl; [|done..].
  apply HQ1. by eapply commit_complete.
Qed.

(** The report starts from zero and the loop never counts restored rows. *)
Lemma reconcile_report_restored now rows report :
  wp (for_each (reconcile_step now) rows)
    (λ _ acc, report_restored (rec_report acc) = report_restored report) (λ _ _, True)
    (MkReconcile ∅ ∅ [] [] [] report).
Proof.
  apply (wp_for_each_inv _
    (λ acc, report_restored (rec_report acc) = report_restored report)); [done|].
  intros row acc _ Hacc. unfold reconcile_step. wp_step.
  apply wp_lift_no_panic; [apply validate_durable_task_no_panic|intros _ _|done].
  wp_steps. wp_step; [intros _|done]. wp_steps.
  assert (∀ acc', report_restored (rec_report acc') = report_restored report →
    wp (if row_overdue now row
        then st_modify (λ acc,
               acc <| rec_deletes ::= λ l, l ++ [dt_task_id row] |>
                   <| rec_report ::= λ r, r <| report_pruned ::= S |> |>)
        else
          let! (task, change) := st_lift (reconcile_task row now) in
          let! _ := match change with
                    | Unchanged => st_ret tt
                    | WasExpired => st_modify (λ acc,
                        acc <| rec_upserts ::= λ l, l ++ [task] |>
                            <| rec_report ::= λ r, r <| report_expired ::= S |> |>)
                    | WasRequeued => st_modify (λ acc,
                        acc <| rec_upserts ::= λ l, l ++ [task] |>
                            <| rec_report ::= λ r, r <| report_requeued ::= S |> |>)
                    end in
          st_modify (λ acc, acc <| rec_restored ::= λ l, l ++ [task] |>))
      (λ _ acc, report_restored (rec_report acc) = report_restored report) (λ _ _, True) acc')
    as Htail.
  { intros acc' Hacc'. destruct (row_overdue now row); [by apply wp_modify|]. wp_step.
    apply wp_lift_no_panic; [apply reconcile_task_no_panic|intros [row' change] _|done].
    wp_step. destruct change; by wp_steps. }
  destruct (dt_lease row); [wp_step; wp_step; [intros _|done]|]; wp_steps; by apply Htail.
Qed.

Lemma reconcile_snapshot_report rows now report restored batch report' :
  validate_and_reconcile_snapshot rows now report = Done (restored, batch, report') →
  report_restored report' = report_restored report.
Proof.
  unfold validate_and_reconcile_snapshot. destruct (_ <? _)%nat; [done|].
  pose proof (reconcile_report_restored now rows report) as Hwp. unfold wp in Hwp.
  destruct (for_each _ _ _) as [[[]| |] acc]; [|done..]. by intros [= _ _ <-].
Qed.

Lemma recover_spec now p :
  wp (recover now)
    (λ res p', w_store res.1 = p' ∧ WInv now res.1 ∧ recovered now p res.1 res.2)
    (λ _ _, True) p.
Proof.
  unfold recover. wp_step. unfold wp at 1, store_load.
  destruct (load now p) as [[snap|e] p1] eqn:Hload; simpl; [|done].
  destruct (load_ok _ _ _ _ Hload) as [Hv1 Hsnap]. wp_step.
  apply wp_lift_no_panic; [apply reconcile_snapshot_no_panic| |done].
  intros [[restored batch] report] Hrec.
  pose proof (reconcile_snapshot_report _ _ _ _ _ _ Hrec) as Hrep. simpl in Hrep.
  apply reconcile_snapshot_done in Hrec as (vs & Hf2 & Hids & Hleases & -> & Hb & Hlen).
  wp_steps. wp_step; [intros _|done]. wp_steps.
  pose proof Hsnap as (Hep & _ & _).
  assert (∀ p2, view p2 = apply_batch batch (view p) →
    wp (let '(result, st) :=
          restore_tasks (recovery_order now (omap kept vs))
            (initial_state (epoch_get (snap_last_registration_epoch snap))) in
        let! _ := st_lift result in
        let! p := st_get in
        st_ret (MkWorld st p Shared_default,
                report <| report_restored ::=
                  λ n, (n + length (recovery_order now (omap kept vs)))%nat |>))
      (λ res p', w_store res.1 = p' ∧ WInv now res.1 ∧ recovered now p res.1 res.2)
      (λ _ _, True) p2) as Hend.
  { intros p2 Hv2. rewrite Hb in Hv2.
    destruct (recover_finish now vs (snap_tasks snap) p2 report p
                (epoch_get (snap_last_registration_epoch snap)))
      as (st & Hrun & HW & Hr); try done; [by apply snapshot_holds|].
    rewrite Hrun. wp_steps. apply wp_lift. wp_steps. by split_and!. }
  apply wp_if; intros Hempty.
  - wp_step. apply wp_store_commit; [|intros p2; by wp_step|done].
    intros p2 Hp2. wp_step; [|done]. intros _. apply Hend. by rewrite Hp2, Hv1.
  - wp_step. apply Hend. apply negb_false_iff, batch_is_empty_eq in Hempty.
    by rewrite Hempty, apply_empty_batch.
Qed.

(** ** Directory *)

Lemma list_agents_spec clk now w :
  WInv clk w → (clk ≤ now)%Z →
  (∃ w1, Maintained now w w1 ∧
     list_agents now w = (merge_sort registration_le (live_registrations now (w_state w1)), w1)) ∨
  (∃ w', maintenance_failed now w w' ∧ list_agents now w = ([], w')).
Proof.
  intros HWI Hle. pose proof (maintain_spec clk now w HWI Hle) as Hwp. unfold wp in Hwp.
  unfold list_agents. destruct (maintain_state now w) as [[]]; [left|right|done]; eauto.
Qed.

Lemma operations_snapshot_spec clk now w :
  WInv clk w → (clk ≤ now)%Z →
  wp (operations_snapshot now)
    (λ snap w1, Maintained now w w1 ∧
       snap = MkBrokerOperationsSnapshot (length (live_registrations now (w_state w1)))
         (merge_sort agent_le
            ((λ r, agent_name (reg_agent r)) <$> live_registrations now (w_state w1)))
         (foldl count_task (MkBrokerTaskCounts 0 0 0 0) ((map_to_list (tasks (w_state w1))).*2))
         (last_event (w_state w1)))
    (λ _ w', aborted now w w') w.
Proof.
  intros HWI Hle. unfold operations_snapshot. wp_step.
  eapply wp_mono; [by eapply maintain_spec| |by left].
  cbv beta. intros _ w1 HM. unfold get_state. wp_steps. split; [done|]. f_equal.
  rewrite merge_sort_Permutation. apply length_fmap.
Qed.
End start.
