(* ===== verification/BrokerReach.v ===== *)
(** * Runs of the broker

    The critical sections of [broker.rs] as one alphabet of operations, executed
    one after the other in any order with a clock that does not go back; what the
    rest of the process does to shared objects (dropping a wait guard or a
    receiver, taking a wake-up) is part of the alphabet.  The operations that
    suspend or take the lock several times are sequences of these.  Every
    operation moves every task along its life cycle. *)
From stdpp Require Import prelude gmap strings sorting.
From S2P Require Import Prelude RustStd Model Validation Durability BrokerState BrokerDurable BrokerMaintain BrokerOps.
From S2P Require Import BrokerInv BrokerPrim BrokerTrans BrokerImage BrokerRecover BrokerRestore BrokerWorld BrokerUpkeep.
From S2P Require Import BrokerMaintained BrokerSpec BrokerDelivery BrokerRegistry BrokerStart.

Section runs.
Context `{JsonNumber} {serde : SerdeJson} {P : Type} {persistence : BrokerPersistence P}.

#[local] Abbreviation M := (ST (World P) DomainError).

Inductive Op :=
| OpRegister (agent : VerifiedAgent) (session : string) (fresh : RegistrationId)
| OpRenew (c : RegistrationCredentials)
| OpRemove (c : RegistrationCredentials)
| OpAuthenticate (c : RegistrationCredentials)
| OpListAgents
| OpOperationsSnapshot
| OpTaskSnapshot (c : RegistrationCredentials) (id : string)
| OpTaskSnapshotForSender (name : AgentName) (id : string)
| OpEnqueue (c : RegistrationCredentials) (d : QueuedDelivery)
| OpStartOrResumeLookup (c : RegistrationCredentials) (d : QueuedDelivery)
| OpBeginWait (c : RegistrationCredentials)
| OpPoll (c : RegistrationCredentials) (fresh : DeliveryId)
| OpAck (c : RegistrationCredentials) (d : DeliveryId)
| OpReply (c : RegistrationCredentials) (id : string) (r : ReplyPayload)
| OpFail (c : RegistrationCredentials) (id : string) (m : ReplyPayload)
| OpReject (c : RegistrationCredentials) (id : string) (m : ReplyPayload)
| OpCancel (c : RegistrationCredentials) (id : string)
| OpReplyWaitBegin (name : AgentName) (id : string)
| OpReplyWaitCheck (id : string)
| OpMaintain
| EnvDropGuard (key : nat)
| EnvTakePermit (key : nat)
| EnvCloseChannel (k : nat).

Definition discard {A} (m : M A) : M () := let! _ := m in st_ret tt.

(** A receiver that is dropped while its channel is open. *)
Definition close_channel (k : nat) (sh : Shared) : Shared :=
  match channels sh !! k with
  | Some ChannelOpen => sh <| channels ::= insert k ChannelClosed |>
  | _ => sh
  end.

Definition exec (op : Op) (now : Z) : M () :=
  match op with
  | OpRegister agent session fresh => discard (register agent session now fresh)
  | OpRenew c => discard (renew c now)
  | OpRemove c => remove_registration c now
  | OpAuthenticate c => discard (authenticate c now)
  | OpListAgents => λ w, (Done tt, (list_agents now w).2)
  | OpOperationsSnapshot => discard (operations_snapshot now)
  | OpTaskSnapshot c id => discard (task_snapshot c id now)
  | OpTaskSnapshotForSender name id => discard (task_snapshot_for_sender name id now)
  | OpEnqueue c d => discard (enqueue c d now)
  | OpStartOrResumeLookup c d => discard (start_or_resume_lookup c d now)
  | OpBeginWait c => discard (begin_wait c now)
  | OpPoll c fresh => discard (poll_delivery c now fresh)
  | OpAck c d => ack_delivery c d now
  | OpReply c id r => reply_task c id r now
  | OpFail c id m => fail_task c id m now
  | OpReject c id m => reject_task c id m now
  | OpCancel c id => cancel_task c id now
  | OpReplyWaitBegin name id => discard (reply_wait_begin name id now)
  | OpReplyWaitCheck id => discard (reply_wait_check id)
  | OpMaintain => maintain_state now
  | EnvDropGuard key => st_modify (drop_wait_guard key)
  | EnvTakePermit key =>
      modify_shared (λ sh, sh <| permits ::= λ p, p ∖ {[ key ]} |>)
  | EnvCloseChannel k => modify_shared (close_channel k)
  end.

Context {spec : PersistenceSpec P}.
Implicit Types (w : World P) (st : State) (t : TaskRecord).

(** Identifiers the [uuid] crate hands out are not in use. *)
Definition admissible (op : Op) w : Prop :=
  match op with
  | OpRegister _ _ fresh => registrations (w_state w) !! fresh = None
  | OpPoll _ fresh => fresh_delivery fresh w
  | _ => True
  end.

Inductive Reachable : Z → World P → Prop :=
| reach_recover now p w report p' :
    recover now p = (Done (w, report), p') → Reachable now w
| reach_exec clk now w op o w' :
    Reachable clk w → (clk ≤ now)%Z → admissible op w → exec op now w = (o, w') →
    Reachable now w'.

(** ** What a critical section does to the tasks *)

Record moved (now : Z) st st' : Prop := {
  mv_old : ∀ id t, tasks st !! id = Some t →
    ∃ t', tasks st' !! id = Some t' ∧ row_moved now (image id t) (image id t');
  mv_new : ∀ id t', tasks st' !! id = Some t' → tasks st !! id = None →
    durable_state t' = Queued ∧ state_version t' = 1%Z;
}.

Lemma moved_same now st st' : tasks st' = tasks st → moved now st st'.
Proof.
  intros Heq. split; intros id t; rewrite Heq; [|congruence]. intros Ht. by exists t.
Qed.

Lemma moved_update now st st' id t t' :
  tasks st !! id = Some t → tasks st' = <[id := t']> (tasks st) →
  row_moved now (image id t) (image id t') → moved now st st'.
Proof.
  intros Ht Heq Hstep. split; intros id' t0; rewrite Heq.
  - intros Ht0. destruct (decide (id = id')) as [<-|Hne].
    + simplify_eq. exists t'. by rewrite lookup_insert_eq.
    + exists t0. by rewrite lookup_insert_ne.
  - rewrite lookup_insert_Some. intros [[<- _]|[_ ?]] ?; congruence.
Qed.

Lemma moved_fmap now st st' (f : TaskRecord → TaskRecord) :
  (∀ id t, tasks st !! id = Some t → row_moved now (image id t) (image id (f t))) →
  tasks st' = f <$> tasks st → moved now st st'.
Proof.
  intros Hf Heq. split; intros id t; rewrite Heq, lookup_fmap.
  - intros Ht. exists (f t). rewrite Ht. split; [done|by apply Hf].
  - intros (t0 & Ht0 & _)%fmap_Some ?. congruence.
Qed.

Lemma moved_finished now id t o result w w' :
  Core (w_state w) → tasks (w_state w) !! id = Some t → live t →
  finished now id t o result w w' → moved now (w_state w) (w_state w').
Proof.
  intros HC Ht Hlive [Hst _]. eapply moved_update; [exact Ht|by rewrite Hst|].
  apply row_moved_terminal; [by apply HC|done].
Qed.

(** The three things a critical section can have done. *)
Inductive effect (now : Z) w w' : Prop :=
| eff_ran w1 :
    Maintained now w w1 → reconciliation_required (w_state w') = false →
    moved now (w_state w1) (w_state w') → effect now w w'
| eff_aborted : aborted now w w' → effect now w w'
| eff_quiet : w_state w' = w_state w → w_store w' = w_store w → effect now w w'.

(** The operations whose success means that their batch is in the store. *)
Definition transactional (op : Op) : bool :=
  match op with
  | OpListAgents | OpReplyWaitCheck _ | EnvDropGuard _ | EnvTakePermit _ | EnvCloseChannel _ =>
      false
  | _ => true
  end.

Definition exec_ok (op : Op) (now : Z) w (w' : World P) : Prop :=
  WInv now w' ∧ effect now w w' ∧
  (transactional op = true → reconciliation_required (w_state w') = false).

Lemma exec_ok_ran op now w w1 w' :
  WInv now w' → Maintained now w w1 →
  reconciliation_required (w_state w') = reconciliation_required (w_state w1) →
  moved now (w_state w1) (w_state w') → exec_ok op now w w'.
Proof.
  intros HW HM Hflag Hmv. rewrite (mt_flag _ _ _ HM) in Hflag.
  split_and!; [done|by eapply eff_ran|done].
Qed.

Lemma exec_ok_read op now w w1 : Maintained now w w1 → exec_ok op now w w1.
Proof. intros HM. eapply exec_ok_ran; [apply HM|exact HM|done|by apply moved_same]. Qed.

Lemma exec_ok_finished op now id t o result w w1 w' :
  WInv now w' → Maintained now w w1 → tasks (w_state w1) !! id = Some t → live t →
  finished now id t o result w1 w' → exec_ok op now w w'.
Proof.
  intros HW HM Ht Hlive Hf. pose proof (inv_core _ _ (wi_inv _ _ (mt_inv _ _ _ HM))) as HC.
  eapply exec_ok_ran; [done|exact HM| |by eapply moved_finished].
  by rewrite (fin_state _ _ _ _ _ _ _ Hf).
Qed.

Definition exec_failed (now : Z) w (w' : World P) : Prop :=
  WInv now w' ∧ (aborted now w w' ∨ w' = w).

Lemma exec_failed_aborted now w w' : aborted now w w' → exec_failed now w w'.
Proof. intros Hab. split; [by eapply aborted_inv|by left]. Qed.

(** The operations that end a task. *)
Lemma exec_terminal_ok op now c id w w' w1 r t o result (P1 P2 : Prop) :
  WInv now w' → begun now c w w1 r → tasks (w_state w1) !! id = Some t → P1 →
  (P2 ∧ w' = w1) ∨ (live t ∧ finished now id t o result w1 w') → exec_ok op now w w'.
Proof.
  intros HW Hb Ht _ [[_ ->]|[Hlive Hf]]; [apply exec_ok_read, Hb|].
  eapply exec_ok_finished; [done|apply Hb|done..].
Qed.

(** From the specification of an operation to its critical section. *)
Lemma wp_discard {A} op now (m : M A) (Q : A → World P → Prop) w :
  wp m Q (λ _ w', aborted now w w') w →
  (∀ a w', Q a w' → exec_ok op now w w') →
  wp (discard m) (λ _ w', exec_ok op now w w') (λ _ w', exec_failed now w w') w.
Proof.
  intros Hm HQ. unfold discard. wp_step. eapply wp_mono; [exact Hm| |].
  - intros a w' Ha. wp_step. by eapply HQ.
  - intros e w'. apply exec_failed_aborted.
Qed.

Lemma wp_plain op now (m : M ()) (Q : () → World P → Prop) w :
  wp m Q (λ _ w', aborted now w w') w →
  (∀ a w', Q a w' → exec_ok op now w w') →
  wp m (λ _ w', exec_ok op now w w') (λ _ w', exec_failed now w w') w.
Proof.
  intros Hm HQ. eapply wp_mono; [exact Hm|apply HQ|]. intros e w'. apply exec_failed_aborted.
Qed.

Lemma exec_poll_ok op now c fresh w poll w' :
  WInv now w' ∧ (∃ w1 r, begun now c w w1 r ∧
    poll_post now c fresh r (rs_inbox r) (reg_expiry r) w1 poll w') →
  exec_ok op now w w'.
Proof.
  intros (HW & w1 & r & Hb & Hpost). pose proof Hb as [HM Hau _].
  pose proof (inv_core _ _ (wi_inv _ _ (mt_inv _ _ _ HM))) as HC.
  destruct poll as [message|deadline].
  - destruct Hpost as (before & id & after & t & Hin & _ & Ht & _ & attempt & _ & _ & _ & Hst).
    destruct (core_inbox _ HC _ _ (au_lookup _ _ _ _ Hau)) as [Hsound _].
    destruct (Hsound id) as (s & Hs & [Hl Ha] & _); [rewrite Hin; set_solver|].
    apply lookup_shapes in Hs as (t' & Ht' & ->). simplify_eq.
    eapply exec_ok_ran; [done|exact HM|by rewrite Hst|].
    eapply moved_update; [exact Ht|by rewrite Hst|].
    apply row_moved_live; [|done]. apply rtc_once, step_leased; [by apply HC|done..].
  - destruct Hpost as (-> & _). by apply exec_ok_read.
Qed.

Lemma exec_enqueue_ok op now c d w handle w' :
  WInv now w' ∧ enqueue_post now c d handle w w' → exec_ok op now w w'.
Proof.
  intros (HW & w1 & r & rid & rr & Hb & _ & Hid & _ & _ & _ & _ & _ & Hst & _).
  eapply exec_ok_ran; [done|apply Hb|by rewrite Hst|]. rewrite Hst.
  set (t := new_task_record (next_task_sequence (w_state w1) + 1) (qd_sender d)
              (d <| qd_created_unix_ms := now |>)).
  assert (tasks (enqueued (now + DELIVERY_TTL_MS) (qd_sender d)
            (d <| qd_created_unix_ms := now |>) now rid rr (w_state w1))
          = <[qd_task_id d := t]> (tasks (w_state w1))) as Hts by done.
  split; intros id t'; rewrite Hts.
  - intros Ht'. exists t'. by rewrite lookup_insert_ne by congruence.
  - rewrite lookup_insert_Some. intros [[<- <-]|[_ ?]] ?; [done|congruence].
Qed.

Lemma exec_ack_ok op now c d w w' :
  WInv now w' ∧ ack_post now c d w w' → exec_ok op now w w'.
Proof.
  intros (HW & w1 & r & id & t & l & Hb & _ & Ht & Hl & _ & Hcase). pose proof Hb as [HM _ _].
  pose proof (inv_core _ _ (wi_inv _ _ (mt_inv _ _ _ HM))) as HC.
  destruct Hcase as [(_ & _ & ->)|(Ha & _ & _ & _ & Hst)]; [by apply exec_ok_read|].
  eapply exec_ok_ran; [done|exact HM|by rewrite Hst|].
  eapply moved_update; [exact Ht|by rewrite Hst|].
  apply row_moved_live; [|exact (leased_live _ _ _ (core_tasks _ HC _ _ Ht) Hl)].
  apply rtc_once. eapply step_acknowledged; [by apply HC|done..].
Qed.

Lemma exec_register_ok op now agent session fresh w w1 reg w' :
  WInv now w' → Maintained now w w1 → register_post now agent session fresh reg w1 w' →
  exec_ok op now w w'.
Proof.
  intros HW HM Hr. pose proof (inv_core _ _ (wi_inv _ _ (mt_inv _ _ _ HM))) as HC.
  eapply exec_ok_ran; [done|exact HM|apply Hr|].
  eapply moved_fmap; [|apply Hr]. intros id t Ht. by eapply requeue_old_moves.
Qed.

Lemma exec_remove_ok op now c w w' :
  WInv now w' ∧ remove_post now c w w' → exec_ok op now w w'.
Proof.
  intros (HW & w1 & r & Hb & _ & _ & Hts & Hflag). pose proof (bg_maintained _ _ _ _ _ Hb) as HM.
  pose proof (inv_core _ _ (wi_inv _ _ (mt_inv _ _ _ HM))) as HC.
  eapply exec_ok_ran; [done|exact HM|done|]. eapply moved_fmap; [|exact Hts].
  intros id t Ht. by eapply requeue_moves.
Qed.

(** The waiters are not part of the image. *)
Lemma exec_reply_wait_ok op now name id w result w' :
  WInv now w' ∧ (∃ w1 t, Maintained now w w1 ∧
       tasks (w_state w1) !! id = Some t ∧ sender t = name ∧
       match result with
       | inl r => reply t = Some r ∧ w' = w1
       | inr k => live t ∧ k = next_channel (w_shared w1) ∧
                  channels (w_shared w') = <[k := ChannelOpen]> (channels (w_shared w1)) ∧
                  (∃ waiters, k ∈ waiters ∧ w_state w' = (w_state w1)
                     <| tasks ::= insert id (t <| reply_waiters := waiters |>) |>)
       end) → exec_ok op now w w'.
Proof.
  intros (HW & w1 & t & HM & Ht & _ & Hres). destruct result as [r|k].
  - destruct Hres as [_ ->]. by apply exec_ok_read.
  - destruct Hres as (_ & _ & _ & waiters & _ & Hst).
    eapply exec_ok_ran; [done|exact HM|by rewrite Hst|].
    by eapply moved_update; [exact Ht|by rewrite Hst|].
Qed.

Lemma reply_wait_check_spec id w :
  wp (reply_wait_check id) (λ _ w', w' = w) (λ _ w', w' = w) w.
Proof.
  unfold reply_wait_check, get_state. wp_steps. wp_step; [|done]. intros t Ht. wp_steps.
  apply wp_lift_no_panic; [apply reply_or_error_no_panic| |done]. intros [r|] _; [by wp_step|].
  destruct (delivery t); [|by wp_step]. wp_step. unfold or_unavailable. wp_step; [|done].
  intros ? _. by wp_step.
Qed.

(** Steps of the environment keep the state and the store. *)
Lemma exec_quiet op now w sh' :
  WInv now w → transactional op = false →
  WaitOK [] (tasks (w_state w)) sh' → exec_ok op now w (w <| w_shared := sh' |>).
Proof. intros [HI HS _] Hop HW. split_and!; [by split|by apply eff_quiet|congruence]. Qed.

Lemma WaitOK_close k (ts : gmap string TaskRecord) sh :
  WaitOK [] ts sh → WaitOK [] ts (close_channel k sh).
Proof.
  intros HW. unfold close_channel. destruct (channels sh !! k) as [[]|] eqn:Hk; try done.
  destruct HW as [Hat Hfr]. split; simpl; intros k'.
  - rewrite lookup_insert_Some. intros [[_ ?]|[_ Hk']]; [done|by apply Hat].
  - rewrite lookup_insert. case_decide; [subst; intros _; apply Hfr; by eexists|apply Hfr].
Qed.

Lemma exec_spec clk now op w :
  WInv clk w → (clk ≤ now)%Z → admissible op w →
  wp (exec op now) (λ _ w', exec_ok op now w w') (λ _ w', exec_failed now w w') w.
Proof.
  intros HWI Hle Hadm. pose proof (WInv_later _ _ _ Hle HWI) as HWI'.
  destruct op; cbn [exec].
  - eapply wp_discard; [by eapply register_spec|]. cbv beta. intros reg w' (HW & w1 & HM & Hr).
    by eapply exec_register_ok.
  - eapply wp_discard; [by eapply renew_spec|]. cbv beta.
    intros reg w' (HW & w1 & r & Hb & _ & Hst & _).
    eapply exec_ok_ran; [done|apply Hb|by rewrite Hst|]. apply moved_same. by rewrite Hst.
  - eapply wp_plain; [by eapply remove_registration_spec|]. cbv beta. intros _ w'.
    apply exec_remove_ok.
  - eapply wp_discard; [by eapply authenticate_spec|]. cbv beta. intros reg w' (r & Hb & _).
    apply exec_ok_read, Hb.
  - unfold wp. destruct (list_agents_spec clk now w HWI Hle) as [(w1 & HM & ->)|(w1 & HF & ->)];
      cbn [snd]; [by apply exec_ok_read|].
    split_and!; [apply HF|by apply eff_aborted; left|done].
  - eapply wp_discard; [by eapply operations_snapshot_spec|]. cbv beta. intros snap w' [HM _].
    by apply exec_ok_read.
  - eapply wp_discard; [by eapply task_snapshot_spec|]. cbv beta. intros row w' (r & t & Hb & _).
    apply exec_ok_read, Hb.
  - eapply wp_discard; [by eapply task_snapshot_for_sender_spec|]. cbv beta.
    intros row w' (t & HM & _). by apply exec_ok_read.
  - eapply wp_discard; [by eapply enqueue_spec|]. cbv beta. intros h w'. apply exec_enqueue_ok.
  - eapply wp_discard; [by eapply start_or_resume_lookup_spec|]. cbv beta.
    intros found w' (r & Hb & _). apply exec_ok_read, Hb.
  - eapply wp_discard; [by eapply begin_wait_spec|]. cbv beta.
    intros key w' (w1 & r & Hb & _ & _ & HW & Hst & _).
    eapply exec_ok_ran; [done|apply Hb|by rewrite Hst|]. apply moved_same. by rewrite Hst.
  - eapply wp_discard; [by eapply poll_delivery_spec|]. cbv beta. intros poll w'.
    apply exec_poll_ok.
  - eapply wp_plain; [by eapply ack_delivery_spec|]. cbv beta. intros _ w'. apply exec_ack_ok.
  - eapply wp_plain; [by eapply reply_task_spec|]. cbv beta.
    intros _ w' (HW & w1 & r' & t & Hb & Ht & Hn & Hcase). by eapply exec_terminal_ok.
  - eapply wp_plain; [by eapply recipient_terminal_spec|]. cbv beta.
    intros _ w' (HW & w1 & r' & t & Hb & Ht & Hn & Hcase). by eapply exec_terminal_ok.
  - eapply wp_plain; [by eapply recipient_terminal_spec|]. cbv beta.
    intros _ w' (HW & w1 & r' & t & Hb & Ht & Hn & Hcase). by eapply exec_terminal_ok.
  - eapply wp_plain; [by eapply cancel_task_spec|]. cbv beta.
    intros _ w' (HW & w1 & r' & t & Hb & Ht & Hn & Hcase). by eapply exec_terminal_ok.
  - eapply wp_discard; [by eapply reply_wait_begin_spec|]. cbv beta. intros res w'.
    apply exec_reply_wait_ok.
  - unfold discard. wp_step. eapply wp_mono; [apply reply_wait_check_spec| |].
    + cbv beta. intros res w' ->. wp_step. split_and!; [done|by apply eff_quiet|done].
    + cbv beta. intros e w' ->. split; [done|by right].
  - eapply wp_mono; [by eapply maintain_spec| |].
    + cbv beta. intros _ w' HM. by apply exec_ok_read.
    + intros e w' HF. split; [apply HF|by left; left].
  - wp_step. apply (exec_quiet _ now w); [done|done|].
    by apply (WaitOK_shared _ _ (w_shared w)); [..|apply HWI].
  - unfold modify_shared. wp_step. apply (exec_quiet _ now w); [done|done|].
    by apply (WaitOK_shared _ _ (w_shared w)); [..|apply HWI].
  - unfold modify_shared. wp_step. apply (exec_quiet _ now w); [done|done|].
    apply WaitOK_close, HWI.
Qed.

(** What an operation does to the rows of the store, however it ends. *)
Lemma effect_rows now w w' :
  WInv now w' → effect now w w' → store_evolved now (held_rows w) (held_rows w').
Proof.
  intros HW [w1 HM Hflag Hmv|Hab|_ Hq].
  - etrans; [apply (mt_rows _ _ _ HM)|]. unfold held_rows.
    rewrite (sync_rows _ _ (wi_sync _ _ (mt_inv _ _ _ HM)) (mt_flag _ _ _ HM)).
    rewrite (sync_rows _ _ (wi_sync _ _ HW) Hflag).
    apply rows_evolved. intros id t Ht. right. by apply (mv_old _ _ _ Hmv).
  - by apply aborted_rows.
  - unfold held_rows. by rewrite Hq.
Qed.

Lemma reachable_inv now w : Reachable now w → WInv now w.
Proof.
  induction 1 as [now p w report p' Hrec|clk now w op o w' _ IH Hle Hadm Hrun].
  - pose proof (recover_spec now p) as Hwp. unfold wp in Hwp. rewrite Hrec in Hwp. apply Hwp.
  - pose proof (exec_spec clk now op w IH Hle Hadm) as Hwp. unfold wp in Hwp. rewrite Hrun in Hwp.
    destruct o; [apply Hwp|apply Hwp|done].
Qed.

Lemma synced_view now w :
  WInv now w → reconciliation_required (w_state w) = false →
  view (w_store w)
  = MkView (next_registration_epoch (w_state w)) (durable_rows (tasks (w_state w))).
Proof.
  intros [_ HS _] Hflag. destruct (view (w_store w)) as [e m] eqn:Hv. f_equal.
  - rewrite <-(sync_epoch _ _ HS Hflag). by rewrite Hv.
  - rewrite <-(sync_rows _ _ HS Hflag). by rewrite Hv.
Qed.

(** After an operation that returned, the store holds the image of the state, unless
    an operation that commits nothing left a reconciliation due. *)
Lemma exec_durable clk now op w w' :
  Reachable clk w → (clk ≤ now)%Z → admissible op w → exec op now w = (Done tt, w') →
  view (w_store w')
    = MkView (next_registration_epoch (w_state w')) (durable_rows (tasks (w_state w'))) ∨
  (transactional op = false ∧ reconciliation_required (w_state w') = true).
Proof.
  intros HWI%reachable_inv Hle Hadm Hrun.
  pose proof (exec_spec clk now op w HWI Hle Hadm) as Hwp. unfold wp in Hwp. rewrite Hrun in Hwp.
  destruct Hwp as (HW & _ & Hflag).
  destruct (reconciliation_required (w_state w')) eqn:Hw; [right|left; by eapply synced_view].
  split; [|done]. destruct (transactional op); [|done]. by specialize (Hflag eq_refl).
Qed.
End runs.
