(* ===== verification/BrokerRuns.v ===== *)
(** * Tasks along a run and across a restart

    What one critical section, and what a restart of the broker, does to every
    task that was there before, in terms of the life cycle of [BrokerReach]. *)
From stdpp Require Import prelude gmap strings sorting.
From S2P Require Import Prelude RustStd Model Validation Durability BrokerState BrokerDurable BrokerMaintain BrokerOps.
From S2P Require Import BrokerInv BrokerPrim BrokerTrans BrokerImage BrokerRecover BrokerRestore BrokerWorld BrokerUpkeep.
From S2P Require Import BrokerMaintained BrokerSpec BrokerDelivery BrokerRegistry BrokerStart.
From S2P Require Import BrokerReach.

Section evolution.
Context `{JsonNumber} {serde : SerdeJson} {P : Type} {persistence : BrokerPersistence P}.
Context {spec : PersistenceSpec P}.
Implicit Types (w : World P) (st : State) (t : TaskRecord).

Definition newborn t : Prop := durable_state t = Queued ∧ state_version t = 1%Z.

(** Every task moves along its life cycle, or its retention is over and it is
    deleted (its identifier may then be used again); a new task starts in the
    queue. *)
Record evolved (now : Z) st st' : Prop := {
  ev_old : ∀ id t, tasks st !! id = Some t →
    (∃ t', tasks st' !! id = Some t' ∧ rtc row_step (image id t) (image id t')) ∨
    (overdue now t = true ∧ ∀ t', tasks st' !! id = Some t' → newborn t');
  ev_new : ∀ id t', tasks st' !! id = Some t' → tasks st !! id = None → newborn t';
}.

Lemma evolved_same now st st' : tasks st' = tasks st → evolved now st st'.
Proof.
  intros Heq. split; intros id t; rewrite Heq; [|congruence].
  intros Ht. left. exists t. split; [done|apply rtc_refl].
Qed.

Lemma evolved_upkeep now st st1 st' expired :
  Core st → (∀ id, tasks st1 !! id = tasks st !! id ≫= upkeep now expired) →
  moved now st1 st' → evolved now st st'.
Proof.
  intros HC Hup [Mold Mnew]. split.
  - intros id t Ht. specialize (Hup id). rewrite Ht in Hup. simpl in Hup.
    destruct (upkeep now expired t) as [t1|] eqn:Ht1.
    + destruct (Mold id t1 Hup) as (t' & Ht' & Hs' & _). left. exists t'. split; [done|].
      etrans; [|exact Hs']. eapply upkeep_moves; [by apply HC|done].
    + right. split; [|intros t' Ht'; by eapply Mnew].
      unfold upkeep in Ht1. by destruct (overdue now t).
  - intros id t' Ht' Hnone. eapply Mnew; [done|]. by rewrite Hup, Hnone.
Qed.

Lemma effect_evolved clk now w w' :
  WInv clk w → reconciliation_required (w_state w) = false → effect now w w' →
  evolved now (w_state w) (w_state w').
Proof.
  intros HWI Hflag. pose proof (inv_core _ _ (wi_inv _ _ HWI)) as HC.
  destruct 1 as [w1 HM _ Hmv|[Hf|(w1 & HM & Hs)]|Hq _].
  - eapply evolved_upkeep; [done|by apply (mt_tasks _ _ _ HM)|done].
  - apply evolved_same. by rewrite (halt_state _ _ _ (maintenance_failed_halted _ _ _ Hflag Hf)).
  - eapply evolved_upkeep; [done|by apply (mt_tasks _ _ _ HM)|]. apply moved_same.
    by rewrite (halt_state _ _ _ Hs).
  - apply evolved_same. by rewrite Hq.
Qed.

(** Both outcomes of a critical section. *)
Lemma exec_effect clk now op w o w' :
  WInv clk w → (clk ≤ now)%Z → admissible op w → exec op now w = (o, w') →
  WInv now w' ∧ effect now w w'.
Proof.
  intros HWI Hle Hadm Hrun. pose proof (exec_spec clk now op w HWI Hle Hadm) as Hwp.
  unfold wp in Hwp. rewrite Hrun in Hwp. destruct o as [a|e|msg]; [| |done].
  - destruct Hwp as (? & ? & _). done.
  - destruct Hwp as (? & [?| ->]); (split; [done|]); [by apply eff_aborted|by apply eff_quiet].
Qed.

(** ** Outcomes *)

(** The outcome of a task, once known, is in the store until its retention is
    over, also while the store may be ahead of the state. *)
Definition outcomes_held (now : Z) w : Prop :=
  ∀ id t, tasks (w_state w) !! id = Some t → is_Some (terminal_deadline_unix_ms t) →
    overdue now t = false → held_rows w !! id = Some (image id t).

Lemma outcomes_synced now now' w :
  WInv now w → reconciliation_required (w_state w) = false → outcomes_held now' w.
Proof.
  intros HW Hflag id t Ht _ _. unfold held_rows.
  by rewrite (sync_rows _ _ (wi_sync _ _ HW) Hflag), lookup_durable_rows, Ht.
Qed.

Lemma outcomes_later now now' w : (now ≤ now')%Z → outcomes_held now w → outcomes_held now' w.
Proof.
  intros Hle HO id t Ht Hd Ho. apply HO; [done..|]. unfold overdue in *.
  destruct (terminal_deadline_unix_ms t); simpl in *; [|done]. lia.
Qed.

(** A task that ended has a row that says so. *)
Lemma terminal_image id t :
  task_wf id t → is_Some (terminal_deadline_unix_ms t) →
  state_is_terminal (dt_state (image id t)) = true.
Proof.
  intros Hwf [d Hd]. pose proof (wf_phase _ _ Hwf) as Hp. rewrite Hd in Hp.
  destruct Hp as [_ _ _ _ [o Ho] _]. simpl. rewrite (outcome_durable_state _ _ Ho). by destruct o.
Qed.

Lemma outcomes_halted clk now w w' :
  Core (w_state w) → outcomes_held clk w → (clk ≤ now)%Z → halted now w w' → outcomes_held now w'.
Proof.
  intros HC HO Hle [_ Hst Hev] id t Ht Hd Ho. rewrite Hst in Ht. simpl in Ht.
  eapply store_evolved_terminal; [exact Hev| |by apply terminal_image; [apply HC|]|done].
  by apply (outcomes_later clk now w Hle HO).
Qed.

Lemma effect_outcomes clk now w w' :
  WInv clk w → outcomes_held clk w → (clk ≤ now)%Z → WInv now w' → effect now w w' →
  outcomes_held now w'.
Proof.
  intros HWI HO Hle HW [w1 HM Hflag Hmv|[Hf|(w1 & HM & Hs)]|Hst Hq].
  - by eapply outcomes_synced.
  - destruct (mf_source _ _ _ Hf) as (w1 & Hh & [->|(_ & HW1 & Hflag)]).
    + eapply outcomes_halted; [apply HWI|exact HO|exact Hle|done].
    + eapply (outcomes_halted now); [apply HW1| |done|done]. by eapply outcomes_synced.
  - eapply (outcomes_halted now); [apply HM| |done|apply Hs].
    eapply outcomes_synced; [apply HM|apply HM].
  - intros id t. unfold held_rows. rewrite Hst, Hq. by apply (outcomes_later clk now w Hle HO).
Qed.

Lemma reachable_outcomes now w : Reachable now w → outcomes_held now w.
Proof.
  induction 1 as [now p w report p' Hrec|clk now w op o w' HR IH Hle Hadm Hrun].
  - pose proof (recover_spec now p) as Hwp. unfold wp in Hwp. rewrite Hrec in Hwp.
    destruct Hwp as (_ & HW & rows & vs & _ & _ & _ & _ & _ & _ & _ & Hflag & _).
    by eapply outcomes_synced.
  - apply reachable_inv in HR.
    destruct (exec_effect _ _ _ _ _ _ HR Hle Hadm Hrun) as [HW Heff].
    exact (effect_outcomes clk now w w' HR IH Hle HW Heff).
Qed.

(** A row that is in the store and ended is in the state that an operation leaves. *)
Lemma halted_outcome now w w' id t :
  tasks (w_state w) !! id = Some t → halted now w w' → tasks (w_state w') !! id = Some t.
Proof. intros Ht [_ Hst _]. by rewrite Hst. Qed.

Lemma synced_row now w id row :
  WInv now w → reconciliation_required (w_state w) = false → held_rows w !! id = Some row →
  ∃ t, tasks (w_state w) !! id = Some t ∧ image id t = row.
Proof.
  intros HW Hflag. unfold held_rows. rewrite (sync_rows _ _ (wi_sync _ _ HW) Hflag), lookup_durable_rows.
  intros (t & Ht & ->)%fmap_Some. eauto.
Qed.

(** An operation keeps the tasks that have ended. *)
Lemma effect_final clk now w w' id t :
  WInv clk w → outcomes_held clk w → (clk ≤ now)%Z → WInv now w' → effect now w w' →
  tasks (w_state w) !! id = Some t → is_Some (terminal_deadline_unix_ms t) →
  overdue now t = false →
  ∃ t', tasks (w_state w') !! id = Some t' ∧ image id t' = image id t.
Proof.
  intros HWI HO Hle HW Heff Ht Hd Ho. pose proof (outcomes_later clk now w Hle HO id t Ht Hd Ho) as Hrow.
  pose proof (core_tasks _ (inv_core _ _ (wi_inv _ _ HWI)) _ _ Ht) as Hwf.
  assert (∀ w1, WInv now w1 → reconciliation_required (w_state w1) = false →
            store_evolved now (held_rows w) (held_rows w1) →
            ∃ t', tasks (w_state w1) !! id = Some t' ∧ image id t' = image id t) as Hsync.
  { intros w1 HW1 Hflag Hev. eapply synced_row; [done..|].
    eapply store_evolved_terminal; [exact Hev|exact Hrow|by apply terminal_image|done]. }
  pose proof (effect_rows _ _ _ HW Heff) as Hev.
  destruct Heff as [w1 HM Hflag Hmv|[Hf|(w1 & HM & Hs)]|Hst Hq].
  - by apply Hsync.
  - destruct (reconciliation_required (w_state w')) eqn:Hflag'; [|by apply Hsync].
    destruct (mf_source _ _ _ Hf) as (w1 & Hh & [->|(Hrun & HW1 & Hflag)]).
    + exists t. split; [|done]. by eapply halted_outcome.
    + destruct (reconcile_rows clk now w w1) as [_ Hev1]; [done..|].
      destruct (Hsync w1 HW1 Hflag Hev1) as (t' & Ht' & Heq). exists t'. split; [|done].
      by eapply halted_outcome.
  - destruct (Hsync w1) as (t' & Ht' & Heq); [apply HM..|]. exists t'. split; [|done].
    eapply halted_outcome; [exact Ht'|apply Hs].
  - exists t. by rewrite Hst.
Qed.

(** ** Restart *)

(** What a restart makes of a task: every lease is lost. *)
Definition restarted (now : Z) t : option TaskRecord :=
  if overdue now t then None
  else Some (if is_due now t then expire now t
             else if is_some (lease t) && negb (acknowledged t) then requeued_record t else t).

Lemma image_state id t :
  task_wf id t → state_is_terminal (dt_state (image id t)) = is_some (terminal_deadline_unix_ms t).
Proof.
  intros Hwf. pose proof (wf_phase _ _ Hwf) as Hp. simpl.
  destruct (terminal_deadline_unix_ms t) as [d|].
  - destruct Hp as [_ _ _ _ [o Ho] _]. rewrite (outcome_durable_state _ _ Ho). by destruct o.
  - rewrite (live_durable_state _ Hp). by destruct (acknowledged t), (lease t).
Qed.

Lemma image_leased id t :
  task_wf id t →
  bool_decide (dt_state (image id t) = Leased) = is_some (lease t) && negb (acknowledged t).
Proof.
  intros Hwf. pose proof (wf_phase _ _ Hwf) as Hp. cbn [image dt_state].
  destruct (terminal_deadline_unix_ms t) as [d|].
  - destruct Hp as [_ Hl _ _ [o Ho] _]. rewrite (outcome_durable_state _ _ Ho), Hl. by destruct o.
  - rewrite (live_durable_state _ Hp). by destruct (acknowledged t), (lease t).
Qed.

Lemma reconcile_image now id t row' change :
  task_wf id t → reconcile_task (image id t) now = Done (row', change) →
  row' = image id (if is_due now t then expire now t
                   else if is_some (lease t) && negb (acknowledged t) then requeued_record t else t).
Proof.
  intros Hwf. unfold reconcile_task. rewrite (image_state _ _ Hwf), (image_leased _ _ Hwf).
  change (negb (is_some (terminal_deadline_unix_ms t))
          && (dt_delivery_deadline_unix_ms (image id t) <=? now)%Z) with (is_due now t).
  unfold or_unavailable. destruct (is_due now t) eqn:Hdue.
  - destruct (checked_add_i64 now TERMINAL_RETENTION_MS) as [d|] eqn:Hd; [|done]. simpl.
    destruct (checked_add_u64 (state_version t) 1) as [v|] eqn:Hv; [|done]. simpl.
    intros [= <- _]. apply checked_Some in Hd as [-> _], Hv as [-> _].
    apply DurableTask_ext; try reflexivity.
  - destruct (is_some (lease t) && negb (acknowledged t)) eqn:Hl; [|by intros [= <- _]].
    simpl. destruct (checked_add_u64 (state_version t) 1) as [v|] eqn:Hv; [|done]. simpl.
    intros [= <- _]. apply checked_Some in Hv as [-> _].
    apply DurableTask_ext; try reflexivity. change (Queued = durable_state (requeued_record t)).
    apply andb_true_iff in Hl as [Hl Ha%negb_true_iff]. destruct (lease t) as [l|] eqn:Hlt; [|done].
    pose proof (leased_live _ _ _ Hwf Hlt) as Hlive. pose proof (wf_phase _ _ Hwf) as Hp.
    rewrite Hlive in Hp. pose proof (live_fields _ Hp) as [= Hr Hf Hrj Hc He].
    unfold durable_state. simpl. by rewrite Hr, Hf, Hrj, Hc, He, Ha.
Qed.

(** The rows of a restarted broker, from the tasks the store was left with. *)
Lemma restart_rows now ts rows vs (m : gmap string DurableTask) id :
  map_Forall task_wf ts → holds_rows (durable_rows ts) rows → NoDup (dt_task_id <$> rows) →
  Forall2 (reconciles now) rows vs → holds_rows m (omap kept vs) →
  m !! id = image id <$> (ts !! id ≫= restarted now).
Proof.
  intros Hwf Hrows Hnd Hrec Hm.
  destruct (m !! id) as [row'|] eqn:Hid.
  - apply Hm in Hid as [(change & Hin)%elem_of_omap_kept Hk].
    destruct (reconciles_lookup _ _ _ _ Hrec Hin) as (row & Hrow & Hv).
    destruct (reconciles_kept _ _ _ _ Hv) as (_ & Hids & _). rewrite Hk in Hids.
    assert (durable_rows ts !! id = Some row) as Hl by by apply Hrows.
    rewrite lookup_durable_rows in Hl. apply fmap_Some in Hl as (t & Ht & ->).
    rewrite Ht. simpl. destruct Hv as (_ & Hod & Hr). unfold restarted.
    change (overdue now t = false) in Hod. rewrite Hod. simpl. f_equal.
    by eapply reconcile_image; [by apply Hwf|].
  - destruct (ts !! id) as [t|] eqn:Ht; [|done]. simpl. unfold restarted.
    destruct (overdue now t) eqn:Hod; [done|]. exfalso.
    assert (image id t ∈ rows) as Hrow.
    { apply (Hrows id). by rewrite lookup_durable_rows, Ht. }
    apply list_elem_of_lookup in Hrow as [i Hi].
    destruct (Forall2_lookup_l _ _ _ _ _ Hrec Hi) as (v & Hv & Hr).
    apply list_elem_of_lookup_2 in Hv. destruct v as [id'|row' change].
    + destruct Hr as (_ & _ & Hod'). change (overdue now t = true) in Hod'. congruence.
    + destruct (reconciles_kept _ _ _ _ Hr) as (_ & Hids & _).
      assert (m !! id = Some row') as Hl; [|congruence].
      apply Hm. split; [|done]. apply elem_of_omap_kept. by exists change.
Qed.
End evolution.

(** * Where registrations come from

    Only [register] brings an agent into the broker: after any other critical section,
    and after one that failed, every registration is of an agent that was registered
    before, under the same identifier. *)
Section agents.
Context `{JsonNumber} {serde : SerdeJson} {P : Type} {persistence : BrokerPersistence P}.
Context {spec : PersistenceSpec P}.
Implicit Types (w : World P) (st : State) (t : TaskRecord).

Definition same_agent (r r' : RegistrationState) : Prop :=
  reg_agent (rs_registration r') = reg_agent (rs_registration r).

Definition agents_back st st' : Prop :=
  ∀ rid r', registrations st' !! rid = Some r' →
    ∃ r, registrations st !! rid = Some r ∧ same_agent r r'.

Lemma agents_back_trans st1 st2 st3 : agents_back st1 st2 → agents_back st2 st3 → agents_back st1 st3.
Proof.
  intros H12 H23 rid r3 Hr3. destruct (H23 _ _ Hr3) as (r2 & Hr2 & ?).
  destruct (H12 _ _ Hr2) as (r1 & Hr1 & ?). exists r1. split; [done|]. unfold same_agent in *. congruence.
Qed.

Lemma regs_back_agents st st' : regs_back st st' → agents_back st st'.
Proof.
  intros Hb rid r' Hr'. destruct (Hb _ _ Hr') as (r & Hr & Hsame & _). exists r.
  split; [done|]. unfold same_agent. by rewrite Hsame.
Qed.

Lemma agents_back_same st st' : registrations st' = registrations st → agents_back st st'.
Proof. intros Heq. by apply regs_back_agents, regs_back_same. Qed.

Lemma agents_back_insert st st' rid r r' :
  registrations st !! rid = Some r → same_agent r r' →
  registrations st' = <[rid := r']> (registrations st) → agents_back st st'.
Proof.
  intros Hr Hsame Heq rid' r0. rewrite Heq, lookup_insert_Some.
  intros [[<- <-]|[_ ?]]; [eauto|by exists r0].
Qed.

Lemma agents_back_alter st st' rid f :
  (∀ r, same_agent r (f r)) → registrations st' = alter f rid (registrations st) → agents_back st st'.
Proof.
  intros Hf Heq rid' r0. rewrite Heq. destruct (decide (rid = rid')) as [<-|Hne].
  - rewrite lookup_alter_eq. intros (r & Hr & ->)%fmap_Some. eauto.
  - rewrite lookup_alter_ne by done. by exists r0.
Qed.

Lemma agents_back_delete st st' rid :
  registrations st' = delete rid (registrations st) → agents_back st st'.
Proof. intros Heq rid' r. rewrite Heq, lookup_delete_Some. intros [_ ?]. by exists r. Qed.

Lemma agents_back_terminalized id now d v o t st : agents_back st (terminalized id now d v o t st).
Proof.
  unfold terminalized, retain_at. destruct (registrations_by_agent st !! recipient t) as [rid|].
  - by apply (agents_back_alter _ _ rid (retain_inbox id)).
  - by apply agents_back_same.
Qed.

Lemma maintained_agents now w w1 : Maintained now w w1 → agents_back (w_state w) (w_state w1).
Proof.
  intros HM rid r' Hr'. destruct (mt_back _ _ _ HM _ _ Hr') as (r & Hr & Hsame & _). exists r.
  split; [done|]. unfold same_agent. by rewrite Hsame.
Qed.

Lemma aborted_agents now w w' : aborted now w w' → agents_back (w_state w) (w_state w').
Proof.
  intros [Hf|(w1 & HM & Hs)]; [by apply regs_back_agents, (mf_back now w)|].
  eapply agents_back_trans; [by eapply maintained_agents|]. apply agents_back_same.
  by rewrite (halt_state _ _ _ Hs).
Qed.

Lemma after_maintained now w w1 w' :
  Maintained now w w1 → agents_back (w_state w1) (w_state w') → agents_back (w_state w) (w_state w').
Proof. intros HM. by apply agents_back_trans, (maintained_agents now). Qed.

Lemma finished_agents now id t o result w w' :
  finished now id t o result w w' → agents_back (w_state w) (w_state w').
Proof. intros [-> _]. apply agents_back_terminalized. Qed.

(** The operations that end a task. *)
Lemma terminal_agents now c id w w' w1 r t o result (P1 P2 : Prop) :
  begun now c w w1 r → P1 → (P2 ∧ w' = w1) ∨ (live t ∧ finished now id t o result w1 w') →
  agents_back (w_state w) (w_state w').
Proof.
  intros [HM _ _] _ [[_ ->]|[_ Hf]]; (eapply after_maintained; [exact HM|]);
    [by apply agents_back_same|by eapply finished_agents].
Qed.

Definition registers (op : Op) : bool := match op with OpRegister _ _ _ => true | _ => false end.

Lemma wp_agents {A} now (m : ST (World P) DomainError A) (Q : A → World P → Prop) w :
  wp m Q (λ _ w', aborted now w w') w →
  (∀ a w', Q a w' → agents_back (w_state w) (w_state w')) →
  wp (discard m) (λ _ w', agents_back (w_state w) (w_state w'))
    (λ _ w', agents_back (w_state w) (w_state w')) w.
Proof.
  intros Hm HQ. unfold discard. wp_step. eapply wp_mono; [exact Hm| |].
  - intros a w' Ha. wp_step. by eapply HQ.
  - intros e w'. apply aborted_agents.
Qed.

Lemma wp_undiscard (m : ST (World P) DomainError ()) Q X w : wp (discard m) Q X w → wp m Q X w.
Proof. unfold wp, discard, st_bind, st_ret. by destruct (m w) as [[[]| |] ?]. Qed.

Lemma exec_agents clk now op w :
  WInv clk w → (clk ≤ now)%Z → admissible op w → registers op = false →
  wp (exec op now) (λ _ w', agents_back (w_state w) (w_state w'))
    (λ _ w', agents_back (w_state w) (w_state w')) w.
Proof.
  intros HWI Hle Hadm Hop. destruct op; cbn [exec]; [done|..].
  - eapply (wp_agents now); [by eapply renew_spec|]. cbv beta.
    intros reg w' (HW & w1 & r & [HM Hau _] & _ & Hst & _). eapply after_maintained; [exact HM|].
    eapply agents_back_insert; [apply Hau| |by rewrite Hst]. done.
  - apply wp_undiscard. eapply (wp_agents now); [by eapply remove_registration_spec|]. cbv beta.
    intros _ w' (HW & w1 & r & [HM _ _] & Hregs & _). eapply after_maintained; [exact HM|].
    by eapply agents_back_delete.
  - eapply (wp_agents now); [by eapply authenticate_spec|]. cbv beta. intros reg w' (r & [HM _ _] & _).
    by eapply maintained_agents.
  - unfold wp. destruct (list_agents_spec clk now w HWI Hle) as [(w1 & HM & ->)|(w1 & [_ _ _ Hb] & ->)];
      [by eapply maintained_agents|by apply regs_back_agents].
  - eapply (wp_agents now); [by eapply operations_snapshot_spec|]. cbv beta. intros snap w' [HM _].
    by eapply maintained_agents.
  - eapply (wp_agents now); [by eapply task_snapshot_spec|]. cbv beta. intros row w' (r & t & [HM _ _] & _).
    by eapply maintained_agents.
  - eapply (wp_agents now); [by eapply task_snapshot_for_sender_spec|]. cbv beta.
    intros row w' (t & HM & _). by eapply maintained_agents.
  - eapply (wp_agents now); [by eapply enqueue_spec|]. cbv beta.
    intros h w' (HW & w1 & r & rid & rr & [HM _ _] & _ & _ & _ & _ & Hrr & _ & _ & Hst & _).
    eapply after_maintained; [exact HM|].
    eapply (agents_back_insert _ _ rid rr (push_inbox (qd_task_id d) rr)); [done..|by rewrite Hst].
  - eapply (wp_agents now); [by eapply start_or_resume_lookup_spec|]. cbv beta.
    intros found w' (r & [HM _ _] & _). by eapply maintained_agents.
  - eapply (wp_agents now); [by eapply begin_wait_spec|]. cbv beta.
    intros key w' (w1 & r & [HM _ _] & _ & _ & HW & Hst & _).
    eapply after_maintained; [exact HM|]. apply agents_back_same. by rewrite Hst.
  - eapply (wp_agents now); [by eapply poll_delivery_spec|]. cbv beta.
    intros poll w' (HW & w1 & r & [HM _ _] & Hpost). eapply after_maintained; [exact HM|].
    apply agents_back_same. destruct poll as [message|deadline]; [|by destruct Hpost as [-> _]].
    destruct Hpost as (before & id & after & t & _ & _ & _ & _ & attempt & _ & _ & _ & Hst). by rewrite Hst.
  - apply wp_undiscard. eapply (wp_agents now); [by eapply ack_delivery_spec|]. cbv beta.
    intros _ w' (HW & w1 & r & id & t & l & [HM _ _] & _ & _ & _ & _ & Hcase).
    eapply after_maintained; [exact HM|]. destruct Hcase as [(_ & _ & ->)|(_ & _ & _ & _ & Hst)];
      [by apply agents_back_same|].
    apply (agents_back_alter _ _ (cred_id c) (retain_inbox id)); [done|by rewrite Hst].
  - apply wp_undiscard. eapply (wp_agents now); [by eapply reply_task_spec|]. cbv beta.
    intros _ w' (HW & w1 & r' & t & Hb & Ht & Hn & Hcase). by eapply terminal_agents.
  - apply wp_undiscard. eapply (wp_agents now); [by eapply recipient_terminal_spec|]. cbv beta.
    intros _ w' (HW & w1 & r' & t & Hb & Ht & Hn & Hcase). by eapply terminal_agents.
  - apply wp_undiscard. eapply (wp_agents now); [by eapply recipient_terminal_spec|]. cbv beta.
    intros _ w' (HW & w1 & r' & t & Hb & Ht & Hn & Hcase). by eapply terminal_agents.
  - apply wp_undiscard. eapply (wp_agents now); [by eapply cancel_task_spec|]. cbv beta.
    intros _ w' (HW & w1 & r' & t & Hb & Ht & Hn & Hcase). by eapply terminal_agents.
  - eapply (wp_agents now); [by eapply reply_wait_begin_spec|]. cbv beta.
    intros res w' (HW & w1 & t & HM & _ & _ & Hres). eapply after_maintained; [exact HM|].
    apply agents_back_same. destruct res as [r|k]; [by destruct Hres as [_ ->]|].
    destruct Hres as (_ & _ & _ & waiters & _ & Hst). by rewrite Hst.
  - unfold discard. wp_step. eapply wp_mono; [apply reply_wait_check_spec| |].
    + cbv beta. intros res w' ->. wp_step. by apply agents_back_same.
    + cbv beta. intros e w' ->. by apply agents_back_same.
  - eapply wp_mono; [by eapply maintain_spec| |].
    + cbv beta. intros _ w' HM. by eapply maintained_agents.
    + intros e w' [_ _ _ Hb]. by apply regs_back_agents.
  - wp_step. by apply agents_back_same.
  - unfold modify_shared. wp_step. by apply agents_back_same.
  - unfold modify_shared. wp_step. by apply agents_back_same.
Qed.

(** What [register] brings in. *)
Lemma register_agents clk now agent session fresh w :
  WInv clk w → (clk ≤ now)%Z → registrations (w_state w) !! fresh = None →
  wp (register agent session now fresh)
    (λ reg w', WInv now w' ∧ reg_agent reg = agent ∧
       ∀ rid r', registrations (w_state w') !! rid = Some r' →
         reg_agent (rs_registration r') = agent ∨
         ∃ r, registrations (w_state w) !! rid = Some r ∧ same_agent r r')
    (λ _ w', WInv now w' ∧ agents_back (w_state w) (w_state w')) w.
Proof.
  intros HWI Hle Hfresh. eapply wp_mono; [by eapply register_spec| |].
  - intros reg w' (HW & w1 & HM & Hp). split_and!; [done|by rewrite (rp_reg _ _ _ _ _ _ _ Hp)|].
    intros rid r' Hr'. destruct (decide (rid = fresh)) as [->|Hne].
    + left. destruct (rp_entry _ _ _ _ _ _ _ Hp) as (r & Hr & Hreg & _).
      assert (r' = r) as -> by congruence. by rewrite Hreg, (rp_reg _ _ _ _ _ _ _ Hp).
    + right. rewrite (rp_others _ _ _ _ _ _ _ Hp rid Hne) in Hr'. case_bool_decide; [done|].
      by apply (maintained_agents _ _ _ HM).
  - intros e w' Hab. cbv beta in Hab. split; [|by eapply aborted_agents].
    by eapply aborted_inv.
Qed.
End agents.
