(* ===== verification/BrokerProgress.v ===== *)
(** * Progress

    When the store takes every batch, no counter is at its bound and the clock
    leaves room for the retention period, an operation whose own conditions hold
    returns a value: the errors of [broker.rs] have no other cause. *)
From stdpp Require Import prelude gmap strings sorting.
From S2P Require Import Prelude RustStd Model Validation Durability BrokerState BrokerDurable.
From S2P Require Import BrokerMaintain BrokerOps BrokerInv BrokerPrim BrokerTrans BrokerImage.
From S2P Require Import BrokerRecover BrokerRestore BrokerWorld BrokerUpkeep BrokerMaintained.
From S2P Require Import BrokerSpec BrokerDelivery BrokerRegistry.

(** A store that is working: it takes a batch and goes on working. *)
Class PersistenceProgress `{JsonNumber} (P : Type) {persistence : BrokerPersistence P} := {
  healthy : P → Prop;
  healthy_commit : ∀ b p, healthy p → ∃ p', commit b p = (Ok Complete, p') ∧ healthy p';
}.

#[global] Instance oracle_progress `{JsonNumber} : PersistenceProgress OracleStore.Store.
Proof.
  refine {| healthy s := OracleStore.faults s = [] |}.
  intros b [e rows faults]. simpl. intros ->. by eexists.
Defined.

(** ** Writes that leave a part of the world alone *)

Section frame.
Context {P : Type} `{JsonNumber} {serde : SerdeJson} {persistence : BrokerPersistence P}.
#[local] Abbreviation M := (ST (World P) DomainError).

Definition wait_flags (w : World P) : gmap nat bool := flags (w_shared w).

(** A part of the world that is not in the state. *)
Class StateBlind {T} (f : World P → T) : Prop :=
  state_blind : ∀ g w, f (w <| w_state ::= g |>) = f w.
#[global] Instance store_blind : StateBlind w_store.
Proof. done. Qed.
#[global] Instance flags_blind : StateBlind wait_flags.
Proof. done. Qed.

Definition keeps {T} (f : World P → T) {A} (m : M A) : Prop := ∀ w, f (m w).2 = f w.

Lemma keeps_ret {T} (f : World P → T) {A} (a : A) : keeps f (st_ret a).
Proof. by intros w. Qed.

Lemma keeps_lift {T} (f : World P → T) {A} (m : Outcome DomainError A) : keeps f (st_lift m).
Proof. by intros w. Qed.

Lemma keeps_fail {T} (f : World P → T) {A} (e : DomainError) : keeps f (st_fail (A := A) e).
Proof. by intros w. Qed.

Lemma keeps_bind {T} (f : World P → T) {A B} (m : M A) (k : A → M B) :
  keeps f m → (∀ a, keeps f (k a)) → keeps f (st_bind m k).
Proof.
  intros Hm Hk w. unfold st_bind. specialize (Hm w).
  destruct (m w) as [[a| |] w1]; simpl in *; [|done..]. by rewrite Hk.
Qed.

Lemma keeps_on_state {T} (f : World P → T) `{!StateBlind f} {A} (m : ST State DomainError A) :
  keeps f (on_state m).
Proof.
  intros w. unfold on_state, zoom. destruct (m (w_state w)) as [o st]. simpl.
  apply (state_blind (f := f) (λ _, st) w).
Qed.

Lemma keeps_modify_state {T} (f : World P → T) `{!StateBlind f} g : keeps f (modify_state g).
Proof. intros w. apply state_blind. Qed.

Lemma keeps_get_state {T} (f : World P → T) : keeps f get_state.
Proof. by intros w. Qed.

Lemma keeps_if {T} (f : World P → T) {A} (b : bool) (m1 m2 : M A) :
  keeps f m1 → keeps f m2 → keeps f (if b then m1 else m2).
Proof. by destruct b. Qed.

Lemma store_modify_shared g : keeps w_store (modify_shared g).
Proof. by intros w. Qed.

#[local] Hint Resolve keeps_ret keeps_lift keeps_fail keeps_bind keeps_on_state
  keeps_modify_state keeps_get_state keeps_if store_modify_shared store_blind flags_blind : herdr.

(** Detaching and the writes of the maintenance only touch shared objects. *)
Section shared.
Context {T : Type} (f : World P → T) `{!StateBlind f}.
Hypothesis f_notify : ∀ k, keeps f (modify_shared (notify_one k)).
Hypothesis f_resolve : ∀ l, keeps f (modify_shared (resolve_reply_waiters l)).
Hypothesis f_directory :
  keeps f (modify_shared (λ sh, sh <| directory ::= directory_record |>)).

Lemma keeps_detach_expired ids : keeps f (detach_expired ids).
Proof using All.
  induction ids as [|id ids IH]; simpl; [auto with herdr|].
  apply keeps_bind; [auto with herdr|]. intros st.
  destruct (detach_registration id true st) as [[r|] st']; auto 10 with herdr.
Qed.

Lemma keeps_maintain_writes now due expired ids : keeps f (maintain_writes now due expired ids).
Proof using All.
  unfold maintain_writes.
  repeat (apply keeps_bind; [auto using keeps_detach_expired with herdr|intros]);
    auto with herdr.
Qed.
End shared.

Lemma store_maintain_writes now due expired ids :
  keeps w_store (maintain_writes now due expired ids).
Proof. apply (keeps_maintain_writes w_store); [intros ?|intros ?|]; apply store_modify_shared. Qed.

(** *** The flags of the wait guards *)

Lemma flags_notify k : keeps wait_flags (modify_shared (notify_one k)).
Proof. by intros w. Qed.

Lemma flags_resolve l : keeps wait_flags (modify_shared (resolve_reply_waiters l)).
Proof.
  intros w. unfold wait_flags. simpl. generalize (w_shared w). induction l as [|[k r] l IH]; intros sh; simpl; [done|].
  rewrite IH. apply send_reply_frame.
Qed.

Lemma flags_notify_all keys :
  keeps wait_flags (modify_shared (λ sh, foldl (λ sh key, notify_one key sh) sh keys)).
Proof.
  intros w. unfold wait_flags. simpl. generalize (w_shared w).
  induction keys as [|k keys IH]; intros sh; simpl; [done|]. by rewrite IH.
Qed.

Lemma flags_commit b : keeps wait_flags (persistence_commit b).
Proof. intros w. unfold persistence_commit. by destruct (commit b (w_store w)). Qed.

Lemma flags_load now : keeps wait_flags (persistence_load now).
Proof. intros w. unfold persistence_load. by destruct (load now (w_store w)). Qed.

#[local] Hint Resolve flags_notify flags_resolve flags_notify_all flags_commit flags_load : herdr.

Lemma flags_commit_transition b : keeps wait_flags (commit_transition b).
Proof. apply keeps_bind; [auto with herdr|]. intros []; auto with herdr. Qed.

Lemma flags_reconcile now : keeps wait_flags (reconcile_state_if_required now).
Proof.
  unfold reconcile_state_if_required. apply keeps_bind; [auto with herdr|]. intros st.
  apply keeps_if; [auto with herdr|].
  do 4 (apply keeps_bind; [auto with herdr|intros ?]).
  apply keeps_bind; [auto with herdr|]. intros [[restored batch] report].
  apply keeps_bind; [auto with herdr|intros _].
  do 5 (apply keeps_bind; [auto with herdr|intros ?]).
  destruct (rewait_all _ _) as [st1 resolutions], (push_entries _ st1) as [st2 keys].
  auto with herdr.
Qed.

Lemma flags_maintain now : keeps wait_flags (maintain_state now).
Proof.
  unfold maintain_state. apply keeps_bind; [apply flags_reconcile|intros _].
  apply keeps_bind; [auto with herdr|intros st].
  apply keeps_bind; [auto with herdr|intros [[due expired] batch]].
  apply keeps_bind; [auto using flags_commit_transition with herdr|intros _].
  apply (keeps_maintain_writes wait_flags); auto with herdr. by intros w.
Qed.
End frame.

(** ** Progress of the shared steps *)

Section progress.
Context `{JsonNumber} {serde : SerdeJson} {P : Type} {persistence : BrokerPersistence P}.
Context {spec : PersistenceSpec P} {progress : PersistenceProgress P}.
Implicit Types (w : World P) (st : State) (t : TaskRecord) (c : RegistrationCredentials).

(** The version of every task can advance [n] more times. *)
Definition version_room (n : Z) st : Prop :=
  ∀ id t, tasks st !! id = Some t →
    (0 ≤ state_version t)%Z ∧ (state_version t + n ≤ u64_max)%Z.

(** The clock leaves room for the longest period the broker adds to it. *)
Definition clock_room (now : Z) : Prop :=
  (i64_min ≤ now)%Z ∧ (now + TERMINAL_RETENTION_MS ≤ i64_max)%Z.

Record ready (now : Z) w : Prop := {
  rd_healthy : healthy (w_store w);
  rd_flag : reconciliation_required (w_state w) = false;
  rd_clock : clock_room now;
  rd_versions : version_room 2 (w_state w);
}.

(** What is left of it after the maintenance. *)
Record steady (now : Z) w : Prop := {
  sd_healthy : healthy (w_store w);
  sd_clock : clock_room now;
  sd_versions : version_room 1 (w_state w);
}.

Lemma room_version n st id t :
  (1 ≤ n)%Z → version_room n st → tasks st !! id = Some t →
  checked_add_u64 (state_version t) 1 = Some (state_version t + 1)%Z.
Proof. intros Hn Hroom Ht. destruct (Hroom id t Ht). apply checked_Some. lia. Qed.

Lemma room_clock now d :
  clock_room now → (0 ≤ d ≤ TERMINAL_RETENTION_MS)%Z → checked_add_i64 now d = Some (now + d)%Z.
Proof. intros [] ?. apply checked_Some. lia. Qed.

Lemma wp_commit_progress b Q X w :
  healthy (w_store w) →
  (∀ p', view p' = apply_batch b (view (w_store w)) → healthy p' →
     Q tt (w <| w_store := p' |>)) →
  wp (commit_transition b) Q X w.
Proof.
  intros Hh HQ. destruct (healthy_commit b _ Hh) as (p' & Hc & Hh').
  unfold commit_transition, persistence_commit. wp_step. unfold wp. rewrite Hc. simpl.
  apply HQ; [|done]. by eapply commit_complete.
Qed.

Lemma durable_terminal_total id t now state r :
  task_wf id t → checked_add_u64 (state_version t) 1 = Some (state_version t + 1)%Z →
  clock_room now → ∃ row, durable_terminal_task id t now state r = Done row.
Proof.
  intros Hwf Hv Hclk. unfold durable_terminal_task. rewrite (durable_task_image _ _ Hwf).
  unfold next_state_version, or_unavailable. rewrite Hv, (room_clock _ _ Hclk) by done.
  by eexists.
Qed.

Lemma durable_requeued_total id t :
  task_wf id t → checked_add_u64 (state_version t) 1 = Some (state_version t + 1)%Z →
  ∃ row, durable_requeued_task id t = Done row.
Proof.
  intros Hwf Hv. unfold durable_requeued_task. rewrite (durable_task_image _ _ Hwf).
  unfold next_state_version, or_unavailable. rewrite Hv. by eexists.
Qed.

Lemma try_map_total {E A B} (f : A → Outcome E B) l :
  (∀ a, a ∈ l → ∃ b, f a = Done b) → ∃ bs, try_map f l = Done bs.
Proof.
  intros Hf. pose proof (try_map_not_done f l) as Ht.
  destruct (try_map f l) as [bs|e|msg]; [by exists bs|..];
    destruct Ht as (a & Ha & Hfa); destruct (Hf a Ha); congruence.
Qed.

Lemma maintenance_batch_total now st :
  Core st → clock_room now → version_room 1 st →
  ∃ res, maintenance_batch now st = Done res.
Proof.
  intros HC Hclk Hroom. unfold maintenance_batch. rewrite (due_run _ _ HC). simpl.
  destruct (try_map_total (expiring_upsert now st)
    (keys_where (λ _, is_due now) (tasks st))) as [rows Hrows].
  { intros id (t & Ht & _)%elem_of_keys_where. unfold expiring_upsert. rewrite Ht. simpl.
    apply durable_terminal_total; [by apply HC|by eapply (room_version 1)|done]. }
  rewrite Hrows. simpl. unfold try_filter_map. rewrite requeue_map_eq.
  match goal with |- context [try_map (requeue_row now ?e) ?l] =>
    destruct (try_map_total (requeue_row now e) l) as [os Hos] end.
  { intros [id t] Ht%elem_of_map_to_list. unfold requeue_row. simpl.
    destruct (is_orphan _ _ _); [|by eexists].
    destruct (durable_requeued_total id t) as [row ->]; [by apply HC|by eapply (room_version 1)|].
    by eexists. }
  rewrite Hos. by eexists.
Qed.

Lemma version_room_upkeep n now w w' :
  Maintained now w w' → reconciliation_required (w_state w) = false →
  version_room (n + 1) (w_state w) → version_room n (w_state w').
Proof.
  intros HM Hflag Hroom id t'. rewrite (mt_tasks _ _ _ HM Hflag).
  destruct (tasks (w_state w) !! id) as [t|] eqn:Ht; [|done]. simpl.
  destruct (Hroom id t Ht) as [? ?]. unfold upkeep. destruct (overdue now t); [done|].
  intros [= <-]. destruct (is_due now t); [simpl; lia|].
  destruct (is_orphan _ _ _); simpl; lia.
Qed.

Lemma keeps_wp {A} (m : ST (World P) DomainError A) Q X w :
  keeps w_store m → wp m Q X w →
  wp m (λ a w', Q a w' ∧ w_store w' = w_store w) X w.
Proof. intros Hm. specialize (Hm w). unfold wp. by destruct (m w) as [[] ?]. Qed.

Lemma maintain_no_failure clk now w :
  WInv clk w → (clk ≤ now)%Z → ready now w →
  wp (maintain_state now) (λ _ w', healthy (w_store w')) (λ _ _, False) w.
Proof.
  intros HWI0 Hle [Hh Hflag Hclk Hroom]. pose proof (WInv_later _ _ _ Hle HWI0) as HWI.
  pose proof HWI as [HI HS HW]. pose proof (inv_core _ _ HI) as HC.
  unfold maintain_state, reconcile_state_if_required, get_state. wp_steps. rewrite Hflag. cbn [negb]. wp_steps.
  destruct (maintenance_batch_total now (w_state w) HC Hclk) as [[[due expired] batch] Hbatch].
  { intros id t Ht. destruct (Hroom id t Ht). lia. }
  apply wp_lift. rewrite Hbatch.
  destruct (maintenance_batch_ok now (w_state w) due expired batch HC Hbatch) as [-> HB].
  assert (∀ w1, w_state w1 = w_state w → w_shared w1 = w_shared w → healthy (w_store w1) →
    view (w_store w1) = apply_batch batch (view (w_store w)) →
    wp (maintain_writes now due (expired_credentials now (w_state w))
          (expired_registrations now (w_state w)))
      (λ _ w', healthy (w_store w')) (λ _ _, False) w1) as Hwrites.
  { intros w1 Hst Hsh Hh1 Hv. pose proof (maintain_writes_spec now due batch w1 (view (w_store w))) as Hspec.
    rewrite Hst, Hsh in Hspec.
    assert (view_epoch (view (w_store w1)) = next_registration_epoch (w_state w)) as Hep.
    { rewrite Hv. unfold apply_batch; simpl. rewrite (bo_epoch _ _ _ _ _ HB). by apply HS. }
    eapply wp_mono; [apply keeps_wp; [apply store_maintain_writes|]; apply Hspec; try done| |done].
    - by apply HS.
    - cbv beta. intros _ w' [_ ->]. done. }
  wp_step. apply wp_if; intros Hempty.
  - apply wp_commit_progress; [done|]. intros p' Hp' Hh'. by apply (Hwrites (w <| w_store := p' |>)).
  - apply wp_ret, Hwrites; try done. apply negb_false_iff, batch_is_empty_eq in Hempty.
    by rewrite Hempty, apply_empty_batch.
Qed.

Lemma maintain_progress clk now w :
  WInv clk w → (clk ≤ now)%Z → ready now w →
  wp (maintain_state now) (λ _ w', Maintained now w w' ∧ steady now w') (λ _ _, False) w.
Proof.
  intros HWI Hle Hrd. eapply wp_mono;
    [eapply wp_and; [by eapply maintain_spec|by eapply maintain_no_failure]| |].
  - cbv beta. intros _ w' [HM Hh]. split; [done|]. split; [done|apply Hrd|].
    eapply version_room_upkeep; [done|apply Hrd|apply Hrd].
  - by intros e w' [_ ?].
Qed.

Lemma begin_progress clk now c w r0 :
  WInv clk w → (clk ≤ now)%Z → ready now w → authentic now c (w_state w) r0 →
  wp (validate_registration_and_maintain c now)
    (λ _ w1, ∃ r, begun now c w w1 r ∧ same_reg r0 r ∧ steady now w1) (λ _ _, False) w.
Proof.
  intros HWI Hle Hrd Hau. pose proof (validate_and_maintain_spec clk now c w HWI Hle) as Hspec.
  assert (wp (validate_registration_and_maintain c now) (λ _ w1, steady now w1) (λ _ _, False) w) as Hnf.
  { unfold validate_registration_and_maintain, get_state. wp_steps.
    eapply wp_mono; [by eapply maintain_progress| |done]. cbv beta. intros _ w1 [_ Hsd].
    apply wp_lift. unfold validate_active_registration. destruct Hau as [Hr Hc Hl]. rewrite Hr.
    pose proof (regs_named _ _ _ (core_regs _ (inv_core _ _ (wi_inv _ _ HWI))) _ _ Hr) as Hn.
    unfold reg_name in Hn. unfold reg_expiry in Hl.
    rewrite bool_decide_eq_true_2 by by rewrite <-Hc. rewrite (bool_decide_eq_true_2 _ Hn).
    by rewrite (proj2 (Z.leb_gt _ _) Hl). }
  eapply wp_mono; [eapply wp_and; [exact Hspec|exact Hnf]| |by intros ? ? [_ ?]].
  cbv beta. intros _ w1 [[r Hb] Hsd]. exists r. split_and!; [done| |done].
  destruct (bg_before _ _ _ _ _ Hb) as (r0' & Hau' & Hsame).
  destruct Hau as [Hr _ _], Hau' as [Hr' _ _]. by simplify_eq.
Qed.

(** ** Tasks across the maintenance *)

Lemma kept_task now w w1 id t :
  Maintained now w w1 → reconciliation_required (w_state w) = false →
  tasks (w_state w) !! id = Some t → live t → is_due now t = false →
  ∃ t1, tasks (w_state w1) !! id = Some t1 ∧ live t1 ∧
    sender t1 = sender t ∧ recipient t1 = recipient t ∧
    (is_orphan now (expired_credentials now (w_state w)) t = false → t1 = t).
Proof.
  intros HM Hflag Ht Hlive Hdue. rewrite (mt_tasks _ _ _ HM Hflag), Ht. simpl. unfold upkeep.
  rewrite (overdue_live _ _ Hlive), Hdue. eexists. split; [done|].
  destruct (is_orphan _ _ _); by split_and!.
Qed.

(** A lease held by a live registration is not an orphan. *)
Lemma held_not_orphan now w c r t l :
  Core (w_state w) → authentic now c (w_state w) r → lease t = Some l → lease_owner l = Some c →
  is_orphan now (expired_credentials now (w_state w)) t = false.
Proof.
  intros HC [Hr Hc Hlive] Hl Ho. unfold is_orphan. rewrite Hl, Ho. simpl.
  rewrite bool_decide_eq_false_2; [by rewrite andb_false_r|].
  intros (rid & r' & Hr' & Hexp & Heq)%elem_of_expired_credentials.
  assert (rid = cred_id c) as ->.
  { rewrite Heq. unfold reg_credentials. simpl.
    by rewrite (regs_key _ _ _ (core_regs _ HC) _ _ Hr'). }
  simplify_eq. lia.
Qed.

(** ** Progress of the operations *)

Lemma finish_progress now id t o result w :
  WInv now w → steady now w → tasks (w_state w) !! id = Some t → live t →
  wp (let! durable := st_lift
        (durable_terminal_task id t now (outcome_state o) (outcome_fields o).1) in
      let! _ := commit_transition (single_task_batch durable) in
      let! waiters := on_state (terminalize_task id now o) in
      send_all waiters result)
    (λ _ _, True) (λ _ _, False) w.
Proof.
  intros HWI [Hh Hclk Hroom] Ht Hlive. pose proof (room_version 1 _ _ _ ltac:(lia) Hroom Ht) as Hv.
  pose proof (core_tasks _ (inv_core _ _ (wi_inv _ _ HWI)) _ _ Ht) as Hwf.
  wp_steps. apply wp_lift.
  destruct (durable_terminal_total id t now (outcome_state o) (outcome_fields o).1 Hwf Hv Hclk)
    as [row ->].
  wp_steps. apply wp_commit_progress; [done|]. intros p' _ _. wp_steps. apply wp_zoom. simpl.
  eapply wp_run; [by apply terminalize_task_run; [..|apply (room_clock _ _ Hclk)|]|].
  unfold send_all, modify_shared. by wp_steps.
Qed.

(** A live task records no outcome. *)
Lemma live_task_fields now w id t :
  WInv now w → tasks (w_state w) !! id = Some t → live t →
  reply t = None ∧ failed t = false ∧ rejected t = false ∧ canceled t = false ∧ expired t = false.
Proof.
  intros HWI Ht Hlive. pose proof (wf_phase _ _ (core_tasks _ (inv_core _ _ (wi_inv _ _ HWI)) _ _ Ht)) as Hp.
  rewrite Hlive in Hp. by pose proof (live_fields _ Hp) as [= -> -> -> -> ->].
Qed.

Lemma same_reg_name r r' : same_reg r r' → reg_name r' = reg_name r.
Proof. intros (Heq & _). unfold reg_name. by rewrite Heq. Qed.

(** The common start of the operations that end a task. *)
Lemma wp_live_task {A} clk now c id w r t msg (k : RegistrationState → TaskRecord →
    ST (World P) DomainError A) (Q : A → World P → Prop) :
  WInv clk w → (clk ≤ now)%Z → ready now w → authentic now c (w_state w) r →
  tasks (w_state w) !! id = Some t → live t → is_due now t = false →
  (∀ w1 r1 t1, WInv now w1 → steady now w1 → reg_name r1 = reg_name r →
     tasks (w_state w1) !! id = Some t1 → live t1 →
     sender t1 = sender t → recipient t1 = recipient t →
     wp (k r1 t1) Q (λ _ _, False) w1) →
  wp (let! _ := validate_registration_and_maintain c now in
      let! registration := validated_registration c msg in
      let! st := get_state in
      let! task := st_lift (ok_or (tasks st !! id) TaskNotFound) in
      k registration task) Q (λ _ _, False) w.
Proof.
  intros HWI Hle Hrd Hau Ht Hlive Hdue Hk. wp_step.
  eapply wp_mono; [by eapply begin_progress| |done]. cbv beta.
  intros _ w1 (r1 & [HM Hau1 _] & Hsame & Hsd).
  destruct (kept_task _ _ _ _ _ HM (rd_flag _ _ Hrd) Ht Hlive Hdue)
    as (t1 & Ht1 & Hlive1 & Hs & Hrec & _).
  wp_step. eapply wp_validated_registration; [exact Hau1|]. unfold get_state. wp_steps.
  eapply wp_found; [exact Ht1|].
  apply Hk; [apply HM|done|by apply same_reg_name|done..].
Qed.

Lemma reply_task_progress clk now c id rp w r t :
  WInv clk w → (clk ≤ now)%Z → ready now w → authentic now c (w_state w) r →
  tasks (w_state w) !! id = Some t → live t → is_due now t = false → recipient t = reg_name r →
  wp (reply_task c id rp now) (λ _ _, True) (λ _ _, False) w.
Proof.
  intros HWI Hle Hrd Hau Ht Hlive Hdue Hn.
  eapply wp_live_task; [done..|]. intros w1 r1 t1 HWI1 Hsd Hname Ht1 Hlive1 _ Hrec.
  destruct (live_task_fields _ _ _ _ HWI1 Ht1 Hlive1) as (Hr & Hf & Hrj & Hc & He).
  wp_steps. apply wp_accept.
  { apply negb_decide_false. change (recipient t1 = reg_name r1). congruence. }
  wp_steps. apply wp_accept; [done|]. wp_steps. apply wp_accept; [done|]. wp_steps.
  apply wp_accept; [by rewrite Hf, Hrj|]. rewrite Hr.
  by apply (finish_progress now id t1 (TerminalReplied rp)).
Qed.

Lemma recipient_terminal_progress clk now c id m outcome w r t :
  WInv clk w → (clk ≤ now)%Z → ready now w → authentic now c (w_state w) r →
  tasks (w_state w) !! id = Some t → live t → is_due now t = false → recipient t = reg_name r →
  wp (recipient_terminal c id m outcome now) (λ _ _, True) (λ _ _, False) w.
Proof.
  intros HWI Hle Hrd Hau Ht Hlive Hdue Hn.
  eapply wp_live_task; [done..|]. intros w1 r1 t1 HWI1 Hsd Hname Ht1 Hlive1 _ Hrec.
  destruct (live_task_fields _ _ _ _ HWI1 Ht1 Hlive1) as (Hr & Hf & Hrj & Hc & He).
  wp_steps. apply wp_accept.
  { apply negb_decide_false. change (recipient t1 = reg_name r1). congruence. }
  rewrite Hr, Hf, Hrj, Hc, He. destruct outcome; cbn [andb]; wp_steps; (apply wp_accept; [done|]);
    [by apply (finish_progress now id t1 (TerminalFailed m))
    |by apply (finish_progress now id t1 (TerminalRejected m))].
Qed.

Lemma cancel_task_progress clk now c id w r t :
  WInv clk w → (clk ≤ now)%Z → ready now w → authentic now c (w_state w) r →
  tasks (w_state w) !! id = Some t → live t → is_due now t = false → sender t = reg_name r →
  wp (cancel_task c id now) (λ _ _, True) (λ _ _, False) w.
Proof.
  intros HWI Hle Hrd Hau Ht Hlive Hdue Hn.
  eapply wp_live_task; [done..|]. intros w1 r1 t1 HWI1 Hsd Hname Ht1 Hlive1 Hs _.
  destruct (live_task_fields _ _ _ _ HWI1 Ht1 Hlive1) as (Hr & Hf & Hrj & Hc & He).
  wp_steps. apply wp_accept.
  { apply negb_decide_false. change (sender t1 = reg_name r1). congruence. }
  rewrite Hc. wp_steps. apply wp_accept; [done|]. wp_steps.
  apply wp_accept; [by rewrite Hr|]. by apply (finish_progress now id t1 TerminalCanceled).
Qed.

Lemma ack_delivery_progress clk now c d w r id t l :
  WInv clk w → (clk ≤ now)%Z → ready now w → authentic now c (w_state w) r →
  tasks (w_state w) !! id = Some t → is_due now t = false → acknowledged t = false →
  lease t = Some l → lease_delivery_id l = d → lease_owner l = Some c →
  (now < lease_until_unix_ms l)%Z →
  wp (ack_delivery c d now) (λ _ _, True) (λ _ _, False) w.
Proof.
  intros HWI Hle Hrd Hau Ht Hdue Ha Hl Hd Ho Huntil.
  pose proof (inv_core _ _ (wi_inv _ _ HWI)) as HC.
  pose proof (leased_live _ _ _ (core_tasks _ HC _ _ Ht) Hl) as Hlive.
  unfold ack_delivery. wp_step. eapply wp_mono; [by eapply begin_progress| |done]. cbv beta.
  intros _ w1 (r1 & [HM Hau1 _] & _ & [Hh Hclk Hroom]).
  destruct (kept_task _ _ _ _ _ HM (rd_flag _ _ Hrd) Ht Hlive Hdue)
    as (t1 & Ht1 & _ & _ & _ & Hsame).
  rewrite (Hsame (held_not_orphan _ _ _ _ _ _ HC Hau Hl Ho)) in Ht1. clear Hsame t1.
  pose proof (mt_inv _ _ _ HM) as HWI1. pose proof (inv_core _ _ (wi_inv _ _ HWI1)) as HC1.
  destruct (live_task_fields _ _ _ _ HWI1 Ht1 Hlive) as (Hr & _ & _ & Hc & He).
  pose proof (wf_phase _ _ (core_tasks _ HC1 _ _ Ht1)) as Hp. rewrite Hlive in Hp.
  pose proof (room_version 1 _ _ _ ltac:(lia) Hroom Ht1) as Hv.
  wp_step. eapply wp_validated_registration; [exact Hau1|]. unfold get_state. wp_steps.
  eapply wp_found; [apply (core_deliveries _ HC1); by exists t, l|]. wp_steps.
  eapply wp_expect; [exact Ht1|]. wp_steps. apply wp_accept.
  { unfold valid_delivery. rewrite Hl, Ha, Hc, He, Hr, (live_delivery _ Hp). simpl.
    rewrite bool_decide_eq_true_2 by done. by rewrite (proj2 (Z.ltb_lt _ _) Huntil). }
  rewrite Ha. wp_steps. apply wp_accept; [apply negb_decide_false; by rewrite Hl|]. wp_steps.
  apply wp_lift. unfold durable_acknowledged_task, next_state_version, or_unavailable.
  rewrite durable_task_image, Hv by by apply HC1. cbn [out_bind ok_or]. wp_steps.
  apply wp_commit_progress; [done|]. intros p' _ _. wp_steps. eapply wp_expect; [exact Ht1|].
  wp_steps. apply wp_lift. rewrite Hv. cbn [ok_or]. unfold modify_state. wp_steps.
  eapply (wp_validated_registration c _ now _ r1); [by destruct Hau1; split|]. by wp_steps.
Qed.

(** The attempt counter of every task can advance. *)
Definition attempt_room st : Prop :=
  ∀ id t a, tasks st !! id = Some t → last_delivery_attempt t = Some a →
    (0 ≤ a)%Z ∧ (a < u32_max)%Z.

Lemma attempt_room_upkeep now w w' :
  Maintained now w w' → reconciliation_required (w_state w) = false →
  attempt_room (w_state w) → attempt_room (w_state w').
Proof.
  intros HM Hflag Hroom id t' a. rewrite (mt_tasks _ _ _ HM Hflag).
  destruct (tasks (w_state w) !! id) as [t|] eqn:Ht; [|done]. simpl. unfold upkeep.
  destruct (overdue now t); [done|]. intros [= <-] Ha. apply (Hroom id t); [done|].
  by destruct (is_due now t), (is_orphan now (expired_credentials now (w_state w)) t).
Qed.

Lemma lease_task_progress now c fresh id t d w :
  WInv now w → steady now w → attempt_room (w_state w) →
  tasks (w_state w) !! id = Some t →
  wp (lease_task c now fresh id t d) (λ _ _, True) (λ _ _, False) w.
Proof.
  intros HWI [Hh Hclk Hroom] Hatt Ht. unfold lease_task, get_state. wp_steps.
  pose proof (core_tasks _ (inv_core _ _ (wi_inv _ _ HWI)) _ _ Ht) as Hwf.
  pose proof (room_version 1 _ _ _ ltac:(lia) Hroom Ht) as Hv.
  assert (∃ attempt, match last_delivery_attempt t with
                     | Some attempt => or_unavailable (checked_add_u32 attempt 1)
                     | None => Done (qd_attempt d)
                     end = Done attempt) as [attempt ->].
  { destruct (last_delivery_attempt t) as [a|] eqn:Hlast; [|by eexists]. exists (a + 1)%Z.
    destruct (Hatt id t a Ht Hlast). unfold or_unavailable.
    assert (checked_add_u32 a 1 = Some (a + 1)%Z) as -> by (apply checked_Some; lia). done. }
  apply wp_lift. wp_steps. apply wp_lift. unfold or_unavailable.
  rewrite (room_clock _ _ Hclk) by done. cbn [ok_or]. wp_steps. apply wp_lift.
  unfold durable_leased_task, next_state_version, or_unavailable.
  rewrite (durable_task_image _ _ Hwf), Hv. cbn [out_bind ok_or]. wp_steps.
  apply wp_commit_progress; [done|]. intros p' _ _. wp_steps. eapply wp_expect; [exact Ht|].
  wp_steps. apply wp_lift. rewrite Hv. cbn [ok_or]. unfold modify_state. by wp_steps.
Qed.

Lemma poll_tasks_progress now c fresh inbox bound w :
  WInv now w → steady now w → attempt_room (w_state w) →
  (∀ id, id ∈ inbox → is_Some (tasks (w_state w) !! id)) →
  wp (poll_tasks c now fresh inbox bound) (λ _ _, True) (λ _ _, False) w.
Proof.
  intros HWI Hsd Hatt. revert bound. induction inbox as [|id inbox IH]; intros bound Hin; simpl; [done|].
  destruct (Hin id) as [t Ht]; [set_solver|]. pose proof (inv_core _ _ (wi_inv _ _ HWI)) as HC.
  pose proof (core_tasks _ HC _ _ Ht) as Hwf.
  assert (∀ b, wp (poll_tasks c now fresh inbox b) (λ _ _, True) (λ _ _, False) w) as Hrest.
  { intros b. apply IH. set_solver. }
  unfold get_state. wp_steps. rewrite Ht. apply wp_if; intros _; [done|].
  destruct (delivery t) as [d|] eqn:Hd; [|done]. wp_steps.
  assert (d = original_delivery t) as ->.
  { pose proof (wf_phase _ _ Hwf) as Hp. destruct (terminal_deadline_unix_ms t);
      [destruct Hp; congruence|]. pose proof (live_delivery _ Hp). congruence. }
  destruct (wf_deadline _ _ Hwf) as [deadline Hdl]. apply wp_lift. unfold or_unavailable.
  rewrite Hdl. cbn [ok_or]. destruct (lease t) as [l|]; [|by apply lease_task_progress].
  apply wp_if; intros _; [done|by apply lease_task_progress].
Qed.

Lemma poll_delivery_progress clk now c fresh w r :
  WInv clk w → (clk ≤ now)%Z → ready now w → attempt_room (w_state w) →
  authentic now c (w_state w) r →
  wp (poll_delivery c now fresh) (λ _ _, True) (λ _ _, False) w.
Proof.
  intros HWI Hle Hrd Hatt Hau. unfold poll_delivery. wp_step.
  eapply wp_mono; [by eapply begin_progress| |done]. cbv beta.
  intros _ w1 (r1 & [HM Hau1 _] & _ & Hsd). pose proof (mt_inv _ _ _ HM) as HWI1.
  wp_step. eapply wp_validated_registration; [exact Hau1|].
  apply poll_tasks_progress; [done..|eapply attempt_room_upkeep; [done|apply Hrd|done]|].
  intros id Hid. destruct (core_inbox _ (inv_core _ _ (wi_inv _ _ HWI1)) _ _ (au_lookup _ _ _ _ Hau1))
    as [Hin _]. destruct (Hin id Hid) as (s & (t & Ht & _)%lookup_shapes & _). by exists t.
Qed.

(** The maintenance makes no task. *)
Lemma upkeep_shrinks now w w1 id t1 :
  Maintained now w w1 → reconciliation_required (w_state w) = false →
  tasks (w_state w1) !! id = Some t1 →
  ∃ t, tasks (w_state w) !! id = Some t ∧ sender t1 = sender t ∧ (live t1 → live t).
Proof.
  intros HM Hflag. rewrite (mt_tasks _ _ _ HM Hflag).
  destruct (tasks (w_state w) !! id) as [t|]; [|done]. simpl. unfold upkeep.
  destruct (overdue now t); [done|]. intros [= <-]. exists t. split; [done|].
  by destruct (is_due now t), (is_orphan now (expired_credentials now (w_state w)) t).
Qed.

Lemma upkeep_sizes clk now w w1 a :
  WInv clk w → Maintained now w w1 → reconciliation_required (w_state w) = false →
  (size (tasks (w_state w1)) ≤ size (tasks (w_state w)))%nat ∧
  (size (default ∅ (outbound_tasks_by_agent (w_state w1) !! a))
     ≤ size (default ∅ (outbound_tasks_by_agent (w_state w) !! a)))%nat.
Proof.
  intros HWI HM Hflag. split.
  - rewrite <-!size_dom. apply subseteq_size. intros id [t1 Ht1]%elem_of_dom.
    destruct (upkeep_shrinks _ _ _ _ _ HM Hflag Ht1) as (t & Ht & _). apply elem_of_dom. eauto.
  - destruct (core_outbound _ (inv_core _ _ (wi_inv _ _ HWI))) as [_ Hidx].
    destruct (core_outbound _ (inv_core _ _ (wi_inv _ _ (mt_inv _ _ _ HM)))) as [_ Hidx1].
    apply subseteq_size. intros id Hid. apply Hidx. apply Hidx1 in Hid as (s & Hs & Hl & Ho).
    apply lookup_shapes in Hs as (t1 & Ht1 & ->).
    destruct (upkeep_shrinks _ _ _ _ _ HM Hflag Ht1) as (t & Ht & Hse & Hlive).
    exists (shape t). split_and!; [by apply lookup_shapes_Some|by apply Hlive|].
    unfold owns_sent in *. simpl in *. congruence.
Qed.

Lemma enqueue_progress clk now c d w r rid rr :
  WInv clk w → (clk ≤ now)%Z → ready now w → authentic now c (w_state w) r →
  reg_name r = qd_sender d → tasks (w_state w) !! qd_task_id d = None →
  (size (tasks (w_state w)) < MAX_RETAINED_TASKS)%nat →
  (size (default ∅ (outbound_tasks_by_agent (w_state w) !! qd_sender d))
     < MAX_ACTIVE_OUTBOUND_TASKS)%nat →
  registrations (w_state w) !! rid = Some rr → reg_name rr = qd_recipient d →
  (now < reg_expiry rr)%Z → (0 ≤ next_task_sequence (w_state w) < u64_max)%Z →
  wp (enqueue c d now) (λ _ _, True) (λ _ _, False) w.
Proof.
  intros HWI Hle Hrd Hau Hn Hnew Hsize Hout Hrr Hrn Hrl Hseq. pose proof (rd_flag _ _ Hrd) as Hflag.
  unfold enqueue, modify_state, modify_shared. wp_step. eapply wp_mono; [by eapply begin_progress| |done]. cbv beta.
  intros _ w1 (r1 & [HM Hau1 _] & Hsame & [Hh Hclk Hroom]).
  destruct (upkeep_sizes _ _ _ _ (qd_sender d) HWI HM Hflag) as [Hsz Hsz'].
  destruct (mt_kept _ _ _ HM _ _ Hrr Hrl) as (rr1 & Hrr1 & Hs1).
  pose proof (core_regs _ (inv_core _ _ (wi_inv _ _ (mt_inv _ _ _ HM)))) as Hregs.
  assert (tasks (w_state w1) !! qd_task_id d = None) as Hnew1
    by by rewrite (mt_tasks _ _ _ HM Hflag), Hnew.
  assert (reg_name r1 = qd_sender d) as Hn1 by by rewrite (same_reg_name _ _ Hsame).
  unfold get_state. wp_steps. apply wp_accept; [by rewrite Hnew1|]. wp_steps.
  apply wp_accept; [apply Nat.leb_gt; lia|]. wp_steps.
  eapply wp_validated_registration; [exact Hau1|]. wp_steps.
  change (registered_name r1) with (reg_name r1). rewrite Hn1.
  apply wp_accept; [by apply negb_decide_false|]. wp_steps.
  apply wp_accept; [apply Nat.leb_gt; lia|]. wp_steps.
  eapply (wp_found _ rid).
  { unfold active_registration_id. rewrite <-Hrn, <-(same_reg_name _ _ Hs1).
    rewrite (regs_named _ _ _ Hregs _ _ Hrr1). simpl. rewrite Hrr1. simpl.
    destruct Hs1 as (-> & _). unfold reg_expiry in Hrl.
    by rewrite (proj2 (Z.ltb_lt _ _) Hrl). }
  wp_steps. apply wp_lift. unfold or_unavailable. rewrite (uf_sequence _ _ (mt_frame _ _ _ HM Hflag)).
  assert (checked_add_u64 (next_task_sequence (w_state w)) 1
          = Some (next_task_sequence (w_state w) + 1)%Z) as -> by (apply checked_Some; lia).
  cbn [ok_or]. wp_steps. apply wp_lift. simpl. rewrite (room_clock _ _ Hclk) by done. cbn [ok_or].
  wp_steps. apply wp_commit_progress; [done|]. intros p' _ _. wp_steps.
  eapply wp_expect; [exact Hrr1|]. by wp_steps.
Qed.

Lemma old_rows_total st name :
  Core st → version_room 1 st → ∃ rows, old_rows st name = Done rows.
Proof.
  intros HC Hroom. unfold old_rows. case_match; [|by eexists].
  apply try_map_total. intros [id t] [_ Ht]%list_elem_of_filter. apply elem_of_map_to_list in Ht.
  apply durable_requeued_total; [by apply HC|by eapply (room_version 1)].
Qed.

Lemma register_progress clk now agent session fresh w :
  WInv clk w → (clk ≤ now)%Z → ready now w → registrations (w_state w) !! fresh = None →
  (0 ≤ next_registration_epoch (w_state w) < u64_max)%Z →
  wp (register agent session now fresh) (λ _ _, True) (λ _ _, False) w.
Proof.
  intros HWI Hle Hrd Hfresh Hep. unfold register. wp_step.
  eapply wp_mono; [by eapply maintain_progress| |done]. cbv beta.
  intros _ w1 [HM [Hh Hclk Hroom]]. pose proof (mt_inv _ _ _ HM) as HWI1.
  assert (registrations (w_state w1) !! fresh = None) as Hfresh1.
  { apply eq_None_not_Some. intros [r Hr]. destruct (mt_back _ _ _ HM _ _ Hr) as (? & ? & _).
    congruence. }
  unfold get_state at 1, or_unavailable. wp_steps. eapply wp_found; [by apply room_clock|].
  wp_steps. eapply wp_found.
  { apply checked_Some. split; [done|].
    rewrite (uf_epoch _ _ (mt_frame _ _ _ HM (rd_flag _ _ Hrd))). lia. }
  wp_steps. apply wp_lift_no_panic; [apply old_rows_no_panic| |].
  - intros rows Hrows. wp_step. apply wp_commit_progress; [done|]. intros p' Hp' _.
    eapply wp_mono; [apply (register_writes_spec now agent session fresh rows w1); try done; apply HM|done|done].
  - intros e He. destruct (old_rows_total (w_state w1) (agent_name agent)) as [rows Hrows];
      [apply HWI1|done|]. unfold old_rows in Hrows. congruence.
Qed.
End progress.
