(* ===== verification/Scenario.v ===== *)
(** * A concrete run

    A store, two agents and the values the examples and the witnesses of the
    other files are evaluated on.  Numbers of [serde_json] are integers here, and
    the length of a serialisation is a constant. *)
From stdpp Require Import prelude gmap strings sorting.
From S2P Require Import Prelude RustStd Model Validation Durability BrokerState BrokerDurable.
From S2P Require Import BrokerMaintain BrokerOps BrokerInv BrokerWorld BrokerSpec BrokerReach.
From S2P Require Import BrokerProgress.

Module Scenario.
#[global] Instance number : JsonNumber := {| Number := Z; is_f64 _ := false |}.
#[global] Instance number_integers : IntegerNumbers.
Proof. done. Qed.
#[global] Instance serde : SerdeJson := {| to_vec_len _ := 2%nat |}.

Definition Store : Type := OracleStore.Store.
Definition empty_store (faults : list OracleStore.Fault) : Store :=
  OracleStore.MkStore 0 [] faults.
Definition start (faults : list OracleStore.Fault) : World Store :=
  MkWorld State_default (empty_store faults) Shared_default.

Definition name (s : string) : AgentName := MkAgentName s.
Definition agent (s pane : string) : VerifiedAgent :=
  MkVerifiedAgent (name s) pane "pi" "/work".
Definition rid (s : string) : RegistrationId := MkRegistrationId s.
Definition did (s : string) : DeliveryId := MkDeliveryId s.
Definition cred (s : string) (epoch : Z) : RegistrationCredentials :=
  MkCredentials (rid s) (MkRegistrationEpoch epoch).

Definition payload : ValidatedPayload := MkValidatedPayload "hello" (VObject []) [].
Definition answer : ReplyPayload := MkReplyPayload "done" (VObject []) [].
Definition message (id : string) : QueuedDelivery :=
  MkQueuedDelivery id "context" (name "alice") (name "bob") payload 0 1.

Definition step (op : Op) (now : Z) (w : World Store) : World Store := (exec op now w).2.

(** A broker recovered from an empty store, and the life of one task in it. *)
Definition boot : World Store :=
  match (recover 1000 (empty_store [])).1 with Done (w, _) => w | _ => start [] end.
Definition alice : RegistrationCredentials := cred "ra" 1.
Definition bob : RegistrationCredentials := cred "rb" 2.
Definition with_alice : World Store :=
  step (OpRegister (agent "alice" "p1") "s1" (rid "ra")) 1000 boot.
Definition both : World Store :=
  step (OpRegister (agent "bob" "p2") "s2" (rid "rb")) 1001 with_alice.
Definition sent : World Store := step (OpEnqueue alice (message "t1")) 1002 both.
Definition waiting : World Store := step (OpReplyWaitBegin (name "alice") "t1") 1003 sent.
Definition polled : World Store := step (OpPoll bob (did "d1")) 1004 waiting.
Definition acknowledged_w : World Store := step (OpAck bob (did "d1")) 1005 polled.
Definition replied : World Store := step (OpReply bob "t1" answer) 1006 acknowledged_w.

Lemma reach_step clk now op (w : World Store) :
  Reachable clk w → (clk ≤ now)%Z → admissible op w → Reachable now (step op now w).
Proof.
  intros Hr Hle Hadm. unfold step. destruct (exec op now w) as [o w'] eqn:Hrun.
  by eapply reach_exec.
Qed.

(** A test for [fresh_delivery]. *)
Definition differs {A} (f : A → DeliveryId) (d : DeliveryId) (l : option A) : bool :=
  match l with Some l => negb (bool_decide (f l = d)) | None => true end.

Definition fresh_delivery_test (d : DeliveryId) (w : World Store) : bool :=
  forallb (λ p, differs lease_delivery_id d (lease p.2)) (map_to_list (tasks (w_state w)))
  && forallb (λ p, differs dl_delivery_id d (dt_lease p.2))
       (map_to_list (view_tasks (view (w_store w)))).

Lemma differs_ne {A} (f : A → DeliveryId) d l : differs f d (Some l) = true → f l ≠ d.
Proof. intros Hd%negb_true_iff%bool_decide_eq_false. done. Qed.

Lemma fresh_delivery_test_ok d w : fresh_delivery_test d w = true → fresh_delivery d w.
Proof.
  intros [Ht Hr]%andb_true_iff. rewrite forallb_forall in Ht, Hr. split.
  - intros id t l Hid%elem_of_map_to_list%list_elem_of_In Hl. specialize (Ht _ Hid). simpl in Ht.
    rewrite Hl in Ht. by apply differs_ne in Ht.
  - intros id row l Hid%elem_of_map_to_list%list_elem_of_In Hl. specialize (Hr _ Hid). simpl in Hr.
    rewrite Hl in Hr. by apply differs_ne in Hr.
Qed.

(** Tests for the conditions of the progress theorems. *)
Definition version_room_test (n : Z) (w : World Store) : bool :=
  forallb (λ p, (0 <=? state_version p.2) && (state_version p.2 + n <=? u64_max))%Z
    (map_to_list (tasks (w_state w))).

Definition attempt_room_test (w : World Store) : bool :=
  forallb (λ p, from_option (λ a, (0 <=? a) && (a <? u32_max))%Z true
                  (last_delivery_attempt p.2)) (map_to_list (tasks (w_state w))).

Lemma attempt_room_test_ok w : attempt_room_test w = true → attempt_room (w_state w).
Proof.
  intros Ht id t a Hid%elem_of_map_to_list%list_elem_of_In Ha.
  unfold attempt_room_test in Ht. rewrite forallb_forall in Ht. specialize (Ht _ Hid).
  simpl in Ht. rewrite Ha in Ht. simpl in Ht. lia.
Qed.

Definition clock_test (now : Z) : bool :=
  ((i64_min <=? now) && (now + TERMINAL_RETENTION_MS <=? i64_max))%Z.

Definition ready_test (now : Z) (w : World Store) : bool :=
  match OracleStore.faults (w_store w) with [] => true | _ => false end
  && negb (reconciliation_required (w_state w)) && clock_test now && version_room_test 2 w.

Lemma ready_test_ok now w : ready_test now w = true → ready now w.
Proof.
  unfold ready_test, clock_test, version_room_test. rewrite !andb_true_iff.
  intros [[[Hf Hr] Hc] Hv]. split.
  - simpl. by destruct (OracleStore.faults (w_store w)).
  - by apply negb_true_iff.
  - split; lia.
  - intros id t Hid%elem_of_map_to_list%list_elem_of_In. rewrite forallb_forall in Hv.
    specialize (Hv _ Hid). simpl in Hv. lia.
Qed.

Lemma reach_boot : Reachable 1000 boot.
Proof.
  destruct (recover 1000 (empty_store [])) as [[[w report]| |] p] eqn:Hrun.
  - replace boot with w; [by eapply reach_recover|]. unfold boot. by rewrite Hrun.
  - by vm_compute in Hrun.
  - by vm_compute in Hrun.
Qed.

Lemma reach_both : Reachable 1001 both.
Proof.
  apply (reach_step 1000); [|lia|by vm_compute]. apply (reach_step 1000); [|lia|by vm_compute].
  apply reach_boot.
Qed.

Lemma reach_sent : Reachable 1002 sent.
Proof. apply (reach_step 1001); [apply reach_both|lia|done]. Qed.

Lemma reach_waiting : Reachable 1003 waiting.
Proof. apply (reach_step 1002); [apply reach_sent|lia|done]. Qed.

Lemma fresh_waiting : fresh_delivery (did "d1") waiting.
Proof. apply fresh_delivery_test_ok. by vm_compute. Qed.

Lemma reach_polled : Reachable 1004 polled.
Proof. apply (reach_step 1003); [apply reach_waiting|lia|apply fresh_waiting]. Qed.

Lemma reach_acknowledged : Reachable 1005 acknowledged_w.
Proof. apply (reach_step 1004); [apply reach_polled|lia|done]. Qed.

Lemma reach_replied : Reachable 1006 replied.
Proof. apply (reach_step 1005); [apply reach_acknowledged|lia|done]. Qed.

(** The outcome of a step, and the task of the scenario after it. *)
Lemma run_step op now (w : World Store) o :
  (exec op now w).1 = o → exec op now w = (o, step op now w).
Proof. intros <-. unfold step. by destruct (exec op now w). Qed.

Definition the_task (w : World Store) : TaskRecord :=
  default (new_task_record 0 (name "alice") (message "t1")) (tasks (w_state w) !! "t1").

(** The registration of an agent, live when the scenario uses it. *)
Definition the_reg (w : World Store) (c : RegistrationCredentials) : RegistrationState :=
  default (MkRegistrationState (MkRegistration (cred_id c) (cred_epoch c) (agent "none" "p") "s" 0)
             [] 0 0) (registrations (w_state w) !! cred_id c).

Example replied_run : (exec (OpReply bob "t1" answer) 1006 acknowledged_w).1 = Done tt.
Proof. by vm_compute. Qed.
End Scenario.
