(* ===== verification/BrokerSafety.v ===== *)
(** * Theorems about runs of the broker

    What holds in every world a broker can reach, whatever the order of its
    operations and however its store fails, and what a restart preserves. *)
From stdpp Require Import prelude gmap strings sorting.
From S2P Require Import Prelude RustStd Model Validation Durability BrokerState BrokerDurable.
From S2P Require Import BrokerMaintain BrokerOps BrokerInv BrokerPrim BrokerTrans BrokerImage.
From S2P Require Import BrokerRecover BrokerRestore BrokerWorld BrokerUpkeep BrokerMaintained.
From S2P Require Import BrokerSpec BrokerStart BrokerReach BrokerRuns BrokerProgress Scenario.
Import Scenario.

Section safety.
Context `{JsonNumber} {serde : SerdeJson} {P : Type} {persistence : BrokerPersistence P}.
Context {spec : PersistenceSpec P}.
Implicit Types (w : World P) (st : State) (t : TaskRecord).


(** C2: No operation panics in a reachable world: none of the [expect]s of
    [broker.rs] can fire. *)
Theorem exec_never_panics clk now op w :
  Reachable clk w → (clk ≤ now)%Z → admissible op w →
  ∀ msg w', exec op now w ≠ (Panic msg, w').
Proof.
  intros HWI%reachable_inv Hle Hadm msg w' Hrun.
  pose proof (exec_spec clk now op w HWI Hle Hadm) as Hwp. unfold wp in Hwp. by rewrite Hrun in Hwp.
Qed.


(** C4: Refinement of the life cycle.  Whatever an operation does and however it
    ends, every task of a synchronised broker moves along the automaton
    [row_step] (its message never changes, its version grows with each step), or
    its retention period is over and it is deleted; a new task is queued with
    version 1. *)
Theorem tasks_follow_life_cycle clk now op w o w' :
  Reachable clk w → (clk ≤ now)%Z → admissible op w →
  reconciliation_required (w_state w) = false → exec op now w = (o, w') →
  evolved now (w_state w) (w_state w').
Proof.
  intros HWI%reachable_inv Hle Hadm Hflag Hrun.
  destruct (exec_effect _ _ _ _ _ _ HWI Hle Hadm Hrun). by eapply effect_evolved.
Qed.

(** C5: The outcome of a task is final.  Whatever an operation does and however
    it ends, a reconciliation with the store included, a task that has ended
    keeps its row until its retention deadline, in the state and in the store. *)
Theorem outcome_is_final clk now op w o w' id t d :
  Reachable clk w → (clk ≤ now)%Z → admissible op w → exec op now w = (o, w') →
  tasks (w_state w) !! id = Some t → terminal_deadline_unix_ms t = Some d → (now < d)%Z →
  view_tasks (view (w_store w')) !! id = Some (image id t) ∧
  ∃ t', tasks (w_state w') !! id = Some t' ∧ image id t' = image id t.
Proof.
  intros HR Hle Hadm Hrun Ht Hd Hlt. pose proof (reachable_outcomes _ _ HR) as HO.
  apply reachable_inv in HR. destruct (exec_effect _ _ _ _ _ _ HR Hle Hadm Hrun) as [HW Heff].
  assert (overdue now t = false) as Hod by (unfold overdue; rewrite Hd; simpl; lia).
  assert (is_Some (terminal_deadline_unix_ms t)) as Hsome by by eexists.
  split; [|exact (effect_final clk now w w' id t HR HO Hle HW Heff Ht Hsome Hod)].
  eapply store_evolved_terminal; [by eapply effect_rows| |by apply terminal_image; [apply HR|]|done].
  by apply (outcomes_later clk now w Hle HO).
Qed.

(** C6: Restart.  A broker that recovers from the store of a synchronised broker
    has the same tasks up to the passage of time: a task past its retention is
    gone, one past its delivery deadline is expired, a lease nobody acknowledged
    is back in the queue, and every other row (acknowledged and finished tasks
    included) is what it was. *)
Theorem restart_keeps_tasks clk now w w' report p' :
  Reachable clk w → reconciliation_required (w_state w) = false →
  recover now (w_store w) = (Done (w', report), p') →
  next_registration_epoch (w_state w') = next_registration_epoch (w_state w) ∧
  ∀ id, durable_rows (tasks (w_state w')) !! id
        = image id <$> (tasks (w_state w) !! id ≫= restarted now).
Proof.
  intros HWI%reachable_inv Hflag Hrun. pose proof (recover_spec now (w_store w)) as Hwp.
  unfold wp in Hwp. rewrite Hrun in Hwp.
  destruct Hwp as (_ & _ & rows & vs & Hrows & Hnd & Hrec & Hkept & Hep & _).
  destruct HWI as [[HC _] HS _]. split; [exact (eq_trans Hep (sync_epoch _ _ HS Hflag))|].
  intros id. eapply restart_rows; [apply HC| |done..]. by rewrite <-(sync_rows _ _ HS Hflag).
Qed.

(** C7: A failed operation is atomic.  It leaves the state and the shared
    objects, up to the request for a reconciliation, as it found them, or as
    the reconciliation with which it began left them, or as the whole
    maintenance with which it began left them; of its own work nothing is
    visible. *)
Theorem failed_operation_is_atomic clk now op w e w' :
  Reachable clk w → (clk ≤ now)%Z → admissible op w → exec op now w = (Fail e, w') →
  ∃ w1, (w1 = w ∨ reconcile_state_if_required now w = (Done tt, w1) ∨
         (maintain_state now w = (Done tt, w1) ∧ Maintained now w w1)) ∧
    w_shared w' = w_shared w1 ∧
    w_state w' = (w_state w1) <| reconciliation_required := reconciliation_required (w_state w') |>.
Proof.
  intros HWI%reachable_inv Hle Hadm Hrun.
  pose proof (exec_spec clk now op w HWI Hle Hadm) as Hwp. unfold wp in Hwp. rewrite Hrun in Hwp.
  destruct Hwp as [_ [[Hf|(w1 & HM & Hs)]| ->]].
  - destruct (mf_source _ _ _ Hf) as (w1 & [Hsh Hst _] & [->|(Hrec & _)]); eauto 10.
  - exists w1. split; [right; right; split; [apply HM|done]|]. by destruct (stop_halted _ _ _ Hs).
  - exists w. split_and!; [by left|done|]. by destruct (w_state w).
Qed.

(** No reply waiter is forgotten: an open reply channel is attached to a task
    that has not ended, so the operation that ends the task resolves it. *)
Theorem waiters_are_attached clk w k :
  Reachable clk w → channels (w_shared w) !! k = Some ChannelOpen →
  ∃ id t, tasks (w_state w) !! id = Some t ∧ live t ∧ k ∈ reply_waiters t.
Proof.
  intros HWI%reachable_inv Hk. destruct (wait_attached _ _ _ (wi_wait _ _ HWI) k Hk) as [Hat|Hk'].
  - destruct Hat as (id & t & Ht & Hin). exists id, t. split_and!; [done| |done].
    pose proof (wf_phase _ _ (core_tasks _ (inv_core _ _ (wi_inv _ _ HWI)) _ _ Ht)) as Hp.
    unfold live. destruct (terminal_deadline_unix_ms t); [|done].
    rewrite (terminal_waiters _ _ Hp) in Hin. by apply not_elem_of_nil in Hin.
  - by apply not_elem_of_nil in Hk'.
Qed.
End safety.

(** ** Concrete runs *)


Lemma exec_never_panics_witness :
  exec (OpAck bob (did "d1")) 1005 polled ≠ (Panic "delivery lookup must reference a task", polled).
Proof. apply (exec_never_panics 1004); [apply reach_polled|lia|done]. Defined.


Lemma tasks_follow_life_cycle_witness :
  reconciliation_required (w_state waiting) = false ∧ evolved 1004 (w_state waiting) (w_state polled).
Proof.
  split; [by vm_compute|].
  apply (tasks_follow_life_cycle 1003 1004 (OpPoll bob (did "d1")) waiting (Done tt) polled);
    [apply reach_waiting|lia|apply fresh_waiting|by vm_compute|apply run_step; by vm_compute].
Defined.

Lemma outcome_is_final_witness :
  view_tasks (view (w_store (step OpMaintain 2000 replied))) !! "t1"
    = Some (image "t1" (the_task replied)) ∧
  ∃ t', tasks (w_state (step OpMaintain 2000 replied)) !! "t1" = Some t' ∧
        image "t1" t' = image "t1" (the_task replied).
Proof.
  apply (outcome_is_final 1006 2000 OpMaintain replied (Done tt) _ "t1" (the_task replied)
           (1006 + TERMINAL_RETENTION_MS));
    [apply reach_replied|lia|done|apply run_step; by vm_compute|by vm_compute|by vm_compute|done].
Defined.

Definition rebooted : World Store :=
  match (recover 2000 (w_store acknowledged_w)).1 with Done (w, _) => w | _ => start [] end.

Definition reboot_report : BrokerRecoveryReport :=
  match (recover 2000 (w_store acknowledged_w)).1 with
  | Done (_, report) => report
  | _ => MkBrokerRecoveryReport 0 0 0 0
  end.

Lemma restart_keeps_tasks_witness :
  durable_rows (tasks (w_state rebooted)) !! "t1" = Some (image "t1" (the_task acknowledged_w)).
Proof.
  destruct (restart_keeps_tasks 1005 2000 acknowledged_w rebooted reboot_report
              (recover 2000 (w_store acknowledged_w)).2) as [_ ->].
  - apply reach_acknowledged.
  - by vm_compute.
  - unfold rebooted, reboot_report.
    assert (∃ res, (recover 2000 (w_store acknowledged_w)).1 = Done res) as [[w report] Hres]
      by (vm_compute; by eexists).
    rewrite Hres. destruct (recover 2000 (w_store acknowledged_w)). simpl in *. by subst.
  - by vm_compute.
Defined.

Lemma failed_operation_is_atomic_witness :
  ∃ w1, (w1 = polled ∨ reconcile_state_if_required 1005 polled = (Done tt, w1) ∨
         (maintain_state 1005 polled = (Done tt, w1) ∧ Maintained 1005 polled w1)) ∧
    w_state (step (OpReply alice "t1" answer) 1005 polled)
    = (w_state w1) <| reconciliation_required := reconciliation_required
                        (w_state (step (OpReply alice "t1" answer) 1005 polled)) |>.
Proof.
  destruct (failed_operation_is_atomic 1004 1005 (OpReply alice "t1" answer) polled TaskNotOwned
              (step (OpReply alice "t1" answer) 1005 polled)) as (w1 & Hw1 & _ & Hst).
  - apply reach_polled.
  - lia.
  - done.
  - apply run_step. by vm_compute.
  - exists w1. split; [exact Hw1|exact Hst].
Defined.

Lemma waiters_are_attached_witness :
  ∃ id t, tasks (w_state waiting) !! id = Some t ∧ live t ∧ 0%nat ∈ reply_waiters t.
Proof. apply (waiters_are_attached 1003); [apply reach_waiting|by vm_compute]. Defined.
