(* ===== verification/BrokerContracts.v ===== *)
(** * Contracts of the operations on tasks

    What each operation of [broker.rs] promises its caller: acknowledging,
    replying, failing, rejecting, cancelling, polling and queueing, with the
    conditions under which it cannot fail. *)
From stdpp Require Import prelude gmap strings sorting.
From S2P Require Import Prelude RustStd Model Validation Durability BrokerState BrokerDurable.
From S2P Require Import BrokerMaintain BrokerOps BrokerInv BrokerPrim BrokerTrans BrokerImage.
From S2P Require Import BrokerRecover BrokerRestore BrokerWorld BrokerUpkeep BrokerMaintained.
From S2P Require Import BrokerSpec BrokerDelivery BrokerRegistry.
From S2P Require Import BrokerStart BrokerReach BrokerRuns BrokerProgress Scenario.
Import Scenario.

Section contracts.
Context `{JsonNumber} {serde : SerdeJson} {P : Type} {persistence : BrokerPersistence P}.
Context {spec : PersistenceSpec P} {progress : PersistenceProgress P}.
Implicit Types (w : World P) (st : State) (t : TaskRecord) (c : RegistrationCredentials).

(** The identifier is in no inbox. *)
Definition nowhere_queued (id : string) w : Prop :=
  ∀ rid r, registrations (w_state w) !! rid = Some r → id ∉ rs_inbox r.

(** Task [id], [t] before, has ended in [o]: the store has the outcome, the
    recipient will not see the task again, and whoever waited has [result]. *)
Record settled (now : Z) (id : string) t (o : TerminalState) (result : ReplyResult) w w' : Prop := {
  st_row : view_tasks (view (w_store w')) !! id
           = Some (image id (terminal_record now (now + TERMINAL_RETENTION_MS)
                               (state_version t + 1) o t));
  st_task : ∃ t', tasks (w_state w') !! id = Some t' ∧ durable_state t' = outcome_state o ∧
    reply t' = (outcome_fields o).1 ∧ lease t' = None ∧ delivery t' = None ∧
    terminal_deadline_unix_ms t' = Some (now + TERMINAL_RETENTION_MS)%Z;
  st_inbox : nowhere_queued id w';
  st_waiters : ∀ k, k ∈ reply_waiters t → channels (w_shared w) !! k = Some ChannelOpen →
    channels (w_shared w') !! k = Some (ChannelResolved result);
}.

Lemma not_waiting_nowhere now w id t :
  WInv now w → tasks (w_state w) !! id = Some t → ¬ sh_waiting (shape t) → nowhere_queued id w.
Proof.
  intros HWI Ht Hw rid r Hr Hin.
  destruct (core_inbox _ (inv_core _ _ (wi_inv _ _ HWI)) _ _ Hr) as [Hsound _].
  destruct (Hsound id Hin) as (s & Hs & Hw' & _). apply lookup_shapes in Hs as (t' & Ht' & ->).
  by simplify_eq.
Qed.

Lemma resolved_channel ks result sh k :
  k ∈ ks → channels sh !! k = Some ChannelOpen →
  channels (resolve_reply_waiters ((λ k, (k, result)) <$> ks) sh) !! k
  = Some (ChannelResolved result).
Proof.
  intros Hk Ho. rewrite lookup_resolve, Ho.
  destruct (list_find _ _) as [[i r]|] eqn:Hf.
  - apply list_find_Some in Hf as (Hi & _ & _). apply list_elem_of_lookup_2 in Hi.
    apply list_elem_of_fmap in Hi as (k' & -> & _). done.
  - apply list_find_None in Hf. rewrite Forall_forall in Hf.
    destruct (Hf (k, result)); [|done]. apply list_elem_of_fmap. eauto.
Qed.

Lemma finished_settled now id t o result w w' :
  WInv now w' → reconciliation_required (w_state w) = false →
  tasks (w_state w) !! id = Some t → finished now id t o result w w' →
  settled now id t o result w w'.
Proof.
  intros HWI Hflag Ht [Hst Hsh].
  set (t' := terminal_record now (now + TERMINAL_RETENTION_MS) (state_version t + 1) o t).
  assert (tasks (w_state w') !! id = Some t') as Ht'.
  { rewrite Hst. change (<[id := t']> (tasks (w_state w)) !! id = Some t').
    by rewrite lookup_insert_eq. }
  pose proof (terminal_record_fields now (now + TERMINAL_RETENTION_MS) (state_version t + 1) o t) as Hf.
  split.
  - rewrite (sync_rows _ _ (wi_sync _ _ HWI)) by by rewrite Hst.
    by rewrite lookup_durable_rows, Ht'.
  - exists t'. split_and!; [done|by apply outcome_durable_state|by rewrite <-Hf|by destruct o..].
  - eapply not_waiting_nowhere; [done|exact Ht'|]. intros [Hl _]. by destruct o.
  - intros k Hk Ho. rewrite Hsh. by apply resolved_channel.
Qed.

(** ** Ending a task *)

(** A reply that is accepted comes from the live registration of the
    recipient; the task is replied with exactly this payload in the state and in
    the store, leaves the inboxes, and every waiting sender receives it.  A
    repetition of the same reply changes nothing. *)
Theorem reply_task_delivers clk now c id rp w w' :
  Reachable clk w → (clk ≤ now)%Z → reply_task c id rp now w = (Done tt, w') →
  ∃ w1 r t, begun now c w w1 r ∧ tasks (w_state w1) !! id = Some t ∧ recipient t = reg_name r ∧
    ((live t ∧ settled now id t (TerminalReplied rp) (Ok rp) w1 w') ∨
     (task_fields t = outcome_fields (TerminalReplied rp) ∧ w' = w1)).
Proof.
  intros HWI%reachable_inv Hle Hrun.
  destruct (wp_done _ _ _ _ _ _ (reply_task_spec clk now c id rp w HWI Hle) Hrun)
    as (HW & w1 & r & t & Hb & Ht & Hn & Hcase).
  exists w1, r, t. split_and!; [done..|]. destruct Hcase as [?|[Hlive Hf]]; [by right|left].
  split; [done|]. eapply finished_settled; [done|apply Hb|done..].
Qed.

(** A reply to a live task by its recipient cannot be refused: with a
    working store, no counter at its bound and the delivery deadline ahead,
    [reply_task] returns. *)
Theorem reply_task_succeeds clk now c id rp w r t :
  Reachable clk w → (clk ≤ now)%Z → ready now w → authentic now c (w_state w) r →
  tasks (w_state w) !! id = Some t → live t → is_due now t = false → recipient t = reg_name r →
  ∃ w', reply_task c id rp now w = (Done tt, w').
Proof.
  intros HWI%reachable_inv ???????.
  destruct (wp_total _ _ _ (reply_task_progress clk now c id rp w r t ltac:(done) ltac:(done)
    ltac:(done) ltac:(done) ltac:(done) ltac:(done) ltac:(done) ltac:(done))) as ([] & w' & ? & _).
  by exists w'.
Qed.

(** [fail_task] and [reject_task] record the recipient's explanation as the
    outcome, and a waiting sender receives the corresponding error. *)
Theorem recipient_terminal_settles clk now c id m outcome w w' :
  Reachable clk w → (clk ≤ now)%Z → recipient_terminal c id m outcome now w = (Done tt, w') →
  ∃ w1 r t, begun now c w w1 r ∧ tasks (w_state w1) !! id = Some t ∧ recipient t = reg_name r ∧
    ((live t ∧ settled now id t (recipient_outcome outcome m)
                 (Err (recipient_error outcome)) w1 w') ∨
     (task_fields t = outcome_fields (recipient_outcome outcome m) ∧ w' = w1)).
Proof.
  intros HWI%reachable_inv Hle Hrun.
  destruct (wp_done _ _ _ _ _ _ (recipient_terminal_spec clk now c id m outcome w HWI Hle) Hrun)
    as (HW & w1 & r & t & Hb & Ht & Hn & Hcase).
  exists w1, r, t. split_and!; [done..|]. destruct Hcase as [?|[Hlive Hf]]; [by right|left].
  split; [done|]. eapply finished_settled; [done|apply Hb|done..].
Qed.

(** Only the sender cancels; the task is canceled, undelivered or not, and
    waiters receive [TaskCanceled]. *)
Theorem cancel_task_settles clk now c id w w' :
  Reachable clk w → (clk ≤ now)%Z → cancel_task c id now w = (Done tt, w') →
  ∃ w1 r t, begun now c w w1 r ∧ tasks (w_state w1) !! id = Some t ∧ sender t = reg_name r ∧
    ((live t ∧ settled now id t TerminalCanceled (Err TaskCanceled) w1 w') ∨
     (canceled t = true ∧ w' = w1)).
Proof.
  intros HWI%reachable_inv Hle Hrun.
  destruct (wp_done _ _ _ _ _ _ (cancel_task_spec clk now c id w HWI Hle) Hrun)
    as (HW & w1 & r & t & Hb & Ht & Hn & Hcase).
  exists w1, r, t. split_and!; [done..|]. destruct Hcase as [?|[Hlive Hf]]; [by right|left].
  split; [done|]. eapply finished_settled; [done|apply Hb|done..].
Qed.

(** A live task can be failed or rejected by its recipient and canceled by
    its sender: with a working store and no counter at its bound these
    operations return. *)
Theorem task_can_be_ended clk now c id w r t m outcome :
  Reachable clk w → (clk ≤ now)%Z → ready now w → authentic now c (w_state w) r →
  tasks (w_state w) !! id = Some t → live t → is_due now t = false →
  (recipient t = reg_name r →
   ∃ w', recipient_terminal c id m outcome now w = (Done tt, w')) ∧
  (sender t = reg_name r → ∃ w', cancel_task c id now w = (Done tt, w')).
Proof.
  intros HWI%reachable_inv Hle Hrd Hau Ht Hlive Hdue. split; intros Hn.
  - destruct (wp_total _ _ _ (recipient_terminal_progress clk now c id m outcome w r t HWI Hle
      Hrd Hau Ht Hlive Hdue Hn)) as ([] & w' & ? & _). by exists w'.
  - destruct (wp_total _ _ _ (cancel_task_progress clk now c id w r t HWI Hle
      Hrd Hau Ht Hlive Hdue Hn)) as ([] & w' & ? & _). by exists w'.
Qed.

(** A finished task is not touched before its retention deadline. *)
Lemma terminal_kept now w w1 id t d :
  Core (w_state w) → Maintained now w w1 → reconciliation_required (w_state w) = false →
  tasks (w_state w) !! id = Some t → terminal_deadline_unix_ms t = Some d → (now < d)%Z →
  tasks (w_state w1) !! id = Some t.
Proof.
  intros HC HM Hflag Ht Hd Hlt. rewrite (mt_tasks _ _ _ HM Hflag), Ht. simpl. unfold upkeep.
  assert (overdue now t = false) as -> by (unfold overdue; rewrite Hd; simpl; lia).
  assert (is_due now t = false) as Hdue by (unfold is_due; by rewrite Hd).
  rewrite Hdue. pose proof (wf_phase _ _ (core_tasks _ HC _ _ Ht)) as Hp. rewrite Hd in Hp.
  unfold is_orphan. by rewrite Hdue, (terminal_lease _ _ Hp), andb_false_r.
Qed.

(** The first outcome wins: a task that ended in anything but this reply
    (another reply, a failure, a rejection, a cancellation, an expiry) accepts
    no reply while it is retained. *)
Theorem first_outcome_wins clk now c id rp w w' t d o :
  Reachable clk w → (clk ≤ now)%Z → reconciliation_required (w_state w) = false →
  tasks (w_state w) !! id = Some t → terminal_deadline_unix_ms t = Some d → (now < d)%Z →
  task_fields t = outcome_fields o → o ≠ TerminalReplied rp →
  reply_task c id rp now w ≠ (Done tt, w').
Proof.
  intros HWI%reachable_inv Hle Hflag Ht Hd Hlt Ho Hne Hrun.
  destruct (wp_done _ _ _ _ _ _ (reply_task_spec clk now c id rp w HWI Hle) Hrun)
    as (_ & w1 & r & t1 & [HM _ _] & Ht1 & _ & Hcase).
  rewrite (terminal_kept _ _ _ _ _ _ (inv_core _ _ (wi_inv _ _ HWI)) HM Hflag Ht Hd Hlt) in Ht1.
  injection Ht1 as <-. destruct Hcase as [[Hf _]|[Hlive _]].
  - rewrite Ho in Hf. destruct o; simplify_eq/=.
  - unfold live in Hlive. congruence.
Qed.

(** ** Deliveries *)

(** An acknowledgement that is accepted names a current lease; the first one
    must come from the lease's owner before the lease ends, and from then on the
    task is acknowledged in the state and in the store and in no inbox. *)
Theorem ack_delivery_acknowledges clk now c d w w' :
  Reachable clk w → (clk ≤ now)%Z → ack_delivery c d now w = (Done tt, w') →
  ∃ w1 r id t l, begun now c w w1 r ∧ tasks (w_state w1) !! id = Some t ∧
    lease t = Some l ∧ lease_delivery_id l = d ∧ recipient t = reg_name r ∧
    nowhere_queued id w' ∧
    (∃ row, view_tasks (view (w_store w')) !! id = Some row ∧ dt_state row = Acknowledged ∧
            dt_lease row = dt_lease (image id t)) ∧
    (acknowledged t = false →
     lease_owner l = Some c ∧ (now < lease_until_unix_ms l)%Z ∧
     tasks (w_state w')
     = <[id := acknowledged_record (state_version t + 1) now t]> (tasks (w_state w1))) ∧
    (acknowledged t = true → w' = w1).
Proof.
  intros HWI%reachable_inv Hle Hrun.
  destruct (wp_done _ _ _ _ _ _ (ack_delivery_spec clk now c d w HWI Hle) Hrun)
    as (HW & w1 & r & id & t & l & Hb & _ & Ht & Hl & Hd & Hcase).
  exists w1, r, id, t, l. pose proof Hb as [HM Hau _].
  pose proof (mt_inv _ _ _ HM) as HWI1. pose proof (inv_core _ _ (wi_inv _ _ HWI1)) as HC1.
  pose proof (core_tasks _ HC1 _ _ Ht) as Hwf. pose proof (leased_live _ _ _ Hwf Hl) as Hlive.
  pose proof (wf_phase _ _ Hwf) as Hp. rewrite Hlive in Hp.
  assert (∃ t', tasks (w_state w') !! id = Some t' ∧ acknowledged t' = true ∧
    reconciliation_required (w_state w') = false ∧ dt_lease (image id t') = dt_lease (image id t)
    ∧ durable_state t' = Acknowledged ∧ recipient t = reg_name r) as (t' & Ht' & Ha' & Hflag & Hdl & Hds & Hn).
  { destruct Hcase as [(Ha & Hn & ->)|(Ha & Ho & _ & _ & Hst)].
    - exists t. split_and!; try done; [apply HM|]. by rewrite (live_durable_state _ Hp), Ha.
    - exists (acknowledged_record (state_version t + 1) now t). split_and!; try done.
      + rewrite Hst. simpl. by rewrite lookup_insert_eq.
      + rewrite Hst. apply HM.
      + pose proof (live_fields _ Hp) as [= Hr Hf Hrj Hc He]. unfold durable_state. simpl.
        by rewrite Hr, Hf, Hrj, Hc, He.
      + by destruct (owner_registration _ _ _ _ _ _ HC1 Ht Ha Hl Ho (au_lookup _ _ _ _ Hau)). }
  split_and!; try done.
  - eapply not_waiting_nowhere; [done|exact Ht'|]. intros [_ Hw]. simpl in Hw. congruence.
  - exists (image id t'). by rewrite (sync_rows _ _ (wi_sync _ _ HW) Hflag), lookup_durable_rows, Ht'.
  - intros Ha. destruct Hcase as [(? & _)|(_ & ? & ? & _ & Hst)]; [congruence|].
    split_and!; [done..|]. by rewrite Hst.
  - intros Ha. destruct Hcase as [(_ & _ & ?)|(? & _)]; [done|congruence].
Qed.

(** The owner of a lease can acknowledge it until it ends. *)
Theorem ack_delivery_succeeds clk now c w r id t l :
  Reachable clk w → (clk ≤ now)%Z → ready now w → authentic now c (w_state w) r →
  tasks (w_state w) !! id = Some t → is_due now t = false → acknowledged t = false →
  lease t = Some l → lease_owner l = Some c → (now < lease_until_unix_ms l)%Z →
  ∃ w', ack_delivery c (lease_delivery_id l) now w = (Done tt, w').
Proof.
  intros HWI%reachable_inv Hle Hrd Hau Ht Hdue Ha Hl Ho Hu.
  destruct (wp_total _ _ _ (ack_delivery_progress clk now c _ w r id t l HWI Hle Hrd Hau Ht Hdue
    Ha Hl eq_refl Ho Hu)) as ([] & w' & ? & _). by exists w'.
Qed.

(** Task [t] waits for agent [a]. *)
Definition waits_for (a : AgentName) st (id : string) t : Prop :=
  tasks st !! id = Some t ∧ live t ∧ acknowledged t = false ∧ recipient t = a.

(** The inbox of a live registration is what waits for its agent, oldest first. *)
Lemma inbox_exact now st rid r id :
  Inv now st → registrations st !! rid = Some r → (now < reg_expiry r)%Z →
  id ∈ rs_inbox r ↔ ∃ t, waits_for (reg_name r) st id t.
Proof.
  intros [HC Hcomplete] Hr Hlive. split.
  - intros Hin. destruct (core_inbox _ HC _ _ Hr) as [Hsound _].
    destruct (Hsound id Hin) as (s & Hs & [? ?] & ?). apply lookup_shapes in Hs as (t & Ht & ->).
    by exists t.
  - intros (t & Ht & Hl & Ha & Hrec). eapply (Hcomplete rid r id (shape t)); try done.
    by apply lookup_shapes_Some.
Qed.

Lemma older_comes_first st rid r before id after id' t t' :
  Core st → registrations st !! rid = Some r → rs_inbox r = before ++ id :: after →
  tasks st !! id = Some t → tasks st !! id' = Some t' →
  id' ∈ rs_inbox r → (enqueue_sequence t' < enqueue_sequence t)%Z → id' ∈ before.
Proof.
  intros HC Hr Hin Ht Ht' Hid' Hlt. destruct (core_inbox _ HC _ _ Hr) as [_ Hsorted].
  rewrite Hin in Hsorted, Hid'. apply elem_of_app in Hid' as [?|Hid']; [done|exfalso].
  apply elem_of_cons in Hid' as [->|Hid']; [simplify_eq; lia|].
  apply StronglySorted_app in Hsorted as (_ & _ & Hs). inversion_clear Hs as [|? ? _ Hall].
  rewrite Forall_forall in Hall. destruct (Hall id' Hid') as (s1 & s2 & H1 & H2 & Hlt').
  apply lookup_shapes in H1 as (? & ? & ->), H2 as (? & ? & ->). simplify_eq/=. lia.
Qed.

(** Polling is first-in first-out: a delivered task waits for the agent that
    polls, is not out on a current lease, and every older task that waits for the
    agent is; the message carries the payload as it was queued and the lease is
    in the store.  When nothing is delivered, every waiting task is out on a
    lease, and the deadline to wake up at is in the future. *)
Theorem poll_is_fifo clk now c fresh w poll w' :
  Reachable clk w → (clk ≤ now)%Z → fresh_delivery fresh w →
  poll_delivery c now fresh w = (Done poll, w') →
  ∃ w1 r, begun now c w w1 r ∧
    match poll with
    | Ready message => ∃ id t attempt, waits_for (reg_name r) (w_state w1) id t ∧
        ¬ out_on_lease now (w_state w1) id ∧
        (∀ id' t', waits_for (reg_name r) (w_state w1) id' t' →
           (enqueue_sequence t' < enqueue_sequence t)%Z → out_on_lease now (w_state w1) id') ∧
        message = message_of fresh now attempt t ∧
        view_tasks (view (w_store w')) !! id
        = Some (image id (leased_record (state_version t + 1) (new_lease c fresh now attempt) t))
    | Pending deadline => w' = w1 ∧ (now < deadline)%Z ∧
        ∀ id t, waits_for (reg_name r) (w_state w1) id t → out_on_lease now (w_state w1) id
    end.
Proof.
  intros HWI%reachable_inv Hle Hfresh Hrun.
  destruct (wp_done _ _ _ _ _ _ (poll_delivery_spec clk now c fresh w HWI Hle Hfresh) Hrun)
    as (HW & w1 & r & Hb & Hpost).
  exists w1, r. split; [done|]. pose proof Hb as [HM Hau _].
  pose proof (wi_inv _ _ (mt_inv _ _ _ HM)) as HI1. pose proof (au_lookup _ _ _ _ Hau) as Hr.
  assert (∀ id, id ∈ rs_inbox r ↔ ∃ t, waits_for (reg_name r) (w_state w1) id t) as Hex.
  { intros id. eapply inbox_exact; [exact HI1|done|apply Hau]. }
  destruct poll as [message|deadline].
  - destruct Hpost as (before & id & after & t & Hin & Hall & Ht & Hout & attempt & Hatt & -> & _ & Hst).
    rewrite Forall_forall in Hall. exists id, t, attempt.
    destruct (proj1 (Hex id)) as [t0 Hwf]; [rewrite Hin; set_solver|].
    assert (t0 = t) as -> by (destruct Hwf; congruence). split_and!; try done.
    + intros id' t' Hw' Hlt. apply Hall. eapply older_comes_first;
        [apply HI1|exact Hr|exact Hin|exact Ht|apply Hw'|apply Hex; by exists t'|done].
    + rewrite (sync_rows _ _ (wi_sync _ _ HW)) by (rewrite Hst; apply HM).
      rewrite lookup_durable_rows, Hst. simpl. by rewrite lookup_insert_eq.
  - destruct Hpost as (-> & Hall & [Hd _] & _). rewrite Forall_forall in Hall.
    split_and!; [done..|]. intros id t Hw. apply Hall, Hex. by exists t.
Qed.

(** A poll by a live registration returns. *)
Theorem poll_returns clk now c fresh w r :
  Reachable clk w → (clk ≤ now)%Z → ready now w → attempt_room (w_state w) →
  authentic now c (w_state w) r →
  ∃ poll w', poll_delivery c now fresh w = (Done poll, w').
Proof.
  intros HWI%reachable_inv Hle Hrd Hatt Hau.
  destruct (wp_total _ _ _ (poll_delivery_progress clk now c fresh w r HWI Hle Hrd Hatt Hau))
    as (poll & w' & ? & _). by exists poll, w'.
Qed.

(** ** Queueing *)

(** An accepted message is in the store as a queued task with version 1 and
    the broker's clock as its creation time, is the newest entry of the live
    recipient's inbox, and wakes the recipient; its identifier was free and
    neither capacity was exhausted. *)
Theorem enqueue_queues clk now c d w handle w' :
  Reachable clk w → (clk ≤ now)%Z → enqueue c d now w = (Done handle, w') →
  ∃ w1 r rid rr, begun now c w w1 r ∧ reg_name r = qd_sender d ∧
    registrations (w_state w1) !! rid = Some rr ∧ reg_name rr = qd_recipient d ∧
    (now < reg_expiry rr)%Z ∧ tasks (w_state w1) !! qd_task_id d = None ∧
    (size (tasks (w_state w')) ≤ MAX_RETAINED_TASKS)%nat ∧
    (size (default ∅ (outbound_tasks_by_agent (w_state w1) !! qd_sender d))
       < MAX_ACTIVE_OUTBOUND_TASKS)%nat ∧
    view_tasks (view (w_store w'))
    = <[qd_task_id d := new_durable_task (qd_sender d) (d <| qd_created_unix_ms := now |>)
                          (now + DELIVERY_TTL_MS)]> (view_tasks (view (w_store w1))) ∧
    (∃ rr', registrations (w_state w') !! rid = Some rr' ∧
            rs_inbox rr' = rs_inbox rr ++ [qd_task_id d]) ∧
    rs_notify rr ∈ permits (w_shared w').
Proof.
  intros HWI%reachable_inv Hle Hrun.
  destruct (wp_done _ _ _ _ _ _ (enqueue_spec clk now c d w HWI Hle) Hrun)
    as (HW & w1 & r & rid & rr & Hb & Hn & Hnew & Hsz & Hout & Hrr & Hrn & _ & Hst & Hsh).
  exists w1, r, rid, rr. pose proof (bg_maintained _ _ _ _ _ Hb) as HM.
  pose proof (inv_core _ _ (wi_inv _ _ HW)) as HC'.
  split_and!; try done; [by eapply (mt_unexpired _ _ _ HM)|apply HC'|..].
  - pose proof (sync_rows _ _ (wi_sync _ _ HW)) as Hrows.
    rewrite Hrows by (rewrite Hst; apply HM). clear Hrows.
    rewrite (sync_rows _ _ (wi_sync _ _ (mt_inv _ _ _ HM)) (mt_flag _ _ _ HM)).
    rewrite Hst. simpl. rewrite durable_rows_insert. f_equal.
  - rewrite Hst. simpl. rewrite lookup_insert_eq. by eexists.
  - rewrite Hsh. simpl. set_solver.
Qed.

(** A message between two live registrations is accepted when its identifier
    is free and there is room. *)
Theorem enqueue_succeeds clk now c d w r rid rr :
  Reachable clk w → (clk ≤ now)%Z → ready now w → authentic now c (w_state w) r →
  reg_name r = qd_sender d → tasks (w_state w) !! qd_task_id d = None →
  (size (tasks (w_state w)) < MAX_RETAINED_TASKS)%nat →
  (size (default ∅ (outbound_tasks_by_agent (w_state w) !! qd_sender d))
     < MAX_ACTIVE_OUTBOUND_TASKS)%nat →
  registrations (w_state w) !! rid = Some rr → reg_name rr = qd_recipient d →
  (now < reg_expiry rr)%Z → (0 ≤ next_task_sequence (w_state w) < u64_max)%Z →
  ∃ handle w', enqueue c d now w = (Done handle, w').
Proof.
  intros HWI%reachable_inv Hle Hrd Hau Hn Hnew Hsz Hout Hrr Hrn Hrl Hseq.
  destruct (wp_total _ _ _ (enqueue_progress clk now c d w r rid rr HWI Hle Hrd Hau Hn Hnew Hsz Hout
    Hrr Hrn Hrl Hseq)) as (handle & w' & ? & _). by exists handle, w'.
Qed.
End contracts.

(** ** Concrete runs *)

Lemma reply_task_delivers_witness :
  ∃ w1 r t, begun 1006 bob acknowledged_w w1 r ∧ tasks (w_state w1) !! "t1" = Some t ∧
    recipient t = reg_name r ∧
    ((live t ∧ settled 1006 "t1" t (TerminalReplied answer) (Ok answer) w1 replied) ∨
     (task_fields t = outcome_fields (TerminalReplied answer) ∧ replied = w1)).
Proof.
  apply (reply_task_delivers 1005); [apply reach_acknowledged|lia|].
  apply (run_step (OpReply bob "t1" answer) 1006 acknowledged_w). by vm_compute.
Defined.

Lemma authentic_bob_polled : authentic 1005 bob (w_state polled) (the_reg polled bob).
Proof. split; by vm_compute. Qed.

Lemma authentic_bob_waiting : authentic 1004 bob (w_state waiting) (the_reg waiting bob).
Proof. split; by vm_compute. Qed.

Lemma authentic_alice_both : authentic 1002 alice (w_state both) (the_reg both alice).
Proof. split; by vm_compute. Qed.

Lemma reply_task_succeeds_witness :
  ready 1005 polled ∧ ∃ w', reply_task bob "t1" answer 1005 polled = (Done tt, w').
Proof.
  assert (ready 1005 polled) as Hrd by (apply ready_test_ok; by vm_compute). split; [done|].
  apply (reply_task_succeeds 1004 1005 bob "t1" answer polled (the_reg polled bob) (the_task polled));
    [apply reach_polled|lia|done|apply authentic_bob_polled|by vm_compute..].
Defined.

Lemma recipient_terminal_settles_witness :
  ∃ w1 r t, begun 1005 bob polled w1 r ∧ tasks (w_state w1) !! "t1" = Some t ∧
    recipient t = reg_name r ∧
    ((live t ∧ settled 1005 "t1" t (TerminalFailed answer) (Err TaskFailed) w1
                 (step (OpFail bob "t1" answer) 1005 polled)) ∨
     (task_fields t = outcome_fields (TerminalFailed answer) ∧
      step (OpFail bob "t1" answer) 1005 polled = w1)).
Proof.
  apply (recipient_terminal_settles 1004 1005 bob "t1" answer RecipientFailed); [apply reach_polled|lia|].
  apply (run_step (OpFail bob "t1" answer) 1005 polled). by vm_compute.
Defined.

Lemma cancel_task_settles_witness :
  ∃ w1 r t, begun 1005 alice polled w1 r ∧ tasks (w_state w1) !! "t1" = Some t ∧
    sender t = reg_name r ∧
    ((live t ∧ settled 1005 "t1" t TerminalCanceled (Err TaskCanceled) w1
                 (step (OpCancel alice "t1") 1005 polled)) ∨
     (canceled t = true ∧ step (OpCancel alice "t1") 1005 polled = w1)).
Proof.
  apply (cancel_task_settles 1004 1005 alice "t1"); [apply reach_polled|lia|].
  apply (run_step (OpCancel alice "t1") 1005 polled). by vm_compute.
Defined.

Lemma task_can_be_ended_witness :
  ∃ w', recipient_terminal bob "t1" answer RecipientRejected 1005 polled = (Done tt, w').
Proof.
  destruct (task_can_be_ended 1004 1005 bob "t1" polled (the_reg polled bob) (the_task polled)
    answer RecipientRejected) as [Hend _]; [apply reach_polled|lia|apply ready_test_ok; by vm_compute
    |apply authentic_bob_polled|by vm_compute..|].
  apply Hend. by vm_compute.
Defined.

Lemma first_outcome_wins_witness :
  reply_task bob "t1" (MkReplyPayload "other" (VObject []) []) 1007 replied ≠ (Done tt, replied).
Proof.
  apply (first_outcome_wins 1006 1007 bob "t1" _ replied replied (the_task replied)
           (1006 + TERMINAL_RETENTION_MS) (TerminalReplied answer));
    [apply reach_replied|lia|by vm_compute|by vm_compute|by vm_compute|done|by vm_compute|done].
Defined.

Lemma ack_delivery_acknowledges_witness :
  ∃ w1 r id t l, begun 1005 bob polled w1 r ∧ tasks (w_state w1) !! id = Some t ∧
    lease t = Some l ∧ lease_delivery_id l = did "d1" ∧ recipient t = reg_name r.
Proof.
  destruct (ack_delivery_acknowledges 1004 1005 bob (did "d1") polled acknowledged_w)
    as (w1 & r & id & t & l & ? & ? & ? & ? & ? & _); [apply reach_polled|lia| |].
  - apply (run_step (OpAck bob (did "d1")) 1005 polled). by vm_compute.
  - exists w1, r, id, t, l. split_and!; assumption.
Defined.

Definition the_lease : DeliveryLease :=
  default (MkDeliveryLease (did "none") None 0 0) (lease (the_task polled)).

Lemma ack_delivery_succeeds_witness :
  ∃ w', ack_delivery bob (lease_delivery_id the_lease) 1005 polled = (Done tt, w').
Proof.
  apply (ack_delivery_succeeds 1004 1005 bob polled (the_reg polled bob) "t1" (the_task polled));
    [apply reach_polled|lia|apply ready_test_ok; by vm_compute|apply authentic_bob_polled
    |by vm_compute..].
Defined.

Definition first_message : DeliveryPoll :=
  match (poll_delivery bob 1004 (did "d1") waiting).1 with Done poll => poll | _ => Pending 0 end.

Lemma poll_is_fifo_witness :
  ∃ w1 r, begun 1004 bob waiting w1 r ∧
    match first_message with
    | Ready message => ∃ id t attempt, waits_for (reg_name r) (w_state w1) id t ∧
        message = message_of (did "d1") 1004 attempt t
    | Pending _ => False
    end.
Proof.
  destruct (poll_is_fifo 1003 1004 bob (did "d1") waiting first_message
    (poll_delivery bob 1004 (did "d1") waiting).2) as (w1 & r & Hb & Hpost);
    [apply reach_waiting|lia|apply fresh_waiting| |].
  - unfold first_message. assert (∃ poll, (poll_delivery bob 1004 (did "d1") waiting).1 = Done poll)
      as [poll Hpoll] by (vm_compute; by eexists).
    rewrite Hpoll. rewrite <-Hpoll. by destruct (poll_delivery bob 1004 (did "d1") waiting).
  - exists w1, r. split; [assumption|].
    assert (∃ m, first_message = Ready m) as [m Hm] by (vm_compute; by eexists).
    rewrite Hm in Hpost |- *. destruct Hpost as (id & t & attempt & ? & _ & _ & ? & _).
    exists id, t, attempt. split; assumption.
Defined.

Lemma poll_returns_witness :
  ∃ poll w', poll_delivery bob 1004 (did "d1") waiting = (Done poll, w').
Proof.
  apply (poll_returns 1003 1004 bob (did "d1") waiting (the_reg waiting bob));
    [apply reach_waiting|lia|apply ready_test_ok; by vm_compute
    |apply attempt_room_test_ok; by vm_compute|apply authentic_bob_waiting].
Defined.

Lemma enqueue_succeeds_witness :
  ∃ handle w', enqueue alice (message "t1") 1002 both = (Done handle, w').
Proof.
  apply (enqueue_succeeds 1001 1002 alice (message "t1") both (the_reg both alice) (rid "rb")
           (the_reg both bob));
    [apply reach_both|lia|apply ready_test_ok; by vm_compute|apply authentic_alice_both
    |by vm_compute|by vm_compute|vm_compute; lia|vm_compute; lia|by vm_compute..|].
  vm_compute. split; congruence.
Defined.

Lemma enqueue_queues_witness :
  ∃ w1 r, begun 1002 alice both w1 r ∧ tasks (w_state w1) !! "t1" = None ∧
    is_Some (view_tasks (view (w_store sent)) !! "t1").
Proof.
  destruct (enqueue_queues 1001 1002 alice (message "t1") both
    (MkDeliveryHandle "t1" "context") sent)
    as (w1 & r & rid' & rr & Hb & _ & _ & _ & _ & Hnew & _ & _ & Hrow & _); [apply reach_both|lia| |].
  - assert ((enqueue alice (message "t1") 1002 both).1 = Done (MkDeliveryHandle "t1" "context"))
      as Hout by by vm_compute.
    assert (sent = (enqueue alice (message "t1") 1002 both).2) as -> by by vm_compute.
    rewrite <-Hout. by destruct (enqueue alice (message "t1") 1002 both).
  - exists w1, r. split_and!; [exact Hb|exact Hnew|]. rewrite Hrow. simpl. rewrite lookup_insert_eq. by eexists.
Defined.
