(* ===== verification/BrokerDirectory.v ===== *)
(** * Contracts of registration, the directory and the waits

    Registering, renewing and removing a registration, the directory and the
    counts reported by the broker, resuming a task, and the guard that makes a
    wait exclusive. *)
From stdpp Require Import prelude gmap strings sorting.
From S2P Require Import Prelude RustStd Model Validation Durability BrokerState BrokerDurable.
From S2P Require Import BrokerMaintain BrokerOps BrokerInv BrokerPrim BrokerTrans BrokerImage.
From S2P Require Import BrokerRecover BrokerRestore BrokerWorld BrokerUpkeep BrokerMaintained.
From S2P Require Import BrokerSpec BrokerDelivery BrokerRegistry.
From S2P Require Import BrokerStart BrokerReach BrokerRuns BrokerProgress Scenario.
From S2P Require Import BrokerContracts.
Import Scenario.

#[global] Instance registration_le_total : Total registration_le.
Proof.
  intros a b. unfold registration_le. simpl.
  destruct (decide (agent_str (agent_name (reg_agent a)) = agent_str (agent_name (reg_agent b)))) as [Heq|Hne].
  - destruct (total String.le (rid_str (reg_id a)) (rid_str (reg_id b))); auto.
  - destruct (total String.le (agent_str (agent_name (reg_agent a)))
      (agent_str (agent_name (reg_agent b)))); auto.
Qed.

#[global] Instance agent_le_total : Total agent_le.
Proof. intros a b. unfold agent_le. apply (total String.le). Qed.

Section directory.
Context `{JsonNumber} {serde : SerdeJson} {P : Type} {persistence : BrokerPersistence P}.
Context {spec : PersistenceSpec P} {progress : PersistenceProgress P}.
Implicit Types (w : World P) (st : State) (t : TaskRecord) (c : RegistrationCredentials).

(** ** Registration *)

(** A re-registration leaves no lease on a task that waits for the agent. *)
Lemma reregistered_unleased now agent session fresh reg w1 w' id t :
  Core (w_state w1) → register_post now agent session fresh reg w1 w' →
  waits_for (agent_name agent) (w_state w') id t → lease t = None.
Proof.
  intros HC Hpost (Ht & _ & Ha & Hrec). rewrite (rp_tasks _ _ _ _ _ _ _ Hpost) in Ht.
  rewrite lookup_fmap in Ht. apply fmap_Some in Ht as (t0 & Ht0 & ->).
  unfold requeue_old in *. destruct (lease t0) as [l|] eqn:Hl0.
  2: { destruct (old_registration _ _); [|done]. rewrite requeue_eq.
       by destruct (leased_to _ _). }
  assert (acknowledged t0 = false ∧ recipient t0 = agent_name agent) as [Ha0 Hr0].
  { destruct (old_registration _ _); [|done]. rewrite requeue_eq in Ha, Hrec.
    by destruct (leased_to _ _). }
  destruct (core_owners _ HC id t0 l Ht0 Ha0 Hl0) as (rid & r & Hr & Hn & Ho).
  assert (old_registration (w_state w1) (agent_name agent) = Some r) as Hold.
  { unfold old_registration. rewrite <-Hr0, <-Hn.
    rewrite (regs_named _ _ _ (core_regs _ HC) _ _ Hr). simpl. done. }
  rewrite Hold, requeue_eq. rewrite (proj2 (leased_to_iff _ _)); [done|]. eauto.
Qed.

(** Fencing.  A registration gets an epoch above every earlier one, durably;
    from then on its credentials are the only ones accepted for the agent, no
    waiting task of the agent is leased to an earlier incarnation, and its inbox
    is exactly what waits for the agent. *)
Theorem register_fences clk now agent session fresh w reg w' :
  Reachable clk w → (clk ≤ now)%Z → registrations (w_state w) !! fresh = None →
  register agent session now fresh w = (Done reg, w') →
  (∃ r, authentic now (credentials reg) (w_state w') r ∧ rs_registration r = reg ∧
     reg_name r = agent_name agent ∧
     ∀ id, id ∈ rs_inbox r ↔ ∃ t, waits_for (agent_name agent) (w_state w') id t) ∧
  view_epoch (view (w_store w')) = epoch_get (reg_epoch reg) ∧
  (∀ rid r, registrations (w_state w') !! rid = Some r → rid ≠ fresh →
     (epoch_get (reg_epoch (rs_registration r)) < epoch_get (reg_epoch reg))%Z) ∧
  (∀ now' c r, authentic now' c (w_state w') r → reg_name r = agent_name agent →
     c = credentials reg) ∧
  (∀ id t, waits_for (agent_name agent) (w_state w') id t → lease t = None).
Proof.
  intros HWI%reachable_inv Hle Hfresh Hrun.
  destruct (wp_done _ _ _ _ _ _ (register_spec clk now agent session fresh w HWI Hle Hfresh) Hrun)
    as (HW & w1 & HM & Hpost).
  pose proof (inv_core _ _ (wi_inv _ _ (mt_inv _ _ _ HM))) as HC1.
  pose proof (inv_core _ _ (wi_inv _ _ HW)) as HC.
  destruct (rp_entry _ _ _ _ _ _ _ Hpost) as (r & Hr & Hreg & Hinbox & _).
  pose proof (rp_reg _ _ _ _ _ _ _ Hpost) as Hval. split_and!.
  - exists r. rewrite Hval in *. split_and!; [|done|by unfold reg_name; rewrite Hreg|].
    + split; [done|by unfold reg_credentials; rewrite Hreg|]. unfold reg_expiry. rewrite Hreg.
      simpl. unfold REGISTRATION_TTL_MS. lia.
    + intros id. rewrite Hinbox. split.
      * intros (s & Hs & [? ?] & ?). apply lookup_shapes in Hs as (t & Ht & ->). by exists t.
      * intros (t & Ht & ? & ? & ?). exists (shape t). split; [by apply lookup_shapes_Some|done].
  - rewrite (sync_epoch _ _ (wi_sync _ _ HW)) by (rewrite (rp_flag _ _ _ _ _ _ _ Hpost); apply HM).
    by rewrite (rp_epoch _ _ _ _ _ _ _ Hpost), Hval.
  - intros rid r' Hr' Hne. rewrite (rp_others _ _ _ _ _ _ _ Hpost _ Hne) in Hr'.
    case_bool_decide; [done|]. rewrite Hval. simpl.
    pose proof (regs_epoch _ _ _ (core_regs _ HC1) _ _ Hr'). lia.
  - intros now' c r' [Hr' <- _] Hn.
    assert (cred_id (reg_credentials r') = fresh) as Hid.
    { pose proof (regs_named _ _ _ (core_regs _ HC) _ _ Hr') as Hby. rewrite Hn in Hby.
      rewrite (rp_name _ _ _ _ _ _ _ Hpost) in Hby. congruence. }
    rewrite Hid in Hr'. assert (r' = r) as -> by congruence. unfold reg_credentials. by rewrite Hreg.
  - intros id t Hw. eapply reregistered_unleased; [exact HC1|exact Hpost|exact Hw].
Qed.

(** Registration cannot be refused while the store works and epochs remain. *)
Theorem register_succeeds clk now agent session fresh w :
  Reachable clk w → (clk ≤ now)%Z → ready now w → registrations (w_state w) !! fresh = None →
  (0 ≤ next_registration_epoch (w_state w) < u64_max)%Z →
  ∃ reg w', register agent session now fresh w = (Done reg, w').
Proof.
  intros HWI%reachable_inv Hle Hrd Hfresh Hep.
  destruct (wp_total _ _ _ (register_progress clk now agent session fresh w HWI Hle Hrd Hfresh Hep))
    as (reg & w' & ? & _). by exists reg, w'.
Qed.

(** Renewing extends a live registration by its full term and changes nothing
    else: tasks, inboxes, other registrations, the store's rows. *)
Theorem renew_extends clk now c w reg w' :
  Reachable clk w → (clk ≤ now)%Z → renew c now w = (Done reg, w') →
  ∃ w1 r, begun now c w w1 r ∧ reg_expires_unix_ms reg = (now + REGISTRATION_TTL_MS)%Z ∧
    credentials reg = c ∧
    (∀ now', (now' < now + REGISTRATION_TTL_MS)%Z → ∃ r', authentic now' c (w_state w') r' ∧
       rs_registration r' = reg ∧ rs_inbox r' = rs_inbox r) ∧
    (∀ rid, rid ≠ cred_id c →
       registrations (w_state w') !! rid = registrations (w_state w1) !! rid) ∧
    tasks (w_state w') = tasks (w_state w1) ∧ w_shared w' = w_shared w1.
Proof.
  intros HWI%reachable_inv Hle Hrun.
  destruct (wp_done _ _ _ _ _ _ (renew_spec clk now c w HWI Hle) Hrun)
    as (HW & w1 & r & Hb & -> & Hst & Hsh).
  pose proof (au_credentials _ _ _ _ (bg_authentic _ _ _ _ _ Hb)) as Hc.
  exists w1, r. split_and!; [done|done|exact Hc| | |by rewrite Hst|done].
  - intros now' Hlt.
    exists (r <| rs_registration ::= λ reg,
              reg <| reg_expires_unix_ms := (now + REGISTRATION_TTL_MS)%Z |> |>).
    split_and!; [|done..]. split; [rewrite Hst; apply lookup_insert_eq|exact Hc|exact Hlt].
  - intros rid Hne. rewrite Hst. by apply lookup_insert_ne.
Qed.

(** After [remove_registration] the credentials are rejected at any later time,
    the agent is not listed under them, and no task is leased to them. *)
Theorem remove_registration_revokes clk now c w w' :
  Reachable clk w → (clk ≤ now)%Z → remove_registration c now w = (Done tt, w') →
  (∀ now', validate_active_registration (w_state w') c now' ≠ Done tt) ∧
  (∀ id t l, tasks (w_state w') !! id = Some t → acknowledged t = false → lease t = Some l →
     lease_owner l ≠ Some c).
Proof.
  intros HWI%reachable_inv Hle Hrun.
  destruct (wp_done _ _ _ _ _ _ (remove_registration_spec clk now c w HWI Hle) Hrun)
    as (HW & w1 & r & Hb & Hregs & _ & Hts & _). split.
  - intros now' Hv. apply validate_active_ok in Hv as [r' [Hr' _ _]]; [|apply HW].
    rewrite Hregs, lookup_delete_eq in Hr'. done.
  - intros id t l Ht Ha Hl Ho. rewrite Hts, lookup_fmap in Ht.
    apply fmap_Some in Ht as (t0 & Ht0 & ->). rewrite requeue_eq in Ha, Hl.
    destruct (leased_to c t0) eqn:Hlt; [done|].
    assert (leased_to c t0 = true) as Hc; [|congruence]. apply leased_to_iff. eauto.
Qed.

(** ** The directory *)

Lemma live_registrations_iff now st reg :
  reg ∈ live_registrations now st ↔
  ∃ rid r, registrations st !! rid = Some r ∧ rs_registration r = reg ∧ (now < reg_expiry r)%Z.
Proof.
  unfold live_registrations, reg_expiry. rewrite list_elem_of_filter, list_elem_of_fmap. split.
  - intros [Hlt (r & -> & Hr)]. apply list_elem_of_fmap in Hr as ([rid r'] & -> & Hr).
    apply elem_of_map_to_list in Hr. by exists rid, r'.
  - intros (rid & r & Hr & <- & Hlt). split; [done|]. exists r. split; [done|].
    apply list_elem_of_fmap. exists (rid, r). by rewrite elem_of_map_to_list.
Qed.

Lemma live_registrations_NoDup now st : Core st → NoDup (live_registrations now st).
Proof.
  intros HC. apply NoDup_filter, (NoDup_fmap_1 reg_id).
  replace (reg_id <$> (rs_registration <$> (map_to_list (registrations st)).*2))
    with ((map_to_list (registrations st)).*1); [apply NoDup_fst_map_to_list|].
  rewrite <-!list_fmap_compose. apply list_fmap_ext. intros i [rid r] Hi. simpl. symmetry.
  apply (regs_key _ _ _ (core_regs _ HC)), elem_of_map_to_list, list_elem_of_lookup. eauto.
Qed.

(** The maintenance does not change which registrations are live. *)
Lemma maintained_live now w w1 reg :
  Maintained now w w1 →
  reg ∈ live_registrations now (w_state w1) ↔ reg ∈ live_registrations now (w_state w).
Proof.
  intros HM. rewrite !live_registrations_iff. split; intros (rid & r & Hr & <- & Hlt).
  - destruct (mt_back _ _ _ HM _ _ Hr) as (r0 & Hr0 & Hs & _). exists rid, r0.
    unfold reg_expiry in *. by rewrite Hs in *.
  - destruct (mt_kept _ _ _ HM _ _ Hr Hlt) as (r1 & Hr1 & Hs & _). exists rid, r1.
    unfold reg_expiry in *. by rewrite Hs.
Qed.

(** The two results of [list_agents]. *)
Lemma list_agents_live clk now w l w' :
  WInv clk w → (clk ≤ now)%Z → list_agents now w = (l, w') →
  (Maintained now w w' ∧ Sorted registration_le l ∧ NoDup l ∧
   ∀ reg, reg ∈ l ↔ ∃ rid r, registrations (w_state w) !! rid = Some r ∧
                              rs_registration r = reg ∧ (now < reg_expiry r)%Z) ∨
  (l = [] ∧ maintenance_failed now w w' ∧ ∃ e, maintain_state now w = (Fail e, w')).
Proof.
  intros HWI Hle Hrun. pose proof (maintain_spec clk now w HWI Hle) as HM. unfold wp in HM.
  unfold list_agents in Hrun. destruct (maintain_state now w) as [[[]|e|] w1]; [|right|done];
    injection Hrun as <- <-; [left|by eauto].
  split_and!; [done|apply Sorted_merge_sort, _| |].
  - rewrite merge_sort_Permutation. apply live_registrations_NoDup, HM.
  - intros reg. rewrite merge_sort_Permutation, maintained_live by done.
    apply live_registrations_iff.
Qed.

(** [list_agents] returns the live registrations, each once, in the order of
    their names; it returns nothing when the maintenance fails. *)
Theorem list_agents_exact clk now w l w' :
  Reachable clk w → (clk ≤ now)%Z → list_agents now w = (l, w') →
  (Maintained now w w' ∧ Sorted registration_le l ∧ NoDup l ∧
   ∀ reg, reg ∈ l ↔ ∃ rid r, registrations (w_state w) !! rid = Some r ∧
                              rs_registration r = reg ∧ (now < reg_expiry r)%Z) ∨
  (l = [] ∧ maintenance_failed now w w').
Proof.
  intros HWI%reachable_inv Hle Hrun.
  destruct (list_agents_live _ _ _ _ _ HWI Hle Hrun) as [?|(? & ? & _)]; [by left|by right].
Qed.

Definition count_state (Q : DurableTaskState → Prop) `{∀ s, Decision (Q s)} st : nat :=
  length (filter (λ t, Q (durable_state t)) (map_to_list (tasks st)).*2).

Definition has_ended (s : DurableTaskState) : Prop := state_is_terminal s = true.

Lemma count_task_state t counts :
  count_task counts t = match durable_state t with
                                        | Queued => counts <| count_queued ::= S |>
                                        | Leased => counts <| count_leased ::= S |>
                                        | Acknowledged => counts <| count_waiting_reply ::= S |>
                                        | _ => counts <| count_terminal ::= S |>
                                        end.
Proof.
  unfold count_task, durable_state.
  destruct (failed t), (rejected t); [by destruct (reply t)..|].
  destruct (reply t); [done|]. by destruct (canceled t), (expired t), (acknowledged t), (lease t).
Qed.

Lemma count_fold (ts : list TaskRecord) counts :
  foldl count_task counts ts
  = MkBrokerTaskCounts
      (count_queued counts + length (filter (λ t, durable_state t = Queued) ts))
      (count_leased counts + length (filter (λ t, durable_state t = Leased) ts))
      (count_waiting_reply counts + length (filter (λ t, durable_state t = Acknowledged) ts))
      (count_terminal counts + length (filter (λ t, has_ended (durable_state t)) ts)).
Proof.
  revert counts. induction ts as [|t ts IH]; intros [q l a e]; simpl.
  { by rewrite !Nat.add_0_r. }
  rewrite IH, count_task_state.
  rewrite !filter_cons. unfold has_ended. destruct (durable_state t); simpl; f_equal; lia.
Qed.

(** The operations snapshot counts: the agents it names are the live ones, and
    its four task counts are the numbers of retained tasks in each durable
    state. *)
Theorem operations_snapshot_counts clk now w snap w' :
  Reachable clk w → (clk ≤ now)%Z → operations_snapshot now w = (Done snap, w') →
  Maintained now w w' ∧
  Sorted agent_le (ops_agents snap) ∧ ops_registrations snap = length (ops_agents snap) ∧
  ops_agents snap ≡ₚ (λ r, agent_name (reg_agent r)) <$> live_registrations now (w_state w') ∧
  ops_tasks snap = MkBrokerTaskCounts
    (count_state (.= Queued) (w_state w')) (count_state (.= Leased) (w_state w'))
    (count_state (.= Acknowledged) (w_state w')) (count_state has_ended (w_state w')).
Proof.
  intros HWI%reachable_inv Hle Hrun.
  destruct (wp_done _ _ _ _ _ _ (operations_snapshot_spec clk now w HWI Hle) Hrun) as [HM ->].
  split_and!; [done|apply Sorted_merge_sort, _| |apply merge_sort_Permutation|].
  - cbn [ops_agents ops_registrations]. by rewrite merge_sort_Permutation, length_fmap.
  - cbn [ops_tasks]. by rewrite count_fold.
Qed.

(** ** Maintenance *)

(** What time does.  After a successful maintenance of a synchronised broker
    every task is what [upkeep] makes of it (deleted after its retention,
    expired at its delivery deadline, requeued when its leaseholder's
    registration expired, else unchanged), and exactly the registrations that
    had not expired remain. *)
Theorem maintenance_effect clk now w w' :
  Reachable clk w → (clk ≤ now)%Z → reconciliation_required (w_state w) = false →
  maintain_state now w = (Done tt, w') →
  (∀ id, tasks (w_state w') !! id
         = tasks (w_state w) !! id ≫= upkeep now (expired_credentials now (w_state w))) ∧
  (∀ rid, is_Some (registrations (w_state w') !! rid) ↔
          ∃ r, registrations (w_state w) !! rid = Some r ∧ (now < reg_expiry r)%Z) ∧
  view_tasks (view (w_store w')) = durable_rows (tasks (w_state w')).
Proof.
  intros HWI%reachable_inv Hle Hflag Hrun.
  pose proof (wp_done _ _ _ _ _ _ (maintain_spec clk now w HWI Hle) Hrun) as HM.
  split_and!; [by apply HM| |].
  - intros rid. split.
    + intros [r' Hr']. destruct (mt_back _ _ _ HM _ _ Hr') as (r & Hr & Hs & _). exists r.
      split; [done|]. pose proof (mt_unexpired _ _ _ HM _ _ Hr'). unfold reg_expiry in *.
      by rewrite Hs in *.
    + intros (r & Hr & Hlt). destruct (mt_kept _ _ _ HM _ _ Hr Hlt) as (r' & Hr' & _). eauto.
  - apply (sync_rows _ _ (wi_sync _ _ (mt_inv _ _ _ HM))), HM.
Qed.

(** Maintenance cannot fail while the store works and no counter is at its
    bound. *)
Theorem maintenance_succeeds clk now w :
  Reachable clk w → (clk ≤ now)%Z → ready now w →
  ∃ w', maintain_state now w = (Done tt, w').
Proof.
  intros HWI%reachable_inv Hle Hrd.
  destruct (wp_total _ _ _ (maintain_progress clk now w HWI Hle Hrd)) as ([] & w' & ? & _).
  by exists w'.
Qed.

(** ** Resuming *)

(** [start_or_resume] is idempotent: when a task with the identifier is
    retained, it is returned as it is, provided the message is the same one, and
    nothing is queued. *)
Theorem start_or_resume_resumes clk c d first second w res w' t :
  Reachable clk w → (clk ≤ il_now_lookup first)%Z →
  reconciliation_required (w_state w) = false →
  tasks (w_state w) !! qd_task_id d = Some t → overdue (il_now_lookup first) t = false →
  start_or_resume c d first second w = (Done res, w') →
  ∃ r t1, begun (il_now_lookup first) c w w' r ∧ reg_name r = qd_sender d ∧
    tasks (w_state w') !! qd_task_id d = Some t1 ∧
    qd_context_id (original_delivery t1) = qd_context_id d ∧
    qd_payload (original_delivery t1) = qd_payload d ∧
    sender t1 = qd_sender d ∧ recipient t1 = qd_recipient d ∧
    res = if is_some (terminal_deadline_unix_ms t1)
          then Terminal (image (qd_task_id d) t1) else Active (image (qd_task_id d) t1).
Proof.
  intros HWI%reachable_inv Hle Hflag Ht Hod. unfold start_or_resume. cbn [start_or_resume_rounds].
  pose proof (start_or_resume_lookup_spec clk (il_now_lookup first) c d w HWI Hle) as Hwp.
  unfold st_bind. unfold wp in Hwp.
  destruct (start_or_resume_lookup c d (il_now_lookup first) w) as [[found|e|msg] w1]; [|done..].
  destruct Hwp as (r & Hb & Hn & Hfound). pose proof (bg_maintained _ _ _ _ _ Hb) as HM.
  assert (is_Some (tasks (w_state w1) !! qd_task_id d)) as [t1 Ht1].
  { rewrite (mt_tasks _ _ _ HM Hflag), Ht. simpl. unfold upkeep. rewrite Hod. by eexists. }
  rewrite Ht1 in Hfound. destruct Hfound as (? & ? & ? & ? & ->). intros [= <- <-].
  exists r, t1. by split_and!.
Qed.

(** ** Waiting *)

(** The maintenance at the start of an operation keeps the flags. *)
Lemma begin_wait_flags c now w key w' :
  begin_wait c now w = (Done key, w') →
  default false (wait_flags w !! key) = false ∧ wait_flags w' = <[key := true]> (wait_flags w).
Proof.
  assert (keeps wait_flags (validate_registration_and_maintain (P := P) c now)) as Hk.
  { apply keeps_bind; [apply keeps_get_state|]. intros st.
    apply keeps_bind; [apply flags_maintain|]. intros _. apply keeps_lift. }
  specialize (Hk w). unfold begin_wait, st_bind.
  destruct (validate_registration_and_maintain c now w) as [[[]|e|msg] w1]; [|done..].
  simpl in Hk. unfold validated_registration, get_state, st_bind, st_gets, st_lift.
  destruct (registrations (w_state w1) !! cred_id c) as [r|]; [|done]. simpl.
  destruct (default false (flags (w_shared w1) !! rs_wait_active r)) eqn:Hf; [done|]. simpl.
  intros [= <- <-]. unfold wait_flags in *. simpl. by rewrite <-Hk.
Qed.

(** A registration has one waiting call at a time: once [begin_wait] has
    returned, it fails until the guard is dropped; dropping the guard clears the
    flag it set. *)
Theorem wait_is_exclusive clk c now w key w' :
  Reachable clk w → (clk ≤ now)%Z → begin_wait c now w = (Done key, w') →
  (∀ now' key' w'', (now ≤ now')%Z → begin_wait c now' w' ≠ (Done key', w'')) ∧
  flags (w_shared (drop_wait_guard key w')) !! key = Some false.
Proof.
  intros HWI%reachable_inv Hle Hrun.
  destruct (begin_wait_flags _ _ _ _ _ Hrun) as [_ Hset].
  destruct (wp_done _ _ _ _ _ _ (begin_wait_spec clk now c w HWI Hle) Hrun)
    as (w1 & r & Hb & -> & _ & HW & Hst & _). split.
  - intros now' key' w'' Hle' Hrun'. destruct (begin_wait_flags _ _ _ _ _ Hrun') as [Hfree _].
    destruct (wp_done _ _ _ _ _ _ (begin_wait_spec now now' c w' HW Hle') Hrun')
      as (w2 & r2 & Hb2 & -> & _).
    destruct (bg_before _ _ _ _ _ Hb2) as (r1 & [Hr1 _ _] & Hs).
    assert (r1 = r) as ->.
    { rewrite Hst, (au_lookup _ _ _ _ (bg_authentic _ _ _ _ _ Hb)) in Hr1. congruence. }
    destruct Hs as (_ & _ & Hw). rewrite Hw, Hset, lookup_insert_eq in Hfree. done.
  - simpl. by rewrite lookup_insert_eq.
Qed.

(** [wait_next] drops its guard on every way out: a delivered message, the
    caller's timeout, a lost registration or a failed poll. *)
Theorem wait_next_releases {S} (broker : S → World P) set_broker c timeout now_begin
    before_notify before_poll now fresh resumes s key w0 o s' :
  (∀ w s, broker (set_broker w s) = w) →
  begin_wait c now_begin (broker s) = (Done key, w0) →
  wait_next broker set_broker c timeout now_begin before_notify before_poll now fresh resumes s
    = (o, s') →
  o ≠ Done None → flags (w_shared (broker s')) !! key = Some false.
Proof.
  intros Hlens Hbegin. unfold wait_next, st_bind, zoom at 1. rewrite Hbegin.
  destruct (registrations (w_state (broker (before_notify (set_broker w0 s)))) !! cred_id c) as [r|].
  - destruct (wait_loop _ _ _ _ _ _ _ _ _) as [[[m|]|e|msg] s1]; intros [= <- <-] Hne;
      rewrite ?Hlens; simpl; try (by rewrite lookup_insert_eq); done.
  - intros [= <- <-] _. rewrite Hlens. simpl. by rewrite lookup_insert_eq.
Qed.
End directory.

(** ** Concrete runs *)

Definition bob_registration : Registration :=
  MkRegistration (rid "rb") (MkRegistrationEpoch 2) (agent "bob" "p2") "s2" (1001 + REGISTRATION_TTL_MS).

Lemma pair_run {E A S} (x : Outcome E A * S) o : x.1 = o → x = (o, x.2).
Proof. intros <-. by destruct x. Qed.

Lemma reach_with_alice : Reachable 1000 with_alice.
Proof. apply (reach_step 1000); [apply reach_boot|lia|by vm_compute]. Qed.

Lemma register_fences_witness :
  ∃ r, authentic 1001 (credentials bob_registration)
         (w_state (register (agent "bob" "p2") "s2" 1001 (rid "rb") with_alice).2) r.
Proof.
  destruct (register_fences 1000 1001 (agent "bob" "p2") "s2" (rid "rb") with_alice bob_registration
    (register (agent "bob" "p2") "s2" 1001 (rid "rb") with_alice).2) as [(r & Hau & _) _].
  - apply reach_with_alice.
  - lia.
  - by vm_compute.
  - apply pair_run. by vm_compute.
  - exists r. exact Hau.
Defined.

Lemma register_succeeds_witness :
  ∃ reg w', register (agent "bob" "p2") "s2" 1001 (rid "rb") with_alice = (Done reg, w').
Proof.
  apply (register_succeeds 1000); [apply reach_with_alice|lia|apply ready_test_ok; by vm_compute
    |by vm_compute|]. vm_compute. split; congruence.
Defined.

Lemma renew_extends_witness :
  ∃ w1 r, begun 1002 alice both w1 r ∧
    tasks (w_state (renew alice 1002 both).2) = tasks (w_state w1).
Proof.
  destruct (renew_extends 1001 1002 alice both
    ((rs_registration (the_reg both alice)) <| reg_expires_unix_ms := (1002 + REGISTRATION_TTL_MS)%Z |>)
    (renew alice 1002 both).2) as (w1 & r & Hb & _ & _ & _ & _ & Hts & _).
  - apply reach_both.
  - lia.
  - apply pair_run. by vm_compute.
  - exists w1, r. split; [exact Hb|exact Hts].
Defined.

Lemma remove_registration_revokes_witness :
  validate_active_registration (w_state (remove_registration bob 1005 polled).2) bob 1006 ≠ Done tt.
Proof.
  apply (remove_registration_revokes 1004 1005 bob polled (remove_registration bob 1005 polled).2);
    [apply reach_polled|lia|apply pair_run; by vm_compute].
Defined.

Lemma list_agents_exact_witness :
  (Maintained 1002 both (list_agents 1002 both).2 ∧ NoDup (list_agents 1002 both).1) ∨
  (list_agents 1002 both).1 = [].
Proof.
  destruct (list_agents_exact 1001 1002 both (list_agents 1002 both).1 (list_agents 1002 both).2)
    as [(HM & _ & Hnd & _)|[Hnil _]].
  - apply reach_both.
  - lia.
  - by destruct (list_agents 1002 both).
  - left. split; [exact HM|exact Hnd].
  - right. exact Hnil.
Defined.

Definition polled_snapshot : BrokerOperationsSnapshot :=
  match (operations_snapshot 1005 polled).1 with
  | Done snap => snap
  | _ => MkBrokerOperationsSnapshot 0 [] (MkBrokerTaskCounts 0 0 0 0) None
  end.

Lemma operations_snapshot_counts_witness :
  count_leased (ops_tasks polled_snapshot)
  = count_state (.= Leased) (w_state (operations_snapshot 1005 polled).2).
Proof.
  destruct (operations_snapshot_counts 1004 1005 polled polled_snapshot
    (operations_snapshot 1005 polled).2) as (_ & _ & _ & _ & ->).
  - apply reach_polled.
  - lia.
  - apply pair_run. by vm_compute.
  - done.
Defined.

Lemma maintenance_effect_witness :
  tasks (w_state (maintain_state 1005 polled).2) !! "t1" = Some (the_task polled).
Proof.
  destruct (maintenance_effect 1004 1005 polled (maintain_state 1005 polled).2) as [-> _].
  - apply reach_polled.
  - lia.
  - by vm_compute.
  - apply pair_run. by vm_compute.
  - by vm_compute.
Defined.

Lemma maintenance_succeeds_witness : ∃ w', maintain_state 1005 polled = (Done tt, w').
Proof.
  apply (maintenance_succeeds 1004); [apply reach_polled|lia|apply ready_test_ok; by vm_compute].
Defined.

Definition undisturbed (now : Z) : Interleaving (P := Store) :=
  MkInterleaving now id now id now id.

Lemma start_or_resume_resumes_witness :
  ∃ r t1, begun 1005 alice polled
            (start_or_resume alice (message "t1") (undisturbed 1005) (undisturbed 1005) polled).2 r ∧
    recipient t1 = name "bob".
Proof.
  destruct (start_or_resume_resumes 1004 alice (message "t1") (undisturbed 1005) (undisturbed 1005)
    polled (Active (image "t1" (the_task polled)))
    (start_or_resume alice (message "t1") (undisturbed 1005) (undisturbed 1005) polled).2 (the_task polled))
    as (r & t1 & Hb & _ & _ & _ & _ & _ & Hrec & _).
  - apply reach_polled.
  - simpl. lia.
  - by vm_compute.
  - by vm_compute.
  - by vm_compute.
  - apply pair_run. by vm_compute.
  - exists r, t1. split; [exact Hb|exact Hrec].
Defined.

Lemma wait_is_exclusive_witness :
  begin_wait bob 1006 (begin_wait bob 1005 polled).2 ≠ (Done 3%nat, polled).
Proof.
  apply (wait_is_exclusive 1004 bob 1005 polled 3 (begin_wait bob 1005 polled).2);
    [apply reach_polled|lia|apply pair_run; by vm_compute|lia].
Defined.

Definition wait_for_message : Outcome DomainError (option DeliveredMessage) * World Store :=
  wait_next id (λ w _, w) bob true 1004 id id 1004 (did "d1") [] waiting.

Lemma wait_next_releases_witness : flags (w_shared (id wait_for_message.2)) !! 3%nat = Some false.
Proof.
  assert (begin_wait bob 1004 waiting = (Done 3%nat, (begin_wait bob 1004 waiting).2)) as Hbegin
    by (apply pair_run; by vm_compute).
  assert (wait_for_message = (wait_for_message.1, wait_for_message.2)) as Hrun
    by (by destruct wait_for_message).
  assert (wait_for_message.1 ≠ Done None) as Hend by (by vm_compute).
  exact (wait_next_releases id (λ w _, w) bob true 1004 id id 1004 (did "d1") [] waiting 3
    (begin_wait bob 1004 waiting).2 wait_for_message.1 wait_for_message.2
    (λ _ _, eq_refl) Hbegin Hrun Hend).
Defined.
