(* ===== verification/ValidationTheorems.v ===== *)
(** * Theorems about validation

    The grammar of names and epochs, the bounds of metadata against a reference
    measure, the confinement of file references to the workspace, and the
    agreement of the checks made on receipt with those made on recovery. *)
From stdpp Require Import prelude gmap strings sorting.
From S2P Require Import Prelude RustStd Model Validation Scenario.

(** ** Names *)

Definition name_head (b : Z) : Prop := (97 ≤ b ≤ 122)%Z.
Definition name_tail (b : Z) : Prop :=
  (97 ≤ b ≤ 122)%Z ∨ (48 ≤ b ≤ 57)%Z ∨ b = 95%Z ∨ b = 45%Z.

(** A lower-case letter, then letters, digits, underscores and hyphens; at most 32
    bytes in all. *)
Definition well_formed_name (s : string) : Prop :=
  ∃ first rest, as_bytes s = first :: rest ∧ (length rest < 32)%nat ∧
    name_head first ∧ Forall name_tail rest.

Lemma agent_name_byte_iff b : agent_name_byte b = true ↔ name_tail b.
Proof. unfold agent_name_byte, name_tail, is_ascii_lowercase, is_ascii_digit. lia. Qed.

Lemma name_bytes_iff bytes : forallb agent_name_byte bytes = true ↔ Forall name_tail bytes.
Proof.
  rewrite forallb_forall, Forall_forall.
  split; intros Hall b Hb; apply agent_name_byte_iff, Hall; by apply list_elem_of_In.
Qed.

(** [AgentName::parse] accepts exactly the well-formed names, and keeps them as
    they are; everything else is [InvalidAgentName]. *)
Theorem agent_name_grammar s :
  (well_formed_name s ∧ AgentName_parse s = Done (MkAgentName s)) ∨
  (¬ well_formed_name s ∧ AgentName_parse s = Fail InvalidAgentName).
Proof.
  unfold AgentName_parse, well_formed_name. destruct (as_bytes s) as [|b rest].
  { right. split; [|done]. by intros (? & ? & ? & _). }
  destruct (_ || _ || _) eqn:Hb.
  - right. split; [|done]. intros (b' & rest' & [= <- <-] & Hlen & Hh & Hall).
    apply orb_true_iff in Hb as [[Hb|Hb]%orb_true_iff|Hb]; apply negb_true_iff in Hb.
    + apply Nat.leb_gt in Hb. simpl in Hb. lia.
    + unfold is_ascii_lowercase, name_head in *. lia.
    + apply not_true_iff_false in Hb. by apply Hb, name_bytes_iff.
  - left. split; [|done]. apply orb_false_iff in Hb as [[H1 H2]%orb_false_iff H3].
    apply negb_false_iff in H1, H2, H3. exists b, rest. split_and!; [done| |by apply andb_true_iff in H2; unfold name_head; lia|].
    + apply Nat.leb_le in H1. simpl in H1. lia.
    + by apply name_bytes_iff.
Qed.

(** ** Metadata *)

Section metadata.
Context `{JsonNumber}.

(** The number of containers around the innermost value, and the number of
    elements and members of all containers. *)
Fixpoint nesting (v : Value) : nat :=
  match v with
  | VArray items => S (max_list_with nesting items)
  | VObject map => S (max_list_with (λ kv, nesting kv.2) map)
  | _ => 0
  end.

Fixpoint entries (v : Value) : nat :=
  match v with
  | VArray items => length items + sum_list_with entries items
  | VObject map => length map + sum_list_with (λ kv, entries kv.2) map
  | _ => 0
  end.

Definition fits (depth count : nat) (v : Value) : Prop :=
  depth + nesting v ≤ MAX_METADATA_DEPTH ∧ count + entries v ≤ MAX_METADATA_ENTRIES.

(** What an error says. *)
Definition explains (depth count : nat) (v : Value) (e : DomainError) : Prop :=
  (e = MetadataTooDeep ∧ MAX_METADATA_DEPTH < depth + nesting v) ∨
  (e = TooManyMetadataEntries ∧ MAX_METADATA_ENTRIES < count + entries v).

Definition node_spec (depth : nat) (m : ST nat DomainError ()) (v : Value) : Prop :=
  ∀ count, depth ≤ MAX_METADATA_DEPTH → count ≤ MAX_METADATA_ENTRIES →
    wp m (λ _ count', fits depth count v ∧ count' = count + entries v)
      (λ e _, explains depth count v e) count.

Lemma max_list_with_ge {A} (f : A → nat) l x : x ∈ l → f x ≤ max_list_with f l.
Proof. induction l as [|y l IH]; [by intros ?%not_elem_of_nil|]. rewrite elem_of_cons. simpl. intros [Heq|Hx]; [subst; lia|]. specialize (IH Hx). lia. Qed.

Lemma max_list_with_le {A} (f : A → nat) l n : (∀ x, x ∈ l → f x ≤ n) → max_list_with f l ≤ n.
Proof.
  induction l as [|y l IH]; simpl; [lia|]. intros Hall.
  assert (f y ≤ n) by (apply Hall; set_solver).
  assert (max_list_with f l ≤ n) by (apply IH; set_solver). lia.
Qed.

Lemma sum_list_with_snoc {A} (f : A → nat) l x : sum_list_with f (l ++ [x]) = sum_list_with f l + f x.
Proof. rewrite sum_list_with_app. simpl. lia. Qed.

(** The loop over the children of a container. *)
Lemma children_spec {A} (child : A → Value) (body : A → ST nat DomainError ()) items depth count :
  S depth ≤ MAX_METADATA_DEPTH → count ≤ MAX_METADATA_ENTRIES →
  Forall (λ a, node_spec (S depth) (body a) (child a)) items →
  wp (for_each body items)
    (λ _ count', S depth + max_list_with (λ a, nesting (child a)) items ≤ MAX_METADATA_DEPTH ∧
                 count' = count + sum_list_with (λ a, entries (child a)) items ∧
                 count' ≤ MAX_METADATA_ENTRIES)
    (λ e _, (e = MetadataTooDeep ∧
             MAX_METADATA_DEPTH < S depth + max_list_with (λ a, nesting (child a)) items) ∨
            (e = TooManyMetadataEntries ∧
             MAX_METADATA_ENTRIES < count + sum_list_with (λ a, entries (child a)) items)) count.
Proof.
  intros Hd Hc Hall. rewrite Forall_forall in Hall.
  match goal with |- wp _ _ ?X _ => eapply (wp_mono _ _ _ X) end;
    [apply (wp_for_each body (λ done count',
    count' = count + sum_list_with (λ a, entries (child a)) done ∧
    count' ≤ MAX_METADATA_ENTRIES ∧
    ∀ a, a ∈ done → S depth + nesting (child a) ≤ MAX_METADATA_DEPTH))| |].
  - split_and!; [simpl; lia|done|]. by intros a ?%not_elem_of_nil.
  - intros done a todo count1 Hitems (Hc1 & Hle & Hdone).
    assert (a ∈ items) as Ha by (rewrite Hitems; set_solver).
    eapply wp_mono; [by apply (Hall a Ha)| |].
    + cbv beta. intros _ count' ([Hn He] & ->). rewrite sum_list_with_snoc. split_and!; [lia|lia|].
      intros a' [?|Ha'%list_elem_of_singleton]%elem_of_app; [by apply Hdone|by subst].
    + cbv beta. intros e _ [[He Hbad]|[He Hbad]]; [left|right]; (split; [exact He|]).
      * pose proof (max_list_with_ge (λ a, nesting (child a)) items a Ha). simpl in *. lia.
      * rewrite Hitems, sum_list_with_app. simpl. lia.
  - cbv beta. intros _ count' (-> & Hle & Hdone). split_and!; [|done|done].
    assert (max_list_with (λ a, nesting (child a)) items ≤ MAX_METADATA_DEPTH - S depth); [|lia].
    apply max_list_with_le. intros a Ha. specialize (Hdone a Ha). lia.
  - done.
Qed.

Lemma container_spec {A} (child : A → Value) (body : A → ST nat DomainError ()) items depth v :
  nesting v = S (max_list_with (λ a, nesting (child a)) items) →
  entries v = length items + sum_list_with (λ a, entries (child a)) items →
  Forall (λ a, node_spec (S depth) (body a) (child a)) items →
  node_spec depth
    (let! _ := st_lift (reject_if (MAX_METADATA_DEPTH <? S depth)%nat MetadataTooDeep) in
     let! _ := st_modify (λ entries, entries + length items)%nat in
     let! entries := st_get in
     let! _ := st_lift (reject_if (MAX_METADATA_ENTRIES <? entries)%nat
                          TooManyMetadataEntries) in
     for_each body items) v.
Proof.
  intros Hn He Hall count Hd Hc. unfold fits, explains. rewrite Hn, He. wp_step.
  apply wp_reject_if; [intros Hdeep%Nat.ltb_ge|intros Hdeep%Nat.ltb_lt; left; split; [done|lia]].
  wp_steps. apply wp_reject_if; [intros Hmany%Nat.ltb_ge|intros Hmany%Nat.ltb_lt; right; split; [done|lia]].
  eapply wp_mono; [by apply (children_spec child)| |].
  - cbv beta. intros _ count' (? & -> & ?). split_and!; lia.
  - cbv beta. intros e _ [[Hx ?]|[Hx ?]]; [left|right]; (split; [exact Hx|lia]).
Qed.

Lemma metadata_node_spec v : ∀ depth, node_spec depth (validate_metadata_node v depth) v.
Proof.
  induction v as [|b|n|s|items IH|map IH] using value_ind'; intros depth;
    try (intros count Hd Hc; simpl; wp_step; unfold fits; simpl; lia).
  - apply (container_spec (λ v, v)); [done..|]. apply (Forall_impl _ _ _ IH). intros v Hv. apply Hv.
  - apply (container_spec (λ kv, kv.2)); [done..|]. apply (Forall_impl _ _ _ IH). intros kv Hv. apply Hv.
Qed.

Context {serde : SerdeJson}.

(** [validate_metadata] accepts exactly the values whose serialisation,
    nesting and number of entries are within the limits, whatever the order in
    which the traversal meets them; an error names a limit that is exceeded. *)
Theorem metadata_within_limits v :
  match validate_metadata v with
  | Done _ => to_vec_len v ≤ MAX_METADATA_BYTES ∧ nesting v ≤ MAX_METADATA_DEPTH ∧
              entries v ≤ MAX_METADATA_ENTRIES
  | Fail MetadataTooLarge => MAX_METADATA_BYTES < to_vec_len v
  | Fail MetadataTooDeep => MAX_METADATA_DEPTH < nesting v
  | Fail TooManyMetadataEntries => MAX_METADATA_ENTRIES < entries v
  | _ => False
  end.
Proof.
  unfold validate_metadata. destruct (MAX_METADATA_BYTES <? to_vec_len v) eqn:Hlen.
  { by apply Nat.ltb_lt in Hlen. }
  apply Nat.ltb_ge in Hlen.
  pose proof (metadata_node_spec v 0 0 ltac:(lia) ltac:(lia)) as Hwp. unfold wp in Hwp.
  destruct (validate_metadata_node v 0 0) as [[[]|e|msg] count]; [| |done]; simpl.
  - destruct Hwp as [[? ?] _]. split_and!; [done|lia|lia].
  - by destruct Hwp as [[-> ?]|[-> ?]].
Qed.
End metadata.

(** ** Payloads *)

Section payloads.
Context `{JsonNumber} {serde : SerdeJson} (canonicalize : PathBuf → option PathBuf).

(** [f'] is [f] with its path resolved, inside the resolved workspace [root]. *)
Definition resolved_inside (root : PathBuf) (f f' : FileReference) : Prop :=
  canonicalize (file_path f) = Some (file_path f') ∧
  path_starts_with (file_path f') root = true ∧
  file_media_type f' = file_media_type f ∧ file_label f' = file_label f ∧
  str_len (file_path f') ≤ MAX_PATH_BYTES ∧
  from_option (λ l, str_len l ≤ MAX_FILE_LABEL_BYTES) True (file_label f').

Lemma label_ok (label : option string) :
  from_option (λ l, MAX_FILE_LABEL_BYTES <? str_len l)%nat false label = false ↔
  from_option (λ l, str_len l ≤ MAX_FILE_LABEL_BYTES) True label.
Proof. destruct label as [l|]; simpl; [apply Nat.ltb_ge|done]. Qed.

Lemma file_reference_inside workspace f f' :
  validate_file_reference canonicalize workspace f = Done f' →
  ∃ root, canonicalize workspace = Some root ∧ resolved_inside root f f'.
Proof.
  unfold validate_file_reference. intros Hv. run_done Hv.
  repeat match goal with
  | Hb : reject_if _ _ = Done _ |- _ => apply reject_if_Done in Hb
  | Hb : ok_or _ _ = Done _ |- _ => apply ok_or_Done in Hb
  | Hb : validate_canonical_path _ = Done _ |- _ => apply reject_if_Done, Nat.ltb_ge in Hb
  | Hb : validate_file_reference_shape _ = Done _ |- _ =>
      unfold validate_file_reference_shape in Hb; run_done Hb
  end.
  injection Hv as <-. match goal with Hr : canonicalize workspace = Some ?r |- _ => exists r; rewrite Hr in * end.
  split; [done|]. simpl in *. split_and!; simpl; try done; [by apply negb_false_iff|by apply label_ok].
Qed.

Lemma file_references_inside workspace fs fs' :
  Forall2 (λ f f', validate_file_reference canonicalize workspace f = Done f') fs fs' →
  fs ≠ [] → ∃ root, canonicalize workspace = Some root ∧ Forall2 (resolved_inside root) fs fs'.
Proof.
  destruct fs as [|f fs]; [done|]. intros Hall _. inversion Hall as [|? f' ? fs1 Hf Hfs]; subst.
  destruct (file_reference_inside _ _ _ Hf) as (root & Hroot & _). exists root. split; [done|].
  apply (Forall2_impl _ _ _ _ Hall). intros g g' Hg.
  destruct (file_reference_inside _ _ _ Hg) as (root' & Hroot' & Hin). by simplify_eq.
Qed.

Lemma validate_payload_parts p workspace vp :
  validate_payload canonicalize p workspace = Done vp →
  str_len (msg_text p) ≤ MAX_TEXT_BYTES ∧ validate_metadata (msg_metadata p) = Done tt ∧
  length (msg_file_refs p) ≤ MAX_FILE_REFS ∧ vp_text vp = msg_text p ∧
  vp_metadata vp = msg_metadata p ∧
  Forall2 (λ f f', validate_file_reference canonicalize workspace f = Done f')
    (msg_file_refs p) (vp_file_refs vp).
Proof.
  unfold validate_payload. intros Hv. run_done Hv.
  repeat match goal with
  | Hb : reject_if _ _ = Done _ |- _ => apply reject_if_Done, Nat.ltb_ge in Hb
  | Hb : try_map _ _ = Done _ |- _ => apply try_map_Forall2 in Hb
  | u : () |- _ => destruct u
  end.
  injection Hv as <-. by split_and!.
Qed.

(** A payload that is accepted keeps its text and metadata, and each of its
    file references, in order, is the canonical path of the reference it was
    sent with, inside the canonical workspace: no [..] or symbolic link leads
    out of it. *)
Theorem accepted_files_are_inside p workspace vp :
  validate_payload canonicalize p workspace = Done vp →
  vp_text vp = msg_text p ∧ vp_metadata vp = msg_metadata p ∧
  (msg_file_refs p = [] ∧ vp_file_refs vp = [] ∨
   ∃ root, canonicalize workspace = Some root ∧
     Forall2 (resolved_inside root) (msg_file_refs p) (vp_file_refs vp)).
Proof.
  intros (_ & _ & _ & ? & ? & Hfs)%validate_payload_parts. split_and!; [done..|].
  destruct (decide (msg_file_refs p = [])) as [Hnil|Hne].
  - left. split; [done|]. rewrite Hnil in Hfs. by inversion Hfs.
  - right. by apply (file_references_inside workspace).
Qed.

(** What was accepted on receipt is accepted again on recovery, when the
    paths are valid Unicode (as their serialisation requires): the persisted
    payload is within the same limits. *)
Theorem accepted_payload_is_persistable p workspace vp :
  validate_payload canonicalize p workspace = Done vp →
  Forall (λ f, to_string_lossy (file_path f) = file_path f) (vp_file_refs vp) →
  validate_persisted_payload vp = Done tt.
Proof.
  intros (Htext & Hmeta & Hlen & Ht & Hm & Hfs)%validate_payload_parts Hutf.
  unfold validate_persisted_payload. rewrite Ht, Hm, Hmeta.
  rewrite (proj2 (Nat.ltb_ge _ _) Htext). cbn [reject_if out_bind].
  rewrite <-(Forall2_length _ _ _ Hfs), (proj2 (Nat.ltb_ge _ _) Hlen). cbn [reject_if out_bind].
  assert (try_map validate_persisted_file_reference (vp_file_refs vp)
          = Done (replicate (length (vp_file_refs vp)) tt)) as ->; [|done].
  apply try_map_Forall2. clear Ht Hm Hlen Htext Hmeta.
  induction Hfs as [|f f' fs fs' Hf _ IH]; simpl; [done|].
  inversion_clear Hutf as [|? ? Hu Hus]. constructor; [|by apply IH].
  destruct (file_reference_inside _ _ _ Hf) as (root & _ & _ & _ & _ & _ & Hp & Hl).
  unfold validate_persisted_file_reference. rewrite Hu, (proj2 (Nat.ltb_ge _ _) Hp). simpl.
  by rewrite (proj2 (label_ok _) Hl).
Qed.
End payloads.

(** ** Identifiers *)

Section identifiers.
Context `{UuidLib}.

(** The documented round trip of the [uuid] crate: the hyphenated form of an
    identifier parses to it. *)
Hypothesis uuid_display_parse : ∀ u, uuid_parse_str (uuid_to_string u) = Some u.

(** A parsed registration or delivery identifier is in canonical form:
    parsing its text gives it back, so equal identifiers have equal text. *)
Theorem parsed_ids_are_canonical s :
  (∀ r, RegistrationId_parse s = Done r → RegistrationId_parse (rid_str r) = Done r) ∧
  (∀ d, DeliveryId_parse s = Done d → DeliveryId_parse (did_str d) = Done d).
Proof using All.
  assert (∀ e v, parse_uuid_v7 s e = Done v → parse_uuid_v7 v e = Done v) as Hp.
  { intros e v. unfold parse_uuid_v7. destruct (uuid_parse_str s) as [u|]; simpl; [|done].
    destruct (_ || _) eqn:Hb; [done|]. intros [= <-]. rewrite uuid_display_parse. simpl.
    by rewrite Hb. }
  unfold RegistrationId_parse, DeliveryId_parse.
  split; intros x (v & Hv & [= <-])%out_bind_Done; simpl; by rewrite (Hp _ _ Hv).
Qed.
End identifiers.

(** ** Epochs *)

(** The digits of an accepted epoch: no superfluous leading zero. *)
Definition canonical_digits (bytes : list Z) : Prop :=
  bytes ≠ [] ∧ Forall (λ b, 48 ≤ b ≤ 57)%Z bytes ∧
  (1 < length bytes → head bytes ≠ Some 48%Z).

Definition value_from (acc : Z) (bytes : list Z) : Z :=
  foldl (λ acc b, 10 * acc + (b - 48))%Z acc bytes.

Lemma value_from_acc acc bytes :
  value_from acc bytes = (acc * 10 ^ Z.of_nat (length bytes) + value_from 0 bytes)%Z.
Proof.
  revert acc. induction bytes as [|b bytes IH]; intros acc; [simpl; lia|].
  change (value_from acc (b :: bytes)) with (value_from (10 * acc + (b - 48)) bytes).
  change (value_from 0 (b :: bytes)) with (value_from (10 * 0 + (b - 48)) bytes).
  rewrite (IH (10 * acc + (b - 48))%Z), (IH (10 * 0 + (b - 48))%Z).
  cbn [length]. rewrite Nat2Z.inj_succ, Z.pow_succ_r by lia. lia.
Qed.

Lemma value_from_cons b bytes :
  value_from 0 (b :: bytes) = ((b - 48) * 10 ^ Z.of_nat (length bytes) + value_from 0 bytes)%Z.
Proof.
  change (value_from 0 (b :: bytes)) with (value_from (10 * 0 + (b - 48)) bytes).
  rewrite value_from_acc. lia.
Qed.

Lemma value_bounds bytes :
  Forall (λ b, 48 ≤ b ≤ 57)%Z bytes → (0 ≤ value_from 0 bytes < 10 ^ Z.of_nat (length bytes))%Z.
Proof.
  induction 1 as [|b bytes Hb _ IH]; [done|]. rewrite value_from_cons. cbn [length].
  rewrite Nat2Z.inj_succ, Z.pow_succ_r by lia. nia.
Qed.

(** Two numerals of the same length with the same value are the same. *)
Lemma value_inj_length bs1 bs2 :
  Forall (λ b, 48 ≤ b ≤ 57)%Z bs1 → Forall (λ b, 48 ≤ b ≤ 57)%Z bs2 →
  length bs1 = length bs2 → value_from 0 bs1 = value_from 0 bs2 → bs1 = bs2.
Proof.
  intros H1. revert bs2. induction H1 as [|b1 bs1 Hb1 H1 IH]; intros [|b2 bs2] H2 Hlen Heq; try done.
  inversion_clear H2 as [|? ? Hb2 H2']. injection Hlen as Hlen. rewrite !value_from_cons, <-Hlen in Heq.
  pose proof (value_bounds _ H1) as B1. pose proof (value_bounds _ H2') as B2. rewrite <-Hlen in B2.
  assert (b1 = b2) as -> by nia. f_equal. apply IH; [done..|]. lia.
Qed.

(** A longer canonical numeral is larger. *)
Lemma canonical_lower bs :
  canonical_digits bs → 1 < length bs → (10 ^ Z.of_nat (length bs - 1) ≤ value_from 0 bs)%Z.
Proof.
  intros (_ & Hall & Hhead) Hlen. destruct bs as [|b bs]; [simpl in Hlen; lia|].
  inversion_clear Hall as [|? ? Hb Hbs]. rewrite value_from_cons. cbn [length] in *.
  replace (S (length bs) - 1) with (length bs) by lia. pose proof (value_bounds _ Hbs).
  assert (b ≠ 48%Z) by (intros ->; by apply Hhead). nia.
Qed.

Lemma canonical_length bs1 bs2 :
  canonical_digits bs1 → canonical_digits bs2 → value_from 0 bs1 = value_from 0 bs2 →
  length bs1 ≤ length bs2.
Proof.
  intros C1 C2 Heq. destruct (decide (length bs1 ≤ length bs2)) as [?|Hlt]; [done|exfalso].
  destruct C2 as (Hne & H2 & _). assert (0 < length bs2) by (destruct bs2; simpl; [done|lia]).
  pose proof (canonical_lower _ C1 ltac:(lia)) as Hlow. pose proof (value_bounds _ H2) as [_ Hup].
  assert (10 ^ Z.of_nat (length bs2) ≤ 10 ^ Z.of_nat (length bs1 - 1))%Z by (apply Z.pow_le_mono_r; lia). lia.
Qed.

Lemma epoch_parse_some s e :
  epoch_parse s = Some e →
  canonical_digits (as_bytes s) ∧ digits_value (as_bytes s) = epoch_get e ∧ (0 < epoch_get e ≤ u64_max)%Z.
Proof.
  unfold epoch_parse. destruct (_ || _ || _) eqn:Hb; [done|].
  apply orb_false_iff in Hb as [[Hne Hd]%orb_false_iff Hz].
  destruct (checked 0 u64_max _) as [v|] eqn:Hc; [|done]. apply checked_Some in Hc as [-> Hr].
  destruct (0 <? _)%Z eqn:Hpos; [|done]. intros [= <-]. simpl. split_and!; [|done|lia|lia].
  apply Nat.eqb_neq in Hne. apply negb_false_iff in Hd. split_and!.
  - by intros Hnil; rewrite Hnil in Hne.
  - rewrite forallb_forall in Hd. apply Forall_forall. intros b Hb%list_elem_of_In.
    specialize (Hd b Hb). unfold is_ascii_digit in Hd. lia.
  - intros Hlen. apply andb_false_iff in Hz as [Hz|Hz]; [apply Nat.ltb_ge in Hz; lia|].
    by apply bool_decide_eq_false in Hz.
Qed.

(** An epoch, the fencing token of a registration, has one spelling: two texts
    that parse to the same epoch are equal, and the epoch is a positive 64-bit
    number. *)
Theorem epoch_has_one_spelling s1 s2 e :
  epoch_parse s1 = Some e → epoch_parse s2 = Some e → s1 = s2 ∧ (0 < epoch_get e ≤ u64_max)%Z.
Proof.
  intros (C1 & V1 & Hr)%epoch_parse_some (C2 & V2 & _)%epoch_parse_some. split; [|done].
  apply as_bytes_inj. change (value_from 0 (as_bytes s1) = epoch_get e) in V1.
  change (value_from 0 (as_bytes s2) = epoch_get e) in V2.
  apply value_inj_length; [apply C1|apply C2| |congruence].
  apply Nat.le_antisymm; apply canonical_length; done || congruence.
Qed.

(** ** Concrete inputs *)

Module Samples.

Definition canonicalize (p : PathBuf) : option PathBuf :=
  if decide (p = "notes.md") then Some "/work/notes.md"
  else if decide (p = "/work") then Some "/work" else None.

Definition letter : MessagePayload :=
  MkMessagePayload "hello" (VObject []) [FileReference_new "notes.md"].

Definition letter_checked : ValidatedPayload :=
  MkValidatedPayload "hello" (VObject []) [FileReference_new "/work/notes.md"].

Definition sample_uuid : string := "01890a5d-ac96-774b-bcce-b302099a8057".

#[local] Instance one_uuid : UuidLib := {|
  Uuid := ();
  uuid_parse_str s := if decide (s = sample_uuid) then Some tt else None;
  uuid_version_num _ := 7%Z;
  uuid_is_rfc4122 _ := true;
  uuid_to_string _ := sample_uuid;
|}.

Lemma accepted_files_are_inside_witness :
  ∃ root, canonicalize "/work" = Some root ∧
    Forall2 (resolved_inside canonicalize root) (msg_file_refs letter) (vp_file_refs letter_checked).
Proof.
  destruct (accepted_files_are_inside canonicalize letter "/work" letter_checked)
    as (_ & _ & [[Hnil _]|Hin]); [by vm_compute|done|exact Hin].
Defined.

Lemma accepted_payload_is_persistable_witness : validate_persisted_payload letter_checked = Done tt.
Proof.
  apply (accepted_payload_is_persistable canonicalize letter "/work"); [by vm_compute|].
  constructor; [by vm_compute|constructor].
Defined.

Lemma parsed_ids_are_canonical_witness :
  RegistrationId_parse sample_uuid = Done (MkRegistrationId sample_uuid).
Proof.
  destruct (parsed_ids_are_canonical (λ u, match u with tt => eq_refl end) sample_uuid) as [Hreg _].
  apply (Hreg (MkRegistrationId sample_uuid)). by vm_compute.
Defined.

Lemma epoch_has_one_spelling_witness :
  "42" = "42" ∧ (0 < epoch_get (MkRegistrationEpoch 42) ≤ u64_max)%Z.
Proof. apply epoch_has_one_spelling; by vm_compute. Defined.

End Samples.
