(* ===== verification/Sqlite.v ===== *)
(** * A SQLite connection

    [rusqlite] and SQLite are not part of the repository.  A connection over tables
    of type [T] is the committed tables, the working copy of an open transaction, the
    number of statements issued and the poison flag of the mutex around it.  Every
    statement can fail, as the fault oracle decides; a statement that fails has no
    effect; a transaction that is dropped without a commit is rolled back. *)
From stdpp Require Import prelude gmap strings sorting.
From S2P Require Import Prelude.

(** [rusqlite::Error], and the code of a failure that SQLite itself reports. *)
Inductive ErrorCode := ConstraintViolation | OtherErrorCode (code : Z).

#[global] Instance ErrorCode_eq_dec : EqDecision ErrorCode.
Proof. solve_decision. Defined.

Class Rusqlite := {
  SqlError : Type;
  sqlite_failure : SqlError → option ErrorCode;
  sql_error_display : SqlError → string;
  unique_violation : SqlError;
  check_violation : SqlError;
  query_returned_no_rows : SqlError;
}.

(** The documented code of a violated [UNIQUE] or [PRIMARY KEY] constraint. *)
Class RusqliteSpec `{Rusqlite} : Prop := {
  unique_is_constraint : sqlite_failure unique_violation = Some ConstraintViolation;
}.

Record Conn (T : Type) := MkConn {
  committed : T;
  working : option T;
  sql_calls : nat;
  poisoned : bool;
}.
Arguments MkConn {T} _ _ _ _.
Arguments committed {T} _.
Arguments working {T} _.
Arguments sql_calls {T} _.
Arguments poisoned {T} _.

#[global] Instance Conn_fields {T} : Fields (Conn T) := λ d,
  MkConn (committed d) (working d) (sql_calls d) (poisoned d).

(** The errors of a client of the connection. *)
Class SqlClient `{Rusqlite} (E : Type) := {
  sql_failed : SqlError → E;
  mutex_poisoned : E;
  worker_failed : E;
}.

Section connection.
Context `{Rusqlite} {T E : Type} {client : SqlClient E} (fault : nat → option SqlError).

Abbreviation M := (ST (Conn T) E).

(** A statement that may fail. *)
Definition sql_step : M () := λ db,
  let db' := db <| sql_calls ::= S |> in
  match fault (sql_calls db) with
  | Some e => (Fail (sql_failed e), db')
  | None => (Done tt, db')
  end.

(** The tables a statement sees. *)
Definition visible (db : Conn T) : T := default (committed db) (working db).

(** A write goes to the open transaction, or is committed at once. *)
Definition write (f : T → T) (db : Conn T) : Conn T :=
  match working db with
  | Some t => db <| working := Some (f t) |>
  | None => db <| committed := f (committed db) |>
  end.

(** A statement that reads and one that writes. *)
Definition query {A} (f : T → A) : M A :=
  let! _ := sql_step in
  st_gets (λ db, f (visible db)).

Definition execute (f : T → T) : M () :=
  let! _ := sql_step in
  st_modify (write f).

(** [transaction_with_behavior(Immediate)], [Transaction::commit], and the rollback
    when a [Transaction] is dropped. *)
Definition begin_immediate : M () :=
  let! _ := sql_step in
  st_modify (λ db, db <| working := Some (committed db) |>).

Definition commit_transaction : M () :=
  let! _ := sql_step in
  st_modify (λ db, db <| committed := visible db |> <| working := None |>).

Definition drop_transaction {A} (body : M A) : M A := λ db,
  let '(r, db') := body db in (r, db' <| working := None |>).

Definition in_transaction {A} (body : M A) : M A :=
  drop_transaction (let! _ := begin_immediate in body).

(** [connection.lock().map_err(..)] *)
Definition lock_connection : M () :=
  let! db := st_get in
  st_lift (reject_if (poisoned db) mutex_poisoned).

(** [spawn_blocking(..).await.map_err(..)?] around a closure that locks the
    connection first and holds it: a panic poisons the mutex. *)
Definition spawn_blocking {A} (body : M A) : M A := λ db,
  match (let! _ := lock_connection in body) db with
  | (Panic _, db') => (Fail worker_failed, db' <| poisoned := true |>)
  | r => r
  end.

(** ** Reasoning

    [holds t o db]: [t] is committed and [o] is the state of the transaction. *)
Definition holds (t : T) (o : option T) (db : Conn T) : Prop :=
  committed db = t ∧ working db = o.

Lemma holds_visible t o db : holds t o db → visible db = default t o.
Proof. intros [<- <-]. done. Qed.

Lemma wp_sql_step t o (Q : () → Conn T → Prop) X db :
  holds t o db →
  (∀ db', holds t o db' → Q tt db') → (∀ e db', holds t o db' → X (sql_failed e) db') →
  wp sql_step Q X db.
Proof.
  intros [Ht Ho] HQ HX. unfold wp, sql_step. destruct (fault (sql_calls db)); [by apply HX|by apply HQ].
Qed.

Lemma wp_query {A} t o (f : T → A) Q X db :
  holds t o db →
  (∀ db', holds t o db' → Q (f (default t o)) db') →
  (∀ e db', holds t o db' → X (sql_failed e) db') →
  wp (query f) Q X db.
Proof.
  intros Hdb HQ HX. unfold query. wp_step. eapply wp_sql_step; [exact Hdb| |done].
  intros db' Hdb'. apply wp_gets. rewrite (holds_visible _ _ _ Hdb'). by apply HQ.
Qed.

Lemma wp_execute t w (f : T → T) (Q : () → Conn T → Prop) X db :
  holds t (Some w) db →
  (∀ db', holds t (Some (f w)) db' → Q tt db') →
  (∀ e db', holds t (Some w) db' → X (sql_failed e) db') →
  wp (execute f) Q X db.
Proof.
  intros Hdb HQ HX. unfold execute. wp_step. eapply wp_sql_step; [exact Hdb| |done].
  intros db' [Ht Hw]. apply wp_modify, HQ. unfold write. rewrite Hw. done.
Qed.

Lemma wp_commit t w (Q : () → Conn T → Prop) X db :
  holds t (Some w) db →
  (∀ db', holds w None db' → Q tt db') →
  (∀ e db', holds t (Some w) db' → X (sql_failed e) db') →
  wp commit_transaction Q X db.
Proof.
  intros Hdb HQ HX. unfold commit_transaction. wp_step. eapply wp_sql_step; [exact Hdb| |done].
  intros db' Hdb'. apply wp_modify, HQ. split; [|done]. simpl.
  by rewrite (holds_visible _ _ _ Hdb').
Qed.

(** A transaction body runs on a copy; what it leaves uncommitted is gone. *)
Lemma wp_in_transaction {A} t (body : M A) (Q : A → Conn T → Prop) X db :
  holds t None db →
  (∀ db', holds t (Some t) db' →
     wp body (λ a db'', Q a (db'' <| working := None |>)) (λ e db'', X e (db'' <| working := None |>)) db') →
  (∀ e db', holds t None db' → X (sql_failed e) db') →
  wp (in_transaction body) Q X db.
Proof.
  intros Hdb Hbody HX.
  assert (wp (let! _ := begin_immediate in body)
    (λ a db'', Q a (db'' <| working := None |>)) (λ e db'', X e (db'' <| working := None |>)) db) as Hin.
  { wp_step. unfold begin_immediate. wp_step. eapply wp_sql_step; [exact Hdb| |].
    - intros db' [Ht Hw]. apply wp_modify, Hbody. split; [done|]. simpl. by rewrite Ht.
    - intros e db' [Ht Hw]. by apply HX. }
  unfold wp, in_transaction, drop_transaction in *.
  by destruct (st_bind begin_immediate _ db) as [[] ?].
Qed.

Lemma wp_lock (Q : () → Conn T → Prop) X db :
  (poisoned db = false → Q tt db) → (poisoned db = true → X mutex_poisoned db) →
  wp lock_connection Q X db.
Proof. intros HQ HX. unfold lock_connection. wp_steps. apply wp_reject_if; auto. Qed.

Lemma wp_spawn_blocking {A} (body : M A) Q X db :
  X mutex_poisoned db → wp body Q X db → wp (spawn_blocking body) Q X db.
Proof.
  intros HX Hbody.
  assert (wp (let! _ := lock_connection in body) Q X db) as Hin
    by (wp_step; apply wp_lock; done).
  unfold wp, spawn_blocking in *. by destruct (st_bind lock_connection _ db) as [[] ?].
Qed.

(** ** Progress: a quiet database

    [ready]: no statement fails and the mutex is not poisoned. *)
Definition ready (t : T) (o : option T) (db : Conn T) : Prop :=
  holds t o db ∧ poisoned db = false.

Section quiet.
Hypothesis quiet : ∀ n, fault n = None.

Lemma wp_sql_quiet t o (Q : () → Conn T → Prop) X db :
  ready t o db → (∀ db', ready t o db' → Q tt db') → wp sql_step Q X db.
Proof. intros [[Ht Ho] Hp] HQ. unfold wp, sql_step. rewrite quiet. by apply HQ. Qed.

Lemma wp_query_quiet {A} t o (f : T → A) Q X db :
  ready t o db → (∀ db', ready t o db' → Q (f (default t o)) db') → wp (query f) Q X db.
Proof.
  intros Hdb HQ. unfold query. wp_step. eapply wp_sql_quiet; [exact Hdb|].
  intros db' Hdb'. apply wp_gets. rewrite (holds_visible t o) by apply Hdb'. by apply HQ.
Qed.

Lemma wp_execute_quiet t w f (Q : () → Conn T → Prop) X db :
  ready t (Some w) db → (∀ db', ready t (Some (f w)) db' → Q tt db') → wp (execute f) Q X db.
Proof.
  intros Hdb HQ. unfold execute. wp_step. eapply wp_sql_quiet; [exact Hdb|].
  intros db' [[Ht Hw] Hp]. apply wp_modify, HQ. unfold write. rewrite Hw. done.
Qed.

Lemma wp_commit_quiet t w (Q : () → Conn T → Prop) X db :
  ready t (Some w) db → (∀ db', ready w None db' → Q tt db') → wp commit_transaction Q X db.
Proof.
  intros Hdb HQ. unfold commit_transaction. wp_step. eapply wp_sql_quiet; [exact Hdb|].
  intros db' [Hh Hp]. apply wp_modify, HQ. split; [split; [|done]|done]. simpl.
  by rewrite (holds_visible _ _ _ Hh).
Qed.

Lemma wp_transaction_quiet {A} t (body : M A) (Q : A → Conn T → Prop) X db :
  ready t None db →
  (∀ db', ready t (Some t) db' →
     wp body (λ a db'', Q a (db'' <| working := None |>)) (λ e db'', X e (db'' <| working := None |>)) db') →
  wp (in_transaction body) Q X db.
Proof.
  intros Hdb Hbody.
  assert (wp (let! _ := begin_immediate in body)
    (λ a db'', Q a (db'' <| working := None |>)) (λ e db'', X e (db'' <| working := None |>)) db) as Hin.
  { wp_step. unfold begin_immediate. wp_step. eapply wp_sql_quiet; [exact Hdb|].
    intros db' [[Ht Hw] Hp]. apply wp_modify, Hbody. split; [split; [done|]|done]. simpl. by rewrite Ht. }
  unfold wp, in_transaction, drop_transaction in *.
  by destruct (st_bind begin_immediate _ db) as [[] ?].
Qed.

Lemma wp_lock_quiet t o (Q : () → Conn T → Prop) X db : ready t o db → Q tt db → wp lock_connection Q X db.
Proof. intros [_ Hp] HQ. apply wp_lock; [done|congruence]. Qed.

Lemma wp_spawn_quiet {A} t o (body : M A) Q X db :
  ready t o db → wp body Q X db → wp (spawn_blocking body) Q X db.
Proof.
  intros Hdb Hbody.
  assert (wp (let! _ := lock_connection in body) Q X db) as Hin
    by (wp_step; by eapply wp_lock_quiet).
  unfold wp, spawn_blocking in *. by destruct (st_bind lock_connection _ db) as [[] ?].
Qed.
End quiet.
End connection.
