(* ===== verification/Identity.v ===== *)
(** * Durable agent identities

    [herdr-a2a-broker/src/identity.rs]: the table [agent_identities] that gives
    every (workspace, pane, harness, harness session) a canonical name, the
    allocator of those names and the checks made when the table is opened.

    The connection is the one of [Sqlite].  The [UNIQUE] and [PRIMARY KEY]
    constraints of [IDENTITY_SCHEMA] are the guard of the insertion. *)
From stdpp Require Import prelude gmap strings sorting.
From S2P Require Import Prelude RustStd Model Validation Sqlite.

Definition MAX_IDENTITY_FIELD_BYTES : nat := 1024.
Definition MAX_WORKSPACE_ID_BYTES : nat := 256.
Definition RANDOM_SUFFIX_BYTES : nat := 6.
Definition MAX_ALLOCATION_ATTEMPTS : nat := 8.
Definition BASE32 : list Z := as_bytes "abcdefghijklmnopqrstuvwxyz234567".

Inductive IdentityError `{Rusqlite} :=
| Sqlite (error : SqlError)
| InvalidData (message : string)
| WorkspaceMismatch
| AllocationExhausted
| WorkerFailed.

(** [impl Display for IdentityError] *)
Definition IdentityError_display `{Rusqlite} (e : IdentityError) : string :=
  match e with
  | Sqlite error => "identity database failed: " +:+ sql_error_display error
  | InvalidData message => "identity data is invalid: " +:+ message
  | WorkspaceMismatch => "identity workspace does not match broker workspace"
  | AllocationExhausted => "canonical identity collision retry limit reached"
  | WorkerFailed => "identity database worker failed"
  end.

(** [impl Error for IdentityError] *)
Definition IdentityError_source `{Rusqlite} (e : IdentityError) : option SqlError :=
  match e with Sqlite error => Some error | _ => None end.

Definition is_constraint_violation `{Rusqlite} (e : SqlError) : bool :=
  bool_decide (sqlite_failure e = Some ConstraintViolation).

#[global] Instance identity_client `{Rusqlite} : SqlClient IdentityError := {|
  sql_failed := Sqlite;
  mutex_poisoned := InvalidData "database mutex is poisoned";
  worker_failed := WorkerFailed;
|}.

(** ** Names *)

(** The value of a lower-case hexadecimal digit. *)
Definition hex_nibble (byte : Z) : option Z :=
  if in_range 48 57 byte then Some (byte - 48)%Z
  else if in_range 97 102 byte then Some (byte - 97 + 10)%Z
  else None.

(** [RandomSuffix::suffix] for the identifier [RegistrationId::new] returns. *)
Definition RandomSuffix_suffix `{Rusqlite} (id : RegistrationId) : Outcome IdentityError string :=
  let nibbles := take RANDOM_SUFFIX_BYTES (omap hex_nibble (reverse (as_bytes (rid_str id)))) in
  let? _ := reject_if (negb (length nibbles =? RANDOM_SUFFIX_BYTES)%nat)
              (InvalidData "random UUID did not contain enough entropy") in
  let? bytes := try_map (λ nibble, expect (BASE32 !! Z.to_nat nibble) "index out of bounds")
                  nibbles in
  Done (string_of_bytes bytes).

Definition hyphen : Z := 45.
Definition MAX_SLUG_BYTES : nat := 25.

(** One character of the loop of [canonical_slug]; the state is [slug] and
    [separator]. *)
Definition slug_step (state : list Z * bool) (character : Z) : list Z * bool :=
  let '(slug, separator) := state in
  if is_ascii_alphanumeric character then
    let slug :=
      if separator && negb (bool_decide (slug = [])) && (length slug <? MAX_SLUG_BYTES)%nat
      then slug ++ [hyphen] else slug in
    let slug :=
      if (length slug <? MAX_SLUG_BYTES)%nat
      then slug ++ [to_ascii_lowercase character] else slug in
    (slug, false)
  else (slug, true).

(** [while slug.ends_with('-') { slug.pop(); }], on the reversed slug. *)
Fixpoint pop_hyphens (rev_slug : list Z) : list Z :=
  match rev_slug with
  | [] => []
  | b :: l => if (b =? hyphen)%Z then pop_hyphens l else rev_slug
  end.

Definition canonical_slug (label : option string) : string :=
  let '(slug, _) := foldl slug_step ([], false) (chars (default "" label)) in
  let slug := reverse (pop_hyphens (reverse slug)) in
  match slug with
  | first :: _ => if is_ascii_lowercase first then string_of_bytes slug else "agent"
  | [] => "agent"
  end.

(** [str::strip_prefix] *)
Fixpoint strip_prefix (prefix s : string) : option string :=
  match prefix, s with
  | EmptyString, _ => Some s
  | String a prefix, String b s => if Ascii.eqb a b then strip_prefix prefix s else None
  | String _ _, EmptyString => None
  end.

Section checks.
Context `{Rusqlite}.

Definition validate_field (label value : string) (maximum : nat) : Outcome IdentityError () :=
  if (str_len value =? 0)%nat || (maximum <? str_len value)%nat
     || existsb is_control (chars value)
  then Fail (InvalidData (label +:+ " is invalid"))
  else Done tt.

Definition validate_workspace_id (workspace_id : string) : Outcome IdentityError () :=
  validate_field "workspace ID" workspace_id MAX_WORKSPACE_ID_BYTES.

Definition validate_pane (pane : VerifiedPane) (harness_session_id : string)
    : Outcome IdentityError () :=
  let? _ := validate_workspace_id (pane_workspace_id pane) in
  let? _ := validate_field "pane ID" (pane_pane_id pane) MAX_IDENTITY_FIELD_BYTES in
  let? _ := validate_field "harness" (pane_harness pane) MAX_IDENTITY_FIELD_BYTES in
  validate_field "harness session ID" harness_session_id MAX_IDENTITY_FIELD_BYTES.

Definition validate_suffix (suffix : string) : Outcome IdentityError () :=
  reject_if
    (negb ((4 <=? str_len suffix) && (str_len suffix <=? 8))%nat
     || negb (forallb (λ byte, is_ascii_lowercase byte || in_range 50 55 byte)
                (as_bytes suffix)))
    (InvalidData "identity suffix is not bounded base32").

Definition canonical_name_from_parts (original_role_slug suffix : string)
    : Outcome IdentityError AgentName :=
  let? _ := reject_if (negb (String.eqb (canonical_slug (Some original_role_slug))
                               original_role_slug))
              (InvalidData "identity original role slug is invalid") in
  let? _ := validate_suffix suffix in
  map_err (InvalidData "constructed canonical name is invalid")
    (AgentName_parse (original_role_slug +:+ "-" +:+ suffix)).

Definition validate_canonical_name (canonical_name original_role_slug : string)
    : Outcome IdentityError () :=
  let? suffix :=
    ok_or (strip_prefix original_role_slug canonical_name ≫= strip_prefix "-")
      (InvalidData "stored canonical name does not match its original role slug") in
  let? expected := canonical_name_from_parts original_role_slug suffix in
  reject_if (negb (String.eqb (agent_str expected) canonical_name))
    (InvalidData "stored canonical name is not in allocator form").

Definition stored_role (current_role : string) : Outcome IdentityError RoleLabel :=
  map_err (InvalidData "stored role is invalid") (RoleLabel_parse current_role).

Definition identity_from_parts (pane : VerifiedPane)
    (harness_session_id canonical_name original_role_slug current_role : string)
    : Outcome IdentityError AgentIdentity :=
  let? name := map_err (InvalidData "stored canonical name is invalid")
                 (AgentName_parse canonical_name) in
  let? role := stored_role current_role in
  Done {|
    canonical_name := name;
    original_role_slug := original_role_slug;
    current_role := role;
    identity_pane_id := pane_pane_id pane;
    identity_harness := pane_harness pane;
    identity_harness_session_id := harness_session_id;
    identity_workspace_id := pane_workspace_id pane;
  |}.
End checks.

(** ** The table *)

Record IdentityRow := MkIdentityRow {
  row_workspace_id : string;
  row_pane_id : string;
  row_harness : string;
  row_harness_session_id : string;
  row_canonical_name : string;
  row_original_role_slug : string;
  row_current_role : string;
}.

#[global] Instance IdentityRow_eq_dec : EqDecision IdentityRow.
Proof. solve_decision. Defined.

#[global] Instance IdentityRow_fields : Fields IdentityRow := λ r,
  MkIdentityRow (row_workspace_id r) (row_pane_id r) (row_harness r)
    (row_harness_session_id r) (row_canonical_name r) (row_original_role_slug r)
    (row_current_role r).

(** The primary key. *)
Definition IdentityKey : Type := (string * string * string * string)%type.

Definition row_key (r : IdentityRow) : IdentityKey :=
  (row_workspace_id r, row_pane_id r, row_harness r, row_harness_session_id r).

Definition pane_key (pane : VerifiedPane) (harness_session_id : string) : IdentityKey :=
  (pane_workspace_id pane, pane_pane_id pane, pane_harness pane, harness_session_id).

(** The shared connection, and its committed rows. *)
Definition IdentityDb : Type := Conn (list IdentityRow).
Definition identities (db : IdentityDb) : list IdentityRow := committed db.

Record IdentityStore := MkIdentityStore {
  expected_workspace_id : option string;
}.

Section store.
Context `{Rusqlite} (fault : nat → option SqlError).

Abbreviation M := (ST IdentityDb IdentityError).

Definition execute_insert (row : IdentityRow) : M () :=
  let! rows := query fault id in
  let! _ := st_lift (reject_if
              (existsb (λ r, bool_decide (row_key r = row_key row)
                             || bool_decide (row_canonical_name r = row_canonical_name row))
                 rows)
              (Sqlite unique_violation)) in
  st_modify (write (λ rows, rows ++ [row])).

Definition set_role (key : IdentityKey) (role : string) (r : IdentityRow) : IdentityRow :=
  if decide (row_key r = key) then r <| row_current_role := role |> else r.

Definition execute_update (key : IdentityKey) (role : string) : M () :=
  execute fault (fmap (set_role key role)).

(** [query_row(..).optional()]: the first row the predicate selects. *)
Definition query_row (p : IdentityRow → bool) : M (option IdentityRow) :=
  query fault (λ rows, head (filter (λ r, p r = true) rows)).

(** ** Opening *)

Fixpoint validate_each (expected_workspace : option string) (rows : list IdentityRow)
    (workspaces : gset string) : M (gset string) :=
  match rows with
  | [] => st_ret workspaces
  | row :: rows =>
      let! _ := sql_step fault in
      let! _ := st_lift (validate_workspace_id (row_workspace_id row)) in
      let! _ := st_lift (validate_field "pane ID" (row_pane_id row) MAX_IDENTITY_FIELD_BYTES) in
      let! _ := st_lift (validate_field "harness" (row_harness row) MAX_IDENTITY_FIELD_BYTES) in
      let! _ := st_lift (validate_field "harness session ID" (row_harness_session_id row)
                           MAX_IDENTITY_FIELD_BYTES) in
      let! _ := st_lift (validate_canonical_name (row_canonical_name row)
                           (row_original_role_slug row)) in
      let! _ := st_lift (stored_role (row_current_role row)) in
      let! _ := st_lift (reject_if
                  (match expected_workspace with
                   | Some workspace => negb (String.eqb workspace (row_workspace_id row))
                   | None => false
                   end) WorkspaceMismatch) in
      validate_each expected_workspace rows ({[ row_workspace_id row ]} ∪ workspaces)
  end.

Definition validate_rows (expected_workspace : option string) : M () :=
  let! _ := sql_step fault in
  let! _ := sql_step fault in
  let! rows := st_gets visible in
  let! workspaces := validate_each expected_workspace rows ∅ in
  st_lift (reject_if (1 <? size workspaces)%nat WorkspaceMismatch).

(** [from_shared_connection_with_suffix]; a database without the table has no
    rows, and creating the table adds none. *)
Definition from_shared_connection : M IdentityStore :=
  let! _ := lock_connection in
  let! _ := sql_step fault in
  let! _ := validate_rows None in
  st_ret (MkIdentityStore None).

Definition for_workspace (workspace_id : string) : M IdentityStore :=
  let! _ := st_lift (validate_workspace_id workspace_id) in
  let! _ := lock_connection in
  let! _ := validate_rows (Some workspace_id) in
  st_ret (MkIdentityStore (Some workspace_id)).

(** ** Resolving *)

Definition other_workspace (workspace_id : option string) (pane : VerifiedPane) : bool :=
  match workspace_id with
  | Some workspace_id => negb (String.eqb workspace_id (pane_workspace_id pane))
  | None => false
  end.

(** The allocation loop; [suffix_source] gives the outcome of the successive calls
    of [SuffixSource::suffix]. *)
Fixpoint allocate (suffix_source : nat → Outcome IdentityError string) (pane : VerifiedPane)
    (harness_session_id slug : string) (attempts : nat) (call : nat) : M AgentIdentity :=
  match attempts with
  | 0 => st_fail AllocationExhausted
  | S attempts =>
      let! suffix := st_lift (suffix_source call) in
      let! name := st_lift (canonical_name_from_parts slug suffix) in
      let row := MkIdentityRow (pane_workspace_id pane) (pane_pane_id pane) (pane_harness pane)
                   harness_session_id (agent_str name) slug (role_str (pane_role pane)) in
      λ db, match execute_insert row db with
      | (Done _, db) =>
          (let! _ := commit_transaction fault in
           st_ret {|
             canonical_name := name;
             original_role_slug := slug;
             current_role := pane_role pane;
             identity_pane_id := pane_pane_id pane;
             identity_harness := pane_harness pane;
             identity_harness_session_id := harness_session_id;
             identity_workspace_id := pane_workspace_id pane;
           |}) db
      | (Fail (Sqlite error), db) =>
          if is_constraint_violation error
          then allocate suffix_source pane harness_session_id slug attempts (S call) db
          else (Fail (Sqlite error), db)
      | (Fail error, db) => (Fail error, db)
      | (Panic msg, db) => (Panic msg, db)
      end
  end.

(** The closure of [resolve_or_create] once the transaction is open. *)
Definition resolve_in_transaction (suffix_source : nat → Outcome IdentityError string)
    (pane : VerifiedPane) (harness_session_id : string) : M AgentIdentity :=
  let! existing_workspace := query_row (λ _, true) in
  let! _ := st_lift (reject_if (other_workspace (row_workspace_id <$> existing_workspace) pane)
                       WorkspaceMismatch) in
  let! existing := query_row (λ r, bool_decide (row_key r = pane_key pane harness_session_id)) in
  match existing with
  | Some existing =>
      let! _ := execute_update (pane_key pane harness_session_id) (role_str (pane_role pane)) in
      let! _ := commit_transaction fault in
      st_lift (identity_from_parts pane harness_session_id (row_canonical_name existing)
                 (row_original_role_slug existing) (role_str (pane_role pane)))
  | None =>
      allocate suffix_source pane harness_session_id
        (canonical_slug (Some (role_str (pane_role pane)))) MAX_ALLOCATION_ATTEMPTS 0
  end.

Definition resolve_or_create (self : IdentityStore)
    (suffix_source : nat → Outcome IdentityError string)
    (pane : VerifiedPane) (harness_session_id : string) : M AgentIdentity :=
  let! _ := st_lift (validate_pane pane harness_session_id) in
  let! _ := st_lift (reject_if (other_workspace (expected_workspace_id self) pane)
                       WorkspaceMismatch) in
  spawn_blocking (
    in_transaction fault (resolve_in_transaction suffix_source pane harness_session_id)).

Definition find_by_canonical (name : AgentName) : M (option AgentIdentity) :=
  spawn_blocking (
    let! found := query_row (λ r, bool_decide (row_canonical_name r = agent_str name)) in
    match found with
    | None => st_ret None
    | Some row =>
        let! role := st_lift (stored_role (row_current_role row)) in
        st_ret (Some {|
          canonical_name := name;
          original_role_slug := row_original_role_slug row;
          current_role := role;
          identity_pane_id := row_pane_id row;
          identity_harness := row_harness row;
          identity_harness_session_id := row_harness_session_id row;
          identity_workspace_id := row_workspace_id row;
        |})
    end).
End store.
