(* ===== verification/IdentityNames.v ===== *)
(** * Slugs and canonical names

    The slug of a role label is canonical: it has one shape and slugging it again
    changes nothing.  A slug and a suffix of the allocator make a name that is
    accepted now and when it is read back. *)
From stdpp Require Import prelude gmap strings sorting.
From S2P Require Import Prelude RustStd Model Validation Sqlite Identity.

(** ** Slugs *)

Definition slug_letter (b : Z) : Prop := (97 ≤ b ≤ 122)%Z.
Definition slug_digit (b : Z) : Prop := (48 ≤ b ≤ 57)%Z.
Definition slug_byte (b : Z) : Prop := slug_letter b ∨ slug_digit b ∨ b = hyphen.

(** Every hyphen follows a byte that is not one. *)
Definition isolated (l : list Z) : Prop :=
  ∀ i, l !! i = Some hyphen → ∃ j b, i = S j ∧ l !! j = Some b ∧ b ≠ hyphen.

(** A lower-case letter first, then letters, digits and single hyphens between
    them; at most 25 bytes. *)
Record Slug (l : list Z) : Prop := {
  slug_first : ∃ b rest, l = b :: rest ∧ slug_letter b;
  slug_length : length l ≤ MAX_SLUG_BYTES;
  slug_bytes : Forall slug_byte l;
  slug_isolated : isolated l;
  slug_last : last l ≠ Some hyphen;
}.

Definition trim (l : list Z) : list Z := reverse (pop_hyphens (reverse l)).

Lemma isolated_snoc l b :
  isolated (l ++ [b]) ↔ isolated l ∧ (b = hyphen → l ≠ [] ∧ last l ≠ Some hyphen).
Proof.
  split.
  - intros Hiso. split.
    + intros i Hi. destruct (Hiso i) as (j & c & -> & Hj & Hc); [by apply lookup_app_l_Some|].
      exists j, c. split_and!; [done| |done]. apply lookup_lt_Some in Hi.
      by rewrite lookup_app_l in Hj by lia.
    + intros ->. destruct (Hiso (length l)) as (j & c & Hlen & Hj & Hc); [by apply list_lookup_middle|].
      rewrite lookup_app_l in Hj by lia. split; [by intros ->|].
      rewrite last_lookup, Hlen. simpl. congruence.
  - intros [Hiso Hb] i [Hi|[Hge Hi]]%lookup_app_Some.
    + destruct (Hiso i Hi) as (j & c & -> & Hj & Hc). exists j, c.
      split_and!; [done|by apply lookup_app_l_Some|done].
    + apply list_lookup_singleton_Some in Hi as [Hz ->]. destruct (Hb eq_refl) as [Hne Hlast].
      assert (i = length l) as -> by lia.
      destruct (lookup_lt_is_Some_2 l (length l - 1)) as [c Hc]; [destruct l; [done|simpl; lia]|].
      exists (length l - 1), c. split_and!; [destruct l; [done|simpl; lia]|by apply lookup_app_l_Some|].
      intros ->. apply Hlast. rewrite last_lookup. rewrite <-Hc. f_equal. lia.
Qed.

Lemma isolated_prefix l k : isolated (l ++ k) → isolated l.
Proof.
  intros Hiso. induction k as [|b k IH] using rev_ind; [by rewrite app_nil_r in Hiso|].
  rewrite app_assoc in Hiso. by apply isolated_snoc in Hiso as [? _]; auto.
Qed.

Lemma trim_snoc_hyphen l : trim (l ++ [hyphen]) = trim l.
Proof. unfold trim. by rewrite reverse_snoc. Qed.

Lemma trim_snoc l b : b ≠ hyphen → trim (l ++ [b]) = l ++ [b].
Proof.
  intros Hb. unfold trim. rewrite reverse_snoc. simpl.
  destruct (Z.eqb_spec b hyphen); [done|]. by rewrite reverse_cons, reverse_involutive.
Qed.

Lemma trim_id l : last l ≠ Some hyphen → trim l = l.
Proof.
  destruct l as [|b l _] using rev_ind; [done|]. rewrite last_snoc. intros Hb.
  apply trim_snoc. congruence.
Qed.

Lemma trim_prefix l : ∃ k, l = trim l ++ k ∧ last (trim l) ≠ Some hyphen.
Proof.
  induction l as [|b l (k & IH & Hlast)] using rev_ind; [by exists []|].
  destruct (decide (b = hyphen)) as [->|Hb].
  - rewrite trim_snoc_hyphen. exists (k ++ [hyphen]). split; [|done].
    by rewrite IH at 1; rewrite <-app_assoc.
  - rewrite trim_snoc by done. exists []. rewrite app_nil_r, last_snoc. split; congruence.
Qed.

Lemma alphanumeric_lower c :
  is_ascii_alphanumeric c = true →
  slug_letter (to_ascii_lowercase c) ∨ slug_digit (to_ascii_lowercase c).
Proof.
  unfold is_ascii_alphanumeric, to_ascii_lowercase, is_ascii_digit, is_ascii_lowercase,
    is_ascii_uppercase, slug_letter, slug_digit.
  destruct ((65 <=? c) && (c <=? 90))%Z eqn:Hu; lia.
Qed.

Lemma not_hyphen b : slug_letter b ∨ slug_digit b → b ≠ hyphen.
Proof. unfold slug_letter, slug_digit, hyphen. lia. Qed.

(** The loop's invariant: a hyphen is last only when the slug is full. *)
Record Partial (l : list Z) : Prop := {
  partial_length : length l ≤ MAX_SLUG_BYTES;
  partial_bytes : Forall slug_byte l;
  partial_isolated : isolated l;
  partial_last : last l = Some hyphen → length l = MAX_SLUG_BYTES;
}.

Lemma partial_push l b :
  Partial l ∨ (∃ l0, l = l0 ++ [hyphen] ∧ Partial l0 ∧ l0 ≠ [] ∧ length l0 < MAX_SLUG_BYTES) →
  slug_letter b ∨ slug_digit b →
  Partial (if (length l <? MAX_SLUG_BYTES)%nat then l ++ [b] else l).
Proof.
  intros Hl Hb.
  assert (Forall slug_byte l ∧ isolated l ∧ length l ≤ MAX_SLUG_BYTES ∧
          (length l = MAX_SLUG_BYTES → Partial l)) as (Hbytes & Hiso & Hlen & Hfull).
  { destruct Hl as [[]|(l0 & -> & [Hlen0 Hb0 Hi0 Hlast0] & Hne & Hlt)]; [done|].
    assert (last l0 ≠ Some hyphen) by (intros ?%Hlast0; lia).
    assert (isolated (l0 ++ [hyphen])) by (by apply isolated_snoc).
    assert (Forall slug_byte (l0 ++ [hyphen]))
      by (apply Forall_app; split; [done|]; apply Forall_singleton; by right; right).
    rewrite length_app; simpl. split_and!; [done|done|lia|].
    intros Heq. split; rewrite ?length_app; simpl; [lia|done|done|done]. }
  destruct (Nat.ltb_spec (length l) MAX_SLUG_BYTES); [|apply Hfull; lia].
  split.
  - rewrite length_app. simpl. lia.
  - apply Forall_app; split; [done|]. apply Forall_singleton. unfold slug_byte. tauto.
  - apply isolated_snoc. split; [done|]. intros ->. by apply not_hyphen in Hb.
  - rewrite last_snoc. intros [= ->]. by apply not_hyphen in Hb.
Qed.

Lemma slug_step_partial state c : Partial state.1 → Partial (slug_step state c).1.
Proof.
  destruct state as [l sep]. unfold slug_step. simpl. intros Hl.
  destruct (is_ascii_alphanumeric c) eqn:Hc; [|done]. simpl.
  apply partial_push; [|by apply alphanumeric_lower].
  destruct (_ && _) eqn:Hsep; [|by left]. right. exists l.
  apply andb_true_iff in Hsep as [[_ Hne]%andb_true_iff Hlt].
  apply negb_true_iff, bool_decide_eq_false in Hne. apply Nat.ltb_lt in Hlt. done.
Qed.

Lemma slug_loop_partial cs state : Partial state.1 → Partial (foldl slug_step state cs).1.
Proof.
  revert state. induction cs as [|c cs IH]; intros state Hs; simpl; [done|].
  by apply IH, slug_step_partial.
Qed.

Lemma Partial_nil : Partial [].
Proof. split; [simpl; unfold MAX_SLUG_BYTES; lia|constructor| |done]. intros i Hi. done. Qed.

Lemma slug_ascii l : Forall slug_byte l → Forall ascii_range l.
Proof. intros Hl. eapply Forall_impl; [exact Hl|]. unfold slug_byte, slug_letter, slug_digit, hyphen, ascii_range. lia. Qed.

(** The loop keeps what is already canonical; at a hyphen the slug is one byte
    behind. *)
Lemma slug_loop_canonical l :
  isolated l → Forall slug_byte l → length l ≤ MAX_SLUG_BYTES →
  foldl slug_step ([], false) l = (trim l, bool_decide (last l = Some hyphen)).
Proof.
  induction l as [|b l IH] using rev_ind; intros Hiso Hbytes Hlen; [done|].
  apply isolated_snoc in Hiso as [Hiso Hprev]. apply Forall_app in Hbytes as [Hbytes Hb].
  rewrite length_app in Hlen. simpl in Hlen. rewrite foldl_snoc, IH by (done || lia).
  apply Forall_inv in Hb. rewrite last_snoc. unfold slug_step.
  destruct (decide (b = hyphen)) as [->|Hne].
  - destruct (Hprev eq_refl) as [_ Hlast]. rewrite trim_snoc_hyphen.
    by rewrite (bool_decide_eq_true_2 (Some hyphen = _)).
  - assert (slug_letter b ∨ slug_digit b) as Hal by (unfold slug_byte in Hb; tauto).
    assert (is_ascii_alphanumeric b = true ∧ to_ascii_lowercase b = b) as [-> ->].
    { unfold is_ascii_alphanumeric, to_ascii_lowercase, is_ascii_digit, is_ascii_lowercase,
        is_ascii_uppercase, slug_letter, slug_digit in *.
      destruct ((65 <=? b) && (b <=? 90))%Z eqn:Hu; lia. }
    rewrite trim_snoc by done.
    rewrite (bool_decide_eq_false_2 (Some b = _)) by congruence.
    destruct (decide (last l = Some hyphen)) as [Hlast|Hlast].
    + apply last_Some in Hlast as [l0 ->]. apply isolated_snoc in Hiso as [_ Hiso]. destruct (Hiso eq_refl) as [Hne0 Hlast0].
      rewrite length_app in Hlen. simpl in Hlen.
      rewrite trim_snoc_hyphen, trim_id, last_snoc by done.
      rewrite bool_decide_eq_true_2, bool_decide_eq_false_2 by done. simpl.
      destruct (Nat.ltb_spec (length l0) MAX_SLUG_BYTES); [|lia]. rewrite length_app; simpl.
      destruct (Nat.ltb_spec (length l0 + 1) MAX_SLUG_BYTES); [done|lia].
    + rewrite trim_id, bool_decide_eq_false_2 by done. simpl.
      destruct (Nat.ltb_spec (length l) MAX_SLUG_BYTES); [done|lia].
Qed.

Lemma canonical_slug_Slug label : Slug (as_bytes (canonical_slug label)).
Proof.
  assert (Slug (as_bytes "agent")) as Hagent.
  { change (as_bytes "agent") with [97; 103; 101; 110; 116]%Z.
    split; [by exists 97%Z, [103; 101; 110; 116]%Z|vm_compute; lia| | |by vm_compute].
    - repeat (apply Forall_cons; split; [left; unfold slug_letter; lia|]). constructor.
    - intros i Hi. do 5 (destruct i as [|i]; [by vm_compute in Hi|]). by vm_compute in Hi. }
  unfold canonical_slug.
  pose proof (slug_loop_partial (chars (default "" label)) ([], false) Partial_nil) as Hp.
  destruct (foldl _ _ _) as [l sep]. simpl in Hp.
  change (reverse (pop_hyphens (reverse l))) with (trim l).
  destruct (trim_prefix l) as (k & Hl & Hlast). destruct Hp as [Hlen Hbytes Hiso _].
  rewrite Hl in Hlen, Hbytes, Hiso. rewrite length_app in Hlen. apply Forall_app in Hbytes as [Hbytes _].
  apply isolated_prefix in Hiso.
  destruct (trim l) as [|b rest] eqn:Htrim; [done|].
  destruct (is_ascii_lowercase b) eqn:Hb; [|done].
  rewrite as_bytes_string_of_bytes by (by apply ascii_is_byte, slug_ascii).
  split; [|lia|done..]. exists b, rest. split; [done|].
  unfold is_ascii_lowercase, slug_letter in *. lia.
Qed.

Lemma canonical_slug_id s : Slug (as_bytes s) → canonical_slug (Some s) = s.
Proof.
  intros [(b & rest & Hs & Hb) Hlen Hbytes Hiso Hlast]. unfold canonical_slug. simpl.
  rewrite chars_ascii by (by apply slug_ascii). rewrite slug_loop_canonical by done.
  change (reverse (pop_hyphens (reverse ?l))) with (trim l). rewrite !trim_id by (rewrite ?trim_id; done).
  rewrite Hs. destruct (is_ascii_lowercase b) eqn:Hlow; [|unfold is_ascii_lowercase, slug_letter in *; lia].
  apply as_bytes_inj. rewrite <-Hs. by apply as_bytes_string_of_bytes, ascii_is_byte, slug_ascii.
Qed.

(** ** Names *)

Lemma AgentName_parse_Done s n : AgentName_parse s = Done n → n = MkAgentName s.
Proof.
  unfold AgentName_parse. destruct (as_bytes s); [done|]. destruct (_ || _ || _); [done|].
  by intros [= <-].
Qed.

Lemma RoleLabel_parse_Done s r : RoleLabel_parse s = Done r → r = MkRoleLabel s.
Proof. unfold RoleLabel_parse. destruct (_ || _ || _); [done|]. by intros [= <-]. Qed.

Lemma strip_prefix_app p s : strip_prefix p (p +:+ s) = Some s.
Proof. induction p as [|a p IH]; simpl; [by destruct s|]. by rewrite Ascii.eqb_refl. Qed.

Lemma try_map_all_done {E A B} (f : A → Outcome E B) (P : B → Prop) l :
  Forall (λ a, ∃ b, f a = Done b ∧ P b) l →
  ∃ bs, try_map f l = Done bs ∧ Forall P bs ∧ length bs = length l.
Proof.
  induction 1 as [|a l (b & Ha & Hb) _ (bs & Hbs & HP & Hlen)]; simpl; [by exists []|].
  exists (b :: bs). rewrite Ha, Hbs. simpl. split_and!; [done|by constructor|by f_equal].
Qed.

Section names.
Context `{Rusqlite}.

(** Every byte of an accepted suffix can stand in a name. *)
Lemma validate_suffix_bytes suffix :
  validate_suffix suffix = Done tt → forallb agent_name_byte (as_bytes suffix) = true.
Proof.
  unfold validate_suffix, reject_if. destruct (_ || _) eqn:Hs; [done|]. intros _.
  apply orb_false_iff in Hs as [_ Hs%negb_false_iff]. rewrite forallb_forall in Hs |- *.
  intros b Hb%Hs. unfold agent_name_byte, is_ascii_lowercase, is_ascii_digit, in_range in *. lia.
Qed.

Lemma slug_name_bytes l : Forall slug_byte l → forallb agent_name_byte l = true.
Proof.
  intros Hl. apply forallb_forall. intros b Hb%list_elem_of_In. rewrite Forall_forall in Hl.
  specialize (Hl b Hb). unfold slug_byte, slug_letter, slug_digit, hyphen, agent_name_byte,
    is_ascii_lowercase, is_ascii_digit in *. lia.
Qed.

(** A slug of at most 25 bytes, a hyphen and at most 6 bytes make a name. *)
Lemma canonical_name_accepts slug suffix :
  Slug (as_bytes slug) → validate_suffix suffix = Done tt → str_len suffix ≤ RANDOM_SUFFIX_BYTES →
  canonical_name_from_parts slug suffix = Done (MkAgentName (slug +:+ "-" +:+ suffix)).
Proof.
  intros Hslug Hsuffix Hlen. unfold canonical_name_from_parts.
  rewrite canonical_slug_id by done. rewrite String.eqb_refl, Hsuffix. simpl.
  destruct Hslug as [(b & rest & Hs & Hb) Hl Hbytes _ _]. unfold AgentName_parse.
  rewrite !as_bytes_app, Hs. simpl. rewrite !length_app. simpl. rewrite length_as_bytes.
  rewrite Hs in Hl, Hbytes. simpl in Hl. apply Forall_cons in Hbytes as [_ Hbytes].
  rewrite !forallb_app. simpl. pose proof (slug_name_bytes rest Hbytes) as ->.
  rewrite (validate_suffix_bytes suffix) by done.
  replace (is_ascii_lowercase b) with true
    by (symmetry; unfold is_ascii_lowercase, slug_letter in *; lia).
  unfold MAX_SLUG_BYTES, RANDOM_SUFFIX_BYTES in *.
  destruct (Nat.leb_spec (length rest + S (str_len suffix)) 31) as [_|Hbad]; [done|exfalso; lia].
Qed.

Lemma canonical_name_from_parts_Done slug suffix n :
  canonical_name_from_parts slug suffix = Done n →
  n = MkAgentName (slug +:+ "-" +:+ suffix) ∧ AgentName_parse (agent_str n) = Done n.
Proof.
  unfold canonical_name_from_parts. destruct (reject_if _ _); [|done..]. simpl.
  destruct (validate_suffix suffix); [|done..]. simpl. intros Hn%map_err_Done.
  pose proof (AgentName_parse_Done _ _ Hn) as ->. done.
Qed.

(** A name the allocator builds is accepted when it is read back. *)
Lemma canonical_name_roundtrip slug suffix n :
  canonical_name_from_parts slug suffix = Done n → validate_canonical_name (agent_str n) slug = Done tt.
Proof.
  intros Hn. destruct (canonical_name_from_parts_Done _ _ _ Hn) as [-> _].
  unfold validate_canonical_name. cbn [agent_str].
  rewrite strip_prefix_app. cbn [mbind option_bind]. rewrite strip_prefix_app. cbn [ok_or out_bind]. rewrite Hn.
  cbn [out_bind agent_str]. by rewrite String.eqb_refl.
Qed.

Lemma stored_name_parses name slug :
  validate_canonical_name name slug = Done tt → AgentName_parse name = Done (MkAgentName name).
Proof.
  unfold validate_canonical_name. destruct (ok_or _ _) as [suffix| |]; [|done..]. simpl.
  destruct (canonical_name_from_parts slug suffix) as [n| |] eqn:Hn; [|done..]. simpl.
  destruct (String.eqb_spec (agent_str n) name) as [<-|]; [|done].
  intros _. destruct (canonical_name_from_parts_Done _ _ _ Hn) as [-> Hp]. done.
Qed.

(** [RandomSuffix] draws an accepted suffix of six letters from an identifier with
    six hexadecimal digits. *)
Lemma random_suffix_total id :
  RANDOM_SUFFIX_BYTES ≤ length (omap hex_nibble (as_bytes (rid_str id))) →
  ∃ s, RandomSuffix_suffix id = Done s ∧ str_len s = RANDOM_SUFFIX_BYTES ∧ validate_suffix s = Done tt.
Proof.
  intros Hlen. unfold RandomSuffix_suffix.
  set (nibbles := take RANDOM_SUFFIX_BYTES (omap hex_nibble (reverse (as_bytes (rid_str id))))).
  assert (length nibbles = RANDOM_SUFFIX_BYTES) as Hn.
  { unfold nibbles. rewrite length_take. apply Nat.min_l.
    eapply Nat.le_trans; [exact Hlen|]. apply Nat.eq_le_incl, Permutation_length.
    by rewrite reverse_Permutation. }
  assert (Forall (λ n, 0 ≤ n < 16)%Z nibbles) as Hrange.
  { apply Forall_take, Forall_forall. intros n (b & _ & Hb)%list_elem_of_omap.
    unfold hex_nibble, in_range in Hb. repeat case_match; simplify_eq; lia. }
  rewrite Hn, Nat.eqb_refl. simpl.
  destruct (try_map_all_done (E := IdentityError)
    (λ nibble, expect (BASE32 !! Z.to_nat nibble) "index out of bounds")
    slug_letter nibbles) as (bs & -> & Hbs & Hlen').
  { eapply Forall_impl; [exact Hrange|]. intros n Hr. cbv beta in Hr |- *.
    assert (∀ k, k < 16 → ∃ b, BASE32 !! k = Some b ∧ slug_letter b) as Htab.
    { intros k Hk. unfold slug_letter. do 16 (destruct k as [|k]; [eexists; split; [vm_compute; reflexivity|lia]|]). lia. }
    destruct (Htab (Z.to_nat n)) as (b & Hb & Hl); [lia|]. exists b. by rewrite Hb. }
  simpl. eexists; split; [done|].
  assert (as_bytes (string_of_bytes bs) = bs) as Hbytes.
  { apply as_bytes_string_of_bytes. eapply Forall_impl; [exact Hbs|]. unfold slug_letter, byte_range. lia. }
  assert (str_len (string_of_bytes bs) = RANDOM_SUFFIX_BYTES) as Hsix
    by (rewrite <-length_as_bytes, Hbytes; congruence).
  split; [done|]. unfold validate_suffix. rewrite Hsix, Hbytes.
  replace (forallb _ bs) with true; [done|]. symmetry. apply forallb_forall.
  intros b Hb%list_elem_of_In. rewrite Forall_forall in Hbs. specialize (Hbs b Hb).
  unfold is_ascii_lowercase, slug_letter in *. lia.
Qed.
End names.
