(* ===== verification/IdentityTable.v ===== *)
(** * The identity table

    The table stays valid, a key keeps its canonical name for good and no two keys
    share one; an operation that fails leaves the table as it was; what was written
    is accepted when the table is opened again. *)
From stdpp Require Import prelude gmap strings sorting.
From S2P Require Import Prelude RustStd Model Validation Sqlite Identity IdentityNames.

(** The row of an identity. *)
Definition identity_row (id : AgentIdentity) : IdentityRow :=
  MkIdentityRow (identity_workspace_id id) (identity_pane_id id) (identity_harness id)
    (identity_harness_session_id id) (agent_str (canonical_name id)) (original_role_slug id)
    (role_str (current_role id)).

(** A role label that [RoleLabel::parse] produced. *)
Definition role_ok (r : RoleLabel) : Prop := RoleLabel_parse (role_str r) = Done r.

Section table.
Context `{Rusqlite}.
Implicit Types (rows : list IdentityRow) (row : IdentityRow).

Record RowOK (row : IdentityRow) : Prop := {
  row_workspace_ok : validate_workspace_id (row_workspace_id row) = Done tt;
  row_pane_ok : validate_field "pane ID" (row_pane_id row) MAX_IDENTITY_FIELD_BYTES = Done tt;
  row_harness_ok : validate_field "harness" (row_harness row) MAX_IDENTITY_FIELD_BYTES = Done tt;
  row_session_ok :
    validate_field "harness session ID" (row_harness_session_id row)
      MAX_IDENTITY_FIELD_BYTES = Done tt;
  row_name_ok :
    validate_canonical_name (row_canonical_name row) (row_original_role_slug row) = Done tt;
  row_role_ok : ∃ role, RoleLabel_parse (row_current_role row) = Done role;
}.

(** What the table satisfies: valid rows of one workspace, one row per key, one
    key per name. *)
Record TableOK (rows : list IdentityRow) : Prop := {
  table_rows : Forall RowOK rows;
  table_keys : NoDup (row_key <$> rows);
  table_names : NoDup (row_canonical_name <$> rows);
  table_workspace : ∀ r1 r2, r1 ∈ rows → r2 ∈ rows → row_workspace_id r1 = row_workspace_id r2;
}.

Lemma TableOK_nil : TableOK [].
Proof. split; [constructor..|]. by intros r1 r2 ?%not_elem_of_nil. Qed.

Lemma set_role_key key role r : row_key (set_role key role r) = row_key r.
Proof. unfold set_role. by case_decide. Qed.

Lemma set_role_name key role r : row_canonical_name (set_role key role r) = row_canonical_name r.
Proof. unfold set_role. by case_decide. Qed.

Lemma set_role_slug key role r :
  row_original_role_slug (set_role key role r) = row_original_role_slug r.
Proof. unfold set_role. by case_decide. Qed.

Lemma set_role_workspace key role r : row_workspace_id (set_role key role r) = row_workspace_id r.
Proof. unfold set_role. by case_decide. Qed.

Lemma RowOK_set_role key role r : role_ok role → RowOK r → RowOK (set_role key (role_str role) r).
Proof.
  intros Hrole [H1 H2 H3 H4 H5 H6]. unfold set_role. case_decide; [|done].
  split; simpl; [done..|]. by exists role.
Qed.

(** Writing a role keeps the table valid. *)
Lemma TableOK_set_role key role rows :
  role_ok role → TableOK rows → TableOK (set_role key (role_str role) <$> rows).
Proof.
  intros Hrole [Hrows Hkeys Hnames Hws]. split.
  - apply Forall_fmap. eapply Forall_impl; [exact Hrows|]. intros r. by apply RowOK_set_role.
  - rewrite <-list_fmap_compose. erewrite list_fmap_ext; [exact Hkeys|].
    intros i r _. simpl. apply set_role_key.
  - rewrite <-list_fmap_compose. erewrite list_fmap_ext; [exact Hnames|].
    intros i r _. simpl. apply set_role_name.
  - intros ? ? (r1 & -> & H1)%list_elem_of_fmap (r2 & -> & H2)%list_elem_of_fmap.
    rewrite !set_role_workspace. by apply Hws.
Qed.

(** So does adding a row with a new key and a new name of the same workspace. *)
Lemma TableOK_snoc rows row :
  TableOK rows → RowOK row →
  (∀ r, r ∈ rows → row_key r ≠ row_key row ∧ row_canonical_name r ≠ row_canonical_name row ∧
                   row_workspace_id r = row_workspace_id row) →
  TableOK (rows ++ [row]).
Proof.
  intros [Hrows Hkeys Hnames Hws] Hrow Hnew. split.
  - apply Forall_app. split; [done|]. by apply Forall_singleton.
  - rewrite fmap_app. apply NoDup_app. split_and!; [done| |apply NoDup_singleton].
    intros k (r & -> & Hr)%list_elem_of_fmap Hk%list_elem_of_singleton.
    by destruct (Hnew r Hr).
  - rewrite fmap_app. apply NoDup_app. split_and!; [done| |apply NoDup_singleton].
    intros k (r & -> & Hr)%list_elem_of_fmap Hk%list_elem_of_singleton.
    by destruct (Hnew r Hr) as (_ & ? & _).
  - intros r1 r2 [?| ->%list_elem_of_singleton]%elem_of_app [?| ->%list_elem_of_singleton]%elem_of_app.
    + by apply Hws.
    + by apply Hnew.
    + symmetry. by apply Hnew.
    + done.
Qed.

(** A key and a name each pick out one row. *)
Lemma same_key rows r1 r2 :
  TableOK rows → r1 ∈ rows → r2 ∈ rows → row_key r1 = row_key r2 → r1 = r2.
Proof.
  intros Hok (i & Hi)%list_elem_of_lookup (j & Hj)%list_elem_of_lookup Heq.
  assert (i = j) as ->; [|congruence].
  eapply (NoDup_lookup _ _ _ (row_key r1) (table_keys _ Hok)); rewrite list_lookup_fmap.
  - by rewrite Hi.
  - by rewrite Hj, Heq.
Qed.

Lemma same_name rows r1 r2 :
  TableOK rows → r1 ∈ rows → r2 ∈ rows → row_canonical_name r1 = row_canonical_name r2 → r1 = r2.
Proof.
  intros Hok (i & Hi)%list_elem_of_lookup (j & Hj)%list_elem_of_lookup Heq.
  assert (i = j) as ->; [|congruence].
  eapply (NoDup_lookup _ _ _ (row_canonical_name r1) (table_names _ Hok)); rewrite list_lookup_fmap.
  - by rewrite Hi.
  - by rewrite Hj, Heq.
Qed.

(** What resolving [pane] does to the table. *)
Record Resolved (pane : VerifiedPane) (session : string) (rows : list IdentityRow)
    (id : AgentIdentity) (rows' : list IdentityRow) : Prop := {
  resolved_key : row_key (identity_row id) = pane_key pane session;
  resolved_role : current_role id = pane_role pane;
  resolved_rows :
    (∃ row, row ∈ rows ∧ row_key row = pane_key pane session ∧
       row_canonical_name row = agent_str (canonical_name id) ∧
       row_original_role_slug row = original_role_slug id ∧
       rows' = set_role (pane_key pane session) (role_str (pane_role pane)) <$> rows) ∨
    ((∀ r, r ∈ rows → row_key r ≠ pane_key pane session) ∧
       original_role_slug id = canonical_slug (Some (role_str (pane_role pane))) ∧
       rows' = rows ++ [identity_row id]);
}.

(** Rows keep their key, name and slug. *)
Definition later (rows rows' : list IdentityRow) : Prop :=
  ∀ r, r ∈ rows → ∃ r', r' ∈ rows' ∧ row_key r' = row_key r ∧
    row_canonical_name r' = row_canonical_name r ∧
    row_original_role_slug r' = row_original_role_slug r.

#[export] Instance later_preorder : PreOrder later.
Proof.
  split.
  - intros rows r Hr. by exists r.
  - intros r1 r2 r3 H12 H23 r Hr. destruct (H12 r Hr) as (r' & Hr' & ? & ? & ?).
    destruct (H23 r' Hr') as (r'' & ? & ? & ? & ?). exists r''. split_and!; congruence.
Qed.

Lemma later_set_role key role rows : later rows (set_role key role <$> rows).
Proof.
  intros r Hr. exists (set_role key role r).
  by rewrite set_role_key, set_role_name, set_role_slug; split_and!; [apply list_elem_of_fmap_2|..].
Qed.

Lemma later_snoc rows row : later rows (rows ++ [row]).
Proof. intros r Hr. exists r. set_solver. Qed.

Lemma resolved_later pane session rows id rows' : Resolved pane session rows id rows' → later rows rows'.
Proof.
  intros [_ _ [(row & _ & _ & _ & _ & ->)|(_ & _ & ->)]]; [apply later_set_role|apply later_snoc].
Qed.

(** The identity returned is the row of its key. *)
Lemma resolved_present pane session rows id rows' :
  Resolved pane session rows id rows' → identity_row id ∈ rows'.
Proof.
  intros [Hkey Hrole [(row & Hrow & Hk & Hname & Hslug & ->)|(_ & _ & ->)]]; [|set_solver].
  apply list_elem_of_fmap. exists row. split; [|done]. unfold set_role. rewrite decide_True by done.
  unfold identity_row. rewrite Hrole, <-Hname, <-Hslug.
  unfold row_key, pane_key, identity_row in *. simpl in *. destruct row. simpl in *. simplify_eq. unfold update. cbn. congruence.
Qed.
End table.

(** ** Operations *)

Section operations.
Context `{Rusqlite} (fault : nat → option SqlError).
Implicit Types (db : IdentityDb) (rows w : list IdentityRow) (o : option (list IdentityRow)).

Lemma head_filter {A} (p : A → bool) (l : list A) :
  match head (filter (λ r, p r = true) l) with
  | Some r => r ∈ l ∧ p r = true
  | None => ∀ r, r ∈ l → p r = false
  end.
Proof.
  destruct (head _) as [r|] eqn:Hh.
  - apply head_Some_elem_of, list_elem_of_filter in Hh as [? ?]. done.
  - apply head_None in Hh. intros r Hr. destruct (p r) eqn:Hp; [|done].
    assert (r ∈ filter (λ r, p r = true) l) as Hin by (by apply list_elem_of_filter).
    rewrite Hh in Hin. by apply not_elem_of_nil in Hin.
Qed.

(** A query sees the rows and changes nothing. *)
Lemma query_row_spec rows o p db :
  holds rows o db →
  wp (query_row fault p)
    (λ found db', holds rows o db' ∧
       match found with
       | Some r => r ∈ default rows o ∧ p r = true
       | None => ∀ r, r ∈ default rows o → p r = false
       end) (λ e db', holds rows o db' ∧ ∃ s, e = Sqlite s) db.
Proof.
  intros Hdb. eapply wp_query; [exact Hdb| |eauto]. intros db' Hdb'. split; [done|apply head_filter].
Qed.

Lemma execute_insert_spec rows w row db :
  holds rows (Some w) db →
  wp (execute_insert fault row)
    (λ _ db', holds rows (Some (w ++ [row])) db' ∧
       ∀ r, r ∈ w → row_key r ≠ row_key row ∧ row_canonical_name r ≠ row_canonical_name row)
    (λ _ db', holds rows (Some w) db') db.
Proof.
  intros Hdb. unfold execute_insert. wp_step. eapply wp_query; [exact Hdb| |done].
  intros db' [Hr Hw]. wp_step. apply wp_reject_if; [|done].
  intros Hfree. apply wp_modify. split.
  - unfold write. by rewrite Hw.
  - intros r Hin. apply not_true_iff_false in Hfree. split; intros Heq; apply Hfree, existsb_exists;
      exists r; (split; [by apply list_elem_of_In|]); apply orb_true_iff;
      [left|right]; by apply bool_decide_eq_true_2.
Qed.

Section resolve.
Context (pane : VerifiedPane) (session : string).
Context (suffix_source : nat → Outcome IdentityError string).
Hypothesis suffix_no_panic : ∀ i, no_panic (suffix_source i).
Hypothesis pane_role_ok : role_ok (pane_role pane).
Hypothesis pane_ok : validate_pane pane session = Done tt.

Local Abbreviation key := (pane_key pane session).
Local Abbreviation slug := (canonical_slug (Some (role_str (pane_role pane)))).

Lemma canonical_name_no_panic s suffix : no_panic (canonical_name_from_parts s suffix).
Proof.
  unfold canonical_name_from_parts, validate_suffix.
  apply no_panic_bind; [auto with herdr|]. intros _. apply no_panic_bind; [auto with herdr|].
  intros _. apply no_panic_map_err. unfold AgentName_parse. by destruct (as_bytes _); [|destruct (_ || _)].
Qed.

Lemma pane_row_ok name suffix :
  canonical_name_from_parts slug suffix = Done name →
  RowOK (MkIdentityRow (pane_workspace_id pane) (pane_pane_id pane) (pane_harness pane) session
           (agent_str name) slug (role_str (pane_role pane))).
Proof.
  intros Hname. revert pane_ok. unfold validate_pane.
  destruct (validate_workspace_id _) as [[]| |] eqn:H1; [|done..]. simpl.
  destruct (validate_field "pane ID" _ _) as [[]| |] eqn:H2; [|done..]. simpl.
  destruct (validate_field "harness" _ _) as [[]| |] eqn:H3; [|done..]. simpl. intros H4.
  split; simpl; [done..| |]; [by eapply canonical_name_roundtrip|by exists (pane_role pane)].
Qed.

(** The allocation loop adds the row it returns, or nothing. *)
Lemma allocate_spec rows attempts call db :
  TableOK rows → (∀ r, r ∈ rows → row_key r ≠ key) →
  (∀ r, r ∈ rows → row_workspace_id r = pane_workspace_id pane) →
  holds rows (Some rows) db →
  wp (allocate fault suffix_source pane session slug attempts call)
    (λ id db', ∃ rows', holds rows' None db' ∧ TableOK rows' ∧ Resolved pane session rows id rows')
    (λ _ db', identities db' = rows) db.
Proof.
  intros Hok Hkey Hws. revert call db. induction attempts as [|attempts IH]; intros call db Hdb; simpl.
  { by destruct Hdb. }
  wp_step. apply wp_lift_no_panic; [done| |by intros; destruct Hdb]. intros suffix _.
  wp_step. apply wp_lift_no_panic; [apply canonical_name_no_panic| |by intros; destruct Hdb].
  intros name Hname. cbv zeta.
  match goal with |- context [execute_insert fault ?r] => set (row := r) end.
  pose proof (execute_insert_spec rows rows row db Hdb) as Hins. 
  match goal with |- wp _ ?Q ?X _ => set (Q0 := Q); set (X0 := X) end. unfold wp in Hins |- *.
  destruct (execute_insert fault row db) as [[[]|e|msg] db1]; [|destruct e|done].
  - destruct Hins as [Hdb1 Hfresh].
    match goal with |- match ?m db1 with _ => _ end => change (wp m Q0 X0 db1) end.
    wp_step. eapply wp_commit; [exact Hdb1| |].
    + intros db2 Hdb2. apply wp_ret. exists (rows ++ [row]). split_and!; [done| |].
      * apply TableOK_snoc; [done|by eapply pane_row_ok|].
        intros r Hr. destruct (Hfresh r Hr). split_and!; [done..|]. by apply Hws.
      * split; [done..|]. by right.
    + by intros e db2 [? _].
  - destruct (is_constraint_violation error); [by apply IH|by destruct Hins].
  - by destruct Hins.
  - by destruct Hins.
  - by destruct Hins.
  - by destruct Hins.
Qed.

Lemma identity_from_parts_ok row :
  RowOK row →
  identity_from_parts pane session (row_canonical_name row) (row_original_role_slug row)
    (role_str (pane_role pane)) =
  Done (MkAgentIdentity (MkAgentName (row_canonical_name row)) (row_original_role_slug row)
          (pane_role pane) (pane_pane_id pane) (pane_harness pane) session (pane_workspace_id pane)).
Proof.
  intros Hrow. unfold identity_from_parts, stored_role.
  rewrite (stored_name_parses _ _ (row_name_ok _ Hrow)), pane_role_ok. done.
Qed.

Lemma resolve_in_transaction_spec rows db :
  TableOK rows → holds rows (Some rows) db →
  wp (resolve_in_transaction fault suffix_source pane session)
    (λ id db', ∃ rows', holds rows' None db' ∧ TableOK rows' ∧ Resolved pane session rows id rows')
    (λ _ db', identities db' = rows) db.
Proof.
  intros Hok Hdb. unfold resolve_in_transaction.
  wp_step. eapply wp_mono; [by apply query_row_spec| |by intros ? ? [[] _]].
  intros first db1 [Hdb1 Hfirst]. wp_step. apply wp_reject_if; [|by destruct Hdb1]. intros Hsame.
  wp_step. eapply wp_mono; [by apply query_row_spec| |by intros ? ? [[] _]].
  intros existing db2 [Hdb2 Hexisting]. destruct existing as [row|].
  - destruct Hexisting as [Hrow Hk%bool_decide_eq_true]. simpl in Hrow.
    wp_step. eapply wp_execute; [exact Hdb2| |by intros ? ? []]. intros db3 Hdb3.
    wp_step. eapply wp_commit; [exact Hdb3| |by intros ? ? []]. intros db5 Hdb5. apply wp_lift.
    rewrite identity_from_parts_ok by (eapply Forall_forall; [apply (table_rows _ Hok)|done]).
    eexists. split_and!; [exact Hdb5|by apply TableOK_set_role|]. split; [done..|]. left.
    by exists row.
  - apply allocate_spec; [done| | |done].
    + intros r Hr Heq. specialize (Hexisting r Hr). by apply bool_decide_eq_false in Hexisting.
    + intros r Hr. destruct first as [r0|].
      * destruct Hfirst as [Hr0 _]. simpl in Hr0, Hsame.
        apply negb_false_iff, String.eqb_eq in Hsame. rewrite <-Hsame. by apply (table_workspace _ Hok).
      * specialize (Hfirst r Hr). done.
Qed.
End resolve.

(** Resolving a pane keeps the table valid; an error leaves it as it was. *)
Lemma resolve_or_create_spec self pane session suffix_source rows db :
  (∀ i, no_panic (suffix_source i)) → role_ok (pane_role pane) →
  TableOK rows → holds rows None db →
  wp (resolve_or_create fault self suffix_source pane session)
    (λ id db', ∃ rows', holds rows' None db' ∧ TableOK rows' ∧ Resolved pane session rows id rows')
    (λ _ db', holds rows None db') db.
Proof.
  intros Hsrc Hrole Hok Hdb. unfold resolve_or_create.
  wp_step. apply wp_lift. destruct (validate_pane pane session) as [[]|e|msg] eqn:Hpane; [|done|].
  2:{ revert Hpane. unfold validate_pane, validate_workspace_id, validate_field.
      repeat (case_match; simpl; try done). }
  wp_step. apply wp_reject_if; [|done]. intros _.
  apply wp_spawn_blocking; [done|]. eapply wp_in_transaction; [exact Hdb| |done].
  intros db1 Hdb1. eapply wp_mono; [by apply resolve_in_transaction_spec| |].
  - intros id db2 (rows' & [? _] & ? & ?). by exists rows'.
  - intros e db2 Hsame. by split.
Qed.
End operations.
