(* ===== verification/IdentityClaims.v ===== *)
(** * Properties of the identity store

    The properties of [identity.rs]: names the allocator builds are accepted, the
    table stays valid and a key has one name for good, a pane can be resolved
    when a free suffix is drawn, and a table is accepted on opening exactly when it
    is valid. *)
From stdpp Require Import prelude gmap strings sorting relations.
From S2P Require Import Prelude RustStd Model Validation Sqlite Identity IdentityNames IdentityTable.

Definition IdentityOK `{Rusqlite} (db : IdentityDb) : Prop :=
  TableOK (identities db) ∧ working db = None.

Lemma wp_check {S E} (m : Outcome E ()) (Q : () → S → Prop) (X : E → S → Prop) s :
  no_panic m → (m = Done tt → Q tt s) → (m ≠ Done tt → ∀ e, X e s) → wp (st_lift m) Q X s.
Proof. intros Hm HQ HX. apply wp_lift. destruct m as [[]|e|]; [auto| |done]. by apply HX. Qed.

Section checks.
Context `{Rusqlite}.

Lemma validate_field_no_panic label value maximum : no_panic (validate_field label value maximum).
Proof. unfold validate_field. by destruct (_ || _). Qed.

Lemma validate_canonical_name_no_panic name slug : no_panic (validate_canonical_name name slug).
Proof.
  unfold validate_canonical_name. apply no_panic_bind; [auto with herdr|]. intros suffix.
  apply no_panic_bind; [apply canonical_name_no_panic|auto with herdr].
Qed.

Lemma stored_role_no_panic role : no_panic (stored_role role).
Proof. unfold stored_role, RoleLabel_parse. by destruct (_ || _). Qed.
End checks.

#[export] Hint Resolve validate_field_no_panic validate_canonical_name_no_panic
  stored_role_no_panic : herdr.

(** ** Runs *)

Section runs.
Context `{Rusqlite}.

(** One call of [resolve_or_create], whatever it returns and whatever fails. *)
Definition identity_step (db db' : IdentityDb) : Prop :=
  ∃ fault self suffix_source pane session o,
    (∀ i, no_panic (suffix_source i)) ∧ role_ok (pane_role pane) ∧
    resolve_or_create fault self suffix_source pane session db = (o, db').

Lemma resolve_run fault self suffix_source pane session db id db' :
  (∀ i, no_panic (suffix_source i)) → role_ok (pane_role pane) → IdentityOK db →
  resolve_or_create fault self suffix_source pane session db = (Done id, db') →
  IdentityOK db' ∧ Resolved pane session (identities db) id (identities db').
Proof.
  intros Hsrc Hrole [Hok Hw] Hrun.
  pose proof (resolve_or_create_spec fault self pane session suffix_source (identities db) db
                Hsrc Hrole Hok (conj eq_refl Hw)) as Hspec.
  unfold wp in Hspec. rewrite Hrun in Hspec. destruct Hspec as (rows' & [<- ?] & ? & ?). done.
Qed.

Lemma identity_step_ok db db' :
  IdentityOK db → identity_step db db' → IdentityOK db' ∧ later (identities db) (identities db').
Proof.
  intros [Hok Hw] (fault & self & src & pane & session & o & Hsrc & Hrole & Hrun).
  pose proof (resolve_or_create_spec fault self pane session src (identities db) db
                Hsrc Hrole Hok (conj eq_refl Hw)) as Hspec.
  unfold wp in Hspec. rewrite Hrun in Hspec. destruct o as [id|e|msg]; [| |done].
  - destruct Hspec as (rows' & [<- ?] & ? & Hres). split; [done|]. by eapply resolved_later.
  - destruct Hspec as [Hsame ?]. change (identities db' = identities db) in Hsame. rewrite Hsame. split; [|done]. unfold IdentityOK. by rewrite Hsame.
Qed.

Lemma identity_steps_ok db db' :
  IdentityOK db → rtc identity_step db db' →
  IdentityOK db' ∧ later (identities db) (identities db').
Proof.
  intros Hok Hsteps. revert Hok. induction Hsteps as [db|db1 db2 db3 Hstep _ IH]; intros Hok; [done|].
  destruct (identity_step_ok _ _ Hok Hstep) as [Hok2 H12]. destruct (IH Hok2) as [? H23].
  split; [done|]. by trans (identities db2).
Qed.
End runs.

(** ** Progress *)

Section progress.
Context `{RusqliteSpec} (fault : nat → option SqlError).
Hypothesis quiet : ∀ n, fault n = None.

Lemma query_row_progress rows o p (X : IdentityError → IdentityDb → Prop) db :
  ready rows o db →
  wp (query_row fault p)
    (λ found db', ready rows o db' ∧ found = head (filter (λ r, p r = true) (default rows o))) X db.
Proof. intros Hdb. by eapply wp_query_quiet. Qed.

(** A name drawn from [suffix_source] at the [i]th call. *)
Definition draws (suffix_source : nat → Outcome IdentityError string) (slug : string) (i : nat)
    (name : string) : Prop :=
  ∃ suffix, suffix_source i = Done suffix ∧ validate_suffix suffix = Done tt ∧
    str_len suffix ≤ RANDOM_SUFFIX_BYTES ∧ name = slug +:+ "-" +:+ suffix.

Definition unused (rows : list IdentityRow) (name : string) : Prop :=
  ∀ r, r ∈ rows → row_canonical_name r ≠ name.

Lemma insert_progress rows row db :
  (∀ r, r ∈ rows → row_key r ≠ row_key row) → ready rows (Some rows) db →
  (∃ db', execute_insert fault row db = (Done tt, db') ∧
     ready rows (Some (rows ++ [row])) db' ∧ unused rows (row_canonical_name row)) ∨
  (∃ db', execute_insert fault row db = (Fail (Sqlite unique_violation), db') ∧
     ready rows (Some rows) db' ∧ ¬ unused rows (row_canonical_name row)).
Proof.
  intros Hkey [[Hr Hw] Hp]. unfold execute_insert, query, st_bind, sql_step. rewrite quiet.
  cbn [st_get st_lift reject_if]. unfold write, visible. cbn. rewrite Hw. cbn.
  destruct (existsb _ rows) eqn:Hex; cbn; [right|left]; eexists; (split; [reflexivity|]).
  - split; [done|]. intros Hun. apply existsb_exists in Hex as (r & Hin%list_elem_of_In & Hr').
    apply orb_true_iff in Hr' as [Heq%bool_decide_eq_true|Heq%bool_decide_eq_true].
    + by apply (Hkey r).
    + by apply (Hun r).
  - split; [by split; [split|]; unfold st_modify, write; cbn; rewrite ?Hw|].
    intros r Hin Heq. apply not_true_iff_false in Hex. apply Hex, existsb_exists. exists r.
    split; [by apply list_elem_of_In|]. apply orb_true_iff. right. by apply bool_decide_eq_true_2.
Qed.

(** The loop succeeds at the first free name. *)
Lemma allocate_progress suffix_source pane session rows attempts call free db :
  let slug := canonical_slug (Some (role_str (pane_role pane))) in
  (∀ r, r ∈ rows → row_key r ≠ pane_key pane session) →
  free < attempts →
  (∀ i, i ≤ free → ∃ name, draws suffix_source slug (call + i) name) →
  (∃ name, draws suffix_source slug (call + free) name ∧ unused rows name) →
  ready rows (Some rows) db →
  wp (allocate fault suffix_source pane session slug attempts call)
    (λ _ _, True) (λ _ _, False) db.
Proof.
  intros slug Hkey. revert call free db.
  induction attempts as [|attempts IH]; intros call free db Hlt Hdraws Hfree Hdb; [lia|]. simpl.
  destruct (Hdraws 0) as (name & suffix & Hsrc & Hval & Hlen & Hname); [lia|].
  rewrite Nat.add_0_r in Hsrc. rewrite Hsrc.
  wp_step. apply wp_lift. wp_step. apply wp_lift. unfold slug.
  rewrite canonical_name_accepts by (done || apply canonical_slug_Slug).
  fold slug. rewrite <-Hname. cbv zeta. unfold wp.
  match goal with |- context [execute_insert fault ?r db] => set (row := r) end.
  destruct (insert_progress rows row db Hkey Hdb) as [(db' & -> & Hdb' & _)|(db' & -> & Hdb' & Hused)].
  - match goal with |- match ?m db' with _ => _ end => 
      change (wp m (λ _ _, True) (λ _ _, False) db') end.
    wp_step. by eapply wp_commit_quiet.
  - unfold is_constraint_violation. rewrite bool_decide_eq_true_2 by apply unique_is_constraint.
    destruct free as [|free].
    + exfalso. apply Hused. destruct Hfree as (name' & (suffix' & Hsrc' & _ & _ & ->) & Hun).
      rewrite Nat.add_0_r, Hsrc in Hsrc'. injection Hsrc' as <-. subst name. exact Hun.
    + apply (IH (S call) free); [lia| | |done].
      * intros i Hi. rewrite Nat.add_succ_comm. apply Hdraws. lia.
      * by rewrite Nat.add_succ_comm.
Qed.

Lemma resolve_progress self suffix_source pane session rows db :
  let slug := canonical_slug (Some (role_str (pane_role pane))) in
  role_ok (pane_role pane) → validate_pane pane session = Done tt →
  TableOK rows → ready rows None db →
  other_workspace (expected_workspace_id self) pane = false →
  (∀ r, r ∈ rows → row_workspace_id r = pane_workspace_id pane) →
  (∃ r, r ∈ rows ∧ row_key r = pane_key pane session) ∨
  (∃ free, free < MAX_ALLOCATION_ATTEMPTS ∧
     (∀ i, i ≤ free → ∃ name, draws suffix_source slug i name) ∧
     ∃ name, draws suffix_source slug free name ∧ unused rows name) →
  wp (resolve_or_create fault self suffix_source pane session) (λ _ _, True) (λ _ _, False) db.
Proof.
  intros slug Hrole Hpane Hok Hdb Hws Hrows Hcan. unfold resolve_or_create. rewrite Hpane.
  wp_step. apply wp_lift. wp_step. apply wp_accept; [done|].
  assert (∀ db1, ready rows (Some rows) db1 →
    wp (resolve_in_transaction fault suffix_source pane session) (λ _ _, True) (λ _ _, False) db1) as Hin.
  { intros db1 Hdb1. unfold resolve_in_transaction.
    wp_step. eapply (wp_mono _ _ _ (λ _ _, False)); [by apply query_row_progress| |done].
    intros first db2 [Hdb2 ->]. wp_step. apply wp_accept.
    { simpl. destruct (head _) as [r|] eqn:Hh; simpl; [|done].
      apply head_Some_elem_of, list_elem_of_filter in Hh as [_ Hr].
      apply negb_false_iff, String.eqb_eq. by apply Hrows. }
    wp_step. eapply (wp_mono _ _ _ (λ _ _, False)); [by apply query_row_progress| |done].
    intros found db3 [Hdb3 Hfound]. cbn in Hfound. destruct found as [row|].
    - symmetry in Hfound. apply head_Some_elem_of, list_elem_of_filter in Hfound as [_ Hrow].
      wp_step. eapply wp_execute_quiet; [done|exact Hdb3|]. intros db4 Hdb4.
      wp_step. eapply wp_commit_quiet; [done|exact Hdb4|]. intros db5 _. apply wp_lift. rewrite identity_from_parts_ok; [done..|].
      eapply Forall_forall; [apply (table_rows _ Hok)|done].
    - assert (∀ r, r ∈ rows → row_key r ≠ pane_key pane session) as Hnone.
      { intros r Hr Hk. symmetry in Hfound. apply head_None in Hfound.
        assert (r ∈ filter (λ r, bool_decide (row_key r = pane_key pane session) = true) rows) as Hin
          by (apply list_elem_of_filter; split; [by apply bool_decide_eq_true_2|done]).
        rewrite Hfound in Hin. by apply not_elem_of_nil in Hin. }
      destruct Hcan as [(r & Hr & Hk)|(free & Hlt & Hdraws & Hfree)]; [by destruct (Hnone r Hr)|].
      by apply (allocate_progress _ _ _ rows _ 0 free). }
  eapply wp_spawn_quiet; [exact Hdb|]. by eapply wp_transaction_quiet.
Qed.
End progress.

(** ** Opening *)

Section opening.
Context `{RusqliteSpec} (fault : nat → option SqlError).
Hypothesis quiet : ∀ n, fault n = None.

Definition expects (expected : option string) (row : IdentityRow) : Prop :=
  ∀ workspace, expected = Some workspace → workspace = row_workspace_id row.

(** The loop accepts exactly the valid rows of the expected workspace, and collects
    their workspaces. *)
Lemma validate_each_spec rows o expected todo acc db :
  ready rows o db →
  wp (validate_each fault expected todo acc)
    (λ ws db', ready rows o db' ∧ Forall RowOK todo ∧ Forall (expects expected) todo ∧
       ws = list_to_set (row_workspace_id <$> todo) ∪ acc)
    (λ _ _, ¬ (Forall RowOK todo ∧ Forall (expects expected) todo)) db.
Proof.
  revert acc db. induction todo as [|row todo IH]; intros acc db Hdb; simpl.
  { apply wp_ret. split_and!; [done|constructor..|set_solver]. }
  wp_step. eapply wp_sql_quiet; [done|exact Hdb|]. intros db' Hdb'.
  do 5 (wp_step; apply wp_check;
    [auto with herdr; apply validate_field_no_panic|intros ?|by intros Hn _ [[[] _]%Forall_cons _]]).
  wp_step. apply wp_lift_no_panic; [auto with herdr| |].
  2:{ unfold stored_role. intros e He [[[] _]%Forall_cons _].
      destruct row_role_ok as [role Hrole]. by rewrite Hrole in He. }
  intros role Hrole%map_err_Done.
  wp_step. apply wp_reject_if.
  2:{ intros Hne [_ [Hexp _]%Forall_cons]. destruct expected as [workspace|]; [|done].
      rewrite (Hexp workspace eq_refl), String.eqb_refl in Hne. done. }
  intros Heq. eapply wp_mono; [by apply IH| |].
  - simpl. intros ws db2 (Hdb2 & Hrows & Hexp & ->). split_and!; [done| | |set_solver].
    + constructor; [|done]. split; try done. by exists role.
    + constructor; [|done]. intros workspace ->. by apply negb_false_iff, String.eqb_eq in Heq.
  - simpl. intros e _ Hbad [[_ ?]%Forall_cons [_ ?]%Forall_cons]. by apply Hbad.
Qed.

(** All rows have one workspace exactly when at most one was collected. *)
Lemma one_workspace rows :
  (1 <? size (list_to_set (row_workspace_id <$> rows) : gset string))%nat = false ↔
  ∀ r1 r2, r1 ∈ rows → r2 ∈ rows → row_workspace_id r1 = row_workspace_id r2.
Proof.
  rewrite Nat.ltb_ge. split.
  - intros Hsize r1 r2 H1 H2. set (X := list_to_set (row_workspace_id <$> rows) : gset string) in *.
    assert (∀ r, r ∈ rows → row_workspace_id r ∈ X) as Hin
      by (intros r Hr; apply elem_of_list_to_set, list_elem_of_fmap; by exists r).
    assert (size X = 1) as H1s.
    { assert (size X ≠ 0); [|lia]. intros Hz%size_empty_inv. specialize (Hin r1 H1). set_solver. }
    by apply (size_singleton_inv X); auto.
  - intros Hall. destruct rows as [|r rows]; [vm_compute; lia|].
    rewrite <-(size_singleton (C := gset string) (row_workspace_id r)). apply subseteq_size.
    intros w (r' & -> & Hr')%elem_of_list_to_set%list_elem_of_fmap.
    apply elem_of_singleton. apply Hall; [done|set_solver].
Qed.

Lemma validate_rows_spec expected rows db :
  ready rows None db →
  wp (validate_rows fault expected)
    (λ _ db', ready rows None db' ∧ Forall RowOK rows ∧ Forall (expects expected) rows ∧
       ∀ r1 r2, r1 ∈ rows → r2 ∈ rows → row_workspace_id r1 = row_workspace_id r2)
    (λ _ _, ¬ (Forall RowOK rows ∧ Forall (expects expected) rows ∧
       ∀ r1 r2, r1 ∈ rows → r2 ∈ rows → row_workspace_id r1 = row_workspace_id r2)) db.
Proof.
  intros Hdb. unfold validate_rows.
  wp_step. eapply wp_sql_quiet; [done|exact Hdb|]. intros db1 Hdb1.
  wp_step. eapply wp_sql_quiet; [done|exact Hdb1|]. intros db2 Hdb2.
  wp_steps. replace (visible db2) with rows
    by (destruct Hdb2 as [[Hr Ho] _]; unfold visible; by rewrite Hr, Ho).
  eapply wp_mono; [by apply validate_each_spec| |naive_solver].
  intros ws db3 (Hdb3 & Hrows & Hexp & ->). rewrite union_empty_r_L.
  apply wp_reject_if; [rewrite one_workspace; done|].
  intros Htrue (_ & _ & Hall%one_workspace). congruence.
Qed.
End opening.

#[export] Instance identity_row_inj : Inj (=) (=) identity_row.
Proof.
  intros [[] ? [] ? ? ? ?] [[] ? [] ? ? ? ?]. unfold identity_row. simpl. by intros [= -> -> -> -> -> -> ->].
Qed.

(** The identity that a row found by its name stands for. *)
Lemma found_row `{Rusqlite} rows row name :
  TableOK rows → row ∈ rows → row_canonical_name row = agent_str name →
  ∃ role, stored_role (row_current_role row) = Done role ∧
    identity_row (MkAgentIdentity name (row_original_role_slug row) role (row_pane_id row)
      (row_harness row) (row_harness_session_id row) (row_workspace_id row)) = row.
Proof.
  intros Hok Hrow Hname.
  pose proof (proj1 (Forall_forall _ _) (table_rows _ Hok) row Hrow) as [_ _ _ _ _ [role Hrole]].
  exists role. unfold stored_role. rewrite Hrole. split; [done|].
  apply RoleLabel_parse_Done in Hrole as ->. unfold identity_row. simpl. rewrite <-Hname. by destruct row.
Qed.

Lemma find_progress `{RusqliteSpec} fault name rows db :
  (∀ n, fault n = None) → TableOK rows → ready rows None db →
  ∃ found db', find_by_canonical fault name db = (Done found, db') ∧ ready rows None db' ∧
    match found with
    | Some id => identity_row id ∈ rows ∧ canonical_name id = name
    | None => unused rows (agent_str name)
    end.
Proof.
  intros Hquiet Hok Hdb. apply wp_total. unfold find_by_canonical.
  eapply wp_spawn_quiet; [exact Hdb|].
  wp_step. eapply (wp_mono _ _ _ (λ _ _, False)); [by apply query_row_progress| |done].
  intros found db1 [Hr ->]. cbn.
  pose proof (head_filter (λ r, bool_decide (row_canonical_name r = agent_str name)) rows) as Hh.
  destruct (head _) as [row|].
  - destruct Hh as [Hrow Hname%bool_decide_eq_true].
    destruct (found_row _ _ _ Hok Hrow Hname) as (role & Hrole & Hid).
    wp_step. rewrite Hrole. apply wp_lift, wp_ret. by rewrite Hid.
  - apply wp_ret. split; [done|]. intros r Hr'. by eapply bool_decide_eq_false_1, Hh.
Qed.

(** ** Properties *)

Section claims.
Context `{RusqliteSpec}.

(** A role label, whatever it holds, gives a slug of one canonical shape (a
    lower-case letter, then letters, digits and single inner hyphens, at most 25
    bytes) that slugging again keeps; with the suffix drawn from any identifier of
    at least six hexadecimal digits it makes an agent name that
    [AgentName::parse] accepts and that is accepted when it is read back. *)
Theorem allocated_names_are_accepted label id :
  RANDOM_SUFFIX_BYTES ≤ length (omap hex_nibble (as_bytes (rid_str id))) →
  Slug (as_bytes (canonical_slug label)) ∧
  canonical_slug (Some (canonical_slug label)) = canonical_slug label ∧
  ∃ suffix name,
    RandomSuffix_suffix id = Done suffix ∧
    canonical_name_from_parts (canonical_slug label) suffix = Done name ∧
    AgentName_parse (agent_str name) = Done name ∧
    validate_canonical_name (agent_str name) (canonical_slug label) = Done tt.
Proof.
  intros Hid. pose proof (canonical_slug_Slug label) as Hslug.
  split_and!; [done|by apply canonical_slug_id|].
  destruct (random_suffix_total id Hid) as (suffix & Hsuffix & Hlen & Hval).
  pose proof (canonical_name_accepts _ suffix Hslug Hval ltac:(lia)) as Hname.
  eexists suffix, _. split_and!; [done|exact Hname| |by eapply canonical_name_roundtrip].
  by apply canonical_name_from_parts_Done in Hname as [_ ?].
Qed.

(** From a valid table, whatever statement of SQLite fails and whatever
    suffixes are drawn, [resolve_or_create] does not panic; on success the table is
    valid again and differs by the resolved pane only: its row has got the current
    role, or a new row has been added with a new name; on error the table is
    unchanged and no transaction is left open. *)
Theorem resolve_keeps_table fault self suffix_source pane session db :
  (∀ i, no_panic (suffix_source i)) → role_ok (pane_role pane) → IdentityOK db →
  wp (resolve_or_create fault self suffix_source pane session)
    (λ id db', IdentityOK db' ∧ Resolved pane session (identities db) id (identities db'))
    (λ _ db', identities db' = identities db ∧ working db' = None) db.
Proof.
  intros Hsrc Hrole [Hok Hw].
  eapply wp_mono; [by apply (resolve_or_create_spec fault self pane session suffix_source (identities db))| |].
  - intros id db' (rows' & [<- ?] & ? & ?). done.
  - by intros e db' [? ?].
Qed.

(** Identities are stable and unique: after a pane was resolved and any
    further calls, failed ones included, a pane resolves to the same canonical name
    exactly when workspace, pane, harness and session are the same. *)
Theorem identity_is_stable db fault self suffix_source pane session id db1 db2
    fault' self' suffix_source' pane' session' id' db3 :
  IdentityOK db →
  (∀ i, no_panic (suffix_source i)) → role_ok (pane_role pane) →
  resolve_or_create fault self suffix_source pane session db = (Done id, db1) →
  rtc identity_step db1 db2 →
  (∀ i, no_panic (suffix_source' i)) → role_ok (pane_role pane') →
  resolve_or_create fault' self' suffix_source' pane' session' db2 = (Done id', db3) →
  canonical_name id' = canonical_name id ↔ pane_key pane' session' = pane_key pane session.
Proof.
  intros Hok Hsrc Hrole Hrun1 Hsteps Hsrc' Hrole' Hrun2.
  apply resolve_run in Hrun1 as [Hok1 Hres1]; [|done..].
  destruct (identity_steps_ok _ _ Hok1 Hsteps) as [Hok2 Hlater].
  apply resolve_run in Hrun2 as [Hok3 Hres2]; [|done..].
  destruct (Hlater _ (resolved_present _ _ _ _ _ Hres1)) as (r & Hr & Hkey & Hname & _).
  destruct (resolved_later _ _ _ _ _ Hres2 r Hr) as (r' & Hr' & Hkey' & Hname' & _).
  pose proof (resolved_present _ _ _ _ _ Hres2) as Hid'. destruct Hok3 as [Hok3 _].
  rewrite <-(resolved_key _ _ _ _ _ Hres1), <-(resolved_key _ _ _ _ _ Hres2), <-Hkey, <-Hkey'.
  split.
  - intros Heq. f_equal. apply (same_name _ _ _ Hok3 Hid' Hr').
    rewrite Hname', Hname. simpl. by rewrite Heq.
  - intros Heq. pose proof (same_key _ _ _ Hok3 Hid' Hr' Heq) as Hrow.
    rewrite <-Hrow in Hname'. rewrite Hname in Hname'. simpl in Hname'.
    by destruct (canonical_name id'), (canonical_name id); simpl in *; subst.
Qed.

(** Resolving succeeds when SQLite does, the pane is valid and of the table's
    workspace, and it is known already or one of the first eight suffixes drawn
    gives a name not in use. *)
Theorem resolve_succeeds fault self suffix_source pane session db :
  (∀ n, fault n = None) → (∀ i, no_panic (suffix_source i)) → role_ok (pane_role pane) →
  validate_pane pane session = Done tt → IdentityOK db → poisoned db = false →
  other_workspace (expected_workspace_id self) pane = false →
  (∀ r, r ∈ identities db → row_workspace_id r = pane_workspace_id pane) →
  (∃ r, r ∈ identities db ∧ row_key r = pane_key pane session) ∨
  (∃ free, free < MAX_ALLOCATION_ATTEMPTS ∧
     let slug := canonical_slug (Some (role_str (pane_role pane))) in
     (∀ i, i ≤ free → ∃ name, draws suffix_source slug i name) ∧
     ∃ name, draws suffix_source slug free name ∧ unused (identities db) name) →
  ∃ id db', resolve_or_create fault self suffix_source pane session db = (Done id, db') ∧
    Resolved pane session (identities db) id (identities db').
Proof.
  intros Hquiet Hsrc Hrole Hpane [Hok Hw] Hp Hexp Hws Hcan.
  destruct (wp_total _ _ _ (resolve_progress fault Hquiet self suffix_source pane session
    (identities db) db Hrole Hpane Hok (conj (conj eq_refl Hw) Hp) Hexp Hws Hcan)) as (id & db' & Hrun & _).
  exists id, db'. split; [done|]. by eapply resolve_run.
Qed.

(** A table with the uniqueness that the schema enforces is accepted on opening
    exactly when its rows are valid and of one workspace; so a table that
    [resolve_or_create] has written is always accepted, and it is accepted for a
    workspace exactly when its rows are of that workspace. *)
Theorem opening_accepts_valid_tables fault db workspace_id :
  (∀ n, fault n = None) → working db = None → poisoned db = false →
  NoDup (row_key <$> identities db) → NoDup (row_canonical_name <$> identities db) →
  validate_workspace_id workspace_id = Done tt →
  ((∃ store db', from_shared_connection fault db = (Done store, db')) ↔ TableOK (identities db)) ∧
  ((∃ store db', for_workspace fault workspace_id db = (Done store, db')) ↔
     TableOK (identities db) ∧
     ∀ r, r ∈ identities db → row_workspace_id r = workspace_id).
Proof.
  intros Hquiet Hw Hp Hkeys Hnames Hws.
  assert (ready (identities db) None db) as Hdb by done. split.
  - assert (wp (from_shared_connection fault) (λ _ _, TableOK (identities db))
      (λ _ _, ¬ TableOK (identities db)) db) as Hspec.
    { unfold from_shared_connection. wp_step.
      eapply wp_lock_quiet; [exact Hdb|].
      wp_step. eapply wp_sql_quiet; [done|exact Hdb|]. intros db1 Hdb1. wp_step.
      eapply wp_mono; [by apply validate_rows_spec| |].
      - intros [] db2 (_ & Hrows & _ & Hone). by apply wp_ret.
      - intros e db2 Hbad [Hrows _ _ Hone]. apply Hbad. split_and!; [done| |done].
        apply Forall_forall. by intros r _ workspace ?. }
    unfold wp in Hspec. destruct (from_shared_connection fault db) as [[store|e|msg] db']; naive_solver.
  - assert (wp (for_workspace fault workspace_id)
      (λ _ _, TableOK (identities db) ∧ ∀ r, r ∈ identities db → row_workspace_id r = workspace_id)
      (λ _ _, ¬ (TableOK (identities db) ∧ ∀ r, r ∈ identities db → row_workspace_id r = workspace_id))
      db) as Hspec.
    { unfold for_workspace. wp_step. rewrite Hws. apply wp_lift. wp_step.
      eapply wp_lock_quiet; [exact Hdb|]. wp_step.
      eapply wp_mono; [by apply validate_rows_spec| |].
      - intros [] db2 (_ & Hrows & Hexp & Hone). apply wp_ret. split; [done|].
        rewrite Forall_forall in Hexp. intros r Hr. symmetry. by apply (Hexp r Hr).
      - intros e db2 Hbad [[Hrows _ _ Hone] Hall]. apply Hbad. split_and!; [done| |done].
        apply Forall_forall. intros r Hr workspace [= <-]. symmetry. by apply Hall. }
    unfold wp in Hspec. destruct (for_workspace fault workspace_id db) as [[store|e|msg] db']; naive_solver.
Qed.

(** [find_by_canonical] is the inverse of [resolve_or_create]: the name just
    returned finds the very identity that was returned, and a name that is found
    belongs to a row of the table, one that is not found to none. *)
Theorem find_by_canonical_inverts fault self suffix_source pane session db id db1 name :
  (∀ n, fault n = None) → poisoned db1 = false →
  IdentityOK db → (∀ i, no_panic (suffix_source i)) → role_ok (pane_role pane) →
  resolve_or_create fault self suffix_source pane session db = (Done id, db1) →
  ∃ found db2, find_by_canonical fault name db1 = (Done found, db2) ∧
    identities db2 = identities db1 ∧
    (name = canonical_name id → found = Some id) ∧
    match found with
    | Some id' => identity_row id' ∈ identities db1 ∧ canonical_name id' = name
    | None => unused (identities db1) (agent_str name)
    end.
Proof.
  intros Hquiet Hp Hok Hsrc Hrole Hrun. apply resolve_run in Hrun as [[Hok1 Hw1] Hres]; [|done..].
  apply resolved_present in Hres.
  destruct (find_progress fault name (identities db1) db1 Hquiet Hok1) as (found & db2 & Hrun & [[Hrows _] _] & Hfound);
    [done|]. exists found, db2. split_and!; [done..| |done].
  intros ->. destruct found as [id'|].
  - destruct Hfound as [Hin Heq]. f_equal. apply identity_row_inj.
    apply (same_name _ _ _ Hok1 Hin Hres). simpl. by rewrite Heq.
  - by destruct (Hfound _ Hres).
Qed.
End claims.

(** ** Witnesses *)

Module IdentitySample.
#[local] Instance sqlite : Rusqlite := {|
  SqlError := bool;
  sqlite_failure := λ constraint, Some (if constraint then ConstraintViolation else OtherErrorCode 5);
  sql_error_display := λ _, "database is locked";
  unique_violation := true;
  check_violation := true;
  query_returned_no_rows := false;
|}.

#[local] Instance sqlite_spec : RusqliteSpec := {| unique_is_constraint := eq_refl |}.

Definition no_fault : nat → option SqlError := λ _, None.
Definition suffixes (i : nat) : Outcome IdentityError string :=
  Done (if (i =? 0)%nat then "abcdef" else "ghijkl").

Lemma suffixes_no_panic i : no_panic (suffixes i).
Proof. done. Qed.

Definition role (name : string) : RoleLabel := MkRoleLabel name.
Definition pane (name : string) : VerifiedPane :=
  MkVerifiedPane "pane-1" "workspace" (role name) "claude" "/work".
Definition store : IdentityStore := MkIdentityStore (Some "workspace").
Definition empty : IdentityDb := MkConn [] None 0 false.
Definition run (name : string) (db : IdentityDb) :=
  resolve_or_create no_fault store suffixes (pane name) "session" db.
Definition first_db : IdentityDb := (run "Code Reviewer" empty).2.
Definition reviewer : AgentIdentity :=
  MkAgentIdentity (MkAgentName "code-reviewer-abcdef") "code-reviewer" (role "Code Reviewer")
    "pane-1" "claude" "session" "workspace".
Definition tester : AgentIdentity :=
  MkAgentIdentity (MkAgentName "code-reviewer-abcdef") "code-reviewer" (role "Tester")
    "pane-1" "claude" "session" "workspace".

Lemma empty_ok : IdentityOK empty.
Proof. split; [apply TableOK_nil|done]. Defined.

Lemma run_first : run "Code Reviewer" empty = (Done reviewer, first_db).
Proof. by vm_compute. Defined.

Lemma run_second : run "Tester" first_db = (Done tester, (run "Tester" first_db).2).
Proof. by vm_compute. Defined.

(** Witness. *)
Lemma allocated_names_are_accepted_witness :
  canonical_slug (Some (canonical_slug (Some "Code  Reviewer!"))) = canonical_slug (Some "Code  Reviewer!").
Proof.
  refine (proj1 (proj2 (allocated_names_are_accepted (Some "Code  Reviewer!")
    (MkRegistrationId "0190163d-8694-739b-aea5-966c26f8ad91") _))).
  vm_compute. lia.
Defined.

(** Witness. *)
Lemma resolve_keeps_table_witness : IdentityOK first_db.
Proof.
  pose proof (resolve_keeps_table no_fault store suffixes (pane "Code Reviewer") "session" empty
    suffixes_no_panic (eq_refl : role_ok (role "Code Reviewer")) empty_ok) as Hspec.
  exact (proj1 (wp_done _ _ _ _ _ _ Hspec run_first)).
Defined.

(** Witness: the role of the pane has changed, its name has not. *)
Lemma identity_is_stable_witness :
  canonical_name tester = canonical_name reviewer ↔
  pane_key (pane "Tester") "session" = pane_key (pane "Code Reviewer") "session".
Proof.
  exact (identity_is_stable empty no_fault store suffixes (pane "Code Reviewer") "session" reviewer
    first_db first_db no_fault store suffixes (pane "Tester") "session" tester
    (run "Tester" first_db).2 empty_ok suffixes_no_panic eq_refl run_first (rtc_refl _ _)
    suffixes_no_panic eq_refl run_second).
Defined.

(** Witness. *)
Lemma resolve_succeeds_witness :
  ∃ id db', run "Code Reviewer" empty = (Done id, db') ∧
    Resolved (pane "Code Reviewer") "session" [] id (identities db').
Proof.
  apply (resolve_succeeds no_fault store suffixes (pane "Code Reviewer") "session" empty);
    [done|apply suffixes_no_panic|done|done|apply empty_ok|done|done|by intros r ?%not_elem_of_nil|].
  right. exists 0. split; [unfold MAX_ALLOCATION_ATTEMPTS; lia|]. cbv zeta. split.
  - intros i Hi. assert (i = 0) as -> by lia. eexists. exists "abcdef".
    split_and!; [done|done|by vm_compute; lia|reflexivity].
  - eexists. split; [|by intros r ?%not_elem_of_nil]. exists "abcdef".
    split_and!; [done|done|by vm_compute; lia|reflexivity].
Defined.

(** Witness. *)
Lemma opening_accepts_valid_tables_witness :
  (∃ store db', from_shared_connection no_fault first_db = (Done store, db')) ↔
  TableOK (identities first_db).
Proof.
  refine (proj1 (opening_accepts_valid_tables no_fault first_db "workspace" _ _ _ _ _ _));
    [done|done|done|..|done]; apply (bool_decide_unpack _); vm_compute; exact I.
Defined.

(** Witness. *)
Lemma find_by_canonical_inverts_witness :
  ∃ found db2, find_by_canonical no_fault (MkAgentName "code-reviewer-abcdef") first_db = (Done found, db2) ∧
    found = Some reviewer.
Proof.
  destruct (find_by_canonical_inverts no_fault store suffixes (pane "Code Reviewer") "session" empty
    reviewer first_db (MkAgentName "code-reviewer-abcdef") (λ _, eq_refl) eq_refl empty_ok
    suffixes_no_panic eq_refl run_first) as (found & db2 & Hrun & _ & Hfound & _).
  exists found, db2. split; [exact Hrun|exact (Hfound eq_refl)].
Defined.
End IdentitySample.
