(* ===== verification/LedgerCodec.v ===== *)
(** * The task ledger: rows and projections

    The codec of [herdr-a2a-broker/src/ledger.rs]: what a durable task looks like as
    a row of [delivery_tasks], the checks made before it is written and after it is
    read, and the A2A task that is projected from it.

    Parameters: the JSON texts of [serde_json] ([LedgerSerde]), the timestamps of
    [chrono] ([Chrono]).  The types of the [a2a] crate are the records the source
    builds and takes apart. *)
From stdpp Require Import prelude gmap strings sorting.
From S2P Require Import Prelude RustStd Model Validation Durability BrokerState Sqlite.

Definition SCHEMA_VERSION : Z := 1.
Definition PROJECTION_NOT_AUTHORIZED : string := "task projection is not authorized".

Inductive StoreError `{Rusqlite} :=
| StoreSqlite (error : SqlError)
| StoreInvalidData (message : string)
| StoreUnsafeFile (message : string).

(** [impl Display for StoreError] *)
Definition StoreError_display `{Rusqlite} (e : StoreError) : string :=
  match e with
  | StoreSqlite error => "failed to open task store: " +:+ sql_error_display error
  | StoreInvalidData message => "task store data is invalid: " +:+ message
  | StoreUnsafeFile message => "task store file is unsafe: " +:+ message
  end.

(** [fn invalid] *)
Definition invalid `{Rusqlite} (message : string) : StoreError := StoreInvalidData message.

(** The errors of [ledger_blocking]. *)
#[global] Instance store_client `{Rusqlite} : SqlClient StoreError := {|
  sql_failed := StoreSqlite;
  mutex_poisoned := invalid "task store mutex is poisoned";
  worker_failed := invalid "task store worker failed";
|}.

(** ** The [a2a] crate *)

(** The errors of the SDK, by the function that makes them; [with_details] attaches
    the type URLs of details. *)
Inductive A2AError :=
| A2A_internal (message : string)
| A2A_invalid_params (message : string)
| A2A_invalid_request (message : string)
| A2A_task_not_found (task_id : string)
| A2A_task_not_cancelable (task_id : string)
| A2A_content_type_not_supported
| A2A_push_notification_not_supported
| A2A_with_details (error : A2AError) (type_urls : list string).

Inductive A2ARole := RoleUser | RoleAgent.
Inductive TaskState :=
| TaskSubmitted | TaskWorking | TaskCompleted | TaskFailedState | TaskRejectedState
| TaskCanceledState | TaskUnspecified | TaskInputRequired | TaskAuthRequired.

#[global] Instance A2ARole_eq_dec : EqDecision A2ARole.
Proof. solve_decision. Defined.
#[global] Instance TaskState_eq_dec : EqDecision TaskState.
Proof. solve_decision. Defined.

Section projection_types.
Context `{JsonNumber}.

Inductive PartContent := PartText (text : string) | PartOther (value : Value).

Record Part := MkPart {
  part_content : PartContent;
  part_filename : option string;
  part_media_type : option string;
  part_metadata : option (list (string * Value));
}.

(** [Part::text] *)
Definition text_part (text : string) : Part := MkPart (PartText text) None None None.

Record Message := MkMessage {
  message_id : string;
  message_context_id : option string;
  message_task_id : option string;
  message_role : A2ARole;
  message_parts : list Part;
  message_metadata : option (list (string * Value));
  message_extensions : option (list string);
  message_reference_task_ids : option (list string);
}.

#[global] Instance PartContent_eq_dec : EqDecision PartContent.
Proof. solve_decision. Defined.
#[global] Instance Part_eq_dec : EqDecision Part.
Proof. solve_decision. Defined.
#[global] Instance Message_eq_dec : EqDecision Message.
Proof. solve_decision. Defined.
End projection_types.

Class Chrono := {
  DateTime : Type;
  timestamp_millis_opt : Z → option DateTime;
  parse_from_rfc3339 : string → option DateTime;
  timestamp_millis : DateTime → Z;
  sortable_timestamp : DateTime → string;
}.

Section task_types.
Context `{JsonNumber} {chrono : Chrono}.

Record TaskStatus := MkTaskStatus {
  status_state : TaskState;
  status_message : option Message;
  status_timestamp : option DateTime;
}.

Record A2ATask := MkA2ATask {
  a2a_id : string;
  a2a_context_id : string;
  a2a_status : TaskStatus;
  a2a_artifacts : option (list Value);
  a2a_history : option (list Message);
  a2a_metadata : option (list (string * Value));
}.

#[global] Instance TaskStatus_eq_dec `{!EqDecision DateTime} : EqDecision TaskStatus.
Proof. solve_decision. Defined.
#[global] Instance A2ATask_eq_dec `{!EqDecision DateTime} : EqDecision A2ATask.
Proof. solve_decision. Defined.

(** [serde_json::to_value] followed by [to_string], [from_str], and the name a task
    state serialises to. *)
Class LedgerSerde := {
  payload_to_json : ValidatedPayload → option string;
  payload_from_str : string → option ValidatedPayload;
  reply_to_json : ReplyPayload → option string;
  reply_from_str : string → option ReplyPayload;
  task_to_json : A2ATask → option string;
  task_from_str : string → option A2ATask;
  task_state_name : TaskState → option string;
}.
End task_types.

(** ** Rows *)

Record StoredTaskRow := MkStoredTaskRow {
  str_task_id : string;
  str_context_id : option string;
  str_sender_agent : option string;
  str_recipient_agent : string;
  str_request_json : option string;
  str_created_unix_ms : Z;
  str_deadline_unix_ms : Z;
  str_state : string;
  str_state_version : Z;
  str_delivery_id : option string;
  str_lease_expires_unix_ms : option Z;
  str_attempt : Z;
  str_acknowledged_unix_ms : option Z;
  str_reply_json : option string;
  str_terminal_unix_ms : option Z;
  str_retain_until_unix_ms : option Z;
  str_legacy_quarantined : Z;
}.

Definition encode_state (state : DurableTaskState) : string :=
  match state with
  | Queued => "queued"
  | Leased => "leased"
  | Acknowledged => "acknowledged"
  | Replied => "replied"
  | Failed => "failed"
  | Rejected => "rejected"
  | Canceled => "canceled"
  | Expired => "expired"
  end.

Section codec.
Context `{Rusqlite} `{JsonNumber} {serde : SerdeJson} {chrono : Chrono} {uuid : UuidLib}.
Context {json : LedgerSerde}.

Definition decode_state (state : string) : Outcome StoreError DurableTaskState :=
  if String.eqb state "queued" then Done Queued
  else if String.eqb state "leased" then Done Leased
  else if String.eqb state "acknowledged" then Done Acknowledged
  else if String.eqb state "replied" then Done Replied
  else if String.eqb state "failed" then Done Failed
  else if String.eqb state "rejected" then Done Rejected
  else if String.eqb state "canceled" then Done Canceled
  else if String.eqb state "expired" then Done Expired
  else Fail (invalid "stored durable task state is invalid").

Definition canonical_json {A} (to_json : A → option string) (value : A) (label : string)
    : Outcome StoreError string :=
  ok_or (to_json value) (invalid (label +:+ " is invalid")).

Definition canonical_decode {A} (to_json : A → option string) (from_str : string → option A)
    (value label : string) : Outcome StoreError A :=
  let? decoded := ok_or (from_str value) (invalid (label +:+ " is invalid")) in
  let? again := canonical_json to_json decoded label in
  let? _ := reject_if (negb (String.eqb again value))
              (invalid (label +:+ " is not canonical JSON")) in
  Done decoded.

Definition parse_canonical_u64 (value label : string) : Outcome StoreError Z :=
  let bytes := as_bytes value in
  if (length bytes =? 0)%nat
     || negb (forallb is_ascii_digit bytes)
     || ((1 <? length bytes)%nat && bool_decide (head bytes = Some 48%Z))
  then Fail (invalid (label +:+ " is not canonical unsigned decimal"))
  else ok_or (checked 0 u64_max (digits_value bytes)) (invalid (label +:+ " exceeds u64")).

(** [serde_json::from_value::<HashMap<_, _>>] accepts objects only. *)
Definition json_object (value : Value) (label : string)
    : Outcome StoreError (option (list (string * Value))) :=
  match value with
  | VNull => Done None
  | VObject map => Done (Some map)
  | _ => Fail (invalid (label +:+ " is not an object"))
  end.

(** ** Checks *)

Definition is_some_and {A} (o : option A) (p : A → bool) : bool := from_option p false o.

(** The last [match] of [validate_durable_for_store]. *)
Definition state_columns_valid (task : DurableTask) : bool :=
  let live := is_none (dt_reply task) && is_none (dt_terminal_unix_ms task)
              && is_none (dt_retention_deadline_unix_ms task) in
  let ended := is_some (dt_terminal_unix_ms task)
               && is_some (dt_retention_deadline_unix_ms task) in
  match dt_state task with
  | Queued => is_none (dt_lease task) && is_none (dt_acknowledged_unix_ms task) && live
  | Leased => is_some (dt_lease task) && is_none (dt_acknowledged_unix_ms task) && live
  | Acknowledged => is_some (dt_lease task) && is_some (dt_acknowledged_unix_ms task) && live
  | Replied | Failed | Rejected =>
      is_none (dt_lease task) && is_none (dt_acknowledged_unix_ms task)
      && is_some (dt_reply task) && ended
  | Canceled | Expired =>
      is_none (dt_lease task) && is_none (dt_acknowledged_unix_ms task)
      && is_none (dt_reply task) && ended
  end.

(** The lease is of the recipient, of this attempt, and began after the creation; an
    acknowledgement falls inside it. *)
Definition validate_lease (task : DurableTask) (lease : DurableLease) : Outcome StoreError () :=
  let? leased_unix_ms :=
    ok_or (checked_sub_i64 (dl_leased_until_unix_ms lease) DELIVERY_LEASE_MS)
      (invalid "lease transition timestamp underflows") in
  reject_if
    ((leased_unix_ms <? dt_created_unix_ms task)%Z
     || negb (bool_decide (dl_owner lease = dt_recipient task))
     || negb (dl_attempt lease =? dt_attempt task)%Z
     || is_some_and (dt_acknowledged_unix_ms task) (λ acknowledged,
          (acknowledged <? leased_unix_ms) || (dl_leased_until_unix_ms lease <=? acknowledged))%Z)
    (invalid "durable lease owner, attempt, or timestamp is invalid").

Definition validate_retention (task : DurableTask) : Outcome StoreError () :=
  reject_if
    (match dt_terminal_unix_ms task, dt_retention_deadline_unix_ms task with
     | None, None => false
     | Some terminal, Some retention =>
         negb ((dt_created_unix_ms task <=? terminal)%Z
               && is_some_and (checked_add_i64 terminal TERMINAL_RETENTION_MS)
                    (λ expected, (expected =? retention)%Z))
     | _, _ => true
     end)
    (invalid "terminal retention timestamps are invalid").

Definition validate_durable_for_store (task : DurableTask) : Outcome StoreError () :=
  let? _ := map_err (invalid "task ID is invalid") (validate_task_id (dt_task_id task)) in
  let? _ := map_err (invalid "context ID is invalid") (validate_task_id (dt_context_id task)) in
  let? _ := map_err (invalid "sender is invalid") (AgentName_parse (agent_str (dt_sender task))) in
  let? _ := map_err (invalid "recipient is invalid")
              (AgentName_parse (agent_str (dt_recipient task))) in
  let? _ := map_err (invalid "request payload violates persisted payload bounds")
              (validate_persisted_payload (dt_payload task)) in
  let? _ := reject_if (negb (bool_decide (vp_file_refs (dt_payload task) = [])))
              (invalid "M2A request payload cannot contain file references") in
  let? _ := match dt_reply task with
    | Some reply =>
        let? _ := map_err (invalid "reply payload violates persisted payload bounds")
                    (validate_persisted_payload
                       (MkValidatedPayload (rp_text reply) (rp_metadata reply)
                          (rp_file_refs reply))) in
        reject_if (negb (bool_decide (rp_file_refs reply = [])))
          (invalid "M2A reply payload cannot contain file references")
    | None => Done tt
    end in
  let? expected_deadline :=
    ok_or (checked_add_i64 (dt_created_unix_ms task) DELIVERY_TTL_MS)
      (invalid "delivery deadline overflows") in
  let? _ := reject_if
              ((dt_created_unix_ms task <? 0)%Z
               || negb (dt_delivery_deadline_unix_ms task =? expected_deadline)%Z
               || (dt_state_version task =? 0)%Z)
              (invalid "durable task integer bounds are invalid") in
  let? _ := reject_if
              (is_some_and (dt_acknowledged_unix_ms task) (λ acknowledged,
                 (acknowledged <? dt_created_unix_ms task)
                 || (dt_delivery_deadline_unix_ms task <? acknowledged))%Z)
              (invalid "acknowledgement timestamp is out of bounds") in
  let? _ := match dt_lease task with
    | Some lease => validate_lease task lease
    | None => Done tt
    end in
  let? _ := validate_retention task in
  reject_if (negb (state_columns_valid task))
    (invalid "durable task state-specific columns are invalid").

(** ** Decoding *)

(** [i64::try_from] of a [u64], [u64::try_from] and [u32::try_from] of an [i64]. *)
Definition i64_from_u64 (z : Z) : option Z := checked 0 i64_max z.
Definition u64_from_i64 (z : Z) : option Z := checked 0 u64_max z.
Definition u32_from_i64 (z : Z) : option Z := checked 0 u32_max z.

(** [u64::try_from(version).ok().filter(|version| *version > 0)] *)
Definition positive_version (z : Z) : option Z :=
  match u64_from_i64 z with
  | Some version => if (0 <? version)%Z then Some version else None
  | None => None
  end.

Definition decode_lease (row : StoredTaskRow) (recipient : AgentName) (attempt : Z)
    : Outcome StoreError (option DurableLease) :=
  match str_delivery_id row, str_lease_expires_unix_ms row with
  | None, None => Done None
  | Some delivery_id, Some leased_until_unix_ms =>
      let? id := map_err (invalid "stored delivery ID is invalid") (DeliveryId_parse delivery_id) in
      Done (Some (MkDurableLease id recipient leased_until_unix_ms attempt))
  | _, _ => Fail (invalid "stored lease columns are incomplete")
  end.

Definition decode_durable_task (row : StoredTaskRow) : Outcome StoreError DurableTask :=
  let? _ := reject_if (negb (str_legacy_quarantined row =? 0)%Z)
              (invalid "quarantined task entered recoverable load") in
  let? context_id := ok_or (str_context_id row) (invalid "task context ID is missing") in
  let? sender := ok_or (str_sender_agent row) (invalid "task sender is missing") in
  let? request_json := ok_or (str_request_json row) (invalid "task request is missing") in
  let? state_version := ok_or (positive_version (str_state_version row))
                          (invalid "stored state version is invalid") in
  let? attempt := ok_or (u32_from_i64 (str_attempt row)) (invalid "stored attempt is invalid") in
  let? sender := map_err (invalid "stored sender is invalid") (AgentName_parse sender) in
  let? recipient := map_err (invalid "stored recipient is invalid")
                      (AgentName_parse (str_recipient_agent row)) in
  let? payload := canonical_decode payload_to_json payload_from_str request_json
                    "stored request payload" in
  let? reply := match str_reply_json row with
    | Some json =>
        let? reply := canonical_decode reply_to_json reply_from_str json "stored reply payload" in
        Done (Some reply)
    | None => Done None
    end in
  let? state := decode_state (str_state row) in
  let? lease := decode_lease row recipient attempt in
  let task := MkDurableTask (str_task_id row) context_id sender recipient payload
                (str_created_unix_ms row) (str_deadline_unix_ms row) state_version state lease
                attempt (str_acknowledged_unix_ms row) reply (str_terminal_unix_ms row)
                (str_retain_until_unix_ms row) in
  let? _ := validate_durable_for_store task in
  Done task.

(** ** Encoding: the row that [commit] inserts *)

Definition encode_row (task : DurableTask) (state_version : Z) (request_json : string)
    (reply_json : option string) : StoredTaskRow :=
  MkStoredTaskRow (dt_task_id task) (Some (dt_context_id task))
    (Some (agent_str (dt_sender task))) (agent_str (dt_recipient task)) (Some request_json)
    (dt_created_unix_ms task) (dt_delivery_deadline_unix_ms task) (encode_state (dt_state task))
    state_version
    ((λ lease, did_str (dl_delivery_id lease)) <$> dt_lease task)
    (dl_leased_until_unix_ms <$> dt_lease task)
    (dt_attempt task) (dt_acknowledged_unix_ms task) reply_json (dt_terminal_unix_ms task)
    (dt_retention_deadline_unix_ms task) 0.

(** ** Projection *)

Definition projection_timestamp_ms (task : DurableTask) : Outcome StoreError Z :=
  match dt_state task with
  | Queued => Done (dt_created_unix_ms task)
  | Leased =>
      let? lease := ok_or (dt_lease task) (invalid "leased transition is missing its lease") in
      ok_or (checked_sub_i64 (dl_leased_until_unix_ms lease) DELIVERY_LEASE_MS)
        (invalid "lease transition timestamp underflows")
  | Acknowledged =>
      ok_or (dt_acknowledged_unix_ms task)
        (invalid "acknowledged transition timestamp is missing")
  | Replied | Failed | Rejected | Canceled | Expired =>
      ok_or (dt_terminal_unix_ms task) (invalid "terminal transition timestamp is missing")
  end.

Definition projected_state (state : DurableTaskState) : TaskState :=
  match state with
  | Queued => TaskSubmitted
  | Leased | Acknowledged => TaskWorking
  | Replied => TaskCompleted
  | Failed => TaskFailedState
  | Rejected => TaskRejectedState
  | Canceled => TaskCanceledState
  | Expired => TaskFailedState
  end.

Definition projected_message (task : DurableTask) (suffix : string) (role : A2ARole)
    (text : string) (metadata : Value) (label : string) : Outcome StoreError Message :=
  let? metadata := json_object metadata label in
  Done {|
    message_id := dt_task_id task +:+ suffix;
    message_context_id := Some (dt_context_id task);
    message_task_id := Some (dt_task_id task);
    message_role := role;
    message_parts := [text_part text];
    message_metadata := metadata;
    message_extensions := None;
    message_reference_task_ids := None;
  |}.

(** The A2A task that [projection_json] serialises. *)
Definition projection (task : DurableTask) : Outcome StoreError A2ATask :=
  let? _ := validate_durable_for_store task in
  let? timestamp_ms := projection_timestamp_ms task in
  let? timestamp := ok_or (timestamp_millis_opt timestamp_ms)
                      (invalid "projection timestamp is invalid") in
  let? request := projected_message task "-request" RoleUser (vp_text (dt_payload task))
                    (vp_metadata (dt_payload task)) "request metadata" in
  let? reply_message := match dt_reply task with
    | Some reply =>
        let? message := projected_message task "-reply" RoleAgent (rp_text reply)
                          (rp_metadata reply) "reply metadata" in
        Done (Some message)
    | None => Done None
    end in
  Done {|
    a2a_id := dt_task_id task;
    a2a_context_id := dt_context_id task;
    a2a_status := MkTaskStatus (projected_state (dt_state task)) reply_message (Some timestamp);
    a2a_artifacts := None;
    a2a_history := Some [request];
    a2a_metadata := None;
  |}.

Definition projection_json (task : DurableTask) : Outcome StoreError string :=
  let? projected := projection task in
  canonical_json task_to_json projected "task projection".

(** [TaskColumns] *)
Record TaskColumns := MkTaskColumns {
  tc_task_id : string;
  tc_context_id : string;
  tc_state : string;
  tc_status_timestamp : string;
  tc_task_json : string;
}.

(** [serialized_string] of a task state. *)
Definition serialized_state (state : TaskState) : Outcome A2AError string :=
  ok_or (task_state_name state) (A2A_internal "task state serialization failed").

(** [TaskColumns::from_task] *)
Definition TaskColumns_from_task (task : A2ATask) : Outcome A2AError TaskColumns :=
  let? state := serialized_state (status_state (a2a_status task)) in
  let status_timestamp := default "" (sortable_timestamp <$> status_timestamp (a2a_status task)) in
  let? task_json := ok_or (task_to_json task) (A2A_internal "task serialization failed") in
  Done (MkTaskColumns (a2a_id task) (a2a_context_id task) state status_timestamp task_json).
End codec.
