(* ===== verification/Ledger.v ===== *)
(** * The task ledger: operations

    The statements of [herdr-a2a-broker/src/ledger.rs] over the tables of the task
    store: [load] and [commit] of [BrokerPersistence], the projection outbox, the
    checks of the whole store, and the start-up migration.  A table with a primary
    key is a finite map; [ORDER BY task_id] lists it in the order of its keys. *)
From stdpp Require Import prelude gmap strings sorting.
From S2P Require Import Prelude RustStd Model Validation Durability BrokerState Sqlite LedgerCodec.

(** ** Tables *)

Record ProjectionRow := MkProjectionRow {
  pr_context_id : string;
  pr_state : string;
  pr_status_timestamp : string;
  pr_version : Z;
  pr_task_json : string;
}.

#[global] Instance ProjectionRow_eq_dec : EqDecision ProjectionRow.
Proof. solve_decision. Defined.

(** A row of [tasks]: its rowid and its columns. *)
Record TaskRow := MkTaskRow {
  row_id : Z;
  row_columns : ProjectionRow;
}.

#[global] Instance TaskRow_eq_dec : EqDecision TaskRow.
Proof. solve_decision. Defined.

Record BrokerMeta := MkBrokerMeta {
  meta_last_registration_epoch : string;
  meta_first_m2a_start_unix_ms : Z;
}.

Record TaskOwner := MkTaskOwner {
  owner_registration_id : string;
  owner_recipient : option string;
}.

Record Tables := MkTables {
  user_version : Z;
  delivery_tasks : gmap string StoredTaskRow;
  broker_meta : option BrokerMeta;
  projection_outbox : gmap string (Z * string);
  task_rows : gmap string TaskRow;
  task_owners : gmap string TaskOwner;
}.

#[global] Instance Tables_fields : Fields Tables := λ t,
  MkTables (user_version t) (delivery_tasks t) (broker_meta t) (projection_outbox t)
    (task_rows t) (task_owners t).

(** The columns of a row of [tasks]. *)
Definition task_columns (task_id : string) (t : Tables) : option ProjectionRow :=
  row_columns <$> task_rows t !! task_id.

(** The rowid SQLite gives a new row: one more than the greatest. *)
Definition next_row_id (t : Tables) : Z :=
  foldr Z.max 0%Z ((λ p, row_id p.2) <$> map_to_list (task_rows t)) + 1.

#[global] Instance BrokerMeta_fields : Fields BrokerMeta := λ m,
  MkBrokerMeta (meta_last_registration_epoch m) (meta_first_m2a_start_unix_ms m).

Definition key_le {A} (p q : string * A) : Prop := String.le p.1 q.1.

#[global] Instance key_le_dec {A} : RelDecision (@key_le A).
Proof. intros p q. unfold key_le. apply _. Defined.

(** [ORDER BY task_id] *)
Definition by_key {A} (m : gmap string A) : list (string * A) := merge_sort key_le (map_to_list m).

(** [u64::to_string]; twenty digits are enough. *)
Fixpoint decimal_digits (fuel : nat) (z : Z) : list Z :=
  match fuel with
  | 0 => []
  | S fuel =>
      if (z <? 10)%Z then [(z + 48)%Z]
      else decimal_digits fuel (z / 10) ++ [(z mod 10 + 48)%Z]
  end.
Definition u64_to_string (z : Z) : string := string_of_bytes (decimal_digits 20 z).
Arguments u64_to_string _ : simpl never.

Section ledger.
Context `{Rusqlite} `{JsonNumber} {serde : SerdeJson} {chrono : Chrono} {uuid : UuidLib}.
Context {json : LedgerSerde} (fault : nat → option SqlError).

Abbreviation M := (ST (Conn Tables) StoreError).

(** [query_row] without [optional]: no row is an error. *)
Definition query_some {A} (f : Tables → option A) : M A :=
  let! row := query fault f in
  st_lift (ok_or row (StoreSqlite query_returned_no_rows)).

Definition reject (condition : bool) (message : string) : M () :=
  st_lift (reject_if condition (invalid message)).

(** ** Projections *)

Definition stored_task_row (task_id : string) : M (option StoredTaskRow) :=
  query fault (λ t, delivery_tasks t !! task_id).

Definition validate_outbox_entry (task_id : string) (state_version : Z) (task_json : string) : M () :=
  let! row := stored_task_row task_id in
  let! row := st_lift (ok_or row (invalid "projection outbox has no retained ledger task")) in
  let! _ := reject (negb (str_legacy_quarantined row =? 0)%Z)
              "projection outbox references a quarantined task" in
  let! durable := st_lift (decode_durable_task row) in
  let! durable_version := st_lift (ok_or (i64_from_u64 (dt_state_version durable))
                            (invalid "ledger state version exceeds SQLite integer range")) in
  let! _ := reject (negb (state_version =? durable_version)%Z)
              "projection outbox state version differs from ledger" in
  let! expected := st_lift (projection_json durable) in
  reject (negb (String.eqb task_json expected))
    "projection outbox JSON differs from ledger projection".

Definition projection_row (columns : TaskColumns) (state_version : Z) : ProjectionRow :=
  MkProjectionRow (tc_context_id columns) (tc_state columns) (tc_status_timestamp columns)
    state_version (tc_task_json columns).

(** [INSERT .. ON CONFLICT(task_id) DO UPDATE .. WHERE excluded.version >= tasks.version];
    an update keeps the rowid. *)
Definition put_projection (task_id : string) (row : ProjectionRow) (t : Tables) : Tables :=
  match task_rows t !! task_id with
  | Some old => if (pr_version (row_columns old) <=? pr_version row)%Z
                then t <| task_rows ::= <[task_id := MkTaskRow (row_id old) row]> |> else t
  | None => t <| task_rows ::= <[task_id := MkTaskRow (next_row_id t) row]> |>
  end.

(** [DELETE FROM projection_outbox WHERE task_id = ?1 AND state_version = ?2] *)
Definition clear_outbox (task_id : string) (state_version : Z) (t : Tables) : Tables :=
  match projection_outbox t !! task_id with
  | Some (version, _) => if (version =? state_version)%Z
                         then t <| projection_outbox ::= delete task_id |> else t
  | None => t
  end.

Definition apply_authorized_projection (columns : TaskColumns) : M Z :=
  let task_id := tc_task_id columns in
  let! outbox := query fault (λ t, projection_outbox t !! task_id) in
  match outbox with
  | None =>
      let! stored := query fault (task_columns task_id) in
      match stored with
      | Some row =>
          if String.eqb (pr_task_json row) (tc_task_json columns)
          then st_lift (ok_or (positive_version (pr_version row))
                          (invalid "stored task version is invalid"))
          else st_fail (invalid PROJECTION_NOT_AUTHORIZED)
      | None => st_fail (invalid PROJECTION_NOT_AUTHORIZED)
      end
  | Some (state_version, task_json) =>
      let! _ := validate_outbox_entry task_id state_version task_json in
      let! _ := reject (negb (String.eqb task_json (tc_task_json columns)))
                  PROJECTION_NOT_AUTHORIZED in
      let! _ := execute fault (put_projection task_id (projection_row columns state_version)) in
      let! applied := query_some (task_columns task_id) in
      let! _ := reject (negb (bool_decide (applied = projection_row columns state_version)))
                  "intended task projection was not applied" in
      let! _ := execute fault (clear_outbox task_id state_version) in
      st_lift (ok_or (positive_version state_version)
                 (invalid "projection state version is invalid"))
  end.

(** The body of the loop of [apply_pending_projections_on_connection]. *)
Definition apply_pending_entry (entry : string * (Z * string)) : M () :=
  let '(task_id, (state_version, task_json)) := entry in
  let! task := st_lift (ok_or (task_from_str task_json)
                          (invalid "projection outbox contains invalid task JSON")) in
  let! _ := reject (negb (String.eqb (a2a_id task) task_id))
              "projection task ID does not match outbox key" in
  let! columns := st_lift (map_err (invalid "projection task cannot be encoded")
                             (TaskColumns_from_task task)) in
  let! applied_version := apply_authorized_projection columns in
  let! intended := st_lift (ok_or (u64_from_i64 state_version)
                              (invalid "projection state version is invalid")) in
  reject (negb (applied_version =? intended)%Z) "intended task projection was not applied".

Definition apply_pending_projections_on_connection : M nat :=
  in_transaction fault (
    let! pending := query fault (λ t, by_key (projection_outbox t)) in
    let! _ := for_each apply_pending_entry pending in
    let! _ := commit_transaction fault in
    st_ret (length pending)).

Definition apply_pending_projections : M nat :=
  spawn_blocking apply_pending_projections_on_connection.

(** ** Checking the store *)

Definition quarantine_invalid (row : StoredTaskRow) : bool :=
  (str_legacy_quarantined row =? 1)%Z
  && (is_some (str_sender_agent row)
      || negb (String.eqb (str_state row) "legacy_identity_unavailable")
      || is_none (str_retain_until_unix_ms row)).

Definition recoverable (row : StoredTaskRow) : bool := (str_legacy_quarantined row =? 0)%Z.

(** [SELECT .. FROM delivery_tasks WHERE legacy_quarantined = 0 ORDER BY task_id] *)
Definition recoverable_rows (t : Tables) : list StoredTaskRow :=
  filter (λ row, recoverable row = true) (by_key (delivery_tasks t)).*2.

(** The columns that [projection_json] stands for. *)
Definition expected_columns (durable : DurableTask) : Outcome StoreError TaskColumns :=
  let? json_text := projection_json durable in
  let? projected := ok_or (task_from_str json_text)
                      (invalid "ledger task projection cannot be decoded") in
  map_err (invalid "ledger task projection cannot be encoded") (TaskColumns_from_task projected).

Definition validate_retained_row (pending : gset string) (row : StoredTaskRow) : M () :=
  let task_id := str_task_id row in
  let! durable := st_lift (decode_durable_task row) in
  let! expected := st_lift (expected_columns durable) in
  let! durable_version := st_lift (ok_or (i64_from_u64 (dt_state_version durable))
                            (invalid "ledger state version exceeds SQLite integer range")) in
  let! stored := query fault (task_columns task_id) in
  let projection_is_current :=
    is_some_and stored (λ row, bool_decide (row = projection_row expected durable_version)) in
  reject (negb projection_is_current && negb (bool_decide (task_id ∈ pending)))
    "task projection differs from the retained ledger without a pending repair".

Definition validate_store : M () :=
  let! version := query fault user_version in
  let! _ := reject (negb (version =? SCHEMA_VERSION)%Z) "M2A schema has not been prepared" in
  let! count := query fault (λ t, size (delivery_tasks t)) in
  let! _ := reject (MAX_RETAINED_TASKS <? count)%nat "retained task capacity exceeds 4096" in
  let! invalid_quarantine :=
    query fault (λ t, length (filter (λ p, quarantine_invalid p.2 = true)
                                (map_to_list (delivery_tasks t)))) in
  let! _ := reject (negb (invalid_quarantine =? 0)%nat) "legacy quarantine invariant is invalid" in
  let! outbox_count := query fault (λ t, size (projection_outbox t)) in
  let! _ := reject (count <? outbox_count)%nat "projection outbox exceeds retained task count" in
  let! outbox := query fault (λ t, by_key (projection_outbox t)) in
  let! _ := for_each (λ '(task_id, (state_version, task_json)),
              validate_outbox_entry task_id state_version task_json) outbox in
  let! retained := query fault recoverable_rows in
  for_each (validate_retained_row (list_to_set outbox.*1)) retained.

(** ** [BrokerPersistence::load] *)

Definition load_closure : M DurableBrokerSnapshot :=
  let! _ := validate_store in
  let! meta := query_some broker_meta in
  let! epoch := st_lift (parse_canonical_u64 (meta_last_registration_epoch meta)
                           "registration epoch") in
  let! rows := query fault recoverable_rows in
  let! tasks := st_lift (try_map decode_durable_task rows) in
  st_ret (MkSnapshot (MkRegistrationEpoch epoch) tasks).

Definition ledger_load (db : Conn Tables)
    : Result DomainError DurableBrokerSnapshot * Conn Tables :=
  match spawn_blocking load_closure db with
  | (Done snapshot, db') => (Ok snapshot, db')
  | (_, db') => (Err PersistenceUnavailable, db')
  end.

(** ** [BrokerPersistence::commit] *)

Definition require_schema : M () :=
  let! version := query fault user_version in
  reject (negb (version =? SCHEMA_VERSION)%Z) "M2A schema has not been prepared".

Definition raise_epoch (watermark : option RegistrationEpoch) : M () :=
  match watermark with
  | Some epoch =>
      let! meta := query_some broker_meta in
      let! current := st_lift (parse_canonical_u64 (meta_last_registration_epoch meta)
                                 "registration epoch") in
      if (current <? epoch_get epoch)%Z
      then execute fault (λ t, t <| broker_meta ::= fmap (λ m,
             m <| meta_last_registration_epoch := u64_to_string (epoch_get epoch) |>) |>)
      else st_ret tt
  | None => st_ret tt
  end.

Definition delete_retained (task_id : string) : M () :=
  let! _ := st_lift (map_err (invalid "delete task ID is invalid") (validate_task_id task_id)) in
  let! _ := execute fault (λ t, t <| projection_outbox ::= delete task_id |>) in
  let! _ := execute fault (λ t, t <| delivery_tasks ::= delete task_id |>) in
  let! _ := execute fault (λ t, t <| task_owners ::= delete task_id |>) in
  execute fault (λ t, t <| task_rows ::= delete task_id |>).

(** The rows of [delivery_tasks] and the owners without one. *)
Definition retained_ids (t : Tables) : gset string :=
  dom (delivery_tasks t) ∪ dom (task_owners t).

(** The [try_fold] that counts the new task identifiers. *)
Fixpoint count_new (tasks : list DurableTask) (incoming_ids : gset string) (count : nat) : M nat :=
  match tasks with
  | [] => st_ret count
  | task :: tasks =>
      if decide (dt_task_id task ∈ incoming_ids) then count_new tasks incoming_ids count
      else
        let! exists_ := query fault (λ t, bool_decide (dt_task_id task ∈ retained_ids t)) in
        count_new tasks ({[ dt_task_id task ]} ∪ incoming_ids)
          (if exists_ then count else S count)
  end.

Definition check_capacity (tasks : list DurableTask) : M () :=
  let! retained := query fault (λ t, size (retained_ids t)) in
  let! new_ids := count_new tasks ∅ 0 in
  reject (MAX_RETAINED_TASKS <? retained + new_ids)%nat "retained task capacity is exhausted".

(** The [CHECK] constraints of [delivery_tasks]. *)
Definition row_checks (row : StoredTaskRow) : bool :=
  (1 <=? str_state_version row)%Z && (0 <=? str_attempt row)%Z.

(** [INSERT .. ON CONFLICT(task_id) DO UPDATE .. WHERE excluded.state_version >
    delivery_tasks.state_version AND delivery_tasks.legacy_quarantined = 0]: the
    number of rows affected. *)
Definition upsert_row (row : StoredTaskRow) : M nat :=
  let! old := query fault (λ t, delivery_tasks t !! str_task_id row) in
  let! _ := st_lift (reject_if (negb (row_checks row)) (StoreSqlite check_violation)) in
  let applies := match old with
    | Some old => (str_state_version old <? str_state_version row)%Z && recoverable old
    | None => true
    end in
  if applies
  then let! _ := st_modify (write (λ t, t <| delivery_tasks ::= <[str_task_id row := row]> |>)) in
       st_ret 1%nat
  else st_ret 0%nat.

(** [INSERT INTO projection_outbox .. WHERE excluded.state_version >
    projection_outbox.state_version] *)
Definition put_outbox (task_id : string) (state_version : Z) (task_json : string) (t : Tables)
    : Tables :=
  match projection_outbox t !! task_id with
  | Some (version, _) =>
      if (version <? state_version)%Z
      then t <| projection_outbox ::= <[task_id := (state_version, task_json)]> |> else t
  | None => t <| projection_outbox ::= <[task_id := (state_version, task_json)]> |>
  end.

(** One task of the batch; [false] asks for the early return with
    [ReconciliationRequired]. *)
Definition upsert_task (entry : DurableTask * string) : M bool :=
  let '(task, task_json) := entry in
  let! _ := st_lift (validate_durable_for_store task) in
  let! existing_quarantine :=
    query fault (λ t, str_legacy_quarantined <$> delivery_tasks t !! dt_task_id task) in
  let! _ := reject (bool_decide (existing_quarantine = Some 1%Z))
              "task ID belongs to a quarantined legacy row" in
  let! state_version := st_lift (ok_or (i64_from_u64 (dt_state_version task))
                          (invalid "state version exceeds SQLite integer range")) in
  let! request_json := st_lift (canonical_json payload_to_json (dt_payload task)
                                  "request payload") in
  let! reply_json := st_lift (match dt_reply task with
    | Some reply => let? text := canonical_json reply_to_json reply "reply payload" in
                    Done (Some text)
    | None => Done None
    end) in
  let! affected := upsert_row (encode_row task state_version request_json reply_json) in
  if (affected =? 0)%nat then
    let! stored := stored_task_row (dt_task_id task) in
    let! stored := st_lift (ok_or stored (invalid "version-suppressed task row is missing")) in
    if recoverable stored then
      let! decoded := st_lift (decode_durable_task stored) in
      st_ret (bool_decide (decoded = task))
    else st_ret false
  else
    let! _ := execute fault (put_outbox (dt_task_id task) state_version task_json) in
    st_ret true.

Fixpoint upsert_tasks (entries : list (DurableTask * string)) : M bool :=
  match entries with
  | [] => st_ret true
  | entry :: entries =>
      let! continue_ := upsert_task entry in
      if continue_ then upsert_tasks entries else st_ret false
  end.

(** The transaction of [commit]: [true] when it was committed, [false] when it was
    dropped because a newer row is stored. *)
Definition commit_batch (batch : PersistenceBatch) (encoded : list (DurableTask * string)) : M bool :=
  in_transaction fault (
    let! _ := require_schema in
    let! _ := raise_epoch (batch_registration_epoch_high_watermark batch) in
    let! _ := for_each delete_retained (batch_delete_task_ids batch) in
    let! _ := check_capacity encoded.*1 in
    let! applied := upsert_tasks encoded in
    if applied then
      let! _ := commit_transaction fault in
      st_ret true
    else st_ret false).

(** [.map(|_| Complete).unwrap_or(ReconciliationRequired)] *)
Definition projection_outcome (m : M nat) : M PersistenceCommitOutcome := λ db,
  match m db with
  | (Done _, db') => (Done Complete, db')
  | (Fail _, db') => (Done ReconciliationRequired, db')
  | (Panic msg, db') => (Panic msg, db')
  end.

(** The closure of [commit]: the outcome of the ledger and, when it was committed,
    of the projections. *)
Definition commit_closure (batch : PersistenceBatch) (encoded : list (DurableTask * string))
    : M (PersistenceCommitOutcome * option PersistenceCommitOutcome) :=
  let! applied := commit_batch batch encoded in
  if applied then
    let! outcome := projection_outcome apply_pending_projections_on_connection in
    st_ret (Complete, Some outcome)
  else st_ret (ReconciliationRequired, None).

Definition merge_outcomes (ledger projections : PersistenceCommitOutcome)
    : PersistenceCommitOutcome :=
  match ledger, projections with
  | Complete, Complete => Complete
  | _, _ => ReconciliationRequired
  end.

Definition encode_batch (tasks : list DurableTask) : Outcome StoreError (list (DurableTask * string)) :=
  try_map (λ task, let? text := projection_json task in Done (task, text)) tasks.

(** [commit] on the connection.  The flag says that the transaction was committed;
    then [commit] also retires the admissions of the deleted tasks. *)
Definition ledger_commit (batch : PersistenceBatch) (db : Conn Tables)
    : Result DomainError PersistenceCommitOutcome * bool * Conn Tables :=
  match encode_batch (batch_upsert_tasks batch) with
  | Done encoded =>
      match spawn_blocking (commit_closure batch encoded) db with
      | (Done (ledger_outcome, Some outcome), db') =>
          (Ok (merge_outcomes ledger_outcome outcome), true, db')
      | (Done (ledger_outcome, None), db') =>
          match apply_pending_projections db' with
          | (Done _, db'') => (Ok (merge_outcomes ledger_outcome Complete), false, db'')
          | (_, db'') => (Ok (merge_outcomes ledger_outcome ReconciliationRequired), false, db'')
          end
      | (_, db') => (Err PersistenceUnavailable, false, db')
      end
  | _ => (Err PersistenceUnavailable, false, db)
  end.
End ledger.
