(* ===== verification/LedgerRows.v ===== *)
(** * Rows of the ledger: round trips

    What [commit] writes for a task is what [load] reads back, and the decimal text
    of an epoch parses to it. *)
From stdpp Require Import prelude gmap strings sorting.
From S2P Require Import Prelude RustStd Model Validation Durability BrokerState Sqlite LedgerCodec.
From S2P Require Import Ledger.

(** The documented round trip of [serde_json]: what [to_string] writes for a value
    without floats, [from_str] reads back.  Nothing is said of floats: without the
    feature [float_roundtrip] a float may be read back as a neighbour. *)
Class LedgerSerdeSpec `{JsonNumber} {chrono : Chrono} {json : LedgerSerde} : Prop := {
  payload_round : ∀ v s, no_floats (vp_metadata v) = true → payload_to_json v = Some s → payload_from_str s = Some v;
  reply_round : ∀ v s, no_floats (rp_metadata v) = true → reply_to_json v = Some s → reply_from_str s = Some v;
}.

Section rows.
Context `{Rusqlite} `{JsonNumber} {serde : SerdeJson} {chrono : Chrono} {uuid : UuidLib}.
Context {json : LedgerSerde}.

(** The values of the Rust types: a version is a [u64], an attempt a [u32], and a
    delivery identifier is one that [DeliveryId::parse] returned. *)
Record TypedTask (task : DurableTask) : Prop := {
  typed_version : in_u64 (dt_state_version task);
  typed_attempt : in_u32 (dt_attempt task);
  typed_delivery : ∀ lease, dt_lease task = Some lease →
    DeliveryId_parse (did_str (dl_delivery_id lease)) = Done (dl_delivery_id lease);
}.

(** A task whose metadata holds no floats. *)
Record ExactTask (task : DurableTask) : Prop := {
  exact_payload : no_floats (vp_metadata (dt_payload task)) = true;
  exact_reply : ∀ reply, dt_reply task = Some reply → no_floats (rp_metadata reply) = true;
}.

Lemma decode_encode_state state : decode_state (encode_state state) = Done state.
Proof. by destruct state. Qed.

Lemma encode_decode_state text state : decode_state text = Done state → encode_state state = text.
Proof.
  unfold decode_state.
  repeat match goal with |- context [String.eqb text ?s] =>
    destruct (String.eqb_spec text s) as [->|_]; [by intros [= <-]|] end. done.
Qed.

Lemma canonical_roundtrip {A} (to_json : A → option string) from_str value label label' text :
  (∀ s, to_json value = Some s → from_str s = Some value) →
  canonical_json to_json value label = Done text →
  canonical_decode to_json from_str text label' = Done value.
Proof.
  unfold canonical_json, canonical_decode. intros Hround.
  destruct (to_json value) as [s|] eqn:Hs; [|done]. intros [= <-].
  rewrite (Hround _ eq_refl). simpl. unfold canonical_json. rewrite Hs. simpl. by rewrite String.eqb_refl.
Qed.

(** The facts that a passed check gives to the decoder. *)
Record StoreValid (task : DurableTask) : Prop := {
  sv_sender : AgentName_parse (agent_str (dt_sender task)) = Done (dt_sender task);
  sv_recipient : AgentName_parse (agent_str (dt_recipient task)) = Done (dt_recipient task);
  sv_version : dt_state_version task ≠ 0%Z;
  sv_lease : ∀ lease, dt_lease task = Some lease →
    dl_owner lease = dt_recipient task ∧ dl_attempt lease = dt_attempt task;
}.

Lemma parsed_name n n' : AgentName_parse (agent_str n) = Done n' → AgentName_parse (agent_str n) = Done n.
Proof.
  unfold AgentName_parse. destruct (as_bytes _); [done|]. destruct (_ || _ || _); [done|].
  intros _. by destruct n.
Qed.

Lemma validate_lease_Done task lease u :
  validate_lease task lease = Done u →
  dl_owner lease = dt_recipient task ∧ dl_attempt lease = dt_attempt task.
Proof.
  unfold validate_lease. intros (start & _ & Hr%reject_if_Done)%out_bind_Done.
  apply orb_false_iff in Hr as [[[_ Ho]%orb_false_iff Ha]%orb_false_iff _].
  apply negb_false_iff in Ho, Ha. apply bool_decide_eq_true in Ho. by apply Z.eqb_eq in Ha.
Qed.

Lemma validate_durable_Done task u : validate_durable_for_store task = Done u → StoreValid task.
Proof.
  unfold validate_durable_for_store. intros Hv.
  apply out_bind_Done in Hv as (? & _ & Hv). apply out_bind_Done in Hv as (? & _ & Hv).
  apply out_bind_Done in Hv as (s & Hs%map_err_Done & Hv).
  apply out_bind_Done in Hv as (r & Hr%map_err_Done & Hv).
  do 3 apply out_bind_Done in Hv as (? & _ & Hv).
  apply out_bind_Done in Hv as (deadline & _ & Hv).
  apply out_bind_Done in Hv as (? & Hb%reject_if_Done & Hv).
  apply out_bind_Done in Hv as (? & _ & Hv). apply out_bind_Done in Hv as ([] & Hl & _).
  split.
  - by eapply parsed_name.
  - by eapply parsed_name.
  - apply orb_false_iff in Hb as [_ Hb]. by apply Z.eqb_neq in Hb.
  - intros lease Hlease. rewrite Hlease in Hl. by eapply validate_lease_Done.
Qed.

Lemma i64_from_u64_Some z v : i64_from_u64 z = Some v → v = z ∧ (0 ≤ z ≤ i64_max)%Z.
Proof. unfold i64_from_u64. by intros [-> ?]%checked_Some. Qed.

Lemma positive_version_i64 z : (0 < z ≤ i64_max)%Z → positive_version z = Some z.
Proof.
  intros Hz. unfold positive_version, u64_from_i64.
  rewrite (proj2 (checked_Some 0 u64_max z z)) by (split; [done|unfold i64_max, u64_max in *; lia]).
  destruct (Z.ltb_spec 0 z); [done|lia].
Qed.

Lemma u32_from_i64_typed z : in_u32 z → u32_from_i64 z = Some z.
Proof. intros Hz. apply checked_Some. by split. Qed.

(** The row written for a task decodes to that task. *)
Lemma encode_row_roundtrip `{!LedgerSerdeSpec} task version request reply :
  validate_durable_for_store task = Done tt → TypedTask task → ExactTask task →
  i64_from_u64 (dt_state_version task) = Some version →
  canonical_json payload_to_json (dt_payload task) "request payload" = Done request →
  (match dt_reply task with
   | Some r => let? text := canonical_json reply_to_json r "reply payload" in Done (Some text)
   | None => Done None
   end = Done reply) →
  decode_durable_task (encode_row task version request reply) = Done task.
Proof.
  intros Hvalid [Hver Hatt Hdel] [Hpl Hrp] Hversion Hrequest Hreply.
  destruct (validate_durable_Done _ _ Hvalid) as [Hs Hr Hv0 Hlease].
  apply i64_from_u64_Some in Hversion as [-> Hrange].
  assert (canonical_decode payload_to_json payload_from_str request "stored request payload"
          = Done (dt_payload task)) as Hreq
    by (eapply canonical_roundtrip; [by intros s; apply payload_round|done]).
  assert (match reply with
    | Some json => let? r := canonical_decode reply_to_json reply_from_str json "stored reply payload" in
                   Done (Some r)
    | None => Done None end = Done (E := StoreError) (dt_reply task)) as Hrep.
  { destruct (dt_reply task) as [r|]; [|by injection Hreply as <-].
    apply out_bind_Done in Hreply as (text & Htext & [= <-]).
    by rewrite (canonical_roundtrip _ reply_from_str _ _ "stored reply payload" _
      (λ s, reply_round r s (Hrp r eq_refl)) Htext). }
  unfold decode_durable_task, encode_row. cbn.
  rewrite positive_version_i64 by lia. cbn. rewrite u32_from_i64_typed by done. cbn.
  rewrite Hs, Hr. cbn. rewrite Hreq. cbn. rewrite Hrep. cbn. rewrite decode_encode_state. cbn.
  unfold decode_lease. cbn.
  destruct task as [id ctx snd rcp pl cr dd sv st [l|] att ack rep term ret]; cbn in *.
  - rewrite (Hdel l eq_refl). cbn. destruct (Hlease l eq_refl) as [<- <-].
    destruct l as [did own until la]; cbn in *. by rewrite Hvalid.
  - by rewrite Hvalid.
Qed.

Lemma decoded_task_id row task : decode_durable_task row = Done task → dt_task_id task = str_task_id row.
Proof.
  unfold decode_durable_task. intros Hd.
  do 12 apply out_bind_Done in Hd as (? & _ & Hd). cbv zeta in Hd.
  apply out_bind_Done in Hd as (? & _ & Hd). by injection Hd as <-.
Qed.

Lemma decoded_recoverable row task : decode_durable_task row = Done task → recoverable row = true.
Proof.
  unfold decode_durable_task. intros (? & Hq%reject_if_Done & _)%out_bind_Done.
  by apply negb_false_iff in Hq.
Qed.

(** ** Decimal text *)

Lemma decimal_digits_spec fuel z :
  (0 ≤ z < 10 ^ Z.of_nat fuel)%Z → 0 < fuel →
  digits_value (decimal_digits fuel z) = z ∧
  Forall (λ b, 48 ≤ b ≤ 57)%Z (decimal_digits fuel z) ∧
  decimal_digits fuel z ≠ [] ∧
  (head (decimal_digits fuel z) = Some 48%Z → length (decimal_digits fuel z) = 1).
Proof.
  revert z. induction fuel as [|fuel IH]; intros z Hz Hf; [lia|]. cbn [decimal_digits].
  destruct (Z.ltb_spec z 10).
  - split_and!; [unfold digits_value; cbn; lia|constructor; [lia|constructor]|done|done].
  - assert (0 < z / 10)%Z by (apply Z.div_str_pos; lia).
    assert (0 < fuel) by (destruct fuel; [cbn in Hz; lia|lia]).
    destruct (IH (z / 10)%Z) as (Hv & Hd & Hne & Hh); [|done|].
    { split; [lia|]. apply Z.div_lt_upper_bound; [lia|].
      rewrite Nat2Z.inj_succ, Z.pow_succ_r in Hz by lia. lia. }
    pose proof (Z.mod_pos_bound z 10 ltac:(lia)) as Hm.
    split_and!.
    + unfold digits_value in *. rewrite foldl_app. cbn. rewrite Hv.
      pose proof (Z.div_mod z 10 ltac:(lia)). lia.
    + apply Forall_app. split; [done|]. apply Forall_singleton. lia.
    + by destruct (decimal_digits fuel (z / 10)).
    + destruct (decimal_digits fuel (z / 10)) as [|b l] eqn:Hl; [done|]. cbn. intros [= ->].
      specialize (Hh eq_refl). destruct l; [|done]. unfold digits_value in Hv. cbn in Hv. lia.
Qed.

(** The decimal text of a [u64] parses to it. *)
Lemma parse_u64_to_string z label : in_u64 z → parse_canonical_u64 (u64_to_string z) label = Done z.
Proof.
  intros Hz. destruct (decimal_digits_spec 20 z) as (Hv & Hd & Hne & Hh); [|lia|].
  { unfold in_u64, u64_max in Hz. split; [lia|]. change (10 ^ Z.of_nat 20)%Z with 100000000000000000000%Z. lia. }
  unfold parse_canonical_u64, u64_to_string.
  rewrite as_bytes_string_of_bytes.
  2:{ eapply Forall_impl; [exact Hd|]. unfold byte_range. cbv beta. lia. }
  set (l := decimal_digits 20 z) in *.
  assert (forallb is_ascii_digit l = true) as ->.
  { apply forallb_forall. intros b Hb%list_elem_of_In. rewrite Forall_forall in Hd.
    specialize (Hd b Hb). unfold is_ascii_digit. cbv beta in Hd. lia. }
  destruct (Nat.eqb_spec (length l) 0) as [Hl|_]; [by destruct l|]. cbn [negb orb].
  destruct (bool_decide (head l = Some 48%Z)) eqn:Hhd.
  - apply bool_decide_eq_true, Hh in Hhd. rewrite Hhd. cbn [Nat.ltb Nat.leb andb].
    rewrite Hv. by rewrite (proj2 (checked_Some 0 u64_max z z)).
  - rewrite andb_false_r, Hv. by rewrite (proj2 (checked_Some 0 u64_max z z)).
Qed.
End rows.
