(* ===== verification/LedgerCommit.v ===== *)
(** * The ledger refines the persistence interface

    The view of the tables as a durable map of tasks, and what [commit], [load] and
    the application of the projections do to it. *)
From stdpp Require Import prelude gmap strings sorting.
From S2P Require Import Prelude RustStd Model Validation Durability BrokerState BrokerRecover.
From S2P Require Import Sqlite LedgerCodec Ledger LedgerRows.

(** ** Absence of panics *)

Section no_panics.
Context `{Rusqlite} `{JsonNumber} {serde : SerdeJson} {chrono : Chrono} {uuid : UuidLib}.
Context {json : LedgerSerde}.

Lemma validate_task_id_no_panic id : no_panic (validate_task_id id).
Proof. unfold validate_task_id. by destruct (_ || _). Qed.

Lemma AgentName_parse_no_panic s : no_panic (AgentName_parse s).
Proof. unfold AgentName_parse. by destruct (as_bytes s); [|destruct (_ || _ || _)]. Qed.

Lemma DeliveryId_parse_no_panic s : no_panic (DeliveryId_parse s).
Proof.
  unfold DeliveryId_parse, parse_uuid_v7. destruct (uuid_parse_str s); simpl; [|done].
  by destruct (_ || _).
Qed.

Lemma parse_canonical_u64_no_panic value label : no_panic (parse_canonical_u64 value label).
Proof. unfold parse_canonical_u64. destruct (_ || _); auto with herdr. Qed.

Lemma canonical_json_no_panic {A} (to_json : A → option string) value label :
  no_panic (canonical_json to_json value label).
Proof. unfold canonical_json. auto with herdr. Qed.

Lemma json_object_no_panic value label : no_panic (json_object value label).
Proof. by destruct value. Qed.
End no_panics.

#[export] Hint Resolve validate_task_id_no_panic AgentName_parse_no_panic
  DeliveryId_parse_no_panic parse_canonical_u64_no_panic canonical_json_no_panic
  json_object_no_panic validate_persisted_payload_no_panic : herdr.

(** Splits a computation into its parts. *)
Ltac no_panic :=
  repeat first
    [ progress intros
    | solve [auto 1 with herdr]
    | apply no_panic_done | apply no_panic_fail
    | apply no_panic_bind | apply no_panic_map_err
    | apply no_panic_reject_if | apply no_panic_ok_or
    | solve [auto 2 with herdr]
    | progress cbv zeta
    | case_match ].

Section no_panics_of_tasks.
Context `{Rusqlite} `{JsonNumber} {serde : SerdeJson} {chrono : Chrono} {uuid : UuidLib}.
Context {json : LedgerSerde}.

Lemma validate_durable_no_panic task : no_panic (validate_durable_for_store task).
Proof. unfold validate_durable_for_store, validate_lease, validate_retention. no_panic. Qed.

Lemma decode_state_no_panic text : no_panic (decode_state text).
Proof. unfold decode_state. no_panic. Qed.

Lemma canonical_decode_no_panic {A} (to_json : A → option string) from_str value label :
  no_panic (canonical_decode to_json from_str value label).
Proof. unfold canonical_decode. no_panic. Qed.

#[local] Hint Resolve validate_durable_no_panic decode_state_no_panic
  canonical_decode_no_panic : herdr.

Lemma decode_durable_no_panic row : no_panic (decode_durable_task row).
Proof. unfold decode_durable_task, decode_lease. no_panic. Qed.

Lemma projection_json_no_panic task : no_panic (projection_json task).
Proof.
  unfold projection_json, projection, projection_timestamp_ms, projected_message. no_panic.
Qed.

Lemma encode_batch_no_panic tasks : no_panic (encode_batch tasks).
Proof. apply no_panic_try_map. intros task. pose proof (projection_json_no_panic task). no_panic. Qed.
End no_panics_of_tasks.

#[export] Hint Resolve validate_durable_no_panic decode_durable_no_panic
  projection_json_no_panic canonical_decode_no_panic : herdr.

(** ** The view *)

Section view.
Context `{Rusqlite} `{JsonNumber} {serde : SerdeJson} {chrono : Chrono} {uuid : UuidLib}.
Context {json : LedgerSerde}.
Implicit Types (t w : Tables) (task : DurableTask).

Definition decoded (row : StoredTaskRow) : option DurableTask :=
  match decode_durable_task row with Done task => Some task | _ => None end.

Definition ledger_tasks t : gmap string DurableTask := omap decoded (delivery_tasks t).

Definition ledger_epoch t : Z :=
  match broker_meta t with
  | Some meta =>
      match parse_canonical_u64 (meta_last_registration_epoch meta) "registration epoch" with
      | Done epoch => epoch
      | _ => 0
      end
  | None => 0
  end.

Definition ledger_view t : DurableView := MkView (ledger_epoch t) (ledger_tasks t).

(** The primary key of a row is its column. *)
Definition keyed_rows t : Prop :=
  ∀ id row, delivery_tasks t !! id = Some row → str_task_id row = id.

(** Two states of the tables with the same ledger. *)
Definition same_ledger t w : Prop :=
  delivery_tasks w = delivery_tasks t ∧ broker_meta w = broker_meta t ∧
  user_version w = user_version t ∧ task_owners w = task_owners t.

#[export] Instance same_ledger_equivalence : Equivalence same_ledger.
Proof.
  unfold same_ledger. split.
  - by intros t.
  - intros t w (? & ? & ? & ?). split_and!; congruence.
  - intros t w u (? & ? & ? & ?) (? & ? & ? & ?). split_and!; congruence.
Qed.

#[export] Instance ledger_view_proper : Proper (same_ledger ==> (=)) ledger_view.
Proof. intros t w (Hd & Hm & _). unfold ledger_view, ledger_epoch, ledger_tasks. by rewrite Hd, Hm. Qed.

#[export] Instance keyed_rows_proper : Proper (same_ledger ==> iff) keyed_rows.
Proof. intros t w [Hd _]. unfold keyed_rows. by rewrite Hd. Qed.

Lemma put_projection_ledger task_id row t : same_ledger t (put_projection task_id row t).
Proof. unfold put_projection. destruct (task_rows t !! task_id); [case_match|]; done. Qed.

Lemma clear_outbox_ledger task_id version t : same_ledger t (clear_outbox task_id version t).
Proof. unfold clear_outbox. destruct (projection_outbox t !! task_id) as [[]|]; [case_match|]; done. Qed.

Lemma put_outbox_ledger task_id version text t : same_ledger t (put_outbox task_id version text t).
Proof. unfold put_outbox. destruct (projection_outbox t !! task_id) as [[]|]; [case_match|]; done. Qed.

Lemma decoded_Some row task : decoded row = Some task ↔ decode_durable_task row = Done task.
Proof. unfold decoded. destruct (decode_durable_task row); naive_solver. Qed.

(** Writing a row that decodes to a task, and deleting one. *)
Lemma ledger_tasks_insert t id row task :
  decode_durable_task row = Done task →
  ledger_tasks (t <| delivery_tasks ::= <[id := row]> |>) = <[id := task]> (ledger_tasks t).
Proof. intros Hrow. unfold ledger_tasks. cbn. apply omap_insert_Some. by apply decoded_Some. Qed.

Lemma ledger_tasks_delete t id :
  ledger_tasks (t <| delivery_tasks ::= delete id |>) = delete id (ledger_tasks t).
Proof. unfold ledger_tasks. cbn. apply omap_delete. Qed.

Lemma ledger_view_keyed t : keyed_rows t → keyed (view_tasks (ledger_view t)).
Proof.
  intros Hkey id task. cbn. unfold ledger_tasks. rewrite lookup_omap.
  intros (row & Hrow & Htask%decoded_Some)%bind_Some.
  rewrite (decoded_task_id _ _ Htask). by apply Hkey.
Qed.
End view.

(** ** Frames

    A computation that keeps a predicate of the connection, whether it returns or
    fails. *)
Definition Frame `{Rusqlite} {A} (I : Conn Tables → Prop) (m : ST (Conn Tables) StoreError A) : Prop :=
  ∀ db, I db → wp m (λ _, I) (λ _, I) db.

(** Issuing a statement keeps the predicate. *)
Class StepStable (I : Conn Tables → Prop) : Prop :=
  step_stable : ∀ db, I db → I (db <| sql_calls ::= S |>).

#[export] Instance holds_stable t o : StepStable (holds t o).
Proof. by intros db [? ?]. Qed.

(** The committed tables are [t], and an open transaction has not changed the ledger
    of [w0]. *)
Definition keeps (t w0 : Tables) (db : Conn Tables) : Prop :=
  ∃ w, holds t (Some w) db ∧ same_ledger w0 w.

#[export] Instance keeps_stable t w0 : StepStable (keeps t w0).
Proof. intros db (w & Hw & Hs). exists w. by split; [apply step_stable|]. Qed.

Lemma keeps_write t w0 f db :
  (∀ w, same_ledger w (f w)) → keeps t w0 db → keeps t w0 (write f db).
Proof.
  intros Hf (w & [Ht Hw] & Hs). exists (f w). unfold write. rewrite Hw.
  split; [done|]. by trans w.
Qed.

Section frames.
Context `{Rusqlite} `{JsonNumber} {serde : SerdeJson} {chrono : Chrono} {uuid : UuidLib}.
Context {json : LedgerSerde} (fault : nat → option SqlError).
Context (I : Conn Tables → Prop) `{!StepStable I}.

Lemma frame_bind {A B} (m : ST _ StoreError A) (k : A → ST _ StoreError B) :
  Frame I m → (∀ a, Frame I (k a)) → Frame I (st_bind m k).
Proof.
  intros Hm Hk db HI. apply wp_bind. eapply wp_mono; [by apply Hm| |done].
  intros a db' HI'. by apply Hk.
Qed.

Lemma frame_ret {A} (a : A) : Frame I (st_ret a).
Proof. by intros db HI. Qed.

Lemma frame_fail {A} e : Frame (A := A) I (st_fail e).
Proof. by intros db HI. Qed.

Lemma frame_lift {A} (m : Outcome StoreError A) : no_panic m → Frame I (st_lift m).
Proof. intros Hm db HI. by apply wp_lift_no_panic. Qed.

Lemma frame_step : Frame I (sql_step fault).
Proof.
  intros db HI. unfold wp, sql_step. destruct (fault (sql_calls db)); by apply step_stable.
Qed.

Lemma frame_query {A} (f : Tables → A) : Frame I (query fault f).
Proof. apply frame_bind; [apply frame_step|by intros [] db HI]. Qed.

Lemma frame_execute f : (∀ db, I db → I (write f db)) → Frame I (execute fault f).
Proof. intros Hf. apply frame_bind; [apply frame_step|]. intros [] db HI. by apply Hf. Qed.

Lemma frame_query_some {A} (f : Tables → option A) : Frame I (query_some fault f).
Proof. apply frame_bind; [apply frame_query|]. intros o. apply frame_lift. auto with herdr. Qed.

Lemma frame_reject b message : Frame I (reject b message).
Proof. apply frame_lift. auto with herdr. Qed.

Lemma frame_for_each {A} (body : A → ST _ StoreError ()) l :
  (∀ a, Frame I (body a)) → Frame I (for_each body l).
Proof. intros Hb db HI. apply wp_for_each_inv; [done|]. intros a db' _. apply Hb. Qed.
End frames.

(** One step of a frame proof. *)
Ltac frame_step_tac :=
  cbv beta zeta;
  lazymatch goal with
  | |- Frame _ (st_bind _ _) => apply frame_bind; [|intros ?]
  | |- Frame _ (st_ret _) => apply frame_ret
  | |- Frame _ (st_fail _) => apply frame_fail
  | |- Frame _ (query _ _) => apply frame_query; assumption
  | |- Frame _ (query_some _ _) => apply frame_query_some; assumption
  | |- Frame _ (reject _ _) => apply frame_reject
  | |- Frame _ (st_lift _) => apply frame_lift; solve [no_panic]
  | |- Frame _ (for_each _ _) => apply frame_for_each; intros ?
  | |- Frame _ (match _ with _ => _ end) => case_match
  end.
Ltac frame := repeat frame_step_tac.

Section frames_of_operations.
Context `{Rusqlite} `{JsonNumber} {serde : SerdeJson} {chrono : Chrono} {uuid : UuidLib}.
Context {json : LedgerSerde} (fault : nat → option SqlError).

Lemma validate_outbox_frame I `{!StepStable I} task_id version text :
  Frame I (validate_outbox_entry fault task_id version text).
Proof. unfold validate_outbox_entry, stored_task_row. frame. Qed.

Lemma validate_store_frame I `{!StepStable I} : Frame I (validate_store fault).
Proof.
  unfold validate_store, validate_retained_row, expected_columns. frame.
  by apply validate_outbox_frame.
Qed.

Lemma apply_authorized_frame t w0 columns : Frame (keeps t w0) (apply_authorized_projection fault columns).
Proof.
  unfold apply_authorized_projection. pose proof (keeps_stable t w0). frame.
  - by apply validate_outbox_frame.
  - apply frame_execute; [apply _|]. intros db. apply keeps_write. intros. apply put_projection_ledger.
  - apply frame_execute; [apply _|]. intros db. apply keeps_write. intros. apply clear_outbox_ledger.
Qed.

Lemma apply_pending_entry_frame t w0 entry : Frame (keeps t w0) (apply_pending_entry fault entry).
Proof.
  unfold apply_pending_entry. destruct entry as [id [version text]]. frame.
  apply apply_authorized_frame.
Qed.

(** Applying the projections leaves the ledger as it was. *)
Lemma apply_pending_spec t db :
  holds t None db →
  wp (apply_pending_projections_on_connection fault)
    (λ _ db', ∃ t', holds t' None db' ∧ same_ledger t t') (λ _ db', holds t None db') db.
Proof.
  intros Hdb. unfold apply_pending_projections_on_connection.
  eapply wp_in_transaction; [exact Hdb| |done]. intros db1 Hdb1.
  wp_step. eapply wp_query; [exact Hdb1| |by intros e db2 [? _]]. intros db2 Hdb2. wp_step.
  eapply wp_mono.
  - apply (frame_for_each (keeps t t)); [intros entry; apply apply_pending_entry_frame|].
    by exists t.
  - intros [] db3 (w & Hw & Hs). wp_step. eapply wp_commit; [exact Hw| |by intros e db4 [? _]].
    intros db4 [Hc _]. apply wp_ret. by exists w.
  - intros e db3 (w & [Hc _] & _). by split.
Qed.
End frames_of_operations.

(** ** [commit] *)

(** A batch of values of the Rust types. *)
Record TypedBatch `{JsonNumber} {uuid : UuidLib} (batch : PersistenceBatch) : Prop := {
  typed_epoch : ∀ epoch, batch_registration_epoch_high_watermark batch = Some epoch →
    in_u64 (epoch_get epoch);
  typed_tasks : Forall TypedTask (batch_upsert_tasks batch);
}.

(** A batch of tasks whose metadata holds no floats. *)
Definition ExactBatch `{JsonNumber} (batch : PersistenceBatch) : Prop :=
  Forall ExactTask (batch_upsert_tasks batch).

Section commits.
Context `{Rusqlite} `{JsonNumber} {serde : SerdeJson} {chrono : Chrono} {uuid : UuidLib}.
Context {json : LedgerSerde} {json_spec : LedgerSerdeSpec} (fault : nat → option SqlError).
Implicit Types (t w : Tables) (task : DurableTask).

(** Inside a transaction over [t]: every error leaves [t] committed. *)
Definition dropped t : StoreError → Conn Tables → Prop := λ _ db', committed db' = t.

Definition raised (watermark : option RegistrationEpoch) (epoch : Z) : Z :=
  match watermark with Some e => Z.max (epoch_get e) epoch | None => epoch end.

Lemma raise_epoch_spec t w watermark db :
  (∀ epoch, watermark = Some epoch → in_u64 (epoch_get epoch)) →
  holds t (Some w) db →
  wp (raise_epoch fault watermark)
    (λ _ db', ∃ w', holds t (Some w') db' ∧ delivery_tasks w' = delivery_tasks w ∧
       ledger_epoch w' = raised watermark (ledger_epoch w)) (dropped t) db.
Proof.
  intros Htyped Hdb. destruct watermark as [epoch|]; [|apply wp_ret; by exists w]. cbn.
  wp_step. unfold query_some. wp_step. eapply wp_query; [exact Hdb| |by intros e db' [? _]].
  intros db1 Hdb1. apply wp_ok_or; [|by destruct Hdb1]. cbn. intros meta Hmeta.
  wp_step. apply wp_lift_no_panic; [auto with herdr| |by destruct Hdb1].
  intros current Hcurrent.
  assert (ledger_epoch w = current) as Hw by (unfold ledger_epoch; by rewrite Hmeta, Hcurrent).
  destruct (Z.ltb_spec current (epoch_get epoch)).
  - eapply wp_execute; [exact Hdb1| |by intros e db' [? _]]. intros db2 Hdb2.
    eexists. split_and!; [exact Hdb2|done|]. cbn [raised]. rewrite Hw.
    unfold ledger_epoch. cbn. rewrite Hmeta. cbn. rewrite parse_u64_to_string by auto. lia.
  - apply wp_ret. exists w. split_and!; [done..|]. lia.
Qed.

Lemma delete_retained_spec t w task_id db :
  holds t (Some w) db →
  wp (delete_retained fault task_id)
    (λ _ db', ∃ w', holds t (Some w') db' ∧ broker_meta w' = broker_meta w ∧
       delivery_tasks w' = delete task_id (delivery_tasks w)) (dropped t) db.
Proof.
  intros Hdb. unfold delete_retained. wp_step.
  apply wp_lift_no_panic; [no_panic| |by destruct Hdb]. intros _ _.
  wp_step. eapply wp_execute; [exact Hdb| |by intros e db' [? _]]. intros db1 Hdb1.
  wp_step. eapply wp_execute; [exact Hdb1| |by intros e db' [? _]]. intros db2 Hdb2.
  wp_step. eapply wp_execute; [exact Hdb2| |by intros e db' [? _]]. intros db3 Hdb3.
  eapply wp_execute; [exact Hdb3| |by intros e db' [? _]]. intros db4 Hdb4.
  by eexists.
Qed.

Lemma delete_loop_spec t w ids db :
  holds t (Some w) db →
  wp (for_each (delete_retained fault) ids)
    (λ _ db', ∃ w', holds t (Some w') db' ∧ broker_meta w' = broker_meta w ∧
       ledger_tasks w' = delete_all ids (ledger_tasks w) ∧ (keyed_rows w → keyed_rows w'))
    (dropped t) db.
Proof.
  intros Hdb. eapply wp_mono; [eapply (wp_for_each _ (λ done db', ∃ w', holds t (Some w') db' ∧
    broker_meta w' = broker_meta w ∧ ledger_tasks w' = delete_all done (ledger_tasks w) ∧
    (keyed_rows w → keyed_rows w')))| |].
  - by exists w.
  - intros done id todo db' _ (w' & Hw' & Hm & Ht & Hk).
    eapply wp_mono; [by apply delete_retained_spec| |done].
    intros [] db'' (w'' & Hw'' & Hm' & Hd). exists w''. split_and!; [done|congruence| |].
    + unfold delete_all. rewrite foldl_snoc. fold (delete_all done (ledger_tasks w)).
      rewrite <-Ht. unfold ledger_tasks. rewrite Hd. apply omap_delete.
    + intros Hkey i row. rewrite Hd. intros [_ Hi]%lookup_delete_Some. by apply Hk.
  - done.
  - done.
Qed.

Lemma count_new_frame I `{!StepStable I} tasks ids count : Frame I (count_new fault tasks ids count).
Proof.
  revert ids count. induction tasks as [|task tasks IH]; intros ids count; cbn; [frame|].
  case_match; [apply IH|]. frame. apply IH.
Qed.

Lemma check_capacity_frame I `{!StepStable I} tasks : Frame I (check_capacity fault tasks).
Proof. unfold check_capacity. frame. by apply count_new_frame. Qed.

Lemma require_schema_frame I `{!StepStable I} : Frame I (require_schema fault).
Proof. unfold require_schema. frame. Qed.

(** A row is written, or it is suppressed by one that is as new. *)
Lemma upsert_row_spec t w row db :
  holds t (Some w) db →
  wp (upsert_row fault row)
    (λ affected db', if (affected =? 0)%nat then holds t (Some w) db'
       else holds t (Some (w <| delivery_tasks ::= <[str_task_id row := row]> |>)) db')
    (dropped t) db.
Proof.
  intros Hdb. unfold upsert_row. wp_step. eapply wp_query; [exact Hdb| |by intros e db' [? _]].
  intros db1 Hdb1. wp_step. apply wp_reject_if; [|by destruct Hdb1]. intros _. cbv zeta.
  apply wp_if; intros _; [|by apply wp_ret].
  wp_step. apply wp_modify, wp_ret. destruct Hdb1 as [Ht Hw]. unfold write. rewrite Hw. done.
Qed.

Lemma upsert_task_spec t w task text db :
  TypedTask task → holds t (Some w) db →
  wp (upsert_task fault (task, text))
    (λ applied db', committed db' = t ∧ (applied = true →
       ∃ w', holds t (Some w') db' ∧ broker_meta w' = broker_meta w ∧
         (ExactTask task → ledger_tasks w' = <[dt_task_id task := task]> (ledger_tasks w)) ∧
         (keyed_rows w → keyed_rows w')))
    (dropped t) db.
Proof.
  intros Htyped Hdb. unfold upsert_task.
  wp_step. apply wp_lift_no_panic; [auto with herdr| |by destruct Hdb]. intros [] Hvalid.
  wp_step. eapply wp_query; [exact Hdb| |by intros e db' [? _]]. intros db1 Hdb1.
  wp_step. apply wp_reject_if; [intros _|by destruct Hdb1].
  wp_step. apply wp_ok_or; [|by destruct Hdb1]. intros version Hversion.
  wp_step. apply wp_lift_no_panic; [auto with herdr| |by destruct Hdb1]. intros request Hrequest.
  wp_step. apply wp_lift_no_panic; [no_panic| |by destruct Hdb1]. intros reply Hreply.
  assert (ExactTask task → decode_durable_task (encode_row task version request reply) = Done task)
    as Hdecode by (intros; by apply encode_row_roundtrip).
  wp_step. eapply wp_mono; [by apply upsert_row_spec| |done]. intros affected db2 Hdb2.
  apply wp_if; intros Hz; cbv beta in Hdb2; rewrite Hz in Hdb2.
  - unfold stored_task_row. wp_step. eapply wp_query; [exact Hdb2| |by intros e db' [? _]].
    intros db3 Hdb3. wp_step. apply wp_ok_or; [|by destruct Hdb3]. cbn. intros stored Hstored.
    apply wp_if; intros _; [|apply wp_ret; by destruct Hdb3].
    wp_step. apply wp_lift_no_panic; [auto with herdr| |by destruct Hdb3]. intros found Hfound.
    apply wp_ret. split; [by destruct Hdb3|]. intros Heq%bool_decide_eq_true. subst found.
    exists w. split_and!; [done..| |done]. intros _. symmetry. apply insert_id.
    unfold ledger_tasks. rewrite lookup_omap, Hstored. by apply decoded_Some.
  - change (str_task_id (encode_row _ _ _ _)) with (dt_task_id task) in Hdb2.
    wp_step. eapply wp_execute; [exact Hdb2| |by intros e db' [? _]]. intros db3 Hdb3.
    apply wp_ret. split; [by destruct Hdb3|]. intros _. eexists. split; [exact Hdb3|].
    destruct (put_outbox_ledger (dt_task_id task) version text
      (w <| delivery_tasks ::= <[dt_task_id task := encode_row task version request reply]> |>)) as (Hd & Hm & _).
    split_and!; [by rewrite Hm| |].
    + intros Hexact. unfold ledger_tasks at 1. rewrite Hd. by apply (ledger_tasks_insert w), Hdecode.
    + intros Hkey id row. rewrite Hd. cbn. rewrite lookup_insert. case_decide as Hid; [|by apply Hkey].
      intros [= <-]. by subst id.
Qed.

Lemma upsert_tasks_spec t w entries db :
  Forall (λ entry, TypedTask entry.1) entries → holds t (Some w) db →
  wp (upsert_tasks fault entries)
    (λ applied db', committed db' = t ∧ (applied = true →
       ∃ w', holds t (Some w') db' ∧ broker_meta w' = broker_meta w ∧
         (Forall ExactTask entries.*1 → ledger_tasks w' = upsert_all entries.*1 (ledger_tasks w)) ∧
         (keyed_rows w → keyed_rows w')))
    (dropped t) db.
Proof.
  intros Htyped. revert w db. induction Htyped as [|[task text] entries Ht _ IH]; intros w db Hdb; cbn [upsert_tasks].
  { apply wp_ret. split; [by destruct Hdb|]. intros _. by exists w. }
  wp_step. eapply wp_mono; [by apply upsert_task_spec| |done]. intros applied db1 [Hc Hpost].
  apply wp_if; intros ->; [|by apply wp_ret].
  destruct (Hpost eq_refl) as (w1 & Hdb1 & Hm1 & Ht1 & Hk1).
  eapply wp_mono; [by apply IH| |done]. intros applied db2 [Hc2 Hpost2]. split; [done|].
  intros ->. destruct (Hpost2 eq_refl) as (w2 & Hdb2 & Hm2 & Ht2 & Hk2).
  exists w2. split_and!; [done|congruence| |auto]. intros [? ?]%Forall_cons. by rewrite Ht2, Ht1.
Qed.

(** The whole transaction: the batch is applied, or nothing is. *)
Lemma commit_batch_spec t batch encoded db :
  TypedBatch batch → encoded.*1 = batch_upsert_tasks batch → holds t None db →
  wp (commit_batch fault batch encoded)
    (λ applied db', if applied then
        ∃ t', holds t' None db' ∧ (ExactBatch batch → ledger_view t' = apply_batch batch (ledger_view t)) ∧
          (keyed_rows t → keyed_rows t')
      else holds t None db') (λ _ db', holds t None db') db.
Proof.
  intros [Hepoch Htasks] Henc Hdb. unfold commit_batch.
  eapply wp_in_transaction; [exact Hdb| |done]. intros db1 Hdb1.
  match goal with |- wp _ ?Q _ _ =>
    eapply (wp_mono _ Q Q (dropped t)); [|done|by intros e db2 Hc; split] end.
  wp_step. eapply wp_mono; [by apply (require_schema_frame (holds t (Some t)))| |by intros e db2 [? _]].
  intros [] db2 Hdb2. wp_step. eapply wp_mono; [by apply raise_epoch_spec| |done].
  intros [] db3 (w1 & Hdb3 & Hd1 & He1). wp_step. eapply wp_mono; [by apply delete_loop_spec| |done].
  intros [] db4 (w2 & Hdb4 & Hm2 & Ht2 & Hk2). wp_step.
  eapply wp_mono; [by apply (check_capacity_frame (holds t (Some w2)))| |by intros e db5 [? _]].
  intros [] db5 Hdb5. wp_step.
  assert (Forall (λ entry, TypedTask entry.1) encoded) as Htyped
    by (apply (proj1 (Forall_fmap fst TypedTask encoded)); by rewrite Henc).
  eapply wp_mono; [by apply upsert_tasks_spec| |done]. intros applied db6 [Hc Hpost].
  apply wp_if; intros ->; [|by apply wp_ret].
  destruct (Hpost eq_refl) as (w3 & Hdb6 & Hm3 & Ht3 & Hk3).
  wp_step. eapply wp_commit; [exact Hdb6| |by intros e db7 [? _]]. intros db7 [Hc7 _].
  apply wp_ret. exists w3. split_and!; [done| |].
  - intros Hexact. unfold ledger_view, apply_batch. cbn. f_equal.
    + unfold ledger_epoch at 1. rewrite Hm3, Hm2. fold (ledger_epoch w1). rewrite He1.
      unfold raised. by destruct (batch_registration_epoch_high_watermark batch).
    + rewrite Ht3, Ht2, Henc by (by rewrite Henc). unfold ledger_tasks. by rewrite Hd1.
  - intros Hkey. apply Hk3, Hk2. unfold keyed_rows. by rewrite Hd1.
Qed.

(** ** The version guard *)

(** A retained row is only replaced by a newer one, and a quarantined row by none. *)
Definition row_grows (row row' : StoredTaskRow) : Prop :=
  row' = row ∨ (recoverable row = true ∧ (str_state_version row < str_state_version row')%Z).

Definition rows_grow (ids : list string) t w : Prop :=
  ∀ id row, delivery_tasks t !! id = Some row → id ∉ ids →
    ∃ row', delivery_tasks w !! id = Some row' ∧ row_grows row row'.

Lemma row_grows_trans row1 row2 row3 : row_grows row1 row2 → row_grows row2 row3 → row_grows row1 row3.
Proof.
  intros [->|[Hr1 Hv1]] [->|[Hr2 Hv2]]; unfold row_grows; auto. right. split; [done|lia].
Qed.

Lemma rows_grow_trans ids t w u : rows_grow ids t w → rows_grow ids w u → rows_grow ids t u.
Proof.
  intros Htw Hwu id row Hrow Hid. destruct (Htw id row Hrow Hid) as (row' & Hrow' & Hg).
  destruct (Hwu id row' Hrow' Hid) as (row'' & Hrow'' & Hg'). exists row''. split; [done|].
  by eapply row_grows_trans.
Qed.

Lemma rows_grow_same ids t w : delivery_tasks w = delivery_tasks t → rows_grow ids t w.
Proof. intros Heq id row Hrow _. rewrite Heq. exists row. split; [done|by left]. Qed.

Lemma upsert_row_grows t w row db ids :
  holds t (Some w) db →
  wp (upsert_row fault row)
    (λ _ db', ∃ w', holds t (Some w') db' ∧ rows_grow ids w w') (dropped t) db.
Proof.
  intros Hdb. unfold upsert_row. wp_step. eapply wp_query; [exact Hdb| |by intros e db' [? _]].
  intros db1 Hdb1. wp_step. apply wp_reject_if; [|by destruct Hdb1]. intros _. cbv zeta.
  apply wp_if; intros Happ; [|apply wp_ret; exists w; split; [done|by apply rows_grow_same]].
  wp_step. apply wp_modify, wp_ret. destruct Hdb1 as [Ht Hw]. unfold write. rewrite Hw.
  eexists. split; [done|]. intros id old Hold _. cbn. rewrite lookup_insert.
  case_decide as Hid; [|exists old; split; [done|by left]]. subst id.
  exists row. split; [done|]. right. cbn in Happ. rewrite Hold in Happ.
  apply andb_true_iff in Happ as [Hv%Z.ltb_lt Hr]. done.
Qed.

Lemma upsert_task_grows t w entry db ids :
  holds t (Some w) db →
  wp (upsert_task fault entry)
    (λ _ db', ∃ w', holds t (Some w') db' ∧ rows_grow ids w w') (dropped t) db.
Proof.
  destruct entry as [task text]. intros Hdb. unfold upsert_task.
  wp_step. apply wp_lift_no_panic; [auto with herdr| |by destruct Hdb]. intros [] Hvalid.
  wp_step. eapply wp_query; [exact Hdb| |by intros e db' [? _]]. intros db1 Hdb1.
  wp_step. apply wp_reject_if; [intros _|by destruct Hdb1].
  wp_step. apply wp_ok_or; [|by destruct Hdb1]. intros version _.
  wp_step. apply wp_lift_no_panic; [auto with herdr| |by destruct Hdb1]. intros request _.
  wp_step. apply wp_lift_no_panic; [no_panic| |by destruct Hdb1]. intros reply _.
  wp_step. eapply wp_mono; [by apply (upsert_row_grows t w _ db1 ids)| |done].
  intros affected db2 (w2 & Hdb2 & Hg2). apply wp_if; intros _.
  - unfold stored_task_row. wp_step. eapply wp_query; [exact Hdb2| |by intros e db' [? _]].
    intros db3 Hdb3. wp_step. apply wp_ok_or; [|by destruct Hdb3]. intros stored _.
    apply wp_if; intros _; [|apply wp_ret; eauto].
    wp_step. apply wp_lift_no_panic; [auto with herdr| |by destruct Hdb3]. intros found _.
    apply wp_ret. eauto.
  - wp_step. eapply wp_execute; [exact Hdb2| |by intros e db' [? _]]. intros db3 Hdb3.
    apply wp_ret. eexists. split; [exact Hdb3|]. eapply rows_grow_trans; [exact Hg2|].
    apply rows_grow_same. by destruct (put_outbox_ledger (dt_task_id task) version text w2).
Qed.

Lemma upsert_tasks_grow t w entries db ids :
  holds t (Some w) db →
  wp (upsert_tasks fault entries)
    (λ _ db', ∃ w', holds t (Some w') db' ∧ rows_grow ids w w') (dropped t) db.
Proof.
  revert w db. induction entries as [|entry entries IH]; intros w db Hdb; cbn [upsert_tasks].
  { apply wp_ret. exists w. split; [done|by apply rows_grow_same]. }
  wp_step. eapply wp_mono; [by apply (upsert_task_grows t w entry db ids)| |done].
  intros applied db1 (w1 & Hdb1 & Hg1).
  apply wp_if; intros _; [|apply wp_ret; eauto].
  eapply wp_mono; [by apply IH| |done]. intros applied' db2 (w2 & Hdb2 & Hg2).
  exists w2. split; [done|]. by eapply rows_grow_trans.
Qed.

Lemma raise_epoch_rows t w watermark db :
  holds t (Some w) db →
  wp (raise_epoch fault watermark)
    (λ _ db', ∃ w', holds t (Some w') db' ∧ delivery_tasks w' = delivery_tasks w) (dropped t) db.
Proof.
  intros Hdb. destruct watermark as [epoch|]; [|apply wp_ret; by exists w]. cbn.
  wp_step. unfold query_some. wp_step. eapply wp_query; [exact Hdb| |by intros e db' [? _]].
  intros db1 Hdb1. apply wp_ok_or; [|by destruct Hdb1]. intros meta _.
  wp_step. apply wp_lift_no_panic; [auto with herdr| |by destruct Hdb1]. intros current _.
  apply wp_if; intros _; [|apply wp_ret; by exists w].
  eapply wp_execute; [exact Hdb1| |by intros e db' [? _]]. intros db2 Hdb2. by eexists.
Qed.

Lemma delete_loop_rows t w ids db :
  holds t (Some w) db →
  wp (for_each (delete_retained fault) ids)
    (λ _ db', ∃ w', holds t (Some w') db' ∧ rows_grow ids w w') (dropped t) db.
Proof.
  intros Hdb. apply wp_for_each_inv.
  - exists w. split; [done|by apply rows_grow_same].
  - intros id db' Hin (w' & Hw' & Hg). eapply wp_mono; [by apply delete_retained_spec| |done].
    intros [] db'' (w'' & Hw'' & _ & Hd). exists w''. split; [done|].
    eapply rows_grow_trans; [exact Hg|]. intros i row Hrow Hi. exists row. split; [|by left].
    rewrite Hd, lookup_delete_ne; [done|]. by intros ->.
Qed.

(** A commit, whatever its batch and outcome. *)
Lemma commit_batch_grows t batch encoded db :
  holds t None db →
  wp (commit_batch fault batch encoded)
    (λ _ db', ∃ t', holds t' None db' ∧ rows_grow (batch_delete_task_ids batch) t t')
    (λ _ db', holds t None db') db.
Proof.
  set (ids := batch_delete_task_ids batch). intros Hdb. unfold commit_batch.
  eapply wp_in_transaction; [exact Hdb| |done]. intros db1 Hdb1.
  match goal with |- wp _ ?Q _ _ =>
    eapply (wp_mono _ Q Q (dropped t)); [|done|by intros e db2 Hc; split] end.
  wp_step. eapply wp_mono; [by apply (require_schema_frame (holds t (Some t)))| |by intros e db2 [? _]].
  intros [] db2 Hdb2. wp_step. eapply wp_mono; [by apply raise_epoch_rows| |done].
  intros [] db3 (w1 & Hdb3 & Hd1). wp_step. eapply wp_mono; [by apply delete_loop_rows| |done].
  intros [] db4 (w2 & Hdb4 & Hg2). wp_step.
  eapply wp_mono; [by apply (check_capacity_frame (holds t (Some w2)))| |by intros e db5 [? _]].
  intros [] db5 Hdb5. wp_step.
  eapply wp_mono; [by apply (upsert_tasks_grow t w2 encoded db5 ids)| |done].
  intros applied db6 (w3 & Hdb6 & Hg3). apply wp_if; intros _.
  - wp_step. eapply wp_commit; [exact Hdb6| |by intros e db7 [? _]]. intros db7 [Hc7 _].
    apply wp_ret. exists w3. split; [done|]. eapply rows_grow_trans; [|exact Hg3].
    eapply rows_grow_trans; [|exact Hg2]. by apply rows_grow_same.
  - apply wp_ret. exists t. split; [by destruct Hdb6|by apply rows_grow_same].
Qed.
End commits.

(** ** The SQLite ledger as the broker's store

    [load] returns the view, [commit] applies the batch to it or leaves it, and so
    the ledger satisfies the laws of [BrokerPersistence] that the broker's theorems
    are proved against. *)

(** *** Rows in the order of their keys *)

#[export] Instance key_le_trans {A} : Transitive (@key_le A).
Proof. intros p q r. unfold key_le. apply transitivity. Qed.

#[export] Instance key_le_total {A} : Total (@key_le A).
Proof. intros p q. unfold key_le. apply total, _. Qed.

Lemma by_key_Permutation {A} (m : gmap string A) : by_key m ≡ₚ map_to_list m.
Proof. apply merge_sort_Permutation. Qed.

Lemma elem_of_by_key {A} (m : gmap string A) id a : (id, a) ∈ by_key m ↔ m !! id = Some a.
Proof. by rewrite by_key_Permutation, elem_of_map_to_list. Qed.

Lemma NoDup_fmap_filter {A B} (f : A → B) (P : A → Prop) `{∀ a, Decision (P a)} l :
  NoDup (f <$> l) → NoDup (f <$> filter P l).
Proof.
  induction l as [|a l IH]; [done|]. rewrite fmap_cons. intros [Hni Hnd]%NoDup_cons. rewrite filter_cons.
  case_decide; [|by apply IH]. cbn. apply NoDup_cons. split; [|by apply IH].
  intros (b & Hab & [_ Hb]%list_elem_of_filter)%list_elem_of_fmap. apply Hni. rewrite Hab. by apply list_elem_of_fmap_2.
Qed.

Section load.
Context `{Rusqlite} `{JsonNumber} {serde : SerdeJson} {chrono : Chrono} {uuid : UuidLib}.
Context {json : LedgerSerde} (fault : nat → option SqlError).
Implicit Types (t : Tables) (task : DurableTask).

Lemma elem_of_recoverable t row :
  keyed_rows t →
  row ∈ recoverable_rows t ↔
    recoverable row = true ∧ delivery_tasks t !! str_task_id row = Some row.
Proof.
  intros Hkey. unfold recoverable_rows. rewrite list_elem_of_filter, list_elem_of_fmap.
  split; intros [Hrec Hrow]; (split; [done|]).
  - destruct Hrow as ([id row'] & -> & Hid%elem_of_by_key). cbn. by rewrite (Hkey _ _ Hid).
  - exists (str_task_id row, row). by rewrite elem_of_by_key.
Qed.

Lemma recoverable_ids_NoDup t : keyed_rows t → NoDup (str_task_id <$> recoverable_rows t).
Proof.
  intros Hkey. unfold recoverable_rows.
  apply NoDup_fmap_filter.
  assert (str_task_id <$> (by_key (delivery_tasks t)).*2 = (by_key (delivery_tasks t)).*1) as ->.
  { rewrite <-list_fmap_compose. apply list_fmap_ext. intros i [id row] Hi. cbn.
    apply Hkey, elem_of_by_key, list_elem_of_lookup. eauto. }
  rewrite by_key_Permutation. apply NoDup_fst_map_to_list.
Qed.

(** The tasks decoded from the recoverable rows are those of the view. *)
Lemma decoded_snapshot t tasks :
  keyed_rows t → try_map decode_durable_task (recoverable_rows t) = Done tasks →
  snapshot_of (ledger_view t) (MkSnapshot (MkRegistrationEpoch (ledger_epoch t)) tasks).
Proof.
  intros Hkey Hrows%try_map_Forall2. split; [done|]. cbn. split.
  - assert (dt_task_id <$> tasks = str_task_id <$> recoverable_rows t) as ->; [|by apply recoverable_ids_NoDup].
    clear Hkey. induction Hrows as [|row task rows tasks' Hd _ IH]; cbn; [done|].
    f_equal; [by eapply decoded_task_id|done].
  - intros task. unfold ledger_tasks. rewrite lookup_omap. split.
    + intros (i & Hi)%list_elem_of_lookup.
      destruct (Forall2_lookup_r _ _ _ _ _ Hrows Hi) as (row & Hrow & Hd).
      apply list_elem_of_lookup_2, elem_of_recoverable in Hrow as [_ Hrow]; [|done].
      rewrite (decoded_task_id _ _ Hd), Hrow. by apply decoded_Some.
    + intros (row & Hrow & Hd%decoded_Some)%bind_Some.
      assert (row ∈ recoverable_rows t) as (i & Hi)%list_elem_of_lookup.
      { apply elem_of_recoverable; [done|]. split; [by eapply decoded_recoverable|].
        by rewrite <-(decoded_task_id _ _ Hd). }
      destruct (Forall2_lookup_l _ _ _ _ _ Hrows Hi) as (task' & Htask' & Hd').
      rewrite Hd in Hd'. injection Hd' as <-. by eapply list_elem_of_lookup_2.
Qed.

Lemma load_closure_spec t db :
  keyed_rows t → holds t None db →
  wp (load_closure fault)
    (λ snapshot db', holds t None db' ∧ snapshot_of (ledger_view t) snapshot)
    (λ _ db', holds t None db') db.
Proof.
  intros Hkey Hdb. unfold load_closure. wp_step.
  eapply wp_mono; [by apply (validate_store_frame fault (holds t None))| |done].
  intros [] db1 Hdb1. wp_step. unfold query_some. wp_step. eapply wp_query; [exact Hdb1| |done].
  intros db2 Hdb2. apply wp_ok_or; [|done]. cbn. intros meta Hmeta.
  wp_step. apply wp_lift_no_panic; [auto with herdr| |done]. intros epoch Hepoch.
  wp_step. eapply wp_query; [exact Hdb2| |done]. intros db3 Hdb3. cbn.
  wp_step. apply wp_lift_no_panic; [apply no_panic_try_map; intros; auto with herdr| |done].
  intros tasks Htasks. apply wp_ret. split; [done|].
  assert (epoch = ledger_epoch t) as -> by (unfold ledger_epoch; by rewrite Hmeta, Hepoch).
  by apply decoded_snapshot.
Qed.
End load.

(** ** [commit] *)

Section refinement.
Context `{Rusqlite} `{JsonNumber} {serde : SerdeJson} {chrono : Chrono} {uuid : UuidLib}.
Context {json : LedgerSerde} {json_spec : LedgerSerdeSpec} (fault : nat → option SqlError).

Lemma encode_batch_tasks tasks encoded : encode_batch tasks = Done encoded → encoded.*1 = tasks.
Proof.
  intros Henc%try_map_Forall2. induction Henc as [|task entry tasks encoded He _ IH]; cbn; [done|].
  apply out_bind_Done in He as (text & _ & [= <-]). by f_equal.
Qed.

(** What the closure of [commit] reports about the ledger. *)
Definition commit_post (batch : PersistenceBatch) t (outcomes : PersistenceCommitOutcome * option PersistenceCommitOutcome)
    (db' : Conn Tables) : Prop :=
  ∃ t', holds t' None db' ∧ (keyed_rows t → keyed_rows t') ∧
    match outcomes with
    | (ledger, Some _) =>
        ledger = Complete ∧ (ExactBatch batch → ledger_view t' = apply_batch batch (ledger_view t))
    | (ledger, None) => ledger = ReconciliationRequired ∧ t' = t
    end.

Lemma commit_closure_spec t batch encoded db :
  TypedBatch batch → encoded.*1 = batch_upsert_tasks batch → holds t None db →
  wp (commit_closure fault batch encoded) (commit_post batch t) (λ _ db', holds t None db') db.
Proof.
  intros Htyped Henc Hdb. unfold commit_closure. wp_step.
  eapply wp_mono; [by apply commit_batch_spec| |done]. intros applied db1 Hpost.
  apply wp_if; intros ->; [|apply wp_ret; by exists t].
  destruct Hpost as (t1 & Hdb1 & Hview & Hkey). wp_step.
  pose proof (apply_pending_spec fault t1 db1 Hdb1) as Hpending.
  unfold wp, projection_outcome in *.
  destruct (apply_pending_projections_on_connection fault db1) as [[n|e|msg] db2]; [..|done].
  - destruct Hpending as (t2 & Hdb2 & Hs). exists t2. split_and!; [done| |done|by rewrite <-Hs].
    intros Hk. rewrite <-Hs. auto.
  - by exists t1.
Qed.

(** [commit] refines the interface: the batch is applied when it reports [Complete],
    applied or left out when it asks for reconciliation, left out when it fails. *)
Lemma ledger_commit_spec t batch db :
  TypedBatch batch → holds t None db →
  match ledger_commit fault batch db with
  | (r, retired, db') =>
      ∃ t', holds t' None db' ∧ (keyed_rows t → keyed_rows t') ∧
      match r with
      | Ok Complete => (ExactBatch batch → ledger_view t' = apply_batch batch (ledger_view t)) ∧ retired = true
      | Ok ReconciliationRequired =>
          if retired then ExactBatch batch → ledger_view t' = apply_batch batch (ledger_view t)
          else ledger_view t' = ledger_view t
      | Err e => e = PersistenceUnavailable ∧ retired = false ∧ ledger_view t' = ledger_view t
      end
  end.
Proof.
  intros Htyped Hdb. unfold ledger_commit.
  pose proof (encode_batch_no_panic (batch_upsert_tasks batch)) as Hnp.
  destruct (encode_batch (batch_upsert_tasks batch)) as [encoded|e|msg] eqn:Henc; [|by exists t|done].
  apply encode_batch_tasks in Henc.
  pose proof (wp_spawn_blocking (commit_closure fault batch encoded) (commit_post batch t)
    (λ _ db', holds t None db') db Hdb (commit_closure_spec t batch encoded db Htyped Henc Hdb)) as Hcommit.
  unfold wp in Hcommit.
  destruct (spawn_blocking (commit_closure fault batch encoded) db) as [[[ledger projections]|e|msg] db1];
    [|by exists t|done].
  destruct Hcommit as (t1 & Hdb1 & Hkey & Hpost). destruct projections as [outcome|].
  - destruct Hpost as [-> Hview]. exists t1. split_and!; [done..|]. by destruct outcome.
  - destruct Hpost as [-> ->].
    pose proof (wp_spawn_blocking (apply_pending_projections_on_connection fault) _ _ db1 Hdb1
      (apply_pending_spec fault t db1 Hdb1)) as Hpending. unfold wp in Hpending.
    unfold apply_pending_projections.
    destruct (spawn_blocking (apply_pending_projections_on_connection fault) db1) as [[n|e|msg] db2];
      [|by exists t|done].
    destruct Hpending as (t2 & Hdb2 & Hs). exists t2. split_and!; [done| |cbn; apply ledger_view_proper; by symmetry].
    intros Hk. by rewrite <-Hs.
Qed.

Lemma same_ledger_grows ids t t1 t2 : rows_grow ids t t1 → same_ledger t1 t2 → rows_grow ids t t2.
Proof. intros Hg [Hd _]. eapply rows_grow_trans; [exact Hg|]. by apply rows_grow_same. Qed.

Lemma apply_pending_grows ids t t1 db :
  rows_grow ids t t1 → holds t1 None db →
  wp (apply_pending_projections_on_connection fault)
    (λ _ db', ∃ t2, holds t2 None db' ∧ rows_grow ids t t2)
    (λ _ db', ∃ t2, holds t2 None db' ∧ rows_grow ids t t2) db.
Proof.
  intros Hg Hdb. eapply wp_mono; [by apply apply_pending_spec| |intros e db' Hsame; by exists t1].
  intros n db' (t2 & Hdb2 & Hs). exists t2. split; [done|]. by eapply same_ledger_grows.
Qed.

(** The version guard over a whole commit. *)
Lemma ledger_commit_grows t batch db :
  holds t None db →
  ∃ t', holds t' None (ledger_commit fault batch db).2 ∧
    rows_grow (batch_delete_task_ids batch) t t'.
Proof.
  intros Hdb. unfold ledger_commit. set (ids := batch_delete_task_ids batch).
  assert (rows_grow ids t t) as Hrefl by (by apply rows_grow_same).
  pose proof (encode_batch_no_panic (batch_upsert_tasks batch)) as Hnp.
  destruct (encode_batch (batch_upsert_tasks batch)) as [encoded|e|msg]; [|by exists t|done].
  set (I := λ db' : Conn Tables, ∃ t', holds t' None db' ∧ rows_grow ids t t').
  assert (wp (commit_closure fault batch encoded) (λ _, I) (λ _, I) db) as Hclosure.
  { unfold commit_closure. wp_step. eapply wp_mono; [by apply commit_batch_grows| |intros e db' Hsame; by exists t].
    intros applied db1 (t1 & Hdb1 & Hg1). apply wp_if; intros _; [|apply wp_ret; by exists t1].
    wp_step. pose proof (apply_pending_grows ids t t1 db1 Hg1 Hdb1) as Hp.
    unfold wp, projection_outcome in *.
    by destruct (apply_pending_projections_on_connection fault db1) as [[] ?]. }
  assert (I db) as HI by (by exists t).
  pose proof (wp_spawn_blocking _ _ _ _ HI Hclosure) as Hspawn. unfold wp in Hspawn.
  destruct (spawn_blocking _ db) as [[[ledger [outcome|]]|e|msg] db1]; [done| |done|done].
  destruct Hspawn as (t1 & Hdb1 & Hg1). unfold apply_pending_projections.
  pose proof (wp_spawn_blocking _ _ _ db1 (ex_intro _ t1 (conj Hdb1 Hg1) : I db1)
    (apply_pending_grows ids t t1 db1 Hg1 Hdb1)) as Hp. unfold wp in Hp.
  by destruct (spawn_blocking _ db1) as [[] ?].
Qed.
End refinement.
