(* ===== verification/Admissions.v ===== *)
(** * Projection admissions

    [SdkProjectionAdmissionRegistry] of [herdr-a2a-broker/src/store.rs]: the task
    projections the executor was allowed to write, in a queue per task, at most
    eight per task and 4096 in all; the oldest is evicted first.  A fingerprint is a
    SHA-256 digest, the text of its bytes.  [usize] subtraction that underflows
    and [expect] panic. *)
From stdpp Require Import prelude gmap strings sorting.
From S2P Require Import Prelude RustStd Model Durability BrokerState.

Definition MAX_SDK_PROJECTION_ADMISSIONS_PER_TASK : nat := 8.
Definition MAX_SDK_PROJECTION_ADMISSIONS : nat := MAX_RETAINED_TASKS.

Definition ProjectionFingerprint : Type := string.

Record TaskIncarnation := MkTaskIncarnation {
  inc_context_id : string;
  inc_sender : string;
  inc_recipient : string;
  inc_created_unix_ms : Z;
}.

#[global] Instance TaskIncarnation_eq_dec : EqDecision TaskIncarnation.
Proof. solve_decision. Defined.

(** [impl From<&DurableTask> for TaskIncarnation] *)
Definition TaskIncarnation_from `{JsonNumber} (task : DurableTask) : TaskIncarnation :=
  MkTaskIncarnation (dt_context_id task) (agent_str (dt_sender task))
    (agent_str (dt_recipient task)) (dt_created_unix_ms task).

Record SdkProjectionAdmission := MkAdmission {
  adm_fingerprint : ProjectionFingerprint;
  adm_version : Z;
  adm_incarnation : TaskIncarnation;
  adm_sequence : Z;
}.

#[global] Instance SdkProjectionAdmission_eq_dec : EqDecision SdkProjectionAdmission.
Proof. solve_decision. Defined.

Record SdkProjectionAdmissionRegistry := MkRegistry {
  by_task : gmap string (list SdkProjectionAdmission);
  total : nat;
  next_sequence : Z;
}.

#[global] Instance Registry_fields : Fields SdkProjectionAdmissionRegistry := λ r,
  MkRegistry (by_task r) (total r) (next_sequence r).

(** [SdkProjectionAdmissionRegistry::default] *)
Definition Registry_default : SdkProjectionAdmissionRegistry := MkRegistry ∅ 0 0.

Abbreviation M := (ST SdkProjectionAdmissionRegistry string).

(** [self.total -= n] *)
Definition sub_total (n : nat) : M () :=
  let! r := st_get in
  let! total' := st_lift (expect (if (n <=? total r)%nat then Some (total r - n)%nat else None)
                            "attempt to subtract with overflow") in
  st_modify (λ r, r <| total := total' |>).

(** [iter.enumerate().min_by_key(sequence)]: the first index of a least sequence. *)
Fixpoint min_index (l : list SdkProjectionAdmission) : option nat :=
  match l with
  | [] => None
  | a :: l =>
      match min_index l with
      | Some i =>
          match l !! i with
          | Some b => if (adm_sequence b <? adm_sequence a)%Z then Some (S i) else Some 0%nat
          | None => Some 0%nat
          end
      | None => Some 0%nat
      end
  end.

(** Store a queue, or drop its entry when it is empty. *)
Definition set_queue (task_id : string) (queue : list SdkProjectionAdmission)
    (r : SdkProjectionAdmissionRegistry) : SdkProjectionAdmissionRegistry :=
  r <| by_task := match queue with
                  | [] => delete task_id (by_task r)
                  | _ => <[task_id := queue]> (by_task r)
                  end |>.

Definition remove_oldest_for_task (task_id : string) : M () :=
  let! r := st_get in
  match by_task r !! task_id with
  | None => st_ret tt
  | Some admissions =>
      let! index := st_lift (expect (min_index admissions)
                               "a full task admission queue is nonempty") in
      let! _ := sub_total 1 in
      st_modify (set_queue task_id (delete index admissions))
  end.

(** The least sequence of all queues, with its task and index. *)
Definition oldest_of (entries : list (string * list SdkProjectionAdmission))
    : option (string * nat * Z) :=
  foldr (λ '(task_id, queue) best,
    match min_index queue with
    | Some i =>
        match queue !! i with
        | Some a =>
            match best with
            | Some (_, _, s) => if (s <? adm_sequence a)%Z then best
                                else Some (task_id, i, adm_sequence a)
            | None => Some (task_id, i, adm_sequence a)
            end
        | None => best
        end
    | None => best
    end) None entries.

Definition remove_oldest : M () :=
  let! r := st_get in
  let! oldest := st_lift (expect (oldest_of (map_to_list (by_task r)))
                            "a full projection admission registry is nonempty") in
  let '(task_id, index, _) := oldest in
  let! admissions := st_lift (expect (by_task r !! task_id)
                                "selected task admission queue exists") in
  let! _ := sub_total 1 in
  st_modify (set_queue task_id (delete index admissions)).

(** The two evictions that [record] and [restore] begin with. *)
Definition make_room (task_id : string) : M () :=
  let! r := st_get in
  let! _ := if from_option (λ admissions,
                 length admissions =? MAX_SDK_PROJECTION_ADMISSIONS_PER_TASK)%nat false
                 (by_task r !! task_id)
            then remove_oldest_for_task task_id else st_ret tt in
  let! r := st_get in
  if (total r =? MAX_SDK_PROJECTION_ADMISSIONS)%nat then remove_oldest else st_ret tt.

(** [self.by_task.entry(task_id).or_default().push_back(admission); self.total += 1] *)
Definition push_back (task_id : string) (admission : SdkProjectionAdmission) : M () :=
  st_modify (λ r, r <| by_task := <[task_id := default [] (by_task r !! task_id) ++ [admission]]>
                                     (by_task r) |>
                    <| total ::= S |>).

Definition record (task_id : string) (fingerprint : ProjectionFingerprint) (version : Z)
    (incarnation : TaskIncarnation) : M () :=
  let! r := st_get in
  let sequence := next_sequence r in
  let! next := st_lift (ok_or (checked_add_u64 (next_sequence r) 1)
                          "task projection admission sequence exhausted") in
  let! _ := st_modify (λ r, r <| next_sequence := next |>) in
  let! _ := make_room task_id in
  push_back task_id (MkAdmission fingerprint version incarnation sequence).

(** The predicate of [consume]'s search. *)
Definition admits (fingerprint : ProjectionFingerprint) (authoritative_version : Z)
    (incarnation : TaskIncarnation) (superseded : bool) (admission : SdkProjectionAdmission) : bool :=
  bool_decide (adm_fingerprint admission = fingerprint)
  && bool_decide (adm_incarnation admission = incarnation)
  && (if superseded then (adm_version admission <? authoritative_version)%Z
      else (adm_version admission <=? authoritative_version)%Z).

(** [Iterator::position] *)
Fixpoint position {A} (p : A → bool) (l : list A) : option nat :=
  match l with
  | [] => None
  | a :: l => if p a then Some 0%nat else S <$> position p l
  end.

Definition consume (task_id : string) (fingerprint : ProjectionFingerprint)
    (authoritative_version : Z) (incarnation : TaskIncarnation) (superseded : bool)
    : M (option SdkProjectionAdmission) :=
  let! r := st_get in
  match by_task r !! task_id with
  | None => st_ret None
  | Some admissions =>
      match position (admits fingerprint authoritative_version incarnation superseded) admissions with
      | None => st_ret None
      | Some index =>
          match admissions !! index with
          | None => st_ret None
          | Some admission =>
              let! _ := sub_total 1 in
              let! _ := st_modify (set_queue task_id (delete index admissions)) in
              st_ret (Some admission)
          end
      end
  end.

Definition restore (task_id : string) (admission : SdkProjectionAdmission) : M () :=
  let! _ := make_room task_id in
  push_back task_id admission.

Definition remove_task (task_id : string) : M () :=
  let! r := st_get in
  match by_task r !! task_id with
  | None => st_ret tt
  | Some admissions =>
      let! _ := st_modify (λ r, r <| by_task ::= delete task_id |>) in
      sub_total (length admissions)
  end.

(** [SqliteTaskStore::retire_sdk_projection_admissions] *)
Definition retire_sdk_projection_admissions (task_ids : list string) : M () :=
  for_each remove_task task_ids.

(** * Theorems about the projection admissions

    The registry stays within its bounds and its counters agree with its queues, no
    operation panics, the oldest admission makes room for a new one, and a recorded
    admission can be consumed. *)
Implicit Types (m : gmap string (list SdkProjectionAdmission)) (q : list SdkProjectionAdmission).
Implicit Types (r : SdkProjectionAdmissionRegistry).

(** The number of admissions in all queues. *)
Definition weight m : nat := sum_list_with (λ p, length p.2) (map_to_list m).

Lemma sum_list_with_Permutation {A} (f : A → nat) (l k : list A) :
  l ≡ₚ k → sum_list_with f l = sum_list_with f k.
Proof. induction 1; simpl; lia. Qed.

Lemma weight_delete m k q : m !! k = Some q → weight m = length q + weight (delete k m).
Proof.
  intros Hk. unfold weight. by rewrite <-(sum_list_with_Permutation _ _ _ (map_to_list_delete m k q Hk)).
Qed.

Lemma weight_insert m k q : weight (<[k := q]> m) = length q + weight (delete k m).
Proof. rewrite (weight_delete _ k q) by apply lookup_insert_eq. by rewrite delete_insert_eq. Qed.

Lemma weight_empty : weight ∅ = 0.
Proof. done. Qed.

(** The sequence at the index found is the least. *)
Lemma min_index_spec q :
  match min_index q with
  | Some i => ∃ a, q !! i = Some a ∧ ∀ b, b ∈ q → (adm_sequence a ≤ adm_sequence b)%Z
  | None => q = []
  end.
Proof.
  induction q as [|a q IH]; simpl; [done|].
  destruct (min_index q) as [i|].
  - destruct IH as (b & Hb & Hle). rewrite Hb.
    destruct (Z.ltb_spec (adm_sequence b) (adm_sequence a)).
    + exists b. split; [done|]. intros c [->|Hc]%elem_of_cons; [lia|by apply Hle].
    + exists a. split; [done|]. intros c [->|Hc]%elem_of_cons; [lia|]. specialize (Hle c Hc). lia.
  - subst q. exists a. split; [done|]. intros c [->|[]%not_elem_of_nil]%elem_of_cons. lia.
Qed.

Lemma min_index_Some q : q ≠ [] → ∃ i a, min_index q = Some i ∧ q !! i = Some a ∧
  ∀ b, b ∈ q → (adm_sequence a ≤ adm_sequence b)%Z.
Proof.
  intros Hq. pose proof (min_index_spec q) as Hm. destruct (min_index q) as [i|]; [|done].
  destruct Hm as (a & ? & ?). by exists i, a.
Qed.

(** The bounds of the registry. *)
Record RegistryOK r : Prop := {
  reg_total : total r = weight (by_task r);
  reg_bound : total r ≤ MAX_SDK_PROJECTION_ADMISSIONS;
  reg_queues : ∀ k q, by_task r !! k = Some q →
    q ≠ [] ∧ length q ≤ MAX_SDK_PROJECTION_ADMISSIONS_PER_TASK;
}.

Lemma RegistryOK_default : RegistryOK Registry_default.
Proof. split; [done|simpl; lia|]. intros k q. cbn. by rewrite lookup_empty. Qed.

Lemma wp_sub_total n (Q : () → SdkProjectionAdmissionRegistry → Prop) X r :
  n ≤ total r → Q tt (r <| total := total r - n |>) → wp (sub_total n) Q X r.
Proof.
  intros Hn HQ. unfold sub_total. wp_steps. apply Nat.leb_le in Hn. rewrite Hn.
  apply wp_lift. wp_steps. done.
Qed.

(** Taking one admission out of a queue. *)
Definition taken (k : string) (i : nat) q r : SdkProjectionAdmissionRegistry :=
  set_queue k (delete i q) (r <| total := total r - 1 |>).

Lemma taken_ok k i q r a :
  RegistryOK r → by_task r !! k = Some q → q !! i = Some a →
  RegistryOK (taken k i q r) ∧ total r = S (total (taken k i q r)).
Proof.
  intros [Ht Hb Hq] Hk Hi.
  pose proof (weight_delete _ _ _ Hk) as Hw. destruct (Hq k q Hk) as [Hne Hlen].
  assert (length (delete i q) = length q - 1) as Hdel
    by (rewrite length_delete by eauto; lia).
  assert (0 < length q) by (destruct q; [done|simpl; lia]).
  split; [|unfold taken, set_queue; simpl; lia].
  split; unfold taken, set_queue; simpl.
  - destruct (delete i q) as [|b q'] eqn:Hd; simpl in Hdel.
    + simpl. lia.
    + rewrite weight_insert. simpl. lia.
  - lia.
  - intros k' q'. destruct (delete i q) as [|b q''] eqn:Hd.
    + intros [_ Hk']%lookup_delete_Some. by apply (Hq k').
    + rewrite lookup_insert. case_decide as Hkk; [|by apply (Hq k')].
      intros [= <-]. split; [done|]. rewrite Hdel. lia.
Qed.

(** Every queue but [k]'s is as it was. *)
Lemma taken_other k i q r k' : k' ≠ k → by_task (taken k i q r) !! k' = by_task r !! k'.
Proof.
  intros Hne. unfold taken, set_queue. simpl. destruct (delete i q).
  - by rewrite lookup_delete_ne.
  - by rewrite lookup_insert_ne.
Qed.

Lemma remove_oldest_for_task_spec k q r :
  RegistryOK r → by_task r !! k = Some q →
  wp (remove_oldest_for_task k)
    (λ _ r', ∃ i a, q !! i = Some a ∧ (∀ b, b ∈ q → (adm_sequence a ≤ adm_sequence b)%Z) ∧
       r' = taken k i q r) (λ _ _, False) r.
Proof.
  intros Hok Hk. unfold remove_oldest_for_task. wp_steps. rewrite Hk.
  destruct (min_index_Some q) as (i & a & Hi & Ha & Hmin); [by apply (reg_queues _ Hok) in Hk as []|].
  wp_step. eapply wp_expect; [exact Hi|]. wp_step. apply wp_sub_total.
  - destruct (taken_ok k i q r a Hok Hk Ha) as [_ Htot]. lia.
  - apply wp_modify. by exists i, a.
Qed.

(** The least sequence over all queues. *)
Lemma oldest_of_spec entries :
  match oldest_of entries with
  | Some (k, i, s) => ∃ q a, (k, q) ∈ entries ∧ q !! i = Some a ∧ adm_sequence a = s ∧
      ∀ k' q' b, (k', q') ∈ entries → b ∈ q' → (s ≤ adm_sequence b)%Z
  | None => ∀ k q, (k, q) ∈ entries → q = []
  end.
Proof.
  induction entries as [|[k q] entries IH]; simpl; [by intros ? ? ?%not_elem_of_nil|].
  pose proof (min_index_spec q) as Hq. destruct (min_index q) as [i|].
  - destruct Hq as (a & Ha & Hmin). rewrite Ha.
    destruct (oldest_of entries) as [[[k' i'] s]|].
    + destruct IH as (q' & b & Hin & Hb & Hs & Hall). destruct (Z.ltb_spec s (adm_sequence a)).
      * exists q', b. split_and!; [by right|done..|].
        intros k'' q'' c [[= -> ->]|Hc]%elem_of_cons Hcq; [specialize (Hmin c Hcq); lia|by eapply Hall].
      * exists q, a. split_and!; [by left|done..|].
        intros k'' q'' c [[= -> ->]|Hc]%elem_of_cons Hcq; [by apply Hmin|].
        specialize (Hall _ _ _ Hc Hcq). lia.
    + exists q, a. split_and!; [by left|done..|].
      intros k'' q'' c [[= -> ->]|Hc]%elem_of_cons Hcq; [by apply Hmin|].
      apply IH in Hc. subst q''. by apply not_elem_of_nil in Hcq.
  - subst q. destruct (oldest_of entries) as [[[k' i'] s]|].
    + destruct IH as (q' & b & Hin & Hb & Hs & Hall). exists q', b. split_and!; [by right|done..|].
      intros k'' q'' c [[= -> ->]|Hc]%elem_of_cons Hcq; [by apply not_elem_of_nil in Hcq|by eapply Hall].
    + intros k'' q'' [[= -> ->]|Hc]%elem_of_cons; [done|by eapply IH].
Qed.

Lemma remove_oldest_spec r :
  RegistryOK r → 0 < total r →
  wp remove_oldest
    (λ _ r', ∃ k q i a, by_task r !! k = Some q ∧ q !! i = Some a ∧
       (∀ k' q' b, by_task r !! k' = Some q' → b ∈ q' → (adm_sequence a ≤ adm_sequence b)%Z) ∧
       r' = taken k i q r) (λ _ _, False) r.
Proof.
  intros Hok Hpos. unfold remove_oldest. wp_steps.
  pose proof (oldest_of_spec (map_to_list (by_task r))) as Hold.
  destruct (oldest_of _) as [[[k i] s]|].
  - destruct Hold as (q & a & Hin%elem_of_map_to_list & Ha & <- & Hall).
    eapply wp_expect; [reflexivity|]. cbv beta iota. wp_step. eapply wp_expect; [exact Hin|]. wp_step. apply wp_sub_total; [lia|].
    apply wp_modify. exists k, q, i, a. split_and!; [done..| |done].
    intros k' q' b Hk'. by apply (Hall k'), elem_of_map_to_list.
  - exfalso. assert (weight (by_task r) = 0) as Hz; [|rewrite <-(reg_total _ Hok) in Hz; lia].
    unfold weight. induction (map_to_list (by_task r)) as [|[k q] l IH]; simpl; [done|].
    rewrite IH by (intros k' q' Hin; apply (Hold k'); set_solver).
    by rewrite (Hold k q) by set_solver.
Qed.

(** What making room leaves: space in the task's queue and in the registry. *)
Definition roomy (k : string) r : Prop :=
  RegistryOK r ∧ total r < MAX_SDK_PROJECTION_ADMISSIONS ∧
  ∀ q, by_task r !! k = Some q → length q < MAX_SDK_PROJECTION_ADMISSIONS_PER_TASK.

Lemma make_room_spec k r :
  RegistryOK r →
  wp (make_room k) (λ _ r', roomy k r' ∧ next_sequence r' = next_sequence r) (λ _ _, False) r.
Proof.
  intros Hok. unfold make_room. wp_steps.
  assert (∀ r1, RegistryOK r1 → next_sequence r1 = next_sequence r →
    (∀ q, by_task r1 !! k = Some q → length q < MAX_SDK_PROJECTION_ADMISSIONS_PER_TASK) →
    wp (let! r := st_get in
        if (total r =? MAX_SDK_PROJECTION_ADMISSIONS)%nat then remove_oldest else st_ret tt)
      (λ _ r', roomy k r' ∧ next_sequence r' = next_sequence r) (λ _ _, False) r1) as Hglobal.
  { intros r1 Hok1 Hn Hq. wp_steps. destruct (Nat.eqb_spec (total r1) MAX_SDK_PROJECTION_ADMISSIONS) as [Ht|Ht].
    - eapply wp_mono; [apply remove_oldest_spec; [done|]; rewrite Ht; unfold MAX_SDK_PROJECTION_ADMISSIONS, MAX_RETAINED_TASKS; lia| |done].
      intros [] r2 (k' & q & i & a & Hk' & Ha & _ & ->).
      destruct (taken_ok k' i q r1 a Hok1 Hk' Ha) as [Hok2 Htot].
      split; [|done]. split_and!; [done|lia|]. intros q'.
      destruct (decide (k = k')) as [<-|Hne]; [|rewrite taken_other by done; apply Hq].
      unfold taken, set_queue. simpl. destruct (delete i q) as [|b q''] eqn:Hd.
      + by rewrite lookup_delete_eq.
      + rewrite lookup_insert_eq. intros [= <-]. rewrite <-Hd, length_delete by eauto.
        specialize (Hq _ Hk'). lia.
    - apply wp_ret. split; [|done]. split_and!; [done| |done].
      pose proof (reg_bound _ Hok1). lia. }
  destruct (by_task r !! k) as [q|] eqn:Hk; simpl; [|apply wp_ret, Hglobal; [done..|]; by rewrite Hk].
  destruct (reg_queues _ Hok k q Hk) as [_ Hlen].
  destruct (Nat.eqb_spec (length q) MAX_SDK_PROJECTION_ADMISSIONS_PER_TASK) as [Hfull|Hfree].
  - eapply wp_mono; [by apply (remove_oldest_for_task_spec k q)| |done].
    intros [] r1 (i & a & Ha & _ & ->). destruct (taken_ok k i q r a Hok Hk Ha) as [Hok1 _].
    apply Hglobal; [done..|]. intros q'. unfold taken, set_queue. simpl.
    destruct (delete i q) as [|b q''] eqn:Hd.
    + by rewrite lookup_delete_eq.
    + rewrite lookup_insert_eq. intros [= <-]. rewrite <-Hd, length_delete by eauto.
      unfold MAX_SDK_PROJECTION_ADMISSIONS_PER_TASK in *. lia.
  - apply wp_ret, Hglobal; [done..|]. rewrite Hk. intros q' [= <-]. lia.
Qed.

(** Appending to a roomy registry keeps the bounds. *)
Lemma push_back_spec k a r :
  roomy k r →
  wp (push_back k a)
    (λ _ r', RegistryOK r' ∧ next_sequence r' = next_sequence r ∧
       by_task r' !! k = Some (default [] (by_task r !! k) ++ [a])) (λ _ _, False) r.
Proof.
  intros ([Ht Hb Hq] & Htot & Hroom). unfold push_back. apply wp_modify. split_and!; [|done|apply lookup_insert_eq].
  split; simpl.
  - rewrite weight_insert, length_app. simpl. destruct (by_task r !! k) as [q|] eqn:Hk; simpl.
    + pose proof (weight_delete _ _ _ Hk). lia.
    + rewrite delete_id by done. lia.
  - lia.
  - intros k' q'. rewrite lookup_insert. case_decide as Hkk; [|by apply (Hq k')].
    intros [= <-]. split; [by destruct (default [] (by_task r !! k))|]. rewrite length_app. simpl.
    destruct (by_task r !! k) as [q|] eqn:Hk; simpl; [specialize (Hroom q eq_refl); lia|].
    unfold MAX_SDK_PROJECTION_ADMISSIONS_PER_TASK. lia.
Qed.

Lemma record_spec k fingerprint version incarnation r :
  RegistryOK r →
  wp (record k fingerprint version incarnation)
    (λ _ r', RegistryOK r' ∧ next_sequence r' = (next_sequence r + 1)%Z ∧
       ∃ q, by_task r' !! k = Some (q ++ [MkAdmission fingerprint version incarnation (next_sequence r)]))
    (λ _ r', r' = r) r.
Proof.
  intros Hok. unfold record. wp_steps. apply wp_ok_or; [|done]. intros next [-> _]%checked_Some. wp_steps.
  eapply (wp_mono _ _ _ (λ _ _, False)); [apply make_room_spec; by destruct Hok| |done].
  intros [] r1 [Hroom Hn]. eapply (wp_mono _ _ _ (λ _ _, False)); [by apply push_back_spec| |done].
  intros [] r2 (Hok2 & Hn2 & Hq). split_and!; [done|by rewrite Hn2, Hn|eauto].
Qed.

Lemma restore_spec k a r :
  RegistryOK r →
  wp (restore k a) (λ _ r', RegistryOK r' ∧ ∃ q, by_task r' !! k = Some (q ++ [a])) (λ _ _, False) r.
Proof.
  intros Hok. unfold restore. wp_step. eapply wp_mono; [by apply make_room_spec| |done].
  intros [] r1 [Hroom _]. eapply wp_mono; [by apply push_back_spec| |done].
  intros [] r2 (? & _ & ?). eauto.
Qed.

Lemma position_spec {A} (p : A → bool) (l : list A) :
  match position p l with
  | Some i => ∃ a, l !! i = Some a ∧ p a = true ∧ ∀ j b, j < i → l !! j = Some b → p b = false
  | None => ∀ a, a ∈ l → p a = false
  end.
Proof.
  induction l as [|a l IH]; simpl; [by intros a ?%not_elem_of_nil|].
  destruct (p a) eqn:Hp; [exists a; split_and!; [done..|]; intros; lia|].
  destruct (position p l) as [i|]; simpl.
  - destruct IH as (b & Hb & Hpb & Hfirst). exists b. split_and!; [done..|].
    intros [|j] c Hj Hc; [by simplify_eq/=|]. eapply Hfirst; [|exact Hc]. lia.
  - intros b [->|Hb]%elem_of_cons; auto.
Qed.

(** [consume] takes the first admission that matches, if there is one. *)
Lemma consume_spec k fingerprint version incarnation superseded r :
  RegistryOK r →
  wp (consume k fingerprint version incarnation superseded)
    (λ found r', RegistryOK r' ∧
       match found with
       | Some a => admits fingerprint version incarnation superseded a = true ∧
           ∃ q i, by_task r !! k = Some q ∧ q !! i = Some a ∧ r' = taken k i q r
       | None => r' = r ∧ ∀ q a, by_task r !! k = Some q → a ∈ q →
           admits fingerprint version incarnation superseded a = false
       end) (λ _ _, False) r.
Proof.
  intros Hok. unfold consume. wp_steps. destruct (by_task r !! k) as [q|] eqn:Hk; [|by apply wp_ret].
  pose proof (position_spec (admits fingerprint version incarnation superseded) q) as Hpos.
  destruct (position _ q) as [i|].
  - destruct Hpos as (a & Ha & Hp & _). rewrite Ha.
    destruct (taken_ok k i q r a Hok Hk Ha) as [Hok' Htot].
    wp_step. apply wp_sub_total; [lia|]. wp_steps. split; [done|]. split; [done|]. by exists q, i.
  - apply wp_ret. split_and!; [done..|]. intros q' a [= <-]. apply Hpos.
Qed.

Lemma remove_task_spec k r :
  RegistryOK r →
  wp (remove_task k) (λ _ r', RegistryOK r' ∧ by_task r' = delete k (by_task r)) (λ _ _, False) r.
Proof.
  intros [Ht Hb Hq]. unfold remove_task. wp_steps. destruct (by_task r !! k) as [q|] eqn:Hk.
  - pose proof (weight_delete _ _ _ Hk). wp_steps. apply wp_sub_total; simpl; [lia|].
    split; [|done]. split; simpl; [lia..|]. intros k' q' [_ Hk']%lookup_delete_Some. by apply (Hq k').
  - apply wp_ret. by rewrite delete_id.
Qed.

Lemma retire_spec ids r :
  RegistryOK r →
  wp (retire_sdk_projection_admissions ids)
    (λ _ r', RegistryOK r' ∧ ∀ id, by_task r' !! id = if decide (id ∈ ids) then None else by_task r !! id)
    (λ _ _, False) r.
Proof.
  intros Hok. unfold retire_sdk_projection_admissions.
  eapply wp_mono; [apply (wp_for_each _ (λ done r', RegistryOK r' ∧
    ∀ id, by_task r' !! id = if decide (id ∈ done) then None else by_task r !! id) (λ _ _, False) ids)| |done].
  - split; [done|]. intros id. by rewrite decide_False by apply not_elem_of_nil.
  - intros done id todo r' _ [Hok' Hq]. eapply wp_mono; [by apply remove_task_spec| |done].
    intros [] r'' [Hok'' Hd]. split; [done|]. intros id'. rewrite Hd, lookup_delete, Hq.
    repeat case_decide; set_solver.
  - done.
Qed.

(** ** Properties *)

(** One call of the registry. *)
Inductive AdmissionOp :=
| OpRecord (k : string) (fingerprint : string) (version : Z) (incarnation : TaskIncarnation)
| OpConsume (k : string) (fingerprint : string) (version : Z) (incarnation : TaskIncarnation)
    (superseded : bool)
| OpRestore (k : string) (a : SdkProjectionAdmission)
| OpRetire (ks : list string).

(** The state after a call, unless it panicked. *)
Definition run_op r (op : AdmissionOp) : option SdkProjectionAdmissionRegistry :=
  let after {A} (m : Outcome string A * SdkProjectionAdmissionRegistry) :=
    match m with (Panic _, _) => None | (_, r') => Some r' end in
  match op with
  | OpRecord k fingerprint version incarnation => after (record k fingerprint version incarnation r)
  | OpConsume k fingerprint version incarnation superseded =>
      after (consume k fingerprint version incarnation superseded r)
  | OpRestore k a => after (restore k a r)
  | OpRetire ks => after (retire_sdk_projection_admissions ks r)
  end.

Definition run_ops (ops : list AdmissionOp) r : option SdkProjectionAdmissionRegistry :=
  foldl (λ acc op, acc ≫= λ r, run_op r op) (Some r) ops.

Lemma run_op_ok r op : RegistryOK r → ∃ r', run_op r op = Some r' ∧ RegistryOK r'.
Proof.
  intros Hok. destruct op as [k fp v inc|k fp v inc sup|k a|ks]; simpl.
  - pose proof (record_spec k fp v inc r Hok) as Hs. unfold wp in Hs.
    destruct (record k fp v inc r) as [[]  r']; [naive_solver|naive_solver|done].
  - pose proof (consume_spec k fp v inc sup r Hok) as Hs. unfold wp in Hs.
    destruct (consume k fp v inc sup r) as [[] r']; [naive_solver|done|done].
  - pose proof (restore_spec k a r Hok) as Hs. unfold wp in Hs.
    destruct (restore k a r) as [[] r']; [naive_solver|done|done].
  - pose proof (retire_spec ks r Hok) as Hs. unfold wp in Hs.
    destruct (retire_sdk_projection_admissions ks r) as [[] r']; [naive_solver|done|done].
Qed.

(** Whatever calls are made on the registry of projection admissions, none
    panics (no counter underflows, no eviction finds nothing to evict), a task never
    holds more than 8 admissions and never an empty queue, there are never more than
    4096 in all, and the counter is the number of admissions held. *)
Theorem registry_stays_bounded ops :
  ∃ r, run_ops ops Registry_default = Some r ∧ RegistryOK r.
Proof.
  unfold run_ops.
  assert (∀ r, RegistryOK r → ∃ r', foldl (λ acc op, acc ≫= λ r, run_op r op) (Some r) ops = Some r' ∧ RegistryOK r')
    as Hall; [|apply Hall, RegistryOK_default].
  induction ops as [|op ops IH]; intros r Hok; [by exists r|]. cbn [foldl].
  destruct (run_op_ok r op Hok) as (r' & Hr' & Hok'). cbn. rewrite Hr'. by apply IH.
Qed.

(** An admission that was just recorded can be consumed: for the same
    fingerprint and incarnation and an authoritative version that is not older,
    [consume] finds an admission of that fingerprint and incarnation whose version is
    not newer, and takes exactly one out. *)
Theorem recorded_admission_is_consumed k fingerprint version incarnation authoritative r r1 :
  RegistryOK r → (version ≤ authoritative)%Z →
  record k fingerprint version incarnation r = (Done tt, r1) →
  ∃ a r2, consume k fingerprint authoritative incarnation false r1 = (Done (Some a), r2) ∧
    adm_fingerprint a = fingerprint ∧ adm_incarnation a = incarnation ∧
    (adm_version a ≤ authoritative)%Z ∧ total r1 = S (total r2) ∧ RegistryOK r2.
Proof.
  intros Hok Hle Hrun.
  destruct (wp_done _ _ _ _ _ _ (record_spec k fingerprint version incarnation r Hok) Hrun)
    as (Hok1 & _ & q & Hq).
  destruct (wp_total _ _ _ (consume_spec k fingerprint authoritative incarnation false r1 Hok1))
    as (found & r2 & Hc & Hok2 & Hfound).
  destruct found as [a|].
  - destruct Hfound as (Ha & q' & i & Hq' & Hi & ->). exists a, (taken k i q' r1).
    unfold admits in Ha. apply andb_true_iff in Ha as [[Hf%bool_decide_eq_true Hinc%bool_decide_eq_true]%andb_true_iff Hv%Z.leb_le].
    split_and!; [done..| |done]. by eapply taken_ok.
  - exfalso. destruct Hfound as [_ Hnone]. specialize (Hnone _ (MkAdmission fingerprint version incarnation (next_sequence r)) Hq).
    rewrite elem_of_app in Hnone. unfold admits in Hnone. simpl in Hnone.
    rewrite !bool_decide_eq_true_2 in Hnone by done.
    apply Z.leb_le in Hle. rewrite Hle in Hnone. discriminate Hnone. right. by left.
Qed.

Module AdmissionSample.
Definition incarnation : TaskIncarnation := MkTaskIncarnation "context" "alice" "bob" 1000.

(** Witness. *)
Lemma recorded_admission_is_consumed_witness :
  ∃ a r2, consume "task" "digest" 4 incarnation false (record "task" "digest" 3 incarnation Registry_default).2
    = (Done (Some a), r2) ∧ (adm_version a ≤ 4)%Z.
Proof.
  destruct (recorded_admission_is_consumed "task" "digest" 3 incarnation 4 Registry_default
    (record "task" "digest" 3 incarnation Registry_default).2 RegistryOK_default ltac:(lia)
    ltac:(vm_compute; reflexivity)) as (a & r2 & Hrun & _ & _ & Hv & _).
  exists a, r2. split; [exact Hrun|exact Hv].
Defined.
End AdmissionSample.
