(* ===== verification/TaskStore.v ===== *)
(** * The task store

    [SqliteTaskStore] of [herdr-a2a-broker/src/store.rs] as the broker's
    [BrokerPersistence]: the connection with the ledger and the registry of
    projection admissions.  The instance makes every theorem about the broker a
    theorem about the broker on SQLite. *)
From stdpp Require Import prelude gmap strings sorting.
From S2P Require Import Prelude RustStd Model Validation Durability BrokerState BrokerDurable BrokerMaintain BrokerOps.
From S2P Require Import BrokerInv BrokerImage BrokerWorld BrokerSpec BrokerReach Scenario Sqlite LedgerCodec Ledger.
From S2P Require Import LedgerRows LedgerCommit Admissions.

Record SqliteTaskStore := MkTaskStore {
  store_connection : Conn Tables;
  sdk_projection_admissions : SdkProjectionAdmissionRegistry;
}.

#[global] Instance SqliteTaskStore_fields : Fields SqliteTaskStore := λ s,
  MkTaskStore (store_connection s) (sdk_projection_admissions s).

(** What holds of a store between calls: no transaction is open, a row is stored
    under its own identifier, the registry is within its bounds. *)
Record StoreReady (s : SqliteTaskStore) : Prop := {
  ready_idle : working (store_connection s) = None;
  ready_keyed : keyed_rows (committed (store_connection s));
  ready_registry : RegistryOK (sdk_projection_admissions s);
}.

Section store.
Context `{Rusqlite} `{JsonNumber} {serde : SerdeJson} {chrono : Chrono} {uuid : UuidLib}.
Context {json : LedgerSerde} {json_spec : LedgerSerdeSpec} (fault : nat → option SqlError).

(** [impl BrokerPersistence for SqliteTaskStore] *)
Definition store_load (_now_unix_ms : Z) (s : SqliteTaskStore)
    : Result DomainError DurableBrokerSnapshot * SqliteTaskStore :=
  let '(r, db') := ledger_load fault (store_connection s) in
  (r, s <| store_connection := db' |>).

Definition store_commit (batch : PersistenceBatch) (s : SqliteTaskStore)
    : Result DomainError PersistenceCommitOutcome * SqliteTaskStore :=
  let '(r, retired, db') := ledger_commit fault batch (store_connection s) in
  let admissions := sdk_projection_admissions s in
  (r, MkTaskStore db'
        (if retired
         then (retire_sdk_projection_admissions (batch_delete_task_ids batch) admissions).2
         else admissions)).

Definition store_view (s : SqliteTaskStore) : DurableView :=
  ledger_view (committed (store_connection s)).

Lemma store_load_spec now s :
  StoreReady s →
  match store_load now s with
  | (r, s') => StoreReady s' ∧ store_view s' = store_view s ∧
      match r with Ok snapshot => snapshot_of (store_view s) snapshot | Err _ => True end
  end.
Proof.
  intros [Hidle Hkey Hreg]. unfold store_load, ledger_load.
  set (t := committed (store_connection s)) in *.
  pose proof (wp_spawn_blocking (load_closure fault) _ _ _ (conj eq_refl Hidle)
    (load_closure_spec fault t _ Hkey (conj eq_refl Hidle))) as Hload. unfold wp in Hload.
  destruct (spawn_blocking _ _) as [[snapshot|e|msg] db']; [| |done].
  - destruct Hload as [[Hc Hw] Hsnap]. unfold store_view. cbn. rewrite Hc.
    split_and!; [split; cbn; [done|by rewrite Hc|done]|done|done].
  - destruct Hload as [Hc Hw]. unfold store_view. cbn. rewrite Hc.
    split_and!; [split; cbn; [done|by rewrite Hc|done]|done|done].
Qed.

(** The laws of [commit], and the state it leaves. *)
Lemma store_commit_spec batch s :
  TypedBatch batch → StoreReady s →
  match store_commit batch s with
  | (r, s') => StoreReady s' ∧
      match r with
      | Ok Complete => ExactBatch batch → store_view s' = apply_batch batch (store_view s)
      | Ok ReconciliationRequired =>
          store_view s' = store_view s ∨ (ExactBatch batch → store_view s' = apply_batch batch (store_view s))
      | Err _ => store_view s' = store_view s
      end
  end.
Proof.
  intros Htyped [Hidle Hkey Hreg]. unfold store_commit, store_view.
  pose proof (ledger_commit_spec fault (committed (store_connection s)) batch (store_connection s)
    Htyped (conj eq_refl Hidle)) as Hspec.
  destruct (ledger_commit fault batch (store_connection s)) as [[r retired] db'].
  destruct Hspec as (t' & [Hc Hw] & Hk & Hr). cbn. rewrite Hc. split.
  - split; cbn; [done|rewrite Hc; auto|].
    destruct retired; [|done].
    pose proof (retire_spec (batch_delete_task_ids batch) _ Hreg) as Hretire. unfold wp in Hretire.
    destruct (retire_sdk_projection_admissions _ _) as [[] r']; [by destruct Hretire|done|done].
  - destruct r as [[]|e]; [by destruct Hr| |by destruct Hr as (_ & _ & ?)].
    destruct retired; auto.
Qed.

(** ** The instance *)

Definition typed_taskb (task : DurableTask) : bool :=
  bool_decide (in_u64 (dt_state_version task)) && bool_decide (in_u32 (dt_attempt task))
  && match dt_lease task with
     | Some lease =>
         match DeliveryId_parse (did_str (dl_delivery_id lease)) with
         | Done id => bool_decide (id = dl_delivery_id lease)
         | _ => false
         end
     | None => true
     end.

Lemma typed_taskb_iff task : typed_taskb task = true ↔ TypedTask task.
Proof.
  unfold typed_taskb. rewrite !andb_true_iff, !bool_decide_eq_true. split.
  - intros [[Hv Ha] Hl]. split; [done..|]. intros lease Hlease. rewrite Hlease in Hl.
    destruct (DeliveryId_parse _) as [id| |]; [|done..]. by apply bool_decide_eq_true in Hl as ->.
  - intros [Hv Ha Hl]. split_and!; [done..|]. destruct (dt_lease task) as [lease|]; [|done].
    rewrite (Hl lease eq_refl). by apply bool_decide_eq_true_2.
Qed.

Definition typed_batchb (batch : PersistenceBatch) : bool :=
  match batch_registration_epoch_high_watermark batch with
  | Some epoch => bool_decide (in_u64 (epoch_get epoch))
  | None => true
  end && forallb typed_taskb (batch_upsert_tasks batch).

Lemma typed_batchb_iff batch : typed_batchb batch = true ↔ TypedBatch batch.
Proof.
  unfold typed_batchb. rewrite andb_true_iff, forallb_forall. split.
  - intros [He Ht]. split.
    + intros epoch Hepoch. rewrite Hepoch in He. by apply bool_decide_eq_true in He.
    + apply Forall_forall. intros task Htask%list_elem_of_In. by apply typed_taskb_iff, Ht.
  - intros [He Ht]. split.
    + destruct (batch_registration_epoch_high_watermark batch); [|done]. apply bool_decide_eq_true_2. auto.
    + intros task Htask%list_elem_of_In. rewrite Forall_forall in Ht. by apply typed_taskb_iff, Ht.
Qed.

#[export] Instance TypedBatch_dec batch : Decision (TypedBatch batch).
Proof.
  refine (match typed_batchb batch as b return typed_batchb batch = b → _ with
          | true => λ Hb, left (proj1 (typed_batchb_iff batch) Hb)
          | false => λ Hb, right _
          end eq_refl).
  intros Ht%typed_batchb_iff. congruence.
Defined.

(** The task store, between calls. *)
Definition LedgerStore : Type := { s : SqliteTaskStore | StoreReady s }.

Lemma store_load_ready now s : StoreReady s → StoreReady (store_load now s).2.
Proof. intros Hs. pose proof (store_load_spec now s Hs) as Hl. by destruct (store_load now s), Hl. Qed.

Lemma store_commit_ready batch s : TypedBatch batch → StoreReady s → StoreReady (store_commit batch s).2.
Proof. intros Hb Hs. pose proof (store_commit_spec batch s Hb Hs) as Hc. by destruct (store_commit batch s), Hc. Qed.

(** Batches outside the Rust types do not exist; the function is total on them. *)
#[global] Instance sqlite_persistence : BrokerPersistence LedgerStore := {|
  load now p :=
    let out := store_load now (`p) in (out.1, out.2 ↾ store_load_ready now (`p) (proj2_sig p));
  commit batch p :=
    match decide (TypedBatch batch) with
    | left Htyped =>
        let out := store_commit batch (`p) in
        (out.1, out.2 ↾ store_commit_ready batch (`p) Htyped (proj2_sig p))
    | right _ => (Err PersistenceUnavailable, p)
    end;
|}.

(** The SQLite task store keeps the promises that the broker relies on, over metadata
    without floats. *)
Lemma integer_batches `{!IntegerNumbers} batch : ExactBatch batch.
Proof. apply Forall_forall. intros task _. split; intros; apply integers_no_floats. Qed.

#[global] Instance sqlite_spec `{!IntegerNumbers} : PersistenceSpec LedgerStore.
Proof.
  pose proof integer_batches as Hexact. refine {| view p := store_view (`p) |}.
  - intros [s [Hidle Hkey Hreg]]. by apply ledger_view_keyed.
  - intros now [s Hs] snapshot p' [= Hr <-]. cbn in *. pose proof (store_load_spec now s Hs) as Hspec.
    destruct (store_load now s) as [r s']. cbn in *. subst r.
    destruct Hspec as (_ & Hview & Hsnap). by rewrite Hview.
  - intros now [s Hs] e p' [= Hr <-]. cbn in *. pose proof (store_load_spec now s Hs) as Hspec.
    destruct (store_load now s) as [r s']. by destruct Hspec as (_ & ? & _).
  - intros batch [s Hs] p'. cbn. destruct (decide (TypedBatch batch)) as [Ht|]; [|done].
    intros [= Hr <-]. cbn in *. pose proof (store_commit_spec batch s Ht Hs) as Hspec.
    destruct (store_commit batch s) as [r s']. cbn in *. subst r. destruct Hspec. auto.
  - intros batch [s Hs] p'. cbn. destruct (decide (TypedBatch batch)) as [Ht|]; [|done].
    intros [= Hr <-]. cbn in *. pose proof (store_commit_spec batch s Ht Hs) as Hspec.
    destruct (store_commit batch s) as [r s']. cbn in *. subst r. destruct Hspec as [_ []]; auto.
  - intros batch [s Hs] e p'. cbn. destruct (decide (TypedBatch batch)) as [Ht|]; [|by intros [= _ <-]].
    intros [= Hr <-]. cbn in *. pose proof (store_commit_spec batch s Ht Hs) as Hspec.
    destruct (store_commit batch s) as [r s']. cbn in *. subst r. by destruct Hspec.
Defined.
End store.

(** * Properties of the ledger

    The SQLite task store keeps what the broker relies on, its rows round-trip, its
    version guard holds for every batch, and the broker on it is durable. *)
Section claims.
Context `{Rusqlite} `{JsonNumber} {serde : SerdeJson} {chrono : Chrono} {uuid : UuidLib}.
Context {json : LedgerSerde} {json_spec : LedgerSerdeSpec} (fault : nat → option SqlError).



(** [SqliteTaskStore::load] changes nothing that is stored, and what it returns
    lists every recoverable task of the ledger once, with the stored epoch. *)
Theorem sqlite_load_exact now s snapshot s' :
  StoreReady s → store_load fault now s = (Ok snapshot, s') →
  StoreReady s' ∧ store_view s' = store_view s ∧ snapshot_of (store_view s) snapshot.
Proof.
  intros Hready Hrun. pose proof (store_load_spec fault now s Hready) as Hspec.
  by rewrite Hrun in Hspec.
Qed.

(** The version guard: whatever batch is committed and whatever fails, a row
    that the batch does not delete is kept or replaced by one of a greater state
    version, and a quarantined legacy row is never replaced. *)
Theorem commit_never_rolls_back batch db :
  working db = None →
  rows_grow (batch_delete_task_ids batch) (committed db)
    (committed (ledger_commit fault batch db).2).
Proof.
  intros Hidle. destruct (ledger_commit_grows fault (committed db) batch db) as (t' & [<- _] & Hg); done.
Qed.

End claims.

(** ** Witnesses

    An empty ledger on a database that does not fail, and the broker of the scenario
    on it. *)
Lemma surjective_pairing_eq {A B} (p : A * B) a : p.1 = a → p = (a, p.2).
Proof. intros <-. by destruct p. Qed.

Module LedgerSample.
Import Scenario.

#[local] Instance sqlite : Rusqlite := {|
  SqlError := ();
  sqlite_failure _ := Some (OtherErrorCode 5);
  sql_error_display _ := "database is locked";
  unique_violation := tt;
  check_violation := tt;
  query_returned_no_rows := tt;
|}.

#[local] Instance millis : Chrono := {|
  DateTime := Z;
  timestamp_millis_opt ms := Some ms;
  parse_from_rfc3339 _ := None;
  timestamp_millis ms := ms;
  sortable_timestamp ms := u64_to_string ms;
|}.

#[local] Instance plain_uuid : UuidLib := {|
  Uuid := string;
  uuid_parse_str s := Some s;
  uuid_version_num _ := 7%Z;
  uuid_is_rfc4122 _ := true;
  uuid_to_string s := s;
|}.

Definition payload_text : string := "{file_refs:[],metadata:{},text:hello}".
Definition answer_text : string := "{file_refs:[],metadata:{},text:done}".

(** The texts of the two payloads of the scenario, and a task's identifier as the
    text of its projection. *)
#[local] Instance texts : LedgerSerde := {|
  payload_to_json v := if decide (v = payload) then Some payload_text else None;
  payload_from_str s := if String.eqb s payload_text then Some payload else None;
  reply_to_json v := if decide (v = answer) then Some answer_text else None;
  reply_from_str s := if String.eqb s answer_text then Some answer else None;
  task_to_json task := Some (a2a_id task);
  task_from_str s := Some (MkA2ATask s "context" (MkTaskStatus TaskSubmitted None None) None None None);
  task_state_name _ := Some "state";
|}.

#[local] Instance texts_spec : LedgerSerdeSpec.
Proof.
  split; intros v s _; cbn; case_decide; [intros [= <-]; by subst|done|intros [= <-]; by subst|done].
Qed.

Definition no_fault : nat → option SqlError := λ _, None.
Definition empty_tables : Tables := MkTables 1 ∅ (Some (MkBrokerMeta "0" 0)) ∅ ∅ ∅.
Definition empty_db : Conn Tables := MkConn empty_tables None 0 false.
Definition empty_task_store : SqliteTaskStore := MkTaskStore empty_db Registry_default.

Lemma empty_ready : StoreReady empty_task_store.
Proof. split; [done| |apply RegistryOK_default]. intros id row. cbn. by rewrite lookup_empty. Qed.

(** A queued task as the broker writes it, and the batch that writes it. *)
Definition queued_task : DurableTask :=
  MkDurableTask "t1" "context" (name "alice") (name "bob") payload 1000 (1000 + DELIVERY_TTL_MS) 1
    Queued None 0 None None None None.
Definition queue_batch : PersistenceBatch := MkBatch (Some (MkRegistrationEpoch 2)) [queued_task] [].

Lemma queue_exact : ExactBatch queue_batch.
Proof. apply integer_batches. Qed.

Lemma queue_typed : TypedBatch queue_batch.
Proof. apply typed_batchb_iff. by vm_compute. Qed.



(** Witness: the task is read back. *)
Definition filled : SqliteTaskStore := (store_commit no_fault queue_batch empty_task_store).2.

Lemma filled_ready : StoreReady filled.
Proof. apply store_commit_ready; [apply queue_typed|apply empty_ready]. Qed.

Lemma sqlite_load_exact_witness :
  snapshot_of (store_view filled) (MkSnapshot (MkRegistrationEpoch 2) [queued_task]).
Proof.
  refine (proj2 (proj2 (sqlite_load_exact no_fault 0 filled _ (store_load no_fault 0 filled).2 filled_ready _))).
  by vm_compute.
Defined.

(** Witness: an older row does not replace a newer one. *)
Definition stale_batch : PersistenceBatch := MkBatch None [queued_task <| dt_created_unix_ms := 2000%Z |>
    <| dt_delivery_deadline_unix_ms := (2000 + DELIVERY_TTL_MS)%Z |>] [].

Lemma commit_never_rolls_back_witness :
  rows_grow [] (committed (store_connection filled))
    (committed (ledger_commit no_fault stale_batch (store_connection filled)).2).
Proof. apply (commit_never_rolls_back no_fault stale_batch (store_connection filled)). by vm_compute. Defined.

(** Witness: an agent registers with a broker recovered from an empty ledger. *)
#[local] Instance ledger_persistence : BrokerPersistence LedgerStore := sqlite_persistence no_fault.
#[local] Instance ledger_spec : PersistenceSpec LedgerStore := sqlite_spec no_fault.

Definition ledger_store : LedgerStore := empty_task_store ↾ empty_ready.
Definition ledger_boot : World LedgerStore :=
  match (recover 1000 ledger_store).1 with
  | Done (w, _) => w
  | _ => MkWorld State_default ledger_store Shared_default
  end.
Definition ledger_register : Op := OpRegister (agent "alice" "p1") "s1" (rid "ra").
Definition ledger_registered : World LedgerStore := (exec ledger_register 1000 ledger_boot).2.

(** Whether a run returned. *)
Definition returned {E A S} (out : Outcome E A * S) : bool :=
  match out.1 with Done _ => true | _ => false end.

Lemma ledger_boot_reachable : Reachable 1000 ledger_boot.
Proof.
  assert (returned (recover 1000 ledger_store) = true) as Hret by (by vm_compute).
  unfold returned in Hret. unfold ledger_boot.
  destruct (recover 1000 ledger_store) as [[[w report]| |] p] eqn:Hrun; [|done..].
  by eapply reach_recover.
Qed.

End LedgerSample.
