(* ===== verification/LedgerStartup.v ===== *)
(** * The task ledger: start-up and projections for the SDK

    [prepare_startup] of [herdr-a2a-broker/src/ledger.rs] and what it runs: the
    migration of a database of the first schema, the quarantine of task owners
    without a task, the pruning of quarantined rows; and the read-only
    [clean_authoritative_projection]. *)
From stdpp Require Import prelude gmap strings sorting.
From S2P Require Import Prelude RustStd Model Validation Durability BrokerState Scenario Sqlite LedgerCodec Ledger.
From S2P Require Import LedgerRows LedgerCommit TaskStore.

Record StoreRecoveryReport := MkRecoveryReport {
  pruned_quarantined_tasks : nat;
  repaired_projections : nat;
  quarantined_legacy_tasks : nat;
}.

Section startup.
Context `{Rusqlite} `{JsonNumber} {serde : SerdeJson} {chrono : Chrono} {uuid : UuidLib}.
Context {json : LedgerSerde} (fault : nat → option SqlError).

Abbreviation M := (ST (Conn Tables) StoreError).

(** A quarantined row: no sender, no request, a state of its own. *)
Definition quarantined_row (task_id : string) (context_id : option string) (recipient : string)
    (at_unix_ms version retain_until_unix_ms : Z) : StoredTaskRow :=
  MkStoredTaskRow task_id context_id None recipient None at_unix_ms at_unix_ms
    "legacy_identity_unavailable" version None None 0 None None (Some at_unix_ms)
    (Some retain_until_unix_ms) 1.

(** [INSERT INTO delivery_tasks] without a conflict clause. *)
Definition insert_row (row : StoredTaskRow) : M () :=
  let! old := query fault (λ t, delivery_tasks t !! str_task_id row) in
  let! _ := st_lift (reject_if (is_some old) (StoreSqlite unique_violation)) in
  let! _ := st_lift (reject_if (negb (row_checks row)) (StoreSqlite check_violation)) in
  st_modify (write (λ t, t <| delivery_tasks ::= <[str_task_id row := row]> |>)).

Definition checked_recipient (recipient : option string) (missing malformed : string)
    : Outcome StoreError string :=
  let? recipient := ok_or recipient (invalid missing) in
  let? _ := map_err (invalid malformed) (AgentName_parse recipient) in
  Done recipient.

(** ** [migrate_schema] *)

(** [tasks LEFT JOIN task_owners ORDER BY tasks.task_id] *)
Definition legacy_tasks (t : Tables) : list (string * (ProjectionRow * option string)) :=
  by_key (map_imap (λ task_id row, Some (row_columns row, task_owners t !! task_id ≫= owner_recipient))
            (task_rows t)).

(** The owners whose identifier is in none of the given tables, in order. *)
Definition owners_without (present : gset string) (t : Tables) : list (string * option string) :=
  by_key (owner_recipient <$> filter (λ p, p.1 ∉ present) (task_owners t)).

Definition migrate_task (entry : string * (ProjectionRow * option string)) : M () :=
  let '(task_id, (row, recipient)) := entry in
  let! _ := st_lift (map_err (invalid "legacy task ID is invalid") (validate_task_id task_id)) in
  let! _ := st_lift (map_err (invalid "legacy context ID is invalid")
                       (validate_task_id (pr_context_id row))) in
  let! recipient := st_lift (checked_recipient recipient "legacy task recipient is missing"
                               "legacy task recipient is invalid") in
  let! _ := reject (pr_version row <? 1)%Z "legacy task version is invalid" in
  let! decoded := st_lift (ok_or (task_from_str (pr_task_json row))
                             (invalid "legacy task JSON is invalid")) in
  let! _ := reject (negb (String.eqb (a2a_id decoded) task_id)
                    || negb (String.eqb (a2a_context_id decoded) (pr_context_id row)))
              "legacy task JSON identity does not match its columns" in
  let! timestamp := st_lift (ok_or (parse_from_rfc3339 (pr_status_timestamp row))
                               (invalid "legacy task status timestamp is invalid")) in
  let status_unix_ms := timestamp_millis timestamp in
  let! retain_until := st_lift (ok_or (checked_add_i64 status_unix_ms TERMINAL_RETENTION_MS)
                                  (invalid "legacy task retention timestamp overflows")) in
  insert_row (quarantined_row task_id (Some (pr_context_id row)) recipient status_unix_ms
                (pr_version row) retain_until).

Definition migrate_owner (now_unix_ms tombstone_retention : Z)
    (entry : string * option string) : M () :=
  let '(task_id, recipient) := entry in
  let! _ := st_lift (map_err (invalid "legacy owner task ID is invalid") (validate_task_id task_id)) in
  let! recipient := st_lift (checked_recipient recipient "legacy owner recipient is missing"
                               "legacy owner recipient is invalid") in
  insert_row (quarantined_row task_id None recipient now_unix_ms 1 tombstone_retention).

Definition migrate_schema (now_unix_ms : Z) : M nat :=
  in_transaction fault (
    let! version := query fault user_version in
    if (version =? SCHEMA_VERSION)%Z then
      let! _ := commit_transaction fault in
      st_ret 0%nat
    else
      let! _ := reject (negb (version =? 0)%Z) "unsupported SQLite schema version" in
      let! _ := execute fault (λ t, t <| delivery_tasks := ∅ |> <| broker_meta := None |>
                                      <| projection_outbox := ∅ |>) in
      let! _ := execute fault (λ t, t <| broker_meta := Some (MkBrokerMeta "0" now_unix_ms) |>) in
      let! legacy := query fault legacy_tasks in
      let! _ := for_each migrate_task legacy in
      let! owner_only := query fault (λ t, owners_without (dom (task_rows t)) t) in
      let! tombstone_retention :=
        st_lift (ok_or (checked_add_i64 now_unix_ms TERMINAL_RETENTION_MS)
                   (invalid "legacy tombstone retention timestamp overflows")) in
      let! _ := for_each (migrate_owner now_unix_ms tombstone_retention) owner_only in
      let! count := query fault (λ t, size (delivery_tasks t)) in
      let! _ := reject (MAX_RETAINED_TASKS <? count)%nat
                  "legacy retained task capacity exceeds 4096" in
      let! _ := execute fault (λ t, t <| user_version := SCHEMA_VERSION |>) in
      let! _ := commit_transaction fault in
      st_ret count).

(** ** [quarantine_owner_only_rows] *)

Definition quarantine_owner (first_start retain_until : Z) (entry : string * option string) : M () :=
  let '(task_id, recipient) := entry in
  let! _ := st_lift (map_err (invalid "owner-only task ID is invalid") (validate_task_id task_id)) in
  let! recipient := st_lift (checked_recipient recipient "owner-only recipient is missing"
                               "owner-only recipient is invalid") in
  insert_row (quarantined_row task_id None recipient first_start 1 retain_until).

Definition quarantine_owner_only_rows : M nat :=
  in_transaction fault (
    let! _ := require_schema fault in
    let! meta := query_some fault broker_meta in
    let first_start := meta_first_m2a_start_unix_ms meta in
    let! _ := reject (first_start <? 0)%Z "first M2A start timestamp is negative" in
    let! retain_until := st_lift (ok_or (checked_add_i64 first_start TERMINAL_RETENTION_MS)
                                    (invalid "legacy tombstone retention timestamp overflows")) in
    let! owner_only := query fault (λ t, owners_without (dom (task_rows t) ∪ dom (delivery_tasks t)) t) in
    let! retained := query fault (λ t, size (delivery_tasks t)) in
    let! _ := reject (MAX_RETAINED_TASKS <? retained + length owner_only)%nat
                "retained task capacity is exhausted by owner quarantine" in
    let! _ := for_each (quarantine_owner first_start retain_until) owner_only in
    let! _ := commit_transaction fault in
    st_ret (length owner_only)).

(** ** [prune_quarantined] *)

Definition prunable (now_unix_ms : Z) (row : StoredTaskRow) : bool :=
  (str_legacy_quarantined row =? 1)%Z
  && is_some_and (str_retain_until_unix_ms row) (λ until, (until <=? now_unix_ms)%Z).

Definition prune_task (now_unix_ms : Z) (task_id : string) : M () :=
  let! _ := execute fault (λ t, t <| projection_outbox ::= delete task_id |>) in
  let! _ := execute fault (λ t, t <| task_owners ::= delete task_id |>) in
  let! _ := execute fault (λ t, t <| task_rows ::= delete task_id |>) in
  execute fault (λ t,
    if is_some_and (delivery_tasks t !! task_id) (prunable now_unix_ms)
    then t <| delivery_tasks ::= delete task_id |> else t).

Definition prune_quarantined (now_unix_ms : Z) : M nat :=
  in_transaction fault (
    let! task_ids := query fault (λ t,
      (filter (λ p, prunable now_unix_ms p.2 = true) (by_key (delivery_tasks t))).*1) in
    let! _ := for_each (prune_task now_unix_ms) task_ids in
    let! _ := commit_transaction fault in
    st_ret (length task_ids)).

(** ** [prepare_startup] *)

Definition prepare_closure (now_unix_ms : Z) : M (nat * nat) :=
  let! migrated := migrate_schema now_unix_ms in
  let! newly_quarantined := quarantine_owner_only_rows in
  let! pruned := prune_quarantined now_unix_ms in
  let! _ := validate_store fault in
  let! retained_quarantine :=
    if (0 <? migrated)%nat || (0 <? newly_quarantined)%nat
    then query fault (λ t, length (filter (λ p, (str_legacy_quarantined p.2 =? 1)%Z = true)
                                     (map_to_list (delivery_tasks t))))
    else st_ret 0%nat in
  st_ret (retained_quarantine, pruned).

Definition prepare_startup (now_unix_ms : Z) : M StoreRecoveryReport :=
  let! _ := reject (now_unix_ms <? 0)%Z "startup timestamp is negative" in
  let! counts := spawn_blocking (prepare_closure now_unix_ms) in
  let! repaired := apply_pending_projections fault in
  st_ret (MkRecoveryReport counts.2 repaired counts.1).

(** ** Reading for the SDK *)

Definition clean_authoritative_projection (task_id : string) : M (DurableTask * string) :=
  let! pending := query fault (λ t, projection_outbox t !! task_id) in
  let! _ := reject (is_some pending) "task projection reconciliation is pending" in
  let! row := stored_task_row fault task_id in
  let! row := st_lift (ok_or row (invalid "task projection has no retained ledger task")) in
  let! _ := reject (negb (str_legacy_quarantined row =? 0)%Z)
              "task projection references a quarantined task" in
  let! durable := st_lift (decode_durable_task row) in
  let! expected_version := st_lift (ok_or (i64_from_u64 (dt_state_version durable))
                             (invalid "ledger state version exceeds SQLite integer range")) in
  let! expected_json := st_lift (projection_json durable) in
  let! expected := st_lift (expected_columns durable) in
  let! stored := query fault (task_columns task_id) in
  let! _ := reject (negb (is_some_and stored (λ row,
                      bool_decide (row = projection_row expected expected_version))))
              "task projection differs from the authoritative retained ledger" in
  st_ret (durable, expected_json).
End startup.

(** * Theorems about the start-up of the store

    Preparing a database leaves the recoverable tasks as they are: the migration and
    the quarantine only add rows that [load] does not return, the pruning only
    removes such rows. *)
Section startup.
Context `{Rusqlite} `{JsonNumber} {serde : SerdeJson} {chrono : Chrono} {uuid : UuidLib}.
Context {json : LedgerSerde} (fault : nat → option SqlError).
Implicit Types (t w : Tables).

(** A database of schema 0 has no ledger tables. *)
Definition fresh_schema t : Prop :=
  user_version t = 0%Z → delivery_tasks t = ∅ ∧ broker_meta t = None.

(** The tables hold the tasks of [t0], and still one row per identifier. *)
Definition same_tasks (t0 w : Tables) : Prop :=
  ledger_view w = ledger_view t0 ∧ (keyed_rows t0 → keyed_rows w).

(** Inside a transaction over [t]. *)
Definition keeps_tasks (t t0 : Tables) (P : Tables → Prop) (db : Conn Tables) : Prop :=
  ∃ w, holds t (Some w) db ∧ same_tasks t0 w ∧ P w.

#[export] Instance keeps_tasks_stable t t0 P : StepStable (keeps_tasks t t0 P).
Proof. intros db (w & Hw & Hs). exists w. by split; [apply step_stable|]. Qed.

Lemma keeps_tasks_write t t0 P f db :
  (∀ w, same_tasks t0 w → P w → same_tasks t0 (f w) ∧ P (f w)) →
  keeps_tasks t t0 P db → keeps_tasks t t0 P (write f db).
Proof.
  intros Hf (w & [Ht Hw] & Hs & HP). exists (f w). unfold write. rewrite Hw.
  split; [done|]. by apply Hf.
Qed.

Lemma quarantined_decodes id context recipient at_ms version until :
  decoded (quarantined_row id context recipient at_ms version until) = None.
Proof. done. Qed.

Lemma quarantine_same_tasks t0 w id context recipient at_ms version until :
  delivery_tasks w !! id = None → same_tasks t0 w →
  same_tasks t0 (w <| delivery_tasks ::=
    <[id := quarantined_row id context recipient at_ms version until]> |>).
Proof.
  intros Hnone [Hview Hkey]. split.
  - rewrite <-Hview. unfold ledger_view. f_equal. unfold ledger_tasks. cbn.
    rewrite omap_insert_None by apply quarantined_decodes.
    rewrite delete_id; [done|]. by rewrite lookup_omap, Hnone.
  - intros Hk id' row. cbn. rewrite lookup_insert. case_decide as Hid; [|by apply Hkey].
    intros [= <-]. by subst.
Qed.

(** Adding a quarantined row; [P] says what else is kept. *)
Lemma insert_row_frame t t0 (P : Tables → Prop) id context recipient at_ms version until :
  (∀ w, P w → P (w <| delivery_tasks ::=
    <[id := quarantined_row id context recipient at_ms version until]> |>)) →
  Frame (keeps_tasks t t0 P) (insert_row fault (quarantined_row id context recipient at_ms version until)).
Proof.
  intros HP db (w & Hdb & Hs & HPw). unfold insert_row.
  wp_step. eapply wp_query; [exact Hdb| |by intros e db' Hdb'; exists w]. intros db1 Hdb1.
  wp_step. apply wp_reject_if; [|by exists w]. cbn. intros Hnone.
  wp_step. apply wp_reject_if; [|by exists w]. intros _. apply wp_modify.
  destruct Hdb1 as [Ht Hw]. eexists. unfold write. rewrite Hw. split; [done|].
  split; [|by apply HP]. apply quarantine_same_tasks; [|done].
  by destruct (delivery_tasks w !! id).
Qed.

Lemma checked_recipient_no_panic recipient missing malformed :
  no_panic (checked_recipient recipient missing malformed).
Proof. unfold checked_recipient. no_panic. Qed.
#[local] Hint Resolve checked_recipient_no_panic : herdr.

(** What the loops do not touch. *)
Definition steady (version : Z) (w : Tables) : Prop := user_version w = version.

Lemma migrate_task_frame t t0 version entry :
  Frame (keeps_tasks t t0 (steady version)) (migrate_task fault entry).
Proof.
  destruct entry as [id [row recipient]]. unfold migrate_task. frame. by apply insert_row_frame.
Qed.

Lemma migrate_owner_frame t t0 version now retention entry :
  Frame (keeps_tasks t t0 (steady version)) (migrate_owner fault now retention entry).
Proof. destruct entry as [id recipient]. unfold migrate_owner. frame. by apply insert_row_frame. Qed.

Lemma quarantine_owner_frame t t0 version first until entry :
  Frame (keeps_tasks t t0 (steady version)) (quarantine_owner fault first until entry).
Proof. destruct entry as [id recipient]. unfold quarantine_owner. frame. by apply insert_row_frame. Qed.

(** A transaction whose body keeps the tasks until it commits. *)
Definition kept_post t (P : Tables → Prop) (db' : Conn Tables) : Prop :=
  ∃ t', holds t' None db' ∧ same_tasks t t' ∧ P t'.

Lemma commit_kept {A} t t0 P (a : A) db :
  keeps_tasks t t0 P db →
  wp (let! _ := commit_transaction fault in st_ret a)
    (λ _ db', kept_post t0 P (db' <| working := None |>)) (dropped t) db.
Proof.
  intros (w & Hdb & Hs & HP). wp_step. eapply wp_commit; [exact Hdb| |by intros e db' [? _]].
  intros db' [Hc _]. apply wp_ret. by exists w.
Qed.

Lemma wp_frame {A} I (m : ST (Conn Tables) StoreError A) Q X db :
  Frame I m → I db → (∀ a db', I db' → Q a db') → (∀ e db', I db' → X e db') → wp m Q X db.
Proof. intros Hm HI HQ HX. eapply wp_mono; [by apply Hm|auto|auto]. Qed.

Lemma keeps_dropped t t0 P e db : keeps_tasks t t0 P db → dropped t e db.
Proof. by intros (w & [? _] & _). Qed.

Lemma same_tasks_refl t : same_tasks t t.
Proof. done. Qed.

Lemma same_tasks_trans t w u : same_tasks t w → same_tasks w u → same_tasks t u.
Proof. intros [? ?] [? ?]. split; [congruence|auto]. Qed.

(** The transaction leaves [t] when its body fails. *)
Lemma wp_startup_transaction {A} t (P : Tables → Prop) (body : ST (Conn Tables) StoreError A) db :
  holds t None db →
  (∀ db', holds t (Some t) db' →
     wp body (λ _ db'', kept_post t P (db'' <| working := None |>)) (dropped t) db') →
  wp (in_transaction fault body) (λ _ db', kept_post t P db') (λ _ db', holds t None db') db.
Proof.
  intros Hdb Hbody. eapply wp_in_transaction; [exact Hdb| |done]. intros db1 Hdb1.
  eapply wp_mono; [by apply Hbody|done|]. intros e db2 Hc. by split.
Qed.

Lemma migrate_schema_spec t now db :
  fresh_schema t → holds t None db →
  wp (migrate_schema fault now) (λ _ db', kept_post t (steady SCHEMA_VERSION) db')
    (λ _ db', holds t None db') db.
Proof.
  intros Hfresh Hdb. apply wp_startup_transaction; [done|]. intros db1 Hdb1.
  wp_step. eapply wp_query; [exact Hdb1| |by intros e db' [? _]]. cbn. intros db2 Hdb2.
  apply wp_if; intros Hv.
  { apply Z.eqb_eq in Hv. eapply (commit_kept t t). by exists t. }
  wp_step. apply wp_reject_if; [|by destruct Hdb2]. intros Hz%negb_false_iff%Z.eqb_eq.
  destruct (Hfresh Hz) as [Hempty Hmeta].
  wp_step. eapply wp_execute; [exact Hdb2| |by intros e db' [? _]]. intros db3 Hdb3.
  wp_step. eapply wp_execute; [exact Hdb3| |by intros e db' [? _]]. intros db4 Hdb4.
  assert (keeps_tasks t t (steady 0) db4) as Hk.
  { eexists. split; [exact Hdb4|]. split; [|done]. split.
    - unfold ledger_view, ledger_epoch, ledger_tasks. cbn. by rewrite Hempty, Hmeta.
    - intros _ id row. cbn. by rewrite lookup_empty. }
  pose proof (keeps_tasks_stable t t (steady 0)) as Hstable.
  assert (∀ e db', keeps_tasks t t (steady 0) db' → dropped t e db') as Hdrop
    by (intros; by eapply keeps_dropped).
  wp_step. eapply wp_frame; [by apply frame_query|exact Hk| |exact Hdrop]. intros legacy db5 Hk5.
  wp_step. eapply wp_frame; [apply frame_for_each; intros; apply migrate_task_frame|exact Hk5| |exact Hdrop].
  intros [] db6 Hk6. wp_step. eapply wp_frame; [by apply frame_query|exact Hk6| |exact Hdrop].
  intros owners db7 Hk7. wp_step. apply wp_ok_or; [|intros _; by eapply keeps_dropped].
  intros retention _. wp_step.
  eapply wp_frame; [apply frame_for_each; intros; apply migrate_owner_frame|exact Hk7| |exact Hdrop].
  intros [] db8 Hk8. wp_step. eapply wp_frame; [by apply frame_query|exact Hk8| |exact Hdrop].
  intros count db9 Hk9. wp_step. apply wp_reject_if; [intros _|intros _; by eapply keeps_dropped].
  destruct Hk9 as (w & Hw & Hs & _). wp_step. eapply wp_execute; [exact Hw| |by intros e db' [? _]].
  intros db10 Hdb10. eapply (commit_kept t t). eexists. split; [exact Hdb10|]. split; [|done].
  by destruct Hs as [Hview Hkey].
Qed.

Lemma quarantine_owner_only_spec t version db :
  steady version t → holds t None db →
  wp (quarantine_owner_only_rows fault) (λ _ db', kept_post t (steady version) db')
    (λ _ db', holds t None db') db.
Proof.
  intros Hsteady Hdb. apply wp_startup_transaction; [done|]. intros db1 Hdb1.
  set (I := keeps_tasks t t (steady version)).
  assert (I db1) as HI by (by exists t).
  assert (StepStable I) as Hstable by apply _.
  assert (∀ e db', I db' → dropped t e db') as Hdrop by (intros; by eapply keeps_dropped).
  wp_step. eapply wp_frame; [by apply require_schema_frame|exact HI| |exact Hdrop]. intros [] db2 HI2.
  wp_step. eapply wp_frame; [by apply frame_query_some|exact HI2| |exact Hdrop]. intros meta db3 HI3.
  cbv zeta. wp_step. apply wp_reject_if; [intros _|intros _; by eapply keeps_dropped].
  wp_step. apply wp_ok_or; [|intros _; by eapply keeps_dropped]. intros retention _.
  wp_step. eapply wp_frame; [by apply frame_query|exact HI3| |exact Hdrop]. intros owners db4 HI4.
  wp_step. eapply wp_frame; [by apply frame_query|exact HI4| |exact Hdrop]. intros retained db5 HI5.
  wp_step. apply wp_reject_if; [intros _|intros _; by eapply keeps_dropped].
  wp_step. eapply wp_frame; [apply frame_for_each; intros; apply quarantine_owner_frame|exact HI5| |exact Hdrop].
  intros [] db6 HI6. by eapply commit_kept.
Qed.

(** ** Pruning *)

(** The rows of [ids] are gone, the others are there. *)
Definition pruned (ids : list string) t w : Prop :=
  (∀ id, delivery_tasks w !! id = if decide (id ∈ ids) then None else delivery_tasks t !! id) ∧
  broker_meta w = broker_meta t ∧ user_version w = user_version t.

Definition prunable_ids (now : Z) t : list string :=
  (filter (λ p, prunable now p.2 = true) (by_key (delivery_tasks t))).*1.

Lemma elem_of_prunable now t id :
  id ∈ prunable_ids now t ↔ ∃ row, delivery_tasks t !! id = Some row ∧ prunable now row = true.
Proof.
  unfold prunable_ids. rewrite list_elem_of_fmap. split.
  - intros ([id' row] & -> & [Hp Hin%elem_of_by_key]%list_elem_of_filter). eauto.
  - intros (row & Hrow & Hp). exists (id, row). split; [done|]. apply list_elem_of_filter.
    by rewrite elem_of_by_key.
Qed.

Lemma prunable_decodes now row : prunable now row = true → decoded row = None.
Proof.
  unfold prunable. intros [Hq%Z.eqb_eq _]%andb_true_iff. unfold decoded, decode_durable_task.
  by rewrite Hq.
Qed.

Lemma pruned_same_tasks now t w : pruned (prunable_ids now t) t w → same_tasks t w.
Proof.
  intros (Hd & Hm & _). split.
  - unfold ledger_view, ledger_epoch. rewrite Hm. f_equal. apply map_eq. intros id.
    unfold ledger_tasks. rewrite !lookup_omap, Hd. case_decide as Hid; [|done].
    apply elem_of_prunable in Hid as (row & -> & Hp). cbn. by rewrite (prunable_decodes _ _ Hp).
  - intros Hk id row. rewrite Hd. case_decide; [done|]. apply Hk.
Qed.

(** No quarantined row is past its retention. *)
Definition retained_only (now : Z) t : Prop :=
  ∀ id row, delivery_tasks t !! id = Some row → prunable now row = false.

Lemma pruned_retained now t w : pruned (prunable_ids now t) t w → retained_only now w.
Proof.
  intros (Hd & _ & _) id row. rewrite Hd. case_decide as Hid; [done|]. intros Hrow.
  destruct (prunable now row) eqn:Hp; [|done]. exfalso. apply Hid, elem_of_prunable. eauto.
Qed.

Lemma prune_task_spec t now id done w db :
  id ∈ prunable_ids now t → pruned done t w → holds t (Some w) db →
  wp (prune_task fault now id)
    (λ _ db', ∃ w', holds t (Some w') db' ∧ pruned (done ++ [id]) t w') (dropped t) db.
Proof.
  intros (row & Hrow & Hp)%elem_of_prunable (Hd & Hm & Hu) Hdb. unfold prune_task.
  wp_step. eapply wp_execute; [exact Hdb| |by intros e db' [? _]]. intros db1 Hdb1.
  wp_step. eapply wp_execute; [exact Hdb1| |by intros e db' [? _]]. intros db2 Hdb2.
  wp_step. eapply wp_execute; [exact Hdb2| |by intros e db' [? _]]. intros db3 Hdb3.
  eapply wp_execute; [exact Hdb3| |by intros e db' [? _]]. intros db4 Hdb4.
  eexists. split; [exact Hdb4|]. cbn. rewrite Hd, Hrow. case_decide as Hin; cbn.
  - split_and!; [|done..]. intros id'. cbn. rewrite Hd. repeat case_decide; set_solver.
  - rewrite Hp. split_and!; [|done..]. intros id'. cbn. rewrite lookup_delete, Hd.
    repeat case_decide; set_solver.
Qed.

Lemma prune_quarantined_spec t now version db :
  steady version t → holds t None db →
  wp (prune_quarantined fault now)
    (λ _ db', kept_post t (λ t', steady version t' ∧ retained_only now t') db')
    (λ _ db', holds t None db') db.
Proof.
  intros Hsteady Hdb. apply wp_startup_transaction; [done|]. intros db1 Hdb1.
  wp_step. eapply wp_query; [exact Hdb1| |by intros e db' [? _]]. cbn. intros db2 Hdb2.
  fold (prunable_ids now t). wp_step.
  eapply (wp_mono _ (λ _ db', ∃ w, holds t (Some w) db' ∧ pruned (prunable_ids now t) t w) _ (dropped t));
    [|intros [] db3 (w & Hw & Hpr)|done].
  - apply (wp_for_each _ (λ done db', ∃ w, holds t (Some w) db' ∧ pruned done t w)).
    + exists t. split; [done|]. split_and!; [|done..]. intros id. by rewrite decide_False by apply not_elem_of_nil.
    + intros done id todo db' Hids (w & Hw & Hpr). eapply (prune_task_spec t now id done w); [|done..].
      rewrite Hids. set_solver.
  - eapply (commit_kept t t). exists w. split; [done|]. split; [by eapply pruned_same_tasks|].
    split; [|by eapply pruned_retained]. destruct Hpr as (_ & _ & Hu). unfold steady. congruence.
Qed.

(** ** The whole start-up *)

Lemma same_ledger_kept t w : same_ledger t w → same_tasks t w.
Proof. intros Hs. split; [by rewrite Hs|]. by rewrite Hs. Qed.

Lemma kept_trans t t1 (P : Tables → Prop) db : same_tasks t t1 → kept_post t1 P db → kept_post t P db.
Proof. intros Hs (t2 & Hdb & Hs2 & HP). exists t2. split_and!; [done|by eapply same_tasks_trans|done]. Qed.

Lemma kept_weaken t (P P' : Tables → Prop) db : (∀ w, P w → P' w) → kept_post t P db → kept_post t P' db.
Proof. intros HP (t' & ? & ? & ?). exists t'. auto. Qed.

Lemma prepare_closure_spec t now db :
  fresh_schema t → holds t None db →
  wp (prepare_closure fault now)
    (λ _ db', kept_post t (λ t', steady SCHEMA_VERSION t' ∧ retained_only now t') db')
    (λ _ db', kept_post t fresh_schema db') db.
Proof.
  intros Hfresh Hdb. unfold prepare_closure.
  assert (∀ w, steady SCHEMA_VERSION w → fresh_schema w) as Hprep
    by (intros w Hw; unfold steady, fresh_schema, SCHEMA_VERSION in *; lia).
  wp_step. eapply wp_mono; [by apply migrate_schema_spec| |intros e db' Hsame; by exists t].
  intros n db1 (t1 & Hdb1 & Hs1 & Hv1). wp_step.
  eapply wp_mono; [by eapply quarantine_owner_only_spec| |intros e db' Hsame; exists t1; auto].
  intros n2 db2 (t2 & Hdb2 & Hs2 & Hv2). pose proof (same_tasks_trans _ _ _ Hs1 Hs2) as Hs02. wp_step.
  eapply wp_mono; [by eapply prune_quarantined_spec| |intros e db' Hsame; exists t2; auto].
  intros n3 db3 (t3 & Hdb3 & Hs3 & Hv3 & Hr3). pose proof (same_tasks_trans _ _ _ Hs02 Hs3) as Hs03.
  assert (∀ (e : StoreError) db', holds t3 None db' → kept_post t fresh_schema db') as Herr
    by (intros _ db' Hdb'; exists t3; auto).
  wp_step. eapply (wp_frame (holds t3 None)); [apply validate_store_frame; apply _|done| |exact Herr].
  intros [] db4 Hdb4. wp_step.
  eapply (wp_frame (holds t3 None)); [|exact Hdb4| |exact Herr].
  - case_match; [apply frame_query; apply _|apply frame_ret].
  - intros m db5 Hdb5. apply wp_ret. exists t3. auto.
Qed.

Lemma prepare_startup_spec t now db :
  fresh_schema t → holds t None db →
  wp (prepare_startup fault now)
    (λ _ db', kept_post t (λ t', steady SCHEMA_VERSION t' ∧ retained_only now t') db')
    (λ _ db', kept_post t fresh_schema db') db.
Proof.
  intros Hfresh Hdb. unfold prepare_startup.
  assert (kept_post t fresh_schema db) as Hnow by (by exists t).
  wp_step. apply wp_reject_if; [intros _|done]. wp_step. apply wp_spawn_blocking; [done|].
  eapply wp_mono; [by apply prepare_closure_spec| |done].
  intros counts db1 (t1 & Hdb1 & Hs1 & Hv1 & Hr1).
  assert (fresh_schema t1) as Hf1 by (unfold steady, fresh_schema, SCHEMA_VERSION in *; lia).
  wp_step. unfold apply_pending_projections. apply wp_spawn_blocking; [by exists t1|].
  eapply wp_mono; [by apply apply_pending_spec| |intros e db' Hsame; by exists t1].
  intros n db2 (t2 & Hdb2 & Hs2). apply wp_ret. exists t2.
  split_and!; [done|by eapply same_tasks_trans, same_ledger_kept| |].
  - destruct Hs2 as (_ & _ & Hu & _). unfold steady in *. congruence.
  - destruct Hs2 as (Hd & _). intros id row. rewrite Hd. apply Hr1.
Qed.

(** C37: Preparing a database for start-up, whatever fails on the way, leaves what
    [load] returns as it was: the migration of a first-schema database and the
    quarantine of ownerless tasks add no recoverable task, and the pruning removes
    none.  When it succeeds the schema is current and no quarantined row is past its
    retention deadline. *)
Theorem startup_keeps_tasks now db :
  fresh_schema (committed db) → working db = None →
  let db' := (prepare_startup fault now db).2 in
  working db' = None ∧ ledger_view (committed db') = ledger_view (committed db) ∧
  (keyed_rows (committed db) → keyed_rows (committed db')) ∧
  match (prepare_startup fault now db).1 with
  | Done _ => user_version (committed db') = SCHEMA_VERSION ∧ retained_only now (committed db')
  | Fail _ => fresh_schema (committed db')
  | Panic _ => False
  end.
Proof.
  intros Hfresh Hidle. pose proof (prepare_startup_spec (committed db) now db Hfresh (conj eq_refl Hidle)) as Hwp.
  unfold wp in Hwp. destruct (prepare_startup fault now db) as [[report|e|msg] db']; cbn; [| |done].
  - destruct Hwp as (t' & [<- Hw] & [Hview Hkey] & Hv & Hr). done.
  - destruct Hwp as (t' & [<- Hw] & [Hview Hkey] & Hf). done.
Qed.
End startup.

Module StartupSample.
Import LedgerSample.
#[local] Existing Instances sqlite millis plain_uuid texts.

(** A database of the first schema in which a task owner has no task. *)
Definition legacy_db : Conn Tables :=
  MkConn (MkTables 0 ∅ None ∅ ∅ {[ "t9" := MkTaskOwner "registration" (Some "bob") ]}) None 0 false.

(** Witness: the owner is quarantined, and nothing is recoverable. *)
Lemma startup_keeps_tasks_witness :
  quarantined_legacy_tasks <$> (match (prepare_startup no_fault 5000 legacy_db).1 with
    | Done report => Some report | _ => None end) = Some 1%nat ∧
  ledger_view (committed (prepare_startup no_fault 5000 legacy_db).2)
  = ledger_view (committed legacy_db).
Proof.
  split; [by vm_compute|].
  assert (fresh_schema (committed legacy_db)) as Hfresh by (intros _; split; reflexivity).
  exact (proj1 (proj2 (startup_keeps_tasks no_fault 5000 legacy_db Hfresh eq_refl))).
Defined.
End StartupSample.
