(* ===== verification/SdkStore.v ===== *)
(** * The task store of the SDK

    [impl TaskStore for SqliteTaskStore] of [herdr-a2a-broker/src/store.rs] and what
    it runs: [authorize_sdk_projection], [apply_sdk_projection], [create], [update]
    and [get]; the owner claims and [task_principal].  The SDK may only write a projection of the
    ledger: the current one, or an older one that was admitted before.

    SHA-256 is a parameter.  The mutex of the admissions is not poisoned: none of its
    operations panics ([Admissions]). *)
From stdpp Require Import prelude gmap strings sorting.
From S2P Require Import Prelude RustStd Model Validation Durability BrokerState Sqlite LedgerCodec.
From S2P Require Import Ledger LedgerStartup Admissions TaskStore.

Class Sha256 := sha256_digest : string → string.

Definition database_error : A2AError := A2A_internal "task store database operation failed".
Definition projection_not_authorized_error : A2AError := A2A_internal PROJECTION_NOT_AUTHORIZED.

(** The errors of [run_blocking] and of the statements inside it. *)
#[global] Instance a2a_client `{Rusqlite} : SqlClient A2AError := {|
  sql_failed := λ _, database_error;
  mutex_poisoned := A2A_internal "task store is unavailable";
  worker_failed := A2A_internal "task store worker failed";
|}.

Record TaskPrincipal := MkTaskPrincipal {
  principal_sender : AgentName;
  principal_recipient : AgentName;
}.

Section sdk_store.
Context `{Rusqlite} `{JsonNumber} {serde : SerdeJson} {chrono : Chrono} {uuid : UuidLib}.
Context {json : LedgerSerde} {sha : Sha256} (fault : nat → option SqlError).

Abbreviation M := (ST SqliteTaskStore A2AError).

Definition projection_error (error : StoreError) : A2AError :=
  match error with
  | StoreInvalidData message =>
      if String.eqb message "task projection is not authorized"
      then A2A_internal message else database_error
  | _ => database_error
  end.

(** ** Parts of the store *)

Definition on_connection {A} (m : ST (Conn Tables) A2AError A) : M A :=
  zoom store_connection (λ db s, s <| store_connection := db |>) m.

(** A function of the ledger, its result as a value. *)
Definition attempt_ledger {A} (m : ST (Conn Tables) StoreError A) : M (Result StoreError A) := λ s,
  match m (store_connection s) with
  | (Done a, db) => (Done (Ok a), s <| store_connection := db |>)
  | (Fail e, db) => (Done (Err e), s <| store_connection := db |>)
  | (Panic msg, db) => (Panic msg, s <| store_connection := db |>)
  end.

(** The registry behind its mutex; its errors are internal ones. *)
Definition on_admissions {A} (m : ST SdkProjectionAdmissionRegistry string A) : M A := λ s,
  match m (sdk_projection_admissions s) with
  | (Done a, r) => (Done a, s <| sdk_projection_admissions := r |>)
  | (Fail message, r) => (Fail (A2A_internal message), s <| sdk_projection_admissions := r |>)
  | (Panic msg, r) => (Panic msg, s <| sdk_projection_admissions := r |>)
  end.

(** [run_blocking]: the closure runs with the connection locked; a panic poisons the
    mutex and is reported as a failed worker. *)
Definition run_blocking {A} (operation : M A) : M A := λ s,
  match (let! _ := on_connection lock_connection in operation) s with
  | (Panic _, s') =>
      (Fail (A2A_internal "task store worker failed"),
       s' <| store_connection ::= λ db, db <| poisoned := true |> |>)
  | r => r
  end.

(** A closure that opens a transaction; what is not committed is rolled back. *)
Definition with_transaction {A} (body : M A) : M A := λ s,
  let '(r, s') := (let! _ := on_connection (begin_immediate fault) in body) s in
  (r, s' <| store_connection ::= λ db, db <| working := None |> |>).

(** ** Projections *)

Definition authorize_sdk_projection (task : A2ATask) : M () :=
  let! columns := st_lift (TaskColumns_from_task task) in
  let! admitted := run_blocking (
    let! authoritative :=
      attempt_ledger (clean_authoritative_projection fault (tc_task_id columns)) in
    match authoritative with
    | Err _ => st_fail database_error
    | Ok (durable, authoritative_json) =>
        let! _ := st_lift (reject_if (negb (String.eqb authoritative_json (tc_task_json columns)))
                    (A2A_internal "executor task projection is not authoritative")) in
        st_ret (dt_state_version durable, TaskIncarnation_from durable)
    end) in
  on_admissions (record (tc_task_id columns) (sha256_digest (tc_task_json columns))
                   admitted.1 admitted.2).

(** Whether [apply_authorized_projection] failed because it was not authorized. *)
Definition not_authorized (error : StoreError) : bool :=
  match error with
  | StoreInvalidData message => String.eqb message PROJECTION_NOT_AUTHORIZED
  | _ => false
  end.

(** [transaction.commit()], as a value. *)
Definition try_commit : M bool := λ s,
  match commit_transaction fault (store_connection s) with
  | (Done _, db) => (Done true, s <| store_connection := db |>)
  | (Fail _, db) => (Done false, s <| store_connection := db |>)
  | (Panic msg, db) => (Panic msg, s <| store_connection := db |>)
  end.

(** The rest of the closure of [apply_sdk_projection], after the attempt to apply the
    projection; the version that was superseded is only printed. *)
Definition conclude_projection (columns : TaskColumns) (version : Z) (superseded : bool) : M Z :=
  let task_id := tc_task_id columns in
  let! authoritative := attempt_ledger (clean_authoritative_projection fault task_id) in
  let! durable := match authoritative with
    | Ok (durable, _) => st_ret durable
    | Err _ => st_fail (if superseded then projection_not_authorized_error else database_error)
    end in
  let authoritative_version := dt_state_version durable in
  let! _ := st_lift (reject_if (negb superseded && negb (version =? authoritative_version)%Z)
                       database_error) in
  let! consumed := on_admissions (consume task_id (sha256_digest (tc_task_json columns))
                     authoritative_version (TaskIncarnation_from durable) superseded) in
  let! _ := st_lift (reject_if (superseded && is_none consumed) projection_not_authorized_error) in
  let! committed := try_commit in
  if committed then st_ret authoritative_version
  else
    let! _ := match consumed with
      | Some admission => on_admissions (restore task_id admission)
      | None => st_ret tt
      end in
    st_fail database_error.

Definition apply_closure (columns : TaskColumns) : M Z :=
  let! application := attempt_ledger (apply_authorized_projection fault columns) in
  let! (version, superseded) := match application with
    | Ok version => st_ret (version, false)
    | Err error =>
        if not_authorized error then st_ret (0%Z, true) else st_fail (projection_error error)
    end in
  conclude_projection columns version superseded.

Definition apply_sdk_projection (task : A2ATask) : M Z :=
  let! columns := st_lift (TaskColumns_from_task task) in
  run_blocking (with_transaction (apply_closure columns)).

(** [TaskStore::create] and [TaskStore::update] *)
Definition store_create (task : A2ATask) : M Z := apply_sdk_projection task.
Definition store_update (task : A2ATask) : M Z := apply_sdk_projection task.

Definition decode_task (task_json : string) : Outcome A2AError A2ATask :=
  ok_or (task_from_str task_json) (A2A_internal "stored task is invalid").

(** [TaskStore::get] *)
Definition store_get (task_id : string) : M (option A2ATask) :=
  run_blocking (
    let! task_json := on_connection (query fault (λ t, pr_task_json <$> task_columns task_id t)) in
    match task_json with
    | Some task_json => let! task := st_lift (decode_task task_json) in st_ret (Some task)
    | None => st_ret None
    end).

(** ** Owner claims *)

(** [i64::saturating_sub] *)
Definition saturating_sub_i64 (a b : Z) : Z := Z.max i64_min (Z.min i64_max (a - b)).

(** [state IN (..) AND status_timestamp <= cutoff] *)
Definition ended_before (terminal_states : list string) (cutoff : string) (row : ProjectionRow) : bool :=
  bool_decide (pr_state row ∈ terminal_states) && bool_decide (String.le (pr_status_timestamp row) cutoff).

Definition ended_tasks (terminal_states : list string) (cutoff : string) (t : Tables) : gset string :=
  dom (filter (λ p, ended_before terminal_states cutoff (row_columns p.2) = true) (task_rows t)).

(** The transaction of [claim_task_owner]; it also commits when capacity is
    exhausted. *)
Definition claim_transaction (task_id registration_id recipient cutoff : string)
    (terminal_states : list string) : ST (Conn Tables) A2AError bool :=
  let! schema_version := query fault user_version in
  let! _ := if (schema_version =? 1)%Z then
      let! retained := query fault (λ t, str_legacy_quarantined <$> delivery_tasks t !! task_id) in
      st_lift (reject_if (is_some retained) (A2A_invalid_params "task ID is already retained"))
    else st_ret tt in
  let! _ := execute fault (λ t,
    t <| task_owners ::= filter (λ p, p.1 ∉ ended_tasks terminal_states cutoff t) |>) in
  let! _ := execute fault (λ t,
    t <| task_rows ::= filter (λ p, ended_before terminal_states cutoff (row_columns p.2) = false) |>) in
  let! existing := query fault (λ t, task_owners t !! task_id) in
  match existing with
  | Some owner =>
      let! _ := st_lift (reject_if (negb (String.eqb (owner_registration_id owner) registration_id))
                  (A2A_invalid_params "task is owned by another registration")) in
      let! _ := st_lift (reject_if (negb (bool_decide (owner_recipient owner = Some recipient)))
                  (A2A_invalid_params "task recipient does not match established recipient")) in
      let! _ := commit_transaction fault in
      st_ret false
  | None =>
      let! retained_owners :=
        if (schema_version =? 1)%Z then query fault (λ t, size (retained_ids t))
        else query fault (λ t, size (task_owners t)) in
      if (MAX_RETAINED_TASKS <=? retained_owners)%nat then
        let! _ := commit_transaction fault in
        st_fail (A2A_invalid_request "retained task capacity is exhausted")
      else
        let! task_exists := query fault (λ t, is_some (task_rows t !! task_id)) in
        let! _ := st_lift (reject_if task_exists
                    (A2A_invalid_params "existing task has no established sender owner")) in
        let! _ := execute fault (λ t,
          t <| task_owners ::= <[task_id := MkTaskOwner registration_id (Some recipient)]> |>) in
        let! _ := commit_transaction fault in
        st_ret true
  end.

Definition claim_task_owner (task_id : string) (registration_id : RegistrationId)
    (recipient : AgentName) (now_unix_ms : Z) : ST (Conn Tables) A2AError bool :=
  let cutoff_unix_ms := saturating_sub_i64 now_unix_ms TERMINAL_RETENTION_MS in
  let! cutoff := st_lift (ok_or (timestamp_millis_opt cutoff_unix_ms)
                            (A2A_internal "retained task cutoff is invalid")) in
  let! terminal_states := st_lift (try_map serialized_state
    [TaskCompleted; TaskCanceledState; TaskFailedState; TaskRejectedState]) in
  spawn_blocking (in_transaction fault
    (claim_transaction task_id (rid_str registration_id) (agent_str recipient)
       (sortable_timestamp cutoff) terminal_states)).

Definition remove_task_owner_if_unpersisted (task_id : string) (registration_id : RegistrationId)
    : ST (Conn Tables) A2AError bool :=
  spawn_blocking (
    let! changed := query fault (λ t,
      is_some_and (task_owners t !! task_id) (λ owner,
        String.eqb (owner_registration_id owner) (rid_str registration_id))
      && is_none (task_rows t !! task_id)) in
    let! _ := if changed : bool then st_modify (write (λ t, t <| task_owners ::= delete task_id |>))
              else st_ret tt in
    st_ret changed).

Definition task_owner (task_id : string) : ST (Conn Tables) A2AError (option RegistrationId) :=
  spawn_blocking (
    let! value := query fault (λ t, owner_registration_id <$> task_owners t !! task_id) in
    match value with
    | Some value =>
        let! id := st_lift (map_err (A2A_internal "stored task owner is invalid")
                              (RegistrationId_parse value)) in
        st_ret (Some id)
    | None => st_ret None
    end).

(** [task_principal] of [ledger.rs] *)
Definition task_principal (task_id : string) : ST (Conn Tables) A2AError (option TaskPrincipal) :=
  spawn_blocking (
    let! version := query fault user_version in
    if negb (version =? SCHEMA_VERSION)%Z then st_ret None
    else
      let! found := query fault (λ t,
        match delivery_tasks t !! task_id with
        | Some row => if recoverable row then Some (str_sender_agent row, str_recipient_agent row)
                      else None
        | None => None
        end) in
      match found with
      | None => st_ret None
      | Some (None, _) => st_fail database_error
      | Some (Some sender, recipient) =>
          let! sender := st_lift (map_err (A2A_internal "stored task sender is invalid")
                                    (AgentName_parse sender)) in
          let! recipient := st_lift (map_err (A2A_internal "stored task recipient is invalid")
                                       (AgentName_parse recipient)) in
          st_ret (Some (MkTaskPrincipal sender recipient))
      end).
End sdk_store.
