(* ===== verification/SdkStoreTheorems.v ===== *)
(** * Theorems about the task store of the SDK

    What [apply_authorized_projection] and [clean_authoritative_projection] do to the
    tables, and the rules for the parts of the task store; the SDK cannot write anything but projections of the ledger, a failed write
    changes nothing, and a projection that was admitted is accepted although the
    ledger has moved on. *)
From stdpp Require Import prelude gmap strings sorting.
From S2P Require Import Prelude RustStd Model Validation Durability BrokerState Sqlite LedgerCodec.
From S2P Require Import Ledger LedgerRows LedgerCommit LedgerStartup Admissions.
From S2P Require Import TaskStore SdkStore Scenario.

(** ** Reasoning about the parts of the store *)

(** The tables that are committed, the open transaction and the registry. *)
Definition store_has (t : Tables) (o : option Tables) (r : SdkProjectionAdmissionRegistry)
    (s : SqliteTaskStore) : Prop :=
  holds t o (store_connection s) ∧ sdk_projection_admissions s = r.

Section parts.
Context `{Rusqlite} (fault : nat → option SqlError).
Implicit Types (t w : Tables) (s : SqliteTaskStore).

Lemma store_has_connection t o r s db :
  holds t o db → sdk_projection_admissions s = r → store_has t o r (s <| store_connection := db |>).
Proof. by split. Qed.

Lemma wp_on_connection {A} (m : ST (Conn Tables) A2AError A) Q X s :
  wp m (λ a db, Q a (s <| store_connection := db |>)) (λ e db, X e (s <| store_connection := db |>))
    (store_connection s) →
  wp (on_connection m) Q X s.
Proof. unfold wp, on_connection, zoom. by destruct (m (store_connection s)) as [[] ?]. Qed.

Lemma wp_attempt_ledger {A} (m : ST (Conn Tables) StoreError A) Q X s :
  wp m (λ a db, Q (Ok a) (s <| store_connection := db |>))
    (λ e db, Q (Err e) (s <| store_connection := db |>)) (store_connection s) →
  wp (attempt_ledger m) Q X s.
Proof. unfold wp, attempt_ledger. by destruct (m (store_connection s)) as [[] ?]. Qed.

Lemma wp_on_admissions {A} (m : ST SdkProjectionAdmissionRegistry string A) Q X s :
  wp m (λ a r, Q a (s <| sdk_projection_admissions := r |>))
    (λ e r, X (A2A_internal e) (s <| sdk_projection_admissions := r |>)) (sdk_projection_admissions s) →
  wp (on_admissions m) Q X s.
Proof. unfold wp, on_admissions. by destruct (m (sdk_projection_admissions s)) as [[] ?]. Qed.

Lemma wp_run_blocking {A} (body : ST SqliteTaskStore A2AError A) Q X s :
  (∀ e, X e s) → wp body Q X s → wp (run_blocking body) Q X s.
Proof.
  intros HX Hbody.
  assert (wp (let! _ := on_connection lock_connection in body) Q X s) as Hin.
  { wp_step. apply wp_on_connection, wp_lock; intros _; destruct s; [exact Hbody|apply HX]. }
  unfold wp, run_blocking in *. by destruct (st_bind (on_connection lock_connection) _ s) as [[] ?].
Qed.

Lemma wp_with_transaction {A} t r (body : ST SqliteTaskStore A2AError A) Q X s :
  let closed s' := s' <| store_connection ::= λ db, db <| working := None |> |> in
  store_has t None r s →
  (∀ s', store_has t (Some t) r s' →
     wp body (λ a s'', Q a (closed s'')) (λ e s'', X e (closed s'')) s') →
  (∀ e s', store_has t None r s' → X e s') →
  wp (with_transaction fault body) Q X s.
Proof.
  intros closed [[Ht Hw] Hr] Hbody HX.
  assert (wp (let! _ := on_connection (begin_immediate fault) in body)
    (λ a s'', Q a (closed s'')) (λ e s'', X e (closed s'')) s) as Hin.
  { wp_step. apply wp_on_connection. unfold begin_immediate. wp_step.
    eapply wp_sql_step; [split; eassumption| |].
    - intros db [Ht' Hw']. apply wp_modify, Hbody. split; [|done]. split; [done|]. simpl. by rewrite Ht'.
    - intros e db [Ht' Hw']. apply HX. split; [|done]. by split. }
  unfold wp, with_transaction in *. by destruct (st_bind (on_connection _) _ s) as [[] ?].
Qed.

Lemma wp_try_commit t w r (Q : bool → SqliteTaskStore → Prop) X s :
  store_has t (Some w) r s →
  (∀ s', store_has w None r s' → Q true s') → (∀ s', store_has t (Some w) r s' → Q false s') →
  wp (try_commit fault) Q X s.
Proof.
  intros [Hdb Hr] HT HF.
  pose proof (wp_commit fault t w (λ _ db, holds w None db) (λ _ db, holds t (Some w) db)
    (store_connection s) Hdb (λ _ h, h) (λ _ _ h, h)) as Hwp.
  unfold wp, try_commit in *. destruct (commit_transaction fault _) as [[] db]; [by apply HT|by apply HF|done].
Qed.
End parts.

(** ** The ledger's side *)

Section projections.
Context `{Rusqlite} `{JsonNumber} {serde : SerdeJson} {chrono : Chrono} {uuid : UuidLib}.
Context {json : LedgerSerde} (fault : nat → option SqlError).
Implicit Types (t w : Tables) (durable : DurableTask) (columns : TaskColumns).

(** The projection stored for a task is the one of its row in the ledger, and none is
    pending. *)
Record authoritative t (task_id : string) durable (text : string) columns : Prop := {
  auth_pending : projection_outbox t !! task_id = None;
  auth_row : ∃ row, delivery_tasks t !! task_id = Some row ∧ recoverable row = true ∧
    decode_durable_task row = Done durable;
  auth_text : projection_json durable = Done text;
  auth_columns : expected_columns durable = Done columns;
  auth_version : i64_from_u64 (dt_state_version durable) = Some (dt_state_version durable);
  auth_stored : task_columns task_id t = Some (projection_row columns (dt_state_version durable));
}.

Lemma i64_from_u64_id z v : i64_from_u64 z = Some v → v = z.
Proof. by intros [? _]%checked_Some. Qed.

Lemma expected_columns_no_panic durable : no_panic (expected_columns durable).
Proof. unfold expected_columns, TaskColumns_from_task, serialized_state. no_panic. Qed.

#[local] Hint Resolve expected_columns_no_panic : herdr.

Lemma clean_projection_spec t o task_id db :
  holds t o db →
  wp (clean_authoritative_projection fault task_id)
    (λ out db', holds t o db' ∧ ∃ columns, authoritative (default t o) task_id out.1 out.2 columns)
    (λ _ db', holds t o db') db.
Proof.
  intros Hdb. unfold clean_authoritative_projection. wp_step.
  eapply wp_query; [exact Hdb| |done]. intros db1 Hdb1. wp_step.
  apply wp_reject_if; [intros Hpending|done]. wp_step. unfold stored_task_row.
  eapply wp_query; [exact Hdb1| |done]. intros db2 Hdb2. wp_step.
  apply wp_ok_or; [intros row Hrow|done]. wp_step.
  apply wp_reject_if; [intros Hrec%negb_false_iff|done]. wp_step.
  apply wp_lift_no_panic; [auto with herdr|intros durable Hdur|done]. wp_step.
  apply wp_ok_or; [intros version Hversion|done]. wp_step.
  apply wp_lift_no_panic; [auto with herdr|intros text Htext|done]. wp_step.
  apply wp_lift_no_panic; [auto with herdr|intros columns Hcolumns|done]. wp_step.
  eapply wp_query; [exact Hdb2| |done]. intros db3 Hdb3. wp_step.
  apply wp_reject_if; [intros Hstored%negb_false_iff|done]. apply wp_ret. split; [done|].
  pose proof (i64_from_u64_id _ _ Hversion) as ->. exists columns. split; [|by eauto..|].
  - by destruct (projection_outbox _ !! _).
  - destruct (task_columns _ _) as [stored|]; [|done]. by apply bool_decide_eq_true in Hstored as ->.
Qed.

(** The tables after a projection was applied, for the other tasks. *)
Definition same_others (task_id : string) t w : Prop :=
  ∀ id, id ≠ task_id →
    task_rows w !! id = task_rows t !! id ∧ projection_outbox w !! id = projection_outbox t !! id.

Lemma same_others_refl task_id t : same_others task_id t t.
Proof. done. Qed.

Lemma put_projection_others task_id row t : same_others task_id t (put_projection task_id row t).
Proof.
  intros id Hid. unfold put_projection. destruct (task_rows t !! task_id); [case_match|]; [|done|];
    simpl; by rewrite lookup_insert_ne.
Qed.

Lemma clear_outbox_others task_id version t : same_others task_id t (clear_outbox task_id version t).
Proof.
  intros id Hid. unfold clear_outbox. destruct (projection_outbox t !! task_id) as [[]|]; [case_match|]; [|done..].
  simpl. by rewrite lookup_delete_ne.
Qed.

Lemma clear_outbox_columns task_id version t id :
  task_columns id (clear_outbox task_id version t) = task_columns id t.
Proof. unfold clear_outbox. destruct (projection_outbox t !! task_id) as [[]|]; [case_match|]; done. Qed.

(** What the transaction holds after [apply_authorized_projection] returned. *)
Record applied w w' columns : Prop := {
  applied_ledger : same_ledger w w';
  applied_others : same_others (tc_task_id columns) w w';
  applied_text : pr_task_json <$> task_columns (tc_task_id columns) w' = Some (tc_task_json columns);
}.

Lemma apply_authorized_spec t w columns db :
  holds t (Some w) db →
  wp (apply_authorized_projection fault columns)
    (λ _ db', ∃ w', holds t (Some w') db' ∧ applied w w' columns)
    (λ e db', committed db' = t ∧ (not_authorized e = true → holds t (Some w) db')) db.
Proof.
  intros Hdb. set (id := tc_task_id columns). unfold apply_authorized_projection. fold id. wp_step.
  assert (∀ (e : StoreError) db', holds t (Some w) db' →
    committed db' = t ∧ (not_authorized e = true → holds t (Some w) db')) as Hstop
    by (intros e db' Hh; split; [apply Hh|done]).
  eapply wp_query; [exact Hdb| |auto]. intros db1 Hdb1.
  change (default t (Some w)) with w. destruct (projection_outbox w !! id) as [[version text]|] eqn:Hout; wp_step.
  - eapply wp_mono; [apply (validate_outbox_frame fault (holds t (Some w)) id version text db1 Hdb1)| |auto].
    intros [] db2 Hdb2. wp_step. unfold reject.
    apply wp_reject_if; [intros Htext%negb_false_iff%String.eqb_eq|auto]. wp_step.
    eapply wp_execute; [exact Hdb2| |auto]. set (w1 := put_projection _ _ w). intros db3 Hdb3. wp_step.
    assert (∀ (e : StoreError) db', holds t (Some w1) db' → not_authorized e = false →
      committed db' = t ∧ (not_authorized e = true → holds t (Some w) db')) as Hlate
      by (intros e db' [Hc _] ->; done).
    unfold query_some. wp_step. eapply wp_query; [exact Hdb3| |intros; by apply Hlate].
    intros db4 Hdb4. apply wp_ok_or; [intros row Hrow|by intros; apply Hlate]. wp_step.
    apply wp_reject_if; [intros Heq%negb_false_iff%bool_decide_eq_true|by intros; apply Hlate]. wp_step.
    eapply wp_execute; [exact Hdb4| |intros; by apply Hlate]. intros db5 Hdb5.
    apply wp_ok_or; [intros v _|by intros; split; [apply Hdb5|]]. eexists. split; [exact Hdb5|].
    split.
    + trans w1; [apply put_projection_ledger|apply clear_outbox_ledger].
    + intros id' Hid'. destruct (put_projection_others id (projection_row columns version) w id' Hid') as [<- <-].
      by apply clear_outbox_others.
    + fold id. rewrite clear_outbox_columns. cbn in Hrow. rewrite Hrow, Heq. done.
  - eapply wp_query; [exact Hdb1| |auto]. intros db2 Hdb2.
    change (default t (Some w)) with w. destruct (task_columns id w) as [row|] eqn:Hrow; [|apply wp_fail; auto].
    destruct (String.eqb_spec (pr_task_json row) (tc_task_json columns)) as [Heq|]; [|apply wp_fail; auto].
    apply wp_ok_or; [intros v _|auto]. exists w. split; [done|]. split; [done| |].
    + apply same_others_refl.
    + fold id. rewrite Hrow. cbn. by rewrite Heq.
Qed.
End projections.

(** ** Restoring an admission *)

(** The same admissions for every task, in any order. *)
Definition same_admissions (r r' : SdkProjectionAdmissionRegistry) : Prop :=
  ∀ id, default [] (by_task r !! id) ≡ₚ default [] (by_task r' !! id).

Lemma same_admissions_refl r : same_admissions r r.
Proof. by intros id. Qed.

Lemma make_room_roomy k r : roomy k r → make_room k r = (Done tt, r).
Proof.
  intros (_ & Htotal & Hroom). unfold make_room, st_bind, st_get.
  assert (from_option (λ q, length q =? MAX_SDK_PROJECTION_ADMISSIONS_PER_TASK)%nat false
            (by_task r !! k) = false) as ->.
  { destruct (by_task r !! k) as [q|]; [|done]. apply Nat.eqb_neq. specialize (Hroom q eq_refl). lia. }
  simpl. by replace (total r =? _)%nat with false by (symmetry; apply Nat.eqb_neq; lia).
Qed.

Lemma delete_Permutation {A} (l : list A) i a : l !! i = Some a → l ≡ₚ a :: delete i l.
Proof.
  revert i. induction l as [|b l IH]; intros [|i]; simpl; [done..|by intros [= ->]|].
  intros Hi. rewrite (IH i Hi) at 1. constructor.
Qed.

(** What was taken out is put back. *)
Lemma restore_taken k i q r a :
  RegistryOK r → by_task r !! k = Some q → q !! i = Some a →
  wp (restore k a) (λ _ r', RegistryOK r' ∧ same_admissions r r') (λ _ _, False) (taken k i q r).
Proof.
  intros Hok Hk Hi. destruct (taken_ok k i q r a Hok Hk Hi) as [Hok' Htotal].
  assert (default [] (by_task (taken k i q r) !! k) = delete i q) as Hqueue.
  { unfold taken, set_queue. simpl. destruct (delete i q); [by rewrite lookup_delete_eq|by rewrite lookup_insert_eq]. }
  assert (roomy k (taken k i q r)) as Hroomy.
  { split; [done|]. pose proof (reg_bound _ Hok). destruct (reg_queues _ Hok k q Hk) as [_ Hlen].
    split; [lia|]. intros q' Hq'. rewrite Hq' in Hqueue. simpl in Hqueue. subst q'.
    rewrite length_delete by eauto. pose proof (lookup_lt_Some _ _ _ Hi). lia. }
  pose proof (taken_other k i q r) as Hother.
  generalize dependent (taken k i q r). intros r1 Hok1 Htotal Hqueue Hroomy Hother.
  unfold restore. wp_step. eapply wp_run; [by apply make_room_roomy|].
  pose proof (push_back_spec k a _ Hroomy) as Hpush. unfold push_back in *. wp_step.
  unfold wp in Hpush. simpl in Hpush. destruct Hpush as (Hok'' & _ & _). split; [done|].
  intros id. simpl. destruct (decide (id = k)) as [->|Hne].
  - rewrite lookup_insert_eq, Hk, Hqueue. simpl. rewrite (delete_Permutation q i a Hi) at 1.
    by rewrite Permutation_app_comm.
  - rewrite lookup_insert_ne by done. by rewrite Hother.
Qed.

(** ** Applying a projection *)

Section apply.
Context `{Rusqlite} `{JsonNumber} {serde : SerdeJson} {chrono : Chrono} {uuid : UuidLib}.
Context {json : LedgerSerde} {sha : Sha256} (fault : nat → option SqlError).
Implicit Types (t w : Tables) (columns : TaskColumns) (s : SqliteTaskStore).

(** A projection that the ledger has left behind, and that was admitted. *)
Definition superseded_admission (r : SdkProjectionAdmissionRegistry) columns (durable : DurableTask) : Prop :=
  ∃ q a, by_task r !! tc_task_id columns = Some q ∧ a ∈ q ∧
    adm_fingerprint a = sha256_digest (tc_task_json columns) ∧
    adm_incarnation a = TaskIncarnation_from durable ∧ (adm_version a < dt_state_version durable)%Z.

(** The tables after a write that returned [version]. *)
Definition written t t' (r : SdkProjectionAdmissionRegistry) columns (version : Z) : Prop :=
  ∃ durable text expected,
    authoritative t' (tc_task_id columns) durable text expected ∧
    dt_state_version durable = version ∧ same_ledger t t' ∧ same_others (tc_task_id columns) t t' ∧
    (tc_task_json columns = tc_task_json expected ∨ t' = t ∧ superseded_admission r columns durable).

Lemma admits_true fingerprint version incarnation superseded a :
  admits fingerprint version incarnation superseded a = true →
  adm_fingerprint a = fingerprint ∧ adm_incarnation a = incarnation ∧
  (adm_version a ≤ version)%Z ∧ (superseded = true → (adm_version a < version)%Z).
Proof.
  unfold admits. rewrite !andb_true_iff, !bool_decide_eq_true. intros [[? ?] Hv].
  destruct superseded; [apply Z.ltb_lt in Hv|apply Z.leb_le in Hv]; split_and!; try done; lia.
Qed.

(** The end of the closure, from the search for an admission on. *)
Lemma finish_apply_spec t w r columns (durable : DurableTask) (superseded : bool) s :
  RegistryOK r → store_has t (Some w) r s →
  let id := tc_task_id columns in
  wp (let! consumed := on_admissions (consume id (sha256_digest (tc_task_json columns))
        (dt_state_version durable) (TaskIncarnation_from durable) superseded) in
      let! _ := st_lift (reject_if (superseded && is_none consumed) projection_not_authorized_error) in
      let! committed := try_commit fault in
      if committed : bool then st_ret (dt_state_version durable)
      else
        let! _ := match consumed with
          | Some admission => on_admissions (restore id admission)
          | None => st_ret tt
          end in
        st_fail database_error)
    (λ version s', version = dt_state_version durable ∧
       ∃ r', RegistryOK r' ∧ store_has w None r' s' ∧
       (superseded = true → superseded_admission r columns durable))
    (λ _ s', ∃ r', RegistryOK r' ∧ same_admissions r r' ∧ store_has t (Some w) r' s') s.
Proof.
  intros Hok [Hdb Hr] id. wp_step. apply wp_on_admissions. rewrite Hr.
  eapply wp_mono; [by apply consume_spec| |done].
  intros consumed r1 [Hok1 Hfound]. cbv beta. wp_step.
  assert (store_has t (Some w) r1 (s <| sdk_projection_admissions := r1 |>)) as Hs1 by done.
  apply wp_reject_if; [intros Hguard|].
  2:{ intros Hguard. destruct superseded, consumed; try discriminate. destruct Hfound as [-> _].
      exists r. split_and!; [done|apply same_admissions_refl|done..]. }
  wp_step. eapply wp_try_commit; [exact Hs1| |]; intros s2 Hs2.
  - apply wp_ret. split; [done|]. exists r1. split_and!; [done..|]. intros ->.
    destruct consumed as [a|]; [|done]. destruct Hfound as (Hadm & q & i & Hq & Hi & _).
    destruct (admits_true _ _ _ _ _ Hadm) as (? & ? & _ & Hlt).
    exists q, a. split_and!; [done|by eapply list_elem_of_lookup_2|done..|by apply Hlt].
  - wp_step. destruct consumed as [a|].
    + destruct Hfound as (_ & q & i & Hq & Hi & ->). destruct Hs2 as [Hdb2 Hr2].
      apply wp_on_admissions. rewrite Hr2. eapply wp_mono; [by apply restore_taken| |done].
      intros [] r3 [Hok3 Hsame]. apply wp_fail. exists r3. split_and!; [done..|by split].
    + destruct Hfound as [-> _]. wp_step. apply wp_fail.
      exists r. split_and!; [done|apply same_admissions_refl|done].
Qed.

(** Nothing was committed, and no admission is lost. *)
Definition unwritten t (r : SdkProjectionAdmissionRegistry) s : Prop :=
  committed (store_connection s) = t ∧ RegistryOK (sdk_projection_admissions s) ∧
  same_admissions r (sdk_projection_admissions s).

Lemma store_has_unwritten t w r r' s :
  RegistryOK r' → same_admissions r r' → store_has t (Some w) r' s → unwritten t r s.
Proof. intros Hok Hsame [[Hc _] Hr]. unfold unwritten. by rewrite Hr. Qed.

Lemma conclude_spec t w r columns version superseded s :
  RegistryOK r → store_has t (Some w) r s →
  wp (conclude_projection fault columns version superseded)
    (λ version' s', ∃ r' durable text expected, RegistryOK r' ∧ store_has w None r' s' ∧
       version' = dt_state_version durable ∧
       authoritative w (tc_task_id columns) durable text expected ∧
       (superseded = true → superseded_admission r columns durable))
    (λ _, unwritten t r) s.
Proof.
  intros Hok [Hdb Hr]. unfold conclude_projection. wp_step. apply wp_attempt_ledger.
  assert (∀ s', store_has t (Some w) r s' → unwritten t r s') as Hstop
    by (intros s' Hs'; eapply store_has_unwritten; [exact Hok|apply same_admissions_refl|exact Hs']).
  eapply wp_mono; [apply clean_projection_spec; exact Hdb| |]; cbv beta.
  2:{ intros e db' Hdb'. wp_step. apply wp_fail, Hstop. by split. }
  intros [durable text] db1 (Hdb1 & expected & Hauth). wp_step. apply wp_ret. wp_step.
  apply wp_reject_if; [intros _|intros _; apply Hstop; by split].
  eapply wp_mono; [apply (finish_apply_spec t w r columns durable superseded); [done|by split]| |].
  - intros version' s' [-> (r' & Hok' & Hs' & Hadm)]. exists r', durable, text, expected. by split_and!.
  - intros e s' (r' & Hok' & Hsame & Hs'). by eapply store_has_unwritten.
Qed.

(** The closure commits a projection of the ledger, or nothing. *)
Lemma apply_closure_spec t r columns s :
  RegistryOK r → store_has t (Some t) r s →
  wp (apply_closure fault columns)
    (λ version s', ∃ t' r', RegistryOK r' ∧ store_has t' None r' s' ∧ written t t' r columns version)
    (λ _, unwritten t r) s.
Proof.
  intros Hok [Hdb Hr]. unfold apply_closure.
  wp_step. apply wp_attempt_ledger.
  eapply wp_mono; [apply apply_authorized_spec; exact Hdb| |]; cbv beta.
  - intros version db1 (w & Hdb1 & [Hledger Hothers Htext]). wp_step. apply wp_ret.
    eapply wp_mono; [apply (conclude_spec t w r); [done|by split]| |done].
    intros version' s' (r' & durable & text & expected & Hok' & Hs' & -> & Hauth & _).
    exists w, r'. split_and!; [done..|]. exists durable, text, expected. split_and!; [done..|]. left.
    rewrite (auth_stored _ _ _ _ _ Hauth) in Htext. by injection Htext.
  - intros e db1 [Hc Hsame]. wp_step. destruct (not_authorized e).
    + apply wp_ret. specialize (Hsame eq_refl).
      eapply wp_mono; [apply (conclude_spec t t r); [done|by split]| |done].
      intros version' s' (r' & durable & text & expected & Hok' & Hs' & -> & Hauth & Hadm).
      exists t, r'. split_and!; [done..|]. exists durable, text, expected. split_and!; [done..|].
      right. auto.
    + apply wp_fail. unfold unwritten. cbn. rewrite Hr. split_and!; [done..|apply same_admissions_refl].
Qed.

(** [apply_sdk_projection] as a whole. *)
Lemma apply_sdk_spec task s :
  StoreReady s →
  let t := committed (store_connection s) in
  let r := sdk_projection_admissions s in
  wp (apply_sdk_projection fault task)
    (λ version s', ∃ t' r' columns, RegistryOK r' ∧ store_has t' None r' s' ∧
       TaskColumns_from_task task = Done columns ∧ written t t' r columns version)
    (λ _ s', unwritten t r s' ∧ working (store_connection s') = None) s.
Proof.
  intros [Hidle Hkey Hok] t r. unfold apply_sdk_projection. wp_step.
  assert (∀ s', store_has t None r s' → unwritten t r s' ∧ working (store_connection s') = None) as Hstop
    by (intros s' [[Hc Hw] Hr]; unfold unwritten; rewrite Hr; split_and!; [done..|apply same_admissions_refl|done]).
  assert (store_has t None r s) as Hs by done.
  apply wp_lift_no_panic; [unfold TaskColumns_from_task, serialized_state; no_panic|intros columns Hcols|auto].
  apply wp_run_blocking; [auto|]. eapply wp_with_transaction; [exact Hs| |auto].
  intros s1 Hs1. eapply wp_mono; [by apply apply_closure_spec| |].
  - intros version s2 (t' & r' & Hok' & [[Hc _] Hr'] & Hwritten). by exists t', r', columns.
  - intros e s2 (Hc & Hok' & Hsame). by split_and!.
Qed.

(** C35: The SDK can write nothing but projections of the ledger.  Whatever statement
    fails: the retained tasks stay as they are; a call that returns leaves the
    authoritative projection of the current version stored and none pending, and
    touches no other task; the text written is that projection, or nothing was written
    because the text is an older projection that had been admitted; a call that fails
    leaves the tables and the admissions as they were. *)
Theorem sdk_writes_only_projections task s :
  StoreReady s →
  let t := committed (store_connection s) in
  let r := sdk_projection_admissions s in
  let '(result, s') := apply_sdk_projection fault task s in
  let t' := committed (store_connection s') in
  StoreReady s' ∧ store_view s' = store_view s ∧
  match result with
  | Done version => ∃ columns, TaskColumns_from_task task = Done columns ∧ written t t' r columns version
  | Fail _ => t' = t ∧ same_admissions r (sdk_projection_admissions s')
  | Panic _ => False
  end.
Proof.
  intros Hready t r. pose proof (apply_sdk_spec task s Hready) as Hwp. fold t r in Hwp.
  unfold wp in Hwp. destruct (apply_sdk_projection fault task s) as [[version|e|msg] s']; [| |done].
  - destruct Hwp as (t' & r' & columns & Hok & [[Hc Hw] Hr] & Hcols & Hwritten).
    pose proof Hwritten as (durable & text & expected & _ & _ & Hledger & _).
    unfold store_view. rewrite Hc. split_and!; [split; [done|rewrite Hc|by rewrite Hr]| |by eauto].
    + rewrite <-Hledger. by destruct Hready.
    + symmetry. by apply ledger_view_proper.
  - destruct Hwp as [(Hc & Hok & Hsame) Hw]. unfold store_view. rewrite Hc.
    split_and!; [split; [done|rewrite Hc; by destruct Hready|done]|done..].
Qed.
End apply.

(** ** Progress *)

(** The documented round trip of [serde_json] for tasks. *)
Class TaskTextSpec `{JsonNumber} {chrono : Chrono} {json : LedgerSerde} : Prop :=
  task_round : ∀ task text, task_to_json task = Some text → task_from_str text = Some task.

Section progress.
Context `{Rusqlite} `{JsonNumber} {serde : SerdeJson} {chrono : Chrono} {uuid : UuidLib}.
Context {json : LedgerSerde} {sha : Sha256} (fault : nat → option SqlError).
Implicit Types (t w : Tables) (columns : TaskColumns) (s : SqliteTaskStore) (durable : DurableTask).

Lemma decoded_version row durable : decode_durable_task row = Done durable → (0 < dt_state_version durable)%Z.
Proof.
  unfold decode_durable_task. intros Hd.
  do 4 apply out_bind_Done in Hd as (? & _ & Hd). apply out_bind_Done in Hd as (version & Hv & Hd).
  do 7 apply out_bind_Done in Hd as (? & _ & Hd). cbv zeta in Hd.
  apply out_bind_Done in Hd as (? & _ & Hd). injection Hd as <-. cbn.
  apply ok_or_Done in Hv. unfold positive_version in Hv.
  destruct (u64_from_i64 _) as [z|]; [|done]. destruct (Z.ltb_spec 0 z); [by simplify_eq|done].
Qed.

Lemma expected_text `{!TaskTextSpec} durable text expected :
  projection_json durable = Done text → expected_columns durable = Done expected →
  tc_task_json expected = text.
Proof.
  intros Htext. pose proof Htext as (projected & _ & Hjson%ok_or_Done)%out_bind_Done.
  unfold expected_columns. rewrite Htext. cbn. rewrite (task_round _ _ Hjson). cbn.
  unfold TaskColumns_from_task. rewrite Hjson.
  destruct (serialized_state _); cbn; [by intros [= <-]|done..].
Qed.

Section quiet.
Hypothesis quiet : ∀ n, fault n = None.

Lemma clean_projection_quiet t o id durable text expected db :
  authoritative (default t o) id durable text expected → ready t o db →
  wp (clean_authoritative_projection fault id)
    (λ out db', out = (durable, text) ∧ ready t o db') (λ _ _, False) db.
Proof.
  intros [Hout (row & Hrow & Hrec & Hdec) Htext Hcols Hv Hstored] Hdb.
  unfold clean_authoritative_projection. wp_step.
  eapply wp_query_quiet; [done|exact Hdb|]. rewrite Hout. intros db1 Hdb1. wp_step. apply wp_accept; [done|].
  wp_step. unfold stored_task_row. eapply wp_query_quiet; [done|exact Hdb1|]. intros db2 Hdb2. wp_step.
  eapply wp_found; [exact Hrow|]. wp_step. apply wp_accept; [by apply negb_false_iff|]. wp_step.
  rewrite Hdec. apply wp_lift. wp_step. eapply wp_found; [exact Hv|]. wp_step.
  rewrite Htext. apply wp_lift. wp_step. rewrite Hcols. apply wp_lift. wp_step.
  eapply wp_query_quiet; [done|exact Hdb2|]. intros db3 Hdb3. wp_step.
  rewrite Hstored. apply wp_accept; [by cbn; rewrite bool_decide_eq_true_2|]. apply wp_ret. done.
Qed.

(** With no pending projection, the text is compared with the stored one. *)
Lemma apply_authorized_quiet t w columns durable text expected db :
  authoritative w (tc_task_id columns) durable text expected → ready t (Some w) db →
  wp (apply_authorized_projection fault columns)
    (λ version db', version = dt_state_version durable ∧ ready t (Some w) db')
    (λ e db', not_authorized e = true ∧ tc_task_json columns ≠ tc_task_json expected ∧ ready t (Some w) db') db.
Proof.
  intros [Hout (row & Hrow & Hrec & Hdec) Htext Hcols Hv Hstored] Hdb.
  unfold apply_authorized_projection. wp_step. eapply wp_query_quiet; [done|exact Hdb|].
  change (default t (Some w)) with w. rewrite Hout. intros db1 Hdb1. wp_step.
  eapply wp_query_quiet; [done|exact Hdb1|]. change (default t (Some w)) with w. rewrite Hstored.
  intros db2 Hdb2. cbn [projection_row pr_task_json].
  destruct (String.eqb_spec (tc_task_json expected) (tc_task_json columns)) as [Heq|Hne].
  - eapply wp_found; [|done]. apply positive_version_i64. split; [by eapply decoded_version|].
    apply checked_Some in Hv. unfold i64_max in *. lia.
  - apply wp_fail. done.
Qed.

(** The store-level rules of a quiet database. *)
Definition store_quiet t (o : option Tables) (r : SdkProjectionAdmissionRegistry) s : Prop :=
  ready t o (store_connection s) ∧ sdk_projection_admissions s = r.

Lemma wp_transaction_quiet_store {A} t r (body : ST SqliteTaskStore A2AError A) (P : A → Prop) s :
  store_quiet t None r s →
  (∀ s', store_quiet t (Some t) r s' → wp body (λ a _, P a) (λ _ _, False) s') →
  wp (run_blocking (with_transaction fault body)) (λ a _, P a) (λ _ _, False) s.
Proof.
  intros [[[Ht Hw] Hp] Hr] Hbody.
  assert (wp (let! _ := on_connection lock_connection in with_transaction fault body)
    (λ a _, P a) (λ _ _, False) s) as Hin.
  { wp_step. apply wp_on_connection, wp_lock; [intros _|congruence].
    assert (wp (let! _ := on_connection (begin_immediate fault) in body) (λ a _, P a) (λ _ _, False)
      (s <| store_connection := store_connection s |>)) as Hrun.
    { wp_step. apply wp_on_connection. unfold begin_immediate. wp_step.
      eapply wp_sql_quiet; [done|split; [split; eassumption|done]|]. intros db [[Ht' Hw'] Hp'].
      apply wp_modify, Hbody. split; [|done]. split; [split; [done|]|done]. simpl. by rewrite Ht'. }
    unfold wp, with_transaction in *. by destruct (st_bind (on_connection (begin_immediate _)) _ _) as [[] ?]. }
  unfold wp, run_blocking in *. by destruct (st_bind (on_connection lock_connection) _ s) as [[] ?].
Qed.

Lemma wp_try_commit_quiet t w r (Q : bool → SqliteTaskStore → Prop) X s :
  store_quiet t (Some w) r s → (∀ s', Q true s') → wp (try_commit fault) Q X s.
Proof.
  intros [Hdb Hr] HQ. pose proof (wp_commit_quiet fault quiet t w (λ _ _, True) (λ _ _, False)
    (store_connection s) Hdb (λ _ _, I)) as Hwp.
  unfold wp, try_commit in *. by destruct (commit_transaction fault _) as [[] db].
Qed.

Lemma conclude_quiet t w r columns durable text expected version (superseded : bool) s :
  RegistryOK r → store_quiet t (Some w) r s →
  authoritative w (tc_task_id columns) durable text expected →
  (if superseded then superseded_admission r columns durable else version = dt_state_version durable) →
  wp (conclude_projection fault columns version superseded)
    (λ version' _, version' = dt_state_version durable) (λ _ _, False) s.
Proof.
  intros Hok [Hdb Hr] Hauth Hcase. unfold conclude_projection. wp_step. apply wp_attempt_ledger.
  eapply wp_mono; [eapply (clean_projection_quiet t (Some w)); [exact Hauth|exact Hdb]| |done]; cbv beta.
  intros [d x] db1 [[= -> ->] Hdb1]. wp_step. apply wp_ret. wp_step. apply wp_accept.
  { destruct superseded; [done|]. subst version. by rewrite Z.eqb_refl. }
  wp_step. apply wp_on_admissions. cbn. rewrite Hr.
  eapply wp_mono; [by apply consume_spec| |done]. intros consumed r1 [Hok1 Hfound]. cbv beta. wp_step.
  apply wp_accept.
  { destruct superseded; [|done]. destruct consumed; [done|]. destruct Hfound as [_ Hnone].
    destruct Hcase as (q & a & Hq & Ha & Hf & Hi & Hlt). specialize (Hnone q a Hq Ha).
    unfold admits in Hnone. rewrite Hf, Hi, !bool_decide_eq_true_2 in Hnone by done. simpl in Hnone.
    apply Z.ltb_nlt in Hnone. lia. }
  wp_step. eapply (wp_try_commit_quiet t w r1); [by split|]. intros s'. by apply wp_ret.
Qed.

(** A current or an admitted projection is accepted. *)
Lemma apply_sdk_quiet task columns durable text expected s :
  StoreReady s → poisoned (store_connection s) = false →
  TaskColumns_from_task task = Done columns →
  authoritative (committed (store_connection s)) (tc_task_id columns) durable text expected →
  (tc_task_json columns = tc_task_json expected
   ∨ superseded_admission (sdk_projection_admissions s) columns durable) →
  wp (apply_sdk_projection fault task) (λ version _, version = dt_state_version durable) (λ _ _, False) s.
Proof.
  intros [Hidle Hkey Hok] Hp Hcols Hauth Hcase. unfold apply_sdk_projection. wp_step.
  rewrite Hcols. apply wp_lift. set (t := committed _) in *. set (r := sdk_projection_admissions s) in *.
  apply (wp_transaction_quiet_store t r); [done|]. intros s1 [Hdb Hr].
  unfold apply_closure. wp_step. apply wp_attempt_ledger.
  eapply wp_mono; [eapply (apply_authorized_quiet t t); [exact Hauth|exact Hdb]| |]; cbv beta.
  - intros version db [-> Hdb']. wp_step. apply wp_ret. by apply (conclude_quiet t t r columns durable text expected).
  - intros e db (He & Hne & Hdb'). wp_step. rewrite He. apply wp_ret.
    apply (conclude_quiet t t r columns durable text expected); [done|by split|done|].
    by destruct Hcase.
Qed.
End quiet.

(** The admissions of a task. *)
Definition admitted s (task_id : string) : list SdkProjectionAdmission :=
  default [] (by_task (sdk_projection_admissions s) !! task_id).

(** The tables are as they were. *)
Definition undisturbed s s' : Prop :=
  StoreReady s' ∧ committed (store_connection s') = committed (store_connection s).

(** What [authorize_sdk_projection] checks and records. *)
Lemma authorize_spec task s :
  StoreReady s →
  wp (authorize_sdk_projection fault task)
    (λ _ s', ∃ columns durable text expected sequence,
       TaskColumns_from_task task = Done columns ∧ text = tc_task_json columns ∧
       authoritative (committed (store_connection s)) (tc_task_id columns) durable text expected ∧
       MkAdmission (sha256_digest text) (dt_state_version durable) (TaskIncarnation_from durable) sequence
         ∈ admitted s' (tc_task_id columns) ∧ undisturbed s s')
    (λ _ s', undisturbed s s') s.
Proof.
  intros Hready. pose proof Hready as [Hidle Hkey Hok]. unfold authorize_sdk_projection. wp_step.
  assert (undisturbed s s) as Hsame by by split.
  apply wp_lift_no_panic; [unfold TaskColumns_from_task, serialized_state; no_panic|intros columns Hcols|done].
  wp_step. apply wp_run_blocking; [done|]. wp_step. apply wp_attempt_ledger.
  assert (∀ db r, holds (committed (store_connection s)) None db → RegistryOK r →
    undisturbed s (MkTaskStore db r)) as Hkeep
    by (intros db r [Hc Hw] Hr; split; [split; cbn; [done|by rewrite Hc|done]|done]).
  eapply wp_mono; [by apply (clean_projection_spec fault (committed (store_connection s)) None)| |]; cbv beta.
  2:{ intros e db Hdb. apply wp_fail. by apply Hkeep. }
  intros [durable text] db [Hdb (expected & Hauth)]. wp_step.
  apply wp_reject_if; [intros Htext%negb_false_iff%String.eqb_eq|intros _; by apply Hkeep]. apply wp_ret. cbn.
  apply wp_on_admissions. eapply wp_mono; [by apply record_spec| |]; cbv beta.
  2:{ intros e r' ->. by apply Hkeep. }
  intros [] r' (Hok' & _ & q & Hq).
  exists columns, durable, text, expected, (next_sequence (sdk_projection_admissions s)).
  split_and!; [done..| |by apply Hkeep]. unfold admitted. cbn. rewrite Hq. cbn. rewrite Htext. set_solver.
Qed.

(** A projection the executor was admitted to write is accepted whenever the SDK
    gets to write it: while the ledger has not changed, and after it has moved on to a
    newer version of the same task.  The call returns the current version.  (The
    admission must not have been evicted, and SQLite must work.) *)
Theorem admitted_projection_is_accepted `{!TaskTextSpec} task s s1 :
  (∀ n, fault n = None) → StoreReady s → authorize_sdk_projection fault task s = (Done tt, s1) →
  ∃ durable text expected,
  authoritative (committed (store_connection s)) (a2a_id task) durable text expected ∧
  ∀ s2 durable' text' expected',
  StoreReady s2 → poisoned (store_connection s2) = false →
  (∀ a, a ∈ admitted s1 (a2a_id task) → a ∈ admitted s2 (a2a_id task)) →
  authoritative (committed (store_connection s2)) (a2a_id task) durable' text' expected' →
  durable' = durable ∨
    TaskIncarnation_from durable' = TaskIncarnation_from durable ∧
    (dt_state_version durable < dt_state_version durable')%Z →
  ∃ s3, apply_sdk_projection fault task s2 = (Done (dt_state_version durable'), s3).
Proof.
  intros quiet Hready Hrun.
  destruct (wp_done _ _ _ _ _ _ (authorize_spec task s Hready) Hrun)
    as (columns & durable & text & expected & sequence & Hcols & Htext & Hauth & Hin & _).
  assert (tc_task_id columns = a2a_id task) as Hid.
  { pose proof Hcols as Hc. unfold TaskColumns_from_task in Hc. run_done Hc. by injection Hc as <-. }
  rewrite Hid in Hauth, Hin. exists durable, text, expected. split; [done|].
  intros s2 durable' text' expected' Hready2 Hp Hkept Hauth2 Hcase. rewrite <-Hid in Hauth2.
  assert (tc_task_json columns = tc_task_json expected'
    ∨ superseded_admission (sdk_projection_admissions s2) columns durable') as Hchoice.
  { destruct Hcase as [->|[Hinc Hlt]]; [left|right].
    - rewrite (expected_text durable text' expected' (auth_text _ _ _ _ _ Hauth2) (auth_columns _ _ _ _ _ Hauth2)).
      pose proof (auth_text _ _ _ _ _ Hauth) as Ht. rewrite (auth_text _ _ _ _ _ Hauth2) in Ht. by injection Ht as ->.
    - apply Hkept in Hin. unfold admitted in Hin.
      destruct (by_task (sdk_projection_admissions s2) !! a2a_id task) as [q|] eqn:Hq; [|by apply not_elem_of_nil in Hin].
      eexists q, _. split_and!; [by rewrite Hid|exact Hin|by rewrite Htext|done..]. }
  destruct (wp_total _ _ _ (apply_sdk_quiet quiet task columns durable' text' expected' s2
    Hready2 Hp Hcols Hauth2 Hchoice)) as (version & s3 & Hrun3 & ->). by exists s3.
Qed.
End progress.

(** ** A task that is canceled while its first projection is under way *)

Module SdkSample.
Import LedgerSample Scenario.
#[local] Existing Instances sqlite millis plain_uuid.
#[local] Instance plain_sha : Sha256 := λ text, text.

Definition canceled_task : DurableTask :=
  queued_task <| dt_state_version := 2%Z |> <| dt_state := Canceled |>
    <| dt_terminal_unix_ms := Some 2000%Z |>
    <| dt_retention_deadline_unix_ms := Some (2000 + TERMINAL_RETENTION_MS)%Z |>.

Definition projected (task : DurableTask) : A2ATask :=
  match projection task with
  | Done projected => projected
  | _ => MkA2ATask "" "" (MkTaskStatus TaskSubmitted None None) None None None
  end.
Definition first_projection : A2ATask := projected queued_task.
Definition second_projection : A2ATask := projected canceled_task.

(** The texts of the payloads and of the two projections. *)
#[local] Instance task_texts : LedgerSerde := {|
  payload_to_json := @payload_to_json _ _ texts;
  payload_from_str := @payload_from_str _ _ texts;
  reply_to_json := @reply_to_json _ _ texts;
  reply_from_str := @reply_from_str _ _ texts;
  task_to_json task :=
    if decide (task = first_projection) then Some "first"
    else if decide (task = second_projection) then Some "second" else None;
  task_from_str text :=
    if String.eqb text "first" then Some first_projection
    else if String.eqb text "second" then Some second_projection else None;
  task_state_name state :=
    Some (match state with TaskSubmitted => "submitted" | TaskCanceledState => "canceled" | _ => "other" end);
|}.

#[local] Instance task_texts_round : TaskTextSpec.
Proof.
  intros task text. cbn. case_decide; [intros [= <-]; by subst|].
  case_decide; [intros [= <-]; by subst|done].
Qed.

#[local] Instance task_texts_spec : LedgerSerdeSpec.
Proof. split; [exact (@payload_round _ _ texts texts_spec)|exact (@reply_round _ _ texts texts_spec)]. Qed.

Definition queued_store : SqliteTaskStore := (store_commit no_fault queue_batch empty_task_store).2.
Definition admitted_store : SqliteTaskStore := (authorize_sdk_projection no_fault first_projection queued_store).2.
Definition cancel_batch : PersistenceBatch := MkBatch None [canceled_task] [].
Definition canceled_store : SqliteTaskStore := (store_commit no_fault cancel_batch admitted_store).2.

Example sample_run :
  (authorize_sdk_projection no_fault first_projection queued_store).1 = Done tt ∧
  (apply_sdk_projection no_fault first_projection canceled_store).1 = Done 2%Z ∧
  (apply_sdk_projection no_fault first_projection (store_commit no_fault cancel_batch queued_store).2).1
  = Fail projection_not_authorized_error.
Proof. split_and!; by vm_compute. Qed.

Lemma queued_ready : StoreReady queued_store.
Proof. apply store_commit_ready; [apply queue_typed|apply empty_ready]. Qed.

Lemma admitted_ready : StoreReady admitted_store.
Proof.
  pose proof (authorize_spec no_fault first_projection queued_store queued_ready) as Hwp.
  unfold wp in Hwp. unfold admitted_store.
  destruct (authorize_sdk_projection no_fault first_projection queued_store) as [[] s];
    [|apply Hwp|done]. destruct Hwp as (columns & durable & text & expected & sequence & _ & _ & _ & _ & Hs & _). exact Hs.
Qed.

Lemma canceled_ready : StoreReady canceled_store.
Proof. apply store_commit_ready; [apply typed_batchb_iff; by vm_compute|apply admitted_ready]. Qed.

(** Witness: the first projection is accepted although the task was canceled; nothing
    is written. *)
Lemma sdk_writes_only_projections_witness :
  (apply_sdk_projection no_fault first_projection canceled_store).1 = Done 2%Z ∧
  store_view (apply_sdk_projection no_fault first_projection canceled_store).2 = store_view canceled_store.
Proof.
  split; [by vm_compute|].
  pose proof (sdk_writes_only_projections no_fault first_projection canceled_store canceled_ready) as Hpost.
  revert Hpost. cbv zeta. destruct (apply_sdk_projection no_fault first_projection canceled_store) as [result s].
  intros Hpost. exact (proj1 (proj2 Hpost)).
Defined.

(** The current projection of the canceled task. *)
Lemma canceled_authoritative :
  authoritative (committed (store_connection canceled_store)) "t1" canceled_task "second"
    (MkTaskColumns "t1" "context" "canceled" (u64_to_string 2000) "second").
Proof.
  split; [by vm_compute| |by vm_compute..].
  exists (encode_row canceled_task 2 payload_text None). by vm_compute.
Qed.

(** Witness: the admission of the first projection is honoured after the cancellation. *)
Lemma admitted_projection_is_accepted_witness :
  ∃ s3, apply_sdk_projection no_fault first_projection canceled_store = (Done 2%Z, s3).
Proof.
  destruct (admitted_projection_is_accepted no_fault first_projection queued_store admitted_store (λ _, eq_refl)
    queued_ready (surjective_pairing_eq _ _ (proj1 sample_run))) as (durable & text & expected & Hauth & Haccept).
  assert (durable = queued_task) as ->.
  { destruct (auth_row _ _ _ _ _ Hauth) as (row & Hrow & _ & Hdec).
    assert (Some row = Some (encode_row queued_task 1 payload_text None)) as [= ->]
      by (rewrite <-Hrow; by vm_compute).
    assert (Done durable = Done (E := StoreError) queued_task) as [= ->]; [|done]. rewrite <-Hdec. by vm_compute. }
  assert (admitted canceled_store "t1" = admitted admitted_store "t1") as Hkept by (by vm_compute).
  apply (Haccept canceled_store canceled_task "second" _ canceled_ready (eq_refl false)
    (λ a Ha, eq_ind_r (λ l, a ∈ l) Ha Hkept) canceled_authoritative).
  right. split; reflexivity.
Defined.
End SdkSample.

(** ** Owner claims

    [claim_task_owner] of [herdr-a2a-broker/src/store.rs]: a task has one owner, a
    claim survives until its task has ended for the retention period, and the number
    of retained tasks is bounded. *)

Section claims.
Context `{Rusqlite} `{JsonNumber} {serde : SerdeJson} {chrono : Chrono} {uuid : UuidLib}.
Context {json : LedgerSerde} (fault : nat → option SqlError).
Implicit Types (t : Tables).

Definition terminal_task_states : list TaskState :=
  [TaskCompleted; TaskCanceledState; TaskFailedState; TaskRejectedState].

(** The tables without the tasks that ended before the cutoff. *)
Definition pruned_owners (states : list string) (cutoff : string) t : Tables :=
  t <| task_owners ::= filter (λ p, p.1 ∉ ended_tasks states cutoff t) |>
    <| task_rows ::= filter (λ p, ended_before states cutoff (row_columns p.2) = false) |>.

Definition claimed (task_id registration_id recipient : string) t : Tables :=
  t <| task_owners ::= <[task_id := MkTaskOwner registration_id (Some recipient)]> |>.

Definition capacity_error : A2AError := A2A_invalid_request "retained task capacity is exhausted".

(** What the transaction committed. *)
Definition claim_post (task_id registration_id recipient cutoff : string) (states : list string) t
    (fresh : bool) t' : Prop :=
  let t1 := pruned_owners states cutoff t in
  if fresh then
    t' = claimed task_id registration_id recipient t1 ∧ task_owners t1 !! task_id = None ∧
    (user_version t = 1%Z → size (retained_ids t1) < MAX_RETAINED_TASKS)
  else t' = t1 ∧ task_owners t1 !! task_id = Some (MkTaskOwner registration_id (Some recipient)).

Lemma claim_transaction_spec t task_id registration_id recipient cutoff states db :
  holds t (Some t) db →
  wp (claim_transaction fault task_id registration_id recipient cutoff states)
    (λ fresh db', ∃ t', holds t' None db' ∧
       claim_post task_id registration_id recipient cutoff states t fresh t')
    (λ e db', committed db' = t ∨ e = capacity_error ∧ committed db' = pruned_owners states cutoff t) db.
Proof.
  intros Hdb. unfold claim_transaction. wp_step.
  assert (∀ w (e : A2AError) db', holds t (Some w) db' →
    committed db' = t ∨ e = capacity_error ∧ committed db' = pruned_owners states cutoff t) as Hstop
    by (intros w e db' [Hc _]; by left).
  eapply wp_query; [exact Hdb| |intros; by eapply Hstop]. intros db1 Hdb1.
  change (default t (Some t)) with t.
  wp_step. match goal with |- wp _ _ ?X _ => eapply (wp_mono _ (λ _ db', holds t (Some t) db') _ X); [| |done] end.
  { case_match; [|by apply wp_ret]. wp_step.
    eapply wp_query; [exact Hdb1| |intros; by eapply Hstop]. intros db2 Hdb2.
    apply wp_reject_if; [done|intros _; by eapply Hstop]. }
  intros [] db2 Hdb2. wp_step. eapply wp_execute; [exact Hdb2| |intros; by eapply Hstop]. intros db3 Hdb3.
  wp_step. eapply wp_execute; [exact Hdb3| |intros; by eapply Hstop]. intros db4 Hdb4.
  change (holds t (Some (pruned_owners states cutoff t)) db4) in Hdb4.
  set (t1 := pruned_owners states cutoff t) in *. wp_step.
  eapply wp_query; [exact Hdb4| |intros; by eapply Hstop]. intros db5 Hdb5.
  change (default t (Some t1)) with t1. destruct (task_owners t1 !! task_id) as [owner|] eqn:Howner.
  - wp_step. apply wp_reject_if; [intros Hreg%negb_false_iff%String.eqb_eq|intros _; by eapply Hstop]. wp_step.
    apply wp_reject_if; [intros Hrec%negb_false_iff%bool_decide_eq_true|intros _; by eapply Hstop]. wp_step.
    eapply wp_commit; [exact Hdb5| |intros; by eapply Hstop]. intros db6 Hdb6. apply wp_ret.
    exists t1. split; [done|]. split; [done|]. fold t1. rewrite Howner. destruct owner. cbn in *. by subst.
  - wp_step. match goal with |- wp _ _ ?X _ => eapply (wp_mono _ (λ n db', holds t (Some t1) db' ∧
      (user_version t = 1%Z → n = size (retained_ids t1))) _ X); [| |done] end.
    { destruct (Z.eqb_spec (user_version t) 1);
        (eapply wp_query; [exact Hdb5| |intros; by eapply Hstop]); by intros db6 Hdb6. }
    intros n db6 [Hdb6 Hn]. destruct (Nat.leb_spec MAX_RETAINED_TASKS n) as [|Hlt].
    + wp_step. eapply wp_commit; [exact Hdb6| |intros; by eapply Hstop]. intros db7 [Hc _].
      apply wp_fail. by right.
    + wp_step. eapply wp_query; [exact Hdb6| |intros; by eapply Hstop]. intros db7 Hdb7. wp_step.
      apply wp_reject_if; [intros _|intros _; by eapply Hstop]. wp_step.
      eapply wp_execute; [exact Hdb7| |intros; by eapply Hstop]. intros db8 Hdb8. wp_step.
      eapply wp_commit; [exact Hdb8| |intros; by eapply Hstop]. intros db9 Hdb9. apply wp_ret.
      exists (claimed task_id registration_id recipient t1). split; [done|].
      split_and!; [done..|]. intros Hv. fold t1. rewrite <-(Hn Hv). done.
Qed.

Lemma pruned_keeps states cutoff t id owner :
  task_owners t !! id = Some owner → id ∉ ended_tasks states cutoff t →
  task_owners (pruned_owners states cutoff t) !! id = Some owner.
Proof. intros Howner Hid. cbn. by apply map_lookup_filter_Some. Qed.

Lemma pruned_inv states cutoff t id owner :
  task_owners (pruned_owners states cutoff t) !! id = Some owner → task_owners t !! id = Some owner.
Proof. cbn. by intros [? _]%map_lookup_filter_Some. Qed.

Lemma claimed_size task_id registration_id recipient t :
  size (retained_ids (claimed task_id registration_id recipient t)) ≤ S (size (retained_ids t)).
Proof.
  unfold retained_ids. cbn. rewrite dom_insert_L.
  replace (dom (delivery_tasks t) ∪ ({[task_id]} ∪ dom (task_owners t)))
    with ({[task_id]} ∪ (dom (delivery_tasks t) ∪ dom (task_owners t))) by set_solver.
  rewrite size_union_alt, size_singleton. pose proof (subseteq_size
    ((dom (delivery_tasks t) ∪ dom (task_owners t)) ∖ {[task_id]}) (dom (delivery_tasks t) ∪ dom (task_owners t))).
  set_solver by lia.
Qed.

(** The whole call, given the cutoff and the names of the terminal states. *)
Lemma claim_task_owner_spec task_id registration recipient now db cutoff states :
  working db = None →
  timestamp_millis_opt (saturating_sub_i64 now TERMINAL_RETENTION_MS) = Some cutoff →
  try_map serialized_state terminal_task_states = Done states →
  let t := committed db in
  let t1 := pruned_owners states (sortable_timestamp cutoff) t in
  wp (claim_task_owner fault task_id registration recipient now)
    (λ fresh db', ∃ t', holds t' None db' ∧ claim_post task_id (rid_str registration) (agent_str recipient)
       (sortable_timestamp cutoff) states t fresh t')
    (λ _ db', holds t None db' ∨ holds t1 None db') db.
Proof.
  intros Hidle Hcutoff Hstates t t1. unfold claim_task_owner. wp_step. eapply wp_found; [exact Hcutoff|].
  wp_step. fold terminal_task_states. rewrite Hstates. apply wp_lift.
  apply wp_spawn_blocking; [by left|]. eapply (wp_in_transaction _ t); [done| |intros; by left].
  intros db1 Hdb1. eapply wp_mono; [by apply claim_transaction_spec| |].
  - intros fresh db2 (t' & [Hc _] & Hpost). by exists t'.
  - intros e db2 [Hc|[_ Hc]]; [by left|by right].
Qed.

(** A claim is exclusive.  A call that returns leaves the task with this
    registration and recipient as its owner; it returns [false] when that was so
    before.  No call, whether it returns or fails, takes a task from its owner before
    the task has been over for the retention period, and the retained tasks stay
    within their capacity. *)
Theorem claims_are_exclusive task_id registration recipient now db cutoff states :
  working db = None →
  timestamp_millis_opt (saturating_sub_i64 now TERMINAL_RETENTION_MS) = Some cutoff →
  try_map serialized_state terminal_task_states = Done states →
  let t := committed db in
  let '(result, db') := claim_task_owner fault task_id registration recipient now db in
  let t' := committed db' in
  working db' = None ∧ ledger_view t' = ledger_view t ∧
  (∀ id owner, task_owners t !! id = Some owner →
     id ∉ ended_tasks states (sortable_timestamp cutoff) t → task_owners t' !! id = Some owner) ∧
  match result with
  | Done fresh =>
      task_owners t' !! task_id
      = Some (MkTaskOwner (rid_str registration) (Some (agent_str recipient))) ∧
      (fresh = false → task_owners t !! task_id = task_owners t' !! task_id) ∧
      (fresh = true → user_version t = 1%Z → size (retained_ids t') ≤ MAX_RETAINED_TASKS)
  | Fail _ => True
  | Panic _ => False
  end.
Proof.
  intros Hidle Hcutoff Hstates t.
  pose proof (claim_task_owner_spec task_id registration recipient now db cutoff states Hidle Hcutoff Hstates) as Hwp.
  unfold wp in Hwp. destruct (claim_task_owner fault task_id registration recipient now db) as [[fresh|e|msg] db'];
    [| |done].
  - destruct Hwp as (t' & [-> Hw] & Hpost). split; [done|]. destruct fresh; destruct Hpost as (-> & Howner).
    + destruct Howner as [Hnone Hroom]. split; [done|]. split; [|split_and!; [apply lookup_insert_eq|done|]].
      * intros id owner Hid Hlive. pose proof (pruned_keeps _ _ _ _ _ Hid Hlive) as Hkept.
        cbn. rewrite lookup_insert_ne; [done|]. intros <-.
        pose proof (eq_trans (eq_sym Hkept) Hnone). done.
      * intros _ Hv. etrans; [apply claimed_size|]. by apply Hroom.
    + split_and!; [done|by intros; apply pruned_keeps|done| |done].
      intros _. rewrite Howner. by eapply pruned_inv.
  - destruct Hwp as [[-> Hw]|[-> Hw]]; (split_and!; [done..| |done]); [done|]. by intros; apply pruned_keeps.
Qed.
End claims.

Module ClaimSample.
Import LedgerSample Scenario.
#[local] Existing Instances sqlite millis plain_uuid texts.

Definition claimed_db : Conn Tables :=
  (claim_task_owner no_fault "t1" (rid "ra") (name "bob") 5000 empty_db).2.

(** Witness: the second claim of another registration fails, the first owner stays. *)
Lemma claims_are_exclusive_witness :
  (claim_task_owner no_fault "t1" (rid "ra") (name "bob") 5000 empty_db).1 = Done true ∧
  (claim_task_owner no_fault "t1" (rid "rc") (name "bob") 6000 claimed_db).1
  = Fail (A2A_invalid_params "task is owned by another registration") ∧
  task_owners (committed (claim_task_owner no_fault "t1" (rid "rc") (name "bob") 6000 claimed_db).2) !! "t1"
  = Some (MkTaskOwner "ra" (Some "bob")).
Proof.
  split; [by vm_compute|]. split; [by vm_compute|].
  pose proof (claims_are_exclusive no_fault "t1" (rid "rc") (name "bob") 6000 claimed_db _ _
    eq_refl eq_refl eq_refl) as Hpost. revert Hpost. cbv zeta.
  destruct (claim_task_owner no_fault "t1" (rid "rc") (name "bob") 6000 claimed_db) as [result db'].
  intros (_ & _ & Hkeep & _). apply Hkeep; [by vm_compute|]. by vm_compute.
Defined.
End ClaimSample.
