(* ===== verification/TaskListing.v ===== *)
(** * Listing tasks page by page

    [TaskStore::list] and [SqliteTaskStore::list_owned] of
    [herdr-a2a-broker/src/store.rs], with their page cursors.  The two functions run
    the same statements; [list_owned] joins every one with the rows of
    [delivery_tasks] that the sender owns, here the predicate [shown].

    The JSON of a cursor is a parameter ([CursorSerde]).  [ORDER BY] and the
    comparisons of text are those of bytes. *)
From stdpp Require Import prelude gmap strings sorting.
From S2P Require Import Prelude RustStd Model Validation Durability BrokerState Sqlite LedgerCodec Ledger LedgerCommit.
From S2P Require Import LedgerCommit SdkStore.

Definition DEFAULT_PAGE_SIZE : Z := 50.
Definition MIN_PAGE_SIZE : Z := 1.
Definition MAX_PAGE_SIZE : Z := 100.
Definition PAGE_CURSOR_VERSION : Z := 3.
Definition MAX_PAGE_TOKEN_BYTES : nat := 2048.
Definition i32_max : Z := 2147483647.

Record PageCursor := MkPageCursor {
  cursor_version : Z;
  cursor_row_id : Z;
  cursor_status_timestamp : string;
}.

Class CursorSerde := {
  cursor_to_json : PageCursor → option string;
  cursor_from_str : string → option PageCursor;
}.

(** The fields of the SDK's request and response that the store uses. *)
Section requests.
Context `{JsonNumber} {chrono : Chrono}.

Record ListTasksRequest := MkListRequest {
  req_context_id : option string;
  req_status : option TaskState;
  req_page_size : option Z;
  req_page_token : option string;
  req_history_length : option Z;
  req_status_timestamp_after : option DateTime;
  req_include_artifacts : option bool;
}.

#[global] Instance ListTasksRequest_fields : Fields ListTasksRequest := λ r,
  MkListRequest (req_context_id r) (req_status r) (req_page_size r) (req_page_token r)
    (req_history_length r) (req_status_timestamp_after r) (req_include_artifacts r).

Record ListTasksResponse := MkListResponse {
  resp_tasks : list A2ATask;
  resp_next_page_token : string;
  resp_page_size : Z;
  resp_total_size : Z;
}.
End requests.

(** ** The order of the listing *)

(** The sort key of a row: its timestamp and its identifier. *)
Definition page_key (p : string * TaskRow) : string * string :=
  (pr_status_timestamp (row_columns p.2), p.1).

(** [a < b] on text. *)
Definition text_lt (a b : string) : Prop := String.le a b ∧ a ≠ b.

(** [ts < ?5 OR (ts = ?5 AND id < ?6)] *)
Definition key_below (k bound : string * string) : Prop :=
  text_lt k.1 bound.1 ∨ k.1 = bound.1 ∧ text_lt k.2 bound.2.

#[global] Instance text_lt_dec : RelDecision text_lt.
Proof. intros a b. unfold text_lt. apply _. Defined.
#[global] Instance key_below_dec : RelDecision key_below.
Proof. intros a b. unfold key_below. apply _. Defined.

(** [ORDER BY status_timestamp DESC, task_id DESC] *)
Definition listing_order (p q : string * TaskRow) : Prop :=
  page_key q = page_key p ∨ key_below (page_key q) (page_key p).

#[global] Instance listing_order_dec : RelDecision listing_order.
Proof. intros a b. unfold listing_order. apply _. Defined.

Section listing.
Context `{Rusqlite} `{JsonNumber} {serde : SerdeJson} {chrono : Chrono} {uuid : UuidLib}.
Context {json : LedgerSerde} {cursor_json : CursorSerde} (fault : nat → option SqlError).

(** ** Cursors *)

Definition valid_timestamp (text : string) : bool :=
  String.eqb text ""
  || match parse_from_rfc3339 text with
     | Some timestamp => String.eqb (sortable_timestamp timestamp) text
     | None => false
     end.

Definition valid_cursor (cursor : PageCursor) : bool :=
  (cursor_version cursor =? PAGE_CURSOR_VERSION)%Z
  && (0 <? cursor_row_id cursor)%Z
  && valid_timestamp (cursor_status_timestamp cursor).

Definition invalid_page_token : A2AError := A2A_invalid_params "invalid page token".

Definition decode_cursor (token : option string) : Outcome A2AError (option PageCursor) :=
  match token with
  | None => Done None
  | Some token =>
      if String.eqb token "" then Done None
      else
        let? _ := reject_if (MAX_PAGE_TOKEN_BYTES <? length (as_bytes token))%nat invalid_page_token in
        let? cursor := ok_or (cursor_from_str token) invalid_page_token in
        let? _ := reject_if (negb (valid_cursor cursor)) invalid_page_token in
        Done (Some cursor)
  end.

Definition encode_cursor (row_id : Z) (status_timestamp : string) : Outcome A2AError string :=
  let cursor := MkPageCursor PAGE_CURSOR_VERSION row_id status_timestamp in
  let failed := A2A_internal "page token serialization failed" in
  let? _ := reject_if (negb (valid_cursor cursor)) failed in
  let? token := ok_or (cursor_to_json cursor) failed in
  let? _ := reject_if (MAX_PAGE_TOKEN_BYTES <? length (as_bytes token))%nat failed in
  Done token.

(** ** Requests *)

Record TaskFilter := MkFilter {
  filter_context_id : option string;
  filter_state : option string;
  filter_timestamp_after : option string;
}.

(** [?n IS NULL OR ..] *)
Definition or_null (o : option string) (test : string → bool) : bool :=
  match o with Some s => test s | None => true end.

Definition filter_accepts (f : TaskFilter) (row : ProjectionRow) : bool :=
  or_null (filter_context_id f) (String.eqb (pr_context_id row))
  && or_null (filter_state f) (String.eqb (pr_state row))
  && or_null (filter_timestamp_after f) (λ after,
       bool_decide (String.le after (pr_status_timestamp row))).

Definition request_filter (request : ListTasksRequest) : Outcome A2AError TaskFilter :=
  let? state := match req_status request with
    | Some state => let? name := serialized_state state in Done (Some name)
    | None => Done None
    end in
  Done (MkFilter (req_context_id request) state
          (sortable_timestamp <$> req_status_timestamp_after request)).

Definition request_page_size (request : ListTasksRequest) : Outcome A2AError Z :=
  match req_page_size request with
  | Some page_size =>
      if (MIN_PAGE_SIZE <=? page_size)%Z && (page_size <=? MAX_PAGE_SIZE)%Z then Done page_size
      else Fail (A2A_invalid_params "page size must be between 1 and 100")
  | None => Done DEFAULT_PAGE_SIZE
  end.

(** [history.drain(..history.len() - history_length)] *)
Definition shape_history (history_length : option Z) (history : option (list Message))
    : option (list Message) :=
  match history_length, history with
  | Some n, Some history =>
      if (n =? 0)%Z then Some []
      else if (0 <? n)%Z
      then Some (if (Z.to_nat n <? length history)%nat
                 then drop (length history - Z.to_nat n) history else history)
      else Some history
  | _, _ => history
  end.

Definition shape_listed_task (request : ListTasksRequest) (task : A2ATask) : A2ATask :=
  MkA2ATask (a2a_id task) (a2a_context_id task) (a2a_status task)
    (if bool_decide (req_include_artifacts request = Some true) then a2a_artifacts task else None)
    (shape_history (req_history_length request) (a2a_history task))
    (a2a_metadata task).

(** ** The statements *)

Abbreviation M := (ST (Conn Tables) A2AError).

Section shown.
Context (shown : Tables → string → bool).

(** The rows of the [FROM] and [WHERE] clauses that do not depend on the cursor. *)
Definition matching (f : TaskFilter) (t : Tables) : list (string * TaskRow) :=
  filter (λ p, shown t p.1 && filter_accepts f (row_columns p.2) = true) (map_to_list (task_rows t)).

(** The task with the given rowid. *)
Definition task_of_row (row : Z) (t : Tables) : option string :=
  head (filter (λ p, shown t p.1 && (row_id p.2 =? row)%Z = true) (map_to_list (task_rows t))).*1.

(** The clauses that depend on the cursor. *)
Definition after_cursor (boundary : option ((string * string) * Z)) (p : string * TaskRow) : bool :=
  match boundary with
  | Some (bound, row) => bool_decide (key_below (page_key p) bound) && negb (row_id p.2 =? row)%Z
  | None => true
  end.

(** The rows after the cursor, in order. *)
Definition rows_after (f : TaskFilter) (boundary : option ((string * string) * Z)) (t : Tables)
    : list (string * TaskRow) :=
  merge_sort listing_order
    (filter (λ p, after_cursor boundary p = true) (matching f t)).

(** The closure of [list] and [list_owned]. *)
Definition list_closure (f : TaskFilter) (page_size : Z) (cursor : option PageCursor)
    : M (list (A2ATask * (string * TaskRow)) * string * Z) :=
  let! boundary := match cursor with
    | Some cursor =>
        let! task_id := query fault (task_of_row (cursor_row_id cursor)) in
        let! task_id := st_lift (ok_or task_id invalid_page_token) in
        st_ret (Some ((cursor_status_timestamp cursor, task_id), cursor_row_id cursor))
    | None => st_ret None
    end in
  let! total_size := query fault (λ t, Z.of_nat (length (matching f t))) in
  let! _ := st_lift (reject_if (i32_max <? total_size)%Z database_error) in
  let! _ := sql_step fault in
  let! rows := query fault (λ t, take (Z.to_nat page_size + 1) (rows_after f boundary t)) in
  let! tasks := st_lift (try_map (λ p,
    let? task := decode_task (pr_task_json (row_columns p.2)) in Done (task, p)) rows) in
  let has_more := (Z.to_nat page_size <? length tasks)%nat in
  let page := take (Z.to_nat page_size) tasks in
  let! next_page_token := st_lift (
    if has_more then
      let? (_, p) := expect (last page) "a page with more results contains a cursor row" in
      encode_cursor (row_id p.2) (pr_status_timestamp (row_columns p.2))
    else Done "") in
  st_ret (page, next_page_token, total_size).

Definition list_tasks (request : ListTasksRequest) : M ListTasksResponse :=
  let! cursor := st_lift (decode_cursor (req_page_token request)) in
  let! f := st_lift (request_filter request) in
  let! page_size := st_lift (request_page_size request) in
  let! (page, next_page_token, total_size) := spawn_blocking (list_closure f page_size cursor) in
  st_ret (MkListResponse (shape_listed_task request <$> page.*1) next_page_token page_size total_size).
End shown.

(** [TaskStore::list] *)
Definition store_list (request : ListTasksRequest) : M ListTasksResponse :=
  list_tasks (λ _ _, true) request.

(** [JOIN delivery_tasks .. WHERE sender_agent = ?1 AND legacy_quarantined = 0] *)
Definition owned_by (sender : string) (t : Tables) (task_id : string) : bool :=
  is_some_and (delivery_tasks t !! task_id) (λ row,
    bool_decide (str_sender_agent row = Some sender) && (str_legacy_quarantined row =? 0)%Z).

(** [SqliteTaskStore::list_owned] *)
Definition list_owned (sender : AgentName) (request : ListTasksRequest) : M ListTasksResponse :=
  list_tasks (owned_by (agent_str sender)) request.
End listing.

(** * Pages of a listing

    The order of the listing, the rows after a cursor, and what one call of
    [list_closure] returns. *)
(** ** The order *)

Lemma text_lt_trans a b c : text_lt a b → text_lt b c → text_lt a c.
Proof.
  intros [Hab Hne] [Hbc _]. split; [by trans b|]. intros ->. apply Hne. by apply (anti_symm String.le).
Qed.

Lemma text_lt_cases a b : text_lt a b ∨ a = b ∨ text_lt b a.
Proof.
  destruct (decide (a = b)) as [->|Hne]; [by right; left|].
  destruct (total String.le a b); [left|right; right]; by split.
Qed.

Lemma key_below_irrefl k : ¬ key_below k k.
Proof. intros [[_ ?]|[_ [_ ?]]]; done. Qed.

Lemma key_below_trans a b c : key_below a b → key_below b c → key_below a c.
Proof.
  intros [Hab|[Hab1 Hab2]] [Hbc|[Hbc1 Hbc2]].
  - left. by eapply text_lt_trans.
  - left. by rewrite <-Hbc1.
  - left. by rewrite Hab1.
  - right. split; [congruence|]. by eapply text_lt_trans.
Qed.

Lemma key_below_cases a b : key_below a b ∨ a = b ∨ key_below b a.
Proof.
  destruct a as [a1 a2], b as [b1 b2]. unfold key_below. cbn.
  destruct (text_lt_cases a1 b1) as [?|[->|?]]; [auto| |auto].
  destruct (text_lt_cases a2 b2) as [?|[->|?]]; auto.
Qed.

#[export] Instance listing_order_trans : Transitive listing_order.
Proof.
  intros p q r [Hpq|Hpq] [Hqr|Hqr].
  - left. congruence.
  - right. by rewrite <-Hpq.
  - right. by rewrite Hqr.
  - right. by eapply key_below_trans.
Qed.

#[export] Instance listing_order_total : Total listing_order.
Proof.
  intros p q. unfold listing_order. destruct (key_below_cases (page_key p) (page_key q)) as [?|[?|?]]; auto.
Qed.

(** Sorted lists of rows with different identifiers are determined by their rows. *)
Lemma listing_unique (l k : list (string * TaskRow)) :
  NoDup l.*1 → StronglySorted listing_order l → StronglySorted listing_order k → l ≡ₚ k → l = k.
Proof.
  intros Hnd Hl Hk Hperm. apply (StronglySorted_unique_strong listing_order); [|done..].
  intros p q Hp Hq [Hpq|Hpq] [Hqp|Hqp].
  - injection Hpq as _ Hid. rewrite <-Hperm in Hq.
    apply list_elem_of_lookup in Hp as [i Hi], Hq as [j Hj].
    assert (i = j) as ->; [|congruence].
    eapply (NoDup_lookup l.*1); [done| |]; rewrite list_lookup_fmap; [by rewrite Hi|rewrite Hj; cbn; by f_equal].
  - rewrite Hpq in Hqp. by apply key_below_irrefl in Hqp.
  - rewrite Hqp in Hpq. by apply key_below_irrefl in Hpq.
  - destruct (key_below_irrefl (page_key p)). by eapply key_below_trans.
Qed.

(** In a listing every row is below the rows before it. *)
Lemma listing_split (l1 l2 : list (string * TaskRow)) p q :
  NoDup (l1 ++ l2).*1 → StronglySorted listing_order (l1 ++ l2) → p ∈ l1 → q ∈ l2 →
  key_below (page_key q) (page_key p).
Proof.
  intros Hnd Hs Hp Hq. destruct (StronglySorted_app_1_elem_of _ _ _ _ _ Hs Hp Hq) as [Hkey|]; [|done].
  injection Hkey as _ Hid. rewrite fmap_app in Hnd. apply NoDup_app in Hnd as (_ & Hdisj & _).
  destruct (Hdisj p.1); [by apply list_elem_of_fmap_2|rewrite <-Hid; by apply list_elem_of_fmap_2].
Qed.

(** The last row of a page is the least. *)
Lemma page_last (l : list (string * TaskRow)) n p :
  NoDup l.*1 → StronglySorted listing_order l → last (take n l) = Some p →
  p ∈ take n l ∧
  (∀ q, q ∈ take n l → q = p ∨ key_below (page_key p) (page_key q)) ∧
  (∀ q, q ∈ drop n l → key_below (page_key q) (page_key p)).
Proof.
  intros Hnd Hs [l1 Hl1]%last_Some. rewrite <-(take_drop n l), Hl1 in Hnd, Hs.
  rewrite Hl1. split_and!; [set_solver| |].
  - intros q [Hq| ->%list_elem_of_singleton]%elem_of_app; [right|by left].
    rewrite <-app_assoc in Hnd, Hs. eapply listing_split; [exact Hnd|exact Hs|done|set_solver].
  - intros q Hq. eapply listing_split; [exact Hnd|exact Hs|set_solver|done].
Qed.

Lemma elem_of_take_drop {A} (l : list A) n p : p ∈ l ↔ p ∈ take n l ∨ p ∈ drop n l.
Proof. rewrite <-elem_of_app. by rewrite take_drop. Qed.

(** ** The rows after a cursor *)

Section rows.
Context `{Rusqlite} `{JsonNumber} {serde : SerdeJson} {chrono : Chrono} {uuid : UuidLib}.
Context {json : LedgerSerde} {cursor_json : CursorSerde} (fault : nat → option SqlError).
Context (shown : Tables → string → bool).
Implicit Types (t : Tables) (f : TaskFilter) (p q : string * TaskRow) (l : list (string * TaskRow)).

Lemma elem_of_matching p f t :
  p ∈ matching shown f t ↔
  task_rows t !! p.1 = Some p.2 ∧ shown t p.1 = true ∧ filter_accepts f (row_columns p.2) = true.
Proof.
  unfold matching. rewrite list_elem_of_filter, andb_true_iff. destruct p as [id row].
  rewrite elem_of_map_to_list. naive_solver.
Qed.

Lemma rows_after_Permutation f boundary t :
  rows_after shown f boundary t ≡ₚ filter (λ p, after_cursor boundary p = true) (matching shown f t).
Proof. apply merge_sort_Permutation. Qed.

Lemma elem_of_rows_after p f boundary t :
  p ∈ rows_after shown f boundary t ↔ after_cursor boundary p = true ∧ p ∈ matching shown f t.
Proof. by rewrite rows_after_Permutation, list_elem_of_filter. Qed.

Lemma rows_after_NoDup f boundary t : NoDup (rows_after shown f boundary t).*1.
Proof.
  rewrite rows_after_Permutation. unfold matching. do 2 apply NoDup_fmap_filter.
  apply NoDup_fst_map_to_list.
Qed.

Lemma rows_after_sorted f boundary t : StronglySorted listing_order (rows_after shown f boundary t).
Proof. apply (StronglySorted_merge_sort _). Qed.

(** ** One page *)

(** The boundary that a cursor stands for. *)
Definition boundary_of (cursor : option PageCursor) t (boundary : option ((string * string) * Z)) : Prop :=
  match cursor with
  | Some c => ∃ id, task_of_row shown (cursor_row_id c) t = Some id ∧
      boundary = Some ((cursor_status_timestamp c, id), cursor_row_id c)
  | None => boundary = None
  end.

(** A page of at most [n] rows after a boundary, and its token. *)
Record PageOK t f n boundary (page : list (A2ATask * (string * TaskRow))) (token : string) : Prop := {
  page_rows : page.*2 = take n (rows_after shown f boundary t);
  page_decoded : Forall (λ e, task_from_str (pr_task_json (row_columns e.2.2)) = Some e.1) page;
  page_token :
    if (length (rows_after shown f boundary t) <=? n)%nat then token = ""
    else ∃ p, last (take n (rows_after shown f boundary t)) = Some p ∧
      encode_cursor (row_id p.2) (pr_status_timestamp (row_columns p.2)) = Done token;
}.

Lemma decode_page_spec (rows : list (string * TaskRow)) tasks :
  try_map (λ p, let? task := decode_task (pr_task_json (row_columns p.2)) in Done (task, p)) rows
    = Done tasks →
  tasks.*2 = rows ∧ Forall (λ e, task_from_str (pr_task_json (row_columns e.2.2)) = Some e.1) tasks.
Proof.
  intros Hall%try_map_Forall2. induction Hall as [|p e rows tasks Hp _ [IH1 IH2]]; [done|].
  apply out_bind_Done in Hp as (task & Htask%ok_or_Done & [= <-]). split; [by rewrite fmap_cons, IH1|by constructor].
Qed.

Lemma decode_page_no_panic (rows : list (string * TaskRow)) :
  no_panic (try_map (λ p, let? task := decode_task (pr_task_json (row_columns p.2)) in Done (task, p)) rows).
Proof. apply no_panic_try_map. intros p. unfold decode_task. no_panic. Qed.

Lemma last_fmap_inv {A B} (g : A → B) (l : list A) b :
  last (g <$> l) = Some b → ∃ a, last l = Some a ∧ g a = b.
Proof. rewrite fmap_last. intros (a & ? & ?)%fmap_Some. eauto. Qed.

Lemma encode_cursor_no_panic row ts : no_panic (encode_cursor row ts).
Proof. unfold encode_cursor. no_panic. Qed.

Lemma list_closure_spec t f page_size cursor db :
  (1 ≤ page_size)%Z → holds t None db →
  wp (list_closure fault shown f page_size cursor)
    (λ out db', holds t None db' ∧ ∃ boundary, boundary_of cursor t boundary ∧
       PageOK t f (Z.to_nat page_size) boundary out.1.1 out.1.2 ∧
       out.2 = Z.of_nat (length (matching shown f t)))
    (λ _ db', holds t None db') db.
Proof.
  intros Hsize Hdb. unfold list_closure. wp_step.
  eapply (wp_mono _ (λ boundary db', holds t None db' ∧ boundary_of cursor t boundary) _ (λ _ db', holds t None db'));
    [| |done].
  { destruct cursor as [c|]; [|by apply wp_ret]. wp_step.
    eapply wp_query; [exact Hdb| |done]. intros db1 Hdb1. wp_step.
    apply wp_ok_or; [intros id Hid|done]. apply wp_ret. split; [done|]. by exists id. }
  intros boundary db1 [Hdb1 Hbound]. wp_step. eapply wp_query; [exact Hdb1| |done]. intros db2 Hdb2. wp_step.
  apply wp_reject_if; [intros _|done]. wp_step. eapply wp_sql_step; [exact Hdb2| |done]. intros db3 Hdb3. wp_step.
  eapply wp_query; [exact Hdb3| |done]. intros db4 Hdb4. change (default t None) with t.
  set (rows := rows_after shown f boundary t). set (n := Z.to_nat page_size). wp_step.
  apply wp_lift_no_panic; [apply decode_page_no_panic|intros tasks Htasks|done]. wp_step.
  apply decode_page_spec in Htasks as [Hrows Hdec].
  assert (length tasks = Nat.min (n + 1) (length rows)) as Hlen
    by (rewrite <-(length_fmap snd), Hrows; apply length_take).
  assert ((take n tasks).*2 = take n rows) as Hpage
    by (rewrite fmap_take, Hrows, take_take; f_equal; lia).
  destruct (Nat.ltb_spec n (length tasks)) as [Hmore|Hall].
  - destruct (last (take n tasks)) as [[task p]|] eqn:Hlast.
    2:{ apply last_None in Hlast. assert (length (take n tasks) = 0) as Hz by (by rewrite Hlast).
        rewrite length_take in Hz. lia. }
    cbn [expect out_bind].
    apply wp_lift_no_panic; [apply encode_cursor_no_panic|intros token Htoken|done].
    apply wp_ret. split; [done|]. exists boundary. split_and!; [done| |done].
    split; [done|by apply Forall_take|]. fold rows.
    rewrite (proj2 (Nat.leb_gt _ _)) by lia. exists p. split; [|done].
    rewrite <-Hpage, fmap_last, Hlast. done.
  - apply wp_lift. wp_step. split; [done|]. exists boundary. split_and!; [done| |done].
    split; [done|by apply Forall_take|]. fold rows. by rewrite (proj2 (Nat.leb_le _ _)) by lia.
Qed.
End rows.
