(* ===== verification/ListingTheorems.v ===== *)
(** * Theorems about listing

    Walking through the pages of a listing ends and shows every task once, in order;
    tasks that do not change are shown exactly once even if others are written between
    the calls. *)
From stdpp Require Import prelude gmap strings sorting.
From S2P Require Import Prelude RustStd Model Validation Durability BrokerState Sqlite LedgerCodec.
From S2P Require Import BrokerProgress Scenario Ledger LedgerCommit TaskStore.
From S2P Require Import SdkStore TaskListing.

(** The documented behaviour of [serde_json] on a cursor: what it writes it reads
    back, and the empty text is no JSON. *)
Class CursorSerdeSpec {cursor_json : CursorSerde} : Prop := {
  cursor_round : ∀ c text, cursor_to_json c = Some text → cursor_from_str text = Some c;
  cursor_empty : cursor_from_str "" = None;
}.

Section listing.
Context `{Rusqlite} `{JsonNumber} {serde : SerdeJson} {chrono : Chrono} {uuid : UuidLib}.
Context {json : LedgerSerde} {cursor_json : CursorSerde} {cursor_spec : CursorSerdeSpec}.
Context (fault : nat → option SqlError) (shown : Tables → string → bool).
Implicit Types (t : Tables) (f : TaskFilter) (p q : string * TaskRow) (request : ListTasksRequest).

(** ** Cursors *)

Lemma encode_decode_cursor row ts token :
  encode_cursor row ts = Done token →
  token ≠ "" ∧ decode_cursor (Some token) = Done (Some (MkPageCursor PAGE_CURSOR_VERSION row ts)).
Proof.
  unfold encode_cursor. intros He.
  apply out_bind_Done in He as (? & Hvalid%reject_if_Done%negb_false_iff & He).
  apply out_bind_Done in He as (text & Htext%ok_or_Done & He).
  apply out_bind_Done in He as (? & Hlen%reject_if_Done & [= <-]).
  pose proof (cursor_round _ _ Htext) as Hround.
  assert (text ≠ "") as Hne by (intros ->; by rewrite cursor_empty in Hround).
  split; [done|]. unfold decode_cursor. apply String.eqb_neq in Hne as ->.
  rewrite Hlen. cbn. rewrite Hround. cbn. by rewrite Hvalid.
Qed.

Lemma page_size_bounds request size :
  request_page_size request = Done size → (1 ≤ size ≤ 100)%Z.
Proof.
  unfold request_page_size, MIN_PAGE_SIZE, MAX_PAGE_SIZE, DEFAULT_PAGE_SIZE.
  destruct (req_page_size request) as [n|]; [|intros [= <-]; lia].
  destruct (Z.leb_spec 1 n), (Z.leb_spec n 100); simpl; [intros [= <-]; lia|done..].
Qed.

(** ** One call *)

Record Listed request t (resp : ListTasksResponse) (cursor : option PageCursor) f (n : nat)
    boundary (page : list (A2ATask * (string * TaskRow))) : Prop := {
  listed_cursor : decode_cursor (req_page_token request) = Done cursor;
  listed_filter : request_filter request = Done f;
  listed_size : request_page_size request = Done (Z.of_nat n);
  listed_boundary : boundary_of shown cursor t boundary;
  listed_page : PageOK shown t f n boundary page (resp_next_page_token resp);
  listed_tasks : resp_tasks resp = shape_listed_task request <$> page.*1;
  listed_total : resp_total_size resp = Z.of_nat (length (matching shown f t));
}.

Lemma list_tasks_spec request db :
  working db = None →
  wp (list_tasks fault shown request)
    (λ resp db', holds (committed db) None db' ∧ ∃ cursor f n boundary page,
       Listed request (committed db) resp cursor f n boundary page)
    (λ _ db', holds (committed db) None db') db.
Proof.
  intros Hidle. assert (holds (committed db) None db) as Hdb by done. unfold list_tasks. wp_step.
  apply wp_lift_no_panic; [unfold decode_cursor; no_panic|intros cursor Hcursor|done]. wp_step.
  apply wp_lift_no_panic; [unfold request_filter, serialized_state; no_panic|intros f Hf|done]. wp_step.
  apply wp_lift_no_panic; [unfold request_page_size; no_panic|intros size Hsize|done]. wp_step.
  destruct (page_size_bounds _ _ Hsize). apply wp_spawn_blocking; [done|].
  eapply wp_mono; [apply (list_closure_spec fault shown (committed db)); [lia|done]| |done].
  intros [[page token] total] db' [Hdb' (boundary & Hbound & Hpage & Htotal)]. apply wp_ret. split; [done|].
  exists cursor, f, (Z.to_nat size), boundary, page. split; try done. by rewrite Z2Nat.id by lia.
Qed.

Lemma boundary_of_inj cursor t b b' :
  boundary_of shown cursor t b → boundary_of shown cursor t b' → b = b'.
Proof. destruct cursor; cbn; [|congruence]. intros (i & ? & ->) (j & ? & ->). congruence. Qed.

(** A call that returned, with the token of a cursor. *)
Lemma listed_call request f token cursor boundary db resp :
  working db = None → request_filter request = Done f → decode_cursor token = Done cursor →
  boundary_of shown cursor (committed db) boundary →
  (list_tasks fault shown (request <| req_page_token := token |>) db).1 = Done resp →
  ∃ n page, 1 ≤ n ∧
    Listed (request <| req_page_token := token |>) (committed db) resp cursor f n boundary page.
Proof.
  intros Hidle Hf Hcursor Hbound Hrun.
  pose proof (list_tasks_spec (request <| req_page_token := token |>) db Hidle) as Hwp. unfold wp in Hwp.
  destruct (list_tasks fault shown _ db) as [out db']. cbn in Hrun. subst out.
  destruct Hwp as [_ (cursor' & f' & n & boundary' & page & Hlisted)].
  pose proof Hlisted as [Hc Hf' Hn Hb _ _ _]. destruct (page_size_bounds _ _ Hn). exists n, page. split; [lia|].
  change (request_filter request = Done f') in Hf'. rewrite Hf in Hf'. injection Hf' as <-.
  change (decode_cursor token = Done cursor') in Hc. rewrite Hcursor in Hc. injection Hc as <-.
  by rewrite (boundary_of_inj _ _ _ _ Hbound Hb).
Qed.

(** ** Walking through the pages *)

(** The responses of the calls that follow the tokens, one per state of the database,
    when all of them return and the last one says that there is no more. *)
Fixpoint walk request (token : option string) (dbs : list (Conn Tables)) : option (list ListTasksResponse) :=
  match dbs with
  | [] => None
  | db :: dbs =>
      match (list_tasks fault shown (request <| req_page_token := token |>) db).1 with
      | Done resp =>
          if String.eqb (resp_next_page_token resp) ""
          then match dbs with [] => Some [resp] | _ => None end
          else cons resp <$> walk request (Some (resp_next_page_token resp)) dbs
      | _ => None
      end
  end.

(** The identifiers of the tasks that were shown, in order. *)
Definition shown_ids (responses : list ListTasksResponse) : list string :=
  responses ≫= λ resp, a2a_id <$> resp_tasks resp.

Definition occurrences (id : string) (ids : list string) : nat := length (filter (λ x, x = id) ids).

Lemma occurrences_app id l k : occurrences id (l ++ k) = occurrences id l + occurrences id k.
Proof. unfold occurrences. by rewrite filter_app, length_app. Qed.

Lemma occurrences_NoDup id l : NoDup l → occurrences id l = if decide (id ∈ l) then 1 else 0.
Proof.
  unfold occurrences. induction 1 as [|x l Hx _ IH]; [done|]. rewrite filter_cons.
  destruct (decide (x = id)) as [->|Hne]; cbn; rewrite IH.
  - rewrite !decide_False by done. by rewrite decide_True by set_solver.
  - by destruct (decide (id ∈ l)); [rewrite decide_True by set_solver|rewrite decide_False by set_solver].
Qed.

(** The projections of the table are those of the tasks they are stored under, and a
    rowid belongs to one row. *)
Record ListingOK t : Prop := {
  table_ids : ∀ id row task, task_rows t !! id = Some row →
    task_from_str (pr_task_json (row_columns row)) = Some task → a2a_id task = id;
  table_rows : ∀ id id' row row', task_rows t !! id = Some row → task_rows t !! id' = Some row' →
    row_id row = row_id row' → id = id';
}.

(** Writing a projection keeps the rowids apart and positive. *)
Lemma next_row_id_above t id row : task_rows t !! id = Some row → (row_id row < next_row_id t)%Z.
Proof.
  intros Hrow%elem_of_map_to_list. unfold next_row_id.
  assert (∀ l, (id, row) ∈ l → (row_id row ≤ foldr Z.max 0 ((λ p : string * TaskRow, row_id p.2) <$> l))%Z) as Hmax.
  { induction l as [|p l IH]; [by intros ?%not_elem_of_nil|].
    intros [<-|Hin]%elem_of_cons; cbn; [lia|]. specialize (IH Hin). lia. }
  specialize (Hmax _ Hrow). lia.
Qed.

Lemma put_projection_row_ids task_id row t :
  (∀ id id' r r', task_rows t !! id = Some r → task_rows t !! id' = Some r' → row_id r = row_id r' → id = id') →
  let t' := put_projection task_id row t in
  ∀ id id' r r', task_rows t' !! id = Some r → task_rows t' !! id' = Some r' → row_id r = row_id r' → id = id'.
Proof.
  intros Hinj t'.
  assert (∀ id r, task_rows t' !! id = Some r →
    task_rows t !! id = None ∧ id = task_id ∧ row_id r = next_row_id t ∨
    ∃ r0, task_rows t !! id = Some r0 ∧ row_id r0 = row_id r) as Hcase.
  { intros id r. unfold t', put_projection. destruct (task_rows t !! task_id) as [old|] eqn:Hold;
      [case_match|]; cbn; [|by eauto|]; intros [[<- <-]|[_ ?]]%lookup_insert_Some; eauto. }
  intros id id' r r' Hr Hr' Heq.
  destruct (Hcase _ _ Hr) as [(_ & -> & Hn)|(r0 & Hr0 & Hi0)], (Hcase _ _ Hr') as [(_ & -> & Hn')|(r0' & Hr0' & Hi0')].
  - done.
  - pose proof (next_row_id_above _ _ _ Hr0'). lia.
  - pose proof (next_row_id_above _ _ _ Hr0). lia.
  - apply (Hinj id id' r0 r0'); [done..|congruence].
Qed.

(** What may happen between two calls: tasks are added and updated, none disappears. *)
Definition rows_persist t t' : Prop :=
  ∀ id row, task_rows t !! id = Some row → shown t id = true →
    shown t' id = true ∧ ∃ row', task_rows t' !! id = Some row' ∧ row_id row' = row_id row.

Lemma page_ids request t resp cursor f n boundary page :
  ListingOK t → Listed request t resp cursor f n boundary page →
  a2a_id <$> resp_tasks resp = (take n (rows_after shown f boundary t)).*1.
Proof.
  intros Htable Hlisted. destruct (listed_page _ _ _ _ _ _ _ _ Hlisted) as [Hrows Hdec _].
  rewrite (listed_tasks _ _ _ _ _ _ _ _ Hlisted), <-Hrows, <-!list_fmap_compose.
  apply list_fmap_ext. intros i [task [id row]] Hi. cbn.
  assert ((id, row) ∈ take n (rows_after shown f boundary t)) as Hin.
  { rewrite <-Hrows. apply list_elem_of_fmap. exists (task, (id, row)). split; [done|]. by eapply list_elem_of_lookup_2. }
  apply elem_of_take in Hin as (j & Hin & _). apply list_elem_of_lookup_2 in Hin.
  apply elem_of_rows_after in Hin as [_ [Hrow _]%elem_of_matching].
  eapply (table_ids t Htable); [exact Hrow|]. rewrite Forall_forall in Hdec.
  apply (Hdec (task, (id, row))). by eapply list_elem_of_lookup_2.
Qed.

Lemma task_of_row_found t row id :
  ListingOK t → task_of_row shown row t = Some id ↔
  ∃ r, task_rows t !! id = Some r ∧ shown t id = true ∧ row_id r = row.
Proof.
  intros Htable. unfold task_of_row. set (l := filter _ _).
  assert (∀ p, p ∈ l ↔ task_rows t !! p.1 = Some p.2 ∧ shown t p.1 = true ∧ row_id p.2 = row) as Hl.
  { intros [i r]. unfold l. rewrite list_elem_of_filter, elem_of_map_to_list, andb_true_iff, Z.eqb_eq. naive_solver. }
  split.
  - destruct l as [|[i r] l']; [done|]. cbn. intros [= ->]. exists r. apply (Hl (id, r)). left.
  - intros (r & Hr & Hs & Hrow). destruct l as [|[i r'] l'].
    + destruct (not_elem_of_nil (id, r)). by apply Hl.
    + cbn. f_equal. destruct (proj1 (Hl (i, r')) ltac:(left)) as (Hr' & _ & Hrow').
      eapply (table_rows t Htable); [exact Hr'|exact Hr|congruence].
Qed.

(** ** Every task once *)

Definition key_after (boundary : option ((string * string) * Z)) (k : string * string) : Prop :=
  match boundary with Some (bound, _) => key_below k bound | None => True end.

#[local] Instance key_after_dec boundary k : Decision (key_after boundary k).
Proof. destruct boundary as [[]|]; apply _. Defined.

(** A boundary of table [t] that a token stands for, as seen from the row [r] of [id]. *)
Definition token_bound (token : option string) t (id : string) (r : TaskRow)
    (boundary : option ((string * string) * Z)) : Prop :=
  match boundary with
  | None => decode_cursor token = Done None
  | Some ((ts, bid), row) =>
      decode_cursor token = Done (Some (MkPageCursor PAGE_CURSOR_VERSION row ts)) ∧
      (∃ rb, task_rows t !! bid = Some rb ∧ shown t bid = true ∧ row_id rb = row) ∧
      (bid = id → page_key (id, r) = (ts, bid))
  end.

Lemma token_bound_cursor token t id r boundary :
  ListingOK t → token_bound token t id r boundary →
  ∃ cursor, decode_cursor token = Done cursor ∧ boundary_of shown cursor t boundary.
Proof.
  intros Hok Hbound. destruct boundary as [[[ts bid] row]|]; cbn in Hbound; [|by exists None].
  destruct Hbound as (Hdec & Hrb & _). eexists. split; [exact Hdec|]. exists bid. split; [|done].
  by apply task_of_row_found.
Qed.

Section stable.
Context (request : ListTasksRequest) (f : TaskFilter) (id : string) (r : TaskRow).
Hypothesis Hfilter : request_filter request = Done f.
Hypothesis Haccepts : filter_accepts f (row_columns r) = true.

(** The table shows the row. *)
Definition steady t : Prop := ListingOK t ∧ task_rows t !! id = Some r ∧ shown t id = true.

Lemma steady_row_after t token boundary :
  steady t → token_bound token t id r boundary →
  (id, r) ∈ rows_after shown f boundary t ↔ key_after boundary (page_key (id, r)).
Proof.
  intros (Hok & Hr & Hs) Hbound. rewrite elem_of_rows_after, elem_of_matching.
  destruct boundary as [[[ts bid] row]|]; [|naive_solver]. cbn [after_cursor key_after].
  rewrite andb_true_iff, bool_decide_eq_true, negb_true_iff, Z.eqb_neq.
  split; [naive_solver|]. intros Hbelow. split_and!; [done| |done..]. cbn. intros Hrow.
  destruct Hbound as (_ & (rb & Hrb & _ & Hrow') & Hkey).
  assert (bid = id) as Hid by (eapply (table_rows t Hok); [exact Hrb|exact Hr|congruence]).
  rewrite Hkey in Hbelow by done. by apply key_below_irrefl in Hbelow.
Qed.

Lemma steady_in_page t boundary n :
  steady t → id ∈ (take n (rows_after shown f boundary t)).*1 ↔ (id, r) ∈ take n (rows_after shown f boundary t).
Proof.
  intros (_ & Hr & _). rewrite list_elem_of_fmap. split; [|by intros; exists (id, r)].
  intros ([i r'] & -> & Hin). pose proof Hin as (j & Hj & _)%elem_of_take. apply list_elem_of_lookup_2 in Hj.
  apply elem_of_rows_after in Hj as [_ [Hr' _]%elem_of_matching]. cbn in *. congruence.
Qed.

(** One call: where the task stands relative to the page. *)
Lemma steady_call token db resp boundary :
  working db = None → steady (committed db) → token_bound token (committed db) id r boundary →
  (list_tasks fault shown (request <| req_page_token := token |>) db).1 = Done resp →
  let rows := rows_after shown f boundary (committed db) in
  ∃ n, occurrences id (a2a_id <$> resp_tasks resp) = (if decide ((id, r) ∈ take n rows) then 1 else 0) ∧
    if (length rows <=? n)%nat then resp_next_page_token resp = ""
    else ∃ p, last (take n rows) = Some p ∧ resp_next_page_token resp ≠ "" ∧
      decode_cursor (Some (resp_next_page_token resp))
      = Done (Some (MkPageCursor PAGE_CURSOR_VERSION (row_id p.2) (page_key p).1)).
Proof.
  intros Hidle Hsteady Hbound Hrun rows.
  destruct (token_bound_cursor _ _ _ _ _ (proj1 Hsteady) Hbound) as (cursor & Hcursor & Hof).
  destruct (listed_call request f token cursor boundary db resp Hidle Hfilter Hcursor Hof Hrun)
    as (n & page & _ & Hlisted). pose proof (listed_page _ _ _ _ _ _ _ _ Hlisted) as Hpage.
  exists n. split.
  - rewrite (page_ids _ _ _ _ _ _ _ _ (proj1 Hsteady) Hlisted), occurrences_NoDup.
    + apply decide_ext. by apply steady_in_page.
    + rewrite fmap_take. eapply sublist_NoDup; [apply rows_after_NoDup|apply sublist_take].
  - destruct Hpage as [_ _ Htoken]. fold rows in Htoken. destruct (length rows <=? n)%nat; [done|].
    destruct Htoken as (p & Hp & Henc). exists p. split; [done|]. by apply encode_decode_cursor.
Qed.

(** A walk that starts above the task shows it once, one that starts below it never. *)
Lemma walk_occurrences dbs : ∀ token responses boundary db0,
  walk request token dbs = Some responses →
  Forall (λ db, working db = None ∧ steady (committed db)) dbs →
  Sorted rows_persist (committed <$> dbs) →
  head dbs = Some db0 → token_bound token (committed db0) id r boundary →
  occurrences id (shown_ids responses) = if decide (key_after boundary (page_key (id, r))) then 1 else 0.
Proof.
  induction dbs as [|db dbs IH]; intros token responses boundary db0 Hwalk Hall Hsorted Hhead Hbound; [done|].
  cbn in Hhead. injection Hhead as <-. apply Forall_cons in Hall as [[Hidle Hsteady] Hall].
  cbn [walk] in Hwalk. destruct (list_tasks fault shown _ db).1 as [resp|e|msg] eqn:Hrun; [|done..].
  destruct (steady_call token db resp boundary Hidle Hsteady Hbound Hrun) as (n & Hocc & Hnext).
  pose proof (steady_row_after (committed db) token boundary Hsteady Hbound) as Hiff.
  pose proof (rows_after_NoDup shown f boundary (committed db)) as Hnd.
  pose proof (rows_after_sorted shown f boundary (committed db)) as Hord.
  set (rows := rows_after shown f boundary (committed db)) in *.
  destruct (Nat.leb_spec (length rows) n) as [Hend|Hmore].
  - rewrite Hnext in Hwalk. cbn in Hwalk. destruct dbs; [|done]. injection Hwalk as <-.
    change (shown_ids [resp]) with ((a2a_id <$> resp_tasks resp) ++ []).
    rewrite app_nil_r, Hocc, take_ge by done. by apply decide_ext.
  - destruct Hnext as (p & Hlast & Htoken & Hdec). apply String.eqb_neq in Htoken. rewrite Htoken in Hwalk.
    apply fmap_Some in Hwalk as (rest & Hrest & ->). 
    change (shown_ids (resp :: rest)) with ((a2a_id <$> resp_tasks resp) ++ shown_ids rest).
    rewrite occurrences_app, Hocc.
    destruct (page_last rows n p Hnd Hord Hlast) as (Hp & Habove & Hbelow).
    assert (p ∈ rows) as Hp' by (apply (elem_of_take_drop rows n); by left).
    apply elem_of_rows_after in Hp' as [Hpb [Hprow [Hpshown _]]%elem_of_matching].
    destruct dbs as [|db1 dbs]; [done|].
    rewrite (IH _ _ (Some (page_key p, row_id p.2)) db1 Hrest Hall); [|by inversion Hsorted|done|].
    + cbn [key_after]. destruct (decide ((id, r) ∈ take n rows)) as [Hin|Hout].
      * rewrite (decide_True (P := key_after _ _)) by (apply Hiff, (elem_of_take_drop rows n); by left).
        rewrite decide_False; [done|]. destruct (Habove _ Hin) as [->|Hkey]; [apply key_below_irrefl|].
        intros Hk. by apply (key_below_irrefl (page_key p)), (key_below_trans _ (page_key (id, r))).
      * destruct (decide (key_after boundary (page_key (id, r)))) as [Hafter|Hnot].
        -- rewrite decide_True; [done|]. apply Hbelow. apply Hiff, (elem_of_take_drop rows n) in Hafter as []; done.
        -- rewrite decide_False; [done|]. intros Hk. apply Hnot.
           destruct boundary as [[bound row]|]; [|done]. cbn in Hpb |- *.
           apply andb_true_iff in Hpb as [Hpb%bool_decide_eq_true _]. by eapply key_below_trans.
    + cbn. split; [done|]. inversion_clear Hsorted as [|?? _ Hpersist]. inversion_clear Hpersist as [|?? Hkeep].
      destruct (Hkeep _ _ Hprow Hpshown) as (Hs1 & row' & Hrow' & Hid'). split; [by exists row'|].
      intros Hid. destruct Hsteady as (_ & Hr & _). destruct p as [i r']. cbn in *. subst i.
      rewrite Hr in Hprow. by injection Hprow as ->.
Qed.
End stable.

(** A task that does not change while a client walks through the pages is shown
    exactly once, although other tasks are added and updated between the calls, as
    long as no task disappears. *)
Theorem unchanged_tasks_are_listed_once request f id r dbs responses :
  request_filter request = Done f → filter_accepts f (row_columns r) = true →
  Forall (λ db, working db = None ∧ steady id r (committed db)) dbs →
  Sorted rows_persist (committed <$> dbs) →
  walk request None dbs = Some responses →
  occurrences id (shown_ids responses) = 1.
Proof.
  intros Hf Haccepts Hall Hsorted Hwalk. destruct dbs as [|db dbs]; [done|].
  rewrite (walk_occurrences request f id r Hf Haccepts (db :: dbs) None responses None db); done.
Qed.

(** ** A table that does not change *)

(** The boundary is the position of a row of the table. *)
Definition anchored t (boundary : option ((string * string) * Z)) : Prop :=
  match boundary with
  | Some (bound, row) => ∃ p, task_rows t !! p.1 = Some p.2 ∧ bound = page_key p ∧ row = row_id p.2
  | None => True
  end.

Lemma row_id_inj t p q :
  ListingOK t → task_rows t !! p.1 = Some p.2 → task_rows t !! q.1 = Some q.2 →
  row_id p.2 = row_id q.2 → p = q.
Proof.
  intros Hok Hp Hq Hrow. pose proof (table_rows t Hok _ _ _ _ Hp Hq Hrow) as Hid.
  destruct p, q. cbn in *. congruence.
Qed.

(** The rows after the last row of a page are those that were not on it. *)
Lemma rows_after_next t f boundary n p :
  ListingOK t → anchored t boundary →
  last (take n (rows_after shown f boundary t)) = Some p →
  rows_after shown f (Some (page_key p, row_id p.2)) t = drop n (rows_after shown f boundary t).
Proof.
  intros Hok Hanchor Hlast. set (rows := rows_after shown f boundary t) in *.
  pose proof (rows_after_NoDup shown f boundary t) as Hnd.
  pose proof (rows_after_sorted shown f boundary t) as Hord. fold rows in Hnd, Hord.
  destruct (page_last rows n p Hnd Hord Hlast) as (Hp & Habove & Hbelow).
  assert (∀ q, q ∈ rows → after_cursor boundary q = true ∧ q ∈ matching shown f t) as Hrows
    by (intros q; apply elem_of_rows_after).
  assert (p ∈ rows) as Hp' by (apply (elem_of_take_drop rows n); by left).
  destruct (Hrows p Hp') as [Hpb [Hprow _]%elem_of_matching].
  apply listing_unique; [apply rows_after_NoDup|apply rows_after_sorted| |].
  { rewrite <-(take_drop n rows) in Hord. by apply StronglySorted_app_1_r in Hord. }
  apply NoDup_Permutation.
  - eapply NoDup_fmap_1, rows_after_NoDup.
  - eapply sublist_NoDup; [by eapply NoDup_fmap_1|apply sublist_drop].
  - intros q. rewrite elem_of_rows_after. cbn [after_cursor].
    rewrite andb_true_iff, bool_decide_eq_true, negb_true_iff, Z.eqb_neq. split.
    + intros [[Hq Hrow] Hmatch]. assert (q ∈ rows) as [Hin|]%(elem_of_take_drop rows n); [| |done].
      * apply elem_of_rows_after. split; [|done]. destruct boundary as [[bound row]|]; [|done].
        cbn in Hpb |- *. apply andb_true_iff in Hpb as [Hpb%bool_decide_eq_true _].
        rewrite bool_decide_eq_true_2 by (by eapply key_below_trans). cbn. apply negb_true_iff, Z.eqb_neq.
        intros Hqrow. destruct Hanchor as (c & Hc & -> & ->). apply elem_of_matching in Hmatch as [Hqrow' _].
        rewrite <-(row_id_inj t q c Hok Hqrow' Hc Hqrow) in Hpb.
        apply (key_below_irrefl (page_key p)). by eapply key_below_trans.
      * exfalso. destruct (Habove q Hin) as [->|Hqp]; [by apply key_below_irrefl in Hq|].
        apply (key_below_irrefl (page_key q)). by eapply key_below_trans.
    + intros Hq. assert (q ∈ rows) as Hqrows by (apply (elem_of_take_drop rows n); by right).
      destruct (Hrows q Hqrows) as [_ Hmatch]. split; [split; [by apply Hbelow|]|done].
      intros Hrow. apply elem_of_matching in Hmatch as [Hqrow _].
      apply (key_below_irrefl (page_key p)). rewrite <-(row_id_inj t q p Hok Hqrow Hprow Hrow) at 1. by apply Hbelow.
Qed.

(** ** Progress *)

(** The rows can be listed: their timestamps are normalised and short, their rowids
    are those of SQLite, their texts decode. *)
Definition listable t : Prop :=
  ∀ id row, task_rows t !! id = Some row →
    (0 < row_id row ≤ i64_max)%Z ∧ valid_timestamp (pr_status_timestamp (row_columns row)) = true ∧
    length (as_bytes (pr_status_timestamp (row_columns row))) ≤ 64 ∧
    is_Some (task_from_str (pr_task_json (row_columns row))).

(** The text of a cursor with a short timestamp fits into a token. *)
Definition cursors_fit : Prop :=
  ∀ row ts, (0 < row ≤ i64_max)%Z → length (as_bytes ts) ≤ 64 →
    ∃ text, cursor_to_json (MkPageCursor PAGE_CURSOR_VERSION row ts) = Some text ∧
      length (as_bytes text) ≤ MAX_PAGE_TOKEN_BYTES.

Section progress.
Hypothesis quiet : ∀ n, fault n = None.
Hypothesis fit : cursors_fit.

Lemma encode_cursor_total t p :
  listable t → task_rows t !! p.1 = Some p.2 →
  ∃ token, encode_cursor (row_id p.2) (pr_status_timestamp (row_columns p.2)) = Done token.
Proof.
  intros Hlist Hp. destruct (Hlist _ _ Hp) as (Hrow & Hvalid & Hlen & _).
  destruct (fit _ _ Hrow Hlen) as (text & Htext & Hfits). exists text. unfold encode_cursor.
  assert (valid_cursor (MkPageCursor PAGE_CURSOR_VERSION (row_id p.2) (pr_status_timestamp (row_columns p.2))) = true) as ->.
  { unfold valid_cursor. cbn. by rewrite Hvalid, (proj2 (Z.ltb_lt 0 (row_id p.2))) by lia. }
  cbn [reject_if negb out_bind]. rewrite Htext. cbn [ok_or out_bind]. by rewrite (proj2 (Nat.ltb_ge _ _)).
Qed.

Lemma list_closure_total t f page_size cursor boundary db :
  (1 ≤ page_size)%Z → listable t → Z.le (Z.of_nat (length (matching shown f t))) i32_max →
  boundary_of shown cursor t boundary → Sqlite.ready t None db →
  wp (list_closure fault shown f page_size cursor) (λ _ _, True) (λ _ _, False) db.
Proof.
  intros Hsize Hlist Htotal Hbound Hdb. unfold list_closure. wp_step.
  eapply (wp_mono _ (λ b db', b = boundary ∧ Sqlite.ready t None db') _ (λ _ _, False)); [| |done].
  { destruct cursor as [c|]; [|by apply wp_ret]. destruct Hbound as (id & Hid & ->). wp_step.
    eapply wp_query_quiet; [done|exact Hdb|]. intros db1 Hdb1. wp_step.
    eapply wp_found; [exact Hid|]. by apply wp_ret. }
  intros b db1 [-> Hdb1]. wp_step. eapply wp_query_quiet; [done|exact Hdb1|]. intros db2 Hdb2. wp_step.
  apply wp_accept; [by apply Z.ltb_ge|]. wp_step. eapply wp_sql_quiet; [done|exact Hdb2|]. intros db3 Hdb3. wp_step.
  eapply wp_query_quiet; [done|exact Hdb3|]. intros db4 Hdb4. change (default t None) with t.
  set (rows := rows_after shown f boundary t). set (n := Z.to_nat page_size).
  assert (∀ p, p ∈ rows → task_rows t !! p.1 = Some p.2) as Hrow
    by (intros p [_ [? _]%elem_of_matching]%elem_of_rows_after; done).
  assert (∀ p, p ∈ take (n + 1) rows → p ∈ rows) as Hsub
    by (intros p Hp; apply (elem_of_take_drop rows (n + 1)); by left).
  destruct (try_map_total (λ p, let? task := decode_task (pr_task_json (row_columns p.2)) in
    Done (E := A2AError) (task, p)) (take (n + 1) rows)) as [tasks Htasks].
  { intros p Hp. destruct (Hlist _ _ (Hrow p (Hsub p Hp))) as (_ & _ & _ & task & Htask).
    exists (task, p). unfold decode_task. by rewrite Htask. }
  wp_step. rewrite Htasks. apply wp_lift. wp_step. apply decode_page_spec in Htasks as [Htasks _].
  apply wp_lift. destruct (Nat.ltb_spec n (length tasks)) as [Hmore|]; [|by apply wp_ret].
  destruct (last (take n tasks)) as [[task p]|] eqn:Hlast.
  - cbn [expect out_bind]. destruct (encode_cursor_total t p Hlist) as [token ->]; [|by apply wp_ret].
    apply Hrow, Hsub. rewrite <-Htasks. apply list_elem_of_fmap. exists (task, p). split; [done|].
    apply (elem_of_take_drop tasks n). left. apply last_Some_elem_of. done.
  - apply last_None in Hlast. assert (length (take n tasks) = 0) as Hz by (by rewrite Hlast).
    rewrite length_take in Hz. lia.
Qed.

(** A database that answers, and a request that it accepts. *)
Record Serves request f size db : Prop := {
  serves_idle : working db = None;
  serves_lock : poisoned db = false;
  serves_table : ListingOK (committed db);
  serves_rows : listable (committed db);
  serves_filter : request_filter request = Done f;
  serves_size : request_page_size request = Done size;
  serves_total : Z.le (Z.of_nat (length (matching shown f (committed db)))) i32_max;
}.

Lemma list_tasks_total request f size db token cursor boundary :
  Serves request f size db → decode_cursor token = Done cursor →
  boundary_of shown cursor (committed db) boundary →
  ∃ resp, (list_tasks fault shown (request <| req_page_token := token |>) db).1 = Done resp.
Proof.
  intros [Hidle Hlock _ Hrows Hf Hsize Htotal] Hcursor Hbound.
  assert (wp (list_tasks fault shown (request <| req_page_token := token |>)) (λ _ _, True) (λ _ _, False) db)
    as (resp & db' & Hrun & _)%wp_total.
  { unfold list_tasks. wp_step. 
    change (req_page_token (request <| req_page_token := token |>)) with token. rewrite Hcursor. apply wp_lift. wp_step.
    change (request_filter (request <| req_page_token := token |>)) with (request_filter request).
    rewrite Hf. apply wp_lift. wp_step.
    change (request_page_size (request <| req_page_token := token |>)) with (request_page_size request).
    rewrite Hsize. apply wp_lift. wp_step. destruct (page_size_bounds _ _ Hsize).
    eapply (wp_spawn_quiet (committed db) None); [done|].
    eapply wp_mono; [by apply (list_closure_total (committed db) f size cursor boundary)| |done].
    intros [[page next] total] db' _. by apply wp_ret. }
  exists resp. by rewrite Hrun.
Qed.

(** The number of pages of [n] entries that a list of [len] entries needs; an empty
    list is one empty page. *)
Definition page_count (n len : nat) : nat := Nat.max 1 ((len + n - 1) / n).

Lemma page_count_last n len : 1 ≤ n → len ≤ n → page_count n len = 1.
Proof.
  intros Hn Hlen. unfold page_count. assert ((len + n - 1) / n < 2) by (apply Nat.Div0.div_lt_upper_bound; lia). lia.
Qed.

Lemma page_count_more n len : 1 ≤ n → n < len → page_count n len = S (page_count n (len - n)).
Proof.
  intros Hn Hlen. unfold page_count.
  replace (len + n - 1) with (1 * n + (len - n + n - 1)) by lia. rewrite Nat.div_add_l by lia.
  assert (1 ≤ (len - n + n - 1) / n) by (apply Nat.div_le_lower_bound; lia). lia.
Qed.

(** The pages of a listing: as many as needed, all but the last one full, each with
    the number of all the matching rows. *)
Record paged (n total : nat) (ids : list string) (responses : list ListTasksResponse) : Prop := {
  paged_count : length responses = page_count n (length ids);
  paged_page : ∀ i resp, responses !! i = Some resp →
    a2a_id <$> resp_tasks resp = take n (drop (i * n) ids) ∧ resp_total_size resp = Z.of_nat total;
}.

Lemma paged_cons n total ids resp rest :
  1 ≤ n → n < length ids → a2a_id <$> resp_tasks resp = take n ids → resp_total_size resp = Z.of_nat total →
  paged n total (drop n ids) rest → paged n total ids (resp :: rest).
Proof.
  intros Hn Hmore Hids Htotal [Hcount Hpage]. split.
  - simpl. rewrite Hcount, length_drop. symmetry. by apply page_count_more.
  - intros [|i] r; simpl; [by intros [= <-]|]. intros [Hi Ht]%Hpage. by rewrite drop_drop in Hi.
Qed.

(** From a boundary on, the walk shows the rows that are left. *)
Lemma walk_static request f size db :
  Serves request f size db →
  ∀ k token boundary cursor, length (rows_after shown f boundary (committed db)) ≤ k →
  anchored (committed db) boundary →
  decode_cursor token = Done cursor → boundary_of shown cursor (committed db) boundary →
  ∃ responses, walk request token (replicate (length responses) db) = Some responses ∧
    paged (Z.to_nat size) (length (matching shown f (committed db)))
      (rows_after shown f boundary (committed db)).*1 responses ∧
    shown_ids responses = (rows_after shown f boundary (committed db)).*1.
Proof.
  intros Hserves k. pose proof Hserves as [Hidle _ Htable _ Hf Hsize _].
  induction k as [k IH] using lt_wf_ind. intros token boundary cursor Hlen Hanchor Hcursor Hbound.
  set (t := committed db) in *. set (rows := rows_after shown f boundary t) in *.
  destruct (list_tasks_total request f size db token cursor boundary Hserves Hcursor Hbound) as [resp Hrun].
  destruct (listed_call request f token cursor boundary db resp Hidle Hf Hcursor Hbound Hrun)
    as (n & page & Hn & Hlisted). fold t in Hlisted.
  pose proof (listed_size _ _ _ _ _ _ _ _ Hlisted) as Hpn.
  change (request_page_size request = Done (Z.of_nat n)) in Hpn. rewrite Hsize in Hpn. injection Hpn as ->.
  rewrite Nat2Z.id in *. pose proof (listed_total _ _ _ _ _ _ _ _ Hlisted) as Htotal.
  pose proof (page_ids _ _ _ _ _ _ _ _ Htable Hlisted) as Hids. fold rows in Hids.
  pose proof (page_token _ _ _ _ _ _ _ (listed_page _ _ _ _ _ _ _ _ Hlisted)) as Htoken. fold rows in Htoken.
  destruct (Nat.leb_spec (length rows) n) as [Hend|Hmore].
  - exists [resp]. cbn [walk replicate length]. rewrite Hrun, Htoken. cbn [String.eqb].
    rewrite take_ge in Hids by done. split_and!; [done| |].
    + split; [by rewrite page_count_last by (by rewrite ?length_fmap)|].
      intros [|[|i]] r; [|done..]. intros [= <-]. cbn [Nat.mul]. by rewrite drop_0, take_ge by (by rewrite length_fmap).
    + change (shown_ids [resp]) with ((a2a_id <$> resp_tasks resp) ++ []). by rewrite app_nil_r, Hids.
  - destruct Htoken as (p & Hlast & Henc). destruct (encode_decode_cursor _ _ _ Henc) as [Hne Hdec].
    assert (p ∈ rows) as Hp by (apply (elem_of_take_drop rows n); left; by apply last_Some_elem_of).
    apply elem_of_rows_after in Hp as [_ (Hprow & Hpshown & _)%elem_of_matching].
    pose proof (rows_after_next t f boundary n p Htable Hanchor Hlast) as Hnext. fold rows in Hnext.
    destruct (IH (length (drop n rows)) ltac:(rewrite length_drop; lia) (Some (resp_next_page_token resp))
      (Some (page_key p, row_id p.2)) _ ltac:(by rewrite Hnext) ltac:(by exists p) Hdec)
      as (rest & Hrest & Hcount & Hshown).
    { exists p.1. split; [|done]. apply task_of_row_found; [done|]. by exists p.2. }
    exists (resp :: rest). cbn [walk replicate length]. rewrite Hrun.
    apply String.eqb_neq in Hne as ->. rewrite Hrest. split_and!; [done| |].
    { apply paged_cons; [done|by rewrite length_fmap|by rewrite <-fmap_take|done|]. by rewrite Hnext, fmap_drop in Hcount. }
    change (shown_ids (resp :: rest)) with ((a2a_id <$> resp_tasks resp) ++ shown_ids rest).
    by rewrite Hshown, Hids, Hnext, <-fmap_app, take_drop.
Qed.

(** C36: Walking through the pages of a database that does not change and whose
    statements do not fail ends, after as many calls as the matching tasks need at the
    page size of the request (one call when there is none): page [i] holds the tasks
    [i * n] to [i * n + n - 1] of the matching ones, the newest first, so that every
    matching task is shown once, and each page says how many there are.  The cursor
    of a row with a short timestamp is taken to fit into a page token. *)
Theorem paging_lists_everything request f size db :
  Serves request f size db →
  ∃ responses, walk request None (replicate (length responses) db) = Some responses ∧
    paged (Z.to_nat size) (length (matching shown f (committed db)))
      (merge_sort listing_order (matching shown f (committed db))).*1 responses ∧
    shown_ids responses = (merge_sort listing_order (matching shown f (committed db))).*1.
Proof.
  intros Hserves.
  assert (rows_after shown f None (committed db) = merge_sort listing_order (matching shown f (committed db))) as Hall.
  { unfold rows_after. f_equal. 
    induction (matching shown f (committed db)) as [|p l IH]; [done|]. by rewrite filter_cons_True, IH. }
  destruct (walk_static request f size db Hserves (length (matching shown f (committed db))) None None None)
    as (responses & Hwalk & Hlen & Hids); [by rewrite Hall, merge_sort_Permutation|done..|].
  exists responses. by rewrite <-Hall.
Qed.
End progress.
End listing.

(** ** Three tasks, one of which is updated between two pages *)

Module ListingSample.
Import LedgerSample Scenario.
#[local] Existing Instances sqlite plain_uuid.

(** Timestamps are their texts, a task's text is its identifier. *)
#[local] Instance text_time : Chrono := {|
  DateTime := string;
  timestamp_millis_opt _ := None;
  parse_from_rfc3339 text := Some text;
  timestamp_millis _ := 0%Z;
  sortable_timestamp text := text;
|}.

#[local] Instance id_texts : LedgerSerde := {|
  payload_to_json _ := None;
  payload_from_str _ := None;
  reply_to_json _ := None;
  reply_from_str _ := None;
  task_to_json task := Some (a2a_id task);
  task_from_str text := Some (MkA2ATask text "context" (MkTaskStatus TaskSubmitted None None) None None None);
  task_state_name _ := Some "state";
|}.

(** A cursor as the eight bytes of its rowid and its timestamp. *)
Fixpoint low_bytes (n : nat) (z : Z) : list Z :=
  match n with 0 => [] | S n => (z mod 256)%Z :: low_bytes n (z / 256) end.
Definition of_low_bytes (bs : list Z) : Z := foldr (λ b z, b + 256 * z)%Z 0%Z bs.

Lemma of_low_bytes_id n z : (0 ≤ z < 256 ^ Z.of_nat n)%Z → of_low_bytes (low_bytes n z) = z.
Proof.
  revert z. induction n as [|n IH]; intros z Hz; [cbn in *; lia|].
  cbn [low_bytes of_low_bytes foldr]. fold (of_low_bytes (low_bytes n (z / 256))). rewrite IH.
  - pose proof (Z.div_mod z 256). lia.
  - rewrite Nat2Z.inj_succ, Z.pow_succ_r in Hz by lia. split; [apply Z.div_pos; lia|].
    apply Z.div_lt_upper_bound; lia.
Qed.

Lemma low_bytes_range n z : Forall (λ b, (0 ≤ b < 256)%Z) (low_bytes n z).
Proof. revert z. induction n; intros z; constructor; [apply Z.mod_pos_bound; lia|done]. Qed.

Lemma length_low_bytes n z : length (low_bytes n z) = n.
Proof. revert z. induction n; intros z; cbn; [done|by f_equal]. Qed.

#[local] Instance byte_cursors : CursorSerde := {|
  cursor_to_json c :=
    if bool_decide (cursor_version c = PAGE_CURSOR_VERSION ∧ 0 ≤ cursor_row_id c ≤ i64_max)%Z
    then Some (string_of_bytes (low_bytes 8 (cursor_row_id c)) +:+ cursor_status_timestamp c) else None;
  cursor_from_str text :=
    if (length (as_bytes text) <? 8)%nat then None
    else Some (MkPageCursor PAGE_CURSOR_VERSION (of_low_bytes (take 8 (as_bytes text)))
                 (string_of_bytes (drop 8 (as_bytes text))));
|}.

Lemma byte_cursor_text z ts :
  as_bytes (string_of_bytes (low_bytes 8 z) +:+ ts) = low_bytes 8 z ++ as_bytes ts.
Proof. rewrite as_bytes_app. f_equal. apply as_bytes_string_of_bytes, low_bytes_range. Qed.

#[local] Instance byte_cursors_spec : CursorSerdeSpec.
Proof.
  split; [|done]. intros [v row ts] text. unfold cursor_to_json, cursor_from_str, byte_cursors.
  cbn [cursor_version cursor_row_id cursor_status_timestamp]. case_bool_decide as Hc; [|done]. intros <-%(inj Some).
  destruct Hc as [-> Hrow]. rewrite byte_cursor_text, length_app, length_low_bytes.
  rewrite (proj2 (Nat.ltb_ge _ _)) by lia.
  rewrite take_app_length' by (by rewrite length_low_bytes). rewrite drop_app_length' by (by rewrite length_low_bytes).
  rewrite of_low_bytes_id by (unfold i64_max in Hrow; cbn; lia). repeat f_equal.
  apply as_bytes_inj. apply as_bytes_string_of_bytes, as_bytes_range.
Qed.

Lemma byte_cursors_fit : cursors_fit.
Proof.
  intros row ts Hrow Hlen. eexists. unfold cursor_to_json, byte_cursors.
  cbn [cursor_version cursor_row_id cursor_status_timestamp]. rewrite bool_decide_eq_true_2 by (split; [done|lia]).
  split; [done|]. rewrite byte_cursor_text, length_app, length_low_bytes. unfold MAX_PAGE_TOKEN_BYTES. lia.
Qed.

Definition task_row (id ts : string) (row : Z) : TaskRow :=
  MkTaskRow row (MkProjectionRow "context" "state" ts 1 id).
Definition tables (rows : gmap string TaskRow) : Tables := MkTables 1 ∅ None ∅ rows ∅.
Definition before : Tables :=
  tables {[ "t1" := task_row "t1" "10" 1; "t2" := task_row "t2" "20" 2; "t3" := task_row "t3" "30" 3 ]}.
Definition after : Tables :=
  tables {[ "t1" := task_row "t1" "40" 1; "t2" := task_row "t2" "20" 2; "t3" := task_row "t3" "30" 3 ]}.
Definition database (t : Tables) : Conn Tables := MkConn t None 0 false.
Definition one_by_one : ListTasksRequest := MkListRequest None None (Some 1%Z) None None None None.
Definition everything : TaskFilter := MkFilter None None None.

Example pages_before :
  shown_ids <$> walk no_fault (λ _ _, true) one_by_one None (replicate 3 (database before))
  = Some ["t3"; "t2"; "t1"].
Proof. by vm_compute. Qed.

Example pages_between :
  shown_ids <$> walk no_fault (λ _ _, true) one_by_one None [database before; database after]
  = Some ["t3"; "t2"].
Proof. by vm_compute. Qed.

(** The rows of a concrete table. *)
Ltac row_cases H :=
  cbn [task_rows tables before after committed database] in H;
  repeat apply lookup_insert_Some in H as [[<- <-]|[_ H]];
  try apply lookup_singleton_Some in H as [<- <-].

Lemma tables_ok t :
  (∀ id row, task_rows t !! id = Some row →
     pr_task_json (row_columns row) = id ∧ id = "t" +:+ u64_to_string (row_id row)) → ListingOK t.
Proof.
  intros Hall. split.
  - intros id row task Hrow [= <-]. by destruct (Hall id row Hrow).
  - intros id id' row row' Hrow Hrow' Heq. destruct (Hall _ _ Hrow) as (_ & ->).
    destruct (Hall _ _ Hrow') as (_ & ->). by rewrite Heq.
Qed.

Lemma before_ok : ListingOK before.
Proof. apply tables_ok. intros id row Hrow. row_cases Hrow; by vm_compute. Qed.

Lemma after_ok : ListingOK after.
Proof. apply tables_ok. intros id row Hrow. row_cases Hrow; by vm_compute. Qed.

(** Witness: the task in the middle is shown once, although another one is updated
    between the pages. *)
Lemma unchanged_tasks_are_listed_once_witness : occurrences "t2" ["t3"; "t2"] = 1.
Proof.
  destruct (walk no_fault (λ _ _, true) one_by_one None [database before; database after])
    as [responses|] eqn:Hwalk; [|exfalso; by vm_compute in Hwalk].
  assert (shown_ids responses = ["t3"; "t2"]) as <-.
  { pose proof pages_between as Hp. rewrite Hwalk in Hp. by injection Hp. }
  apply (unchanged_tasks_are_listed_once no_fault (λ _ _, true) one_by_one everything "t2" (task_row "t2" "20" 2)
    [database before; database after] responses eq_refl eq_refl); [| |exact Hwalk].
  - apply Forall_cons; split; [|apply Forall_singleton]; (split; [reflexivity|split; [|split; reflexivity]]);
      [apply before_ok|apply after_ok].
  - constructor; [repeat constructor|]. constructor.
    intros id row Hrow _. clear Hwalk. row_cases Hrow; (split; [reflexivity|]);
      [exists (task_row "t1" "40" 1)|exists (task_row "t2" "20" 2)|exists (task_row "t3" "30" 3)];
      split; reflexivity.
Defined.

(** Witness: three pages of one task each. *)
Lemma paging_lists_everything_witness :
  ∃ responses, walk no_fault (λ _ _, true) one_by_one None (replicate (length responses) (database before)) = Some responses
    ∧ length responses = 3 ∧ shown_ids responses = ["t3"; "t2"; "t1"].
Proof.
  destruct (paging_lists_everything no_fault (λ _ _, true) (λ _, eq_refl) byte_cursors_fit one_by_one everything 1
    (database before)) as (responses & Hwalk & Hlen & Hids).
  - split; [done|done|apply before_ok| |done|done|by vm_compute].
    intros id row Hrow. row_cases Hrow; (split; [by vm_compute|]); (split; [by vm_compute|]);
      (split; [vm_compute; lia|by eexists]).
  - exists responses. split; [exact Hwalk|]. split; [|rewrite Hids; by vm_compute].
    rewrite (paged_count _ _ _ _ Hlen). by vm_compute.
Defined.
End ListingSample.
