(* ===== verification/A2aFront.v ===== *)
(** * The A2A front end

    [herdr-a2a-broker/src/a2a.rs]: the request handler that authenticates the sender,
    checks the message, starts or resumes the task in the broker and hands the SDK an
    admission for its execution; and the executor that the SDK calls back.

    The handler of the SDK ([DefaultRequestHandler]) and the functions of the [a2a]
    crate are parameters.  The broker and the task store share the database: the store
    is the one inside the [World], reached through the interface [FrontStore].
    A [HashMap] of metadata is the list of its entries; collecting it into a JSON
    object sorts them by key. *)
From stdpp Require Import prelude gmap strings sorting.
From S2P Require Import Prelude RustStd Model Validation Durability BrokerState BrokerDurable BrokerMaintain BrokerOps.
From S2P Require Import LedgerCodec Ledger SdkStore TaskListing.

Definition REGISTRATION_HEADER : string := "x-herdr-a2a-registration".
Definition REGISTRATION_EPOCH_HEADER : string := "x-herdr-a2a-registration-epoch".
Definition EXPLICIT_EMPTY_TASK_ID_HEADER : string := "x-herdr-a2a-explicit-empty-task-id".
Definition EXPLICIT_EMPTY_CONTEXT_ID_HEADER : string := "x-herdr-a2a-explicit-empty-context-id".
Definition EXECUTION_ADMISSION_HEADER : string := "x-herdr-a2a-internal-execution-admission".
Definition UNSUPPORTED_FILE_REFERENCES_MESSAGE : string :=
  "Herdr file references are not supported in this milestone".
Definition REGISTRATION_AUTH_LOST_TYPE_URL : string :=
  "type.herdr.dev/herdr.a2a.RegistrationAuthLost".

Definition ServiceParams : Type := gmap string (list string).

Definition domain_error (error : DomainError) : A2AError :=
  match error with
  | TaskNotFound => A2A_task_not_found "unknown"
  | TaskAlreadyCompleted | TaskCanceled | TaskExpired => A2A_task_not_cancelable "task"
  | AgentNotRegistered | InvalidAgentName | InvalidRegistrationId | InvalidTaskId
  | SenderMismatch | RegistrationNotFound | RegistrationExpired | TaskNotOwned =>
      A2A_invalid_params (DomainError_display error)
  | DuplicateTask => A2A_invalid_params "task idempotency conflict"
  | _ => A2A_invalid_request (DomainError_display error)
  end.

Definition registration_auth_lost (message : string) : A2AError :=
  A2A_with_details (A2A_invalid_request message) [REGISTRATION_AUTH_LOST_TYPE_URL].

Section requests.
Context `{JsonNumber}.

Record SendConfiguration := MkSendConfiguration {
  accepted_output_modes : option (list string);
  task_push_notification_config : option Value;
  configured_history_length : option Z;
  return_immediately : option bool;
}.

Record SendMessageRequest := MkSendRequest {
  send_message : Message;
  send_configuration : option SendConfiguration;
  send_metadata : option (list (string * Value));
  send_tenant : option string;
}.

#[global] Instance SendMessageRequest_fields : Fields SendMessageRequest := λ r,
  MkSendRequest (send_message r) (send_configuration r) (send_metadata r) (send_tenant r).

#[global] Instance Message_fields : Fields Message := λ m,
  MkMessage (message_id m) (message_context_id m) (message_task_id m) (message_role m)
    (message_parts m) (message_metadata m) (message_extensions m) (message_reference_task_ids m).

(** What the handler uses of the [a2a] crate. *)
Class A2ALib := {
  message_text : Message → option string;
  method_send_message : string;
  method_send_streaming_message : string;
  task_state_is_terminal : TaskState → bool;
}.

(** [HashMap::get] and [Value::as_object], [Value::as_str]. *)
Definition entry (key : string) (map : list (string * Value)) : option Value :=
  snd <$> head (filter (λ p, p.1 = key) map).
Definition as_object (value : Value) : option (list (string * Value)) :=
  match value with VObject map => Some map | _ => None end.
Definition as_str (value : Value) : option string :=
  match value with VString s => Some s | _ => None end.

(** [value.get(key)] *)
Definition value_get (key : string) (value : Value) : option Value :=
  and_then (as_object value) (entry key).

(** [Value::Object(metadata.into_iter().collect())] *)
Definition object_of (metadata : option (list (string * Value))) : Value :=
  VObject (merge_sort key_le (default [] metadata)).

(** ** Explicitly empty identifiers *)

Definition has_explicit_empty_message_field {lib : A2ALib} (request : option Value) (fields : list string) : bool :=
  match request with
  | None => false
  | Some request =>
      match and_then (value_get "method" request) as_str with
      | Some m =>
          if String.eqb m method_send_message || String.eqb m method_send_streaming_message then
            match and_then (and_then (value_get "params" request) (value_get "message")) as_object with
            | Some message =>
                existsb (λ field, bool_decide (and_then (entry field message) as_str = Some "")) fields
            | None => false
            end
          else false
      | None => false
      end
  end.

(** ** The checks of a message *)

Definition reserved_file_references (metadata : option (list (string * Value))) : bool :=
  match and_then (and_then metadata (entry "herdr")) as_object with
  | Some herdr =>
      existsb (λ field, is_some (entry field herdr))
        ["file_refs"; "fileRefs"; "file_references"; "fileReferences"]
  | None => false
  end.

Definition validate_part (part : Part) : Outcome A2AError () :=
  let? _ := reject_if (match part_content part with PartText _ => false | _ => true end)
              A2A_content_type_not_supported in
  let? _ := reject_if (is_some (part_filename part) || is_some (part_media_type part))
              (A2A_invalid_params UNSUPPORTED_FILE_REFERENCES_MESSAGE) in
  reject_if (is_some (part_metadata part))
    (A2A_invalid_params "A2A part metadata is not supported in this milestone").

Definition validate_message_parts (message : Message) : Outcome A2AError () :=
  let? _ := try_map validate_part (message_parts message) in
  reject_if (negb (length (message_parts message) =? 1)%nat)
    (A2A_invalid_params "A2A messages must contain exactly one text part").

Context {serde : SerdeJson} (canonicalize : PathBuf → option PathBuf).

Definition validate_metadata_channel (metadata : option (list (string * Value)))
    (workspace : PathBuf) : Outcome A2AError () :=
  let? _ := map_error domain_error
    (validate_payload canonicalize (MkMessagePayload "" (object_of metadata) []) workspace) in
  Done tt.

(** The part of [preflight_send] after the authentication. *)
Definition check_send {lib : A2ALib} (params : ServiceParams) (request : SendMessageRequest)
    (workspace : PathBuf) : Outcome A2AError (AgentName * ValidatedPayload) :=
  let message := send_message request in
  let? _ := reject_if (is_some (params !! EXPLICIT_EMPTY_TASK_ID_HEADER))
              (domain_error InvalidTaskId) in
  let? _ := match message_task_id message with
    | Some task_id => map_error domain_error (validate_task_id task_id)
    | None => Done tt
    end in
  let? _ := reject_if (is_some (params !! EXPLICIT_EMPTY_CONTEXT_ID_HEADER))
              (A2A_invalid_params "invalid context ID") in
  let? _ := match message_context_id message with
    | Some context_id => map_err (A2A_invalid_params "invalid context ID") (validate_task_id context_id)
    | None => Done tt
    end in
  let? _ := reject_if
              (is_some (and_then (send_configuration request) task_push_notification_config))
              A2A_push_notification_not_supported in
  let? tenant := ok_or (send_tenant request) (A2A_invalid_params "recipient tenant is required") in
  let? recipient := map_err (A2A_invalid_params "recipient tenant is invalid") (AgentName_parse tenant) in
  let? _ := match and_then (and_then (send_metadata request) (entry "herdr"))
                    (value_get "recipient") with
    | Some claim =>
        let? claim := ok_or (as_str claim)
                        (A2A_invalid_params "Herdr recipient claim must be a string") in
        reject_if (negb (String.eqb claim (agent_str recipient)))
          (A2A_invalid_params "Herdr recipient claim does not match tenant")
    | None => Done tt
    end in
  let? _ := reject_if (reserved_file_references (send_metadata request)
                       || reserved_file_references (message_metadata message))
              (A2A_invalid_params UNSUPPORTED_FILE_REFERENCES_MESSAGE) in
  let? _ := validate_message_parts message in
  let? _ := validate_metadata_channel (send_metadata request) workspace in
  let? text := ok_or (message_text message) A2A_content_type_not_supported in
  let? payload := map_error domain_error
    (validate_payload canonicalize
       (MkMessagePayload text (object_of (message_metadata message)) []) workspace) in
  Done (recipient, payload).
End requests.

(** ** The store behind the handler *)

(** What the handler and the executor use of the task store. *)
Class FrontStore `{JsonNumber} {chrono : Chrono} (P : Type) := {
  front_task_principal : string → ST P A2AError (option TaskPrincipal);
  front_get : string → ST P A2AError (option A2ATask);
  front_authorize : A2ATask → ST P A2AError ();
  front_list_owned : AgentName → ListTasksRequest → ST P A2AError ListTasksResponse;
}.

Section handler.
Context `{JsonNumber} {serde : SerdeJson} {chrono : Chrono} {uuid : UuidLib} {lib : A2ALib}.
Context {P : Type} {persistence : BrokerPersistence P} {store : FrontStore P}.
Context (canonicalize : PathBuf → option PathBuf).

Abbreviation M := (ST (World P) A2AError).

Definition in_store {A} (m : ST P A2AError A) : M A :=
  zoom w_store (λ p w, w <| w_store := p |>) m.

Definition in_broker {A} (m : ST (World P) DomainError A) : M A := st_map_err domain_error m.

(** Exactly one value of a header. *)
Definition single_header (params : ServiceParams) (header missing several : string)
    : Outcome A2AError string :=
  let? values := ok_or (params !! header) (A2A_invalid_request missing) in
  match values with
  | [value] => Done value
  | _ => Fail (A2A_invalid_request several)
  end.

Definition header_credentials (params : ServiceParams) : Outcome A2AError RegistrationCredentials :=
  let? value := single_header params REGISTRATION_HEADER "sender registration header is required"
                  "exactly one sender registration header is required" in
  let? registration_id := map_err (A2A_invalid_request "sender registration header is invalid")
                            (RegistrationId_parse value) in
  let? value := single_header params REGISTRATION_EPOCH_HEADER
                  "sender registration epoch header is required"
                  "exactly one sender registration epoch header is required" in
  let? epoch := ok_or (epoch_parse value)
                  (A2A_invalid_request "sender registration epoch header is invalid") in
  Done (MkCredentials registration_id epoch).

Definition authentication_error (error : DomainError) : A2AError :=
  match error with
  | RegistrationExpired => registration_auth_lost "sender registration is stale"
  | RegistrationNotFound => registration_auth_lost "sender registration is not active"
  | _ => A2A_invalid_request "sender registration could not be authenticated"
  end.

Definition authenticated_registration (params : ServiceParams) (now : Z) : M Registration :=
  let! c := st_lift (header_credentials params) in
  st_map_err authentication_error (authenticate c now).

Definition preflight_send (params : ServiceParams) (request : SendMessageRequest) (now : Z)
    : M (Registration * AgentName * ValidatedPayload) :=
  let! sender := authenticated_registration params now in
  let! checked := st_lift (check_send canonicalize params request
                             (agent_workspace (reg_agent sender))) in
  st_ret (sender, checked.1, checked.2).

(** The clocks of one [prepare_send], and what the rest of the process does between
    its calls of the broker. *)
Record SendSchedule := MkSendSchedule {
  ss_now_authenticate : Z;
  ss_before_snapshot : World P → World P;
  ss_now_snapshot : Z;
  ss_before_start : World P → World P;
  ss_created : Z;
  ss_first : Interleaving (P := P);
  ss_second : Interleaving (P := P);
}.

(** The context of the message, the one of the retained task, or a new one. *)
Definition send_context (c : RegistrationCredentials) (task_id : string) (context_id : option string)
    (now : Z) (new_context_id : string) : M string := λ w,
  match context_id with
  | Some context_id => (Done context_id, w)
  | None =>
      match task_snapshot c task_id now w with
      | (Done snapshot, w) => (Done (dt_context_id snapshot), w)
      | (Fail error, w) =>
          if decide (error = TaskNotFound) then (Done new_context_id, w)
          else (Fail (domain_error error), w)
      | (Panic msg, w) => (Panic msg, w)
      end
  end.

(** [prepare_send]; it also writes the identifiers into the request. *)
Definition prepare_send (params : ServiceParams) (request : SendMessageRequest)
    (new_task_id new_context_id : string) (schedule : SendSchedule)
    : M (SendMessageRequest * string * StartOrResume) :=
  let! (sender, recipient, payload) := preflight_send params request (ss_now_authenticate schedule) in
  let task_id := default new_task_id (message_task_id (send_message request)) in
  let! _ := st_modify (ss_before_snapshot schedule) in
  let! context_id := send_context (credentials sender) task_id
                       (message_context_id (send_message request)) (ss_now_snapshot schedule)
                       new_context_id in
  let! _ := st_modify (ss_before_start schedule) in
  let! decision := in_broker (start_or_resume (credentials sender)
    (MkQueuedDelivery task_id context_id (agent_name (reg_agent sender)) recipient payload
       (ss_created schedule) 0) (ss_first schedule) (ss_second schedule)) in
  st_ret (request <| send_message ::= λ m,
            m <| message_task_id := Some task_id |> <| message_context_id := Some context_id |> |>,
          task_id, decision).

(** ** Access to a task *)

Definition require_owner (params : ServiceParams) (task_id : string) (now : Z)
    (before_principal : World P → World P) : M Registration :=
  let! _ := st_lift (map_error domain_error (validate_task_id task_id)) in
  let! sender := authenticated_registration params now in
  let! _ := st_modify before_principal in
  let! principal := in_store (front_task_principal task_id) in
  let! _ := st_lift (reject_if
    (negb (bool_decide (principal_sender <$> principal = Some (agent_name (reg_agent sender)))))
    (A2A_invalid_params "task is owned by another agent")) in
  st_ret sender.

(** [before_principal] is what other calls do between the two awaits. *)
Definition require_owner_and_recipient (params : ServiceParams) (task_id : string)
    (tenant : option string) (now : Z) (before_principal : World P → World P) : M Registration :=
  let! _ := st_lift (map_error domain_error (validate_task_id task_id)) in
  let! sender := authenticated_registration params now in
  let! tenant := st_lift (ok_or tenant (A2A_invalid_params "recipient tenant is required")) in
  let! recipient := st_lift (map_err (A2A_invalid_params "recipient tenant is invalid")
                               (AgentName_parse tenant)) in
  let! _ := st_modify before_principal in
  let! principal := in_store (front_task_principal task_id) in
  let! principal := st_lift (ok_or principal (A2A_task_not_found task_id)) in
  let! _ := st_lift (reject_if
    (negb (bool_decide (principal_sender principal = agent_name (reg_agent sender))))
    (A2A_invalid_params "task is owned by another agent")) in
  let! _ := st_lift (reject_if (negb (bool_decide (principal_recipient principal = recipient)))
    (A2A_invalid_params "task recipient does not match tenant")) in
  st_ret sender.

(** [RequestHandler::get_task] and [cancel_task]; [inner] is the SDK's handler, and
    [before_inner] what other calls do before it runs. *)
Definition guarded {A} (params : ServiceParams) (task_id : string) (tenant : option string) (now : Z)
    (before_principal before_inner : World P → World P) (inner : M A) : M A :=
  let! _ := require_owner_and_recipient params task_id tenant now before_principal in
  let! _ := st_modify before_inner in
  inner.

Definition handler_list_tasks (params : ServiceParams) (request : ListTasksRequest) (now : Z)
    (before_list : World P → World P) : M ListTasksResponse :=
  let! sender := authenticated_registration params now in
  let! _ := st_modify before_list in
  in_store (front_list_owned (agent_name (reg_agent sender)) request).
End handler.

(** * Executions

    The part of [herdr-a2a-broker/src/a2a.rs] that the SDK calls back: an execution
    needs an admission, which the request handler issues for one task and which is
    used once; [begin_execution] checks it against the broker, [completion] waits for
    the outcome. *)
Section execution.
Context `{JsonNumber} {serde : SerdeJson} {chrono : Chrono} {uuid : UuidLib}.
Context {P : Type} {persistence : BrokerPersistence P} {store : FrontStore P}.

(** The broker with its store, and the admissions that were not used yet. *)
Record Front := MkFront {
  fr_world : World P;
  fr_pending : gmap string DurableTask;
}.

#[global] Instance Front_fields : Fields Front := λ f, MkFront (fr_world f) (fr_pending f).

Abbreviation M := (ST Front A2AError).

Definition in_world {A} (m : ST (World P) A2AError A) : M A :=
  zoom fr_world (λ w f, f <| fr_world := w |>) m.

(** What other calls do in between. *)
Definition interfere (others : World P → World P) : M () :=
  st_modify (λ f, f <| fr_world ::= others |>).

(** ** Admissions *)

(** [ExecutionAdmissions::issue]; [token] is a fresh identifier. *)
Definition issue (token : string) (params : ServiceParams) (task : DurableTask) : M ServiceParams :=
  let! _ := st_modify (λ f, f <| fr_pending ::= insert token task |>) in
  st_ret (<[EXECUTION_ADMISSION_HEADER := [token]]> params).

(** [ExecutionAdmissionLease::drop] *)
Definition drop_admission (token : string) (f : Front) : Front :=
  f <| fr_pending ::= delete token |>.

(** [ExecutionAdmissions::consume] *)
Definition consume_admission (params : ServiceParams) : M DurableTask :=
  let! values := st_lift (ok_or (params !! EXECUTION_ADMISSION_HEADER)
                   (A2A_invalid_request "durable execution admission is required")) in
  match values with
  | [token] =>
      let! f := st_get in
      let! task := st_lift (ok_or (fr_pending f !! token)
        (A2A_invalid_request "durable execution admission is invalid or already used")) in
      let! _ := st_modify (λ f, f <| fr_pending ::= delete token |>) in
      st_ret task
  | _ => st_fail (A2A_invalid_request "exactly one durable execution admission is required")
  end.

(** [admit_execution]: the task of the decision. *)
Definition decision_task (decision : StartOrResume) : DurableTask :=
  match decision with Started task | Active task | Terminal task => task end.

Definition admit_execution (token : string) (params : ServiceParams) (decision : StartOrResume)
    : M ServiceParams :=
  issue token params (decision_task decision).

(** ** The executor *)

Record ExecutorContext := MkExecutorContext {
  ec_service_params : ServiceParams;
  ec_task_id : string;
  ec_context_id : string;
}.

(** The task that the admission was issued for. *)
Definition same_execution (durable admission : DurableTask) : bool :=
  String.eqb (dt_context_id durable) (dt_context_id admission)
  && bool_decide (dt_sender durable = dt_sender admission)
  && bool_decide (dt_recipient durable = dt_recipient admission)
  && bool_decide (dt_payload durable = dt_payload admission)
  && (dt_created_unix_ms durable =? dt_created_unix_ms admission)%Z.

(** [store.get(id).await?.ok_or(task_not_found)], then [authorize_sdk_projection]. *)
Definition authorized_projection (task_id : string) (between : World P → World P) : M A2ATask :=
  let! found := in_world (in_store (front_get task_id)) in
  let! projection := st_lift (ok_or found (A2A_task_not_found task_id)) in
  let! _ := interfere between in
  let! _ := in_world (in_store (front_authorize projection)) in
  st_ret projection.

(** The first half of an execution: the projection to show, and whether the task is
    over; then the completion is that projection again. *)
Definition begin_execution (context : ExecutorContext) (before_snapshot : World P → World P) (now : Z)
    (before_get before_authorize : World P → World P) : M (DurableTask * A2ATask * bool) :=
  let! admission := consume_admission (ec_service_params context) in
  let task_id := dt_task_id admission in
  let! _ := st_lift (reject_if (negb (String.eqb (ec_task_id context) task_id)
                      || negb (String.eqb (ec_context_id context) (dt_context_id admission)))
              (A2A_invalid_request "execution context does not match durable admission")) in
  let! _ := interfere before_snapshot in
  let! durable := in_world (in_broker (task_snapshot_for_sender (dt_sender admission) task_id now)) in
  let! _ := st_lift (reject_if (negb (same_execution durable admission))
              (A2A_invalid_request "durable execution identity does not match admission")) in
  let! _ := interfere before_get in
  let! projection := authorized_projection task_id before_authorize in
  st_ret (durable, projection, state_is_terminal (dt_state durable)).

(** The completion of an execution that was not over: [None] while it waits. *)
Definition completion (sender : AgentName) (task_id : string) (now : Z)
    (resumes : list (ReplyResume (P := P))) (before_get before_authorize : World P → World P)
    : M (option A2ATask) := λ f,
  match wait_for_reply_for_sender sender task_id now resumes (fr_world f) with
  | (Done None, w) => (Done None, f <| fr_world := w |>)
  | (Panic msg, w) => (Panic msg, f <| fr_world := w |>)
  | (outcome, w) =>
      (let! _ := match outcome with
         | Fail error =>
             if decide (error = TaskCanceled ∨ error = TaskExpired ∨ error = TaskFailed
                        ∨ error = TaskRejected)
             then st_ret tt else st_fail (domain_error error)
         | _ => st_ret tt
         end in
       let! _ := interfere before_get in
       let! task := authorized_projection task_id before_authorize in
       st_ret (Some task)) (f <| fr_world := w |>)
  end.

(** [AgentExecutor::cancel] *)
Definition executor_cancel (context : ExecutorContext) (now : Z)
    (before_cancel : World P → World P) (now_cancel : Z)
    (before_get before_authorize : World P → World P) : M A2ATask :=
  let! sender := in_world (authenticated_registration (ec_service_params context) now) in
  let! _ := interfere before_cancel in
  let! _ := in_world (in_broker (cancel_task (credentials sender) (ec_task_id context) now_cancel)) in
  let! _ := interfere before_get in
  authorized_projection (ec_task_id context) before_authorize.
End execution.
Arguments Front {_} P.
