(* ===== verification/A2aSending.v ===== *)
(** * Sending a message

    What [prepare_send] of [herdr-a2a-broker/src/a2a.rs] guarantees about the task it
    starts or resumes, whatever the other calls do between its sections. *)
From stdpp Require Import prelude gmap strings sorting.
From S2P Require Import Prelude RustStd Model Validation Durability BrokerState BrokerDurable.
From S2P Require Import BrokerMaintain BrokerOps BrokerInv BrokerImage BrokerUpkeep BrokerWorld BrokerMaintained BrokerSpec.
From S2P Require Import BrokerPrim BrokerTrans BrokerDelivery BrokerReach BrokerRuns BrokerProgress.
From S2P Require Import IdentityNames BrokerRecover LedgerCodec Ledger LedgerCommit SdkStore TaskListing A2aFront.

Section sending.
Context `{JsonNumber} {serde : SerdeJson} {chrono : Chrono} {uuid : UuidLib} {lib : A2ALib}.
Context {P : Type} {persistence : BrokerPersistence P} {spec : PersistenceSpec P}.
Context {store : FrontStore P}.
Context (canonicalize : PathBuf → option PathBuf).
Implicit Types (w : World P) (t : TaskRecord) (c : RegistrationCredentials) (d : QueuedDelivery).

(** ** The rest of the process *)

(** What other calls do between two awaits, from the clock [now] to [now']: any
    operations of the broker, successful or not, and calls of the task store that
    do not touch what the broker has stored. *)
Inductive interleaved : Z → World P → Z → World P → Prop :=
| il_stay now now' w : (now ≤ now')%Z → interleaved now w now' w
| il_exec clk now now' w op o w1 w' :
    (clk ≤ now)%Z → admissible op w → exec op now w = (o, w1) → interleaved now w1 now' w' →
    interleaved clk w now' w'
| il_store now now' w p w' :
    view p = view (w_store w) → interleaved now (w <| w_store := p |>) now' w' →
    interleaved now w now' w'.

Definition by_calls (now now' : Z) (others : World P → World P) : Prop :=
  ∀ w, WInv now w → interleaved now w now' (others w).

Lemma by_calls_id now now' : (now ≤ now')%Z → by_calls now now' id.
Proof. intros Hle w _. by apply il_stay. Qed.

Lemma WInv_store now w p : view p = view (w_store w) → WInv now w → WInv now (w <| w_store := p |>).
Proof.
  intros Hview [HI HS HW]. split; [done| |done].
  destruct HS as [Hle He Hr]. split; simpl; by rewrite Hview.
Qed.

Lemma interleaved_le now w now' w' : interleaved now w now' w' → (now ≤ now')%Z.
Proof. induction 1; lia. Qed.

Lemma interleaved_inv now w now' w' : interleaved now w now' w' → WInv now w → WInv now' w'.
Proof.
  induction 1 as [now now' w Hle|clk now now' w op o w1 w' Hle Hadm Hrun _ IH|now now' w p w' Hv _ IH];
    intros HWI.
  - by eapply WInv_later.
  - apply IH. by destruct (exec_effect _ _ _ _ _ _ HWI Hle Hadm Hrun).
  - by apply IH, WInv_store.
Qed.

Lemma by_calls_inv now now' others w : by_calls now now' others → WInv now w → WInv now' (others w).
Proof. intros Hby HWI. eapply interleaved_inv; [by apply Hby|done]. Qed.

(** A row that did not end before [since]. *)
Definition recent (since : Z) (row : DurableTask) : Prop :=
  ∀ deadline, dt_retention_deadline_unix_ms row = Some deadline →
    (since + TERMINAL_RETENTION_MS ≤ deadline)%Z.

Lemma recent_not_overdue since now row :
  recent since row → (now < since + TERMINAL_RETENTION_MS)%Z → row_overdue now row = false.
Proof.
  intros Hr Hnow. unfold row_overdue. destruct (dt_retention_deadline_unix_ms row) as [d|] eqn:Hd; [|done].
  simpl. apply Hr in Hd. lia.
Qed.

Lemma recent_evolved since now (m m' : gmap string DurableTask) task_id row :
  store_evolved now m m' → m !! task_id = Some row → recent since row → (since ≤ now)%Z →
  (now < since + TERMINAL_RETENTION_MS)%Z →
  ∃ row', m' !! task_id = Some row' ∧ same_message row row' ∧ recent since row'.
Proof.
  intros Hev Hrow Hr Hle Hnow. pose proof (recent_not_overdue _ _ _ Hr Hnow) as Ho.
  destruct (Hev task_id row Hrow) as [?|(row' & Hrow' & Hs & Hd)]; [congruence|].
  exists row'. split_and!; [done|by apply rtc_same_message|]. intros deadline Hdl.
  destruct Hd as [->|[?|?]]; [by apply Hr|congruence|]. assert (deadline = (now + TERMINAL_RETENTION_MS)%Z) by congruence. lia.
Qed.

(** A row stays as long as the retention period from [since] is not over. *)
Lemma interleaved_row since now w now' w' task_id row :
  interleaved now w now' w' → WInv now w → held_rows w !! task_id = Some row → recent since row →
  (since ≤ now)%Z → (now' < since + TERMINAL_RETENTION_MS)%Z →
  ∃ row', held_rows w' !! task_id = Some row' ∧ same_message row row' ∧ recent since row'.
Proof.
  intros Hil. revert row.
  induction Hil as [now now' w Hle|clk now now' w op o w1 w' Hle Hadm Hrun Hil IH|now now' w p w' Hv _ IH];
    intros row HWI Hrow Hr Hs Hend.
  - by exists row.
  - destruct (exec_effect _ _ _ _ _ _ HWI Hle Hadm Hrun) as [HWI1 Heff].
    pose proof (interleaved_le _ _ _ _ Hil).
    destruct (recent_evolved since now (held_rows w) (held_rows w1) task_id row)
      as (row1 & Hrow1 & Hsame1 & Hr1); [by apply effect_rows|done|done|lia|lia|].
    destruct (IH row1) as (row' & Hrow' & Hsame' & Hr'); [done..|lia|lia|].
    exists row'. split_and!; [done|by etrans|done].
  - apply IH; try done; [by apply WInv_store|]. unfold held_rows. simpl. by rewrite Hv.
Qed.

(** One round of [start_or_resume]: its clocks do not go back, the other calls are
    calls, and the snapshot follows the enqueue within the time a finished task is
    retained. *)
Record round_ok (clk : Z) (il : Interleaving (P := P)) : Prop := {
  ro_lookup : (clk ≤ il_now_lookup il)%Z;
  ro_enqueue : by_calls (il_now_lookup il) (il_now_enqueue il) (il_before_enqueue il);
  ro_snapshot : by_calls (il_now_enqueue il) (il_now_snapshot il) (il_before_snapshot il);
  ro_soon : (il_now_snapshot il < il_now_enqueue il + TERMINAL_RETENTION_MS)%Z;
}.

(** The rounds of [start_or_resume], each at the clock the previous one left. *)
Inductive rounds_ok : Z → list (Interleaving (P := P)) → Prop :=
| rounds_nil clk : rounds_ok clk []
| rounds_cons clk clk' il rounds :
    round_ok clk il → by_calls (il_now_enqueue il) clk' (il_before_retry il) →
    rounds_ok clk' rounds → rounds_ok clk (il :: rounds).

(** ** Starting or resuming *)

(** The row carries the message [d]. *)
Record carries d (row : DurableTask) : Prop := {
  ca_id : dt_task_id row = qd_task_id d;
  ca_context : dt_context_id row = qd_context_id d;
  ca_sender : dt_sender row = qd_sender d;
  ca_recipient : dt_recipient row = qd_recipient d;
  ca_payload : dt_payload row = qd_payload d;
}.

Lemma carries_same d row row' : carries d row → same_message row row' → carries d row'.
Proof. intros [] []. split; congruence. Qed.

(** The task of the decision is retained, it carries the message, and the sender's
    registration is live. *)
Definition decided c d (decision : StartOrResume) w : Prop :=
  ∃ now r t, WInv now w ∧ reconciliation_required (w_state w) = false ∧
    authentic now c (w_state w) r ∧ tasks (w_state w) !! qd_task_id d = Some t ∧
    decision_task decision = image (qd_task_id d) t ∧ carries d (image (qd_task_id d) t) ∧
    reg_name r = qd_sender d ∧
    match decision with
    | Terminal row => state_is_terminal (dt_state row) = true
    | Active row => state_is_terminal (dt_state row) = false
    | Started _ => True
    end.

Definition broken (w : World P) : Prop := ∃ now, WInv now w.

Lemma aborted_broken now w w' : aborted now w w' → broken w'.
Proof. intros Hab. exists now. by eapply aborted_inv. Qed.

Lemma lookup_decided clk now c d w found w1 r :
  WInv clk w → (clk ≤ now)%Z →
  begun now c w w1 r → reg_name r = qd_sender d →
  match tasks (w_state w1) !! qd_task_id d with
  | Some t =>
      sender t = qd_sender d ∧ recipient t = qd_recipient d ∧
      qd_context_id (original_delivery t) = qd_context_id d ∧
      qd_payload (original_delivery t) = qd_payload d ∧
      found = Some (if is_some (terminal_deadline_unix_ms t)
                    then Terminal (image (qd_task_id d) t)
                    else Active (image (qd_task_id d) t))
  | None => found = None
  end →
  match found with
  | Some decision => decided c d decision w1
  | None => WInv now w1
  end.
Proof.
  intros HWI Hle [HM Hau _] Hn Hfound. pose proof (mt_inv _ _ _ HM) as HWI1.
  destruct (tasks (w_state w1) !! qd_task_id d) as [t|] eqn:Ht; [|by subst].
  destruct Hfound as (Hs & Hr & Hc & Hp & ->).
  pose proof (core_tasks _ (inv_core _ _ (wi_inv _ _ HWI1)) _ _ Ht) as Hwf.
  exists now, r, t. pose proof (image_state _ _ Hwf) as Hst.
  assert (carries d (image (qd_task_id d) t)) as Hca by by split.
  destruct (is_some (terminal_deadline_unix_ms t)); split_and!; try done; apply HM.
Qed.

(** The row that an enqueue has stored is the one a snapshot soon afterwards shows. *)
Lemma snapshot_decided since clk now c d w w1 r t row :
  WInv clk w → held_rows w !! qd_task_id d = Some row → recent since row → carries d row →
  (since ≤ now)%Z → (now < since + TERMINAL_RETENTION_MS)%Z →
  begun now c w w1 r → tasks (w_state w1) !! qd_task_id d = Some t → sender t = reg_name r →
  decided c d (Started (image (qd_task_id d) t)) w1.
Proof.
  intros HWI Hrow Hr Hca Hle Hend [HM Hau _] Ht Hs.
  destruct (recent_evolved since now (held_rows w) (held_rows w1) (qd_task_id d) row)
    as (row1 & Hrow1 & Hsame & _); [apply HM|done..|].
  destruct (synced_row now w1 (qd_task_id d) row1) as (t' & Ht' & <-); [apply HM..|done|]. simplify_eq.
  pose proof (carries_same _ _ _ Hca Hsame) as Hca'.
  exists now, r, t. pose proof (ca_sender _ _ Hca') as Hn. simpl in Hn.
  split_and!; try done; [apply HM..|congruence].
Qed.

Lemma enqueued_carries now c d handle w w' :
  WInv now w' → enqueue_post now c d handle w w' →
  ∃ row, held_rows w' !! qd_task_id d = Some row ∧ carries d row ∧ recent now row.
Proof.
  intros HW (w1 & r & rid & rr & Hb & Hn & Hid & _ & _ & _ & _ & _ & Hst & _).
  pose proof (mt_flag _ _ _ (bg_maintained _ _ _ _ _ Hb)) as Hflag.
  set (t := new_task_record (next_task_sequence (w_state w1) + 1) (qd_sender d)
              (d <| qd_created_unix_ms := now |>)).
  exists (image (qd_task_id d) t). split_and!; [|by split|done].
  assert (reconciliation_required (w_state w') = false) as Hflag' by by rewrite Hst.
  assert (tasks (w_state w') !! qd_task_id d = Some t) as Ht by (rewrite Hst; apply lookup_insert_eq).
  unfold held_rows. by rewrite (sync_rows _ _ (wi_sync _ _ HW) Hflag'), lookup_durable_rows, Ht.
Qed.

(** The loop never panics; the decision it returns is about the message, and an error
    leaves a broker that works. *)
Lemma start_or_resume_rounds_spec clk c d rounds w :
  WInv clk w → rounds_ok clk rounds →
  wp (start_or_resume_rounds c d rounds) (λ decision w', decided c d decision w')
    (λ _ w', broken w') w.
Proof.
  intros HWI Hok. revert w HWI. induction Hok as [clk|clk clk' il rounds [Hlk He Hs Hsoon] Hre _ IH];
    intros w HWI; cbn [start_or_resume_rounds]; [wp_step; by exists clk|].
  wp_step. eapply wp_mono; [by eapply start_or_resume_lookup_spec| |intros e w'; apply aborted_broken].
  cbv beta. intros found w1 (r & Hb & Hn & Hfound).
  pose proof (lookup_decided _ _ _ _ _ _ _ _ HWI Hlk Hb Hn Hfound) as Hdec. clear Hfound.
  destruct found as [decision|]; [by wp_step|].
  pose proof (enqueue_spec _ (il_now_enqueue il) c d _ (by_calls_inv _ _ _ _ He Hdec) (Z.le_refl _)) as Henq.
  unfold wp in Henq |- *.
  destruct (enqueue c d (il_now_enqueue il) (il_before_enqueue il w1)) as [[handle|e|msg] w2]; [| |done].
  - destruct Henq as [HWI2 Hpost].
    destruct (enqueued_carries _ _ _ _ _ _ HWI2 Hpost) as (row & Hrow & Hca & Hr).
    pose proof (Hs _ HWI2) as Hil. pose proof (interleaved_inv _ _ _ _ Hil HWI2) as HWI3.
    destruct (interleaved_row _ _ _ _ _ _ _ Hil HWI2 Hrow Hr) as (row3 & Hrow3 & Hsame3 & Hr3);
      [lia|done|].
    change (wp (let! snapshot := task_snapshot c (qd_task_id d) (il_now_snapshot il) in
                st_ret (Started snapshot)) (λ decision w', decided c d decision w')
              (λ _ w', broken w') (il_before_snapshot il w2)).
    wp_step. eapply wp_mono;
      [eapply task_snapshot_spec; [exact HWI3|lia]| |intros e w'; apply aborted_broken].
    cbv beta. intros row4 w4 (r4 & t4 & Hb4 & Ht4 & Hs4 & ->). wp_step.
    pose proof (interleaved_le _ _ _ _ Hil).
    eapply (snapshot_decided (il_now_enqueue il)); try done. by eapply carries_same.
  - destruct (decide (e = DuplicateTask)); [|by apply aborted_broken in Henq].
    apply IH. eapply by_calls_inv; [exact Hre|]. by eapply aborted_inv.
Qed.

(** ** The request *)

Lemma validate_payload_no_panic p workspace : no_panic (validate_payload canonicalize p workspace).
Proof.
  unfold validate_payload, validate_metadata, validate_file_reference, validate_file_reference_shape,
    validate_canonical_path.
  destruct (MAX_METADATA_BYTES <? _)%nat; auto 15 using validate_metadata_node_no_panic with herdr.
Qed.

Lemma validate_message_parts_no_panic message : no_panic (validate_message_parts message).
Proof. unfold validate_message_parts, validate_part. auto 10 with herdr. Qed.

Lemma check_send_no_panic params request workspace :
  no_panic (check_send canonicalize params request workspace).
Proof.
  unfold check_send, validate_metadata_channel.
  repeat match goal with
  | |- no_panic (out_bind _ _) => apply no_panic_bind; [|intros ?]
  | |- no_panic (map_error _ _) => apply no_panic_map_error
  | |- no_panic (match ?x with _ => _ end) => destruct x
  end; auto using validate_payload_no_panic, validate_message_parts_no_panic with herdr.
Qed.

Lemma header_credentials_no_panic params : no_panic (header_credentials params).
Proof.
  unfold header_credentials, single_header, RegistrationId_parse, parse_uuid_v7.
  repeat (apply no_panic_bind; [|intros ?]);
    repeat match goal with
    | |- no_panic (out_bind _ _) => apply no_panic_bind; [|intros ?]
    | |- no_panic (map_err _ _) => apply no_panic_map_err
    | |- no_panic (match ?x with _ => _ end) => destruct x
    end; auto with herdr.
Qed.

Lemma authenticated_spec clk now params w :
  WInv clk w → (clk ≤ now)%Z →
  wp (authenticated_registration params now)
    (λ reg w', WInv now w' ∧ ∃ c r, header_credentials params = Done c ∧
       authentic now c (w_state w') r ∧ reg = rs_registration r)
    (λ _ w', WInv now w') w.
Proof.
  intros HWI Hle. pose proof (WInv_later _ _ _ Hle HWI) as HWI'. unfold authenticated_registration.
  wp_step. apply wp_lift_no_panic; [apply header_credentials_no_panic| |done]. intros c Hc.
  apply wp_map_err. eapply wp_mono; [by eapply authenticate_spec| |].
  - intros reg w1 (r & [HM Hau _] & ->). split; [apply HM|eauto].
  - intros e w1. apply aborted_inv.
Qed.

Lemma send_context_spec clk now c task_id context_id new_context_id w :
  WInv clk w → (clk ≤ now)%Z →
  wp (send_context c task_id context_id now new_context_id)
    (λ context w', WInv now w' ∧ (∀ given, context_id = Some given → context = given))
    (λ _ w', WInv now w') w.
Proof.
  intros HWI Hle. pose proof (WInv_later _ _ _ Hle HWI) as HWI'. unfold wp, send_context.
  destruct context_id as [given|]; [by split; [|intros ? [= ->]]|].
  pose proof (task_snapshot_spec clk now c task_id w HWI Hle) as Hsnap. unfold wp in Hsnap.
  destruct (task_snapshot c task_id now w) as [[row|e|msg] w1]; [| |done].
  - destruct Hsnap as (r & t & [HM _ _] & _). split; [apply HM|done].
  - apply aborted_inv in Hsnap. by destruct (decide (e = TaskNotFound)).
Qed.

(** What an accepted request asks for. *)
Lemma check_send_done params request workspace recipient payload :
  check_send canonicalize params request workspace = Done (recipient, payload) →
  send_tenant request = Some (agent_str recipient) ∧
  message_text (send_message request) = Some (vp_text payload) ∧ vp_file_refs payload = [].
Proof.
  unfold check_send. intros Hc. run_done Hc. injection Hc as <- <-.
  repeat match goal with
  | Ho : ok_or _ _ = Done _ |- _ => apply ok_or_Done in Ho
  | Ho : map_err _ _ = Done _ |- _ => apply map_err_Done in Ho
  | Ho : map_error _ _ = Done _ |- _ => apply map_error_Done in Ho
  end.
  match goal with Ho : AgentName_parse _ = Done _ |- _ => apply AgentName_parse_Done in Ho as -> end.
  match goal with Ho : validate_payload _ _ _ = Done _ |- _ =>
    unfold validate_payload in Ho; run_done Ho; injection Ho as <- end.
  simpl in *. split_and!; [done|done|]. by simplify_eq.
Qed.

(** The clocks of the sections do not go back, and what happens between them is
    done by other calls. *)
Record schedule_ok (clk : Z) (schedule : SendSchedule (P := P)) : Prop := {
  so_authenticate : (clk ≤ ss_now_authenticate schedule)%Z;
  so_snapshot : by_calls (ss_now_authenticate schedule) (ss_now_snapshot schedule)
                  (ss_before_snapshot schedule);
  so_start : ∃ clk', by_calls (ss_now_snapshot schedule) clk' (ss_before_start schedule) ∧
    rounds_ok clk' [ss_first schedule; ss_second schedule];
}.

(** The result of [prepare_send]: the row of the task is retained and durable, it
    was sent by the agent whose live credentials the headers carry, to the tenant of
    the request, with the text of its message. *)
Record prepared (params : ServiceParams) (request request' : SendMessageRequest)
    (task_id : string) (row : DurableTask) w (now : Z) c (r : RegistrationState) : Prop := {
  pr_headers : header_credentials params = Done c;
  pr_authentic : authentic now c (w_state w) r;
  pr_durable : view_tasks (view (w_store w)) !! task_id = Some row;
  pr_sender : dt_sender row = reg_name r;
  pr_recipient : send_tenant request = Some (agent_str (dt_recipient row));
  pr_text : message_text (send_message request) = Some (vp_text (dt_payload row));
  pr_files : vp_file_refs (dt_payload row) = [];
  pr_context : ∀ context_id, message_context_id (send_message request) = Some context_id →
    dt_context_id row = context_id;
  pr_request : request' = request <| send_message ::= λ m,
    m <| message_task_id := Some task_id |> <| message_context_id := Some (dt_context_id row) |> |>;
}.

Lemma preflight_spec clk now params request w :
  WInv clk w → (clk ≤ now)%Z →
  wp (preflight_send canonicalize params request now)
    (λ '(sender, recipient, payload) w', WInv now w' ∧ ∃ c r,
       header_credentials params = Done c ∧ authentic now c (w_state w') r ∧
       sender = rs_registration r ∧
       check_send canonicalize params request (agent_workspace (reg_agent sender))
       = Done (recipient, payload))
    (λ _ w', WInv now w') w.
Proof.
  intros HWI Hle. unfold preflight_send. wp_step.
  eapply wp_mono; [by eapply authenticated_spec| |done].
  intros sender w1 (HWI1 & c & r & Hc & Hau & ->). wp_step.
  apply wp_lift_no_panic; [apply check_send_no_panic| |done]. intros [recipient payload] Hcheck.
  wp_step. eauto 10.
Qed.

(** C18: A message that is admitted belongs to a live registration whose credentials the
    request carries: the task is durable under the identifier of the request, from that
    agent to the tenant of the request, with the text of its message and in its context,
    and the answer says whether it was started, is active or has ended.  Between the
    awaits of the request any other calls run, successful, failing or losing their
    commit; only the snapshot of a task it has just enqueued must not be delayed by
    the 30 days for which a finished task is retained. *)
Theorem prepare_send_is_authentic clk params request new_task_id new_context_id schedule w :
  Reachable clk w →
  let task_id := default new_task_id (message_task_id (send_message request)) in
  schedule_ok clk schedule →
  wp (prepare_send canonicalize params request new_task_id new_context_id schedule)
    (λ '(request', id, decision) w', id = task_id ∧ ∃ now c r,
       prepared params request request' task_id (decision_task decision) w' now c r ∧
       match decision with
       | Terminal row => state_is_terminal (dt_state row) = true
       | Active row => state_is_terminal (dt_state row) = false
       | Started _ => True
       end)
    (λ _ w', ∃ now, WInv now w') w.
Proof.
  intros HWI%reachable_inv task_id [Hau Hsn (clk' & Hst & Hrounds)]. unfold prepare_send.
  fold task_id. wp_step.
  eapply wp_mono; [by eapply preflight_spec| |intros e w' HX; eexists; exact HX].
  intros [[sender recipient] payload] w1 (HWI1 & c & r & Hc & Har & -> & Hcheck). wp_steps.
  eapply wp_mono; [eapply send_context_spec; [by eapply by_calls_inv|lia]| |intros e w' HX; eexists; exact HX].
  intros context w2 [HWI2 Hcontext]. wp_steps. unfold in_broker. apply wp_map_err.
  set (d := MkQueuedDelivery _ _ _ _ _ _ _).
  eapply wp_mono; [apply (start_or_resume_rounds_spec clk'); [by eapply by_calls_inv|exact Hrounds]| |].
  - intros decision w3 (now & r3 & t & HWI3 & Hflag & Hau3 & Ht & Hrow & Hca & Hn & Hkind). wp_step.
    split; [done|]. exists now, c, r3. split; [|done]. rewrite Hrow.
    destruct Hca as [Hid Hctx Hs Hr Hp]. destruct (check_send_done _ _ _ _ _ Hcheck) as (Htenant & Htext & Hfiles).
    assert (credentials (rs_registration r) = c) as Hcr by apply Har. rewrite Hcr in Hau3.
    split; [done|done| |..].
    + rewrite (sync_rows _ _ (wi_sync _ _ HWI3) Hflag), lookup_durable_rows. 
      change task_id with (qd_task_id d). by rewrite Ht.
    + by rewrite Hs.
    + by rewrite Hr.
    + by rewrite Hp.
    + by rewrite Hp.
    + intros given Hgiven. rewrite Hctx. by apply Hcontext.
    + by rewrite Hctx.
  - intros e w3 [now HWI3]. by exists now.
Qed.
End sending.
