(* ===== verification/A2aAccess.v ===== *)
(** * Access to a task and the use of an admission

    What the request handler and the executor of [herdr-a2a-broker/src/a2a.rs]
    guarantee, against the promises of the task store in [FrontStoreSpec]. *)
From stdpp Require Import prelude gmap strings sorting.
From S2P Require Import Prelude RustStd Model Validation Durability BrokerState BrokerDurable BrokerMaintain BrokerOps.
From S2P Require Import BrokerInv BrokerImage BrokerWorld BrokerUpkeep BrokerMaintained BrokerSpec BrokerReach BrokerRuns.
From S2P Require Import Sqlite IdentityNames LedgerCodec Ledger LedgerRows LedgerCommit Admissions.
From S2P Require Import TaskStore SdkStore SdkStoreTheorems TaskListing A2aFront A2aSending.

(** ** The promises of the store

    [shows row task]: [task] is the projection of the row.  No operation changes
    what the broker has stored. *)
Class FrontStoreSpec `{JsonNumber} {chrono : Chrono} (P : Type) {persistence : BrokerPersistence P}
    {spec : PersistenceSpec P} {store : FrontStore P} := {
  shows : DurableTask → A2ATask → Prop;
  front_principal_spec : ∀ task_id p,
    wp (front_task_principal task_id)
      (λ found p', view p' = view p ∧
         ∀ principal row, found = Some principal → view_tasks (view p) !! task_id = Some row →
           dt_sender row = principal_sender principal ∧
           dt_recipient row = principal_recipient principal)
      (λ _ p', view p' = view p) p;
  front_get_spec : ∀ task_id p,
    wp (front_get task_id) (λ _ p', view p' = view p) (λ _ p', view p' = view p) p;
  front_authorize_spec : ∀ task p,
    wp (front_authorize task)
      (λ _ p', view p' = view p ∧
         ∃ row, view_tasks (view p) !! a2a_id task = Some row ∧ shows row task)
      (λ _ p', view p' = view p) p;
  front_list_spec : ∀ name request p,
    wp (front_list_owned name request) (λ _ p', view p' = view p) (λ _ p', view p' = view p) p;
}.

Section access.
Context `{JsonNumber} {serde : SerdeJson} {chrono : Chrono} {uuid : UuidLib} {lib : A2ALib}.
Context {P : Type} {persistence : BrokerPersistence P} {spec : PersistenceSpec P}.
Context {store : FrontStore P} {store_spec : FrontStoreSpec P}.
Implicit Types (w : World P) (c : RegistrationCredentials) (params : ServiceParams).

(** The request carries the credentials of a registration that is live when the
    broker authenticates it, and the registration is the sender of the request. *)
Definition authenticated (now : Z) params (sender : Registration) w : Prop :=
  ∃ c r, header_credentials params = Done c ∧ authentic now c (w_state w) r ∧
    sender = rs_registration r.

(** The task was sent by the sender of the request and went to the tenant it names. *)
Definition owned (task_id : string) (tenant : option string) (sender : Registration) w : Prop :=
  ∀ row, held_rows w !! task_id = Some row →
    dt_sender row = agent_name (reg_agent sender) ∧ tenant = Some (agent_str (dt_recipient row)).

(** The path of a request that is let through: authenticated in [w1], the task looked
    up in [w2]. *)
Record let_through (now now_lookup : Z) params (task_id : string) (tenant : option string)
    (before_principal : World P → World P) (sender : Registration) w1 w2 : Prop := {
  lt_authenticated : authenticated now params sender w1;
  lt_interleaved : interleaved now w1 now_lookup (before_principal w1);
  lt_lookup : ∃ principal, front_task_principal task_id (w_store (before_principal w1))
    = (Done (Some principal), w_store w2) ∧
    principal_sender principal = agent_name (reg_agent sender) ∧
    tenant = Some (agent_str (principal_recipient principal));
  lt_state : w_state w2 = w_state (before_principal w1);
  lt_owned : owned task_id tenant sender w2;
}.

(** A call of the task store, and what it answered. *)
Lemma wp_in_store_ran {A} (m : ST P A2AError A) Q X w :
  wp m Q X (w_store w) →
  wp (in_store m)
    (λ a w', ∃ p, w' = w <| w_store := p |> ∧ m (w_store w) = (Done a, p) ∧ Q a p)
    (λ e w', ∃ p, w' = w <| w_store := p |> ∧ X e p) w.
Proof. unfold wp, in_store, zoom. destruct (m (w_store w)) as [[] p]; eauto. Qed.

Lemma require_owner_and_recipient_spec clk now now_lookup params task_id tenant before w :
  WInv clk w → (clk ≤ now)%Z → by_calls now now_lookup before →
  wp (require_owner_and_recipient params task_id tenant now before)
    (λ sender w2, WInv now_lookup w2 ∧ ∃ w1,
       let_through now now_lookup params task_id tenant before sender w1 w2)
    (λ _ w', ∃ clk', WInv clk' w') w.
Proof.
  intros HWI Hle Hby. unfold require_owner_and_recipient. wp_step.
  apply wp_lift_no_panic; [auto with herdr|intros _ _|intros _ _; by exists clk]. wp_step.
  eapply wp_mono; [by eapply authenticated_spec| |intros e w'; by exists now]. cbv beta.
  intros sender w1 (HWI1 & Hau). wp_step. wp_step; [|by exists now]. intros name ->. wp_step.
  apply wp_lift_no_panic; [auto with herdr| |by exists now].
  intros recipient Hparse%map_err_Done%AgentName_parse_Done. wp_steps.
  pose proof (Hby _ HWI1) as Hil. pose proof (by_calls_inv _ _ _ _ Hby HWI1) as HWI2.
  eapply wp_mono; [apply wp_in_store_ran, front_principal_spec| |]; cbv beta.
  2:{ intros e w' (p & -> & Hview). exists now_lookup. by apply WInv_store. }
  intros found w2 (p & -> & Hrun & Hview & Hprincipal).
  pose proof (WInv_store _ _ _ Hview HWI2) as HWI3.
  wp_step. wp_step; [|by exists now_lookup]. intros principal ->. wp_step.
  wp_step; [intros Hs%negb_false_iff%bool_decide_eq_true|by exists now_lookup]. wp_step.
  wp_step; [intros Hr%negb_false_iff%bool_decide_eq_true|by exists now_lookup]. wp_step.
  split; [done|]. exists w1. split; [done|done| |done|].
  - exists principal. split_and!; [done..|]. rewrite Hr. by subst recipient.
  - intros row Hrow. unfold held_rows in Hrow. simpl in Hrow. rewrite Hview in Hrow.
    destruct (Hprincipal principal row eq_refl Hrow) as [-> ->]. rewrite Hs, Hr. by subst recipient.
Qed.

(** C19: The SDK's handler, whatever it does, runs only for a request that carried the
    credentials of a live registration when the broker authenticated it, and for a task
    that the store then said was sent by that agent and went to the tenant of the
    request; other calls run between the authentication, the look-up and the handler.
    Any other request fails before the handler runs. *)
Theorem guarded_access {A} clk now now_lookup now_inner params task_id tenant
    before_principal before_inner (inner : ST (World P) A2AError A) w outcome w' :
  Reachable clk w → (clk ≤ now)%Z → by_calls now now_lookup before_principal →
  by_calls now_lookup now_inner before_inner →
  guarded params task_id tenant now before_principal before_inner inner w = (outcome, w') →
  (∃ e now', outcome = Fail e ∧ WInv now' w') ∨
  (∃ sender w1 w2, let_through now now_lookup params task_id tenant before_principal sender w1 w2 ∧
     interleaved now_lookup w2 now_inner (before_inner w2) ∧ WInv now_inner (before_inner w2) ∧
     inner (before_inner w2) = (outcome, w')).
Proof.
  intros HWI%reachable_inv Hle Hby1 Hby2. unfold guarded, st_bind, st_modify.
  pose proof (require_owner_and_recipient_spec clk now now_lookup params task_id tenant
    before_principal w HWI Hle Hby1) as Hwp. unfold wp in Hwp.
  destruct (require_owner_and_recipient _ _ _ _ _ w) as [[sender|e|msg] w2]; [| |done].
  - destruct Hwp as [HWI2 [w1 Hlt]]. intros Hrun. right. exists sender, w1, w2.
    split_and!; [done|by apply Hby2|by eapply by_calls_inv|done].
  - intros [= <- <-]. left. destruct Hwp as [now' Hw']. by exists e, now'.
Qed.

(** ** Executions *)

Implicit Types (f : Front P) (context : ExecutorContext).

Lemma wp_in_world {A} (m : ST (World P) A2AError A) Q X f :
  wp m (λ a w, Q a (f <| fr_world := w |>)) (λ e w, X e (f <| fr_world := w |>)) (fr_world f) →
  wp (in_world m) Q X f.
Proof. unfold wp, in_world, zoom. by destruct (m (fr_world f)) as [[] ?]. Qed.

(** [consume] takes the one admission the request names, and it is gone. *)
Lemma consume_admission_spec params f :
  wp (consume_admission params)
    (λ admission f', ∃ token, params !! EXECUTION_ADMISSION_HEADER = Some [token] ∧
       fr_pending f !! token = Some admission ∧ f' = f <| fr_pending ::= delete token |>)
    (λ _ f', f' = f) f.
Proof.
  unfold consume_admission. wp_step. wp_step; [|done]. intros values Hvalues.
  destruct values as [|token [|? ?]]; [by wp_step| |by wp_step]. wp_steps. wp_step; [|done].
  intros task Htask. wp_steps. by exists token.
Qed.

(** The projection that [authorized_projection] hands over is the one the store has
    under the identifier, and it shows the ledger. *)
Lemma authorized_projection_spec now now' task_id between f :
  WInv now (fr_world f) → by_calls now now' between →
  wp (authorized_projection task_id between)
    (λ projection f', WInv now' (fr_world f') ∧ fr_pending f' = fr_pending f ∧
       (∃ p, front_get task_id (w_store (fr_world f)) = (Done (Some projection), p)) ∧
       ∃ row, held_rows (fr_world f') !! a2a_id projection = Some row ∧ shows row projection)
    (λ _ f', (∃ clk, WInv clk (fr_world f')) ∧ fr_pending f' = fr_pending f) f.
Proof.
  intros HWI Hbetween. unfold authorized_projection, interfere, in_store. wp_step.
  apply wp_in_world, wp_zoom. eapply wp_mono; [apply wp_ran, front_get_spec| |]; cbv beta.
  2:{ intros e p Hview. split; [|done]. exists now. by apply WInv_store. }
  intros found p [Hview Hget]. pose proof (WInv_store _ _ _ Hview HWI) as HWI1. wp_step.
  wp_step; [|split; [by exists now|done]]. intros projection ->. wp_steps.
  apply wp_in_world, wp_zoom. simpl. pose proof (by_calls_inv _ _ _ _ Hbetween HWI1) as HWI2.
  eapply wp_mono; [apply front_authorize_spec| |]; cbv beta.
  2:{ intros e p' Hview'. split; [|done]. exists now'. by apply WInv_store. }
  intros _ p' (Hview' & row & Hrow & Hshows). wp_step.
  split_and!; [by apply WInv_store|done|by exists p|].
  exists row. unfold held_rows. simpl. by rewrite Hview'.
Qed.

Lemma same_execution_true durable admission :
  same_execution durable admission = true →
  dt_context_id durable = dt_context_id admission ∧ dt_sender durable = dt_sender admission ∧
  dt_recipient durable = dt_recipient admission ∧ dt_payload durable = dt_payload admission ∧
  dt_created_unix_ms durable = dt_created_unix_ms admission.
Proof.
  unfold same_execution. rewrite !andb_true_iff, !bool_decide_eq_true, String.eqb_eq, Z.eqb_eq. naive_solver.
Qed.

(** The execution is the one that was admitted: of the task [durable], with the
    identity the admission recorded, which the broker retains in [w1] for the sender
    of the admission. *)
Record executes context f f' (durable : DurableTask) (token : string) (admission : DurableTask)
    w1 : Prop := {
  ex_header : ec_service_params context !! EXECUTION_ADMISSION_HEADER = Some [token];
  ex_issued : fr_pending f !! token = Some admission;
  ex_used : fr_pending f' = delete token (fr_pending f);
  ex_task : ec_task_id context = dt_task_id admission ∧ ec_context_id context = dt_context_id admission;
  ex_retained : ∃ t, tasks (w_state w1) !! ec_task_id context = Some t ∧
    durable = image (ec_task_id context) t;
  ex_durable : held_rows w1 !! ec_task_id context = Some durable;
  ex_sender : dt_sender durable = dt_sender admission;
  ex_same : same_execution durable admission = true;
}.

(** C20: An execution starts only with an admission that was issued for its task and was
    not used before; it uses exactly that one.  The task it runs is the one the broker
    retains, in its state and in its store, under the identifier of the execution when
    it asks for it (after other calls have run), from the sender the admission recorded
    and with the same identity; the projection it shows is the one the task store then
    has under that identifier, and it is authorized by the ledger. *)
Theorem execution_is_admitted clk now_before now now_get now_auth context before_snapshot
    before_get before_authorize f :
  Reachable clk (fr_world f) → by_calls clk now_before before_snapshot → (now_before ≤ now)%Z →
  by_calls now now_get before_get → by_calls now_get now_auth before_authorize →
  wp (begin_execution context before_snapshot now before_get before_authorize)
    (λ '(durable, projection, over) f', ∃ token admission w1 p,
       Maintained now (before_snapshot (fr_world f)) w1 ∧
       executes context f f' durable token admission w1 ∧
       over = state_is_terminal (dt_state durable) ∧
       front_get (ec_task_id context) (w_store (before_get w1)) = (Done (Some projection), p) ∧
       WInv now_auth (fr_world f') ∧
       ∃ row, held_rows (fr_world f') !! a2a_id projection = Some row ∧ shows row projection)
    (λ _ f', (∃ clk, WInv clk (fr_world f')) ∧
       (fr_pending f' = fr_pending f ∨
        ∃ token, ec_service_params context !! EXECUTION_ADMISSION_HEADER = Some [token] ∧
          fr_pending f' = delete token (fr_pending f))) f.
Proof.
  intros HWI%reachable_inv Hsn Hle Hget Hauth. unfold begin_execution. wp_step.
  eapply wp_mono; [apply consume_admission_spec| |]; cbv beta.
  2:{ intros e f' ->. split; [by exists clk|by left]. }
  intros admission f1 (token & Htoken & Hissued & ->). wp_step.
  wp_step; [|intros _; split; [by exists clk|right; by exists token]].
  intros [Hid%negb_false_iff%String.eqb_eq Hctx%negb_false_iff%String.eqb_eq]%orb_false_iff.
  unfold interfere. wp_steps. simpl. apply wp_in_world, wp_map_err. simpl.
  eapply wp_mono; [eapply task_snapshot_for_sender_spec; [by eapply by_calls_inv|done]| |]; cbv beta.
  2:{ intros e w' Hab. split; [exists now; by eapply aborted_inv|right; by exists token]. }
  intros durable w1 (t & HM & Ht & Hsender & ->). pose proof (mt_inv _ _ _ HM) as HWI1. wp_step.
  wp_step; [|intros _; split; [by exists now|right; by exists token]]. intros Hsame%negb_false_iff. wp_steps.
  eapply wp_mono; [eapply (authorized_projection_spec now_get); [exact (by_calls_inv _ _ _ _ Hget HWI1)|exact Hauth]| |]; cbv beta.
  2:{ intros e f' [Hclk Hp]. split; [done|]. right. by exists token. }
  intros projection f' (HWI' & Hp & [p Hfetched] & Hrow). wp_step. exists token, admission, w1, p.
  rewrite Hid in *. split_and!; [done| |done..].
  split; [done|done|by rewrite Hp|by split| | |done|done].
  - rewrite Hid. by exists t.
  - rewrite Hid. unfold held_rows.
    by rewrite (sync_rows _ _ (wi_sync _ _ HWI1) (mt_flag _ _ _ HM)), lookup_durable_rows, Ht.
Qed.
End access.

(** * The task store behind the request handler

    [SqliteTaskStore] as the [FrontStore] of the handler and the executor: the
    instance that makes the theorems of [A2aAccess] theorems about the handler on
    SQLite. *)
(** ** Computations that leave a part of the state alone *)

Section leaves.
Context {S E T : Type} (part : S → T).

(** Whatever the outcome, panics included. *)
Definition leaves {A} (m : ST S E A) : Prop := ∀ s, part (m s).2 = part s.

Lemma leaves_ret {A} (a : A) : leaves (st_ret a).
Proof. by intros s. Qed.

Lemma leaves_fail {A} e : leaves (A := A) (st_fail e).
Proof. by intros s. Qed.

Lemma leaves_lift {A} (m : Outcome E A) : leaves (st_lift m).
Proof. by intros s. Qed.

Lemma leaves_bind {A B} (m : ST S E A) (k : A → ST S E B) :
  leaves m → (∀ a, leaves (k a)) → leaves (st_bind m k).
Proof.
  intros Hm Hk s. unfold st_bind. specialize (Hm s).
  destruct (m s) as [[a|e|msg] s']; simpl in *; [|done..]. by rewrite Hk.
Qed.
End leaves.
#[export] Hint Resolve leaves_ret leaves_fail leaves_lift leaves_bind : herdr.

(** The tables and the open transaction. *)
Definition contents (db : Conn Tables) : Tables * option Tables := (committed db, working db).

Section reads.
Context `{Rusqlite} (fault : nat → option SqlError).

Lemma leaves_step : leaves contents (sql_step fault).
Proof. intros db. unfold sql_step. by destruct (fault (sql_calls db)). Qed.

Lemma leaves_query {A} (f : Tables → A) : leaves contents (query fault f).
Proof. apply leaves_bind; [apply leaves_step|]. by intros _ db. Qed.

Lemma leaves_lock : leaves contents lock_connection.
Proof. unfold lock_connection. apply leaves_bind; [by intros db|]. intros db. apply leaves_lift. Qed.

(** A worker that only reads: it returns or fails, and the tables are as they were. *)
Lemma wp_reading {A} (body : ST (Conn Tables) A2AError A) db :
  leaves contents body →
  wp (spawn_blocking body) (λ _ db', contents db' = contents db) (λ _ db', contents db' = contents db) db.
Proof.
  intros Hbody. pose proof (leaves_bind contents lock_connection (λ _, body) leaves_lock (λ _, Hbody) db) as Hl.
  unfold wp, spawn_blocking. by destruct (st_bind lock_connection _ db) as [[] ?].
Qed.
End reads.
#[export] Hint Resolve leaves_step leaves_query leaves_lock : herdr.

(** ** The operations of the store *)

Section front.
Context `{Rusqlite} `{JsonNumber} {serde : SerdeJson} {chrono : Chrono} {uuid : UuidLib}.
Context {json : LedgerSerde} {json_spec : LedgerSerdeSpec} {sha : Sha256} {cursors : CursorSerde}.
Context (fault : nat → option SqlError).
Implicit Types (s : SqliteTaskStore) (db : Conn Tables).

Lemma contents_undisturbed s db :
  StoreReady s → contents db = contents (store_connection s) →
  undisturbed s (s <| store_connection := db |>).
Proof. intros [Hi Hk Hr] [= Hc Hw]. split; [|done]. split; simpl; [congruence|by rewrite Hc|done]. Qed.

(** A worker on the connection. *)
Lemma wp_store_reading {A} (body : ST (Conn Tables) A2AError A) s :
  StoreReady s → leaves contents body →
  wp (on_connection (spawn_blocking body)) (λ _ s', undisturbed s s') (λ _ s', undisturbed s s') s.
Proof.
  intros Hs Hbody. apply wp_on_connection.
  eapply wp_mono; [by apply wp_reading|..]; intros ? db Hdb; by apply contents_undisturbed.
Qed.

(** The same for a worker on the whole store. *)
Definition store_contents s : (Tables * option Tables) * SdkProjectionAdmissionRegistry :=
  (contents (store_connection s), sdk_projection_admissions s).

Lemma leaves_on_connection {A} (m : ST (Conn Tables) A2AError A) :
  leaves contents m → leaves store_contents (on_connection m).
Proof.
  intros Hm s. unfold on_connection, zoom. specialize (Hm (store_connection s)).
  destruct (m (store_connection s)) as [r db]. unfold store_contents. simpl in *. by rewrite Hm.
Qed.

Lemma wp_run_reading {A} (body : ST SqliteTaskStore A2AError A) s :
  StoreReady s → leaves store_contents body →
  wp (run_blocking body) (λ _ s', undisturbed s s') (λ _ s', undisturbed s s') s.
Proof.
  intros Hs Hbody.
  pose proof (leaves_bind store_contents (on_connection lock_connection) (λ _, body)
    (leaves_on_connection _ leaves_lock) (λ _, Hbody) s) as Hl.
  assert (∀ s', store_contents s' = store_contents s → undisturbed s s') as Hsame.
  { destruct Hs as [Hi Hk Hr]. intros s' [= Hc Hw Ha].
    split; [split; simpl; [congruence|by rewrite Hc|by rewrite Ha]|done]. }
  unfold wp, run_blocking. destruct (st_bind _ _ s) as [[] s']; simpl in Hl; by apply Hsame.
Qed.

Lemma get_undisturbed task_id s :
  StoreReady s →
  wp (store_get fault task_id) (λ _ s', undisturbed s s') (λ _ s', undisturbed s s') s.
Proof.
  intros Hs. apply wp_run_reading; [done|].
  apply leaves_bind; [apply leaves_on_connection; auto with herdr|]. intros [text|]; auto with herdr.
Qed.

Lemma list_closure_leaves shown f page_size cursor : leaves contents (list_closure fault shown f page_size cursor).
Proof.
  unfold list_closure. apply leaves_bind; [destruct cursor; auto 10 with herdr|]. intros boundary.
  repeat (apply leaves_bind; [auto with herdr|intros ?]); auto with herdr.
Qed.

Lemma list_undisturbed name request s :
  StoreReady s →
  wp (on_connection (list_owned fault name request)) (λ _ s', undisturbed s s') (λ _ s', undisturbed s s') s.
Proof.
  intros Hs. apply wp_on_connection. pose proof (contents_undisturbed s (store_connection s) Hs eq_refl) as Hstay.
  unfold list_owned, list_tasks. wp_step.
  apply wp_lift_no_panic; [unfold decode_cursor; no_panic|intros cursor _|done]. wp_step.
  apply wp_lift_no_panic; [unfold request_filter, serialized_state; no_panic|intros f _|done]. wp_step.
  apply wp_lift_no_panic; [unfold request_page_size; no_panic|intros size _|done]. wp_step.
  eapply wp_mono; [apply wp_reading, list_closure_leaves| |].
  - intros [[page token] total] db Hdb. wp_step. by apply contents_undisturbed.
  - intros e db Hdb. by apply contents_undisturbed.
Qed.

(** The principal of a row is what its columns decode to. *)
Lemma decoded_principal (row : StoredTaskRow) (durable : DurableTask) sender recipient sender_text :
  decode_durable_task row = Done durable → str_sender_agent row = Some sender_text →
  AgentName_parse sender_text = Done sender → AgentName_parse (str_recipient_agent row) = Done recipient →
  dt_sender durable = sender ∧ dt_recipient durable = recipient.
Proof.
  unfold decode_durable_task. intros Hd Hs Hps Hpr. run_done Hd. injection Hd as <-.
  repeat match goal with
  | Ho : ok_or _ _ = Done _ |- _ => apply ok_or_Done in Ho
  | Ho : map_err _ _ = Done _ |- _ => apply map_err_Done in Ho
  end. simpl. split; congruence.
Qed.

Lemma principal_spec task_id s :
  StoreReady s →
  wp (on_connection (task_principal fault task_id))
    (λ found s', undisturbed s s' ∧
       ∀ principal row, found = Some principal →
         view_tasks (store_view s) !! task_id = Some row →
         dt_sender row = principal_sender principal ∧ dt_recipient row = principal_recipient principal)
    (λ _ s', undisturbed s s') s.
Proof.
  intros Hs. apply wp_on_connection. pose proof (contents_undisturbed s (store_connection s) Hs eq_refl) as Hstay.
  set (t := committed (store_connection s)).
  assert (∀ db, holds t None db → undisturbed s (s <| store_connection := db |>)) as Hsame.
  { intros db [Hc Hw]. apply contents_undisturbed; [done|]. unfold contents.
    by rewrite Hc, Hw, (ready_idle _ Hs). }
  unfold task_principal. apply wp_spawn_blocking; [done|]. wp_step.
  eapply (wp_query _ t None); [split; [done|apply Hs]| |auto]. intros db1 Hdb1.
  destruct (negb _); [wp_step; split; [auto|done]|]. wp_step.
  eapply wp_query; [exact Hdb1| |auto]. intros db2 Hdb2. simpl.
  destruct (delivery_tasks t !! task_id) as [stored|] eqn:Hstored; [|wp_step; split; [auto|done]].
  destruct (recoverable stored); [|wp_step; split; [auto|done]].
  destruct (str_sender_agent stored) as [sender_text|] eqn:Hsender; [|wp_step; auto]. wp_step.
  apply wp_lift_no_panic; [auto with herdr|intros sender Hps%map_err_Done|auto]. wp_step.
  apply wp_lift_no_panic; [auto with herdr|intros recipient Hpr%map_err_Done|auto]. wp_step.
  split; [auto|]. intros principal row [= <-] Hrow. unfold store_view in Hrow. simpl in Hrow.
  unfold ledger_tasks in Hrow. rewrite lookup_omap in Hrow. fold t in Hrow. rewrite Hstored in Hrow. simpl in Hrow.
  apply decoded_Some in Hrow. by eapply decoded_principal.
Qed.

Lemma authorize_undisturbed task s :
  StoreReady s →
  wp (authorize_sdk_projection fault task) (λ _ s', undisturbed s s') (λ _ s', undisturbed s s') s.
Proof.
  intros Hs. eapply wp_mono; [by apply authorize_spec| |done].
  intros _ s' (columns & durable & text & expected & sequence & _ & _ & _ & _ & Hsame). exact Hsame.
Qed.

(** ** The instance *)

Lemma wp_ready {A} (m : ST SqliteTaskStore A2AError A) s :
  wp m (λ _ s', undisturbed s s') (λ _ s', undisturbed s s') s → StoreReady (m s).2.
Proof. unfold wp. by destruct (m s) as [[] s']; [intros [? _]..|]. Qed.

(** An operation of the store between calls. *)
Definition on_ledger {A} (m : ST SqliteTaskStore A2AError A)
    (calm : ∀ s, StoreReady s → wp m (λ _ s', undisturbed s s') (λ _ s', undisturbed s s') s)
    : ST LedgerStore A2AError A := λ p,
  let out := m (`p) in (out.1, out.2 ↾ wp_ready m (`p) (calm (`p) (proj2_sig p))).

Lemma principal_undisturbed task_id s :
  StoreReady s →
  wp (on_connection (task_principal fault task_id)) (λ _ s', undisturbed s s') (λ _ s', undisturbed s s') s.
Proof. intros Hs. eapply wp_mono; [by apply principal_spec| |done]. by intros found s' [? _]. Qed.

#[global] Instance sqlite_front : FrontStore LedgerStore := {|
  front_task_principal task_id := on_ledger _ (principal_undisturbed task_id);
  front_get task_id := on_ledger _ (get_undisturbed task_id);
  front_authorize task := on_ledger _ (authorize_undisturbed task);
  front_list_owned name request := on_ledger _ (list_undisturbed name request);
|}.

Lemma wp_on_ledger {A} (m : ST SqliteTaskStore A2AError A) calm Q X p :
  wp m (λ a s', ∀ Hs, Q a (s' ↾ Hs)) (λ e s', ∀ Hs, X e (s' ↾ Hs)) (`p) → wp (on_ledger m calm) Q X p.
Proof.
  unfold wp, on_ledger. generalize (wp_ready m (`p) (calm (`p) (proj2_sig p))).
  destruct (m (`p)) as [[] s']; intros Hs Hwp; [apply Hwp..|done].
Qed.

(** The projection of a row, as the store writes it. *)
Definition projection_of (row : DurableTask) (task : A2ATask) : Prop :=
  ∃ columns, TaskColumns_from_task task = Done columns ∧ projection_json row = Done (tc_task_json columns).

#[global] Instance sqlite_front_spec `{!IntegerNumbers} : @FrontStoreSpec _ chrono LedgerStore (sqlite_persistence fault) (sqlite_spec fault) sqlite_front.
Proof.
  assert (∀ s s' (Hs : StoreReady s) (Hs' : StoreReady s'), undisturbed s s' →
    @view _ _ _ (sqlite_spec fault) (s' ↾ Hs') = @view _ _ _ (sqlite_spec fault) (s ↾ Hs)) as Hview.
  { intros s s' Hs Hs' [_ Hc]. cbn. unfold store_view. by rewrite Hc. }
  refine {| shows := projection_of |}.
  - intros task_id [s Hs]. apply wp_on_ledger.
    eapply wp_mono; [by apply principal_spec|..].
    + intros found s' [Hu Hp] Hs'. split; [by apply Hview|exact Hp].
    + intros e s' Hu Hs'. by apply Hview.
  - intros task_id [s Hs]. apply wp_on_ledger.
    eapply wp_mono; [by apply get_undisturbed|..]; intros ? s' Hu Hs'; by apply Hview.
  - intros task [s Hs]. apply wp_on_ledger. eapply wp_mono; [by apply authorize_spec|..].
    + intros _ s' (columns & durable & text & expected & sequence & Hcols & -> & Hauth & _ & Hu) Hs'.
      split; [by apply Hview|]. exists durable.
      assert (tc_task_id columns = a2a_id task) as Hid.
      { pose proof Hcols as Hc. unfold TaskColumns_from_task in Hc. run_done Hc. by injection Hc as <-. }
      destruct (auth_row _ _ _ _ _ Hauth) as (row & Hrow & _ & Hdec). rewrite Hid in Hrow. simpl in Hrow. split.
      * change (ledger_tasks (committed (store_connection s)) !! a2a_id task = Some durable).
        unfold ledger_tasks. rewrite lookup_omap, Hrow. cbn. by apply decoded_Some.
      * exists columns. split; [done|]. apply (auth_text _ _ _ _ _ Hauth).
    + intros e s' Hu Hs'. by apply Hview.
  - intros name request [s Hs]. apply wp_on_ledger.
    eapply wp_mono; [by apply list_undisturbed|..]; intros ? s' Hu Hs'; by apply Hview.
Defined.
End front.
