(* ===== verification/A2aGates.v ===== *)
(** * The gates of the send workflows

    [send_gate] and [release_send_gate] of [herdr-a2a-broker/src/a2a.rs], and the
    steps of the workflows ([run_unary_send], [run_streaming_send]) that use them: a
    workflow fetches the gate of its task, locks it, runs, unlocks it, releases the
    gate and drops it; a workflow that leaves through [?] drops its guard and its gate
    and releases nothing.

    A gate is an [Arc<Mutex<()>>] under an identifier; [strong] is its strong count;
    the map of the handler holds [Weak] references. *)
From stdpp Require Import prelude gmap strings sorting.
From S2P Require Import Prelude.

Record SendGates := MkSendGates {
  gates : gmap string nat;
  strong : gmap nat nat;
  next_gate : nat;
}.

#[global] Instance SendGates_fields : Fields SendGates := λ s,
  MkSendGates (gates s) (strong s) (next_gate s).

Definition strong_count (s : SendGates) (gate : nat) : nat := default 0%nat (strong s !! gate).

(** [Weak::upgrade]: the gate, if an [Arc] of it is left. *)
Definition upgrade (s : SendGates) (gate : nat) : option nat :=
  if (0 <? strong_count s gate)%nat then Some gate else None.

Definition clone_arc (gate : nat) (s : SendGates) : SendGates :=
  s <| strong ::= insert gate (S (strong_count s gate)) |>.

Definition drop_arc (gate : nat) (s : SendGates) : SendGates :=
  s <| strong ::= insert gate (pred (strong_count s gate)) |>.

Definition send_gate (task_id : string) (s : SendGates) : nat * SendGates :=
  match and_then (gates s !! task_id) (upgrade s) with
  | Some gate => (gate, clone_arc gate s)
  | None =>
      let gate := next_gate s in
      (gate, clone_arc gate (s <| gates ::= insert task_id gate |> <| next_gate ::= S |>))
  end.

Definition release_send_gate (task_id : string) (gate : nat) (s : SendGates) : SendGates :=
  let is_current :=
    match and_then (gates s !! task_id) (upgrade s) with
    | Some current => (current =? gate)%nat
    | None => false
    end in
  if is_current && (strong_count s gate =? 1)%nat then s <| gates ::= delete task_id |> else s.

(** ** The workflows *)

Inductive Phase := Fetched | Holding | Unlocked | Released.
#[global] Instance Phase_eq_dec : EqDecision Phase.
Proof. solve_decision. Defined.

Record Workflow := MkWorkflow {
  wf_task : string;
  wf_gate : nat;
  wf_phase : Phase;
}.

#[global] Instance Workflow_fields : Fields Workflow := λ r, MkWorkflow (wf_task r) (wf_gate r) (wf_phase r).

Record Workflows := MkWorkflows {
  handler_gates : SendGates;
  running : gmap nat Workflow;
}.

Definition no_workflows : Workflows := MkWorkflows (MkSendGates ∅ ∅ 0) ∅.

(** One step of the workflow [k]. *)
Inductive workflow_step : Workflows → Workflows → Prop :=
| step_fetch s ws k task_id gate s' :
    ws !! k = None → send_gate task_id s = (gate, s') →
    workflow_step (MkWorkflows s ws) (MkWorkflows s' (<[k := MkWorkflow task_id gate Fetched]> ws))
| step_lock s ws k task_id gate :
    ws !! k = Some (MkWorkflow task_id gate Fetched) →
    (∀ j task_id', ws !! j ≠ Some (MkWorkflow task_id' gate Holding)) →
    workflow_step (MkWorkflows s ws) (MkWorkflows s (<[k := MkWorkflow task_id gate Holding]> ws))
| step_unlock s ws k task_id gate :
    ws !! k = Some (MkWorkflow task_id gate Holding) →
    workflow_step (MkWorkflows s ws) (MkWorkflows s (<[k := MkWorkflow task_id gate Unlocked]> ws))
| step_release s ws k task_id gate :
    ws !! k = Some (MkWorkflow task_id gate Unlocked) →
    workflow_step (MkWorkflows s ws)
      (MkWorkflows (release_send_gate task_id gate s) (<[k := MkWorkflow task_id gate Released]> ws))
| step_return s ws k task_id gate phase :
    ws !! k = Some (MkWorkflow task_id gate phase) → phase = Released ∨ phase = Holding →
    workflow_step (MkWorkflows s ws) (MkWorkflows (drop_arc gate s) (delete k ws)).

(** ** The invariant *)

Definition with_gate (gate : nat) (ws : gmap nat Workflow) : gmap nat Workflow :=
  filter (λ kw, wf_gate kw.2 = gate) ws.

Record GatesOK (x : Workflows) : Prop := {
  go_count : ∀ gate, strong_count (handler_gates x) gate = size (with_gate gate (running x));
  go_fresh : ∀ k wf, running x !! k = Some wf → (wf_gate wf < next_gate (handler_gates x))%nat;
  go_known : ∀ task_id gate, gates (handler_gates x) !! task_id = Some gate →
    (gate < next_gate (handler_gates x))%nat;
  go_current : ∀ k wf, running x !! k = Some wf → wf_phase wf ≠ Released →
    gates (handler_gates x) !! wf_task wf = Some (wf_gate wf);
  go_locked : ∀ j k wf wf', running x !! j = Some wf → running x !! k = Some wf' →
    wf_phase wf = Holding → wf_phase wf' = Holding → wf_gate wf = wf_gate wf' → j = k;
}.

Lemma size_with_gate gate k wf ws :
  ws !! k = None →
  size (with_gate gate (<[k := wf]> ws))
  = ((if decide (wf_gate wf = gate) then 1 else 0) + size (with_gate gate ws))%nat.
Proof.
  intros Hk. unfold with_gate. destruct (decide (wf_gate wf = gate)) as [Hg|Hg].
  - rewrite map_filter_insert_True by done. rewrite map_size_insert_None; [done|].
    apply map_lookup_filter_None. by left.
  - rewrite map_filter_insert_False by done. by rewrite delete_id.
Qed.

Lemma size_with_gate_delete gate k wf ws :
  ws !! k = Some wf →
  size (with_gate gate ws)
  = ((if decide (wf_gate wf = gate) then 1 else 0) + size (with_gate gate (delete k ws)))%nat.
Proof.
  intros Hk. rewrite <-(insert_delete_id ws k wf Hk) at 1. apply size_with_gate, lookup_delete_eq.
Qed.

(** A step of a workflow that keeps its gate. *)
Lemma size_with_gate_replace gate k wf wf' ws :
  ws !! k = Some wf → wf_gate wf' = wf_gate wf →
  size (with_gate gate (<[k := wf']> ws)) = size (with_gate gate ws).
Proof.
  intros Hk Hg. rewrite <-insert_delete_eq, size_with_gate by apply lookup_delete_eq.
  rewrite (size_with_gate_delete gate k wf ws) by done. by rewrite Hg.
Qed.

Lemma with_gate_pos gate k wf ws :
  ws !! k = Some wf → wf_gate wf = gate → (0 < size (with_gate gate ws))%nat.
Proof. intros Hk Hg. rewrite (size_with_gate_delete gate k wf) by done. rewrite decide_True by done. lia. Qed.

(** With one [Arc] left, no other workflow has the gate. *)
Lemma with_gate_unique gate j k wf wf' ws :
  size (with_gate gate ws) = 1%nat → ws !! j = Some wf → ws !! k = Some wf' →
  wf_gate wf = gate → wf_gate wf' = gate → j = k.
Proof.
  intros Hone Hj Hk Hgj Hgk. destruct (decide (j = k)) as [|Hne]; [done|].
  rewrite (size_with_gate_delete gate j wf), decide_True in Hone by done.
  assert (delete j ws !! k = Some wf') as Hk' by by rewrite lookup_delete_ne.
  pose proof (with_gate_pos gate k wf' _ Hk' Hgk). lia.
Qed.

Lemma strong_count_clone gate s gate' :
  strong_count (clone_arc gate s) gate'
  = ((if decide (gate = gate') then 1 else 0) + strong_count s gate')%nat.
Proof.
  unfold strong_count at 1, clone_arc. simpl. destruct (decide (gate = gate')) as [<-|Hne].
  - by rewrite lookup_insert_eq.
  - by rewrite lookup_insert_ne.
Qed.

Lemma strong_count_drop gate s gate' :
  strong_count (drop_arc gate s) gate'
  = (strong_count s gate' - (if decide (gate = gate') then 1 else 0))%nat.
Proof.
  unfold strong_count at 1, drop_arc. simpl. destruct (decide (gate = gate')) as [<-|Hne].
  - rewrite lookup_insert_eq. simpl. lia.
  - rewrite lookup_insert_ne by done. unfold strong_count. lia.
Qed.

Lemma send_gate_cases task_id s gate s' :
  send_gate task_id s = (gate, s') →
  (gates s !! task_id = Some gate ∧ (0 < strong_count s gate)%nat ∧ s' = clone_arc gate s) ∨
  ((∀ g, gates s !! task_id = Some g → strong_count s g = 0%nat) ∧ gate = next_gate s ∧
   s' = clone_arc gate (s <| gates ::= insert task_id gate |> <| next_gate ::= S |>)).
Proof.
  unfold send_gate, and_then, upgrade. destruct (gates s !! task_id) as [g|]; [|intros [= <- <-]; by right].
  destruct (0 <? strong_count s g)%nat eqn:Hc; intros [= <- <-].
  - left. apply Nat.ltb_lt in Hc. done.
  - right. apply Nat.ltb_ge in Hc. split_and!; [|done..]. intros g' [= <-]. lia.
Qed.

Lemma GatesOK_initial : GatesOK no_workflows.
Proof. split; done. Qed.

Lemma step_fetch_ok s ws k task_id gate s' :
  GatesOK (MkWorkflows s ws) → ws !! k = None → send_gate task_id s = (gate, s') →
  GatesOK (MkWorkflows s' (<[k := MkWorkflow task_id gate Fetched]> ws)).
Proof.
  intros [Hcount Hfresh Hknown Hcur Hlock] Hk Hsend. simpl in *.
  apply send_gate_cases in Hsend as [(Hgate & Hpos & ->)|(Hdead & -> & ->)].
  - split; simpl.
    + intros g. rewrite strong_count_clone, size_with_gate, Hcount by done. done.
    + intros j wf. rewrite lookup_insert_Some. intros [[<- <-]|[_ Hj]]; eauto.
    + done.
    + intros j wf. rewrite lookup_insert_Some. intros [[<- <-]|[_ Hj]]; eauto.
    + intros i j wf wf'. rewrite !lookup_insert_Some. intros [[<- <-]|[_ Hi]] [[<- <-]|[_ Hj]]; [done..|eauto].
  - split; simpl.
    + intros g. rewrite strong_count_clone, size_with_gate by done. rewrite <-Hcount. done.
    + intros j wf. rewrite lookup_insert_Some. intros [[<- <-]|[_ Hj]]; simpl; [lia|].
      specialize (Hfresh _ _ Hj). lia.
    + intros id g. rewrite lookup_insert_Some. intros [[<- <-]|[_ Hg]]; [lia|].
      specialize (Hknown _ _ Hg). lia.
    + intros j wf. rewrite lookup_insert_Some. intros [[<- <-]|[_ Hj]] Hp; simpl; [apply lookup_insert_eq|].
      rewrite lookup_insert_ne; [eauto|]. intros ->. specialize (Hcur _ _ Hj Hp).
      specialize (Hdead _ Hcur). rewrite Hcount in Hdead.
      pose proof (with_gate_pos _ _ _ _ Hj eq_refl). lia.
    + intros i j wf wf'. rewrite !lookup_insert_Some. intros [[<- <-]|[_ Hi]] [[<- <-]|[_ Hj]]; [done..|eauto].
Qed.

(** The phase of one workflow changes, and the gates do not. *)
Lemma step_phase_ok s ws k task_id gate phase phase' :
  GatesOK (MkWorkflows s ws) → ws !! k = Some (MkWorkflow task_id gate phase) → phase ≠ Released →
  (phase' = Holding → ∀ j wf, ws !! j = Some wf → wf_phase wf = Holding → wf_gate wf ≠ gate) →
  GatesOK (MkWorkflows s (<[k := MkWorkflow task_id gate phase']> ws)).
Proof.
  intros [Hcount Hfresh Hknown Hcur Hlock] Hk Hp Hfree. simpl in *. split; simpl.
  - intros g. by rewrite (size_with_gate_replace g k (MkWorkflow task_id gate phase)).
  - intros j wf. rewrite lookup_insert_Some. intros [[<- <-]|[_ Hj]]; [|eauto]. by apply (Hfresh _ _ Hk).
  - done.
  - intros j wf. rewrite lookup_insert_Some. intros [[<- <-]|[_ Hj]] Hp'; [|eauto]. by apply (Hcur _ _ Hk).
  - intros i j wf wf'. rewrite !lookup_insert_Some.
    intros [[<- <-]|[_ Hi]] [[<- <-]|[_ Hj]]; simpl; intros Hh Hh' Hg; [done|..|eauto].
    + by destruct (Hfree Hh _ _ Hj Hh').
    + by destruct (Hfree Hh' _ _ Hi Hh).
Qed.

Lemma release_cases task_id gate s :
  release_send_gate task_id gate s = s ∨
  gates s !! task_id = Some gate ∧ strong_count s gate = 1%nat ∧
  release_send_gate task_id gate s = s <| gates ::= delete task_id |>.
Proof.
  unfold release_send_gate, and_then, upgrade. destruct (gates s !! task_id) as [g|]; [|by left].
  destruct (0 <? strong_count s g)%nat; [|by left]. destruct (g =? gate)%nat eqn:Hg; [|by left].
  apply Nat.eqb_eq in Hg as ->. destruct (strong_count s gate =? 1)%nat eqn:Hc; [|by left].
  right. by apply Nat.eqb_eq in Hc.
Qed.

Lemma step_release_ok s ws k task_id gate :
  GatesOK (MkWorkflows s ws) → ws !! k = Some (MkWorkflow task_id gate Unlocked) →
  GatesOK (MkWorkflows (release_send_gate task_id gate s) (<[k := MkWorkflow task_id gate Released]> ws)).
Proof.
  intros Hok Hk. pose proof (step_phase_ok s ws k task_id gate Unlocked Released Hok Hk) as Hnext.
  destruct (release_cases task_id gate s) as [->|(Hgate & Hone & ->)]; [by apply Hnext|].
  destruct Hnext as [Hcount Hfresh Hknown Hcur Hlock]; [done..|]. destruct Hok as [Hcount0 _ _ _ _]. simpl in *.
  split; simpl; [done|done| |..|done].
  - intros id g. rewrite lookup_delete_Some. intros [_ Hg]. eauto.
  - intros j wf Hj Hp. pose proof (Hcur _ _ Hj Hp) as Hwf. rewrite lookup_delete_ne; [done|]. intros Hid.
    rewrite <-Hid, Hgate in Hwf. injection Hwf as Hg. rewrite lookup_insert_Some in Hj.
    destruct Hj as [[<- <-]|[Hne Hj]]; [done|]. rewrite Hcount0 in Hone.
    by apply Hne, (with_gate_unique gate k j (MkWorkflow task_id gate Unlocked) wf ws).
Qed.

Lemma step_return_ok s ws k wf :
  GatesOK (MkWorkflows s ws) → ws !! k = Some wf →
  GatesOK (MkWorkflows (drop_arc (wf_gate wf) s) (delete k ws)).
Proof.
  intros [Hcount Hfresh Hknown Hcur Hlock] Hk. simpl in *. split; simpl.
  - intros g. rewrite strong_count_drop, Hcount, (size_with_gate_delete g k wf ws) by done.
    destruct (decide (wf_gate wf = g)); lia.
  - intros j wf'. rewrite lookup_delete_Some. intros [_ Hj]. eauto.
  - done.
  - intros j wf'. rewrite lookup_delete_Some. intros [_ Hj]. eauto.
  - intros i j w w'. rewrite !lookup_delete_Some. intros [_ Hi] [_ Hj]. eauto.
Qed.

Lemma workflow_step_ok x x' : GatesOK x → workflow_step x x' → GatesOK x'.
Proof.
  intros Hok Hstep. destruct Hstep as [s ws k id g s' Hk Hs|s ws k id g Hk Hf|s ws k id g Hk|s ws k id g Hk|s ws k id g p Hk _].
  - by apply (step_fetch_ok s).
  - apply (step_phase_ok _ _ _ _ _ Fetched); [done..|]. intros _ j [id' g' p'] Hj Hp Hg.
    simpl in *. subst. by destruct (Hf j id').
  - by apply (step_phase_ok _ _ _ _ _ Holding).
  - by apply step_release_ok.
  - by apply (step_return_ok s ws k (MkWorkflow id g p)).
Qed.

(** C21: The send workflows of one task exclude each other: whatever the order of their
    steps, and although gates are removed and made again, at most one of them holds
    the gate of its task. *)
Theorem sends_exclude_each_other x j k wf wf' :
  rtc workflow_step no_workflows x →
  running x !! j = Some wf → running x !! k = Some wf' →
  wf_task wf = wf_task wf' → wf_phase wf = Holding → wf_phase wf' = Holding → j = k.
Proof.
  intros Hrun Hj Hk Htask Hp Hp'. assert (GatesOK x) as [_ _ _ Hcur Hlock].
  { revert Hrun. generalize no_workflows GatesOK_initial. intros x0 H0 Hrun.
    induction Hrun as [|x0 x1 x2 Hstep _ IH]; [done|]. by eapply IH, workflow_step_ok. }
  eapply Hlock; [done..|].
  assert (wf_phase wf ≠ Released ∧ wf_phase wf' ≠ Released) as [Hr Hr'] by (rewrite Hp, Hp'; done).
  pose proof (Hcur _ _ Hj Hr) as Hg. pose proof (Hcur _ _ Hk Hr') as Hg'. rewrite Htask in Hg. congruence.
Qed.

(** ** Two workflows of one task *)

Module GatesSample.
(** The gate is used by two workflows, number 1 and number 2. *)
Definition shared : SendGates := MkSendGates {["t1" := 0%nat]} {[0%nat := 2%nat]} 1.
Definition both (p1 p2 : Phase) : Workflows :=
  MkWorkflows shared (<[2%nat := MkWorkflow "t1" 0 p2]> {[1%nat := MkWorkflow "t1" 0 p1]}).
Definition left_behind : Workflows := MkWorkflows (MkSendGates {["t1" := 0%nat]} {[0%nat := 0%nat]} 1) ∅.

Lemma fetch_both : rtc workflow_step no_workflows (both Fetched Fetched).
Proof.
  eapply rtc_l; [by apply (step_fetch _ _ 1 "t1")|].
  eapply rtc_l; [by apply (step_fetch _ _ 2 "t1")|]. apply rtc_refl.
Qed.

Lemma phase_one s ws p p' task_id gate k :
  ws !! k = Some (MkWorkflow task_id gate p) →
  (p = Fetched ∧ p' = Holding ∧ (∀ j task_id', ws !! j ≠ Some (MkWorkflow task_id' gate Holding))) ∨
  (p = Holding ∧ p' = Unlocked) →
  workflow_step (MkWorkflows s ws) (MkWorkflows s (<[k := MkWorkflow task_id gate p']> ws)).
Proof. intros Hk [(-> & -> & Hf)|[-> ->]]; [by apply step_lock|by apply step_unlock]. Qed.

Lemma both_lookup p1 p2 j wf : running (both p1 p2) !! j = Some wf → wf_phase wf = p1 ∨ wf_phase wf = p2.
Proof.
  unfold both. simpl. rewrite lookup_insert_Some, lookup_singleton_Some. intros [[_ <-]|[_ [_ <-]]]; auto.
Qed.

Lemma lock_first : workflow_step (both Fetched Fetched) (both Holding Fetched).
Proof.
  refine (phase_one shared (running (both Fetched Fetched)) Fetched Holding "t1" 0 1 _ _); [done|].
  left. split_and!; [done..|]. intros j id Hj. by destruct (both_lookup _ _ _ _ Hj).
Qed.

Lemma run_both : rtc workflow_step (both Fetched Fetched) (both Unlocked Unlocked).
Proof.
  apply (rtc_l _ _ (both Holding Fetched)); [apply lock_first|].
  apply (rtc_l _ _ (both Unlocked Fetched)).
  { refine (phase_one shared (running (both Holding Fetched)) Holding Unlocked "t1" 0 1 _ _); [done|by right]. }
  apply (rtc_l _ _ (both Unlocked Holding)).
  { refine (phase_one shared (running (both Unlocked Fetched)) Fetched Holding "t1" 0 2 _ _); [done|].
    left. split_and!; [done..|]. intros j id Hj. by destruct (both_lookup _ _ _ _ Hj). }
  apply rtc_once.
  refine (phase_one shared (running (both Unlocked Holding)) Holding Unlocked "t1" 0 2 _ _); [done|by right].
Qed.

Lemma release_both : rtc workflow_step (both Unlocked Unlocked) left_behind.
Proof.
  apply (rtc_l _ _ (both Released Unlocked)).
  { by refine (step_release shared (running (both Unlocked Unlocked)) 1 "t1" 0 _). }
  apply (rtc_l _ _ (both Released Released)).
  { by refine (step_release shared (running (both Released Unlocked)) 2 "t1" 0 _). }
  eapply rtc_l.
  { refine (step_return shared (running (both Released Released)) 1 "t1" 0 Released _ _); [done|by left]. }
  eapply rtc_l; [|apply rtc_refl].
  refine (step_return _ (delete 1%nat (running (both Released Released))) 2 "t1" 0 Released _ _); [done|by left].
Qed.
End GatesSample.

(** The entry of a task can outlive its workflows: when two of them release the gate
    before either has dropped its [Arc], neither removes the entry, which then stays
    until the next message for the same task. *)
Theorem gate_entry_can_stay :
  ∃ x, rtc workflow_step no_workflows x ∧ running x = ∅ ∧ gates (handler_gates x) !! "t1" = Some 0%nat.
Proof.
  exists GatesSample.left_behind. split; [|done].
  etrans; [apply GatesSample.fetch_both|]. etrans; [apply GatesSample.run_both|apply GatesSample.release_both].
Qed.

(** Witness: a run in which the first of two workflows holds the gate. *)
Lemma sends_exclude_each_other_witness :
  running (GatesSample.both Holding Fetched) !! 1%nat = Some (MkWorkflow "t1" 0 Holding) ∧ 1%nat = 1%nat.
Proof.
  split; [reflexivity|].
  apply (sends_exclude_each_other (GatesSample.both Holding Fetched) 1 1
    (MkWorkflow "t1" 0 Holding) (MkWorkflow "t1" 0 Holding)); [|reflexivity..].
  etrans; [apply GatesSample.fetch_both|]. apply rtc_once, GatesSample.lock_first.
Defined.
