(* ===== verification/A2aHandler.v ===== *)
(** * The request handler and the HTTP layer around it

    The rest of [herdr-a2a-broker/src/a2a.rs]: the send workflows behind their gates,
    subscriptions, the guards of the push configurations, the agent card and the
    middleware that marks explicitly empty identifiers.

    A stream is the list of the events it yields; the stream of a task that is not
    over ends with one more event, which waits.  The SDK's handler is a parameter. *)
From stdpp Require Import prelude gmap strings sorting.
From S2P Require Import Prelude RustStd Model Validation Durability BrokerState BrokerDurable BrokerMaintain BrokerOps.
From S2P Require Import BrokerInv BrokerWorld BrokerSpec BrokerReach BrokerProgress Scenario Sqlite LedgerCodec Ledger.
From S2P Require Import LedgerRows LedgerCommit Admissions TaskStore SdkStore SdkStoreTheorems.
From S2P Require Import TaskListing A2aFront A2aSending A2aAccess.

Section handler.
Context `{JsonNumber} {serde : SerdeJson} {chrono : Chrono} {uuid : UuidLib} {lib : A2ALib}.
Context {P : Type} {persistence : BrokerPersistence P} {store : FrontStore P}.
Context (canonicalize : PathBuf → option PathBuf).

Abbreviation M := (ST (Front P) A2AError).

Inductive StreamResponse := StreamTask (task : A2ATask) | StreamOther (value : Value).
Inductive SendMessageResponse := SendTask (task : A2ATask) | SendOther (message : Message).
Definition Event : Type := Result A2AError StreamResponse.

(** [DefaultRequestHandler] *)
Class InnerHandler := {
  inner_send_message : ServiceParams → SendMessageRequest → M SendMessageResponse;
  inner_send_streaming_message : ServiceParams → SendMessageRequest → M (list Event);
  inner_subscribe_to_task : ServiceParams → string → option string → M (list Event);
}.

Context {inner : InnerHandler}.

(** [match call.await { Ok(..) => .., Err(_) => .. }] *)
Definition attempt {A} (m : M A) : M (Result A2AError A) := λ f,
  match m f with
  | (Done a, f') => (Done (Ok a), f')
  | (Fail e, f') => (Done (Err e), f')
  | (Panic msg, f') => (Panic msg, f')
  end.

(** ** Executions under an admission *)

(** The admission is dropped at the end of the scope, however it ends. *)
Definition with_admission {A} (token : string) (body : M A) : M A := λ f,
  let '(r, f') := body f in (r, drop_admission token f').

Definition run_admitted_unary (token : string) (params : ServiceParams) (request : SendMessageRequest)
    (decision : StartOrResume) : M SendMessageResponse :=
  with_admission token (
    let! params := admit_execution token params decision in
    inner_send_message params request).

(** The stream keeps the admission; an error drops it. *)
Definition run_admitted_streaming (token : string) (params : ServiceParams)
    (request : SendMessageRequest) (decision : StartOrResume) : M (list Event) := λ f,
  match (let! params := admit_execution token params decision in
         inner_send_streaming_message params request) f with
  | (Done events, f') => (Done events, f')
  | (r, f') => (r, drop_admission token f')
  end.

(** ** The send workflows *)

Definition stored_task (task_id : string) : M A2ATask :=
  let! found := in_world (in_store (front_get task_id)) in
  st_lift (ok_or found (A2A_task_not_found task_id)).

(** [while let Some(event) = stream.next().await { last = Some(event?) }] *)
Fixpoint last_event (events : list Event) (last : option StreamResponse)
    : Outcome A2AError (option StreamResponse) :=
  match events with
  | [] => Done last
  | Ok event :: events => last_event events (Some event)
  | Err e :: _ => Fail e
  end.

(** [run_unary_send] between [lock] and [drop(guard)]; [token] is the admission it may
    issue. *)
Definition unary_send (params : ServiceParams) (request : SendMessageRequest)
    (new_context_id token : string) (schedule : SendSchedule (P := P)) : M SendMessageResponse :=
  let! task_id := st_lift (expect (message_task_id (send_message request))
                    "send workflow assigns a task ID before spawning") in
  let! (request, task_id, decision) :=
    in_world (prepare_send canonicalize params request task_id new_context_id schedule) in
  match decision with
  | Started _ => run_admitted_unary token params request decision
  | Terminal _ => let! task := stored_task task_id in st_ret (SendTask task)
  | Active _ =>
      if bool_decide (and_then (send_configuration request) return_immediately = Some true)
      then let! task := stored_task task_id in st_ret (SendTask task)
      else
        let! subscription := attempt (inner_subscribe_to_task params task_id (send_tenant request)) in
        match subscription with
        | Ok events =>
            let! last := st_lift (last_event events None) in
            match last with
            | Some (StreamTask task) => st_ret (SendTask task)
            | _ => run_admitted_unary token params request decision
            end
        | Err _ => run_admitted_unary token params request decision
        end
  end.

(** [run_streaming_send]; an error of [prepare_send] becomes the only event. *)
Definition streaming_send (params : ServiceParams) (request : SendMessageRequest)
    (new_context_id token : string) (schedule : SendSchedule (P := P)) : M (list Event) :=
  let! task_id := st_lift (expect (message_task_id (send_message request))
                    "send workflow assigns a task ID before spawning") in
  let! prepared := attempt (in_world
    (prepare_send canonicalize params request task_id new_context_id schedule)) in
  match prepared with
  | Err error => st_ret [Err error]
  | Ok (request, task_id, decision) =>
      match decision with
      | Started _ => run_admitted_streaming token params request decision
      | Terminal _ => let! task := stored_task task_id in st_ret [Ok (StreamTask task)]
      | Active _ =>
          let! subscription := attempt (inner_subscribe_to_task params task_id (send_tenant request)) in
          match subscription with
          | Ok events => st_ret events
          | Err _ => run_admitted_streaming token params request decision
          end
      end
  end.

(** [RequestHandler::send_message] and [send_streaming_message]: the identifier is
    assigned first, then the workflow runs. *)
Definition with_task_id (new_task_id : string) (request : SendMessageRequest) : SendMessageRequest :=
  request <| send_message ::= λ m,
    m <| message_task_id := Some (default new_task_id (message_task_id m)) |> |>.

Definition handler_send_message (params : ServiceParams) (request : SendMessageRequest)
    (new_task_id new_context_id token : string) (schedule : SendSchedule (P := P)) : M SendMessageResponse :=
  unary_send params (with_task_id new_task_id request) new_context_id token schedule.

Definition handler_send_streaming_message (params : ServiceParams) (request : SendMessageRequest)
    (new_task_id new_context_id token : string) (schedule : SendSchedule (P := P)) : M (list Event) :=
  streaming_send params (with_task_id new_task_id request) new_context_id token schedule.

(** ** Subscriptions *)

(** The events at once, and whether one more follows when the task is over. *)
Definition subscribe_to_task (params : ServiceParams) (task_id : string) (tenant : option string)
    (now : Z) (before_principal before_inner before_get : World P → World P)
    : M (list Event * bool) :=
  let! sender := attempt (in_world
    (require_owner_and_recipient params task_id tenant now before_principal)) in
  match sender with
  | Err error => st_ret ([Err error], false)
  | Ok _ =>
      let! _ := interfere before_inner in
      let! subscription := attempt (inner_subscribe_to_task params task_id tenant) in
      match subscription with
      | Ok events => st_ret (events, false)
      | Err _ =>
          let! _ := interfere before_get in
          let! task := stored_task task_id in
          st_ret ([Ok (StreamTask task)],
                  negb (task_state_is_terminal (status_state (a2a_status task))))
      end
  end.

(** [create_push_config], [get_push_config], [list_push_configs] and
    [delete_push_config]. *)
Definition owner_guarded {A} (params : ServiceParams) (task_id : string) (now : Z)
    (before_principal before_call : World P → World P) (call : M A) : M A :=
  let! _ := in_world (require_owner params task_id now before_principal) in
  let! _ := interfere before_call in
  call.

Definition get_extended_agent_card {A} (params : ServiceParams) (now : Z)
    (before_call : World P → World P) (call : M A) : M A :=
  let! _ := in_world (authenticated_registration params now) in
  let! _ := interfere before_call in
  call.

(** [dynamic_agent_card]: the name of the card, [None] is 404. *)
Definition dynamic_agent_card (name : string) (now : Z) (w : World P) : option string * World P :=
  let '(registrations, w') := list_agents now w in
  (agent_str ∘ agent_name ∘ reg_agent <$>
     head (filter (λ r, agent_str (agent_name (reg_agent r)) = name) registrations), w').
End handler.

(** ** HTTP *)

(** [preserve_explicit_empty_task_id]: the markers come from the body, never from the
    client. [parse] is [serde_json::from_slice]. *)
Definition preserve_explicit_empty_task_id `{JsonNumber} {lib : A2ALib} (body : option Value)
    (headers : gmap string string) : gmap string string :=
  let headers := delete EXPLICIT_EMPTY_CONTEXT_ID_HEADER (delete EXPLICIT_EMPTY_TASK_ID_HEADER headers) in
  let headers :=
    if has_explicit_empty_message_field body ["taskId"; "task_id"]
    then <[EXPLICIT_EMPTY_TASK_ID_HEADER := "1"]> headers else headers in
  if has_explicit_empty_message_field body ["contextId"; "context_id"]
  then <[EXPLICIT_EMPTY_CONTEXT_ID_HEADER := "1"]> headers else headers.

(** ** What the middleware guarantees *)

(** The markers say exactly what the body says, whatever headers the client sent; the
    other headers pass. *)
Theorem markers_follow_the_body `{JsonNumber} {lib : A2ALib} body (headers : gmap string string) header :
  preserve_explicit_empty_task_id body headers !! header
  = if decide (header = EXPLICIT_EMPTY_TASK_ID_HEADER)
    then if has_explicit_empty_message_field body ["taskId"; "task_id"] then Some "1" else None
    else if decide (header = EXPLICIT_EMPTY_CONTEXT_ID_HEADER)
    then if has_explicit_empty_message_field body ["contextId"; "context_id"] then Some "1" else None
    else headers !! header.
Proof.
  unfold preserve_explicit_empty_task_id.
  assert (EXPLICIT_EMPTY_TASK_ID_HEADER ≠ EXPLICIT_EMPTY_CONTEXT_ID_HEADER) as Hne by done.
  destruct (has_explicit_empty_message_field body ["taskId"; "task_id"]),
    (has_explicit_empty_message_field body ["contextId"; "context_id"]);
    repeat case_decide; subst; try done;
    rewrite ?lookup_insert_ne, ?lookup_insert_eq, ?lookup_insert_ne, ?lookup_insert_eq,
      ?lookup_delete_eq, ?lookup_delete_ne, ?lookup_delete_eq, ?lookup_delete_ne by done; done.
Qed.

(** ** Admissions do not outlive their requests *)

Section admissions.
Context `{JsonNumber} {serde : SerdeJson} {chrono : Chrono} {uuid : UuidLib} {lib : A2ALib}.
Context {P : Type} {persistence : BrokerPersistence P} {store : FrontStore P}.
Context (canonicalize : PathBuf → option PathBuf).

(** Whatever the outcome, no admission is new. *)
Definition shrinks {A} (m : ST (Front P) A2AError A) : Prop := ∀ f, fr_pending (m f).2 ⊆ fr_pending f.

Lemma shrinks_ret {A} (a : A) : shrinks (st_ret a).
Proof. by intros f. Qed.

Lemma shrinks_lift {A} (m : Outcome A2AError A) : shrinks (st_lift m).
Proof. by intros f. Qed.

Lemma shrinks_bind {A B} (m : ST (Front P) A2AError A) (k : A → ST (Front P) A2AError B) :
  shrinks m → (∀ a, shrinks (k a)) → shrinks (st_bind m k).
Proof.
  intros Hm Hk f. unfold st_bind. specialize (Hm f).
  destruct (m f) as [[a|e|msg] f']; simpl in *; [|done..]. by etrans; [apply Hk|].
Qed.

Lemma shrinks_world {A} (m : ST (World P) A2AError A) : shrinks (in_world m).
Proof. intros f. unfold in_world, zoom. by destruct (m (fr_world f)). Qed.

Lemma shrinks_attempt {A} (m : ST (Front P) A2AError A) : shrinks m → shrinks (attempt m).
Proof. intros Hm f. specialize (Hm f). unfold attempt. by destruct (m f) as [[] ?]. Qed.

#[local] Hint Resolve shrinks_ret shrinks_lift shrinks_bind shrinks_world shrinks_attempt : herdr.

Lemma shrinks_stored task_id : shrinks (stored_task (P := P) task_id).
Proof. unfold stored_task. auto with herdr. Qed.

Context {inner : InnerHandler (P := P)}.
Hypothesis inner_send_shrinks : ∀ params request, shrinks (inner_send_message params request).
Hypothesis inner_subscribe_shrinks : ∀ params id tenant, shrinks (inner_subscribe_to_task params id tenant).

(** The admission of a unary request is gone when the call returns, and its own
    handler has seen it. *)
Lemma shrinks_admitted token params request decision :
  shrinks (run_admitted_unary token params request decision).
Proof using inner_send_shrinks.
  intros f. unfold run_admitted_unary, with_admission, admit_execution, issue, st_bind, st_modify, st_ret.
  specialize (inner_send_shrinks (<[EXECUTION_ADMISSION_HEADER := [token]]> params) request
    (f <| fr_pending ::= insert token (decision_task decision) |>)).
  destruct (inner_send_message _ _ _) as [r f']; simpl in *.
  etrans; [by apply delete_mono|]. rewrite delete_insert_eq. apply delete_subseteq.
Qed.

#[local] Hint Resolve shrinks_stored shrinks_admitted : herdr.

(** A unary send leaves no admission behind, on every path and with every outcome,
    when the SDK's handler issues none itself. *)
Theorem unary_send_leaves_no_admission params request new_context_id token schedule f :
  fr_pending (unary_send canonicalize params request new_context_id token schedule f).2 ⊆ fr_pending f.
Proof using inner_send_shrinks inner_subscribe_shrinks.
  revert f. apply shrinks_bind; [auto with herdr|]. intros task_id.
  apply shrinks_bind; [auto with herdr|]. intros [[request' id] [row|row|row]]; [by auto with herdr| |by auto with herdr].
  case_bool_decide; [by auto with herdr|]. apply shrinks_bind; [auto with herdr|].
  intros [events|e]; [|auto with herdr]. apply shrinks_bind; [auto with herdr|].
  intros [[task|value]|]; auto with herdr.
Qed.
End admissions.

(** * A message on SQLite

    Two agents of a broker on an empty ledger; one sends a message to the other.  The
    witnesses of the theorems about the request handler. *)
Module A2aSample.
Import LedgerSample Scenario.
#[local] Existing Instances sqlite millis plain_uuid texts texts_spec ledger_persistence ledger_spec.
#[local] Instance plain_digest : Sha256 := λ text, text.
#[local] Instance plain_cursors : CursorSerde := {|
  cursor_to_json _ := None;
  cursor_from_str _ := None;
|}.
#[local] Instance front : FrontStore LedgerStore := sqlite_front no_fault.

#[local] Instance front_spec : FrontStoreSpec (spec := ledger_spec) LedgerStore := sqlite_front_spec no_fault.

(** The text of the first part. *)
#[local] Instance a2a : A2ALib := {|
  message_text m :=
    match message_parts m with
    | part :: _ => match part_content part with PartText text => Some text | _ => None end
    | [] => None
    end;
  method_send_message := "SendMessage";
  method_send_streaming_message := "SendStreamingMessage";
  task_state_is_terminal state :=
    match state with TaskSubmitted | TaskWorking | TaskUnspecified | TaskInputRequired | TaskAuthRequired => false | _ => true end;
|}.

Definition register_bob : Op := OpRegister (agent "bob" "p2") "s2" (rid "rb").
Definition two_agents : World LedgerStore := (exec register_bob 1001 ledger_registered).2.

Definition alice_params : ServiceParams :=
  {[REGISTRATION_HEADER := ["ra"]; REGISTRATION_EPOCH_HEADER := ["1"]]}.
Definition hello : SendMessageRequest :=
  MkSendRequest (MkMessage "m1" (Some "context") (Some "t1") RoleUser [text_part "hello"] None None None)
    None None (Some "bob").
Definition alone (now : Z) : Interleaving (P := LedgerStore) := MkInterleaving now id now id now id.
Definition quiet : SendSchedule (P := LedgerStore) :=
  MkSendSchedule 1002 id 1002 id 1002 (alone 1002) (alone 1002).
Definition no_files : PathBuf → option PathBuf := λ _, None.

Definition send_hello := prepare_send no_files alice_params hello "new" "new" quiet two_agents.

Lemma two_agents_reachable : Reachable 1001 two_agents.
Proof.
  assert (Reachable 1000 ledger_registered) as Hone.
  { eapply (reach_exec 1000 1000 ledger_boot ledger_register); [apply ledger_boot_reachable|lia|by vm_compute|].
    apply surjective_pairing. }
  eapply (reach_exec 1000 1001 ledger_registered register_bob); [exact Hone|lia|by vm_compute|].
  apply surjective_pairing.
Qed.

Lemma alone_ok clk clk' : (clk ≤ clk')%Z → round_ok clk (alone clk').
Proof.
  intros Hle. split; [done|apply by_calls_id; simpl; lia|apply by_calls_id; simpl; lia|].
  simpl. unfold TERMINAL_RETENTION_MS. lia.
Qed.

Lemma quiet_ok : schedule_ok 1001 quiet.
Proof.
  split; [simpl; lia|apply by_calls_id; simpl; lia|].
  exists 1002%Z. split; [apply by_calls_id; simpl; lia|].
  apply (rounds_cons 1002 1002); [by apply alone_ok|apply by_calls_id; simpl; lia|].
  apply (rounds_cons 1002 1002); [by apply alone_ok|apply by_calls_id; simpl; lia|]. constructor.
Qed.

(** Witness: the message is started. *)
Lemma prepare_send_is_authentic_witness :
  ∃ request' decision w' now c r, send_hello = (Done (request', "t1", decision), w') ∧
    prepared alice_params hello request' "t1" (decision_task decision) w' now c r.
Proof.
  assert (returned send_hello = true) as Hret by (by vm_compute).
  pose proof (prepare_send_is_authentic no_files 1001 alice_params hello "new" "new" quiet two_agents
    two_agents_reachable quiet_ok) as Hwp.
  unfold wp in Hwp. fold send_hello in Hwp.
  destruct send_hello as [[[[request' id] decision]| |] w']; [|discriminate Hret..].
  destruct Hwp as (-> & now & c & r & Hprepared & _). exists request', decision, w', now, c, r.
  exact (conj eq_refl Hprepared).
Defined.

(** ** Reading and executing the task *)

Definition sent_message : QueuedDelivery :=
  MkQueuedDelivery "t1" "context" (name "alice") (name "bob") payload 1002 0.
Definition sent_world : World LedgerStore := (exec (OpEnqueue (cred "ra" 1) sent_message) 1002 two_agents).2.

Lemma sent_reachable : Reachable 1002 sent_world.
Proof.
  eapply (reach_exec 1001 1002 two_agents (OpEnqueue (cred "ra" 1) sent_message));
    [apply two_agents_reachable|lia|done|apply surjective_pairing].
Qed.

(** The inner handler answers 7; the recipient may not read the task. *)
Definition bob_params : ServiceParams :=
  {[REGISTRATION_HEADER := ["rb"]; REGISTRATION_EPOCH_HEADER := ["2"]]}.
Definition reads (params : ServiceParams) := guarded params "t1" (Some "bob") 1003 id id (st_ret 7%nat) sent_world.

Example only_alice_reads :
  (reads alice_params).1 = Done 7%nat ∧
  (reads bob_params).1 = Fail (A2A_invalid_params "task is owned by another agent").
Proof. split; by vm_compute. Qed.

Lemma guarded_access_witness :
  ∃ sender w1 w2, st_ret (E := A2AError) 7%nat (id w2) = (Done 7%nat, (reads alice_params).2) ∧
    let_through 1003 1004 alice_params "t1" (Some "bob") id sender w1 w2.
Proof.
  assert ((reads alice_params).1 = Done 7%nat) as Hret by (by vm_compute).
  destruct (guarded_access (store_spec := front_spec) 1002 1003 1004 1005 alice_params "t1" (Some "bob") id id
    (st_ret 7%nat) sent_world (Done 7%nat) (reads alice_params).2 sent_reachable)
    as [(e & now' & [=] & _)|(sender & w1 & w2 & Hlt & _ & _ & Hrun)].
  - lia.
  - apply by_calls_id; lia.
  - apply by_calls_id; lia.
  - exact (surjective_pairing_eq _ _ Hret).
  - exists sender, w1, w2. exact (conj Hrun Hlt).
Defined.

(** An admission for the task, under the token [tok]. *)
Definition admission_row : DurableTask := new_durable_task (name "alice") sent_message (1002 + DELIVERY_TTL_MS).
Definition admitted_front : Front LedgerStore := MkFront sent_world {["tok" := admission_row]}.
Definition execution : ExecutorContext :=
  MkExecutorContext {[EXECUTION_ADMISSION_HEADER := ["tok"]]} "t1" "context".
Definition begun_execution := begin_execution execution id 1003 id id admitted_front.

(** Witness: the execution begins, and its admission is gone. *)
Lemma execution_is_admitted_witness :
  ∃ durable projection over f' w1, begun_execution = (Done (durable, projection, over), f') ∧
    executes execution admitted_front f' durable "tok" admission_row w1.
Proof.
  assert (returned begun_execution = true) as Hret by (by vm_compute).
  pose proof (execution_is_admitted (store_spec := front_spec) 1002 1003 1003 1003 1003
    execution id id id admitted_front sent_reachable) as Hwp.
  specialize (Hwp (by_calls_id 1002 1003 ltac:(lia)) ltac:(lia) (by_calls_id 1003 1003 ltac:(lia))
    (by_calls_id 1003 1003 ltac:(lia))).
  destruct begun_execution as [[[[durable projection] over]| |] f'] eqn:Hrun; [|discriminate Hret..].
  destruct (wp_done _ _ _ _ _ _ Hwp Hrun) as (token & admission & w1 & p & _ & Hex & _).
  exists durable, projection, over, f', w1. split; [reflexivity|].
  destruct Hex as [Hheader Hissued Hused Htask Hretained Hdurable Hsender Hsame].
  assert (token = "tok") as ->.
  { assert (ec_service_params execution !! EXECUTION_ADMISSION_HEADER = Some ["tok"]) as Htok by reflexivity.
    rewrite Htok in Hheader. by injection Hheader. }
  assert (admission = admission_row) as ->.
  { assert (fr_pending admitted_front !! "tok" = Some admission_row) as Hrow by apply lookup_singleton_eq.
    rewrite Hrow in Hissued. by injection Hissued. }
  split; assumption.
Defined.

(** ** A whole request *)

(** An SDK that executes the task with the admission it was given, and whose
    subscriptions fail. *)
Definition execute_once (params : ServiceParams) (request : SendMessageRequest)
    : ST (Front LedgerStore) A2AError (SendMessageResponse (chrono := millis)) :=
  let! result := begin_execution (MkExecutorContext params "t1" "context") id 1002 id id in
  st_ret (SendTask result.1.2).
#[local] Instance executing_sdk : InnerHandler (P := LedgerStore) := {|
  inner_send_message := execute_once;
  inner_send_streaming_message _ _ := st_fail (A2A_internal "no stream");
  inner_subscribe_to_task _ _ _ := st_fail (A2A_internal "no subscription");
|}.

Lemma consume_shrinks params : shrinks (P := LedgerStore) (consume_admission params).
Proof.
  intros f. pose proof (consume_admission_spec params f) as Hc. unfold wp in Hc.
  destruct (consume_admission params f) as [[row|e|msg] f']; simpl; [|by rewrite Hc|done].
  destruct Hc as (token & _ & _ & ->). apply delete_subseteq.
Qed.

Lemma execute_once_shrinks params request : shrinks (execute_once params request).
Proof.
  apply shrinks_bind; [|intros ?; apply shrinks_ret]. apply shrinks_bind.
  { apply consume_shrinks. }
  intros row. apply shrinks_bind; [apply shrinks_lift|]. intros _.
  apply shrinks_bind; [by intros f|]. intros _. apply shrinks_bind; [apply shrinks_world|]. intros durable.
  apply shrinks_bind; [apply shrinks_lift|]. intros _. apply shrinks_bind; [by intros f|]. intros _.
  apply shrinks_bind; [|intros ?; apply shrinks_ret].
  apply shrinks_bind; [apply shrinks_world|]. intros found. apply shrinks_bind; [apply shrinks_lift|].
  intros projection. apply shrinks_bind; [by intros f|]. intros _.
  apply shrinks_bind; [apply shrinks_world|]. intros _. apply shrinks_ret.
Qed.

Definition whole_send := unary_send no_files alice_params hello "new" "tok" quiet (MkFront two_agents ∅).

Example whole_send_returns : returned whole_send = true.
Proof. by vm_compute. Qed.

(** Witness: the task is executed, and its admission is gone. *)
Lemma unary_send_leaves_no_admission_witness : fr_pending whole_send.2 ⊆ ∅.
Proof.
  apply (unary_send_leaves_no_admission no_files (inner := executing_sdk)).
  - exact execute_once_shrinks.
  - intros params id tenant f. reflexivity.
Defined.
End A2aSample.
