(* ===== verification/Api.v ===== *)
(** * The private HTTP interface

    [herdr-a2a-broker/src/api.rs]: the bearer token, the health and status proofs, and
    the handlers that compose the broker with the identity registry.

    A handler is a computation over the broker and the identity table, with the other
    requests as functions between its sections.  The headers of a request are those
    whose value is text; its body is given as parsed ([body_outcome] is the parser's
    verdict).  SHA-256, HMAC and base64url are parameters, and so is the verifier of
    panes, [HerdrVerifier]. *)
From stdpp Require Import prelude gmap strings sorting.
From S2P Require Import Prelude RustStd Model Validation Durability BrokerState BrokerDurable BrokerMaintain BrokerOps.
From S2P Require Import Sqlite Identity.

Definition MAX_JSON_BODY_BYTES : nat := 512 * 1024.
Definition MIN_WAIT_TIMEOUT_MS : Z := 1000.
Definition MAX_WAIT_TIMEOUT_MS : Z := 24 * 60 * 60 * 1000.
Definition HEALTH_PROOF_DOMAIN : list Z := as_bytes "herdr-a2a-proof-v2" ++ [0%Z].
Definition STATUS_PROOF_DOMAIN : list Z := as_bytes "herdr-a2a-status-v1" ++ [0%Z].
Definition API_REGISTRATION_HEADER : string := "x-herdr-a2a-registration".
Definition API_REGISTRATION_EPOCH_HEADER : string := "x-herdr-a2a-registration-epoch".
Definition API_UNSUPPORTED_FILE_REFERENCES_MESSAGE : string :=
  "Herdr file references are not supported in this milestone".

(** [sha2], [hmac] and the alphabet [URL_SAFE_NO_PAD] of [base64]. *)
Class ApiCrypto := {
  api_sha256 : list Z → list Z;
  hmac_sha256 : list Z → list Z → list Z;
  base64url_encode : list Z → string;
  base64url_decode : string → option (list Z);
}.

Definition Headers : Type := gmap string string.

(** ** Errors *)

Record ApiError := MkApiError {
  error_status : Z;
  error_code : string;
  error_message : string;
  error_candidates : list AgentName;
}.

Definition ApiError_new (status : Z) (code message : string) : ApiError :=
  MkApiError status code message [].

Definition BAD_REQUEST : Z := 400.
Definition UNAUTHORIZED : Z := 401.
Definition FORBIDDEN : Z := 403.
Definition NOT_FOUND : Z := 404.
Definition METHOD_NOT_ALLOWED : Z := 405.
Definition REQUEST_TIMEOUT : Z := 408.
Definition CONFLICT : Z := 409.
Definition PAYLOAD_TOO_LARGE : Z := 413.
Definition INTERNAL_SERVER_ERROR : Z := 500.
Definition SERVICE_UNAVAILABLE : Z := 503.

Definition with_candidates (candidates : list AgentName) (error : ApiError) : ApiError :=
  MkApiError (error_status error) (error_code error) (error_message error) candidates.

(** [impl IntoResponse for ApiError]: the status and the JSON of the body. *)
Definition into_response `{JsonNumber} (error : ApiError) : Z * Value :=
  (error_status error,
   VObject [("error", VObject
     ([("code", VString (error_code error)); ("message", VString (error_message error))]
      ++ match error_candidates error with
         | [] => []
         | candidates => [("candidates", VArray (VString ∘ agent_str <$> candidates))]
         end))]).

(** [impl From<DomainError> for ApiError] *)
Definition domain_status (error : DomainError) : Z * string :=
  match error with
  | InvalidAgentName | InvalidRoleLabel | InvalidRegistrationId | InvalidDeliveryId
  | InvalidTaskId | TooManyRetainedTasks => (BAD_REQUEST, "invalid_request")
  | RegistrationNotFound | RegistrationExpired => (UNAUTHORIZED, "invalid_registration")
  | AgentNotRegistered | DeliveryNotFound | TaskNotFound => (NOT_FOUND, "not_found")
  | SenderMismatch | DeliveryNotOwned | TaskNotOwned => (FORBIDDEN, "forbidden")
  | WaitAlreadyActive => (CONFLICT, "wait_already_active")
  | WaitTimedOut => (REQUEST_TIMEOUT, "wait_timed_out")
  | TextTooLarge | MetadataTooLarge | TooManyFileReferences | PathTooLong | FileLabelTooLong =>
      (PAYLOAD_TOO_LARGE, "payload_too_large")
  | MetadataTooDeep | TooManyMetadataEntries | FileNotFound _ | WorkspaceNotFound _
  | FileOutsideWorkspace _ _ => (BAD_REQUEST, "invalid_payload")
  | DuplicateTask | ReplyWaitAlreadyActive | ReplyAlreadySubmitted | TaskCanceled | TaskExpired
  | TaskFailed | TaskRejected | TaskAlreadyCompleted | TooManyActiveTasks => (CONFLICT, "conflict")
  | PersistenceUnavailable => (SERVICE_UNAVAILABLE, "persistence_unavailable")
  end.

Definition ApiError_from_domain (error : DomainError) : ApiError :=
  let '(status, code) := domain_status error in
  ApiError_new status code (DomainError_display error).

(** [impl From<IdentityError> for ApiError] *)
Definition ApiError_from_identity `{Rusqlite} (error : IdentityError) : ApiError :=
  match error with
  | WorkspaceMismatch => ApiError_new FORBIDDEN "workspace_mismatch" (IdentityError_display error)
  | AllocationExhausted =>
      ApiError_new SERVICE_UNAVAILABLE "identity_allocation_unavailable" (IdentityError_display error)
  | Sqlite _ | InvalidData _ | WorkerFailed =>
      ApiError_new SERVICE_UNAVAILABLE "identity_unavailable" (IdentityError_display error)
  end.

Definition not_found : ApiError := ApiError_new NOT_FOUND "not_found" "endpoint not found".
Definition method_not_allowed : ApiError :=
  ApiError_new METHOD_NOT_ALLOWED "method_not_allowed" "method not allowed for this endpoint".

(** ** The state *)

Record ApiState := MkApiState {
  api_identity_store : IdentityStore;
  api_workspace_id : string;
  bearer_token_digest : list Z;
  broker_instance_id : string;
}.

Section pure.
Context `{JsonNumber} {serde : SerdeJson} {uuid : UuidLib} {crypto : ApiCrypto}.
Context `{Rusqlite} (fault : nat → option SqlError).

Definition ApiState_new (workspace_id : string) (bearer_token instance_id : list Z)
    : ST IdentityDb IdentityError ApiState :=
  let! identities := for_workspace fault workspace_id in
  st_ret (MkApiState identities workspace_id (api_sha256 bearer_token) (base64url_encode instance_id)).

(** [require_bearer]: the request may pass. *)
Definition require_bearer (state : ApiState) (authorization : option string) : Outcome ApiError () :=
  let token := and_then authorization (strip_prefix "Bearer ") in
  let authenticated :=
    match token with
    | Some token =>
        negb (String.eqb token "")
        && bool_decide (api_sha256 (as_bytes token) = bearer_token_digest state)
    | None => false
    end in
  reject_if (negb authenticated)
    (ApiError_new UNAUTHORIZED "unauthorized" "a valid bearer token is required").

(** [BoundedJson::from_request]: the length of the body and what it parses to. *)
Definition bounded_json {A} (length : nat) (parsed : option A) : Outcome ApiError A :=
  let? _ := reject_if (MAX_JSON_BODY_BYTES <? length)%nat
              (ApiError_new PAYLOAD_TOO_LARGE "body_too_large" "request body exceeds the size limit") in
  ok_or parsed (ApiError_new BAD_REQUEST "invalid_json" "request body is not valid for this endpoint").

(** ** Proofs *)

Definition decode_nonce (code canonical exact nonce : string) : Outcome ApiError (list Z) :=
  let? bytes := ok_or (base64url_decode nonce) (ApiError_new BAD_REQUEST code canonical) in
  let? _ := reject_if (negb (length bytes =? 32)%nat || negb (String.eqb (base64url_encode bytes) nonce))
              (ApiError_new BAD_REQUEST code exact) in
  Done bytes.

(** What [health_proof] and [status_challenge] authenticate. *)
Definition health_message (instance_id : string) (nonce : list Z) : list Z :=
  HEALTH_PROOF_DOMAIN ++ as_bytes instance_id ++ nonce.
Definition status_message (instance_id : string) (nonce body : list Z) : list Z :=
  STATUS_PROOF_DOMAIN ++ as_bytes instance_id ++ nonce ++ body.

(** [health_proof]: the proof and the instance. *)
Definition health_proof (state : ApiState) (nonce : string) : Outcome ApiError (string * string) :=
  let? bytes := decode_nonce "invalid_health_nonce" "health nonce must be canonical base64url"
                  "health nonce must encode exactly 32 bytes" nonce in
  Done (base64url_encode (hmac_sha256 (bearer_token_digest state)
          (health_message (broker_instance_id state) bytes)), broker_instance_id state).

(** [registration_credentials] *)
Definition registration_credentials (headers : Headers) : Outcome ApiError RegistrationCredentials :=
  let? raw := ok_or (headers !! API_REGISTRATION_HEADER)
    (ApiError_new UNAUTHORIZED "missing_registration" "an authenticated registration is required") in
  let? id := map_err (ApiError_new UNAUTHORIZED "invalid_registration"
                        "the registration identifier is invalid") (RegistrationId_parse raw) in
  let? raw := ok_or (headers !! API_REGISTRATION_EPOCH_HEADER)
    (ApiError_new UNAUTHORIZED "missing_registration_epoch"
       "an authenticated registration epoch is required") in
  let? epoch := ok_or (epoch_parse raw)
    (ApiError_new UNAUTHORIZED "invalid_registration" "the registration epoch is invalid") in
  Done (MkCredentials id epoch).

(** [task_id]; [None] is a path that axum rejects. *)
Definition path_task_id (path : option string) : Outcome ApiError string :=
  let? task_id := ok_or path (ApiError_new BAD_REQUEST "invalid_path" "task path is invalid") in
  let? _ := map_error ApiError_from_domain (validate_task_id task_id) in
  Done task_id.
End pure.

(** ** Requests and responses *)

Record RegisterRequest := MkRegisterRequest {
  rq_pane_id : string;
  rq_harness_session_id : string;
  rq_expected_agent_name : option AgentName;
}.

Record RegistrationResponse := MkRegistrationResponse {
  rr_registration_id : RegistrationId;
  rr_registration_epoch : RegistrationEpoch;
  rr_canonical_name : AgentName;
  rr_role : RoleLabel;
  rr_pane_id : string;
  rr_harness : string;
  rr_workspace : PathBuf;
  rr_harness_session_id : string;
  rr_expires_unix_ms : Z;
}.

Definition from_registration (registration : Registration) (role : RoleLabel) : RegistrationResponse :=
  let agent := reg_agent registration in
  MkRegistrationResponse (reg_id registration) (reg_epoch registration) (agent_name agent) role
    (agent_pane_id agent) (agent_harness agent) (agent_workspace agent)
    (reg_harness_session_id registration) (reg_expires_unix_ms registration).

Record AgentResponse := MkAgentResponse {
  ar_canonical_name : AgentName;
  ar_role : RoleLabel;
  ar_pane_id : string;
  ar_harness : string;
}.

Record StatusAgentResponse := MkStatusAgentResponse {
  sa_role : RoleLabel;
  sa_canonical_name : AgentName;
}.

Record WorkspaceStatusResponse := MkWorkspaceStatusResponse {
  ws_workspace_id : string;
  ws_registrations : nat;
  ws_agents : list StatusAgentResponse;
  ws_tasks : BrokerTaskCounts;
  ws_last_event : option BrokerStatusEvent;
}.

(** * The handlers of the private interface

    The rest of [herdr-a2a-broker/src/api.rs]: every handler as a computation over the
    broker and the identity table.  [between i] is what other requests do before the
    [i]-th following section of a handler. *)
(** The JSON of the two bodies that [status_challenge] can send. *)
Class StatusSerde := {
  status_to_vec : WorkspaceStatusResponse → list Z;
  error_to_vec : ApiError → list Z;
}.

Section handlers.
Context `{JsonNumber} {serde : SerdeJson} {uuid : UuidLib} {crypto : ApiCrypto} {json : StatusSerde}.
Context `{Rusqlite} (fault : nat → option SqlError).
Context {P : Type} {persistence : BrokerPersistence P}.

(** [HerdrVerifier::verify], the suffixes of new names, and the file system. *)
Context (verify : string → option VerifiedPane).
Context (suffix_source : nat → Outcome IdentityError string).
Context (canonicalize : PathBuf → option PathBuf).

Record ApiWorld := MkApiWorld {
  api_broker : World P;
  api_identities : IdentityDb;
}.

#[global] Instance ApiWorld_fields : Fields ApiWorld := λ x, MkApiWorld (api_broker x) (api_identities x).

Abbreviation M := (ST ApiWorld ApiError).

Definition with_broker {A} (m : ST (World P) DomainError A) : M A :=
  zoom api_broker (λ w x, x <| api_broker := w |>) (st_map_err ApiError_from_domain m).

Definition with_identities {A} (m : ST IdentityDb IdentityError A) : M A :=
  zoom api_identities (λ db x, x <| api_identities := db |>) (st_map_err ApiError_from_identity m).

Definition resolve_identity (state : ApiState) (pane : VerifiedPane) (harness_session_id : string)
    : M AgentIdentity :=
  with_identities (resolve_or_create fault (api_identity_store state) suffix_source pane harness_session_id).

(** ** Registration *)

Definition bounded_identifier (value : string) : bool :=
  negb (str_len value =? 0)%nat && (str_len value <=? MAX_IDENTITY_FIELD_BYTES)%nat.

Definition api_register (state : ApiState) (request : RegisterRequest)
    (between : ApiWorld → ApiWorld) (now : Z) (fresh : RegistrationId) : M RegistrationResponse :=
  let! _ := st_lift (reject_if
    (negb (bounded_identifier (rq_pane_id request) && bounded_identifier (rq_harness_session_id request)))
    (ApiError_new BAD_REQUEST "invalid_registration_request"
       "pane and harness session identifiers must be non-empty and bounded")) in
  let! verified := st_lift (ok_or (verify (rq_pane_id request))
    (ApiError_new FORBIDDEN "verification_failed" "Herdr could not verify this pane")) in
  let! _ := st_lift (reject_if (negb (String.eqb (pane_workspace_id verified) (api_workspace_id state)))
    (ApiError_new FORBIDDEN "workspace_mismatch" "verified pane belongs to another workspace")) in
  let! identity := resolve_identity state verified (rq_harness_session_id request) in
  let! _ := st_lift (reject_if
    (match rq_expected_agent_name request with
     | Some expected => negb (bool_decide (expected = canonical_name identity))
     | None => false
     end)
    (ApiError_new FORBIDDEN "agent_identity_changed"
       "Herdr verified a different canonical identity for this pane")) in
  let agent := MkVerifiedAgent (canonical_name identity) (pane_pane_id verified) (pane_harness verified)
                 (pane_workspace_path verified) in
  let! _ := st_modify between in
  let! registration := with_broker (register agent (rq_harness_session_id request) now fresh) in
  st_ret (from_registration registration (current_role identity)).

Definition pane_unchanged (state : ApiState) (verified : VerifiedPane) (current : Registration) : bool :=
  String.eqb (pane_workspace_id verified) (api_workspace_id state)
  && String.eqb (pane_pane_id verified) (agent_pane_id (reg_agent current))
  && String.eqb (pane_harness verified) (agent_harness (reg_agent current))
  && bool_decide (pane_workspace_path verified = agent_workspace (reg_agent current)).

Definition api_renew (state : ApiState) (headers : Headers) (now : Z)
    (before_resolve : ApiWorld → ApiWorld) (before_renew : ApiWorld → ApiWorld) (now' : Z)
    : M RegistrationResponse :=
  let! credentials := st_lift (registration_credentials headers) in
  let! current := with_broker (authenticate credentials now) in
  let! verified := st_lift (ok_or (verify (agent_pane_id (reg_agent current)))
    (ApiError_new FORBIDDEN "verification_failed" "Herdr could not re-verify this pane")) in
  let! _ := st_lift (reject_if (negb (pane_unchanged state verified current))
    (ApiError_new FORBIDDEN "agent_identity_changed" "verified pane identity changed during refresh")) in
  let! _ := st_modify before_resolve in
  let! identity := resolve_identity state verified (reg_harness_session_id current) in
  let! _ := st_lift (reject_if
    (negb (bool_decide (canonical_name identity = agent_name (reg_agent current))))
    (ApiError_new FORBIDDEN "agent_identity_changed" "canonical identity changed during refresh")) in
  let! _ := st_modify before_renew in
  let! registration := with_broker (renew credentials now') in
  st_ret (from_registration registration (current_role identity)).

Definition api_unregister (headers : Headers) (now : Z) : M () :=
  let! credentials := st_lift (registration_credentials headers) in
  λ x,
    match remove_registration credentials now (api_broker x) with
    | (Done _, w) | (Fail RegistrationNotFound, w) => (Done tt, x <| api_broker := w |>)
    | (Fail error, w) => (Fail (ApiError_from_domain error), x <| api_broker := w |>)
    | (Panic msg, w) => (Panic msg, x <| api_broker := w |>)
    end.

(** ** The directory *)

Definition directory_agent (state : ApiState) (registration : Registration) : M AgentResponse :=
  let agent := reg_agent registration in
  let! found := with_identities (find_by_canonical fault (agent_name agent)) in
  let! identity := st_lift (ok_or found
    (ApiError_new INTERNAL_SERVER_ERROR "identity_unavailable"
       "live registration has no durable identity")) in
  let! _ := st_lift (reject_if
    (negb (String.eqb (identity_workspace_id identity) (api_workspace_id state)
           && String.eqb (identity_pane_id identity) (agent_pane_id agent)
           && String.eqb (identity_harness identity) (agent_harness agent)))
    (ApiError_new INTERNAL_SERVER_ERROR "identity_mismatch"
       "live registration does not match durable identity")) in
  st_ret (MkAgentResponse (canonical_name identity) (current_role identity)
            (identity_pane_id identity) (identity_harness identity)).

(** [for registration in registrations { agents.push(directory_agent(..).await?) }] *)
Fixpoint directory_agents (state : ApiState) (between : nat → ApiWorld → ApiWorld)
    (registrations : list Registration) : M (list AgentResponse) :=
  match registrations with
  | [] => st_ret []
  | registration :: registrations =>
      let! _ := st_modify (between (length registrations)) in
      let! agent := directory_agent state registration in
      let! agents := directory_agents state between registrations in
      st_ret (agent :: agents)
  end.

Definition response_le (a b : AgentResponse) : Prop :=
  agent_le (ar_canonical_name a) (ar_canonical_name b).
#[global] Instance response_le_dec : RelDecision response_le.
Proof. intros a b. unfold response_le, agent_le. apply _. Defined.

Definition live_directory_from_registrations (state : ApiState) (between : nat → ApiWorld → ApiWorld)
    (registrations : list Registration) : M (list AgentResponse) :=
  let! agents := directory_agents state between registrations in
  st_ret (merge_sort response_le agents).

Definition api_list_agents (now : Z) : M (list Registration) := λ x,
  let '(registrations, w) := list_agents now (api_broker x) in
  (Done registrations, x <| api_broker := w |>).

(** [live_directory], the body of the handler [list_agents]. *)
Definition live_directory (state : ApiState) (between : nat → ApiWorld → ApiWorld) (now : Z)
    : M (list AgentResponse) :=
  let! registrations := api_list_agents now in
  live_directory_from_registrations state between registrations.

Definition has_control (s : string) : bool := existsb is_control (chars s).

(** The answer of [resolve_agent] once it has the directory. *)
Definition resolve_in (directory : list AgentResponse) (target : string) : Outcome ApiError AgentName :=
  let canonical :=
    match AgentName_parse target with
    | Done canonical =>
        if existsb (λ agent, bool_decide (ar_canonical_name agent = canonical)) directory
        then Some canonical else None
    | _ => None
    end in
  match canonical with
  | Some canonical => Done canonical
  | None =>
      let candidates := merge_sort agent_le
        (ar_canonical_name <$> filter (λ agent, role_str (ar_role agent) = target) directory) in
      match candidates with
      | [] => Fail (ApiError_new NOT_FOUND "agent_not_found" "no live agent matches this target")
      | [candidate] => Done candidate
      | _ => Fail (with_candidates candidates
               (ApiError_new CONFLICT "ambiguous_agent" "multiple live agents have this role"))
      end
  end.

Definition resolve_agent (state : ApiState) (between : nat → ApiWorld → ApiWorld) (target : string)
    (now : Z) : M AgentName :=
  let! _ := st_lift (reject_if (negb (bounded_identifier target) || has_control target)
    (ApiError_new BAD_REQUEST "invalid_agent_target"
       "agent target must be non-empty, bounded, and control-free")) in
  let! directory := live_directory state between now in
  st_lift (resolve_in directory target).

Definition invalid_agent_wait (pane_ids : list string) (timeout_ms : Z) : bool :=
  (length pane_ids =? 0)%nat || (8 <? length pane_ids)%nat
  || negb (size (list_to_set pane_ids : gset string) =? length pane_ids)%nat
  || existsb (λ pane_id, negb (bounded_identifier pane_id) || has_control pane_id) pane_ids
  || negb ((MIN_WAIT_TIMEOUT_MS <=? timeout_ms)%Z && (timeout_ms <=? MAX_WAIT_TIMEOUT_MS)%Z).

(** [wait_agents]; [None] while the wait is suspended. *)
Definition wait_agents (state : ApiState) (between : nat → ApiWorld → ApiWorld)
    (pane_ids : list string) (timeout_ms now : Z) (resumes : list (DirectoryResume (P := P)))
    : M (option (Z * list AgentResponse)) :=
  let! _ := st_lift (reject_if (invalid_agent_wait pane_ids timeout_ms)
    (ApiError_new BAD_REQUEST "invalid_agent_wait"
       "agent wait requires 1-8 unique bounded pane IDs and a bounded timeout")) in
  λ x,
    let '(waited, w) := wait_for_agents pane_ids now resumes (api_broker x) in
    match waited with
    | None => (Done None, x <| api_broker := w |>)
    | Some waited =>
        (let! agents := directory_agents state between (dir_registrations waited) in
         st_ret (Some (dir_generation waited, agents))) (x <| api_broker := w |>)
    end.

(** ** Status *)

Fixpoint status_directory_from_roster (state : ApiState) (between : nat → ApiWorld → ApiWorld)
    (roster : list AgentName) : M (list StatusAgentResponse) :=
  match roster with
  | [] => st_ret []
  | name :: roster =>
      let! _ := st_modify (between (length roster)) in
      let! found := with_identities (find_by_canonical fault name) in
      let! identity := st_lift (ok_or found
        (ApiError_new INTERNAL_SERVER_ERROR "identity_unavailable"
           "live status agent has no durable identity")) in
      let! _ := st_lift (reject_if
        (negb (String.eqb (identity_workspace_id identity) (api_workspace_id state)
               && bool_decide (canonical_name identity = name)))
        (ApiError_new INTERNAL_SERVER_ERROR "identity_mismatch"
           "live status agent does not match durable identity")) in
      let! agents := status_directory_from_roster state between roster in
      st_ret (MkStatusAgentResponse (current_role identity) name :: agents)
  end.

Definition workspace_status_response (state : ApiState) (between : nat → ApiWorld → ApiWorld)
    (now : Z) : M WorkspaceStatusResponse :=
  let! snapshot := with_broker (operations_snapshot now) in
  let! agents := status_directory_from_roster state between (ops_agents snapshot) in
  st_ret (MkWorkspaceStatusResponse (api_workspace_id state) (ops_registrations snapshot) agents
            (ops_tasks snapshot) (ops_last_event snapshot)).

(** [status_challenge]: the status code, the body, the proof and the instance. *)
Definition status_challenge (state : ApiState) (between : nat → ApiWorld → ApiWorld) (nonce : string)
    (now : Z) : M (Z * list Z * string * string) :=
  let! nonce_bytes := st_lift (decode_nonce "invalid_status_nonce"
    "status nonce must be canonical base64url" "status nonce must encode exactly 32 bytes" nonce) in
  λ x,
    match workspace_status_response state between now x with
    | (Panic msg, x) => (Panic msg, x)
    | (result, x) =>
        let '(status, body) :=
          match result with
          | Done response => (200%Z, status_to_vec response)
          | Fail error => (error_status error, error_to_vec error)
          | Panic _ => (200%Z, [])
          end in
        (Done (status, body,
               base64url_encode (hmac_sha256 (bearer_token_digest state)
                 (status_message (broker_instance_id state) nonce_bytes body)),
               broker_instance_id state), x)
    end.

(** ** Inbox and tasks *)

Definition wait_inbox (headers : Headers) (timeout_ms : option Z) (now_begin : Z)
    (before_notify before_poll : ApiWorld → ApiWorld) (now : Z) (fresh : DeliveryId)
    (resumes : list (WaitResume (S := ApiWorld))) : M (option DeliveredMessage) :=
  let! _ := st_lift (reject_if
    (match timeout_ms with
     | Some timeout_ms =>
         negb ((MIN_WAIT_TIMEOUT_MS <=? timeout_ms)%Z && (timeout_ms <=? MAX_WAIT_TIMEOUT_MS)%Z)
     | None => false
     end)
    (ApiError_new BAD_REQUEST "invalid_timeout"
       "timeout_ms must be omitted or between 1000 and 86400000")) in
  let! credentials := st_lift (registration_credentials headers) in
  st_map_err ApiError_from_domain
    (wait_next api_broker (λ w x, x <| api_broker := w |>) credentials (is_some timeout_ms)
       now_begin before_notify before_poll now fresh resumes).

Definition ack_inbox (headers : Headers) (delivery_id : DeliveryId) (now : Z) : M () :=
  let! credentials := st_lift (registration_credentials headers) in
  with_broker (ack_delivery credentials delivery_id now).

Definition api_reply_task (path : option string) (headers : Headers) (text : string)
    (metadata : Value) (file_refs : list FileReference) (now : Z)
    (between : ApiWorld → ApiWorld) (now' : Z) : M () :=
  let! task_id := st_lift (path_task_id path) in
  let! credentials := st_lift (registration_credentials headers) in
  let! registration := with_broker (authenticate credentials now) in
  let! _ := st_lift (reject_if (negb (length file_refs =? 0)%nat)
    (ApiError_new BAD_REQUEST "unsupported_file_references" API_UNSUPPORTED_FILE_REFERENCES_MESSAGE)) in
  let! validated := st_lift (map_error ApiError_from_domain
    (validate_payload canonicalize (MkMessagePayload text metadata file_refs)
       (agent_workspace (reg_agent registration)))) in
  let! _ := st_modify between in
  with_broker (reply_task credentials task_id
    (MkReplyPayload (vp_text validated) (vp_metadata validated) (vp_file_refs validated)) now').

Definition api_cancel_task (path : option string) (headers : Headers) (now : Z) : M () :=
  let! task_id := st_lift (path_task_id path) in
  let! credentials := st_lift (registration_credentials headers) in
  with_broker (cancel_task credentials task_id now).
End handlers.
Arguments ApiWorld {_} P.
