(* ===== verification/ApiRuns.v ===== *)
(** * The private interface as a system of critical sections

    A request touches the broker and the identity table in separate critical sections,
    with those of other requests in between.  [section] is the step relation of the two
    together: any section of the broker other than [register], a lookup or a resolution
    in the identity table, and a [register] for an agent that the table backs.  Every
    handler of [api.rs] that writes is a sequence of such sections, so a registration is
    backed by an identity in every state the interface can reach. *)
From stdpp Require Import prelude gmap strings sorting relations.
From S2P Require Import Prelude RustStd Model Validation Durability BrokerState BrokerDurable.
From S2P Require Import BrokerMaintain BrokerOps BrokerInv BrokerPrim BrokerTrans BrokerImage.
From S2P Require Import BrokerWorld BrokerMaintained BrokerSpec BrokerRegistry BrokerStart BrokerReach BrokerRuns.
From S2P Require Import BrokerDelivery.
From S2P Require Import Sqlite Identity IdentityNames IdentityTable IdentityClaims LedgerCommit A2aSending Api.

Section find.
Context `{Rusqlite} (fault : nat → option SqlError).

(** A lookup changes nothing and fails only as the database does. *)
Definition unavailable (e : IdentityError) : Prop := e ≠ WorkspaceMismatch ∧ e ≠ AllocationExhausted.

Lemma find_by_canonical_spec name rows db :
  TableOK rows → holds rows None db →
  wp (find_by_canonical fault name)
    (λ found db', holds rows None db' ∧
       match found with
       | Some id => identity_row id ∈ rows ∧ canonical_name id = name
       | None => unused rows (agent_str name)
       end)
    (λ e db', holds rows None db' ∧ unavailable e) db.
Proof.
  intros Hok Hdb. unfold find_by_canonical. apply wp_spawn_blocking; [by split|]. wp_step.
  eapply wp_mono; [by apply query_row_spec| |].
  - cbv beta. intros [row|] db1 [Hdb1 Hfound]; simpl in Hfound.
    + destruct Hfound as [Hrow Hname%bool_decide_eq_true].
      destruct (found_row _ _ _ Hok Hrow Hname) as (role & Hrole & Hid).
      wp_step. rewrite Hrole. apply wp_lift, wp_ret. by rewrite Hid.
    + apply wp_ret. split; [done|]. intros r Hr'. by eapply bool_decide_eq_false_1, Hfound.
  - cbv beta. intros e db1 [Hdb1 [s ->]]. by split.
Qed.
End find.

(** The table has the identity of [agent], in this workspace. *)
Definition backed (workspace : string) (rows : list IdentityRow) (agent : VerifiedAgent) : Prop :=
  ∃ row, row ∈ rows ∧ row_canonical_name row = agent_str (agent_name agent) ∧
    row_workspace_id row = workspace ∧ row_pane_id row = agent_pane_id agent ∧
    row_harness row = agent_harness agent.

Lemma backed_later workspace rows rows' agent :
  later rows rows' → backed workspace rows agent → backed workspace rows' agent.
Proof.
  intros Hlater (row & Hrow & Hname & Hws & Hpane & Hharness).
  destruct (Hlater _ Hrow) as (row' & Hrow' & [= ????] & Hname' & _). exists row'. split_and!; congruence.
Qed.

(** The agent that [register] builds from a resolved identity. *)
Lemma resolved_backed pane session rows id rows' :
  Resolved pane session rows id rows' →
  backed (pane_workspace_id pane) rows'
    (MkVerifiedAgent (canonical_name id) (pane_pane_id pane) (pane_harness pane)
       (pane_workspace_path pane)).
Proof.
  intros HR. exists (identity_row id). split; [by eapply resolved_present|].
  pose proof (resolved_key _ _ _ _ _ HR) as [= ????]. done.
Qed.

Section runs.
Context `{JsonNumber} {serde : SerdeJson} {uuid : UuidLib} `{Rusqlite}.
Context {P : Type} {persistence : BrokerPersistence P} {spec : PersistenceSpec P}.
Context (workspace : string).
Implicit Types (x y : ApiWorld P) (clk now : Z).

Abbreviation rows_of x := (identities (api_identities x)).
Abbreviation regs_of x := (registrations (w_state (api_broker x))).

Record ApiInv clk x : Prop := {
  ai_broker : WInv clk (api_broker x);
  ai_table : IdentityOK (api_identities x);
  ai_backed : ∀ rid r, regs_of x !! rid = Some r →
    backed workspace (rows_of x) (reg_agent (rs_registration r));
}.

Inductive section : Z * ApiWorld P → Z * ApiWorld P → Prop :=
| section_broker clk now x op o w' :
    (clk ≤ now)%Z → admissible op (api_broker x) → registers op = false →
    exec op now (api_broker x) = (o, w') → section (clk, x) (now, x <| api_broker := w' |>)
| section_register clk now x agent session fresh o w' :
    (clk ≤ now)%Z → regs_of x !! fresh = None → backed workspace (rows_of x) agent →
    register agent session now fresh (api_broker x) = (o, w') →
    section (clk, x) (now, x <| api_broker := w' |>)
| section_resolve clk x db' :
    identity_step (api_identities x) db' → section (clk, x) (clk, x <| api_identities := db' |>)
| section_find clk x fault name o db' :
    find_by_canonical fault name (api_identities x) = (o, db') →
    section (clk, x) (clk, x <| api_identities := db' |>)
| section_tick clk now x : (clk ≤ now)%Z → section (clk, x) (now, x).

Definition reaches : Z * ApiWorld P → Z * ApiWorld P → Prop := rtc section.

Inductive ApiReachable : Z → ApiWorld P → Prop :=
| api_started now p w report p' db :
    recover now p = (Done (w, report), p') → IdentityOK db → ApiReachable now (MkApiWorld w db)
| api_stepped clk x now x' :
    ApiReachable clk x → section (clk, x) (now, x') → ApiReachable now x'.

(** What a run of sections keeps. *)
Definition follows clk x now x' : Prop :=
  (clk ≤ now)%Z ∧ ApiInv now x' ∧ later (rows_of x) (rows_of x').

Lemma find_table fault name db o db' :
  IdentityOK db → find_by_canonical fault name db = (o, db') →
  IdentityOK db' ∧ identities db' = identities db.
Proof.
  intros [Hok Hw] Hrun. pose proof (find_by_canonical_spec fault name _ db Hok (conj eq_refl Hw)) as Hspec.
  unfold wp in Hspec. rewrite Hrun in Hspec. unfold IdentityOK, identities.
  destruct o; [destruct Hspec as [[Hc ?] _]..|done]; by rewrite Hc.
Qed.

Lemma section_follows clk x now x' : ApiInv clk x → section (clk, x) (now, x') → follows clk x now x'.
Proof.
  intros [Hw Ht Hb] Hstep. inversion Hstep; subst; clear Hstep.
  - pose proof (exec_spec clk now op _ Hw ltac:(done) ltac:(done)) as Hinv.
    pose proof (exec_agents clk now op _ Hw ltac:(done) ltac:(done) ltac:(done)) as Hag.
    unfold wp in Hinv, Hag.
    match goal with E : exec op now _ = _ |- _ => rewrite E in Hinv, Hag end.
    assert (WInv now w' ∧ agents_back (w_state (api_broker x)) (w_state w')) as [HW Hback]
      by (destruct o; [split; [apply Hinv|done]..|done]).
    split_and!; [done| |done]. split; [done..|]. intros rid r' Hr'.
    destruct (Hback _ _ Hr') as (r & Hr & Hsame). unfold same_agent in Hsame. simpl. rewrite Hsame. by eapply Hb.
  - pose proof (register_agents clk now agent session fresh _ Hw ltac:(done) ltac:(done)) as Hreg.
    unfold wp in Hreg. match goal with E : register _ _ _ _ _ = _ |- _ => rewrite E in Hreg end.
    assert (WInv now w' ∧ ∀ rid r', registrations (w_state w') !! rid = Some r' →
      reg_agent (rs_registration r') = agent ∨
      ∃ r, regs_of x !! rid = Some r ∧ same_agent r r') as [HW Hback].
    { destruct o; [by destruct Hreg as (? & _ & ?)| |done]. destruct Hreg as [? Hback]. split; [done|].
      intros rid r' Hr'. right. by apply Hback. }
    split_and!; [done| |done]. split; [done..|]. intros rid r' Hr'. simpl.
    destruct (Hback _ _ Hr') as [->|(r & Hr & Hsame)]; [done|].
    unfold same_agent in Hsame. rewrite Hsame. by eapply Hb.
  - destruct (identity_step_ok _ _ Ht ltac:(done)) as [Ht' Hl]. split_and!; [done| |done].
    split; [done..|]. intros rid r' Hr'. eapply backed_later; [exact Hl|]. by eapply Hb.
  - destruct (find_table _ _ _ _ _ Ht ltac:(done)) as [Ht' Hl].
    unfold follows. simpl. rewrite Hl. split_and!; [done| |done].
    split; [done..|]. simpl. rewrite Hl. intros rid r' Hr'. by eapply Hb.
  - split_and!; [done| |done]. split; [by eapply WInv_later|done..].
Qed.

Lemma follows_refl clk x : ApiInv clk x → follows clk x clk x.
Proof. intros HI. split_and!; [done..|reflexivity]. Qed.

Lemma follows_trans clk x clk' x' now x'' :
  follows clk x clk' x' → follows clk' x' now x'' → follows clk x now x''.
Proof. intros (? & _ & H12) (? & ? & H23). split_and!; [lia|done|by etrans]. Qed.

Lemma reaches_follows clk x now x' : reaches (clk, x) (now, x') → ApiInv clk x → follows clk x now x'.
Proof.
  intros Hsteps. remember (clk, x) as s eqn:Hs. remember (now, x') as s' eqn:Hs'.
  revert clk x Hs. induction Hsteps as [s|s [clk1 x1] s' Hstep _ IH]; intros clk x -> HI.
  - injection Hs' as <- <-. by apply follows_refl.
  - pose proof (section_follows _ _ _ _ HI Hstep) as Hf. eapply follows_trans; [exact Hf|].
    apply IH; [done..|apply Hf].
Qed.

Lemma api_reachable_inv clk x : ApiReachable clk x → ApiInv clk x.
Proof.
  induction 1 as [now p w report p' db Hrec Hdb|clk x now x' _ IH Hstep].
  - pose proof (recover_spec now p) as Hwp. unfold wp in Hwp. rewrite Hrec in Hwp.
    destruct Hwp as (_ & HW & rows & vs & _ & _ & _ & _ & _ & Hregs & _). simpl in HW, Hregs.
    split; [done..|]. simpl. rewrite Hregs. done.
  - by apply (section_follows _ _ _ _ IH Hstep).
Qed.

Lemma reaches_reachable clk x now x' :
  ApiReachable clk x → reaches (clk, x) (now, x') → ApiReachable now x'.
Proof.
  intros Hx Hsteps. remember (clk, x) as s eqn:Hs. remember (now, x') as s' eqn:Hs'.
  revert clk x Hs Hx. induction Hsteps as [s|s [clk1 x1] s' Hstep _ IH]; intros clk x -> Hx.
  - by injection Hs' as <- <-.
  - eapply IH; [done..|]. by eapply api_stepped.
Qed.

(** ** Handlers

    [interferes till f]: [f] is what other requests do until [till]. *)
Definition interferes (till : Z) (f : ApiWorld P → ApiWorld P) : Prop :=
  ∀ clk x, ApiInv clk x → (clk ≤ till)%Z → reaches (clk, x) (till, f x).

Lemma interferes_id till : interferes till id.
Proof. intros clk x _ Hle. by apply rtc_once, section_tick. Qed.

(** A handler that began in [s] has run sections, until [till] at the latest. *)
Definition ran (s : Z * ApiWorld P) (till : Z) x' : Prop :=
  ∃ clk', (clk' ≤ till)%Z ∧ reaches s (clk', x').

Lemma ran_reachable clk x till x' : ApiReachable clk x → ran (clk, x) till x' → ApiReachable till x'.
Proof.
  intros Hx (clk' & Hle & Hr). eapply api_stepped; [by eapply reaches_reachable|]. by apply section_tick.
Qed.

Lemma reaches_inv clk x now x' : ApiInv clk x → reaches (clk, x) (now, x') → ApiInv now x'.
Proof. intros HI Hr. by apply (reaches_follows _ _ _ _ Hr HI). Qed.

(** [m] is the section [op]. *)
Definition implements {A} (m : ST (World P) DomainError A) (op : Op) now : Prop :=
  ∀ w, match m w with
       | (Panic _, _) => ∃ msg, (exec op now w).1 = Panic msg
       | (_, w') => (exec op now w).2 = w'
       end.

Lemma implements_discard {A} (m : ST (World P) DomainError A) op now :
  exec op now = discard m → implements m op now.
Proof. intros Hexec w. rewrite Hexec. unfold discard, st_bind, st_ret. destruct (m w) as [[] ?]; eauto. Qed.

Lemma implements_exec op now : implements (exec op now) op now.
Proof. intros w. destruct (exec op now w) as [[] ?]; eauto. Qed.

Lemma wp_broker {A} op now till clk x (m : ST (World P) DomainError A) (Q : A → ApiWorld P → Prop) s :
  reaches s (clk, x) → ApiInv clk x → (clk ≤ now)%Z → (now ≤ till)%Z →
  admissible op (api_broker x) → registers op = false → implements m op now →
  (∀ a x', reaches s (now, x') → ApiInv now x' → api_identities x' = api_identities x → Q a x') →
  wp (with_broker m) Q (λ _ x', ran s till x') x.
Proof.
  intros Hs HI Hle Htill Hadm Hop Himpl HQ.
  pose proof (exec_spec clk now op _ (ai_broker _ _ HI) Hle Hadm) as Hnp. specialize (Himpl (api_broker x)).
  assert (section (clk, x) (now, x <| api_broker := (exec op now (api_broker x)).2 |>)) as Hstep
    by (by eapply section_broker; [..|apply surjective_pairing]).
  pose proof (rtc_r _ _ _ Hs Hstep) as Hreach.
  pose proof (section_follows _ _ _ _ HI Hstep) as (_ & HI' & _).
  unfold with_broker. apply wp_zoom, wp_map_err. unfold wp in *.
  destruct (m (api_broker x)) as [[a|e|msg] w'].
  - subst w'. by apply HQ.
  - subst w'. by exists now.
  - destruct Himpl as [msg' Hmsg]. destruct (exec op now (api_broker x)) as [? ?]. simpl in Hmsg. by subst.
Qed.

Lemma wp_resolve fault source (state : ApiState) pane session till clk x (Q : AgentIdentity → ApiWorld P → Prop) s :
  reaches s (clk, x) → ApiInv clk x → (clk ≤ till)%Z → (∀ i, no_panic (source i)) → role_ok (pane_role pane) →
  (∀ id x', reaches s (clk, x') → ApiInv clk x' → api_broker x' = api_broker x →
     Resolved pane session (rows_of x) id (rows_of x') → Q id x') →
  wp (resolve_identity fault source state pane session) Q (λ _ x', ran s till x') x.
Proof.
  intros Hs HI Hle Hsrc Hrole HQ. unfold resolve_identity, with_identities. apply wp_zoom, wp_map_err.
  destruct (ai_table _ _ HI) as [Hok Hw].
  pose proof (resolve_or_create_spec fault (api_identity_store state) pane session source _ _
    Hsrc Hrole Hok (conj eq_refl Hw)) as Hspec.
  unfold wp in *.
  destruct (resolve_or_create fault (api_identity_store state) source pane session (api_identities x))
    as [o db'] eqn:Hrun.
  assert (section (clk, x) (clk, x <| api_identities := db' |>)) as Hstep
    by (apply section_resolve; by repeat eexists).
  pose proof (rtc_r _ _ _ Hs Hstep) as Hreach.
  pose proof (section_follows _ _ _ _ HI Hstep) as (_ & HI' & _).
  destruct o as [id|e|msg]; [|by exists clk|done].
  destruct Hspec as (rows' & [Hrows _] & _ & HR). apply HQ; [done..|]. simpl. unfold identities at 2.
  by rewrite Hrows.
Qed.

Lemma wp_between {E} till (f : ApiWorld P → ApiWorld P) clk x (Q : () → ApiWorld P → Prop) X s :
  reaches s (clk, x) → ApiInv clk x → (clk ≤ till)%Z → interferes till f →
  (reaches s (till, f x) → ApiInv till (f x) → later (rows_of x) (rows_of (f x)) → Q tt (f x)) →
  wp (E := E) (st_modify f) Q X x.
Proof.
  intros Hs HI Hle Hf HQ. apply wp_modify. pose proof (Hf _ _ HI Hle) as Hsteps.
  destruct (reaches_follows _ _ _ _ Hsteps HI) as (_ & ? & ?). apply HQ; [by etrans|done..].
Qed.
End runs.

(** ** Every handler that writes is a sequence of sections *)

Section calls.
Context `{JsonNumber} {serde : SerdeJson} {uuid : UuidLib} {crypto : ApiCrypto}.
Context `{Rusqlite} (fault : nat → option SqlError).
Context {P : Type} {persistence : BrokerPersistence P} {spec : PersistenceSpec P}.
Context (verify : string → option VerifiedPane).
Context (suffix_source : nat → Outcome IdentityError string).
Context (canonicalize : PathBuf → option PathBuf).
Implicit Types (x y : ApiWorld P) (clk now : Z).

(** The requests that write, with what happens between their sections. *)
Inductive Call :=
| CallRegister (request : RegisterRequest) (between : ApiWorld P → ApiWorld P) (fresh : RegistrationId)
| CallRenew (headers : Headers) (before_resolve before_renew : ApiWorld P → ApiWorld P)
| CallUnregister (headers : Headers)
| CallAck (headers : Headers) (delivery_id : DeliveryId)
| CallReply (path : option string) (headers : Headers) (text : string) (metadata : Value)
    (file_refs : list FileReference) (between : ApiWorld P → ApiWorld P)
| CallCancel (path : option string) (headers : Headers)
| CallWait (headers : Headers) (timeout_ms : option Z) (before_notify before_poll : ApiWorld P → ApiWorld P)
    (now_poll : Z) (fresh : DeliveryId) (resumes : list (WaitResume (S := ApiWorld P))).

Definition ignore {A} (m : ST (ApiWorld P) ApiError A) : ST (ApiWorld P) ApiError () :=
  let! _ := m in st_ret tt.

(** A request whose first section is at [now] and whose last one is at [till]. *)
Definition call (state : ApiState) (c : Call) (now till : Z) : ST (ApiWorld P) ApiError () :=
  match c with
  | CallRegister request between fresh =>
      ignore (api_register fault verify suffix_source state request between till fresh)
  | CallRenew headers before_resolve before_renew =>
      ignore (api_renew fault verify suffix_source state headers now before_resolve before_renew till)
  | CallUnregister headers => api_unregister headers till
  | CallAck headers delivery_id => ack_inbox headers delivery_id till
  | CallReply path headers text metadata file_refs between =>
      api_reply_task canonicalize path headers text metadata file_refs now between till
  | CallCancel path headers => api_cancel_task path headers till
  | CallWait headers timeout_ms before_notify before_poll now_poll fresh resumes =>
      ignore (wait_inbox headers timeout_ms now before_notify before_poll now_poll fresh resumes)
  end.

(** What other requests do leaves the identifiers [fresh] unused. *)
Definition leaves_unused (fresh : list DeliveryId) (f : ApiWorld P → ApiWorld P) : Prop :=
  ∀ d y, d ∈ fresh → fresh_delivery d (api_broker y) → fresh_delivery d (api_broker (f y)).

(** The wake-ups of a wait, each at its time. *)
Fixpoint resumes_ok (workspace : string) (now till : Z) (fresh : list DeliveryId)
    (resumes : list (WaitResume (S := ApiWorld P))) : Prop :=
  match resumes with
  | [] => (now ≤ till)%Z
  | resume :: resumes =>
      (now ≤ wr_now resume)%Z ∧ interferes workspace (wr_now resume) (wr_others resume) ∧
      leaves_unused fresh (wr_others resume) ∧
      resumes_ok workspace (wr_now resume) till fresh resumes
  end.

(** What other requests do is sections too, and an identifier stays unused. *)
Definition call_ok (workspace : string) (c : Call) (now till : Z) x : Prop :=
  match c with
  | CallRegister _ between fresh =>
      interferes workspace till between ∧ registrations (w_state (api_broker x)) !! fresh = None ∧
      ∀ y, registrations (w_state (api_broker y)) !! fresh = None →
           registrations (w_state (api_broker (between y))) !! fresh = None
  | CallRenew _ before_resolve before_renew =>
      interferes workspace till before_resolve ∧ interferes workspace till before_renew
  | CallReply _ _ _ _ _ between => interferes workspace till between
  | CallWait _ _ before_notify before_poll now_poll fresh resumes =>
      let ids := fresh :: (wr_fresh <$> resumes) in
      (now ≤ now_poll)%Z ∧ Forall (λ d, fresh_delivery d (api_broker x)) ids ∧
      interferes workspace now_poll before_notify ∧ leaves_unused ids before_notify ∧
      interferes workspace now_poll before_poll ∧ leaves_unused ids before_poll ∧
      resumes_ok workspace now_poll till ids resumes
  | _ => True
  end.

Lemma registration_credentials_no_panic headers : no_panic (registration_credentials headers).
Proof.
  unfold registration_credentials. repeat (apply no_panic_bind; [|intros ?]); auto with herdr.
  apply no_panic_map_err, no_panic_bind; [|done]. unfold parse_uuid_v7.
  apply no_panic_bind; [auto with herdr|]. intros id. by destruct (_ || _).
Qed.

Section cases.
Context (state : ApiState) (clk now till : Z) (x : ApiWorld P).
Hypothesis HI : ApiInv (api_workspace_id state) clk x.
Hypothesis Hnow : (clk ≤ now)%Z.
Hypothesis Htill : (now ≤ till)%Z.
Hypothesis Hsuffix : ∀ i, no_panic (suffix_source i).
Hypothesis Hroles : ∀ id pane, verify id = Some pane → role_ok (pane_role pane).

Abbreviation done_by := (ran (api_workspace_id state) (clk, x) till).

Lemma ran_now : done_by x.
Proof. exists clk. split; [lia|apply rtc_refl]. Qed.

Lemma ran_at clk' x' : (clk' ≤ till)%Z → reaches (api_workspace_id state) (clk, x) (clk', x') → done_by x'.
Proof. intros ? ?. by exists clk'. Qed.

Lemma register_sections request between fresh :
  call_ok (api_workspace_id state) (CallRegister request between fresh) now till x →
  wp (api_register fault verify suffix_source state request between till fresh)
    (λ _, done_by) (λ _, done_by) x.
Proof.
  intros (Hbet & Hfresh & Hkeep). unfold api_register.
  wp_step. apply wp_reject_if; [intros _|intros _; apply ran_now].
  wp_step. apply wp_ok_or; [intros pane Hpane|intros _; apply ran_now].
  wp_step. apply wp_reject_if; [intros Hws|intros _; apply ran_now].
  wp_step. eapply wp_resolve; [apply rtc_refl|exact HI|lia|done|by eapply Hroles|].
  intros id x1 Hs1 HI1 Hb1 HR.
  wp_step. apply wp_reject_if; [intros _|intros _; eapply ran_at; [|exact Hs1]; lia].
  wp_step. eapply (wp_between _ till); [exact Hs1|exact HI1|lia|done|]. intros Hs2 HI2 Hl2.
  wp_step. assert (backed (api_workspace_id state) (identities (api_identities (between x1)))
    (MkVerifiedAgent (canonical_name id) (pane_pane_id pane) (pane_harness pane)
       (pane_workspace_path pane))) as Hbacked.
  { apply negb_false_iff, String.eqb_eq in Hws. rewrite <-Hws.
    eapply backed_later; [exact Hl2|]. by eapply resolved_backed. }
  assert (registrations (w_state (api_broker (between x1))) !! fresh = None) as Hfresh2
    by (apply Hkeep; by rewrite Hb1).
  unfold with_broker. apply wp_zoom, wp_map_err.
  pose proof (register_agents till till (MkVerifiedAgent (canonical_name id) (pane_pane_id pane)
    (pane_harness pane) (pane_workspace_path pane)) (rq_harness_session_id request) fresh _
    (ai_broker _ _ _ HI2) ltac:(lia) Hfresh2) as Hreg.
  unfold wp in Hreg |- *.
  destruct (register _ _ till fresh _) as [[reg|e|msg] w'] eqn:Hrun; [apply wp_ret| |done];
    (eapply ran_at; [reflexivity|]; eapply rtc_r; [exact Hs2|]; by eapply section_register).
Qed.

Lemma renew_sections headers before_resolve before_renew :
  call_ok (api_workspace_id state) (CallRenew headers before_resolve before_renew) now till x →
  wp (api_renew fault verify suffix_source state headers now before_resolve before_renew till)
    (λ _, done_by) (λ _, done_by) x.
Proof.
  intros (Hbet & Hbet'). unfold api_renew. wp_step.
  apply wp_lift_no_panic; [apply registration_credentials_no_panic|intros c _|intros _ _; apply ran_now].
  wp_step. eapply (wp_broker _ (OpAuthenticate c)); [apply rtc_refl|exact HI|done|done|done|done|by apply implements_discard|].
  intros current x1 Hs1 HI1 _.
  wp_step. apply wp_ok_or; [intros pane Hpane|intros _; eapply ran_at; [|eassumption]; lia].
  wp_step. apply wp_reject_if; [intros _|intros _; eapply ran_at; [|eassumption]; lia].
  wp_step. eapply (wp_between _ till); [exact Hs1|exact HI1|done|done|]. intros Hs2 HI2 _.
  wp_step. eapply wp_resolve; [exact Hs2|exact HI2|done|done|by eapply Hroles|]. intros id x3 Hs3 HI3 _ _.
  wp_step. apply wp_reject_if; [intros _|intros _; eapply ran_at; [|eassumption]; lia].
  wp_step. eapply (wp_between _ till); [exact Hs3|exact HI3|done|done|]. intros Hs4 HI4 _.
  wp_step. eapply (wp_broker _ (OpRenew c)); [exact Hs4|exact HI4|done|done|done|done|by apply implements_discard|].
  intros reg x5 Hs5 _ _. apply wp_ret. eapply ran_at; [|eassumption]; lia.
Qed.

(** The handlers with one section. *)
Lemma one_section {A} (credentials : Outcome ApiError RegistrationCredentials)
    (op : RegistrationCredentials → Op) (m : RegistrationCredentials → ST (World P) DomainError A) :
  no_panic credentials → (∀ c, admissible (op c) (api_broker x)) → (∀ c, registers (op c) = false) →
  (∀ c, implements (m c) (op c) till) →
  wp (let! c := st_lift credentials in with_broker (m c)) (λ _, done_by) (λ _, done_by) x.
Proof.
  intros Hc Hadm Hop Himpl. wp_step. apply wp_lift_no_panic; [done|intros c _|intros _ _; apply ran_now].
  eapply (wp_broker _ (op c) till till); [apply rtc_refl|exact HI|lia|done|done..|].
  intros a x1 Hs1 _ _. eapply ran_at; [|eassumption]; lia.
Qed.

Lemma unregister_sections headers : wp (api_unregister headers till) (λ _, done_by) (λ _, done_by) x.
Proof.
  pose proof (one_section (registration_credentials headers) OpRemove (λ c, remove_registration c till)
    (registration_credentials_no_panic _) (λ _, I) (λ _, eq_refl) (λ c, implements_exec (OpRemove c) till))
    as Hone.
  unfold api_unregister, with_broker, wp, st_bind, st_lift, st_map_err, zoom in *.
  destruct (registration_credentials headers) as [c|e|msg]; [|done..].
  destruct (remove_registration c till (api_broker x)) as [[a|[]|msg] w']; done.
Qed.

Lemma path_task_id_no_panic path : no_panic (path_task_id path).
Proof.
  unfold path_task_id. repeat (apply no_panic_bind; [|intros ?]); auto with herdr.
Qed.

Lemma cancel_sections path headers : wp (api_cancel_task path headers till) (λ _, done_by) (λ _, done_by) x.
Proof.
  unfold api_cancel_task. wp_step.
  apply wp_lift_no_panic; [apply path_task_id_no_panic|intros id _|intros _ _; apply ran_now].
  apply (one_section _ (λ c, OpCancel c id)); [apply registration_credentials_no_panic|done..|].
  intros c. apply (implements_exec (OpCancel c id)).
Qed.

Lemma reply_sections path headers text metadata file_refs between :
  interferes (api_workspace_id state) till between →
  wp (api_reply_task canonicalize path headers text metadata file_refs now between till)
    (λ _, done_by) (λ _, done_by) x.
Proof.
  intros Hbet. unfold api_reply_task. wp_step.
  apply wp_lift_no_panic; [apply path_task_id_no_panic|intros id _|intros _ _; apply ran_now]. wp_step.
  apply wp_lift_no_panic; [apply registration_credentials_no_panic|intros c _|intros _ _; apply ran_now].
  wp_step. eapply (wp_broker _ (OpAuthenticate c));
    [apply rtc_refl|exact HI|done|done|done|done|by apply implements_discard|].
  intros current x1 Hs1 HI1 _.
  wp_step. apply wp_reject_if; [intros _|intros _; eapply ran_at; [|eassumption]; lia].
  wp_step. apply wp_lift_no_panic; [apply no_panic_map_error, validate_payload_no_panic|intros v _|].
  2:{ intros _ _. eapply ran_at; [|eassumption]; lia. }
  wp_step. eapply (wp_between _ till); [exact Hs1|exact HI1|done|done|]. intros Hs2 HI2 _.
  eapply (wp_broker _ (OpReply c id _)); [exact Hs2|exact HI2|done|done|done|done|apply (implements_exec (OpReply c id _))|].
  intros a x3 Hs3 _ _. eapply ran_at; [|eassumption]; lia.
Qed.

Lemma discard_state {A} (m : ST (World P) DomainError A) w : (discard m w).2 = (m w).2.
Proof. unfold discard, st_bind. by destruct (m w) as [[] ?]. Qed.

(** A step of the environment of the broker. *)
Lemma ran_environment x' op w' :
  done_by x' → (∀ t, exec op t (api_broker x') = (Done tt, w')) → registers op = false →
  admissible op (api_broker x') → done_by (x' <| api_broker := w' |>).
Proof.
  intros (clk' & Hle & Hr) Hrun Hop Hadm. exists clk'. split; [done|].
  eapply rtc_r; [exact Hr|]. by eapply section_broker.
Qed.

(** A poll that finds nothing keeps the identifiers unused. *)
Lemma wp_poll c now' fresh clk' x' Q :
  reaches (api_workspace_id state) (clk, x) (clk', x') →
  ApiInv (api_workspace_id state) clk' x' → (clk' ≤ now')%Z → (now' ≤ till)%Z →
  fresh_delivery fresh (api_broker x') →
  (∀ message x'', done_by x'' → Q (Ready message) x'') →
  (∀ deadline x'', reaches (api_workspace_id state) (clk, x) (now', x'') →
     ApiInv (api_workspace_id state) now' x'' →
     (∀ d, fresh_delivery d (api_broker x') → fresh_delivery d (api_broker x'')) →
     Q (Pending deadline) x'') →
  wp (zoom api_broker (λ w x, x <| api_broker := w |>) (poll_delivery c now' fresh)) Q
    (λ _ x'', done_by x'') x'.
Proof.
  intros Hs HI' Hle Htill' Hfresh HR HP. apply wp_zoom.
  pose proof (poll_delivery_spec clk' now' c fresh _ (ai_broker _ _ _ HI') Hle Hfresh) as Hwp.
  assert (section (api_workspace_id state) (clk', x')
    (now', x' <| api_broker := (poll_delivery c now' fresh (api_broker x')).2 |>)) as Hstep.
  { rewrite <-(discard_state _ _). eapply (section_broker _ _ _ _ (OpPoll c fresh)); [done..|].
    apply surjective_pairing. }
  pose proof (rtc_r _ _ _ Hs Hstep) as Hreach.
  pose proof (section_follows _ _ _ _ _ HI' Hstep) as (_ & HI'' & _).
  unfold wp in Hwp |- *. destruct (poll_delivery c now' fresh (api_broker x')) as [[poll|e|msg] w'];
    simpl in *; [|by exists now'|done].
  destruct poll as [message|deadline]; [apply HR; by exists now'|]. apply HP; [done..|].
  destruct Hwp as (_ & w1 & r & [HM _ _] & -> & _). apply HM.
Qed.

Lemma wait_loop_sections c key timeout now' fresh resumes clk' x' :
  reaches (api_workspace_id state) (clk, x) (clk', x') →
  ApiInv (api_workspace_id state) clk' x' → (clk' ≤ now')%Z →
  ∀ ids, Forall (λ d, fresh_delivery d (api_broker x')) ids →
  fresh ∈ ids → (wr_fresh <$> resumes) ⊆ ids →
  resumes_ok (api_workspace_id state) now' till ids resumes →
  wp (wait_loop api_broker (λ w x, x <| api_broker := w |>) c key timeout now' fresh resumes)
    (λ _, done_by) (λ _, done_by) x'.
Proof.
  revert now' fresh clk' x'. induction resumes as [|resume resumes IH];
    intros now' fresh clk' x' Hs HI' Hle ids Hids Hin Hsub Hok; cbn [wait_loop].
  { assert ((now' ≤ till)%Z) as Hend by done. wp_step.
    eapply wp_poll; [exact Hs|exact HI'|done|done| | |].
    - by apply (proj1 (Forall_forall _ _) Hids).
    - intros message x'' Hx. by apply wp_ret.
    - intros deadline x'' Hs2 _ _. apply wp_ret. by eapply ran_at. }
  cbn [resumes_ok] in Hok. destruct Hok as (Hnext & Hother & Hkeep & Hrest).
  assert ((wr_now resume ≤ till)%Z) as Hend.
  { clear -Hrest. revert Hrest. generalize (wr_now resume). induction resumes as [|r0 rs IH0]; [done|].
    intros z (? & _ & _ & Hr). apply IH0 in Hr. lia. }
  wp_step. eapply wp_poll; [exact Hs|exact HI'|done|lia| | |].
  { by apply (proj1 (Forall_forall _ _) Hids). }
  { intros message x'' Hx. by apply wp_ret. }
  intros deadline x2 Hs2 HI2 Hfr2. wp_step.
  eapply (wp_between _ (wr_now resume)); [exact Hs2|exact HI2|done|done|]. intros Hs3 HI3 _.
  assert (Forall (λ d, fresh_delivery d (api_broker (wr_others resume x2))) ids) as Hids3.
  { apply Forall_forall. intros d Hd. apply Hkeep; [done|]. apply Hfr2.
    by apply (proj1 (Forall_forall _ _) Hids). }
  destruct (wr_cause resume).
  - wp_step. apply wp_gets. case_bool_decide; [|apply wp_ret; by eapply ran_at].
    wp_step. apply wp_zoom. unfold modify_shared. apply wp_modify.
    match goal with |- wp _ _ _ ?s => set (x4 := s) end.
    assert (section (api_workspace_id state) (wr_now resume, wr_others resume x2) (wr_now resume, x4))
      as Hstep by (by eapply (section_broker _ _ _ _ (EnvTakePermit key))).
    apply (IH (wr_now resume) (wr_fresh resume) (wr_now resume) x4) with (ids := ids); try done.
    + by eapply rtc_r.
    + by apply (section_follows _ _ _ _ _ HI3 Hstep).
    + eapply Forall_impl; [exact Hids3|]. by intros d [? ?].
    + apply Hsub. set_solver.
    + intros d Hd. apply Hsub. set_solver.
  - apply (IH (wr_now resume) (wr_fresh resume) (wr_now resume)) with (ids := ids); try done.
    + apply Hsub. set_solver.
    + intros d Hd. apply Hsub. set_solver.
  - destruct timeout; [apply wp_fail|apply wp_ret]; by eapply ran_at.
Qed.

Lemma begin_wait_unused c key w w' d :
  WInv clk w → begin_wait c now w = (Done key, w') → fresh_delivery d w → fresh_delivery d w'.
Proof.
  intros HWI Hrun Hd.
  destruct (wp_done _ _ _ _ _ _ (begin_wait_spec clk now c w HWI Hnow) Hrun)
    as (w1 & r & [HM _ _] & _ & _ & HW & Hst & _).
  apply fresh_from_state; [apply HW|rewrite Hst; apply HM|]. rewrite Hst. apply (mt_fresh _ _ _ HM), Hd.
Qed.

Lemma wait_sections headers timeout_ms before_notify before_poll now_poll fresh resumes :
  call_ok (api_workspace_id state)
    (CallWait headers timeout_ms before_notify before_poll now_poll fresh resumes) now till x →
  wp (wait_inbox headers timeout_ms now before_notify before_poll now_poll fresh resumes)
    (λ _, done_by) (λ _, done_by) x.
Proof.
  intros (Hpoll & Hids & Hn & Hkn & Hp & Hkp & Hres). unfold wait_inbox. wp_step.
  apply wp_reject_if; [intros _|intros _; apply ran_now]. wp_step.
  apply wp_lift_no_panic; [apply registration_credentials_no_panic|intros c _|intros _ _; apply ran_now].
  apply wp_map_err. unfold wait_next. wp_step.
  eapply (wp_mono _ (λ key x1, (∃ w1, begin_wait c now (api_broker x) = (Done key, w1) ∧
    x1 = x <| api_broker := w1 |>) ∧ reaches (api_workspace_id state) (clk, x) (now, x1) ∧
    ApiInv (api_workspace_id state) now x1) _ (λ _, done_by)); [| |done].
  { assert (section (api_workspace_id state) (clk, x)
      (now, x <| api_broker := (begin_wait c now (api_broker x)).2 |>)) as Hstep.
    { rewrite <-(discard_state _ _). eapply (section_broker _ _ _ _ (OpBeginWait c)); [done..|].
      apply surjective_pairing. }
    pose proof (begin_wait_spec clk now c _ (ai_broker _ _ _ HI) Hnow) as Hwp.
    pose proof (section_follows _ _ _ _ _ HI Hstep) as (_ & HI1 & _).
    unfold wp, zoom in Hwp |- *. destruct (begin_wait c now (api_broker x)) as [[key|e|msg] w1];
      simpl in *; [| |done].
    - split_and!; [by exists w1|by apply rtc_once|done].
    - exists now. split; [done|by apply rtc_once]. }
  intros key x1 ((w1 & Hbegin & ->) & Hs1 & HI1).
  assert (Forall (λ d, fresh_delivery d w1) (fresh :: (wr_fresh <$> resumes))) as Hids1.
  { eapply Forall_impl; [exact Hids|]. intros d. by eapply begin_wait_unused; [apply HI|]. }
  assert ((now_poll ≤ till)%Z) as Hend.
  { clear -Hres. revert Hres. generalize (fresh :: (wr_fresh <$> resumes)) as ids. intros ids.
    revert now_poll. induction resumes as [|r0 rs IH0]; [done|].
    intros z (? & _ & _ & Hr). apply IH0 in Hr. lia. }
  set (x1 := x <| api_broker := w1 |>) in *.
  pose proof (Hn now x1 HI1 Hpoll) as Hsn. assert (reaches (api_workspace_id state) (clk, x) (now_poll, before_notify x1)) as Hs2 by (by etrans).
  pose proof (reaches_inv _ _ _ _ _ HI1 Hsn) as HI2.
  assert (∀ x', done_by x' → done_by (x' <| api_broker := drop_wait_guard key (api_broker x') |>))
    as Hdrop by (intros x' Hx'; by eapply (ran_environment x' (EnvDropGuard key))).
  unfold wp at 1. cbv beta zeta.
  destruct (registrations (w_state (api_broker (before_notify x1))) !! cred_id c) as [r|].
  - pose proof (Hp now_poll _ HI2 (Z.le_refl _)) as Hsp.
    assert (reaches (api_workspace_id state) (clk, x) (now_poll, before_poll (before_notify x1))) as Hs3 by (by etrans). pose proof (reaches_inv _ _ _ _ _ HI2 Hsp) as HI3.
    pose proof (wait_loop_sections c (rs_notify r) (is_some timeout_ms) now_poll fresh resumes now_poll
      (before_poll (before_notify x1)) Hs3 HI3 (Z.le_refl _) (fresh :: (wr_fresh <$> resumes))) as Hloop.
    assert (wp (wait_loop api_broker (λ w x, x <| api_broker := w |>) c (rs_notify r) (is_some timeout_ms)
      now_poll fresh resumes) (λ _, done_by) (λ _, done_by) (before_poll (before_notify x1))) as Hw.
    { apply Hloop; [|set_solver|set_solver|done]. apply Forall_forall. intros d Hd. apply Hkp; [done|].
      apply Hkn; [done|]. by apply (proj1 (Forall_forall _ _) Hids1). }
    unfold wp in Hw. destruct (wait_loop _ _ _ _ _ _ _ _ _) as [result x'] eqn:Hrun.
    assert (done_by x') as Hx' by (destruct result; done).
    destruct result as [[m|]|e|msg]; [apply (Hdrop _ Hx')|exact Hx'|apply (Hdrop _ Hx')|done].
  - apply Hdrop. by eapply ran_at.
Qed.

Lemma call_sections c :
  call_ok (api_workspace_id state) c now till x →
  wp (call state c now till) (λ _, done_by) (λ _, done_by) x.
Proof.
  intros Hok. destruct c as [request between fresh|headers b1 b2|headers|headers d|path headers text metadata refs between|path headers|headers timeout b1 b2 now_poll fresh resumes];
    cbn [call call_ok] in *.
  - unfold ignore. wp_step. eapply wp_mono; [by apply register_sections|by intros; apply wp_ret|done].
  - unfold ignore. wp_step. eapply wp_mono; [by apply renew_sections|by intros; apply wp_ret|done].
  - apply unregister_sections.
  - apply (one_section _ (λ c, OpAck c d)); [apply registration_credentials_no_panic|done..|].
    intros c. apply (implements_exec (OpAck c d)).
  - by apply reply_sections.
  - apply cancel_sections.
  - unfold ignore. wp_step. eapply wp_mono; [by apply wait_sections|by intros; apply wp_ret|done].
Qed.
End cases.
End calls.
