(* ===== verification/ApiTheorems.v ===== *)
(** * Properties of the private interface

    The handlers that write are sequences of critical sections; the directory never
    contradicts the identity table; a target resolves to the agent it names; what is
    authenticated for one endpoint is never accepted for another. *)
From stdpp Require Import prelude gmap strings sorting relations.
From S2P Require Import Prelude RustStd Model Validation Durability BrokerState BrokerDurable BrokerMaintain BrokerOps.
From S2P Require Import BrokerInv BrokerPrim BrokerTrans BrokerImage BrokerWorld BrokerMaintained BrokerSpec BrokerRegistry.
From S2P Require Import BrokerStart BrokerReach BrokerRuns BrokerProgress Scenario BrokerDirectory Sqlite Identity.
From S2P Require Import IdentityNames IdentityTable IdentityClaims Api ApiRuns.

#[global] Instance response_le_total : Total response_le.
Proof. intros a b. unfold response_le. apply (total agent_le). Qed.

(** What a directory entry says of a registration. *)
Definition describes (reg : Registration) (agent : AgentResponse) : Prop :=
  ar_canonical_name agent = agent_name (reg_agent reg) ∧
  ar_pane_id agent = agent_pane_id (reg_agent reg) ∧
  ar_harness agent = agent_harness (reg_agent reg).

Section directory.
Context `{JsonNumber} {serde : SerdeJson} {uuid : UuidLib} {crypto : ApiCrypto}.
Context `{RusqliteSpec} (fault : nat → option SqlError).
Context {P : Type} {persistence : BrokerPersistence P} {spec : PersistenceSpec P}.
Context (state : ApiState).
Implicit Types (x y : ApiWorld P) (clk now : Z).

Abbreviation Inv' := (ApiInv (P := P) (api_workspace_id state)).
Abbreviation backed' := (backed (api_workspace_id state)).
Abbreviation rows_of x := (identities (api_identities x)).

(** No statement fails and no worker has panicked. *)
Definition calm x : Prop := (∀ n, fault n = None) ∧ poisoned (api_identities x) = false.

(** The only error: the database is not available. *)
Definition only_unavailable x (e : ApiError) : Prop := error_status e = SERVICE_UNAVAILABLE ∧ ¬ calm x.

(** A lookup in a handler. *)
Lemma wp_find name clk x (Q : option AgentIdentity → ApiWorld P → Prop) :
  Inv' clk x →
  (∀ found x', Inv' clk x' → rows_of x' = rows_of x → (calm x → calm x') →
     match found with
     | Some id => identity_row id ∈ rows_of x ∧ canonical_name id = name
     | None => unused (rows_of x) (agent_str name)
     end → Q found x') →
  wp (with_identities (find_by_canonical fault name)) Q (λ e _, only_unavailable x e) x.
Proof.
  intros HI HQ. unfold with_identities. apply wp_zoom, wp_map_err.
  destruct (ai_table _ _ _ HI) as [Hok Hw].
  pose proof (find_by_canonical_spec fault name _ _ Hok (conj eq_refl Hw)) as Hspec. unfold wp in *.
  destruct (find_by_canonical fault name (api_identities x)) as [o db'] eqn:Hrun.
  pose proof (section_find (api_workspace_id state) clk x fault name o db' Hrun) as Hstep.
  destruct (section_follows _ _ _ _ _ HI Hstep) as (_ & HI' & _).
  assert (calm x → calm (x <| api_identities := db' |>) ∧ ∃ found, o = Done found) as Hcalm.
  { intros [Hq Hp]. destruct (find_progress fault name _ _ Hq Hok (conj (conj eq_refl Hw) Hp))
      as (found & db1 & Hrun1 & [_ Hp1] & _). rewrite Hrun in Hrun1. injection Hrun1 as -> ->.
    split; [done|by exists found]. }
  destruct o as [found|e|msg]; [| |done].
  - destruct Hspec as [[Hrows _] Hfound]. apply HQ; [done..| |done]. by intros [? _]%Hcalm.
  - destruct Hspec as [_ [? ?]]. split; [by destruct e|]. by intros [_ [? ?]]%Hcalm.
Qed.

(** A registration that the table backs is described, never contradicted. *)
Lemma directory_agent_spec reg clk x :
  Inv' clk x → backed' (rows_of x) (reg_agent reg) →
  wp (directory_agent fault state reg)
    (λ agent x', describes reg agent ∧ Inv' clk x' ∧ rows_of x' = rows_of x ∧ (calm x → calm x'))
    (λ e _, only_unavailable x e) x.
Proof.
  intros HI (row & Hrow & Hname & Hws & Hpane & Hharness). unfold directory_agent. wp_step.
  eapply wp_find; [exact HI|]. intros found x1 HI1 Hrows Hcalm Hfound. wp_step.
  destruct found as [id|]; [|by destruct (Hfound row)].
  destruct Hfound as [Hid Hcanon]. apply wp_lift. simpl.
  assert (identity_row id = row) as Hrow_id.
  { eapply same_name; [apply (ai_table _ _ _ HI)|done..|]. unfold identity_row. simpl. congruence. }
  subst row. unfold identity_row in *. simpl in *. subst. wp_step.
  rewrite Hws, Hpane, Hharness, !String.eqb_refl. apply wp_ret. unfold describes. simpl. by rewrite Hcanon.
Qed.

(** What happens between the lookups. *)
Definition tolerable (till : Z) (between : nat → ApiWorld P → ApiWorld P) : Prop :=
  ∀ i, interferes (api_workspace_id state) till (between i) ∧ ∀ x, calm x → calm (between i x).

Lemma directory_agents_spec (till : Z) between regs clk x :
  Inv' clk x → (clk ≤ till)%Z → tolerable till between →
  Forall (λ reg, backed' (rows_of x) (reg_agent reg)) regs →
  wp (directory_agents fault state between regs) (λ agents _, Forall2 describes regs agents)
    (λ e _, only_unavailable x e) x.
Proof.
  intros HI Hle Hbet Hbacked. revert clk x HI Hle Hbacked.
  induction regs as [|reg regs IH]; intros clk x HI Hle Hbacked; cbn [directory_agents]; [by apply wp_ret|].
  apply Forall_cons in Hbacked as [Hreg Hregs]. destruct (Hbet (length regs)) as [Hint Hcalm1].
  wp_step. apply (wp_between (api_workspace_id state) till _ clk _ _ _ (clk, x)); [apply rtc_refl|done..|].
  intros _ HI1 Hl. wp_step.
  eapply wp_mono; [eapply directory_agent_spec; [exact HI1|by eapply backed_later]| |].
  2:{ intros e _ [? Hnc]. split; [done|]. auto. }
  cbv beta. intros agent x2 (Hdesc & HI2 & Hrows2 & Hcalm2). wp_step.
  eapply wp_mono; [eapply (IH till); [exact HI2|done|]| |].
  - eapply Forall_impl; [exact Hregs|]. intros reg' Hreg'. rewrite Hrows2. by eapply backed_later.
  - cbv beta. intros agents x3 Hagents. apply wp_ret. by constructor.
  - intros e _ [? Hnc]. split; [done|]. auto.
Qed.

(** [reg] is registered and has not expired. *)
Definition live_now now x (reg : Registration) : Prop :=
  ∃ rid r, registrations (w_state (api_broker x)) !! rid = Some r ∧ rs_registration r = reg ∧
    (now < reg_expiry r)%Z.

(** The directory of [regs]: an entry for each, in the order of the names. *)
Definition directory_of (regs : list Registration) (agents : list AgentResponse) : Prop :=
  Sorted response_le agents ∧ ∃ entries, Forall2 describes regs entries ∧ agents ≡ₚ entries.

Lemma live_directory_spec till between now clk x :
  Inv' clk x → (clk ≤ now)%Z → (now ≤ till)%Z → tolerable till between →
  wp (live_directory fault state between now)
    (λ agents _, ∃ regs, directory_of regs agents ∧ NoDup regs ∧
       ((∀ reg, reg ∈ regs ↔ live_now now x reg) ∨
        regs = [] ∧ ∃ e w', maintain_state now (api_broker x) = (Fail e, w')))
    (λ e _, only_unavailable x e) x.
Proof.
  intros HI Hle Htill Hbet. unfold live_directory. wp_step. unfold api_list_agents, wp at 1.
  destruct (list_agents now (api_broker x)) as [regs w'] eqn:Hlist.
  pose proof (list_agents_live clk now _ regs w' (ai_broker _ _ _ HI) Hle Hlist) as Hlive.
  assert (section (api_workspace_id state) (clk, x) (now, x <| api_broker := w' |>)) as Hstep.
  { apply (section_broker _ _ _ _ OpListAgents (Done tt)); [done..|]. cbn [exec]. by rewrite Hlist. }
  destruct (section_follows _ _ _ _ _ HI Hstep) as (_ & HI' & _).
  unfold live_directory_from_registrations. wp_step.
  eapply wp_mono; [eapply (directory_agents_spec till between regs now); [exact HI'|done..|]| |done].
  - apply Forall_forall. intros reg Hreg. destruct Hlive as [(_ & _ & _ & Hiff)|[-> _]];
      [|by apply not_elem_of_nil in Hreg].
    apply Hiff in Hreg as (rid & r & Hr & <- & _). by apply (ai_backed _ _ _ HI rid).
  - cbv beta. intros entries x' Hentries. apply wp_ret. exists regs. split_and!.
    + split; [apply Sorted_merge_sort, _|]. exists entries. split; [done|apply merge_sort_Permutation].
    + destruct Hlive as [(_ & _ & ? & _)|[-> _]]; [done|constructor].
    + destruct Hlive as [(_ & _ & _ & ?)|(-> & _ & e & ?)]; [by left|right]. eauto.
Qed.
End directory.

(** ** Targets *)

Definition called (target : string) (directory : list AgentResponse) (name : AgentName) : Prop :=
  agent_str name = target ∧ name ∈ ar_canonical_name <$> directory.

(** The names of the agents with a role, in the order of the directory. *)
Definition with_role (target : string) (directory : list AgentResponse) : list AgentName :=
  ar_canonical_name <$> filter (λ agent, role_str (ar_role agent) = target) directory.

Definition parsed_names (directory : list AgentResponse) : Prop :=
  ∀ name, name ∈ ar_canonical_name <$> directory → AgentName_parse (agent_str name) = Done name.

Lemma existsb_names canonical directory :
  existsb (λ agent, bool_decide (ar_canonical_name agent = canonical)) directory = true ↔
  canonical ∈ ar_canonical_name <$> directory.
Proof.
  rewrite existsb_exists, list_elem_of_fmap. split.
  - intros (agent & Hin & <-%bool_decide_eq_true). exists agent. by rewrite list_elem_of_In.
  - intros (agent & -> & Hin). exists agent. split; [by apply list_elem_of_In|by apply bool_decide_eq_true_2].
Qed.

Lemma parse_same target name : AgentName_parse target = Done name → agent_str name = target.
Proof. by intros ->%AgentName_parse_Done. Qed.

Lemma resolve_by_name directory target name :
  parsed_names directory → called target directory name → resolve_in directory target = Done name.
Proof.
  intros Hparsed [<- Hin]. unfold resolve_in. rewrite (Hparsed _ Hin).
  by rewrite (proj2 (existsb_names _ _) Hin).
Qed.

Lemma resolve_by_role directory target :
  (∀ name, ¬ called target directory name) →
  resolve_in directory target =
    match merge_sort agent_le (with_role target directory) with
    | [] => Fail (ApiError_new NOT_FOUND "agent_not_found" "no live agent matches this target")
    | [candidate] => Done candidate
    | candidates => Fail (with_candidates candidates
        (ApiError_new CONFLICT "ambiguous_agent" "multiple live agents have this role"))
    end.
Proof.
  intros Hnot. unfold resolve_in. fold (with_role target directory).
  destruct (AgentName_parse target) as [name|e|msg] eqn:Hparse;
    [destruct (existsb _ directory) eqn:Hex|..]; [|by destruct (merge_sort _ _) as [|? []]..].
  apply existsb_names in Hex. destruct (Hnot name). split; [by apply parse_same|done].
Qed.

(** A canonical name passes the checks on a target. *)
Lemma parsed_target name :
  AgentName_parse (agent_str name) = Done name →
  negb (bounded_identifier (agent_str name)) || has_control (agent_str name) = false.
Proof.
  intros Hparse. unfold AgentName_parse in Hparse.
  destruct (as_bytes (agent_str name)) as [|b bs] eqn:Hb; [done|].
  destruct (_ || _) eqn:Hchk in Hparse; [done|].
  apply orb_false_iff in Hchk as [[Hlen Hfirst]%orb_false_iff Hrest].
  apply negb_false_iff, Nat.leb_le in Hlen. apply negb_false_iff in Hfirst, Hrest.
  rewrite <-Hb, length_as_bytes in Hlen.
  assert (Forall (λ b, agent_name_byte b = true) (as_bytes (agent_str name))) as Hbytes.
  { rewrite Hb. constructor; [by unfold agent_name_byte; rewrite Hfirst|].
    apply Forall_forall. intros c Hc. rewrite forallb_forall in Hrest. apply Hrest. by apply list_elem_of_In. }
  assert (Forall (λ b, ascii_range b ∧ is_control b = false) (as_bytes (agent_str name))) as Hplain.
  { eapply Forall_impl; [exact Hbytes|]. intros c. unfold agent_name_byte, is_ascii_lowercase, is_ascii_digit,
      ascii_range, is_control, in_range. rewrite !orb_true_iff, !andb_true_iff, !Z.leb_le, !Z.eqb_eq.
    intros Hc. split; [lia|]. rewrite orb_false_iff, !andb_false_iff, !Z.leb_gt. lia. }
  unfold bounded_identifier, has_control. rewrite chars_ascii by (by eapply Forall_impl; [exact Hplain|intros ? []]).
  assert (str_len (agent_str name) ≠ 0) as Hne by (rewrite <-length_as_bytes, Hb; done).
  rewrite (proj2 (Nat.eqb_neq _ _) Hne), (proj2 (Nat.leb_le _ _)) by (unfold MAX_IDENTITY_FIELD_BYTES; lia).
  simpl. apply not_true_iff_false. rewrite existsb_exists. intros (c & Hc%list_elem_of_In & Hctl).
  rewrite Forall_forall in Hplain. destruct (Hplain _ Hc) as [_ Hno]. congruence.
Qed.

(** ** What is authenticated *)

(** An answer that carries a proof: of the health endpoint, or of the status endpoint
    with its body. *)
Inductive Answer := HealthAnswer (nonce : string) | StatusAnswer (nonce : string) (body : list Z).

Section messages.
Context {crypto : ApiCrypto} (instance : string).

Definition answer_message (a : Answer) : Outcome ApiError (list Z) :=
  match a with
  | HealthAnswer nonce =>
      let? bytes := decode_nonce "invalid_health_nonce" "health nonce must be canonical base64url"
                      "health nonce must encode exactly 32 bytes" nonce in
      Done (health_message instance bytes)
  | StatusAnswer nonce body =>
      let? bytes := decode_nonce "invalid_status_nonce" "status nonce must be canonical base64url"
                      "status nonce must encode exactly 32 bytes" nonce in
      Done (status_message instance bytes body)
  end.

Lemma decode_nonce_Done code canonical exact nonce bytes :
  decode_nonce code canonical exact nonce = Done bytes → length bytes = 32 ∧ base64url_encode bytes = nonce.
Proof.
  unfold decode_nonce. destruct (base64url_decode nonce) as [bs|]; [|done]. simpl.
  destruct (_ || _) eqn:Hchk; [done|]. apply orb_false_iff in Hchk as [Hlen Henc].
  apply negb_false_iff, Nat.eqb_eq in Hlen. apply negb_false_iff, String.eqb_eq in Henc.
  simpl. by intros [= <-].
Qed.

Lemma answer_message_inj a a' m : answer_message a = Done m → answer_message a' = Done m → a = a'.
Proof.
  destruct a as [nonce|nonce body], a' as [nonce'|nonce' body']; simpl;
    intros (n & [Hn <-]%decode_nonce_Done & [= <-])%out_bind_Done
           (n' & [Hn' <-]%decode_nonce_Done & [= Heq])%out_bind_Done.
  - by apply app_inv_head in Heq as ->.
  - apply app_inv_head, app_inj_1 in Heq as [-> ->]; [done|congruence].
Qed.
End messages.

(** ** Properties *)

Section claims.
Context `{JsonNumber} {serde : SerdeJson} {uuid : UuidLib} {crypto : ApiCrypto} {json : StatusSerde}.
Context `{RusqliteSpec} (fault : nat → option SqlError).
Context {P : Type} {persistence : BrokerPersistence P} {spec : PersistenceSpec P}.
Implicit Types (x y : ApiWorld P) (clk now : Z).

(** C16: Whatever it answers, a request that registers, renews, unregisters, waits for a
    delivery, acknowledges, replies or cancels (every request that writes) has run
    critical sections of the broker and of the identity table and nothing else, with
    those of other requests in between; every registration there is afterwards is of
    an agent that the identity table backs. *)
Theorem handlers_are_sections verify suffix_source canonicalize state c clk now till x :
  ApiReachable (api_workspace_id state) clk x → (clk ≤ now)%Z → (now ≤ till)%Z →
  (∀ i, no_panic (suffix_source i)) →
  (∀ id pane, verify id = Some pane → role_ok (pane_role pane)) →
  call_ok (api_workspace_id state) c now till x →
  ∃ o x', call fault verify suffix_source canonicalize state c now till x = (o, x') ∧ no_panic o ∧
    ∃ clk', (clk' ≤ till)%Z ∧ reaches (api_workspace_id state) (clk, x) (clk', x') ∧
      ∀ rid r, registrations (w_state (api_broker x')) !! rid = Some r →
        backed (api_workspace_id state) (identities (api_identities x')) (reg_agent (rs_registration r)).
Proof.
  intros HI%api_reachable_inv Hnow Htill Hsrc Hroles Hok.
  pose proof (call_sections fault verify suffix_source canonicalize state clk now till x HI Hnow Htill
                Hsrc Hroles c Hok) as Hwp. unfold wp in Hwp.
  destruct (call _ _ _ _ _ _ _ _ x) as [o x']. exists o, x'. split; [done|].
  destruct o as [[]|e|msg]; [| |done]; (split; [done|]; destruct Hwp as (clk' & Hle & Hr); exists clk';
    split_and!; [done..|]; apply (ai_backed _ _ _ (reaches_inv _ _ _ _ _ HI Hr))).
Qed.


(** A target is an agent's canonical name first and a role second: it resolves to
    the agent of that name; failing that, to the only agent with that role; when there
    are several the answer is a conflict that lists them all in order, and when there
    is none it is not found. *)
Theorem targets_resolve directory target :
  parsed_names directory →
  (∀ name, called target directory name → resolve_in directory target = Done name) ∧
  ((∀ name, ¬ called target directory name) →
   match resolve_in directory target with
   | Done name => with_role target directory = [name]
   | Fail e =>
       (with_role target directory = [] ∧ error_status e = NOT_FOUND ∧ error_candidates e = []) ∨
       (2 ≤ length (with_role target directory) ∧ error_status e = CONFLICT ∧
        Sorted agent_le (error_candidates e) ∧ error_candidates e ≡ₚ with_role target directory)
   | Panic _ => False
   end).
Proof.
  intros Hparsed. split; [intros name; by apply resolve_by_name|]. intros Hnot.
  rewrite resolve_by_role by done.
  pose proof (merge_sort_Permutation agent_le (with_role target directory)) as Hperm.
  pose proof (Sorted_merge_sort agent_le (with_role target directory)) as Hsorted.
  destruct (merge_sort agent_le (with_role target directory)) as [|a [|b l]].
  - left. by apply Permutation_nil in Hperm as ->.
  - by apply Permutation_singleton_l in Hperm as ->.
  - right. split_and!; [|done..]. rewrite <-Hperm. simpl. lia.
Qed.

(** A live agent can be addressed by its canonical name: while the databases work,
    resolving the name gives the agent. *)
Theorem live_agents_resolve `{!BrokerProgress.PersistenceProgress P} state between clk now till x reg :
  ApiReachable (api_workspace_id state) clk x → (clk ≤ now)%Z → (now ≤ till)%Z →
  tolerable fault state till between → calm fault x → BrokerProgress.ready now (api_broker x) →
  live_now now x reg →
  ∃ x', resolve_agent fault state between (agent_str (agent_name (reg_agent reg))) now x
        = (Done (agent_name (reg_agent reg)), x').
Proof.
  intros HI%api_reachable_inv Hle Htill Hbet Hcalm Hready Hlive.
  assert (∀ reg', live_now now x reg' → AgentName_parse (agent_str (agent_name (reg_agent reg')))
    = Done (agent_name (reg_agent reg'))) as Hparse.
  { intros reg' (rid & r & Hr & <- & _).
    destruct (ai_backed _ _ _ HI _ _ Hr) as (row & Hrow & Hname & _). rewrite <-Hname.
    destruct (ai_table _ _ _ HI) as [Hok _].
    pose proof (proj1 (Forall_forall _ _) (table_rows _ Hok) row Hrow) as [_ _ _ _ Hn _].
    rewrite (stored_name_parses _ _ Hn), Hname. by destruct (agent_name _). }
  enough (wp (resolve_agent fault state between (agent_str (agent_name (reg_agent reg))) now)
    (λ a _, a = agent_name (reg_agent reg)) (λ _ _, False) x) as (a & x' & Hrun & ->)%wp_total
    by (by exists x').
  unfold resolve_agent. wp_step. apply wp_accept; [by apply parsed_target, Hparse|]. wp_step.
  eapply wp_mono; [by eapply live_directory_spec| |by intros e _ [_ []]].
  cbv beta. intros agents x' (regs & [_ (entries & Hdesc & Hperm)] & _ & Hregs).
  assert (∀ reg, reg ∈ regs ↔ live_now now x reg) as Hiff.
  { destruct Hregs as [?|(_ & e & w' & Hfail)]; [done|].
    pose proof (BrokerProgress.maintain_progress clk now _ (ai_broker _ _ _ HI) Hle Hready) as Hprog.
    unfold wp in Hprog. by rewrite Hfail in Hprog. }
  clear Hregs. rewrite resolve_by_name with (name := agent_name (reg_agent reg)); [by apply wp_lift| |].
  - intros name Hname. rewrite Hperm in Hname.
    apply list_elem_of_fmap in Hname as (agent & -> & Hagent).
    apply list_elem_of_lookup in Hagent as [i Hi].
    destruct (Forall2_lookup_r _ _ _ _ _ Hdesc Hi) as (reg' & Hreg' & -> & _). apply Hparse, Hiff.
    by eapply list_elem_of_lookup_2.
  - split; [done|]. rewrite Hperm. apply Hiff, list_elem_of_lookup in Hlive as [i Hi].
    destruct (Forall2_lookup_l _ _ _ _ _ Hdesc Hi) as (agent & Hagent & <- & _).
    by eapply list_elem_of_fmap_2, list_elem_of_lookup_2.
Qed.

(** The proof of an answer is bound to it: it is computed over the domain of the
    endpoint, the instance, a nonce of exactly 32 bytes in its only spelling and, for a
    status, the whole body; no two different answers of an instance, on the same
    endpoint or not, authenticate the same message. *)
Theorem proofs_bind_answers state :
  (∀ nonce proof i, health_proof state nonce = Done (proof, i) →
     ∃ m, answer_message (broker_instance_id state) (HealthAnswer nonce) = Done m ∧
       proof = base64url_encode (hmac_sha256 (bearer_token_digest state) m)) ∧
  (∀ between nonce now x status body proof i x',
     status_challenge fault state between nonce now x = (Done (status, body, proof, i), x') →
     ∃ m, answer_message (broker_instance_id state) (StatusAnswer nonce body) = Done m ∧
       proof = base64url_encode (hmac_sha256 (bearer_token_digest state) m)) ∧
  (∀ a a' m, answer_message (broker_instance_id state) a = Done m →
     answer_message (broker_instance_id state) a' = Done m → a = a').
Proof.
  split_and!; [| |apply answer_message_inj].
  - intros nonce proof i (bytes & Hbytes & [= <- <-])%out_bind_Done. simpl. rewrite Hbytes. eauto.
  - intros between nonce now x status body proof i x'. unfold status_challenge, st_bind, st_lift. simpl.
    destruct (decode_nonce _ _ _ nonce) as [bytes|e|msg]; [|done..].
    destruct (workspace_status_response _ _ _ _ x) as [[response|e|msg] x1]; [..|done];
      intros [= <- <- <- _ _]; simpl; eauto.
Qed.
End claims.

(** * A concrete run of the private interface

    An agent registers through the interface of an empty workspace; the witnesses of the
    properties are evaluated on the world after it. *)
Module ApiSample.
Import Scenario.

#[local] Instance uuid : UuidLib := {|
  Uuid := string; uuid_parse_str := Some; uuid_version_num := λ _, 7%Z; uuid_is_rfc4122 := λ _, true;
  uuid_to_string := λ s, s;
|}.
#[local] Instance crypto : ApiCrypto := {|
  api_sha256 := id; hmac_sha256 := app; base64url_encode := λ _, ""; base64url_decode := λ _, None;
|}.
#[local] Instance sqlite : Rusqlite := {|
  SqlError := bool;
  sqlite_failure := λ constraint, Some (if constraint then ConstraintViolation else OtherErrorCode 5);
  sql_error_display := λ _, "database is locked";
  unique_violation := true;
  check_violation := true;
  query_returned_no_rows := false;
|}.
#[local] Instance sqlite_spec : RusqliteSpec := {| unique_is_constraint := eq_refl |}.

Definition no_fault : nat → option SqlError := λ _, None.
Definition suffixes (i : nat) : Outcome IdentityError string := Done "abcdef".
Definition no_files : PathBuf → option PathBuf := λ _, None.
Definition reviewer_pane : VerifiedPane :=
  MkVerifiedPane "pane-1" "workspace" (MkRoleLabel "Reviewer") "claude" "/work".
Definition verify (id : string) : option VerifiedPane :=
  if String.eqb id "pane-1" then Some reviewer_pane else None.
Definition state : ApiState := MkApiState (MkIdentityStore (Some "workspace")) "workspace" [1%Z] "instance".

Definition empty_world : ApiWorld Store := MkApiWorld boot (MkConn [] None 0 false).
Definition join : Call (P := Store) :=
  CallRegister (MkRegisterRequest "pane-1" "session" None) id (rid "ra").
Definition joined : ApiWorld Store :=
  (call no_fault verify suffixes no_files state join 1000 1001 empty_world).2.
Definition reviewer_name : AgentName := MkAgentName "reviewer-abcdef".
Definition reviewer : Registration :=
  MkRegistration (rid "ra") (MkRegistrationEpoch 1)
    (MkVerifiedAgent reviewer_name "pane-1" "claude" "/work") "session" (1001 + REGISTRATION_TTL_MS).

Lemma empty_reachable : ApiReachable "workspace" 1000 empty_world.
Proof.
  eapply (api_started _ _ (empty_store []) boot); [|split; [apply TableOK_nil|done]].
  exact (eq_refl (recover 1000 (empty_store []))).
Qed.

Lemma join_ok : call_ok "workspace" join 1000 1001 empty_world.
Proof. split_and!; [apply interferes_id|done|done]. Qed.

Lemma verified_roles id pane : verify id = Some pane → role_ok (pane_role pane).
Proof. unfold verify. destruct (String.eqb id "pane-1"); [|done]. by intros [= <-]. Qed.

(** Witness: the agent registers. *)
Lemma handlers_are_sections_witness :
  ∃ o x', call no_fault verify suffixes no_files state join 1000 1001 empty_world = (o, x') ∧ no_panic o ∧
    ∃ clk', (clk' ≤ 1001)%Z ∧ reaches "workspace" (1000%Z, empty_world) (clk', x') ∧
      ∀ rid r, registrations (w_state (api_broker x')) !! rid = Some r →
        backed "workspace" (identities (api_identities x')) (reg_agent (rs_registration r)).
Proof.
  apply (handlers_are_sections no_fault verify suffixes no_files state join 1000 1000 1001 empty_world);
    [apply empty_reachable|lia|lia|done|apply verified_roles|apply join_ok].
Defined.

Lemma joined_reachable : ApiReachable "workspace" 1001 joined.
Proof.
  eapply ran_reachable; [apply empty_reachable|].
  pose proof (call_sections no_fault verify suffixes no_files state 1000 1000 1001 empty_world
    (api_reachable_inv _ _ _ empty_reachable) ltac:(lia) ltac:(lia) (λ _, I) verified_roles join join_ok) as Hwp.
  unfold wp in Hwp. unfold joined. by destruct (call _ _ _ _ _ _ _ _ _) as [[] ?].
Qed.

Definition alone : nat → ApiWorld Store → ApiWorld Store := λ _, id.

Lemma alone_tolerable : tolerable no_fault state 1002 alone.
Proof. intros i. split; [apply interferes_id|done]. Qed.

Lemma joined_live : live_now 1002 joined reviewer.
Proof. eexists (rid "ra"), _. split_and!; [by vm_compute|done|]. by vm_compute. Qed.


(** Witness: and its name resolves. *)
Lemma live_agents_resolve_witness :
  ∃ x', resolve_agent no_fault state alone "reviewer-abcdef" 1002 joined = (Done reviewer_name, x').
Proof.
  apply (live_agents_resolve no_fault state alone 1001 1002 1002 joined reviewer);
    [apply joined_reachable|lia|lia|apply alone_tolerable|by split|apply ready_test_ok; by vm_compute|apply joined_live].
Defined.

(** Witness: two reviewers and a tester. *)
Definition crowd : list AgentResponse :=
  [MkAgentResponse (MkAgentName "b") (MkRoleLabel "reviewer") "p1" "pi";
   MkAgentResponse (MkAgentName "a") (MkRoleLabel "reviewer") "p2" "pi";
   MkAgentResponse (MkAgentName "reviewer-c") (MkRoleLabel "tester") "p3" "pi"].

Lemma targets_resolve_witness :
  (∀ name, called "a" crowd name → resolve_in crowd "a" = Done name) ∧
  resolve_in crowd "tester" = Done (MkAgentName "reviewer-c").
Proof.
  assert (parsed_names crowd) as Hparsed.
  { intros name. cbn. rewrite !elem_of_cons. intros [->|[->|[->|[]%not_elem_of_nil]]]; done. }
  split; [apply (targets_resolve crowd "a" Hparsed)|by vm_compute].
Defined.
End ApiSample.
