(* ===== verification/CliText.v ===== *)
(** * Text on the wire

    The functions of [str] and slices that the command line uses on bytes it has read:
    prefixes, lines, splitting, trimming.  A text is the list of its bytes. *)
From stdpp Require Import prelude gmap strings.
From Stdlib Require Import SpecFloat.
From S2P Require Import Prelude RustStd.

Abbreviation Bytes := (list Z).

Definition starts_with (prefix l : Bytes) : bool := bool_decide (take (length prefix) l = prefix).

Definition strip_bytes (prefix l : Bytes) : option Bytes :=
  if starts_with prefix l then Some (drop (length prefix) l) else None.

(** [slice.windows(n).any(|window| window == pattern)] *)
Fixpoint contains (pattern l : Bytes) : bool :=
  starts_with pattern l || match l with [] => false | _ :: l => contains pattern l end.

(** [str::split("\r\n")] *)
Fixpoint split_crlf (current : Bytes) (l : Bytes) : list Bytes :=
  match l with
  | 13%Z :: ((10%Z :: rest) as tail) => reverse current :: split_crlf [] rest
  | b :: rest => split_crlf (b :: current) rest
  | [] => [reverse current]
  end.

(** [str::split_once] at one byte *)
Fixpoint split_once (separator : Z) (l : Bytes) : option (Bytes * Bytes) :=
  match l with
  | [] => None
  | b :: rest =>
      if (b =? separator)%Z then Some ([], rest)
      else match split_once separator rest with
           | Some (before, after) => Some (b :: before, after)
           | None => None
           end
  end.

(** [str::split] at one byte *)
Fixpoint split_byte (separator : Z) (l : Bytes) : list Bytes :=
  match l with
  | [] => [[]]
  | b :: rest =>
      match split_byte separator rest with
      | piece :: pieces =>
          if (b =? separator)%Z then [] :: piece :: pieces else (b :: piece) :: pieces
      | [] => []
      end
  end.

(** One [\r] at the end is part of a line's terminator. *)
Definition strip_cr (line : Bytes) : Bytes :=
  match reverse line with 13%Z :: rest => reverse rest | _ => line end.

(** [str::lines]: a line ends with [\n] or [\r\n]; text after the last [\n] is a line as
    it stands, and is none when it is empty. *)
Fixpoint lines (l : Bytes) (current : Bytes) : list Bytes :=
  match l with
  | [] => match current with [] => [] | _ => [reverse current] end
  | b :: rest =>
      if (b =? 10)%Z then strip_cr (reverse current) :: lines rest []
      else lines rest (b :: current)
  end.

Definition eq_ignore_ascii_case (a b : Bytes) : bool :=
  bool_decide (to_ascii_lowercase <$> a = to_ascii_lowercase <$> b).

(** [char::is_whitespace]: the property White_Space. *)
Definition is_whitespace (c : Z) : bool :=
  in_range 9 13 c || (c =? 32)%Z || (c =? 133)%Z || (c =? 160)%Z || (c =? 5760)%Z
  || in_range 8192 8202 c || (c =? 8232)%Z || (c =? 8233)%Z || (c =? 8239)%Z
  || (c =? 8287)%Z || (c =? 12288)%Z.

Definition white_chunk (chunk : Utf8Step * Bytes) : bool :=
  match chunk.1 with Scalar c _ => is_whitespace c | Malformed _ => false end.

Fixpoint trim_start (chunks : list (Utf8Step * Bytes)) : list (Utf8Step * Bytes) :=
  match chunks with
  | chunk :: rest => if white_chunk chunk then trim_start rest else chunks
  | [] => []
  end.

(** [str::trim] *)
Definition str_trim (l : Bytes) : Bytes :=
  mjoin ((reverse (trim_start (reverse (trim_start (utf8_chunks (length l) l))))).*2).

(** [str::from_utf8] *)
Definition from_utf8 (l : Bytes) : bool := utf8_valid (string_of_bytes l).

(** * Durations scaled by floating-point factors

    [Duration] in nanoseconds, [f64] as an IEEE 754 binary64 number, and
    [Duration::mul_f64]: the seconds as [f64], the product, and back, rounded to the
    nearest nanosecond, a tie to the even one. *)
Local Open Scope Z_scope.

Definition f64 : Type := spec_float.
Definition f64_of_Z (z : Z) : f64 := binary_normalize 53 1024 z 0 false.
Definition f64_add : f64 → f64 → f64 := SFadd 53 1024.
Definition f64_mul : f64 → f64 → f64 := SFmul 53 1024.
Definition f64_div : f64 → f64 → f64 := SFdiv 53 1024.

Definition nanos_per_sec : Z := 1000000000.
Definition from_millis (ms : Z) : Z := ms * 1000000.
Definition from_secs (s : Z) : Z := s * nanos_per_sec.

Definition as_secs_f64 (nanos : Z) : f64 :=
  f64_add (f64_of_Z (nanos / nanos_per_sec))
          (f64_div (f64_of_Z (nanos mod nanos_per_sec)) (f64_of_Z nanos_per_sec)).

(** The integer nearest to [n / d]. *)
Definition div_half_even (n d : Z) : Z :=
  let q := n / d in
  let twice := 2 * (n mod d) in
  if (twice <? d)%Z then q
  else if (d <? twice)%Z then q + 1
  else if Z.even q then q else q + 1.

(** [None] where [Duration::from_secs_f64] panics. *)
Definition from_secs_f64 (x : f64) : option Z :=
  match x with
  | S754_zero _ => Some 0%Z
  | S754_finite false m e =>
      Some (if (0 <=? e)%Z then Z.shiftl (Z.pos m) e * nanos_per_sec
            else div_half_even (Z.pos m * nanos_per_sec) (Z.shiftl 1 (- e)))
  | _ => None
  end.

Definition mul_f64 (nanos : Z) (factor : f64) : option Z :=
  from_secs_f64 (f64_mul factor (as_secs_f64 nanos)).

(** [f64::from(percent) / 100.0] *)
Definition percent (p : Z) : f64 := f64_div (f64_of_Z p) (f64_of_Z 100).
