(* ===== verification/Health.v ===== *)
(** * Probing the broker's identity

    [herdr-a2a-cli/src/health.rs]: the client side of the health proof.  A client that
    knows the bearer token asks the broker to authenticate a fresh nonce; it discloses
    nothing.  The HTTP client is given by the response it received, the socket of the
    synchronous probe by the events of its reads, and the random bytes by an argument. *)
From stdpp Require Import prelude gmap strings.
From S2P Require Import Prelude RustStd CliText Model Validation Sqlite Identity Ledger Api.

Definition HEALTH_PROOF_HEADER : string := "x-herdr-a2a-health-proof".
Definition HEALTH_INSTANCE_HEADER : string := "x-herdr-a2a-instance".
Definition NONCE_BYTES : nat := 32.
Definition MAX_SYNC_RESPONSE_HEADER_BYTES : nat := 8 * 1024.

(** [reqwest::Error], as far as it is inspected. *)
Class Reqwest := {
  ReqwestError : Type;
  is_connect : ReqwestError → bool;
  is_timeout : ReqwestError → bool;
  is_request : ReqwestError → bool;
  reqwest_display : ReqwestError → string;
}.

(** The errors of the probe: [io::Error] with its kind, or [reqwest::Error]. *)
Inductive IoErrorKind := InvalidDataKind | PermissionDeniedKind | OtherKind.
Inductive ProbeError `{Reqwest} :=
| ProbeIo (kind : IoErrorKind) (message : string)
| ProbeRequest (error : ReqwestError).

(** A response: the final URL, the status, and the headers in order, with their lower-case
    names; a value that is not visible ASCII has no text. *)
Record ProofResponse := MkProofResponse {
  response_url : string;
  response_status : Z;
  response_headers : list (string * option string);
}.

Section probe.
Context {crypto : ApiCrypto} `{Reqwest}.

Definition fresh_nonce (random : option Bytes) : Outcome ProbeError (Bytes * string) :=
  let? nonce := ok_or random (ProbeIo OtherKind "secure randomness unavailable") in
  Done (nonce, base64url_encode nonce).

Definition instance_id_is_valid (broker_instance_id : string) : bool :=
  match base64url_decode broker_instance_id with
  | None => false
  | Some decoded =>
      (str_len broker_instance_id =? 43)%nat && (length decoded =? 32)%nat
      && String.eqb (base64url_encode decoded) broker_instance_id
  end.

Definition proof_is_valid (bearer_token broker_instance_id : string) (nonce : Bytes)
    (encoded_proof : string) : bool :=
  if negb (instance_id_is_valid broker_instance_id) then false
  else
    match base64url_decode encoded_proof with
    | None => false
    | Some proof =>
        if negb (length proof =? 32)%nat || negb (String.eqb (base64url_encode proof) encoded_proof)
        then false
        else
          let key := api_sha256 (as_bytes bearer_token) in
          bool_decide (proof = hmac_sha256 key
            (HEALTH_PROOF_DOMAIN ++ as_bytes broker_instance_id ++ nonce))
    end.

(** The only value of a header, as text. *)
Definition single_value (name : string) (headers : list (string * option string)) : option string :=
  match filter (λ header, header.1 = name) headers with
  | [(_, value)] => value
  | _ => None
  end.

Definition proof_url (base_url encoded_nonce : string) : string :=
  base_url +:+ "/health/proof/" +:+ encoded_nonce.

(** [verify_broker_proof]; [get] is what a request for a URL gives. *)
Definition verify_broker_proof (get : string → Result ReqwestError ProofResponse)
    (base_url bearer_token broker_instance_id : string) (random : option Bytes)
    : Outcome ProbeError () :=
  let? _ := reject_if (negb (instance_id_is_valid broker_instance_id))
              (ProbeIo InvalidDataKind "broker instance ID is invalid") in
  let? fresh := fresh_nonce random in
  let '(nonce, encoded_nonce) := fresh in
  let url := proof_url base_url encoded_nonce in
  let? response := match get url with Ok response => Done response | Err error => Fail (ProbeRequest error) end in
  let? _ := reject_if (negb (String.eqb (response_url response) url))
              (ProbeIo PermissionDeniedKind "broker identity proof changed origin or URL") in
  let? _ := reject_if (negb (response_status response =? 200)%Z)
              (ProbeIo PermissionDeniedKind "broker identity proof was rejected") in
  let? proof := ok_or (single_value HEALTH_PROOF_HEADER (response_headers response))
    (ProbeIo PermissionDeniedKind "broker identity proof header is missing or malformed") in
  let? response_instance := ok_or (single_value HEALTH_INSTANCE_HEADER (response_headers response))
    (ProbeIo PermissionDeniedKind "broker instance header is missing or malformed") in
  reject_if (negb (String.eqb response_instance broker_instance_id)
             || negb (proof_is_valid bearer_token broker_instance_id nonce proof))
    (ProbeIo PermissionDeniedKind "broker identity proof is invalid").

(** ** The synchronous probe *)

(** [SocketAddrV4], parsed and displayed. *)
Record SocketAddrV4 := MkSocketAddrV4 { addr_octets : list Z; addr_port : Z }.

Definition parse_decimal (digits : Bytes) (maximum : Z) : option Z :=
  if (length digits =? 0)%nat || negb (forallb is_ascii_digit digits) then None
  else checked 0 maximum (digits_value digits).

Definition parse_octet (digits : Bytes) : option Z :=
  if (3 <? length digits)%nat || ((1 <? length digits)%nat && bool_decide (head digits = Some 48%Z))
  then None else parse_decimal digits 255.

Definition parse_address (text : Bytes) : option SocketAddrV4 :=
  match split_once 58 text with
  | None => None
  | Some (host, port) =>
      match mapM parse_octet (split_byte 46 host), parse_decimal port 65535 with
      | Some ([_; _; _; _] as octets), Some port => Some (MkSocketAddrV4 octets port)
      | _, _ => None
      end
  end.

Definition display_address (address : SocketAddrV4) : string :=
  match addr_octets address with
  | [a; b; c; d] =>
      u64_to_string a +:+ "." +:+ u64_to_string b +:+ "." +:+ u64_to_string c +:+ "."
      +:+ u64_to_string d +:+ ":" +:+ u64_to_string (addr_port address)
  | _ => ""
  end.

Definition CR : string := String (Ascii.ascii_of_nat 13) "".
Definition LF : string := String (Ascii.ascii_of_nat 10) "".
Definition CRLF : string := CR +:+ LF.

Definition probe_request (address : SocketAddrV4) (encoded_nonce : string) : string :=
  "GET /health/proof/" +:+ encoded_nonce +:+ " HTTP/1.1" +:+ CRLF +:+ "Host: "
  +:+ display_address address +:+ CRLF +:+ "Connection: close" +:+ CRLF +:+ CRLF.

(** One turn of the reading loop: the clock, whether the timeout could be set, and the
    byte, if one was read. *)
Record ReadEvent := MkReadEvent { read_now : Z; read_timeout_set : bool; read_byte : option Z }.

Definition header_end : Bytes := [13; 10; 13; 10]%Z.

(** [while headers.len() < MAX && !headers.windows(4).any(..)] *)
Fixpoint read_headers (deadline : Z) (events : list ReadEvent) (headers : Bytes) : option Bytes :=
  if negb ((length headers <? MAX_SYNC_RESPONSE_HEADER_BYTES)%nat && negb (contains header_end headers))
  then Some headers
  else
    match events with
    | [] => None
    | event :: events =>
        if (deadline <? read_now event)%Z then None
        else if negb (read_timeout_set event) then None
        else match read_byte event with
             | None => None
             | Some byte => read_headers deadline events (headers ++ [byte])
             end
    end.

(** The two headers that are looked for, as the loop over the lines fills them. *)
Record Found := MkFound { found_proof : option Bytes; found_instance : option Bytes }.

#[global] Instance Found_fields : Fields Found := λ f, MkFound (found_proof f) (found_instance f).

Fixpoint scan_headers (header_lines : list Bytes) (found : Found) : option Found :=
  match header_lines with
  | [] | [] :: _ => Some found
  | line :: rest =>
      match split_once 58 line with
      | None => None
      | Some (name, value) =>
          let is_proof := eq_ignore_ascii_case name (as_bytes HEALTH_PROOF_HEADER) in
          if is_proof && is_some (found_proof found) then None
          else
            let found := if is_proof then found <| found_proof := Some (str_trim value) |> else found in
            let is_instance := eq_ignore_ascii_case name (as_bytes HEALTH_INSTANCE_HEADER) in
            if is_instance && is_some (found_instance found) then None
            else
              scan_headers rest
                (if is_instance then found <| found_instance := Some (str_trim value) |> else found)
      end
  end.

Definition status_ok (status : Bytes) : bool :=
  match strip_bytes (as_bytes "HTTP/1.1 200") status with
  | Some suffix => (length suffix =? 0)%nat || starts_with (as_bytes " ") suffix
  | None => false
  end.

(** What the probe makes of the headers it has read. *)
Definition accept_headers (bearer_token broker_instance_id : string) (nonce headers : Bytes) : bool :=
  if negb (contains header_end headers) then false
  else if negb (from_utf8 headers) then false
  else
    match split_crlf [] headers with
    | [] => false
    | status :: header_lines =>
        if negb (status_ok status) then false
        else
          match scan_headers header_lines (MkFound None None) with
          | None => false
          | Some found =>
              bool_decide (found_instance found = Some (as_bytes broker_instance_id))
              && match found_proof found with
                 | Some proof =>
                     proof_is_valid bearer_token broker_instance_id nonce (string_of_bytes proof)
                 | None => false
                 end
          end
    end.

(** [verify_broker_proof_sync]; [peer] is what can be read after the request, [None] when
    the connection or the write fails. *)
Definition verify_broker_proof_sync (base_url bearer_token broker_instance_id : string)
    (random : option Bytes) (deadline connected : Z) (write_timeout_set : bool)
    (peer : string → option (list ReadEvent)) : bool :=
  if negb (instance_id_is_valid broker_instance_id) then false
  else
    match and_then (strip_bytes (as_bytes "http://") (as_bytes base_url)) parse_address with
    | None => false
    | Some address =>
        match random with
        | None => false
        | Some nonce =>
            match peer (probe_request address (base64url_encode nonce)) with
            | None => false
            | Some events =>
                if (deadline <? connected)%Z then false
                else if negb write_timeout_set then false
                else match read_headers deadline events [] with
                     | None => false
                     | Some headers => accept_headers bearer_token broker_instance_id nonce headers
                     end
            end
        end
    end.
End probe.
