(* ===== verification/HealthTheorems.v ===== *)
(** * Properties of the identity probe

    A probe accepts exactly the proof of the broker it is for; the probe that parses the
    response itself decides like the one behind an HTTP client. *)
From stdpp Require Import prelude gmap strings.
From S2P Require Import Prelude RustStd CliText Model Validation Sqlite Identity Ledger Api Health ApiTheorems.

(** The documented behaviour of [URL_SAFE_NO_PAD] and of HMAC-SHA-256. *)
Class ApiCryptoSpec {crypto : ApiCrypto} : Prop := {
  base64_round_trip : ∀ l, Forall byte_range l → base64url_decode (base64url_encode l) = Some l;
  base64_of_32 : ∀ l, length l = 32%nat → str_len (base64url_encode l) = 43%nat;
  hmac_length : ∀ k m, length (hmac_sha256 k m) = 32%nat;
  hmac_range : ∀ k m, Forall byte_range (hmac_sha256 k m);
}.

Section probe.
Context {crypto : ApiCrypto} {cspec : ApiCryptoSpec} `{Reqwest}.

Lemma instance_encoded l :
  length l = 32%nat → Forall byte_range l → instance_id_is_valid (base64url_encode l) = true.
Proof.
  intros Hlen Hrange. unfold instance_id_is_valid.
  by rewrite base64_round_trip, base64_of_32, Hlen, !Nat.eqb_refl, String.eqb_refl.
Qed.

(** The proof is the broker's, in its only spelling. *)
Lemma proof_is_valid_iff token id nonce p :
  proof_is_valid token id nonce p = true ↔
  instance_id_is_valid id = true ∧
  p = base64url_encode (hmac_sha256 (api_sha256 (as_bytes token)) (health_message id nonce)).
Proof.
  unfold proof_is_valid, health_message. destruct (instance_id_is_valid id) eqn:Hid; simpl; [|naive_solver].
  set (mac := hmac_sha256 _ _). split.
  - destruct (base64url_decode p) as [proof|]; [|done].
    destruct (_ || _) eqn:Hchk; [done|]. apply orb_false_iff in Hchk as [_ Henc].
    apply negb_false_iff, String.eqb_eq in Henc. intros ->%bool_decide_eq_true. done.
  - intros [_ ->]. rewrite base64_round_trip by apply hmac_range.
    unfold mac at 1. rewrite hmac_length, Nat.eqb_refl, String.eqb_refl. simpl. by apply bool_decide_eq_true.
Qed.

(** The response of the broker's health endpoint. *)
Definition health_response (url : string) (answer : Outcome ApiError (string * string)) : ProofResponse :=
  match answer with
  | Done (proof, instance) =>
      MkProofResponse url 200 [(HEALTH_PROOF_HEADER, Some proof); (HEALTH_INSTANCE_HEADER, Some instance)]
  | Fail error => MkProofResponse url (error_status error) []
  | Panic _ => MkProofResponse url INTERNAL_SERVER_ERROR []
  end.

Lemma nonce_accepted code canonical exact nonce :
  length nonce = 32%nat → Forall byte_range nonce →
  decode_nonce code canonical exact (base64url_encode nonce) = Done nonce.
Proof.
  intros Hlen Hrange. unfold decode_nonce.
  by rewrite base64_round_trip; simpl; rewrite ?Hlen, ?String.eqb_refl.
Qed.

(** A probe that is answered by a broker accepts it exactly when the broker is the
    instance asked for and authenticates under the token of the client: the proof the
    broker computes is the one the client expects, and any other is refused. *)
Theorem probe_recognises_broker state token id base_url nonce get :
  instance_id_is_valid id = true → length nonce = 32%nat → Forall byte_range nonce →
  let url := proof_url base_url (base64url_encode nonce) in
  get url = Ok (health_response url (health_proof state (base64url_encode nonce))) →
  verify_broker_proof get base_url token id (Some nonce) = Done tt ↔
  broker_instance_id state = id ∧
  base64url_encode (hmac_sha256 (bearer_token_digest state) (health_message id nonce))
  = base64url_encode (hmac_sha256 (api_sha256 (as_bytes token)) (health_message id nonce)).
Proof.
  intros Hid Hlen Hrange url Hget. unfold verify_broker_proof. rewrite Hid. simpl. fold url.
  rewrite Hget. unfold health_proof. rewrite nonce_accepted by done. simpl.
  rewrite String.eqb_refl. simpl. set (p := base64url_encode _).
  destruct (String.eqb_spec (broker_instance_id state) id) as [Hi|Hi]; simpl; [|by split; [|intros []]].
  subst id. split.
  - destruct (proof_is_valid _ _ _ p) eqn:Hv; [|done]. intros _. split; [done|].
    by apply proof_is_valid_iff in Hv as [_ ?].
  - intros [_ Hp]. fold p in Hp. by rewrite (proj2 (proof_is_valid_iff _ _ _ _) (conj Hid Hp)).
Qed.
End probe.

(** ** The two probes agree *)

(** A header as it is sent: its name, and its value between spaces and tabs. *)
Record SentHeader := MkSentHeader {
  sent_name : string;
  sent_before : Bytes;
  sent_value : string;
  sent_after : Bytes;
}.
(** The status line of HTTP/1.1: a code of three digits, and a reason if there is one. *)
Record SentStatus := MkSentStatus { sent_code : Z; sent_reason : option Bytes }.

(** The head of a response as it is sent. *)
Definition header_line (h : SentHeader) : Bytes :=
  as_bytes (sent_name h) ++ as_bytes ":" ++ sent_before h ++ as_bytes (sent_value h) ++ sent_after h.
Definition code_digits (code : Z) : Bytes := [48 + code / 100; 48 + code / 10 mod 10; 48 + code mod 10]%Z.
Definition status_line (status : SentStatus) : Bytes :=
  as_bytes "HTTP/1.1 " ++ code_digits (sent_code status)
  ++ match sent_reason status with Some reason => 32%Z :: reason | None => [] end.
Definition crlf : Bytes := [13; 10]%Z.
Definition print_lines (ls : list Bytes) : Bytes := mjoin ((λ l, l ++ crlf) <$> ls) ++ crlf.
Definition print_response (status : SentStatus) (headers : list SentHeader) : Bytes :=
  print_lines (status_line status :: (header_line <$> headers)).

(** The header as an HTTP client shows it: the name in lower case, the value without the
    spaces and tabs around it. *)
Definition lower_name (h : SentHeader) : string :=
  string_of_bytes (to_ascii_lowercase <$> as_bytes (sent_name h)).
Definition response_header (h : SentHeader) : string * option string := (lower_name h, Some (sent_value h)).

Definition visible (b : Z) : Prop := (32 < b < 127)%Z.
Definition blank (b : Z) : Prop := (b = 9 ∨ b = 32)%Z.
Definition text_byte (b : Z) : Prop := (b = 9 ∨ 32 ≤ b < 127)%Z.

(** The name is of visible ASCII without a colon, in any case; the value of ASCII text with
    spaces and tabs inside but not around. *)
Record header_ok (h : SentHeader) : Prop := {
  ok_name : Forall (λ b, visible b ∧ b ≠ 58%Z) (as_bytes (sent_name h));
  ok_before : Forall blank (sent_before h);
  ok_after : Forall blank (sent_after h);
  ok_value : Forall text_byte (as_bytes (sent_value h));
  ok_first : ∀ b, head (as_bytes (sent_value h)) = Some b → visible b;
  ok_last : ∀ b, last (as_bytes (sent_value h)) = Some b → visible b;
}.
Definition sent_status_ok (status : SentStatus) : Prop :=
  (100 ≤ sent_code status ≤ 999)%Z ∧ ∀ reason, sent_reason status = Some reason → Forall text_byte reason.

Lemma forallb_Forall_impl {A} (f : A → bool) (P : A → Prop) l :
  (∀ a, f a = true → P a) → forallb f l = true → Forall P l.
Proof.
  intros HP Hl. rewrite forallb_forall in Hl. apply Forall_forall. intros a Ha%list_elem_of_In. auto.
Qed.

(** [text_byte] as a test. *)
Definition text_byteb (b : Z) : bool := (b =? 9)%Z || ((32 <=? b) && (b <? 127))%Z.

Lemma text_bytes_ok l : forallb text_byteb l = true → Forall text_byte l.
Proof. apply forallb_Forall_impl. unfold text_byteb, text_byte. intros; lia. Qed.

Definition clean_line (l : Bytes) : Prop := l ≠ [] ∧ Forall (λ b, b ≠ 13 ∧ b ≠ 10)%Z l.

Lemma split_crlf_clean cur l rest :
  Forall (λ b, b ≠ 13 ∧ b ≠ 10)%Z l → split_crlf cur (l ++ crlf ++ rest) = (reverse cur ++ l) :: split_crlf [] rest.
Proof.
  intros Hl. revert cur. induction Hl as [|b l [Hb _] _ IH]; intros cur; [by rewrite app_nil_r|].
  transitivity (split_crlf (b :: cur) (l ++ crlf ++ rest)).
  - cbn [split_crlf app]. destruct b as [|p|p]; [done| |done].
    repeat (destruct p as [p|p|]; try done).
  - by rewrite IH, reverse_cons, <-app_assoc.
Qed.

Lemma split_print ls : Forall clean_line ls → split_crlf [] (print_lines ls) = ls ++ [[]; []].
Proof.
  unfold print_lines. induction 1 as [|l ls [_ Hl] _ IH]; [done|].
  cbn [fmap list_fmap mjoin list_join]. rewrite <-!app_assoc. rewrite split_crlf_clean by done.
  change (reverse [] ++ l) with l. cbn [app]. f_equal. exact IH.
Qed.

Lemma starts_with_cons b p l : starts_with (b :: p) l = true → ∃ l', l = b :: l'.
Proof. intros ?%bool_decide_eq_true. destruct l; simplify_eq/=. eauto. Qed.

Lemma contains_clean l rest :
  Forall (λ b, b ≠ 13 ∧ b ≠ 10)%Z l → contains header_end (l ++ rest) = contains header_end rest.
Proof.
  induction 1 as [|b l [Hb _] _ IH]; [done|]. cbn [app contains]. rewrite IH.
  destruct (starts_with header_end (b :: l ++ rest)) eqn:Hs; [|done].
  apply starts_with_cons in Hs as [? [= ? _]]. congruence.
Qed.

Lemma print_cons l ls : print_lines (l :: ls) = l ++ crlf ++ print_lines ls.
Proof. unfold print_lines. cbn [fmap list_fmap mjoin list_join]. by rewrite <-!app_assoc. Qed.

Lemma contains_print ls : ls ≠ [] → Forall clean_line ls → contains header_end (print_lines ls) = true.
Proof.
  intros Hne. induction 1 as [|l ls [_ Hl] Hls IH]; [done|]. rewrite print_cons, contains_clean by done.
  destruct ls as [|l' ls]; [done|]. cbn [crlf app contains]. rewrite IH by done. by rewrite !orb_true_r.
Qed.

(** The head ends at its end and not before. *)
Lemma prefix_no_end ls q :
  Forall clean_line ls → q `prefix_of` print_lines ls → q ≠ print_lines ls ∨ ls = [] →
  contains header_end q = false.
Proof.
  intros Hls. revert q. induction Hls as [|l ls [Hne Hl] Hls IH]; intros q Hq Hproper.
  - destruct Hq as [r Hr]. unfold print_lines in Hr. simpl in Hr.
    destruct q as [|? [|? [|]]]; [done|by injection Hr as <- _|by injection Hr as <- <- _|done].
  - rewrite print_cons in Hq, Hproper. destruct Hproper as [Hproper|]; [|done].
    destruct Hq as [r Hr]. apply app_eq_inv in Hr as [(k & -> & _)|(q1 & -> & Hr)].
    + apply Forall_app in Hl as [Hl _].
      rewrite <-(app_nil_r q), contains_clean by done. done.
    + rewrite contains_clean by done. destruct q1 as [|a [|b q2]]; [done|..].
      * by injection Hr as <-.
      * cbn [crlf app] in Hr. injection Hr as <- <- Hr.
        assert (contains header_end q2 = false) as Hc.
        { apply IH; [by exists r|]. left. intros ->. by destruct Hproper. }
        cbn [contains]. rewrite Hc, orb_false_r.
        apply not_true_iff_false. intros Hs%bool_decide_eq_true.
        destruct q2 as [|c [|d q3]]; [done..|]. injection Hs as -> ->.
        destruct ls as [|l' ls].
        -- destruct Hproper. unfold print_lines in Hr |- *. simpl in Hr |- *. injection Hr as Hr. by destruct q3.
        -- apply Forall_cons in Hls as [[Hne' Hl'] _]. destruct l' as [|e l']; [done|].
           rewrite print_cons in Hr. injection Hr as -> _. apply Forall_cons in Hl' as [[? _] _]. done.
Qed.

(** Bytes that arrive in time. *)
Definition arrives (deadline : Z) (event : ReadEvent) (b : Z) : Prop :=
  (read_now event ≤ deadline)%Z ∧ read_timeout_set event = true ∧ read_byte event = Some b.

Lemma read_headers_all deadline ls events text acc :
  ls ≠ [] → Forall clean_line ls → (length (print_lines ls) ≤ MAX_SYNC_RESPONSE_HEADER_BYTES)%nat →
  acc ++ text = print_lines ls → Forall2 (arrives deadline) events text →
  ∀ rest, read_headers deadline (events ++ rest) acc = Some (print_lines ls).
Proof.
  intros Hne Hls Hmax Htext Hev rest. revert acc Htext.
  induction Hev as [|e b events text (Hnow & Hset & Hb) _ IH]; intros acc Htext; cbn [app read_headers].
  - rewrite app_nil_r in Htext. subst acc. destruct rest; cbn [read_headers];
      by rewrite (contains_print ls), andb_false_r.
  - assert (contains header_end acc = false) as ->.
    { apply (prefix_no_end ls); [done|by exists (b :: text)|]. left. intros ->.
      apply (f_equal length) in Htext. rewrite length_app in Htext. simpl in Htext. lia. }
    assert (length acc < length (print_lines ls))%nat by (rewrite <-Htext, length_app; simpl; lia).
    rewrite (proj2 (Nat.ltb_lt _ _)) by lia. simpl.
    rewrite (proj2 (Z.ltb_ge _ _)) by lia. rewrite Hset, Hb. simpl. apply IH.
    by rewrite <-app_assoc.
Qed.

(** *** ASCII *)

Lemma chunks_ascii l fuel :
  Forall ascii_range l → (length l ≤ fuel)%nat → utf8_chunks fuel l = (λ b, (Scalar b 1, [b])) <$> l.
Proof.
  intros Hl. revert fuel. induction Hl as [|b l Hb _ IH]; intros fuel Hf; [by destruct fuel|].
  destruct fuel as [|fuel]; simpl in *; [lia|]. unfold utf8_step.
  rewrite (proj2 (Z.ltb_lt b 128)) by (unfold ascii_range in Hb; lia). simpl.
  f_equal. rewrite drop_0. apply IH. lia.
Qed.

Lemma from_utf8_ascii l : Forall ascii_range l → from_utf8 l = true.
Proof.
  intros Hl. unfold from_utf8, utf8_valid, utf8_decode.
  rewrite as_bytes_string_of_bytes by (by apply ascii_is_byte). rewrite chunks_ascii by done.
  clear Hl. by induction l.
Qed.

Lemma as_string_of_bytes s : string_of_bytes (as_bytes s) = s.
Proof. apply as_bytes_inj, as_bytes_string_of_bytes, as_bytes_range. Qed.

Lemma visible_ascii l : Forall visible l → Forall ascii_range l.
Proof. intros Hl. eapply Forall_impl; [exact Hl|]. unfold visible, ascii_range. lia. Qed.
Lemma text_ascii l : Forall text_byte l → Forall ascii_range l.
Proof. intros Hl. eapply Forall_impl; [exact Hl|]. unfold text_byte, ascii_range. lia. Qed.
Lemma blank_ascii l : Forall blank l → Forall ascii_range l.
Proof. intros Hl. eapply Forall_impl; [exact Hl|]. unfold blank, ascii_range. lia. Qed.

Definition plain (l : Bytes) : list (Utf8Step * Bytes) := (λ b, (Scalar b 1, [b])) <$> l.

Lemma trim_start_blank l rest : Forall blank l → trim_start (plain (l ++ rest)) = trim_start (plain rest).
Proof.
  induction 1 as [|b l Hb _ IH]; [done|]. cbn. unfold white_chunk. simpl. by destruct Hb as [->| ->].
Qed.

Lemma trim_start_visible l : (∀ b, head l = Some b → visible b) → trim_start (plain l) = plain l.
Proof.
  destruct l as [|b l]; [done|]. intros Hb. specialize (Hb b eq_refl). cbn. unfold white_chunk. simpl.
  assert (is_whitespace b = false) as ->; [|done].
  unfold visible in Hb. unfold is_whitespace, in_range.
  repeat (apply orb_false_iff; split); rewrite ?andb_false_iff, ?Z.leb_gt, ?Z.eqb_neq; lia.
Qed.

Lemma plain_reverse l : reverse (plain l) = plain (reverse l).
Proof. unfold plain. by rewrite fmap_reverse. Qed.
Lemma plain_bytes l : mjoin ((plain l).*2) = l.
Proof. induction l; [done|]. simpl. by f_equal. Qed.

Lemma trim_value before l after :
  Forall blank before → Forall blank after → Forall text_byte l →
  (∀ b, head l = Some b → visible b) → (∀ b, last l = Some b → visible b) →
  str_trim (before ++ l ++ after) = l.
Proof.
  intros Hb Ha Ht Hfirst Hlast. unfold str_trim. rewrite chunks_ascii; [|rewrite !Forall_app|done].
  2:{ split_and!; [by apply blank_ascii|by apply text_ascii|by apply blank_ascii]. }
  fold (plain (before ++ l ++ after)). rewrite trim_start_blank by done. destruct l as [|b l].
  - rewrite app_nil_l, <-(app_nil_r after), trim_start_blank by done. done.
  - rewrite (trim_start_visible ((b :: l) ++ after)) by (intros b' [= <-]; auto).
    rewrite plain_reverse, reverse_app, trim_start_blank by (by apply Forall_reverse).
    rewrite trim_start_visible by (intros b'; rewrite head_reverse; apply Hlast).
    by rewrite plain_reverse, reverse_involutive, plain_bytes.
Qed.

(** *** The loop over the header lines *)

Lemma header_line_clean h : header_ok h → clean_line (header_line h).
Proof.
  intros [Hn Hb Ha Hv _ _]. unfold header_line. split; [by destruct (as_bytes (sent_name h))|].
  rewrite !Forall_app. split_and!.
  - eapply Forall_impl; [exact Hn|]. unfold visible. intros b (? & _). lia.
  - repeat constructor; done.
  - eapply Forall_impl; [exact Hb|]. unfold blank. lia.
  - eapply Forall_impl; [exact Hv|]. unfold text_byte. lia.
  - eapply Forall_impl; [exact Ha|]. unfold blank. lia.
Qed.

Lemma header_line_split h :
  header_ok h → split_once 58 (header_line h)
    = Some (as_bytes (sent_name h), sent_before h ++ as_bytes (sent_value h) ++ sent_after h).
Proof.
  intros [Hn _ _ _ _ _]. unfold header_line. induction Hn as [|b l (_ & Hb) _ IH]; [done|].
  cbn [app split_once]. rewrite (proj2 (Z.eqb_neq b 58)) by done. by rewrite IH.
Qed.

Lemma lower_names name h :
  header_ok h → Forall (λ b, to_ascii_lowercase b = b) (as_bytes name) →
  eq_ignore_ascii_case (as_bytes (sent_name h)) (as_bytes name) = bool_decide (lower_name h = name).
Proof.
  intros [Hn _ _ _ _ _] Hname. unfold eq_ignore_ascii_case, lower_name.
  assert (to_ascii_lowercase <$> as_bytes name = as_bytes name) as ->.
  { induction Hname as [|b l Hb _ IHl]; [done|]; cbn [fmap list_fmap]. by rewrite Hb, IHl. }
  apply bool_decide_ext. split; [intros ->; apply as_string_of_bytes|intros <-].
  symmetry. apply as_bytes_string_of_bytes, Forall_fmap. eapply Forall_impl; [exact Hn|].
  intros b [Hb _]. unfold compose, byte_range, visible, to_ascii_lowercase, in_range in *. repeat case_match; lia.
Qed.

Definition values (name : string) (headers : list SentHeader) : list Bytes :=
  (λ h, as_bytes (sent_value h)) <$> filter (λ h, lower_name h = name) headers.

(** A header found before, and those that follow: at most one in all. *)
Definition single (found : option Bytes) (vs : list Bytes) : option (option Bytes) :=
  match found, vs with
  | _, [] => Some found
  | None, [v] => Some (Some v)
  | _, _ => None
  end.

Definition both_found (p i : option (option Bytes)) : option Found :=
  match p, i with Some p, Some i => Some (MkFound p i) | _, _ => None end.

Lemma scan_headers_spec headers found rest :
  Forall header_ok headers →
  scan_headers ((header_line <$> headers) ++ [] :: rest) found
  = both_found (single (found_proof found) (values HEALTH_PROOF_HEADER headers))
               (single (found_instance found) (values HEALTH_INSTANCE_HEADER headers)).
Proof.
  intros Hall. revert found. induction Hall as [|h headers Hh _ IH]; intros [p i]; [by destruct p, i|].
  cbn [fmap list_fmap app]. destruct (header_line_clean h Hh) as [Hne _].
  destruct (header_line h) as [|b l] eqn:Hline; [done|]. cbn [scan_headers]. rewrite <-Hline.
  rewrite header_line_split by done. cbv zeta.
  assert (Forall (λ b, to_ascii_lowercase b = b) (as_bytes HEALTH_PROOF_HEADER)) as H1
    by (repeat constructor).
  assert (Forall (λ b, to_ascii_lowercase b = b) (as_bytes HEALTH_INSTANCE_HEADER)) as H2
    by (repeat constructor).
  rewrite !lower_names, trim_value by (done || apply Hh). unfold values. rewrite !filter_cons.
  destruct (decide (lower_name h = HEALTH_PROOF_HEADER)) as [Hp|Hp].
  - rewrite (bool_decide_eq_true_2 _ Hp). rewrite Hp. simpl.
    destruct p as [p|]; simpl; [by destruct i; simpl|].
    rewrite IH. unfold values. simpl.
    by destruct (filter (λ h, lower_name h = HEALTH_PROOF_HEADER) headers).
  - rewrite (bool_decide_eq_false_2 _ Hp). simpl.
    destruct (decide (lower_name h = HEALTH_INSTANCE_HEADER)) as [Hi|Hi].
    + rewrite (bool_decide_eq_true_2 _ Hi). destruct i as [i|]; simpl; [by destruct (single _ _)|].
      rewrite IH. unfold values. simpl.
      by destruct (filter (λ h, lower_name h = HEALTH_INSTANCE_HEADER) headers).
    + rewrite (bool_decide_eq_false_2 _ Hi). simpl. by rewrite IH.
Qed.

Lemma single_value_values name headers :
  single_value name (response_header <$> headers)
  = match filter (λ h, lower_name h = name) headers with [h] => Some (sent_value h) | _ => None end.
Proof.
  unfold single_value.
  assert (filter (λ header : string * option string, header.1 = name) (response_header <$> headers)
    = response_header <$> filter (λ h, lower_name h = name) headers) as ->.
  { induction headers as [|h headers IH]; [done|]. cbn [fmap list_fmap]. rewrite !filter_cons. simpl.
    destruct (decide (lower_name h = name)); cbn [fmap list_fmap]; congruence. }
  by destruct (filter _ headers) as [|h [|]].
Qed.

(** The status line is accepted if its code is 200. *)
Lemma status_line_ok status : sent_status_ok status → status_ok (status_line status) = (sent_code status =? 200)%Z.
Proof.
  intros [Hcode _]. unfold status_ok, status_line, strip_bytes, starts_with.
  change (length (as_bytes "HTTP/1.1 200")) with 12%nat.
  change (as_bytes "HTTP/1.1 200") with (as_bytes "HTTP/1.1 " ++ code_digits 200).
  set (d := code_digits (sent_code status)). set (suffix := match sent_reason status with Some _ => _ | None => _ end).
  assert (take 12 (as_bytes "HTTP/1.1 " ++ d ++ suffix) = as_bytes "HTTP/1.1 " ++ d) as -> by done.
  assert (drop 12 (as_bytes "HTTP/1.1 " ++ d ++ suffix) = suffix) as -> by done.
  destruct (Z.eqb_spec (sent_code status) 200) as [Heq|Hne].
  - rewrite bool_decide_eq_true_2 by (unfold d; by rewrite Heq). unfold suffix. by destruct (sent_reason status).
  - rewrite bool_decide_eq_false_2; [done|]. intros Hd%app_inv_head. apply Hne. unfold d, code_digits in Hd.
    injection Hd as H1 H2 H3. change (200 / 100)%Z with 2%Z in H1.
    change (200 / 10 mod 10)%Z with 0%Z in H2. change (200 mod 10)%Z with 0%Z in H3.
    set (c := sent_code status) in *. pose proof (Z.div_mod c 10 ltac:(lia)). pose proof (Z.div_mod (c / 10) 10 ltac:(lia)).
    assert (c / 100 = c / 10 / 10)%Z as Hdiv by (by rewrite Z.div_div by lia). lia.
Qed.

Section agreement.
Context {crypto : ApiCrypto} {cspec : ApiCryptoSpec} `{Reqwest}.

Lemma code_digits_visible code : (100 ≤ code ≤ 999)%Z → Forall visible (code_digits code).
Proof.
  intros Hcode. pose proof (Z.mod_pos_bound code 10 ltac:(lia)). pose proof (Z.mod_pos_bound (code / 10) 10 ltac:(lia)).
  assert (1 ≤ code / 100 < 10)%Z by (split; [apply Z.div_le_lower_bound|apply Z.div_lt_upper_bound]; lia).
  repeat constructor; unfold visible; lia.
Qed.

Lemma status_line_text status : sent_status_ok status → Forall text_byte (status_line status).
Proof.
  intros [Hcode Hreason]. unfold status_line. rewrite !Forall_app. split_and!.
  - by apply text_bytes_ok.
  - eapply Forall_impl; [by apply code_digits_visible|]. unfold visible, text_byte. lia.
  - destruct (sent_reason status); [constructor; [unfold text_byte; lia|auto]|done].
Qed.

Lemma response_clean status headers :
  sent_status_ok status → Forall header_ok headers → Forall clean_line (status_line status :: (header_line <$> headers)).
Proof.
  intros Hstatus Hall. constructor.
  - split; [done|]. eapply Forall_impl; [by apply status_line_text|]. unfold text_byte. lia.
  - apply Forall_fmap. eapply Forall_impl; [exact Hall|]. apply header_line_clean.
Qed.

Lemma response_ascii status headers :
  sent_status_ok status → Forall header_ok headers → Forall ascii_range (print_response status headers).
Proof.
  intros Hstatus Hall. unfold print_response. rewrite print_cons, !Forall_app.
  split_and!; [by apply text_ascii, status_line_text|repeat constructor; unfold ascii_range; lia|].
  induction Hall as [|h headers [Hn Hb Ha Hv _ _] _ IH]; [repeat constructor; unfold ascii_range; lia|].
  cbn [fmap list_fmap]. rewrite print_cons. unfold header_line. rewrite !Forall_app. split_and!; [..|done].
  - apply visible_ascii. eapply Forall_impl; [exact Hn|]. by intros b [? _].
  - repeat constructor; unfold ascii_range; lia.
  - by apply blank_ascii.
  - by apply text_ascii.
  - by apply blank_ascii.
  - repeat constructor; unfold ascii_range; lia.
Qed.

(** What the parsing probe makes of a complete head. *)
Lemma accept_headers_spec token id nonce status headers :
  sent_status_ok status → Forall header_ok headers →
  accept_headers token id nonce (print_response status headers) = true ↔
  sent_code status = 200%Z ∧
  ∃ p, single_value HEALTH_PROOF_HEADER (response_header <$> headers) = Some p ∧
       single_value HEALTH_INSTANCE_HEADER (response_header <$> headers) = Some id ∧
       proof_is_valid token id nonce p = true.
Proof.
  intros Hstatus Hall. unfold accept_headers, print_response.
  pose proof (response_clean _ _ Hstatus Hall) as Hclean. rewrite contains_print by done.
  rewrite (from_utf8_ascii (print_lines _)) by (by apply response_ascii).
  rewrite split_print by done. cbn [app negb]. rewrite status_line_ok by done.
  destruct (Z.eqb_spec (sent_code status) 200) as [Hcode|]; cbn [negb]; [|naive_solver].
  rewrite scan_headers_spec by done. rewrite !single_value_values. unfold values. simpl.
  assert (∀ X : Prop, (sent_code status = 200%Z ∧ X) ↔ X) as -> by naive_solver.
  destruct (filter (λ h, lower_name h = HEALTH_PROOF_HEADER) headers) as [|hp [|]],
    (filter (λ h, lower_name h = HEALTH_INSTANCE_HEADER) headers) as [|hi [|]]; simpl;
    rewrite ?andb_false_r; try (split; [done|by intros (? & ? & ? & _)]).
  rewrite andb_true_iff, bool_decide_eq_true, as_string_of_bytes. split.
  - intros [[= ?%as_bytes_inj] ?]. exists (sent_value hp). by subst id.
  - intros (p & [= <-] & [= <-] & ?). done.
Qed.

(** C40: The probe that reads and parses the response itself decides like the one that
    uses an HTTP client.  Given the same HTTP/1.1 response - any status code and reason, any
    headers of ASCII text, with names in any case and spaces or tabs around and inside the
    values, and whatever body follows - whose head arrives before the deadline and within
    the bound of 8 KiB, it accepts exactly when the other does. *)
Theorem probes_agree token id base_url address nonce status headers get peer head_events body_events deadline connected :
  sent_status_ok status → Forall header_ok headers →
  (length (print_response status headers) ≤ MAX_SYNC_RESPONSE_HEADER_BYTES)%nat →
  strip_bytes (as_bytes "http://") (as_bytes base_url) = Some address →
  is_Some (parse_address address) → (connected ≤ deadline)%Z →
  (∀ request, peer request = Some (head_events ++ body_events)) →
  Forall2 (arrives deadline) head_events (print_response status headers) →
  (∀ url, get url = Ok (MkProofResponse url (sent_code status) (response_header <$> headers))) →
  verify_broker_proof_sync base_url token id (Some nonce) deadline connected true peer = true ↔
  verify_broker_proof get base_url token id (Some nonce) = Done tt.
Proof.
  intros Hstatus Hall Hmax Haddr [a Ha] Hconn Hpeer Hev Hget.
  unfold verify_broker_proof_sync, verify_broker_proof. rewrite Haddr. unfold and_then at 1. rewrite Ha, Hpeer.
  destruct (instance_id_is_valid id); [|done]. cbn [negb reject_if].
  rewrite (proj2 (Z.ltb_ge _ _)) by lia. simpl.
  rewrite (read_headers_all deadline (status_line status :: (header_line <$> headers)) head_events
    (print_response status headers) []); [|done|by apply response_clean|done|done|done].
  rewrite Hget. simpl. rewrite String.eqb_refl. simpl. fold (print_response status headers).
  rewrite accept_headers_spec by done.
  destruct (Z.eqb_spec (sent_code status) 200) as [Hcode|]; simpl; [|naive_solver]. split.
  - intros (_ & p & -> & -> & Hv). simpl. by rewrite String.eqb_refl, Hv.
  - intros Hrun. split; [done|]. revert Hrun.
    destruct (single_value HEALTH_PROOF_HEADER _) as [p|]; [|done]. simpl.
    destruct (single_value HEALTH_INSTANCE_HEADER _) as [i|]; [|done]. simpl.
    destruct (String.eqb_spec i id) as [->|]; [|done]. simpl.
    destruct (proof_is_valid token id nonce p) eqn:Hv; [|done]. eauto.
Qed.
End agreement.

Module HealthSample.
(** Stand-ins with the documented lengths and the round trip. *)
#[local] Instance crypto : ApiCrypto := {|
  api_sha256 := id;
  hmac_sha256 k m := replicate 32 66%Z;
  base64url_encode l := string_of_bytes (l ++ replicate 11 65%Z);
  base64url_decode s := Some (take (str_len s - 11) (as_bytes s));
|}.

#[local] Instance crypto_spec : ApiCryptoSpec.
Proof.
  assert (∀ l, Forall byte_range l → as_bytes (string_of_bytes (l ++ replicate 11 65%Z)) = l ++ replicate 11 65%Z)
    as Henc.
  { intros l Hl. apply as_bytes_string_of_bytes, Forall_app. split; [done|].
    apply Forall_replicate. unfold byte_range. lia. }
  split.
  - intros l Hl. unfold base64url_decode, base64url_encode, crypto. rewrite <-length_as_bytes, Henc by done. f_equal.
    rewrite length_app, length_replicate, Nat.add_sub. apply take_app_length.
  - intros l Hl. cbn -[string_of_bytes replicate]. unfold str_len, string_of_bytes.
    assert (∀ k, String.length (Stdlib.Strings.String.string_of_list_ascii k) = length k) as Hlen
      by (induction k; simpl; congruence).
    by rewrite Hlen, length_fmap, length_app, length_replicate, Hl.
  - done.
  - intros k m. apply Forall_replicate. unfold byte_range. lia.
Qed.

#[local] Instance http : Reqwest := {|
  ReqwestError := unit; is_connect _ := true; is_timeout _ := false; is_request _ := false;
  reqwest_display _ := "";
|}.

Definition nonce : Bytes := replicate 32 67%Z.
Definition instance : string := base64url_encode (replicate 32 68%Z).
Definition state : ApiState := MkApiState (MkIdentityStore None) "workspace" (as_bytes "token") instance.
Definition base : string := "http://127.0.0.1:80".
Definition ask (url : string) : Result ReqwestError ProofResponse :=
  Ok (health_response url (health_proof state (base64url_encode nonce))).

(** Witness: the broker is recognised. *)
Lemma probe_recognises_broker_witness : verify_broker_proof ask base "token" instance (Some nonce) = Done tt.
Proof.
  apply (probe_recognises_broker state "token" instance base nonce ask);
    [by vm_compute|done|apply Forall_replicate; unfold byte_range; lia|done|done].
Defined.

Definition status : SentStatus := MkSentStatus 200 (Some (as_bytes "OK")).
Definition headers : list SentHeader :=
  [MkSentHeader "Date" [32%Z] "Mon, 01 Jan 2024 00:00:00 GMT" [];
   MkSentHeader "X-Herdr-A2A-Health-Proof" [32%Z] (base64url_encode (replicate 32 66%Z)) [];
   MkSentHeader "x-herdr-a2a-instance" [] instance [32; 9]%Z;
   MkSentHeader "content-length" [32%Z] "2" []].
Definition head_events : list ReadEvent := (λ b, MkReadEvent 1 true (Some b)) <$> print_response status headers.
Definition body_events : list ReadEvent := (λ b, MkReadEvent 9 false (Some b)) <$> as_bytes "ok".

(** [header_ok] as a test. *)
Definition visibleb (b : Z) : bool := ((32 <? b) && (b <? 127))%Z.
Definition header_okb (h : SentHeader) : bool :=
  forallb (λ b, visibleb b && negb (b =? 58)%Z) (as_bytes (sent_name h))
  && forallb (λ b, (b =? 9) || (b =? 32))%Z (sent_before h ++ sent_after h)
  && forallb text_byteb (as_bytes (sent_value h))
  && match head (as_bytes (sent_value h)) with Some b => visibleb b | None => true end
  && match last (as_bytes (sent_value h)) with Some b => visibleb b | None => true end.

Lemma header_okb_ok h : header_okb h = true → header_ok h.
Proof.
  unfold header_okb. rewrite !andb_true_iff. intros [[[[Hn Hb] Hv] Hf] Hl].
  apply (forallb_Forall_impl _ blank) in Hb; [|unfold blank; intros; lia]. apply Forall_app in Hb as [Hb Ha].
  split; [| done | done | | |].
  - eapply forallb_Forall_impl; [|exact Hn]. unfold visibleb, visible. intros; lia.
  - by apply text_bytes_ok.
  - intros b Hb'. rewrite Hb' in Hf. unfold visibleb, visible in *. lia.
  - intros b Hb'. rewrite Hb' in Hl. unfold visibleb, visible in *. lia.
Qed.

(** Witness: and so it is by the probe that parses the response. *)
Lemma probes_agree_witness :
  verify_broker_proof_sync base "token" instance (Some nonce) 5 0 true (λ _, Some (head_events ++ body_events)) = true.
Proof.
  apply (probes_agree "token" instance base (as_bytes "127.0.0.1:80") nonce status headers
    (λ url, Ok (MkProofResponse url 200 (response_header <$> headers)))
    (λ _, Some (head_events ++ body_events)) head_events body_events 5 0).
  - split; [simpl; lia|]. intros ? [= <-]. by apply text_bytes_ok.
  - apply (forallb_Forall_impl header_okb); [apply header_okb_ok|by vm_compute].
  - by apply Nat.leb_le; vm_compute.
  - by vm_compute.
  - by vm_compute; eexists.
  - lia.
  - done.
  - unfold head_events. apply Forall2_fmap_l, Forall2_same_length_lookup. split; [done|].
    intros i b b' Hb Hb'. simplify_eq. by split.
  - done.
  - by vm_compute.
Defined.
End HealthSample.
