(* ===== verification/Generation.v ===== *)
(** * Managed generations

    [herdr-a2a-cli/src/managed/generation.rs]: the catalogue of the installed generation
    and of those retained beside it, and which executables it authorises.  Paths are
    compared by their components, as [Path] does.  The checks of files and directories
    ([validate_generation]) are not part of the model: a catalogue is what the ownership
    record says. *)
From stdpp Require Import prelude gmap strings.
From S2P Require Import Prelude RustStd CliText Model.

Definition MANAGED_PROTOCOL_MAJOR : Z := 1.
Definition MAX_RETAINED_GENERATIONS : nat := 64.
Definition MAX_POINTER_BYTES : nat := 4 * 1024.

Record ManagedError := MkManagedError { managed_code : string; managed_message : string }.

Record OwnedFile := MkOwnedFile { owned_path : PathBuf; owned_sha256 : string; owned_mode : Z }.

Record GenerationAuthorization := MkGenerationAuthorization {
  ga_plugin_version : string;
  ga_protocol_major : Z;
  ga_broker_digest : string;
  ga_pi_package_digest : string;
  ga_pi_package_source : PathBuf;
  ga_stable_binary : PathBuf;
  ga_owned_files : list OwnedFile;
}.

(** The fields of [OwnershipRecord] that the catalogue consists of. *)
Record OwnershipRecord := MkOwnershipRecord {
  or_plugin_version : string;
  or_protocol_major : Z;
  or_broker_digest : string;
  or_pi_package_digest : string;
  or_pi_package_source : PathBuf;
  or_stable_binary : PathBuf;
  or_owned_files : list OwnedFile;
  or_retained_generations : list GenerationAuthorization;
}.

Inductive AuthorizedGeneration := CurrentGeneration | Retained (generation : GenerationAuthorization).

Definition path_eqb (a b : PathBuf) : bool := bool_decide (components a = components b).

(** [Path::is_absolute] and [Path::parent], on components. *)
Definition is_absolute (p : PathBuf) : bool := bool_decide (head (components p) = Some RootDir).

Definition parent (p : list Component) : option (list Component) :=
  match reverse p with
  | [] | RootDir :: _ => None
  | _ :: rest => Some (reverse rest)
  end.

Definition require_absolute_normal (path : PathBuf) (label : string) : Outcome ManagedError () :=
  reject_if (negb (is_absolute path)
             || existsb (λ c, bool_decide (c = ParentDir) || bool_decide (c = CurDir)) (components path))
    (MkManagedError "unsafe_install_path" (label +:+ " must be an absolute normalized path")).

Definition path_text (path : PathBuf) : Outcome ManagedError () :=
  let? _ := reject_if (negb (utf8_valid path))
              (MkManagedError "unsafe_install_path" "persisted paths must be valid UTF-8") in
  reject_if ((str_len path =? 0)%nat
             || existsb (λ b, (b =? 13)%Z || (b =? 10)%Z) (as_bytes path)
             || (MAX_POINTER_BYTES <? str_len path + 1)%nat)
    (MkManagedError "unsafe_install_path"
       "persisted paths must be non-empty, one-line, and pointer-bounded").

Definition is_lower_hex (b : Z) : bool := is_ascii_digit b || in_range 97 102 b.

Definition valid_digest (value : string) : bool :=
  (str_len value =? 64)%nat && forallb is_lower_hex (as_bytes value).

Definition ensure_retained_capacity (record : OwnershipRecord) : Outcome ManagedError () :=
  reject_if (MAX_RETAINED_GENERATIONS <=? length (or_retained_generations record))%nat
    (MkManagedError "retained_generation_limit" "managed update would exceed 64 retained generations").

Definition authorization_from_current (record : OwnershipRecord)
    : Outcome ManagedError GenerationAuthorization :=
  let? root := ok_or (parent (components (or_pi_package_source record)))
    (MkManagedError "ownership_record_invalid" "current generation package has no parent") in
  Done (MkGenerationAuthorization (or_plugin_version record) (or_protocol_major record)
    (or_broker_digest record) (or_pi_package_digest record) (or_pi_package_source record)
    (or_stable_binary record)
    (filter (λ owned, take (length root) (components (owned_path owned)) = root) (or_owned_files record))).

Definition generation_root (binary package stable_root : PathBuf)
    : Outcome ManagedError (list Component) :=
  let? _ := require_absolute_normal binary "managed generation binary" in
  let? _ := require_absolute_normal package "managed generation package" in
  let? _ := path_text binary in
  let? _ := path_text package in
  let? root := ok_or (parent (components package))
    (MkManagedError "ownership_record_invalid" "managed generation package has no parent") in
  let? _ := reject_if
    (negb (bool_decide (parent root = Some (components stable_root ++ [Normal "generations"])))
     || negb (bool_decide (components package = root ++ [Normal "pi"]))
     || negb (bool_decide (components binary = root ++ [Normal "bin"; Normal "herdr-a2a"])))
    (MkManagedError "ownership_record_invalid" "managed generation paths are not canonical") in
  Done root.

(** One turn of the loop: the roots and the identities seen so far. *)
Definition Identities : Type := list (list Component) * list (list Component * string).

Definition check_retained (stable_root : PathBuf) (retained : GenerationAuthorization)
    (seen : Identities) : Outcome ManagedError Identities :=
  let? _ := reject_if (negb (ga_protocol_major retained =? MANAGED_PROTOCOL_MAJOR)%Z)
    (MkManagedError "generation_incompatible"
       "retained managed generation uses an unsupported protocol major") in
  let? _ := reject_if
    ((str_len (ga_plugin_version retained) =? 0)%nat || (128 <? str_len (ga_plugin_version retained))%nat
     || negb (valid_digest (ga_broker_digest retained)) || negb (valid_digest (ga_pi_package_digest retained)))
    (MkManagedError "ownership_record_invalid" "retained generation identity is invalid") in
  let? root := generation_root (ga_stable_binary retained) (ga_pi_package_source retained) stable_root in
  let identity := (components (ga_stable_binary retained), ga_broker_digest retained) in
  let? _ := reject_if (bool_decide (root ∈ seen.1) || bool_decide (identity ∈ seen.2))
    (MkManagedError "ownership_record_invalid" "managed generation paths or identities overlap") in
  Done (root :: seen.1, identity :: seen.2).

Fixpoint check_all_retained (stable_root : PathBuf) (retained : list GenerationAuthorization)
    (seen : Identities) : Outcome ManagedError Identities :=
  match retained with
  | [] => Done seen
  | generation :: rest =>
      let? seen := check_retained stable_root generation seen in
      check_all_retained stable_root rest seen
  end.

Definition validate_catalog_semantics (record : OwnershipRecord) (stable_root : PathBuf)
    : Outcome ManagedError () :=
  let? _ := reject_if (negb (or_protocol_major record =? MANAGED_PROTOCOL_MAJOR)%Z)
    (MkManagedError "generation_incompatible"
       "current managed generation uses an unsupported protocol major") in
  let? _ := reject_if (MAX_RETAINED_GENERATIONS <? length (or_retained_generations record))%nat
    (MkManagedError "retained_generation_limit" "ownership record exceeds the retained generation limit") in
  let? current := generation_root (or_stable_binary record) (or_pi_package_source record) stable_root in
  let? _ := check_all_retained stable_root (or_retained_generations record)
              ([current], [(components (or_stable_binary record), or_broker_digest record)]) in
  Done tt.

Definition authorize_executable (record : OwnershipRecord) (path : PathBuf) (digest : string)
    : Outcome ManagedError AuthorizedGeneration :=
  if path_eqb path (or_stable_binary record) && String.eqb digest (or_broker_digest record)
  then Done CurrentGeneration
  else
    match filter (λ generation, path_eqb (ga_stable_binary generation) path = true ∧
                               ga_broker_digest generation = digest) (or_retained_generations record) with
    | generation :: _ => Done (Retained generation)
    | [] => Fail (MkManagedError "owned_process_mismatch"
                    "executable is not an authenticated managed generation")
    end.

Definition protocol_of (record : OwnershipRecord) (authorization : AuthorizedGeneration) : Z :=
  match authorization with
  | CurrentGeneration => or_protocol_major record
  | Retained retained => ga_protocol_major retained
  end.

Definition authorize_transition (record : OwnershipRecord) (running_path : PathBuf)
    (running_digest : string) (descriptor_path : PathBuf) (descriptor_digest : string)
    : Outcome ManagedError () :=
  let? running := authorize_executable record running_path running_digest in
  let? descriptor := authorize_executable record descriptor_path descriptor_digest in
  reject_if (negb (protocol_of record running =? protocol_of record descriptor)%Z)
    (MkManagedError "generation_incompatible" "managed generations use incompatible protocol majors").

(** [managed::authorize_generation_transition]: [catalog] is the ownership record that was
    read and validated, [resolve] the canonical path and digest of an executable. *)
Definition authorize_generation_transition (managed_context : bool)
    (catalog : Outcome ManagedError OwnershipRecord)
    (resolve : PathBuf → Outcome ManagedError (PathBuf * string)) (running descriptor : PathBuf)
    : Outcome ManagedError () :=
  let? _ := reject_if (negb managed_context)
    (MkManagedError "owned_process_mismatch" "generation transition is outside managed plugin context") in
  let? record := catalog in
  let? running := resolve running in
  let? descriptor := resolve descriptor in
  authorize_transition record running.1 running.2 descriptor.1 descriptor.2.

(** ** Properties *)

Definition identity_of (g : GenerationAuthorization) : list Component * string :=
  (components (ga_stable_binary g), ga_broker_digest g).

(** The executables of a catalogue, the current one first. *)
Definition executables (record : OwnershipRecord) : list (list Component * string) :=
  (components (or_stable_binary record), or_broker_digest record)
  :: (identity_of <$> or_retained_generations record).

Lemma check_retained_Done stable_root g seen seen' :
  check_retained stable_root g seen = Done seen' →
  ga_protocol_major g = MANAGED_PROTOCOL_MAJOR ∧ (identity_of g ∉ seen.2) ∧ seen'.2 = (identity_of g :: seen.2).
Proof.
  intros ([] & Hp%reject_if_Done%negb_false_iff%Z.eqb_eq & Hrun)%out_bind_Done.
  apply out_bind_Done in Hrun as ([] & _ & Hrun). apply out_bind_Done in Hrun as (root & _ & Hrun).
  apply out_bind_Done in Hrun as ([] & Hnew%reject_if_Done & [= <-]).
  apply orb_false_iff in Hnew as [_ Hi%bool_decide_eq_false]. done.
Qed.

Lemma check_all_Done stable_root gs seen seen' :
  check_all_retained stable_root gs seen = Done seen' → NoDup seen.2 →
  Forall (λ g, ga_protocol_major g = MANAGED_PROTOCOL_MAJOR) gs ∧
  NoDup (seen.2 ++ (identity_of <$> gs)).
Proof.
  revert seen. induction gs as [|g gs IH]; intros seen Hrun Hnd; [by rewrite app_nil_r|].
  cbn [check_all_retained] in Hrun. apply out_bind_Done in Hrun as (seen1 & Hone & Hrun).
  apply check_retained_Done in Hone as (Hp & Hni & Hs1).
  destruct (IH seen1 Hrun) as [Hall Hnd']; [rewrite Hs1; by constructor|].
  split; [by constructor|]. rewrite Hs1 in Hnd'. cbn [fmap list_fmap].
  by rewrite <-Permutation_middle.
Qed.

Lemma catalog_ok record stable_root :
  validate_catalog_semantics record stable_root = Done tt →
  or_protocol_major record = MANAGED_PROTOCOL_MAJOR ∧
  Forall (λ g, ga_protocol_major g = MANAGED_PROTOCOL_MAJOR) (or_retained_generations record) ∧
  NoDup (executables record) ∧ length (or_retained_generations record) ≤ MAX_RETAINED_GENERATIONS.
Proof.
  intros ([] & Hp%reject_if_Done%negb_false_iff%Z.eqb_eq & Hrun)%out_bind_Done.
  apply out_bind_Done in Hrun as ([] & Hlen%reject_if_Done%Nat.ltb_ge & Hrun).
  apply out_bind_Done in Hrun as (root & _ & Hrun). apply out_bind_Done in Hrun as (seen & Hall & _).
  apply check_all_Done in Hall as [? ?]; [done|]. apply NoDup_singleton.
Qed.

(** Who is authorised: the current generation, or the retained one of that identity. *)
Lemma authorize_executable_spec record path digest :
  match authorize_executable record path digest with
  | Done CurrentGeneration => (components path, digest) = (components (or_stable_binary record), or_broker_digest record)
  | Done (Retained g) => g ∈ or_retained_generations record ∧ identity_of g = (components path, digest)
  | Fail _ => (components path, digest) ∉ executables record
  | Panic _ => False
  end.
Proof.
  unfold authorize_executable. destruct (_ && _) eqn:Hcur.
  - apply andb_true_iff in Hcur as [Hp%bool_decide_eq_true Hd%String.eqb_eq]. by rewrite Hp, Hd.
  - destruct (filter _ _) as [|g l] eqn:Hf.
    + unfold executables. rewrite elem_of_cons, list_elem_of_fmap. intros [[= Hp ->]|(g & [= Hg Hd'] & Hin)].
      * unfold path_eqb in Hcur. by rewrite Hp, bool_decide_eq_true_2, String.eqb_refl in Hcur.
      * assert (g ∈ []) as []%not_elem_of_nil. rewrite <-Hf. apply list_elem_of_filter.
        unfold path_eqb. rewrite bool_decide_eq_true. by split_and!.
    + assert (g ∈ g :: l) as Hin by left. rewrite <-Hf in Hin. apply list_elem_of_filter in Hin as [[Hb Hd'] Hin].
      apply bool_decide_eq_true in Hb. unfold identity_of. by rewrite Hb, Hd'.
Qed.

Definition catalogued (record : OwnershipRecord) (path : PathBuf) (digest : string) : Prop :=
  (components path, digest) ∈ executables record.

Lemma authorized_iff record path digest :
  (∃ g, authorize_executable record path digest = Done g) ↔ catalogued record path digest.
Proof.
  pose proof (authorize_executable_spec record path digest) as Hspec. unfold catalogued, executables in *.
  destruct (authorize_executable record path digest) as [[|g]|e|msg]; [| | |done].
  - rewrite Hspec. split; [left|by eexists].
  - destruct Hspec as [Hin <-]. split; [|by eexists]. intros _. right. by apply list_elem_of_fmap_2.
  - split; [by intros []|done].
Qed.

(** A valid catalogue authorises exactly its own executables: the transition from a
    running executable to the one of a descriptor is allowed when both are in the
    catalogue, by path and digest, and in no other case; an executable stands for one
    generation only, so a retained one is never taken for another. *)
Theorem catalogue_authorizes_its_own record stable_root running rd descriptor dd :
  validate_catalog_semantics record stable_root = Done tt →
  (authorize_transition record running rd descriptor dd = Done tt ↔
   catalogued record running rd ∧ catalogued record descriptor dd) ∧
  authorize_executable record (or_stable_binary record) (or_broker_digest record) = Done CurrentGeneration ∧
  ∀ g, g ∈ or_retained_generations record →
    authorize_executable record (ga_stable_binary g) (ga_broker_digest g) = Done (Retained g).
Proof.
  intros (Hcur & Hret & Hnd & _)%catalog_ok.
  assert (∀ p d g, authorize_executable record p d = Done g → protocol_of record g = MANAGED_PROTOCOL_MAJOR) as Hproto.
  { intros p d g Hg. pose proof (authorize_executable_spec record p d) as Hspec. rewrite Hg in Hspec.
    destruct g as [|g]; [done|]. destruct Hspec as [Hin _]. rewrite Forall_forall in Hret. by apply Hret. }
  split_and!.
  - rewrite <-!authorized_iff. unfold authorize_transition. split.
    + intros (g & Hg & Hrun)%out_bind_Done. apply out_bind_Done in Hrun as (g' & Hg' & _). eauto.
    + intros [(g & Hg) (g' & Hg')]. rewrite Hg, Hg'. simpl. rewrite (Hproto _ _ _ Hg), (Hproto _ _ _ Hg'). done.
  - unfold authorize_executable, path_eqb. by rewrite bool_decide_eq_true_2, String.eqb_refl.
  - intros g Hin. pose proof (authorize_executable_spec record (ga_stable_binary g) (ga_broker_digest g)) as Hspec.
    apply NoDup_cons in Hnd as [Hnot Hnd].
    destruct (authorize_executable _ _ _) as [[|g']|e|msg]; [| | |done].
    + destruct Hnot. rewrite <-Hspec. by apply (list_elem_of_fmap_2 identity_of).
    + destruct Hspec as [Hin' Hid]. do 2 f_equal.
      apply list_elem_of_lookup in Hin as [i Hi], Hin' as [j Hj].
      assert (j = i) as ->; [|congruence].
      eapply (NoDup_lookup _ _ _ (identity_of g) Hnd); rewrite list_lookup_fmap; [rewrite Hj|by rewrite Hi].
      simpl. by rewrite Hid.
    + destruct Hspec. right. by apply (list_elem_of_fmap_2 identity_of).
Qed.

Module GenerationSample.
Definition digest (b : Z) : string := string_of_bytes (replicate 64 b).
Definition retained : GenerationAuthorization :=
  MkGenerationAuthorization "0.1.0" 1 (digest 97) (digest 98) "/s/generations/a/pi"
    "/s/generations/a/bin/herdr-a2a" [].
Definition record : OwnershipRecord :=
  MkOwnershipRecord "0.2.0" 1 (digest 99) (digest 100) "/s/generations/b/pi"
    "/s/generations/b/bin/herdr-a2a" [] [retained].

(** Witness: an upgrade in place. *)
Lemma catalogue_authorizes_its_own_witness :
  authorize_transition record "/s/generations/a//bin/herdr-a2a" (digest 97) "/s/generations/b/bin/herdr-a2a" (digest 99)
  = Done tt.
Proof.
  assert (validate_catalog_semantics record "/s" = Done tt) as Hok by (vm_compute; reflexivity).
  refine (proj2 (proj1 (catalogue_authorizes_its_own record "/s" _ _ _ _ Hok)) _).
  split; unfold catalogued; refine (bool_decide_eq_true_1 _ _); vm_compute; reflexivity.
Defined.
End GenerationSample.
