(* ===== verification/Recovery.v ===== *)
(** * Finding the broker again

    [herdr-a2a-cli/src/recovery.rs]: how a session connects to the broker of its
    workspace and replaces a connection that was lost.  The launcher and the backend are
    given by what they answered: a [Round] is one turn of the loop of [establish], with
    the clock, the outcome of every call and which branch of [select!] came first.  The
    result is [None] while the rounds that are given do not end the loop.  Instants and
    durations are in nanoseconds; an [Arc] carries the number of its allocation. *)
From stdpp Require Import prelude gmap strings.
From S2P Require Import Prelude RustStd CliText Model Validation Sqlite Identity Ledger Api Health Generation A2aFront.

Definition LIFECYCLE_CONNECT_TIMEOUT : Z := from_millis 500.
Definition LIFECYCLE_REQUEST_TIMEOUT : Z := from_secs 2.
Definition MAX_RECOVERY_RESPONSE_BYTES : nat := 1024 * 1024.
Definition BACKOFF_MS : list Z := [50; 100; 200; 400; 800; 1000]%Z.
Definition RECOVERY_LAUNCH_TIMEOUT : Z := from_secs 10.
Definition RECOVERY_ATTEMPT_TIMEOUT : Z := from_secs 10.

Definition recovery_attempt_deadline (now : Z) (operation_deadline : option Z) : Z :=
  let attempt_deadline := (now + RECOVERY_ATTEMPT_TIMEOUT)%Z in
  match operation_deadline with
  | Some deadline => Z.min deadline attempt_deadline
  | None => attempt_deadline
  end.

Inductive RecoveryMode := BrokerReplacement | RegistrationRefresh.
#[global] Instance RecoveryMode_eq_dec : EqDecision RecoveryMode.
Proof. solve_decision. Defined.

Record RuntimeScope := MkRuntimeScope {
  scope_session_key : string;
  scope_workspace_id : string;
  scope_key : string;
}.
#[global] Instance RuntimeScope_eq_dec : EqDecision RuntimeScope.
Proof. solve_decision. Defined.

Record RuntimeDescriptor := MkRuntimeDescriptor {
  rdesc_session_key : string;
  rdesc_workspace_id : string;
  rdesc_base_url : string;
  rdesc_bearer_token : string;
  rdesc_broker_instance_id : string;
  rdesc_executable_path : PathBuf;
  rdesc_broker_pid : Z;
  rdesc_created_unix_ms : Z;
}.

Definition descriptor_eqb (a b : RuntimeDescriptor) : bool :=
  String.eqb (rdesc_session_key a) (rdesc_session_key b)
  && String.eqb (rdesc_workspace_id a) (rdesc_workspace_id b)
  && String.eqb (rdesc_base_url a) (rdesc_base_url b)
  && String.eqb (rdesc_bearer_token a) (rdesc_bearer_token b)
  && String.eqb (rdesc_broker_instance_id a) (rdesc_broker_instance_id b)
  && path_eqb (rdesc_executable_path a) (rdesc_executable_path b)
  && (rdesc_broker_pid a =? rdesc_broker_pid b)%Z
  && (rdesc_created_unix_ms a =? rdesc_created_unix_ms b)%Z.

Record SessionIdentity := MkSessionIdentity {
  si_scope : RuntimeScope;
  si_executable : PathBuf;
  si_pane_id : string;
  si_harness_session_id : string;
  si_agent_name : option AgentName;
}.

(** The headers of the clients of a connection, and whether they have timeouts. *)
Record HttpClient := MkHttpClient {
  client_headers : list (string * string);
  client_lifecycle : bool;
}.

Record BrokerConnection := MkBrokerConnection {
  conn_descriptor : RuntimeDescriptor;
  conn_registration : RegistrationCredentials;
  conn_agent_name : AgentName;
  conn_http : HttpClient;
  conn_lifecycle_http : HttpClient;
}.

Inductive RecoveryError :=
| Unavailable (reason : string)
| DescriptorInvalid (reason : string)
| GenerationIncompatible (reason : string)
| ProofInvalid (reason : string)
| RegistrationRejected (reason : string)
| DeadlineExpired
| Shutdown.

Definition RecoveryError_display (e : RecoveryError) : string :=
  match e with
  | Unavailable reason => "broker unavailable: " +:+ reason
  | DescriptorInvalid reason => "runtime descriptor is invalid: " +:+ reason
  | GenerationIncompatible reason => "managed generation is incompatible: " +:+ reason
  | ProofInvalid reason => "broker proof is invalid: " +:+ reason
  | RegistrationRejected reason => "broker registration was rejected: " +:+ reason
  | DeadlineExpired => "broker recovery deadline expired"
  | Shutdown => "broker recovery stopped for shutdown"
  end.

Definition response_code (e : RecoveryError) : string :=
  match e with
  | DeadlineExpired => "recovery_timeout"
  | GenerationIncompatible _ => "generation_incompatible"
  | _ => "recovery_unavailable"
  end.

Inductive LaunchError := LaunchDeadline | LaunchInvalidScope | LaunchProofInvalid (reason : string)
| LaunchUnavailable (reason : string).

Definition map_launch_error (error : LaunchError) : RecoveryError :=
  match error with
  | LaunchDeadline => DeadlineExpired
  | LaunchInvalidScope => DescriptorInvalid "broker launcher scope changed"
  | LaunchProofInvalid reason => ProofInvalid reason
  | LaunchUnavailable reason => Unavailable reason
  end.

(** ** The production backend *)

(** [serde_json::from_slice] to a [Value] and to a [RegistrationResponse], and
    [reqwest::ClientBuilder::build]. *)
Class RecoveryLib `{JsonNumber} `{Reqwest} := {
  json_from_slice : Bytes → option Value;
  registration_from_slice : Bytes → Result string (RegistrationCredentials * AgentName);
  client_build : HttpClient → option string;
  status_display : Z → string;
}.

Section backend.
Context `{JsonNumber} {crypto : ApiCrypto} `{!Reqwest} `{!RecoveryLib}.

Definition classify_proof_error (error : ProbeError) : RecoveryError :=
  match error with
  | ProbeRequest e =>
      if is_connect e || is_timeout e || is_request e then Unavailable (reqwest_display e)
      else ProofInvalid (reqwest_display e)
  | ProbeIo _ message => ProofInvalid message
  end.

Definition is_success (status : Z) : bool := in_range 200 299 status.

Definition decode_registration_error (status : Z) (encoded : Bytes) : RecoveryError :=
  let parsed := json_from_slice encoded in
  let field key := and_then (and_then (and_then parsed (value_get "error")) (value_get key)) as_str in
  let message := default ("broker returned HTTP " +:+ status_display status) (field "message") in
  if bool_decide (field "code" = Some "verification_failed") then Unavailable message
  else RegistrationRejected message.

Fixpoint read_body (chunks : list (Result ReqwestError Bytes)) (body : Bytes)
    : Outcome RecoveryError Bytes :=
  match chunks with
  | [] => Done body
  | Err e :: _ => Fail (Unavailable (reqwest_display e))
  | Ok chunk :: chunks =>
      let? _ := reject_if (MAX_RECOVERY_RESPONSE_BYTES <? length body + length chunk)%nat
                  (RegistrationRejected "registration response exceeded its bound") in
      read_body chunks (body ++ chunk)
  end.

Definition decode_registration (status : Z) (chunks : list (Result ReqwestError Bytes))
    : Outcome RecoveryError (RegistrationCredentials * AgentName) :=
  let? body := read_body chunks [] in
  let? _ := reject_if (negb (is_success status)) (decode_registration_error status body) in
  map_error RegistrationRejected (of_result (registration_from_slice body)).

(** [HeaderValue::from_str] accepts visible ASCII, spaces, tabs and bytes from 128. *)
Definition header_value_ok (value : string) : bool :=
  forallb (λ b, (b =? 9)%Z || ((32 <=? b)%Z && negb (b =? 127)%Z)) (as_bytes value).

Definition authenticated_http (token : string) (registration : option (string * string))
    (lifecycle : bool) : Outcome string HttpClient :=
  let authorization := "Bearer " +:+ token in
  let? _ := reject_if (negb (header_value_ok authorization)) "failed to parse header value" in
  let? headers :=
    match registration with
    | None => Done [("authorization", authorization)]
    | Some (id, epoch) =>
        let? _ := reject_if (negb (header_value_ok id) || negb (header_value_ok epoch))
                    "failed to parse header value" in
        Done [("authorization", authorization); (API_REGISTRATION_HEADER, id);
              (API_REGISTRATION_EPOCH_HEADER, epoch)]
    end in
  let client := MkHttpClient headers lifecycle in
  match client_build client with
  | None => Done client
  | Some error => Fail ("HTTP client construction failed: " +:+ error)
  end.

(** [prove_and_register]: the answers to the proof, to [GET /health] and to
    [POST /v1/register]. *)
Definition prove_and_register (identity : SessionIdentity) (descriptor : RuntimeDescriptor)
    (proof_client : option string) (get : string → Result ReqwestError ProofResponse)
    (random : option Bytes) (health : Result ReqwestError Z)
    (register : Result ReqwestError (Z * list (Result ReqwestError Bytes)))
    : Outcome RecoveryError BrokerConnection :=
  let? _ := match proof_client with Some e => Fail (Unavailable e) | None => Done tt end in
  let? _ := map_error classify_proof_error
    (verify_broker_proof get (rdesc_base_url descriptor) (rdesc_bearer_token descriptor)
       (rdesc_broker_instance_id descriptor) random) in
  let? _ := map_error RegistrationRejected (authenticated_http (rdesc_bearer_token descriptor) None true) in
  let? status := map_error (λ e, Unavailable (reqwest_display e)) (of_result health) in
  let? _ := reject_if (negb (is_success status))
              (RegistrationRejected ("health returned HTTP " +:+ status_display status)) in
  let? response := map_error (λ e, Unavailable (reqwest_display e)) (of_result register) in
  let? registration := decode_registration response.1 response.2 in
  let '(credentials, agent_name) := registration in
  let? _ := reject_if
    (match si_agent_name identity with
     | Some expected => negb (bool_decide (expected = agent_name))
     | None => false
     end)
    (RegistrationRejected "Herdr verified a different agent name during recovery") in
  let headers := Some (rid_str (cred_id credentials), u64_to_string (epoch_get (cred_epoch credentials))) in
  let? http := map_error RegistrationRejected (authenticated_http (rdesc_bearer_token descriptor) headers false) in
  let? lifecycle_http := map_error RegistrationRejected
                           (authenticated_http (rdesc_bearer_token descriptor) headers true) in
  Done (MkBrokerConnection descriptor credentials agent_name http lifecycle_http).

(** What the network and the random generator answered to [ProductionRecoveryBackend] in
    one [prove_and_register]. *)
Record BackendAnswers := MkBackendAnswers {
  ba_proof_client : option string;
  ba_get : string → Result ReqwestError ProofResponse;
  ba_random : option Bytes;
  ba_health : Result ReqwestError Z;
  ba_register : Result ReqwestError (Z * list (Result ReqwestError Bytes));
}.

Definition production_prove (identity : SessionIdentity) (answers : BackendAnswers)
    (descriptor : RuntimeDescriptor) : Outcome RecoveryError BrokerConnection :=
  prove_and_register identity descriptor (ba_proof_client answers) (ba_get answers) (ba_random answers)
    (ba_health answers) (ba_register answers).
End backend.

(** ** The loop *)

(** Which branch of [select!] came first; [TimerFirst] has the answer of [sleep]. *)
Inductive Race := ShutdownFirst | FutureFirst | TimerFirst (slept : Result RecoveryError ()).

Record Round := MkRound {
  round_cancelled : bool;
  round_now : Z;
  round_ensure : Result LaunchError RuntimeDescriptor;
  round_read : Result RecoveryError RuntimeDescriptor;
  round_prove : RuntimeDescriptor → Result RecoveryError BrokerConnection;
  round_attempt_now : Z;
  round_race : Race;
  round_jitter : Z;
  round_delay_now : Z;
  round_sleep : Result RecoveryError ();
}.

(** [deadline.saturating_duration_since(now)] *)
Definition remaining_until (deadline now : Z) : Z := Z.max 0 (deadline - now).

Definition await_attempt {A} (future : Outcome RecoveryError A) (now : Z) (race : Race)
    (deadline : option Z) : Outcome RecoveryError A :=
  match deadline with
  | Some deadline =>
      if (remaining_until deadline now =? 0)%Z then Fail DeadlineExpired
      else
        match race with
        | ShutdownFirst => Fail Shutdown
        | FutureFirst => future
        | TimerFirst (Ok _) => Fail DeadlineExpired
        | TimerFirst (Err error) => Fail error
        end
  | None =>
      match race with
      | ShutdownFirst => Fail Shutdown
      | _ => future
      end
  end.

(** [base + base.mul_f64(f64::from(jitter) / 100.0)]; the durations it is used for do not
    overflow. *)
Definition backoff_delay (backoff_index : nat) (jitter_percent : Z) : Z :=
  let base := from_millis
    (nth (Nat.min backoff_index (length BACKOFF_MS - 1)) BACKOFF_MS 0%Z) in
  (base + default 0 (mul_f64 base (percent (Z.min jitter_percent 25))))%Z.

Section establish.
(** [managed::authorize_generation_transition] *)
Context (authorize : PathBuf → PathBuf → Outcome ManagedError ()).

Definition validate_recovered_descriptor (identity : SessionIdentity) (descriptor : RuntimeDescriptor)
    : Outcome RecoveryError () :=
  let? _ := reject_if (negb (String.eqb (rdesc_session_key descriptor) (scope_session_key (si_scope identity))))
              (DescriptorInvalid "session identity changed during recovery") in
  let? _ := reject_if (negb (String.eqb (rdesc_workspace_id descriptor) (scope_workspace_id (si_scope identity))))
              (DescriptorInvalid "workspace identity changed during recovery") in
  if path_eqb (rdesc_executable_path descriptor) (si_executable identity) then Done tt
  else
    map_error (λ error,
      if String.eqb (managed_code error) "generation_incompatible"
      then GenerationIncompatible (managed_code error +:+ ": " +:+ managed_message error)
      else DescriptorInvalid "executable identity changed during recovery")
      (authorize (si_executable identity) (rdesc_executable_path descriptor)).

(** One attempt: the descriptor, its checks, the proof and the registration. *)
Definition attempt_connection (identity : SessionIdentity) (observed_instance_id : option string)
    (descriptor : option RuntimeDescriptor) (round : Round) : Outcome RecoveryError BrokerConnection :=
  let? descriptor :=
    match descriptor with
    | Some descriptor => Done descriptor
    | None =>
        let? _ := map_error map_launch_error (of_result (round_ensure round)) in
        of_result (round_read round)
    end in
  let? _ := validate_recovered_descriptor identity descriptor in
  let? _ := reject_if (bool_decide (observed_instance_id = Some (rdesc_broker_instance_id descriptor)))
    (Unavailable "runtime descriptor still names the observed broker instance") in
  let? connection := of_result (round_prove round descriptor) in
  let? _ := reject_if (negb (descriptor_eqb (conn_descriptor connection) descriptor))
    (ProofInvalid "proof or registration changed the discovered broker origin or instance") in
  let? _ := reject_if
    (match si_agent_name identity with
     | Some expected => negb (bool_decide (expected = conn_agent_name connection))
     | None => false
     end)
    (RegistrationRejected "Herdr verified a different agent name during recovery") in
  Done connection.

(** [establish]; [None] when the rounds do not end the loop. *)
Fixpoint establish (identity : SessionIdentity) (observed_instance_id : option string)
    (deadline : option Z) (initial_descriptor : option RuntimeDescriptor) (backoff_index : nat)
    (rounds : list Round) : option (Outcome RecoveryError BrokerConnection) :=
  match rounds with
  | [] => None
  | round :: rounds =>
      if round_cancelled round then Some (Fail Shutdown)
      else if match deadline with Some deadline => (deadline <=? round_now round)%Z | None => false end
      then Some (Fail DeadlineExpired)
      else
        match await_attempt (attempt_connection identity observed_instance_id initial_descriptor round)
                (round_attempt_now round) (round_race round) deadline with
        | Fail (Unavailable _) =>
            let delay := backoff_delay backoff_index (round_jitter round) in
            let next := match round_sleep round with
                        | Ok _ => establish identity observed_instance_id deadline None
                                    (S backoff_index) rounds
                        | Err error => Some (Fail error)
                        end in
            match deadline with
            | Some deadline =>
                if (remaining_until deadline (round_delay_now round) =? 0)%Z
                then Some (Fail DeadlineExpired) else next
            | None => next
            end
        | outcome => Some outcome
        end
  end.

(** How long the loop sleeps after a round. *)
Definition round_delay (deadline : option Z) (backoff_index : nat) (round : Round) : Z :=
  let delay := backoff_delay backoff_index (round_jitter round) in
  match deadline with
  | Some deadline => Z.min delay (remaining_until deadline (round_delay_now round))
  | None => delay
  end.

(** ** The connection of a session *)

Record ConnectionManager := MkConnectionManager {
  cm_identity : SessionIdentity;
  cm_current : nat * BrokerConnection;
  cm_next : nat;
  cm_cancelled : bool;
}.

#[global] Instance ConnectionManager_fields : Fields ConnectionManager := λ m,
  MkConnectionManager (cm_identity m) (cm_current m) (cm_next m) (cm_cancelled m).

(** [ConnectionManager::connect] *)
Definition connect (identity : SessionIdentity) (now : Z) (rounds : list Round)
    : option (Outcome RecoveryError ConnectionManager) :=
  match establish identity None (Some (recovery_attempt_deadline now None)) None 0 rounds with
  | None => None
  | Some (Done connection) =>
      Some (Done (MkConnectionManager
        (MkSessionIdentity (si_scope identity) (si_executable identity) (si_pane_id identity)
           (si_harness_session_id identity) (Some (conn_agent_name connection)))
        (0%nat, connection) 1 false))
  | Some (Fail error) => Some (Fail error)
  | Some (Panic msg) => Some (Panic msg)
  end.

Abbreviation M := (ST ConnectionManager RecoveryError).

Definition cancel_recovery : M () := st_modify (λ m, m <| cm_cancelled := true |>).

(** What waiting for the gate gave: others may have used the manager meanwhile. *)
Record GateWait := MkGateWait {
  gate_now : Z;
  gate_race : Race;
  gate_before : ConnectionManager → ConnectionManager;
}.

Definition lock_recovery (deadline : Z) (wait : GateWait) : M () :=
  let! m := st_get in
  let! _ := st_lift (reject_if (cm_cancelled m) Shutdown) in
  let! _ := st_lift (reject_if (remaining_until deadline (gate_now wait) =? 0)%Z DeadlineExpired) in
  let! _ := st_modify (gate_before wait) in
  match gate_race wait with
  | ShutdownFirst => st_fail Shutdown
  | FutureFirst => st_ret tt
  | TimerFirst (Ok _) => st_fail DeadlineExpired
  | TimerFirst (Err error) => st_fail error
  end.

(** [recover_locked]; [None] when the rounds do not end. *)
Definition recover_locked (observed : nat * BrokerConnection) (mode : RecoveryMode) (deadline : Z)
    (initial_descriptor : option RuntimeDescriptor) (rounds : list Round)
    : M (option (nat * BrokerConnection)) := λ m,
  let installed := cm_current m in
  if negb (installed.1 =? observed.1)%nat
     && (bool_decide (mode = RegistrationRefresh)
         || negb (String.eqb (rdesc_broker_instance_id (conn_descriptor installed.2))
                             (rdesc_broker_instance_id (conn_descriptor observed.2))))
  then (Done (Some installed), m)
  else
    let rejected := match mode with
                    | BrokerReplacement => Some (rdesc_broker_instance_id (conn_descriptor observed.2))
                    | RegistrationRefresh => None
                    end in
    match establish (cm_identity m) rejected (Some deadline) initial_descriptor 0 rounds with
    | None => (Done None, m)
    | Some (Done connection) =>
        let replacement := (cm_next m, connection) in
        (Done (Some replacement), m <| cm_current := replacement |> <| cm_next ::= S |>)
    | Some (Fail error) => (Fail error, m)
    | Some (Panic msg) => (Panic msg, m)
    end.

(** [ConnectionManager::recover] *)
Definition recover_connection (observed : nat * BrokerConnection) (mode : RecoveryMode)
    (deadline : option Z) (now : Z) (wait : GateWait) (rounds : list Round)
    : M (option (nat * BrokerConnection)) :=
  let deadline := recovery_attempt_deadline now deadline in
  let! _ := lock_recovery deadline wait in
  recover_locked observed mode deadline None rounds.

(** [ConnectionManager::recover_if_replaced]: [probe] is the round of the launcher and of
    the descriptor.  The answer is [None] inside when the broker is still the same. *)
Definition recover_if_replaced (observed_instance_id : string) (deadline now : Z) (wait : GateWait)
    (probe : Round) (rounds : list Round) : M (option (option (nat * BrokerConnection))) :=
  let deadline := recovery_attempt_deadline now (Some deadline) in
  let! _ := lock_recovery deadline wait in
  λ m,
    let installed := cm_current m in
    if negb (String.eqb (rdesc_broker_instance_id (conn_descriptor installed.2)) observed_instance_id)
    then (Done (Some (Some installed)), m)
    else
      match await_attempt
              (let? _ := map_error map_launch_error (of_result (round_ensure probe)) in
               of_result (round_read probe))
              (round_attempt_now probe) (round_race probe) (Some deadline) with
      | Fail (Unavailable _) => (Done (Some None), m)
      | Fail error => (Fail error, m)
      | Panic msg => (Panic msg, m)
      | Done descriptor =>
          (let! _ := st_lift (validate_recovered_descriptor (cm_identity m) descriptor) in
           if String.eqb (rdesc_broker_instance_id descriptor) observed_instance_id
           then st_ret (Some None)
           else
             let! recovered := recover_locked installed BrokerReplacement deadline (Some descriptor) rounds in
             st_ret (match recovered with Some connection => Some (Some connection) | None => None end)) m
      end.
End establish.
