(* ===== verification/Runtime.v ===== *)
(** * Scopes, paths and descriptors of a running broker

    [herdr-a2a-broker/src/runtime.rs], the part without system calls: a scope is a Herdr
    session and a workspace; the name of its files in the runtime directory is a digest
    of both.  [sha2] and [base64] are those of [ApiCrypto].  What the functions ask the
    system about (the environment, the user) is an argument; the runtime root is that of
    Linux. *)
From stdpp Require Import prelude gmap strings.
From S2P Require Import Prelude RustStd CliText Model Validation Ledger Api Health Generation Recovery.

Definition MAX_DESCRIPTOR_BYTES : nat := 64 * 1024.
Definition MAX_LOCK_BYTES : nat := 4 * 1024.

(** ** Errors *)

(** [rustix::io::Errno], as far as it is told apart. *)
Inductive Errno := NOENT | EXIST | SRCH | LOOP | WOULDBLOCK | OTHER (code : Z).
#[global] Instance Errno_eq_dec : EqDecision Errno.
Proof. solve_decision. Defined.

(** [io::Error]: of the system, or made here. *)
Inductive IoError := Os (errno : Errno) | CustomInvalidData (message : string)
| CustomAlreadyExists (message : string) | CustomWouldBlock (message : string).

(** [error.kind() == io::ErrorKind::AlreadyExists] *)
Definition is_already_exists (error : IoError) : bool :=
  match error with Os EXIST | CustomAlreadyExists _ => true | _ => false end.

(** [serde_json] on the two documents of the runtime directory. *)
Class RuntimeSerde := {
  JsonError : Type;
  json_error_display : JsonError → string;
  io_error_display : IoError → string;
  lock_to_vec : Z * Z → Result JsonError Bytes;
  lock_from_slice : Bytes → Result JsonError (Z * Z);
  descriptor_to_vec : RuntimeDescriptor → Result JsonError Bytes;
  descriptor_from_slice : Bytes → Result JsonError RuntimeDescriptor;
}.

Inductive RuntimeError `{RuntimeSerde} :=
| RtIo (error : IoError)
| RtJson (error : JsonError)
| MissingEnvironment (name : string)
| UnsupportedPlatform
| UnsafePath (path : PathBuf)
| UnsafePermissions (path : PathBuf)
| WrongOwner (path : PathBuf)
| InvalidWorkspaceId
| SessionMismatch
| WorkspaceMismatch
| InvalidDescriptor (reason : string)
| SessionAlreadyOwned (pid : Z)
| InvalidLock.

Section errors.
Context `{RuntimeSerde}.

Definition runtime_error_display (error : RuntimeError) : string :=
  match error with
  | RtIo error => "runtime discovery I/O failed: " +:+ io_error_display error
  | RtJson error => "runtime discovery JSON is invalid: " +:+ json_error_display error
  | MissingEnvironment name => "required environment variable " +:+ name +:+ " is missing"
  | UnsupportedPlatform => "runtime discovery is unsupported"
  | UnsafePath path => "unsafe runtime path: " +:+ to_string_lossy path
  | UnsafePermissions path => "runtime permissions are unsafe: " +:+ to_string_lossy path
  | WrongOwner path => "runtime path has the wrong owner: " +:+ to_string_lossy path
  | InvalidWorkspaceId => "Herdr workspace ID is invalid"
  | SessionMismatch => "runtime descriptor session mismatch"
  | WorkspaceMismatch => "runtime descriptor workspace mismatch"
  | InvalidDescriptor reason => "runtime descriptor is invalid: " +:+ reason
  | SessionAlreadyOwned pid => "runtime session is already owned by PID " +:+ u64_to_string pid
  | InvalidLock => "runtime lock is invalid"
  end.

Definition runtime_error_source (error : RuntimeError) : option (IoError + JsonError) :=
  match error with
  | RtIo error => Some (inl error)
  | RtJson error => Some (inr error)
  | _ => None
  end.

(** How recovery reports a descriptor it cannot read. *)
Definition classify_descriptor_error (error : RuntimeError) : RecoveryError :=
  match error with
  | RtIo error => Unavailable (io_error_display error)
  | error => DescriptorInvalid (runtime_error_display error)
  end.
End errors.

(** ** Paths *)

(** [Path::join] *)
Definition path_join (base leaf : PathBuf) : PathBuf :=
  if match leaf with String a _ => Ascii.eqb a slash | _ => false end then leaf
  else match reverse (String.list_ascii_of_string base) with
       | [] => leaf
       | a :: _ => if Ascii.eqb a slash then base +:+ leaf else base +:+ "/" +:+ leaf
       end.

(** A path with the components of an absolute path. *)
Fixpoint render_components (l : list Component) : PathBuf :=
  match l with
  | [] => ""
  | RootDir :: l => "/" +:+ render_components l
  | [Normal s] => s
  | Normal s :: l => s +:+ "/" +:+ render_components l
  | CurDir :: l => "./" +:+ render_components l
  | ParentDir :: l => "../" +:+ render_components l
  end.

(** [Path::parent] (up to equality of paths) and [Path::file_name] *)
Definition path_parent (path : PathBuf) : option PathBuf :=
  render_components <$> parent (components path).
Definition file_name (path : PathBuf) : option string :=
  match reverse (components path) with Normal s :: _ => Some s | _ => None end.

(** [format!("{:x}", digest)] *)
Definition hex_digit (n : Z) : Z := if (n <? 10)%Z then (48 + n)%Z else (87 + n)%Z.
Definition hex_encode (bytes : Bytes) : string :=
  string_of_bytes (mjoin ((λ b, [hex_digit (Z.shiftr b 4); hex_digit (Z.land b 15)]) <$> bytes)).

Record RuntimePaths := MkRuntimePaths {
  rp_root : PathBuf;
  rp_scope : RuntimeScope;
  rp_descriptor : PathBuf;
  rp_lock : PathBuf;
}.

Section runtime.
Context {serde : RuntimeSerde} {crypto : ApiCrypto}.

Definition validate_absolute_path (path : PathBuf) : Outcome RuntimeError () :=
  reject_if (negb (is_absolute path) || (str_len path =? 0)%nat
             || bool_decide (0%Z ∈ as_bytes path)
             || existsb (λ c, match c with CurDir | ParentDir => true | _ => false end)
                  (components path))
    (UnsafePath path).

Definition validate_workspace_id (workspace_id : string) : Outcome RuntimeError () :=
  reject_if ((str_len workspace_id =? 0)%nat || (256 <? str_len workspace_id)%nat
             || existsb is_control (chars workspace_id))
    InvalidWorkspaceId.

Definition validate_session_key (session_key : string) : Outcome RuntimeError () :=
  let valid := negb (str_len session_key =? 0)%nat && (str_len session_key <=? 128)%nat
    && forallb (λ b, is_ascii_lowercase b || is_ascii_digit b || (b =? 45)%Z || (b =? 95)%Z)
         (as_bytes session_key) in
  reject_if (negb valid) (UnsafePath session_key).

Definition digest_bytes (parts : list Bytes) : string := hex_encode (api_sha256 (mjoin parts)).
Definition digest_path (path : PathBuf) : string := digest_bytes [as_bytes path].

Definition scope_from_session_key (session_key workspace_id : string) : Outcome RuntimeError RuntimeScope :=
  let? _ := validate_session_key session_key in
  let? _ := validate_workspace_id workspace_id in
  Done (MkRuntimeScope session_key workspace_id
          (digest_bytes [as_bytes session_key; [0%Z]; as_bytes workspace_id])).

(** [fn scope_key] *)
Definition socket_scope (socket_path : PathBuf) (workspace_id : string) : Outcome RuntimeError RuntimeScope :=
  let? _ := validate_workspace_id workspace_id in
  scope_from_session_key (digest_path socket_path) workspace_id.

Definition descriptor_name (paths : RuntimePaths) : string := scope_key (rp_scope paths) +:+ ".json".
Definition lock_name (paths : RuntimePaths) : string := scope_key (rp_scope paths) +:+ ".lock".
Definition guard_name (paths : RuntimePaths) : string := "." +:+ scope_key (rp_scope paths) +:+ ".acquire".

Definition from_scope (root : PathBuf) (scope : RuntimeScope) : RuntimePaths :=
  MkRuntimePaths root scope (path_join root (scope_key scope +:+ ".json"))
    (path_join root (scope_key scope +:+ ".lock")).

Definition for_socket_at (root socket_path : PathBuf) (workspace_id : string)
    : Outcome RuntimeError RuntimePaths :=
  let? scope := socket_scope socket_path workspace_id in
  Done (from_scope root scope).

(** [RuntimePaths::for_test], which the coordinator uses for a recorded entry. *)
Definition for_test (root : PathBuf) (session_key workspace_id : string) : Outcome RuntimeError RuntimePaths :=
  match scope_from_session_key session_key workspace_id with
  | Done scope => Done (from_scope root scope)
  | _ => Panic "test runtime scope must be valid"
  end.

Definition linux_runtime_root (xdg_runtime_dir : option string) (uid : Z) : Outcome RuntimeError PathBuf :=
  match xdg_runtime_dir with
  | Some (String _ _ as base) =>
      let? _ := validate_absolute_path base in
      Done (path_join base "herdr-a2a")
  | _ => Done ("/tmp/herdr-a2a-" +:+ u64_to_string uid)
  end.

Definition macos_runtime_root (temp_dir : option string) : Outcome RuntimeError PathBuf :=
  let? base := ok_or temp_dir (MissingEnvironment "TMPDIR") in
  let? _ := validate_absolute_path base in
  Done (path_join base "herdr-a2a").

Definition discover (env : string → option string) (uid : Z) : Outcome RuntimeError RuntimePaths :=
  let? socket_path := ok_or (env "HERDR_SOCKET_PATH") (MissingEnvironment "HERDR_SOCKET_PATH") in
  let? _ := reject_if (str_len socket_path =? 0)%nat (UnsafePath "") in
  let? workspace_id :=
    match env "HERDR_WORKSPACE_ID" with
    | None => Fail (MissingEnvironment "HERDR_WORKSPACE_ID")
    | Some value => if utf8_valid value then Done value else Fail InvalidWorkspaceId
    end in
  let? root := linux_runtime_root (env "XDG_RUNTIME_DIR") uid in
  for_socket_at root socket_path workspace_id.

Definition validate_runtime_paths (paths : RuntimePaths) : Outcome RuntimeError () :=
  let scope := rp_scope paths in
  let? _ := validate_session_key (scope_session_key scope) in
  let? _ := validate_workspace_id (scope_workspace_id scope) in
  let? expected := scope_from_session_key (scope_session_key scope) (scope_workspace_id scope) in
  let? _ := reject_if (negb (bool_decide (expected = scope))) (UnsafePath (rp_root paths)) in
  let? _ := reject_if (negb (path_eqb (rp_descriptor paths) (path_join (rp_root paths) (descriptor_name paths))))
              (UnsafePath (rp_descriptor paths)) in
  reject_if (negb (path_eqb (rp_lock paths) (path_join (rp_root paths) (lock_name paths))))
    (UnsafePath (rp_lock paths)).

(** [i32::try_from(pid).ok().and_then(Pid::from_raw)] *)
Definition platform_pid (pid : Z) : option Z :=
  if ((pid <=? 2147483647) && negb (pid =? 0))%Z then Some pid else None.

(** The base URL of a descriptor: a port of the loopback address, as it is displayed. *)
Definition valid_origin (base_url : string) : bool :=
  match strip_bytes (as_bytes "http://") (as_bytes base_url) with
  | None => false
  | Some origin =>
      match parse_address origin with
      | None => false
      | Some address =>
          bool_decide (addr_octets address = [127; 0; 0; 1]%Z) && negb (addr_port address =? 0)%Z
          && String.eqb base_url ("http://" +:+ display_address address)
      end
  end.

(** A secret of 256 bits in base64url. *)
Definition check_secret (label : string) (text : string) (length_ok : bool) : Outcome RuntimeError () :=
  let? decoded := ok_or (base64url_decode text) (InvalidDescriptor (label +:+ " encoding")) in
  reject_if (negb length_ok || negb (length decoded =? 32)%nat
             || negb (String.eqb (base64url_encode decoded) text))
    (InvalidDescriptor (label +:+ " must encode 256 bits")).

(** The checks of [validate_descriptor] up to those of the executable. *)
Definition check_descriptor (paths : RuntimePaths) (descriptor : RuntimeDescriptor)
    : Outcome RuntimeError () :=
  let? _ := reject_if (negb (String.eqb (rdesc_session_key descriptor) (scope_session_key (rp_scope paths))))
              SessionMismatch in
  let? _ := reject_if (negb (String.eqb (rdesc_workspace_id descriptor) (scope_workspace_id (rp_scope paths))))
              WorkspaceMismatch in
  let? _ := reject_if (negb (valid_origin (rdesc_base_url descriptor)))
              (InvalidDescriptor "base URL must be a loopback HTTP origin") in
  let? _ := check_secret "bearer token" (rdesc_bearer_token descriptor) true in
  let? _ := check_secret "broker instance ID" (rdesc_broker_instance_id descriptor)
              (str_len (rdesc_broker_instance_id descriptor) =? 43)%nat in
  validate_absolute_path (rdesc_executable_path descriptor).

(** Its last check, at a time of [now] milliseconds after the epoch. *)
Definition check_created (descriptor : RuntimeDescriptor) (now : Z) : Outcome RuntimeError () :=
  let? _ := reject_if (now <? 0)%Z (InvalidDescriptor "system time is before Unix epoch") in
  let? _ := reject_if (i64_max <? now)%Z (InvalidDescriptor "system time is out of range") in
  if (rdesc_created_unix_ms descriptor <=? 0)%Z
  then Fail (InvalidDescriptor "creation timestamp is not sensible")
  else
    let? latest := expect (checked_add_i64 now 300000) "attempt to add with overflow" in
    reject_if (latest <? rdesc_created_unix_ms descriptor)%Z
      (InvalidDescriptor "creation timestamp is not sensible").

End runtime.
