(* ===== verification/RuntimeFiles.v ===== *)
(** * The runtime directory

    [herdr-a2a-broker/src/runtime.rs], the part with system calls: the private root, the
    transition guard of a scope, its session lock and its descriptor.

    A function is a program over system calls ([Prog]); between two calls every other
    process may run.  The system is the runtime root of one user: a directory whose
    entries name inodes, the holders of [flock], and the counter [FILE_NONCE] of every
    process that is alive.  A call may fail with any error and then has no effect, but
    for a write, which may stop halfway.  A [Choice] says how a call goes. *)
From stdpp Require Import prelude gmap strings.
From S2P Require Import Prelude RustStd CliText Model Ledger Api Generation Recovery Runtime.

(** ** System calls *)

Inductive FileKind := RegularFile | Directory | Symlink.
#[global] Instance FileKind_eq_dec : EqDecision FileKind.
Proof. solve_decision. Defined.

(** [fs::Metadata] *)
Record Metadata := MkMetadata { md_kind : FileKind; md_uid : Z; md_mode : Z; md_len : nat }.

(** An open file: the parent of the root, the root, or a file in it. *)
Inductive File := ParentHandle | RootHandle | Inode (i : nat).

Inductive Call : Type → Type :=
| OpenParent (path : PathBuf) : Call (Result Errno File)
| OpenRoot (leaf : string) : Call (Result Errno File)
| MkRoot (leaf : string) (mode : Z) : Call (Result Errno ())
| OpenNew (name : string) : Call (Result Errno File)
| OpenRead (name : string) : Call (Result Errno File)
| Fstat (file : File) : Call (Result Errno Metadata)
| Fchmod (file : File) (mode : Z) : Call (Result Errno ())
| WriteAll (file : File) (bytes : Bytes) : Call (Result Errno ())
| SyncAll (file : File) : Call (Result Errno ())
| ReadUpTo (file : File) (limit : nat) : Call (Result Errno Bytes)
| Renameat (from to : string) : Call (Result Errno ())
| Linkat (from to : string) : Call (Result Errno ())
| Unlinkat (name : string) : Call (Result Errno ())
| Flock (file : File) (blocking : bool) : Call (Result Errno ())
| NextNonce : Call Z
| TestKill (pid : Z) : Call (Result Errno ())
| Canonicalize (path : PathBuf) : Call (option PathBuf)
| StatPath (path : PathBuf) : Call (option (bool * Z))
| AccessExec (path : PathBuf) : Call bool
| NowMillis : Call Z
| ProbeHealth (descriptor : RuntimeDescriptor) : Call bool.

Inductive Prog (E A : Type) : Type :=
| Return (o : Outcome E A)
| Perform {B : Type} (c : Call B) (k : B → Prog E A).
Arguments Return {E A} o.
Arguments Perform {E A B} c k.

(** [match program { Ok(a) => done(a), Err(e) => failed(e) }] *)
Fixpoint prog_case {E E' A B} (done : A → Prog E' B) (failed : E → Prog E' B) (p : Prog E A) : Prog E' B :=
  match p with
  | Return (Done a) => done a
  | Return (Fail e) => failed e
  | Return (Panic msg) => Return (Panic msg)
  | Perform c k => Perform c (λ b, prog_case done failed (k b))
  end.

Definition prog_bind {E A B} (p : Prog E A) (k : A → Prog E B) : Prog E B :=
  prog_case k (λ e, Return (Fail e)) p.

Notation "'let*' x ':=' p 'in' k" := (prog_bind p (λ x, k))
  (at level 10, x pattern, p at level 200, k at level 200,
   format "'[v' 'let*'  x  ':='  p  'in' '/' k ']'") : herdr_scope.

Definition prog_ret {E A} (a : A) : Prog E A := Return (Done a).
Definition call {E B} (c : Call B) : Prog E B := Perform c (λ b, prog_ret b).

(** ** The system *)

(** A file.  [f_birth], the name it was created with, is for the proofs. *)
Record FileData := MkFileData {
  f_birth : string;
  f_kind : FileKind;
  f_uid : Z;
  f_mode : Z;
  f_bytes : Bytes;
}.
#[global] Instance FileData_fields : Fields FileData := λ f,
  MkFileData (f_birth f) (f_kind f) (f_uid f) (f_mode f) (f_bytes f).

Record Sys := MkSys {
  sys_parent : Metadata;
  sys_root : option Metadata;
  sys_entries : gmap string nat;
  sys_inodes : gmap nat FileData;
  sys_next : nat;
  sys_flocks : gmap nat nat;
  sys_nonces : gmap Z Z;
}.
#[global] Instance Sys_fields : Fields Sys := λ s,
  MkSys (sys_parent s) (sys_root s) (sys_entries s) (sys_inodes s) (sys_next s) (sys_flocks s)
    (sys_nonces s).

Record Choice := MkChoice {
  ch_errno : option Errno;
  ch_written : nat;
  ch_canonical : option PathBuf;
  ch_stat : option (bool * Z);
  ch_access : bool;
  ch_millis : Z;
  ch_healthy : bool;
}.

(** [Mode::RUSR | Mode::WUSR] and with [Mode::XUSR] *)
Definition PRIVATE_FILE_MODE : Z := 384.
Definition PRIVATE_DIR_MODE : Z := 448.

Definition set_mode (mode : Z) (m : Metadata) : Metadata :=
  MkMetadata (md_kind m) (md_uid m) mode (md_len m).

Section system.
Context (uid umask : Z).

(** A call that the system may refuse. *)
Definition unless_refused {A} (ch : Choice) (s : Sys) (r : Result Errno A * Sys)
    : option (Result Errno A * Sys) :=
  Some (match ch_errno ch with Some e => (Err e, s) | None => r end).

Definition masked (mode : Z) : Z := Z.land mode (Z.lnot umask).

Definition metadata_of (s : Sys) (file : File) : option Metadata :=
  match file with
  | ParentHandle => Some (sys_parent s)
  | RootHandle => sys_root s
  | Inode i => (λ f, MkMetadata (f_kind f) (f_uid f) (f_mode f) (length (f_bytes f))) <$> sys_inodes s !! i
  end.

(** A new empty file, created with [Mode::RUSR | Mode::WUSR]. *)
Definition new_file (name : string) : FileData :=
  MkFileData name RegularFile uid (masked PRIVATE_FILE_MODE) [].
Definition create_file (name : string) (s : Sys) : Sys :=
  s <| sys_entries ::= <[name := sys_next s]> |> <| sys_inodes ::= <[sys_next s := new_file name]> |>
    <| sys_next ::= S |>.

Definition chmod_file (file : File) (mode : Z) (s : Sys) : Sys :=
  match file with
  | ParentHandle => s <| sys_parent ::= set_mode mode |>
  | RootHandle => s <| sys_root ::= fmap (set_mode mode) |>
  | Inode i => s <| sys_inodes ::= alter (λ f, f <| f_mode := mode |>) i |>
  end.

Definition write_file (file : File) (bytes : Bytes) (s : Sys) : Sys :=
  match file with
  | Inode i => s <| sys_inodes ::= alter (λ f, f <| f_bytes ::= λ old, old ++ bytes |>) i |>
  | _ => s
  end.

(** One call of thread [tid] of process [pid]; [None] while it blocks. *)
Definition exec (pid : Z) (tid : nat) (ch : Choice) {B} (c : Call B) (s : Sys) : option (B * Sys) :=
  match c in Call B return option (B * Sys) with
  | OpenParent _ => unless_refused ch s (Ok ParentHandle, s)
  | OpenRoot _ =>
      unless_refused ch s
        (match sys_root s with
         | None => (Err NOENT, s)
         | Some m => if decide (md_kind m = Directory) then (Ok RootHandle, s) else (Err LOOP, s)
         end)
  | MkRoot _ mode =>
      unless_refused ch s
        (match sys_root s with
         | Some _ => (Err EXIST, s)
         | None => (Ok tt, s <| sys_root := Some (MkMetadata Directory uid (masked mode) 0) |>)
         end)
  | OpenNew name =>
      unless_refused ch s
        (match sys_entries s !! name with
         | Some _ => (Err EXIST, s)
         | None => (Ok (Inode (sys_next s)), create_file name s)
         end)
  | OpenRead name =>
      unless_refused ch s
        (match sys_entries s !! name with
         | None => (Err NOENT, s)
         | Some i =>
             if decide (f_kind <$> sys_inodes s !! i = Some Symlink) then (Err LOOP, s)
             else (Ok (Inode i), s)
         end)
  | Fstat file =>
      unless_refused ch s
        (match metadata_of s file with Some m => (Ok m, s) | None => (Err NOENT, s) end)
  | Fchmod file mode => unless_refused ch s (Ok tt, chmod_file file mode s)
  | WriteAll file bytes =>
      Some (match ch_errno ch with
            | Some e => (Err e, write_file file (take (ch_written ch) bytes) s)
            | None => (Ok tt, write_file file bytes s)
            end)
  | SyncAll _ => unless_refused ch s (Ok tt, s)
  | ReadUpTo file limit =>
      unless_refused ch s
        (match file with
         | Inode i => (Ok (take limit (default [] (f_bytes <$> sys_inodes s !! i))), s)
         | _ => (Err (OTHER 21), s)
         end)
  | Renameat from to =>
      unless_refused ch s
        (match sys_entries s !! from with
         | None => (Err NOENT, s)
         | Some i =>
             if decide (sys_entries s !! to = Some i) then (Ok tt, s)
             else (Ok tt, s <| sys_entries ::= λ m, <[to := i]> (delete from m) |>)
         end)
  | Linkat from to =>
      unless_refused ch s
        (match sys_entries s !! from, sys_entries s !! to with
         | None, _ => (Err NOENT, s)
         | Some _, Some _ => (Err EXIST, s)
         | Some i, None => (Ok tt, s <| sys_entries ::= <[to := i]> |>)
         end)
  | Unlinkat name =>
      unless_refused ch s
        (match sys_entries s !! name with
         | None => (Err NOENT, s)
         | Some _ => (Ok tt, s <| sys_entries ::= delete name |>)
         end)
  | Flock file blocking =>
      match ch_errno ch, file with
      | Some e, _ => Some (Err e, s)
      | None, Inode i =>
          match sys_flocks s !! i with
          | None => Some (Ok tt, s <| sys_flocks ::= <[i := tid]> |>)
          | Some holder =>
              if decide (holder = tid) then Some (Ok tt, s)
              else if blocking then None else Some (Err WOULDBLOCK, s)
          end
      | None, _ => Some (Err (OTHER 9), s)
      end
  | NextNonce =>
      let n := default 1%Z (sys_nonces s !! pid) in
      Some (n, s <| sys_nonces ::= alter (λ n, ((n + 1) mod (u64_max + 1))%Z) pid |>)
  | TestKill other =>
      Some (match ch_errno ch with
            | Some SRCH => if decide (is_Some (sys_nonces s !! other)) then Ok tt else Err SRCH
            | Some e => Err e
            | None => Ok tt
            end, s)
  | Canonicalize _ => Some (ch_canonical ch, s)
  | StatPath _ => Some (ch_stat ch, s)
  | AccessExec _ => Some (ch_access ch, s)
  | NowMillis => Some (ch_millis ch, s)
  | ProbeHealth _ => Some (ch_healthy ch, s)
  end.

(** The files of a thread are closed when its function returns. *)
Definition close_files (tid : nat) (s : Sys) : Sys :=
  s <| sys_flocks ::= filter (λ '(_, holder), holder ≠ tid) |>.

End system.

(** ** The programs *)

(** [struct LockRecord]: [pid] and [nonce]. *)
Record LockRecord := MkLockRecord { lr_pid : Z; lr_nonce : Z }.
#[global] Instance LockRecord_eq_dec : EqDecision LockRecord.
Proof. solve_decision. Defined.

Record SessionLock := MkSessionLock { sl_paths : RuntimePaths; sl_record : LockRecord }.

Definition owner_pid (lock : SessionLock) : Z := lr_pid (sl_record lock).

Section programs.
Context {serde : RuntimeSerde} {crypto : ApiCrypto} (uid pid : Z).

Abbreviation P := (Prog RuntimeError).

Definition lift {A} (o : Outcome RuntimeError A) : P A := Return o.

(** A system call whose error is returned as [RuntimeError::Io]. *)
Definition sys {A} (c : Call (Result Errno A)) : P A :=
  Perform c (λ r, match r with Ok a => Return (Done a) | Err e => Return (Fail (RtIo (Os e))) end).

(** [let _ = call(...)] *)
Definition ignore_call {A} (c : Call (Result Errno A)) : P () := Perform c (λ _, prog_ret tt).

(** [let _ = function(...)] *)
Definition ignore_errors {A} (p : P A) : P () := prog_case (λ _, prog_ret tt) (λ _, prog_ret tt) p.

Definition sync_directory : P () := sys (SyncAll RootHandle).

Definition validate_private_identity (path : PathBuf) (m : Metadata) (directory : bool)
    : Outcome RuntimeError () :=
  let correct_kind := if directory then bool_decide (md_kind m = Directory)
                      else bool_decide (md_kind m = RegularFile) in
  let? _ := reject_if (negb correct_kind || bool_decide (md_kind m = Symlink)) (UnsafePath path) in
  reject_if (negb (md_uid m =? uid)%Z) (WrongOwner path).

Definition validate_private_metadata (path : PathBuf) (m : Metadata) (directory : bool)
    : Outcome RuntimeError () :=
  let? _ := validate_private_identity path m directory in
  let expected_mode := if directory then PRIVATE_DIR_MODE else PRIVATE_FILE_MODE in
  reject_if (negb (Z.land (md_mode m) 511 =? expected_mode)%Z) (UnsafePermissions path).

Definition validate_runtime_parent (path : PathBuf) (m : Metadata) : Outcome RuntimeError () :=
  let? _ := reject_if (negb (bool_decide (md_kind m = Directory))) (UnsafePath path) in
  let writable := negb (Z.land (md_mode m) 18 =? 0)%Z in
  if (md_uid m =? uid)%Z then reject_if writable (UnsafePermissions path)
  else if (md_uid m =? 0)%Z then
    reject_if (writable && (Z.land (md_mode m) 512 =? 0)%Z) (UnsafePermissions path)
  else Fail (WrongOwner path).

Definition open_private_root (root : PathBuf) : P () :=
  let* _ := lift (validate_absolute_path root) in
  let* parent_path := lift (ok_or (path_parent root) (UnsafePath root)) in
  let* leaf := lift (ok_or (file_name root) (UnsafePath root)) in
  let* parent := sys (OpenParent parent_path) in
  let* parent_metadata := sys (Fstat parent) in
  let* _ := lift (validate_runtime_parent parent_path parent_metadata) in
  let* root_handle :=
    Perform (OpenRoot leaf) (λ r,
      match r with
      | Ok root_fd => prog_ret root_fd
      | Err NOENT =>
          let* _ := Perform (MkRoot leaf PRIVATE_DIR_MODE) (λ r,
            match r with
            | Ok _ | Err EXIST => prog_ret tt
            | Err e => Return (Fail (RtIo (Os e)))
            end) in
          sys (OpenRoot leaf)
      | Err e => Return (Fail (RtIo (Os e)))
      end) in
  let* m := sys (Fstat root_handle) in
  let* _ := lift (validate_private_identity root m true) in
  let* _ := if negb (Z.land (md_mode m) 511 =? PRIVATE_DIR_MODE)%Z
            then sys (Fchmod root_handle PRIVATE_DIR_MODE) else prog_ret tt in
  let* m := sys (Fstat root_handle) in
  lift (validate_private_metadata root m true).

Definition open_new_private_at (name : string) : P File :=
  let* file := sys (OpenNew name) in
  let* _ := sys (Fchmod file PRIVATE_FILE_MODE) in
  let* m := sys (Fstat file) in
  let* _ := lift (validate_private_metadata name m false) in
  prog_ret file.

Definition open_private_read_at (name : string) (max_bytes : nat) : P File :=
  let* file := sys (OpenRead name) in
  let* m := sys (Fstat file) in
  let* _ := lift (validate_private_metadata name m false) in
  let* _ := lift (reject_if (max_bytes <? md_len m)%nat (RtIo (CustomInvalidData "runtime file is too large"))) in
  prog_ret file.

Definition read_limited (file : File) (max_bytes : nat) : P Bytes :=
  let* encoded := sys (ReadUpTo file (max_bytes + 1)) in
  let* _ := lift (reject_if (max_bytes <? length encoded)%nat
                    (RtIo (CustomInvalidData "runtime file is too large"))) in
  prog_ret encoded.

Definition acquire_transition_guard_with (paths : RuntimePaths) (blocking : bool) : P () :=
  let* file :=
    prog_case prog_ret
      (λ e, match e with
            | RtIo error =>
                if is_already_exists error then open_private_read_at (guard_name paths) 0
                else Return (Fail e)
            | _ => Return (Fail e)
            end)
      (open_new_private_at (guard_name paths)) in
  sys (Flock file blocking).

Definition acquire_transition_guard_at (paths : RuntimePaths) : P () :=
  acquire_transition_guard_with paths false.
Definition acquire_transition_guard_blocking_at (paths : RuntimePaths) : P () :=
  acquire_transition_guard_with paths true.

Definition process_is_alive (pid : Z) : P bool :=
  match platform_pid pid with
  | None => prog_ret true
  | Some pid => Perform (TestKill pid) (λ r,
      prog_ret match r with Ok _ => true | Err SRCH => false | Err _ => true end)
  end.

(** *** Descriptors *)

Definition validate_descriptor (paths : RuntimePaths) (descriptor : RuntimeDescriptor) : P () :=
  let* _ := lift (check_descriptor paths descriptor) in
  let* canonical := call (Canonicalize (rdesc_executable_path descriptor)) in
  let* canonical := lift (ok_or canonical (InvalidDescriptor "executable path does not exist")) in
  let* _ := lift (reject_if (negb (path_eqb canonical (rdesc_executable_path descriptor)))
                    (InvalidDescriptor "executable path is not canonical")) in
  let* m := call (StatPath canonical) in
  let* m := lift (ok_or m (InvalidDescriptor "executable metadata unavailable")) in
  let '(is_file, mode) := m in
  let* _ := lift (reject_if (negb is_file) (InvalidDescriptor "executable path is not a regular file")) in
  let* executable := if (Z.land mode 73 =? 0)%Z then prog_ret false else call (AccessExec canonical) in
  let* _ := lift (reject_if (negb executable)
                    (InvalidDescriptor "executable file is not executable by this process")) in
  let* _ := lift (reject_if (negb (is_some (platform_pid (rdesc_broker_pid descriptor))))
                    (InvalidDescriptor "broker PID is not representable")) in
  let* now := call NowMillis in
  lift (check_created descriptor now).

Definition read_descriptor_at (paths : RuntimePaths) : P RuntimeDescriptor :=
  let* file := open_private_read_at (descriptor_name paths) MAX_DESCRIPTOR_BYTES in
  let* encoded := read_limited file MAX_DESCRIPTOR_BYTES in
  let* descriptor := lift (map_error RtJson (of_result (descriptor_from_slice encoded))) in
  let* _ := validate_descriptor paths descriptor in
  prog_ret descriptor.

Definition read_descriptor (paths : RuntimePaths) : P RuntimeDescriptor :=
  let* _ := lift (validate_runtime_paths paths) in
  let* _ := open_private_root (rp_root paths) in
  read_descriptor_at paths.

(** [remove_descriptor_at] and [remove_stale_descriptor_at] *)
Definition remove_descriptor_at (paths : RuntimePaths) : P () :=
  Perform (Unlinkat (descriptor_name paths)) (λ r,
    match r with
    | Ok _ => sync_directory
    | Err NOENT => prog_ret tt
    | Err e => Return (Fail (RtIo (Os e)))
    end).

Definition remove_descriptor (paths : RuntimePaths) : P () :=
  let* _ := lift (validate_runtime_paths paths) in
  let* _ := open_private_root (rp_root paths) in
  let* _ := acquire_transition_guard_blocking_at paths in
  remove_descriptor_at paths.

Definition remove_descriptor_if_instance_at (paths : RuntimePaths) (broker_instance_id : string) : P bool :=
  let* matching := prog_case
    (λ d, prog_ret (String.eqb (rdesc_broker_instance_id d) broker_instance_id))
    (λ _, prog_ret false) (read_descriptor_at paths) in
  if matching : bool then
    let* _ := remove_descriptor_at paths in prog_ret true
  else prog_ret false.

Definition remove_descriptor_if_instance (paths : RuntimePaths) (broker_instance_id : string) : P bool :=
  let* _ := lift (validate_runtime_paths paths) in
  let* _ := open_private_root (rp_root paths) in
  let* _ := acquire_transition_guard_at paths in
  remove_descriptor_if_instance_at paths broker_instance_id.

Definition descriptor_temporary (paths : RuntimePaths) (nonce : Z) : string :=
  "." +:+ scope_key (rp_scope paths) +:+ ".tmp-" +:+ u64_to_string pid +:+ "-" +:+ u64_to_string nonce.

(** The closure of [write_descriptor_with]; an error carries [renamed]. *)
Definition publish_descriptor (paths : RuntimePaths) (temporary : string) (encoded : Bytes)
    : Prog (RuntimeError * bool) () :=
  let* _ := prog_case prog_ret (λ e, Return (Fail (e, false)))
    (let* file := open_new_private_at temporary in
     let* _ := sys (WriteAll file encoded) in
     let* _ := sys (SyncAll file) in
     sys (Renameat temporary (descriptor_name paths))) in
  prog_case prog_ret (λ e, Return (Fail (e, true))) sync_directory.

Definition write_descriptor (paths : RuntimePaths) (descriptor : RuntimeDescriptor) : P () :=
  let* _ := lift (validate_runtime_paths paths) in
  let* _ := open_private_root (rp_root paths) in
  let* _ := acquire_transition_guard_blocking_at paths in
  let* _ := validate_descriptor paths descriptor in
  let* encoded := lift (map_error RtJson (of_result (descriptor_to_vec descriptor))) in
  let* _ := lift (reject_if (MAX_DESCRIPTOR_BYTES <? length encoded)%nat
                    (RtIo (CustomInvalidData "runtime descriptor is too large"))) in
  let* nonce := call NextNonce in
  let temporary := descriptor_temporary paths nonce in
  prog_case prog_ret
    (λ '(error, renamed),
      let* _ := ignore_call (Unlinkat temporary) in
      let* _ := if renamed : bool
                then ignore_errors (remove_descriptor_if_instance_at paths (rdesc_broker_instance_id descriptor))
                else prog_ret tt in
      Return (Fail error))
    (publish_descriptor paths temporary encoded).

(** *** The session lock *)

Definition read_lock (paths : RuntimePaths) : P LockRecord :=
  let* file := open_private_read_at (lock_name paths) MAX_LOCK_BYTES in
  let* encoded := read_limited file MAX_LOCK_BYTES in
  let* record := lift (map_err InvalidLock (of_result (lock_from_slice encoded))) in
  let* _ := lift (reject_if (record.1 =? 0)%Z InvalidLock) in
  prog_ret (MkLockRecord record.1 record.2).

Inductive LockPublishAttemptError := TempExists | AttemptRuntime (error : RuntimeError).

(** The content, the name of the lock, which is the commit point, and the clean-up. *)
Definition publish_lock (paths : RuntimePaths) (temporary : string) (encoded : Bytes) (file : File)
    : Prog LockPublishAttemptError () :=
  prog_case
    (λ _,
      Perform (Linkat temporary (lock_name paths)) (λ r,
        match r with
        | Err e => Perform (Unlinkat temporary) (λ _, Return (Fail (AttemptRuntime (RtIo (Os e)))))
        | Ok _ =>
            Perform (SyncAll RootHandle) (λ _,
            Perform (Unlinkat temporary) (λ _,
            Perform (SyncAll RootHandle) (λ _, prog_ret tt)))
        end))
    (λ error, Perform (Unlinkat temporary) (λ _, Return (Fail (AttemptRuntime error))))
    (let* _ := sys (WriteAll file encoded) in
     sys (SyncAll file)).

Definition write_lock_create_at_name (paths : RuntimePaths) (record : LockRecord) (temporary : string)
    : Prog LockPublishAttemptError () :=
  match lock_to_vec (lr_pid record, lr_nonce record) with
  | Err error => Return (Fail (AttemptRuntime (RtJson error)))
  | Ok encoded =>
      prog_case (publish_lock paths temporary encoded)
        (λ error,
          match error with
          | RtIo io => if is_already_exists io then Return (Fail TempExists)
                       else Return (Fail (AttemptRuntime error))
          | _ => Return (Fail (AttemptRuntime error))
          end)
        (open_new_private_at temporary)
  end.

Definition lock_temporary (paths : RuntimePaths) (nonce : Z) : string :=
  "." +:+ scope_key (rp_scope paths) +:+ ".lock-tmp-" +:+ u64_to_string pid +:+ "-" +:+ u64_to_string nonce.

(** [for _ in 0..128]: with as many attempts left. *)
Fixpoint write_lock_create (attempts : nat) (paths : RuntimePaths) (record : LockRecord) : P () :=
  match attempts with
  | 0 => Return (Fail (RtIo (CustomAlreadyExists "could not allocate a private lock temporary")))
  | S attempts =>
      let* nonce := call NextNonce in
      prog_case prog_ret
        (λ e, match e with
              | TempExists => write_lock_create attempts paths record
              | AttemptRuntime error => Return (Fail error)
              end)
        (write_lock_create_at_name paths record (lock_temporary paths nonce))
  end.

(** The body of the loop of [acquire]: [None] is another turn. *)
Definition acquire_turn (paths : RuntimePaths) (record : LockRecord) : P (option SessionLock) :=
  prog_case
    (λ _,
      prog_case (λ _, prog_ret (Some (MkSessionLock paths record)))
        (λ error,
          let* _ := ignore_call (Unlinkat (lock_name paths)) in
          let* _ := ignore_call (SyncAll RootHandle) in
          Return (Fail error))
        (remove_descriptor_at paths))
    (λ error,
      match error with
      | RtIo io =>
          if is_already_exists io then
            let* stale := read_lock paths in
            let* alive := process_is_alive (lr_pid stale) in
            if alive : bool then Return (Fail (SessionAlreadyOwned (lr_pid stale))) else
            let* healthy := prog_case (λ d, call (ProbeHealth d)) (λ _, prog_ret false)
                              (read_descriptor_at paths) in
            if healthy : bool then Return (Fail (SessionAlreadyOwned (lr_pid stale))) else
            let* again := read_lock paths in
            if decide (again = stale) then
              let* _ := remove_descriptor_at paths in
              let* _ := sys (Unlinkat (lock_name paths)) in
              let* _ := sync_directory in
              prog_ret None
            else prog_ret None
          else Return (Fail error)
      | _ => Return (Fail error)
      end)
    (write_lock_create 128 paths record).

(** [for _ in 0..2] *)
Fixpoint acquire_turns (turns : nat) (paths : RuntimePaths) (record : LockRecord) : P SessionLock :=
  match turns with
  | 0 => Return (Fail (RtIo (CustomWouldBlock "runtime lock changed during acquisition")))
  | S turns =>
      let* acquired := acquire_turn paths record in
      match acquired with
      | Some lock => prog_ret lock
      | None => acquire_turns turns paths record
      end
  end.

Definition acquire (paths : RuntimePaths) (broker_pid : Z) : P SessionLock :=
  let* _ := lift (validate_runtime_paths paths) in
  let* _ := lift (reject_if (negb (is_some (platform_pid broker_pid))) InvalidLock) in
  let* _ := open_private_root (rp_root paths) in
  let* _ := acquire_transition_guard_at paths in
  let* nonce := call NextNonce in
  acquire_turns 2 paths (MkLockRecord broker_pid nonce).

Definition remove_if_owned (lock : SessionLock) : P () :=
  let* owned := prog_case (λ record, prog_ret (bool_decide (record = sl_record lock)))
                  (λ _, prog_ret false) (read_lock (sl_paths lock)) in
  if owned : bool then
    let* _ := sys (Unlinkat (lock_name (sl_paths lock))) in
    sync_directory
  else prog_ret tt.

Definition release_nonblocking (lock : SessionLock) : P () :=
  let* _ := acquire_transition_guard_at (sl_paths lock) in
  remove_if_owned lock.

(** [Drop for SessionLock] *)
Definition drop_lock (lock : SessionLock) : P () :=
  prog_case (λ _, ignore_errors (remove_if_owned lock)) (λ _, prog_ret tt)
    (acquire_transition_guard_blocking_at (sl_paths lock)).

End programs.
