(* ===== verification/RuntimeLogic.v ===== *)
(** * A logic for the programs of the runtime directory

    Rely and guarantee.  [Inv] is what always holds of the directory and of the session
    locks that are held.  A thread that holds the transition guard of a scope relies on
    nobody else touching the files of the scope ([rely]); each of its calls guarantees
    that to all others ([guar]).  [safe p Q v] says that a program keeps [Inv] and its
    guarantee however the others interfere, and ends in [Q]; the rules below prove it. *)
From stdpp Require Import prelude gmap strings.
From S2P Require Import Prelude RustStd CliText Model Ledger Api Generation Recovery Runtime RuntimeFiles.

#[global] Instance RuntimePaths_eq_dec : EqDecision RuntimePaths.
Proof. solve_decision. Defined.
#[global] Instance SessionLock_eq_dec : EqDecision SessionLock.
Proof. solve_decision. Defined.

(** Documented behaviour of [serde_json] on what it wrote, and of SHA-256. *)
Class RuntimeSerdeSpec {serde : RuntimeSerde} {crypto : ApiCrypto} : Prop := {
  lock_round_trip : ∀ r b, lock_to_vec r = Ok b → lock_from_slice b = Ok r;
  descriptor_round_trip : ∀ d b, descriptor_to_vec d = Ok b → descriptor_from_slice b = Ok d;
  sha256_length : ∀ m, length (api_sha256 m) = 32%nat;
  sha256_range : ∀ m, Forall byte_range (api_sha256 m);
}.

(** ** Names *)

(** The names of a scope: what its transition guard protects. *)
Definition scope_name (k name : string) : Prop :=
  name = k +:+ ".json" ∨ name = k +:+ ".lock"
  ∨ (∃ rest, name = "." +:+ k +:+ ".tmp-" +:+ rest)
  ∨ (∃ rest, name = "." +:+ k +:+ ".lock-tmp-" +:+ rest).
Definition guard_of (k : string) : string := "." +:+ k +:+ ".acquire".

Definition key_of (paths : RuntimePaths) : string := scope_key (rp_scope paths).

(** A digest in hexadecimal. *)
Definition valid_key (k : string) : Prop :=
  length (as_bytes k) = 64%nat ∧ Forall (λ b, is_lower_hex b = true) (as_bytes k).

Lemma string_app_bytes (s t u : string) : s = t +:+ u ↔ as_bytes s = as_bytes t ++ as_bytes u.
Proof. rewrite <-as_bytes_app. split; [by intros ->|apply as_bytes_inj]. Qed.

Lemma valid_key_head k : valid_key k → ∃ b rest, as_bytes k = b :: rest ∧ b ≠ 46%Z.
Proof.
  intros [Hlen Hhex]. destruct (as_bytes k) as [|b rest]; [done|]. exists b, rest. split; [done|].
  apply Forall_cons in Hhex as [Hb _]. intros ->. done.
Qed.

(** A name determines its key and the rest. *)
Lemma plain_inj k k' r r' : valid_key k → valid_key k' → k +:+ r = k' +:+ r' → k = k' ∧ r = r'.
Proof.
  intros [Hlen _] [Hlen' _] Heq. apply string_app_bytes in Heq. rewrite as_bytes_app in Heq.
  apply app_inj_1 in Heq as [Hk Hr]; [|congruence]. split; by apply as_bytes_inj.
Qed.

Lemma dotted_inj k k' r r' :
  valid_key k → valid_key k' → "." +:+ k +:+ r = "." +:+ k' +:+ r' → k = k' ∧ r = r'.
Proof. intros ? ? [= Heq]. by apply plain_inj. Qed.

Lemma plain_dotted k r s : valid_key k → k +:+ r ≠ "." +:+ s.
Proof.
  intros (b & rest & Hb & Hdot)%valid_key_head Heq.
  apply (f_equal as_bytes) in Heq. rewrite as_bytes_app, Hb in Heq.
  injection Heq as Hdot' _. by apply Hdot.
Qed.

Ltac name_clash :=
  match goal with
  | Hk : valid_key ?k, H : ?k +:+ _ = "." +:+ _ |- _ => by destruct (plain_dotted _ _ _ Hk H)
  | Hk : valid_key ?k, H : "." +:+ _ = ?k +:+ _ |- _ => by destruct (plain_dotted _ _ _ Hk (eq_sym H))
  | Hk : valid_key ?k, Hk' : valid_key ?k', H : "." +:+ ?k +:+ _ = "." +:+ ?k' +:+ _ |- _ =>
      destruct (dotted_inj _ _ _ _ Hk Hk' H); subst; try done
  | Hk : valid_key ?k, Hk' : valid_key ?k', H : ?k +:+ _ = ?k' +:+ _ |- _ =>
      destruct (plain_inj _ _ _ _ Hk Hk' H); subst; try done
  end.

Lemma scope_name_key k k' name :
  valid_key k → valid_key k' → scope_name k name → scope_name k' name → k = k'.
Proof.
  intros Hk Hk' [->|[->|[[r ->]|[r ->]]]] [Heq|[Heq|[[r' Heq]|[r' Heq]]]]; name_clash.
Qed.

Lemma scope_name_guard k k' name : valid_key k → valid_key k' → scope_name k name → name ≠ guard_of k'.
Proof. intros Hk Hk' [->|[->|[[r ->]|[r ->]]]] Heq; unfold guard_of in Heq; name_clash. Qed.

Lemma guard_of_inj k k' : valid_key k → valid_key k' → guard_of k = guard_of k' → k = k'.
Proof. unfold guard_of. intros Hk Hk' Heq. name_clash. Qed.

Section names.
Context {serde : RuntimeSerde} {crypto : ApiCrypto} {spec : RuntimeSerdeSpec}.

Lemma lock_scope_name paths : scope_name (key_of paths) (lock_name paths).
Proof. by right; left. Qed.
Lemma descriptor_scope_name paths : scope_name (key_of paths) (descriptor_name paths).
Proof. by left. Qed.
Lemma descriptor_temporary_scope_name pid paths n :
  scope_name (key_of paths) (descriptor_temporary pid paths n).
Proof. right; right; left. by eexists. Qed.
Lemma lock_temporary_scope_name pid paths n : scope_name (key_of paths) (lock_temporary pid paths n).
Proof. right; right; right. by eexists. Qed.

Lemma hex_digit_hex n : (0 ≤ n < 16)%Z → is_lower_hex (hex_digit n) = true ∧ byte_range (hex_digit n).
Proof.
  unfold hex_digit, is_lower_hex, is_ascii_digit, in_range, byte_range. intros Hn.
  destruct (Z.ltb_spec n 10); split; lia.
Qed.

Lemma digest_valid parts : valid_key (digest_bytes parts).
Proof.
  unfold digest_bytes, hex_encode, valid_key.
  pose proof (sha256_length (mjoin parts)) as Hlen. pose proof (sha256_range (mjoin parts)) as Hrange.
  set (l := api_sha256 (mjoin parts)) in *. clearbody l.
  assert (Forall (λ b, is_lower_hex b = true ∧ byte_range b)
            (mjoin ((λ b, [hex_digit (Z.shiftr b 4); hex_digit (Z.land b 15)]) <$> l))) as Hhex.
  { clear Hlen. induction Hrange as [|b l Hb _ IH]; [constructor|]. cbn. unfold byte_range in Hb.
    assert (0 ≤ Z.shiftr b 4 < 16)%Z by (rewrite Z.shiftr_div_pow2 by lia; split;
      [apply Z.div_pos; lia|apply Z.div_lt_upper_bound; lia]).
    assert (0 ≤ Z.land b 15 < 16)%Z by (change 15%Z with (Z.ones 4); rewrite Z.land_ones by lia;
      apply Z.mod_pos_bound; lia).
    repeat constructor; try done; by apply hex_digit_hex. }
  rewrite as_bytes_string_of_bytes by (eapply Forall_impl; [exact Hhex|by intros ? [_ ?]]).
  split; [|eapply Forall_impl; [exact Hhex|by intros ? [? _]]].
  clear Hhex Hrange. replace 64 with (2 * length l)%nat by lia. clear.
  induction l as [|b l IH]; [done|]. rewrite fmap_cons. change (S (S (length (mjoin ((λ b, [hex_digit (Z.shiftr b 4);
    hex_digit (Z.land b 15)]) <$> l)))) = 2 * S (length l))%nat. lia.
Qed.

(** The paths every operation checks first have a key of this form. *)
Lemma validated_key paths : validate_runtime_paths paths = Done tt → valid_key (key_of paths).
Proof.
  unfold validate_runtime_paths, key_of. intros (_ & _ & Hrun)%out_bind_Done.
  apply out_bind_Done in Hrun as (_ & _ & Hrun). apply out_bind_Done in Hrun as (expected & Hscope & Hrun).
  apply out_bind_Done in Hrun as (_ & Heq%reject_if_Done & _).
  apply negb_false_iff, bool_decide_eq_true in Heq. rewrite <-Heq.
  unfold scope_from_session_key in Hscope. apply out_bind_Done in Hscope as (_ & _ & Hscope).
  apply out_bind_Done in Hscope as (_ & _ & [= <-]). apply digest_valid.
Qed.
End names.

(** ** The invariant *)

(** The system and the session locks that are held, with their processes. *)
Record View := MkView { v_sys : Sys; v_sessions : list (Z * SessionLock) }.

Abbreviation entry v name := (sys_entries (v_sys v) !! name) (only parsing).
Abbreviation inode v i := (sys_inodes (v_sys v) !! i) (only parsing).

Definition session_scope (x : Z * SessionLock) : string := key_of (sl_paths x.2).

(** The thread holds the transition guard of a scope. *)
Definition holds (s : Sys) (tid : nat) (k : string) : Prop :=
  ∃ g, sys_entries s !! guard_of k = Some g ∧ sys_flocks s !! g = Some tid.

Lemma holds_exclusive s tid tid' k : holds s tid k → holds s tid' k → tid = tid'.
Proof. intros (g & Hg & Ht) (g' & Hg' & Ht'). congruence. Qed.

Section logic.
Context {serde : RuntimeSerde} {crypto : ApiCrypto} {spec : RuntimeSerdeSpec} (uid umask : Z).

Definition private_file (f : FileData) : Prop :=
  f_kind f = RegularFile ∧ f_uid f = uid ∧ Z.land (f_mode f) 511 = PRIVATE_FILE_MODE.

(** The lock file of a scope names the process that holds the session. *)
Definition locked_by (s : Sys) (record : LockRecord) (k : string) : Prop :=
  ∃ i f, sys_entries s !! (k +:+ ".lock") = Some i ∧ sys_inodes s !! i = Some f ∧ private_file f
    ∧ lock_to_vec (lr_pid record, lr_nonce record) = Ok (f_bytes f).

(** A descriptor that passed the checks for a scope. *)
Definition approved (k : string) (d : RuntimeDescriptor) : Prop :=
  (∃ paths, key_of paths = k ∧ check_descriptor paths d = Done tt)
  ∧ is_Some (platform_pid (rdesc_broker_pid d)) ∧ (0 < rdesc_created_unix_ms d)%Z.

(** A complete, private descriptor file. *)
Definition complete_descriptor (k : string) (f : FileData) : Prop :=
  private_file f ∧ (length (f_bytes f) ≤ MAX_DESCRIPTOR_BYTES)%nat ∧
  ∃ d, descriptor_to_vec d = Ok (f_bytes f) ∧ approved k d.

Record Inv (v : View) : Prop := {
  inv_bound : ∀ name i, entry v name = Some i → ∃ f, inode v i = Some f;
  inv_next : ∀ i f, inode v i = Some f → i < sys_next (v_sys v);
  inv_birth : ∀ k name i f, valid_key k → scope_name k name → entry v name = Some i →
    inode v i = Some f → scope_name k (f_birth f);
  inv_session : ∀ p l, (p, l) ∈ v_sessions v → valid_key (key_of (sl_paths l)) ∧
    is_Some (sys_nonces (v_sys v) !! p) ∧ lr_pid (sl_record l) = p ∧
    locked_by (v_sys v) (sl_record l) (key_of (sl_paths l));
  inv_exclusive : NoDup (session_scope <$> v_sessions v);
  inv_descriptor : ∀ k i f, valid_key k → entry v (k +:+ ".json") = Some i → inode v i = Some f →
    complete_descriptor k f;
}.

Lemma same_scope_session v x y :
  Inv v → x ∈ v_sessions v → y ∈ v_sessions v → session_scope x = session_scope y → x = y.
Proof.
  intros HI Hx Hy Heq. apply list_elem_of_lookup in Hx as [i Hi]. apply list_elem_of_lookup in Hy as [j Hj].
  assert (i = j) as ->; [|congruence].
  eapply NoDup_lookup; [apply (inv_exclusive v HI)|rewrite list_lookup_fmap, Hi; done|].
  rewrite list_lookup_fmap, Hj. by cbn; f_equal.
Qed.

(** ** Threads *)

Section thread.
Context (tid : nat) (pid : Z) (k : string) (Hkey : valid_key k).
(** The session the thread is about to release; when it may change the descriptor. *)
Context (own : option (Z * SessionLock)) (allowed : View → Prop).

Record rely (v v' : View) : Prop := {
  rely_guard : ∀ g, entry v (guard_of k) = Some g → entry v' (guard_of k) = Some g;
  rely_born : ∀ i f, inode v i = Some f → ∃ f', inode v' i = Some f' ∧ f_birth f' = f_birth f;
  rely_own : ∀ x, own = Some x → x ∈ v_sessions v → x ∈ v_sessions v';
  rely_held : holds (v_sys v) tid k → holds (v_sys v') tid k;
  rely_entry : holds (v_sys v) tid k → ∀ name, scope_name k name → entry v' name = entry v name;
  rely_inode : holds (v_sys v) tid k → ∀ i f, inode v i = Some f → scope_name k (f_birth f) → inode v' i = Some f;
  rely_session : holds (v_sys v) tid k → ∀ x, x ∈ v_sessions v' → session_scope x = k → x ∈ v_sessions v;
}.

Record guar (v v' : View) : Prop := {
  guar_guard : ∀ k' g, valid_key k' → entry v (guard_of k') = Some g → entry v' (guard_of k') = Some g;
  guar_flock : ∀ g t, sys_flocks (v_sys v) !! g = Some t → t ≠ tid → sys_flocks (v_sys v') !! g = Some t;
  guar_entry : ∀ k' name, valid_key k' → scope_name k' name →
    (k' = k ∧ holds (v_sys v) tid k) ∨ entry v' name = entry v name;
  guar_inode : ∀ i f, inode v i = Some f → ∃ f', inode v' i = Some f' ∧ f_birth f' = f_birth f ∧
    ∀ k', valid_key k' → scope_name k' (f_birth f) → (k' = k ∧ holds (v_sys v) tid k) ∨ f' = f;
  guar_gained : ∀ x, x ∈ v_sessions v' → x ∈ v_sessions v;
  guar_lost : ∀ x, x ∈ v_sessions v → x ∈ v_sessions v' ∨ own = Some x;
  guar_descriptor : allowed v ∨ (entry v' (k +:+ ".json") = entry v (k +:+ ".json") ∧
    ∀ i, entry v (k +:+ ".json") = Some i → inode v' i = inode v i);
}.

Lemma rely_refl v : rely v v.
Proof. split; eauto. Qed.

Lemma rely_trans v1 v2 v3 : rely v1 v2 → rely v2 v3 → rely v1 v3.
Proof.
  intros H1 H2. split.
  - intros g Hg. by apply (rely_guard _ _ H2), (rely_guard _ _ H1).
  - intros i f Hf. destruct (rely_born _ _ H1 _ _ Hf) as (f' & Hf' & Hb).
    destruct (rely_born _ _ H2 _ _ Hf') as (f'' & Hf'' & Hb'). exists f''. split; congruence.
  - intros x Hx Hin. by eapply (rely_own _ _ H2), (rely_own _ _ H1).
  - intros Hh. by apply (rely_held _ _ H2), (rely_held _ _ H1).
  - intros Hh name Hn. rewrite (rely_entry _ _ H2), (rely_entry _ _ H1); try done.
    by apply (rely_held _ _ H1).
  - intros Hh i f Hf Hb. apply (rely_inode _ _ H2); [by apply (rely_held _ _ H1)| |done].
    by apply (rely_inode _ _ H1).
  - intros Hh x Hx Hk. apply (rely_session _ _ H1); [done| |done].
    apply (rely_session _ _ H2); [by apply (rely_held _ _ H1)|done..].
Qed.

(** A thread that releases a session and unlinks its file no longer holds it. *)
Definition advance {B} (c : Call B) : B → list (Z * SessionLock) → list (Z * SessionLock) :=
  match c in Call B return B → list (Z * SessionLock) → list (Z * SessionLock) with
  | Unlinkat name => λ answer sessions,
      match own, answer with
      | Some x, Ok _ =>
          if decide (name = lock_name (sl_paths x.2)) then filter (λ y, y ≠ x) sessions else sessions
      | _, _ => sessions
      end
  | _ => λ _ sessions, sessions
  end.

Fixpoint safe {E A} (p : Prog E A) (Q : Outcome E A → View → Prop) (v : View) : Prop :=
  match p with
  | Return o => ∀ v', rely v v' → Inv v' → Q o v'
  | Perform c next => ∀ v' ch answer s', rely v v' → Inv v' →
      exec uid umask pid tid ch c (v_sys v') = Some (answer, s') →
      let v'' := MkView s' (advance c answer (v_sessions v')) in
      Inv v'' ∧ guar v' v'' ∧ safe (next answer) Q v''
  end.

Lemma safe_rely {E A} (p : Prog E A) Q v v' : rely v v' → safe p Q v → safe p Q v'.
Proof.
  intros Hr Hs. destruct p as [o|B c next]; cbn in *.
  - intros v'' Hr'. apply Hs. by eapply rely_trans.
  - intros v'' ch answer s' Hr'. apply Hs. by eapply rely_trans.
Qed.

Lemma safe_delay {E A} (p : Prog E A) Q v : (∀ v', rely v v' → Inv v' → safe p Q v') → safe p Q v.
Proof.
  intros Hs. destruct p as [o|B c next]; cbn in *.
  - intros v' Hr HI. apply (Hs v'); auto using rely_refl.
  - intros v' ch answer s' Hr HI. apply (Hs v'); auto using rely_refl.
Qed.

(** [P] before the program and [Q] after it. *)
Definition triple {E A} (P : View → Prop) (p : Prog E A) (Q : Outcome E A → View → Prop) : Prop :=
  ∀ v, Inv v → P v → safe p Q v.

Class Stable (P : View → Prop) : Prop := stable v v' : rely v v' → P v → P v'.

Lemma triple_return {E A} P `{!Stable P} (o : Outcome E A) (Q : Outcome E A → View → Prop) :
  (∀ v, Inv v → P v → Q o v) → triple P (Return o) Q.
Proof. intros HQ v HI HP v' Hr HI'. apply HQ; [done|]. by eapply stable. Qed.

Lemma triple_perform {E A B} P `{!Stable P} (c : Call B) (next : B → Prog E A) R Q :
  (∀ v ch answer s', Inv v → P v → exec uid umask pid tid ch c (v_sys v) = Some (answer, s') →
     let v' := MkView s' (advance c answer (v_sessions v)) in Inv v' ∧ guar v v' ∧ R answer v') →
  (∀ answer, triple (R answer) (next answer) Q) →
  triple P (Perform c next) Q.
Proof.
  intros Hc Hnext v HI HP v' ch answer s' Hr HI' He.
  edestruct Hc as (HI'' & Hg & HR); [exact HI'|by eapply stable|exact He|].
  split; [done|]. split; [done|]. by apply Hnext.
Qed.

Lemma safe_mono {E A} (p : Prog E A) (Q Q' : Outcome E A → View → Prop) v :
  (∀ o v, Inv v → Q o v → Q' o v) → safe p Q v → safe p Q' v.
Proof.
  intros HQ. revert v. induction p as [o|B c next IH]; cbn; intros v Hs.
  - intros v' Hr HI. eauto.
  - intros v' ch answer s' Hr HI He. edestruct Hs as (? & ? & ?); eauto.
Qed.

Lemma safe_case {E E' A B} (f : A → Prog E' B) (g : E → Prog E' B) (p : Prog E A) Q v :
  safe p (λ o v, match o with
                 | Done a => safe (f a) Q v
                 | Fail e => safe (g e) Q v
                 | Panic m => Q (Panic m) v
                 end) v →
  safe (prog_case f g p) Q v.
Proof.
  revert v. induction p as [o|C c next IH]; intros v Hs.
  - destruct o as [a|e|m]; [apply safe_delay, Hs..|]. exact Hs.
  - cbn. intros v' ch answer s' Hr HI He. edestruct Hs as (? & ? & ?); eauto.
Qed.

Lemma triple_case {E E' A B} P (R : Outcome E A → View → Prop) (f : A → Prog E' B) (g : E → Prog E' B)
    (p : Prog E A) Q :
  triple P p R →
  (∀ a, triple (R (Done a)) (f a) Q) → (∀ e, triple (R (Fail e)) (g e) Q) →
  (∀ m v, Inv v → R (Panic m) v → Q (Panic m) v) →
  triple P (prog_case f g p) Q.
Proof.
  intros Hp Hf Hg Hm v HI HP. apply safe_case. eapply safe_mono; [|by apply Hp].
  intros [a|e|m] v' HI' HR; eauto; [by apply Hf|by apply Hg].
Qed.

Lemma triple_pre {E A} (P P' : View → Prop) (p : Prog E A) Q :
  (∀ v, Inv v → P' v → P v) → triple P p Q → triple P' p Q.
Proof. intros HP Ht v HI HP'. apply Ht; auto. Qed.

Lemma triple_post {E A} P (p : Prog E A) (Q Q' : Outcome E A → View → Prop) :
  (∀ o v, Inv v → Q o v → Q' o v) → triple P p Q → triple P p Q'.
Proof. intros HQ Ht v HI HP. eapply safe_mono; [exact HQ|]. by apply Ht. Qed.

End thread.

(** What the others of a thread rely on, from its guarantee. *)
Lemma guar_rely tid k own allowed tid' k' own' v v' :
  tid' ≠ tid → valid_key k' → (∀ x, own' = Some x → own ≠ Some x) →
  guar tid k own allowed v v' → rely tid' k' own' v v'.
Proof.
  intros Hne Hk' Hown Hg.
  assert (∀ s, holds s tid' k' → ¬ (k' = k ∧ holds s tid k)) as Hother.
  { intros s H1 [-> H2]. apply Hne. by eapply holds_exclusive. }
  split.
  - intros g. by apply (guar_guard _ _ _ _ _ _ Hg).
  - intros i f Hf. destruct (guar_inode _ _ _ _ _ _ Hg _ _ Hf) as (f' & ? & ? & _). eauto.
  - intros x Hx Hin. destruct (guar_lost _ _ _ _ _ _ Hg _ Hin) as [?|?]; [done|]. by destruct (Hown x).
  - intros (g & He & Hl). exists g. split; [by apply (guar_guard _ _ _ _ _ _ Hg)|].
    by eapply (guar_flock _ _ _ _ _ _ Hg).
  - intros Hh name Hn. destruct (guar_entry _ _ _ _ _ _ Hg k' name) as [Hbad|]; try done.
    by destruct (Hother _ Hh).
  - intros Hh i f Hf Hb. destruct (guar_inode _ _ _ _ _ _ Hg _ _ Hf) as (f' & Hf' & _ & Hsame).
    destruct (Hsame k') as [Hbad| ->]; try done. by destruct (Hother _ Hh).
  - intros _ x Hx _. by apply (guar_gained _ _ _ _ _ _ Hg).
Qed.
End logic.
