(* ===== verification/RuntimeRules.v ===== *)
(** * The calls of the runtime directory in the logic

    One rule per effect: calls that change nothing a scope depends on, the creation of a
    file, a change of a file, and a change of the names of a scope under its guard; then
    the functions that only read. *)
From stdpp Require Import prelude gmap strings.
From S2P Require Import Prelude RustStd CliText Model Ledger Api Generation Recovery Runtime RuntimeFiles RuntimeLogic.

Section rules.
Context {serde : RuntimeSerde} {crypto : ApiCrypto} {spec : RuntimeSerdeSpec} (uid umask : Z).
Context (tid : nat) (pid : Z) (k : string) (Hkey : valid_key k).
Context (own : option (Z * SessionLock)) (allowed : View → Prop).

Abbreviation Inv := (Inv uid).
Abbreviation rely := (rely tid k own).
Abbreviation guar := (guar tid k own allowed).
Abbreviation safe := (safe uid umask tid pid k own allowed).
Abbreviation triple := (triple uid umask tid pid k own allowed).
Abbreviation Stable := (Stable tid k own).
Abbreviation advance := (advance own).
Abbreviation exec := (exec uid umask pid tid).

Lemma triple_bind {E A B} P (R : A → View → Prop) (p : Prog E A) (next : A → Prog E B) Q :
  triple P p (λ o v, match o with
                     | Done a => R a v
                     | Fail e => Q (Fail e) v
                     | Panic m => Q (Panic m) v
                     end) →
  (∀ a, triple (R a) (next a) Q) → triple P (prog_bind p next) Q.
Proof.
  intros Hp Hnext v HI HP. specialize (Hp v HI HP). clear HP HI P. revert v Hp.
  unfold prog_bind. induction p as [o|C c more IH]; intros v Hs.
  - destruct o as [a|e|m]; [|exact Hs..]. apply safe_delay. intros v' Hr HI. apply Hnext; [done|].
    by apply Hs.
  - cbn. intros v' ch answer s' Hr HI He. edestruct Hs as (? & ? & ?); eauto.
Qed.

(** A result with what still holds. *)
Definition post {E A} (P : View → Prop) (R : A → View → Prop) : Outcome E A → View → Prop :=
  λ o v, P v ∧ match o with Done a => R a v | _ => True end.

Lemma triple_let {E A B} P (R : A → View → Prop) (R' : B → View → Prop) (p : Prog E A) next :
  triple P p (post P R) → (∀ a, triple (λ v, P v ∧ R a v) (next a) (post P R')) →
  triple P (prog_bind p next) (post P R').
Proof.
  intros Hp Hnext. eapply triple_bind; [|exact Hnext]. eapply triple_post; [|exact Hp].
  intros [a|e|m] v _ [HP HR]; cbn in *; [done|by split..].
Qed.

#[global] Instance stable_and P R `{!Stable P} `{!Stable R} : Stable (λ v, P v ∧ R v).
Proof. intros v v' Hr [? ?]. split; by eapply stable. Qed.
#[global] Instance stable_const (φ : Prop) : Stable (λ _, φ).
Proof. by intros v v' _. Qed.
#[global] Instance stable_exists {T} (R : T → View → Prop) `{!∀ x, Stable (R x)} : Stable (λ v, ∃ x, R x v).
Proof. intros v v' Hr [x ?]. exists x. by eapply stable. Qed.

#[global] Instance stable_impl (φ : Prop) R `{!Stable R} : Stable (λ v, φ → R v).
Proof. intros v v' Hr HR Hφ. exact (stable tid k own v v' Hr (HR Hφ)). Qed.

(** ** Assertions *)

Definition Held (v : View) : Prop := holds (v_sys v) tid k.
Definition NoSession (v : View) : Prop := Held v ∧ ∀ x, x ∈ v_sessions v → session_scope x ≠ k.
Definition Named (name : string) (i : nat) (f : FileData) (v : View) : Prop :=
  Held v ∧ scope_name k name ∧ scope_name k (f_birth f) ∧ entry v name = Some i ∧ inode v i = Some f.
Definition Reads (name : string) (f : FileData) (v : View) : Prop := ∃ i, Named name i f v.
Definition Owns (v : View) : Prop := ∀ x, own = Some x → x ∈ v_sessions v.

#[global] Instance stable_Held : Stable Held.
Proof. intros v v' Hr. apply (rely_held _ _ _ _ _ Hr). Qed.
#[global] Instance stable_NoSession : Stable NoSession.
Proof.
  intros v v' Hr [Hh Hno]. split; [by apply (stable_Held v v' Hr)|]. intros x Hx Hk.
  apply (Hno x); [|done]. by apply (rely_session _ _ _ _ _ Hr).
Qed.
#[global] Instance stable_Named name i f : Stable (Named name i f).
Proof.
  intros v v' Hr (Hh & Hn & Hb & He & Hi). split; [by apply (stable_Held v v' Hr)|]. do 2 (split; [done|]).
  split; [by rewrite (rely_entry _ _ _ _ _ Hr)|by apply (rely_inode _ _ _ _ _ Hr)].
Qed.
#[global] Instance stable_Reads name f : Stable (Reads name f).
Proof. apply stable_exists. apply _. Qed.
#[global] Instance stable_Owns : Stable Owns.
Proof. intros v v' Hr Ho x Hx. apply (rely_own _ _ _ _ _ Hr _ Hx). by apply Ho. Qed.

(** ** Effects *)

(** A call that leaves names, files and sessions alone. *)
Record quiet_step (v : View) (s : Sys) : Prop := {
  quiet_entries : sys_entries s = sys_entries (v_sys v);
  quiet_inodes : sys_inodes s = sys_inodes (v_sys v);
  quiet_next : sys_next s = sys_next (v_sys v);
  quiet_flocks : ∀ i t, sys_flocks (v_sys v) !! i = Some t → sys_flocks s !! i = Some t;
  quiet_nonces : ∀ p, is_Some (sys_nonces (v_sys v) !! p) → is_Some (sys_nonces s !! p);
}.

Lemma quiet_step_ok v s :
  Inv v → quiet_step v s → Inv (MkView s (v_sessions v)) ∧ guar v (MkView s (v_sessions v)) ∧
    rely v (MkView s (v_sessions v)).
Proof.
  intros HI [He Hi Hn Hf Hp]. split_and!.
  - split; cbn; rewrite ?He, ?Hi, ?Hn; try apply HI.
    intros p l Hin. destruct (inv_session _ _ HI _ _ Hin) as (? & ? & ? & Hl).
    split_and!; auto. unfold locked_by. by rewrite He, Hi.
  - split; cbn; rewrite ?He, ?Hi; eauto 6.
  - split; cbn; rewrite ?He, ?Hi; eauto.
    intros (g & Hg & Hl). exists g. split; [by rewrite He|by apply Hf].
Qed.

(** A new file: a guard that was not there, or a name of the scope under its guard. *)
Lemma create_ok v name :
  Inv v → entry v name = None → (name = guard_of k ∨ (scope_name k name ∧ name ≠ k +:+ ".json" ∧
    name ≠ k +:+ ".lock" ∧ Held v)) →
  let v' := MkView (create_file uid umask name (v_sys v)) (v_sessions v) in Inv v' ∧ guar v v'.
Proof.
  intros HI Hnone Hname. set (f := new_file uid umask name). set (s := create_file _ _ _ _).
  assert (sys_entries s = <[name := sys_next (v_sys v)]> (sys_entries (v_sys v))) as He by done.
  assert (sys_inodes s = <[sys_next (v_sys v) := f]> (sys_inodes (v_sys v))) as Hi by done.
  assert (sys_next s = S (sys_next (v_sys v)) ∧ sys_flocks s = sys_flocks (v_sys v) ∧
          sys_nonces s = sys_nonces (v_sys v)) as (Hn & Hf & Hp) by done.
  assert (f_birth f = name) as Hb by done. clearbody f s. cbn.
  assert (inode v (sys_next (v_sys v)) = None) as Hfresh.
  { destruct (inode v _) as [f'|] eqn:Hf'; [|done]. apply (inv_next _ _ HI) in Hf'. lia. }
  assert (∀ k', valid_key k' → name ≠ k' +:+ ".json" ∧ name ≠ k' +:+ ".lock") as Hnot.
  { intros k' Hk'. destruct Hname as [->|(Hs & Hj & Hl & _)].
    - split; intros Heq; unfold guard_of in Heq; name_clash.
    - split; intros Heq; assert (k = k') as <- by (eapply scope_name_key; [done..|];
        rewrite Heq; unfold scope_name; auto); done. }
  assert (∀ k' n, valid_key k' → scope_name k' n → n = name → k' = k ∧ Held v) as Hmine.
  { intros k' n Hk' Hs ->. destruct Hname as [->|(Hs' & _ & _ & Hh)].
    - by destruct (scope_name_guard k' k (guard_of k)).
    - split; [by eapply scope_name_key|done]. }
  split.
  - split; cbn; rewrite ?He, ?Hi, ?Hn, ?Hp.
    + intros n i [[-> <-]|[Hne Hl]]%lookup_insert_Some; [rewrite lookup_insert_eq; eauto|].
      destruct (inv_bound _ _ HI _ _ Hl) as [f' Hf']. exists f'. rewrite lookup_insert_ne; [done|].
      intros <-. congruence.
    + intros i f' [[<- _]|[_ Hl]]%lookup_insert_Some; [lia|]. apply (inv_next _ _ HI) in Hl. lia.
    + intros k' n i f' Hk' Hs [[-> <-]|[Hne Hl]]%lookup_insert_Some.
      * rewrite lookup_insert_eq. intros [= <-]. by rewrite Hb.
      * destruct (inv_bound _ _ HI _ _ Hl) as [f'' Hf'']. rewrite lookup_insert_ne by (intros <-; congruence).
        intros Hf'. by eapply (inv_birth _ _ HI).
    + intros p l Hin. destruct (inv_session _ _ HI _ _ Hin) as (Hk' & ? & ? & i & f' & Hl & Hf' & ?).
      split_and!; [done..|]. exists i, f'. rewrite He, Hi. rewrite lookup_insert_ne by (by apply Hnot).
      rewrite lookup_insert_ne by (intros <-; congruence). done.
    + apply HI.
    + intros k' i f' Hk'. rewrite lookup_insert_ne by (by apply Hnot). intros Hl.
      destruct (inv_bound _ _ HI _ _ Hl) as [f'' Hf'']. rewrite lookup_insert_ne by (intros <-; congruence).
      intros Hf'. by eapply (inv_descriptor _ _ HI).
  - split; cbn; rewrite ?He, ?Hi, ?Hf; eauto.
    + intros k' g Hk' Hg. rewrite lookup_insert_ne; [done|]. intros Heq. congruence.
    + intros k' n Hk' Hs. destruct (decide (n = name)) as [Heq|Hne]; [left; by eapply Hmine|].
      right. by rewrite lookup_insert_ne.
    + intros i f' Hf'. exists f'. rewrite lookup_insert_ne by (intros <-; congruence). auto.
    + right. rewrite lookup_insert_ne by (by apply Hnot). split; [done|]. intros i Hj.
      destruct (inv_bound _ _ HI _ _ Hj) as [f' Hf']. rewrite lookup_insert_ne; [done|]. intros <-. congruence.
Qed.

(** A change of a file: of a guard, or of a file that is not published yet. *)
Lemma alter_insert v i f g :
  inode v i = Some f → alter g i (sys_inodes (v_sys v)) = <[i := g f]> (sys_inodes (v_sys v)).
Proof.
  intros Hf. apply map_eq. intros j. rewrite lookup_alter, lookup_insert.
  by repeat case_decide; subst; rewrite ?Hf.
Qed.

Lemma alter_ok v i f g :
  Inv v → inode v i = Some f → f_birth (g f) = f_birth f →
  (f_birth f = guard_of k ∨ (scope_name k (f_birth f) ∧ Held v ∧ entry v (k +:+ ".json") ≠ Some i ∧
     entry v (k +:+ ".lock") ≠ Some i)) →
  let v' := MkView ((v_sys v) <| sys_inodes ::= alter g i |>) (v_sessions v) in Inv v' ∧ guar v v'.
Proof.
  intros HI Hf Hb Hcase. set (s := _ <| _ ::= _ |>).
  assert (sys_entries s = sys_entries (v_sys v)) as He by done.
  assert (sys_inodes s = <[i := g f]> (sys_inodes (v_sys v))) as Hi by (by apply alter_insert).
  assert (sys_next s = sys_next (v_sys v) ∧ sys_flocks s = sys_flocks (v_sys v) ∧
          sys_nonces s = sys_nonces (v_sys v)) as (Hn & Hl & Hp) by done.
  set (f' := g f) in *. clearbody f' s. clear g. cbn.
  assert (∀ k' name, valid_key k' → scope_name k' name → name = k' +:+ ".json" ∨ name = k' +:+ ".lock" →
    entry v name ≠ Some i) as Hnot.
  { intros k' name Hk' Hs Hname Hent. pose proof (inv_birth _ _ HI _ _ _ _ Hk' Hs Hent Hf) as Hb'.
    destruct Hcase as [Hg|(Hs' & _ & Hj & Hlk)].
    - by destruct (scope_name_guard k' k (f_birth f)).
    - assert (k' = k) as -> by by eapply scope_name_key. by destruct Hname as [->| ->]. }
  split.
  - split; cbn; rewrite ?He, ?Hi, ?Hn, ?Hp.
    + intros n j Hj. destruct (inv_bound _ _ HI _ _ Hj) as [g Hg].
      destruct (decide (i = j)) as [->|]; [rewrite lookup_insert_eq; eauto|rewrite lookup_insert_ne; eauto].
    + intros j g [[<- _]|[_ Hg]]%lookup_insert_Some; by eapply (inv_next _ _ HI).
    + intros k' n j g Hk' Hs Hj [[<- <-]|[_ Hg]]%lookup_insert_Some;
        [rewrite Hb|]; by eapply (inv_birth _ _ HI).
    + intros p l Hin. destruct (inv_session _ _ HI _ _ Hin) as (Hk' & ? & ? & j & g & Hj & Hg & ?).
      split_and!; [done..|]. exists j, g. rewrite He, Hi, lookup_insert_ne; [done|]. intros <-.
      eapply Hnot; [exact Hk'|apply lock_scope_name|by right|exact Hj].
    + apply HI.
    + intros k' j g Hk' Hj [[<- _]|[_ Hg]]%lookup_insert_Some; [|by eapply (inv_descriptor _ _ HI)].
      exfalso. eapply Hnot; [exact Hk'| |by left|exact Hj]. by left.
  - split; cbn; rewrite ?He, ?Hi, ?Hl; eauto.
    + intros j g Hg. destruct (decide (i = j)) as [<-|Hne]; [|rewrite lookup_insert_ne; eauto].
      rewrite Hf in Hg. injection Hg as <-. exists f'. rewrite lookup_insert_eq. split_and!; [done..|].
      intros k' Hk' Hs. left. destruct Hcase as [Hg|(Hs' & Hh & _)].
      * by destruct (scope_name_guard k' k (f_birth f)).
      * split; [by eapply scope_name_key|done].
    + right. split; [done|]. intros j Hj. rewrite lookup_insert_ne; [done|]. intros <-.
      eapply Hnot; [exact Hkey| |by left|exact Hj]. by left.
Qed.

(** A change of the names of the scope, under its guard. *)
Lemma names_ok v es ss :
  Inv v → Held v →
  (∀ name, scope_name k name ∨ es !! name = entry v name) →
  (∀ name i, es !! name = Some i → es !! name = entry v name ∨
     ∃ n, scope_name k n ∧ entry v n = Some i) →
  (∀ x, x ∈ ss → x ∈ v_sessions v) → NoDup (session_scope <$> ss) →
  (∀ x, x ∈ v_sessions v → x ∈ ss ∨ own = Some x) →
  (∀ x, x ∈ ss → session_scope x = k → es !! (k +:+ ".lock") = entry v (k +:+ ".lock")) →
  (∀ i f, es !! (k +:+ ".json") = Some i → inode v i = Some f → complete_descriptor uid k f) →
  (es !! (k +:+ ".json") = entry v (k +:+ ".json") ∨ allowed v) →
  let v' := MkView ((v_sys v) <| sys_entries := es |>) ss in Inv v' ∧ guar v v'.
Proof.
  intros HI Hh Hother Hfrom Hss Hdup Hlost Hlock Hjson Hallow. set (s := _ <| _ := _ |>).
  assert (sys_entries s = es ∧ sys_inodes s = sys_inodes (v_sys v) ∧ sys_next s = sys_next (v_sys v) ∧
          sys_flocks s = sys_flocks (v_sys v) ∧ sys_nonces s = sys_nonces (v_sys v))
    as (He & Hi & Hn & Hl & Hp) by done.
  clearbody s. cbn.
  assert (∀ k' name, valid_key k' → scope_name k' name → k' = k ∨ es !! name = entry v name) as Helse.
  { intros k' name Hk' Hs. destruct (Hother name) as [Hs'|]; [left; by eapply scope_name_key|by right]. }
  split.
  - split; cbn; rewrite ?He, ?Hi, ?Hn, ?Hp.
    + intros name i Hname. destruct (Hfrom _ _ Hname) as [Heq|(n & _ & Hent)];
        [rewrite Heq in Hname|]; by eapply (inv_bound _ _ HI).
    + apply HI.
    + intros k' name i f Hk' Hs Hname Hf. destruct (Helse _ _ Hk' Hs) as [->|Heq].
      * destruct (Hfrom _ _ Hname) as [Heq|(n & Hsn & Hent)]; [rewrite Heq in Hname|];
          by eapply (inv_birth _ _ HI).
      * rewrite Heq in Hname. by eapply (inv_birth _ _ HI).
    + intros p l Hin. destruct (inv_session _ _ HI _ _ (Hss _ Hin)) as (Hk' & ? & ? & i & f & Hent & Hrest).
      split_and!; [done..|]. exists i, f. rewrite He, Hi. split; [|done]. rewrite <-Hent.
      destruct (Helse (key_of (sl_paths l)) (key_of (sl_paths l) +:+ ".lock") Hk') as [Heq|Heq];
        [apply lock_scope_name| |done].
      rewrite Heq. by apply (Hlock (p, l)).
    + done.
    + intros k' i f Hk' Hent Hf. destruct (Helse k' (k' +:+ ".json") Hk') as [->|Heq]; [by left|eauto|].
      rewrite Heq in Hent. by eapply (inv_descriptor _ _ HI).
  - split; cbn; rewrite ?He, ?Hi, ?Hl; eauto.
    + intros k' g Hk' Hg. destruct (Hother (guard_of k')) as [Hs|Heq]; [|by rewrite Heq].
      by destruct (scope_name_guard k k' (guard_of k')).
    + intros k' name Hk' Hs. destruct (Helse _ _ Hk' Hs); auto.
    + destruct Hallow; auto.
Qed.

(** ** Functions that only read *)

Definition quiet_call {B} (c : Call B) : Prop :=
  match c with
  | OpenNew _ | WriteAll _ _ | Renameat _ _ | Linkat _ _ | Unlinkat _ | Fchmod (Inode _) _ => False
  | _ => True
  end.

Lemma quiet_exec {B} (c : Call B) v ch answer s :
  quiet_call c → exec ch c (v_sys v) = Some (answer, s) →
  quiet_step v s ∧ advance c answer (v_sessions v) = v_sessions v.
Proof.
  intros Hq He. split; [|by destruct c].
  assert (quiet_step v (v_sys v)) as Hsame by by split.
  destruct c; try done; cbn in He; unfold unless_refused in He; repeat case_match; simplify_eq;
    try done; try (destruct file; try done); split; cbn; eauto.
  - intros i' t Ht. rewrite lookup_insert_ne; [done|]. intros ->. congruence.
  - intros p. rewrite lookup_alter. destruct (decide (pid = p)) as [->|]; [|done]. by intros [n ->].
Qed.

Lemma triple_quiet {E A B} P `{!Stable P} (c : Call B) (next : B → Prog E A) R Q :
  quiet_call c →
  (∀ v ch answer s', Inv v → P v → exec ch c (v_sys v) = Some (answer, s') →
     R answer (MkView s' (v_sessions v))) →
  (∀ answer, triple (λ v, P v ∧ R answer v) (next answer) Q) →
  triple P (Perform c next) Q.
Proof.
  intros Hq HR Hnext. eapply (triple_perform _ _ _ _ _ _ _ P _ _ (λ answer v, P v ∧ R answer v)); [|done].
  intros v ch answer s' HI HP He. destruct (quiet_exec c v ch answer s' Hq He) as [Hs Hadv].
  cbn. rewrite Hadv. destruct (quiet_step_ok v s' HI Hs) as (HI' & Hg & Hr). split_and!; [done..| |].
  - exact (stable tid k own v _ Hr HP).
  - by eapply HR.
Qed.

(** Every answer the system can give leads to reading calls only, and to results in [φ]. *)
Fixpoint reads {E A} (φ : A → Prop) (p : Prog E A) : Prop :=
  match p with
  | Return (Done a) => φ a
  | Return _ => True
  | Perform c next => quiet_call c ∧
      ∀ answer, (∃ ch s s', exec ch c s = Some (answer, s')) → reads φ (next answer)
  end.
Abbreviation anything := (λ _, True).

Lemma triple_reads {E A} P `{!Stable P} φ (p : Prog E A) :
  reads φ p → triple P p (post P (λ a _, φ a)).
Proof.
  induction p as [o|B c next IH]; intros Hreads.
  - apply triple_return; [apply _|]. intros v _ HP. split; [done|]. by destruct o.
  - destruct Hreads as [Hq Hnext].
    eapply (triple_quiet P _ _ (λ answer _, ∃ ch s s', exec ch c s = Some (answer, s'))); [done|eauto|].
    intros answer v HI [HP Hans]. by apply IH; [apply Hnext| |].
Qed.

Lemma reads_case {E E' A B} φ ψ (f : A → Prog E' B) (g : E → Prog E' B) (p : Prog E A) :
  reads φ p → (∀ a, φ a → reads ψ (f a)) → (∀ e, reads ψ (g e)) → reads ψ (prog_case f g p).
Proof.
  intros Hp Hf Hg. induction p as [[a|e|m]|C c next IH]; cbn; try done; [by apply Hf|].
  destruct Hp as [Hq Hnext]. split; [done|]. intros answer Hans. by apply IH, Hnext.
Qed.

Lemma reads_bind {E A B} φ ψ (p : Prog E A) (next : A → Prog E B) :
  reads φ p → (∀ a, φ a → reads ψ (next a)) → reads ψ (prog_bind p next).
Proof. intros Hp Hnext. by eapply reads_case. Qed.

Lemma reads_lift {A} (o : Outcome RuntimeError A) : reads anything (lift o).
Proof. by destruct o. Qed.

Lemma reads_sys {A} (c : Call (Result Errno A)) : quiet_call c → reads anything (sys c).
Proof. intros Hq. split; [done|]. by intros [a|e] _. Qed.

Lemma reads_call {E B} (c : Call B) : quiet_call c → reads (E := E) anything (call c).
Proof. by split. Qed.

Ltac reading :=
  repeat first
    [ done
    | apply reads_lift | apply reads_sys | apply reads_call
    | apply (reads_bind anything); [|intros ? _]
    | apply (reads_case anything); [|intros ? _|intros ?]
    | case_match ].

Lemma reads_validate_descriptor paths d : reads anything (validate_descriptor paths d).
Proof. unfold validate_descriptor. reading. Qed.

Lemma reads_open_root leaf : reads (λ f, f = RootHandle) (sys (OpenRoot leaf)).
Proof.
  split; [done|]. intros [f|e] (ch & s & s' & He); [|done]. cbn in *. unfold unless_refused in He.
  by repeat case_match; simplify_eq.
Qed.

Lemma reads_open_private_root root : reads anything (open_private_root uid root).
Proof.
  unfold open_private_root. do 6 (apply (reads_bind anything); [reading|intros ? _]).
  apply (reads_bind (λ f, f = RootHandle)); [|intros ? ->; reading].
  split; [done|]. intros [f|e] (ch & s & s' & He).
  - cbn in *. unfold unless_refused in He. by repeat case_match; simplify_eq.
  - destruct e; try done. apply (reads_bind anything); [|intros _ _; apply reads_open_root].
    split; [done|]. intros [u|e] _; [done|]. by destruct e.
Qed.

Lemma reads_open_private_read_at name max : reads anything (open_private_read_at uid name max).
Proof. unfold open_private_read_at. reading. Qed.

Lemma reads_read_descriptor_at paths : reads anything (read_descriptor_at uid paths).
Proof.
  unfold read_descriptor_at, read_limited. apply (reads_bind anything); [apply reads_open_private_read_at|].
  intros ? _. do 2 (apply (reads_bind anything); [reading|intros ? _]).
  apply (reads_bind anything); [apply reads_validate_descriptor|]. reading.
Qed.

Lemma reads_read_lock paths : reads anything (read_lock uid paths).
Proof.
  unfold read_lock, read_limited. apply (reads_bind anything); [apply reads_open_private_read_at|].
  intros ? _. reading.
Qed.

(** ** The transition guard *)

Lemma triple_weaken {E A} P P' (R R' : A → View → Prop) (p : Prog E A) :
  (∀ v, P' v → P v) → (∀ v, P v → P' v) → (∀ a v, Inv v → P v → R a v → R' a v) →
  triple P p (post P R) → triple P' p (post P' R').
Proof.
  intros H1 H2 H3 Ht. eapply triple_pre; [intros v _; apply H1|]. eapply triple_post; [|exact Ht].
  intros [a|e|m] v HI [HP HR]; split; auto.
Qed.

(** The file of the guard: its name is never removed. *)
Definition GuardFile (i : nat) (v : View) : Prop := entry v (guard_of k) = Some i.
Definition Born (i : nat) (name : string) (v : View) : Prop := ∃ f, inode v i = Some f ∧ f_birth f = name.

#[global] Instance stable_GuardFile i : Stable (GuardFile i).
Proof. intros v v' Hr. apply (rely_guard _ _ _ _ _ Hr). Qed.
#[global] Instance stable_Born i name : Stable (Born i name).
Proof.
  intros v v' Hr (f & Hf & Hb). destruct (rely_born _ _ _ _ _ Hr _ _ Hf) as (f' & ? & ?).
  exists f'. split; congruence.
Qed.

(** A call whose error is returned. *)
Lemma triple_sys {A} P P' `{!Stable P} `{!Stable P'} (R : A → View → Prop) `{!∀ a, Stable (R a)}
    (c : Call (Result Errno A)) :
  (∀ v ch r s', Inv v → P v → exec ch c (v_sys v) = Some (r, s') →
     let v' := MkView s' (advance c r (v_sessions v)) in
     Inv v' ∧ guar v v' ∧ P' v' ∧ match r with Ok a => R a v' | Err _ => True end) →
  triple P (sys c) (post P' R).
Proof.
  intros Hc. unfold sys.
  apply (triple_perform _ _ _ _ _ _ _ P c _
    (λ r v, P' v ∧ match r with Ok a => R a v | Err _ => True end)); [exact Hc|].
  intros [a|e]; apply triple_return; try apply _; by intros v _ [? ?].
Qed.

(** A quiet call with what its answer says. *)
Lemma triple_sys_quiet {A} P `{!Stable P} (R : A → View → Prop) `{!∀ a, Stable (R a)}
    (c : Call (Result Errno A)) :
  quiet_call c →
  (∀ v ch a s', Inv v → P v → exec ch c (v_sys v) = Some (Ok a, s') → R a (MkView s' (v_sessions v))) →
  triple P (sys c) (post P R).
Proof.
  intros Hq HR. unfold sys.
  apply (triple_quiet P c _ (λ r v, match r with Ok a => R a v | Err _ => True end) _ Hq).
  - intros v ch [a|e] s' HI HP He; [by eapply HR|done].
  - intros [a|e]; apply triple_return; try apply _; by intros v _ [? ?].
Qed.

Lemma triple_lift_then {A B} P P' (R : B → View → Prop) (o : Outcome RuntimeError A)
    (next : A → Prog RuntimeError B) `{!Stable P} :
  (∀ v, P v → P' v) → (∀ a, o = Done a → triple P (next a) (post P' R)) →
  triple P (prog_bind (lift o) next) (post P' R).
Proof.
  intros HP Hnext. destruct o as [a|e|m]; [by apply Hnext|..]; apply triple_return; try apply _;
    intros v _ ?; split; auto.
Qed.

(** *** Taking the guard *)

Lemma create_guard_rely v s :
  entry v (guard_of k) = None → (∀ i f, inode v i = Some f → sys_inodes s !! i = Some f) →
  rely v (MkView s (v_sessions v)).
Proof.
  intros Hnone Hi.
  assert (¬ holds (v_sys v) tid k) as Hnot by (intros (g & Hg & _); congruence).
  split; cbn; try done; [congruence|]. eauto.
Qed.

Lemma triple_create_guard P `{!Stable P} :
  triple P (sys (OpenNew (guard_of k)))
    (post P (λ file v, ∃ i, file = Inode i ∧ GuardFile i v ∧ Born i (guard_of k) v)).
Proof.
  apply triple_sys; [apply _..|]. intros v ch r s' HI HP He.
  cbn in He. unfold unless_refused in He. destruct (ch_errno ch) as [e|]; simplify_eq.
  { cbn. destruct (quiet_step_ok v (v_sys v) HI) as (? & ? & ?); [by split|]. by destruct v. }
  destruct (sys_entries _ !! _) as [i|] eqn:Hent; simplify_eq.
  { cbn. destruct (quiet_step_ok v (v_sys v) HI) as (? & ? & ?); [by split|]. by destruct v. }
  destruct (create_ok v (guard_of k) HI Hent (or_introl eq_refl)) as [HI' Hg].
  split; [exact HI'|]. split; [exact Hg|]. split.
  - eapply (stable tid k own v); [|exact HP]. apply create_guard_rely; [done|]. cbn. intros i f Hf.
    rewrite lookup_insert_ne; [done|]. intros <-. apply (inv_next _ _ HI) in Hf. lia.
  - eexists. split; [done|]. unfold GuardFile, Born. cbn. rewrite !lookup_insert_eq. eauto.
Qed.

Lemma triple_chmod_guard P `{!Stable P} i mode :
  triple (λ v, P v ∧ Born i (guard_of k) v) (sys (Fchmod (Inode i) mode)) (post P (λ _ _, True)).
Proof.
  apply triple_sys; [apply _..|]. intros v ch r s' HI [HP (f & Hf & Hb)] He.
  cbn in He. unfold unless_refused in He. destruct (ch_errno ch) as [e|]; simplify_eq.
  { cbn. destruct (quiet_step_ok v (v_sys v) HI) as (? & ? & ?); [by split|]. by destruct v. }
  destruct (alter_ok v i f (λ f, f <| f_mode := mode |>)) as [HI' Hg]; [done|done|done|by left|].
  pose proof (alter_insert v i f (λ f, f <| f_mode := mode |>) Hf) as Halter.
  split; [exact HI'|]. split; [exact Hg|]. split; [|done].
  eapply (stable tid k own v); [|exact HP]. split; cbn; eauto.
  - intros j g Hj. rewrite Halter. destruct (decide (i = j)) as [<-|Hne].
    + rewrite lookup_insert_eq. eexists. split; [done|]. by simplify_eq.
    + rewrite lookup_insert_ne by done. eauto.
  - intros _ j g Hj Hs. rewrite Halter. rewrite lookup_insert_ne; [done|]. intros <-. simplify_eq.
    by apply (scope_name_guard k k) in Hs.
Qed.
End rules.
