(* ===== verification/RuntimePrograms.v ===== *)
(** * The functions of the runtime directory in the logic

    A specification per function: taking the guard, reading and removing, publishing the
    lock and the descriptor, acquiring and releasing a session. *)
From stdpp Require Import prelude gmap strings.
From S2P Require Import Prelude RustStd CliText Model Ledger Api Generation Recovery Runtime RuntimeFiles RuntimeLogic RuntimeRules.

Section programs.
Context {serde : RuntimeSerde} {crypto : ApiCrypto} {spec : RuntimeSerdeSpec} (uid umask : Z).
Context (tid : nat) (pid : Z) (k : string) (Hkey : valid_key k).
Context (own : option (Z * SessionLock)) (allowed : View → Prop).

Abbreviation Inv := (Inv uid).
Abbreviation rely := (rely tid k own).
Abbreviation guar := (guar tid k own allowed).
Abbreviation triple := (triple uid umask tid pid k own allowed).
Abbreviation Stable := (Stable tid k own).
Abbreviation exec := (exec uid umask pid tid).
Abbreviation Held := (Held tid k).
Abbreviation NoSession := (NoSession tid k).
Abbreviation Named := (Named tid k).
Abbreviation Reads := (Reads tid k).
Abbreviation Owns := (Owns own).

(** ** Taking the guard *)

Lemma triple_ret {E A} P `{!Stable P} (R : A → View → Prop) (a : A) :
  (∀ v, Inv v → P v → R a v) → triple P (prog_ret (E := E) a) (post P R).
Proof. intros HR. apply triple_return; [apply _|]. intros v HI HP. split; eauto. Qed.

Lemma triple_fail {E A} P P' `{!Stable P} (R : A → View → Prop) (e : E) :
  (∀ v, Inv v → P v → P' v) → triple P (Return (Fail e)) (post P' R).
Proof. intros HP. apply triple_return; [apply _|]. intros v HI Hv. split; eauto. Qed.

Lemma triple_open_read P `{!Stable P} (R : nat → View → Prop) `{!∀ i, Stable (R i)} name max :
  (∀ v i, Inv v → P v → entry v name = Some i → R i v) →
  triple P (open_private_read_at uid name max) (post P (λ file v, ∃ i, file = Inode i ∧ R i v)).
Proof.
  intros HR. unfold open_private_read_at.
  eapply (triple_let _ _ _ _ _ _ _ P (λ file v, ∃ i, file = Inode i ∧ R i v)).
  - apply triple_sys_quiet; [apply _..|done|]. intros v ch file s' HI HP He. cbn in He.
    unfold unless_refused in He. destruct (ch_errno ch); [done|].
    destruct (sys_entries _ !! _) as [i|] eqn:Hent; [|done]. case_decide; [done|]. simplify_eq.
    exists i. split; [done|]. destruct v. by apply HR.
  - intros file. eapply triple_post; [|eapply (triple_reads _ _ _ _ _ _ _ _ (λ file', file' = file))].
    + intros [a|e|m] v HI [[HP Hf] Ha]; split; cbn in *; subst; done.
    + apply (reads_bind _ _ _ _ (λ _, True)); [by apply reads_sys|]. intros m _.
      apply (reads_bind _ _ _ _ (λ _, True)); [apply reads_lift|]. intros _ _.
      apply (reads_bind _ _ _ _ (λ _, True)); [apply reads_lift|]. by intros _ _.
Qed.

(** The end of [open_new_private_at], which only reads. *)
Lemma reads_checked_file name (file : File) :
  reads uid umask tid pid (λ file', file' = file)
    (let* m := sys (Fstat file) in
     let* _ := lift (validate_private_metadata uid name m false) in
     prog_ret file).
Proof.
  apply (reads_bind _ _ _ _ (λ _, True)); [by apply reads_sys|]. intros m _.
  apply (reads_bind _ _ _ _ (λ _, True)); [apply reads_lift|]. by intros _ _.
Qed.

Lemma triple_open_new_guard P `{!Stable P} :
  triple P (open_new_private_at uid (guard_of k)) (post P (λ file v, ∃ i, file = Inode i ∧ GuardFile k i v)).
Proof.
  unfold open_new_private_at. eapply triple_let; [by apply triple_create_guard|].
  intros file v HI (HP & i & -> & Hg & Hb). revert v HI HP Hg Hb.
  cut (triple (λ v, (P v ∧ GuardFile k i v) ∧ Born i (guard_of k) v)
    (let* _ := sys (Fchmod (Inode i) PRIVATE_FILE_MODE) in
     let* m := sys (Fstat (Inode i)) in
     let* _ := lift (validate_private_metadata uid (guard_of k) m false) in
     prog_ret (Inode i)) (post P (λ file v, ∃ i, file = Inode i ∧ GuardFile k i v))).
  { intros Ht v HI HP Hg Hb. by apply Ht. }
  eapply (triple_bind _ _ _ _ _ _ _ _ (λ _ v, P v ∧ GuardFile k i v)).
  - eapply triple_post; [|eapply (triple_chmod_guard _ _ _ _ _ Hkey _ _ (λ v, P v ∧ GuardFile k i v))].
    intros [a|e|m] v _ [[? ?] _]; by try split.
  - intros _. eapply triple_post; [|eapply triple_reads, reads_checked_file; apply _].
    intros [a|e|m] v _ [[HP Hg] Ha]; split; cbn in *; subst; eauto.
Qed.

Lemma triple_guard P `{!Stable P} paths blocking :
  key_of paths = k →
  triple P (acquire_transition_guard_with uid paths blocking) (post P (λ _, Held)).
Proof.
  intros Hk. unfold acquire_transition_guard_with.
  assert (guard_name paths = guard_of k) as -> by (unfold guard_name, guard_of; by rewrite <-Hk).
  eapply (triple_let _ _ _ _ _ _ _ P (λ file v, ∃ i, file = Inode i ∧ GuardFile k i v)).
  - eapply triple_case; [by apply triple_open_new_guard|..].
    + intros file. apply triple_return; [apply _|]. by intros v _ [? ?].
    + intros e. apply (triple_pre _ _ _ _ _ _ _ P); [by intros v _ [? _]|].
      destruct e as [error| | | | | | | | | | | |]; try (apply triple_fail; [apply _|done]).
      destruct (is_already_exists error); [|apply triple_fail; [apply _|done]].
      apply triple_open_read; [apply _..|]. by intros v i _ _ Hi.
    + by intros m v _ [? _].
  - intros file v HI (HP & i & -> & Hg). revert v HI HP Hg.
    cut (triple (λ v, P v ∧ GuardFile k i v) (sys (Flock (Inode i) blocking)) (post P (λ _, Held))).
    { intros Ht v HI HP Hg. by apply Ht. }
    eapply triple_post; [|eapply (triple_sys_quiet _ _ _ _ _ _ _ _ (λ _, Held)); [apply _..|done|]].
    + intros [a|e|m] v _ [[? ?] ?]; by split.
    + intros v ch a s' HI [HP Hg] He. cbn in He. unfold GuardFile in Hg. exists i.
      repeat case_match; simplify_eq; split; cbn; try done; by rewrite lookup_insert_eq.
Qed.

(** ** Reading *)

(** Under the guard, an open file of the scope keeps its content. *)
Lemma triple_open_scoped P `{!Stable P} name max :
  scope_name k name → (∀ v, P v → Held v) →
  triple P (open_private_read_at uid name max)
    (post P (λ file v, ∃ i, file = Inode i ∧ ∃ f, Named name i f v)).
Proof.
  intros Hn HP. apply triple_open_read; [apply _..|]. intros v i HI Hv Hent.
  destruct (inv_bound _ _ HI _ _ Hent) as [f Hf]. exists f. split; [by apply HP|].
  split_and!; try done. by eapply (inv_birth _ _ HI).
Qed.

Lemma triple_read_limited P `{!Stable P} name i max :
  triple (λ v, P v ∧ ∃ f, Named name i f v) (read_limited (Inode i) max)
    (post P (λ bytes v, ∃ f, Named name i f v ∧ bytes = f_bytes f)).
Proof.
  unfold read_limited.
  eapply (triple_bind _ _ _ _ _ _ _ _ (λ bytes v, P v ∧ ∃ f, Named name i f v ∧ bytes = take (max + 1) (f_bytes f))).
  - eapply triple_post; [|eapply (triple_sys_quiet _ _ _ _ _ _ _ _
      (λ bytes v, ∃ f, Named name i f v ∧ bytes = take (max + 1) (f_bytes f))); [apply _..|done|]].
    + intros [a|e|m] v _ [[? ?] ?]; by split.
    + intros v ch a s' HI [HP (f & Hf)] He. cbn in He. unfold unless_refused in He.
      case_match; simplify_eq. exists f. destruct v. split; [done|]. cbn in *.
      destruct Hf as (_ & _ & _ & _ & Hf). cbn in Hf. by rewrite Hf.
  - intros bytes. apply (triple_lift_then _ _ _ _ _ _ _ _ P); [apply _|by intros v [? _]|].
    intros _ Hlen%reject_if_Done%Nat.ltb_ge. apply triple_return; [apply _|].
    intros v _ (HP & f & Hf & ->). split; [done|]. exists f. split; [done|].
    apply take_ge. rewrite length_take in Hlen. lia.
Qed.

Lemma triple_file {E A} P (R : nat → View → Prop) (file : File) (p : File → Prog E A) Q :
  (∀ i, triple (λ v, P v ∧ R i v) (p (Inode i)) Q) →
  triple (λ v, P v ∧ ∃ i, file = Inode i ∧ R i v) (p file) Q.
Proof. intros Ht v HI (HP & i & -> & HR). by apply Ht. Qed.

(** The content of a file of the scope, whole. *)
Lemma triple_content P `{!Stable P} name max {A} (next : Bytes → Prog RuntimeError A) R :
  scope_name k name → (∀ v, P v → Held v) →
  (∀ bytes, triple (λ v, P v ∧ ∃ f, Reads name f v ∧ bytes = f_bytes f) (next bytes) (post P R)) →
  triple P (let* file := open_private_read_at uid name max in
            let* encoded := read_limited file max in next encoded) (post P R).
Proof.
  intros Hn HP Hnext. eapply triple_let; [by apply triple_open_scoped|]. intros file.
  apply (triple_file P (λ i v, ∃ f, Named name i f v) file
    (λ file, let* encoded := read_limited file max in next encoded)). intros i.
  eapply triple_bind; [|exact Hnext]. eapply triple_post; [|by apply triple_read_limited].
  intros [a|e|m] v _ [Hv Ha]; [|by split..]. destruct Ha as (f & Hf & ->). split; [done|].
  exists f. split; [by exists i|done].
Qed.

Lemma triple_read_lock P `{!Stable P} paths :
  key_of paths = k → (∀ v, P v → Held v) →
  triple P (read_lock uid paths)
    (post P (λ record v, ∃ f, Reads (lock_name paths) f v ∧
       lock_from_slice (f_bytes f) = Ok (lr_pid record, lr_nonce record))).
Proof.
  intros Hk HP. apply (triple_content P); [rewrite <-Hk; apply lock_scope_name|done|]. intros bytes.
  apply triple_lift_then; [apply _|by intros v [? _]|]. intros record Hrec%map_err_Done.
  apply triple_lift_then; [apply _|by intros v [? _]|]. intros _ _.
  apply triple_return; [apply _|]. intros v _ (Hv & f & Hf & ->). split; [done|]. exists f. split; [done|].
  destruct (lock_from_slice _) as [[p n]|]; by simplify_eq/=.
Qed.

Lemma triple_read_descriptor_at P `{!Stable P} paths :
  key_of paths = k → (∀ v, P v → Held v) →
  triple P (read_descriptor_at uid paths)
    (post P (λ d v, ∃ f, Reads (descriptor_name paths) f v ∧ descriptor_from_slice (f_bytes f) = Ok d)).
Proof.
  intros Hk HP. apply (triple_content P); [rewrite <-Hk; apply descriptor_scope_name|done|]. intros bytes.
  apply triple_lift_then; [apply _|by intros v [? _]|]. intros d Hd%map_error_Done.
  eapply triple_post; [|eapply (triple_reads _ _ _ _ _ _ _ _ (λ d', d' = d))].
  - intros [a|e|m] v _ [[Hv (f & Hf & ->)] Ha]; split; cbn in *; subst; try done. exists f. split; [done|].
    destruct (descriptor_from_slice _); by simplify_eq/=.
  - apply (reads_bind _ _ _ _ (λ _, True)); [apply reads_validate_descriptor|]. by intros _ _.
Qed.

(** ** Names of the scope *)

(** Removing a name that is not the lock of a session, and of a descriptor only when allowed. *)
Lemma triple_unlink {E A} P P' `{!Stable P} `{!Stable P'} name (next : Result Errno () → Prog E A) Q :
  scope_name k name → (∀ v, P v → Held v) →
  (∀ v, P v → name = k +:+ ".lock" → NoSession v) →
  (∀ v, P v → name = k +:+ ".json" → allowed v) →
  (∀ v, P v → ∀ x, own = Some x → name ≠ lock_name (sl_paths x.2)) →
  (∀ v, P v → P' v) →
  (∀ v, P v → P' (MkView ((v_sys v) <| sys_entries ::= delete name |>) (v_sessions v))) →
  (∀ r, triple P' (next r) Q) →
  triple P (Perform (Unlinkat name) next) Q.
Proof.
  intros Hn HP Hlock Hjson Hown Hsame Hgone Hnext.
  apply (triple_perform _ _ _ _ _ _ _ P _ _ (λ _, P')); [|done].
  intros v ch r s' HI Hv He. cbn in He. unfold unless_refused in He.
  assert (advance own (Unlinkat name) r (v_sessions v) = v_sessions v) as ->.
  { cbn. destruct own as [x|] eqn:Hx; [|done]. destruct r; [|done]. case_decide; [|done].
    by destruct (Hown v Hv x). }
  destruct (quiet_step_ok uid tid k own allowed v (v_sys v) HI) as (HIv & Hgv & _); [by split|].
  assert (MkView (v_sys v) (v_sessions v) = v) as Hid by by destruct v. rewrite Hid in *.
  destruct (ch_errno ch); simplify_eq; [by rewrite Hid; auto|].
  destruct (sys_entries _ !! _) as [i|] eqn:Hent; simplify_eq; [|by rewrite Hid; auto].
  cut (Inv (MkView ((v_sys v) <| sys_entries := delete name (sys_entries (v_sys v)) |>) (v_sessions v)) ∧
       guar v (MkView ((v_sys v) <| sys_entries := delete name (sys_entries (v_sys v)) |>) (v_sessions v))).
  { intros [HI' Hg']. split; [exact HI'|]. split; [exact Hg'|]. by apply Hgone. }
  apply names_ok; try done; [by apply HP|..].
  - intros n. destruct (decide (n = name)) as [->|]; [by left|]. right. by rewrite lookup_delete_ne.
  - intros n j [Hne Hj]%lookup_delete_Some. left. by rewrite lookup_delete_ne.
  - apply HI.
  - by left.
  - intros x Hx Hk. destruct (decide (name = k +:+ ".lock")) as [Heq|Hne]; [|by rewrite lookup_delete_ne].
    by destruct (proj2 (Hlock v Hv Heq) x).
  - intros j f [_ Hj]%lookup_delete_Some Hf. by eapply (inv_descriptor _ _ HI).
  - destruct (decide (name = k +:+ ".json")) as [Heq|Hne]; [right; by apply Hjson|].
    left. by rewrite lookup_delete_ne.
Qed.

(** *** Temporary files *)

(** A file of the scope that is not published. *)
Definition Temp (name : string) (i : nat) (f : FileData) (v : View) : Prop :=
  Named name i f v ∧ entry v (k +:+ ".json") ≠ Some i ∧ entry v (k +:+ ".lock") ≠ Some i.
Definition temp_name (name : string) : Prop :=
  scope_name k name ∧ name ≠ k +:+ ".json" ∧ name ≠ k +:+ ".lock".

#[global] Instance stable_Temp name i f : Stable (Temp name i f).
Proof.
  intros v v' Hr (Hn & Hj & Hl). pose proof Hn as (Hh & _). split; [by eapply stable_Named|].
  rewrite !(rely_entry _ _ _ _ _ Hr); unfold scope_name; auto.
Qed.

Lemma temp_held name i f v : Temp name i f v → Held v.
Proof. by intros [[? _] _]. Qed.

Lemma quiet_same v : Inv v → ∀ P : View → Prop, P v →
  let v' := MkView (v_sys v) (v_sessions v) in Inv v' ∧ guar v v' ∧ P v'.
Proof.
  intros HI P HP. destruct (quiet_step_ok uid tid k own allowed v (v_sys v) HI) as (? & ? & _); [by split|].
  by destruct v.
Qed.

Lemma triple_create_temp name :
  temp_name name →
  triple Held (sys (OpenNew name)) (post Held (λ file v, ∃ i, file = Inode i ∧
    Temp name i (new_file uid umask name) v)).
Proof.
  intros (Hn & Hj & Hl). apply triple_sys; [apply _..|]. intros v ch r s' HI Hh He. cbn in He.
  unfold unless_refused in He. destruct (ch_errno ch); simplify_eq.
  { apply (quiet_same v HI (λ v, Held v ∧ True)). done. }
  destruct (sys_entries _ !! _) as [i|] eqn:Hent; simplify_eq.
  { apply (quiet_same v HI (λ v, Held v ∧ True)). done. }
  destruct (create_ok uid umask tid k Hkey own allowed v name HI Hent) as [HI' Hg]; [by right|].
  split; [exact HI'|]. split; [exact Hg|].
  assert (∀ n, entry v n ≠ Some (sys_next (v_sys v))) as Hfresh.
  { intros n Hn'. destruct (inv_bound _ _ HI _ _ Hn') as [f Hf]. apply (inv_next _ _ HI) in Hf. lia. }
  assert (Held (MkView (create_file uid umask name (v_sys v)) (v_sessions v))) as Hheld.
  { destruct Hh as (g & Hg1 & Hg2). exists g. split; [|done]. cbn. rewrite lookup_insert_ne; [done|].
    intros ->. by destruct (scope_name_guard k k (guard_of k)). }
  split; [exact Hheld|]. eexists. split; [done|]. split; [split; [exact Hheld|]|].
  - cbn. by rewrite !lookup_insert_eq.
  - cbn. rewrite !lookup_insert_ne by done. split; apply Hfresh.
Qed.

Lemma alter_temp v name i f g :
  Inv v → Temp name i f v → f_birth (g f) = f_birth f →
  let v' := MkView ((v_sys v) <| sys_inodes ::= alter g i |>) (v_sessions v) in
  Inv v' ∧ guar v v' ∧ Temp name i (g f) v'.
Proof.
  intros HI ((Hh & Hn & Hs & He & Hf) & Hj & Hl) Hb v'.
  destruct (alter_ok uid tid k Hkey own allowed v i f g HI Hf Hb) as [HI' Hg']; [right; by split_and!|].
  split; [exact HI'|]. split; [exact Hg'|]. split; [|by split]. split; [done|]. split; [done|].
  split; [by rewrite Hb|]. split; [done|]. cbn. by rewrite lookup_alter_eq, Hf.
Qed.

Lemma triple_chmod_temp name i f mode :
  triple (Temp name i f) (sys (Fchmod (Inode i) mode))
    (post Held (λ _, Temp name i (f <| f_mode := mode |>))).
Proof.
  apply triple_sys; [apply _..|]. intros v ch r s' HI Ht He. cbn in He. unfold unless_refused in He.
  destruct (ch_errno ch); simplify_eq.
  { apply (quiet_same v HI (λ v, Held v ∧ True)). split; [by eapply temp_held|done]. }
  destruct (alter_temp v name i f (λ f, f <| f_mode := mode |>) HI Ht) as (HI' & Hg & Ht'); [done|].
  split; [exact HI'|]. split; [exact Hg|]. split; [exact (temp_held _ _ _ _ Ht')|exact Ht'].
Qed.

Lemma triple_write_temp name i f bytes :
  triple (Temp name i f) (sys (WriteAll (Inode i) bytes))
    (post Held (λ _, Temp name i (f <| f_bytes := f_bytes f ++ bytes |>))).
Proof.
  apply triple_sys; [apply _..|]. intros v ch r s' HI Ht He. cbn in He.
  destruct (ch_errno ch); simplify_eq.
  - destruct (alter_temp v name i f (λ f, f <| f_bytes ::= λ old, old ++ take (ch_written ch) bytes |>) HI Ht)
      as (HI' & Hg & Ht'); [done|].
    split; [exact HI'|]. split; [exact Hg|]. split; [exact (temp_held _ _ _ _ Ht')|done].
  - destruct (alter_temp v name i f (λ f, f <| f_bytes ::= λ old, old ++ bytes |>) HI Ht)
      as (HI' & Hg & Ht'); [done|].
    split; [exact HI'|]. split; [exact Hg|]. split; [exact (temp_held _ _ _ _ Ht')|exact Ht'].
Qed.

Lemma triple_open_new_temp name :
  temp_name name →
  triple Held (open_new_private_at uid name) (post Held (λ file v, ∃ i, file = Inode i ∧
    ∃ f, Temp name i f v ∧ private_file uid f ∧ f_bytes f = [])).
Proof.
  intros Hn. unfold open_new_private_at. eapply triple_let; [by apply triple_create_temp|]. intros file.
  apply (triple_file Held (λ i v, Temp name i (new_file uid umask name) v) file (λ file,
    let* _ := sys (Fchmod file PRIVATE_FILE_MODE) in
    let* m := sys (Fstat file) in
    let* _ := lift (validate_private_metadata uid name m false) in prog_ret file)).
  intros i. apply (triple_pre _ _ _ _ _ _ _ (Temp name i (new_file uid umask name))); [by intros v _ [_ ?]|].
  eapply (triple_bind _ _ _ _ _ _ _ _ (λ _, Temp name i ((new_file uid umask name) <| f_mode := PRIVATE_FILE_MODE |>))).
  - eapply triple_post; [|apply triple_chmod_temp]. intros [a|e|m] v _ [Hh Ha]; [done|by split..].
  - intros _. eapply triple_post; [|eapply triple_reads, reads_checked_file; apply _].
    intros [a|e|m] v _ [Ht Ha]; (split; [by eapply temp_held|]); cbn in Ha; subst; try done.
    exists i. split; [done|]. eexists. by split.
Qed.

Lemma lock_temporary_temp paths n : key_of paths = k → temp_name (lock_temporary pid paths n).
Proof.
  intros Hk. split; [rewrite <-Hk; apply lock_temporary_scope_name|].
  unfold lock_temporary. fold (key_of paths). rewrite Hk. split; intros Heq; name_clash.
Qed.

Lemma descriptor_temporary_temp paths n : key_of paths = k → temp_name (descriptor_temporary pid paths n).
Proof.
  intros Hk. split; [rewrite <-Hk; apply descriptor_temporary_scope_name|].
  unfold descriptor_temporary. fold (key_of paths). rewrite Hk. split; intros Heq; name_clash.
Qed.

(** What removing another name leaves. *)
Lemma held_entries v es ss :
  (∀ name, scope_name k name ∨ es !! name = entry v name) → Held v →
  Held (MkView ((v_sys v) <| sys_entries := es |>) ss).
Proof.
  intros Hother (g & Hg & Hl). exists g. split; [|done]. cbn.
  destruct (Hother (guard_of k)) as [Hs|Heq]; [|by rewrite Heq].
  by destruct (scope_name_guard k k (guard_of k)).
Qed.

Lemma held_delete v name ss :
  scope_name k name → Held v → Held (MkView ((v_sys v) <| sys_entries ::= delete name |>) ss).
Proof.
  intros Hn. apply held_entries. intros n. destruct (decide (n = name)) as [->|]; [by left|].
  right. by rewrite lookup_delete_ne.
Qed.

Lemma named_delete v name n i f ss :
  scope_name k name → n ≠ name → Named n i f v →
  Named n i f (MkView ((v_sys v) <| sys_entries ::= delete name |>) ss).
Proof.
  intros Hs Hne (Hh & ? & ? & He & Hf). split; [by apply held_delete|]. split_and!; try done.
  cbn. by rewrite lookup_delete_ne.
Qed.

Lemma nosession_delete v name :
  scope_name k name → NoSession v →
  NoSession (MkView ((v_sys v) <| sys_entries ::= delete name |>) (v_sessions v)).
Proof. intros Hs [Hh Hno]. split; [by apply held_delete|done]. Qed.

(** ** Publishing the lock *)

(** The lock file of a session that is about to be handed out. *)
Definition Locked (record : LockRecord) (v : View) : Prop :=
  NoSession v ∧ ∃ i f, Named (k +:+ ".lock") i f v ∧ private_file uid f ∧
    lock_to_vec (lr_pid record, lr_nonce record) = Ok (f_bytes f).

#[global] Instance stable_Locked record : Stable (Locked record).
Proof.
  apply stable_and; [apply _|]. apply stable_exists; intros i. apply stable_exists; intros f.
  apply stable_and; apply _.
Qed.

Lemma locked_held record v : Locked record v → Held v.
Proof. by intros [[? _] _]. Qed.

Lemma locked_delete record v name :
  scope_name k name → name ≠ k +:+ ".lock" → Locked record v →
  Locked record (MkView ((v_sys v) <| sys_entries ::= delete name |>) (v_sessions v)).
Proof.
  intros Hs Hne [Hno (i & f & Hf & Hrest)]. split; [by apply nosession_delete|].
  exists i, f. split; [by apply named_delete|done].
Qed.

Lemma triple_link {E} temporary i f record (next : Result Errno () → Prog E ()) Q :
  private_file uid f → lock_to_vec (lr_pid record, lr_nonce record) = Ok (f_bytes f) →
  (∀ r, triple (match r with Ok _ => Locked record | Err _ => Held end) (next r) Q) →
  triple (Temp temporary i f) (Perform (Linkat temporary (k +:+ ".lock")) next) Q.
Proof.
  intros Hpriv Henc Hnext.
  apply (triple_perform _ _ _ _ _ _ _ (Temp temporary i f) _ _
    (λ r, match r with Ok _ => Locked record | Err _ => Held end)); [|done].
  intros v ch r s' HI Ht He. cbn in He. unfold unless_refused in He.
  destruct Ht as ((Hh & Hn & Hs & Hent & Hf) & Hj & Hl). rewrite Hent in He.
  destruct (ch_errno ch); simplify_eq; [by apply (quiet_same v HI Held)|].
  destruct (sys_entries _ !! (k +:+ ".lock")) as [j|] eqn:Hlock; simplify_eq;
    [by apply (quiet_same v HI Held)|].
  assert (∀ x, x ∈ v_sessions v → session_scope x ≠ k) as Hno.
  { intros [p l] Hx Hk. destruct (inv_session _ _ HI _ _ Hx) as (_ & _ & _ & j & f' & Hj' & _).
    unfold session_scope in Hk. cbn in Hk. rewrite Hk in Hj'. congruence. }
  set (es := <[k +:+ ".lock" := i]> (sys_entries (v_sys v))).
  assert (∀ name, scope_name k name ∨ es !! name = entry v name) as Hother.
  { intros n. destruct (decide (n = k +:+ ".lock")) as [->|]; [by left; right; left|].
    right. unfold es. by rewrite lookup_insert_ne. }
  assert (k +:+ ".lock" ≠ k +:+ ".json") as Hdiff
    by (intros Heq; by destruct (plain_inj k k _ _ Hkey Hkey Heq)).
  assert (Inv (MkView ((v_sys v) <| sys_entries := es |>) (v_sessions v)) ∧
          guar v (MkView ((v_sys v) <| sys_entries := es |>) (v_sessions v))) as [HI' Hg'].
  { apply names_ok; try done.
    - intros n j [[<- <-]|[Hne Hj']]%lookup_insert_Some; [right; eauto|].
      left. unfold es. by rewrite lookup_insert_ne.
    - apply HI.
    - by left.
    - intros x Hx Hk. by destruct (Hno x).
    - intros j f' Hj' Hf'. unfold es in Hj'. rewrite lookup_insert_ne in Hj' by done.
      by eapply (inv_descriptor _ _ HI).
    - left. unfold es. by rewrite lookup_insert_ne. }
  split; [exact HI'|]. split; [exact Hg'|].
  assert (Held (MkView ((v_sys v) <| sys_entries := es |>) (v_sessions v))) as Hh' by by apply held_entries.
  split; [by split|]. exists i, f. split; [|done]. split; [exact Hh'|]. split; [by right; left|].
  split_and!; try done. cbn. by rewrite lookup_insert_eq.
Qed.

(** Calls that only report. *)
Lemma triple_quiet_call {E A B} P `{!Stable P} (c : Call B) (next : B → Prog E A) Q :
  quiet_call c → (∀ answer, triple P (next answer) Q) → triple P (Perform c next) Q.
Proof.
  intros Hq Hnext. apply (triple_quiet _ _ _ _ _ _ _ P c _ (λ _ _, True)); [done|done|].
  intros answer. eapply triple_pre; [|apply Hnext]. by intros v _ [? _].
Qed.

Lemma triple_reads_keep {A} P `{!Stable P} φ (p : Prog RuntimeError A) :
  reads uid umask tid pid φ p → triple P p (post P (λ a _, φ a)).
Proof. intros. by apply triple_reads. Qed.

Section acquiring.
Context (Hown : own = None).

(** Removing a temporary keeps what does not depend on it. *)
Lemma triple_unlink_temp {E A} P `{!Stable P} name (next : Result Errno () → Prog E A) Q :
  temp_name name → (∀ v, P v → Held v) →
  (∀ v, P v → P (MkView ((v_sys v) <| sys_entries ::= delete name |>) (v_sessions v))) →
  (∀ r, triple P (next r) Q) → triple P (Perform (Unlinkat name) next) Q.
Proof.
  intros (Hn & Hj & Hl) HP Hkeep Hnext. apply (triple_unlink P P); try done.
  intros v _ x. by rewrite Hown.
Qed.

Lemma triple_publish_lock paths record temporary encoded i f :
  key_of paths = k → temp_name temporary → private_file uid f → f_bytes f = [] →
  lock_to_vec (lr_pid record, lr_nonce record) = Ok encoded →
  triple (Temp temporary i f) (publish_lock paths temporary encoded (Inode i))
    (post Held (λ _, Locked record)).
Proof.
  intros Hk Htemp Hpriv Hnil Henc. set (f' := f <| f_bytes := f_bytes f ++ encoded |>).
  assert (private_file uid f' ∧ f_bytes f' = encoded) as [Hpriv' Hbytes] by (cbn; by rewrite Hnil).
  unfold publish_lock.
  eapply (triple_case _ _ _ _ _ _ _ _ (post Held (λ _, Temp temporary i f')));
    [|intros u|intros e|by intros m v _ [? _]].
  - eapply (triple_bind _ _ _ _ _ _ _ _ (λ _, Temp temporary i f')).
    + eapply triple_post; [|apply triple_write_temp]. intros [a|e|m] v _ [? ?]; [done|by split..].
    + intros _. eapply triple_post; [|by eapply (triple_reads_keep (Temp temporary i f') (λ _, True)), reads_sys].
      intros [a|e|m] v _ [Ht _]; (split; [by eapply temp_held|done]).
  - apply (triple_pre _ _ _ _ _ _ _ (Temp temporary i f')); [by intros v _ [_ ?]|].
    assert (lock_name paths = k +:+ ".lock") as -> by by rewrite <-Hk.
    apply (triple_link temporary i f' record); [done|by rewrite Hbytes|]. intros [_|e].
    + apply triple_quiet_call; [apply _|done|]. intros _.
      apply triple_unlink_temp; [apply _|done|apply locked_held| |].
      { intros v. apply locked_delete; apply Htemp. }
      intros _. apply triple_quiet_call; [apply _|done|]. intros _.
      apply triple_return; [apply _|]. intros v _ Hl. split; [by eapply locked_held|done].
    + apply triple_unlink_temp; [apply _|done|done|intros v; apply held_delete, Htemp|].
      intros _. by apply triple_fail; [apply _|].
  - apply (triple_pre _ _ _ _ _ _ _ Held); [by intros v _ [? _]|].
    apply triple_unlink_temp; [apply _|done|done|intros v; apply held_delete, Htemp|].
    intros _. by apply triple_fail; [apply _|].
Qed.

Lemma triple_write_lock_create_at_name paths record temporary :
  key_of paths = k → temp_name temporary →
  triple Held (write_lock_create_at_name uid paths record temporary) (post Held (λ _, Locked record)).
Proof.
  intros Hk Htemp. unfold write_lock_create_at_name.
  destruct (lock_to_vec _) as [encoded|e] eqn:Henc; [|apply triple_fail; [apply _|done]].
  eapply triple_case; [by apply triple_open_new_temp|..]; [|intros e|by intros m v _ [? _]].
  - intros file. apply (triple_file Held (λ i v, ∃ f, Temp temporary i f v ∧ private_file uid f ∧
      f_bytes f = []) file). intros i v HI (_ & f & Ht & Hpriv & Hnil).
    by apply (triple_publish_lock paths record temporary encoded i f).
  - apply (triple_pre _ _ _ _ _ _ _ Held); [by intros v _ [? _]|].
    destruct e as [error| | | | | | | | | | | |]; try (apply triple_fail; [apply _|done]).
    destruct (is_already_exists error); apply triple_fail; try apply _; done.
Qed.

Lemma triple_write_lock_create attempts paths record :
  key_of paths = k →
  triple Held (write_lock_create uid pid attempts paths record) (post Held (λ _, Locked record)).
Proof.
  intros Hk. induction attempts as [|attempts IH]; cbn [write_lock_create].
  { apply triple_fail; [apply _|done]. }
  eapply (triple_let _ _ _ _ _ _ _ Held (λ _ _, True)).
  { apply triple_reads_keep; [apply _|]. by apply reads_call. }
  intros nonce. apply (triple_pre _ _ _ _ _ _ _ Held); [by intros v _ [? _]|].
  eapply triple_case; [apply triple_write_lock_create_at_name; [done|by apply lock_temporary_temp]|..].
  - intros []. apply triple_return; [apply _|]. by intros v _ [? ?].
  - intros e. apply (triple_pre _ _ _ _ _ _ _ Held); [by intros v _ [? _]|].
    destruct e; [done|]. by apply triple_fail; [apply _|].
  - by intros m v _ [? _].
Qed.

(** *** Acquiring *)

Lemma triple_remove_descriptor_at P P' `{!Stable P} `{!Stable P'} paths :
  key_of paths = k → (∀ v, P v → Held v) → (∀ v, P v → allowed v) → (∀ v, P v → P' v) →
  (∀ v, P v → P' (MkView ((v_sys v) <| sys_entries ::= delete (k +:+ ".json") |>) (v_sessions v))) →
  triple P (remove_descriptor_at paths) (post P' (λ _ _, True)).
Proof.
  intros Hk Hheld Hallowed Hsame Hgone. unfold remove_descriptor_at.
  assert (descriptor_name paths = k +:+ ".json") as -> by by rewrite <-Hk.
  apply (triple_unlink P P'); try done.
  - by left.
  - intros v _ Heq. by destruct (plain_inj k k _ _ Hkey Hkey Heq).
  - by auto.
  - intros v _ x. by rewrite Hown.
  - intros [u|e]; [by eapply (triple_reads_keep P' (λ _, True)), reads_sys|].
    destruct e; try (apply triple_fail; [apply _|done]). by apply triple_ret; [apply _|].
Qed.

(** A lock whose process is gone is the lock of no session. *)
Lemma stale_no_session v paths f p n :
  Inv v → key_of paths = k → Reads (lock_name paths) f v → lock_from_slice (f_bytes f) = Ok (p, n) →
  sys_nonces (v_sys v) !! p = None → NoSession v.
Proof.
  intros HI Hk (i & Hh & _ & _ & Hent & Hf) Hrec Hdead. split; [done|]. intros [q l] Hx Hscope.
  destruct (inv_session _ _ HI _ _ Hx) as (_ & Halive & Hpid & j & f' & Hent' & Hf' & _ & Henc).
  unfold session_scope in Hscope. cbn in Hscope. rewrite Hscope in Hent'.
  assert (lock_name paths = k +:+ ".lock") as Hn by by rewrite <-Hk.
  rewrite Hn, Hent' in Hent. simplify_eq. apply lock_round_trip in Henc. rewrite Hrec in Henc.
  simplify_eq. rewrite Hdead in Halive. by destruct Halive.
Qed.

Lemma triple_process_is_alive P `{!Stable P} paths stale :
  key_of paths = k →
  (∀ v, P v → ∃ f, Reads (lock_name paths) f v ∧
     lock_from_slice (f_bytes f) = Ok (lr_pid stale, lr_nonce stale)) →
  triple P (process_is_alive (lr_pid stale))
    (post P (λ alive v, alive = false → NoSession v)).
Proof.
  intros Hk HP. unfold process_is_alive.
  destruct (platform_pid _) as [p|] eqn:Hp; [|by apply triple_ret; [apply _|]].
  assert (p = lr_pid stale) as -> by (unfold platform_pid in Hp; case_match; congruence).
  apply (triple_quiet _ _ _ _ _ _ _ P _ _ (λ answer v, answer = Err SRCH → NoSession v)); [done|..].
  - intros v ch answer s' HI Hv He Hans. cbn in He.
    assert (s' = v_sys v ∧ sys_nonces (v_sys v) !! lr_pid stale = None) as [-> Hdead].
    { repeat case_match; simplify_eq; split; try done. by apply eq_None_not_Some. }
    destruct (HP v Hv) as (f & Hf & Hrec). eapply stale_no_session; [|exact Hk| |exact Hrec|exact Hdead];
      by destruct v.
  - intros answer. apply triple_return; [apply _|]. intros v _ [HPv Hno]. split; [done|].
    destruct answer as [u|e]; [done|]. destruct e; try done. auto.
Qed.

(** *** Publishing a descriptor *)

Lemma reads_lift_then {A B} ψ (o : Outcome RuntimeError A) (next : A → Prog RuntimeError B) :
  (∀ a, o = Done a → reads uid umask tid pid ψ (next a)) →
  reads uid umask tid pid ψ (prog_bind (lift o) next).
Proof. intros Hnext. destruct o; [by apply Hnext|done..]. Qed.

Lemma check_created_positive d now : check_created d now = Done tt → (0 < rdesc_created_unix_ms d)%Z.
Proof.
  unfold check_created. intros (_ & _ & Hrun)%out_bind_Done. apply out_bind_Done in Hrun as (_ & _ & Hrun).
  destruct (Z.leb_spec (rdesc_created_unix_ms d) 0); [done|lia].
Qed.

(** A descriptor that was validated is fit to be published. *)
Lemma reads_validated paths d :
  key_of paths = k → reads uid umask tid pid (λ _, approved k d) (validate_descriptor paths d).
Proof.
  intros Hk. unfold validate_descriptor. apply reads_lift_then. intros [] Hcheck.
  apply (reads_bind _ _ _ _ (λ _, True)); [by apply reads_call|]. intros canonical _.
  apply reads_lift_then. intros ? _. apply reads_lift_then. intros ? _.
  apply (reads_bind _ _ _ _ (λ _, True)); [by apply reads_call|]. intros m _.
  apply reads_lift_then. intros [is_file mode] _. apply reads_lift_then. intros ? _.
  apply (reads_bind _ _ _ _ (λ _, True)); [case_match; [done|by apply reads_call]|]. intros executable _.
  apply reads_lift_then. intros ? _. apply reads_lift_then. intros [] Hpid%reject_if_Done%negb_false_iff.
  apply (reads_bind _ _ _ _ (λ _, True)); [by apply reads_call|]. intros now _.
  destruct (check_created d now) as [[]|e|msg] eqn:Hcreated; [|done..].
  split; [by exists paths|]. split; [|by eapply check_created_positive].
  destruct (platform_pid _); [by eexists|done].
Qed.

Lemma triple_rename temporary i f :
  temp_name temporary → complete_descriptor uid k f → (∀ v, allowed v) →
  triple (Temp temporary i f) (sys (Renameat temporary (k +:+ ".json"))) (post Held (λ _ _, True)).
Proof.
  clear Hown. intros (Hs & Hj & Hl) Hcomplete Hallowed. apply triple_sys; [apply _..|].
  intros v ch r s' HI ((Hh & _ & Hb & Hent & Hf) & Hnj & Hnl) He. cbn in He. unfold unless_refused in He.
  rewrite Hent in He. destruct (ch_errno ch); simplify_eq; [by apply (quiet_same v HI (λ v, Held v ∧ True))|].
  case_decide; simplify_eq.
  set (es := <[k +:+ ".json" := i]> (delete temporary (sys_entries (v_sys v)))).
  assert (∀ name, scope_name k name ∨ es !! name = entry v name) as Hother.
  { intros n. destruct (decide (n = k +:+ ".json")) as [->|]; [by left; left|].
    destruct (decide (n = temporary)) as [->|]; [by left|]. right. unfold es.
    by rewrite lookup_insert_ne, lookup_delete_ne. }
  assert (Inv (MkView ((v_sys v) <| sys_entries := es |>) (v_sessions v)) ∧
          guar v (MkView ((v_sys v) <| sys_entries := es |>) (v_sessions v))) as [HI' Hg'].
  { apply names_ok; try done.
    - intros n j [[<- <-]|[Hne [Hne' Hj']%lookup_delete_Some]]%lookup_insert_Some; [right; eauto|].
      left. unfold es. by rewrite lookup_insert_ne, lookup_delete_ne.
    - apply HI.
    - by left.
    - intros x _ _. unfold es. rewrite lookup_insert_ne, lookup_delete_ne; try done.
      intros Heq. by destruct (plain_inj k k _ _ Hkey Hkey Heq).
    - intros j f'. unfold es. rewrite lookup_insert_eq. intros [= <-] ?. by simplify_eq.
    - by right. }
  split; [exact HI'|]. split; [exact Hg'|]. split; [by apply held_entries|done].
Qed.

Lemma triple_publish_descriptor paths temporary d encoded :
  key_of paths = k → temp_name temporary → (∀ v, allowed v) → approved k d →
  descriptor_to_vec d = Ok encoded → (length encoded ≤ MAX_DESCRIPTOR_BYTES)%nat →
  triple Held (publish_descriptor uid paths temporary encoded) (post Held (λ _ _, True)).
Proof.
  intros Hk Htemp Hallowed Happ Henc Hlen. unfold publish_descriptor.
  assert (descriptor_name paths = k +:+ ".json") as -> by by rewrite <-Hk.
  apply (triple_let _ _ _ _ _ _ _ Held (λ _ _, True)).
  - eapply (triple_case _ _ _ _ _ _ _ _ (post Held (λ _ _, True))).
    + eapply (triple_let _ _ _ _ _ _ _ Held); [by apply triple_open_new_temp|]. intros file.
      apply (triple_file Held (λ i v, ∃ f, Temp temporary i f v ∧ private_file uid f ∧ f_bytes f = []) file
        (λ file, let* _ := sys (WriteAll file encoded) in
           let* _ := sys (SyncAll file) in sys (Renameat temporary (k +:+ ".json")))).
      intros i v HI (_ & f & Ht & Hpriv & Hnil). revert v HI Ht.
      set (f' := f <| f_bytes := f_bytes f ++ encoded |>).
      assert (complete_descriptor uid k f') as Hcomplete.
      { assert (f_bytes f' = encoded) as Hb by (cbn; by rewrite Hnil).
        split; [done|]. rewrite Hb. split; [done|]. by exists d. }
      eapply (triple_bind _ _ _ _ _ _ _ _ (λ _, Temp temporary i f')).
      { eapply triple_post; [|apply triple_write_temp]. intros [a|e|m] v _ [? ?]; [done|by split..]. }
      intros _. eapply (triple_bind _ _ _ _ _ _ _ _ (λ _, Temp temporary i f')).
      { eapply triple_post; [|by eapply (triple_reads_keep (Temp temporary i f') (λ _, True)), reads_sys].
        intros [a|e|m] v _ [Ht _]; [done|split; [by eapply temp_held|done]..]. }
      intros _. by apply triple_rename.
    + intros []. apply triple_return; [apply _|]. by intros v _ [? _].
    + intros e. apply triple_fail; [apply _|]. by intros v _ [? _].
    + by intros m v _ [? _].
  - intros []. eapply (triple_case _ _ _ _ _ _ _ _ (post Held (λ _ _, True))).
    + eapply triple_pre; [|by eapply (triple_reads_keep Held (λ _, True)), reads_sys]. by intros v _ [? _].
    + intros []. apply triple_return; [apply _|]. by intros v _ [? _].
    + intros e. apply triple_fail; [apply _|]. by intros v _ [? _].
    + by intros m v _ [? _].
Qed.

Lemma triple_remove_if_instance_at paths id :
  key_of paths = k →
  (∀ v f d, Reads (descriptor_name paths) f v → descriptor_from_slice (f_bytes f) = Ok d →
     rdesc_broker_instance_id d = id → allowed v) →
  triple Held (remove_descriptor_if_instance_at uid paths id) (post Held (λ _ _, True)).
Proof.
  intros Hk Hallowed. unfold remove_descriptor_if_instance_at.
  set (Match v := ∃ f d, Reads (descriptor_name paths) f v ∧ descriptor_from_slice (f_bytes f) = Ok d ∧
    rdesc_broker_instance_id d = id).
  assert (Stable Match) by (do 2 (apply stable_exists; intros ?); apply _).
  assert (∀ v, Match v → Held v) as Hheld by by intros v (f & d & (i & ? & _) & _).
  eapply (triple_let _ _ _ _ _ _ _ Held (λ matching v, matching = true → Match v)).
  - eapply triple_case; [apply (triple_read_descriptor_at Held paths Hk); auto|..].
    + intros d. apply triple_return; [apply _|]. intros v _ [Hh (f & Hf & Hd)]. split; [done|].
      intros Heq%String.eqb_eq. by exists f, d.
    + intros e. apply triple_return; [apply _|]. by intros v _ [? _].
    + by intros m v _ [? _].
  - intros [|]; [|apply triple_return; [apply _|]; by intros v _ [? _]].
    apply (triple_pre _ _ _ _ _ _ _ Match); [intros v _ [_ HM]; by apply HM|].
    eapply (triple_bind _ _ _ _ _ _ _ _ (λ _, Held)).
    + eapply triple_post; [|apply (triple_remove_descriptor_at Match Held); try done].
      * intros [a|e|m] v _ [? _]; [done|by split..].
      * intros v (f & d & Hf & Hd & Hid). by eapply Hallowed.
      * intros v Hm%Hheld. by apply held_delete; [left|].
    + intros _. by apply triple_ret; [apply _|].
Qed.

Context (Hacquiring : ∀ v, NoSession v → allowed v).

Definition Acquired (paths : RuntimePaths) (record : LockRecord) (lock : SessionLock) (v : View) : Prop :=
  lock = MkSessionLock paths record ∧ Locked record v.

(** The lock is published: the descriptor of an older broker goes, or the lock does. *)
Lemma triple_acquired paths record :
  key_of paths = k →
  triple (Locked record)
    (prog_case (λ _, prog_ret (Some (MkSessionLock paths record)))
       (λ error,
         let* _ := ignore_call (Unlinkat (lock_name paths)) in
         let* _ := ignore_call (SyncAll RootHandle) in
         Return (Fail error))
       (remove_descriptor_at paths))
    (post Held (λ o v, ∀ lock, o = Some lock → Acquired paths record lock v)).
Proof.
  intros Hk. assert (lock_name paths = k +:+ ".lock") as -> by by rewrite <-Hk.
  assert (k +:+ ".json" ≠ k +:+ ".lock") as Hne by (intros Heq; by destruct (plain_inj k k _ _ Hkey Hkey Heq)).
  eapply triple_case; [apply (triple_remove_descriptor_at (Locked record) (Locked record)); try done|..].
  - apply locked_held.
  - intros v [? _]. by apply Hacquiring.
  - intros v. apply locked_delete; [by left|done].
  - intros []. apply triple_return; [apply _|]. intros v _ [Hl _]. split; [by eapply locked_held|].
    by intros lock [= <-].
  - intros e. apply (triple_pre _ _ _ _ _ _ _ (Locked record)); [by intros v _ [? _]|].
    apply (triple_unlink (Locked record) Held).
    + by right; left.
    + apply locked_held.
    + by intros v [? _].
    + intros v _ Heq. by destruct Hne.
    + intros v _ x. by rewrite Hown.
    + apply locked_held.
    + intros v Hl%locked_held. by apply held_delete; [right; left|].
    + intros _. apply triple_quiet_call; [apply _|done|]. intros _. by apply triple_fail; [apply _|].
  - intros m v _ [Hl _]. split; [by eapply locked_held|done].
Qed.

(** The lock of a process that is gone, with a descriptor that is not healthy, is removed. *)
Lemma triple_remove_stale paths :
  key_of paths = k →
  triple NoSession
    (let* _ := remove_descriptor_at paths in
     let* _ := sys (Unlinkat (lock_name paths)) in
     let* _ := sync_directory in
     prog_ret (None : option SessionLock)) (post Held (λ o _, o = None)).
Proof.
  intros Hk. assert (lock_name paths = k +:+ ".lock") as -> by by rewrite <-Hk.
  eapply (triple_bind _ _ _ _ _ _ _ _ (λ _, NoSession)).
  { eapply triple_post; [|apply (triple_remove_descriptor_at NoSession NoSession); try done].
    - intros [a|e|m] v _ [Hno _]; [done|split; [by destruct Hno|done]..].
    - by intros v [? _].
    - intros v. apply nosession_delete. by left. }
  intros _. apply (triple_unlink NoSession Held).
  - by right; left.
  - by intros v [? _].
  - done.
  - intros v _ Heq. by destruct (plain_inj k k _ _ Hkey Hkey Heq).
  - intros v _ x. by rewrite Hown.
  - by intros v [? _].
  - intros v [Hh _]. by apply held_delete; [right; left|].
  - intros [u|e]; [|by apply triple_fail; [apply _|]].
    eapply (triple_reads_keep Held (λ o, o = None)). apply (reads_bind _ _ _ _ (λ _, True)); [by apply reads_sys|].
    by intros _ _.
Qed.

Lemma triple_stale_lock paths :
  key_of paths = k →
  triple Held
    (let* stale := read_lock uid paths in
     let* alive := process_is_alive (lr_pid stale) in
     if alive : bool then Return (Fail (SessionAlreadyOwned (lr_pid stale))) else
     let* healthy := prog_case (λ d, call (ProbeHealth d)) (λ _, prog_ret false) (read_descriptor_at uid paths) in
     if healthy : bool then Return (Fail (SessionAlreadyOwned (lr_pid stale))) else
     let* again := read_lock uid paths in
     if decide (again = stale) then
       let* _ := remove_descriptor_at paths in
       let* _ := sys (Unlinkat (lock_name paths)) in
       let* _ := sync_directory in
       prog_ret None
     else prog_ret None) (post Held (λ (o : option SessionLock) _, o = None)).
Proof.
  intros Hk. eapply (triple_let _ _ _ _ _ _ _ Held); [apply (triple_read_lock Held paths Hk); auto|]. intros stale.
  eapply (triple_bind _ _ _ _ _ _ _ _ (λ alive v, Held v ∧ (alive = false → NoSession v))).
  { eapply triple_post; [|apply (triple_process_is_alive _ paths stale Hk); by intros v [_ ?]].
    intros [a|e|m] v _ [[Hh _] Ha]; split; try done. }
  intros [|]; [apply triple_fail; [apply _|by intros v _ [? _]]|].
  apply (triple_pre _ _ _ _ _ _ _ NoSession); [intros v _ [_ Hno]; by apply Hno|].
  eapply (triple_bind _ _ _ _ _ _ _ _ (λ _, NoSession)).
  { eapply triple_post; [|eapply (triple_reads_keep NoSession (λ _, True))].
    - intros [a|e|m] v _ [[? ?] _]; by repeat split.
    - apply (reads_case _ _ _ _ (λ _, True)); [apply reads_read_descriptor_at|..]; [|done].
      intros d _. by apply reads_call. }
  intros [|]; [apply triple_fail; [apply _|by intros v _ [? _]]|].
  eapply (triple_bind _ _ _ _ _ _ _ _ (λ _, NoSession)).
  { eapply triple_post; [|apply (triple_read_lock NoSession _ Hk); by intros v [? _]].
    intros [a|e|m] v _ [[? ?] _]; by repeat split. }
  intros again. case_decide; [by apply triple_remove_stale|].
  apply triple_return; [apply _|]. by intros v _ [? _].
Qed.

Lemma triple_acquire_turn paths record :
  key_of paths = k →
  triple Held (acquire_turn uid pid paths record)
    (post Held (λ o v, ∀ lock, o = Some lock → Acquired paths record lock v)).
Proof.
  intros Hk. unfold acquire_turn.
  eapply triple_case; [by apply triple_write_lock_create|..].
  - intros []. eapply triple_pre; [|by apply triple_acquired]. by intros v _ [_ ?].
  - intros e. apply (triple_pre _ _ _ _ _ _ _ Held); [by intros v _ [? _]|].
    destruct e as [error| | | | | | | | | | | |]; try (apply triple_fail; [apply _|done]).
    destruct (is_already_exists error); [|apply triple_fail; [apply _|done]].
    eapply triple_post; [|by apply triple_stale_lock]. intros [o|e|m] v _ [Hh Ho]; split; try done.
    cbn in Ho. by subst.
  - by intros m v _ [? _].
Qed.

Lemma triple_acquire_turns turns paths record :
  key_of paths = k →
  triple Held (acquire_turns uid pid turns paths record) (post Held (Acquired paths record)).
Proof.
  intros Hk. induction turns as [|turns IH]; cbn [acquire_turns].
  { apply triple_fail; [apply _|done]. }
  eapply (triple_let _ _ _ _ _ _ _ Held); [by apply triple_acquire_turn|]. intros [lock|].
  - intros v HI [Hh Ha] v' Hr HI'. destruct (Ha lock eq_refl) as [-> Hl].
    pose proof (stable_Locked _ _ _ Hr Hl) as Hl'. split; [by eapply locked_held|done].
  - eapply triple_pre; [|exact IH]. by intros v _ [? _].
Qed.

(** The first steps of every operation: the checks, the root and the guard. *)
Lemma triple_enter paths blocking {A} (next : Prog RuntimeError A) Q :
  key_of paths = k → (∀ e v, Q (Fail e) v) → (∀ m v, Q (Panic m) v) → triple Held next Q →
  triple (λ _, True)
    (let* _ := open_private_root uid (rp_root paths) in
     let* _ := acquire_transition_guard_with uid paths blocking in next) Q.
Proof.
  intros Hk Hf Hm Hnext. eapply (triple_bind _ _ _ _ _ _ _ _ (λ _ _, True)).
  { eapply triple_post; [|eapply (triple_reads_keep (λ _, True) (λ _, True)), reads_open_private_root].
    by intros [a|e|m] v _ _. }
  intros _. eapply (triple_bind _ _ _ _ _ _ _ _ (λ _, Held)); [|by intros _].
  eapply triple_post; [|by apply (triple_guard (λ _, True))]. by intros [a|e|m] v _ [_ ?].
Qed.

Lemma triple_checked {A B} (o : Outcome RuntimeError A) (next : A → Prog RuntimeError B) Q :
  (∀ e v, Q (Fail e) v) → (∀ m v, Q (Panic m) v) →
  (∀ a, o = Done a → triple (λ _, True) (next a) Q) →
  triple (λ _, True) (prog_bind (lift o) next) Q.
Proof.
  intros Hf Hm Hnext. destruct o as [a|e|m]; [by apply Hnext|..]; apply triple_return; try apply _; auto.
Qed.

Lemma triple_acquire paths broker_pid :
  key_of paths = k →
  triple (λ _, True) (acquire uid pid paths broker_pid)
    (λ o v, match o with
            | Done lock => sl_paths lock = paths ∧ lr_pid (sl_record lock) = broker_pid ∧
                Locked (sl_record lock) v
            | _ => True
            end).
Proof.
  intros Hk. unfold acquire. apply triple_checked; [done..|]. intros _ _.
  apply triple_checked; [done..|]. intros _ _.
  apply triple_enter; [done..|].
  eapply (triple_bind _ _ _ _ _ _ _ _ (λ _, Held)).
  { eapply triple_post; [|eapply (triple_reads_keep Held (λ _, True)); by apply reads_call].
    by intros [a|e|m] v _ [? _]. }
  intros nonce. eapply triple_post; [|by apply triple_acquire_turns].
  intros [lock|e|m] v _ [_ Ha]; try done. by destruct Ha as [-> ?].
Qed.

(** *** Descriptors *)

Lemma triple_write_descriptor paths d :
  key_of paths = k → (∀ v, allowed v) →
  triple (λ _, True) (write_descriptor uid pid paths d) (λ _ _, True).
Proof.
  intros Hk Hallowed. unfold write_descriptor. apply triple_checked; [done..|]. intros _ _.
  apply triple_enter; [done..|].
  apply (triple_post _ _ _ _ _ _ _ _ _ (post Held (λ _ _, True))); [done|].
  apply (triple_let _ _ _ _ _ _ _ Held (λ _ _, approved k d)).
  { apply triple_reads; [apply _|]. by apply reads_validated. }
  intros _ v HI [Hh Happ]. revert v HI Hh.
  apply (triple_lift_then _ _ _ _ _ _ _ Held Held (λ _ _, True)); [apply _|by auto|].
  intros encoded Henc%map_error_Done.
  assert (descriptor_to_vec d = Ok encoded) as Hvec by (destruct (descriptor_to_vec d); by simplify_eq/=).
  apply (triple_lift_then _ _ _ _ _ _ _ Held Held (λ _ _, True)); [apply _|by auto|].
  intros _ Hlen%reject_if_Done%Nat.ltb_ge.
  eapply (triple_let _ _ _ _ _ _ _ Held (λ _ _, True)).
  { apply triple_reads_keep; [apply _|]. by apply reads_call. }
  intros nonce. apply (triple_pre _ _ _ _ _ _ _ Held); [by intros v _ [? _]|].
  pose proof (descriptor_temporary_temp paths nonce Hk) as Htemp.
  eapply triple_case; [by eapply (triple_publish_descriptor paths _ d encoded)|..].
  - intros []. apply triple_return; [apply _|]. by intros v _ [? _].
  - intros [error renamed]. apply (triple_pre _ _ _ _ _ _ _ Held); [by intros v _ [? _]|].
    apply triple_unlink_temp; [apply _|done|done|intros v; apply held_delete, Htemp|]. intros _.
    apply (triple_let _ _ _ _ _ _ _ Held (λ _ _, True)).
    + destruct renamed; [|by apply triple_ret; [apply _|]].
      eapply triple_case; [apply triple_remove_if_instance_at; by auto|..].
      * intros ?. apply triple_return; [apply _|]. by intros v _ [? _].
      * intros e. apply triple_return; [apply _|]. by intros v _ [? _].
      * by intros m v _ [? _].
    + intros _. apply triple_fail; [apply _|]. by intros v _ [? _].
  - by intros m v _ [? _].
Qed.

Lemma triple_remove_descriptor paths :
  key_of paths = k → (∀ v, allowed v) →
  triple (λ _, True) (remove_descriptor uid paths) (λ _ _, True).
Proof.
  intros Hk Hallowed. unfold remove_descriptor. apply triple_checked; [done..|]. intros _ _.
  apply triple_enter; [done..|].
  eapply triple_post; [|apply (triple_remove_descriptor_at Held Held); try done]; [done|].
  intros v. by apply held_delete; left.
Qed.

Lemma triple_remove_descriptor_if_instance paths id :
  key_of paths = k →
  (∀ v f d, Reads (descriptor_name paths) f v → descriptor_from_slice (f_bytes f) = Ok d →
     rdesc_broker_instance_id d = id → allowed v) →
  triple (λ _, True) (remove_descriptor_if_instance uid paths id) (λ _ _, True).
Proof.
  intros Hk Hallowed. unfold remove_descriptor_if_instance. apply triple_checked; [done..|]. intros _ _.
  apply triple_enter; [done..|].
  eapply triple_post; [|by apply triple_remove_if_instance_at]. done.
Qed.
End acquiring.

(** ** Releasing *)

Section releasing.
Context (lock : SessionLock) (Hown : own = Some (pid, lock)) (Hlock : key_of (sl_paths lock) = k).

Lemma triple_unlink_own {E A} (next : Result Errno () → Prog E A) Q :
  (∀ r, triple Held (next r) Q) →
  triple (λ v, Owns v ∧ Held v) (Perform (Unlinkat (lock_name (sl_paths lock))) next) Q.
Proof.
  intros Hnext. assert (lock_name (sl_paths lock) = k +:+ ".lock") as Hname by by rewrite <-Hlock.
  apply (triple_perform _ _ _ _ _ _ _ (λ v, Owns v ∧ Held v) _ _ (λ _, Held)); [|done].
  intros v ch r s' HI [Ho Hh] He. specialize (Ho _ Hown). cbn in He. unfold unless_refused in He.
  assert (∀ e, advance own (Unlinkat (lock_name (sl_paths lock))) (Err e) (v_sessions v) = v_sessions v) as Herr.
  { intros e. cbn. by destruct own. }
  destruct (ch_errno ch) as [e|]; [injection He as <- <-; rewrite Herr; by apply (quiet_same v HI Held)|].
  destruct (sys_entries _ !! _) as [i|] eqn:Hent; injection He as <- <-;
    [|rewrite Herr; by apply (quiet_same v HI Held)].
  set (ss := filter (λ y, y ≠ (pid, lock)) (v_sessions v)).
  assert (advance own (Unlinkat (lock_name (sl_paths lock))) (Ok ()) (v_sessions v) = ss) as ->.
  { rewrite Hown. cbn. by rewrite decide_True. }
  rewrite Hname. assert (scope_name k (k +:+ ".lock")) as Hs by by right; left.
  assert (∀ y, y ∈ ss → y ∈ v_sessions v ∧ session_scope y ≠ k) as Hss.
  { intros y [Hne Hy]%list_elem_of_filter. split; [done|]. intros Hk. apply Hne.
    eapply (same_scope_session _ v); try done. by rewrite Hk, <-Hlock. }
  set (es := delete (k +:+ ".lock") (sys_entries (v_sys v))).
  assert (Inv (MkView ((v_sys v) <| sys_entries := es |>) ss) ∧
          guar v (MkView ((v_sys v) <| sys_entries := es |>) ss)) as [HI' Hg'].
  { apply names_ok; try done.
    - intros n. destruct (decide (n = k +:+ ".lock")) as [->|]; [by left|]. right.
      unfold es. by rewrite lookup_delete_ne.
    - intros n j [Hne Hj]%lookup_delete_Some. left. unfold es. by rewrite lookup_delete_ne.
    - intros y Hy. by apply Hss.
    - eapply sublist_NoDup; [apply (inv_exclusive _ _ HI)|].
      apply fmap_sublist, sublist_filter.
    - intros y Hy. destruct (decide (y = (pid, lock))) as [->|Hne]; [by right|]. left.
      by apply list_elem_of_filter.
    - intros y Hy Hk. by destruct (Hss y Hy).
    - intros j f [_ Hj]%lookup_delete_Some. by apply (inv_descriptor _ _ HI).
    - left. unfold es. rewrite lookup_delete_ne; [done|]. intros Heq.
      by destruct (plain_inj k k _ _ Hkey Hkey Heq). }
  split; [exact HI'|]. split; [exact Hg'|]. by apply held_delete.
Qed.

Lemma triple_remove_if_owned :
  triple (λ v, Owns v ∧ Held v) (remove_if_owned uid lock) (λ _ _, True).
Proof.
  unfold remove_if_owned. eapply (triple_bind _ _ _ _ _ _ _ _ (λ _ v, Owns v ∧ Held v)).
  - eapply triple_post; [|eapply (triple_reads_keep (λ v, Owns v ∧ Held v) (λ _, True))].
    + by intros [a|e|m] v _ [? _].
    + apply (reads_case _ _ _ _ (λ _, True)); [|done..]. apply reads_read_lock.
  - intros [|]; [|by apply triple_return; [apply _|]].
    apply triple_unlink_own. intros [u|e]; [|by apply triple_return; [apply _|]].
    eapply triple_post; [|by eapply (triple_reads_keep Held (λ _, True)), reads_sys]. done.
Qed.

Lemma triple_release_nonblocking :
  triple Owns (release_nonblocking uid lock) (λ _ _, True).
Proof.
  unfold release_nonblocking. eapply (triple_bind _ _ _ _ _ _ _ _ (λ _ v, Owns v ∧ Held v)).
  - eapply triple_post; [|by apply (triple_guard Owns)]. by intros [a|e|m] v _ [? ?].
  - intros _. apply triple_remove_if_owned.
Qed.

Lemma triple_drop_lock :
  triple Owns (drop_lock uid lock) (λ _ _, True).
Proof.
  unfold drop_lock. eapply triple_case; [by apply (triple_guard Owns)|..].
  - intros []. eapply triple_case; [apply triple_remove_if_owned|..]; [|done..].
    intros ?. by apply triple_return; [apply _|].
  - intros e. apply (triple_pre _ _ _ _ _ _ _ (λ _, True)); [done|]. by apply triple_return; [apply _|].
  - done.
Qed.
End releasing.
End programs.
