(* ===== verification/RuntimeTheorems.v ===== *)
(** * Sessions and descriptors are safe

    The processes of a user on one runtime root.  A process has threads; a thread runs
    one operation of [runtime.rs] at a time, call by call, beside all the others; a
    process may be killed between any two calls.  In every world that is reached this
    way a scope has at most one session, its lock file says whose, and its descriptor is
    complete and goes only at the hands of those who may remove it. *)
From stdpp Require Import prelude gmap strings.
From S2P Require Import Prelude RustStd CliText Model Ledger Api Generation Recovery Runtime RuntimeFiles RuntimeLogic RuntimeRules RuntimePrograms.

Inductive Operation :=
| OpAcquire (paths : RuntimePaths)
| OpRelease (lock : SessionLock)
| OpDrop (lock : SessionLock)
| OpWrite (paths : RuntimePaths) (descriptor : RuntimeDescriptor)
| OpRemove (paths : RuntimePaths)
| OpRemoveInstance (paths : RuntimePaths) (broker_instance_id : string)
| OpRead (paths : RuntimePaths).

Inductive Reply := Locks (lock : SessionLock) | Finished | Removed (removed : bool)
| Found (descriptor : RuntimeDescriptor).

Definition paths_of (op : Operation) : RuntimePaths :=
  match op with
  | OpAcquire paths | OpWrite paths _ | OpRemove paths | OpRemoveInstance paths _ | OpRead paths => paths
  | OpRelease lock | OpDrop lock => sl_paths lock
  end.

(** The session an operation gives up. *)
Definition own_of (pid : Z) (op : Operation) : option (Z * SessionLock) :=
  match op with OpRelease lock | OpDrop lock => Some (pid, lock) | _ => None end.

Section world.
Context {serde : RuntimeSerde} {crypto : ApiCrypto} {spec : RuntimeSerdeSpec} (uid umask : Z).

Definition reply {A} (f : A → Reply) (p : Prog RuntimeError A) : Prog RuntimeError Reply :=
  let* a := p in prog_ret (f a).

(** [run_broker] acquires for its own process. *)
Definition program_of (pid : Z) (op : Operation) : Prog RuntimeError Reply :=
  match op with
  | OpAcquire paths => reply Locks (acquire uid pid paths pid)
  | OpRelease lock => reply (λ _, Finished) (release_nonblocking uid lock)
  | OpDrop lock => reply (λ _, Finished) (drop_lock uid lock)
  | OpWrite paths descriptor => reply (λ _, Finished) (write_descriptor uid pid paths descriptor)
  | OpRemove paths => reply (λ _, Finished) (remove_descriptor uid paths)
  | OpRemoveInstance paths id => reply Removed (remove_descriptor_if_instance uid paths id)
  | OpRead paths => reply Found (read_descriptor uid paths)
  end.

Record Thread := MkThread { th_pid : Z; th_op : Operation; th_prog : Prog RuntimeError Reply }.
Record World := MkWorld { w_view : View; w_threads : gmap nat Thread }.

(** The descriptor of a scope, as it can be read. *)
Definition published (s : Sys) (k : string) : option RuntimeDescriptor :=
  i ← sys_entries s !! (k +:+ ".json");
  f ← sys_inodes s !! i;
  match descriptor_from_slice (f_bytes f) with Ok d => Some d | Err _ => None end.

(** When an operation may change the descriptor of its scope. *)
Definition may_change (op : Operation) (v : View) : Prop :=
  match op with
  | OpAcquire paths => ∀ x, x ∈ v_sessions v → session_scope x ≠ key_of paths
  | OpWrite _ _ | OpRemove _ => True
  | OpRemoveInstance paths id =>
      ∃ d, published (v_sys v) (key_of paths) = Some d ∧ rdesc_broker_instance_id d = id
  | _ => False
  end.

(** The sessions after an operation has returned. *)
Definition conclude (pid : Z) (op : Operation) (o : Outcome RuntimeError Reply)
    (sessions : list (Z * SessionLock)) : list (Z * SessionLock) :=
  match op, o with
  | OpAcquire _, Done (Locks lock) => (pid, lock) :: sessions
  | OpRelease lock, _ | OpDrop lock, _ => filter (λ x, x ≠ (pid, lock)) sessions
  | _, _ => sessions
  end.

(** One call of a thread, or its return, which closes its files. *)
Definition thread_step (tid : nat) (ch : Choice) (w : World) : option World :=
  t ← w_threads w !! tid;
  let v := w_view w in
  match th_prog t with
  | Return o =>
      Some (MkWorld (MkView (close_files tid (v_sys v)) (conclude (th_pid t) (th_op t) o (v_sessions v)))
              (delete tid (w_threads w)))
  | Perform c next =>
      r ← exec uid umask (th_pid t) tid ch c (v_sys v);
      Some (MkWorld (MkView r.2 (advance (own_of (th_pid t) (th_op t)) c r.1 (v_sessions v)))
              (<[tid := MkThread (th_pid t) (th_op t) (next r.1)]> (w_threads w)))
  end.

Definition spawn (pid : Z) (w : World) : World :=
  MkWorld (MkView ((v_sys (w_view w)) <| sys_nonces ::= <[pid := 1%Z]> |>) (v_sessions (w_view w)))
    (w_threads w).

Definition start (tid : nat) (pid : Z) (op : Operation) (w : World) : World :=
  MkWorld (w_view w) (<[tid := MkThread pid op (program_of pid op)]> (w_threads w)).

(** A process ends: its files are closed, its locks are left behind. *)
Definition kill (pid : Z) (w : World) : World :=
  let s := v_sys (w_view w) in
  let dead tid := from_option (λ t, bool_decide (th_pid t = pid)) false (w_threads w !! tid) in
  MkWorld
    (MkView (s <| sys_flocks ::= filter (λ '(_, tid), dead tid = false) |>
               <| sys_nonces ::= delete pid |>)
       (filter (λ x, x.1 ≠ pid) (v_sessions (w_view w))))
    (filter (λ '(_, t), th_pid t ≠ pid) (w_threads w)).

Inductive step (w : World) : World → Prop :=
| step_spawn pid : sys_nonces (v_sys (w_view w)) !! pid = None → step w (spawn pid w)
| step_start tid pid op :
    w_threads w !! tid = None → is_Some (sys_nonces (v_sys (w_view w)) !! pid) →
    (∀ x, own_of pid op = Some x → x ∈ v_sessions (w_view w) ∧
       ∀ tid' t', w_threads w !! tid' = Some t' → own_of (th_pid t') (th_op t') ≠ Some x) →
    step w (start tid pid op w)
| step_thread tid ch w' : thread_step tid ch w = Some w' → step w w'
| step_kill pid : step w (kill pid w).

(** Nothing runs and the directory is empty, or not there yet. *)
Definition initial (parent : Metadata) (root : option Metadata) : World :=
  MkWorld (MkView (MkSys parent root ∅ ∅ 0 ∅ ∅) []) ∅.

Definition reachable (w : World) : Prop := ∃ parent root, rtc step (initial parent root) w.

(** ** The invariant of worlds *)

(** What an operation leaves when it returns. *)
Definition result_of (tid : nat) (pid : Z) (k : string) (op : Operation)
    (o : Outcome RuntimeError Reply) (v : View) : Prop :=
  match op, o with
  | OpAcquire paths, Done (Locks lock) =>
      key_of (sl_paths lock) = k ∧ lr_pid (sl_record lock) = pid ∧ Locked uid tid k (sl_record lock) v
  | _, _ => True
  end.

Definition thread_ok (v : View) (tid : nat) (t : Thread) : Prop :=
  ∃ k, valid_key k ∧ (key_of (paths_of (th_op t)) = k ∨ ∃ e, th_prog t = Return (Fail e)) ∧
    safe uid umask tid (th_pid t) k (own_of (th_pid t) (th_op t)) (may_change (th_op t)) (th_prog t)
      (result_of tid (th_pid t) k (th_op t)) v.

Record WInv (w : World) : Prop := {
  winv_view : Inv uid (w_view w);
  winv_alive : ∀ tid t, w_threads w !! tid = Some t → is_Some (sys_nonces (v_sys (w_view w)) !! th_pid t);
  winv_thread : ∀ tid t, w_threads w !! tid = Some t → thread_ok (w_view w) tid t;
  winv_own : ∀ tid t tid' t' x, w_threads w !! tid = Some t → w_threads w !! tid' = Some t' →
    own_of (th_pid t) (th_op t) = Some x → own_of (th_pid t') (th_op t') = Some x → tid = tid';
}.

(** An operation on paths that are refused returns at once. *)
Lemma refused_path pid op :
  own_of pid op = None → validate_runtime_paths (paths_of op) ≠ Done tt →
  ∃ e, program_of pid op = Return (Fail e).
Proof.
  intros Hown Hbad.
  assert (no_panic (validate_runtime_paths (paths_of op))) as Hp.
  { unfold validate_runtime_paths, scope_from_session_key, validate_session_key, validate_workspace_id.
    auto 12 with herdr. }
  destruct (validate_runtime_paths _) as [[]|e|m] eqn:He; [done| |done].
  exists e. destruct op; [|discriminate Hown|discriminate Hown|..]; cbn [paths_of] in He;
    unfold program_of, reply, acquire, write_descriptor, remove_descriptor,
      remove_descriptor_if_instance, read_descriptor; by rewrite He.
Qed.

Lemma triple_reply {A} tid pid k own allowed P (f : A → Reply) (p : Prog RuntimeError A) Q Q' :
  triple uid umask tid pid k own allowed P p Q →
  (∀ a v v', rely tid k own v v' → Q (Done a) v → Q' (Done (f a)) v') →
  (∀ e v, Q' (Fail e) v) → (∀ m v, Q' (Panic m) v) →
  triple uid umask tid pid k own allowed P (reply f p) Q'.
Proof.
  intros Hp Hd Hf Hm. eapply (triple_bind _ _ _ _ _ _ _ _ (λ a v, Q (Done a) v)).
  - eapply triple_post; [|exact Hp]. by intros [a|e|m] v _ HQ.
  - intros a v HI HQ v' Hr HI'. eauto.
Qed.

Lemma named_published tid k paths f d v :
  key_of paths = k → Reads tid k (descriptor_name paths) f v → descriptor_from_slice (f_bytes f) = Ok d →
  published (v_sys v) k = Some d.
Proof.
  intros Hk (i & _ & _ & _ & He & Hf) Hd. unfold published.
  assert (descriptor_name paths = k +:+ ".json") as Hn by by rewrite <-Hk.
  rewrite Hn in He. rewrite He. cbn. rewrite Hf. cbn. by rewrite Hd.
Qed.

Lemma program_ok tid pid op v :
  Inv uid v → (∀ x, own_of pid op = Some x → x ∈ v_sessions v) →
  thread_ok v tid (MkThread pid op (program_of pid op)).
Proof.
  intros HI Hown. unfold thread_ok. cbn [th_pid th_op th_prog].
  assert ((∃ e, program_of pid op = Return (Fail e)) ∨ valid_key (key_of (paths_of op))) as [[e He]|Hk].
  { destruct (own_of pid op) as [[p l]|] eqn:Ho.
    - right. assert (paths_of op = sl_paths l) as -> by (by destruct op; simplify_eq/=).
      by apply (inv_session _ _ HI _ _ (Hown _ eq_refl)).
    - destruct (validate_runtime_paths (paths_of op)) as [[]|e|m] eqn:Hv; [right; by apply validated_key|left..];
        apply refused_path; congruence. }
  { exists (digest_bytes []). split; [apply digest_valid|]. rewrite He. split; [by right; eexists|].
    by destruct op. }
  exists (key_of (paths_of op)). split; [done|]. split; [by left|].
  destruct op as [paths|lock|lock|paths d|paths|paths id|paths]; cbn [paths_of own_of program_of] in *.
  - eapply (triple_reply _ _ _ _ _ (λ _, True)); [apply triple_acquire; try done; by intros ? [_ ?]|..]; try done.
    cbn. intros lock u u' Hr (-> & Hpid & Hl). split_and!; [done..|]. by eapply stable_Locked.
  - by eapply (triple_reply _ _ _ _ _ (Owns _)); [apply triple_release_nonblocking|..].
  - by eapply (triple_reply _ _ _ _ _ (Owns _)); [apply triple_drop_lock|..].
  - by eapply (triple_reply _ _ _ _ _ (λ _, True)); [apply triple_write_descriptor|..].
  - by eapply (triple_reply _ _ _ _ _ (λ _, True)); [apply triple_remove_descriptor|..].
  - eapply (triple_reply _ _ _ _ _ (λ _, True)); [apply triple_remove_descriptor_if_instance|..]; try done.
    intros u f d Hf Hd Hid. exists d. split; [|done]. by eapply named_published.
  - eapply (triple_reply _ _ _ _ _ (λ _, True)); [|done..].
    apply (triple_reads _ _ _ _ _ _ _ (λ _, True) (λ _, True)).
    apply (reads_bind _ _ _ _ (λ _, True)); [apply reads_lift|]. intros _ _. apply (reads_bind _ _ _ _ (λ _, True)); [apply reads_open_private_root|].
    intros _ _. apply reads_read_descriptor_at.
Qed.

(** ** Steps keep it *)

Lemma thread_ok_rely v v' tid t :
  (∀ k, valid_key k → rely tid k (own_of (th_pid t) (th_op t)) v v') → thread_ok v tid t → thread_ok v' tid t.
Proof.
  intros Hr (k & Hk & Hop & Hs). exists k. split; [done|]. split; [done|]. eapply safe_rely; [|exact Hs]. by apply Hr.
Qed.

(** The same files, with some of the sessions. *)
Lemma inv_subset v s ss :
  Inv uid v → sys_entries s = sys_entries (v_sys v) → sys_inodes s = sys_inodes (v_sys v) →
  sys_next s = sys_next (v_sys v) → ss `sublist_of` v_sessions v →
  (∀ x, x ∈ ss → is_Some (sys_nonces s !! x.1)) → Inv uid (MkView s ss).
Proof.
  intros HI He Hi Hn Hss Halive. split; cbn; rewrite ?He, ?Hi, ?Hn; try apply HI.
  - intros p l Hin. assert ((p, l) ∈ v_sessions v) as Hin' by by eapply sublist_subseteq.
    destruct (inv_session _ _ HI _ _ Hin') as (? & _ & ? & Hl). split_and!; [done|by apply (Halive (p, l))|done|].
    unfold locked_by. by rewrite He, Hi.
  - eapply sublist_NoDup; [apply (inv_exclusive _ _ HI)|]. by apply fmap_sublist.
Qed.

(** The same files, for a thread that keeps its locks and its session. *)
Lemma rely_subset tid k own v s ss :
  sys_entries s = sys_entries (v_sys v) → sys_inodes s = sys_inodes (v_sys v) →
  (∀ g, sys_flocks (v_sys v) !! g = Some tid → sys_flocks s !! g = Some tid) →
  (∀ x, own = Some x → x ∈ v_sessions v → x ∈ ss) →
  (holds (v_sys v) tid k → ∀ x, x ∈ ss → session_scope x = k → x ∈ v_sessions v) →
  rely tid k own v (MkView s ss).
Proof.
  intros He Hi Hf Ho Hs. split; cbn; rewrite ?He, ?Hi; eauto.
  intros (g & Hg & Hl). exists g. split; [by rewrite He|by apply Hf].
Qed.

Lemma exec_alive pid tid ch {B} (c : Call B) s answer s' p :
  exec uid umask pid tid ch c s = Some (answer, s') → is_Some (sys_nonces s !! p) →
  is_Some (sys_nonces s' !! p).
Proof.
  intros He Hp. destruct c; cbn in He; unfold unless_refused in He; repeat case_match; simplify_eq; try done;
    try (by destruct file).
  cbn. rewrite lookup_alter. destruct (decide (pid = p)) as [->|]; [|done]. by destruct Hp as [n ->].
Qed.

Lemma spawn_ok w pid : WInv w → sys_nonces (v_sys (w_view w)) !! pid = None → WInv (spawn pid w).
Proof.
  intros [HI Ha Ht Ho] Hnew.
  assert (∀ p, is_Some (sys_nonces (v_sys (w_view w)) !! p) →
    is_Some (<[pid := 1%Z]> (sys_nonces (v_sys (w_view w))) !! p)) as Hp.
  { intros p Hp. rewrite lookup_insert. by case_decide. }
  split; cbn.
  - apply (inv_subset (w_view w)); try done. intros [p l] Hx. apply Hp. by apply (inv_session _ _ HI _ _ Hx).
  - intros tid t Ht'. by eapply Hp, Ha.
  - intros tid t Ht'. eapply thread_ok_rely; [|by apply Ht]. intros k _. by apply rely_subset.
  - done.
Qed.

Lemma start_ok w tid pid op :
  WInv w → w_threads w !! tid = None → is_Some (sys_nonces (v_sys (w_view w)) !! pid) →
  (∀ x, own_of pid op = Some x → x ∈ v_sessions (w_view w) ∧
     ∀ tid' t', w_threads w !! tid' = Some t' → own_of (th_pid t') (th_op t') ≠ Some x) →
  WInv (start tid pid op w).
Proof.
  intros [HI Ha Ht Ho] Hnew Hpid Hown. split; cbn.
  - done.
  - intros tid' t [[<- <-]|[_ Ht']]%lookup_insert_Some; [done|by eapply Ha].
  - intros tid' t [[<- <-]|[_ Ht']]%lookup_insert_Some; [|by apply Ht].
    apply program_ok; [done|]. intros x Hx. by apply Hown.
  - intros t1 th1 t2 th2 x [[<- <-]|[Hne1 H1]]%lookup_insert_Some [[<- <-]|[Hne2 H2]]%lookup_insert_Some Hx1 Hx2;
      [done| | |by eapply Ho].
    + cbn in Hx1. by destruct (proj2 (Hown x Hx1) _ _ H2).
    + cbn in Hx2. by destruct (proj2 (Hown x Hx2) _ _ H1).
Qed.

Lemma kill_ok w pid : WInv w → WInv (kill pid w).
Proof.
  intros [HI Ha Ht Ho]. split; cbn.
  - apply (inv_subset (w_view w)); cbn; try done; [apply sublist_filter|].
    intros [p l] [Hne Hx]%list_elem_of_filter. cbn in *. rewrite lookup_delete_ne by done.
    by apply (inv_session _ _ HI _ _ Hx).
  - intros tid t [Ht' Hne]%map_lookup_filter_Some. rewrite lookup_delete_ne by done. by eapply Ha.
  - intros tid t [Ht' Hne]%map_lookup_filter_Some. eapply thread_ok_rely; [|by apply Ht].
    intros k _. apply rely_subset; cbn; try done.
    + intros g Hg. apply map_lookup_filter_Some. split; [done|]. rewrite Ht'. cbn. by apply bool_decide_eq_false.
    + intros x Hx Hin. apply list_elem_of_filter. split; [|done].
      by destruct (th_op t); simplify_eq/=.
    + intros _ x [_ Hx]%list_elem_of_filter. done.
  - intros t1 th1 t2 th2 x [H1 _]%map_lookup_filter_Some [H2 _]%map_lookup_filter_Some. by eapply Ho.
Qed.

(** The view after a call of a thread that is safe, and what it guarantees. *)
Lemma call_guarantees v tid t {B} (c : Call B) next ch answer s' :
  Inv uid v → thread_ok v tid t → th_prog t = Perform c next →
  exec uid umask (th_pid t) tid ch c (v_sys v) = Some (answer, s') →
  let v' := MkView s' (advance (own_of (th_pid t) (th_op t)) c answer (v_sessions v)) in
  ∃ k, valid_key k ∧ key_of (paths_of (th_op t)) = k ∧ Inv uid v' ∧
    guar tid k (own_of (th_pid t) (th_op t)) (may_change (th_op t)) v v' ∧
    thread_ok v' tid (MkThread (th_pid t) (th_op t) (next answer)).
Proof.
  intros HI (k & Hk & Hop & Hs) Hprog He v'. rewrite Hprog in Hs, Hop.
  destruct Hop as [Hop|[e He']]; [|done].
  destruct (Hs v ch answer s' (rely_refl _ _ _ v) HI He) as (HI' & Hg & Hs').
  exists k. split_and!; try done. exists k. split_and!; [done|by left|exact Hs'].
Qed.

Lemma thread_call_ok w tid t {B} (c : Call B) next ch answer s' :
  WInv w → w_threads w !! tid = Some t → th_prog t = Perform c next →
  exec uid umask (th_pid t) tid ch c (v_sys (w_view w)) = Some (answer, s') →
  WInv (MkWorld (MkView s' (advance (own_of (th_pid t) (th_op t)) c answer (v_sessions (w_view w))))
          (<[tid := MkThread (th_pid t) (th_op t) (next answer)]> (w_threads w))).
Proof.
  intros [HI Ha Ht Ho] Htid Hprog He.
  destruct (call_guarantees _ tid t c next ch answer s' HI (Ht _ _ Htid) Hprog He) as (k & Hk & _ & HI' & Hg & Hnext).
  split; cbn.
  - done.
  - intros tid' t' [[<- <-]|[_ Ht']]%lookup_insert_Some; cbn;
      [by eapply exec_alive, (Ha _ _ Htid)|by eapply exec_alive, Ha].
  - intros tid' t' [[<- <-]|[Hne Ht']]%lookup_insert_Some; [done|].
    eapply thread_ok_rely; [|by apply Ht]. intros k' Hk'. eapply guar_rely; [done|done| |exact Hg].
    intros x Hx Hx'. apply Hne. by eapply Ho.
  - intros t1 th1 t2 th2 x [[<- <-]|[Hne1 H1]]%lookup_insert_Some [[<- <-]|[Hne2 H2]]%lookup_insert_Some Hx1 Hx2;
      [done|by eapply Ho..].
Qed.

(** The sessions after a return: one more, whose scope the thread has locked, or fewer. *)
Lemma conclude_ok v tid pid k op o :
  Inv uid v → valid_key k → is_Some (sys_nonces (v_sys v) !! pid) → result_of tid pid k op o v →
  let v' := MkView (close_files tid (v_sys v)) (conclude pid op o (v_sessions v)) in
  Inv uid v' ∧
  ∀ tid' own' k', tid' ≠ tid → (∀ x, own' = Some x → own_of pid op ≠ Some x) → rely tid' k' own' v v'.
Proof.
  intros HI Hk Hpid Hres v'.
  assert (∀ tid' g, tid' ≠ tid → sys_flocks (v_sys v) !! g = Some tid' →
    sys_flocks (close_files tid (v_sys v)) !! g = Some tid') as Hflock.
  { intros tid' g Hne Hg. apply map_lookup_filter_Some. by split. }
  assert (∀ ss, ss `sublist_of` v_sessions v → Inv uid (MkView (close_files tid (v_sys v)) ss)) as Hfewer.
  { intros ss Hss. apply (inv_subset v); try done. intros [p l] Hx. cbn.
    apply (inv_session _ _ HI p l). by eapply sublist_subseteq. }
  assert ((∃ paths lock, op = OpAcquire paths ∧ o = Done (Locks lock)) ∨
          (conclude pid op o (v_sessions v) `sublist_of` v_sessions v ∧
           ∀ x, x ∈ v_sessions v → x ∈ conclude pid op o (v_sessions v) ∨ own_of pid op = Some x)) as
    [(paths & lock & -> & ->)|[Hsub Hlost]].
  { assert (∀ y, filter (λ x, x ≠ y) (v_sessions v) `sublist_of` v_sessions v ∧ ∀ x, x ∈ v_sessions v →
      x ∈ filter (λ x, x ≠ y) (v_sessions v) ∨ Some y = Some x) as Hfilter.
    { intros y. split; [apply sublist_filter|]. intros x Hx. destruct (decide (x = y)) as [->|]; [by right|].
      left. by apply list_elem_of_filter. }
    destruct op; cbn; try (right; apply Hfilter); destruct o as [[]|e|m]; eauto. }
  - cbn in Hres. destruct Hres as (Hscope & Hrec & [Hh Hno] & i & f & Hf & Hpriv & Henc).
    destruct Hf as (_ & _ & _ & He & Hi). split.
    + pose proof (Hfewer (v_sessions v) (reflexivity _)) as HI0. split; cbn; try apply HI0.
      * intros p l [[= -> ->]|Hin]%elem_of_cons; [|by apply (inv_session _ _ HI0)].
        rewrite Hscope. split_and!; try done. by exists i, f.
      * apply NoDup_cons. split; [|apply HI]. intros (x & Hx & Hin)%list_elem_of_fmap.
        apply (Hno x); [done|]. by rewrite <-Hx.
    + intros tid' own' k' Hne Hown. apply rely_subset; try done; [by intros g; apply Hflock|..]; cbn.
      * intros x _ Hx. by apply elem_of_cons; right.
      * intros Hh' x [->|Hx]%elem_of_cons Hs; [|done]. destruct Hne. unfold session_scope in Hs. cbn in Hs.
        rewrite Hscope in Hs. subst k'. by eapply holds_exclusive.
  - split; [by apply Hfewer|]. intros tid' own' k' Hne Hown.
    apply rely_subset; try done; [by intros g; apply Hflock|..].
    + intros x Hx Hin. destruct (Hlost x Hin); [done|]. by destruct (Hown x Hx).
    + intros _ x Hx _. by eapply sublist_subseteq.
Qed.

Lemma thread_return_ok w tid t o :
  WInv w → w_threads w !! tid = Some t → th_prog t = Return o →
  WInv (MkWorld (MkView (close_files tid (v_sys (w_view w)))
                   (conclude (th_pid t) (th_op t) o (v_sessions (w_view w))))
          (delete tid (w_threads w))).
Proof.
  intros [HI Ha Ht Ho] Htid Hprog. destruct (Ht _ _ Htid) as (k & Hk & _ & Hs). rewrite Hprog in Hs.
  specialize (Hs _ (rely_refl _ _ _ _) HI).
  destruct (conclude_ok _ tid (th_pid t) k (th_op t) o HI Hk (Ha _ _ Htid) Hs) as [HI' Hrely].
  split; cbn.
  - done.
  - intros tid' t' [_ Ht']%lookup_delete_Some. by eapply Ha.
  - intros tid' t' [Hne Ht']%lookup_delete_Some. eapply thread_ok_rely; [|by apply Ht].
    intros k' _. apply Hrely; [done|]. intros x Hx Hx'. apply Hne. by eapply Ho.
  - intros t1 th1 t2 th2 x [_ H1]%lookup_delete_Some [_ H2]%lookup_delete_Some. by eapply Ho.
Qed.

Lemma thread_step_ok w tid ch w' : WInv w → thread_step tid ch w = Some w' → WInv w'.
Proof.
  intros HW. unfold thread_step. destruct (w_threads w !! tid) as [t|] eqn:Htid; [|done]. cbn.
  destruct (th_prog t) as [o|B c next] eqn:Hprog.
  - intros [= <-]. by eapply thread_return_ok.
  - destruct (exec _ _ _ _ _ _ _) as [[answer s']|] eqn:He; [|done]. intros [= <-].
    by eapply thread_call_ok.
Qed.

Lemma worlds_inv w : reachable w → WInv w.
Proof.
  intros (parent & root & Hrun). remember (initial parent root) as w0 eqn:Hw0.
  assert (WInv w0) as HW. { subst. split; cbn; try done. split; cbn; try done; [|apply NoDup_nil_2].
    intros p l Hin. by apply elem_of_nil in Hin. }
  clear Hw0. induction Hrun as [w|w w1 w2 Hstep _ IH]; [done|]. apply IH. clear IH.
  destruct Hstep; [by apply spawn_ok|by apply start_ok|by eapply thread_step_ok|by apply kill_ok].
Qed.

(** ** The theorems *)

(** C10: however the processes of a user interleave, whatever system calls fail and whoever
    is killed, a scope has at most one session at a time; the process that holds it is
    alive, and the lock file of the scope is private, complete and names that process. *)
Theorem session_is_exclusive w :
  reachable w →
  NoDup (session_scope <$> v_sessions (w_view w)) ∧
  ∀ p lock, (p, lock) ∈ v_sessions (w_view w) →
    is_Some (sys_nonces (v_sys (w_view w)) !! p) ∧ owner_pid lock = p ∧
    locked_by uid (v_sys (w_view w)) (sl_record lock) (key_of (sl_paths lock)).
Proof.
  intros [HI _ _ _]%worlds_inv. split; [apply HI|]. intros p lock Hx.
  by apply (inv_session _ _ HI) in Hx as (_ & ? & ? & ?).
Qed.

(** C14: a descriptor file is never seen half written: whenever a scope has one, it is
    private, within its limit, and holds the whole of a descriptor that passed the checks
    for that scope. *)
Theorem descriptor_is_complete w k i f :
  reachable w → valid_key k →
  sys_entries (v_sys (w_view w)) !! (k +:+ ".json") = Some i →
  sys_inodes (v_sys (w_view w)) !! i = Some f →
  complete_descriptor uid k f ∧ is_Some (published (v_sys (w_view w)) k).
Proof.
  intros [HI _ _ _]%worlds_inv Hk He Hf. pose proof (inv_descriptor _ _ HI k i f Hk He Hf) as Hd.
  split; [done|]. destruct Hd as (_ & _ & d & Hd & _). exists d. unfold published. rewrite He. cbn.
  rewrite Hf. cbn. by rewrite (descriptor_round_trip _ _ Hd).
Qed.

Lemma published_same s s' k :
  sys_entries s' !! (k +:+ ".json") = sys_entries s !! (k +:+ ".json") →
  (∀ i, sys_entries s !! (k +:+ ".json") = Some i → sys_inodes s' !! i = sys_inodes s !! i) →
  published s' k = published s k.
Proof.
  intros He Hi. unfold published. rewrite He.
  destruct (sys_entries s !! (k +:+ ".json")) as [i|] eqn:Hent; [|done]. cbn.
  by rewrite (Hi i eq_refl).
Qed.

(** Who may make a descriptor disappear. *)
Definition entitled (op : Operation) (w : World) (k : string) (d : RuntimeDescriptor) : Prop :=
  match op with
  | OpWrite _ _ | OpRemove _ => True
  | OpRemoveInstance _ id => rdesc_broker_instance_id d = id
  | OpAcquire _ => ∀ x, x ∈ v_sessions (w_view w) → session_scope x ≠ k
  | OpRelease _ | OpDrop _ | OpRead _ => False
  end.

(** C13: a published descriptor stays until somebody writes or removes the descriptor of
    the scope, removes that very instance, or acquires the scope when nobody has its
    session: an attempt to take over a live session, the removal of another instance, a
    release and a crash leave it in place. *)
Theorem descriptor_outlives_others w w' k d :
  reachable w → step w w' → valid_key k →
  published (v_sys (w_view w)) k = Some d → published (v_sys (w_view w')) k ≠ Some d →
  ∃ tid t, w_threads w !! tid = Some t ∧ key_of (paths_of (th_op t)) = k ∧ entitled (th_op t) w k d.
Proof.
  intros [HI _ Ht _]%worlds_inv Hstep Hk Hd Hgone.
  destruct Hstep as [pid _|tid pid op _ _ _|tid ch w' Hstep|pid]; [by destruct Hgone..| |by destruct Hgone].
  unfold thread_step in Hstep. destruct (w_threads w !! tid) as [t|] eqn:Htid; [|done]. cbn in Hstep.
  destruct (th_prog t) as [o|B c next] eqn:Hprog; [simplify_eq; by destruct Hgone|].
  destruct (exec _ _ _ _ _ _ _) as [[answer s']|] eqn:He; [|done]. simplify_eq/=.
  destruct (call_guarantees _ tid t c next ch answer s' HI (Ht _ _ Htid) Hprog He) as (k' & Hk' & Hop & _ & Hg & _).
  exists tid, t. split; [done|]. rewrite Hop. destruct (decide (k' = k)) as [->|Hne].
  - split; [done|]. destruct (guar_descriptor _ _ _ _ _ _ Hg) as [Hallowed|[He1 He2]].
    + unfold may_change in Hallowed. destruct (th_op t); cbn in Hallowed, Hop |- *; try done.
      { by subst k. }
      destruct Hallowed as (d' & Hd' & Hid). rewrite Hop, Hd in Hd'. by simplify_eq.
    + destruct Hgone. by rewrite (published_same (v_sys (w_view w))).
  - destruct Hgone. rewrite (published_same (v_sys (w_view w))); [done|..].
    + by destruct (guar_entry _ _ _ _ _ _ Hg k (k +:+ ".json") Hk) as [[? _]|]; [left| |].
    + intros i Hi. destruct (inv_bound _ _ HI _ _ Hi) as [f Hf].
      destruct (guar_inode _ _ _ _ _ _ Hg _ _ Hf) as (f' & Hf' & _ & Hsame). cbn in Hf'. rewrite Hf, Hf'.
      destruct (Hsame k Hk) as [[? _]| ->]; [|by destruct Hne|done].
      eapply (inv_birth _ _ HI); [done| |exact Hi|exact Hf]. by left.
Qed.
End world.

(** ** A run

    Two processes of a user: the first acquires the scope and publishes its descriptor;
    the second tries to acquire and is refused. *)
Module RuntimeSample.

#[local] Instance descriptor_eq_dec : EqDecision RuntimeDescriptor.
Proof. solve_decision. Defined.

Definition secret : string := "AAAAAAAAAAAAAAAAAAAAAAAAAAAAAAAAAAAAAAAAAAA".

Definition descriptor : RuntimeDescriptor :=
  MkRuntimeDescriptor "session" "workspace" "http://127.0.0.1:4000" secret secret "/bin/broker" 7 1000.

#[local] Instance crypto : ApiCrypto := {|
  api_sha256 := λ m, (λ b, (b mod 256)%Z) <$> take 32 (m ++ replicate 32 0%Z);
  hmac_sha256 := λ _ m, m;
  base64url_encode := λ _, secret;
  base64url_decode := λ _, Some (replicate 32 0%Z);
|}.

(** Two numbers are their own document, and the descriptor above is the document [9]. *)
#[local] Instance serde : RuntimeSerde := {|
  JsonError := ();
  json_error_display := λ _, "json";
  io_error_display := λ _, "io";
  lock_to_vec := λ r, Ok [r.1; r.2];
  lock_from_slice := λ b, match b with [p; n] => Ok (p, n) | _ => Err tt end;
  descriptor_to_vec := λ d, if decide (d = descriptor) then Ok [9%Z] else Err tt;
  descriptor_from_slice := λ b, match b with [9%Z] => Ok descriptor | _ => Err tt end;
|}.

#[local] Instance serde_spec : RuntimeSerdeSpec.
Proof.
  split.
  - intros [p n] b [= <-]. done.
  - intros d b. unfold descriptor_to_vec, descriptor_from_slice. cbn. case_decide; [|done]. by intros [= <-]; subst.
  - intros m. unfold api_sha256, crypto. rewrite length_fmap, length_take, length_app, length_replicate. lia.
  - intros m. unfold api_sha256, crypto. apply Forall_fmap, Forall_forall. intros b _. cbn. unfold byte_range. apply Z.mod_pos_bound. lia.
Qed.

Definition paths : RuntimePaths :=
  match for_test "/tmp/herdr-a2a" "session" "workspace" with Done paths => paths | _ => from_scope "" (MkRuntimeScope "" "" "") end.

(** Every call succeeds; what is asked about the executable suits the descriptor. *)
Definition fine : Choice := MkChoice None 0 (Some "/bin/broker") (Some (true, 448%Z)) true 2000 false.

(** A thread runs alone for so many steps. *)
Fixpoint drive (n : nat) (tid : nat) (w : World) : World :=
  match n with
  | 0 => w
  | S n => match thread_step 1000 18 tid fine w with Some w' => drive n tid w' | None => w end
  end.

Lemma drive_reachable n tid w : reachable 1000 18 w → reachable 1000 18 (drive n tid w).
Proof.
  revert w. induction n as [|n IH]; intros w Hw; [done|]. cbn.
  destruct (thread_step _ _ _ _ _) as [w'|] eqn:Hs; [|done]. apply IH.
  destruct Hw as (parent & root & Hrun). exists parent, root. eapply rtc_r; [exact Hrun|]. by eapply step_thread.
Qed.

Lemma spawn_reachable pid w :
  sys_nonces (v_sys (w_view w)) !! pid = None → reachable 1000 18 w → reachable 1000 18 (spawn pid w).
Proof. intros Hn (parent & root & Hrun). exists parent, root. eapply rtc_r; [exact Hrun|]. by constructor. Qed.

Lemma start_reachable tid pid op w :
  w_threads w !! tid = None → is_Some (sys_nonces (v_sys (w_view w)) !! pid) → own_of pid op = None →
  reachable 1000 18 w → reachable 1000 18 (start 1000 tid pid op w).
Proof.
  intros Ht Hp Ho (parent & root & Hrun). exists parent, root. eapply rtc_r; [exact Hrun|].
  constructor; [done..|]. intros x. by rewrite Ho.
Qed.

Definition parent : Metadata := MkMetadata Directory 0 1023 0.
Definition booted : World := spawn 7 (initial parent None).
Definition holding : World := drive 40 0 (start 1000 0 7 (OpAcquire paths) booted).
Definition serving : World := drive 40 1 (start 1000 1 7 (OpWrite paths descriptor) holding).
Definition contested : World := drive 40 2 (start 1000 2 8 (OpAcquire paths) (spawn 8 serving)).

Lemma serving_reachable : reachable 1000 18 serving.
Proof.
  apply drive_reachable, start_reachable; [by vm_compute|by vm_compute; eexists|done|].
  apply drive_reachable, start_reachable; [by vm_compute|by vm_compute; eexists|done|].
  apply spawn_reachable; [by vm_compute|]. by exists parent, None.
Qed.

Lemma contested_reachable : reachable 1000 18 contested.
Proof.
  apply drive_reachable, start_reachable; [by vm_compute|by vm_compute; eexists|done|].
  apply spawn_reachable; [by vm_compute|]. apply serving_reachable.
Qed.

Lemma key_valid : valid_key (key_of paths).
Proof. apply validated_key. by vm_compute. Qed.

Lemma session_is_exclusive_witness :
  (session_scope <$> v_sessions (w_view contested)) = [key_of paths] ∧ w_threads contested = ∅ ∧
  NoDup (session_scope <$> v_sessions (w_view contested)).
Proof.
  split; [by vm_compute|]. split; [by vm_compute|].
  apply (session_is_exclusive 1000 18 contested). apply contested_reachable.
Defined.

Lemma descriptor_is_complete_witness :
  is_Some (published (v_sys (w_view contested)) (key_of paths)).
Proof.
  eapply (descriptor_is_complete 1000 18 contested (key_of paths) 2);
    [apply contested_reachable|apply key_valid|by vm_compute|by vm_compute].
Defined.

(** The broker leaves: one call away from removing its own descriptor. *)
Definition leaving : World := drive 16 3 (start 1000 3 7 (OpRemoveInstance paths secret) serving).

Lemma leaving_reachable : reachable 1000 18 leaving.
Proof.
  apply drive_reachable, start_reachable; [by vm_compute|by vm_compute; eexists|done|]. apply serving_reachable.
Qed.

Lemma descriptor_outlives_others_witness :
  ∃ tid t, w_threads leaving !! tid = Some t ∧ key_of (paths_of (th_op t)) = key_of paths ∧
    entitled (th_op t) leaving (key_of paths) descriptor.
Proof.
  apply (descriptor_outlives_others 1000 18 leaving
    (default leaving (thread_step 1000 18 3 fine leaving)) (key_of paths) descriptor).
  - apply leaving_reachable.
  - eapply (step_thread _ _ _ 3 fine). by vm_compute.
  - apply key_valid.
  - by vm_compute.
  - by vm_compute.
Defined.
End RuntimeSample.
