(* ===== verification/RuntimeProgress.v ===== *)
(** * Sessions and descriptors can be had

    The operations of [runtime.rs] when they run alone and no call fails: a scope that
    nobody holds can be acquired, also after its holder died, and a descriptor that was
    published is read back. *)
From stdpp Require Import prelude gmap strings.
From S2P Require Import Prelude RustStd CliText Model Ledger Api Generation Recovery Runtime RuntimeFiles RuntimeLogic RuntimeTheorems.

Section progress.
Context {serde : RuntimeSerde} {crypto : ApiCrypto} {spec : RuntimeSerdeSpec} (uid umask : Z).
Context (pid : Z) (tid : nat) (env : Choice).

(** No call fails, and a process that is asked about is gone when it is not alive. *)
Definition honest {B} (c : Call B) : Choice :=
  let errno := match c with TestKill _ => Some SRCH | _ => None end in
  MkChoice errno (ch_written env) (ch_canonical env) (ch_stat env) (ch_access env) (ch_millis env)
    (ch_healthy env).

Fixpoint alone {E A} (p : Prog E A) (s : Sys) : option (Outcome E A * Sys) :=
  match p with
  | Return o => Some (o, s)
  | Perform c next =>
      match exec uid umask pid tid (honest c) c s with
      | Some (answer, s') => alone (next answer) s'
      | None => None
      end
  end.

Lemma alone_case {E E' A B} (f : A → Prog E' B) (g : E → Prog E' B) (p : Prog E A) o s s' :
  alone p s = Some (o, s') →
  alone (prog_case f g p) s =
    match o with
    | Done a => alone (f a) s'
    | Fail e => alone (g e) s'
    | Panic m => Some (Panic m, s')
    end.
Proof.
  revert s. induction p as [o'|C c next IH]; intros s; cbn.
  - intros [= -> ->]. by destruct o.
  - destruct (exec _ _ _ _ _ _ _) as [[answer s'']|]; [|done]. apply IH.
Qed.

Lemma alone_bind {E A B} (p : Prog E A) (next : A → Prog E B) a s s' :
  alone p s = Some (Done a, s') → alone (prog_bind p next) s = alone (next a) s'.
Proof. intros Hp. unfold prog_bind. by rewrite (alone_case _ _ _ _ _ _ Hp). Qed.

Lemma alone_sys {A} (c : Call (Result Errno A)) a s s' :
  exec uid umask pid tid (honest c) c s = Some (Ok a, s') → alone (sys c) s = Some (Done a, s').
Proof. intros He. cbn. by rewrite He. Qed.

Lemma alone_lift {A B} (o : Outcome RuntimeError A) (next : A → Prog RuntimeError B) a s :
  o = Done a → alone (prog_bind (lift o) next) s = alone (next a) s.
Proof. by intros ->. Qed.

Ltac run1 H := rewrite (alone_bind _ _ _ _ _ H).
Ltac run_sys := erewrite alone_bind by (apply alone_sys; cbn; reflexivity).

(** ** The root and the guard *)

Definition root_ready (paths : RuntimePaths) (s : Sys) : Prop :=
  ∃ parent_path leaf, validate_absolute_path (rp_root paths) = Done tt ∧
    path_parent (rp_root paths) = Some parent_path ∧ file_name (rp_root paths) = Some leaf ∧
    validate_runtime_parent uid parent_path (sys_parent s) = Done tt ∧
    (sys_root s = None ∨ ∃ m, sys_root s = Some m ∧ md_kind m = Directory ∧ md_uid m = uid).

(** From the open root on: its mode is mended. *)
Lemma alone_private_root root s m :
  sys_root s = Some m → md_kind m = Directory → md_uid m = uid →
  ∃ m', md_kind m' = Directory ∧ md_uid m' = uid ∧ alone
    (let* m := sys (Fstat RootHandle) in
     let* _ := lift (validate_private_identity uid root m true) in
     let* _ := if negb (Z.land (md_mode m) 511 =? PRIVATE_DIR_MODE)%Z
               then sys (Fchmod RootHandle PRIVATE_DIR_MODE) else prog_ret tt in
     let* m := sys (Fstat RootHandle) in
     lift (validate_private_metadata uid root m true)) s = Some (Done tt, s <| sys_root := Some m' |>).
Proof.
  intros Hroot Hdir Huid. destruct s as [parent r entries inodes next flocks nonces]. cbn in Hroot. subst r.
  destruct m as [kind u mode len]. cbn in Hdir, Huid. subst kind u.
  assert (∀ mode, validate_private_identity uid root (MkMetadata Directory uid mode len) true = Done tt) as Hid.
  { intros mode'. unfold validate_private_identity. cbn. by rewrite Z.eqb_refl. }
  cbn. rewrite Hid. cbn. destruct (Z.eqb_spec (Z.land mode 511) PRIVATE_DIR_MODE) as [Hmode|Hmode]; cbn.
  - exists (MkMetadata Directory uid mode len). split_and!; [done..|]. unfold validate_private_metadata.
    rewrite Hid. cbn. by rewrite Hmode, Z.eqb_refl.
  - exists (MkMetadata Directory uid PRIVATE_DIR_MODE len). split_and!; [done..|].
    unfold validate_private_metadata, set_mode. cbn. by rewrite Hid.
Qed.

Lemma alone_root paths s :
  root_ready paths s →
  ∃ m, alone (open_private_root uid (rp_root paths)) s = Some (Done tt, s <| sys_root := Some m |>) ∧
    root_ready paths (s <| sys_root := Some m |>).
Proof.
  intros (pp & leaf & Habs & Hparent & Hleaf & Hok & Hroot).
  assert (∀ m, md_kind m = Directory → md_uid m = uid → root_ready paths (s <| sys_root := Some m |>)) as Hready.
  { intros m Hdir Huid. exists pp, leaf. split_and!; try done. right. by exists m. }
  unfold open_private_root.
  rewrite Hparent, Hleaf. rewrite (alone_lift _ _ tt) by done. rewrite (alone_lift _ _ pp) by done.
  rewrite (alone_lift _ _ leaf) by done. do 2 run_sys. rewrite (alone_lift _ _ tt) by done.
  destruct Hroot as [Hnone|(m & Hsome & Hdir & Huid)].
  - set (m := MkMetadata Directory uid (masked umask PRIVATE_DIR_MODE) 0).
    set (s1 := s <| sys_root := Some m |>).
    erewrite (alone_bind _ _ RootHandle s s1).
    + destruct (alone_private_root (rp_root paths) s1 m) as (m' & ? & ? & Hm'); [done..|]. exists m'. split; [exact Hm'|auto].
    + cbn. rewrite Hnone. cbn. rewrite Hnone. cbn. done.
  - erewrite (alone_bind _ _ RootHandle s s).
    + destruct (alone_private_root (rp_root paths) s m Hsome Hdir Huid) as (m' & ? & ? & Hm'). exists m'. split; [exact Hm'|auto].
    + cbn. rewrite Hsome, decide_True by done. done.
Qed.

(** *** Files *)

Definition fresh_inodes (s : Sys) : Prop := ∀ i, is_Some (sys_inodes s !! i) → i < sys_next s.

(** The system after a private file was created. *)
Definition created (name : string) (s : Sys) : Sys :=
  chmod_file (Inode (sys_next s)) PRIVATE_FILE_MODE (create_file uid umask name s).

Lemma created_inodes name s :
  sys_inodes (created name s)
  = <[sys_next s := MkFileData name RegularFile uid PRIVATE_FILE_MODE []]> (sys_inodes s).
Proof.
  cbn. apply map_eq. intros i. rewrite lookup_alter, !lookup_insert. by repeat case_decide.
Qed.

Lemma private_metadata name len :
  validate_private_metadata uid name (MkMetadata RegularFile uid PRIVATE_FILE_MODE len) false = Done tt.
Proof. unfold validate_private_metadata, validate_private_identity. cbn. by rewrite Z.eqb_refl. Qed.

Lemma alone_open_new name s :
  sys_entries s !! name = None →
  alone (open_new_private_at uid name) s = Some (Done (Inode (sys_next s)), created name s).
Proof.
  intros Hnone. unfold open_new_private_at. cbn. rewrite Hnone. cbn.
  pose proof (created_inodes name s) as Hi. cbn in Hi. rewrite Hi, lookup_insert_eq. cbn.
  by rewrite private_metadata.
Qed.

(** A private file that can be read. *)
Definition readable (s : Sys) (name : string) (bytes : Bytes) : Prop :=
  ∃ i f, sys_entries s !! name = Some i ∧ sys_inodes s !! i = Some f ∧ private_file uid f ∧ f_bytes f = bytes.

Lemma alone_open_read name bytes max s :
  readable s name bytes → (length bytes ≤ max)%nat →
  ∃ i, sys_entries s !! name = Some i ∧ alone (open_private_read_at uid name max) s = Some (Done (Inode i), s).
Proof.
  intros (i & f & He & Hi & (Hkind & Huid & Hmode) & Hb) Hlen. exists i. split; [done|].
  unfold open_private_read_at.
  rewrite (alone_bind _ _ (Inode i) s s)
    by (apply alone_sys; cbn; rewrite He, Hi; cbn; rewrite Hkind; by rewrite decide_False).
  rewrite (alone_bind _ _ (MkMetadata RegularFile uid (f_mode f) (length bytes)) s s)
    by (apply alone_sys; cbn; rewrite Hi; cbn; by rewrite Hkind, Huid, Hb).
  rewrite (alone_lift _ _ tt); [|unfold validate_private_metadata, validate_private_identity; cbn;
    by rewrite Hmode, Z.eqb_refl].
  rewrite (alone_lift _ _ tt); [done|]. unfold reject_if. cbn [md_len].
  by destruct (Nat.ltb_spec max (length bytes)); [lia|].
Qed.

Lemma alone_content {A} name bytes max s (next : Bytes → Prog RuntimeError A) :
  readable s name bytes → (length bytes ≤ max)%nat →
  alone (let* file := open_private_read_at uid name max in
         let* encoded := read_limited file max in next encoded) s = alone (next bytes) s.
Proof.
  intros Hr Hlen. destruct (alone_open_read name bytes max s Hr Hlen) as (i & He & Hopen).
  run1 Hopen. destruct Hr as (i' & f & He' & Hi & _ & Hb). rewrite He in He'. injection He' as <-.
  apply alone_bind. unfold read_limited.
  rewrite (alone_bind _ _ bytes s s)
    by (apply alone_sys; cbn [exec]; rewrite Hi; cbn; rewrite Hb; by rewrite take_ge by lia).
  rewrite (alone_lift _ _ tt); [done|]. unfold reject_if.
  by destruct (Nat.ltb_spec max (length bytes)); [lia|].
Qed.

(** What a program leaves as it was, but for some names. *)
Record keeps (names : list string) (s s' : Sys) : Prop := {
  keeps_entries : ∀ name, name ∉ names → sys_entries s' !! name = sys_entries s !! name;
  keeps_inodes : ∀ i f, sys_inodes s !! i = Some f → sys_inodes s' !! i = Some f;
  keeps_fresh : fresh_inodes s → fresh_inodes s';
  keeps_gone : ∀ p, sys_nonces s !! p = None → sys_nonces s' !! p = None;
  keeps_root : sys_root s' = sys_root s ∧ sys_parent s' = sys_parent s;
}.

Lemma keeps_trans l1 l2 s1 s2 s3 : keeps l1 s1 s2 → keeps l2 s2 s3 → keeps (l1 ++ l2) s1 s3.
Proof.
  intros [He1 Hi1 Hf1 Hg1 [Hr1 Hp1]] [He2 Hi2 Hf2 Hg2 [Hr2 Hp2]]. split; eauto; [|split; congruence].
  intros name [H1 H2]%not_elem_of_app. by rewrite He2, He1.
Qed.

Lemma keeps_readable l s s' name bytes :
  keeps l s s' → name ∉ l → readable s name bytes → readable s' name bytes.
Proof.
  intros [He Hi _ _ _] Hname (i & f & Hent & Hf & Hrest). exists i, f. rewrite He by done. eauto.
Qed.

Lemma created_keeps name s : fresh_inodes s → keeps [name] s (created name s).
Proof.
  intros Hfresh. split.
  - intros n Hn%not_elem_of_cons. cbn. rewrite lookup_insert_ne; [done|]. by destruct Hn.
  - intros i f Hf. rewrite created_inodes, lookup_insert_ne; [done|]. intros <-.
    specialize (Hfresh (sys_next s) ltac:(eauto)). lia.
  - intros _ i. rewrite created_inodes. change (sys_next (created name s)) with (S (sys_next s)).
    rewrite lookup_insert. case_decide; [lia|]. intros Hi%Hfresh. lia.
  - done.
  - done.
Qed.

Lemma unlink_keeps name s : keeps [name] s (s <| sys_entries ::= delete name |>).
Proof.
  split; cbn; try done. intros n Hn%not_elem_of_cons. rewrite lookup_delete_ne; [done|]. by destruct Hn.
Qed.

(** *** The guard *)

Definition guard_ready (k : string) (s : Sys) : Prop :=
  match sys_entries s !! guard_of k with
  | None => sys_flocks s !! sys_next s = None
  | Some g => readable s (guard_of k) [] ∧ sys_flocks s !! g = None
  end.

Lemma alone_guard paths blocking s :
  guard_ready (key_of paths) s → fresh_inodes s →
  ∃ s', alone (acquire_transition_guard_with uid paths blocking) s = Some (Done tt, s') ∧
    keeps [guard_of (key_of paths)] s s'.
Proof.
  unfold guard_ready, acquire_transition_guard_with. change (guard_name paths) with (guard_of (key_of paths)).
  set (name := guard_of (key_of paths)). intros Hready Hfresh.
  destruct (sys_entries s !! name) as [g|] eqn:Hent.
  - destruct Hready as [Hr Hfree]. destruct (alone_open_read name [] 0 s Hr) as (i & Hi & Hopen); [done|].
    rewrite Hent in Hi. injection Hi as <-.
    assert (alone (open_new_private_at uid name) s = Some (Fail (RtIo (Os EXIST)), s)) as Hnew.
    { cbn. by rewrite Hent. }
    erewrite alone_bind; [|erewrite alone_case by exact Hnew; exact Hopen].
    eexists. split; [apply alone_sys; cbn; by rewrite Hfree|].
    split; try done.
  - pose proof (alone_open_new name s Hent) as Hnew.
    erewrite alone_bind; [|by erewrite alone_case by exact Hnew].
    eexists. split; [apply alone_sys; cbn; by rewrite Hready|].
    destruct (created_keeps name s Hfresh). by split.
Qed.

(** *** The lock *)

Lemma alone_write file bytes s :
  alone (sys (WriteAll (Inode file) bytes)) s = Some (Done tt, write_file (Inode file) bytes s).
Proof. by apply alone_sys. Qed.

(** The file that [publish_lock] prepares. *)
Definition prepared (name : string) (bytes : Bytes) (s : Sys) : Sys :=
  write_file (Inode (sys_next s)) bytes (created name s).

Lemma prepared_inodes name bytes s :
  sys_inodes (prepared name bytes s)
  = <[sys_next s := MkFileData name RegularFile uid PRIVATE_FILE_MODE bytes]> (sys_inodes s).
Proof.
  change (sys_inodes (prepared name bytes s)) with
    (alter (λ f, f <| f_bytes ::= λ old, old ++ bytes |>) (sys_next s) (sys_inodes (created name s))).
  rewrite created_inodes. apply map_eq. intros i. rewrite lookup_alter, !lookup_insert. by repeat case_decide.
Qed.

Lemma prepared_keeps name bytes s : fresh_inodes s → keeps [name] s (prepared name bytes s).
Proof.
  intros Hfresh. destruct (created_keeps name s Hfresh) as [He _ Hf Hg Hr]. split; [done| | |done|done].
  - intros i f Hi. rewrite prepared_inodes, lookup_insert_ne; [done|]. intros <-.
    specialize (Hfresh (sys_next s) ltac:(eauto)). lia.
  - intros _ i. rewrite prepared_inodes. change (sys_next (prepared name bytes s)) with (S (sys_next s)).
    rewrite lookup_insert. case_decide; [lia|]. intros Hi%Hfresh. lia.
Qed.

Lemma alone_perform {E A B} (c : Call B) (next : B → Prog E A) answer s s' :
  exec uid umask pid tid (honest c) c s = Some (answer, s') →
  alone (Perform c next) s = alone (next answer) s'.
Proof. intros He. cbn [alone]. by rewrite He. Qed.

(** No temporary of this process was left behind. *)
Definition no_temporaries (paths : RuntimePaths) (s : Sys) : Prop :=
  ∀ n, sys_entries s !! lock_temporary pid paths n = None.

Lemma temporary_not_lock paths n : valid_key (key_of paths) → lock_temporary pid paths n ≠ lock_name paths.
Proof. intros Hk Heq. unfold lock_temporary, lock_name in Heq. fold (key_of paths) in Heq. name_clash. Qed.

Lemma alone_lock_file temporary bytes paths s :
  alone (publish_lock paths temporary bytes (Inode (sys_next s))) (created temporary s)
  = alone (Perform (Linkat temporary (lock_name paths)) (λ r,
        match r with
        | Err e => Perform (Unlinkat temporary) (λ _, Return (Fail (AttemptRuntime (RtIo (Os e)))))
        | Ok _ =>
            Perform (SyncAll RootHandle) (λ _,
            Perform (Unlinkat temporary) (λ _,
            Perform (SyncAll RootHandle) (λ _, prog_ret tt)))
        end)) (prepared temporary bytes s).
Proof.
  unfold publish_lock. erewrite alone_case; [|erewrite alone_bind by apply alone_write; by apply alone_sys].
  done.
Qed.

Lemma prepared_lookup temporary bytes s name :
  sys_entries (prepared temporary bytes s) !! name
  = if decide (temporary = name) then Some (sys_next s) else sys_entries s !! name.
Proof. apply lookup_insert. Qed.

(** A lock that is free is taken. *)
Lemma alone_lock_free attempts paths record bytes s :
  valid_key (key_of paths) → fresh_inodes s → no_temporaries paths s →
  sys_entries s !! lock_name paths = None → lock_to_vec (lr_pid record, lr_nonce record) = Ok bytes →
  ∃ s' n, alone (write_lock_create uid pid (S attempts) paths record) s = Some (Done tt, s') ∧
    keeps [lock_temporary pid paths n; lock_name paths] s s' ∧ readable s' (lock_name paths) bytes.
Proof.
  intros Hk Hfresh Htemp Hlock Henc. set (n := default 1%Z (sys_nonces s !! pid)).
  set (s1 := s <| sys_nonces ::= alter (λ n, ((n + 1) mod (u64_max + 1))%Z) pid |>).
  set (temporary := lock_temporary pid paths n). set (s2 := prepared temporary bytes s1).
  set (s3 := s2 <| sys_entries ::= <[lock_name paths := sys_next s]> |> <| sys_entries ::= delete temporary |>).
  pose proof (temporary_not_lock paths n Hk) as Hne. fold temporary in Hne.
  exists s3, n. split_and!.
  - cbn [write_lock_create]. rewrite (alone_bind _ _ n s s1) by done.
    unfold write_lock_create_at_name. rewrite Henc.
    erewrite alone_case with (o := Done tt) (s' := s3); [done|].
    erewrite alone_case by (apply alone_open_new; apply Htemp). cbv beta iota.
    fold temporary. rewrite alone_lock_file. fold s2.
    rewrite (alone_perform _ _ (Ok tt) s2 (s2 <| sys_entries ::= <[lock_name paths := sys_next s]> |>)).
    + rewrite (alone_perform _ _ (Ok tt) _ (s2 <| sys_entries ::= <[lock_name paths := sys_next s]> |>)) by done.
      rewrite (alone_perform _ _ (Ok tt) _ s3); [by rewrite (alone_perform _ _ (Ok tt) _ s3)|].
      cbn [exec honest ch_errno unless_refused]. change (sys_entries (_ <| sys_entries ::= _ |>))
        with (<[lock_name paths := sys_next s]> (sys_entries s2)).
      rewrite lookup_insert_ne by done. unfold s2. by rewrite prepared_lookup, decide_True.
    + cbn [exec honest ch_errno unless_refused]. unfold s2. rewrite !prepared_lookup, decide_True by done.
      rewrite decide_False by done. change (sys_entries s1) with (sys_entries s). by rewrite Hlock.
  - destruct (prepared_keeps temporary bytes s1 Hfresh) as [He Hi Hf Hg Hr]. split; [| | | |done].
    + intros name [Hn1 [Hn2 _]%not_elem_of_cons]%not_elem_of_cons. cbn.
      rewrite lookup_delete_ne, lookup_insert_ne by done. apply He. by apply not_elem_of_cons; split; [|apply not_elem_of_nil].
    + exact Hi.
    + exact Hf.
    + intros p Hp. cbn. rewrite lookup_alter. case_decide; by subst; rewrite Hp.
  - exists (sys_next s), (MkFileData temporary RegularFile uid PRIVATE_FILE_MODE bytes). split_and!; try done.
    + cbn. by rewrite lookup_delete_ne, lookup_insert_eq.
    + change (sys_inodes s3) with (sys_inodes s2). unfold s2. rewrite prepared_inodes. by rewrite lookup_insert_eq.
Qed.

(** A lock that is there is left alone. *)
Lemma alone_lock_taken attempts paths record bytes i s :
  valid_key (key_of paths) → fresh_inodes s → no_temporaries paths s →
  sys_entries s !! lock_name paths = Some i → lock_to_vec (lr_pid record, lr_nonce record) = Ok bytes →
  ∃ s' n, alone (write_lock_create uid pid (S attempts) paths record) s = Some (Fail (RtIo (Os EXIST)), s') ∧
    keeps [lock_temporary pid paths n] s s' ∧ no_temporaries paths s'.
Proof.
  intros Hk Hfresh Htemp Hlock Henc. set (n := default 1%Z (sys_nonces s !! pid)).
  set (s1 := s <| sys_nonces ::= alter (λ n, ((n + 1) mod (u64_max + 1))%Z) pid |>).
  set (temporary := lock_temporary pid paths n). set (s2 := prepared temporary bytes s1).
  set (s3 := s2 <| sys_entries ::= delete temporary |>).
  pose proof (temporary_not_lock paths n Hk) as Hne. fold temporary in Hne.
  exists s3, n. split_and!.
  - cbn [write_lock_create]. rewrite (alone_bind _ _ n s s1) by done.
    unfold write_lock_create_at_name. rewrite Henc.
    erewrite alone_case with (o := Fail (AttemptRuntime (RtIo (Os EXIST)))) (s' := s3); [done|].
    erewrite alone_case by (apply alone_open_new; apply Htemp). cbv beta iota.
    fold temporary. rewrite alone_lock_file. fold s2.
    rewrite (alone_perform _ _ (Err EXIST) s2 s2).
    + rewrite (alone_perform _ _ (Ok tt) s2 s3); [done|].
      cbn [exec honest ch_errno unless_refused]. unfold s2. by rewrite prepared_lookup, decide_True.
    + cbn [exec honest ch_errno unless_refused]. unfold s2. rewrite !prepared_lookup, decide_True by done.
      rewrite decide_False by done. change (sys_entries s1) with (sys_entries s). by rewrite Hlock.
  - destruct (prepared_keeps temporary bytes s1 Hfresh) as [He Hi Hf Hg Hr]. split; [|exact Hi|exact Hf| |done].
    + intros name Hn. cbn. rewrite lookup_delete_ne by (by apply not_elem_of_cons in Hn as [? _]). by apply He.
    + intros p Hp. cbn. rewrite lookup_alter. case_decide; by subst; rewrite Hp.
  - intros m. cbn. rewrite lookup_delete, lookup_insert. by repeat case_decide.
Qed.

Lemma alone_remove_descriptor_at paths s :
  ∃ s', alone (remove_descriptor_at paths) s = Some (Done tt, s') ∧ keeps [descriptor_name paths] s s' ∧
    sys_entries s' !! descriptor_name paths = None.
Proof.
  unfold remove_descriptor_at. destruct (sys_entries s !! descriptor_name paths) as [i|] eqn:Hent.
  - exists (s <| sys_entries ::= delete (descriptor_name paths) |>). split_and!.
    + rewrite (alone_perform _ _ (Ok tt) s (s <| sys_entries ::= delete (descriptor_name paths) |>)); [done|].
      cbn. by rewrite Hent.
    + apply unlink_keeps.
    + cbn. apply lookup_delete_eq.
  - exists s. split_and!; [|by split|done]. rewrite (alone_perform _ _ (Err NOENT) s s); [done|].
    cbn. by rewrite Hent.
Qed.

(** *** Functions that only read *)

(** The program ends, without a panic, and leaves the system as it was. *)
Definition settles {E A} (p : Prog E A) : Prop := ∀ s, ∃ o, alone p s = Some (o, s) ∧ no_panic o.

Lemma settles_return {E A} (o : Outcome E A) : no_panic o → settles (Return o).
Proof. intros Ho s. by exists o. Qed.

Lemma settles_case {E E' A B} (f : A → Prog E' B) (g : E → Prog E' B) (p : Prog E A) :
  settles p → (∀ a, settles (f a)) → (∀ e, settles (g e)) → settles (prog_case f g p).
Proof.
  intros Hp Hf Hg s. destruct (Hp s) as (o & Ho & Hno). rewrite (alone_case _ _ _ _ _ _ Ho).
  destruct o; [apply Hf|apply Hg|done].
Qed.

Lemma settles_bind {E A B} (p : Prog E A) (next : A → Prog E B) :
  settles p → (∀ a, settles (next a)) → settles (prog_bind p next).
Proof. intros Hp Hnext. apply settles_case; [done..|]. intros e. by apply settles_return. Qed.

Lemma settles_call {E B} (c : Call B) :
  (∀ s, ∃ answer, exec uid umask pid tid (honest c) c s = Some (answer, s)) → settles (call (E := E) c).
Proof. intros Hc s. destruct (Hc s) as [answer He]. exists (Done answer). cbn. by rewrite He. Qed.

Lemma settles_sys {A} (c : Call (Result Errno A)) :
  (∀ s, ∃ answer, exec uid umask pid tid (honest c) c s = Some (answer, s)) → settles (sys c).
Proof.
  intros Hc s. destruct (Hc s) as [[a|e] He]; eexists; (split; [cbn; rewrite He; reflexivity|done]).
Qed.

Context (Htime : (ch_millis env ≤ i64_max - 300000)%Z).

Lemma check_created_no_panic d : no_panic (check_created d (ch_millis env)).
Proof.
  unfold check_created, reject_if. destruct (Z.ltb_spec (ch_millis env) 0); cbn; [done|].
  case_match; cbn; [done|]. case_match; cbn; [done|].
  unfold checked_add_i64. destruct (checked _ _ _) eqn:Hc; [by cbn; case_match|].
  apply checked_None in Hc. unfold i64_min, i64_max in *. lia.
Qed.

Lemma settles_read_descriptor_at paths : settles (read_descriptor_at uid paths).
Proof.
  assert (∀ A (o : Outcome RuntimeError A), no_panic o → settles (lift o)) as Hlift
    by (intros; by apply settles_return).
  assert (∀ file max, settles (read_limited file max)) as Hread.
  { intros file max. apply settles_bind; [apply settles_sys|intros]; [intros s; cbn; repeat case_match; eauto|].
    apply settles_bind; [apply Hlift; auto with herdr|intros]. by apply settles_return. }
  unfold read_descriptor_at. apply settles_bind.
  { unfold open_private_read_at, validate_private_metadata, validate_private_identity.
    apply settles_bind; [apply settles_sys|intros].
    { intros s. cbn. repeat case_match; eauto. }
    apply settles_bind; [apply settles_sys|intros].
    { intros s. cbn. repeat case_match; eauto. }
    repeat (apply settles_bind; [apply Hlift; auto with herdr|intros]). by apply settles_return. }
  intros file. apply settles_bind; [done|]. intros bytes.
  apply settles_bind; [apply Hlift; by destruct (descriptor_from_slice bytes)|]. intros d.
  apply settles_bind; [|intros; by apply settles_return].
  assert (no_panic (check_descriptor paths d)) as Hcheck.
  { unfold check_descriptor, check_secret, validate_absolute_path. auto 20 with herdr. }
  unfold validate_descriptor. apply settles_bind; [by apply Hlift|intros _].
  apply settles_bind; [apply settles_call; eauto|intros canonical].
  do 2 (apply settles_bind; [apply Hlift; auto with herdr|intros]).
  apply settles_bind; [apply settles_call; eauto|intros m].
  apply settles_bind; [apply Hlift; auto with herdr|intros [is_file mode]].
  apply settles_bind; [apply Hlift; auto with herdr|intros].
  apply settles_bind; [case_match; [by apply settles_return|apply settles_call; eauto]|intros].
  do 2 (apply settles_bind; [apply Hlift; auto with herdr|intros]).
  intros s. exists (check_created d (ch_millis env)). split; [done|]. apply check_created_no_panic.
Qed.

(** ** Acquiring *)

Lemma scope_names_differ paths :
  valid_key (key_of paths) → descriptor_name paths ≠ lock_name paths ∧
  (∀ n, descriptor_name paths ≠ lock_temporary pid paths n) ∧ (∀ n, lock_name paths ≠ lock_temporary pid paths n) ∧
  (∀ n, lock_temporary pid paths n ≠ guard_of (key_of paths)) ∧
  descriptor_name paths ≠ guard_of (key_of paths) ∧ lock_name paths ≠ guard_of (key_of paths).
Proof.
  intros Hk. unfold descriptor_name, lock_name, lock_temporary, guard_of. fold (key_of paths).
  split_and!; [intros Heq|intros n Heq|intros n Heq|intros n Heq|intros Heq|intros Heq]; try name_clash.
  - by destruct (plain_inj _ _ _ _ Hk Hk Heq).
  - by destruct (dotted_inj _ _ _ _ Hk Hk Heq).
Qed.

(** A turn on a free scope acquires it. *)
Lemma alone_turn_free paths record bytes s :
  valid_key (key_of paths) → fresh_inodes s → no_temporaries paths s →
  sys_entries s !! lock_name paths = None → lock_to_vec (lr_pid record, lr_nonce record) = Ok bytes →
  ∃ s', alone (acquire_turn uid pid paths record) s = Some (Done (Some (MkSessionLock paths record)), s') ∧
    readable s' (lock_name paths) bytes ∧ sys_entries s' !! descriptor_name paths = None.
Proof.
  intros Hk Hfresh Htemp Hlock Henc. destruct (scope_names_differ paths Hk) as (Hd & _ & _).
  destruct (alone_lock_free 127 paths record bytes s Hk Hfresh Htemp Hlock Henc) as (s1 & n & H1 & Hkeep1 & Hr1).
  destruct (alone_remove_descriptor_at paths s1) as (s2 & H2 & Hkeep2 & Hgone).
  exists s2. split_and!; [|eapply keeps_readable; [exact Hkeep2| |exact Hr1]|done].
  - unfold acquire_turn. rewrite (alone_case _ _ _ _ _ _ H1), (alone_case _ _ _ _ _ _ H2). done.
  - apply not_elem_of_cons. split; [done|apply not_elem_of_nil].
Qed.

(** The lock of a process that is gone. *)
Definition stale_lock (paths : RuntimePaths) (s : Sys) : Prop :=
  ∃ bytes p n, readable s (lock_name paths) bytes ∧ (length bytes ≤ MAX_LOCK_BYTES)%nat ∧
    lock_from_slice bytes = Ok (p, n) ∧ platform_pid p = Some p ∧ sys_nonces s !! p = None.

Lemma alone_read_lock paths bytes p n s :
  readable s (lock_name paths) bytes → (length bytes ≤ MAX_LOCK_BYTES)%nat →
  lock_from_slice bytes = Ok (p, n) → p ≠ 0%Z →
  alone (read_lock uid paths) s = Some (Done (MkLockRecord p n), s).
Proof.
  intros Hr Hlen Hdec Hp. unfold read_lock. rewrite (alone_content _ bytes) by done.
  rewrite (alone_lift _ _ (p, n)) by (by rewrite Hdec).
  rewrite (alone_lift _ _ tt); [done|]. unfold reject_if. cbn. by destruct (Z.eqb_spec p 0).
Qed.

Context (Hsick : ch_healthy env = false).

Lemma alone_no_probe paths s :
  alone (prog_case (λ d, call (ProbeHealth d)) (λ _, prog_ret (E := RuntimeError) false)
           (read_descriptor_at uid paths)) s = Some (Done false, s).
Proof.
  destruct (settles_read_descriptor_at paths s) as (o & Ho & Hno). rewrite (alone_case _ _ _ _ _ _ Ho).
  destruct o; [cbn; by rewrite Hsick|done..].
Qed.

(** A turn on a stale scope clears it. *)
Lemma alone_turn_stale paths record bytes s :
  valid_key (key_of paths) → fresh_inodes s → no_temporaries paths s → stale_lock paths s →
  lock_to_vec (lr_pid record, lr_nonce record) = Ok bytes →
  ∃ s', alone (acquire_turn uid pid paths record) s = Some (Done None, s') ∧ fresh_inodes s' ∧
    no_temporaries paths s' ∧ sys_entries s' !! lock_name paths = None.
Proof.
  intros Hk Hfresh Htemp (b & p & n & Hr & Hlen & Hdec & Hplat & Hdead) Henc.
  destruct (scope_names_differ paths Hk) as (Hd & Hdt & Hlt & _).
  assert (p ≠ 0%Z) as Hp0 by (intros ->; done).
  pose proof Hr as (i & _ & Hent & _).
  destruct (alone_lock_taken 127 paths record bytes i s Hk Hfresh Htemp Hent Henc) as (s1 & m & H1 & K1 & Htemp1).
  assert (readable s1 (lock_name paths) b) as Hr1.
  { eapply keeps_readable; [exact K1| |exact Hr]. apply not_elem_of_cons. split; [done|apply not_elem_of_nil]. }
  pose proof (alone_read_lock paths b p n s1 Hr1 Hlen Hdec Hp0) as Hread.
  destruct (alone_remove_descriptor_at paths s1) as (s2 & H2 & K2 & _).
  set (s3 := s2 <| sys_entries ::= delete (lock_name paths) |>).
  assert (sys_entries s2 !! lock_name paths = sys_entries s1 !! lock_name paths) as Hsame.
  { apply (keeps_entries _ _ _ K2). apply not_elem_of_cons. split; [done|apply not_elem_of_nil]. }
  exists s3. split_and!.
  - unfold acquire_turn. rewrite (alone_case _ _ _ _ _ _ H1). cbn [is_already_exists].
    run1 Hread.
    rewrite (alone_bind _ _ false s1 s1).
    2:{ unfold process_is_alive. cbn [lr_pid]. rewrite Hplat. rewrite (alone_perform _ _ (Err SRCH) s1 s1); [done|].
        cbn. rewrite decide_False; [done|]. rewrite (keeps_gone _ _ _ K1 _ Hdead). by intros []. }
    run1 (alone_no_probe paths s1). run1 Hread. rewrite decide_True by done. run1 H2.
    rewrite (alone_bind _ _ tt s2 s3).
    2:{ apply alone_sys. cbn. rewrite Hsame. destruct Hr1 as (j & _ & Hj & _). by rewrite Hj. }
    by rewrite (alone_bind _ _ tt s3 s3).
  - apply (keeps_fresh _ _ _ K2), (keeps_fresh _ _ _ K1), Hfresh.
  - intros n'. cbn. rewrite lookup_delete_ne by done.
    rewrite (keeps_entries _ _ _ K2); [apply Htemp1|]. apply not_elem_of_cons. split; [done|apply not_elem_of_nil].
  - cbn. apply lookup_delete_eq.
Qed.

(** The root and the guard, for every operation. *)
Lemma alone_enter paths blocking s :
  root_ready paths s → guard_ready (key_of paths) s → fresh_inodes s →
  ∃ s', (∀ A (next : Prog RuntimeError A),
      alone (let* _ := open_private_root uid (rp_root paths) in
             let* _ := acquire_transition_guard_with uid paths blocking in next) s = alone next s') ∧
    keeps [guard_of (key_of paths)] s (s' <| sys_root := sys_root s |>) ∧ root_ready paths s' ∧ fresh_inodes s'.
Proof.
  intros Hroot Hguard Hfresh. destruct (alone_root paths s Hroot) as (m & Hopen & Hready).
  set (s1 := s <| sys_root := Some m |>) in *.
  destruct (alone_guard paths blocking s1 Hguard Hfresh) as (s2 & Hlock & [He Hi Hf Hg [Hr Hp]]).
  exists s2. split_and!; [intros A next; by run1 Hopen; run1 Hlock|by split| |by apply Hf].
  destruct Hready as (pp & leaf & ? & ? & ? & ? & ?). exists pp, leaf. by rewrite Hr, Hp.
Qed.

(** The session that the turns return. *)
Definition acquired (paths : RuntimePaths) (record : LockRecord) (bytes : Bytes) (turns : nat) (s : Sys) : Prop :=
  ∃ s', alone (acquire_turns uid pid turns paths record) s = Some (Done (MkSessionLock paths record), s') ∧
    readable s' (lock_name paths) bytes ∧ sys_entries s' !! descriptor_name paths = None.

Lemma alone_turns paths record bytes s :
  valid_key (key_of paths) → fresh_inodes s → no_temporaries paths s →
  lock_to_vec (lr_pid record, lr_nonce record) = Ok bytes →
  sys_entries s !! lock_name paths = None ∨ stale_lock paths s → acquired paths record bytes 2 s.
Proof.
  intros Hk Hfresh Htemp Hbytes Hlock.
  assert (∀ turns s, fresh_inodes s → no_temporaries paths s → sys_entries s !! lock_name paths = None →
    acquired paths record bytes (S turns) s) as Hfree.
  { intros turns s0 Hf0 Ht0 Hl0. destruct (alone_turn_free paths record bytes s0 Hk Hf0 Ht0 Hl0 Hbytes)
      as (s' & Hturn & Hrest). exists s'. split; [|done]. cbn [acquire_turns]. by run1 Hturn. }
  destruct Hlock as [Hnone|Hstale]; [by apply Hfree|].
  destruct (alone_turn_stale paths record bytes s Hk) as (s' & Hturn & Hf' & Ht' & Hl'); [done..|].
  destruct (Hfree 0 s' Hf' Ht' Hl') as (s'' & Hturns & Hrest). exists s''. split; [|done].
  change (acquire_turns uid pid 2 paths record) with
    (prog_bind (acquire_turn uid pid paths record) (λ o, match o with
       | Some lock => prog_ret lock | None => acquire_turns uid pid 1 paths record end)).
  by run1 Hturn.
Qed.

(** C15: a scope that nobody holds can be acquired: if the guard is free and there is no
    lock file, or only that of a process that is gone and whose descriptor answers no
    probe, then [acquire], undisturbed, returns a session; its lock file is in place and
    the descriptor of the broker before is not. *)
Theorem acquire_succeeds paths s :
  validate_runtime_paths paths = Done tt → platform_pid pid = Some pid →
  root_ready paths s → guard_ready (key_of paths) s → fresh_inodes s → no_temporaries paths s →
  sys_entries s !! lock_name paths = None ∨ stale_lock paths s →
  (∀ n, ∃ bytes, lock_to_vec (pid, n) = Ok bytes) →
  ∃ lock s', alone (acquire uid pid paths pid) s = Some (Done lock, s') ∧
    sl_paths lock = paths ∧ lr_pid (sl_record lock) = pid ∧
    locked_by uid s' (sl_record lock) (key_of paths) ∧ published s' (key_of paths) = None.
Proof.
  intros Hpaths Hpid Hroot Hguard Hfresh Htemp Hlock Hvec. pose proof (validated_key paths Hpaths) as Hk.
  destruct (scope_names_differ paths Hk) as (_ & _ & _ & Htg & Hdg & Hlg).
  unfold acquire. rewrite (alone_lift _ _ tt) by done. rewrite (alone_lift _ _ tt) by (by rewrite Hpid).
  destruct (alone_enter paths false s) as (s1 & Hrun & [He Hi _ Hg _] & _ & Hfresh1); [done..|].
  unfold acquire_transition_guard_at. rewrite Hrun. clear Hrun.
  set (n := default 1%Z (sys_nonces s1 !! pid)).
  set (s2 := s1 <| sys_nonces ::= alter (λ n, ((n + 1) mod (u64_max + 1))%Z) pid |>).
  rewrite (alone_bind _ _ n s1 s2) by done. destruct (Hvec n) as [bytes Hbytes].
  assert (∀ name, name ≠ guard_of (key_of paths) → sys_entries s2 !! name = sys_entries s !! name) as He2.
  { intros name Hne. apply He. apply not_elem_of_cons. split; [done|apply not_elem_of_nil]. }
  destruct (alone_turns paths (MkLockRecord pid n) bytes s2) as (s3 & H3 & (i & f & Hent & Hf & Hpriv & Hb) & Hd3);
    [done|exact Hfresh1|intros m; rewrite He2 by done; apply Htemp|done| |].
  { rewrite He2 by done. destruct Hlock as [Hnone|(b & p & m & (i & f & Hent & Hf & Hread) & Hlen & Hdec & Hplat & Hdead)];
      [by left|right]. exists b, p, m. split_and!; try done; [exists i, f; rewrite He2 by done; split_and!; try apply Hread; auto|].
    cbn. rewrite lookup_alter. specialize (Hg _ Hdead). cbn in Hg. by case_decide; subst; rewrite Hg. }
  exists (MkSessionLock paths (MkLockRecord pid n)), s3. split_and!; try done.
  - exists i, f. split_and!; try done. by rewrite Hb.
  - unfold published. change (key_of paths +:+ ".json") with (descriptor_name paths). by rewrite Hd3.
Qed.

(** ** Descriptors *)

(** The system's answers suit the executable of a descriptor. *)
Definition executable_ok (d : RuntimeDescriptor) : Prop :=
  ∃ canonical mode, ch_canonical env = Some canonical ∧ path_eqb canonical (rdesc_executable_path d) = true ∧
    ch_stat env = Some (true, mode) ∧ Z.land mode 73 ≠ 0%Z ∧ ch_access env = true.

Definition acceptable (paths : RuntimePaths) (d : RuntimeDescriptor) : Prop :=
  check_descriptor paths d = Done tt ∧ executable_ok d ∧ is_some (platform_pid (rdesc_broker_pid d)) = true ∧
  check_created d (ch_millis env) = Done tt.

Lemma alone_validate paths d s : acceptable paths d → alone (validate_descriptor paths d) s = Some (Done tt, s).
Proof.
  intros (Hcheck & (canonical & mode & Hcan & Heq & Hstat & Hmode & Haccess) & Hpid & Hcreated).
  unfold validate_descriptor. rewrite (alone_lift _ _ tt) by done.
  rewrite (alone_bind _ _ (Some canonical) s s) by (cbn; by rewrite Hcan).
  rewrite (alone_lift _ _ canonical) by done. rewrite (alone_lift _ _ tt) by (by rewrite Heq).
  rewrite (alone_bind _ _ (Some (true, mode)) s s) by (cbn; by rewrite Hstat).
  rewrite (alone_lift _ _ (true, mode)) by done. rewrite (alone_lift _ _ tt) by done.
  rewrite (alone_bind _ _ true s s) by (destruct (Z.eqb_spec (Z.land mode 73) 0); [done|cbn; by rewrite Haccess]).
  rewrite (alone_lift _ _ tt) by done. rewrite (alone_lift _ _ tt) by (by rewrite Hpid).
  rewrite (alone_bind _ _ (ch_millis env) s s) by done. unfold lift. by rewrite Hcreated.
Qed.

Lemma alone_publish_descriptor paths temporary bytes s :
  valid_key (key_of paths) → temporary ≠ descriptor_name paths →
  sys_entries s !! temporary = None →
  ∃ s', alone (publish_descriptor uid paths temporary bytes) s = Some (Done tt, s') ∧
    readable s' (descriptor_name paths) bytes ∧ sys_root s' = sys_root s ∧ sys_parent s' = sys_parent s.
Proof.
  intros Hk Hne Hnone. set (s1 := prepared temporary bytes s).
  set (json := descriptor_name paths) in *.
  assert (∀ s', sys_inodes s' = sys_inodes s1 → sys_entries s' !! json = Some (sys_next s) → readable s' json bytes) as Hr.
  { intros s' Hi He. exists (sys_next s), (MkFileData temporary RegularFile uid PRIVATE_FILE_MODE bytes).
    split_and!; try done. rewrite Hi. unfold s1. by rewrite prepared_inodes, lookup_insert_eq. }
  set (s2 := if decide (sys_entries s1 !! json = Some (sys_next s)) then s1
             else s1 <| sys_entries ::= λ m, <[json := sys_next s]> (delete temporary m) |>).
  exists s2. split_and!.
  - unfold publish_descriptor. rewrite (alone_bind _ _ tt s s2); [done|].
    rewrite (alone_case _ _ _ (Done tt) s s2); [done|]. erewrite alone_bind by (by apply alone_open_new).
    erewrite alone_bind by apply alone_write. fold s1.
    rewrite (alone_bind _ _ tt s1 s1) by (by apply alone_sys). apply alone_sys.
    cbn [exec honest ch_errno unless_refused]. fold json.
    assert (sys_entries s1 !! temporary = Some (sys_next s)) as ->
      by (unfold s1; by rewrite prepared_lookup, decide_True).
    unfold s2. by case_decide.
  - apply Hr; unfold s2; case_decide; try done. cbn. by rewrite lookup_insert_eq.
  - unfold s2. by case_decide.
  - unfold s2. by case_decide.
Qed.

(** C39: what [write_descriptor] published, [read_descriptor] reads back: with the guard
    free and undisturbed, a descriptor that passes the checks is written, and a reader
    that comes after gets that descriptor. *)
Theorem descriptor_is_read_back paths d bytes s :
  validate_runtime_paths paths = Done tt → root_ready paths s → guard_ready (key_of paths) s →
  fresh_inodes s → (∀ n, sys_entries s !! descriptor_temporary pid paths n = None) →
  acceptable paths d → descriptor_to_vec d = Ok bytes → (length bytes ≤ MAX_DESCRIPTOR_BYTES)%nat →
  ∃ s' s'', alone (write_descriptor uid pid paths d) s = Some (Done tt, s') ∧
    alone (read_descriptor uid paths) (close_files tid s') = Some (Done d, s'').
Proof.
  intros Hpaths Hroot Hguard Hfresh Htemp Hok Hvec Hlen. pose proof (validated_key paths Hpaths) as Hk.
  destruct (alone_enter paths true s) as (s1 & Hrun & [He _ _ _ _] & Hroot1 & _); [done..|].
  set (n := default 1%Z (sys_nonces s1 !! pid)).
  set (s2 := s1 <| sys_nonces ::= alter (λ n, ((n + 1) mod (u64_max + 1))%Z) pid |>).
  set (temporary := descriptor_temporary pid paths n).
  assert (temporary ≠ descriptor_name paths ∧ temporary ≠ guard_of (key_of paths)) as [Hne Hng].
  { unfold temporary, descriptor_temporary, descriptor_name, guard_of. fold (key_of paths).
    split; intros Heq; [name_clash|by destruct (dotted_inj _ _ _ _ Hk Hk Heq)]. }
  destruct (alone_publish_descriptor paths temporary bytes s2 Hk Hne) as (s3 & Hpub & Hread & Hr3 & Hp3).
  { change (sys_entries (s1 <| sys_root := sys_root s |>) !! temporary = None). rewrite He; [apply Htemp|].
    apply not_elem_of_cons. split; [done|apply not_elem_of_nil]. }
  destruct (alone_root paths (close_files tid s3)) as (m & Hopen & _).
  { destruct Hroot1 as (pp & leaf & Hroot1). exists pp, leaf. cbn. by rewrite Hr3, Hp3. }
  exists s3, ((close_files tid s3) <| sys_root := Some m |>). split.
  - unfold write_descriptor. rewrite (alone_lift _ _ tt) by done. unfold acquire_transition_guard_blocking_at.
    rewrite Hrun. run1 (alone_validate paths d s1 Hok). rewrite (alone_lift _ _ bytes) by (by rewrite Hvec).
    rewrite (alone_lift _ _ tt); [|unfold reject_if; by destruct (Nat.ltb_spec MAX_DESCRIPTOR_BYTES (length bytes)); [lia|]].
    rewrite (alone_bind _ _ n s1 s2) by done. fold temporary. by rewrite (alone_case _ _ _ _ _ _ Hpub).
  - unfold read_descriptor. rewrite (alone_lift _ _ tt) by done. run1 Hopen. unfold read_descriptor_at.
    rewrite (alone_content _ bytes); [|exact Hread|done].
    rewrite (alone_lift _ _ d) by (by rewrite (descriptor_round_trip _ _ Hvec)).
    by run1 (alone_validate paths d ((close_files tid s3) <| sys_root := Some m |>) Hok).
Qed.
End progress.

(** ** A takeover

    The broker of the run before is killed; another process acquires its scope, and a
    broker publishes on a directory that is not there yet. *)
Module ProgressSample.
Import RuntimeSample.
#[local] Existing Instance RuntimeSample.serde.
#[local] Existing Instance RuntimeSample.crypto.
#[local] Existing Instance RuntimeSample.serde_spec.

Definition abandoned : World := spawn 8 (kill 7 serving).

Lemma abandoned_fresh : fresh_inodes (v_sys (w_view abandoned)).
Proof.
  intros i [f Hf].
  assert (reachable 1000 18 abandoned) as [HI _ _ _]%worlds_inv.
  { apply spawn_reachable; [by vm_compute|]. destruct serving_reachable as (p & r & Hrun). exists p, r.
    eapply rtc_r; [exact Hrun|]. apply step_kill. }
  by apply (inv_next _ _ HI) in Hf.
Qed.

Lemma abandoned_temporaries : no_temporaries 8 paths (v_sys (w_view abandoned)).
Proof.
  intros n. destruct (scope_names_differ 8 paths key_valid) as (_ & Hd & Hl & Hg & _).
  assert (sys_entries (v_sys (w_view abandoned)) = <[descriptor_name paths := 2]> (<[lock_name paths := 1]>
    (<[guard_of (key_of paths) := 0]> ∅))) as -> by (vm_compute; reflexivity).
  rewrite !lookup_insert_ne by (auto using not_eq_sym). done.
Qed.

Lemma acquire_succeeds_witness :
  ∃ lock s', alone 1000 18 8 5 fine (acquire 1000 8 paths 8) (v_sys (w_view abandoned)) = Some (Done lock, s') ∧
    lr_pid (sl_record lock) = 8%Z ∧ published s' (key_of paths) = None.
Proof.
  destruct (acquire_succeeds 1000 18 8 5 fine ltac:(by vm_compute) eq_refl paths (v_sys (w_view abandoned)))
    as (lock & s' & Hrun & _ & Hpid & _ & Hgone).
  - by vm_compute.
  - by vm_compute.
  - exists "/tmp", "herdr-a2a". split_and!; try (by vm_compute). right. eexists. by vm_compute.
  - vm_compute. split; [|done]. do 2 eexists. done.
  - apply abandoned_fresh.
  - apply abandoned_temporaries.
  - right. exists [7%Z; 1%Z], 7%Z, 1%Z.
    split; [vm_compute; do 2 eexists; done|].
    split; [apply Nat.leb_le; vm_compute; reflexivity|]. split_and!; vm_compute; reflexivity.
  - intros n. by eexists.
  - exists lock, s'. split; [exact Hrun|]. split; [exact Hpid|exact Hgone].
Defined.

Lemma descriptor_is_read_back_witness :
  ∃ s' s'', alone 1000 18 7 0 fine (write_descriptor 1000 7 paths descriptor) (v_sys (w_view booted))
      = Some (Done tt, s') ∧
    alone 1000 18 7 0 fine (read_descriptor 1000 paths) (close_files 0 s') = Some (Done descriptor, s'').
Proof.
  apply (descriptor_is_read_back 1000 18 7 0 fine paths descriptor [9%Z]).
  - by vm_compute.
  - exists "/tmp", "herdr-a2a". split_and!; try (by vm_compute). by left.
  - by vm_compute.
  - intros i [f Hf]. done.
  - done.
  - split; [by vm_compute|]. split; [|by vm_compute]. do 2 eexists. split_and!; by vm_compute.
  - by vm_compute.
  - apply Nat.leb_le; vm_compute; reflexivity.
Defined.
End ProgressSample.
