(* ===== verification/RecoveryTheorems.v ===== *)
(** * Properties of recovery

    A connection that is established belongs to the session and to a broker other than
    the one that was lost; a manager's connection stays of the same session and agent;
    an attempt ends within a fixed number of rounds; the delays are exact. *)
From stdpp Require Import prelude gmap strings.
From S2P Require Import Prelude RustStd CliText Model Scenario Ledger Api Health HealthTheorems Generation Recovery.

(** ** Delays *)

Definition base_delay (index : nat) : Z :=
  from_millis (nth (Nat.min index (length BACKOFF_MS - 1)) BACKOFF_MS 0%Z).

Lemma delays_exact :
  forallb (λ base, forallb (λ j, bool_decide
    (mul_f64 (from_millis base) (percent (Z.of_nat j)) = Some (from_millis base * Z.of_nat j / 100)%Z))
    (seq 0 26)) BACKOFF_MS = true.
Proof. by vm_compute. Qed.

Lemma backoff_delay_exact index jitter :
  (0 ≤ jitter)%Z → backoff_delay index jitter = (base_delay index + base_delay index * Z.min jitter 25 / 100)%Z.
Proof.
  intros Hj. unfold backoff_delay. fold (base_delay index). f_equal.
  pose proof delays_exact as Hall. rewrite forallb_forall in Hall.
  set (i := Nat.min index (length BACKOFF_MS - 1)) in *.
  assert (In (nth i BACKOFF_MS 0%Z) BACKOFF_MS) as Hin by (apply nth_In; change (length BACKOFF_MS) with 6%nat in *; lia).
  specialize (Hall _ Hin). rewrite forallb_forall in Hall.
  assert (In (Z.to_nat (Z.min jitter 25)) (seq 0 26)) as Hjin by (apply in_seq; lia).
  specialize (Hall _ Hjin). apply bool_decide_eq_true in Hall. rewrite Z2Nat.id in Hall by lia.
  unfold base_delay. fold i. by rewrite Hall.
Qed.

Lemma base_delay_pos index : (0 < base_delay index)%Z.
Proof.
  unfold base_delay. set (i := Nat.min _ _). assert (i < 6)%nat by (change (length BACKOFF_MS) with 6%nat in *; lia). clearbody i.
  do 6 (destruct i as [|i]; [by vm_compute|]). lia.
Qed.

(** The delay after each failed attempt is the entry of the table, the last one from
    the sixth attempt on, plus exactly the given percentage of it, at most a quarter: the
    floating-point scaling does not lose a nanosecond. *)
Theorem backoff_is_exact index jitter :
  (0 ≤ jitter)%Z →
  let base := from_millis (nth (Nat.min index (length BACKOFF_MS - 1)) BACKOFF_MS 0%Z) in
  backoff_delay index jitter = (base + base * Z.min jitter 25 / 100)%Z ∧
  (base ≤ backoff_delay index jitter)%Z ∧ (4 * backoff_delay index jitter ≤ 5 * base)%Z.
Proof.
  intros Hj base. pose proof (backoff_delay_exact index jitter Hj) as Heq. fold (base_delay index) in base.
  pose proof (base_delay_pos index) as Hpos. fold base in Heq, Hpos. rewrite Heq.
  assert (0 ≤ base * Z.min jitter 25 / 100)%Z by (apply Z.div_pos; nia).
  assert (base * Z.min jitter 25 / 100 ≤ base * 25 / 100)%Z by (apply Z.div_le_mono; nia).
  assert (4 * (base * 25 / 100) ≤ base)%Z.
  { etrans; [apply Z.div_mul_le; lia|]. rewrite Z.mul_assoc. 
    replace (4 * base * 25)%Z with (base * 100)%Z by lia. by rewrite Z.div_mul. }
  split; [done|lia].
Qed.

(** ** Ending *)

Lemma backoff_at_least index jitter : (base_delay index ≤ backoff_delay index jitter)%Z.
Proof.
  unfold backoff_delay. fold (base_delay index).
  assert (∀ n f, 0 ≤ default 0 (mul_f64 n f))%Z as Hpos; [|specialize (Hpos (base_delay index) (percent (Z.min jitter 25))); lia].
  intros n f. unfold mul_f64, from_secs_f64. destruct (f64_mul _ _) as [| | |[] m e]; simpl; try lia.
  destruct (Z.leb_spec 0 e); simpl.
  - apply Z.mul_nonneg_nonneg; [|done]. by apply Z.shiftl_nonneg.
  - unfold div_half_even.
    assert (0 ≤ Z.pos m * nanos_per_sec / Z.shiftl 1 (- e))%Z.
    { apply Z.div_pos; [done|]. rewrite Z.shiftl_1_l. apply Z.pow_pos_nonneg; lia. }
    repeat case_match; lia.
Qed.

(** The clock does not go back and [sleep] lasts as long as it was asked to. *)
Fixpoint timely (deadline : Z) (index : nat) (start : Z) (rounds : list Round) : Prop :=
  match rounds with
  | [] => True
  | r :: rounds =>
      (start ≤ round_now r ≤ round_delay_now r)%Z ∧
      timely deadline (S index) (round_delay_now r + round_delay (Some deadline) index r) rounds
  end.

(** The delays of [k] rounds from the [index]th, without jitter. *)
Fixpoint total (index k : nat) : Z :=
  match k with O => 0 | S k => base_delay index + total (S index) k end.

Section ending.
Context (authorize : PathBuf → PathBuf → Outcome ManagedError ()).

Lemma establish_ends identity observed deadline k :
  ∀ index initial start rounds,
  timely deadline index start rounds → (deadline - start ≤ total index k)%Z → (k < length rounds)%nat →
  is_Some (establish authorize identity observed (Some deadline) initial index rounds).
Proof.
  induction k as [|k IH]; intros index initial start rounds Htime Htotal Hlen;
    (destruct rounds as [|r rounds]; [simpl in Hlen; lia|]); destruct Htime as [Hclock Htime];
    cbn [establish total] in *; (destruct (round_cancelled r); [by eexists|]).
  - rewrite (proj2 (Z.leb_le deadline (round_now r))) by lia. by eexists.
  - destruct (Z.leb_spec deadline (round_now r)); [by eexists|].
    destruct (await_attempt _ _ _ _) as [c|[]|msg]; try by eexists.
    destruct (Z.eqb_spec (remaining_until deadline (round_delay_now r)) 0) as [|Hrem]; [by eexists|].
    destruct (round_sleep r); [|by eexists].
    eapply (IH (S index) None); [exact Htime| |simpl in Hlen; lia].
    unfold round_delay, remaining_until in *.
    pose proof (backoff_at_least index (round_jitter r)). 
    assert (0 ≤ total (S index) k)%Z as Hpos.
    { clear. revert index. induction k as [|k IHk]; intros index; simpl; [done|].
      pose proof (base_delay_pos (S index)). specialize (IHk (S index)). lia. }
    lia.
Qed.

(** C24: An attempt to connect ends: with a clock that does not go back and sleeps that last
    as long as they were asked to, [establish] returns within fifteen rounds of the
    deadline that [recover] and [connect] give it, whatever the launcher and the broker
    answer. *)
Theorem recovery_attempt_ends identity observed operation_deadline now initial rounds :
  let deadline := recovery_attempt_deadline now operation_deadline in
  timely deadline 0 now rounds → (15 ≤ length rounds)%nat →
  ∃ outcome, establish authorize identity observed (Some deadline) initial 0 rounds = Some outcome.
Proof.
  intros deadline Htime Hlen. apply (establish_ends identity observed deadline 14 0 initial now rounds Htime); [|lia].
  change (total 0 14) with 10550000000%Z. unfold deadline, recovery_attempt_deadline.
  change RECOVERY_ATTEMPT_TIMEOUT with 10000000000%Z. destruct operation_deadline; lia.
Qed.

(** ** Whose connection *)

(** [c] is a connection of the session to the broker of its workspace. *)
Record belongs (identity : SessionIdentity) (c : BrokerConnection) : Prop := {
  bl_session : rdesc_session_key (conn_descriptor c) = scope_session_key (si_scope identity);
  bl_workspace : rdesc_workspace_id (conn_descriptor c) = scope_workspace_id (si_scope identity);
  bl_executable : ∃ path, path_eqb (rdesc_executable_path (conn_descriptor c)) path = true ∧
    (path_eqb path (si_executable identity) = true ∨ authorize (si_executable identity) path = Done tt);
  bl_agent : ∀ name, si_agent_name identity = Some name → conn_agent_name c = name;
}.

Lemma map_error_inv {E E' A} (f : E → E') (m : Outcome E A) a : map_error f m = Done a → m = Done a.
Proof. by destruct m; simpl; [intros [= ->]|..]. Qed.

Lemma validate_descriptor_Done identity d :
  validate_recovered_descriptor authorize identity d = Done tt →
  rdesc_session_key d = scope_session_key (si_scope identity) ∧
  rdesc_workspace_id d = scope_workspace_id (si_scope identity) ∧
  (path_eqb (rdesc_executable_path d) (si_executable identity) = true ∨
   authorize (si_executable identity) (rdesc_executable_path d) = Done tt).
Proof.
  intros ([] & Hs%reject_if_Done%negb_false_iff%String.eqb_eq & Hrun)%out_bind_Done.
  apply out_bind_Done in Hrun as ([] & Hw%reject_if_Done%negb_false_iff%String.eqb_eq & Hrun).
  split_and!; [done..|]. destruct (path_eqb _ _); [by left|right]. by apply map_error_inv in Hrun.
Qed.

Lemma attempt_Done identity observed initial r c :
  attempt_connection authorize identity observed initial r = Done c →
  belongs identity c ∧ observed ≠ Some (rdesc_broker_instance_id (conn_descriptor c)).
Proof.
  intros (d & _ & Hrun)%out_bind_Done. apply out_bind_Done in Hrun as ([] & Hd%validate_descriptor_Done & Hrun).
  apply out_bind_Done in Hrun as ([] & Hobs%reject_if_Done%bool_decide_eq_false & Hrun).
  apply out_bind_Done in Hrun as (c' & _ & Hrun).
  apply out_bind_Done in Hrun as ([] & Heq%reject_if_Done%negb_false_iff & Hrun).
  apply out_bind_Done in Hrun as ([] & Hname%reject_if_Done & [= ->]).
  unfold descriptor_eqb in Heq. rewrite !andb_true_iff, !String.eqb_eq in Heq.
  destruct Heq as [[[[[[[Hs Hw] _] _] Hi] Hp] _] _]. destruct Hd as (Hs' & Hw' & Hx).
  split; [split|by rewrite Hi].
  - by rewrite Hs.
  - by rewrite Hw.
  - by exists (rdesc_executable_path d).
  - intros name Hn. rewrite Hn in Hname. by apply negb_false_iff, bool_decide_eq_true in Hname.
Qed.

Lemma await_Done {A} (future : Outcome RecoveryError A) now race deadline a :
  await_attempt future now race deadline = Done a → future = Done a.
Proof. unfold await_attempt. by repeat case_match. Qed.

Lemma establish_Done identity observed deadline initial index rounds c :
  establish authorize identity observed deadline initial index rounds = Some (Done c) →
  belongs identity c ∧ observed ≠ Some (rdesc_broker_instance_id (conn_descriptor c)).
Proof.
  revert initial index. induction rounds as [|r rounds IH]; intros initial index; cbn [establish]; [done|].
  destruct (round_cancelled r); [done|]. destruct (match deadline with Some _ => _ | None => _ end); [done|].
  destruct (await_attempt _ _ _ _) as [c'|[]|msg] eqn:Ha; try done.
  - intros [= ->]. apply await_Done in Ha. by eapply attempt_Done.
  - destruct (round_sleep r), deadline as [deadline|]; try done; try case_match; try done; apply IH.
Qed.

(** The connection is the answer of the backend in one of the rounds. *)
Definition round_proved (rounds : list Round) (c : BrokerConnection) : Prop :=
  ∃ r d, r ∈ rounds ∧ round_prove r d = Ok c.

Lemma attempt_proved identity observed initial r c :
  attempt_connection authorize identity observed initial r = Done c → ∃ d, round_prove r d = Ok c.
Proof.
  intros (d & _ & Hrun)%out_bind_Done. do 2 apply out_bind_Done in Hrun as (? & _ & Hrun).
  apply out_bind_Done in Hrun as (c' & Hc & Hrun). do 2 apply out_bind_Done in Hrun as (? & _ & Hrun).
  injection Hrun as ->. exists d. destruct (round_prove r d); [by injection Hc as ->|done].
Qed.

Lemma establish_proved identity observed deadline initial index rounds c :
  establish authorize identity observed deadline initial index rounds = Some (Done c) → round_proved rounds c.
Proof.
  revert initial index. induction rounds as [|r rounds IH]; intros initial index; cbn [establish]; [done|].
  assert (round_proved rounds c → round_proved (r :: rounds) c) as Hlater
    by (intros (r' & d & Hr & Hd); exists r', d; split; [by right|done]).
  destruct (round_cancelled r); [done|]. destruct (match deadline with Some _ => _ | None => _ end); [done|].
  destruct (await_attempt _ _ _ _) as [c'|[]|msg] eqn:Ha; try done.
  - intros [= ->]. apply await_Done, attempt_proved in Ha as [d Hd]. exists r, d. split; [left|done].
  - destruct (round_sleep r), deadline as [deadline|]; try done; try case_match; try done;
      intros Hrun; by eapply Hlater, IH.
Qed.

Hypothesis authorize_returns : ∀ running descriptor, no_panic (authorize running descriptor).

Lemma of_result_no_panic {E A} (r : Result E A) : no_panic (of_result r).
Proof. by destruct r. Qed.
#[local] Hint Resolve of_result_no_panic authorize_returns : herdr.

Lemma attempt_no_panic identity observed initial r :
  no_panic (attempt_connection authorize identity observed initial r).
Proof.
  unfold attempt_connection, validate_recovered_descriptor.
  repeat (apply no_panic_bind; [|intros ?]); auto with herdr.
  - destruct initial; auto with herdr.
  - destruct (path_eqb _ _); auto with herdr.
Qed.

Lemma await_no_panic {A} (future : Outcome RecoveryError A) now race deadline :
  no_panic future → no_panic (await_attempt future now race deadline).
Proof. unfold await_attempt. intros. by repeat case_match. Qed.

Lemma establish_no_panic identity observed deadline initial index rounds msg :
  establish authorize identity observed deadline initial index rounds ≠ Some (Panic msg).
Proof.
  revert initial index. induction rounds as [|r rounds IH]; intros initial index; cbn [establish]; [done|].
  destruct (round_cancelled r); [done|]. destruct (match deadline with Some _ => _ | None => _ end); [done|].
  pose proof (await_no_panic _ (round_attempt_now r) (round_race r) deadline
    (attempt_no_panic identity observed initial r)) as Hnp.
  destruct (await_attempt _ _ _ _) as [c'|[]|msg'] eqn:Ha; try done.
  destruct (round_sleep r), deadline as [deadline|]; try done; try case_match; try done; apply IH.
Qed.
End ending.

(** ** The manager *)

Section manager.
Context (authorize : PathBuf → PathBuf → Outcome ManagedError ()).
Hypothesis authorize_returns : ∀ running descriptor, no_panic (authorize running descriptor).
Implicit Types m : ConnectionManager.

(** The installed connection belongs to the session, whose agent is known; allocations
    are numbered upwards. *)
Record ManagerOK m : Prop := {
  mo_belongs : belongs authorize (cm_identity m) (cm_current m).2;
  mo_agent : si_agent_name (cm_identity m) = Some (conn_agent_name (cm_current m).2);
  mo_next : (cm_current m).1 < cm_next m;
}.

(** What the tasks of a session do to its manager. *)
Record succeeds m m' : Prop := {
  su_ok : ManagerOK m';
  su_identity : cm_identity m' = cm_identity m;
  su_next : cm_next m ≤ cm_next m';
}.

#[global] Instance succeeds_trans : Transitive succeeds.
Proof. intros m1 m2 m3 [_ H12 ?] [? H23 ?]. split; [done|congruence|lia]. Qed.

Lemma succeeds_refl m : ManagerOK m → succeeds m m.
Proof. by split. Qed.

Definition others_ok (f : ConnectionManager → ConnectionManager) : Prop :=
  ∀ m, ManagerOK m → succeeds m (f m).

Lemma lock_recovery_spec deadline wait m :
  wp (lock_recovery deadline wait) (λ _ m', m' = gate_before wait m)
    (λ _ m', m' ∈ [m; gate_before wait m]) m.
Proof.
  unfold lock_recovery. wp_step. wp_step.
  wp_step. apply wp_reject_if; [intros _|intros _; left].
  wp_step. apply wp_reject_if; [intros _|intros _; left].
  wp_step. wp_step. destruct (gate_race wait) as [| |[]]; wp_step; [|done|..]; right; left.
Qed.

(** What [recover] promises of the connection it returns. *)
Definition replaced (observed : nat * BrokerConnection) (mode : RecoveryMode)
    (c : nat * BrokerConnection) : Prop :=
  match mode with
  | BrokerReplacement => rdesc_broker_instance_id (conn_descriptor c.2)
                         ≠ rdesc_broker_instance_id (conn_descriptor observed.2)
  | RegistrationRefresh => c.1 ≠ observed.1
  end.

(** Where it comes from: another task installed it, or it is a new one that the backend
    established in one of the rounds. *)
Definition obtained (observed : nat * BrokerConnection) (rounds : list Round) m m' (c : nat * BrokerConnection) : Prop :=
  (m' = m ∧ c.1 ≠ observed.1) ∨ (c.1 = cm_next m ∧ round_proved rounds c.2).

Lemma recover_locked_spec observed mode deadline initial rounds m :
  ManagerOK m → observed.1 < cm_next m →
  wp (recover_locked authorize observed mode deadline initial rounds)
    (λ r m', succeeds m m' ∧
       match r with
       | Some c => cm_current m' = c ∧ replaced observed mode c ∧ obtained observed rounds m m' c
       | None => m' = m
       end)
    (λ _ m', m' = m) m.
Proof.
  intros Hm Hobs. unfold wp, recover_locked. destruct (_ && _) eqn:Hinst.
  - split; [by apply succeeds_refl|]. split; [done|].
    apply andb_true_iff in Hinst as [Harc%negb_true_iff%Nat.eqb_neq Hmode]. split; [|by left]. destruct mode; [|done].
    apply orb_true_iff in Hmode as [Hmode%bool_decide_eq_true|Hid%negb_true_iff%String.eqb_neq]; done.
  - destruct (establish _ _ _ _ _ _ _) as [[c|e|msg]|] eqn:Hest; [|done| |by split; [apply succeeds_refl|]].
    + pose proof (establish_proved _ _ _ _ _ _ _ _ Hest) as Hproved.
      apply establish_Done in Hest as [Hb Hrej]. split; [|split_and!; [done| |by right]].
      * split; [split|done|simpl; lia]; simpl; [done| |lia].
        rewrite (mo_agent _ Hm). f_equal. symmetry. apply Hb, (mo_agent _ Hm).
      * destruct mode; simpl; [congruence|lia].
    + by apply (establish_no_panic _ authorize_returns) in Hest.
Qed.

(** The specification of [recover]. *)
Lemma recovery_spec observed mode deadline now wait rounds m :
  ManagerOK m → others_ok (gate_before wait) → observed.1 < cm_next m →
  wp (recover_connection authorize observed mode deadline now wait rounds)
    (λ r m', succeeds m m' ∧
       match r with
       | Some c => cm_current m' = c ∧ replaced observed mode c ∧ obtained observed rounds (gate_before wait m) m' c
       | None => m' = gate_before wait m
       end)
    (λ _ m', succeeds m m' ∧ m' ∈ [m; gate_before wait m]) m.
Proof.
  intros Hm Hothers Hobs. pose proof (Hothers m Hm) as Hsucc. unfold recover_connection. wp_step.
  eapply wp_mono; [apply lock_recovery_spec| |].
  - cbv beta. intros _ m1 ->.
    eapply wp_mono; [apply recover_locked_spec; [apply Hsucc|destruct Hsucc; lia]| |].
    + cbv beta. intros r m' [Hs Hr]. split; [by etrans|done].
    + cbv beta. intros e m' ->. split; [done|right; left].
  - cbv beta. intros e m' Hm'. split; [|done].
    apply elem_of_cons in Hm' as [->|Hm'%list_elem_of_singleton]; [by apply succeeds_refl|by subst m'].
Qed.

Lemma recover_if_replaced_spec observed_id deadline now wait probe rounds m :
  ManagerOK m → others_ok (gate_before wait) →
  wp (recover_if_replaced authorize observed_id deadline now wait probe rounds)
    (λ r m', succeeds m m' ∧
       match r with
       | Some (Some c) => cm_current m' = c ∧ rdesc_broker_instance_id (conn_descriptor c.2) ≠ observed_id
       | _ => m' = gate_before wait m
       end)
    (λ _ m', succeeds m m') m.
Proof.
  intros Hm Hothers. pose proof (Hothers m Hm) as Hsucc. unfold recover_if_replaced. wp_step.
  eapply wp_mono; [apply lock_recovery_spec| |].
  2:{ cbv beta. intros e m' [->|Hm'%list_elem_of_singleton]%elem_of_cons; [by apply succeeds_refl|by subst m']. }
  cbv beta. intros _ m1 ->. set (m1 := gate_before wait m) in *. unfold wp at 1.
  destruct (String.eqb_spec (rdesc_broker_instance_id (conn_descriptor (cm_current m1).2)) observed_id) as [Hsame|Hne];
    cbn [negb]; [|done].
  pose proof (await_no_panic _ (round_attempt_now probe) (round_race probe)
    (Some (recovery_attempt_deadline now (Some deadline)))
    (no_panic_bind (map_error map_launch_error (of_result (round_ensure probe)))
       (λ _, of_result (round_read probe)) (no_panic_map_error _ _ (of_result_no_panic _))
       (λ _, of_result_no_panic _))) as Hnp.
  destruct (await_attempt _ _ _ _) as [d|[]|msg]; try done.
  apply (wp_bind (st_lift _)). apply wp_lift_no_panic; [|intros [] _|done].
  { unfold validate_recovered_descriptor. repeat (apply no_panic_bind; [|intros ?]); auto with herdr.
    destruct (path_eqb _ _); auto using no_panic_map_error with herdr. }
  destruct (String.eqb _ observed_id); [by wp_step|]. wp_step.
  eapply wp_mono; [apply recover_locked_spec; [apply Hsucc|apply (mo_next _ (su_ok _ _ Hsucc))]| |].
  - cbv beta. intros [c|] m' [Hs Hr]; wp_step; (split; [by etrans|]); [|done].
    destruct Hr as (? & Hr & _). simpl in Hr. by rewrite Hsame in Hr.
  - by cbv beta; intros e m' ->.
Qed.

(** The managers of a session, through whatever its tasks do. *)
Inductive SessionReaches : ConnectionManager → Prop :=
| reaches_connect identity now rounds m :
    connect authorize identity now rounds = Some (Done m) → SessionReaches m
| reaches_recover m observed mode deadline now gate race rounds o m' :
    SessionReaches m → observed.1 < cm_next m →
    recover_connection authorize observed mode deadline now (MkGateWait gate race id) rounds m = (o, m') →
    SessionReaches m'
| reaches_if_replaced m observed_id deadline now gate race probe rounds o m' :
    SessionReaches m →
    recover_if_replaced authorize observed_id deadline now (MkGateWait gate race id) probe rounds m = (o, m') →
    SessionReaches m'
| reaches_cancel m o m' : SessionReaches m → cancel_recovery m = (o, m') → SessionReaches m'.

Lemma others_id : others_ok id.
Proof. intros m. apply succeeds_refl. Qed.

(** The invariant of a session. *)
Lemma session_manager_ok m : SessionReaches m → ManagerOK m.
Proof.
  induction 1 as [identity now rounds m Hc|m observed mode deadline now gate race rounds o m' _ IH Hobs Hrun
                 |m observed_id deadline now gate race probe rounds o m' _ IH Hrun|m o m' _ IH Hrun].
  - unfold connect in Hc. destruct (establish _ _ _ _ _ _ _) as [[c|e|msg]|] eqn:Hest; try done.
    injection Hc as <-. apply establish_Done in Hest as [[Hs Hw Hx _] _].
    split; [split|done|simpl; lia]; simpl; [done..|]. by intros name [= ->].
  - pose proof (recovery_spec observed mode deadline now (MkGateWait gate race id) rounds m IH others_id Hobs) as Hwp.
    unfold wp in Hwp. rewrite Hrun in Hwp. destruct o; [by apply Hwp|by apply Hwp|done].
  - pose proof (recover_if_replaced_spec observed_id deadline now (MkGateWait gate race id) probe rounds m IH others_id) as Hwp.
    unfold wp in Hwp. rewrite Hrun in Hwp. destruct o; [by apply Hwp|by apply Hwp|done].
  - injection Hrun as _ <-. by destruct IH.
Qed.

(** Whatever happens to its brokers, a session stays itself: every connection that is
    installed is to a broker of its session and workspace, run by its own executable or
    by one that the catalogue authorises, and is registered as the agent that the first
    connection was. *)
Theorem session_keeps_identity m : SessionReaches m → ManagerOK m.
Proof. apply session_manager_ok. Qed.
End manager.

(** ** Whose proof *)

Section production.
Context `{JsonNumber} {crypto : ApiCrypto} `{!Reqwest} `{!RecoveryLib}.
Context (authorize : PathBuf → PathBuf → Outcome ManagedError ()).

(** In the round, [prove_and_register] is that of the production backend. *)
Definition produced_by (identity : SessionIdentity) (r : Round) (answers : BackendAnswers) : Prop :=
  ∀ d, of_result (round_prove r d) = production_prove identity answers d.

(** To the nonce that was drawn, the broker at the address of the descriptor answered with
    the HMAC, under the token of the descriptor, of its instance and the nonce; then it
    registered the session with the credentials and the name of the connection. *)
Definition authentic (answers : BackendAnswers) (c : BrokerConnection) : Prop :=
  let d := conn_descriptor c in
  ∃ nonce response proof status chunks,
    ba_random answers = Some nonce ∧
    ba_get answers (proof_url (rdesc_base_url d) (base64url_encode nonce)) = Ok response ∧
    response_url response = proof_url (rdesc_base_url d) (base64url_encode nonce) ∧
    response_status response = 200%Z ∧
    single_value HEALTH_INSTANCE_HEADER (response_headers response) = Some (rdesc_broker_instance_id d) ∧
    single_value HEALTH_PROOF_HEADER (response_headers response) = Some proof ∧
    base64url_decode proof
      = Some (hmac_sha256 (api_sha256 (as_bytes (rdesc_bearer_token d)))
                (HEALTH_PROOF_DOMAIN ++ as_bytes (rdesc_broker_instance_id d) ++ nonce)) ∧
    ba_register answers = Ok (status, chunks) ∧
    decode_registration status chunks = Done (conn_registration c, conn_agent_name c).

Lemma proof_decodes token id nonce proof :
  proof_is_valid token id nonce proof = true →
  base64url_decode proof = Some (hmac_sha256 (api_sha256 (as_bytes token)) (HEALTH_PROOF_DOMAIN ++ as_bytes id ++ nonce)).
Proof.
  unfold proof_is_valid. destruct (negb _); [done|]. destruct (base64url_decode proof) as [mac|]; [|done].
  destruct (_ || _); [done|]. by intros ->%bool_decide_eq_true.
Qed.

Lemma verified_answer get base token id random :
  verify_broker_proof get base token id random = Done tt →
  ∃ nonce response proof, random = Some nonce ∧ get (proof_url base (base64url_encode nonce)) = Ok response ∧
    response_url response = proof_url base (base64url_encode nonce) ∧ response_status response = 200%Z ∧
    single_value HEALTH_INSTANCE_HEADER (response_headers response) = Some id ∧
    single_value HEALTH_PROOF_HEADER (response_headers response) = Some proof ∧
    base64url_decode proof
      = Some (hmac_sha256 (api_sha256 (as_bytes token)) (HEALTH_PROOF_DOMAIN ++ as_bytes id ++ nonce)).
Proof.
  intros (? & _ & Hrun)%out_bind_Done. apply out_bind_Done in Hrun as ([nonce encoded] & Hfresh & Hrun).
  destruct random as [bytes|]; [|done]. injection Hfresh as -> <-.
  apply out_bind_Done in Hrun as (response & Hget & Hrun).
  destruct (get _) as [response'|] eqn:Hg; [|done]. injection Hget as ->.
  apply out_bind_Done in Hrun as (? & Hurl%reject_if_Done%negb_false_iff%String.eqb_eq & Hrun).
  apply out_bind_Done in Hrun as (? & Hst%reject_if_Done%negb_false_iff%Z.eqb_eq & Hrun).
  apply out_bind_Done in Hrun as (proof & Hproof & Hrun). apply out_bind_Done in Hrun as (instance & Hinst & Hrun).
  apply reject_if_Done, orb_false_iff in Hrun as [Hid%negb_false_iff%String.eqb_eq Hv%negb_false_iff%proof_decodes].
  subst instance. exists nonce, response, proof.
  destruct (single_value HEALTH_PROOF_HEADER _); [|done]. injection Hproof as ->.
  destruct (single_value HEALTH_INSTANCE_HEADER _); [|done]. by injection Hinst as ->.
Qed.

Lemma production_authentic identity answers d c :
  production_prove identity answers d = Done c → conn_descriptor c = d ∧ authentic answers c.
Proof.
  unfold production_prove, prove_and_register. intros (? & _ & Hrun)%out_bind_Done.
  apply out_bind_Done in Hrun as ([] & Hproof%map_error_inv%verified_answer & Hrun).
  do 3 apply out_bind_Done in Hrun as (? & _ & Hrun).
  apply out_bind_Done in Hrun as ([status chunks] & Hreg%map_error_inv & Hrun).
  apply out_bind_Done in Hrun as ([credentials name] & Hdec & Hrun).
  do 3 apply out_bind_Done in Hrun as (? & _ & Hrun). injection Hrun as <-. split; [done|].
  destruct Hproof as (nonce & response & proof & Hn & Hg & Hu & Hs & Hi & Hp & Hm).
  exists nonce, response, proof, status, chunks. split_and!; try done.
  destruct (ba_register answers); [by injection Hreg as ->|done].
Qed.

(** The production backend as the backend of a round. *)
Definition production_result (identity : SessionIdentity) (answers : BackendAnswers) (d : RuntimeDescriptor)
    : Result RecoveryError BrokerConnection :=
  match production_prove identity answers d with
  | Done c => Ok c
  | Fail e => Err e
  | Panic _ => Err Shutdown
  end.

Lemma authenticated_no_panic token registration lifecycle : no_panic (authenticated_http token registration lifecycle).
Proof.
  unfold authenticated_http. repeat (apply no_panic_bind; [|intros ?]); auto with herdr.
  - destruct registration as [[]|]; [|done]. apply no_panic_bind; auto with herdr.
  - by destruct (client_build _).
Qed.

Lemma read_body_no_panic chunks body : no_panic (read_body chunks body).
Proof.
  revert body. induction chunks as [|[chunk|] chunks IH]; intros body; simpl; [done| |done].
  apply no_panic_bind; auto with herdr.
Qed.

Lemma verify_no_panic get base token id random : no_panic (verify_broker_proof get base token id random).
Proof.
  unfold verify_broker_proof, fresh_nonce.
  apply no_panic_bind; [auto with herdr|]. intros _. apply no_panic_bind; [by destruct random|]. intros [nonce encoded].
  repeat (apply no_panic_bind; [|intros ?]); auto with herdr. by destruct (get _).
Qed.

Lemma production_no_panic identity answers d : no_panic (production_prove identity answers d).
Proof.
  unfold production_prove, prove_and_register. apply no_panic_bind; [by case_match|]. intros _.
  do 5 (apply no_panic_bind;
    [auto using no_panic_map_error, of_result_no_panic, verify_no_panic, authenticated_no_panic with herdr|intros ?]).
  apply no_panic_bind.
  { unfold decode_registration. repeat (apply no_panic_bind; [|intros ?]);
      auto using no_panic_map_error, of_result_no_panic, read_body_no_panic with herdr. }
  intros [credentials name]. repeat (apply no_panic_bind; [|intros ?]);
    auto using no_panic_map_error, authenticated_no_panic with herdr.
Qed.

Lemma production_produces identity answers r :
  round_prove r = production_result identity answers → produced_by identity r answers.
Proof.
  intros Hr d. rewrite Hr. unfold production_result. pose proof (production_no_panic identity answers d) as Hnp.
  by destruct (production_prove identity answers d).
Qed.

Hypothesis authorize_returns : ∀ running descriptor, no_panic (authorize running descriptor).

(** C25: Recovering replaces what was lost.  The connection that [recover] returns is the
    one installed afterwards, of the same session, workspace and agent; it is to another
    broker instance when the broker was lost, and another registration when only the
    registration was.  Either another task had installed it before this one had its turn,
    and nothing is established; or it is new, and authentic: in one of the rounds, with the
    production backend, the broker it names answered a fresh nonce with the HMAC under the
    token of its descriptor and then registered the session.  A failure leaves the
    installed connection as the others left it. *)
Theorem recovery_replaces observed mode deadline now wait rounds answers m :
  ManagerOK authorize m → others_ok authorize (gate_before wait) → observed.1 < cm_next m →
  Forall2 (produced_by (cm_identity m)) rounds answers →
  wp (recover_connection authorize observed mode deadline now wait rounds)
    (λ r m', succeeds authorize m m' ∧
       match r with
       | Some c => cm_current m' = c ∧ replaced observed mode c ∧
           ((m' = gate_before wait m ∧ c.1 ≠ observed.1) ∨
            (c.1 = cm_next (gate_before wait m) ∧ ∃ a, a ∈ answers ∧ authentic a c.2))
       | None => m' = gate_before wait m
       end)
    (λ _ m', succeeds authorize m m' ∧ m' ∈ [m; gate_before wait m]) m.
Proof.
  intros Hm Hothers Hobs Hproduced. eapply wp_mono; [by apply recovery_spec| |done].
  intros [c|] m' [Hs Hr]; split; try done. destruct Hr as (Hc & Hrep & [Hother|[Hnew (r & d & Hr & Hd)]]);
    (split; [done|]; split; [done|]); [by left|right]. split; [done|].
  apply list_elem_of_lookup in Hr as [i Hi]. destruct (Forall2_lookup_l _ _ _ _ _ Hproduced Hi) as (a & Ha & Hby).
  exists a. split; [by eapply list_elem_of_lookup_2|]. specialize (Hby d). rewrite Hd in Hby.
  by eapply production_authentic.
Qed.
End production.

Module RecoverySample.
Definition scope : RuntimeScope := MkRuntimeScope "session" "workspace" "key".
Definition me (name : option AgentName) : SessionIdentity := MkSessionIdentity scope "/bin/a" "pane" "harness" name.
Definition broker (instance : string) : RuntimeDescriptor :=
  MkRuntimeDescriptor "session" "workspace" "http://127.0.0.1:80" "token" instance "/bin//a" 7 0.
Definition client : HttpClient := MkHttpClient [] false.
Definition joined (d : RuntimeDescriptor) (epoch : Z) : BrokerConnection :=
  MkBrokerConnection d (MkCredentials (MkRegistrationId "r") (MkRegistrationEpoch epoch)) (MkAgentName "a") client client.
Definition answers (now : Z) (instance : string) (epoch : Z) : Round :=
  MkRound false now (Ok (broker instance)) (Ok (broker instance)) (λ d, Ok (joined d epoch)) now FutureFirst 10 now (Ok tt).
Definition silent (now : Z) : Round :=
  MkRound false now (Err (LaunchUnavailable "no broker")) (Err Shutdown) (λ _, Err Shutdown) now FutureFirst 10 now (Ok tt).
Definition own (running descriptor : PathBuf) : Outcome ManagedError () := Fail (MkManagedError "owned_process_mismatch" "").

Definition first : ConnectionManager :=
  MkConnectionManager (me (Some (MkAgentName "a"))) (0, joined (broker "i1") 1) 1 false.
Definition at_once : GateWait := MkGateWait 0 FutureFirst id.

Lemma first_reached : SessionReaches own first.
Proof. by apply (reaches_connect own (me None) 0 [answers 0 "i1" 1]). Defined.

(** Witness: seven percent of the fourth delay. *)
Lemma backoff_is_exact_witness : backoff_delay 3 7 = 428000000%Z.
Proof. exact (proj1 (backoff_is_exact 3 7 ltac:(lia))). Defined.

(** Witness: no broker for eleven seconds. *)
Definition long_outage : list Round :=
  (λ ms, silent (from_millis ms)) <$>
    [0; 55; 165; 385; 825; 1705; 2805; 3905; 5005; 6105; 7205; 8305; 9405; 10505; 11605]%Z.

Lemma recovery_attempt_ends_witness :
  ∃ outcome, establish own (me None) None (Some (recovery_attempt_deadline 0 None)) None 0 long_outage = Some outcome.
Proof.
  apply (recovery_attempt_ends own (me None) None None 0 None long_outage).
  - vm_compute. repeat split; try done.
  - by vm_compute; lia.
Defined.

(** The broker of [HealthSample], which registers the session. *)
#[local] Existing Instances Scenario.number HealthSample.crypto HealthSample.http.
#[local] Instance lib : RecoveryLib := {|
  json_from_slice := λ _, None;
  registration_from_slice := λ _, Ok (MkCredentials (MkRegistrationId "r") (MkRegistrationEpoch 2), MkAgentName "a");
  client_build := λ _, None;
  status_display := λ _, EmptyString;
|}.
Definition live : BackendAnswers :=
  MkBackendAnswers None HealthSample.ask (Some HealthSample.nonce) (Ok 200%Z) (Ok (200%Z, [Ok [1%Z]])).
Definition produced : Round :=
  MkRound false 0 (Ok (broker HealthSample.instance)) (Ok (broker HealthSample.instance))
    (production_result (cm_identity first) live) 0 FutureFirst 10 0 (Ok tt).

(** Witness: the broker was replaced, by one that has proved itself. *)
Lemma recovery_replaces_witness :
  ∃ c m', recover_connection own (0, joined (broker "i1") 1) BrokerReplacement None 0 at_once [produced] first
          = (Done (Some c), m') ∧ replaced (0, joined (broker "i1") 1) BrokerReplacement c ∧ authentic live c.2.
Proof.
  pose proof (recovery_replaces own (λ _ _, I) (0, joined (broker "i1") 1) BrokerReplacement None 0 at_once
    [produced] [live] first (session_manager_ok own (λ _ _, I) _ first_reached) (others_id own) ltac:(simpl; lia)
    ltac:(constructor; [by apply production_produces|constructor])) as Hwp.
  unfold wp in Hwp.
  destruct (recover_connection _ _ _ _ _ _ _ first) as [o m'] eqn:Hrun.
  assert (∃ c, o = Done (Some c) ∧ c.1 = 1 ∧ cm_next m' = 2) as (c & -> & Hc & Hnext).
  { apply (f_equal (λ out, match out.1 with Done (Some c) => (Some c.1, cm_next out.2) | _ => (None, 0) end)) in Hrun.
    vm_compute in Hrun. destruct o as [[c|]| |]; try done. injection Hrun as Hc Hn. by exists c. }
  destruct Hwp as [_ (_ & Hrep & [[Hm _]|[_ (a & Ha & Hauth)]])].
  - exfalso. subst m'. by vm_compute in Hnext.
  - apply list_elem_of_singleton in Ha as ->. by exists c, m'.
Defined.

(** Witness: the manager after it. *)
Lemma session_keeps_identity_witness :
  ManagerOK own (recover_connection own (0, joined (broker "i1") 1) BrokerReplacement None 0 at_once
    [answers 0 "i2" 2] first).2.
Proof.
  apply (session_keeps_identity own (λ _ _, I)).
  eapply (reaches_recover own first (0, joined (broker "i1") 1) BrokerReplacement None 0 0 FutureFirst [answers 0 "i2" 2]);
    [apply first_reached|simpl; lia|apply surjective_pairing].
Defined.
End RecoverySample.
