(* ===== verification/SessionFrames.v ===== *)
(** * Requests on standard input

    The framing of [herdr-a2a-cli/src/session.rs]: [read_bounded_line] splits what the
    harness writes into lines of bounded length, whatever pieces it arrives in, and
    [parse_session_request] accepts the envelopes.  A reader is the unread part of its
    buffer and the results of the reads to come; a read of no bytes is the end of the
    input. *)
From stdpp Require Import prelude gmap strings.
From S2P Require Import Prelude RustStd CliText Model A2aFront.

Definition MAX_NDJSON_LINE_BYTES : nat := 512 * 1024.
Definition MAX_REQUEST_ID_BYTES : nat := 256.
Definition MAX_METHOD_BYTES : nat := 64.
Definition MAX_PARAMS_BYTES : nat := 511 * 1024.
Definition PROTOCOL_SENTINEL_ID : string := "".
Definition MAX_IN_FLIGHT_REQUESTS : nat := 64.

(** [io::Error] *)
Definition IoError : Type := string.

Record Reader := MkReader {
  reader_buffer : Bytes;
  reader_source : list (Result IoError Bytes);
}.

Inductive BoundedLine := Line (line : Bytes) | Oversized | Eof.

(** [line] and [oversized] after the content of one buffer. *)
Definition absorb (line : Bytes) (oversized : bool) (content : Bytes) : Bytes * bool :=
  if oversized then (line, true)
  else if (MAX_NDJSON_LINE_BYTES <? length line + length content)%nat then ([], true)
  else (line ++ content, false).

Definition at_end (line : Bytes) (oversized : bool) : BoundedLine :=
  if oversized then Oversized else match line with [] => Eof | _ => Line line end.

Definition at_newline (line : Bytes) (oversized : bool) : BoundedLine :=
  if oversized then Oversized else Line (strip_cr line).

(** The loop of [read_bounded_line]: each turn looks at one buffer, whole when it has no
    newline and up to the newline when it has one. *)
Fixpoint read_from (line : Bytes) (oversized : bool) (source : list (Result IoError Bytes))
    : Result IoError BoundedLine * Reader :=
  match source with
  | [] => (Ok (at_end line oversized), MkReader [] [])
  | Ok [] :: source => (Ok (at_end line oversized), MkReader [] source)
  | Err error :: source => (Err error, MkReader [] source)
  | Ok available :: source =>
      match split_once 10 available with
      | Some (content, rest) =>
          let '(line, oversized) := absorb line oversized content in
          (Ok (at_newline line oversized), MkReader rest source)
      | None =>
          let '(line, oversized) := absorb line oversized available in
          read_from line oversized source
      end
  end.

Definition read_bounded_line (reader : Reader) : Result IoError BoundedLine * Reader :=
  match reader_buffer reader with
  | [] => read_from [] false (reader_source reader)
  | buffer => read_from [] false (Ok buffer :: reader_source reader)
  end.

Inductive InputFrame := FrameLine (line : Bytes) | FrameOversized | FrameIo (error : IoError).

(** [stdin_lines], for a receiver that takes at most [count] frames. *)
Fixpoint stdin_lines (count : nat) (reader : Reader) : list InputFrame :=
  match count with
  | O => []
  | S count =>
      match read_bounded_line reader with
      | (Ok (Line line), reader) => FrameLine line :: stdin_lines count reader
      | (Ok Oversized, reader) => FrameOversized :: stdin_lines count reader
      | (Ok Eof, _) => []
      | (Err error, reader) => FrameIo error :: stdin_lines count reader
      end
  end.

(** ** Envelopes *)

Record SessionError := MkSessionError {
  se_code : string;
  se_message : string;
  se_candidates : option (list AgentName);
}.

Section envelopes.
Context `{JsonNumber} {serde : SerdeJson}.

Record SessionRequest := MkSessionRequest {
  sq_id : string;
  sq_method : string;
  sq_params : Value;
}.

Record SessionResponse := MkSessionResponse {
  sp_id : string;
  sp_result : option Value;
  sp_error : option SessionError;
}.

Definition success (id : string) (result : Value) : SessionResponse :=
  MkSessionResponse id (Some result) None.
Definition failure (id code message : string) : SessionResponse :=
  MkSessionResponse id None (Some (MkSessionError code message None)).
Definition failure_with_candidates (id code message : string) (candidates : list AgentName)
    : SessionResponse :=
  MkSessionResponse id None (Some (MkSessionError code message (Some candidates))).

(** The texts of the errors of [serde_json]. *)
Class SessionSerde := {
  parse_value : Bytes → Result string Value;
  envelope_error : Value → string;
}.
Context {session_serde : SessionSerde}.

(** The derived [Deserialize] of [SessionRequest]: an object with exactly the three
    fields, in any order, or an array of the three. *)
Definition request_of_value (value : Value) : option SessionRequest :=
  match value with
  | VObject map =>
      match entry "id" map, entry "method" map, entry "params" map with
      | Some (VString id), Some (VString method), Some params =>
          if forallb (λ field, bool_decide (field.1 ∈ ["id"; "method"; "params"])) map
          then Some (MkSessionRequest id method params) else None
      | _, _, _ => None
      end
  | VArray [VString id; VString method; params] => Some (MkSessionRequest id method params)
  | _ => None
  end.

Definition bounded (minimum maximum : nat) (s : string) : bool :=
  (minimum <=? str_len s)%nat && (str_len s <=? maximum)%nat.

Definition is_object (value : Value) : bool := match value with VObject _ => true | _ => false end.

Definition parse_session_request (line : Bytes) : Outcome SessionResponse SessionRequest :=
  let? value :=
    match parse_value line with
    | Ok value => Done value
    | Err error => Fail (failure PROTOCOL_SENTINEL_ID "protocol_error" ("invalid JSON request: " +:+ error))
    end in
  let recovered_id :=
    match and_then (value_get "id" value) as_str with
    | Some id => if bounded 1 MAX_REQUEST_ID_BYTES id then Some id else None
    | None => None
    end in
  let? request := ok_or (request_of_value value)
    (failure (default PROTOCOL_SENTINEL_ID recovered_id) "protocol_error"
       ("invalid request envelope: " +:+ envelope_error value)) in
  let? _ := reject_if (negb (bounded 1 MAX_REQUEST_ID_BYTES (sq_id request)))
    (failure PROTOCOL_SENTINEL_ID "protocol_error" "request ID must be a non-empty bounded string") in
  let? _ := reject_if (negb (bounded 1 MAX_METHOD_BYTES (sq_method request)))
    (failure (sq_id request) "protocol_error" "request method must be a non-empty bounded string") in
  let? _ := reject_if (negb (is_object (sq_params request)) || (MAX_PARAMS_BYTES <? to_vec_len (sq_params request))%nat)
    (failure (sq_id request) "protocol_error" "request params must be a bounded object") in
  Done request.
End envelopes.

(** ** Framing does not depend on the pieces *)

(** The frames of a whole input. *)
Definition frame_of (limit : bool) (line : Bytes) : InputFrame :=
  if (MAX_NDJSON_LINE_BYTES <? length line)%nat then FrameOversized
  else FrameLine (if limit then strip_cr line else line).

Fixpoint frames (l current : Bytes) : list InputFrame :=
  match l with
  | [] => match current with [] => [] | _ => [frame_of false (reverse current)] end
  | b :: l => if (b =? 10)%Z then frame_of true (reverse current) :: frames l [] else frames l (b :: current)
  end.

Lemma split_once_app sep a b :
  split_once sep (a ++ b) =
    match split_once sep a with
    | Some (c, r) => Some (c, r ++ b)
    | None => match split_once sep b with Some (c, r) => Some (a ++ c, r) | None => None end
    end.
Proof.
  induction a as [|x a IH]; simpl; [by destruct (split_once sep b) as [[]|]|].
  destruct (x =? sep)%Z; [done|]. rewrite IH.
  destruct (split_once sep a) as [[]|]; [done|]. by destruct (split_once sep b) as [[]|].
Qed.

Lemma split_once_length sep l c r : split_once sep l = Some (c, r) → length r < length l.
Proof.
  revert c. induction l as [|x l IH]; intros c; simpl; [done|].
  destruct (x =? sep)%Z; [intros [= <- <-]; lia|].
  destruct (split_once sep l) as [[c' r']|]; [|done]. intros [= <- ->]. specialize (IH c' eq_refl). lia.
Qed.

(** The accumulated line of a prefix [cur] of a line. *)
Definition line_state (cur : Bytes) : Bytes * bool :=
  if (MAX_NDJSON_LINE_BYTES <? length cur)%nat then ([], true) else (cur, false).

Lemma absorb_line cur content :
  absorb (line_state cur).1 (line_state cur).2 content = line_state (cur ++ content).
Proof.
  unfold absorb, line_state. rewrite length_app.
  destruct (Nat.ltb_spec MAX_NDJSON_LINE_BYTES (length cur)); simpl; [|done].
  by rewrite (proj2 (Nat.ltb_lt _ _)) by lia.
Qed.

(** The bytes a reader still gives, with no error among them. *)
Definition gives (reader : Reader) (l : Bytes) : Prop :=
  ∃ chunks, reader_source reader = Ok <$> chunks ∧ Forall (λ c, c ≠ []) chunks ∧
    l = reader_buffer reader ++ mjoin chunks.

Definition line_frame (line : BoundedLine) : option InputFrame :=
  match line with Line l => Some (FrameLine l) | Oversized => Some FrameOversized | Eof => None end.

Lemma read_from_spec cur chunks :
  Forall (λ c, c ≠ []) chunks →
  ∃ line reader, read_from (line_state cur).1 (line_state cur).2 (Ok <$> chunks) = (Ok line, reader) ∧
    match split_once 10 (mjoin chunks) with
    | Some (content, rest) => line_frame line = Some (frame_of true (cur ++ content)) ∧ gives reader rest
    | None => line_frame line = match cur ++ mjoin chunks with [] => None | l => Some (frame_of false l) end ∧
        gives reader []
    end.
Proof.
  intros Hall. revert cur. induction Hall as [|chunk chunks Hne Hall IH]; intros cur.
  - eexists _, _. split; [done|]. cbn [mjoin list_join split_once]. split; [|by exists []].
    rewrite app_nil_r. unfold line_state, at_end, frame_of.
    destruct (Nat.ltb_spec MAX_NDJSON_LINE_BYTES (length cur)) as [Hlt|Hge]; cbn [fst snd line_frame];
      (destruct cur as [|b cur]; [done || (simpl in Hlt; lia)|]).
    + by rewrite (proj2 (Nat.ltb_lt _ _) Hlt).
    + by rewrite (proj2 (Nat.ltb_ge _ _) Hge).
  - cbn [fmap list_fmap mjoin list_join]. rewrite split_once_app.
    destruct chunk as [|b chunk]; [done|]. cbn [read_from].
    destruct (split_once 10 (b :: chunk)) as [[content rest]|].
    + rewrite absorb_line. unfold line_state at 1.
      destruct (Nat.ltb_spec MAX_NDJSON_LINE_BYTES (length (cur ++ content))) as [Hlt|Hge];
        eexists _, _; (split; [done|]); (split; [|exists chunks; split_and!; [reflexivity|assumption|reflexivity]]); simpl; unfold frame_of; f_equal.
      * by rewrite (proj2 (Nat.ltb_lt _ _)).
      * by rewrite (proj2 (Nat.ltb_ge _ _)).
    + rewrite absorb_line. destruct (line_state (cur ++ b :: chunk)) as [line oversized] eqn:Hst.
      destruct (IH (cur ++ b :: chunk)) as (l & reader & Hrun & Hspec). rewrite Hst in Hrun. simpl in Hrun.
      exists l, reader. split; [done|].
      destruct (split_once 10 (mjoin chunks)) as [[content rest]|]; by rewrite <-app_assoc in Hspec.
Qed.

Lemma frames_split l cur :
  frames l cur = match split_once 10 l with
                 | Some (c, r) => frame_of true (reverse cur ++ c) :: frames r []
                 | None => match reverse cur ++ l with [] => [] | x => [frame_of false x] end
                 end.
Proof.
  revert cur. induction l as [|b l IH]; intros cur; simpl.
  - rewrite app_nil_r. destruct cur as [|b cur]; [done|]. rewrite reverse_cons. by destruct (reverse cur).
  - destruct (Z.eqb_spec b 10) as [->|Hb]; [by rewrite app_nil_r|].
    rewrite IH, reverse_cons. destruct (split_once 10 l) as [[c r]|]; by rewrite <-app_assoc.
Qed.

Lemma stdin_lines_end count reader : gives reader [] → stdin_lines count reader = [].
Proof.
  intros (chunks & Hsrc & Hne & Hnil). symmetry in Hnil. apply app_nil in Hnil as [Hb Hc].
  destruct count as [|count]; [done|]. cbn [stdin_lines]. unfold read_bounded_line. rewrite Hb, Hsrc.
  destruct Hne as [|[|? ?] chunks ? _]; done.
Qed.

Lemma stdin_lines_frames count reader l :
  gives reader l → (length l < count)%nat → stdin_lines count reader = frames l [].
Proof.
  revert reader l. induction count as [|count IH]; intros reader l (chunks & Hsrc & Hne & ->) Hlen; [lia|].
  assert (∃ line r, read_bounded_line reader = (Ok line, r) ∧
    match split_once 10 (reader_buffer reader ++ mjoin chunks) with
    | Some (content, rest) => line_frame line = Some (frame_of true content) ∧ gives r rest
    | None => line_frame line = match reader_buffer reader ++ mjoin chunks with [] => None | l => Some (frame_of false l) end ∧
        gives r []
    end) as (line & r & Hrun & Hspec).
  { unfold read_bounded_line. rewrite Hsrc. destruct (reader_buffer reader) as [|b buffer] eqn:Hb.
    - exact (read_from_spec [] chunks Hne).
    - assert (Forall (λ c : Bytes, c ≠ []) ((b :: buffer) :: chunks)) as Hne' by (by constructor).
      exact (read_from_spec [] ((b :: buffer) :: chunks) Hne'). }
  cbn [stdin_lines]. rewrite Hrun, frames_split. change (reverse [] ++ (reader_buffer reader ++ mjoin chunks)) with (reader_buffer reader ++ mjoin chunks).
  destruct (split_once 10 (reader_buffer reader ++ mjoin chunks)) as [[content rest]|] eqn:Hs.
  - destruct Hspec as [Hline Hgives]. pose proof (split_once_length _ _ _ _ Hs).
    specialize (IH r rest Hgives ltac:(lia)).
    destruct line; simpl in Hline; [injection Hline as Hline|injection Hline as Hline|done];
      by rewrite IH, Hline.
  - destruct Hspec as [Hspec Hend%(stdin_lines_end count)].
    destruct (reader_buffer reader ++ mjoin chunks) as [|x l'].
    + by destruct line.
    + destruct line; simpl in Hspec; [injection Hspec as Hspec|injection Hspec as Hspec|done]; by rewrite Hspec, Hend.
Qed.

(** The frames of an input do not depend on the pieces it is read in: they are the
    lines of the whole, each without its [\n] and one [\r] before it, and a line over the
    bound is replaced by one error.  The reader comes to the end of the input after at
    most one frame per byte. *)
Theorem framing_ignores_chunks chunks count :
  Forall (λ c, c ≠ []) chunks → (length (mjoin chunks) < count)%nat →
  stdin_lines count (MkReader [] (Ok <$> chunks)) = frames (mjoin chunks) [].
Proof. intros Hne Hcount. apply stdin_lines_frames; [by exists chunks|done]. Qed.

Module FramesSample.
Definition text (s : string) : Bytes := as_bytes s.

(** Witness: two lines in three pieces. *)
Lemma framing_ignores_chunks_witness :
  stdin_lines 9 (MkReader [] (Ok <$> [text "ab"; [13; 10]%Z ++ text "c"; text "d"]))
  = [FrameLine (text "ab"); FrameLine (text "cd")].
Proof.
  rewrite (framing_ignores_chunks [text "ab"; [13; 10]%Z ++ text "c"; text "d"] 9);
    [by vm_compute|by repeat constructor|by vm_compute; lia].
Defined.
End FramesSample.
