(* ===== verification/SessionLoop.v ===== *)
(** * The loop of a session

    [run_loop] of [herdr-a2a-cli/src/session.rs] with the objects it shares with the
    tasks it spawns: the identifiers in flight, the queue of the writer, and the output
    that keeps the answers to [list_agents] in order.  An [Event] is one thing that
    happens next: a line arrives, a task has its result, or an output makes progress.
    [accepted] and [listings] record the identifiers that were reserved, of all requests
    and of those for [list_agents]; the code does not keep them. *)
From stdpp Require Import prelude gmap strings.
From S2P Require Import Prelude RustStd CliText Model Recovery SessionFrames.

Section loop.
Context `{JsonNumber} {serde : SerdeJson} {session_serde : SessionSerde}.

(** The error of a request, as [execute_request] distinguishes it. *)
Inductive RequestFailure :=
| AcknowledgementFailed (message : string)
| RecoveryFailed (error : RecoveryError)
| PrivateFailed (code message : string) (candidates : list AgentName)
| OtherFailed (message : string).

(** The answer of [execute_request]. *)
Definition execute_response (id : string) (outcome : Result RequestFailure Value) : SessionResponse :=
  match outcome with
  | Ok value => success id value
  | Err (AcknowledgementFailed message) => failure id "acknowledgement_failed" message
  | Err (RecoveryFailed error) => failure id (response_code error) (RecoveryError_display error)
  | Err (PrivateFailed code message ((_ :: _) as candidates)) =>
      failure_with_candidates id code message candidates
  | Err (PrivateFailed code message []) => failure id "request_failed" message
  | Err (OtherFailed message) => failure id "request_failed" message
  end.

(** A spawned request; one of [list_agents] has its place in the order. *)
Record Spawned := MkSpawned { spawned_id : string; spawned_sequence : option Z }.

(** A record of the writer's queue; its key stands for its completion channel, and the
    answers of [list_agents] show their place in the order. *)
Record OutputRecord := MkOutputRecord {
  output_response : SessionResponse;
  output_release : option string;
  output_sequence : option Z;
  output_key : nat;
}.

(** [OrderedListOutput::write] while it holds its lock: at the head of its loop, or
    waiting for the record it has sent. *)
Inductive Flush := FlushFree | FlushHead | FlushAwaits (key : nat).

Record Loop := MkLoop {
  in_flight : gset string;
  list_sequence : Z;
  spawned : gmap nat Spawned;
  next_task : nat;
  next_sequence : Z;
  pending : gmap Z SessionResponse;
  flush : Flush;
  queue : list OutputRecord;
  next_key : nat;
  control : option (SessionResponse * option nat);
  stdout : list OutputRecord;
  accepted : list string;
  listings : list string;
}.

#[global] Instance Loop_fields : Fields Loop := λ s,
  MkLoop (in_flight s) (list_sequence s) (spawned s) (next_task s) (next_sequence s) (pending s)
    (flush s) (queue s) (next_key s) (control s) (stdout s) (accepted s) (listings s).

Definition Loop_start : Loop := MkLoop ∅ 0 ∅ 0 0 ∅ FlushFree [] 0 None [] [] [].

Inductive ReserveIdError := DuplicateId | FullFlight.

Definition reserve_id (id : string) (s : Loop) : Result ReserveIdError Loop :=
  if decide (id ∈ in_flight s) then Err DuplicateId
  else if (MAX_IN_FLIGHT_REQUESTS <=? size (in_flight s))%nat then Err FullFlight
  else Ok (s <| in_flight ::= λ ids, {[ id ]} ∪ ids |> <| accepted ::= λ l, l ++ [id] |>).

Definition refuse (response : SessionResponse) (s : Loop) : Loop :=
  s <| control := Some (response, None) |>.

Definition spawn (id : string) (sequence : option Z) (s : Loop) : Loop :=
  s <| spawned ::= insert (next_task s) (MkSpawned id sequence) |> <| next_task ::= S |>.

(** A frame, when no control output is pending; [Fail] where the session ends. *)
Definition receive (frame : InputFrame) (s : Loop) : Outcome IoError Loop :=
  match frame with
  | FrameIo error => Fail error
  | FrameOversized =>
      Done (refuse (failure PROTOCOL_SENTINEL_ID "protocol_error"
                      "NDJSON request exceeds the bounded envelope size") s)
  | FrameLine line =>
      match parse_session_request line with
      | Fail response => Done (refuse response s)
      | Panic msg => Panic msg
      | Done request =>
          match reserve_id (sq_id request) s with
          | Err DuplicateId =>
              Done (refuse (failure (sq_id request) "duplicate_id" "request ID is already in flight") s)
          | Err FullFlight =>
              Done (refuse (failure (sq_id request) "too_many_requests" "too many requests are in flight") s)
          | Ok s =>
              if String.eqb (sq_method request) "list_agents" then
                match checked_add_u64 (list_sequence s) 1 with
                | None => Fail "list request sequence exhausted"
                | Some next =>
                    Done (spawn (sq_id request) (Some (list_sequence s)) s
                            <| list_sequence := next |> <| listings ::= λ l, l ++ [sq_id request] |>)
                end
              else Done (spawn (sq_id request) None s)
          end
      end
  end.

(** [write_record] up to its wait for completion. *)
Definition send_record (response : SessionResponse) (release : option string) (sequence : option Z)
    (s : Loop) : Loop :=
  s <| queue ::= λ q, q ++ [MkOutputRecord response release sequence (next_key s)] |> <| next_key ::= S |>.

Definition write_request (response : SessionResponse) (sequence : option Z) (s : Loop) : Loop :=
  send_record response (Some (sp_id response)) sequence s.

(** The record has been taken by the writer. *)
Definition completed (key : nat) (s : Loop) : bool :=
  forallb (λ r, negb (output_key r =? key)%nat) (queue s).

(** A task has its result. *)
Definition finish (task : nat) (outcome : Result RequestFailure Value) (s : Loop) : option Loop :=
  match spawned s !! task with
  | None => None
  | Some (MkSpawned id None) =>
      Some (write_request (execute_response id outcome) None (s <| spawned ::= delete task |>))
  | Some (MkSpawned id (Some sequence)) =>
      match flush s with
      | FlushFree =>
          Some (s <| spawned ::= delete task |>
                  <| pending ::= insert sequence (execute_response id outcome) |>
                  <| flush := FlushHead |>)
      | _ => None
      end
  end.

(** [OrderedListOutput::write] goes on. *)
Definition flush_step (s : Loop) : option Loop :=
  match flush s with
  | FlushFree => None
  | FlushHead =>
      match pending s !! next_sequence s with
      | None => Some (s <| flush := FlushFree |>)
      | Some response =>
          Some (write_request response (Some (next_sequence s))
                  (s <| pending ::= delete (next_sequence s) |>)
                  <| flush := FlushAwaits (next_key s) |>)
      end
  | FlushAwaits key =>
      if completed key s then Some (s <| next_sequence ::= Z.succ |> <| flush := FlushHead |>) else None
  end.

(** The control output goes on. *)
Definition control_step (s : Loop) : option Loop :=
  match control s with
  | None => None
  | Some (response, None) =>
      Some (send_record response None None s <| control := Some (response, Some (next_key s)) |>)
  | Some (response, Some key) => if completed key s then Some (s <| control := None |>) else None
  end.

(** One turn of [writer_loop] whose writes succeed. *)
Definition writer_step (s : Loop) : option Loop :=
  match queue s with
  | [] => None
  | record :: rest =>
      let s := s <| queue := rest |> <| stdout ::= λ l, l ++ [record] |> in
      match output_release record with
      | None => Some s
      | Some id => Some (s <| in_flight ::= λ ids, ids ∖ {[ id ]} |>)
      end
  end.

Inductive Event :=
| EventFrame (frame : InputFrame)
| EventFinished (task : nat) (outcome : Result RequestFailure Value)
| EventFlush
| EventControl
| EventWriter.

Definition handle_event (event : Event) (s : Loop) : option Loop :=
  match event with
  | EventFrame frame =>
      match control s with
      | Some _ => None
      | None => match receive frame s with Done s => Some s | _ => None end
      end
  | EventFinished task outcome => finish task outcome s
  | EventFlush => flush_step s
  | EventControl => control_step s
  | EventWriter => writer_step s
  end.

Inductive LoopReaches : Loop → Prop :=
| loop_start : LoopReaches Loop_start
| loop_event s event s' : LoopReaches s → handle_event event s = Some s' → LoopReaches s'.

(** The end of a session: the error of the loop first, then that of a request, then that
    of the writer. *)
Definition resolve_run_loop_result {E} (primary : Result E ()) (producer : option E)
    (writer : Result E ()) : Result E () :=
  match primary with
  | Err error => Err error
  | Ok _ => match producer with Some error => Err error | None => writer end
  end.

(** ** Who is in flight *)

(** The identifiers whose answers have not been written: of the tasks, of the answers
    that wait for their turn, and of the queue. *)
Definition unanswered (s : Loop) : list string :=
  (spawned_id <$> (map_to_list (spawned s)).*2) ++ (sp_id <$> (map_to_list (pending s)).*2)
  ++ omap output_release (queue s).
Definition answered (s : Loop) : list string := omap output_release (stdout s).

(** The answers to [list_agents] that are yet to come, and how many have been sent. *)
Definition open_listings (s : Loop) : list Z :=
  omap spawned_sequence (map_to_list (spawned s)).*2 ++ (map_to_list (pending s)).*1.
Definition sent_listings (s : Loop) : Z :=
  match flush s with FlushAwaits _ => next_sequence s + 1 | _ => next_sequence s end.

(** The identifier that belongs to a place in the order. *)
Definition listing_of (s : Loop) (sequence : Z) (id : string) : Prop :=
  listings s !! Z.to_nat sequence = Some id.

(** Every reserved identifier has exactly one answer, written or yet to be written, and
    only those without one are in flight. *)
Record FlightOK (s : Loop) : Prop := {
  lo_flight : NoDup (unanswered s);
  lo_ids : list_to_set (unanswered s) = in_flight s;
  lo_size : (size (in_flight s) ≤ MAX_IN_FLIGHT_REQUESTS)%nat;
  lo_history : accepted s ≡ₚ answered s ++ unanswered s;
  lo_tasks : ∀ k, is_Some (spawned s !! k) → (k < next_task s)%nat;
}.

(** The answers to [list_agents] that were sent have the first places of the order, the
    others have the rest, and each carries the identifier of its place. *)
Record ListingsOK (s : Loop) : Prop := {
  lo_count : list_sequence s = Z.of_nat (length (listings s));
  lo_range : (0 ≤ sent_listings s ≤ list_sequence s)%Z;
  lo_open : open_listings s ≡ₚ seqZ (sent_listings s) (list_sequence s - sent_listings s);
  lo_sent : omap output_sequence (stdout s ++ queue s) = seqZ 0 (sent_listings s);
  lo_spawned : ∀ k id q, spawned s !! k = Some (MkSpawned id (Some q)) → listing_of s q id;
  lo_pending : ∀ q r, pending s !! q = Some r → listing_of s q (sp_id r);
  lo_records : ∀ r q, r ∈ stdout s ++ queue s → output_sequence r = Some q →
    listing_of s q (sp_id (output_response r));
  lo_idle : flush s = FlushFree → pending s !! next_sequence s = None;
}.
End loop.
