(* ===== verification/SessionLoopTheorems.v ===== *)
(** * The answers of a session

    The invariants of the loop of [herdr-a2a-cli/src/session.rs] over every order of
    events: each accepted request is answered once, answers to [list_agents] leave in the
    order of their requests, and the output never waits for itself. *)
From stdpp Require Import prelude gmap strings.
From S2P Require Import Prelude RustStd CliText Model Recovery SessionFrames SessionLoop.

Section lists.
Context {K A : Type} `{Countable K}.

Lemma values_insert (m : gmap K A) k x :
  m !! k = None → (map_to_list (<[k:=x]> m)).*2 ≡ₚ x :: (map_to_list m).*2.
Proof. intros Hk. by rewrite (map_to_list_insert m k x Hk). Qed.

Lemma values_delete (m : gmap K A) k x :
  m !! k = Some x → (map_to_list m).*2 ≡ₚ x :: (map_to_list (delete k m)).*2.
Proof. intros Hk. by rewrite <-(map_to_list_delete m k x Hk). Qed.

Lemma keys_insert (m : gmap K A) k x :
  m !! k = None → (map_to_list (<[k:=x]> m)).*1 ≡ₚ k :: (map_to_list m).*1.
Proof. intros Hk. by rewrite (map_to_list_insert m k x Hk). Qed.

Lemma keys_delete (m : gmap K A) k x :
  m !! k = Some x → (map_to_list m).*1 ≡ₚ k :: (map_to_list (delete k m)).*1.
Proof. intros Hk. by rewrite <-(map_to_list_delete m k x Hk). Qed.

Lemma elem_of_keys (m : gmap K A) k : k ∈ (map_to_list m).*1 ↔ is_Some (m !! k).
Proof.
  rewrite list_elem_of_fmap. split.
  - intros [[k' x] [-> Hx%elem_of_map_to_list]]. eexists; exact Hx.
  - intros [x Hx]. exists (k, x). by rewrite elem_of_map_to_list.
Qed.
End lists.

Section proofs.
Context `{JsonNumber} {serde : SerdeJson} {session_serde : SessionSerde}.
Implicit Types s : Loop.

Lemma execute_response_id id outcome : sp_id (execute_response id outcome) = id.
Proof. destruct outcome as [|[| |? ? []|]]; reflexivity. Qed.

(** A place that a task will take is not taken. *)
Lemma pending_fresh task id q s :
  ListingsOK s → spawned s !! task = Some (MkSpawned id (Some q)) → pending s !! q = None.
Proof.
  intros HL Ht. apply eq_None_not_Some. rewrite <-elem_of_keys. intros Hq.
  assert (Hd : NoDup (open_listings s)) by (rewrite (lo_open s HL); apply NoDup_seqZ).
  unfold open_listings in Hd. rewrite (values_delete _ _ _ Ht) in Hd. cbn in Hd.
  apply NoDup_cons in Hd as [Hd _]. apply Hd, elem_of_app. by right.
Qed.

(** ** Requests in flight *)

Lemma unanswered_spawn id q s :
  spawned s !! next_task s = None → unanswered (spawn id q s) ≡ₚ id :: unanswered s.
Proof.
  intros Hfresh. unfold unanswered, spawn. cbn.
  by rewrite (values_insert _ _ _ Hfresh).
Qed.

Lemma unanswered_send r release q s :
  unanswered (send_record r release q s) ≡ₚ option_list release ++ unanswered s.
Proof.
  unfold unanswered, send_record. cbn. rewrite omap_app. cbn.
  destruct release; cbn; rewrite ?app_nil_r; [|done]. solve_Permutation.
Qed.

Lemma unanswered_finished task id q s :
  spawned s !! task = Some (MkSpawned id q) →
  unanswered s ≡ₚ id :: unanswered (s <| spawned ::= delete task |>).
Proof.
  intros Ht. unfold unanswered. cbn. by rewrite (values_delete _ _ _ Ht).
Qed.

Lemma unanswered_taken q r s :
  pending s !! q = Some r →
  unanswered s ≡ₚ sp_id r :: unanswered (s <| pending ::= delete q |>).
Proof.
  intros Hq. unfold unanswered. cbn. rewrite (values_delete _ _ _ Hq). cbn. solve_Permutation.
Qed.

Lemma unanswered_waits q r s :
  pending s !! q = None →
  unanswered (s <| pending ::= insert q r |>) ≡ₚ sp_id r :: unanswered s.
Proof.
  intros Hq. unfold unanswered. cbn. rewrite (values_insert _ _ _ Hq). cbn. solve_Permutation.
Qed.

(** A step that answers nothing and accepts nothing. *)
Lemma flight_moved s s' :
  FlightOK s → unanswered s' ≡ₚ unanswered s → in_flight s' = in_flight s →
  accepted s' = accepted s → answered s' = answered s → next_task s' = next_task s →
  (∀ k, is_Some (spawned s' !! k) → is_Some (spawned s !! k)) → FlightOK s'.
Proof.
  intros [Hf Hi Hs Hh Ht] Hun Hin Hacc Hans Hnext Hsub. split; rewrite ?Hin, ?Hacc, ?Hans, ?Hnext.
  - by rewrite Hun.
  - rewrite <-Hi. by apply list_to_set_perm_L.
  - done.
  - by rewrite Hun.
  - intros k Hk. by apply Ht, Hsub.
Qed.

Lemma flight_accepted id q s s1 :
  FlightOK s → reserve_id id s = Ok s1 → FlightOK (spawn id q s1).
Proof.
  intros [Hf Hi Hs Hh Ht]. unfold reserve_id. case_decide as Hin; [done|].
  destruct (_ <=? _)%nat eqn:Hfull; [done|]. intros [= <-]. apply Nat.leb_gt in Hfull.
  assert (Hun : unanswered (spawn id q s) ≡ₚ id :: unanswered s).
  { apply unanswered_spawn. apply eq_None_not_Some. intros Hk%Ht. lia. }
  assert (Hnew : id ∉ unanswered s) by (by rewrite <-(elem_of_list_to_set (C:=gset string)), Hi).
  split; cbn.
  - change (NoDup (unanswered (spawn id q s))). rewrite Hun. by constructor.
  - change (list_to_set (unanswered (spawn id q s)) = {[id]} ∪ in_flight s).
    rewrite (list_to_set_perm_L _ _ Hun). cbn. by rewrite Hi.
  - rewrite size_union by set_solver. rewrite size_singleton. lia.
  - change (accepted s ++ [id] ≡ₚ answered s ++ unanswered (spawn id q s)).
    rewrite Hun, Hh. solve_Permutation.
  - intros k [Heq|[_ Hk]]%lookup_insert_is_Some; [lia|]. apply Ht in Hk. lia.
Qed.

Lemma flight_finish task outcome s s' :
  FlightOK s → ListingsOK s → finish task outcome s = Some s' → FlightOK s'.
Proof.
  intros HF HL. unfold finish. destruct (spawned s !! task) as [[id [q|]]|] eqn:Ht; [| |done].
  - destruct (flush s); [|done|done]. intros [= <-].
    apply (flight_moved s); try done.
    + etrans; [|symmetry; apply (unanswered_finished task id (Some q) s Ht)].
      etrans; [apply (unanswered_waits q (execute_response id outcome)
                        (s <| spawned ::= delete task |>))|].
      * exact (pending_fresh task id q s HL Ht).
      * by rewrite execute_response_id.
    + intros k Hk. cbn in Hk. eapply lookup_delete_is_Some; exact Hk.
  - intros [= <-]. apply (flight_moved s); try done.
    + etrans; [|symmetry; apply (unanswered_finished task id None s Ht)].
      etrans; [apply unanswered_send|]. by rewrite execute_response_id.
    + intros k Hk. cbn in Hk. eapply lookup_delete_is_Some; exact Hk.
Qed.

Lemma flight_flush s s' : FlightOK s → flush_step s = Some s' → FlightOK s'.
Proof.
  intros HF. unfold flush_step. destruct (flush s) as [| |key]; [done| |].
  - destruct (pending s !! next_sequence s) as [r|] eqn:Hr; intros [= <-].
    + apply (flight_moved s); try done.
      etrans; [|symmetry; apply (unanswered_taken _ r s Hr)].
      etrans; [|apply (unanswered_send r (Some (sp_id r)) (Some (next_sequence s)))]. done.
    + by apply (flight_moved s).
  - destruct (completed key s); [|done]. intros [= <-]. by apply (flight_moved s).
Qed.

Lemma flight_control s s' : FlightOK s → control_step s = Some s' → FlightOK s'.
Proof.
  intros HF. unfold control_step. destruct (control s) as [[r [key|]]|]; [| |done].
  - destruct (completed key s); [|done]. intros [= <-]. by apply (flight_moved s).
  - intros [= <-]. apply (flight_moved s); try done. apply (unanswered_send r None None s).
Qed.

Lemma flight_writer s s' : FlightOK s → writer_step s = Some s' → FlightOK s'.
Proof.
  intros HF. unfold writer_step. destruct (queue s) as [|record rest] eqn:Hq; [done|].
  destruct (output_release record) as [id|] eqn:Hr; intros [= <-].
  - assert (Hun : unanswered s ≡ₚ id :: unanswered (s <| queue := rest |>)).
    { unfold unanswered. cbn. rewrite Hq. cbn. rewrite Hr. solve_Permutation. }
    destruct HF as [Hf Hi Hs Hh Ht]. rewrite Hun in Hf, Hh.
    rewrite (list_to_set_perm_L _ _ Hun) in Hi. cbn in Hi. apply NoDup_cons in Hf as [Hnew Hf].
    rewrite <-(elem_of_list_to_set (C:=gset string)) in Hnew.
    split; cbn.
    + exact Hf.
    + change (list_to_set (unanswered (s <| queue := rest |>)) = in_flight s ∖ {[id]}).
      set_solver.
    + etrans; [|exact Hs]. apply subseteq_size. set_solver.
    + unfold answered. cbn. rewrite omap_app. cbn. rewrite Hr. rewrite Hh. cbn.
      change (unanswered _) with (unanswered (s <| queue := rest |>)). solve_Permutation.
    + exact Ht.
  - apply (flight_moved s); try done.
    + unfold unanswered. cbn. rewrite Hq. cbn. by rewrite Hr.
    + unfold answered. cbn. rewrite omap_app. cbn. by rewrite Hr, app_nil_r.
Qed.

(** ** The order of the listings *)

(** A step that neither adds a listing nor sends one. *)
Lemma listings_moved s s' :
  ListingsOK s → list_sequence s' = list_sequence s → listings s' = listings s →
  sent_listings s' = sent_listings s → open_listings s' ≡ₚ open_listings s →
  omap output_sequence (stdout s' ++ queue s') = omap output_sequence (stdout s ++ queue s) →
  (∀ k id q, spawned s' !! k = Some (MkSpawned id (Some q)) →
     spawned s !! k = Some (MkSpawned id (Some q))) →
  (∀ q r, pending s' !! q = Some r → listing_of s q (sp_id r)) →
  (∀ r q, r ∈ stdout s' ++ queue s' → output_sequence r = Some q → r ∈ stdout s ++ queue s) →
  (flush s' = FlushFree → pending s' !! next_sequence s' = None) →
  ListingsOK s'.
Proof.
  intros [Hc Hr Ho Hs Hsp Hp Hrec _] Hseq Hl Hsent Hopen Hom Hsp' Hp' Hrec' Hidle.
  split; unfold listing_of in *; rewrite ?Hseq, ?Hl, ?Hsent; try done.
  - by rewrite Hopen.
  - by rewrite Hom.
  - intros k id q Hk. eapply Hsp, Hsp', Hk.
  - intros r q Hin Hq. eapply Hrec; [eapply Hrec'; [exact Hin|exact Hq]|exact Hq].
Qed.

Lemma open_bounds s q :
  ListingsOK s → q ∈ open_listings s → (sent_listings s ≤ q < list_sequence s)%Z.
Proof. intros HL Hq. rewrite (lo_open s HL), elem_of_seqZ in Hq. lia. Qed.

Lemma listing_of_extend s q id l :
  listing_of s q id → (listings s ++ l) !! Z.to_nat q = Some id.
Proof. intros Hq. by apply lookup_app_l_Some. Qed.

(** A request for [list_agents] takes the next place. *)
Definition list_spawned (id : string) (next : Z) (s : Loop) : Loop :=
  spawn id (Some (list_sequence s)) s <| list_sequence := next |> <| listings ::= λ l, l ++ [id] |>.

Lemma listings_listed id s :
  ListingsOK s → spawned s !! next_task s = None →
  ListingsOK (list_spawned id (list_sequence s + 1) s).
Proof.
  intros [Hc Hr Ho Hs Hsp Hp Hrec Hidle] Hfresh.
  assert (Hsent : sent_listings (list_spawned id (list_sequence s + 1) s) = sent_listings s) by done.
  split; rewrite ?Hsent; cbn; unfold listing_of; cbn.
  - rewrite length_app. cbn. lia.
  - lia.
  - unfold open_listings. cbn. rewrite (values_insert _ _ _ Hfresh). cbn.
    change (list_sequence s :: open_listings s
            ≡ₚ seqZ (sent_listings s) (list_sequence s + 1 - sent_listings s)).
    replace (list_sequence s + 1 - sent_listings s)%Z
      with (list_sequence s - sent_listings s + 1)%Z by lia.
    rewrite seqZ_app by lia. rewrite <-Ho, seqZ_cons, seqZ_nil by lia.
    replace (sent_listings s + (list_sequence s - sent_listings s))%Z with (list_sequence s) by lia.
    solve_Permutation.
  - done.
  - intros k id' q [[<- [= <- <-]]|[_ Hk]]%lookup_insert_Some.
    + rewrite Hc, Nat2Z.id. by apply list_lookup_middle.
    + eapply listing_of_extend, Hsp, Hk.
  - intros q r Hq. eapply listing_of_extend, Hp, Hq.
  - intros r q Hin Hq. eapply listing_of_extend, Hrec; [exact Hin|exact Hq].
  - exact Hidle.
Qed.

Lemma listings_spawned id s :
  ListingsOK s → spawned s !! next_task s = None → ListingsOK (spawn id None s).
Proof.
  intros HL Hfresh. apply (listings_moved s); try done; try apply HL.
  - unfold open_listings. cbn. by rewrite (values_insert _ _ _ Hfresh).
  - intros k id' q Hk. cbn in Hk. apply lookup_insert_Some in Hk as [[_ [=]]|[_ Hk]]. exact Hk.
Qed.

Lemma listings_finish task outcome s s' :
  ListingsOK s → finish task outcome s = Some s' → ListingsOK s'.
Proof.
  intros HL. unfold finish. destruct (spawned s !! task) as [[id [q|]]|] eqn:Ht; [| |done].
  - destruct (flush s) eqn:Hf; [|done|done]. intros [= <-].
    pose proof (pending_fresh task id q s HL Ht) as Hq.
    apply (listings_moved s); try done.
    + unfold sent_listings. cbn. by rewrite Hf.
    + unfold open_listings. cbn. rewrite (values_delete _ _ _ Ht), (keys_insert _ _ _ Hq). cbn.
      solve_Permutation.
    + intros k id' q' Hk. cbn in Hk. apply lookup_delete_Some in Hk as [_ Hk]. exact Hk.
    + intros q' r Hk. cbn in Hk. apply lookup_insert_Some in Hk as [[<- <-]|[_ Hk]];
        [|by apply (lo_pending s HL)].
      rewrite execute_response_id. by apply (lo_spawned s HL task).
  - intros [= <-]. apply (listings_moved s); try done; try apply HL.
    + unfold open_listings. cbn. by rewrite (values_delete _ _ _ Ht).
    + cbn. rewrite app_assoc, omap_app. cbn. by rewrite app_nil_r.
    + intros k id' q' Hk. cbn in Hk. apply lookup_delete_Some in Hk as [_ Hk]. exact Hk.
    + intros r q. cbn. rewrite app_assoc, elem_of_app, list_elem_of_singleton.
      intros [Hin| ->]; done.
Qed.

Lemma listings_sent r s :
  ListingsOK s → flush s = FlushHead → pending s !! next_sequence s = Some r →
  ListingsOK (write_request r (Some (next_sequence s)) (s <| pending ::= delete (next_sequence s) |>)
                <| flush := FlushAwaits (next_key s) |>).
Proof.
  intros HL Hf Hr.
  assert (Hq : (sent_listings s ≤ next_sequence s < list_sequence s)%Z).
  { apply (open_bounds s _ HL), elem_of_app. right. apply elem_of_keys. by eexists. }
  destruct HL as [Hc Hb Ho Hs Hsp Hp Hrec _].
  unfold sent_listings in Hb, Ho, Hs, Hq. rewrite Hf in Hb, Ho, Hs, Hq.
  split; unfold sent_listings, listing_of; cbn; [done|lia| | |done| | |done].
  - unfold open_listings in *. cbn. rewrite (keys_delete _ _ _ Hr), <-Permutation_middle in Ho.
    rewrite seqZ_cons in Ho by lia. apply Permutation.Permutation_cons_inv in Ho. rewrite Ho.
    by replace (list_sequence s - (next_sequence s + 1))%Z
      with (Z.pred (list_sequence s - next_sequence s)) by lia.
  - rewrite app_assoc, omap_app, Hs. cbn. by rewrite seqZ_app by lia.
  - intros q r' [_ Hk]%lookup_delete_Some. by apply Hp.
  - intros r' q. rewrite app_assoc, elem_of_app, list_elem_of_singleton.
    intros [Hin| ->] Hq'; [by apply (Hrec r')|]. cbn in *. simplify_eq. by apply Hp.
Qed.

Lemma listings_flush s s' : ListingsOK s → flush_step s = Some s' → ListingsOK s'.
Proof.
  intros HL. unfold flush_step. destruct (flush s) as [| |key] eqn:Hf; [done| |].
  - destruct (pending s !! next_sequence s) as [r|] eqn:Hr; intros [= <-].
    + by apply listings_sent.
    + apply (listings_moved s); try done; try apply HL. unfold sent_listings. cbn. by rewrite Hf.
  - destruct (completed key s); [|done]. intros [= <-].
    apply (listings_moved s); try done; try apply HL. unfold sent_listings. cbn. by rewrite Hf.
Qed.

Lemma listings_control s s' : ListingsOK s → control_step s = Some s' → ListingsOK s'.
Proof.
  intros HL. unfold control_step. destruct (control s) as [[r [key|]]|]; [| |done].
  - destruct (completed key s); [|done]. intros [= <-].
    apply (listings_moved s); try done; apply HL.
  - intros [= <-]. apply (listings_moved s); try done; try apply HL.
    + cbn. rewrite app_assoc, omap_app. cbn. by rewrite app_nil_r.
    + intros r' q. cbn. rewrite app_assoc, elem_of_app, list_elem_of_singleton.
      intros [Hin| ->]; done.
Qed.

Lemma listings_writer s s' : ListingsOK s → writer_step s = Some s' → ListingsOK s'.
Proof.
  intros HL. unfold writer_step. destruct (queue s) as [|record rest] eqn:Hq; [done|].
  assert (Heq : (stdout s ++ [record]) ++ rest = stdout s ++ queue s)
    by (rewrite Hq, <-app_assoc; done).
  destruct (output_release record) as [id|]; intros [= <-];
    (apply (listings_moved s); try done; try apply HL; cbn; by rewrite Heq).
Qed.

(** ** Every order of events *)

Lemma frame_keeps frame s s' :
  FlightOK s → ListingsOK s → receive frame s = Done s' → FlightOK s' ∧ ListingsOK s'.
Proof.
  intros HF HL.
  assert (Hrefuse : ∀ r, FlightOK (refuse r s) ∧ ListingsOK (refuse r s)).
  { intros r. split; [by apply (flight_moved s)|apply (listings_moved s); try done; apply HL]. }
  unfold receive. destruct frame as [line| |error]; [|by intros [= <-]|done].
  destruct (parse_session_request line) as [request|r|]; [|by intros [= <-]|done].
  destruct (reserve_id (sq_id request) s) as [s1|[]] eqn:Hres; [|by intros [= <-]|by intros [= <-]].
  pose proof (λ q, flight_accepted _ q _ _ HF Hres) as HF1.
  assert (Hs1 : s1 = s <| in_flight := in_flight s1 |> <| accepted := accepted s1 |>).
  { unfold reserve_id in Hres. case_decide; [done|]. destruct (_ <=? _)%nat; [done|].
    by injection Hres as <-. }
  assert (HL1 : ListingsOK s1) by (rewrite Hs1; apply (listings_moved s); try done; apply HL).
  assert (Hfresh : spawned s1 !! next_task s1 = None).
  { rewrite Hs1. cbn. apply eq_None_not_Some. intros Hk%(lo_tasks s HF). lia. }
  destruct (String.eqb _ _).
  - destruct (checked_add_u64 _ _) as [next|] eqn:Hadd; [|done]. intros [= <-].
    assert (next = list_sequence s1 + 1)%Z as ->
      by (by apply checked_Some in Hadd as [-> _]).
    split; [|by apply listings_listed].
    apply (flight_moved (spawn (sq_id request) (Some (list_sequence s1)) s1)); done.
  - intros [= <-]. split; [apply HF1|by apply listings_spawned].
Qed.

Lemma event_keeps event s s' :
  FlightOK s → ListingsOK s → handle_event event s = Some s' → FlightOK s' ∧ ListingsOK s'.
Proof.
  intros HF HL. destruct event as [frame|task outcome| | |]; cbn; intros Hs.
  - destruct (control s); [done|]. destruct (receive frame s) eqn:Hr; [|done|done].
    injection Hs as <-. by eapply frame_keeps.
  - split; [by eapply flight_finish|by eapply listings_finish].
  - split; [by eapply flight_flush|by eapply listings_flush].
  - split; [by eapply flight_control|by eapply listings_control].
  - split; [by eapply flight_writer|by eapply listings_writer].
Qed.

Lemma loop_invariant s : LoopReaches s → FlightOK s ∧ ListingsOK s.
Proof.
  induction 1 as [|s event s' _ [HF HL] Hs]; [|by eapply event_keeps].
  split; split; try done; try (by apply NoDup_nil); try (intros ?; set_solver).
  - cbn. unfold MAX_IN_FLIGHT_REQUESTS. rewrite size_empty. lia.
  - intros k [x Hx]. done.
Qed.

(** ** The output never waits for itself *)

(** What is left to do for the tasks and the outputs. *)
Definition flush_work (f : Flush) : nat :=
  match f with FlushFree => 0 | FlushHead => 1 | FlushAwaits _ => 2 end.
Definition control_work (c : option (SessionResponse * option nat)) : nat :=
  match c with None => 0 | Some (_, None) => 3 | Some (_, Some _) => 1 end.
Definition work (s : Loop) : nat :=
  5 * size (spawned s) + 3 * size (pending s) + length (queue s)
  + flush_work (flush s) + control_work (control s).

(** Anything but a new request. *)
Definition output_event (event : Event) : bool :=
  match event with EventFrame _ => false | _ => true end.

Lemma size_delete_Some {K A} `{Countable K} (m : gmap K A) k x :
  m !! k = Some x → size m = S (size (delete k m)).
Proof.
  intros Hk. rewrite <-(insert_delete_id m k x Hk) at 1.
  by rewrite map_size_insert_None by apply lookup_delete_eq.
Qed.

Lemma event_works event s s' :
  ListingsOK s → output_event event = true → handle_event event s = Some s' → (work s' < work s)%nat.
Proof.
  intros HL. destruct event as [frame|task outcome| | |]; cbn; intros Hout Hs; [done| | | |].
  - unfold finish in Hs. destruct (spawned s !! task) as [[id [q|]]|] eqn:Ht; [| |done].
    + destruct (flush s) eqn:Hf; [|done|done]. injection Hs as <-. unfold work. cbn.
      rewrite (size_delete_Some _ _ _ Ht). cbn.
      rewrite map_size_insert_None by exact (pending_fresh task id q s HL Ht). lia.
    + injection Hs as <-. unfold work. cbn. rewrite (size_delete_Some _ _ _ Ht), length_app. cbn. lia.
  - unfold flush_step in Hs. destruct (flush s) as [| |key] eqn:Hf; [done| |].
    + destruct (pending s !! next_sequence s) as [r|] eqn:Hr; injection Hs as <-; unfold work; cbn.
      * rewrite (size_delete_Some _ _ _ Hr), length_app. cbn. lia.
      * lia.
    + destruct (completed key s); [|done]. injection Hs as <-. unfold work. cbn. lia.
  - unfold control_step in Hs. destruct (control s) as [[r [key|]]|] eqn:Hc; [| |done].
    + destruct (completed key s); [|done]. injection Hs as <-. unfold work. cbn. lia.
    + injection Hs as <-. unfold work. cbn. rewrite length_app. cbn. lia.
  - unfold writer_step in Hs. destruct (queue s) as [|record rest] eqn:Hq; [done|].
    destruct (output_release record); injection Hs as <-; unfold work; cbn; lia.
Qed.

(** When no task runs and no output is under way, no answer waits for its turn. *)
Lemma nothing_waits s : ListingsOK s → spawned s = ∅ → flush s = FlushFree → pending s = ∅.
Proof.
  intros HL Ht Hf. pose proof (lo_open s HL) as Ho. pose proof (lo_idle s HL Hf) as Hidle.
  unfold open_listings, sent_listings in Ho. rewrite Ht, Hf, map_to_list_empty in Ho. cbn in Ho.
  destruct (decide (list_sequence s - next_sequence s ≤ 0)%Z) as [Hle|Hgt].
  - rewrite seqZ_nil in Ho by done. apply Permutation_nil_r, fmap_nil_inv in Ho.
    by apply map_to_list_empty_iff.
  - assert (Hin : next_sequence s ∈ (map_to_list (pending s)).*1)
      by (rewrite Ho, elem_of_seqZ; lia).
    apply elem_of_keys in Hin as [x Hx]. congruence.
Qed.

(** While work is left some task or output can go on, whatever result a task has. *)
Lemma work_goes_on (outcome : nat → Result RequestFailure Value) s :
  ListingsOK s → work s ≠ 0%nat →
  ∃ event s', output_event event = true ∧ handle_event event s = Some s' ∧
    ∀ task o, event = EventFinished task o → o = outcome task.
Proof.
  intros HL Hw. destruct (queue s) as [|record rest] eqn:Hq.
  2:{ exists EventWriter. cbn. unfold writer_step. rewrite Hq.
      destruct (output_release record); eexists; split_and!; try reflexivity; done. }
  assert (Hdone : ∀ key, completed key s = true) by (intros key; unfold completed; by rewrite Hq).
  destruct (flush s) as [| |key] eqn:Hf.
  - destruct (control s) as [[r [key|]]|] eqn:Hc.
    1,2: exists EventControl; cbn; unfold control_step; rewrite Hc, ?Hdone;
      eexists; split_and!; try reflexivity; done.
    destruct (map_to_list (spawned s)) as [|[task [id q]] l] eqn:Ht.
    + apply map_to_list_empty_iff in Ht.
      unfold work in Hw. rewrite Hq, Hf, Hc, Ht, map_size_empty in Hw. cbn in Hw.
      pose proof (nothing_waits s HL Ht Hf) as Hp. rewrite Hp, map_size_empty in Hw. done.
    + exists (EventFinished task (outcome task)). cbn. unfold finish.
      assert (Hk : spawned s !! task = Some (MkSpawned id q))
        by (apply elem_of_map_to_list; rewrite Ht; left).
      rewrite Hk. destruct q as [q|]; rewrite ?Hf; eexists; split_and!; try reflexivity;
        by intros ? ? [= <- <-].
  - exists EventFlush. cbn. unfold flush_step. rewrite Hf.
    destruct (pending s !! next_sequence s); eexists; split_and!; try reflexivity; done.
  - exists EventFlush. cbn. unfold flush_step. rewrite Hf, Hdone.
    eexists; split_and!; try reflexivity; done.
Qed.

Fixpoint run_events (events : list Event) (s : Loop) : option Loop :=
  match events with
  | [] => Some s
  | event :: events => handle_event event s ≫= run_events events
  end.

Lemma output_events_bounded events s s' :
  FlightOK s → ListingsOK s → Forall output_event events → run_events events s = Some s' →
  (length events + work s' ≤ work s)%nat.
Proof.
  revert s. induction events as [|event events IH]; intros s HF HL Hout;
    cbn [run_events length]; [by intros [= <-]|].
  apply Forall_cons in Hout as [Hev Hout].
  intros (s1 & Hs1 & Hrun)%bind_Some. pose proof Hs1 as [HF1 HL1]%event_keeps; [|done|done].
  pose proof (event_works _ _ _ HL (Is_true_true_1 _ Hev) Hs1). specialize (IH s1 HF1 HL1 Hout Hrun). lia.
Qed.

(** An output event accepts nothing. *)
Lemma output_accepts event s s' :
  output_event event = true → handle_event event s = Some s' → accepted s' = accepted s.
Proof.
  destruct event as [frame|task outcome| | |]; cbn; intros Hout Hs; [done| | | |].
  - unfold finish in Hs. repeat case_match; by simplify_eq.
  - unfold flush_step in Hs. repeat case_match; by simplify_eq.
  - unfold control_step in Hs. repeat case_match; by simplify_eq.
  - unfold writer_step in Hs. repeat case_match; by simplify_eq.
Qed.

Lemma work_drains (outcome : nat → Result RequestFailure Value) s :
  FlightOK s → ListingsOK s →
  ∃ events s', Forall output_event events ∧ run_events events s = Some s' ∧ work s' = 0%nat ∧
    accepted s' = accepted s ∧ FlightOK s' ∧
    ∀ task o, EventFinished task o ∈ events → o = outcome task.
Proof.
  induction s as [s IH] using (induction_ltof1 _ work). unfold ltof in IH. intros HF HL.
  destruct (decide (work s = 0%nat)) as [Hw|Hw].
  { exists [], s. split_and!; try done. intros task o Hin. by apply not_elem_of_nil in Hin. }
  destruct (work_goes_on outcome s HL Hw) as (event & s1 & Hout & Hs1 & Hresult).
  destruct (event_keeps _ _ _ HF HL Hs1) as [HF1 HL1].
  destruct (IH s1 (event_works _ _ _ HL Hout Hs1) HF1 HL1)
    as (events & s' & Hall & Hrun & Hw' & Hacc & HF' & Hres).
  exists (event :: events), s'. split_and!; try done.
  - constructor; [by rewrite Hout|done].
  - cbn. by rewrite Hs1.
  - rewrite Hacc. by eapply output_accepts.
  - intros task o [Heq|Hin]%elem_of_cons; [by apply Hresult|by apply Hres].
Qed.

Lemma no_work s : work s = 0%nat → unanswered s = [].
Proof.
  unfold work, unanswered. intros Hw.
  assert (Ht : spawned s = ∅) by (apply map_size_empty_iff; lia).
  assert (Hp : pending s = ∅) by (apply map_size_empty_iff; lia).
  assert (Hq : queue s = []) by (apply length_zero_iff_nil; lia).
  by rewrite Ht, Hp, Hq, !map_to_list_empty.
Qed.

Lemma ordered_ids records l m n :
  (0 ≤ m)%Z → omap output_sequence records = seqZ m n →
  (∀ r q, r ∈ records → output_sequence r = Some q →
     l !! Z.to_nat q = Some (sp_id (output_response r))) →
  ((λ r, sp_id (output_response r)) <$> filter (λ r, is_Some (output_sequence r)) records)
    `prefix_of` drop (Z.to_nat m) l.
Proof.
  revert m n. induction records as [|r records IH]; intros m n Hm Hseq Hids; [apply prefix_nil|].
  assert (Hrest : ∀ r q, r ∈ records → output_sequence r = Some q →
            l !! Z.to_nat q = Some (sp_id (output_response r)))
    by (intros r' q Hin; apply Hids; by right).
  cbn in Hseq. rewrite filter_cons. destruct (output_sequence r) as [q|] eqn:Hq.
  - rewrite decide_True by by eexists.
    destruct (decide (n ≤ 0)%Z); [by rewrite seqZ_nil in Hseq|].
    rewrite seqZ_cons in Hseq by lia. injection Hseq as -> Hseq.
    rewrite (drop_S l (sp_id (output_response r))) by (apply Hids; [left|done]).
    cbn. apply prefix_cons. rewrite <-Z2Nat.inj_succ by lia.
    apply (IH _ (Z.pred n)); [lia|done|done].
  - rewrite decide_False by by intros [? ?]. by apply (IH m n).
Qed.

(** C22: whatever the order in which lines arrive, requests finish and outputs go on, each
    accepted request is answered on standard output at most once, the identifiers in
    flight are those of the accepted requests without an answer, each once, and there are
    at most 64 of them. *)
Theorem requests_answered_once s :
  LoopReaches s →
  accepted s ≡ₚ answered s ++ unanswered s ∧ NoDup (unanswered s) ∧
  in_flight s = list_to_set (unanswered s) ∧ (size (in_flight s) ≤ MAX_IN_FLIGHT_REQUESTS)%nat.
Proof. intros [[Hf Hi Hs Hh _] _]%loop_invariant. by rewrite Hi. Qed.

(** the answers to [list_agents] that a session has written answer its first
    requests for [list_agents], in the order these were accepted, although the requests
    run concurrently and finish in any order. *)
Theorem listings_in_order s :
  LoopReaches s →
  ((λ r, sp_id (output_response r)) <$> filter (λ r, is_Some (output_sequence r)) (stdout s))
    `prefix_of` listings s.
Proof.
  intros [_ HL]%loop_invariant.
  pose proof (ordered_ids _ (listings s) 0 _ (Z.le_refl 0) (lo_sent s HL) (lo_records s HL)) as Hall.
  rewrite filter_app, fmap_app in Hall. etrans; [|exact Hall]. by apply prefix_app_r.
Qed.

End proofs.

Module LoopSample.
#[local] Instance number : JsonNumber := {| Number := Z; is_f64 _ := false |}.
#[local] Instance serde : SerdeJson := {| to_vec_len _ := 2%nat |}.

(** A line is an identifier and one letter for the method. *)
Definition letter (b : Z) : string :=
  if (b =? 97)%Z then "a" else if (b =? 98)%Z then "b" else "c".
#[local] Instance plain_lines : SessionSerde := {|
  parse_value line :=
    match line with
    | [id; method] =>
        Ok (VObject [("id", VString (letter id));
                     ("method", VString (if (method =? 108)%Z then "list_agents" else "ping"));
                     ("params", VObject [])])
    | _ => Err "EOF"
    end;
  envelope_error _ := "invalid";
|}.

Definition line (text : string) : Event := EventFrame (FrameLine (as_bytes text)).
Definition answer : Result RequestFailure Value := Ok VNull.

(** Two listings and a third request; the second listing and the third request finish
    first, and a malformed line and a duplicate are refused. *)
Definition events : list Event :=
  [line "al"; line "bl"; line "cp"; EventFinished 1 answer; EventFlush; EventFinished 2 answer;
   line "al"; EventControl; EventWriter; EventWriter; EventControl; line "x"; EventControl;
   EventFinished 0 answer; EventFlush; EventWriter; EventWriter].

Definition state : Loop := default Loop_start (run_events events Loop_start).

Lemma run_events_reaches events s s' : LoopReaches s → run_events events s = Some s' → LoopReaches s'.
Proof.
  revert s. induction events as [|event events IH]; intros s Hs; cbn; [by intros [= <-]|].
  intros (s1 & Hs1 & Hrun)%bind_Some. apply (IH s1); [|exact Hrun]. by eapply loop_event.
Qed.

Lemma state_reaches : LoopReaches state.
Proof. apply (run_events_reaches events Loop_start); [constructor|by vm_compute]. Qed.

(** Witness: at that point ["c"] and the first listing are answered, ["b"] waits. *)
Lemma requests_answered_once_witness :
  answered state = ["c"; "a"] ∧ in_flight state = {[ "b" ]} ∧ accepted state ≡ₚ ["c"; "a"; "b"].
Proof.
  destruct (requests_answered_once state state_reaches) as (Hacc & _ & Hin & _).
  split_and!; [by vm_compute|rewrite Hin; by vm_compute|].
  etrans; [exact Hacc|]. by vm_compute.
Defined.

(** Witness: the first listing is written first although the second finished first. *)
Lemma listings_in_order_witness :
  ((λ r, sp_id (output_response r)) <$> filter (λ r, is_Some (output_sequence r)) (stdout state)) = ["a"]
  ∧ ["a"] `prefix_of` listings state.
Proof.
  split; [by vm_compute|]. exact (listings_in_order state state_reaches).
Defined.

End LoopSample.
