(* ===== verification/TaskAttempts.v ===== *)
(** * Sending a task and following it

    The operations of [send_message] in [herdr-a2a-cli/src/session.rs]: a task is sent to
    an agent and awaited across lost connections, replaced brokers and broken streams.
    The calls to the broker are given by their answers: a [Turn] holds what the calls of
    one turn of the loop of [run_task_attempts] would answer, where [None] is a call that
    the deadline cut off.  A stream is what polling it gives, until it ends.  The result
    is [None] while the turns that are given do not end the loop. *)
From stdpp Require Import prelude gmap strings.
From S2P Require Import Prelude RustStd CliText Model Validation LedgerCodec A2aFront Recovery SessionFrames SessionLoop.

Definition RECOVERY_AGENT_CARD_RETRY_BASE : Z := from_millis 50.
Definition RECOVERY_AGENT_CARD_RETRY_MAX : Z := from_secs 1.
Definition MIN_SEND_WAIT_MS : Z := 1000.
Definition DEFAULT_SEND_WAIT_MS : Z := 60000.
Definition MAX_SEND_WAIT_MS : Z := 86400000.

Inductive TaskWaitMode := Immediate | Terminal.
#[global] Instance TaskWaitMode_eq_dec : EqDecision TaskWaitMode.
Proof. solve_decision. Defined.

(** [a2a::A2AError] as a client receives it; of its details, their types. *)
Record RemoteError := MkRemoteError {
  remote_code : Z;
  remote_message : string;
  remote_details : option (list string);
}.

Inductive OperationClientError :=
| Connection (message : string)
| AgentUnavailable (message : string)
| RegistrationAuthLost (message : string)
| Application (error : RemoteError)
| Protocol (message : string)
| Deadline (message : string).

Record AgentInterface := MkAgentInterface {
  interface_url : string;
  interface_protocol_binding : string;
  interface_tenant : option string;
}.

(** What is used of the [a2a] crate on the client's side. *)
Class ClientLib := {
  TASK_NOT_FOUND : Z;
  TRANSPORT_PROTOCOL_JSONRPC : string;
  wire_url : AgentInterface → string;
  remote_display : RemoteError → string;
}.

(** A connection with the number of its allocation. *)
Abbreviation Shared := (nat * BrokerConnection)%type.

Record SessionA2AClient := MkSessionA2AClient {
  sc_http : HttpClient;
  sc_endpoint : string;
  sc_bearer_token : string;
  sc_registration_id : string;
  sc_registration_epoch : Z;
}.

Definition a2a_error_recovery_mode (error : OperationClientError) : option RecoveryMode :=
  match error with
  | RegistrationAuthLost _ => Some RegistrationRefresh
  | Connection _ | Deadline _ => Some BrokerReplacement
  | AgentUnavailable _ | Application _ | Protocol _ => None
  end.

Definition a2a_error_is_recoverable (error : OperationClientError) : bool :=
  is_some (a2a_error_recovery_mode error).

Definition state_name (state : TaskState) : string :=
  match state with
  | TaskUnspecified => "unspecified"
  | TaskSubmitted => "submitted"
  | TaskWorking => "working"
  | TaskCompleted => "completed"
  | TaskFailedState => "failed"
  | TaskCanceledState => "canceled"
  | TaskInputRequired => "input_required"
  | TaskRejectedState => "rejected"
  | TaskAuthRequired => "auth_required"
  end.

(** In milliseconds; the code makes a [Duration] of it. *)
Definition send_wait_duration (timeout_ms : option Z) : Outcome RequestFailure Z :=
  let timeout_ms := default DEFAULT_SEND_WAIT_MS timeout_ms in
  let? _ := reject_if (negb (in_range MIN_SEND_WAIT_MS MAX_SEND_WAIT_MS timeout_ms))
    (OtherFailed ("send wait timeout must be between 1000 and 86400000 milliseconds")) in
  Done (from_millis timeout_ms).

Section attempts.
Context `{JsonNumber} {chrono : Chrono} {a2a : A2ALib} {client_lib : ClientLib}.

Definition OperationClientError_display (error : OperationClientError) : string :=
  match error with
  | Connection message | AgentUnavailable message | RegistrationAuthLost message
  | Protocol message | Deadline message => message
  | Application error => remote_display error
  end.

Definition a2a_task_is_definitely_missing (error : OperationClientError) : bool :=
  match error with
  | Application error => (remote_code error =? TASK_NOT_FOUND)%Z
  | _ => false
  end.

Record TaskOperation := MkTaskOperation {
  op_requested_agent : string;
  op_agent : string;
  op_tenant : string;
  op_task_id : string;
  op_context_id : option string;
  op_normalized_request : option SendMessageRequest;
  op_wait_mode : TaskWaitMode;
  op_deadline : Z;
}.

(** [a2a::StreamResponse] and [a2a::SendMessageResponse]. *)
Inductive StreamResponse :=
| StreamTask (task : A2ATask)
| StreamStatus (task_id : string) (status : TaskStatus)
| StreamOther (value : Value).
Inductive SendMessageResponse := SentTask (task : A2ATask) | SentMessage (message : Message).

(** What polling a stream gives; it ends after the last. *)
Abbreviation Stream := (list (option (Result OperationClientError StreamResponse))).

(** ** Results *)

Definition task_text (task : A2ATask) : Value :=
  match and_then (status_message (a2a_status task)) message_text with
  | Some text => VString text
  | None => VNull
  end.

Definition task_result (task : A2ATask) : Value :=
  VObject [("task_id", VString (a2a_id task));
           ("conversation_id", VString (a2a_context_id task));
           ("state", VString (state_name (status_state (a2a_status task))));
           ("text", task_text task);
           ("metadata", object_of (and_then (status_message (a2a_status task)) message_metadata))].

Definition operation_timeout_result (operation : TaskOperation) (task_confirmed : bool)
    (last_task : option A2ATask) (recovery_reason : string) : Value :=
  let conversation_id :=
    match last_task, op_context_id operation with
    | Some task, _ => VString (a2a_context_id task)
    | None, Some context_id => VString context_id
    | None, None => VNull
    end in
  let state :=
    match last_task with
    | Some task => state_name (status_state (a2a_status task))
    | None => if task_confirmed then "working" else "unknown"
    end in
  VObject [("requested_agent", VString (op_requested_agent operation));
           ("agent", VString (op_agent operation));
           ("task_id", VString (op_task_id operation));
           ("conversation_id", conversation_id);
           ("resume_task_id", VString (op_task_id operation));
           ("state", VString state);
           ("timed_out", VBool true);
           ("task_confirmed", VBool task_confirmed);
           ("task_reachable", VBool task_confirmed);
           ("recovery_reason", VString recovery_reason)].

Definition reachable_stream_lost_result (operation : TaskOperation) (task : A2ATask) : Value :=
  VObject [("agent", VString (op_agent operation));
           ("task_id", VString (op_task_id operation));
           ("conversation_id", VString (a2a_context_id task));
           ("resume_task_id", VString (op_task_id operation));
           ("state", VString (state_name (status_state (a2a_status task))));
           ("stream_lost", VBool true);
           ("task_confirmed", VBool true);
           ("task_reachable", VBool true)].

Definition validate_operation_task (operation : TaskOperation) (task : A2ATask)
    : Outcome RequestFailure () :=
  reject_if
    (negb (String.eqb (a2a_id task) (op_task_id operation))
     || match op_context_id operation with
        | Some context_id => negb (String.eqb (a2a_context_id task) context_id)
        | None => false
        end)
    (OtherFailed "recovered task identity does not match the original operation").

Definition immediate_result (operation : TaskOperation) (response : SendMessageResponse)
    : Outcome RequestFailure Value :=
  match response with
  | SentTask task =>
      let? _ := validate_operation_task operation task in
      Done (VObject [("agent", VString (op_agent operation));
                     ("task_id", VString (a2a_id task));
                     ("conversation_id", VString (a2a_context_id task));
                     ("state", VString (state_name (status_state (a2a_status task))))])
  | SentMessage _ => Fail (OtherFailed "nonblocking send returned no task identifiers")
  end.

Definition is_terminal (task : A2ATask) : bool := task_state_is_terminal (status_state (a2a_status task)).

Definition terminal_stream_result (event : StreamResponse) : option Value :=
  match event with
  | StreamTask task => if is_terminal task then Some (task_result task) else None
  | _ => None
  end.

Definition working_stream_event (event : StreamResponse) (expected_task_id : string) : bool :=
  match event with
  | StreamTask task =>
      String.eqb (a2a_id task) expected_task_id
      && bool_decide (status_state (a2a_status task) = TaskWorking)
  | StreamStatus task_id status =>
      String.eqb task_id expected_task_id && bool_decide (status_state status = TaskWorking)
  | StreamOther _ => false
  end.

(** ** The client of an operation *)

(** [operation_client]: the interfaces of the agent's card, if they arrived in time. *)
Definition operation_client (connection : Shared) (operation : TaskOperation)
    (card : option (Result OperationClientError (list AgentInterface)))
    : Result OperationClientError SessionA2AClient :=
  match card with
  | None => Err (Deadline "operation deadline expired during Agent Card resolution")
  | Some (Err error) => Err error
  | Some (Ok interfaces) =>
      match head (filter (λ i, interface_protocol_binding i = TRANSPORT_PROTOCOL_JSONRPC) interfaces) with
      | None => Err (Protocol "agent card has no JSON-RPC interface")
      | Some interface =>
          match interface_tenant interface with
          | None => Err (Protocol "agent card has no tenant")
          | Some tenant =>
              if String.eqb tenant (op_tenant operation) then
                Ok (MkSessionA2AClient (conn_http connection.2) (wire_url interface)
                      (rdesc_bearer_token (conn_descriptor connection.2))
                      (rid_str (cred_id (conn_registration connection.2)))
                      (epoch_get (cred_epoch (conn_registration connection.2))))
              else Err (Protocol "agent card tenant changed during operation")
          end
      end
  end.

(** ** The loop *)

Inductive TaskAttemptState :=
| Recover (failed_connection : Shared) (mode : RecoveryMode)
| Inspect (connection : Shared) (client : SessionA2AClient)
| Resolve (connection : Shared) (retry_delay : Z)
| Resend (connection : Shared) (client : SessionA2AClient)
| Streaming (connection : Shared) (client : SessionA2AClient) (stream : Stream)
| Subscribe (connection : Shared) (client : SessionA2AClient)
| CheckReplacement (connection : Shared) (client : SessionA2AClient) (resubscribe_if_working : bool)
| FinalGet (connection : Shared) (client : SessionA2AClient) (resubscribe_if_working : bool).

Record TaskAttemptMemory := MkMemory {
  task_confirmed : bool;
  last_task : option A2ATask;
  resend_attempted : bool;
  preconfirmation_error : option OperationClientError;
}.

#[global] Instance TaskAttemptMemory_fields : Fields TaskAttemptMemory := λ m,
  MkMemory (task_confirmed m) (last_task m) (resend_attempted m) (preconfirmation_error m).

Record Turn := MkTurn {
  turn_now : Z;
  turn_current : Shared;
  turn_recover : Result RecoveryError Shared;
  turn_replaced : Result RecoveryError (option Shared);
  turn_card : option (Result OperationClientError (list AgentInterface));
  turn_task : option (Result OperationClientError A2ATask);
  turn_send : option (Result OperationClientError SendMessageResponse);
  turn_stream : option (Result OperationClientError Stream);
}.

(** A turn returns, or goes on in a state. *)
Definition Attempt : Type := Value + TaskAttemptState * TaskAttemptMemory.

Definition client_failed {A} (error : OperationClientError) : Outcome RequestFailure A :=
  Fail (OtherFailed (OperationClientError_display error)).

Definition recovery_state (connection : Shared) (error : OperationClientError)
    (memory : TaskAttemptMemory) : Outcome RequestFailure Attempt :=
  match a2a_error_recovery_mode error with
  | Some mode => Done (inr (Recover connection mode, memory))
  | None => Panic "recoverable error must have a mode"
  end.

Definition timed_out (operation : TaskOperation) (memory : TaskAttemptMemory) (reason : string)
    : Outcome RequestFailure Attempt :=
  Done (inl (operation_timeout_result operation (task_confirmed memory) (last_task memory) reason)).

Definition recover_turn (operation : TaskOperation) (turn : Turn) (memory : TaskAttemptMemory)
    : Outcome RequestFailure Attempt :=
  match turn_recover turn with
  | Ok connection => Done (inr (Resolve connection RECOVERY_AGENT_CARD_RETRY_BASE, memory))
  | Err DeadlineExpired => timed_out operation memory "broker_unavailable"
  | Err error => Fail (RecoveryFailed error)
  end.

Definition resolve_turn (operation : TaskOperation) (turn : Turn) (connection : Shared)
    (retry_delay : Z) (memory : TaskAttemptMemory) : Outcome RequestFailure Attempt :=
  match operation_client connection operation (turn_card turn) with
  | Ok client => Done (inr (Inspect connection client, memory))
  | Err (AgentUnavailable _) =>
      if (remaining_until (op_deadline operation) (turn_now turn) =? 0)%Z
      then timed_out operation memory "agent_unavailable"
      else Done (inr (Resolve (turn_current turn)
                        (Z.min (2 * retry_delay) RECOVERY_AGENT_CARD_RETRY_MAX), memory))
  | Err error =>
      if a2a_error_is_recoverable error then recovery_state connection error memory
      else client_failed error
  end.

Definition inspect_turn (operation : TaskOperation) (turn : Turn) (connection : Shared)
    (client : SessionA2AClient) (memory : TaskAttemptMemory) : Outcome RequestFailure Attempt :=
  match turn_task turn with
  | None => timed_out operation memory "deadline_expired"
  | Some (Ok task) =>
      let? _ := validate_operation_task operation task in
      let memory := memory <| task_confirmed := true |> <| last_task := Some task |>
                           <| preconfirmation_error := None |> in
      if is_terminal task then Done (inl (task_result task))
      else if decide (op_wait_mode operation = Immediate) then
        let? result := immediate_result operation (SentTask task) in Done (inl result)
      else Done (inr (Subscribe connection client, memory))
  | Some (Err error) =>
      match preconfirmation_error memory with
      | Some preconfirmation =>
          if a2a_task_is_definitely_missing error then client_failed preconfirmation
          else if a2a_error_is_recoverable error then recovery_state connection error memory
          else client_failed error
      | None =>
          if a2a_task_is_definitely_missing error && negb (task_confirmed memory)
             && is_some (op_normalized_request operation) && negb (resend_attempted memory)
          then Done (inr (Resend connection client, memory <| resend_attempted := true |>))
          else if a2a_error_is_recoverable error then recovery_state connection error memory
          else client_failed error
      end
  end.

Definition resend_turn (operation : TaskOperation) (turn : Turn) (connection : Shared)
    (client : SessionA2AClient) (memory : TaskAttemptMemory) : Outcome RequestFailure Attempt :=
  let failed error :=
    if a2a_error_is_recoverable error then recovery_state connection error memory
    else Done (inr (Inspect connection client, memory <| preconfirmation_error := Some error |>)) in
  match op_normalized_request operation with
  | None => Panic "resend state requires a normalized request"
  | Some _ =>
      match op_wait_mode operation with
      | Immediate =>
          match turn_send turn with
          | Some (Ok response) =>
              let? result := immediate_result operation response in Done (inl result)
          | Some (Err error) => failed error
          | None => timed_out operation memory "deadline_expired"
          end
      | Terminal =>
          match turn_stream turn with
          | Some (Ok stream) => Done (inr (Streaming connection client stream, memory))
          | Some (Err error) => failed error
          | None => timed_out operation memory "deadline_expired"
          end
      end
  end.

(** The inner loop over the stream of a message. *)
Fixpoint stream_turn (operation : TaskOperation) (connection : Shared) (client : SessionA2AClient)
    (stream : Stream) (memory : TaskAttemptMemory) : Outcome RequestFailure Attempt :=
  match stream with
  | [] => Done (inr (CheckReplacement connection client true, memory))
  | None :: _ => timed_out operation memory "deadline_expired"
  | Some (Err error) :: _ =>
      if a2a_error_is_recoverable error
      then Done (inr (CheckReplacement connection client true, memory))
      else if task_confirmed memory then Done (inr (Inspect connection client, memory))
      else client_failed error
  | Some (Ok event) :: stream =>
      let? memory :=
        match event with
        | StreamTask task =>
            let? _ := validate_operation_task operation task in
            Done (memory <| task_confirmed := true |> <| last_task := Some task |>)
        | _ => Done (if working_stream_event event (op_task_id operation)
                     then memory <| task_confirmed := true |> else memory)
        end in
      match terminal_stream_result event with
      | Some result => Done (inl result)
      | None => stream_turn operation connection client stream memory
      end
  end.

(** The inner loop over a subscription. *)
Fixpoint subscription_turn (operation : TaskOperation) (connection : Shared)
    (client : SessionA2AClient) (subscription : Stream) (memory : TaskAttemptMemory)
    : Outcome RequestFailure Attempt :=
  match subscription with
  | [] => Done (inr (CheckReplacement connection client false, memory))
  | None :: _ => timed_out operation memory "deadline_expired"
  | Some (Err error) :: _ =>
      if a2a_error_is_recoverable error
      then Done (inr (CheckReplacement connection client false, memory))
      else client_failed error
  | Some (Ok event) :: subscription =>
      let? memory :=
        match event with
        | StreamTask task =>
            let? _ := validate_operation_task operation task in
            Done (memory <| last_task := Some task |>)
        | _ => Done memory
        end in
      match terminal_stream_result event with
      | Some result => Done (inl result)
      | None => subscription_turn operation connection client subscription memory
      end
  end.

Definition subscribe_turn (operation : TaskOperation) (turn : Turn) (connection : Shared)
    (client : SessionA2AClient) (memory : TaskAttemptMemory) : Outcome RequestFailure Attempt :=
  match turn_stream turn with
  | Some (Ok subscription) => subscription_turn operation connection client subscription memory
  | Some (Err error) =>
      if a2a_error_is_recoverable error
      then Done (inr (CheckReplacement connection client false, memory))
      else client_failed error
  | None => timed_out operation memory "deadline_expired"
  end.

Definition replacement_turn (operation : TaskOperation) (turn : Turn) (connection : Shared)
    (client : SessionA2AClient) (resubscribe_if_working : bool) (memory : TaskAttemptMemory)
    : Outcome RequestFailure Attempt :=
  match turn_replaced turn with
  | Ok (Some replacement) => Done (inr (Resolve replacement RECOVERY_AGENT_CARD_RETRY_BASE, memory))
  | Ok None | Err (Unavailable _) =>
      Done (inr (FinalGet connection client resubscribe_if_working, memory))
  | Err DeadlineExpired => timed_out operation memory "deadline_expired"
  | Err error => Fail (RecoveryFailed error)
  end.

Definition final_get_turn (operation : TaskOperation) (turn : Turn) (connection : Shared)
    (client : SessionA2AClient) (resubscribe_if_working : bool) (memory : TaskAttemptMemory)
    : Outcome RequestFailure Attempt :=
  match turn_task turn with
  | None => timed_out operation memory "deadline_expired"
  | Some (Ok task) =>
      let? _ := validate_operation_task operation task in
      if is_terminal task then Done (inl (task_result task))
      else if resubscribe_if_working then
        Done (inr (Subscribe connection client,
                   memory <| task_confirmed := true |> <| last_task := Some task |>))
      else Done (inl (reachable_stream_lost_result operation task))
  | Some (Err error) =>
      if a2a_error_is_recoverable error then recovery_state connection error memory
      else client_failed error
  end.

Definition attempt_turn (operation : TaskOperation) (turn : Turn) (state : TaskAttemptState)
    (memory : TaskAttemptMemory) : Outcome RequestFailure Attempt :=
  match state with
  | Recover _ _ => recover_turn operation turn memory
  | Resolve connection retry_delay => resolve_turn operation turn connection retry_delay memory
  | Inspect connection client => inspect_turn operation turn connection client memory
  | Resend connection client => resend_turn operation turn connection client memory
  | Streaming connection client stream => stream_turn operation connection client stream memory
  | Subscribe connection client => subscribe_turn operation turn connection client memory
  | CheckReplacement connection client resubscribe =>
      replacement_turn operation turn connection client resubscribe memory
  | FinalGet connection client resubscribe =>
      final_get_turn operation turn connection client resubscribe memory
  end.

Fixpoint run_task_attempts (operation : TaskOperation) (turns : list Turn)
    (state : TaskAttemptState) (memory : TaskAttemptMemory)
    : option (Outcome RequestFailure Value) :=
  match turns with
  | [] => None
  | turn :: turns =>
      match attempt_turn operation turn state memory with
      | Done (inl result) => Some (Done result)
      | Done (inr (state, memory)) => run_task_attempts operation turns state memory
      | Fail error => Some (Fail error)
      | Panic msg => Some (Panic msg)
      end
  end.

(** ** The operations

    An operation begins with calls of its own, answered by a first turn; it returns, or
    enters the loop. *)

Definition inspect_task_after_send_error (connection : Shared) (client : SessionA2AClient)
    (error : OperationClientError) : Attempt :=
  inr (Inspect connection client, MkMemory false None true (Some error)).

Definition recover_task_after_connection_loss (failed_connection : Shared) (mode : RecoveryMode)
    (task_confirmed : bool) (last_task : option A2ATask) (resend_attempted : bool) : Attempt :=
  inr (Recover failed_connection mode, MkMemory task_confirmed last_task resend_attempted None).

Definition lost (connection : Shared) (error : OperationClientError) : Outcome RequestFailure Attempt :=
  match a2a_error_recovery_mode error with
  | None => Panic "recoverable error must have a mode"
  | Some mode => Done (recover_task_after_connection_loss connection mode false None false)
  end.

Definition begin_new_task (operation : TaskOperation) (first : Turn) : Outcome RequestFailure Attempt :=
  let connection := turn_current first in
  match operation_client connection operation (turn_card first) with
  | Err error =>
      if a2a_error_is_recoverable error then lost connection error else client_failed error
  | Ok client =>
      match op_normalized_request operation with
      | None => Panic "new task operation has a normalized request"
      | Some _ =>
          let failed error :=
            if a2a_error_is_recoverable error then lost connection error
            else Done (inspect_task_after_send_error connection client error) in
          let expired := Done (inl (operation_timeout_result operation false None "deadline_expired")) in
          match op_wait_mode operation with
          | Immediate =>
              match turn_send first with
              | Some (Ok response) =>
                  let? result := immediate_result operation response in Done (inl result)
              | Some (Err error) => failed error
              | None => expired
              end
          | Terminal =>
              match turn_stream first with
              | Some (Ok stream) =>
                  Done (inr (Streaming connection client stream, MkMemory false None false None))
              | Some (Err error) => failed error
              | None => expired
              end
          end
      end
  end.

(** [resume_message] after its checks. *)
Definition begin_resume (operation : TaskOperation) (first : Turn) : Outcome RequestFailure Attempt :=
  let connection := turn_current first in
  let failed error :=
    if a2a_error_is_recoverable error then lost connection error else client_failed error in
  match operation_client connection operation (turn_card first) with
  | Err error => failed error
  | Ok client =>
      match turn_task first with
      | None => Done (inl (operation_timeout_result operation false None "deadline_expired"))
      | Some (Err error) => failed error
      | Some (Ok task) =>
          let? _ := validate_operation_task operation task in
          if is_terminal task then Done (inl (task_result task))
          else Done (inr (Subscribe connection client, MkMemory true (Some task) false None))
      end
  end.

Definition follow (operation : TaskOperation) (turns : list Turn)
    (beginning : Outcome RequestFailure Attempt) : option (Outcome RequestFailure Value) :=
  match beginning with
  | Done (inl result) => Some (Done result)
  | Done (inr (state, memory)) => run_task_attempts operation turns state memory
  | Fail error => Some (Fail error)
  | Panic msg => Some (Panic msg)
  end.

Definition execute_new_task_operation (operation : TaskOperation) (first : Turn) (turns : list Turn)
    : option (Outcome RequestFailure Value) :=
  follow operation turns (begin_new_task operation first).

Definition resume_operation (operation : TaskOperation) (first : Turn) (turns : list Turn)
    : option (Outcome RequestFailure Value) :=
  follow operation turns (begin_resume operation first).
End attempts.
