(* ===== verification/TaskAttemptsTheorems.v ===== *)
(** * What an operation on a task guarantees

    The theorems about the loop of [run_task_attempts] in [herdr-a2a-cli/src/session.rs],
    for all answers of the broker: a task is sent at most twice, the second time only
    after the broker said that it does not have it; results are about the task of the
    operation; and the loop goes on only by recovering connections. *)
From stdpp Require Import prelude gmap strings.
From S2P Require Import Prelude RustStd CliText Model Validation LedgerCodec A2aFront Generation Recovery SessionFrames SessionLoop TaskAttempts.

Section proofs.
Context `{JsonNumber} {chrono : Chrono} {a2a : A2ALib} {client_lib : ClientLib}.
Implicit Types (op : TaskOperation) (m : TaskAttemptMemory).

(** The turns of a run, each with the state and the memory it began in. *)
Fixpoint visited op (turns : list Turn) (state : TaskAttemptState) m
    : list (Turn * TaskAttemptState * TaskAttemptMemory) :=
  match turns with
  | [] => []
  | turn :: turns =>
      (turn, state, m) ::
      match attempt_turn op turn state m with
      | Done (inr (state, m)) => visited op turns state m
      | _ => []
      end
  end.

Definition visited_from op turns (beginning : Outcome RequestFailure Attempt) :=
  match beginning with
  | Done (inr (state, m)) => visited op turns state m
  | _ => []
  end.

Definition task_of op (task : A2ATask) : Prop :=
  a2a_id task = op_task_id op ∧ ∀ c, op_context_id op = Some c → a2a_context_id task = c.

Definition event_of op (event : StreamResponse) : Prop :=
  match event with
  | StreamTask task => task_of op task
  | StreamStatus task_id status => task_id = op_task_id op ∧ status_state status = TaskWorking
  | StreamOther _ => False
  end.

(** The events that are read before a stream breaks, expires or ends. *)
Fixpoint read_events (stream : list (option (Result OperationClientError StreamResponse)))
    : list StreamResponse :=
  match stream with Some (Ok event) :: stream => event :: read_events stream | _ => [] end.

(** The answers of a turn that show the task of the operation. *)
Definition shows op (turn : Turn) (state : TaskAttemptState) : Prop :=
  match state with
  | Inspect _ _ | FinalGet _ _ _ => ∃ task, turn_task turn = Some (Ok task) ∧ task_of op task
  | Streaming _ _ stream => ∃ event, event ∈ read_events stream ∧ event_of op event
  | _ => False
  end.

Definition is_resend (state : TaskAttemptState) : bool :=
  match state with Resend _ _ => true | _ => false end.
Definition is_recovery (state : TaskAttemptState) : bool :=
  match state with Recover _ _ | Resolve _ _ => true | _ => false end.

(** The states in which the error of a send may still decide the result. *)
Definition before_inspection (state : TaskAttemptState) : bool :=
  match state with Recover _ _ | Resolve _ _ | Inspect _ _ => true | _ => false end.

Definition names_task op (result : Value) : Prop :=
  value_get "task_id" result = Some (VString (op_task_id op)).
Definition claims_confirmed (result : Value) : Prop :=
  value_get "task_confirmed" result = Some (VBool true).

(** The broker has answered that it does not have the task. *)
Definition answered_missing (turn : Turn) : Prop :=
  ∃ error, turn_task turn = Some (Err error) ∧ a2a_task_is_definitely_missing error = true.

(** What holds whenever a turn begins. *)
Record AttemptOK op (state : TaskAttemptState) m : Prop := {
  at_resend : is_resend state = true →
    is_some (op_normalized_request op) = true ∧ resend_attempted m = true ∧
    task_confirmed m = false;
  at_subscribe : (∃ c cl, state = Subscribe c cl) → task_confirmed m = true;
  at_last : ∀ task, last_task m = Some task → task_confirmed m = true;
  at_error : is_some (preconfirmation_error m) = true →
    resend_attempted m = true ∧ task_confirmed m = false;
  at_quiet : before_inspection state = false → preconfirmation_error m = None;
}.

(** How far a state is from the end or the next recovery. *)
Definition may_resend m : bool := negb (task_confirmed m) && negb (resend_attempted m).
Definition rank (state : TaskAttemptState) m : nat :=
  match state with
  | Recover _ _ | Resolve _ _ => 0
  | FinalGet _ _ false => 1
  | CheckReplacement _ _ false => 2
  | Subscribe _ _ => 3
  | FinalGet _ _ true => 4
  | CheckReplacement _ _ true => 5
  | Streaming _ _ _ => 6
  | Resend _ _ => 7
  | Inspect _ _ => if may_resend m then 8 else 4
  end.

(** What one turn does. *)
Definition goes_on op (turn : Turn) (state : TaskAttemptState) m
    (state' : TaskAttemptState) (m' : TaskAttemptMemory) : Prop :=
  AttemptOK op state' m' ∧
  (task_confirmed m' = true ↔ task_confirmed m = true ∨ shows op turn state) ∧
  (resend_attempted m' = true ↔ resend_attempted m = true ∨ is_resend state' = true) ∧
  (is_resend state' = true →
     resend_attempted m = false ∧ answered_missing turn ∧ ∃ c cl, state = Inspect c cl) ∧
  (is_recovery state = false → rank state' m' < rank state m).

Definition turn_ok op (turn : Turn) (state : TaskAttemptState) m
    (outcome : Outcome RequestFailure Attempt) : Prop :=
  match outcome with
  | Done (inl result) =>
      names_task op result ∧ (claims_confirmed result → task_confirmed m = true ∨ shows op turn state)
  | Done (inr (state', m')) => goes_on op turn state m state' m'
  | Fail _ => True
  | Panic _ => False
  end.

Lemma validated op task : validate_operation_task op task = Done () → task_of op task.
Proof.
  unfold validate_operation_task. intros Hv%reject_if_Done.
  apply orb_false_iff in Hv as [Hid Hc]. apply negb_false_iff, String.eqb_eq in Hid.
  split; [done|]. intros c Hop. rewrite Hop in Hc. by apply negb_false_iff, String.eqb_eq in Hc.
Qed.

Lemma validated_iff op task :
  (validate_operation_task op task = Done () ∧ task_of op task)
  ∨ ∃ error, validate_operation_task op task = Fail error.
Proof.
  destruct (validate_operation_task op task) as [[]|error|] eqn:Hv.
  - left. split; [done|by apply validated].
  - right. by exists error.
  - unfold validate_operation_task, reject_if in Hv. by case_match.
Qed.

Lemma task_result_names op task : task_of op task → names_task op (task_result task).
Proof. intros [Hid _]. unfold names_task, task_result. cbn. by rewrite Hid. Qed.

Lemma timed_out_ok op turn state m reason : turn_ok op turn state m (timed_out op m reason).
Proof.
  split; [done|]. unfold claims_confirmed. cbn. intros [= ->]. by left.
Qed.

Lemma immediate_ok op turn state m response :
  turn_ok op turn state m (let? result := immediate_result op response in Done (inl result)).
Proof.
  destruct response as [task|]; [|done]. cbn.
  destruct (validated_iff op task) as [[-> [Hid _]]|[error ->]]; [|done]. cbn.
  split; [unfold names_task; cbn; by rewrite Hid|done].
Qed.

Lemma rank_positive state m : is_recovery state = false → 0 < rank state m.
Proof. destruct state as [| | | | | |? ? []|? ? []]; cbn; try case_match; done || lia. Qed.

(** A turn that keeps the memory. *)
Lemma goes_to op turn state m state' :
  AttemptOK op state m → is_resend state' = false → (∀ c cl, state' ≠ Subscribe c cl) →
  (before_inspection state' = false → before_inspection state = false) →
  ¬ shows op turn state → (is_recovery state = false → rank state' m < rank state m) →
  turn_ok op turn state m (Done (inr (state', m))).
Proof.
  intros HOK Hre Hsub Hquiet Hno Hrank. split_and!; try done.
  - split; [by rewrite Hre|intros (? & ? & Heq); by destruct (Hsub _ _ Heq)|apply HOK|apply HOK|].
    intros Hb. by apply (at_quiet _ _ _ HOK), Hquiet.
  - split; [by left|by intros [|]].
  - rewrite Hre. split; [by left|by intros [|]].
  - by rewrite Hre.
Qed.

Lemma recovery_ok op turn state m connection error :
  AttemptOK op state m → ¬ shows op turn state → a2a_error_is_recoverable error = true →
  turn_ok op turn state m (recovery_state connection error m).
Proof.
  intros HOK Hno Hre. unfold recovery_state, a2a_error_is_recoverable in *.
  destruct (a2a_error_recovery_mode error); [|done].
  apply goes_to; try done. apply rank_positive.
Qed.

Ltac go_to := apply goes_to; [done|done|done|done|first [done|by intros []]|cbn; first [by intros [=]|intros _; try lia]].

Lemma recover_ok op turn m connection mode :
  AttemptOK op (Recover connection mode) m →
  turn_ok op turn (Recover connection mode) m (recover_turn op turn m).
Proof.
  intros HOK. unfold recover_turn. destruct (turn_recover turn) as [c|[]]; try done.
  - by go_to.
  - apply timed_out_ok.
Qed.

Lemma resolve_ok op turn m connection delay :
  AttemptOK op (Resolve connection delay) m →
  turn_ok op turn (Resolve connection delay) m (resolve_turn op turn connection delay m).
Proof.
  intros HOK. unfold resolve_turn.
  destruct (operation_client connection op (turn_card turn)) as [client|error]; [by go_to|].
  assert (Hrest : turn_ok op turn (Resolve connection delay) m
            (if a2a_error_is_recoverable error then recovery_state connection error m
             else client_failed error)).
  { destruct (a2a_error_is_recoverable error) eqn:Hre; [|done]. apply recovery_ok; [done|by intros []|done]. }
  destruct error; try exact Hrest. destruct (_ =? _)%Z; [apply timed_out_ok|by go_to].
Qed.

Lemma inspect_ok op turn m connection client :
  AttemptOK op (Inspect connection client) m →
  turn_ok op turn (Inspect connection client) m (inspect_turn op turn connection client m).
Proof.
  intros HOK. unfold inspect_turn. destruct (turn_task turn) as [[task|error]|] eqn:Ht;
    [| |apply timed_out_ok].
  - destruct (validated_iff op task) as [[Hv Htask]|[error Hv]]; [|by rewrite Hv].
    assert (Hshows : shows op turn (Inspect connection client)) by (by exists task).
    rewrite Hv. cbn [out_bind]. destruct (is_terminal task).
    { split; [by apply task_result_names|done]. }
    case_decide; [apply immediate_ok|]. split_and!; cbn; try done.
    + split; [by right|done].
    + split; [by left|by intros [|]].
    + intros _. case_match; lia.
  - assert (Hno : ¬ shows op turn (Inspect connection client)).
    { intros (task & Htask & _). congruence. }
    assert (Hrest : turn_ok op turn (Inspect connection client) m
              (if a2a_error_is_recoverable error then recovery_state connection error m
               else client_failed error)).
    { destruct (a2a_error_is_recoverable error) eqn:Hre; [|done]. by apply recovery_ok. }
    destruct (preconfirmation_error m) eqn:Hp.
    { destruct (a2a_task_is_definitely_missing error); [done|exact Hrest]. }
    destruct (_ && _) eqn:Hg; [|exact Hrest].
    rewrite !andb_true_iff, !negb_true_iff in Hg. destruct Hg as [[[Hmiss Hconf] Hreq] Hatt].
    split_and!; cbn.
    + split; cbn; [done|by intros (? & ? & [=])|apply HOK|by rewrite Hp|done].
    + split; [by left|by intros [|]].
    + split; [by right|done].
    + intros _. split_and!; [done|by exists error|by eauto].
    + intros _. unfold may_resend. rewrite Hconf, Hatt. cbn. lia.
Qed.

Lemma resend_ok op turn m connection client :
  AttemptOK op (Resend connection client) m →
  turn_ok op turn (Resend connection client) m (resend_turn op turn connection client m).
Proof.
  intros HOK. destruct (at_resend _ _ _ HOK eq_refl) as (Hreq & Hatt & Hconf).
  unfold resend_turn. destruct (op_normalized_request op); [|done].
  assert (Hfailed : ∀ error, turn_ok op turn (Resend connection client) m
    (if a2a_error_is_recoverable error then recovery_state connection error m
     else Done (inr (Inspect connection client, m <| preconfirmation_error := Some error |>)))).
  { intros error. destruct (a2a_error_is_recoverable error) eqn:Hre.
    - apply recovery_ok; [done|by intros []|done].
    - split_and!; cbn.
      + split; cbn; [done|by intros (? & ? & [=])|apply HOK|done|done].
      + split; [by left|by intros [|[]]].
      + rewrite Hatt. split; [by left|done].
      + done.
      + intros _. unfold may_resend. cbn. rewrite Hatt, andb_false_r. lia. }
  destruct (op_wait_mode op).
  - destruct (turn_send turn) as [[response|error]|];
      [apply immediate_ok|apply Hfailed|apply timed_out_ok].
  - destruct (turn_stream turn) as [[stream|error]|]; [by go_to|apply Hfailed|apply timed_out_ok].
Qed.

Lemma streaming_quiet op connection client stream m m' :
  AttemptOK op (Streaming connection client stream) m →
  preconfirmation_error m' = preconfirmation_error m → task_confirmed m' = true →
  AttemptOK op (Streaming connection client stream) m'.
Proof.
  intros HOK Hp Hc. pose proof (at_quiet _ _ _ HOK eq_refl) as Hnone.
  split; [done|by intros (? & ? & [=])|done|by rewrite Hp, Hnone|by rewrite Hp, Hnone].
Qed.

(** A stream that was read ends in another state. *)
Lemma stream_break op turn m0 connection client stream0 m state' :
  AttemptOK op (Streaming connection client stream0) m →
  resend_attempted m = resend_attempted m0 →
  (task_confirmed m = true ↔ task_confirmed m0 = true ∨ shows op turn (Streaming connection client stream0)) →
  (state' = CheckReplacement connection client true
   ∨ state' = Inspect connection client ∧ task_confirmed m = true) →
  turn_ok op turn (Streaming connection client stream0) m0 (Done (inr (state', m))).
Proof.
  intros HOK Ha Hiff Hstate.
  assert (Hre : is_resend state' = false) by (by destruct Hstate as [->|[-> _]]).
  split_and!; try done.
  - pose proof (at_quiet _ _ _ HOK eq_refl) as Hnone.
    split; [by rewrite Hre| |apply HOK|apply HOK|done].
    destruct Hstate as [->|[-> _]]; by intros (? & ? & [=]).
  - rewrite Hre, Ha. split; [by left|by intros [|]].
  - by rewrite Hre.
  - intros _. destruct Hstate as [->|[-> Hc]]; cbn; [lia|].
    unfold may_resend. rewrite Hc. cbn. lia.
Qed.

(** The inner loop of [Streaming], with part of the stream read. *)
Lemma stream_ok op turn m0 connection client stream0 stream m :
  AttemptOK op (Streaming connection client stream0) m →
  resend_attempted m = resend_attempted m0 →
  (task_confirmed m = true ∨ (∃ event, event ∈ read_events stream ∧ event_of op event)
   ↔ task_confirmed m0 = true ∨ shows op turn (Streaming connection client stream0)) →
  turn_ok op turn (Streaming connection client stream0) m0 (stream_turn op connection client stream m).
Proof.
  revert m. induction stream as [|[[event|error]|] stream IH]; intros m HOK Ha Hiff.
  - apply (stream_break _ _ _ _ _ _ m); [done|done| |by left].
    rewrite <-Hiff. split; [by left|]. intros [|(? & []%not_elem_of_nil & _)]. done.
  - assert (Hseen : ∀ m', preconfirmation_error m' = preconfirmation_error m →
              resend_attempted m' = resend_attempted m → task_confirmed m' = true → event_of op event →
              turn_ok op turn (Streaming connection client stream0) m0 (stream_turn op connection client stream m')).
    { intros m' Hp' Ha' Hc' Hev. apply IH; [by eapply streaming_quiet|by rewrite Ha'|].
      rewrite <-Hiff. split; [|by left]. intros _. right. exists event. split; [left|done]. }
    assert (Hskip : ¬ event_of op event →
              turn_ok op turn (Streaming connection client stream0) m0 (stream_turn op connection client stream m)).
    { intros Hev. apply IH; [done|done|]. rewrite <-Hiff. cbn. setoid_rewrite elem_of_cons.
      naive_solver. }
    destruct event as [task|task_id status|value].
    + destruct (validated_iff op task) as [[Hv Htask]|[error Hv]]; cbn [stream_turn out_bind]; rewrite Hv;
        [|done].
      cbn [out_bind terminal_stream_result]. destruct (is_terminal task).
      * split; [by apply task_result_names|done].
      * by apply Hseen.
    + cbn [stream_turn out_bind terminal_stream_result]. destruct (working_stream_event _ _) eqn:Hw.
      * apply andb_true_iff in Hw as [->%String.eqb_eq Hw%bool_decide_eq_true_1]. by apply Hseen.
      * apply Hskip. intros [-> Hst]. cbn in Hw. by rewrite String.eqb_refl, bool_decide_true in Hw.
    + apply Hskip. by intros [].
  - cbn [stream_turn].
    assert (Hm : task_confirmed m = true
                 ↔ task_confirmed m0 = true ∨ shows op turn (Streaming connection client stream0)).
    { rewrite <-Hiff. split; [by left|]. intros [|(? & []%not_elem_of_nil & _)]. done. }
    destruct (a2a_error_is_recoverable error); [apply (stream_break _ _ _ _ _ _ m); auto|].
    destruct (task_confirmed m) eqn:Hc; [|done]. apply (stream_break _ _ _ _ _ _ m); auto.
    by rewrite Hc.
  - split; [done|]. unfold claims_confirmed. cbn. intros [= Hc]. apply Hiff. by left.
Qed.

Lemma subscription_ok op turn m0 connection client subscription m :
  task_confirmed m0 = true → task_confirmed m = true → resend_attempted m = resend_attempted m0 →
  preconfirmation_error m = None →
  turn_ok op turn (Subscribe connection client) m0
    (subscription_turn op connection client subscription m).
Proof.
  intros Hc0. revert m.
  assert (Hbreak : ∀ m, task_confirmed m = true → resend_attempted m = resend_attempted m0 →
    preconfirmation_error m = None →
    turn_ok op turn (Subscribe connection client) m0
      (Done (inr (CheckReplacement connection client false, m)))).
  { intros m Hc Ha Hp. split_and!; cbn.
    - split; [done|by intros (? & ? & [=])|done|by rewrite Hp|done].
    - split; [by left|done].
    - rewrite Ha. split; [by left|by intros [|]].
    - done.
    - intros _. lia. }
  induction subscription as [|[[event|error]|] subscription IH]; intros m Hc Ha Hp; cbn [subscription_turn].
  - by apply Hbreak.
  - destruct event as [task|task_id status|value]; cbn [out_bind terminal_stream_result]; [|by apply IH..].
    destruct (validated_iff op task) as [[-> Htask]|[error ->]]; [|done]. cbn [out_bind].
    destruct (is_terminal task); [|by apply IH]. split; [by apply task_result_names|done].
  - destruct (a2a_error_is_recoverable error); [by apply Hbreak|done].
  - split; [done|]. by left.
Qed.

Lemma subscribe_ok op turn m connection client :
  AttemptOK op (Subscribe connection client) m →
  turn_ok op turn (Subscribe connection client) m (subscribe_turn op turn connection client m).
Proof.
  intros HOK. assert (Hc : task_confirmed m = true) by (apply (at_subscribe _ _ _ HOK); eauto).
  unfold subscribe_turn. destruct (turn_stream turn) as [[subscription|error]|].
  - apply subscription_ok; try done. by apply (at_quiet _ _ _ HOK).
  - destruct (a2a_error_is_recoverable error); [|done]. by go_to.
  - apply timed_out_ok.
Qed.

Lemma replacement_ok op turn m connection client resubscribe :
  AttemptOK op (CheckReplacement connection client resubscribe) m →
  turn_ok op turn (CheckReplacement connection client resubscribe) m
    (replacement_turn op turn connection client resubscribe m).
Proof.
  intros HOK. assert (Hrank : rank (FinalGet connection client resubscribe) m
                              < rank (CheckReplacement connection client resubscribe) m)
    by (destruct resubscribe; cbn; lia).
  unfold replacement_turn. destruct (turn_replaced turn) as [[replacement|]|[]]; try done.
  - go_to. destruct resubscribe; lia.
  - by go_to.
  - by go_to.
  - apply timed_out_ok.
Qed.

Lemma final_get_ok op turn m connection client resubscribe :
  AttemptOK op (FinalGet connection client resubscribe) m →
  turn_ok op turn (FinalGet connection client resubscribe) m
    (final_get_turn op turn connection client resubscribe m).
Proof.
  intros HOK. unfold final_get_turn. destruct (turn_task turn) as [[task|error]|] eqn:Ht;
    [| |apply timed_out_ok].
  - destruct (validated_iff op task) as [[Hv Htask]|[error Hv]]; rewrite Hv; [|done]. cbn [out_bind].
    assert (Hshows : shows op turn (FinalGet connection client resubscribe)) by (by exists task).
    destruct (is_terminal task); [split; [by apply task_result_names|done]|].
    destruct resubscribe; [|split; [done|by right]]. split_and!; cbn.
    + pose proof (at_quiet _ _ _ HOK eq_refl) as Hp. split; cbn; [done|done|done|by rewrite Hp|done].
    + split; [by right|done].
    + split; [by left|by intros [|]].
    + done.
    + intros _. lia.
  - destruct (a2a_error_is_recoverable error) eqn:Hre; [|done]. apply recovery_ok; [done| |done].
    intros (task & Htask & _). congruence.
Qed.

Lemma attempt_turn_ok op turn state m :
  AttemptOK op state m → turn_ok op turn state m (attempt_turn op turn state m).
Proof.
  intros HOK. destruct state.
  - by apply recover_ok.
  - by apply inspect_ok.
  - by apply resolve_ok.
  - by apply resend_ok.
  - by apply stream_ok.
  - by apply subscribe_ok.
  - by apply replacement_ok.
  - by apply final_get_ok.
Qed.

(** ** Runs *)

(** A result is about the task, says that it was seen only if it was, and no [expect] fails. *)
Definition sound_outcome op (seen : Prop) (outcome : Outcome RequestFailure Value) : Prop :=
  match outcome with
  | Done result => names_task op result ∧ (claims_confirmed result → seen)
  | Fail _ => True
  | Panic _ => False
  end.

Definition log_shows op (log : list (Turn * TaskAttemptState * TaskAttemptMemory)) : Prop :=
  ∃ turn state m, (turn, state, m) ∈ log ∧ shows op turn state.

Lemma run_sound op turns state m outcome :
  AttemptOK op state m → run_task_attempts op turns state m = Some outcome →
  sound_outcome op (task_confirmed m = true ∨ log_shows op (visited op turns state m)) outcome.
Proof.
  revert state m. induction turns as [|turn turns IH]; intros state m HOK; [done|].
  pose proof (attempt_turn_ok op turn state m HOK) as Hturn. cbn.
  destruct (attempt_turn op turn state m) as [[result|[state' m']]|error|msg]; cbn in Hturn; [| | |done].
  - intros [= <-]. destruct Hturn as [Hn Hc]. split; [done|]. intros [?|?]%Hc; [by left|right].
    exists turn, state, m. split; [left|done].
  - destruct Hturn as (HOK' & Hconf & _). intros Hrun. specialize (IH state' m' HOK' Hrun).
    destruct outcome as [result| |]; [|done|done]. destruct IH as [Hn Hc]. split; [done|].
    intros [Hm|(t & s & m1 & Hin & Hs)]%Hc.
    + apply Hconf in Hm as [?|?]; [by left|]. right. exists turn, state, m. split; [left|done].
    + right. exists t, s, m1. split; [by right|done].
  - by intros [= <-].
Qed.

Lemma run_rank op turns state m :
  AttemptOK op state m → run_task_attempts op turns state m = None →
  length turns ≤ rank state m + 1
    + 9 * length (filter (λ x, is_recovery x.1.2 = true) (visited op turns state m)).
Proof.
  revert state m. induction turns as [|turn turns IH]; intros state m HOK; [cbn; lia|].
  pose proof (attempt_turn_ok op turn state m HOK) as Hturn. cbn [run_task_attempts visited length].
  destruct (attempt_turn op turn state m) as [[result|[state' m']]|error|msg]; [done| |done|done].
  destruct Hturn as (HOK' & _ & _ & _ & Hrank). intros Hrun. specialize (IH state' m' HOK' Hrun).
  assert (Hmax : ∀ s m, rank s m ≤ 8).
  { intros [| | | | | |? ? []|? ? []] ?; cbn; try case_match; lia. }
  pose proof (Hmax state' m'). rewrite filter_cons. cbn [fst snd].
  destruct (is_recovery state) eqn:Hrec.
  - rewrite decide_True by done. cbn [length]. lia.
  - rewrite decide_False by done. specialize (Hrank eq_refl). lia.
Qed.

Lemma visited_ok op turns state m i turn' state' m' :
  AttemptOK op state m → visited op turns state m !! i = Some (turn', state', m') →
  AttemptOK op state' m' ∧ (0 < i → task_confirmed m = true → task_confirmed m' = true).
Proof.
  revert state m i. induction turns as [|turn turns IH]; intros state m i HOK; [done|].
  pose proof (attempt_turn_ok op turn state m HOK) as Hturn. cbn [visited].
  destruct i as [|i]; [intros [= <- <- <-]; split; [done|lia]|]. cbn.
  destruct (attempt_turn op turn state m) as [[result|[state1 m1]]|error|msg]; try done.
  destruct Hturn as (HOK1 & Hconf & _). intros Hi.
  destruct (IH state1 m1 i HOK1 Hi) as [HOK' Hkeep]. split; [done|]. intros _ Hm.
  destruct i as [|i]; [|apply Hkeep; [lia|apply Hconf; by left]].
  destruct turns; [done|]. injection Hi as <- <- <-. apply Hconf. by left.
Qed.

Lemma resends_counted op turns state m :
  AttemptOK op state m →
  length (filter (λ x, is_resend x.1.2 = true) (visited op turns state m))
    ≤ if is_resend state then 1 else if resend_attempted m then 0 else 1.
Proof.
  revert state m. induction turns as [|turn turns IH]; intros state m HOK; [cbn; lia|].
  pose proof (attempt_turn_ok op turn state m HOK) as Hturn. cbn [visited].
  rewrite filter_cons. cbn [fst snd].
  destruct (attempt_turn op turn state m) as [[result|[state' m']]|error|msg].
  1,3,4: case_decide as Hre; rewrite ?Hre; cbn; repeat case_match; lia.
  destruct Hturn as (HOK' & _ & Hatt & Hres & _). specialize (IH state' m' HOK').
  destruct (resend_attempted m) eqn:Ha.
  - assert (Hre' : is_resend state' = false).
    { destruct (is_resend state'); [|done]. by destruct (Hres eq_refl) as [? _]. }
    rewrite Hre', (proj2 Hatt) in IH by (by left). case_decide as Hre; rewrite ?Hre; cbn.
    + lia.
    + destruct (is_resend state); [done|]. lia.
  - destruct (is_resend state) eqn:Hre; [by destruct (at_resend _ _ _ HOK Hre) as (_ & ? & _); congruence|].
    rewrite decide_False by done. etrans; [exact IH|]. repeat case_match; lia.
Qed.

(** Where a task is sent again. *)
Lemma resend_after_missing op turns state m i turn' state' m' :
  AttemptOK op state m → visited op turns state m !! S i = Some (turn', state', m') →
  is_resend state' = true →
  ∃ turn0 c cl m0, visited op turns state m !! i = Some (turn0, Inspect c cl, m0) ∧
    answered_missing turn0.
Proof.
  revert state m i. induction turns as [|turn turns IH]; intros state m i HOK; [done|].
  pose proof (attempt_turn_ok op turn state m HOK) as Hturn. cbn.
  destruct (attempt_turn op turn state m) as [[result|[state1 m1]]|error|msg]; try done.
  destruct Hturn as (HOK1 & _ & _ & Hres & _). destruct i as [|i].
  - intros Hi Hre. destruct turns; [done|]. injection Hi as <- <- <-.
    destruct (Hres Hre) as (_ & Hmiss & c & cl & ->). eauto 6.
  - intros Hi Hre. exact (IH state1 m1 i HOK1 Hi Hre).
Qed.

Lemma unseen_before_resend op turns state m i j turn state' m' turnj statej mj :
  AttemptOK op state m → visited op turns state m !! i = Some (turn, state', m') →
  is_resend state' = true → j < i → visited op turns state m !! j = Some (turnj, statej, mj) →
  ¬ shows op turnj statej.
Proof.
  intros HOK Hi Hre. revert state m i HOK Hi j.
  induction turns as [|t turns IH]; intros state m i HOK Hi j Hlt Hj Hshow; [done|].
  pose proof (attempt_turn_ok op t state m HOK) as Hturn. cbn in Hi, Hj.
  destruct i as [|i]; [lia|]. cbn in Hi.
  destruct (attempt_turn op t state m) as [[result|[state1 m1]]|error|msg]; try done.
  destruct Hturn as (HOK1 & Hconf & _). destruct j as [|j].
  - injection Hj as <- <- <-. destruct (visited_ok _ _ _ _ _ _ _ _ HOK1 Hi) as [HOK' Hkeep].
    destruct (at_resend _ _ _ HOK' Hre) as (_ & _ & Hno).
    assert (Hm1 : task_confirmed m1 = true) by (apply Hconf; by right).
    destruct i as [|i]; [|rewrite (Hkeep (Nat.lt_0_succ i) Hm1) in Hno; done].
    destruct turns; [done|]. injection Hi as <- <- <-. congruence.
  - exact (IH state1 m1 i HOK1 Hi j (proj2 (Nat.succ_lt_mono j i) Hlt) Hj Hshow).
Qed.

(** ** Beginnings *)

Lemma lost_ok op connection error :
  a2a_error_is_recoverable error = true →
  ∃ mode, lost connection error = Done (inr (Recover connection mode, MkMemory false None false None)) ∧
    AttemptOK op (Recover connection mode) (MkMemory false None false None).
Proof.
  unfold lost, a2a_error_is_recoverable. destruct (a2a_error_recovery_mode error) as [mode|]; [|done].
  intros _. exists mode. split; [done|]. split; try done. by intros (? & ? & [=]).
Qed.

(** What an operation begins with, where [seen] says that its first call showed the task. *)
Definition begins_ok op (seen : Prop) (beginning : Outcome RequestFailure Attempt) : Prop :=
  match beginning with
  | Done (inl result) => names_task op result ∧ ¬ claims_confirmed result
  | Done (inr (state, m)) =>
      AttemptOK op state m ∧ is_resend state = false ∧ (task_confirmed m = true → seen)
  | Fail _ => True
  | Panic _ => op_normalized_request op = None
  end.

Lemma begin_new_ok op first : begins_ok op False (begin_new_task op first).
Proof.
  unfold begin_new_task. destruct (operation_client _ _ _) as [client|error].
  2:{ destruct (a2a_error_is_recoverable error) eqn:Hre; [|done].
      destruct (lost_ok op (turn_current first) error Hre) as (mode & -> & HOK). done. }
  destruct (op_normalized_request op) eqn:Hreq; [|exact Hreq].
  assert (Hfailed : ∀ error, begins_ok op False
    (if a2a_error_is_recoverable error then lost (turn_current first) error
     else Done (inspect_task_after_send_error (turn_current first) client error))).
  { intros error. destruct (a2a_error_is_recoverable error) eqn:Hre.
    - destruct (lost_ok op (turn_current first) error Hre) as (mode & -> & HOK). done.
    - split_and!; [|done|done]. split; try done. by intros (? & ? & [=]). }
  destruct (op_wait_mode op).
  - destruct (turn_send first) as [[[task|]|error]|]; [|done|apply Hfailed|done]. cbn.
    destruct (validated_iff op task) as [[-> [Hid _]]|[error ->]]; [|done]. cbn.
    split; [unfold names_task; cbn; by rewrite Hid|done].
  - destruct (turn_stream first) as [[stream|error]|]; [|apply Hfailed|done].
    split_and!; [|done|done]. split; try done. by intros (? & ? & [=]).
Qed.

Definition first_shows op (first : Turn) : Prop := ∃ task, turn_task first = Some (Ok task) ∧ task_of op task.

Lemma begin_resume_ok op first :
  begins_ok op (first_shows op first) (begin_resume op first) ∧ ∀ msg, begin_resume op first ≠ Panic msg.
Proof.
  unfold begin_resume.
  assert (Hfailed : ∀ error, let failed := if a2a_error_is_recoverable error
      then lost (turn_current first) error else client_failed error in
    begins_ok op (first_shows op first) failed ∧ ∀ msg, failed ≠ Panic msg).
  { intros error. cbn zeta.
    destruct (a2a_error_is_recoverable error) eqn:Hre; [|split; [exact I|intros msg [=]]].
    destruct (lost_ok op (turn_current first) error Hre) as (mode & -> & HOK). done. }
  destruct (operation_client _ _ _) as [client|error]; [|apply Hfailed].
  destruct (turn_task first) as [[task|error]|] eqn:Ht; [|apply Hfailed|done].
  destruct (validated_iff op task) as [[-> Htask]|[error ->]]; [|done]. cbn [out_bind].
  destruct (is_terminal task); (split; [|done]).
  - split; [by apply task_result_names|done].
  - split_and!; [|done|]. { split; done. } intros _. by exists task.
Qed.

Lemma follow_sound op seen turns beginning outcome :
  begins_ok op seen beginning → (∀ msg, beginning ≠ Panic msg) →
  follow op turns beginning = Some outcome →
  sound_outcome op (seen ∨ log_shows op (visited_from op turns beginning)) outcome.
Proof.
  intros Hb Hp. destruct beginning as [[result|[state m]]|error|msg]; cbn in *.
  - intros [= <-]. destruct Hb as [Hn Hc]. split; [done|]. by intros ?%Hc.
  - destruct Hb as (HOK & _ & Hm). intros Hrun.
    pose proof (run_sound op turns state m outcome HOK Hrun) as Hs.
    destruct outcome; [|done|done]. destruct Hs as [Hn Hc]. split; [done|].
    intros [?%Hm|?]%Hc; [by left|by right].
  - by intros [= <-].
  - by destruct (Hp msg).
Qed.

(** C11: whatever the broker answers, an operation that starts a task sends its message at
    most twice.  The second time comes directly after the broker answered that it does
    not have the task, in a run that has never seen it, and never after the broker has
    refused the message. *)
Theorem task_sent_at_most_twice op first turns :
  let log := visited_from op turns (begin_new_task op first) in
  length (filter (λ x, is_resend x.1.2 = true) log) ≤ 1 ∧
  (∀ c cl error, begin_new_task op first = Done (inspect_task_after_send_error c cl error) →
     filter (λ x, is_resend x.1.2 = true) log = []) ∧
  ∀ i turn state m, log !! i = Some (turn, state, m) → is_resend state = true →
    (∃ j turn0 c cl m0, i = S j ∧ log !! j = Some (turn0, Inspect c cl, m0) ∧ answered_missing turn0) ∧
    ∀ j turn0 state0 m0, j < i → log !! j = Some (turn0, state0, m0) → ¬ shows op turn0 state0.
Proof.
  intros log. unfold log. pose proof (begin_new_ok op first) as Hb.
  destruct (begin_new_task op first) as [[result|[state m]]|error|msg]; cbn; try (split_and!; cbn; try done; lia).
  destruct Hb as (HOK & Hre & _). pose proof (resends_counted op turns state m HOK) as Hn.
  rewrite Hre in Hn. split_and!.
  - etrans; [exact Hn|]. case_match; lia.
  - intros c cl error [= -> ->]. cbn in Hn. apply length_zero_iff_nil. lia.
  - intros i turn state' m' Hi Hre'. split.
    + destruct i as [|i]; [destruct turns; [done|]; injection Hi as <- <- <-; congruence|].
      destruct (resend_after_missing _ _ _ _ _ _ _ _ HOK Hi Hre') as (t & c & cl & m0 & H0).
      by exists i, t, c, cl, m0.
    + intros j turn0 state0 m0 Hlt Hj. exact (unseen_before_resend op turns state m i j turn state' m' turn0 state0 m0 HOK Hi Hre' Hlt Hj).
Qed.

(** the result of sending or resuming a task names the task of the operation; it says
    that the task is confirmed only if the broker has shown that task, with the context
    of the operation, during the operation; and no [expect] of the code fails. *)
Theorem operations_answer_for_their_task op first turns :
  (∀ outcome, is_some (op_normalized_request op) = true →
     execute_new_task_operation op first turns = Some outcome →
     sound_outcome op (log_shows op (visited_from op turns (begin_new_task op first))) outcome) ∧
  (∀ outcome, resume_operation op first turns = Some outcome →
     sound_outcome op (first_shows op first ∨
                       log_shows op (visited_from op turns (begin_resume op first))) outcome).
Proof.
  split; intros outcome.
  - intros Hreq Hrun. pose proof (begin_new_ok op first) as Hb.
    assert (Hp : ∀ msg, begin_new_task op first ≠ Panic msg).
    { intros msg Heq. rewrite Heq in Hb. cbn in Hb. by rewrite Hb in Hreq. }
    pose proof (follow_sound _ _ _ _ _ Hb Hp Hrun) as Hs.
    destruct outcome; [|done|done]. destruct Hs as [Hn Hc]. split; [done|]. by intros [[]|?]%Hc.
  - destruct (begin_resume_ok op first) as [Hb Hp]. apply follow_sound; done.
Qed.

(** an operation goes on for long only by recovering: of any ten turns of the loop
    in a row one waits for a new connection or for the agent's card, and both are bounded
    by the deadline of the operation. *)
Theorem operations_progress op first turns beginning :
  beginning = begin_new_task op first ∨ beginning = begin_resume op first →
  follow op turns beginning = None →
  length turns ≤ 9 * S (length (filter (λ x, is_recovery x.1.2 = true) (visited_from op turns beginning))).
Proof.
  intros Hbegin Hrun.
  assert (Hb : ∃ seen, begins_ok op seen beginning).
  { destruct Hbegin as [-> | ->]; eexists; [apply begin_new_ok|apply begin_resume_ok]. }
  destruct Hb as [seen Hb]. destruct beginning as [[result|[state m]]|error|msg]; try done. cbn in *.
  destruct Hb as [HOK _]. pose proof (run_rank _ _ _ _ HOK Hrun) as Hrank.
  assert (rank state m ≤ 8) by (destruct state as [| | | | | |? ? []|? ? []]; cbn; try case_match; lia).
  lia.
Qed.
End proofs.

Module AttemptsSample.
#[local] Instance number : JsonNumber := {| Number := Z; is_f64 _ := false |}.
#[local] Instance millis : Chrono := {|
  DateTime := Z;
  timestamp_millis_opt ms := Some ms;
  parse_from_rfc3339 _ := None;
  timestamp_millis ms := ms;
  sortable_timestamp _ := "";
|}.
#[local] Instance a2a : A2ALib := {|
  message_text _ := None;
  method_send_message := "SendMessage";
  method_send_streaming_message := "SendStreamingMessage";
  task_state_is_terminal state :=
    bool_decide (state ∈ [TaskCompleted; TaskFailedState; TaskRejectedState; TaskCanceledState]);
|}.
#[local] Instance client_lib : ClientLib := {|
  TASK_NOT_FOUND := -32001;
  TRANSPORT_PROTOCOL_JSONRPC := "JSONRPC";
  wire_url := interface_url;
  remote_display := remote_message;
|}.

Definition connection (instance : string) : BrokerConnection :=
  MkBrokerConnection (MkRuntimeDescriptor "s" "w" "http://127.0.0.1:80" "token" instance "/bin/a" 7 0)
    (MkCredentials (MkRegistrationId "r") (MkRegistrationEpoch 1)) (MkAgentName "a")
    (MkHttpClient [] false) (MkHttpClient [] true).

Definition message : Message := MkMessage "m" (Some "c") (Some "t") RoleUser [text_part "hello"] None None None.
Definition operation : TaskOperation :=
  MkTaskOperation "worker" "agent" "agent" "t" (Some "c")
    (Some (MkSendRequest message None None (Some "agent"))) Terminal 1000.
Definition task (state : TaskState) : A2ATask := MkA2ATask "t" "c" (MkTaskStatus state None None) None None None.
Definition interfaces : list AgentInterface := [MkAgentInterface "http://127.0.0.1:80/a2a" "JSONRPC" (Some "agent")].

Definition turn (task : option (Result OperationClientError A2ATask))
    (stream : option (Result OperationClientError (list (option (Result OperationClientError StreamResponse)))))
    (card : option (Result OperationClientError (list AgentInterface))) : Turn :=
  MkTurn 0 (0, connection "i1") (Ok (1, connection "i2")) (Ok None) card task None stream.

(** The connection breaks before the task is stored; the new broker does not have it, is
    sent it again, and shows it working and then completed. *)
Definition first : Turn := turn None (Some (Err (Connection "closed"))) (Some (Ok interfaces)).
Definition plain : Turn := turn None None (Some (Ok interfaces)).
Definition missing : Turn := turn (Some (Err (Application (MkRemoteError (-32001) "" None)))) None None.
Definition accepted : Turn :=
  turn None (Some (Ok [Some (Ok (StreamTask (task TaskWorking))); Some (Ok (StreamTask (task TaskCompleted)))])) None.
Definition turns : list Turn := [plain; plain; missing; accepted; plain].

Lemma task_sent_at_most_twice_witness :
  execute_new_task_operation operation first turns = Some (Done (task_result (task TaskCompleted))) ∧
  length (filter (λ x, is_resend x.1.2 = true)
            (visited_from operation turns (begin_new_task operation first))) = 1.
Proof.
  split; [by vm_compute|]. pose proof (task_sent_at_most_twice operation first turns) as [Hle _].
  apply Nat.le_antisymm; [exact Hle|]. by vm_compute; lia.
Defined.

(** The same without the last turns: the deadline expires while the task works. *)
Definition expired : Turn := turn None (Some (Ok [Some (Ok (StreamTask (task TaskWorking))); None])) None.

Lemma operations_answer_for_their_task_witness :
  ∃ result, execute_new_task_operation operation first [plain; plain; missing; expired; plain] = Some (Done result)
    ∧ names_task operation result ∧ claims_confirmed result
    ∧ log_shows operation
        (visited_from operation [plain; plain; missing; expired; plain] (begin_new_task operation first)).
Proof.
  destruct (operations_answer_for_their_task operation first [plain; plain; missing; expired; plain]) as [Hnew _].
  eexists. split; [by vm_compute|].
  assert (Hc : claims_confirmed (operation_timeout_result operation true (Some (task TaskWorking)) "deadline_expired"))
    by done.
  destruct (Hnew (Done (operation_timeout_result operation true (Some (task TaskWorking)) "deadline_expired"))
              eq_refl ltac:(by vm_compute)) as [Hn Hs].
  exact (conj Hn (conj Hc (Hs Hc))).
Defined.

Definition away : Turn := turn None None (Some (Err (AgentUnavailable "gone"))).

Lemma operations_progress_witness :
  length (replicate 30 away)
  ≤ 9 * S (length (filter (λ x, is_recovery x.1.2 = true)
             (visited_from operation (replicate 30 away) (begin_new_task operation first)))).
Proof.
  apply (operations_progress operation first); [by left|by vm_compute].
Defined.
End AttemptsSample.
