(* ===== verification/SessionWire.v ===== *)
(** * Answers of the broker on the wire

    How [herdr-a2a-cli/src/session.rs] reads what the broker sends: bounded bodies,
    JSON-RPC results and errors, the events of a stream, and the errors of the private
    API.  A body is the list of the chunks that arrive; the parsers of [serde_json] and
    the texts of errors are parameters. *)
From stdpp Require Import prelude gmap strings.
From S2P Require Import Prelude RustStd CliText Model Validation LedgerCodec A2aFront Api Health Recovery SessionFrames SessionLoop TaskAttempts.

Definition MAX_PRIVATE_RESPONSE_BYTES : nat := 1024 * 1024.
Definition MAX_SESSION_ERROR_CANDIDATES : nat := 1024.
Definition SESSION_AUTH_LOST_TYPE_URL : string := "type.herdr.dev/herdr.a2a.RegistrationAuthLost".

Definition is_bounded_control_free (value : string) (maximum_bytes : nat) : bool :=
  negb (str_len value =? 0)%nat && (str_len value <=? maximum_bytes)%nat
  && negb (existsb is_control (chars value)).

(** The result of one HTTP request that got an answer. *)
Record HttpResponse `{Reqwest} := MkHttpResponse {
  http_status : Z;
  http_content_type : option (Result string string);
  http_content_length : option Z;
  http_body : list (Result ReqwestError Bytes);
}.

Section wire.
Context `{JsonNumber} `{!Reqwest} `{!RecoveryLib} {session_serde : SessionSerde}.

(** [a2a::JsonRpcError] and [a2a::JsonRpcResponse]. *)
Record JsonRpcError := MkJsonRpcError {
  rpc_code : Z;
  rpc_message : string;
  rpc_data : option Value;
}.
Record JsonRpcResponse := MkJsonRpcResponse {
  rpc_result : option Value;
  rpc_error : option JsonRpcError;
}.

Class WireLib := {
  rpc_from_slice : Bytes → Result string JsonRpcResponse;
  detail_type_url : Value → option string;
  utf8_error : Bytes → string;
  is_body : ReqwestError → bool;
  is_decode : ReqwestError → bool;
}.
Context {wire : WireLib}.

Definition validate_a2a_http_status (status : Z) : Result OperationClientError () :=
  if (status =? UNAUTHORIZED)%Z || (status =? FORBIDDEN)%Z then
    Err (Connection ("A2A connection credentials were rejected with HTTP " +:+ status_display status))
  else if negb (is_success status) then Err (Protocol ("A2A endpoint returned HTTP " +:+ status_display status))
  else Ok tt.

Definition too_long : string := "A2A response body exceeds 1048576 bytes".

Fixpoint collect_operation_body (chunks : list (Result ReqwestError Bytes)) (body : Bytes)
    : Result OperationClientError Bytes :=
  match chunks with
  | [] => Ok body
  | Err error :: _ => Err (Connection (reqwest_display error))
  | Ok chunk :: chunks =>
      if (MAX_PRIVATE_RESPONSE_BYTES <? length body + length chunk)%nat then Err (Protocol too_long)
      else collect_operation_body chunks (body ++ chunk)
  end.

Definition collect_operation_response (response : HttpResponse) : Result OperationClientError Bytes :=
  if match http_content_length response with
     | Some length => (Z.of_nat MAX_PRIVATE_RESPONSE_BYTES <? length)%Z
     | None => false
     end
  then Err (Protocol too_long)
  else collect_operation_body (http_body response) [].

Inductive OperationResponseKind := EventStream | JsonBody.

Definition ends_with (suffix l : Bytes) : bool :=
  (length suffix <=? length l)%nat && bool_decide (drop (length l - length suffix) l = suffix).

Definition operation_response_kind (content_type : option (Result string string))
    : Result OperationClientError OperationResponseKind :=
  match content_type with
  | None => Err (Protocol "A2A streaming response has no Content-Type")
  | Some (Err error) => Err (Protocol ("A2A streaming response Content-Type is invalid: " +:+ error))
  | Some (Ok content_type) =>
      let media_type := str_trim (hd [] (split_byte 59 (as_bytes content_type))) in
      if eq_ignore_ascii_case media_type (as_bytes "text/event-stream") then Ok EventStream
      else if eq_ignore_ascii_case media_type (as_bytes "application/json")
              || match strip_bytes (as_bytes "application/") (to_ascii_lowercase <$> media_type) with
                 | Some subtype => ends_with (as_bytes "+json") subtype
                 | None => false
                 end
      then Ok JsonBody
      else Err (Protocol ("A2A streaming response has unsupported Content-Type " +:+ content_type))
  end.

Definition as_array (value : Value) : option (list Value) :=
  match value with VArray items => Some items | _ => None end.

Definition jsonrpc_application_error (error : JsonRpcError) : OperationClientError :=
  let details := omap detail_type_url (default [] (and_then (rpc_data error) as_array)) in
  if existsb (λ url, String.eqb url SESSION_AUTH_LOST_TYPE_URL) details
  then RegistrationAuthLost (rpc_message error)
  else Application (MkRemoteError (rpc_code error) (rpc_message error)
                      (match details with [] => None | _ => Some details end)).

(** [from_value] is the [Deserialize] of the result. *)
Definition decode_jsonrpc_response {T} (from_value : Value → Result string T)
    (response : JsonRpcResponse) : Result OperationClientError T :=
  match rpc_error response, rpc_result response with
  | Some error, _ => Err (jsonrpc_application_error error)
  | None, None => Err (Protocol "A2A JSON-RPC response has no result")
  | None, Some result =>
      match from_value result with
      | Ok value => Ok value
      | Err error => Err (Protocol ("A2A result is invalid: " +:+ error))
      end
  end.

(** [SessionA2AClient::call]: the answer to a request that was sent. *)
Definition call {T} (from_value : Value → Result string T)
    (sent : Result ReqwestError HttpResponse) : Result OperationClientError T :=
  match sent with
  | Err error => Err (Connection (reqwest_display error))
  | Ok response =>
      match validate_a2a_http_status (http_status response) with
      | Err error => Err error
      | Ok _ =>
          match collect_operation_response response with
          | Err error => Err error
          | Ok bytes =>
              match rpc_from_slice bytes with
              | Err error => Err (Connection ("A2A response body failed: " +:+ error))
              | Ok rpc => decode_jsonrpc_response from_value rpc
              end
          end
      end
  end.

(** ** Event streams *)

Section events.
Context {T : Type} (from_value : Value → Result string T).

Definition data_of (line : Bytes) : option Bytes :=
  match strip_bytes (as_bytes "data: ") line with
  | Some value => Some value
  | None => strip_bytes (as_bytes "data:") line
  end.

Definition push_data (data : Bytes) (line : Bytes) : Bytes :=
  match data_of line with
  | None => data
  | Some value => match data with [] => value | _ => data ++ [10%Z] ++ value end
  end.

Definition operation_sse_event (event : Bytes) : option (Result OperationClientError T) :=
  if from_utf8 event then
    match foldl push_data [] (lines event []) with
    | [] => None
    | data =>
        Some match rpc_from_slice data with
             | Err error => Err (Connection ("A2A stream body failed: " +:+ error))
             | Ok response => decode_jsonrpc_response from_value response
             end
    end
  else Some (Err (Connection ("A2A stream body is not UTF-8: " +:+ utf8_error event))).

(** The loop over the indexes before the last. *)
Fixpoint sse_boundary_from (index : nat) (buffer : Bytes) : option (nat * nat) :=
  match buffer with
  | a :: ((_ :: _) as rest) =>
      if starts_with [10; 10]%Z buffer || starts_with [13; 13]%Z buffer then Some (index, index + 2)
      else if starts_with [13; 10; 13; 10]%Z buffer then Some (index, index + 4)
      else sse_boundary_from (S index) rest
  | _ => None
  end.
Definition operation_sse_boundary (buffer : Bytes) : option (nat * nat) := sse_boundary_from 0 buffer.

Definition stream_too_long : string := "A2A stream event exceeds 1048576 bytes".

(** The inner loop over one chunk: every turn takes at least two bytes of the buffer. *)
Fixpoint drain_events (fuel : nat) (buffer : Bytes) : list (Result OperationClientError T) * Bytes :=
  match fuel, operation_sse_boundary buffer with
  | S fuel, Some (start, finish) =>
      if (MAX_PRIVATE_RESPONSE_BYTES <? finish)%nat then ([Err (Protocol stream_too_long)], [])
      else
        let '(items, rest) := drain_events fuel (drop finish buffer) in
        (option_list (operation_sse_event (take start buffer)) ++ items, rest)
  | _, _ => ([], buffer)
  end.

(** [parse_operation_sse]: the items of the stream, in order. *)
Fixpoint parse_operation_sse (chunks : list (Result ReqwestError Bytes)) (buffer : Bytes)
    : list (Result OperationClientError T) :=
  match chunks with
  | [] => []
  | Err error :: chunks => Err (Connection (reqwest_display error)) :: parse_operation_sse chunks buffer
  | Ok bytes :: chunks =>
      let buffer := buffer ++ bytes in
      let '(items, buffer) := drain_events (length buffer) buffer in
      if (MAX_PRIVATE_RESPONSE_BYTES <? length buffer)%nat
      then items ++ Err (Protocol stream_too_long) :: parse_operation_sse chunks []
      else items ++ parse_operation_sse chunks buffer
  end.

(** [SessionA2AClient::call_streaming] *)
Definition call_streaming (sent : Result ReqwestError HttpResponse)
    : Result OperationClientError (list (Result OperationClientError T)) :=
  match sent with
  | Err error => Err (Connection (reqwest_display error))
  | Ok response =>
      match validate_a2a_http_status (http_status response) with
      | Err error => Err error
      | Ok _ =>
          match operation_response_kind (http_content_type response) with
          | Err error => Err error
          | Ok EventStream => Ok (parse_operation_sse (http_body response) [])
          | Ok JsonBody =>
              match collect_operation_response response with
              | Err error => Err error
              | Ok bytes =>
                  match rpc_from_slice bytes with
                  | Err error => Err (Connection ("A2A JSON-RPC response body failed: " +:+ error))
                  | Ok rpc =>
                      match decode_jsonrpc_response from_value rpc with
                      | Err error => Err error
                      | Ok event => Ok [Ok event]
                      end
                  end
              end
          end
      end
  end.
End events.

(** [resolve_card]; [from_slice] is the [Deserialize] of the card. *)
Definition resolve_card {Card} (from_slice : Bytes → Result string Card) (agent : string)
    (sent : Result ReqwestError HttpResponse) : Result OperationClientError Card :=
  match sent with
  | Err error => Err (Connection (reqwest_display error))
  | Ok response =>
      if (http_status response =? NOT_FOUND)%Z then
        Err (AgentUnavailable ("agent card for " +:+ agent +:+ " is temporarily unavailable with HTTP "
                               +:+ status_display (http_status response)))
      else
        match validate_a2a_http_status (http_status response) with
        | Err error => Err error
        | Ok _ =>
            match collect_operation_response response with
            | Err error => Err error
            | Ok bytes =>
                match from_slice bytes with
                | Ok card => Ok card
                | Err error => Err (Connection ("Agent Card response body failed: " +:+ error))
                end
            end
        end
  end.

(** ** The private API *)

Inductive RequestError :=
| Recoverable (mode : RecoveryMode) (reason : string)
| Final (error : RequestFailure).

Definition request_error_into_dyn (error : RequestError) : RequestFailure :=
  match error with Recoverable _ reason => OtherFailed reason | Final error => error end.

Definition transport_is_recoverable (error : ReqwestError) : bool :=
  is_connect error || is_timeout error || is_request error || is_body error || is_decode error.

Definition transport_error (error : ReqwestError) : RequestError :=
  if transport_is_recoverable error then Recoverable BrokerReplacement (reqwest_display error)
  else Final (OtherFailed (reqwest_display error)).

(** The derived [Deserialize] of [PrivateErrorEnvelope] and [PrivateErrorBody]. *)
Definition agent_name_of_value (value : Value) : option AgentName :=
  match value with
  | VString name => match AgentName_parse name with Done name => Some name | _ => None end
  | _ => None
  end.

Definition names_of_value (value : Value) : option (list AgentName) :=
  and_then (as_array value) (mapM agent_name_of_value).

Definition error_body_of_value (value : Value) : option (string * string * list AgentName) :=
  match value with
  | VObject map =>
      match entry "code" map, entry "message" map with
      | Some (VString code), Some (VString message) =>
          if forallb (λ field, bool_decide (field.1 ∈ ["code"; "message"; "candidates"])) map then
            match entry "candidates" map with
            | None => Some (code, message, [])
            | Some candidates => pair (code, message) <$> names_of_value candidates
            end
          else None
      | _, _ => None
      end
  | VArray [VString code; VString message] => Some (code, message, [])
  | VArray [VString code; VString message; candidates] => pair (code, message) <$> names_of_value candidates
  | _ => None
  end.

Definition private_error_of_value (value : Value) : option (string * string * list AgentName) :=
  match value with
  | VObject [(key, body)] => if String.eqb key "error" then error_body_of_value body else None
  | VArray [body] => error_body_of_value body
  | _ => None
  end.

(** [candidates.windows(2).any(|pair| pair[0].as_str() >= pair[1].as_str())] *)
Fixpoint out_of_order (candidates : list AgentName) : bool :=
  match candidates with
  | a :: ((b :: _) as rest) => bool_decide (String.le (agent_str b) (agent_str a)) || out_of_order rest
  | _ => false
  end.

Definition decode_private_error (bytes : Bytes) : option (string * string * list AgentName) :=
  match parse_value bytes with
  | Err _ => None
  | Ok value =>
      match private_error_of_value value with
      | None => None
      | Some (code, message, candidates) =>
          if negb (is_bounded_control_free code MAX_METHOD_BYTES)
             || negb (is_bounded_control_free message MAX_PRIVATE_RESPONSE_BYTES)
             || (MAX_SESSION_ERROR_CANDIDATES <? length candidates)%nat
             || out_of_order candidates
          then None else Some (code, message, candidates)
      end
  end.

Fixpoint collect_private_body (chunks : list (Result ReqwestError Bytes)) (body : Bytes)
    : Result RequestError Bytes :=
  match chunks with
  | [] => Ok body
  | Err error :: _ => Err (transport_error error)
  | Ok chunk :: chunks =>
      if (MAX_PRIVATE_RESPONSE_BYTES <? length body + length chunk)%nat
      then Err (Final (OtherFailed "broker response exceeded its bound"))
      else collect_private_body chunks (body ++ chunk)
  end.

Definition recovery_mode_of (status : Z) (code : option string) : option RecoveryMode :=
  match code with
  | Some "invalid_registration" => Some RegistrationRefresh
  | Some "stale_registration" | Some "broker_instance_mismatch" => Some BrokerReplacement
  | _ => if (status =? UNAUTHORIZED)%Z then Some BrokerReplacement else None
  end.

(** An answer that is not a success. *)
Definition refused_response (status : Z) (bytes : Bytes) : RequestError :=
  let value := match parse_value bytes with Ok value => Some value | Err _ => None end in
  let pointed key := and_then (and_then (and_then value (value_get "error")) (value_get key)) as_str in
  let private_error := decode_private_error bytes in
  let code := match private_error with Some (code, _, _) => Some code | None => pointed "code" end in
  let message := match private_error with
                 | Some (_, message, _) => message
                 | None => default ("broker returned HTTP " +:+ status_display status) (pointed "message")
                 end in
  match recovery_mode_of status code, private_error with
  | Some mode, _ => Recoverable mode message
  | None, Some (code, message, candidates) => Final (PrivateFailed code message candidates)
  | None, None => Final (OtherFailed message)
  end.

(** [send_and_decode] and [decode_response_for_instance]. *)
Definition send_and_decode {T} (from_slice : Bytes → Result string T)
    (sent : Result ReqwestError HttpResponse) : Result RequestError T :=
  match sent with
  | Err error => Err (transport_error error)
  | Ok response =>
      match collect_private_body (http_body response) [] with
      | Err error => Err error
      | Ok bytes =>
          if is_success (http_status response) then
            match from_slice bytes with Ok value => Ok value | Err error => Err (Final (OtherFailed error)) end
          else Err (refused_response (http_status response) bytes)
      end
  end.
End wire.
