(* ===== verification/SessionWireTheorems.v ===== *)
(** * What the wire carries

    Theorems about the readers of [herdr-a2a-cli/src/session.rs]: the events of a stream
    are delivered whatever the pieces they arrive in, and the errors of the broker's
    private API reach the harness. *)
From stdpp Require Import prelude gmap strings sorting.
From S2P Require Import Prelude RustStd CliText Model Validation BrokerOps LedgerCodec A2aFront Api ApiTheorems Health Recovery SessionFrames SessionLoop TaskAttempts SessionWire.

Lemma starts_with_app prefix l : starts_with prefix (prefix ++ l) = true.
Proof. unfold starts_with. apply bool_decide_true. by rewrite take_app_length. Qed.

Lemma starts_with_true prefix l : starts_with prefix l = true ↔ ∃ rest, l = prefix ++ rest.
Proof.
  split; [|intros [rest ->]; apply starts_with_app].
  unfold starts_with. intros Ht%bool_decide_eq_true_1. exists (drop (length prefix) l).
  rewrite <-Ht at 1. by rewrite take_drop.
Qed.

Lemma strip_bytes_app prefix l : strip_bytes prefix (prefix ++ l) = Some l.
Proof. unfold strip_bytes. by rewrite starts_with_app, drop_app_length. Qed.

(** Bytes that end no line. *)
Definition inline (l : Bytes) : Prop := Forall (λ b, b ≠ 10%Z ∧ b ≠ 13%Z) l.

(** *** Events as servers write them *)

(** The ends of lines that the format knows. *)
Inductive LineEnd := Lf | CrLf | Cr.
Definition eol (e : LineEnd) : Bytes := match e with Lf => [10] | CrLf => [13; 10] | Cr => [13] end%Z.

Fixpoint intercalate (separator : Bytes) (ls : list Bytes) : Bytes :=
  match ls with
  | [] => []
  | [l] => l
  | l :: ls => l ++ separator ++ intercalate separator ls
  end.

(** An event: its lines, and how they are ended; an empty line ends the event. *)
Record SentEvent := MkSentEvent { ev_end : LineEnd; ev_lines : list Bytes }.
Definition event_text (e : SentEvent) : Bytes := intercalate (eol (ev_end e)) (ev_lines e).
Definition event_bytes (e : SentEvent) : Bytes := event_text e ++ eol (ev_end e) ++ eol (ev_end e).

(** The value of a field [data]: what follows the colon, without one leading space. *)
Definition field_value (line : Bytes) : option Bytes :=
  match strip_bytes (as_bytes "data:") line with
  | Some (32%Z :: value) => Some value
  | value => value
  end.
Definition event_values (e : SentEvent) : list Bytes := omap field_value (ev_lines e).

(** Lines are not empty and within 1 MiB in all, the text is UTF-8, a first value is not
    empty; a carriage return alone ends the only line of an event. *)
Record well_sent (e : SentEvent) : Prop := {
  ws_some : ev_lines e ≠ [];
  ws_lines : Forall (λ l, l ≠ [] ∧ inline l) (ev_lines e);
  ws_single : ev_end e = Cr → length (ev_lines e) = 1;
  ws_first : ∀ v vs, event_values e = v :: vs → v ≠ [];
  ws_utf8 : from_utf8 (event_text e) = true;
  ws_bound : length (event_bytes e) ≤ MAX_PRIVATE_RESPONSE_BYTES;
}.

Lemma strip_bytes_Some prefix l rest : strip_bytes prefix l = Some rest → l = prefix ++ rest.
Proof.
  unfold strip_bytes. destruct (starts_with prefix l) eqn:Hs; [|done]. intros [= <-].
  apply starts_with_true in Hs as [tail ->]. by rewrite drop_app_length.
Qed.

Lemma intercalate_cons separator l l' ls :
  intercalate separator (l :: l' :: ls) = l ++ separator ++ intercalate separator (l' :: ls).
Proof. done. Qed.

Lemma lines_line l rest current :
  inline l → lines (l ++ 10%Z :: rest) current = strip_cr (reverse current ++ l) :: lines rest [].
Proof.
  intros Hl. revert current. induction Hl as [|b l [Hb _] _ IH]; intros current; [by rewrite app_nil_r|].
  cbn [app lines]. rewrite (proj2 (Z.eqb_neq b 10)) by done. by rewrite IH, reverse_cons, <-app_assoc.
Qed.

Lemma lines_last l current :
  inline l → l ≠ [] ∨ current ≠ [] → lines l current = [reverse current ++ l].
Proof.
  intros Hl. revert current. induction Hl as [|b l [Hb _] Hl IH]; intros current Hne.
  - rewrite app_nil_r. cbn. destruct current; [by destruct Hne|done].
  - cbn [lines]. rewrite (proj2 (Z.eqb_neq b 10)) by done. rewrite IH by (by right). by rewrite reverse_cons, <-app_assoc.
Qed.

Lemma strip_cr_snoc l : strip_cr (l ++ [13%Z]) = l.
Proof. unfold strip_cr. by rewrite reverse_snoc, reverse_involutive. Qed.

Lemma strip_cr_inline l : inline l → strip_cr l = l.
Proof.
  intros Hl. unfold strip_cr. destruct (reverse l) as [|b rest] eqn:Hb; [done|].
  assert (b ≠ 13%Z) as Hcr.
  { unfold inline in Hl. rewrite Forall_forall in Hl. apply (Hl b). apply elem_of_reverse. rewrite Hb. left. }
  destruct b as [|p|p]; try done. repeat (destruct p as [p|p|]; try done).
Qed.

Lemma lines_cr_line l rest :
  inline l → lines (l ++ 13%Z :: 10%Z :: rest) [] = l :: lines rest [].
Proof.
  intros Hl.
  assert (∀ current, lines (l ++ 13%Z :: 10%Z :: rest) current = (reverse current ++ l) :: lines rest []) as Hgen; [|apply Hgen].
  induction Hl as [|b l [Hb _] Hl IH]; intros current.
  - cbn [app lines]. change (13 =? 10)%Z with false. change (10 =? 10)%Z with true. cbv iota.
    rewrite reverse_cons, strip_cr_snoc, app_nil_r. done.
  - cbn [app lines]. rewrite (proj2 (Z.eqb_neq b 10)) by done. by rewrite IH, reverse_cons, <-app_assoc.
Qed.

(** The lines of an event are read back. *)
Lemma lines_event e : well_sent e → lines (event_text e) [] = ev_lines e.
Proof.
  intros [Hsome Hlines Hsingle _ _ _]. destruct e as [finish ls]. unfold event_text. cbn [ev_end ev_lines] in *.
  induction Hlines as [|l ls [Hne Hl] Hlines IH]; [done|]. destruct ls as [|l' ls].
  - cbn. rewrite lines_last by (done || by left). done.
  - destruct finish; [| |by specialize (Hsingle eq_refl)].
    + rewrite intercalate_cons. cbn [eol app] in *. rewrite lines_line by done.
      rewrite strip_cr_inline by done. rewrite IH by done. done.
    + rewrite intercalate_cons. cbn [eol app] in *. rewrite lines_cr_line by done. rewrite IH by done. done.
Qed.

Lemma data_of_field line : data_of line = field_value line.
Proof.
  unfold data_of, field_value. destruct (strip_bytes (as_bytes "data:") line) as [value|] eqn:Hs.
  - apply strip_bytes_Some in Hs as ->. rename value into rest.
    destruct (decide (head rest = Some 32%Z)) as [Hsp|Hsp].
    + destruct rest as [|b rest]; [done|]. injection Hsp as ->.
      change (as_bytes "data:" ++ 32%Z :: rest) with (as_bytes "data: " ++ rest). by rewrite strip_bytes_app.
    + assert (strip_bytes (as_bytes "data: ") (as_bytes "data:" ++ rest) = None) as ->.
      { unfold strip_bytes. destruct (starts_with _ _) eqn:Hst; [|done].
        apply starts_with_true in Hst as [tail Htail].
        change (as_bytes "data: " ++ tail) with (as_bytes "data:" ++ 32%Z :: tail) in Htail.
        apply app_inv_head in Htail as ->. by destruct Hsp. }
      destruct rest as [|b rest]; [done|]. destruct b as [|p|p]; try done.
      repeat (destruct p as [p|p|]; try done).
  - assert (strip_bytes (as_bytes "data: ") line = None) as ->; [|done].
    unfold strip_bytes in *. destruct (starts_with (as_bytes "data: ") line) eqn:Hst; [|done].
    apply starts_with_true in Hst as [tail ->].
    change (as_bytes "data: " ++ tail) with (as_bytes "data:" ++ 32%Z :: tail) in Hs.
    by rewrite starts_with_app in Hs.
Qed.

Lemma push_more data ls :
  data ≠ [] → foldl push_data data ls = intercalate [10%Z] (data :: omap field_value ls).
Proof.
  revert data. induction ls as [|l ls IH]; intros data Hne; [done|]. cbn [foldl omap list_omap].
  unfold push_data at 2. rewrite data_of_field. destruct (field_value l) as [v|]; [|by apply IH].
  destruct data as [|b data]; [done|]. rewrite IH by done. rewrite intercalate_cons.
  destruct (omap field_value ls) as [|v' vs]; [done|]. rewrite !intercalate_cons, <-!app_assoc. done.
Qed.

(** The data of an event: its values, a line each. *)
Lemma data_of_event e : well_sent e →
  foldl push_data [] (ev_lines e) = intercalate [10%Z] (event_values e).
Proof.
  intros [_ _ _ Hfirst _ _]. unfold event_values in *. induction (ev_lines e) as [|l ls IH]; [done|].
  cbn [foldl omap list_omap] in *. unfold push_data at 2. rewrite data_of_field.
  destruct (field_value l) as [v|]; [|by apply IH]. apply push_more. by eapply Hfirst.
Qed.

Section boundaries.
Implicit Types buffer : Bytes.

Lemma boundary_bounds index buffer start finish :
  sse_boundary_from index buffer = Some (start, finish) →
  index ≤ start ∧ start + 2 ≤ finish ≤ index + length buffer.
Proof.
  revert index. induction buffer as [|a buffer IH]; intros index; [done|]. cbn [sse_boundary_from].
  destruct buffer as [|b buffer]; [done|]. destruct (_ || _) eqn:Htwo.
  { intros [= <- <-]. cbn. lia. }
  destruct (starts_with [13; 10; 13; 10]%Z _) eqn:Hfour.
  { apply starts_with_true in Hfour as [rest Hrest]. rewrite Hrest. intros [= <- <-]. cbn. lia. }
  intros Hb%IH. cbn in *. lia.
Qed.

Lemma boundary_cons index a b buffer :
  sse_boundary_from index (a :: b :: buffer) =
    if starts_with [10; 10]%Z (a :: b :: buffer) || starts_with [13; 13]%Z (a :: b :: buffer)
    then Some (index, index + 2)
    else if starts_with [13; 10; 13; 10]%Z (a :: b :: buffer) then Some (index, index + 4)
    else sse_boundary_from (S index) (b :: buffer).
Proof. reflexivity. Qed.

(** What is found stays found when more arrives. *)
Lemma boundary_app index buffer rest start finish :
  sse_boundary_from index buffer = Some (start, finish) →
  sse_boundary_from index (buffer ++ rest) = Some (start, finish).
Proof.
  revert index. induction buffer as [|a buffer IH]; intros index; [done|].
  destruct buffer as [|b buffer]; [cbn; intros [=]|].
  change ((a :: b :: buffer) ++ rest) with (a :: b :: (buffer ++ rest)). rewrite !boundary_cons.
  change (starts_with [10; 10]%Z (a :: b :: buffer ++ rest)) with (starts_with [10; 10]%Z (a :: b :: buffer)).
  change (starts_with [13; 13]%Z (a :: b :: buffer ++ rest)) with (starts_with [13; 13]%Z (a :: b :: buffer)).
  destruct (starts_with [10; 10]%Z (a :: b :: buffer) || _); [by intros|].
  destruct (starts_with [13; 10; 13; 10]%Z (a :: b :: buffer)) eqn:Hfour.
  { apply starts_with_true in Hfour as [tail Htail]. intros Hb.
    change (a :: b :: buffer ++ rest) with ((a :: b :: buffer) ++ rest).
    by rewrite Htail, <-app_assoc, starts_with_app. }
  intros Hb. destruct (starts_with [13; 10; 13; 10]%Z (a :: b :: buffer ++ rest)) eqn:Hlong;
    [|exact (IH (S index) Hb)].
  exfalso. destruct buffer as [|c [|d buffer]].
  - done.
  - apply starts_with_true in Hlong as [tail [= -> -> -> _]]. done.
  - assert (Hsame : starts_with [13; 10; 13; 10]%Z (a :: b :: (c :: d :: buffer) ++ rest)
                    = starts_with [13; 10; 13; 10]%Z (a :: b :: c :: d :: buffer)) by reflexivity.
    rewrite Hsame in Hlong. congruence.
Qed.

(** Inside a line there is no boundary. *)
Lemma boundary_line index text rest :
  inline text → 2 ≤ length rest →
  sse_boundary_from index (text ++ rest) = sse_boundary_from (index + length text) rest.
Proof.
  intros Ht Hrest. revert index. induction Ht as [|b text [Hlf Hcr] Ht IH]; intros index.
  - by rewrite Nat.add_0_r.
  - cbn [app length]. destruct (text ++ rest) as [|c l] eqn:Hl.
    { apply (f_equal length) in Hl. rewrite length_app in Hl. cbn in Hl. lia. }
    rewrite boundary_cons.
    assert (Hno : ∀ x p, b ≠ x → starts_with (x :: p) (b :: c :: l) = false).
    { intros x p Hb. apply not_true_iff_false. rewrite starts_with_true. intros [tail [= Heq _]]. done. }
    rewrite !Hno by done. cbn [orb]. rewrite IH. f_equal. lia.
Qed.

(** Between two lines there is none either. *)
Lemma boundary_between index finish b rest :
  b ≠ 10%Z → b ≠ 13%Z → finish ≠ Cr →
  sse_boundary_from index (eol finish ++ b :: rest) = sse_boundary_from (index + length (eol finish)) (b :: rest).
Proof.
  intros Hlf Hcr Hne.
  assert (∀ i x, x ≠ 13%Z → sse_boundary_from i (x :: b :: rest) = sse_boundary_from (S i) (b :: rest)) as Hone.
  { intros i x Hx. rewrite boundary_cons.
    assert (starts_with [10; 10]%Z (x :: b :: rest) = false) as ->.
    { apply not_true_iff_false. rewrite starts_with_true. intros [tail [= _ Heq]]. done. }
    assert (∀ p, starts_with (13%Z :: p) (x :: b :: rest) = false) as Hno.
    { intros p. apply not_true_iff_false. rewrite starts_with_true. intros [tail [= Heq]]. done. }
    by rewrite !Hno. }
  destruct finish; [| |done]; cbn [eol app length].
  - rewrite Hone by done. f_equal. lia.
  - rewrite boundary_cons.
    assert (starts_with [13; 10; 13; 10]%Z (13%Z :: 10%Z :: b :: rest) = false) as ->.
    { apply not_true_iff_false. rewrite starts_with_true. intros [tail [= Heq _]]. done. }
    change (starts_with [10; 10]%Z (13%Z :: 10%Z :: b :: rest) || starts_with [13; 13]%Z (13%Z :: 10%Z :: b :: rest)) with false.
    cbv iota. rewrite Hone by done. f_equal. lia.
Qed.

Lemma boundary_end index finish rest :
  sse_boundary_from index (eol finish ++ eol finish ++ rest)
  = Some (index, index + length (eol finish ++ eol finish)).
Proof. by destruct finish. Qed.

(** The end of an event is found. *)
Lemma boundary_event index e rest :
  well_sent e →
  sse_boundary_from index (event_bytes e ++ rest)
  = Some (index + length (event_text e), index + length (event_bytes e)).
Proof.
  intros [Hsome Hlines Hsingle _ _ _]. destruct e as [finish ls]. unfold event_bytes, event_text.
  cbn [ev_end ev_lines] in *. rewrite !length_app. revert index.
  induction Hlines as [|l ls [Hne Hl] Hlines IH]; intros index; [done|]. destruct ls as [|l' ls].
  - cbn [intercalate]. rewrite <-!app_assoc, boundary_line by (done || (rewrite !length_app; destruct finish; cbn; lia)).
    rewrite boundary_end, length_app. f_equal. f_equal. lia.
  - assert (finish ≠ Cr) as Hcr by (intros ->; by specialize (Hsingle eq_refl)).
    rewrite intercalate_cons, <-!app_assoc, boundary_line by (done || (rewrite !length_app; destruct finish; cbn; lia)).
    apply Forall_cons in Hlines as [[Hne' Hl'] _].
    assert (∃ b tail, intercalate (eol finish) (l' :: ls) ++ eol finish ++ eol finish ++ rest = b :: tail
      ∧ b ≠ 10%Z ∧ b ≠ 13%Z) as (b & tail & Htail & Hlf & Hb).
    { destruct l' as [|b l']; [done|]. apply Forall_cons in Hl' as [[? ?] _].
      exists b. destruct ls; cbn; eexists; (split; [reflexivity|done]). }
    rewrite Htail, boundary_between by done. rewrite <-Htail.
    assert (∀ i, sse_boundary_from i (intercalate (eol finish) (l' :: ls) ++ eol finish ++ eol finish ++ rest) = _) as IH'
      by (intros i; rewrite !app_assoc, <-(app_assoc _ (eol finish) (eol finish)); by apply IH).
    rewrite IH', !length_app. f_equal. f_equal; lia.
Qed.
End boundaries.

Section streams.
Context `{JsonNumber} `{!Reqwest} `{!RecoveryLib} {wire : WireLib}.
Context {T : Type} (from_value : Value → Result string T).

Definition decoded (body : Bytes) : Result OperationClientError T :=
  match rpc_from_slice body with
  | Err error => Err (Connection ("A2A stream body failed: " +:+ error))
  | Ok response => decode_jsonrpc_response from_value response
  end.

(** What an event is delivered as: nothing when it has no data, as a comment. *)
Definition event_item (e : SentEvent) : option (Result OperationClientError T) :=
  match event_values e with
  | [] => None
  | values => Some (decoded (intercalate [10%Z] values))
  end.

Lemma event_decoded e : well_sent e → operation_sse_event from_value (event_text e) = event_item e.
Proof.
  intros He. unfold operation_sse_event, event_item. rewrite (ws_utf8 _ He), lines_event, data_of_event by done.
  pose proof (ws_first _ He) as Hfirst. destruct (event_values e) as [|v vs]; [done|].
  specialize (Hfirst v vs eq_refl).
  destruct (intercalate [10%Z] (v :: vs)) eqn:Hd; [|done]. destruct v; [done|]. by destruct vs.
Qed.

(** An incomplete event has no boundary. *)
Lemma boundary_incomplete e buffer missing :
  well_sent e → missing ≠ [] → buffer ++ missing = event_bytes e →
  operation_sse_boundary buffer = None.
Proof.
  intros He Hmiss Heq. unfold operation_sse_boundary.
  destruct (sse_boundary_from 0 buffer) as [[start finish]|] eqn:Hb; [|done]. exfalso.
  pose proof (boundary_bounds _ _ _ _ Hb) as Hlen.
  apply (boundary_app _ _ missing) in Hb. rewrite Heq, <-(app_nil_r (event_bytes e)), boundary_event in Hb by done.
  injection Hb as <- <-. rewrite <-Heq, length_app in Hlen. destruct missing; [done|]. cbn in Hlen. lia.
Qed.

Lemma drain_complete fuel e buffer :
  well_sent e →
  drain_events from_value (S fuel) (event_bytes e ++ buffer) =
    let '(items, rest) := drain_events from_value fuel buffer in (option_list (event_item e) ++ items, rest).
Proof.
  intros He. cbn [drain_events]. unfold operation_sse_boundary. rewrite boundary_event by done. cbn [Nat.add].
  rewrite (proj2 (Nat.ltb_ge _ _)) by exact (ws_bound _ He).
  assert (take (length (event_text e)) (event_bytes e ++ buffer) = event_text e) as ->
    by (unfold event_bytes; by rewrite <-app_assoc, take_app_length).
  rewrite event_decoded, drop_app_length by done. by destruct (drain_events from_value fuel buffer).
Qed.

Lemma event_bytes_length e : 2 ≤ length (event_bytes e).
Proof. unfold event_bytes. rewrite !length_app. destruct (ev_end e); cbn; lia. Qed.

(** Draining takes the complete events and leaves the beginning of the next. *)
Lemma drain_sent fuel buffer rest events :
  Forall well_sent events → buffer ++ rest = mjoin (event_bytes <$> events) → length buffer ≤ fuel →
  ∃ sent todo remaining, events = sent ++ todo ∧
    drain_events from_value fuel buffer = (omap event_item sent, remaining) ∧
    remaining ++ rest = mjoin (event_bytes <$> todo) ∧
    length remaining ≤ MAX_PRIVATE_RESPONSE_BYTES ∧ (rest = [] → todo = []).
Proof.
  intros Hall. revert fuel buffer. induction Hall as [|event events Hsent Hall IH]; intros fuel buffer Heq Hfuel.
  - apply app_nil in Heq as [-> ->]. exists [], [], []. split_and!; [done|by destruct fuel|done|apply Nat.le_0_l|done].
  - change (mjoin (event_bytes <$> event :: events))
      with (event_bytes event ++ mjoin (event_bytes <$> events)) in Heq.
    assert (Hcases : (∃ buffer', buffer = event_bytes event ++ buffer' ∧
                        buffer' ++ rest = mjoin (event_bytes <$> events)) ∨
                     (∃ missing, missing ≠ [] ∧ event_bytes event = buffer ++ missing ∧
                        rest = missing ++ mjoin (event_bytes <$> events))).
    { apply app_eq_inv in Heq as [(buffer' & -> & Hrest)|(missing & Hevent & ->)]; [by left; exists buffer'|].
      destruct (decide (missing = [])) as [-> |Hmiss]; [left|right; by exists missing].
      exists []. by rewrite Hevent, !app_nil_r. }
    destruct Hcases as [(buffer' & -> & Hrest)|(missing & Hmiss & Hevent & ->)].
    + destruct fuel as [|fuel]; [exfalso; rewrite length_app in Hfuel; pose proof (event_bytes_length event); lia|].
      destruct (IH fuel buffer') as (sent & todo & remaining & -> & Hdrain & Hrem & Hlen & Htodo); [done| |].
      { rewrite length_app in Hfuel. pose proof (event_bytes_length event). lia. }
      exists (event :: sent), todo, remaining. split_and!; try done.
      rewrite drain_complete by done. rewrite Hdrain. cbn. by destruct (event_item event).
    + exists [], (event :: events), buffer.
      pose proof (boundary_incomplete event buffer missing Hsent Hmiss (eq_sym Hevent)) as Hnone.
      split_and!.
      * done.
      * destruct fuel; cbn [drain_events]; [done|]. by rewrite Hnone.
      * change (mjoin (event_bytes <$> event :: events))
          with (event_bytes event ++ mjoin (event_bytes <$> events)). by rewrite Hevent, <-app_assoc.
      * pose proof (ws_bound _ Hsent) as Hlen. rewrite Hevent, length_app in Hlen.
        etrans; [|exact Hlen]. apply Nat.le_add_r.
      * intros [? _]%app_nil. done.
Qed.

Lemma parse_sent chunks buffer events :
  Forall well_sent events → buffer ++ mjoin chunks = mjoin (event_bytes <$> events) →
  (mjoin chunks = [] → events = []) →
  parse_operation_sse from_value (Ok <$> chunks) buffer = omap event_item events.
Proof.
  revert buffer events. induction chunks as [|chunk chunks IH]; intros buffer events Hall Heq Hend.
  - by rewrite (Hend eq_refl).
  - change (mjoin (chunk :: chunks)) with (chunk ++ mjoin chunks) in Heq. rewrite app_assoc in Heq.
    destruct (drain_sent (length (buffer ++ chunk)) (buffer ++ chunk) (mjoin chunks) events Hall Heq)
      as (sent & todo & remaining & -> & Hdrain & Hrem & Hlen & Htodo); [done|].
    cbn [fmap list_fmap parse_operation_sse]. rewrite Hdrain.
    rewrite (proj2 (Nat.ltb_ge _ _)) by exact Hlen. rewrite omap_app. f_equal.
    apply Forall_app in Hall as [_ Hall]. by apply IH.
Qed.

End streams.

(** ** Errors of the private API *)

Section errors.
Context `{JsonNumber} `{!Reqwest} `{!RecoveryLib} {session_serde : SessionSerde} {wire : WireLib}.
Implicit Types names : list AgentName.

Lemma names_parse names :
  (∀ name, name ∈ names → AgentName_parse (agent_str name) = Done name) →
  names_of_value (VArray (VString ∘ agent_str <$> names)) = Some names.
Proof.
  unfold names_of_value. cbn [and_then as_array].
  induction names as [|name names IH]; intros Hparse; [done|].
  cbn [fmap list_fmap mapM]. cbn [compose agent_name_of_value]. rewrite (Hparse name) by left.
  rewrite IH; [done|]. intros name' Hin. apply Hparse. by right.
Qed.

Lemma in_order names : Sorted agent_le names → NoDup names → out_of_order names = false.
Proof.
  induction 1 as [|a names Hs IH Ha]; [done|]. intros [Hnin Hnd]%NoDup_cons.
  destruct names as [|b names]; [done|]. change (out_of_order (a :: b :: names))
    with (bool_decide (String.le (agent_str b) (agent_str a)) || out_of_order (b :: names)).
  rewrite IH by done. rewrite orb_false_r.
  apply bool_decide_false. intros Hle. inversion_clear Ha as [|? ? Hab]. apply Hnin.
  assert (Heq : agent_str a = agent_str b) by (by apply (anti_symm String.le)).
  destruct a, b. cbn in Heq. subst. left.
Qed.

(** An error that the broker answers with is decoded to itself. *)
Lemma private_error_decodes error bytes :
  parse_value bytes = Ok (into_response error).2 →
  is_bounded_control_free (error_code error) MAX_METHOD_BYTES = true →
  is_bounded_control_free (error_message error) MAX_PRIVATE_RESPONSE_BYTES = true →
  length (error_candidates error) ≤ MAX_SESSION_ERROR_CANDIDATES →
  (∀ name, name ∈ error_candidates error → AgentName_parse (agent_str name) = Done name) →
  Sorted agent_le (error_candidates error) → NoDup (error_candidates error) →
  decode_private_error bytes = Some (error_code error, error_message error, error_candidates error).
Proof.
  intros Hbytes Hcode Hmessage Hlen Hparse Hsorted Hnodup. unfold decode_private_error. rewrite Hbytes.
  assert (Hvalue : private_error_of_value (into_response error).2
                   = Some (error_code error, error_message error, error_candidates error)).
  { unfold into_response. cbn [snd private_error_of_value]. rewrite String.eqb_refl.
    pose proof (names_parse (error_candidates error) Hparse) as Hnames.
    destruct (error_candidates error) as [|name names]; [done|].
    transitivity (pair (error_code error, error_message error)
                    <$> names_of_value (VArray (VString ∘ agent_str <$> name :: names))); [reflexivity|].
    by rewrite Hnames. }
  rewrite Hvalue, Hcode, Hmessage, (in_order _ Hsorted Hnodup).
  by rewrite (proj2 (Nat.ltb_ge _ _) Hlen).
Qed.

(** when a target is ambiguous the harness learns which agents it could mean: the
    error that the broker answers a resolution with is decoded by the session to a final
    error with the same code, message and candidates, and the session answers the request
    with them; it does not try to recover. *)
Theorem ambiguity_reaches_harness {T} (from_slice : Bytes → Result string T) directory target error
    bytes content_type content_length id :
  parsed_names directory → NoDup (ar_canonical_name <$> directory) →
  length directory ≤ MAX_SESSION_ERROR_CANDIDATES →
  2 ≤ length (with_role target directory) → (∀ name, ¬ called target directory name) →
  resolve_in directory target = Fail error →
  parse_value bytes = Ok (into_response error).2 → length bytes ≤ MAX_PRIVATE_RESPONSE_BYTES →
  error_candidates error ≡ₚ with_role target directory ∧
  send_and_decode from_slice
    (Ok (MkHttpResponse _ (into_response error).1 content_type content_length [Ok bytes]))
    = Err (Final (PrivateFailed "ambiguous_agent" "multiple live agents have this role" (error_candidates error))) ∧
  execute_response id (Err (PrivateFailed "ambiguous_agent" "multiple live agents have this role" (error_candidates error)))
    = failure_with_candidates id "ambiguous_agent" "multiple live agents have this role" (error_candidates error).
Proof.
  intros Hparsed Hnodup Hmany Htwo Hnot Hres Hbytes Hlen. rewrite resolve_by_role in Hres by done.
  pose proof (merge_sort_Permutation agent_le (with_role target directory)) as Hperm.
  pose proof (Sorted_merge_sort agent_le (with_role target directory)) as Hsorted.
  assert (Hsub : with_role target directory ⊆+ ar_canonical_name <$> directory).
  { apply fmap_submseteq, sublist_submseteq, sublist_filter. }
  assert (Herror : error = with_candidates (merge_sort agent_le (with_role target directory))
    (ApiError_new CONFLICT "ambiguous_agent" "multiple live agents have this role")).
  { apply Permutation_length in Hperm. destruct (merge_sort _ _) as [|a [|b l]]; cbn in Hperm; [lia|lia|].
    by injection Hres as <-. }
  clear Hres. subst error. cbn [error_candidates with_candidates].
  set (names := merge_sort agent_le (with_role target directory)) in *.
  assert (Hle : length names ≤ length directory).
  { rewrite Hperm. apply submseteq_length in Hsub. by rewrite length_fmap in Hsub. }
  split; [done|]. split.
  - unfold send_and_decode. cbn [http_body http_status collect_private_body app into_response fst].
    change (length [] + length bytes) with (length bytes). rewrite (proj2 (Nat.ltb_ge _ _) Hlen).
    change (is_success (error_status _)) with false. unfold refused_response.
    rewrite (private_error_decodes _ bytes Hbytes); [reflexivity|reflexivity| | | | |].
    + by vm_compute.
    + cbn. etrans; [exact Hle|exact Hmany].
    + cbn. intros name Hin. apply Hparsed. rewrite Hperm in Hin. by eapply elem_of_submseteq.
    + exact Hsorted.
    + cbn. rewrite Hperm. apply submseteq_Permutation in Hsub as [others Hothers].
      rewrite Hothers in Hnodup. by apply NoDup_app in Hnodup as [Hnodup _].
  - destruct names as [|a names'] eqn:Hnames; [|done]. apply Permutation_length in Hperm. cbn in Hperm. lia.
Qed.
End errors.

Module WireSample.
#[local] Instance number : JsonNumber := {| Number := Z; is_f64 _ := false |}.
#[local] Instance no_reqwest : Reqwest := {|
  ReqwestError := string; is_connect _ := true; is_timeout _ := false; is_request _ := false;
  reqwest_display e := e;
|}.
#[local] Instance no_recovery : RecoveryLib := {|
  json_from_slice _ := None; registration_from_slice _ := Err "EOF"; client_build _ := None;
  status_display _ := "409 Conflict";
|}.
(** A body is the text of a string result. *)
#[local] Instance plain_wire : WireLib := {|
  rpc_from_slice bytes := Ok (MkJsonRpcResponse (Some (VString (string_of_bytes bytes))) None);
  detail_type_url _ := None;
  utf8_error _ := "";
  is_body _ := false;
  is_decode _ := false;
|}.
Definition text_of (value : Value) : Result string string :=
  match value with VString s => Ok s | _ => Err "not a string" end.

(** An event of two data lines, one of which has no space, and another field; a comment; an
    event ended by carriage returns. *)
Definition sample_events : list SentEvent :=
  [MkSentEvent CrLf [as_bytes "event: message"; as_bytes "data: a"; as_bytes "data:b"];
   MkSentEvent Lf [as_bytes ": ping"];
   MkSentEvent Cr [as_bytes "data: bc"]].

(** Pieces of [n] bytes, and [well_sent] as a test. *)
Fixpoint chunks_of (n fuel : nat) (l : Bytes) : list Bytes :=
  match fuel with O => [] | S fuel => take n l :: chunks_of n fuel (drop n l) end.
Definition well_sentb (e : SentEvent) : bool :=
  negb (length (ev_lines e) =? 0)
  && forallb (λ l, negb (length l =? 0) && forallb (λ b, negb (b =? 10)%Z && negb (b =? 13)%Z) l) (ev_lines e)
  && match ev_end e with Cr => length (ev_lines e) =? 1 | _ => true end
  && match event_values e with [] :: _ => false | _ => true end
  && from_utf8 (event_text e) && (length (event_bytes e) <=? MAX_PRIVATE_RESPONSE_BYTES).

Lemma well_sentb_ok e : well_sentb e = true → well_sent e.
Proof.
  unfold well_sentb. rewrite !andb_true_iff. intros [[[[[Hsome Hlines] Hcr] Hfirst] Hutf] Hlen]. split; [..|done|].
  - intros Hnil. by rewrite Hnil in Hsome.
  - rewrite forallb_forall in Hlines. apply Forall_forall. intros l Hl%list_elem_of_In. specialize (Hlines l Hl).
    apply andb_true_iff in Hlines as [Hne Hin]. split; [by intros ->|].
    rewrite forallb_forall in Hin. apply Forall_forall. intros b Hb%list_elem_of_In. specialize (Hin b Hb).
    apply andb_true_iff in Hin as [H10 H13]. by apply negb_true_iff, Z.eqb_neq in H10, H13.
  - intros Hend. rewrite Hend in Hcr. by apply Nat.eqb_eq.
  - intros v vs Hv ->. by rewrite Hv in Hfirst.
  - by apply Nat.leb_le.
Qed.


(** Carriage returns end an event but do not separate its lines: of two lines of data
    that are separated by one, the second becomes part of the first. *)
Lemma carriage_returns_do_not_separate :
  operation_sse_boundary (as_bytes "data: a" ++ [13]%Z ++ as_bytes "data: b" ++ [13; 13]%Z) = Some (15, 17) ∧
  operation_sse_event text_of (as_bytes "data: a" ++ [13]%Z ++ as_bytes "data: b")
    = Some (Ok (string_of_bytes (as_bytes "a" ++ [13]%Z ++ as_bytes "data: b"))) ∧
  operation_sse_event text_of (as_bytes "data: a" ++ [10]%Z ++ as_bytes "data: b")
    = Some (Ok (string_of_bytes (as_bytes "a" ++ [10]%Z ++ as_bytes "b"))).
Proof. by vm_compute. Qed.

Definition agent (name role : string) : AgentResponse :=
  MkAgentResponse (MkAgentName name) (MkRoleLabel role) "pane" "pi".
Definition directory : list AgentResponse := [agent "beta" "coder"; agent "alpha" "coder"].
Definition ambiguous : ApiError :=
  with_candidates [MkAgentName "alpha"; MkAgentName "beta"]
    (ApiError_new CONFLICT "ambiguous_agent" "multiple live agents have this role").
#[local] Instance plain_session : SessionSerde := {|
  parse_value _ := Ok (into_response ambiguous).2;
  envelope_error _ := "";
|}.

Lemma ambiguity_reaches_harness_witness :
  send_and_decode (λ _, Err "EOF" : Result string Value)
    (Ok (MkHttpResponse _ CONFLICT None None [Ok [123; 125]%Z]))
    = Err (Final (PrivateFailed "ambiguous_agent" "multiple live agents have this role"
                    [MkAgentName "alpha"; MkAgentName "beta"])).
Proof.
  refine (proj1 (proj2 (ambiguity_reaches_harness (λ _, Err "EOF" : Result string Value) directory "coder"
    ambiguous [123; 125]%Z None None "1" _ _ _ _ _ _ _ _))).
  - intros name Hin. apply elem_of_cons in Hin as [-> |Hin]; [by vm_compute|].
    apply list_elem_of_singleton in Hin as ->. by vm_compute.
  - apply (bool_decide_eq_true_1 (NoDup (ar_canonical_name <$> directory))). by vm_compute.
  - by apply Nat.leb_le; vm_compute.
  - by apply Nat.leb_le; vm_compute.
  - intros name [Hname Hin]. apply elem_of_cons in Hin as [-> |Hin]; [done|].
    apply list_elem_of_singleton in Hin as ->. done.
  - by vm_compute.
  - by vm_compute.
  - by apply Nat.leb_le; vm_compute.
Defined.
End WireSample.
