(* ===== verification/SessionMethods.v ===== *)
(** * The methods of a session

    The requests that a harness makes of [herdr-a2a-cli/src/session.rs] and how each asks
    the broker: the validation of the parameters, the loops that recover a connection and
    try again, and the acknowledgement of deliveries.  A [MethodTurn] is one turn of such
    a loop: the clock, the connection, the answer of the broker ([None] when the deadline
    cut it off) and the outcome of a recovery.  The result is [None] while the turns that
    are given do not end the loop. *)
From stdpp Require Import prelude gmap strings.
From S2P Require Import Prelude RustStd Model Validation LedgerCodec Ledger A2aFront Api CliText Health Recovery SessionFrames.
From S2P Require Import SessionLoop TaskAttempts SessionWire.

Definition RENEWAL_BASE_MS : Z := 10000.
Definition RENEWAL_JITTER_MS : Z := 2000.
Definition MAX_IDENTITY_BYTES : nat := 1024.

(** [renewal_delay]: [random] are the two random bytes as a number, when there are any. *)
Definition renewal_delay (random : option Z) : Z :=
  let jitter := match random with Some bytes => (bytes mod (RENEWAL_JITTER_MS + 1))%Z | None => 0%Z end in
  from_millis (RENEWAL_BASE_MS + jitter).

Section methods.
Context `{JsonNumber} {serde : SerdeJson} {chrono : Chrono} {a2a : A2ALib} {client_lib : ClientLib}.
Context `{!Reqwest} `{!RecoveryLib} {session_serde : SessionSerde}.

(** [serde_json::Number], the texts of [serde_json::from_value]'s errors, and
    [reqwest::Url] with segments pushed on its path. *)
Class MethodLib := {
  number_as_u64 : Number → option Z;
  number_of_u64 : Z → Number;
  from_value_error : string → Value → string;
  url_with_segments : string → list string → Result string string;
}.
Context {method_lib : MethodLib}.

Record MethodTurn (T : Type) := MkMethodTurn {
  mt_now : Z;
  mt_connection : Shared;
  mt_answer : option (Result RequestError T);
  mt_recover : Result RecoveryError ();
}.
Global Arguments MkMethodTurn {T}.
Global Arguments mt_now {T}.
Global Arguments mt_connection {T}.
Global Arguments mt_answer {T}.
Global Arguments mt_recover {T}.

(** [context.connections.recover(..).await?] and then [next]. *)
Definition recovered {A} (recover : Result RecoveryError ()) (next : option (Outcome RequestFailure A))
    : option (Outcome RequestFailure A) :=
  match recover with Ok _ => next | Err error => Some (Fail (RecoveryFailed error)) end.

Definition invalid {A} (type : string) (value : Value) : Outcome RequestFailure A :=
  Fail (OtherFailed (from_value_error type value)).

(** [EmptyParams] *)
Definition empty_params (params : Value) : Outcome RequestFailure () :=
  match params with
  | VObject [] | VArray [] => Done tt
  | _ => invalid "EmptyParams" params
  end.

(** ** Registration *)

Fixpoint renew (turns : list (MethodTurn Value)) : option (Outcome RequestFailure ()) :=
  match turns with
  | [] => None
  | turn :: turns =>
      match mt_answer turn with
      | None => None
      | Some (Ok _) => Some (Done tt)
      | Some (Err (Recoverable _ _)) => recovered (mt_recover turn) (renew turns)
      | Some (Err (Final error)) => Some (Fail error)
      end
  end.

Definition unregister (answer : Result RequestError Value) : Outcome RequestFailure () :=
  match answer with Ok _ => Done tt | Err error => Fail (request_error_into_dyn error) end.

(** ** The directory *)

Record BrokerDirectoryAgent := MkBrokerDirectoryAgent {
  bda_canonical_name : AgentName;
  bda_role : RoleLabel;
  bda_pane_id : string;
  bda_harness : string;
  bda_status : string;
}.

(** A string that a [Deserialize] parses. *)
Definition parsed_field {A} (parse : string → Outcome DomainError A) (key : string)
    (map : list (string * Value)) : option A :=
  match and_then (entry key map) as_str with
  | Some text => match parse text with Done a => Some a | _ => None end
  | None => None
  end.
Definition string_field (key : string) (map : list (string * Value)) : option string :=
  and_then (entry key map) as_str.
Definition only_fields (allowed : list string) (map : list (string * Value)) : bool :=
  forallb (λ field, bool_decide (field.1 ∈ allowed)) map.

(** [BrokerDirectoryAgent] and [BrokerAgentDirectory] as they are received: objects. *)
Definition directory_agent_of_value (value : Value) : option BrokerDirectoryAgent :=
  match value with
  | VObject map =>
      match parsed_field AgentName_parse "canonical_name" map, parsed_field RoleLabel_parse "role" map,
            string_field "pane_id" map, string_field "harness" map, string_field "status" map with
      | Some name, Some role, Some pane_id, Some harness, Some status =>
          if only_fields ["canonical_name"; "role"; "pane_id"; "harness"; "status"] map
          then Some (MkBrokerDirectoryAgent name role pane_id harness status) else None
      | _, _, _, _, _ => None
      end
  | _ => None
  end.

Definition directory_of_value (value : Value) : option (list BrokerDirectoryAgent) :=
  match value with
  | VObject [(key, agents)] =>
      if String.eqb key "agents" then and_then (as_array agents) (mapM directory_agent_of_value) else None
  | _ => None
  end.

Definition valid_directory_agent (agent : BrokerDirectoryAgent) : bool :=
  String.eqb (bda_status agent) "live"
  && is_bounded_control_free (bda_pane_id agent) MAX_IDENTITY_BYTES
  && is_bounded_control_free (bda_harness agent) MAX_IDENTITY_BYTES.

Definition workspace_agent (workspace_id : string) (agent : BrokerDirectoryAgent) : Value :=
  VObject [("canonical_name", VString (agent_str (bda_canonical_name agent)));
           ("role", VString (role_str (bda_role agent)));
           ("pane_id", VString (bda_pane_id agent));
           ("harness", VString (bda_harness agent));
           ("status", VString (bda_status agent));
           ("workspace_id", VString workspace_id)].

Definition accept_directory (connection : Shared) (value : Value) : Outcome RequestFailure Value :=
  match directory_of_value value with
  | None => invalid "BrokerAgentDirectory" value
  | Some agents =>
      if forallb valid_directory_agent agents then
        Done (VObject [("agents", VArray
          (workspace_agent (rdesc_workspace_id (conn_descriptor connection.2)) <$> agents))])
      else Fail (OtherFailed "broker returned an invalid agent directory")
  end.

Fixpoint list_agents_loop (turns : list (MethodTurn Value)) : option (Outcome RequestFailure Value) :=
  match turns with
  | [] => None
  | turn :: turns =>
      match mt_answer turn with
      | None => None
      | Some (Ok value) => Some (accept_directory (mt_connection turn) value)
      | Some (Err (Recoverable _ _)) => recovered (mt_recover turn) (list_agents_loop turns)
      | Some (Err (Final error)) => Some (Fail error)
      end
  end.

Definition session_list_agents (params : Value) (turns : list (MethodTurn Value))
    : option (Outcome RequestFailure Value) :=
  match empty_params params with
  | Done _ => list_agents_loop turns
  | Fail error => Some (Fail error)
  | Panic msg => Some (Panic msg)
  end.

(** ** Sending *)

Record NewSendParams := MkNewSendParams {
  ns_agent : string;
  ns_text : string;
  ns_metadata : Value;
  ns_conversation_id : option string;
  ns_wait : bool;
  ns_timeout_ms : option Z;
}.
Record ResumeSendParams := MkResumeSendParams {
  rs_agent : string;
  rs_resume_task_id : string;
  rs_timeout_ms : option Z;
}.
Inductive SendParams := SendNew (params : NewSendParams) | SendResume (params : ResumeSendParams).

(** An [Option] field: absent and [null] are [None]; the outer option is the error. *)
Definition optional_field {A} (of_value : Value → option A) (key : string) (map : list (string * Value))
    : option (option A) :=
  match entry key map with
  | None | Some VNull => Some None
  | Some value => Some <$> of_value value
  end.
Definition default_field {A} (of_value : Value → option A) (default : A) (key : string)
    (map : list (string * Value)) : option A :=
  match entry key map with None => Some default | Some value => of_value value end.

Definition as_u64 (value : Value) : option Z :=
  match value with VNumber n => number_as_u64 n | _ => None end.
Definition as_bool (value : Value) : option bool :=
  match value with VBool b => Some b | _ => None end.

(** [agent], which may be called [to]; both at once are a duplicate field. *)
Definition agent_field (map : list (string * Value)) : option string :=
  match entry "agent" map, entry "to" map with
  | Some (VString agent), None | None, Some (VString agent) => Some agent
  | _, _ => None
  end.

Definition new_params_of_value (value : Value) : option NewSendParams :=
  match value with
  | VObject map =>
      match agent_field map, string_field "text" map, default_field Some (VObject []) "metadata" map,
            optional_field as_str "conversation_id" map, default_field as_bool true "wait" map,
            optional_field as_u64 "timeout_ms" map with
      | Some agent, Some text, Some metadata, Some conversation_id, Some wait, Some timeout_ms =>
          if only_fields ["agent"; "to"; "text"; "metadata"; "conversation_id"; "wait"; "timeout_ms"] map
          then Some (MkNewSendParams agent text metadata conversation_id wait timeout_ms) else None
      | _, _, _, _, _, _ => None
      end
  | _ => None
  end.

Definition resume_params_of_value (value : Value) : option ResumeSendParams :=
  match value with
  | VObject map =>
      match agent_field map, string_field "resume_task_id" map, optional_field as_u64 "timeout_ms" map with
      | Some agent, Some task_id, Some timeout_ms =>
          if only_fields ["agent"; "to"; "resume_task_id"; "timeout_ms"] map
          then Some (MkResumeSendParams agent task_id timeout_ms) else None
      | _, _, _ => None
      end
  | _ => None
  end.

(** [SendParams], untagged: the first variant that matches. *)
Definition send_params_of_value (value : Value) : option SendParams :=
  match new_params_of_value value with
  | Some params => Some (SendNew params)
  | None => SendResume <$> resume_params_of_value value
  end.

Definition validate_agent (agent : string) : Outcome RequestFailure () :=
  match AgentName_parse agent with
  | Done _ => Done tt
  | _ => Fail (OtherFailed "agent name is invalid")
  end.

Definition validate_agent_target (target : string) : Outcome RequestFailure () :=
  reject_if ((str_len target =? 0)%nat || (1024 <? str_len target)%nat || existsb is_control (chars target))
    (OtherFailed "agent target must be non-empty, bounded, and control-free").

Definition session_validate_text (text : string) : Outcome RequestFailure () :=
  reject_if (MAX_TEXT_BYTES <? str_len text)%nat (OtherFailed "message text exceeds the size limit").

Definition session_validate_metadata (value : Value) : Outcome RequestFailure () :=
  reject_if (negb (is_object value) || (MAX_METADATA_BYTES <? to_vec_len value)%nat)
    (OtherFailed "metadata must be a bounded object").

Definition object_metadata (value : Value) : Outcome RequestFailure (option (list (string * Value))) :=
  let? _ := session_validate_metadata value in
  match value with
  | VObject [] => Done None
  | VObject map => Done (Some map)
  | _ => Fail (OtherFailed "metadata must be an object")
  end.

(** [ResolveAgentResponse] *)
Definition resolved_of_value (value : Value) : option AgentName :=
  match value with
  | VObject [(key, name)] =>
      if String.eqb key "canonical_name" then agent_name_of_value name else None
  | VArray [name] => agent_name_of_value name
  | _ => None
  end.

Fixpoint resolve_new_target (target : string) (turns : list (MethodTurn Value))
    : option (Outcome RequestFailure AgentName) :=
  match turns with
  | [] => None
  | turn :: turns =>
      match url_with_segments (rdesc_base_url (conn_descriptor (mt_connection turn).2))
              ["v1"; "agents"; "resolve"; target] with
      | Err error => Some (Fail (OtherFailed error))
      | Ok _ =>
          match mt_answer turn with
          | None => Some (Fail (OtherFailed "operation deadline expired during agent resolution"))
          | Some (Ok value) =>
              Some match resolved_of_value value with
                   | Some name => Done name
                   | None => invalid "ResolveAgentResponse" value
                   end
          | Some (Err (Recoverable _ _)) => recovered (mt_recover turn) (resolve_new_target target turns)
          | Some (Err (Final error)) => Some (Fail error)
          end
      end
  end.

(** What [send_new_message] makes of its parameters before it resolves the target. *)
Definition check_new_message (params : NewSendParams) (now : Z) : Outcome RequestFailure Z :=
  let? _ := validate_agent_target (ns_agent params) in
  let? _ := session_validate_text (ns_text params) in
  let? _ :=
    match ns_conversation_id params with
    | Some conversation_id =>
        map_error (λ _, OtherFailed "conversation ID is invalid") (validate_task_id conversation_id)
    | None => Done tt
    end in
  let? wait := send_wait_duration (ns_timeout_ms params) in
  Done (now + wait)%Z.

(** The operation, once the target is resolved and a permit is held; the identifiers are
    those of [new_task_id], [new_context_id] and [Message::new]. *)
Definition new_operation (params : NewSendParams) (metadata : option (list (string * Value)))
    (canonical_agent : AgentName) (deadline : Z) (message_id new_task_id new_context_id : string)
    : TaskOperation :=
  let conversation_id := default new_context_id (ns_conversation_id params) in
  let tenant := agent_str canonical_agent in
  let message := MkMessage message_id (Some conversation_id) (Some new_task_id) RoleUser
                   [text_part (ns_text params)] metadata None None in
  let configuration :=
    if ns_wait params then None
    else Some (MkSendConfiguration (Some ["text/plain"]) None None (Some true)) in
  MkTaskOperation (ns_agent params) tenant tenant new_task_id (Some conversation_id)
    (Some (MkSendRequest message configuration None (Some tenant)))
    (if ns_wait params then Terminal else Immediate) deadline.

(** [send_new_message] up to the operation; [permit] is the answer of [try_acquire_owned]. *)
Definition prepare_new_message (params : NewSendParams) (now : Z) (turns : list (MethodTurn Value))
    (permit : bool) (message_id new_task_id new_context_id : string)
    : option (Outcome RequestFailure TaskOperation) :=
  match check_new_message params now with
  | Fail error => Some (Fail error)
  | Panic msg => Some (Panic msg)
  | Done deadline =>
      match resolve_new_target (ns_agent params) turns with
      | None => None
      | Some resolved =>
          Some (
            let? canonical_agent := resolved in
            let? metadata := object_metadata (ns_metadata params) in
            let? _ := reject_if (negb permit) (OtherFailed "too many active outbound tasks") in
            Done (new_operation params metadata canonical_agent deadline message_id new_task_id new_context_id))
      end
  end.

(** [resume_message] up to its first call. *)
Definition prepare_resume (params : ResumeSendParams) (permit : bool) (now : Z)
    : Outcome RequestFailure TaskOperation :=
  let? _ := validate_agent (rs_agent params) in
  let? _ := map_error (λ error, OtherFailed (DomainError_display error)) (validate_task_id (rs_resume_task_id params)) in
  let? _ := reject_if (negb permit) (OtherFailed "too many active outbound tasks") in
  let? wait := send_wait_duration (rs_timeout_ms params) in
  Done (MkTaskOperation (rs_agent params) (rs_agent params) (rs_agent params) (rs_resume_task_id params)
          None None Terminal (now + wait)%Z).

(** [send_message] *)
Definition session_send_message (params : Value) (now : Z) (resolving : list (MethodTurn Value)) (permit : bool)
    (message_id new_task_id new_context_id : string) (first : Turn) (turns : list Turn)
    : option (Outcome RequestFailure Value) :=
  match send_params_of_value params with
  | None => Some (invalid "SendParams" params)
  | Some (SendNew params) =>
      match prepare_new_message params now resolving permit message_id new_task_id new_context_id with
      | None => None
      | Some (Done operation) => execute_new_task_operation operation first turns
      | Some (Fail error) => Some (Fail error)
      | Some (Panic msg) => Some (Panic msg)
      end
  | Some (SendResume params) =>
      match prepare_resume params permit now with
      | Done operation => resume_operation operation first turns
      | Fail error => Some (Fail error)
      | Panic msg => Some (Panic msg)
      end
  end.
End methods.

(** * Deliveries and answers

    The other methods of [herdr-a2a-cli/src/session.rs]: waiting for a message and
    acknowledging it, replying, canceling, and waiting for the agents of a team; and the
    dispatch of a request to its method.  A delivery is handed to the harness only when
    the broker has accepted its acknowledgement. *)
Section inbox.
Context `{JsonNumber} {serde : SerdeJson} `{!Reqwest} `{!RecoveryLib} {session_serde : SessionSerde}.
Context {method_lib : MethodLib}.

(** The milliseconds until a deadline, rounded up, at least a second; a [u64]. *)
Definition remaining_timeout_ms (deadline now : Z) : Z :=
  let remaining := remaining_until deadline now in
  let millis := (remaining / 1000000)%Z in
  let as_u64 := (millis mod 2 ^ 64)%Z in
  let rounded_up := (millis + (if (from_millis as_u64 <? remaining)%Z then 1 else 0))%Z in
  Z.max 1000 (if (rounded_up <=? u64_max)%Z then rounded_up else u64_max).

(** One request of a loop: where it goes and its body. *)
Record Posted := MkPosted { posted_url : string; posted_body : Value }.

Definition wait_request (base_url : string) (timeout_ms : option Z) : Posted :=
  MkPosted (base_url +:+ "/v1/inbox/wait")
    (VObject [("timeout_ms", match timeout_ms with Some ms => VNumber (number_of_u64 ms) | None => VNull end)]).
Definition ack_request (base_url delivery_id : string) : Posted :=
  MkPosted (base_url +:+ "/v1/inbox/ack") (VObject [("delivery_id", VString delivery_id)]).

(** The broker: what it answers to a request on a connection, and when. *)
Record InboxTurn := MkInboxTurn {
  it_now : Z;
  it_check : Z;
  it_connection : Shared;
  it_post : Posted → option (Result RequestError Value);
  it_recover : Result RecoveryError ();
}.

Definition past (deadline : option Z) (now : Z) : bool :=
  match deadline with Some deadline => (deadline <=? now)%Z | None => false end.

Definition base_url_of (turn : InboxTurn) : string := rdesc_base_url (conn_descriptor (it_connection turn).2).

(** [acknowledge_delivery]; an answer that the deadline cut off is [None]. *)
Fixpoint acknowledge_delivery (delivery_id : string) (deadline : option Z) (turns : list InboxTurn)
    : option (Outcome RequestFailure ()) :=
  match turns with
  | [] => None
  | turn :: turns =>
      if past deadline (it_now turn) then Some (Fail (OtherFailed "delivery acknowledgement timed out"))
      else
        match it_post turn (ack_request (base_url_of turn) delivery_id) with
        | None => Some (Fail (OtherFailed "delivery acknowledgement timed out"))
        | Some (Ok _) => Some (Done tt)
        | Some (Err (Recoverable _ _)) =>
            recovered (it_recover turn) (acknowledge_delivery delivery_id deadline turns)
        | Some (Err (Final error)) => Some (Fail error)
        end
  end.

(** The texts of errors, as [to_string] gives them. *)
Definition RequestFailure_display (error : RequestFailure) : string :=
  match error with
  | AcknowledgementFailed message | OtherFailed message => message
  | RecoveryFailed error => RecoveryError_display error
  | PrivateFailed _ message _ => message
  end.

(** What [wait_for_message] makes of a delivery. *)
Definition accept_delivery (delivery : Value) (deadline : option Z) (acks : list InboxTurn)
    : option (Outcome RequestFailure Value) :=
  match and_then (value_get "delivery_id" delivery) as_str with
  | None => Some (Fail (OtherFailed "delivery has no identifier"))
  | Some delivery_id =>
      match acknowledge_delivery delivery_id deadline acks with
      | None => None
      | Some (Done _) => Some (Done delivery)
      | Some (Fail error) => Some (Fail (AcknowledgementFailed (RequestFailure_display error)))
      | Some (Panic msg) => Some (Panic msg)
      end
  end.

(** The loop of [wait_for_message]; [acks] are the turns of the acknowledgement. *)
Fixpoint wait_loop (deadline : option Z) (turns acks : list InboxTurn)
    : option (Outcome RequestFailure Value) :=
  match turns with
  | [] => None
  | turn :: turns =>
      let timeout_ms := (λ deadline, remaining_timeout_ms deadline (it_now turn)) <$> deadline in
      if past deadline (it_check turn) then Some (Fail (OtherFailed "inbox wait timed out"))
      else
        match it_post turn (wait_request (base_url_of turn) timeout_ms) with
        | None => Some (Fail (OtherFailed "inbox wait timed out"))
        | Some (Ok delivery) => accept_delivery delivery deadline acks
        | Some (Err (Recoverable _ _)) => recovered (it_recover turn) (wait_loop deadline turns acks)
        | Some (Err (Final error)) => Some (Fail error)
        end
  end.

(** [WaitParams] *)
Definition wait_params_of_value (params : Value) : option (option Z) :=
  match params with
  | VObject map =>
      if only_fields ["timeout_ms"] map then optional_field as_u64 "timeout_ms" map else None
  | _ => None
  end.

(** [permit] is the answer of [try_acquire_owned] on the one permit for waiting. *)
Definition wait_for_message (params : Value) (permit : bool) (now : Z) (turns acks : list InboxTurn)
    : option (Outcome RequestFailure Value) :=
  match wait_params_of_value params with
  | None => Some (invalid "WaitParams" params)
  | Some timeout_ms =>
      if permit then wait_loop ((λ ms, (now + from_millis ms)%Z) <$> timeout_ms) turns acks
      else Some (Fail (OtherFailed "wait_for_message is already active"))
  end.

(** ** Replying and canceling *)

Definition task_action_url (base_url task_id action : string) : Outcome RequestFailure string :=
  let? _ := map_error (λ error, OtherFailed (DomainError_display error)) (validate_task_id task_id) in
  match url_with_segments base_url ["v1"; "tasks"; task_id; action] with
  | Ok url => Done url
  | Err error => Fail (OtherFailed error)
  end.

(** The loops of [reply] and [cancel_task], which differ in what they post and answer. *)
Fixpoint task_action_loop (task_id action state : string) (body : Value) (turns : list InboxTurn)
    : option (Outcome RequestFailure Value) :=
  match turns with
  | [] => None
  | turn :: turns =>
      match task_action_url (base_url_of turn) task_id action with
      | Fail error => Some (Fail error)
      | Panic msg => Some (Panic msg)
      | Done url =>
          match it_post turn (MkPosted url body) with
          | None => None
          | Some (Ok _) => Some (Done (VObject [("task_id", VString task_id); ("state", VString state)]))
          | Some (Err (Recoverable _ _)) =>
              recovered (it_recover turn) (task_action_loop task_id action state body turns)
          | Some (Err (Final error)) => Some (Fail error)
          end
      end
  end.

Definition reply_params_of_value (params : Value) : option (string * string * Value) :=
  match params with
  | VObject map =>
      match string_field "task_id" map, string_field "text" map, default_field Some (VObject []) "metadata" map with
      | Some task_id, Some text, Some metadata =>
          if only_fields ["task_id"; "text"; "metadata"] map then Some (task_id, text, metadata) else None
      | _, _, _ => None
      end
  | _ => None
  end.

Definition session_reply (params : Value) (turns : list InboxTurn) : option (Outcome RequestFailure Value) :=
  match reply_params_of_value params with
  | None => Some (invalid "ReplyParams" params)
  | Some (task_id, text, metadata) =>
      match (let? _ := session_validate_text text in session_validate_metadata metadata) with
      | Done _ =>
          task_action_loop task_id "reply" "completed"
            (VObject [("text", VString text); ("metadata", metadata); ("file_refs", VArray [])]) turns
      | Fail error => Some (Fail error)
      | Panic msg => Some (Panic msg)
      end
  end.

Definition cancel_params_of_value (params : Value) : option string :=
  match params with
  | VObject [(key, VString task_id)] => if String.eqb key "task_id" then Some task_id else None
  | _ => None
  end.

(** [post_empty]: no body, here [VNull]. *)
Definition session_cancel_task (params : Value) (turns : list InboxTurn) : option (Outcome RequestFailure Value) :=
  match cancel_params_of_value params with
  | None => Some (invalid "CancelParams" params)
  | Some task_id => task_action_loop task_id "cancel" "canceled" VNull turns
  end.

(** ** Teams *)

Record RegisteredTeamAgent := MkRegisteredTeamAgent { rt_pane_id : string; rt_canonical_name : AgentName }.

Definition team_agent (pane_ids : list string) (agent : BrokerDirectoryAgent) : option RegisteredTeamAgent :=
  if valid_directory_agent agent && bool_decide (bda_pane_id agent ∈ pane_ids)
  then Some (MkRegisteredTeamAgent (bda_pane_id agent) (bda_canonical_name agent)) else None.

(** [SessionAgentWaiter::wait_for_agents]; the answer has the agents of [WaitedAgents]. *)
Fixpoint wait_for_agents (pane_ids : list string) (deadline : Z)
    (turns : list (Z * option (Result RequestError (list BrokerDirectoryAgent)) * Result RecoveryError ()))
    : option (Result string (list RegisteredTeamAgent)) :=
  match turns with
  | [] => None
  | (now, answer, recover) :: turns =>
      if (deadline <=? now)%Z then Some (Ok [])
      else
        match answer with
        | None => Some (Ok [])
        | Some (Ok agents) =>
            Some match mapM (team_agent pane_ids) agents with
                 | Some agents => Ok agents
                 | None => Err "broker returned an invalid team directory"
                 end
        | Some (Err (Recoverable _ _)) =>
            match recover with
            | Ok _ => wait_for_agents pane_ids deadline turns
            | Err error => Some (Err (RecoveryError_display error))
            end
        | Some (Err (Final error)) => Some (Err (RequestFailure_display error))
        end
  end.

(** ** The dispatch *)

Record Methods (A : Type) := MkMethods {
  m_list_agents : A; m_create_team : A; m_status : A; m_doctor : A; m_managed_remove : A;
  m_send_message : A; m_wait_for_message : A; m_reply : A; m_cancel_task : A; m_unknown : A;
}.

Definition handle_request {A} (methods : Methods A) (method : string) : A :=
  if String.eqb method "list_agents" then m_list_agents A methods
  else if String.eqb method "create_team" then m_create_team A methods
  else if String.eqb method "status" then m_status A methods
  else if String.eqb method "doctor" then m_doctor A methods
  else if String.eqb method "managed_remove" then m_managed_remove A methods
  else if String.eqb method "send_message" then m_send_message A methods
  else if String.eqb method "wait_for_message" then m_wait_for_message A methods
  else if String.eqb method "reply" then m_reply A methods
  else if String.eqb method "cancel_task" then m_cancel_task A methods
  else m_unknown A methods.
End inbox.
