(* ===== verification/SessionMethodsTheorems.v ===== *)
(** * What the methods of a session guarantee

    Theorems about the methods of [herdr-a2a-cli/src/session.rs]: operations are well
    formed before anything is sent, sending never panics, deliveries are acknowledged
    before the harness sees them, and the timeouts that a session asks for are accepted
    by the broker. *)
From stdpp Require Import prelude gmap strings.
From S2P Require Import Prelude RustStd CliText Model Validation LedgerCodec Ledger A2aFront Api Generation Health Recovery SessionFrames SessionLoop TaskAttempts TaskAttemptsTheorems SessionWire SessionMethods.

Section proofs.
Context `{JsonNumber} {serde : SerdeJson} {chrono : Chrono} {a2a : A2ALib} {client_lib : ClientLib}.
Context `{!Reqwest} `{!RecoveryLib} {session_serde : SessionSerde} {method_lib : MethodLib}.
Implicit Types op : TaskOperation.

Lemma parse_valid name text : AgentName_parse text = Done name → AgentName_parse (agent_str name) = Done name.
Proof.
  intros Hparse. unfold AgentName_parse in Hparse. destruct (as_bytes text) as [|b l] eqn:Hb; [done|].
  destruct (_ || _) eqn:Hbad; [done|]. injection Hparse as <-. cbn [agent_str].
  unfold AgentName_parse. by rewrite Hb, Hbad.
Qed.

Lemma send_wait_bounds timeout_ms wait :
  send_wait_duration timeout_ms = Done wait →
  (from_millis MIN_SEND_WAIT_MS ≤ wait ≤ from_millis MAX_SEND_WAIT_MS)%Z.
Proof.
  unfold send_wait_duration. intros ([] & Hr%reject_if_Done%negb_false_iff & [= <-])%out_bind_Done.
  apply andb_true_iff in Hr as [Hlo%Z.leb_le Hhi%Z.leb_le]. unfold from_millis. lia.
Qed.

Lemma resolved_valid target turns name :
  resolve_new_target target turns = Some (Done name) → AgentName_parse (agent_str name) = Done name.
Proof.
  induction turns as [|turn turns IH]; cbn; [done|]. destruct (url_with_segments _ _); [|done].
  destruct (mt_answer turn) as [[value|[mode reason|error]]|]; [| |done|done].
  - destruct (resolved_of_value value) as [name'|] eqn:Hr; [|done]. intros [= <-].
    assert (Hof : ∃ v, agent_name_of_value v = Some name').
    { unfold resolved_of_value in Hr. repeat case_match; try done; eauto. }
    destruct Hof as [[| | |text| |] Hv]; try done. cbn in Hv.
    destruct (AgentName_parse text) eqn:Hp; [|done|done]. injection Hv as ->. by eapply parse_valid.
  - unfold recovered. destruct (mt_recover turn); [exact IH|done].
Qed.

(** An operation as [send_new_message] hands it on: one text of bounded length to a valid
    agent, with the identifiers of the operation in the message, and a bounded wait. *)
Record well_formed (now : Z) op (request : SendMessageRequest) : Prop := {
  wf_agent : AgentName_parse (op_agent op) = Done (MkAgentName (op_agent op));
  wf_tenant : op_tenant op = op_agent op ∧ send_tenant request = Some (op_agent op);
  wf_task : message_task_id (send_message request) = Some (op_task_id op);
  wf_context : message_context_id (send_message request) = op_context_id op ∧ is_some (op_context_id op) = true;
  wf_text : ∃ text, message_parts (send_message request) = [text_part text] ∧ str_len text ≤ MAX_TEXT_BYTES;
  wf_metadata : ∀ map, message_metadata (send_message request) = Some map →
    map ≠ [] ∧ to_vec_len (VObject map) ≤ MAX_METADATA_BYTES;
  wf_mode : op_wait_mode op = Immediate ↔
    and_then (send_configuration request) return_immediately = Some true;
  wf_deadline : (now + from_millis MIN_SEND_WAIT_MS ≤ op_deadline op ≤ now + from_millis MAX_SEND_WAIT_MS)%Z;
}.

Lemma metadata_bounds value metadata :
  object_metadata value = Done metadata →
  ∀ map, metadata = Some map → map ≠ [] ∧ to_vec_len (VObject map) ≤ MAX_METADATA_BYTES.
Proof.
  unfold object_metadata. intros ([] & Hv%reject_if_Done & Hm)%out_bind_Done map ->.
  apply orb_false_iff in Hv as [_ Hlen%Nat.ltb_ge].
  destruct value as [| | | | |[|field fields]]; try done. by injection Hm as <-.
Qed.

Lemma prepared_well_formed params now turns permit mid tid cid op :
  prepare_new_message params now turns permit mid tid cid = Some (Done op) →
  op_task_id op = tid ∧ ∃ request, op_normalized_request op = Some request ∧ well_formed now op request.
Proof.
  unfold prepare_new_message.
  destruct (check_new_message params now) as [deadline| |] eqn:Hcheck; [|done|done].
  destruct (resolve_new_target (ns_agent params) turns) as [resolved|] eqn:Hres; [|done].
  intros [= Hop]. apply out_bind_Done in Hop as (agent & -> & Hop).
  apply out_bind_Done in Hop as (metadata & Hmeta & Hop).
  apply out_bind_Done in Hop as ([] & _ & [= <-]). split; [done|]. eexists. split; [done|].
  unfold check_new_message in Hcheck.
  apply out_bind_Done in Hcheck as ([] & _ & Hcheck).
  apply out_bind_Done in Hcheck as ([] & Htext%reject_if_Done%Nat.ltb_ge & Hcheck).
  apply out_bind_Done in Hcheck as ([] & _ & Hcheck).
  apply out_bind_Done in Hcheck as (wait & Hwait%send_wait_bounds & [= <-]).
  apply resolved_valid in Hres. split.
  - change (AgentName_parse (agent_str agent) = Done (MkAgentName (agent_str agent))).
    rewrite Hres. by destruct agent.
  - by split.
  - reflexivity.
  - by split.
  - exists (ns_text params). split; [reflexivity|exact Htext].
  - exact (metadata_bounds _ _ Hmeta).
  - unfold new_operation. cbn [op_wait_mode send_configuration]. by destruct (ns_wait params).
  - change (now + from_millis MIN_SEND_WAIT_MS ≤ now + wait ≤ now + from_millis MAX_SEND_WAIT_MS)%Z. lia.
Qed.

Lemma resume_prepared params permit now op :
  prepare_resume params permit now = Done op →
  op_task_id op = rs_resume_task_id params ∧ op_normalized_request op = None.
Proof.
  unfold prepare_resume. intros Hp.
  apply out_bind_Done in Hp as ([] & _ & Hp). apply out_bind_Done in Hp as ([] & _ & Hp).
  apply out_bind_Done in Hp as ([] & _ & Hp). by apply out_bind_Done in Hp as (wait & _ & [= <-]).
Qed.

(** an operation that the session starts is well formed: it goes to one agent with a
    valid name, its message carries the identifiers that the operation will look for and
    one text within the limits, metadata within the limits if any, the broker is asked to
    answer at once exactly when the caller does not wait, and the wait is between one
    second and one day. *)
Theorem started_operations_are_well_formed params now turns permit mid tid cid op :
  prepare_new_message params now turns permit mid tid cid = Some (Done op) →
  op_task_id op = tid ∧ ∃ request, op_normalized_request op = Some request ∧ well_formed now op request.
Proof. apply prepared_well_formed. Qed.

(** The checks return or fail. *)
Lemma send_wait_no_panic timeout_ms : no_panic (send_wait_duration timeout_ms).
Proof. apply no_panic_bind; [apply no_panic_reject_if|done]. Qed.

Lemma check_no_panic params now : no_panic (check_new_message params now).
Proof.
  apply no_panic_bind; [apply no_panic_reject_if|intros _].
  apply no_panic_bind; [apply no_panic_reject_if|intros _].
  apply no_panic_bind; [destruct (ns_conversation_id params); [|done]|intros _].
  { apply no_panic_map_error. unfold validate_task_id. by case_match. }
  apply no_panic_bind; [apply send_wait_no_panic|done].
Qed.

Lemma resolve_no_panic target turns outcome : resolve_new_target target turns = Some outcome → no_panic outcome.
Proof.
  induction turns as [|turn turns IH]; cbn; [done|]. destruct (url_with_segments _ _); [|by intros [= <-]].
  destruct (mt_answer turn) as [[value|[mode reason|error]]|]; try (by intros [= <-]).
  - intros [= <-]. by destruct (resolved_of_value value).
  - unfold recovered. destruct (mt_recover turn); [exact IH|by intros [= <-]].
Qed.

Lemma prepared_no_panic params now turns permit mid tid cid msg :
  prepare_new_message params now turns permit mid tid cid ≠ Some (Panic msg).
Proof.
  unfold prepare_new_message. pose proof (check_no_panic params now) as Hc.
  destruct (check_new_message params now) as [deadline| |]; [|done|done].
  destruct (resolve_new_target (ns_agent params) turns) as [resolved|] eqn:Hr; [|done].
  apply resolve_no_panic in Hr. intros [= Heq].
  match type of Heq with ?m = _ => assert (Hno : no_panic m) end; [|by rewrite Heq in Hno].
  apply no_panic_bind; [done|intros agent]. apply no_panic_bind.
  { apply no_panic_bind; [apply no_panic_reject_if|intros _].
    by destruct (ns_metadata params) as [| | | | |[]]. }
  intros metadata. apply no_panic_bind; [apply no_panic_reject_if|done].
Qed.

Lemma resume_no_panic params permit now msg : prepare_resume params permit now ≠ Panic msg.
Proof.
  intros Heq. assert (Hno : no_panic (prepare_resume params permit now)); [|by rewrite Heq in Hno].
  apply no_panic_bind; [unfold validate_agent; by case_match|intros _].
  apply no_panic_bind; [apply no_panic_map_error; unfold validate_task_id; by case_match|intros _].
  apply no_panic_bind; [apply no_panic_reject_if|intros _].
  apply no_panic_bind; [apply send_wait_no_panic|done].
Qed.

(** The task that a request to send is about: a new one, or the one to resume. *)
Definition asked_task (params : Value) (tid task_id : string) : Prop :=
  match send_params_of_value params with
  | Some (SendNew _) => task_id = tid
  | Some (SendResume resume) => task_id = rs_resume_task_id resume
  | None => False
  end.

(** C12: whatever the parameters and whatever the broker answers, [send_message] does not
    panic, and a result it gives names the task that was asked for; it says that the task
    is confirmed only if the broker has shown that task. *)
Theorem send_message_is_sound params now resolving permit mid tid cid first turns outcome :
  session_send_message params now resolving permit mid tid cid first turns = Some outcome →
  match outcome with
  | Done result =>
      ∃ op, asked_task params tid (op_task_id op) ∧ names_task op result ∧
        (claims_confirmed result →
           first_shows op first ∨ log_shows op (visited_from op turns (begin_new_task op first))
           ∨ log_shows op (visited_from op turns (begin_resume op first)))
  | Fail _ => True
  | Panic _ => False
  end.
Proof.
  unfold session_send_message, asked_task.
  destruct (send_params_of_value params) as [[new|resume]|]; [| |by intros [= <-]].
  - destruct (prepare_new_message new now resolving permit mid tid cid) as [[op| |]|] eqn:Hp;
      [|by intros [= <-]| |done].
    + apply prepared_well_formed in Hp as (Htask & request & Hreq & _). intros Hrun.
      pose proof (begin_new_ok op first) as Hb.
      assert (Hpanic : ∀ msg, begin_new_task op first ≠ Panic msg).
      { intros msg Heq. rewrite Heq in Hb. cbn in Hb. congruence. }
      pose proof (follow_sound _ _ _ _ _ Hb Hpanic Hrun) as Hs.
      destruct outcome as [result| |]; [|done|done]. destruct Hs as [Hn Hc].
      exists op. split_and!; [done|done|]. intros [[]|?]%Hc. auto.
    + destruct (prepared_no_panic _ _ _ _ _ _ _ _ Hp).
  - destruct (prepare_resume resume permit now) as [op| |] eqn:Hp; [|by intros [= <-]|].
    + apply resume_prepared in Hp as [Htask _]. intros Hrun.
      destruct (begin_resume_ok op first) as [Hb Hpanic].
      pose proof (follow_sound _ _ _ _ _ Hb Hpanic Hrun) as Hs.
      destruct outcome as [result| |]; [|done|done]. destruct Hs as [Hn Hc].
      exists op. split_and!; [done|done|]. intros [?|?]%Hc; auto.
    + destruct (resume_no_panic _ _ _ _ Hp).
Qed.

Lemma acknowledged delivery_id deadline acks :
  acknowledge_delivery delivery_id deadline acks = Some (Done tt) →
  ∃ turn answer, turn ∈ acks ∧ it_post turn (ack_request (base_url_of turn) delivery_id) = Some (Ok answer).
Proof.
  induction acks as [|turn acks IH]; cbn; [done|]. destruct (past deadline (it_now turn)); [done|].
  destruct (it_post turn _) as [[answer|[mode reason|error]]|] eqn:Hpost; [| |done|done].
  - intros _. exists turn, answer. split; [left|exact Hpost].
  - unfold recovered. destruct (it_recover turn); [|done]. intros (turn' & answer & Hin & Hans)%IH.
    exists turn', answer. split; [by right|exact Hans].
Qed.

Lemma acknowledge_no_panic delivery_id deadline acks msg :
  acknowledge_delivery delivery_id deadline acks ≠ Some (Panic msg).
Proof.
  induction acks as [|turn acks IH]; cbn; [done|]. destruct (past deadline (it_now turn)); [done|].
  destruct (it_post turn _) as [[answer|[mode reason|error]]|]; try done.
  unfold recovered. by destruct (it_recover turn).
Qed.

Lemma wait_loop_acknowledges deadline turns acks outcome :
  wait_loop deadline turns acks = Some outcome →
  match outcome with
  | Done delivery =>
      (∃ turn request, turn ∈ turns ∧ it_post turn request = Some (Ok delivery)) ∧
      ∃ delivery_id turn answer, value_get "delivery_id" delivery = Some (VString delivery_id) ∧
        turn ∈ acks ∧ it_post turn (ack_request (base_url_of turn) delivery_id) = Some (Ok answer)
  | Fail _ => True
  | Panic _ => False
  end.
Proof.
  induction turns as [|turn turns IH]; cbn [wait_loop]; [done|].
  destruct (past deadline (it_check turn)); [by intros [= <-]|].
  destruct (it_post turn _) as [[delivery|[mode reason|error]]|] eqn:Hpost.
  - unfold accept_delivery.
    destruct (value_get "delivery_id" delivery) as [value|] eqn:Hvalue; [|by intros [= <-]].
    destruct value as [| | |delivery_id| |]; cbn [and_then as_str]; try (by intros [= <-]).
    destruct (acknowledge_delivery delivery_id deadline acks) as [[[]|error|msg]|] eqn:Hack; [| | |done].
    + intros [= <-]. split; [by eexists _, _; split; [left|exact Hpost]|].
      apply acknowledged in Hack as (ack & answer & Hin & Hans). by exists delivery_id, ack, answer.
    + by intros [= <-].
    + destruct (acknowledge_no_panic _ _ _ _ Hack).
  - unfold recovered. destruct (it_recover turn); [|by intros [= <-]]. intros Hrun. specialize (IH Hrun).
    destruct outcome; [|done|done]. destruct IH as [(turn' & request & Hin & Hans) IH]. split; [|exact IH].
    exists turn', request. split; [by right|exact Hans].
  - by intros [= <-].
  - by intros [= <-].
Qed.

(** [wait_for_message] hands a delivery to the harness only if the broker gave it in
    answer to a wait and has accepted the acknowledgement of exactly that delivery; otherwise
    it fails, and never panics. *)
Theorem deliveries_are_acknowledged_first params permit now turns acks outcome :
  wait_for_message params permit now turns acks = Some outcome →
  match outcome with
  | Done delivery =>
      (∃ turn request, turn ∈ turns ∧ it_post turn request = Some (Ok delivery)) ∧
      ∃ delivery_id turn answer, value_get "delivery_id" delivery = Some (VString delivery_id) ∧
        turn ∈ acks ∧ it_post turn (ack_request (base_url_of turn) delivery_id) = Some (Ok answer)
  | Fail _ => True
  | Panic _ => False
  end.
Proof.
  unfold wait_for_message. destruct (wait_params_of_value params) as [timeout_ms|]; [|by intros [= <-]].
  destruct permit; [|by intros [= <-]]. apply wait_loop_acknowledges.
Qed.

(** the timeout that [wait_for_message] asks the broker for is one that the broker
    accepts, and is not shorter than the time that is left, whenever the harness asked
    for at most a day. *)
Theorem inbox_timeout_is_accepted now0 now timeout_ms :
  (now0 ≤ now)%Z → (0 ≤ timeout_ms ≤ MAX_WAIT_TIMEOUT_MS)%Z →
  let asked := remaining_timeout_ms (now0 + from_millis timeout_ms) now in
  (MIN_WAIT_TIMEOUT_MS ≤ asked ≤ MAX_WAIT_TIMEOUT_MS)%Z ∧
  (remaining_until (now0 + from_millis timeout_ms) now ≤ from_millis asked)%Z.
Proof.
  intros Hnow Htime. cbn zeta.
  unfold remaining_timeout_ms, remaining_until, from_millis, MIN_WAIT_TIMEOUT_MS, MAX_WAIT_TIMEOUT_MS in *.
  set (remaining := Z.max 0 (now0 + timeout_ms * 1000000 - now)) in *.
  assert (Hr : (0 ≤ remaining ≤ 86400000 * 1000000)%Z) by lia.
  assert (Hm : (0 ≤ remaining / 1000000 ≤ 86400000)%Z).
  { split; [apply Z.div_pos; lia|]. apply Z.div_le_upper_bound; lia. }
  assert (Hsmall : ((remaining / 1000000) mod 2 ^ 64 = remaining / 1000000)%Z) by (apply Z.mod_small; lia).
  rewrite Hsmall. clear Hsmall. clearbody remaining.
  pose proof (Z.div_mod remaining 1000000 ltac:(lia)) as Hdm.
  pose proof (Z.mod_pos_bound remaining 1000000 ltac:(lia)) as Hmod.
  set (q := (remaining / 1000000)%Z) in *. set (r := (remaining mod 1000000)%Z) in *. clearbody q r.
  destruct (_ <? remaining)%Z eqn:Hlt; [apply Z.ltb_lt in Hlt|apply Z.ltb_ge in Hlt].
  - assert (Hup : (q + 1 ≤ 86400000)%Z) by lia.
    rewrite (proj2 (Z.leb_le _ u64_max)) by (unfold u64_max; lia). lia.
  - rewrite (proj2 (Z.leb_le _ u64_max)) by (unfold u64_max; lia). lia.
Qed.
End proofs.

Module MethodsSample.
Import AttemptsSample.
#[local] Existing Instances number millis a2a client_lib.
#[local] Instance serde : SerdeJson := {| to_vec_len _ := 2%nat |}.
#[local] Instance no_reqwest : Reqwest := {|
  ReqwestError := string; is_connect _ := true; is_timeout _ := false; is_request _ := false;
  reqwest_display e := e;
|}.
#[local] Instance method_lib : MethodLib := {|
  number_as_u64 z := Some z;
  number_of_u64 z := z;
  from_value_error type _ := type;
  url_with_segments base segments := Ok (base +:+ "/" +:+ String.concat "/" segments);
|}.

Definition params : Value :=
  VObject [("to", VString "coder"); ("text", VString "hello"); ("timeout_ms", VNumber (5000%Z : Number))].
Definition resolving : list (MethodTurn Value) :=
  [MkMethodTurn 0 (0, connection "i1") (Some (Err (Recoverable BrokerReplacement "closed"))) (Ok tt);
   MkMethodTurn 0 (1, connection "i2") (Some (Ok (VObject [("canonical_name", VString "agent")]))) (Ok tt)].
Definition new_params : NewSendParams := MkNewSendParams "coder" "hello" (VObject []) None true (Some 5000%Z).
Definition sent_operation : TaskOperation :=
  new_operation new_params None (MkAgentName "agent") (from_millis 5000) "m" "t" "c".

(** Witness: a target that is resolved after one recovery. *)
Lemma started_operations_are_well_formed_witness :
  op_task_id sent_operation = "t" ∧
  ∃ request, op_normalized_request sent_operation = Some request ∧ well_formed 0 sent_operation request.
Proof.
  apply (started_operations_are_well_formed new_params 0 resolving true "m" "t" "c" sent_operation).
  by vm_compute.
Defined.

(** Witness: the task is sent, and is seen to complete. *)
Lemma send_message_is_sound_witness :
  ∃ op, asked_task params "t" (op_task_id op) ∧ names_task op (task_result (task TaskCompleted)).
Proof.
  assert (Hrun : session_send_message params 0 resolving true "m" "t" "c" first turns
                 = Some (Done (task_result (task TaskCompleted)))) by (vm_compute; reflexivity).
  pose proof (send_message_is_sound params 0 resolving true "m" "t" "c" first turns
    (Done (task_result (task TaskCompleted))) Hrun) as Hs.
  destruct Hs as (op & Hasked & Hnames & _). exact (ex_intro _ op (conj Hasked Hnames)).
Defined.

Definition delivery : Value := VObject [("delivery_id", VString "d"); ("text", VString "hi")].
Definition answers (answer : Value) : InboxTurn :=
  MkInboxTurn 0 0 (0, connection "i1") (λ _, Some (Ok answer)) (Ok tt).

Lemma deliveries_are_acknowledged_first_witness :
  ∃ delivery_id turn answer, value_get "delivery_id" delivery = Some (VString delivery_id) ∧
    turn ∈ [answers VNull] ∧ it_post turn (ack_request (base_url_of turn) delivery_id) = Some (Ok answer).
Proof.
  exact (proj2 (deliveries_are_acknowledged_first (VObject []) true 0 [answers delivery] [answers VNull]
    (Done delivery) ltac:(by vm_compute))).
Defined.

(** Witness: 2.5 ms before a deadline of five seconds, the broker is asked for a second. *)
Lemma inbox_timeout_is_accepted_witness :
  remaining_timeout_ms (0 + from_millis 5000) 4997500000 = 1000%Z ∧ (MIN_WAIT_TIMEOUT_MS ≤ 1000)%Z.
Proof.
  split; [by vm_compute|].
  exact (proj1 (proj1 (inbox_timeout_is_accepted 0 4997500000 5000 ltac:(lia)
    ltac:(unfold MAX_WAIT_TIMEOUT_MS; lia)))).
Defined.
End MethodsSample.
