(* ===== verification/Team.v ===== *)
(** * Herdr commands and teams

    [herdr-a2a-broker/src/herdr.rs] and [herdr-a2a-cli/src/team.rs]: how the answers of
    the [herdr] program are read, how the pane of an agent is verified, and how a team is
    created pane by pane.

    A function of the orchestrator runs in a [TeamWorld]: the clock, in nanoseconds, and
    the calls made so far with the instant of each.  The outside is an [oracle] that
    answers each call knowing all the calls before it and says how much time went by;
    so the theorems hold for every behaviour of [herdr] and of the scheduler.  The three
    loops of [start_agent] have fuel; a function is [None] when it runs out. *)
From stdpp Require Import prelude gmap strings sorting.
From S2P Require Import Prelude RustStd Model Validation Sqlite Identity LedgerCodec Ledger A2aFront CliText Generation Api Health Recovery SessionFrames SessionLoop TaskAttempts SessionWire SessionMethods.

(** ** Answers of commands *)

Record CommandOutput := MkCommandOutput {
  out_success : bool;
  out_stdout : Bytes;
  out_stderr : Bytes;
}.

(** [serde_json] on bytes: the document, whose objects have all their members in the
    order of the text; a number as an unsigned integer; and the text of an error. *)
Class HerdrJson `{JsonNumber} := {
  slice_document : Bytes → option Value;
  document_u64 : Number → option Z;
  slice_error : Bytes → string;
}.

Section documents.
Context `{JsonNumber} {json : HerdrJson}.

(** A field of a derived [Deserialize]: a member that is named twice is an error, and
    [missing] is what an absent one stands for. *)
Definition document_field {A} (key : string) (decode : Value → option A) (missing : option A)
    (map : list (string * Value)) : option A :=
  match filter (λ p, p.1 = key) map with
  | [] => missing
  | [(_, value)] => decode value
  | _ => None
  end.

(** Structures of one and of two fields; the array of the fields is accepted too. *)
Definition one_field {A} (key : string) (decode : Value → option A) (value : Value) : option A :=
  match value with
  | VObject map => document_field key decode None map
  | VArray [first] => decode first
  | _ => None
  end.

Definition two_fields {A B} (key1 : string) (decode1 : Value → option A) (key2 : string)
    (decode2 : Value → option B) (value : Value) : option (A * B) :=
  match value with
  | VObject map =>
      match document_field key1 decode1 None map, document_field key2 decode2 None map with
      | Some a, Some b => Some (a, b)
      | _, _ => None
      end
  | VArray [first; second] =>
      match decode1 first, decode2 second with Some a, Some b => Some (a, b) | _, _ => None end
  | _ => None
  end.

(** [#[serde(deny_unknown_fields)]] *)
Definition known_fields {A} (allowed : list string) (decode : Value → option A) (value : Value) : option A :=
  match value with
  | VObject map => if only_fields allowed map then decode value else None
  | _ => decode value
  end.

(** [Option<String>], [u64], [u32] and [Vec] *)
Definition optional_string (value : Value) : option (option string) :=
  match value with VNull => Some None | VString s => Some (Some s) | _ => None end.
Definition decode_u64 (value : Value) : option Z :=
  match value with VNumber n => and_then (document_u64 n) (checked 0 u64_max) | _ => None end.
Definition decode_u32 (value : Value) : option Z := and_then (decode_u64 value) (checked 0 u32_max).
Definition decode_vec {A} (decode : Value → option A) (value : Value) : option (list A) :=
  and_then (as_array value) (mapM decode).

(** ** The verification of a pane *)

Inductive HerdrVerificationError :=
| Command (error : string)
| CommandFailed
| MalformedResponse (error : string)
| InvalidName (error : DomainError)
| PaneMismatch
| UnsupportedHarness
| UnsafeWorkspace.

Definition HerdrVerificationError_display (error : HerdrVerificationError) : string :=
  match error with
  | Command error => "Herdr verification command failed: " +:+ error
  | CommandFailed => "Herdr rejected the agent lookup"
  | MalformedResponse error => "Herdr returned an invalid agent record: " +:+ error
  | InvalidName _ => "Herdr agent has no valid explicit name"
  | PaneMismatch => "Herdr returned a different pane"
  | UnsupportedHarness => "Herdr agent is not a Pi agent"
  | UnsafeWorkspace => "Herdr returned an unsafe workspace"
  end.

(** [Error::source]: the error inside. *)
Definition HerdrVerificationError_source (error : HerdrVerificationError) : option (string + DomainError) :=
  match error with
  | Command error | MalformedResponse error => Some (inl error)
  | InvalidName error => Some (inr error)
  | _ => None
  end.

Record HerdrAgentRecord := MkHerdrAgentRecord {
  ha_pane_id : string;
  ha_name : option string;
  ha_agent : string;
  ha_workspace_id : string;
  ha_cwd : string;
}.

Definition decode_agent_record (value : Value) : option HerdrAgentRecord :=
  let build := λ pane_id name agent workspace_id cwd,
    match pane_id, name, agent, workspace_id, cwd with
    | Some pane_id, Some name, Some agent, Some workspace_id, Some cwd =>
        Some (MkHerdrAgentRecord pane_id name agent workspace_id cwd)
    | _, _, _, _, _ => None
    end in
  match value with
  | VObject map =>
      build (document_field "pane_id" as_str None map)
        (document_field "name" optional_string (Some None) map)
        (document_field "agent" as_str None map)
        (document_field "workspace_id" as_str None map)
        (document_field "cwd" as_str None map)
  | VArray [pane_id; name; agent; workspace_id; cwd] =>
      build (as_str pane_id) (optional_string name) (as_str agent) (as_str workspace_id) (as_str cwd)
  | _ => None
  end.

(** [HerdrEnvelope] and [HerdrResult] *)
Definition decode_herdr_envelope : Value → option HerdrAgentRecord :=
  one_field "result" (one_field "agent" decode_agent_record).

Definition no_dots (c : Component) : bool := negb (bool_decide (c = CurDir) || bool_decide (c = ParentDir)).

Definition safe_workspace (raw_path : string) : bool :=
  is_absolute raw_path
  && negb (path_eqb raw_path "/")
  && negb (existsb (λ byte, (byte =? 0)%Z) (as_bytes raw_path))
  && negb (existsb (λ component, bool_decide (component = as_bytes ".") || bool_decide (component = as_bytes ".."))
             (split_byte 47 (as_bytes raw_path)))
  && forallb no_dots (components raw_path).

(** The role of an agent that has the name [name]. *)
Definition verified_role (name : option string) : Outcome DomainError RoleLabel :=
  match name with
  | None => RoleLabel_parse "agent"
  | Some name =>
      if String.eqb name "" then RoleLabel_parse "agent"
      else
        let? role := RoleLabel_parse name in
        if String.eqb (canonical_slug (Some (role_str role))) "agent" then RoleLabel_parse "agent"
        else Done role
  end.

(** [CommandHerdrVerifier::verify]; [run] is the command runner. *)
Definition verify (run : PathBuf → list string → Result string CommandOutput) (executable : PathBuf)
    (pane_id : string) : Outcome HerdrVerificationError VerifiedPane :=
  let? output := map_error Command (of_result (run executable ["agent"; "get"; pane_id])) in
  let? _ := reject_if (negb (out_success output)) CommandFailed in
  let? record := ok_or (and_then (slice_document (out_stdout output)) decode_herdr_envelope)
                   (MalformedResponse (slice_error (out_stdout output))) in
  let? _ := reject_if (negb (String.eqb (ha_pane_id record) pane_id)) PaneMismatch in
  let? _ := reject_if (negb (String.eqb (ha_agent record) "pi")) UnsupportedHarness in
  let? role := map_error InvalidName (verified_role (ha_name record)) in
  let? _ := reject_if ((str_len (ha_workspace_id record) =? 0)%nat
                       || (256 <? str_len (ha_workspace_id record))%nat
                       || existsb is_control (chars (ha_workspace_id record))) UnsafeWorkspace in
  let? _ := reject_if (negb (safe_workspace (ha_cwd record))) UnsafeWorkspace in
  Done (MkVerifiedPane (ha_pane_id record) (ha_workspace_id record) role (ha_agent record) (ha_cwd record)).

(** ** The answers a team is made from *)

Definition MAX_TEAM_MEMBERS : nat := 8.
Definition MAX_OPAQUE_ID_BYTES : nat := 1024.

Definition bounded_control_free (value : string) (max_bytes : nat) : bool :=
  negb (str_len value =? 0)%nat && (str_len value <=? max_bytes)%nat && negb (existsb is_control (chars value)).

(** [AgentStartErrorEnvelope]: the code and message of the error, and the id. *)
Definition decode_start_error : Value → option ((string * string) * string) :=
  known_fields ["error"; "id"]
    (two_fields "error" (known_fields ["code"; "message"] (two_fields "code" as_str "message" as_str))
       "id" as_str).

Definition parse_agent_pane_busy (stdout stderr : Bytes) : bool :=
  let busy := λ encoded,
    match and_then (slice_document encoded) decode_start_error with
    | Some ((code, message), id) =>
        String.eqb id "cli:agent:start" && String.eqb code "agent_pane_busy"
        && bounded_control_free message 1024
    | None => false
    end in
  match stdout, stderr with
  | _ :: _, [] => busy stdout
  | [], _ :: _ => busy stderr
  | _, _ => false
  end.

(** [ProcessInfoEnvelope] *)
Definition decode_process_info : Value → option (string * Z) :=
  one_field "result" (one_field "process_info" (two_fields "pane_id" as_str "shell_pid" decode_u32)).

(** [parse_ready_shell]; [None] is the error. *)
Definition parse_ready_shell (stdout : Bytes) (pane_id : string) : option bool :=
  (λ '(found, shell_pid),
    String.eqb found pane_id && bounded_control_free found MAX_OPAQUE_ID_BYTES && (0 <? shell_pid)%Z)
  <$> and_then (slice_document stdout) decode_process_info.

(** [AgentInfoEnvelope] *)
Definition decode_agent_info : Value → option (string * string) :=
  one_field "result" (one_field "agent" (two_fields "pane_id" as_str "agent" as_str)).

Definition parse_started_pi (stdout : Bytes) (pane_id : string) : option bool :=
  (λ '(found, agent),
    String.eqb found pane_id && bounded_control_free found MAX_OPAQUE_ID_BYTES && String.eqb agent "pi")
  <$> and_then (slice_document stdout) decode_agent_info.

(** [LayoutPane] with its [LayoutRect], and [SplitCandidate] *)
Record LayoutPane := MkLayoutPane { lp_pane_id : string; lp_width : Z; lp_height : Z }.

Record SplitSelection := MkSplitSelection { sel_candidate : LayoutPane; sel_pane_ids : gset string }.

Definition decode_layout_pane (value : Value) : option LayoutPane :=
  (λ '(pane_id, (width, height)), MkLayoutPane pane_id width height)
  <$> two_fields "pane_id" as_str "rect" (two_fields "width" decode_u64 "height" decode_u64) value.

(** [LayoutEnvelope] *)
Definition decode_layout : Value → option (string * list LayoutPane) :=
  one_field "result" (one_field "layout"
    (two_fields "workspace_id" as_str "panes" (decode_vec decode_layout_pane))).

(** [u64::saturating_mul] *)
Definition area (pane : LayoutPane) : Z := Z.min u64_max (lp_width pane * lp_height pane).

(** [max_by_key]: the last of the greatest. *)
Definition max_by_area (panes : list LayoutPane) : option LayoutPane :=
  match panes with
  | [] => None
  | first :: rest => Some (foldl (λ best pane, if (area best <=? area pane)%Z then pane else best) first rest)
  end.

Definition bad_pane (pane : LayoutPane) : bool :=
  negb (bounded_control_free (lp_pane_id pane) MAX_OPAQUE_ID_BYTES)
  || (lp_width pane =? 0)%Z || (lp_height pane =? 0)%Z.

(** [parse_split_candidate]; the error is its text. *)
Definition parse_split_candidate (stdout : Bytes) (workspace_id : string) : Outcome string SplitSelection :=
  let? layout := ok_or (and_then (slice_document stdout) decode_layout) (slice_error stdout) in
  let panes := layout.2 in
  let? _ := reject_if (negb (String.eqb layout.1 workspace_id)) "workspace mismatch" in
  let? _ := reject_if (existsb bad_pane panes) "invalid pane layout" in
  let pane_ids : gset string := list_to_set (lp_pane_id <$> panes) in
  let? _ := reject_if (negb (size pane_ids =? length panes)%nat) "duplicate pane layout ID" in
  let? candidate := ok_or (max_by_area panes) "no pane to split" in
  Done (MkSplitSelection candidate pane_ids).

(** [SplitEnvelope] *)
Definition decode_split : Value → option string :=
  one_field "result" (one_field "pane" (one_field "pane_id" as_str)).

Definition parse_split_pane_id (stdout : Bytes) : Outcome string string :=
  let? pane_id := ok_or (and_then (slice_document stdout) decode_split) (slice_error stdout) in
  if bounded_control_free pane_id MAX_OPAQUE_ID_BYTES then Done pane_id else Fail "invalid pane ID".
End documents.

(** ** The request *)

Record TeamRequest := MkTeamRequest {
  tr_caller_pane_id : string;
  tr_workspace_id : string;
  tr_cwd : PathBuf;
  tr_self_role : option RoleLabel;
  tr_roles : list RoleLabel;
}.

Definition invalid_request : string := "invalid bounded team request".

Definition role_byte (index : nat) (byte : Z) : bool :=
  is_ascii_lowercase byte
  || ((is_ascii_digit byte || (byte =? 95)%Z || (byte =? 45)%Z) && (0 <? index)%nat).

Definition parse_team_role (value : string) : Outcome string RoleLabel :=
  if negb ((1 <=? str_len value)%nat && (str_len value <=? 32)%nat
           && forallb (λ p, role_byte p.1 p.2) (imap pair (as_bytes value)))
  then Fail invalid_request
  else map_err invalid_request (RoleLabel_parse value).

Definition safe_cwd (path : PathBuf) : bool :=
  is_absolute path && negb (path_eqb path "/") && forallb no_dots (components path).

(** [roles.iter().any(|role| !unique.insert(..))] *)
Fixpoint any_repeated (unique : gset string) (roles : list RoleLabel) : bool :=
  match roles with
  | [] => false
  | role :: roles =>
      if bool_decide (role_str role ∈ unique) then true
      else any_repeated ({[ role_str role ]} ∪ unique) roles
  end.

(** [TeamRequest::new] *)
Definition TeamRequest_new (caller_pane_id workspace_id : string) (cwd : PathBuf)
    (self_role : option string) (roles : list string) : Outcome string TeamRequest :=
  let? _ := reject_if (negb (bounded_control_free caller_pane_id MAX_OPAQUE_ID_BYTES)
                       || negb (bounded_control_free workspace_id 256)
                       || negb (safe_cwd cwd)
                       || (length roles =? 0)%nat
                       || (MAX_TEAM_MEMBERS <? length roles)%nat) invalid_request in
  let? self_role :=
    match self_role with
    | Some role => let? role := parse_team_role role in Done (Some role)
    | None => Done None
    end in
  let? roles := try_map parse_team_role roles in
  let unique : gset string := match self_role with Some role => {[ role_str role ]} | None => ∅ end in
  let? _ := reject_if (any_repeated unique roles) invalid_request in
  Done (MkTeamRequest caller_pane_id workspace_id cwd self_role roles).

(** ** The members *)

Inductive TeamMemberState := Started | Registered | TimedOut | Failed.
#[global] Instance TeamMemberState_eq_dec : EqDecision TeamMemberState.
Proof. solve_decision. Defined.

Record TeamMemberResult := MkTeamMemberResult {
  tm_requested_role : RoleLabel;
  tm_pane_id : option string;
  tm_canonical_name : option AgentName;
  tm_state : TeamMemberState;
  tm_error_code : option string;
}.

Definition failed_member (role : RoleLabel) (pane_id : option string) (error_code : string)
    : TeamMemberResult :=
  MkTeamMemberResult role pane_id None Failed (Some error_code).

(** ** The orchestrator *)

Definition DEFAULT_REGISTRATION_TIMEOUT : Z := from_secs 30.
Definition AGENT_START_WINDOW : Z := from_secs 30.
Definition AGENT_START_COMMAND_TIMEOUT : Z := from_secs 15.
Definition AGENT_START_OBSERVE_DELAY : Z := from_millis 50.
Definition AGENT_START_BUSY_BACKOFF_MAX : Z := from_secs 1.
Definition HERDR_AGENT_START_MIN_TIMEOUT_MS : Z := 3001.
(** [Duration::MAX] *)
Definition DURATION_MAX : Z := u64_max * nanos_per_sec + 999999999.

(** What the orchestrator asks of the outside. *)
Inductive TeamCall :=
| Now
| Run (args : list string)
| RunWithTimeout (args : list string) (timeout : Z)
| Sleep (duration : Z)
| WaitForAgents (pane_ids : list string) (timeout : Z).

(** How a call goes: the time it takes, the answer of the command and whether its timeout
    came first, the answer of the waiter. *)
Record Event := MkEvent {
  ev_elapsed : N;
  ev_expired : bool;
  ev_output : Result string CommandOutput;
  ev_agents : Result string (list RegisteredTeamAgent);
}.

(** The calls made, with the instants, newest first. *)
Definition Trace : Type := list (Z * TeamCall).
Record TeamWorld := MkTeamWorld { tw_clock : Z; tw_trace : Trace }.

Definition Team (A : Type) : Type := TeamWorld → option (A * TeamWorld).
#[global] Instance team_ret : MRet Team := λ A a w, Some (a, w).
#[global] Instance team_bind : MBind Team := λ A B k m w,
  match m w with Some (a, w') => k a w' | None => None end.

Section orchestrator.
Context `{JsonNumber} {json : HerdrJson} (oracle : Trace → Event).

(** A sleep takes at least its duration, and a timeout that expires its own. *)
Definition call_time (c : TeamCall) (e : Event) : Z :=
  match c with
  | Sleep duration => duration + Z.of_N (ev_elapsed e)
  | RunWithTimeout _ timeout =>
      if ev_expired e then Z.max timeout (Z.of_N (ev_elapsed e)) else Z.of_N (ev_elapsed e)
  | _ => Z.of_N (ev_elapsed e)
  end.

Definition perform (c : TeamCall) : Team Event := λ w,
  let trace := (tw_clock w, c) :: tw_trace w in
  Some (oracle trace, MkTeamWorld (tw_clock w + call_time c (oracle trace)) trace).

(** [Instant::now] *)
Definition instant_now : Team Z := λ w,
  match perform Now w with Some (_, w') => Some (tw_clock w', w') | None => None end.

Definition run (args : list string) : Team (Result string CommandOutput) :=
  e ← perform (Run args); mret (ev_output e).

(** [HerdrCommandRunner::run_with_timeout] *)
Definition run_with_timeout (args : list string) (timeout : Z) : Team (Result string CommandOutput) :=
  e ← perform (RunWithTimeout args timeout);
  mret (if ev_expired e then Err "Herdr command deadline expired" else ev_output e).

Definition sleep (duration : Z) : Team () := _ ← perform (Sleep duration); mret tt.

Definition saturating_duration_since (a b : Z) : Z := Z.max 0 (a - b).

Definition run_before_deadline (args : list string) (deadline : Z) : Team (Result string CommandOutput) :=
  now ← instant_now;
  let remaining := saturating_duration_since deadline now in
  if (remaining =? 0)%Z then mret (Err "team agent-start deadline expired")
  else run_with_timeout args remaining.

(** [is_ok_and(|output| output.success && parse(..).unwrap_or(false))] *)
Definition output_shows (parse : Bytes → option bool) (answer : Result string CommandOutput) : bool :=
  match answer with
  | Ok output => out_success output && default false (parse (out_stdout output))
  | Err _ => false
  end.

(** The loop that asks until an answer shows what is waited for ([true]) or the deadline
    has come ([false]); the first and the third loop of [start_agent] are such loops. *)
Fixpoint poll (fuel : nat) (deadline : Z) (args : list string) (parse : Bytes → option bool) : Team bool :=
  match fuel with
  | O => λ _, None
  | S fuel =>
      now ← instant_now;
      if (deadline <=? now)%Z then mret false
      else
        answer ← run_before_deadline args deadline;
        if output_shows parse answer then mret true
        else _ ← sleep AGENT_START_OBSERVE_DELAY; poll fuel deadline args parse
  end.

Definition process_info_args (pane_id : string) : list string := ["pane"; "process-info"; "--pane"; pane_id].
Definition agent_get_args (pane_id : string) : list string := ["agent"; "get"; pane_id].

Definition await_shell (fuel : nat) (deadline : Z) (pane_id : string) : Team bool :=
  poll fuel deadline (process_info_args pane_id) (λ stdout, parse_ready_shell stdout pane_id).

Definition observe_start (fuel : nat) (deadline : Z) (pane_id : string) : Team bool :=
  poll fuel deadline (agent_get_args pane_id) (λ stdout, parse_started_pi stdout pane_id).

(** How the second loop ends: it returns, or it breaks. *)
Inductive StartTurn := StartReturned (started : bool) | StartUnclear.

Definition start_args (role : RoleLabel) (pane_id : string) (remaining_ms : Z) : list string :=
  ["agent"; "start"; role_str role; "--kind"; "pi"; "--pane"; pane_id; "--timeout"; u64_to_string remaining_ms].

(** The delay before the start is tried again. *)
Definition busy_delay (busy_attempt deadline now : Z) : Z :=
  Z.min (Z.min (Z.min DURATION_MAX (AGENT_START_OBSERVE_DELAY * Z.shiftl 1 (Z.min busy_attempt 4)))
           AGENT_START_BUSY_BACKOFF_MAX)
    (saturating_duration_since deadline now).

Fixpoint attempt_start (fuel : nat) (deadline : Z) (role : RoleLabel) (pane_id : string)
    (busy_attempt : Z) : Team StartTurn :=
  match fuel with
  | O => λ _, None
  | S fuel =>
      now ← instant_now;
      let start_timeout := Z.min (saturating_duration_since deadline now) AGENT_START_COMMAND_TIMEOUT in
      let remaining_ms := Z.min u64_max (start_timeout / 1000000) in
      if (remaining_ms <? HERDR_AGENT_START_MIN_TIMEOUT_MS)%Z then mret (StartReturned false)
      else
        answer ← run_with_timeout (start_args role pane_id remaining_ms) start_timeout;
        match answer with
        | Ok output =>
            if out_success output then mret (StartReturned true)
            else if parse_agent_pane_busy (out_stdout output) (out_stderr output) then
              now ← instant_now;
              let delay := busy_delay busy_attempt deadline now in
              if (delay =? 0)%Z then mret (StartReturned false)
              else
                _ ← sleep delay;
                attempt_start fuel deadline role pane_id (Z.min u32_max (busy_attempt + 1))
            else mret StartUnclear
        | Err _ => mret StartUnclear
        end
  end.

Definition start_agent (fuel : nat) (role : RoleLabel) (pane_id : string) : Team bool :=
  now ← instant_now;
  let deadline := (now + AGENT_START_WINDOW)%Z in
  ready ← await_shell fuel deadline pane_id;
  if negb ready then mret false
  else
    turn ← attempt_start fuel deadline role pane_id 0;
    match turn with
    | StartReturned started => mret started
    | StartUnclear => observe_start fuel deadline pane_id
    end.

(** [Ok(output) if output.success] *)
Definition succeeded (answer : Result string CommandOutput) : option CommandOutput :=
  match answer with Ok output => if out_success output then Some output else None | Err _ => None end.

Definition layout_args (request : TeamRequest) : list string :=
  ["pane"; "layout"; "--pane"; tr_caller_pane_id request].

Definition split_args (request : TeamRequest) (candidate : LayoutPane) : list string :=
  let direction := if (lp_height candidate <=? lp_width candidate)%Z then "right" else "down" in
  ["pane"; "split"; lp_pane_id candidate; "--direction"; direction; "--cwd"; tr_cwd request; "--no-focus"].

(** [create_member] from the pane that was split off. *)
Definition enter_pane (fuel : nat) (role : RoleLabel) (pane_id : string) : Team TeamMemberResult :=
  rename ← run ["pane"; "rename"; pane_id; role_str role];
  match succeeded rename with
  | None => mret (failed_member role (Some pane_id) "pane_rename_failed")
  | Some _ =>
      started ← start_agent fuel role pane_id;
      mret (if negb started then failed_member role (Some pane_id) "agent_start_failed"
            else MkTeamMemberResult role (Some pane_id) None Started None)
  end.

Definition create_member (fuel : nat) (request : TeamRequest) (role : RoleLabel)
    (created_pane_ids : gset string) : Team TeamMemberResult :=
  layout ← run (layout_args request);
  match succeeded layout with
  | None => mret (failed_member role None "pane_layout_failed")
  | Some layout =>
      match parse_split_candidate (out_stdout layout) (tr_workspace_id request) with
      | Done selection =>
          split ← run (split_args request (sel_candidate selection));
          match succeeded split with
          | None => mret (failed_member role None "pane_split_failed")
          | Some split =>
              match parse_split_pane_id (out_stdout split) with
              | Done pane_id =>
                  if String.eqb pane_id (tr_caller_pane_id request)
                     || bool_decide (pane_id ∈ sel_pane_ids selection)
                     || bool_decide (pane_id ∈ created_pane_ids)
                  then mret (failed_member role None "pane_split_not_new")
                  else enter_pane fuel role pane_id
              | _ => mret (failed_member role None "pane_split_invalid")
              end
          end
      | _ => mret (failed_member role None "pane_layout_invalid")
      end
  end.

Definition not_attempted (role : RoleLabel) : TeamMemberResult :=
  failed_member role None "not_attempted_after_failure".

(** The loop of [create_team] over the roles. *)
Fixpoint create_members (fuel : nat) (request : TeamRequest) (created_pane_ids : gset string)
    (roles : list RoleLabel) : Team (list TeamMemberResult) :=
  match roles with
  | [] => mret []
  | role :: roles =>
      member ← create_member fuel request role created_pane_ids;
      let created_pane_ids :=
        match tm_pane_id member with
        | Some pane_id => {[ pane_id ]} ∪ created_pane_ids
        | None => created_pane_ids
        end in
      if bool_decide (tm_state member = Failed) then mret (member :: (not_attempted <$> roles))
      else members ← create_members fuel request created_pane_ids roles; mret (member :: members)
  end.

Definition is_started (member : TeamMemberResult) : bool := bool_decide (tm_state member = Started).

(** The panes that are waited for. *)
Definition started_panes (members : list TeamMemberResult) : list string :=
  omap tm_pane_id (filter (λ member, is_started member) members).

(** What becomes of a member when the waiter answered with [by_pane]. *)
Definition registered_member (by_pane : gmap string AgentName) (member : TeamMemberResult) : TeamMemberResult :=
  if is_started member then
    match and_then (tm_pane_id member) (λ pane_id, by_pane !! pane_id) with
    | Some canonical_name =>
        MkTeamMemberResult (tm_requested_role member) (tm_pane_id member) (Some canonical_name) Registered
          (tm_error_code member)
    | None =>
        MkTeamMemberResult (tm_requested_role member) (tm_pane_id member) (tm_canonical_name member) TimedOut
          (Some "registration_timed_out")
    end
  else member.

Definition unregistered_member (member : TeamMemberResult) : TeamMemberResult :=
  if is_started member then
    MkTeamMemberResult (tm_requested_role member) (tm_pane_id member) (tm_canonical_name member) Failed
      (Some "registration_wait_failed")
  else member.

(** [collect::<HashMap<_, _>>]: a later agent of the same pane replaces an earlier one. *)
Definition agents_by_pane (registered : list RegisteredTeamAgent) : gmap string AgentName :=
  list_to_map (reverse ((λ agent, (rt_pane_id agent, rt_canonical_name agent)) <$> registered)).

Definition settle_members (members : list TeamMemberResult) : Team (list TeamMemberResult) :=
  match started_panes members with
  | [] => mret members
  | pane_ids =>
      e ← perform (WaitForAgents pane_ids DEFAULT_REGISTRATION_TIMEOUT);
      mret match ev_agents e with
           | Ok registered => registered_member (agents_by_pane registered) <$> members
           | Err _ => unregistered_member <$> members
           end
  end.

(** [TeamOrchestrator::create_team]; a [TeamResult] is its members. *)
Definition create_team (fuel : nat) (request : TeamRequest) : Team (list TeamMemberResult) :=
  let create := members ← create_members fuel request ∅ (tr_roles request); settle_members members in
  match tr_self_role request with
  | Some self_role =>
      rename ← run ["agent"; "rename"; tr_caller_pane_id request; role_str self_role];
      match succeeded rename with
      | Some _ => create
      | None =>
          mret ((λ role, failed_member role None "not_attempted_after_self_rename_failure")
                <$> tr_roles request)
      end
  | None => create
  end.
End orchestrator.

(** ** The method of a session *)

Section method.
Context `{JsonNumber} {json : HerdrJson} {method_lib : MethodLib} (oracle : Trace → Event).

Definition state_text (state : TeamMemberState) : string :=
  match state with
  | Started => "started"
  | Registered => "registered"
  | TimedOut => "timed_out"
  | Failed => "failed"
  end.

Definition optional_text (text : option string) : Value :=
  match text with Some text => VString text | None => VNull end.

(** [TeamMemberResult] and [TeamResult] as they are sent. *)
Definition member_value (member : TeamMemberResult) : Value :=
  VObject [("requested_role", VString (role_str (tm_requested_role member)));
           ("pane_id", optional_text (tm_pane_id member));
           ("canonical_name", optional_text (agent_str <$> tm_canonical_name member));
           ("state", VString (state_text (tm_state member)));
           ("error_code", optional_text (tm_error_code member))].

Definition team_value (members : list TeamMemberResult) : Value :=
  VObject [("members", VArray (member_value <$> members))].

(** [CreateTeamParams]: the roles and the role of the caller. *)
Definition team_params_of_value (params : Value) : option (list string * option string) :=
  known_fields ["roles"; "self_role"]
    (λ params,
      match params with
      | VObject map =>
          match document_field "roles" (decode_vec as_str) None map,
                document_field "self_role" optional_string (Some None) map with
          | Some roles, Some self_role => Some (roles, self_role)
          | _, _ => None
          end
      | VArray [roles; self_role] =>
          match decode_vec as_str roles, optional_string self_role with
          | Some roles, Some self_role => Some (roles, self_role)
          | _, _ => None
          end
      | _ => None
      end) params.

(** [create_team] of a session; [herdr] is the executable of [HERDR_BIN_PATH] as it was
    found or the error. *)
Definition session_create_team (caller_pane_id workspace_id : string) (cwd : PathBuf)
    (herdr : Result string PathBuf) (fuel : nat) (params : Value) : Team (Outcome RequestFailure Value) :=
  match team_params_of_value params with
  | None => mret (invalid "CreateTeamParams" params)
  | Some (roles, self_role) =>
      match TeamRequest_new caller_pane_id workspace_id cwd self_role roles, herdr with
      | Fail error, _ => mret (Fail (OtherFailed error))
      | Panic msg, _ => mret (Panic msg)
      | Done _, Err error => mret (Fail (OtherFailed error))
      | Done request, Ok _ =>
          members ← create_team oracle fuel request; mret (Done (team_value members))
      end
  end.
End method.
