(* ===== verification/TeamTheorems.v ===== *)
(** * Theorems about verified panes and teams

    A small total-correctness logic for the orchestrator of [Team]: [ends] says that a
    computation ends in a state with a property, [Steps] collects the calls it made.  With
    it: [start_agent] ends and keeps its deadline, a team is made of new panes only, and
    every requested role is reported. *)
From stdpp Require Import prelude gmap strings sorting.
From S2P Require Import Prelude RustStd Model Validation Sqlite Identity LedgerCodec Ledger A2aFront CliText Generation Api Health Recovery SessionFrames SessionLoop TaskAttempts SessionWire SessionMethods Team.

(** ** Reasoning about the orchestrator *)

(** Total correctness: [m] ends and its result satisfies [Q]. *)
Definition ends {A} (m : Team A) (Q : A → TeamWorld → Prop) (w : TeamWorld) : Prop :=
  ∃ a w', m w = Some (a, w') ∧ Q a w'.

Lemma team_ends_ret {A} (a : A) Q w : Q a w → ends (mret a) Q w.
Proof. intros HQ. by exists a, w. Qed.

Lemma team_ends_bind {A B} (m : Team A) (k : A → Team B) Q w :
  ends m (λ a, ends (k a) Q) w → ends (m ≫= k) Q w.
Proof.
  intros (a & w1 & Hm & b & w2 & Hk & HQ). exists b, w2. split; [|done].
  unfold mbind, team_bind. by rewrite Hm.
Qed.

Lemma team_ends_mono {A} (m : Team A) (P Q : A → TeamWorld → Prop) w :
  ends m P w → (∀ a w', P a w' → Q a w') → ends m Q w.
Proof. intros (a & w' & Hm & HP) HPQ. exists a, w'. auto. Qed.

(** From [w] to [w'] time does not go back and the calls made satisfy [P]. *)
Record Steps (P : Z * TeamCall → Prop) (w w' : TeamWorld) : Prop := MkSteps {
  steps_clock : (tw_clock w ≤ tw_clock w')%Z;
  steps_trace : ∃ new, tw_trace w' = new ++ tw_trace w ∧ Forall P new;
}.

#[global] Instance steps_preorder P : PreOrder (Steps P).
Proof.
  split.
  - intros w. split; [done|]. by exists [].
  - intros w1 w2 w3 [C1 (n1 & E1 & F1)] [C2 (n2 & E2 & F2)]. split; [lia|].
    exists (n2 ++ n1). rewrite E2, E1, app_assoc. by rewrite Forall_app.
Qed.

Lemma steps_weaken (P Q : Z * TeamCall → Prop) w w' :
  (∀ entry, P entry → Q entry) → Steps P w w' → Steps Q w w'.
Proof.
  intros HPQ [C (new & E & F)]. split; [done|]. exists new. split; [done|].
  by eapply Forall_impl.
Qed.

Lemma team_steps_suffix P w w' : Steps P w w' → tw_trace w `suffix_of` tw_trace w'.
Proof. intros [_ (new & E & _)]. by exists new. Qed.

Section calls.
Context `{JsonNumber} {json : HerdrJson} (oracle : Trace → Event).
Context (P : Z * TeamCall → Prop).

(** [args] is the last command, it answered [output] within its timeout. *)
Definition answered (args : list string) (output : CommandOutput) (trace : Trace) : Prop :=
  ∃ t timeout before, trace = (t, RunWithTimeout args timeout) :: before
    ∧ ev_expired (oracle trace) = false ∧ ev_output (oracle trace) = Ok output.

Lemma perform_ends c Q w :
  (0 ≤ call_time c (oracle ((tw_clock w, c) :: tw_trace w)))%Z → P (tw_clock w, c) →
  (∀ w', Steps P w w' → tw_trace w' = (tw_clock w, c) :: tw_trace w →
    tw_clock w' = (tw_clock w + call_time c (oracle (tw_trace w')))%Z → Q (oracle (tw_trace w')) w') →
  ends (perform oracle c) Q w.
Proof.
  intros Ht HP HQ. eexists _, _. split; [done|].
  apply (HQ (MkTeamWorld _ _)); [|done..]. split; simpl; [lia|]. exists [(tw_clock w, c)]. auto.
Qed.

Lemma team_now_ends Q w :
  P (tw_clock w, Now) → (∀ w', Steps P w w' → Q (tw_clock w') w') → ends (instant_now oracle) Q w.
Proof.
  intros HP HQ. destruct (perform_ends Now (λ _ w', Q (tw_clock w') w') w) as (e & w' & Hw' & HQ').
  - simpl. lia.
  - done.
  - auto.
  - exists (tw_clock w'), w'. unfold instant_now. by rewrite Hw'.
Qed.

Lemma run_ends args Q w :
  P (tw_clock w, Run args) →
  (∀ w', Steps P w w' → tw_trace w' = (tw_clock w, Run args) :: tw_trace w →
    Q (ev_output (oracle (tw_trace w'))) w') →
  ends (run oracle args) Q w.
Proof. intros HP HQ. apply team_ends_bind, perform_ends; [simpl; lia|done|]. intros. apply team_ends_ret. auto. Qed.

Lemma run_with_timeout_ends args timeout Q w :
  P (tw_clock w, RunWithTimeout args timeout) →
  (∀ answer w', Steps P w w' → (∀ output, answer = Ok output → answered args output (tw_trace w')) →
    Q answer w') →
  ends (run_with_timeout oracle args timeout) Q w.
Proof.
  intros HP HQ. apply team_ends_bind, perform_ends; [simpl; case_match; lia|done|].
  intros w' Hs Htr _. apply team_ends_ret, HQ; [done|]. intros output.
  destruct (ev_expired _) eqn:Hexp; [done|]. intros Hout. by exists (tw_clock w), timeout, (tw_trace w).
Qed.

Lemma sleep_ends duration Q w :
  (0 ≤ duration)%Z → P (tw_clock w, Sleep duration) →
  (∀ w', Steps P w w' → (tw_clock w + duration ≤ tw_clock w')%Z → Q tt w') →
  ends (sleep oracle duration) Q w.
Proof.
  intros Hd HP HQ. apply team_ends_bind, perform_ends; [simpl; lia|done|].
  intros w' Hs _ Hc. apply team_ends_ret, HQ; [done|]. simpl in Hc. lia.
Qed.

Lemma run_before_deadline_ends args deadline Q w :
  (∀ t, P (t, Now)) →
  (∀ t timeout, (0 < timeout)%Z → (t + timeout ≤ deadline)%Z → P (t, RunWithTimeout args timeout)) →
  (∀ answer w', Steps P w w' → (∀ output, answer = Ok output → answered args output (tw_trace w')) →
    Q answer w') →
  ends (run_before_deadline oracle args deadline) Q w.
Proof.
  intros Hnow Hrun HQ. apply team_ends_bind, team_now_ends; [done|]. intros w1 H1. cbv zeta.
  unfold saturating_duration_since. destruct (Z.eqb_spec (Z.max 0 (deadline - tw_clock w1)) 0).
  - apply team_ends_ret, HQ; [done|]. by intros ? [=].
  - apply run_with_timeout_ends; [apply Hrun; lia|]. intros answer w2 H2. apply HQ. by etrans.
Qed.
End calls.

(** ** Starting an agent *)

(** Turns of the loops of [start_agent] that are enough: each sleeps for 50 ms of the 30 s,
    or to the deadline. *)
Definition START_FUEL : nat := 601.

(** The calls of [start_agent]: every command is cut off at the deadline, and a start is
    asked to end at least as early. *)
Definition start_call (deadline : Z) (role : RoleLabel) (pane_id : string) (entry : Z * TeamCall) : Prop :=
  match entry.2 with
  | Now => True
  | Sleep duration => (0 < duration)%Z
  | RunWithTimeout args timeout =>
      (0 < timeout)%Z ∧ (entry.1 + timeout ≤ deadline)%Z
      ∧ (args = process_info_args pane_id ∨ args = agent_get_args pane_id
         ∨ ∃ ms, args = start_args role pane_id ms ∧ (3001 ≤ ms ≤ 15000)%Z
             ∧ (from_millis ms ≤ timeout)%Z)
  | Run _ | WaitForAgents _ _ => False
  end.

Section starting.
Context `{JsonNumber} {json : HerdrJson} (oracle : Trace → Event).

(** The last command showed the shell of the pane ready, or [pi] running in it. *)
Definition shell_ready (pane_id : string) (trace : Trace) : Prop :=
  ∃ output, answered oracle (process_info_args pane_id) output trace ∧ out_success output = true
    ∧ parse_ready_shell (out_stdout output) pane_id = Some true.

Definition agent_running (role : RoleLabel) (pane_id : string) (trace : Trace) : Prop :=
  (∃ ms output, answered oracle (start_args role pane_id ms) output trace ∧ out_success output = true)
  ∨ ∃ output, answered oracle (agent_get_args pane_id) output trace ∧ out_success output = true
      ∧ parse_started_pi (out_stdout output) pane_id = Some true.

(** First the shell was ready, then the agent ran. *)
Definition agent_started (role : RoleLabel) (pane_id : string) (trace : Trace) : Prop :=
  agent_running role pane_id trace ∧ ∃ before, before `suffix_of` trace ∧ shell_ready pane_id before.

Lemma output_shows_true parse answer :
  output_shows parse answer = true →
  ∃ output, answer = Ok output ∧ out_success output = true ∧ parse (out_stdout output) = Some true.
Proof.
  destruct answer as [output|]; [|done]. simpl. intros [Hs Hp]%andb_true_iff. exists output.
  split_and!; [done..|]. by destruct (parse _) as [[]|].
Qed.

Context (deadline : Z) (role : RoleLabel) (pane_id : string).
Local Abbreviation allowed := (start_call deadline role pane_id).

Lemma poll_ends fuel args parse w :
  (∀ t timeout, (0 < timeout)%Z → (t + timeout ≤ deadline)%Z → allowed (t, RunWithTimeout args timeout)) →
  (deadline - tw_clock w ≤ Z.of_nat fuel * AGENT_START_OBSERVE_DELAY)%Z →
  ends (poll oracle (S fuel) deadline args parse)
    (λ shown w', Steps allowed w w' ∧ (shown = true →
      ∃ output, answered oracle args output (tw_trace w') ∧ out_success output = true
        ∧ parse (out_stdout output) = Some true)) w.
Proof.
  intros Hargs. revert w. induction fuel as [|fuel IH]; intros w Hfuel.
  all: apply team_ends_bind, (team_now_ends _ allowed); [done|]; intros w1 S1.
  all: pose proof (steps_clock _ _ _ S1); destruct (Z.leb_spec deadline (tw_clock w1)); [by apply team_ends_ret|].
  { lia. }
  apply team_ends_bind, (run_before_deadline_ends _ allowed); [done..|].
  intros answer w2 S2 Hans. pose proof (steps_clock _ _ _ S2). case_match eqn:Hshow.
  - apply team_ends_ret. split; [by etrans|]. intros _.
    apply output_shows_true in Hshow as (output & -> & Hs & Hp). exists output. auto.
  - apply team_ends_bind, (sleep_ends _ allowed); [done..|]. intros w3 S3 Hc.
    eapply team_ends_mono; [apply IH; lia|]. intros ready w4 [S4 Hready]. split; [|done].
    etrans; [exact S1|]. etrans; [exact S2|]. by etrans.
Qed.

Lemma busy_delay_cases busy now :
  (0 ≤ busy)%Z → busy_delay busy deadline now ≠ 0%Z →
  (0 < busy_delay busy deadline now)%Z
  ∧ ((AGENT_START_OBSERVE_DELAY ≤ busy_delay busy deadline now)%Z
     ∨ (deadline ≤ now + busy_delay busy deadline now)%Z).
Proof.
  intros Hb. unfold busy_delay, saturating_duration_since.
  assert (1 ≤ Z.shiftl 1 (Z.min busy 4))%Z as Hs.
  { rewrite Z.shiftl_mul_pow2 by lia. pose proof (Z.pow_pos_nonneg 2 (Z.min busy 4)). lia. }
  revert Hs. generalize (Z.shiftl 1 (Z.min busy 4)). intros m Hm.
  change AGENT_START_OBSERVE_DELAY with 50000000%Z. change AGENT_START_BUSY_BACKOFF_MAX with 1000000000%Z.
  assert (1000000000 ≤ DURATION_MAX)%Z by done. lia.
Qed.

Lemma start_timeout_bounds left :
  let timeout := Z.min (Z.max 0 left) AGENT_START_COMMAND_TIMEOUT in
  let ms := Z.min u64_max (timeout / 1000000) in
  (HERDR_AGENT_START_MIN_TIMEOUT_MS ≤ ms)%Z →
  (0 < timeout ≤ left)%Z ∧ (3001 ≤ ms ≤ 15000)%Z ∧ (from_millis ms ≤ timeout)%Z.
Proof.
  cbv zeta. change AGENT_START_COMMAND_TIMEOUT with 15000000000%Z.
  unfold HERDR_AGENT_START_MIN_TIMEOUT_MS, from_millis, u64_max.
  set (timeout := Z.min (Z.max 0 left) 15000000000). intros Hms.
  assert (timeout / 1000000 ≤ 15000)%Z by (apply Z.div_le_upper_bound; lia).
  pose proof (Z.mul_div_le timeout 1000000). lia.
Qed.

Lemma attempt_start_ends fuel busy w :
  (0 ≤ busy)%Z → (deadline - tw_clock w ≤ Z.of_nat fuel * AGENT_START_OBSERVE_DELAY)%Z →
  ends (attempt_start oracle (S fuel) deadline role pane_id busy)
    (λ turn w', Steps allowed w w' ∧
      (turn = StartReturned true → agent_running role pane_id (tw_trace w'))) w.
Proof.
  revert busy w. induction fuel as [|fuel IH]; intros busy w Hbusy Hfuel.
  all: apply team_ends_bind, (team_now_ends _ allowed); [done|]; intros w1 S1; pose proof (steps_clock _ _ _ S1).
  all: cbv zeta; unfold saturating_duration_since; case_match eqn:Hms; [by apply team_ends_ret|].
  all: apply Z.ltb_ge, start_timeout_bounds in Hms as ([Hpos Hleft] & Hms & Hsame).
  { simpl in Hfuel. lia. }
  apply team_ends_bind, (run_with_timeout_ends _ allowed).
  { split_and!; [done|apply Z.le_add_le_sub_l, Hleft|]. right; right. eauto. }
  intros answer w2 S2 Hans. pose proof (steps_clock _ _ _ S2).
  assert (Steps allowed w w2) by (by etrans).
  destruct answer as [output|]; [|by apply team_ends_ret]. destruct (out_success output) eqn:Hs.
  { apply team_ends_ret. split; [done|]. intros _. left. eauto. }
  case_match; [|by apply team_ends_ret]. apply team_ends_bind, (team_now_ends _ allowed); [done|]. intros w3 S3.
  pose proof (steps_clock _ _ _ S3). destruct (Z.eqb_spec (busy_delay busy deadline (tw_clock w3)) 0) as [|Hd].
  { apply team_ends_ret. split; [by etrans|done]. }
  apply busy_delay_cases in Hd as [Hd Hcases]; [|done].
  apply team_ends_bind, (sleep_ends _ allowed); [lia|done|]. intros w4 S4 Hc.
  eapply team_ends_mono; [apply IH|].
  - unfold u32_max. lia.
  - assert (0 < AGENT_START_OBSERVE_DELAY)%Z by done. nia.
  - intros turn w5 [S5 Hturn]. split; [|done]. etrans; [eassumption|]. etrans; [exact S3|]. by etrans.
Qed.
End starting.

Section agent.
Context `{JsonNumber} {json : HerdrJson} (oracle : Trace → Event).

(** [start_agent] ends; from its first look at the clock the calls are those of
    [start_call]. *)
Lemma start_agent_ends role pane_id w :
  ends (start_agent oracle START_FUEL role pane_id)
    (λ started w', ∃ w1, instant_now oracle w = Some (tw_clock w1, w1)
       ∧ tw_trace w1 = (tw_clock w, Now) :: tw_trace w ∧ (tw_clock w ≤ tw_clock w1)%Z
       ∧ Steps (start_call (tw_clock w1 + AGENT_START_WINDOW) role pane_id) w1 w'
       ∧ (started = true → agent_started oracle role pane_id (tw_trace w'))) w.
Proof.
  apply team_ends_bind. eexists _, _. split; [done|]. set (w1 := MkTeamWorld _ _). cbv zeta.
  assert (∀ w', Steps (start_call (tw_clock w1 + AGENT_START_WINDOW) role pane_id) w1 w' →
    (tw_clock w1 + AGENT_START_WINDOW - tw_clock w' ≤ Z.of_nat 600 * AGENT_START_OBSERVE_DELAY)%Z) as Hfuel.
  { intros w' [Hc _]. change (Z.of_nat 600 * AGENT_START_OBSERVE_DELAY)%Z with AGENT_START_WINDOW. lia. }
  apply team_ends_bind. eapply team_ends_mono.
  { apply (poll_ends _ (tw_clock w1 + AGENT_START_WINDOW) role pane_id); [|by apply Hfuel].
    intros. split_and!; [done..|by left]. }
  intros ready w2 [S2 Hready].
  assert (instant_now oracle w = Some (tw_clock w1, w1) ∧ tw_trace w1 = (tw_clock w, Now) :: tw_trace w
    ∧ (tw_clock w ≤ tw_clock w1)%Z) as (Hnow & Htr & Hc) by (split_and!; [done..|simpl; lia]).
  destruct ready; [|by apply team_ends_ret; exists w1]. cbn [negb].
  apply team_ends_bind. eapply team_ends_mono; [apply attempt_start_ends; [done|by apply Hfuel]|].
  intros turn w3 [S3 Hturn]. assert (shell_ready oracle pane_id (tw_trace w2)) as Hshell by (by apply Hready).
  pose proof (team_steps_suffix _ _ _ S3). destruct turn as [started|].
  - apply team_ends_ret. exists w1. split_and!; [done..|by etrans|]. intros ->. split; [auto|]. eauto.
  - eapply team_ends_mono.
    { apply (poll_ends _ (tw_clock w1 + AGENT_START_WINDOW) role pane_id); [|apply Hfuel; by etrans].
      intros. split_and!; [done..|by right; left]. }
    intros started w4 [S4 Hstarted]. exists w1. split_and!; [done..|etrans; [exact S2|by etrans]|].
    intros Hs. split; [right; by apply Hstarted|]. exists (tw_trace w2). split; [|done].
    etrans; [done|]. by eapply team_steps_suffix.
Qed.
End agent.

(** ** Creating a member *)

(** The calls of [create_team]: the commands read the layout, split its panes, and name and
    start agents in [panes]; the caller's own pane is only given its role. *)
Definition team_call (request : TeamRequest) (panes : list string) (entry : Z * TeamCall) : Prop :=
  match entry.2 with
  | Now | Sleep _ | WaitForAgents _ _ => True
  | Run args =>
      args = layout_args request
      ∨ (∃ pane, args = split_args request pane)
      ∨ (∃ pane_id role, pane_id ∈ panes ∧ role ∈ tr_roles request ∧ args = ["pane"; "rename"; pane_id; role_str role])
      ∨ (∃ role, tr_self_role request = Some role
           ∧ args = ["agent"; "rename"; tr_caller_pane_id request; role_str role])
  | RunWithTimeout args _ =>
      ∃ pane_id, pane_id ∈ panes
        ∧ (args = process_info_args pane_id ∨ args = agent_get_args pane_id
           ∨ ∃ role ms, role ∈ tr_roles request ∧ args = start_args role pane_id ms)
  end.

Lemma team_call_weaken request panes panes' entry :
  panes ⊆ panes' → team_call request panes entry → team_call request panes' entry.
Proof. intros Hsub. unfold team_call. destruct (entry.2); naive_solver. Qed.

Lemma start_call_team deadline request role pane_id entry :
  role ∈ tr_roles request → start_call deadline role pane_id entry → team_call request [pane_id] entry.
Proof.
  intros Hrole. unfold start_call, team_call. destruct (entry.2); try done.
  intros (_ & _ & Hargs). exists pane_id. split; [set_solver|]. naive_solver.
Qed.

Section members.
Context `{JsonNumber} {json : HerdrJson} (oracle : Trace → Event) (request : TeamRequest).

(** [pane_id] came out of a split of a pane of the layout that was read just before, and
    it was not in that layout. *)
Definition split_off (pane_id : string) (trace : Trace) : Prop :=
  ∃ t1 t2 before layout split selection,
    let layout_read := (t1, Run (layout_args request)) :: before in
    let split_made := (t2, Run (split_args request (sel_candidate selection))) :: layout_read in
    split_made `suffix_of` trace
    ∧ succeeded (ev_output (oracle layout_read)) = Some layout
    ∧ parse_split_candidate (out_stdout layout) (tr_workspace_id request) = Done selection
    ∧ succeeded (ev_output (oracle split_made)) = Some split
    ∧ parse_split_pane_id (out_stdout split) = Done pane_id
    ∧ pane_id ∉ sel_pane_ids selection.

Definition was_started (role : RoleLabel) (pane_id : string) (trace : Trace) : Prop :=
  ∃ before, before `suffix_of` trace ∧ agent_started oracle role pane_id before.

Lemma split_off_suffix pane_id trace trace' :
  trace `suffix_of` trace' → split_off pane_id trace → split_off pane_id trace'.
Proof.
  intros Hs (t1 & t2 & before & layout & split & selection & Hsuf & Hrest).
  exists t1, t2, before, layout, split, selection. split; [by etrans|done].
Qed.

Lemma was_started_suffix role pane_id trace trace' :
  trace `suffix_of` trace' → was_started role pane_id trace → was_started role pane_id trace'.
Proof. intros Hs (before & Hsuf & Hb). exists before. split; [by etrans|done]. Qed.

(** A member as [create_member] leaves it. *)
Record MemberMade (role : RoleLabel) (created : gset string) (member : TeamMemberResult) (trace : Trace)
    : Prop := MkMemberMade {
  made_role : tm_requested_role member = role;
  made_name : tm_canonical_name member = None;
  made_pane : ∀ pane_id, tm_pane_id member = Some pane_id →
    pane_id ≠ tr_caller_pane_id request ∧ (pane_id ∉ created) ∧ split_off pane_id trace;
  made_state :
    (tm_state member = Started ∧ tm_error_code member = None
      ∧ ∃ pane_id, tm_pane_id member = Some pane_id ∧ was_started role pane_id trace)
    ∨ (tm_state member = Failed ∧ ∃ code, tm_error_code member = Some code ∧ code ≠ "registration_wait_failed");
}.

Lemma failed_made role created pane_id code trace :
  code ≠ "registration_wait_failed" →
  (∀ p, pane_id = Some p → p ≠ tr_caller_pane_id request ∧ (p ∉ created) ∧ split_off p trace) →
  MemberMade role created (failed_member role pane_id code) trace.
Proof. intros Hcode Hpane. split; [done..|]. right. split; [done|]. by exists code. Qed.

Lemma enter_pane_ends role created pane_id w :
  role ∈ tr_roles request → pane_id ≠ tr_caller_pane_id request → pane_id ∉ created →
  split_off pane_id (tw_trace w) →
  ends (enter_pane oracle START_FUEL role pane_id)
    (λ member w', Steps (team_call request [pane_id]) w w' ∧ tm_pane_id member = Some pane_id
       ∧ MemberMade role created member (tw_trace w')) w.
Proof.
  intros Hrole Hcaller Hnew Hsplit.
  assert (∀ w', Steps (team_call request [pane_id]) w w' → ∀ p, Some pane_id = Some p →
    p ≠ tr_caller_pane_id request ∧ (p ∉ created) ∧ split_off p (tw_trace w')) as Hpane.
  { intros w' Hs p [= <-]. split_and!; [done..|]. eapply split_off_suffix; [by eapply team_steps_suffix|done]. }
  apply team_ends_bind, (run_ends _ (team_call request [pane_id])).
  { right; right; left. exists pane_id, role. split_and!; [set_solver|done..]. }
  intros w1 S1 _. destruct (succeeded _); [|apply team_ends_ret; split_and!; [done..|]; apply failed_made; auto].
  apply team_ends_bind. eapply team_ends_mono; [apply start_agent_ends|].
  intros started w2 (w1' & _ & Htr & Hc & S2 & Hstarted). apply team_ends_ret.
  assert (Steps (team_call request [pane_id]) w w2) as S12.
  { etrans; [exact S1|]. etrans; [|eapply steps_weaken; [intros entry; by apply start_call_team|exact S2]].
    split; [done|]. exists [(tw_clock w1, Now)]. rewrite Htr. split; [done|]. by repeat constructor. }
  destruct started; simpl.
  - split_and!; [done..|]. split; [done|done|auto|]. left. split_and!; [done..|]. exists pane_id.
    split; [done|]. exists (tw_trace w2). auto.
  - split_and!; [done..|]. apply failed_made; auto.
Qed.

Lemma create_member_ends role created w :
  role ∈ tr_roles request →
  ends (create_member oracle START_FUEL request role created)
    (λ member w', Steps (team_call request (option_list (tm_pane_id member))) w w'
       ∧ MemberMade role created member (tw_trace w')) w.
Proof.
  intros Hrole.
  assert (∀ code w', code ≠ "registration_wait_failed" → Steps (team_call request []) w w' →
    ends (mret (failed_member role None code))
      (λ member w', Steps (team_call request (option_list (tm_pane_id member))) w w'
         ∧ MemberMade role created member (tw_trace w')) w') as Hfail.
  { intros code w' Hcode Hs. apply team_ends_ret. split; [done|]. by apply failed_made. }
  apply team_ends_bind, (run_ends _ (team_call request [])); [by left|]. intros w1 S1 T1.
  destruct (succeeded _) as [layout|] eqn:Hlayout; [|by apply Hfail].
  destruct (parse_split_candidate _ _) as [selection| |] eqn:Hsel; [|by apply Hfail..].
  apply team_ends_bind, (run_ends _ (team_call request [])); [right; left; by eexists|]. intros w2 S2 T2.
  assert (Steps (team_call request []) w w2) as S12 by (by etrans).
  destruct (succeeded (ev_output (oracle (tw_trace w2)))) as [split|] eqn:Hsplit; [|by apply Hfail].
  destruct (parse_split_pane_id _) as [pane_id| |] eqn:Hid; [|by apply Hfail..].
  case_match eqn:Hnew; [by apply Hfail|].
  apply orb_false_iff in Hnew as [[Hcaller%String.eqb_neq Hsel'%bool_decide_eq_false]%orb_false_iff
    Hcreated%bool_decide_eq_false].
  eapply team_ends_mono; [apply (enter_pane_ends role created); try done|].
  - rewrite T1 in Hlayout, T2. rewrite T2 in Hsplit. rewrite T2. red.
    by exists (tw_clock w), (tw_clock w1), (tw_trace w), layout, split, selection.
  - intros member w3 (S3 & Hp & Hmade). split; [|done]. rewrite Hp.
    etrans; [|exact S3]. eapply steps_weaken; [|exact S12]. intros entry. apply team_call_weaken. set_solver.
Qed.
Lemma made_mono role created created' member trace trace' :
  created' ⊆ created → trace `suffix_of` trace' →
  MemberMade role created member trace → MemberMade role created' member trace'.
Proof.
  intros Hc Hs [Hrole Hname Hpane Hstate]. split; [done..| |].
  - intros p (Hcaller & Hnew & Hsplit)%Hpane. split_and!; [done|set_solver|by eapply split_off_suffix].
  - destruct Hstate as [(Hst & Herr & p & Hp & Hstarted)|Hfailed]; [left|by right].
    split_and!; [done..|]. exists p. split; [done|by eapply was_started_suffix].
Qed.

(** ** Creating the team *)

(** A member that follows one that could not be created was not attempted. *)
Definition stops_after (member later : TeamMemberResult) : Prop :=
  tm_state member = Failed → later = not_attempted (tm_requested_role later).

(** The members that the loop leaves. *)
Record MembersMade (created : gset string) (roles : list RoleLabel) (members : list TeamMemberResult)
    (trace : Trace) : Prop := MkMembersMade {
  all_roles : tm_requested_role <$> members = roles;
  all_made : Forall (λ member, MemberMade (tm_requested_role member) created member trace) members;
  all_distinct : NoDup (omap tm_pane_id members);
  all_stop : StronglySorted stops_after members;
}.

Lemma not_attempted_no_panes roles : omap tm_pane_id (not_attempted <$> roles) = [].
Proof. by induction roles. Qed.

Lemma made_panes created members trace pane_id :
  Forall (λ member, MemberMade (tm_requested_role member) created member trace) members →
  pane_id ∈ omap tm_pane_id members →
  pane_id ≠ tr_caller_pane_id request ∧ (pane_id ∉ created) ∧ split_off pane_id trace.
Proof.
  rewrite Forall_forall. intros Hmade (member & Hin & Hp)%list_elem_of_omap. by eapply made_pane; [apply Hmade|].
Qed.

(** The member that fails is the last that is attempted. *)
Lemma members_made_stop role created roles member trace :
  MemberMade role created member trace → tm_state member = Failed →
  MembersMade created (role :: roles) (member :: (not_attempted <$> roles)) trace.
Proof.
  intros Hmade Hfailed. pose proof (made_role _ _ _ _ Hmade) as Hr. split.
  - csimpl. rewrite Hr. f_equal. rewrite <-list_fmap_compose. apply list_fmap_id.
  - constructor; [by rewrite Hr|]. apply Forall_fmap, Forall_true. intros r. by apply failed_made.
  - csimpl. rewrite not_attempted_no_panes. destruct (tm_pane_id member); repeat constructor. set_solver.
  - constructor.
    + induction roles as [|r roles IH]; constructor; [done|]. by apply Forall_fmap, Forall_true.
    + by apply Forall_fmap, Forall_true.
Qed.

Lemma members_made_cons role created roles member members trace trace' :
  MemberMade role created member trace → tm_state member ≠ Failed → trace `suffix_of` trace' →
  MembersMade (match tm_pane_id member with Some p => {[ p ]} ∪ created | None => created end)
    roles members trace' →
  MembersMade created (role :: roles) (member :: members) trace'.
Proof.
  intros Hmade Hok Hs [Hroles Hall Hnd Hstop]. pose proof (made_role _ _ _ _ Hmade) as Hr. split.
  - csimpl. by rewrite Hr, Hroles.
  - constructor; [rewrite Hr; by eapply made_mono|]. eapply Forall_impl; [exact Hall|].
    intros m. apply made_mono; [|done]. destruct (tm_pane_id member); set_solver.
  - csimpl. destruct (tm_pane_id member) as [p|]; [|done]. constructor; [|done].
    intros Hp. eapply made_panes in Hp as (_ & Hp & _); [|done]. set_solver.
  - constructor; [done|]. apply Forall_true. by intros m ?.
Qed.

Lemma create_members_ends roles created w :
  roles ⊆ tr_roles request →
  ends (create_members oracle START_FUEL request created roles)
    (λ members w', Steps (team_call request (omap tm_pane_id members)) w w'
       ∧ MembersMade created roles members (tw_trace w')) w.
Proof.
  revert created w. induction roles as [|role roles IH]; intros created w Hroles.
  { apply team_ends_ret. split; [done|]. split; constructor. }
  apply team_ends_bind. eapply team_ends_mono; [apply create_member_ends; set_solver|].
  intros member w1 [S1 Hmade]. cbv zeta. case_bool_decide as Hst.
  - apply team_ends_ret. split; [|by apply members_made_stop].
    csimpl. rewrite not_attempted_no_panes. by destruct (tm_pane_id member).
  - apply team_ends_bind. eapply team_ends_mono; [apply IH; set_solver|]. intros members w2 [S2 Hmembers].
    apply team_ends_ret. split; [|eapply members_made_cons; [done..|by eapply team_steps_suffix|done]].
    etrans; (eapply steps_weaken; [|eassumption]); intros entry; apply team_call_weaken;
      csimpl; destruct (tm_pane_id member); set_solver.
Qed.
(** *** What the caller is told *)

(** The waiter, the last to be asked, gave the name of the agent in [pane_id]. *)
Definition registered_as (pane_id : string) (name : AgentName) (trace : Trace) : Prop :=
  ∃ t pane_ids before agents,
    trace = (t, WaitForAgents pane_ids DEFAULT_REGISTRATION_TIMEOUT) :: before
    ∧ ev_agents (oracle trace) = Ok agents ∧ MkRegisteredTeamAgent pane_id name ∈ agents.

Definition settled (trace : Trace) (member : TeamMemberResult) : Prop :=
  match tm_state member with
  | Started => False
  | Registered => tm_error_code member = None
      ∧ ∃ pane_id name, tm_pane_id member = Some pane_id ∧ tm_canonical_name member = Some name
          ∧ was_started (tm_requested_role member) pane_id trace ∧ registered_as pane_id name trace
  | TimedOut => tm_error_code member = Some "registration_timed_out" ∧ tm_canonical_name member = None
      ∧ ∃ pane_id, tm_pane_id member = Some pane_id ∧ was_started (tm_requested_role member) pane_id trace
  | Failed => is_Some (tm_error_code member) ∧ tm_canonical_name member = None
  end.

Definition passed_over (member : TeamMemberResult) : Prop :=
  member = not_attempted (tm_requested_role member)
  ∨ member = failed_member (tm_requested_role member) None "not_attempted_after_self_rename_failure".

(** Once a member could not be created the later ones are passed over. *)
Definition passes_over (member later : TeamMemberResult) : Prop :=
  tm_state member = Failed → tm_error_code member ≠ Some "registration_wait_failed" → passed_over later.

Record TeamMade (members : list TeamMemberResult) (trace : Trace) : Prop := MkTeamMade {
  team_roles : tm_requested_role <$> members = tr_roles request;
  team_settled : Forall (settled trace) members;
  team_distinct : NoDup (omap tm_pane_id members);
  team_panes : ∀ pane_id, pane_id ∈ omap tm_pane_id members →
    pane_id ≠ tr_caller_pane_id request ∧ split_off pane_id trace;
  team_stops : StronglySorted passes_over members;
}.

(** What a change of the members after the loop keeps. *)
Record Settles (f : TeamMemberResult → TeamMemberResult) : Prop := MkSettles {
  settles_role m : tm_requested_role (f m) = tm_requested_role m;
  settles_pane m : tm_pane_id (f m) = tm_pane_id m;
  settles_failed m : tm_state m = Failed → f m = m;
  settles_only m : tm_state (f m) = Failed → tm_error_code (f m) ≠ Some "registration_wait_failed" →
    tm_state m = Failed;
}.

Lemma settles_panes f (members : list TeamMemberResult) :
  Settles f → omap tm_pane_id (f <$> members) = omap tm_pane_id members.
Proof. intros Hf. induction members as [|m members IH]; [done|]. csimpl. by rewrite (settles_pane _ Hf), IH. Qed.

Lemma strongly_sorted_fmap {A B} (R : A → A → Prop) (S : B → B → Prop) (f : A → B) l :
  (∀ a b, R a b → S (f a) (f b)) → StronglySorted R l → StronglySorted S (f <$> l).
Proof.
  intros HRS. induction 1 as [|a l _ IH Ha]; csimpl; constructor; [done|].
  apply Forall_fmap. by eapply Forall_impl; [exact Ha|]; simpl; auto.
Qed.

Lemma settled_team f members trace trace' :
  Settles f → MembersMade ∅ (tr_roles request) members trace → trace `suffix_of` trace' →
  Forall (λ member, settled trace' (f member)) members →
  TeamMade (f <$> members) trace'.
Proof.
  intros Hf [Hroles Hall Hnd Hstop] Hs Hsettled. split.
  - rewrite <-list_fmap_compose, <-Hroles. apply list_fmap_ext. intros ? m _. apply (settles_role _ Hf).
  - by apply Forall_fmap.
  - by rewrite settles_panes.
  - rewrite settles_panes by done. intros p Hp. eapply made_panes in Hp as (? & _ & ?); [|done].
    split; [done|by eapply split_off_suffix].
  - eapply strongly_sorted_fmap; [|exact Hstop]. intros m later Hlater Hst Hcode. left.
    specialize (Hlater (settles_only _ Hf m Hst Hcode)).
    rewrite (settles_failed _ Hf later); [done|]. by rewrite Hlater.
Qed.
Lemma settles_id : Settles id.
Proof. by split. Qed.
Lemma settles_registered by_pane : Settles (registered_member by_pane).
Proof.
  unfold registered_member, is_started. split; intros m; destruct m as [role pane name state code]; simpl;
    case_bool_decide; simplify_eq/=; try done; by destruct (and_then _ _).
Qed.
Lemma settles_unregistered : Settles unregistered_member.
Proof.
  unfold unregistered_member, is_started. split; intros m; destruct m as [role pane name state code]; simpl;
    case_bool_decide; by simplify_eq/=.
Qed.

Lemma agents_by_pane_elem registered pane_id name :
  agents_by_pane registered !! pane_id = Some name → MkRegisteredTeamAgent pane_id name ∈ registered.
Proof.
  intros Hin%elem_of_list_to_map_2. rewrite elem_of_reverse in Hin.
  apply list_elem_of_fmap in Hin as ([p n] & [= -> ->] & Hin). done.
Qed.

(** A member that the loop left is settled by the waiter's answer. *)
Lemma registered_settled role member trace trace' t pane_ids agents :
  MemberMade role ∅ member trace → tm_requested_role member = role →
  trace' = (t, WaitForAgents pane_ids DEFAULT_REGISTRATION_TIMEOUT) :: trace →
  ev_agents (oracle trace') = Ok agents →
  settled trace' (registered_member (agents_by_pane agents) member).
Proof.
  intros [_ Hname _ Hstate] Hrole Htr Hans. unfold registered_member, is_started.
  destruct Hstate as [(Hst & Herr & p & Hp & Hstarted)|(Hst & code & Herr & _)].
  - rewrite bool_decide_true, Hp by done. simpl.
    assert (was_started role p trace') by (eapply was_started_suffix; [|done]; subst; by eexists [_]).
    destruct (_ !! p) as [name|] eqn:Hlook; unfold settled; simpl; rewrite Hrole.
    + split; [done|]. exists p, name. split_and!; [done..|].
      exists t, pane_ids, trace, agents. split_and!; [done..|by apply agents_by_pane_elem].
    + split_and!; [done..|]. eauto.
  - rewrite bool_decide_false by congruence. unfold settled. rewrite Hst, Herr. eauto.
Qed.

Lemma unregistered_settled role member trace trace' :
  MemberMade role ∅ member trace → settled trace' (unregistered_member member).
Proof.
  intros [_ Hname _ Hstate]. unfold unregistered_member, is_started.
  destruct Hstate as [(Hst & Herr & p & Hp & Hstarted)|(Hst & code & Herr & _)].
  - rewrite bool_decide_true by done. unfold settled. simpl. eauto.
  - rewrite bool_decide_false by congruence. unfold settled. rewrite Hst, Herr. eauto.
Qed.

Lemma failed_settled role member trace trace' :
  MemberMade role ∅ member trace → is_started member = false → settled trace' member.
Proof.
  intros [_ Hname _ Hstate]. unfold is_started. intros Hno%bool_decide_eq_false.
  destruct Hstate as [(Hst & _)|(Hst & code & Herr & _)]; [done|]. unfold settled. rewrite Hst, Herr. eauto.
Qed.

(** A member that is started has a pane to wait for. *)
Lemma no_started_panes created members trace :
  Forall (λ member, MemberMade (tm_requested_role member) created member trace) members →
  started_panes members = [] → Forall (λ member, is_started member = false) members.
Proof.
  unfold started_panes. induction 1 as [|m members [_ _ _ Hstate] _ IH]; [constructor|].
  rewrite filter_cons. case_decide as Hst; csimpl.
  - unfold is_started in Hst. apply Is_true_true, bool_decide_eq_true in Hst.
    destruct Hstate as [(_ & _ & p & -> & _)|[Hst' _]]; [done|congruence].
  - intros Hp. constructor; [|auto]. by destruct (is_started m); [destruct Hst|].
Qed.

Lemma settle_members_ends members w :
  MembersMade ∅ (tr_roles request) members (tw_trace w) →
  ends (settle_members oracle members)
    (λ result w', Steps (team_call request (omap tm_pane_id result)) w w'
       ∧ omap tm_pane_id result = omap tm_pane_id members ∧ TeamMade result (tw_trace w')) w.
Proof.
  intros Hmade. pose proof (all_made _ _ _ _ Hmade) as Hall. unfold settle_members.
  destruct (started_panes members) as [|first rest] eqn:Hpanes.
  - apply team_ends_ret. split_and!; [done..|]. rewrite <-(list_fmap_id members).
    eapply settled_team; [apply settles_id|done..|].
    eapply no_started_panes in Hpanes; [|done]. eapply Forall_impl; [apply Forall_and; exact (conj Hall Hpanes)|].
    intros m [Hm Hno]. exact (failed_settled _ _ _ _ Hm Hno).
  - apply team_ends_bind, (perform_ends _ (team_call request (omap tm_pane_id members))); [simpl; lia|done|].
    intros w1 S1 T1 _. apply team_ends_ret. pose proof (team_steps_suffix _ _ _ S1) as Hs.
    destruct (ev_agents _) as [agents|] eqn:Hans.
    + rewrite settles_panes by apply settles_registered. split_and!; [done..|].
      eapply settled_team; [apply settles_registered|done..|]. eapply Forall_impl; [exact Hall|].
      intros m Hm. eapply registered_settled; [exact Hm|done|exact T1|exact Hans].
    + rewrite settles_panes by apply settles_unregistered. split_and!; [done..|].
      eapply settled_team; [apply settles_unregistered|done..|]. eapply Forall_impl; [exact Hall|].
      intros m Hm. exact (unregistered_settled _ _ _ _ Hm).
Qed.

(** No member is attempted when the caller could not be renamed. *)
Lemma refused_team trace :
  TeamMade ((λ role, failed_member role None "not_attempted_after_self_rename_failure")
            <$> tr_roles request) trace.
Proof.
  assert (omap tm_pane_id ((λ role, failed_member role None "not_attempted_after_self_rename_failure")
            <$> tr_roles request) = []) as Hnone by (by induction (tr_roles request)).
  split; rewrite ?Hnone.
  - rewrite <-list_fmap_compose. apply list_fmap_id.
  - apply Forall_fmap, Forall_true. intros role. split; [by eexists|done].
  - constructor.
  - set_solver.
  - clear Hnone. induction (tr_roles request); csimpl; constructor; [done|]. apply Forall_fmap, Forall_true. by right.
Qed.

Lemma create_team_ends w :
  ends (create_team oracle START_FUEL request)
    (λ members w', Steps (team_call request (omap tm_pane_id members)) w w'
       ∧ TeamMade members (tw_trace w')) w.
Proof.
  assert (∀ w1, ends (members ← create_members oracle START_FUEL request ∅ (tr_roles request);
      settle_members oracle members)
    (λ members w', Steps (team_call request (omap tm_pane_id members)) w1 w'
       ∧ TeamMade members (tw_trace w')) w1) as Hcreate.
  { intros w1. apply team_ends_bind. eapply team_ends_mono; [apply create_members_ends; set_solver|].
    intros members w2 [S2 Hmade]. eapply team_ends_mono; [by apply settle_members_ends|].
    intros result w3 (S3 & Hpanes & Hteam). split; [|done]. etrans; [|exact S3]. eapply steps_weaken; [|exact S2].
    intros entry. apply team_call_weaken. by rewrite Hpanes. }
  unfold create_team. cbv zeta. destruct (tr_self_role request) as [self_role|] eqn:Hself; [|done].
  apply team_ends_bind, (run_ends _ (team_call request [])).
  { right; right; right. eauto. }
  intros w1 S1 _. destruct (succeeded _).
  - eapply team_ends_mono; [apply Hcreate|]. intros members w2 [S2 Hteam]. split; [|done].
    etrans; [|exact S2]. eapply steps_weaken; [|exact S1]. intros entry. apply team_call_weaken. set_solver.
  - apply team_ends_ret. split; [|apply refused_team]. eapply steps_weaken; [|exact S1].
    intros entry. apply team_call_weaken. set_solver.
Qed.
End members.

(** ** Requests and panes *)

Section requests.
Context `{JsonNumber}.

Lemma role_byte_first byte : role_byte 0 byte = is_ascii_lowercase byte.
Proof. unfold role_byte. by rewrite andb_false_r, orb_false_r. Qed.

Lemma role_bytes_rest bytes n :
  forallb (λ p, role_byte p.1 p.2) (imap (λ i, pair (S n + i)) bytes) = forallb agent_name_byte bytes.
Proof.
  revert n. induction bytes as [|b bytes IH]; intros n; [done|]. rewrite imap_cons. simpl forallb.
  f_equal.
  - unfold role_byte, agent_name_byte. simpl. by rewrite andb_true_r, !orb_assoc.
  - rewrite <-(IH (S n)). f_equal. apply imap_ext. intros i x _. simpl. by rewrite Nat.add_succ_r.
Qed.

(** What is spelled with the characters of an agent name is a role label. *)
Lemma name_is_role_label value :
  as_bytes value ≠ [] → str_len value ≤ 32 → Forall (λ b, agent_name_byte b = true) (as_bytes value) →
  RoleLabel_parse value = Done (MkRoleLabel value).
Proof.
  intros Hne Hlen Hbytes.
  assert (Forall (λ b, (0 ≤ b < 128)%Z ∧ is_control b = false ∧ (b ≠ 8232)%Z ∧ (b ≠ 8233)%Z) (as_bytes value)) as Hall.
  { eapply Forall_impl; [exact Hbytes|]. intros b.
    unfold agent_name_byte, is_ascii_lowercase, is_ascii_digit, is_control, in_range. lia. }
  unfold RoleLabel_parse. rewrite chars_ascii by (eapply Forall_impl; [exact Hall|]; by intros b [? _]).
  destruct (Nat.eqb_spec (str_len value) 0) as [H0|_].
  { rewrite <-length_as_bytes in H0. by apply nil_length_inv in H0. }
  destruct (Nat.ltb_spec MAX_ROLE_LABEL_BYTES (str_len value)) as [Hlong|_].
  { assert (32 ≤ MAX_ROLE_LABEL_BYTES) by (apply Nat.leb_le; done). lia. }
  cbn [orb]. destruct (existsb _ _) eqn:Hex; [|done].
  apply existsb_exists in Hex as (b & Hin%list_elem_of_In & Hb).
  rewrite Forall_forall in Hall. destruct (Hall b Hin) as (_ & Hc & ? & ?). rewrite Hc in Hb. simpl in Hb. lia.
Qed.

(** A role of a team is a role label that is spelled like an agent name. *)
Lemma parse_team_role_spec value :
  parse_team_role value =
    match AgentName_parse value with Done _ => Done (MkRoleLabel value) | _ => Fail invalid_request end.
Proof.
  unfold parse_team_role, AgentName_parse. rewrite <-length_as_bytes.
  destruct (as_bytes value) as [|first rest] eqn:Hb; [done|].
  replace (imap pair (first :: rest)) with ((0, first) :: imap (λ i, pair (S 0 + i)) rest) by done.
  cbn [forallb]. cbn [fst snd]. rewrite role_byte_first, role_bytes_rest.
  destruct (length (first :: rest) <=? 32)%nat eqn:Hlen; [|done].
  destruct (is_ascii_lowercase first) eqn:Hf; [|done].
  destruct (forallb agent_name_byte rest) eqn:Hr; [|done]. cbn [negb andb orb].
  rewrite name_is_role_label; [done|by rewrite Hb|by rewrite <-length_as_bytes, Hb; apply Nat.leb_le|].
  rewrite Hb. constructor; [unfold agent_name_byte; by rewrite Hf|].
  apply Forall_forall. intros b Hin. by eapply forallb_forall in Hr; [|apply list_elem_of_In].
Qed.

Lemma team_role_is_label value role : parse_team_role value = Done role → role_str role = value.
Proof. rewrite parse_team_role_spec. destruct (AgentName_parse value); [|done..]. by intros [= <-]. Qed.

Lemma any_repeated_spec unique roles :
  any_repeated unique roles = false ↔
  NoDup (role_str <$> roles) ∧ ∀ role, role ∈ roles → role_str role ∉ unique.
Proof.
  revert unique. induction roles as [|role roles IH]; intros unique; csimpl.
  { split; [|done]. intros _. split; [constructor|set_solver]. }
  rewrite NoDup_cons, list_elem_of_fmap. case_bool_decide as Hin.
  - split; [done|]. intros [_ Hno]. by destruct (Hno role); [set_solver|].
  - rewrite IH. clear IH. set_solver.
Qed.

Lemma team_request_new caller_pane_id workspace_id cwd self_role roles request :
  TeamRequest_new caller_pane_id workspace_id cwd self_role roles = Done request →
  tr_caller_pane_id request = caller_pane_id ∧ tr_workspace_id request = workspace_id ∧ tr_cwd request = cwd
  ∧ role_str <$> tr_roles request = roles ∧ role_str <$> tr_self_role request = self_role.
Proof.
  unfold TeamRequest_new. intros ([] & _ & Hrun)%out_bind_Done.
  apply out_bind_Done in Hrun as (self & Hself & (rs & Hrs & ([] & _ & [= <-])%out_bind_Done)%out_bind_Done).
  simpl. split_and!; [done..| |].
  - apply try_map_Forall2 in Hrs. induction Hrs as [|v r l l' Hr _ IH]; csimpl; [done|].
    by rewrite IH, (team_role_is_label v r).
  - destruct self_role as [v|]; [|by injection Hself as <-].
    apply out_bind_Done in Hself as (r & Hr & [= <-]). simpl. by rewrite (team_role_is_label v r).
Qed.

Lemma team_request_no_panic caller_pane_id workspace_id cwd self_role roles msg :
  TeamRequest_new caller_pane_id workspace_id cwd self_role roles ≠ Panic msg.
Proof.
  unfold TeamRequest_new, reject_if. case_match; [done|]. simpl.
  assert (∀ v m, parse_team_role v ≠ Panic m) as Hparse.
  { intros v m. rewrite parse_team_role_spec. by destruct (AgentName_parse v). }
  assert (∀ m, try_map parse_team_role roles ≠ Panic m) as Hroles.
  { intros m Hm. pose proof (try_map_not_done parse_team_role roles) as Ht. rewrite Hm in Ht.
    destruct Ht as (v & _ & Hv). by apply Hparse in Hv. }
  destruct self_role as [v|]; simpl.
  1: destruct (parse_team_role v) eqn:Hv; simpl; [|done|by apply Hparse in Hv].
  all: destruct (try_map _ _); simpl; [by case_match|done|]; by edestruct Hroles.
Qed.
End requests.

Section documents_read.
Context `{JsonNumber} {json : HerdrJson}.

Lemma max_by_area_spec panes best :
  max_by_area panes = Some best → best ∈ panes ∧ ∀ pane, pane ∈ panes → (area pane ≤ area best)%Z.
Proof.
  destruct panes as [|first rest]; [done|]. simpl. intros [= <-].
  induction rest as [|pane rest IH] using rev_ind.
  { split; [set_solver|]. by intros p ->%list_elem_of_singleton. }
  rewrite foldl_app. simpl. destruct IH as [Hin Hmax]. case_match eqn:Hle.
  - apply Z.leb_le in Hle. split; [set_solver|]. intros p Hp.
    assert (p ∈ first :: rest ∨ p = pane) as [Hp'| ->] by set_solver; [|done]. specialize (Hmax p Hp'). lia.
  - apply Z.leb_gt in Hle. split; [set_solver|]. intros p Hp.
    assert (p ∈ first :: rest ∨ p = pane) as [Hp'| ->] by set_solver; [auto|lia].
Qed.

Lemma size_at_most (ids : list string) : size (list_to_set ids : gset string) ≤ length ids.
Proof.
  induction ids as [|id ids IH]; simpl; [done|].
  rewrite size_union_alt, size_singleton.
  assert (size (list_to_set ids ∖ {[id]} : gset string) ≤ size (list_to_set ids : gset string)) as Hle
    by (apply subseteq_size; set_solver).
  apply le_n_S. by etrans.
Qed.

Lemma size_distinct (ids : list string) :
  size (list_to_set ids : gset string) = length ids → NoDup ids.
Proof.
  induction ids as [|id ids IH]; simpl; [constructor|]. intros Hsize. destruct (decide (id ∈ ids)) as [Hin|Hin].
  - assert (({[id]} ∪ list_to_set ids : gset string) = list_to_set ids) as Heq by set_solver.
    rewrite Heq in Hsize. pose proof (size_at_most ids). lia.
  - rewrite size_union in Hsize by set_solver. rewrite size_singleton in Hsize. constructor; [done|]. auto.
Qed.

(** The pane that is split is a largest one of the layout, and the layout has the panes
    once each. *)
Lemma parse_split_candidate_spec stdout workspace_id selection :
  parse_split_candidate stdout workspace_id = Done selection →
  ∃ panes, and_then (slice_document stdout) decode_layout = Some (workspace_id, panes)
    ∧ NoDup (lp_pane_id <$> panes) ∧ sel_pane_ids selection = list_to_set (lp_pane_id <$> panes)
    ∧ sel_candidate selection ∈ panes
    ∧ ∀ pane, pane ∈ panes → (area pane ≤ area (sel_candidate selection))%Z.
Proof.
  unfold parse_split_candidate. intros ([found panes] & Hdoc & Hrun)%out_bind_Done. cbv zeta in Hrun.
  apply out_bind_Done in Hrun as ([] & Hws%reject_if_Done%negb_false_iff%String.eqb_eq & Hrun).
  apply out_bind_Done in Hrun as ([] & _ & Hrun).
  apply out_bind_Done in Hrun as ([] & Hsize%reject_if_Done%negb_false_iff%Nat.eqb_eq & Hrun).
  apply out_bind_Done in Hrun as (best & Hbest & [= <-]). simpl in *. subst found.
  destruct (and_then _ _) as [[? ?]|]; [|done]. injection Hdoc as -> ->.
  destruct (max_by_area panes) eqn:Hmax; [|done]. injection Hbest as ->. apply max_by_area_spec in Hmax as [? ?].
  exists panes. split_and!; try done. apply size_distinct. by rewrite length_fmap.
Qed.
End documents_read.

(** ** Theorems *)

Section claims.
Context `{JsonNumber} {json : HerdrJson} {method_lib : MethodLib} (oracle : Trace → Event).

Lemma verified_role_spec name role :
  verified_role name = Done role →
  RoleLabel_parse (role_str role) = Done role
  ∧ (canonical_slug (Some (role_str role)) = "agent" → role_str role = "agent").
Proof.
  assert (RoleLabel_parse "agent" = Done (MkRoleLabel "agent")) as Hagent by (by vm_compute).
  assert (∀ r, RoleLabel_parse "agent" = Done r →
    RoleLabel_parse (role_str r) = Done r
    ∧ (canonical_slug (Some (role_str r)) = "agent" → role_str r = "agent")) as Hdefault.
  { intros r. rewrite Hagent. intros [= <-]. cbn [role_str]. by rewrite Hagent. }
  unfold verified_role. destruct name as [name|]; [|apply Hdefault]. case_match; [apply Hdefault|].
  intros (r & Hr & Hslug)%out_bind_Done.
  destruct (String.eqb_spec (canonical_slug (Some (role_str r))) "agent") as [_|Hne]; [by apply Hdefault|].
  injection Hslug as <-. split; [|done]. destruct r as [text].
  enough (text = name) as -> by done. revert Hr. unfold RoleLabel_parse. case_match; [done|]. by intros [= ->].
Qed.


(** [start_agent] ends whatever [herdr] and the clock do.  All its commands are cut off
    at a deadline, 30 s after it looked at the clock first; a start is asked to take no
    longer than its timeout, 3 to 15 s.  It answers that the agent started only after the
    shell of the pane was seen ready and then the start succeeded or [pi] was seen in the
    pane. *)
Theorem agent_start_is_bounded role pane_id w :
  ∃ started w1 w',
    instant_now oracle w = Some (tw_clock w1, w1)
    ∧ start_agent oracle START_FUEL role pane_id w = Some (started, w')
    ∧ (∃ new, tw_trace w' = new ++ tw_trace w1
         ∧ Forall (start_call (tw_clock w1 + AGENT_START_WINDOW) role pane_id) new)
    ∧ (started = true → agent_started oracle role pane_id (tw_trace w')).
Proof.
  destruct (start_agent_ends oracle role pane_id w) as (started & w' & Hrun & w1 & Hnow & _ & _ & [_ Hnew] & Hst).
  by exists started, w1, w'.
Qed.

(** C31: [create_team] ends whatever happens outside, and the only panes it names or starts
    an agent in are the ones it made: each came out of a split of the selected pane
    of the layout read just before, was not in that layout, is not the caller's pane and is not
    another member's.  Its other commands read the layout, observe those panes, split, and
    give the caller its own role. *)
Theorem team_acts_on_new_panes request t :
  ∃ members w',
    create_team oracle START_FUEL request (MkTeamWorld t []) = Some (members, w')
    ∧ NoDup (omap tm_pane_id members)
    ∧ (∀ pane_id, pane_id ∈ omap tm_pane_id members →
         pane_id ≠ tr_caller_pane_id request ∧ split_off oracle request pane_id (tw_trace w'))
    ∧ Forall (team_call request (omap tm_pane_id members)) (tw_trace w').
Proof.
  destruct (create_team_ends oracle request (MkTeamWorld t [])) as (members & w' & Hrun & [_ (new & Htr & Hnew)] & []).
  exists members, w'. split_and!; [done..|]. by rewrite Htr, app_nil_r.
Qed.

(** C32: a request to create a team is answered, whatever happens outside: with an error
    before any command was run, or with one member per requested role in that order.  A
    member is registered, under a name that the waiter gave for its pane, or timed out, or
    failed with a code; one of the first two was seen to start.  After a member that could
    not be created the others are not attempted. *)
Theorem create_team_answers caller_pane_id workspace_id cwd herdr params t :
  ∃ outcome w',
    session_create_team oracle caller_pane_id workspace_id cwd herdr START_FUEL params (MkTeamWorld t [])
      = Some (outcome, w')
    ∧ match outcome with
      | Done value => ∃ roles self_role members,
          team_params_of_value params = Some (roles, self_role)
          ∧ value = team_value members
          ∧ (λ member, role_str (tm_requested_role member)) <$> members = roles
          ∧ Forall (settled oracle (tw_trace w')) members
          ∧ StronglySorted passes_over members
      | Fail _ => tw_trace w' = []
      | Panic _ => False
      end.
Proof.
  unfold session_create_team. destruct (team_params_of_value params) as [[roles self_role]|]; [|by eexists _, _].
  destruct (TeamRequest_new _ _ _ _ _) as [request| |] eqn:Hreq; [|by eexists _, _|by apply team_request_no_panic in Hreq].
  destruct herdr; [|by eexists _, _]. apply team_request_new in Hreq as (_ & _ & _ & Hroles & _).
  destruct (create_team_ends oracle request (MkTeamWorld t [])) as (members & w' & Hrun & _ & [Hr Hs _ _ Hstop]).
  exists (Done (team_value members)), w'. split; [unfold mbind, team_bind; by rewrite Hrun|].
  exists roles, self_role, members. split_and!; try done. rewrite <-Hroles, <-Hr. by rewrite <-list_fmap_compose.
Qed.
End claims.

(** ** A sample *)

Module TeamSample.
#[local] Instance number : JsonNumber := {| Number := Z; is_f64 _ := false |}.

(** A document stands for its name. *)
Definition rect (width height : Z) : Value := VObject [("width", VNumber width); ("height", VNumber height)].
Definition layout_pane (pane_id : string) (width height : Z) : Value :=
  VObject [("pane_id", VString pane_id); ("rect", rect width height)].
Definition under (key1 key2 : string) (value : Value) : Value := VObject [(key1, VObject [(key2, value)])].

Definition documents : list (string * Value) :=
  [("agent", under "result" "agent" (VObject [("pane_id", VString "p1"); ("name", VString "Reviewer");
      ("agent", VString "pi"); ("workspace_id", VString "w1"); ("cwd", VString "/repo"); ("extra", VNull)]));
   ("layout", under "result" "layout" (VObject [("workspace_id", VString "w1");
      ("panes", VArray [layout_pane "p1" 80 40; layout_pane "p2" 80 50])]));
   ("split", under "result" "pane" (VObject [("pane_id", VString "p3")]));
   ("stale", under "result" "pane" (VObject [("pane_id", VString "p2")]));
   ("shell", under "result" "process_info" (VObject [("pane_id", VString "p3"); ("shell_pid", VNumber 7%Z)]));
   ("busy", VObject [("id", VString "cli:agent:start");
      ("error", VObject [("code", VString "agent_pane_busy"); ("message", VString "wait")])])].

#[local] Instance sample_json : HerdrJson := {|
  slice_document bytes := snd <$> list_find (λ d, as_bytes d.1 = bytes) documents ≫= λ d, Some d.2;
  document_u64 n := Some n;
  slice_error _ := "invalid";
|}.
#[local] Instance sqlite : Rusqlite := {|
  SqlError := bool;
  sqlite_failure := λ constraint, Some (if constraint then ConstraintViolation else OtherErrorCode 5);
  sql_error_display := λ _, "database is locked";
  unique_violation := true;
  check_violation := true;
  query_returned_no_rows := false;
|}.

Definition ok (document : string) : Result string CommandOutput :=
  Ok (MkCommandOutput true (as_bytes document) []).
Definition reviewer : RoleLabel := MkRoleLabel "reviewer".


(** The pane is busy at the first start, and the agent registers. *)
Definition is_start (entry : Z * TeamCall) : bool :=
  match entry.2 with RunWithTimeout args _ => bool_decide (args !! 1 = Some "start") | _ => false end.
Definition answer (trace : Trace) : Result string CommandOutput :=
  match trace with
  | (_, Run args) :: _ => ok (default "" (args !! 1))
  | (_, RunWithTimeout args _) :: before =>
      if bool_decide (args !! 1 = Some "start") then
        if existsb is_start before then ok "" else Ok (MkCommandOutput false (as_bytes "busy") [])
      else ok "shell"
  | _ => Err ""
  end.
Definition outside (trace : Trace) : Event :=
  MkEvent 1 false (answer trace) (Ok [MkRegisteredTeamAgent "p3" (MkAgentName "reviewer-abcd")]).
Definition request : TeamRequest := MkTeamRequest "p1" "w1" "/repo" (Some (MkRoleLabel "lead")) [reviewer].

Example team_of_one :
  fst <$> create_team outside START_FUEL request (MkTeamWorld 0 [])
  = Some [MkTeamMemberResult reviewer (Some "p3") (Some (MkAgentName "reviewer-abcd")) Registered None].
Proof. vm_compute. reflexivity. Qed.

(** A split that gives a pane of the layout fails, and the other role is passed over. *)
Example split_not_new :
  fst <$> create_team (λ trace, MkEvent 0 false (ok (match trace with
      | (_, Run ("pane" :: "layout" :: _)) :: _ => "layout"
      | _ => "stale" end)) (Err "")) START_FUEL
    (MkTeamRequest "p1" "w1" "/repo" None [reviewer; MkRoleLabel "tester"]) (MkTeamWorld 0 [])
  = Some [failed_member reviewer None "pane_split_not_new"; not_attempted (MkRoleLabel "tester")].
Proof. vm_compute. reflexivity. Qed.
End TeamSample.
