(* ===== verification/Coordinator.v ===== *)
(** * The coordinator of a broker

    [herdr-a2a-cli/src/coordinator.rs]: the process that owns the broker of a scope, and
    the commands that ensure, stop and restart it.

    A function runs in a [CoordWorld]: the clock, in nanoseconds, and the calls made so far
    with their instants and answers.  The outside - the system, the runtime directory of
    [RuntimeFiles], the registry of the installer, the other processes - is an [Outside]
    that answers each call knowing all calls before it and says how much time went by.  A
    read of [/proc], of the lock file or of the descriptor is one call.  Loops have fuel; a
    function is [None] when it runs out. *)
From stdpp Require Import prelude gmap strings.
From S2P Require Import Prelude RustStd CliText Model Ledger Api Generation Recovery Runtime.

Definition DEFAULT_ENSURE_TIMEOUT : Z := from_secs 10.
Definition DESCRIPTOR_RECHECK : Z := from_millis 25.
Definition STOP_TIMEOUT : Z := from_secs 5.
Definition MAX_COORDINATOR_RECORD_BYTES : nat := 4 * 1024.

(** [io::Error]: its kind, as far as it is told apart, and its text. *)
Inductive IoKind := NotFoundKind | WouldBlockKind | DeniedKind | DataKind | InputKind | ExpiredKind | OtherIoKind.
#[global] Instance IoKind_eq_dec : EqDecision IoKind.
Proof. solve_decision. Defined.
Record IoFailure := MkIoFailure { io_kind : IoKind; io_message : string }.

Record CoordinatorRecord := MkCoordinatorRecord {
  cr_pid : Z;
  cr_start_identity : string;
  cr_scope_key : string;
  cr_control_port : Z;
  cr_control_nonce : string;
  cr_broker_instance_id : option string;
  cr_broker_start_identity : option string;
}.

Record ProcessProof := MkProcessProof { pp_start_identity : string; pp_executable : option PathBuf }.

Record ManagedProcessEntry := MkManagedProcessEntry {
  me_runtime_root : PathBuf;
  me_session_key : string;
  me_workspace_id : string;
  me_scope_key : string;
  me_coordinator_pid : Z;
  me_coordinator_start : string;
  me_broker_pid : Z;
  me_broker_start : string;
  me_broker_instance_id : string;
  me_executable_path : PathBuf;
  me_executable_digest : string;
  me_control_port : Z;
  me_control_nonce : string;
}.

Record ManagedStartingBrokerProof := MkManagedStartingBrokerProof {
  sb_broker_pid : Z;
  sb_broker_start : string;
  sb_executable_path : PathBuf;
  sb_executable_digest : string;
}.

Record ManagedStartingProcessEntry := MkManagedStartingProcessEntry {
  se_runtime_root : PathBuf;
  se_session_key : string;
  se_workspace_id : string;
  se_scope_key : string;
  se_coordinator_pid : Z;
  se_coordinator_start : string;
  se_executable_path : PathBuf;
  se_executable_digest : string;
  se_expected_generation : string;
  se_control_port : Z;
  se_control_nonce : string;
  se_broker : option ManagedStartingBrokerProof;
}.

(** [serde_json] on the record of the lock file. *)
Class CoordSerde := {
  record_to_vec : CoordinatorRecord → Result string Bytes;
  record_from_slice : Bytes → Result string CoordinatorRecord;
}.

(** ** Processes *)

(** [str::split_whitespace], on bytes. *)
Fixpoint split_white (chunks : list (Utf8Step * Bytes)) (current : Bytes) : list Bytes :=
  let flush := λ rest, match current with [] => rest | _ => current :: rest end in
  match chunks with
  | [] => flush []
  | chunk :: chunks =>
      if white_chunk chunk then flush (split_white chunks []) else split_white chunks (current ++ chunk.2)
  end.
Definition split_whitespace (text : Bytes) : list Bytes := split_white (utf8_chunks (length text) text) [].

(** [text.rsplit_once(") ")], the second part. *)
Fixpoint after_last_paren (text : Bytes) : option Bytes :=
  match text with
  | a :: rest =>
      match after_last_paren rest with
      | Some after => Some after
      | None =>
          match rest with
          | b :: after => if (a =? 41)%Z && (b =? 32)%Z then Some after else None
          | [] => None
          end
      end
  | [] => None
  end.

(** What [/proc] says of a process: its stat, the target of its exe, and that path made
    canonical. *)
Record ProcRead := MkProcRead {
  proc_stat : Result IoFailure Bytes;
  proc_exe : Result IoFailure PathBuf;
  proc_canonical : Result IoFailure PathBuf;
}.

(** An error is [None] for [ErrorKind::NotFound]. *)
Definition or_absent {A} (answer : Result IoFailure A) : Outcome IoFailure (option A) :=
  match answer with
  | Ok a => Done (Some a)
  | Err failure => if bool_decide (io_kind failure = NotFoundKind) then Done None else Fail failure
  end.

(** [observed_process_proof] on Linux *)
Definition process_proof (read : ProcRead) : Outcome IoFailure (option ProcessProof) :=
  let? stat := or_absent (proc_stat read) in
  match stat with
  | None => Done None
  | Some stat =>
      let? after_name := ok_or (after_last_paren stat)
                           (MkIoFailure DataKind "process stat identity is malformed") in
      let fields := split_whitespace after_name in
      if (length fields <=? 19)%nat || bool_decide (head fields = Some (as_bytes "Z")) then Done None
      else
        let start_identity := default [] (fields !! 19) in
        let? _ := reject_if (negb (forallb is_ascii_digit start_identity))
                    (MkIoFailure DataKind "process start identity is malformed") in
        let? exe := or_absent (proc_exe read) in
        match exe with
        | None => Done None
        | Some _ =>
            let? executable := of_result (proc_canonical read) in
            Done (Some (MkProcessProof (string_of_bytes start_identity) (Some executable)))
        end
  end.

(** ** Calls *)

Section coordinator.
Context {serde : RuntimeSerde} {crypto : ApiCrypto} {coord_serde : CoordSerde}.

(** [DynError], by where it comes from. *)
Inductive CoordError :=
| CoordIo (failure : IoFailure)
| CoordLaunch (error : LaunchError)
| CoordRuntime (error : RuntimeError)
| CoordManaged (error : ManagedError).

Definition io_error (kind : IoKind) (message : string) : CoordError := CoordIo (MkIoFailure kind message).
Definition denied (message : string) : CoordError := io_error DeniedKind message.

(** [verify_broker_proof]: proved, an error of [reqwest], another error, or no answer before
    the timeout. *)
Inductive ProofAnswer := Proved | Transport (reason : string) | Refused (reason : string) | ProofExpired.

Inductive Signal := TERM | KILL.

(** [fs::Metadata] of the lock file. *)
Record LockMetadata := MkLockMetadata { lm_is_file : bool; lm_uid : Z; lm_nlink : Z; lm_mode : Z }.

(** What comes first at the end of [serve]. *)
Inductive ServeEvent :=
| ChildExited (status : Result IoFailure ())
| ShutdownSignal
| ControlRequest (result : Result IoFailure ()).

Inductive CoordCall : Type → Type :=
| Now : CoordCall ()
| Sleep (duration : Z) : CoordCall ()
| SleepOrChange (duration : Z) : CoordCall ()
| Discover : CoordCall (Outcome RuntimeError RuntimePaths)
| ReadDescriptor (paths : RuntimePaths) : CoordCall (Result RuntimeError RuntimeDescriptor)
| RemoveDescriptor (paths : RuntimePaths) (instance : string) : CoordCall (Result RuntimeError ())
| DescriptorExists (paths : RuntimePaths) : CoordCall bool
| BuildClient (connect_timeout timeout : option Z) : CoordCall (Result IoFailure ())
| VerifyProof (descriptor : RuntimeDescriptor) (timeout : option Z) : CoordCall ProofAnswer
| NewWatcher (paths : RuntimePaths) : CoordCall (Result IoFailure ())
| InvokeAction : CoordCall (Result IoFailure ())
| OpenLock (paths : RuntimePaths) (create : bool) : CoordCall (Result IoFailure nat)
| StatLock (file : nat) : CoordCall (Result IoFailure LockMetadata)
| ChmodLock (file : nat) : CoordCall (Result IoFailure ())
| Flock (file : nat) : CoordCall (Result Errno ())
| CloseLock (file : nat) : CoordCall ()
| ReadLock (file : nat) : CoordCall (Result IoFailure Bytes)
| WriteLock (file : nat) (bytes : Bytes) : CoordCall (Result IoFailure ())
| ReadProc (pid : Z) : CoordCall ProcRead
| Kill (pid : Z) (signal : Signal) : CoordCall ()
| SendStop (port : Z) (request : Bytes) (timeout : Z) : CoordCall (Result IoFailure ())
| ExecutableDigest (path : PathBuf) : CoordCall (Result ManagedError string)
| ReserveStart (entry : ManagedStartingProcessEntry) : CoordCall (Result ManagedError bool)
| BindStart (entry : ManagedStartingProcessEntry) (broker : ManagedStartingBrokerProof)
    : CoordCall (Result ManagedError ())
| UnregisterStart (entry : ManagedStartingProcessEntry) : CoordCall ()
| RegisterProcess (entry : ManagedProcessEntry) : CoordCall (Result ManagedError bool)
| UnregisterProcess (entry : ManagedProcessEntry) : CoordCall (Result ManagedError ())
| InstallSignals : CoordCall (Result IoFailure ())
| BindControl : CoordCall (Result IoFailure (Z * Bytes))
| OpenLiveness : CoordCall (Result IoFailure ())
| CloseLiveness : CoordCall ()
| CurrentExe : CoordCall (Result IoFailure PathBuf)
| Canonicalize (path : PathBuf) : CoordCall (Result IoFailure PathBuf)
| CurrentPid : CoordCall Z
| BrokerEnvironment (paths : RuntimePaths) : CoordCall (Result CoordError ())
| SpawnBroker (executable : PathBuf) : CoordCall (Result IoFailure (option Z))
| ChildId : CoordCall (option Z)
| WaitChild (timeout : option Z) : CoordCall (option (Result IoFailure ()))
| KillChild : CoordCall (Result IoFailure ())
| AwaitServe : CoordCall ServeEvent.

(** A call that was made: when, and what it answered. *)
Inductive CoordEntry :=
| MkCoordEntry {A : Type} (time : Z) (c : CoordCall A) (answer : A).
Definition History : Type := list CoordEntry.
Record CoordWorld := MkCoordWorld { cw_clock : Z; cw_history : History }.

(** The answer to a call and the time it took. *)
Definition Outside : Type := ∀ A, CoordCall A → History → A * N.

Definition Coord (A : Type) : Type := CoordWorld → option (Outcome CoordError A * CoordWorld).
#[global] Instance coord_ret : MRet Coord := λ A a w, Some (Done a, w).
#[global] Instance coord_bind : MBind Coord := λ A B k m w,
  match m w with
  | Some (Done a, w') => k a w'
  | Some (Fail e, w') => Some (Fail e, w')
  | Some (Panic msg, w') => Some (Panic msg, w')
  | None => None
  end.

Definition lift {A} (o : Outcome CoordError A) : Coord A := λ w, Some (o, w).
Definition fail {A} (e : CoordError) : Coord A := lift (Fail e).
Definition lift_io {A} (o : Outcome IoFailure A) : Coord A := lift (map_error CoordIo o).
Definition lift_result {A} (r : Result IoFailure A) : Coord A := lift_io (of_result r).
Definition lift_runtime {A} (r : Result RuntimeError A) : Coord A := lift (map_error CoordRuntime (of_result r)).
Definition lift_managed {A} (r : Result ManagedError A) : Coord A := lift (map_error CoordManaged (of_result r)).

(** The outcome of [m], without [?]. *)
Definition catch {A} (m : Coord A) : Coord (Outcome CoordError A) := λ w,
  match m w with Some (o, w') => Some (Done o, w') | None => None end.

(** [m], and [cleanup] on every way out, or on errors only. *)
Definition finally {A} (m : Coord A) (cleanup : Coord ()) : Coord A :=
  o ← catch m; _ ← cleanup; lift o.
Definition on_error {A} (m : Coord A) (cleanup : Coord ()) : Coord A :=
  o ← catch m; match o with Done a => mret a | _ => _ ← cleanup; lift o end.

(** [loop { .. }]: the body goes on with a state or breaks with a result. *)
Fixpoint loop {S A} (fuel : nat) (body : S → Coord (S + A)) (s : S) : Coord A :=
  match fuel with
  | O => λ _, None
  | S fuel => r ← body s; match r with inl s => loop fuel body s | inr a => mret a end
  end.
End coordinator.

Arguments Coord {serde} A.

Section functions.
Context {serde : RuntimeSerde} {crypto : ApiCrypto} {coord_serde : CoordSerde}.
Context (outside : Outside) (uid : Z).

(** A sleep takes at least its duration, a timeout that expires its own. *)
Definition least_time {A} (c : CoordCall A) : A → Z :=
  match c with
  | Sleep duration => λ _, duration
  | VerifyProof _ (Some timeout) => λ answer, match answer with ProofExpired => timeout | _ => 0%Z end
  | WaitChild (Some timeout) => λ answer, match answer with None => timeout | _ => 0%Z end
  | _ => λ _, 0%Z
  end.

Definition call {A} (c : CoordCall A) : Coord A := λ w,
  let '(answer, elapsed) := outside A c (cw_history w) in
  Some (Done answer, MkCoordWorld (cw_clock w + Z.max 0 (least_time c answer) + Z.of_N elapsed)
                       (MkCoordEntry (cw_clock w) c answer :: cw_history w)).

(** [Instant::now] *)
Definition instant_now : Coord Z := λ w,
  match call Now w with Some (_, w') => Some (Done (cw_clock w'), w') | None => None end.
Definition sleep (duration : Z) : Coord () := call (Sleep duration).
Definition saturating_duration_since (a b : Z) : Z := Z.max 0 (a - b).

Definition discover_paths : Coord RuntimePaths := r ← call Discover; lift (map_error CoordRuntime r).

(** ** Deadlines of a stop *)

Definition ensure_stop_deadline (deadline : Z) : Coord () :=
  now ← instant_now;
  lift (reject_if (deadline <=? now)%Z (io_error ExpiredKind "managed process drain deadline expired")).

Definition bounded_stop_deadline (shared_deadline phase_limit : Z) : Coord Z :=
  _ ← ensure_stop_deadline shared_deadline;
  now ← instant_now;
  mret (Z.min shared_deadline (now + phase_limit)).

Definition sleep_until_stop_recheck (shared_deadline wake_deadline : Z) : Coord () :=
  _ ← ensure_stop_deadline shared_deadline;
  now ← instant_now;
  let remaining := saturating_duration_since wake_deadline now in
  if (remaining =? 0)%Z then mret tt
  else
    _ ← sleep (Z.min remaining DESCRIPTOR_RECHECK);
    ensure_stop_deadline shared_deadline.

(** ** Process identities *)

Definition observed_process_proof (pid : Z) : Coord (option ProcessProof) :=
  read ← call (ReadProc pid); lift_io (process_proof read).

(** [start_identity == start && executable.as_deref() == Some(executable)] *)
Definition is_process (start : string) (executable : PathBuf) (proof : ProcessProof) : bool :=
  String.eqb (pp_start_identity proof) start
  && match pp_executable proof with Some path => path_eqb path executable | None => false end.

Definition validate_reserved_process (pid : Z) (start : string) (executable : PathBuf) : Coord () :=
  observed ← observed_process_proof pid;
  match observed with
  | None => mret tt
  | Some proof =>
      lift (reject_if (negb (is_process start executable proof))
              (denied "reserved process start identity or executable changed"))
  end.

Definition require_registered_process_retired (pid : Z) (expected_start : string)
    (expected_executable : PathBuf) : Coord () :=
  observed ← observed_process_proof pid;
  match observed with
  | None => mret tt
  | Some proof =>
      fail (denied (if is_process expected_start expected_executable proof
                    then "registered process remained alive after coordinated stop"
                    else "registered PID identity changed before retirement was proven"))
  end.

Definition require_process_proof (pid : Z) (expected_start : string) (expected_executable : PathBuf) : Coord () :=
  observed ← observed_process_proof pid;
  match observed with
  | None => fail (denied "registered process is absent")
  | Some proof =>
      lift (reject_if (negb (is_process expected_start expected_executable proof))
              (denied "registered process start identity or executable changed"))
  end.

(** [validate_registered_process] on Linux *)
Definition validate_registered_process (pid : Z) (expected_start : string) (entry : ManagedProcessEntry)
    : Coord () :=
  observed ← observed_process_proof pid;
  match observed with
  | None => fail (denied "registered process is absent")
  | Some proof =>
      lift (reject_if (negb (String.eqb (pp_start_identity proof) expected_start)
                       || match pp_executable proof with
                          | Some path => negb (path_eqb path (me_executable_path entry))
                          | None => false
                          end)
              (denied "registered process start identity or executable changed"))
  end.

(** *** Retiring a process *)

(** [Pid::from_raw(i32::try_from(pid)?)]: 0 is no process. *)
Definition raw_pid (pid : Z) : option Z :=
  if (1 <=? pid)%Z && (pid <=? 2147483647)%Z then Some pid else None.

(** One of the two waits of [force_retire_reserved_process]: whether the process was seen to
    be gone before [phase_deadline]. *)
Definition await_absence (fuel : nat) (pid deadline phase_deadline : Z) : Coord bool :=
  loop fuel (λ _ : (),
    now ← instant_now;
    if (phase_deadline <=? now)%Z then mret (inr false)
    else
      observed ← observed_process_proof pid;
      match observed with
      | None => _ ← ensure_stop_deadline deadline; mret (inr true)
      | Some _ => _ ← sleep_until_stop_recheck deadline phase_deadline; mret (inl tt)
      end) tt.

Definition force_retire_reserved_process (fuel : nat) (pid : Z) (start : string) (executable : PathBuf)
    (deadline : Z) : Coord () :=
  _ ← ensure_stop_deadline deadline;
  observed ← observed_process_proof pid;
  match observed with
  | None => ensure_stop_deadline deadline
  | Some proof =>
      if negb (is_process start executable proof)
      then fail (denied "reserved process identity changed before retirement")
      else
        raw ← lift (ok_or (raw_pid pid) (io_error InputKind "reserved PID is invalid"));
        _ ← call (Kill raw TERM);
        term_deadline ← bounded_stop_deadline deadline (from_secs 1);
        gone ← await_absence fuel pid deadline term_deadline;
        if (gone : bool) then mret tt
        else
          _ ← ensure_stop_deadline deadline;
          _ ← validate_reserved_process pid start executable;
          _ ← call (Kill raw KILL);
          kill_deadline ← bounded_stop_deadline deadline (from_secs 3);
          gone ← await_absence fuel pid deadline kill_deadline;
          if (gone : bool) then mret tt
          else
            _ ← ensure_stop_deadline deadline;
            require_registered_process_retired pid start executable
  end.

(** ** The lock and its record *)

Definition io_kind_of (error : IoError) : IoKind :=
  match error with
  | Os NOENT => NotFoundKind
  | Os WOULDBLOCK | CustomWouldBlock _ => WouldBlockKind
  | CustomInvalidData _ => DataKind
  | _ => OtherIoKind
  end.

(** Only some errors of the runtime directory keep the lock from being opened. *)
Definition tolerated (error : RuntimeError) : bool :=
  match error with
  | RtIo error =>
      bool_decide (io_kind_of error = NotFoundKind) || bool_decide (io_kind_of error = WouldBlockKind)
  | RtJson _ | InvalidDescriptor _ | SessionMismatch | WorkspaceMismatch => true
  | _ => false
  end.

(** [CoordinatorLock::open] *)
Definition open_coordinator_lock (paths : RuntimePaths) (create : bool) : Coord nat :=
  r ← call (ReadDescriptor paths);
  _ ← match r with
      | Ok _ => mret tt
      | Err error =>
          if tolerated error then mret tt else fail (io_error OtherIoKind (runtime_error_display error))
      end;
  opened ← call (OpenLock paths create);
  file ← lift_result opened;
  r ← call (StatLock file);
  metadata ← lift_result r;
  _ ← lift (reject_if (negb (lm_is_file metadata) || negb (lm_uid metadata =? uid)%Z
                       || negb (lm_nlink metadata =? 1)%Z)
              (denied "coordinator lock is not a private owned file"));
  r ← call (ChmodLock file);
  _ ← lift_result r;
  r ← call (StatLock file);
  metadata ← lift_result r;
  _ ← lift (reject_if (negb (Z.land (lm_mode metadata) 511 =? 384)%Z)
              (denied "coordinator lock permissions are unsafe"));
  mret file.

(** [flock(.., NonBlockingLockExclusive)]: whether the lock is now ours; it is held by
    another process otherwise. *)
Definition try_flock (file : nat) : Coord bool :=
  r ← call (Flock file);
  match r with
  | Ok _ => mret true
  | Err WOULDBLOCK => mret false
  | Err errno => fail (CoordIo (MkIoFailure (io_kind_of (Os errno)) (io_error_display (Os errno))))
  end.

(** [CoordinatorLock::acquire]; [None] is [Busy]. *)
Definition acquire_coordinator_lock (paths : RuntimePaths) : Coord (option nat) :=
  file ← open_coordinator_lock paths true;
  locked ← try_flock file;
  mret (if locked : bool then Some file else None).

Definition write_record (file : nat) (record : CoordinatorRecord) : Coord () :=
  encoded ← lift (map_error (io_error OtherIoKind) (of_result (record_to_vec record)));
  r ← call (WriteLock file encoded);
  lift_result r.

Definition read_record (file : nat) : Coord CoordinatorRecord :=
  r ← call (ReadLock file);
  bytes ← lift_result r;
  let encoded := take (MAX_COORDINATOR_RECORD_BYTES + 1) bytes in
  _ ← lift (reject_if ((length encoded =? 0)%nat || (MAX_COORDINATOR_RECORD_BYTES <? length encoded)%nat)
              (io_error DataKind "coordinator lock record is empty or oversized"));
  lift (map_error (io_error OtherIoKind) (of_result (record_from_slice encoded))).

Definition is_instance_byte (byte : Z) : bool :=
  is_ascii_alphanumeric byte || (byte =? 45)%Z || (byte =? 95)%Z.

Definition validate_control_record (record : CoordinatorRecord) : Outcome CoordError () :=
  reject_if
    ((cr_control_port record =? 0)%Z
     || (str_len (cr_start_identity record) =? 0)%nat || (128 <? str_len (cr_start_identity record))%nat
     || match cr_broker_start_identity record with
        | Some identity => (str_len identity =? 0)%nat || (256 <? str_len identity)%nat
        | None => false
        end
     || negb (str_len (cr_control_nonce record) =? 64)%nat
     || negb (forallb is_lower_hex (as_bytes (cr_control_nonce record)))
     || match cr_broker_instance_id record with
        | Some instance =>
            negb (str_len instance =? 43)%nat || negb (forallb is_instance_byte (as_bytes instance))
        | None => false
        end)
    (io_error DataKind "invalid coordinator control generation").

(** ** Stopping *)

(** The bytes that ask a coordinator to stop. *)
Definition stop_request (record : CoordinatorRecord) : Bytes := as_bytes (cr_control_nonce record) ++ [10%Z].

Definition request_stop (record : CoordinatorRecord) (deadline : Z) : Coord () :=
  _ ← lift (validate_control_record record);
  now ← instant_now;
  let remaining := saturating_duration_since deadline now in
  if (remaining =? 0)%Z then fail (io_error ExpiredKind "coordinator stop deadline expired")
  else
    r ← call (SendStop (cr_control_port record) (stop_request record) (Z.min remaining (from_millis 250)));
    lift_result r.

(** [ControlServer::wait] on the connections that arrive: whether the peer is on the loopback
    interface, and the 65 bytes that it sent in time. *)
Fixpoint control_wait (nonce : string) (connections : list (Result IoFailure (bool * option Bytes)))
    : option (Result IoFailure ()) :=
  match connections with
  | [] => None
  | Err failure :: _ => Some (Err failure)
  | Ok (loopback, request) :: connections =>
      if negb loopback then control_wait nonce connections
      else
        match request with
        | Some request =>
            if bool_decide (request !! 64 = Some 10%Z) && bool_decide (take 64 request = as_bytes nonce)
            then Some (Ok tt) else control_wait nonce connections
        | None => control_wait nonce connections
        end
  end.

Definition is_not_found {A} (o : Outcome CoordError A) : bool :=
  match o with Fail (CoordIo failure) => bool_decide (io_kind failure = NotFoundKind) | _ => false end.

(** The record names the instance that is to be stopped, and so does the descriptor, if there
    is one. *)
Definition check_expected (paths : RuntimePaths) (record : CoordinatorRecord) (expected : string) : Coord () :=
  _ ← lift (reject_if (negb (bool_decide (cr_broker_instance_id record = Some expected)))
              (denied "coordinator owns a different broker instance"));
  r ← call (ReadDescriptor paths);
  lift (reject_if
    match r with
    | Ok descriptor => negb (String.eqb (rdesc_broker_instance_id descriptor) expected)
    | Err (RtIo error) => negb (bool_decide (io_kind_of error = NotFoundKind))
    | Err _ => true
    end
    (denied "broker instance changed before coordinated stop")).

Definition stop_turn (paths : RuntimePaths) (file : nat) (expected_instance : option string) (deadline : Z)
    : Coord (() + ()) :=
  locked ← try_flock file;
  if (locked : bool) then mret (inr tt)
  else
    read ← catch (read_record file);
    _ ← match read with
        | Done record =>
            if String.eqb (cr_scope_key record) (scope_key (rp_scope paths)) then
              _ ← match expected_instance with
                  | Some expected => check_expected paths record expected
                  | None => mret tt
                  end;
              _ ← catch (request_stop record deadline);
              mret tt
            else fail (denied "coordinator lock belongs to another runtime scope")
        | Fail error => now ← instant_now; if (now <? deadline)%Z then mret tt else fail error
        | Panic msg => lift (Panic msg)
        end;
    now ← instant_now;
    if (deadline <=? now)%Z then fail (io_error ExpiredKind "coordinator stop deadline expired")
    else _ ← sleep DESCRIPTOR_RECHECK; mret (inl tt).

Definition stop_expected (fuel : nat) (expected_instance : option string) : Coord () :=
  paths ← discover_paths;
  opened ← catch (open_coordinator_lock paths false);
  match opened with
  | Done file =>
      locked ← try_flock file;
      if (locked : bool) then mret tt
      else
        now ← instant_now;
        let deadline := (now + STOP_TIMEOUT)%Z in
        loop fuel (λ _ : (), stop_turn paths file expected_instance deadline) tt
  | Fail _ => if is_not_found opened then mret tt else _ ← lift opened; mret tt
  | Panic msg => lift (Panic msg)
  end.

Definition stop (fuel : nat) : Coord () := stop_expected fuel None.

(** ** Finding and launching the broker *)

Definition protected_descriptor (paths : RuntimePaths) (deadline : Z) : Coord (option RuntimeDescriptor) :=
  r ← call (ReadDescriptor paths);
  match r with
  | Err _ => mret None
  | Ok descriptor =>
      now ← instant_now;
      let remaining := saturating_duration_since deadline now in
      if (remaining =? 0)%Z then fail (CoordLaunch LaunchDeadline)
      else
        built ← call (BuildClient (Some (Z.min remaining (from_millis 500))) (Some (Z.min remaining (from_secs 2))));
        match built with
        | Err failure => fail (CoordLaunch (LaunchUnavailable (io_message failure)))
        | Ok _ =>
            answer ← call (VerifyProof descriptor (Some remaining));
            match answer with
            | Proved => mret (Some descriptor)
            | Transport _ => mret None
            | Refused reason => fail (CoordLaunch (LaunchProofInvalid reason))
            | ProofExpired => fail (CoordLaunch LaunchDeadline)
            end
        end
  end.

Definition wait_for_protected_descriptor (fuel : nat) (paths : RuntimePaths) (deadline : Z) (watched : bool)
    : Coord RuntimeDescriptor :=
  loop fuel (λ _ : (),
    found ← protected_descriptor paths deadline;
    match found with
    | Some descriptor => mret (inr descriptor)
    | None =>
        now ← instant_now;
        let remaining := saturating_duration_since deadline now in
        if (remaining =? 0)%Z then fail (CoordLaunch LaunchDeadline)
        else
          _ ← (if watched then call (SleepOrChange (Z.min DESCRIPTOR_RECHECK remaining))
               else sleep (Z.min DESCRIPTOR_RECHECK remaining));
          mret (inl tt)
    end) tt.

(** [ProductionBrokerLauncher::ensure]; [InvokeAction] finds the [herdr] program and asks it
    to invoke the action that runs [serve]. *)
Definition launcher_ensure (fuel : nat) (scope : RuntimeScope) (deadline : Z) : Coord RuntimeDescriptor :=
  r ← call Discover;
  paths ← lift (map_error (λ error, CoordLaunch (LaunchUnavailable (runtime_error_display error))) r);
  if negb (bool_decide (rp_scope paths = scope)) then fail (CoordLaunch LaunchInvalidScope)
  else
    found ← protected_descriptor paths deadline;
    match found with
    | Some descriptor => mret descriptor
    | None =>
        now ← instant_now;
        if (deadline <=? now)%Z then fail (CoordLaunch LaunchDeadline)
        else
          r ← call (NewWatcher paths);
          _ ← lift (map_error (λ failure, CoordLaunch (LaunchUnavailable (io_message failure))) (of_result r));
          r ← call InvokeAction;
          _ ← lift (map_error (λ failure, CoordLaunch (LaunchUnavailable (io_message failure))) (of_result r));
          wait_for_protected_descriptor fuel paths deadline true
    end.

Definition ensure (fuel : nat) : Coord () :=
  paths ← discover_paths;
  now ← instant_now;
  _ ← launcher_ensure fuel (rp_scope paths) (now + DEFAULT_ENSURE_TIMEOUT);
  mret tt.

(** ** Restarting *)

Definition coordinator_record_turn (paths : RuntimePaths) (descriptor : RuntimeDescriptor) (deadline : Z)
    : Coord (() + CoordinatorRecord) :=
  file ← open_coordinator_lock paths false;
  locked ← try_flock file;
  if (locked : bool) then fail (denied "broker descriptor has no owning coordinator")
  else
    record ← read_record file;
    _ ← lift (validate_control_record record);
    _ ← lift (reject_if (negb (String.eqb (cr_scope_key record) (scope_key (rp_scope paths))))
                (denied "coordinator and broker descriptor scopes do not match"));
    match cr_broker_instance_id record with
    | Some instance =>
        if String.eqb instance (rdesc_broker_instance_id descriptor) then
          broker_start ← lift (ok_or (cr_broker_start_identity record)
                                 (denied "coordinator has no broker process proof"));
          _ ← require_process_proof (cr_pid record) (cr_start_identity record) (rdesc_executable_path descriptor);
          _ ← require_process_proof (rdesc_broker_pid descriptor) broker_start (rdesc_executable_path descriptor);
          mret (inr record)
        else fail (denied "coordinator and broker descriptor generations do not match")
    | None =>
        now ← instant_now;
        if (now <? deadline)%Z then _ ← sleep DESCRIPTOR_RECHECK; mret (inl tt)
        else fail (io_error ExpiredKind "coordinator broker proof publication deadline expired")
    end.

Definition wait_for_coordinator_record_for_descriptor (fuel : nat) (paths : RuntimePaths)
    (descriptor : RuntimeDescriptor) (deadline : Z) : Coord CoordinatorRecord :=
  loop fuel (λ _ : (), coordinator_record_turn paths descriptor deadline) tt.

Definition require_original_processes_retired (original : RuntimeDescriptor)
    (original_coordinator : CoordinatorRecord) : Coord () :=
  _ ← require_registered_process_retired (cr_pid original_coordinator) (cr_start_identity original_coordinator)
        (rdesc_executable_path original);
  start ← lift (ok_or (cr_broker_start_identity original_coordinator)
                  (denied "original coordinator has no broker process proof"));
  require_registered_process_retired (rdesc_broker_pid original) start (rdesc_executable_path original).

Definition proved_replacement_after_retirement (paths : RuntimePaths) (original : RuntimeDescriptor)
    (original_coordinator : CoordinatorRecord) (deadline : Z) : Coord (option RuntimeDescriptor) :=
  _ ← require_original_processes_retired original original_coordinator;
  protected_descriptor paths deadline.

Definition validate_replacement_after_retirement (fuel : nat) (paths : RuntimePaths)
    (original : RuntimeDescriptor) (original_coordinator : CoordinatorRecord) (candidate : RuntimeDescriptor)
    (deadline : Z) : Coord RuntimeDescriptor :=
  _ ← require_original_processes_retired original original_coordinator;
  found ← protected_descriptor paths deadline;
  replacement ← lift (ok_or found (denied "automatic broker replacement descriptor is unavailable"));
  _ ← lift (reject_if (negb (descriptor_eqb replacement candidate))
              (denied "automatic broker replacement changed before final validation"));
  _ ← lift (reject_if
              (String.eqb (rdesc_broker_instance_id replacement) (rdesc_broker_instance_id original)
               || negb (String.eqb (rdesc_session_key replacement) (scope_session_key (rp_scope paths)))
               || negb (String.eqb (rdesc_workspace_id replacement) (scope_workspace_id (rp_scope paths)))
               || negb (path_eqb (rdesc_executable_path replacement) (rdesc_executable_path original)))
              (denied "automatic broker replacement identity does not match the retired scope"));
  _ ← wait_for_coordinator_record_for_descriptor fuel paths replacement deadline;
  mret replacement.

(** The loop of [restart] that waits until the old descriptor is gone or replaced. *)
Definition removal_turn (paths : RuntimePaths) (original : RuntimeDescriptor)
    (original_coordinator : CoordinatorRecord) (deadline replacement_deadline : Z)
    (recovered : option RuntimeDescriptor) : Coord (option RuntimeDescriptor + option RuntimeDescriptor) :=
  if is_some recovered then mret (inr recovered)
  else
    present ← call (DescriptorExists paths);
    if negb present then mret (inr None)
    else
      r ← call (ReadDescriptor paths);
      match r with
      | Err _ => fail (denied "broker descriptor changed during coordinated restart")
      | Ok observed =>
          replaced ← (if negb (String.eqb (rdesc_broker_instance_id observed) (rdesc_broker_instance_id original))
                      then proved_replacement_after_retirement paths original original_coordinator
                             replacement_deadline
                      else mret None);
          if is_some replaced then mret (inr replaced)
          else
            now ← instant_now;
            if (deadline <=? now)%Z
            then fail (io_error ExpiredKind "broker descriptor removal deadline expired")
            else _ ← sleep DESCRIPTOR_RECHECK; mret (inl None)
      end.

Definition restart (fuel : nat) : Coord () :=
  paths ← discover_paths;
  now ← instant_now;
  let deadline := (now + DEFAULT_ENSURE_TIMEOUT)%Z in
  r ← call (ReadDescriptor paths);
  original ← lift_runtime r;
  r ← call (BuildClient None (Some (from_secs 2)));
  _ ← lift_result r;
  answer ← call (VerifyProof original None);
  _ ← match answer with
      | Proved => mret tt
      | Transport reason | Refused reason => fail (io_error OtherIoKind reason)
      | ProofExpired => fail (io_error ExpiredKind "")
      end;
  original_coordinator ← wait_for_coordinator_record_for_descriptor fuel paths original deadline;
  stop_result ← catch (stop_expected fuel (Some (rdesc_broker_instance_id original)));
  now ← instant_now;
  let replacement_deadline := (now + DEFAULT_ENSURE_TIMEOUT)%Z in
  recovered ← match stop_result with
      | Done _ => mret None
      | Fail stop_error =>
          found ← proved_replacement_after_retirement paths original original_coordinator replacement_deadline;
          match found with Some replacement => mret (Some replacement) | None => fail stop_error end
      | Panic msg => lift (Panic msg)
      end;
  recovered ← loop fuel (removal_turn paths original original_coordinator deadline replacement_deadline) recovered;
  replacement ← match recovered with
      | Some replacement => mret replacement
      | None => launcher_ensure fuel (rp_scope paths) replacement_deadline
      end;
  _ ← validate_replacement_after_retirement fuel paths original original_coordinator replacement
        replacement_deadline;
  mret tt.

(** ** Stopping the processes of the installer *)

(** The descriptor is that of the entry. *)
Definition describes_entry (entry : ManagedProcessEntry) (descriptor : RuntimeDescriptor) : bool :=
  String.eqb (rdesc_session_key descriptor) (me_session_key entry)
  && String.eqb (rdesc_workspace_id descriptor) (me_workspace_id entry)
  && (rdesc_broker_pid descriptor =? me_broker_pid entry)%Z
  && String.eqb (rdesc_broker_instance_id descriptor) (me_broker_instance_id entry)
  && path_eqb (rdesc_executable_path descriptor) (me_executable_path entry).

(** The record of the lock is that of the entry. *)
Definition records_entry (entry : ManagedProcessEntry) (record : CoordinatorRecord) : bool :=
  (cr_pid record =? me_coordinator_pid entry)%Z
  && String.eqb (cr_start_identity record) (me_coordinator_start entry)
  && String.eqb (cr_scope_key record) (me_scope_key entry)
  && (cr_control_port record =? me_control_port entry)%Z
  && String.eqb (cr_control_nonce record) (me_control_nonce entry)
  && bool_decide (cr_broker_instance_id record = Some (me_broker_instance_id entry))
  && bool_decide (cr_broker_start_identity record = Some (me_broker_start entry)).

Definition require_digest (path : PathBuf) (digest message : string) : Coord () :=
  r ← call (ExecutableDigest path);
  found ← lift_managed r;
  lift (reject_if (negb (String.eqb found digest)) (denied message)).

Definition entry_paths (root : PathBuf) (session_key workspace_id expected_scope message : string)
    : Coord RuntimePaths :=
  paths ← lift (map_error CoordRuntime (for_test root session_key workspace_id));
  _ ← lift (reject_if (negb (String.eqb (scope_key (rp_scope paths)) expected_scope)) (denied message));
  mret paths.

(** [stop_registered_process] when neither process is there. *)
Definition clean_retired_entry (paths : RuntimePaths) (entry : ManagedProcessEntry) (deadline : Z) : Coord () :=
  r ← call (ReadDescriptor paths);
  _ ← match r with
      | Err error =>
          match error with
          | RtIo io => if bool_decide (io_kind_of io = NotFoundKind) then mret tt else fail (CoordRuntime error)
          | _ => fail (CoordRuntime error)
          end
      | Ok descriptor =>
          _ ← lift (reject_if (negb (describes_entry entry descriptor))
                      (denied "retired registered broker descriptor identity changed"));
          _ ← require_digest (me_executable_path entry) (me_executable_digest entry)
                "retired registered executable digest changed";
          file ← open_coordinator_lock paths false;
          locked ← try_flock file;
          _ ← lift (reject_if (negb locked) (denied "retired registered coordinator lock is still held"));
          record ← read_record file;
          _ ← lift (reject_if (negb (records_entry entry record))
                      (denied "retired registered coordinator control generation changed"));
          r ← call (RemoveDescriptor paths (me_broker_instance_id entry));
          lift_runtime r
      end;
  _ ← ensure_stop_deadline deadline;
  r ← call (UnregisterProcess entry);
  lift_managed r.

(** Until the coordinator has given up its lock. *)
Definition drain_turn (file : nat) (record : CoordinatorRecord) (deadline : Z) : Coord (() + ()) :=
  _ ← ensure_stop_deadline deadline;
  _ ← catch (request_stop record deadline);
  locked ← try_flock file;
  if (locked : bool) then _ ← ensure_stop_deadline deadline; mret (inr tt)
  else _ ← sleep_until_stop_recheck deadline deadline; mret (inl tt).

(** No descriptor may be left. *)
Definition require_descriptor_removed (paths : RuntimePaths) (entry : ManagedProcessEntry) : Coord () :=
  r ← call (ReadDescriptor paths);
  match r with
  | Err error =>
      match error with
      | RtIo io => if bool_decide (io_kind_of io = NotFoundKind) then mret tt else fail (CoordRuntime error)
      | _ => fail (CoordRuntime error)
      end
  | Ok observed =>
      fail (denied (if negb (String.eqb (rdesc_broker_instance_id observed) (me_broker_instance_id entry))
                    then "broker instance changed while registered coordinator stopped"
                    else "registered broker descriptor remained after stop"))
  end.

(** The last check of [stop_registered_process]: both processes are looked at before either
    error is returned. *)
Definition require_entry_retired (entry : ManagedProcessEntry) : Coord () :=
  coordinator_retired ← catch (require_registered_process_retired (me_coordinator_pid entry)
                                 (me_coordinator_start entry) (me_executable_path entry));
  broker_retired ← catch (require_registered_process_retired (me_broker_pid entry) (me_broker_start entry)
                            (me_executable_path entry));
  _ ← lift coordinator_retired;
  lift broker_retired.

Definition stop_running_entry (fuel : nat) (paths : RuntimePaths) (entry : ManagedProcessEntry)
    (deadline : Z) : Coord () :=
  _ ← validate_registered_process (me_coordinator_pid entry) (me_coordinator_start entry) entry;
  _ ← validate_registered_process (me_broker_pid entry) (me_broker_start entry) entry;
  r ← call (ReadDescriptor paths);
  descriptor ← lift_runtime r;
  _ ← lift (reject_if (negb (describes_entry entry descriptor))
              (denied "registered broker descriptor identity changed"));
  _ ← require_digest (me_executable_path entry) (me_executable_digest entry) "registered executable digest changed";
  file ← open_coordinator_lock paths false;
  locked ← try_flock file;
  _ ← lift (reject_if locked (denied "registered coordinator is no longer holding its lock"));
  record ← read_record file;
  _ ← lift (reject_if (negb (records_entry entry record))
              (denied "registered coordinator control generation changed"));
  _ ← loop fuel (λ _ : (), drain_turn file record deadline) tt;
  _ ← require_descriptor_removed paths entry;
  _ ← require_entry_retired entry;
  ensure_stop_deadline deadline.

Definition stop_registered_process (fuel : nat) (entry : ManagedProcessEntry) (deadline : Z) : Coord () :=
  _ ← ensure_stop_deadline deadline;
  paths ← entry_paths (me_runtime_root entry) (me_session_key entry) (me_workspace_id entry) (me_scope_key entry)
            "registered runtime scope is inconsistent";
  coordinator_observed ← observed_process_proof (me_coordinator_pid entry);
  broker_observed ← observed_process_proof (me_broker_pid entry);
  if is_none coordinator_observed && is_none broker_observed then clean_retired_entry paths entry deadline
  else stop_running_entry fuel paths entry deadline.

Definition starting_descriptor (paths : RuntimePaths) (entry : ManagedStartingProcessEntry)
    (broker : ManagedStartingBrokerProof) : Coord (option RuntimeDescriptor) :=
  r ← call (ReadDescriptor paths);
  match r with
  | Ok descriptor =>
      if String.eqb (rdesc_session_key descriptor) (se_session_key entry)
         && String.eqb (rdesc_workspace_id descriptor) (se_workspace_id entry)
         && (rdesc_broker_pid descriptor =? sb_broker_pid broker)%Z
         && path_eqb (rdesc_executable_path descriptor) (sb_executable_path broker)
      then mret (Some descriptor)
      else fail (denied "starting broker descriptor identity changed")
  | Err error =>
      match error with
      | RtIo io => if bool_decide (io_kind_of io = NotFoundKind) then mret None else fail (CoordRuntime error)
      | _ => fail (CoordRuntime error)
      end
  end.

Definition unheld_turn (paths : RuntimePaths) (entry : ManagedStartingProcessEntry) (deadline : Z)
    : Coord (() + ()) :=
  opened ← catch (open_coordinator_lock paths false);
  match opened with
  | Fail _ => if is_not_found opened then mret (inr tt) else _ ← lift opened; mret (inr tt)
  | Panic msg => lift (Panic msg)
  | Done file =>
      locked ← try_flock file;
      if (locked : bool) then
        read ← catch (read_record file);
        match read with
        | Done record =>
            if String.eqb (cr_scope_key record) (se_scope_key entry)
               && (cr_pid record =? se_coordinator_pid entry)%Z
               && String.eqb (cr_start_identity record) (se_coordinator_start entry)
            then mret (inr tt)
            else fail (denied "starting coordinator lock identity changed")
        | Fail (CoordIo failure) =>
            if bool_decide (io_kind failure = DataKind) then mret (inr tt) else fail (CoordIo failure)
        | Fail error => fail error
        | Panic msg => lift (Panic msg)
        end
      else
        now ← instant_now;
        let remaining := saturating_duration_since deadline now in
        if (remaining =? 0)%Z then fail (denied "starting coordinator lock remains held")
        else _ ← sleep (Z.min remaining DESCRIPTOR_RECHECK); mret (inl tt)
  end.

Definition wait_for_unheld_starting_coordinator_lock (fuel : nat) (paths : RuntimePaths)
    (entry : ManagedStartingProcessEntry) (deadline : Z) : Coord () :=
  loop fuel (λ _ : (), unheld_turn paths entry deadline) tt.

Definition stop_starting_process (fuel : nat) (entry : ManagedStartingProcessEntry) (deadline : Z) : Coord () :=
  _ ← ensure_stop_deadline deadline;
  paths ← entry_paths (se_runtime_root entry) (se_session_key entry) (se_workspace_id entry) (se_scope_key entry)
            "starting runtime scope is inconsistent";
  _ ← require_digest (se_executable_path entry) (se_executable_digest entry) "starting executable digest changed";
  _ ← validate_reserved_process (se_coordinator_pid entry) (se_coordinator_start entry) (se_executable_path entry);
  coordinator ← observed_process_proof (se_coordinator_pid entry);
  _ ← (if is_none coordinator then wait_for_unheld_starting_coordinator_lock fuel paths entry deadline
       else mret tt);
  _ ← match se_broker entry with
      | Some broker =>
          _ ← validate_reserved_process (sb_broker_pid broker) (sb_broker_start broker) (sb_executable_path broker);
          _ ← starting_descriptor paths entry broker;
          mret tt
      | None => mret tt
      end;
  _ ← force_retire_reserved_process fuel (se_coordinator_pid entry) (se_coordinator_start entry)
        (se_executable_path entry) deadline;
  _ ← match se_broker entry with
      | Some broker =>
          _ ← force_retire_reserved_process fuel (sb_broker_pid broker) (sb_broker_start broker)
                (sb_executable_path broker) deadline;
          found ← starting_descriptor paths entry broker;
          match found with
          | Some descriptor =>
              r ← call (RemoveDescriptor paths (rdesc_broker_instance_id descriptor)); lift_runtime r
          | None => mret tt
          end
      | None => mret tt
      end;
  _ ← wait_for_unheld_starting_coordinator_lock fuel paths entry deadline;
  ensure_stop_deadline deadline.

(** ** Serving *)

Definition is_named (name : string) (path : PathBuf) : bool := bool_decide (file_name path = Some name).

(** [managed_generation_id]: .../generations/<id>/bin/herdr-a2a *)
Definition managed_generation_id (executable : PathBuf) : Outcome CoordError string :=
  let? bin := ok_or (path_parent executable) (denied "managed executable has no bin parent") in
  let? generation := ok_or (path_parent bin) (denied "managed executable has no generation parent") in
  let? generation_id :=
    match file_name generation with
    | Some name => if utf8_valid name then Done name else Fail (denied "managed executable generation name is invalid")
    | None => Fail (denied "managed executable generation name is invalid")
    end in
  let? _ := reject_if
    (negb (is_named "herdr-a2a" executable)
     || negb (is_named "bin" bin)
     || negb match path_parent generation with Some p => is_named "generations" p | None => false end
     || negb (str_len generation_id =? 32)%nat
     || negb (forallb is_lower_hex (as_bytes generation_id)))
    (denied "managed executable generation layout is invalid") in
  Done generation_id.

Definition cleanup_descriptor_for_child (paths : RuntimePaths) (child_pid : Z) : Coord () :=
  r ← call (ReadDescriptor paths);
  match r with
  | Ok descriptor =>
      if (rdesc_broker_pid descriptor =? child_pid)%Z then
        r ← call (RemoveDescriptor paths (rdesc_broker_instance_id descriptor)); lift_runtime r
      else mret tt
  | Err _ => mret tt
  end.

Definition terminate_child : Coord () :=
  id ← call ChildId;
  _ ← match and_then id raw_pid with Some pid => call (Kill pid TERM) | None => mret tt end;
  waited ← call (WaitChild (Some (from_secs 3)));
  match waited with
  | Some result => lift_result result
  | None =>
      r ← call KillChild;
      _ ← lift_result r;
      waited ← call (WaitChild None);
      match waited with Some result => lift_result result | None => mret tt end
  end.

Definition owned_descriptor_turn (paths : RuntimePaths) (child_pid deadline : Z)
    : Coord (() + RuntimeDescriptor) :=
  now ← instant_now;
  if (deadline <=? now)%Z then
    _ ← terminate_child; fail (io_error ExpiredKind "broker descriptor publication timed out")
  else
    found ← protected_descriptor paths deadline;
    match found with
    | Some descriptor =>
        if negb (rdesc_broker_pid descriptor =? child_pid)%Z then
          _ ← terminate_child;
          fail (denied "published broker descriptor does not belong to the owned child")
        else mret (inr descriptor)
    | None =>
        exited ← call (WaitChild (Some DESCRIPTOR_RECHECK));
        match exited with
        | Some status =>
            _ ← lift_result status;
            fail (io_error OtherIoKind "broker exited before descriptor publication")
        | None => mret (inl tt)
        end
    end.

Definition wait_for_owned_descriptor (fuel : nat) (paths : RuntimePaths) (child_pid deadline : Z)
    : Coord RuntimeDescriptor :=
  loop fuel (λ _ : (), owned_descriptor_turn paths child_pid deadline) tt.

(** [Drop] of [ManagedStartingReservation] *)
Definition drop_reservation (active : bool) (entry : ManagedStartingProcessEntry) : Coord () :=
  if active then call (UnregisterStart entry) else mret tt.

Definition with_broker (entry : ManagedStartingProcessEntry) (broker : ManagedStartingBrokerProof)
    : ManagedStartingProcessEntry :=
  MkManagedStartingProcessEntry (se_runtime_root entry) (se_session_key entry) (se_workspace_id entry)
    (se_scope_key entry) (se_coordinator_pid entry) (se_coordinator_start entry) (se_executable_path entry)
    (se_executable_digest entry) (se_expected_generation entry) (se_control_port entry) (se_control_nonce entry)
    (Some broker).

(** [registration_process_proof], which must find the process. *)
Definition registration_process_proof (pid : Z) (message : string) : Coord ProcessProof :=
  observed ← observed_process_proof pid; lift (ok_or observed (denied message)).

Definition coordinator_record (paths : RuntimePaths) (pid port : Z) (nonce start : string)
    (broker : option (string * string)) : CoordinatorRecord :=
  MkCoordinatorRecord pid start (scope_key (rp_scope paths)) port nonce (fst <$> broker) (snd <$> broker).

(** A broker that was spawned: its pid and proof, the canonical path of its executable, and
    the entry as it is then reserved. *)
Record Spawned := MkSpawned {
  sp_pid : Z;
  sp_proof : ProcessProof;
  sp_executable_path : PathBuf;
  sp_entry : ManagedStartingProcessEntry;
}.

(** The record is published, the broker spawned and its identity bound to the reservation. *)
Definition spawn_broker (paths : RuntimePaths) (file : nat) (active : bool) (entry : ManagedStartingProcessEntry)
    : Coord Spawned :=
  spawned ← on_error (
      _ ← write_record file (coordinator_record paths (se_coordinator_pid entry) (se_control_port entry)
                               (se_control_nonce entry) (se_coordinator_start entry) None);
      r ← call (BrokerEnvironment paths);
      _ ← lift (of_result r);
      r ← call (SpawnBroker (se_executable_path entry));
      id ← lift_result r;
      child_pid ← lift (ok_or id (io_error OtherIoKind "broker child has no process ID"));
      r ← call (Canonicalize (se_executable_path entry));
      executable_path ← lift_result r;
      proof ← registration_process_proof child_pid
                "broker process identity disappeared before starting proof publication";
      mret (MkSpawned child_pid proof executable_path entry))
    (drop_reservation active entry);
  let broker := MkManagedStartingBrokerProof (sp_pid spawned) (pp_start_identity (sp_proof spawned))
                  (sp_executable_path spawned) (se_executable_digest entry) in
  if active then
    _ ← on_error (r ← call (BindStart entry broker); lift_managed r) (drop_reservation active entry);
    mret (MkSpawned (sp_pid spawned) (sp_proof spawned) (sp_executable_path spawned) (with_broker entry broker))
  else mret spawned.

Definition other_executable (proof : ProcessProof) (path : PathBuf) : bool :=
  match pp_executable proof with Some observed => negb (path_eqb observed path) | None => false end.

(** From the spawned broker to the registered one: the descriptor, the entry of the registry
    and whether it was registered. *)
Definition adopt_broker (fuel : nat) (paths : RuntimePaths) (file : nat) (coordinator_proof : ProcessProof)
    (spawned : Spawned) : Coord (RuntimeDescriptor * ManagedProcessEntry * bool) :=
  now ← instant_now;
  waited ← catch (wait_for_owned_descriptor fuel paths (sp_pid spawned) (now + DEFAULT_ENSURE_TIMEOUT));
  descriptor ← match waited with
      | Done descriptor => mret descriptor
      | o => _ ← cleanup_descriptor_for_child paths (sp_pid spawned); lift o
      end;
  if other_executable coordinator_proof (sp_executable_path spawned)
     || other_executable (sp_proof spawned) (sp_executable_path spawned)
     || negb (path_eqb (rdesc_executable_path descriptor) (sp_executable_path spawned))
     || negb (rdesc_broker_pid descriptor =? sp_pid spawned)%Z
  then
    _ ← terminate_child;
    _ ← cleanup_descriptor_for_child paths (sp_pid spawned);
    fail (denied "managed process executable or descriptor identity changed")
  else
    let entry := sp_entry spawned in
    let process_entry := MkManagedProcessEntry (rp_root paths) (scope_session_key (rp_scope paths))
      (scope_workspace_id (rp_scope paths)) (scope_key (rp_scope paths)) (se_coordinator_pid entry)
      (pp_start_identity coordinator_proof) (sp_pid spawned) (pp_start_identity (sp_proof spawned))
      (rdesc_broker_instance_id descriptor) (sp_executable_path spawned) (se_executable_digest entry)
      (se_control_port entry) (se_control_nonce entry) in
    _ ← write_record file (coordinator_record paths (se_coordinator_pid entry) (se_control_port entry)
          (se_control_nonce entry) (pp_start_identity coordinator_proof)
          (Some (rdesc_broker_instance_id descriptor, pp_start_identity (sp_proof spawned))));
    r ← call (RegisterProcess process_entry);
    match r with
    | Ok registered => mret (descriptor, process_entry, registered)
    | Err error =>
        _ ← terminate_child;
        _ ← cleanup_descriptor_for_child paths (sp_pid spawned);
        fail (CoordManaged error)
    end.

(** What ends the supervision; the outcome of waiting for the child. *)
Definition supervise : Coord (Outcome CoordError ()) :=
  event ← call AwaitServe;
  match event with
  | ChildExited status => mret (map_error CoordIo (of_result status))
  | ShutdownSignal => catch terminate_child
  | ControlRequest result => _ ← lift_result result; catch terminate_child
  end.

(** [serve] from the reservation to the end of the broker, with the liveness pipe open. *)
Definition serve_broker (fuel : nat) (paths : RuntimePaths) (file : nat) (port : Z) (nonce : string)
    : Coord (RuntimeDescriptor * ManagedProcessEntry * bool * Outcome CoordError ()) :=
  r ← call CurrentExe;
  executable ← lift_result r;
  pid ← call CurrentPid;
  coordinator_proof ← registration_process_proof pid "coordinator process identity disappeared before publication";
  r ← call (ExecutableDigest executable);
  digest ← lift_managed r;
  generation ← lift (managed_generation_id executable);
  let entry := MkManagedStartingProcessEntry (rp_root paths) (scope_session_key (rp_scope paths))
    (scope_workspace_id (rp_scope paths)) (scope_key (rp_scope paths)) pid (pp_start_identity coordinator_proof)
    executable digest generation port nonce None in
  r ← call (ReserveStart entry);
  active ← lift_managed r;
  spawned ← spawn_broker paths file active entry;
  adopted ← on_error (adopt_broker fuel paths file coordinator_proof spawned)
              (drop_reservation active (sp_entry spawned));
  child_result ← supervise;
  mret (adopted, child_result).

Definition serve_locked (fuel : nat) (paths : RuntimePaths) (file : nat) : Coord () :=
  now ← instant_now;
  found ← protected_descriptor paths (now + DEFAULT_ENSURE_TIMEOUT);
  if is_some found then mret tt
  else
    r ← call InstallSignals;
    _ ← lift_result r;
    r ← call BindControl;
    control ← lift_result r;
    r ← call OpenLiveness;
    _ ← lift_result r;
    served ← on_error (serve_broker fuel paths file control.1 (hex_encode control.2)) (call CloseLiveness);
    let '(descriptor, process_entry, registered, child_result) := served in
    _ ← call CloseLiveness;
    cleanup ← call (RemoveDescriptor paths (rdesc_broker_instance_id descriptor));
    _ ← lift child_result;
    _ ← lift_runtime cleanup;
    if (registered : bool) then r ← call (UnregisterProcess process_entry); lift_managed r else mret tt.

Definition serve (fuel : nat) : Coord () :=
  paths ← discover_paths;
  lock ← acquire_coordinator_lock paths;
  match lock with
  | Some file => finally (serve_locked fuel paths file) (call (CloseLock file))
  | None =>
      now ← instant_now;
      _ ← wait_for_protected_descriptor fuel paths (now + DEFAULT_ENSURE_TIMEOUT) false;
      mret tt
  end.
End functions.
