(* ===== verification/CoordinatorTheorems.v ===== *)
(** * Theorems about the coordinator

    What the coordinator's commands may do to other processes and when they claim success,
    for every behaviour of the outside: a process is killed only after its identity was
    seen, a stop goes to the coordinator that the lock names, a restart ends with a proved
    replacement, and a broker is spawned once and under the lock. *)
From stdpp Require Import prelude gmap strings.
From S2P Require Import Prelude RustStd CliText Model Ledger Api Generation Recovery Runtime Coordinator.

Create HintDb calm.

Section logic.
Context {serde : RuntimeSerde}.

(** [m] ends and its outcome satisfies [Q]. *)
Definition ends {A} (m : Coord A) (Q : Outcome CoordError A → CoordWorld → Prop) (w : CoordWorld) : Prop :=
  ∃ o w', m w = Some (o, w') ∧ Q o w'.

(** [Q] for the outcome of a bind, from a property of what follows a result. *)
Definition bound {A B} (Q : Outcome CoordError B → CoordWorld → Prop) (next : A → CoordWorld → Prop)
    (o : Outcome CoordError A) (w : CoordWorld) : Prop :=
  match o with Done a => next a w | Fail e => Q (Fail e) w | Panic msg => Q (Panic msg) w end.

Lemma ends_ret {A} (a : A) Q w : Q (Done a) w → ends (mret a) Q w.
Proof. intros HQ. by exists (Done a), w. Qed.
Lemma ends_lift {A} (o : Outcome CoordError A) Q w : Q o w → ends (lift o) Q w.
Proof. intros HQ. by exists o, w. Qed.
Lemma ends_bind {A B} (m : Coord A) (k : A → Coord B) Q w :
  ends m (bound Q (λ a, ends (k a) Q)) w → ends (m ≫= k) Q w.
Proof.
  intros (o & w1 & Hm & Hk). unfold ends, mbind, coord_bind. rewrite Hm.
  destruct o; [exact Hk|by eexists _, _..].
Qed.
Lemma ends_mono {A} (m : Coord A) (P Q : Outcome CoordError A → CoordWorld → Prop) w :
  ends m P w → (∀ o w', P o w' → Q o w') → ends m Q w.
Proof. intros (o & w' & Hm & HP) HPQ. exists o, w'. auto. Qed.
Lemma ends_catch {A} (m : Coord A) Q w : ends m (λ o, Q (Done o)) w → ends (catch m) Q w.
Proof. intros (o & w' & Hm & HQ). exists (Done o), w'. unfold catch. by rewrite Hm. Qed.

Lemma ends_reject {B} b e (k : () → Coord B) (Q : Outcome CoordError B → CoordWorld → Prop) w :
  (b = true → Q (Fail e) w) → (b = false → ends (k tt) Q w) → ends (u ← lift (reject_if b e); k u) Q w.
Proof. intros Ht Hf. apply ends_bind, ends_lift. destruct b; simpl; auto. Qed.

(** *** What happens on the way *)

(** The answer of the last call that [f] picks. *)
Fixpoint last_answer {B} (f : ∀ A, CoordCall A → A → option B) (h : History) : option B :=
  match h with
  | [] => None
  | MkCoordEntry _ c answer :: h =>
      match f _ c answer with Some b => Some b | None => last_answer f h end
  end.

(** The calls from [h] on satisfy [P], each with the history before it. *)
Inductive Extends (P : CoordEntry → History → Prop) (h : History) : History → Prop :=
| Extends_refl : Extends P h h
| Extends_call e h' : Extends P h h' → P e h' → Extends P h (e :: h').

#[global] Instance extends_preorder P : PreOrder (Extends P).
Proof.
  split; [constructor|]. intros h1 h2 h3 H12 H23. induction H23; [done|by constructor].
Qed.

Lemma extends_suffix P h h' : Extends P h h' → h `suffix_of` h'.
Proof. induction 1; [done|by apply suffix_cons_r]. Qed.

Lemma extends_mono (P Q : CoordEntry → History → Prop) h h' :
  (∀ e h, P e h → Q e h) → Extends P h h' → Extends Q h h'.
Proof. intros HPQ. induction 1; constructor; auto. Qed.

Lemma extends_elem P h e before : Extends P [] h → e :: before `suffix_of` h → P e before.
Proof.
  intros He [new Heq]. revert new Heq. induction He as [|e' h' He IH HP]; intros new Heq.
  - by destruct new.
  - destruct new as [|x new]; simplify_eq/=; [done|]. by eapply IH.
Qed.

Record Steps (P : CoordEntry → History → Prop) (w w' : CoordWorld) : Prop := MkSteps {
  steps_clock : (cw_clock w ≤ cw_clock w')%Z;
  steps_history : Extends P (cw_history w) (cw_history w');
}.

#[global] Instance coord_steps_preorder P : PreOrder (Steps P).
Proof.
  split; [by intros w; split|]. intros w1 w2 w3 [C1 E1] [C2 E2]. split; [lia|by etrans].
Qed.

Lemma steps_mono (P Q : CoordEntry → History → Prop) w w' :
  (∀ e h, P e h → Q e h) → Steps P w w' → Steps Q w w'.
Proof. intros HPQ [C E]. split; [done|by eapply extends_mono]. Qed.

(** Functions that end whatever happens, making only calls of [P]. *)
Definition calm (P : CoordEntry → History → Prop) {A} (m : Coord A) : Prop :=
  ∀ w, ends m (λ _ w', Steps P w w') w.

Lemma calm_ret P {A} (a : A) : calm P (mret a).
Proof. intros w. by apply ends_ret. Qed.
Lemma calm_lift P {A} (o : Outcome CoordError A) : calm P (lift o).
Proof. intros w. by apply ends_lift. Qed.
Lemma calm_bind P {A B} (m : Coord A) (k : A → Coord B) : calm P m → (∀ a, calm P (k a)) → calm P (m ≫= k).
Proof.
  intros Hm Hk w. apply ends_bind. eapply ends_mono; [apply Hm|]. intros o w1 S1.
  destruct o as [a| |]; simpl; [|done..]. eapply ends_mono; [apply Hk|]. intros o w2 S2. by etrans.
Qed.
Lemma calm_catch P {A} (m : Coord A) : calm P m → calm P (catch m).
Proof. intros Hm w. apply ends_catch. eapply ends_mono; [apply Hm|]. auto. Qed.
Lemma calm_mono (P Q : CoordEntry → History → Prop) {A} (m : Coord A) :
  (∀ e h, P e h → Q e h) → calm P m → calm Q m.
Proof. intros HPQ Hm w. eapply ends_mono; [apply Hm|]. intros o w'. by apply steps_mono. Qed.
Lemma calm_then P {A} (m : Coord A) Q w :
  calm P m → (∀ o w', Steps P w w' → Q o w') → ends m Q w.
Proof. intros Hm HQ. eapply ends_mono; [apply Hm|]. auto. Qed.
End logic.

Section calls.
Context {serde : RuntimeSerde} {crypto : ApiCrypto} {coord_serde : CoordSerde}.
Context (outside : Outside) (uid : Z) (P : CoordEntry → History → Prop).

Lemma call_ends {A} (c : CoordCall A) Q w :
  (∀ answer, P (MkCoordEntry (cw_clock w) c answer) (cw_history w)) →
  (∀ answer w', Steps P w w' → cw_history w' = MkCoordEntry (cw_clock w) c answer :: cw_history w →
    (cw_clock w + least_time c answer ≤ cw_clock w')%Z → Q (Done answer) w') →
  ends (call outside c) Q w.
Proof.
  intros HP HQ. unfold ends, call. destruct (outside A c (cw_history w)) as [answer elapsed].
  eexists _, _. split; [done|]. apply HQ; simpl; [|done|lia].
  split; simpl; [lia|]. constructor; [constructor|apply HP].
Qed.

Lemma now_ends Q w :
  P (MkCoordEntry (cw_clock w) Now tt) (cw_history w) →
  (∀ w', Steps P w w' → cw_history w' = MkCoordEntry (cw_clock w) Now tt :: cw_history w →
    Q (Done (cw_clock w')) w') →
  ends (instant_now outside) Q w.
Proof.
  intros HP HQ. destruct (call_ends Now (λ _ w', Q (Done (cw_clock w')) w') w) as (o & w' & Hw' & HQ').
  - by intros [].
  - intros [] w' Hs Hh _. auto.
  - exists (Done (cw_clock w')), w'. unfold instant_now. by rewrite Hw'.
Qed.

Lemma calm_call {A} (c : CoordCall A) :
  (∀ t answer h, P (MkCoordEntry t c answer) h) → calm P (call outside c).
Proof. intros HP w. apply call_ends; [auto|]. auto. Qed.

Lemma calm_now : (∀ t h, P (MkCoordEntry t Now tt) h) → calm P (instant_now outside).
Proof. intros HP w. apply now_ends; auto. Qed.

(** A loop ends when each turn that goes on starts before the deadline and takes some time
    or reaches the deadline. *)
Lemma loop_ends {S A} (quantum : Z) (body : S → Coord (S + A)) (deadline : Z) (I : S → CoordWorld → Prop) Q fuel s w :
  (0 < quantum)%Z →
  (∀ s w, I s w → ends (body s) (λ o w',
      match o with
      | Done (inl s') => I s' w' ∧ (cw_clock w < deadline)%Z
          ∧ (cw_clock w + quantum ≤ cw_clock w' ∨ deadline ≤ cw_clock w')%Z
      | Done (inr a) => Q (Done a) w'
      | Fail e => Q (Fail e) w'
      | Panic msg => Q (Panic msg) w'
      end) w) →
  I s w → (deadline - cw_clock w ≤ Z.of_nat fuel * quantum)%Z →
  ends (loop (Datatypes.S fuel) body s) Q w.
Proof.
  intros Hquantum Hbody. revert s w. induction fuel as [|fuel IH]; intros s w HI Hfuel.
  all: apply ends_bind; eapply ends_mono; [by apply Hbody|]; intros [[s'|a]|e|msg] w1 Ho; simpl; [|by apply ends_ret|done..].
  - destruct Ho as (_ & Hlt & _). lia.
  - destruct Ho as (HI' & Hlt & Hprogress). apply IH; [done|]. nia.
Qed.

(** *** Deadlines *)

Context (Hnow : ∀ t h, P (MkCoordEntry t Now tt) h) (Hsleep : ∀ t d h, P (MkCoordEntry t (Sleep d) tt) h).

Lemma calm_ensure_stop_deadline deadline : calm P (ensure_stop_deadline outside deadline).
Proof. apply calm_bind; [by apply calm_now|]. intros now. apply calm_lift. Qed.

Lemma calm_bounded_stop_deadline shared limit : calm P (bounded_stop_deadline outside shared limit).
Proof.
  apply calm_bind; [apply calm_ensure_stop_deadline|]. intros _.
  apply calm_bind; [by apply calm_now|]. intros now. apply calm_ret.
Qed.

Lemma bounded_stop_deadline_ends shared limit Q w :
  (∀ o w', Steps P w w' → (∀ phase, o = Done phase → (phase ≤ cw_clock w' + limit)%Z) → Q o w') →
  ends (bounded_stop_deadline outside shared limit) Q w.
Proof.
  intros HQ. apply ends_bind. eapply calm_then; [apply calm_ensure_stop_deadline|]. intros o w1 S1.
  destruct o as [[]| |]; simpl; [|by apply HQ..].
  apply ends_bind, now_ends; [done|]. intros w2 S2 _. apply ends_ret, HQ; [by etrans|].
  intros phase [= <-]. lia.
Qed.

Lemma sleep_until_stop_recheck_ends shared wake Q w :
  (∀ o w', Steps P w w' →
     (o = Done tt → (cw_clock w + DESCRIPTOR_RECHECK ≤ cw_clock w' ∨ wake ≤ cw_clock w')%Z) → Q o w') →
  ends (sleep_until_stop_recheck outside shared wake) Q w.
Proof.
  intros HQ. apply ends_bind. eapply calm_then; [apply calm_ensure_stop_deadline|]. intros o w1 S1.
  destruct o as [[]| |]; simpl; [|by apply HQ..]. pose proof (steps_clock _ _ _ S1).
  apply ends_bind, now_ends; [done|]. intros w2 S2 _. pose proof (steps_clock _ _ _ S2). cbn [bound]. cbv zeta.
  unfold saturating_duration_since. destruct (Z.eqb_spec (Z.max 0 (wake - cw_clock w2)) 0).
  - apply ends_ret, HQ; [by etrans|]. lia.
  - apply ends_bind, call_ends; [by intros []|]. intros [] w3 S3 _ Hc. simpl in Hc.
    eapply calm_then; [apply calm_ensure_stop_deadline|]. intros o w4 S4. apply HQ.
    + etrans; [exact S1|]. etrans; [exact S2|]. by etrans.
    + intros _. pose proof (steps_clock _ _ _ S4). lia.
Qed.

Lemma observed_ends pid Q w :
  (∀ t read h, P (MkCoordEntry t (ReadProc pid) read) h) →
  (∀ read w', Steps P w w' → cw_history w' = MkCoordEntry (cw_clock w) (ReadProc pid) read :: cw_history w →
     Q (map_error CoordIo (process_proof read)) w') →
  ends (observed_process_proof outside pid) Q w.
Proof.
  intros HP HQ. apply ends_bind, call_ends; [done|]. intros read w1 S1 Hh _. apply ends_lift. auto.
Qed.
End calls.

(** ** Retiring a process *)

Section retiring.
Context {serde : RuntimeSerde} {crypto : ApiCrypto} {coord_serde : CoordSerde}.

(** The last look at a process: its pid and what [/proc] said. *)
Definition last_read : History → option (Z * ProcRead) :=
  last_answer (λ A c, match c in CoordCall A return A → option (Z * ProcRead) with
                      | ReadProc pid => λ read, Some (pid, read)
                      | _ => λ _, None
                      end).

(** The process was last seen to be gone, or to be the one with this identity. *)
Definition seen_absent (pid : Z) (h : History) : Prop :=
  ∃ read, last_read h = Some (pid, read) ∧ process_proof read = Done None.
Definition seen_alive (pid : Z) (start : string) (executable : PathBuf) (h : History) : Prop :=
  ∃ read proof, last_read h = Some (pid, read) ∧ process_proof read = Done (Some proof)
    ∧ is_process start executable proof = true.

(** The calls that retire a process. *)
Definition retire_call (pid : Z) (start : string) (executable : PathBuf) (e : CoordEntry) (h : History) : Prop :=
  match e with
  | MkCoordEntry _ c _ =>
      match c with
      | Now | Sleep _ => True
      | ReadProc read_pid => read_pid = pid
      | Kill killed signal => killed = pid ∧
          (seen_alive pid start executable h ∨ (signal = KILL ∧ seen_absent pid h))
      | _ => False
      end
  end.

Context (outside : Outside) (pid : Z) (start : string) (executable : PathBuf) (deadline : Z).
(** The two waits are of 1 s and 3 s, in turns of 25 ms. *)
Context (fuel : nat) (Hfuel : 120 ≤ fuel).
Local Abbreviation allowed := (retire_call pid start executable).

Lemma await_absence_ends phase w :
  (phase - cw_clock w ≤ from_secs 3)%Z →
  ends (await_absence outside (S fuel) pid deadline phase)
    (λ o w', Steps allowed w w' ∧ (o = Done true → seen_absent pid (cw_history w'))) w.
Proof.
  intros Hphase. apply (loop_ends DESCRIPTOR_RECHECK _ phase (λ _ w', Steps allowed w w')); [done| |done|].
  2: { change (from_secs 3) with (120 * DESCRIPTOR_RECHECK)%Z in Hphase.
       assert (0 < DESCRIPTOR_RECHECK)%Z by done. nia. }
  intros [] w0 S0. apply ends_bind, (now_ends _ allowed); [done|]. intros w1 S1 _.
  pose proof (steps_clock _ _ _ S1). cbn [bound].
  assert (Steps allowed w w1) as S01 by (by etrans).
  destruct (Z.leb_spec phase (cw_clock w1)); [by apply ends_ret|].
  apply ends_bind, (observed_ends _ allowed); [done|]. intros read w2 S2 Hh.
  assert (Steps allowed w w2) as S02 by (by etrans). pose proof (steps_clock _ _ _ S2).
  destruct (process_proof read) as [[proof|]| |] eqn:Hproof; cbn [bound map_error]; [| |done..].
  - apply ends_bind, (sleep_until_stop_recheck_ends _ allowed); [done..|]. intros o w3 S3 Hc.
    assert (Steps allowed w w3) by (by etrans). destruct o as [[]| |]; cbn [bound]; [|done..].
    apply ends_ret. split_and!; [done|lia|]. specialize (Hc eq_refl). lia.
  - apply ends_bind, ends_bind, (now_ends _ allowed); [done|]. intros w3 S3 Hh3. apply ends_lift.
    assert (Steps allowed w w3) by (by etrans). destruct (reject_if _ _) as [[]| |]; cbn [bound]; [|done..].
    apply ends_ret. split; [done|]. intros _. exists read. by rewrite Hh3, Hh.
Qed.

(** A signal, and the wait for its effect. *)
Lemma kill_phase_ends signal limit (k : bool → Coord ()) w0 w :
  (limit ≤ from_secs 3)%Z → Steps allowed w0 w →
  seen_alive pid start executable (cw_history w) ∨ (signal = KILL ∧ seen_absent pid (cw_history w)) →
  (∀ gone w', Steps allowed w0 w' → (gone = true → seen_absent pid (cw_history w')) →
    ends (k gone) (λ o w2, Steps allowed w0 w2 ∧ (o = Done tt → seen_absent pid (cw_history w2))) w') →
  ends (_ ← call outside (Kill pid signal);
        phase ← bounded_stop_deadline outside deadline limit;
        gone ← await_absence outside (S fuel) pid deadline phase;
        k gone)
    (λ o w2, Steps allowed w0 w2 ∧ (o = Done tt → seen_absent pid (cw_history w2))) w.
Proof.
  intros Hlimit S0 Hkill Hk. apply ends_bind, (call_ends _ allowed); [done|]. intros [] w1 S1 _ _. cbn [bound].
  apply ends_bind, (bounded_stop_deadline_ends _ allowed); [done..|]. intros o w2 S2 Hphase.
  assert (Steps allowed w0 w2) by (etrans; [exact S0|by etrans]).
  destruct o as [phase| |]; cbn [bound]; [|done..]. specialize (Hphase phase eq_refl).
  apply ends_bind. eapply ends_mono; [apply await_absence_ends; lia|]. intros o w3 [S3 Hgone].
  assert (Steps allowed w0 w3) by (by etrans).
  destruct o as [gone| |]; cbn [bound]; [|done..]. apply Hk; [done|]. intros ->. auto.
Qed.

(** The last resort, and what is checked after it. *)
Lemma last_phase_ends w0 w :
  Steps allowed w0 w →
  seen_alive pid start executable (cw_history w) ∨ (KILL = KILL ∧ seen_absent pid (cw_history w)) →
  ends (_ ← call outside (Kill pid KILL);
        kill_deadline ← bounded_stop_deadline outside deadline (from_secs 3);
        gone ← await_absence outside (S fuel) pid deadline kill_deadline;
        if (gone : bool) then mret tt
        else _ ← ensure_stop_deadline outside deadline;
             require_registered_process_retired outside pid start executable)
    (λ o w2, Steps allowed w0 w2 ∧ (o = Done tt → seen_absent pid (cw_history w2))) w.
Proof.
  intros S0 Hkill.
  apply (kill_phase_ends KILL (from_secs 3) (λ gone, if gone then mret tt
     else _ ← ensure_stop_deadline outside deadline;
          require_registered_process_retired outside pid start executable)); [done..|].
  intros gone w1 S1 Hgone. destruct gone; [by apply ends_ret; auto|].
  apply ends_bind. eapply calm_then; [by apply (calm_ensure_stop_deadline _ allowed)|]. intros o w2 S2.
  assert (Steps allowed w0 w2) by (by etrans). destruct o as [[]| |]; cbn [bound]; [|done..].
  apply ends_bind, (observed_ends _ allowed); [done|]. intros read w3 S3 Hh.
  assert (Steps allowed w0 w3) by (by etrans).
  destruct (process_proof read) as [[proof|]| |] eqn:Hproof; cbn [bound map_error]; [by apply ends_lift| |done..].
  apply ends_ret. split; [done|]. intros _. exists read. by rewrite Hh.
Qed.

Lemma force_retire_ends w :
  ends (force_retire_reserved_process outside (S fuel) pid start executable deadline)
    (λ o w', Steps allowed w w' ∧ (o = Done tt → seen_absent pid (cw_history w'))) w.
Proof.
  apply ends_bind. eapply calm_then; [by apply (calm_ensure_stop_deadline _ allowed)|].
  intros o w1 S1. destruct o as [[]| |]; cbn [bound]; [|done..].
  apply ends_bind, (observed_ends _ allowed); [done|]. intros read w2 S2 Hh2.
  assert (Steps allowed w w2) as S02 by (by etrans).
  destruct (process_proof read) as [[proof|]| |] eqn:Hproof; cbn [bound map_error]; [| |done..].
  2: { apply ends_bind, (now_ends _ allowed); [done|]. intros w3 S3 Hh3. apply ends_lift. split; [by etrans|].
       intros _. exists read. by rewrite Hh3, Hh2. }
  destruct (is_process start executable proof) eqn:His; cbn [negb]; [|by apply ends_lift].
  apply ends_bind, ends_lift. unfold raw_pid. case_match; cbn [ok_or bound]; [|done].
  apply kill_phase_ends; [done|done| |].
  { left. exists read, proof. by rewrite Hh2. }
  intros gone w3 S3 Hgone. destruct gone; [by apply ends_ret; auto|].
  apply ends_bind. eapply calm_then; [by apply (calm_ensure_stop_deadline _ allowed)|]. intros o w4 S4.
  assert (Steps allowed w w4) as S04 by (by etrans). destruct o as [[]| |]; cbn [bound]; [|done..].
  apply ends_bind, ends_bind, (observed_ends _ allowed); [done|]. intros read' w5 S5 Hh5.
  assert (Steps allowed w w5) as S05 by (by etrans).
  destruct (process_proof read') as [[proof'|]| |] eqn:Hproof'; cbn [bound map_error]; [| |done..].
  - apply ends_lift. unfold reject_if. destruct (is_process start executable proof') eqn:His'; cbn [negb bound]; [|done].
    apply last_phase_ends; [done|]. left. exists read', proof'. by rewrite Hh5.
  - apply ends_ret, last_phase_ends; [done|]. right. split; [done|]. exists read'. by rewrite Hh5.
Qed.
End retiring.

(** ** Calls that change nothing *)

(** Looking at the clock, the runtime directory, the lock file and processes. *)
Definition harmless {serde : RuntimeSerde} {A} (c : CoordCall A) : bool :=
  match c with
  | Now | Sleep _ | SleepOrChange _ | Discover | ReadDescriptor _ | DescriptorExists _ | BuildClient _ _
  | VerifyProof _ _ | NewWatcher _ | OpenLock _ false | StatLock _ | ChmodLock _ | Flock _ | ReadLock _
  | ReadProc _ | ExecutableDigest _ => true
  | _ => false
  end.

Class Harmless {serde : RuntimeSerde} (P : CoordEntry → History → Prop) : Prop :=
  harmless_call A (c : CoordCall A) t answer h : harmless c = true → P (MkCoordEntry t c answer) h.

Ltac calmly :=
  repeat first
    [ apply calm_ret | apply calm_lift | apply calm_catch
    | apply calm_bind; [|intros ?]
    | apply calm_call; intros; by apply harmless_call
    | apply calm_now; intros; by apply harmless_call
    | case_match ].

Ltac quiet := solve [typeclasses eauto with calm typeclass_instances].

(** The first function of a sequence, when it makes harmless calls only. *)
Ltac quietly P w :=
  apply ends_bind; eapply (calm_then P); [quiet|]; intros ? ? ?;
  match goal with
  | S : Steps P ?w1 ?w2 |- bound _ _ ?o ?w2 =>
      first [constr_eq w1 w | assert (Steps P w w2) by (etrans; [|exact S]; assumption); clear S];
      destruct o; cbn [bound]; [|done..]
  end.

Section quiet.
Context {serde : RuntimeSerde} {crypto : ApiCrypto} {coord_serde : CoordSerde}.
Context (outside : Outside) (uid : Z) (P : CoordEntry → History → Prop) `{!Harmless P}.

Lemma calm_discover_paths : calm P (discover_paths outside).
Proof. unfold discover_paths. calmly. Qed.
Lemma calm_try_flock file : calm P (try_flock outside file).
Proof. unfold try_flock, fail. calmly. Qed.
Lemma calm_open_lock paths : calm P (open_coordinator_lock outside uid paths false).
Proof. unfold open_coordinator_lock, fail, lift_result, lift_io. calmly. Qed.
Lemma calm_read_record file : calm P (read_record outside file).
Proof. unfold read_record, lift_result, lift_io. calmly. Qed.
Lemma calm_observed pid : calm P (observed_process_proof outside pid).
Proof. unfold observed_process_proof, lift_io. calmly. Qed.
Lemma calm_validate_reserved pid start exe : calm P (validate_reserved_process outside pid start exe).
Proof. apply calm_bind; [apply calm_observed|]. intros o. calmly. Qed.
Lemma calm_require_retired pid start exe : calm P (require_registered_process_retired outside pid start exe).
Proof. apply calm_bind; [apply calm_observed|]. intros o. unfold fail. calmly. Qed.
Lemma calm_require_proof pid start exe : calm P (require_process_proof outside pid start exe).
Proof. apply calm_bind; [apply calm_observed|]. intros o. unfold fail. calmly. Qed.
Lemma calm_validate_registered pid start entry : calm P (validate_registered_process outside pid start entry).
Proof. apply calm_bind; [apply calm_observed|]. intros o. unfold fail. calmly. Qed.
Lemma calm_require_digest path digest message : calm P (require_digest outside path digest message).
Proof. unfold require_digest, lift_managed. calmly. Qed.
Lemma calm_entry_paths root session workspace scope message :
  calm P (entry_paths root session workspace scope message).
Proof. unfold entry_paths. calmly. Qed.
Lemma calm_protected_descriptor paths deadline : calm P (protected_descriptor outside paths deadline).
Proof. unfold protected_descriptor, fail. calmly. Qed.
Lemma calm_deadline deadline : calm P (ensure_stop_deadline outside deadline).
Proof. apply calm_ensure_stop_deadline. intros. by apply harmless_call. Qed.
Lemma calm_check_expected paths record expected : calm P (check_expected outside paths record expected).
Proof. unfold check_expected. calmly. Qed.
Lemma calm_descriptor_removed paths entry : calm P (require_descriptor_removed outside paths entry).
Proof. unfold require_descriptor_removed, fail. calmly. Qed.
Lemma calm_starting_descriptor paths entry broker : calm P (starting_descriptor outside paths entry broker).
Proof. unfold starting_descriptor, fail. calmly. Qed.

Lemma observed_absent pid w :
  ends (observed_process_proof outside pid)
    (λ o w', Steps P w w' ∧ (o = Done None → seen_absent pid (cw_history w'))) w.
Proof.
  apply (observed_ends _ P); [intros; by apply harmless_call|]. intros read w1 S1 Hh. split; [done|].
  destruct (process_proof read) as [o| |] eqn:Hproof; [|done..]. intros [= ->]. exists read. by rewrite Hh.
Qed.

Lemma require_gone_ends pid start exe w :
  ends (require_registered_process_retired outside pid start exe)
    (λ o w', Steps P w w' ∧ (o = Done tt → seen_absent pid (cw_history w'))) w.
Proof.
  apply ends_bind. eapply ends_mono; [apply observed_absent|]. intros o w1 [S1 Habs].
  destruct o as [[proof|]| |]; cbn [bound]; [by apply ends_lift| |done..]. apply ends_ret. auto.
Qed.
End quiet.

#[export] Hint Resolve calm_ret calm_lift calm_discover_paths calm_try_flock calm_open_lock calm_read_record calm_observed
  calm_validate_reserved calm_validate_registered calm_require_retired calm_require_proof calm_require_digest calm_entry_paths
  calm_protected_descriptor calm_deadline calm_check_expected calm_starting_descriptor
  calm_descriptor_removed : calm.

(** ** Stopping a process that is starting *)

(** At some point from [h] to [h']. *)
Definition since {serde : RuntimeSerde} (h h' : History) (Φ : History → Prop) : Prop :=
  ∃ g, h `suffix_of` g ∧ g `suffix_of` h' ∧ Φ g.

Section since.
Context {serde : RuntimeSerde}.

Lemma since_weaken h0 h h' h1 Φ :
  h0 `suffix_of` h → h' `suffix_of` h1 → since h h' Φ → since h0 h1 Φ.
Proof. intros H0 H1 (g & Hg & Hg' & HΦ). exists g. split_and!; [by etrans..|done]. Qed.
Lemma since_now h h' (Φ : History → Prop) : h `suffix_of` h' → Φ h' → since h h' Φ.
Proof. intros Hs HΦ. by exists h'. Qed.

Lemma steps_suffix P w w' : Steps P w w' → cw_history w `suffix_of` cw_history w'.
Proof. intros [_ E]. by eapply extends_suffix. Qed.
End since.

Section starting.
Context {serde : RuntimeSerde} {crypto : ApiCrypto} {coord_serde : CoordSerde}.

(** The descriptor that was read last. *)
Definition last_descriptor : History → option (Result RuntimeError RuntimeDescriptor) :=
  last_answer (λ A c, match c in CoordCall A return A → option (Result RuntimeError RuntimeDescriptor) with
                      | ReadDescriptor _ => λ r, Some r
                      | _ => λ _, None
                      end).

Definition not_found {A} (r : Result IoFailure A) : Prop :=
  match r with Err failure => io_kind failure = NotFoundKind | Ok _ => False end.

(** The lock was just taken, or there is no lock file. *)
Definition lock_free (h : History) : Prop :=
  match h with
  | MkCoordEntry _ c answer :: _ =>
      match c in CoordCall A return A → Prop with
      | Flock _ => λ r, r = Ok tt
      | OpenLock _ _ => λ r, not_found r
      | StatLock _ => λ r, not_found r
      | ChmodLock _ => λ r, not_found r
      | _ => λ _, False
      end answer
  | [] => False
  end.

(** Another process has just been seen to hold the lock. *)
Definition lock_held (h : History) : Prop :=
  match h with
  | MkCoordEntry _ c answer :: _ =>
      match c in CoordCall A return A → Prop with Flock _ => λ r, r = Err WOULDBLOCK | _ => λ _, False end answer
  | [] => False
  end.

Section lock.
Context (outside : Outside) (uid : Z) (P : CoordEntry → History → Prop) `{!Harmless P}.

(** A call whose error ends the function: either it is an answer, or it failed and what the
    failure is can be read off the history. *)
Lemma io_call_ends {A B} (c : CoordCall (Result IoFailure A)) (k : A → Coord B) Q w :
  harmless c = true →
  (∀ w' failure, Steps P w w' → cw_history w' = MkCoordEntry (cw_clock w) c (Err failure) :: cw_history w →
     Q (Fail (CoordIo failure)) w') →
  (∀ w' a, Steps P w w' → cw_history w' = MkCoordEntry (cw_clock w) c (Ok a) :: cw_history w → ends (k a) Q w') →
  ends (r ← call outside c; a ← lift_result r; k a) Q w.
Proof.
  intros Hc Hfail Hok. apply ends_bind, (call_ends _ P); [intros; by apply harmless_call|].
  intros r w1 S1 Hh _. apply ends_bind, ends_lift. destruct r as [a|failure]; simpl; auto.
Qed.

Lemma open_lock_ends paths w :
  ends (open_coordinator_lock outside uid paths false)
    (λ o w', Steps P w w' ∧ (is_not_found o = true → since (cw_history w) (cw_history w') lock_free)) w.
Proof.
  assert (∀ A w1 w' (c : CoordCall (Result IoFailure A)) failure, Steps P w w' →
    cw_history w' = MkCoordEntry (cw_clock w1) c (Err failure) :: cw_history w1 →
    (∀ h t, io_kind failure = NotFoundKind → lock_free (MkCoordEntry t c (Err failure) :: h)) →
    Steps P w w' ∧ (is_not_found (A:=nat) (Fail (CoordIo failure)) = true →
      since (cw_history w) (cw_history w') lock_free)) as Hfound.
  { intros A w1 w' c failure Hs Hh Hfree. split; [done|]. simpl. intros Hnf%bool_decide_eq_true.
    apply since_now; [by eapply steps_suffix|]. rewrite Hh. auto. }
  apply ends_bind, (call_ends _ P); [intros; by apply harmless_call|]. intros r w1 S1 _ _. cbn [bound].
  apply ends_bind, (ends_mono _ (λ o w2, w2 = w1 ∧ is_not_found o = false)).
  { destruct r as [d|error]; [by apply ends_ret|]. case_match; [by apply ends_ret|by apply ends_lift]. }
  intros o w2 [-> Hnf]. destruct o as [[]| |]; cbn [bound]; [|by split; simpl in *; rewrite ?Hnf..].
  apply io_call_ends; [done|intros w2 failure S2 Hh; by eapply Hfound; [by etrans|done|]|]. intros w2 file S2 _.
  assert (Steps P w w2) as S02 by (by etrans).
  apply io_call_ends; [done|intros w3 failure S3 Hh; by eapply Hfound; [by etrans|done|]|]. intros w3 md S3 _.
  assert (Steps P w w3) as S03 by (by etrans).
  apply ends_reject; [done|]. intros _.
  apply io_call_ends; [done|intros w4 failure S4 Hh; by eapply Hfound; [by etrans|done|]|]. intros w4 [] S4 _.
  assert (Steps P w w4) as S04 by (by etrans).
  apply io_call_ends; [done|intros w5 failure S5 Hh; by eapply Hfound; [by etrans|done|]|]. intros w5 md' S5 _.
  assert (Steps P w w5) as S05 by (by etrans).
  apply ends_reject; [done|]. intros _.
  by apply ends_ret.
Qed.

Lemma try_flock_ends file w :
  ends (try_flock outside file)
    (λ o w', Steps P w w' ∧ (o = Done true → lock_free (cw_history w'))
       ∧ (o = Done false → lock_held (cw_history w'))) w.
Proof.
  apply ends_bind, (call_ends _ P); [intros; by apply harmless_call|]. intros r w1 S1 Hh _. cbn [bound].
  destruct r as [[]|[]]; [|by apply ends_lift..| |by apply ends_lift]; apply ends_ret; rewrite Hh; by split_and!.
Qed.
End lock.

Context (outside : Outside) (uid : Z) (entry : ManagedStartingProcessEntry) (deadline : Z).

(** The calls that stop a starting process: what they kill is the coordinator or the broker
    of the entry, and the descriptor they remove is the broker's, after it is gone. *)
Definition starting_call (e : CoordEntry) (h : History) : Prop :=
  match e with
  | MkCoordEntry _ c _ =>
      match c with
      | Kill killed signal =>
          (killed = se_coordinator_pid entry
           ∧ (seen_alive (se_coordinator_pid entry) (se_coordinator_start entry) (se_executable_path entry) h
              ∨ (signal = KILL ∧ seen_absent (se_coordinator_pid entry) h)))
          ∨ ∃ broker, se_broker entry = Some broker ∧ killed = sb_broker_pid broker
              ∧ (seen_alive (sb_broker_pid broker) (sb_broker_start broker) (sb_executable_path broker) h
                 ∨ (signal = KILL ∧ seen_absent (sb_broker_pid broker) h))
      | RemoveDescriptor _ instance =>
          ∃ broker descriptor, se_broker entry = Some broker ∧ seen_absent (sb_broker_pid broker) h
            ∧ last_descriptor h = Some (Ok descriptor)
            ∧ rdesc_broker_instance_id descriptor = instance ∧ rdesc_broker_pid descriptor = sb_broker_pid broker
      | c => harmless c = true
      end
  end.

#[global] Instance starting_harmless : Harmless starting_call.
Proof. intros A c t a h Hc. by destruct c. Qed.

Lemma retire_is_starting_coordinator e h :
  retire_call (se_coordinator_pid entry) (se_coordinator_start entry) (se_executable_path entry) e h →
  starting_call e h.
Proof. destruct e as [A t c a]. destruct c; simpl; try done. by left. Qed.

Lemma retire_is_starting_broker broker e h :
  se_broker entry = Some broker →
  retire_call (sb_broker_pid broker) (sb_broker_start broker) (sb_executable_path broker) e h →
  starting_call e h.
Proof. intros Hb. destruct e as [A t c a]. destruct c; simpl; try done. right. by exists broker. Qed.

Lemma unheld_turn_ends paths w :
  ends (unheld_turn outside uid paths entry deadline)
    (λ o w', Steps starting_call w w'
       ∧ (o = Done (inl tt) → (cw_clock w < deadline)%Z
            ∧ (cw_clock w + DESCRIPTOR_RECHECK ≤ cw_clock w' ∨ deadline ≤ cw_clock w')%Z)
       ∧ (o = Done (inr tt) → since (cw_history w) (cw_history w') lock_free)) w.
Proof.
  apply ends_bind, ends_catch. eapply ends_mono; [by apply (open_lock_ends _ _ starting_call)|].
  intros opened w1 [S1 Hnf]. cbn [bound]. pose proof (steps_clock _ _ _ S1).
  destruct opened as [file|e|msg]; [|destruct (is_not_found _) eqn:He|by apply ends_lift].
  2: { apply ends_ret. split_and!; [done..|auto]. }
  2: { by apply ends_bind, ends_lift. }
  apply ends_bind. eapply ends_mono; [by apply (try_flock_ends _ starting_call)|].
  intros locked w2 (S2 & Hfree & _). pose proof (steps_clock _ _ _ S2).
  assert (Steps starting_call w w2) as S02 by (by etrans).
  destruct locked as [[]|e|msg]; cbn [bound]; [| |done..].
  - apply ends_bind, ends_catch. eapply calm_then; [apply (calm_read_record _ starting_call)|].
    intros read w3 S3. assert (Steps starting_call w w3) as S03 by (by etrans). cbn [bound].
    assert (since (cw_history w) (cw_history w3) lock_free).
    { exists (cw_history w2). split_and!; [exact (steps_suffix _ _ _ S02)|exact (steps_suffix _ _ _ S3)|auto]. }
    repeat case_match; first [by apply ends_ret|by apply ends_lift].
  - apply ends_bind, (now_ends _ starting_call); [done|]. intros w3 S3 _. pose proof (steps_clock _ _ _ S3).
    assert (Steps starting_call w w3) as S03 by (by etrans). cbn [bound]. cbv zeta.
    unfold saturating_duration_since.
    destruct (Z.eqb_spec (Z.max 0 (deadline - cw_clock w3)) 0); [by apply ends_lift|].
    apply ends_bind, (call_ends _ starting_call); [done|]. intros [] w4 S4 _ Hc. simpl in Hc. apply ends_ret.
    split_and!; [by etrans| |done]. intros _. lia.
Qed.

Lemma wait_for_unheld_ends fuel paths w :
  (deadline - cw_clock w ≤ Z.of_nat fuel * DESCRIPTOR_RECHECK)%Z →
  ends (wait_for_unheld_starting_coordinator_lock outside uid (S fuel) paths entry deadline)
    (λ o w', Steps starting_call w w' ∧ (o = Done tt → since (cw_history w) (cw_history w') lock_free)) w.
Proof.
  intros Hfuel. apply (loop_ends DESCRIPTOR_RECHECK _ deadline (λ _ w', Steps starting_call w w')); [done| |done..].
  intros [] w1 S1. eapply ends_mono; [apply unheld_turn_ends|]. intros o w2 (S2 & Hgo & Hend).
  assert (Steps starting_call w w2) by (by etrans).
  destruct o as [[[]|[]]| |]; [by split; auto| |done..]. split; [done|]. intros _.
  eapply since_weaken; [exact (steps_suffix _ _ _ S1)|done|auto].
Qed.

(** What [stop_starting_process] has seen when it succeeds. *)
Definition starting_stopped (h h' : History) : Prop :=
  since h h' (seen_absent (se_coordinator_pid entry))
  ∧ (∀ broker, se_broker entry = Some broker → since h h' (seen_absent (sb_broker_pid broker)))
  ∧ since h h' lock_free.

Context (fuel : nat) (Hphases : 120 ≤ fuel).

(** Retiring the broker and removing its descriptor. *)
Lemma retire_broker_ends paths broker w :
  se_broker entry = Some broker →
  ends (_ ← force_retire_reserved_process outside (S fuel) (sb_broker_pid broker) (sb_broker_start broker)
              (sb_executable_path broker) deadline;
        found ← starting_descriptor outside paths entry broker;
        match found with
        | Some descriptor =>
            r ← call outside (RemoveDescriptor paths (rdesc_broker_instance_id descriptor)); lift_runtime r
        | None => mret tt
        end)
    (λ o w', Steps starting_call w w' ∧
       (o = Done tt → since (cw_history w) (cw_history w') (seen_absent (sb_broker_pid broker)))) w.
Proof.
  intros Hb. apply ends_bind. eapply ends_mono; [by apply force_retire_ends|]. intros o w1 [S1 Habs].
  apply (steps_mono _ starting_call) in S1; [|intros e h; by apply retire_is_starting_broker].
  destruct o as [[]| |]; cbn [bound]; [|done..]. specialize (Habs eq_refl).
  assert (∀ w', Steps starting_call w1 w' → Steps starting_call w w'
    ∧ since (cw_history w) (cw_history w') (seen_absent (sb_broker_pid broker))) as Hlater.
  { intros w' S'. split; [by etrans|]. exists (cw_history w1).
    split_and!; [exact (steps_suffix _ _ _ S1)|exact (steps_suffix _ _ _ S')|done]. }
  apply ends_bind, ends_bind, (call_ends _ starting_call); [done|]. intros r w2 S2 Hh2 _. cbn [bound].
  destruct r as [descriptor|error].
  - case_match eqn:Hsame; [|apply ends_lift; split; [by apply Hlater|done]]. apply ends_ret. cbn [bound].
    apply andb_true_iff in Hsame as [[_ Hpid%Z.eqb_eq]%andb_true_iff _].
    apply ends_bind, (call_ends _ starting_call).
    { intros r. exists broker, descriptor. rewrite Hh2. destruct Habs as (read & Hread & Hgone).
      split_and!; try done. by exists read. }
    intros r w3 S3 _ _. apply ends_lift. destruct (Hlater w3) as [? ?]; [by etrans|]. auto.
  - destruct (Hlater w2 S2) as [? ?]. by repeat case_match; first [by apply ends_ret, ends_ret; auto|by apply ends_lift].
Qed.

Lemma stop_starting_ends w :
  (deadline - cw_clock w ≤ Z.of_nat fuel * DESCRIPTOR_RECHECK)%Z →
  ends (stop_starting_process outside uid (S fuel) entry deadline)
    (λ o w', Steps starting_call w w' ∧ (o = Done tt → starting_stopped (cw_history w) (cw_history w'))) w.
Proof.
  intros Hfuel.
  assert (∀ w', Steps starting_call w w' → (deadline - cw_clock w' ≤ Z.of_nat fuel * DESCRIPTOR_RECHECK)%Z) as Hlate
    by (intros w' S'; pose proof (steps_clock _ _ _ S'); lia).
  unfold stop_starting_process.
  do 5 quietly starting_call w.
  apply ends_bind, (ends_mono _ (λ _ w', Steps starting_call w w')).
  { case_match; [|by apply ends_ret]. eapply ends_mono; [apply wait_for_unheld_ends; auto|].
    intros o w1 [S1 _]. by etrans. }
  intros [[]| |] w1 S1; cbn [bound]; [|done..].
  apply ends_bind, (ends_mono _ (λ _ w', Steps starting_call w w')).
  { case_match; [|by apply ends_ret]. eapply (calm_then starting_call); [|intros; by etrans].
    apply calm_bind; [quiet|]. intros _. apply calm_bind; [quiet|]. intros _. apply calm_ret. }
  intros [[]| |] w2 S2; cbn [bound]; [|done..].
  apply ends_bind. eapply ends_mono; [by apply force_retire_ends|]. intros o w3 [S3 Habs].
  apply (steps_mono _ starting_call) in S3; [|intros e h; by apply retire_is_starting_coordinator].
  assert (Steps starting_call w w3) as S03 by (by etrans).
  destruct o as [[]| |]; cbn [bound]; [|done..]. specialize (Habs eq_refl).
  apply ends_bind, (ends_mono _ (λ o w', Steps starting_call w3 w' ∧ (o = Done tt → ∀ broker,
    se_broker entry = Some broker → since (cw_history w3) (cw_history w') (seen_absent (sb_broker_pid broker))))).
  { destruct (se_broker entry) as [broker|] eqn:Hb; [|by apply ends_ret].
    eapply ends_mono; [by apply retire_broker_ends|]. intros o w4 [S4 Hgone]. split; [done|].
    intros -> b [= <-]. auto. }
  intros o w4 [S4 Hbroker]. assert (Steps starting_call w w4) as S04 by (by etrans).
  destruct o as [[]| |]; cbn [bound]; [|done..]. specialize (Hbroker eq_refl).
  apply ends_bind. eapply ends_mono; [by apply wait_for_unheld_ends, Hlate|]. intros o w5 [S5 Hfree].
  assert (Steps starting_call w w5) as S05 by (by etrans).
  destruct o as [[]| |]; cbn [bound]; [|done..]. specialize (Hfree eq_refl).
  eapply (calm_then starting_call); [quiet|]. intros o w6 S6. split; [by etrans|]. intros _.
  pose proof (steps_suffix _ _ _ S03). pose proof (steps_suffix _ _ _ S04). pose proof (steps_suffix _ _ _ S4).
  pose proof (steps_suffix _ _ _ S5). pose proof (steps_suffix _ _ _ S6).
  split_and!.
  - exists (cw_history w3). split_and!; [done| |done]. etrans; [done|]. by etrans.
  - intros broker Hb. eapply since_weaken; [| |exact (Hbroker broker Hb)]; [done|by etrans].
  - eapply since_weaken; [| |exact Hfree]; done.
Qed.
End starting.

(** ** Stopping the coordinator of a scope *)

Section stopping.
Context {serde : RuntimeSerde} {crypto : ApiCrypto} {coord_serde : CoordSerde}.

(** The record that was read last. *)
Definition last_lock : History → option (Result IoFailure Bytes) :=
  last_answer (λ A c, match c in CoordCall A return A → option (Result IoFailure Bytes) with
                      | ReadLock _ => λ r, Some r
                      | _ => λ _, None
                      end).
Definition record_seen (record : CoordinatorRecord) (h : History) : Prop :=
  ∃ bytes, last_lock h = Some (Ok bytes)
    ∧ record_from_slice (take (MAX_COORDINATOR_RECORD_BYTES + 1) bytes) = Ok record.

Context (outside : Outside) (uid : Z).

Lemma read_record_ends P `{!Harmless P} file w :
  ends (read_record outside file)
    (λ o w', Steps P w w' ∧ ∀ record, o = Done record → record_seen record (cw_history w')) w.
Proof.
  apply (io_call_ends _ P); [done|by intros w1 failure S1 _|]. intros w1 bytes S1 Hh. cbv zeta.
  apply ends_reject; [done|]. intros _. apply ends_lift. split; [done|]. intros record Hrecord.
  exists bytes. rewrite Hh. split; [done|]. by destruct (record_from_slice _); simplify_eq/=.
Qed.

(** A stop is sent to the port, and with the nonce, of the record that the lock of the scope
    holds; the record is valid and names the instance that is to be stopped. *)
Definition stop_call (discovered : Outcome RuntimeError RuntimePaths) (expected : option string)
    (e : CoordEntry) (h : History) : Prop :=
  match e with
  | MkCoordEntry _ c _ =>
      match c with
      | SendStop port request _ =>
          ∃ paths record, discovered = Done paths ∧ record_seen record h
            ∧ validate_control_record record = Done tt
            ∧ cr_scope_key record = scope_key (rp_scope paths)
            ∧ port = cr_control_port record ∧ request = stop_request record
            ∧ ∀ instance, expected = Some instance → cr_broker_instance_id record = Some instance
      | c => harmless c = true
      end
  end.

#[global] Instance stop_harmless discovered expected : Harmless (stop_call discovered expected).
Proof. intros A c t a h Hc. by destruct c. Qed.

Context (paths : RuntimePaths) (expected : option string) (deadline : Z).
Local Abbreviation allowed := (stop_call (Done paths) expected).

Lemma request_stop_ends record w :
  record_seen record (cw_history w) → cr_scope_key record = scope_key (rp_scope paths) →
  (∀ instance, expected = Some instance → cr_broker_instance_id record = Some instance) →
  ends (request_stop outside record deadline) (λ _ w', Steps allowed w w') w.
Proof.
  intros Hseen Hscope Hinstance. apply ends_bind, ends_lift.
  destruct (validate_control_record record) as [[]| |] eqn:Hvalid; cbn [bound]; [|done..].
  apply ends_bind, (now_ends _ allowed); [done|]. intros w1 S1 Hh. cbn [bound]. cbv zeta.
  case_match; [by apply ends_lift|]. apply ends_bind, (call_ends _ allowed).
  - intros r. exists paths, record. rewrite Hh. split_and!; try done.
  - intros r w2 S2 _ _. apply ends_lift. by etrans.
Qed.

Lemma check_expected_ends record instance w :
  record_seen record (cw_history w) →
  ends (check_expected outside paths record instance)
    (λ o w', Steps allowed w w' ∧ (o = Done tt → cr_broker_instance_id record = Some instance
       ∧ record_seen record (cw_history w'))) w.
Proof.
  intros Hseen. apply ends_reject; [done|]. intros Heq%negb_false_iff%bool_decide_eq_true.
  apply ends_bind, (call_ends _ allowed); [done|]. intros r w1 S1 Hh _. cbn [bound]. apply ends_lift.
  split; [done|]. intros _. split; [done|]. by rewrite Hh.
Qed.

(** One turn with a record of the scope: the stop is sent, if the instance is right. *)
Lemma stop_record_ends record w :
  record_seen record (cw_history w) → cr_scope_key record = scope_key (rp_scope paths) →
  ends (_ ← match expected with
            | Some expected => check_expected outside paths record expected
            | None => mret tt
            end;
        _ ← catch (request_stop outside record deadline);
        mret tt) (λ _ w', Steps allowed w w') w.
Proof.
  intros Hseen Hscope.
  apply ends_bind, (ends_mono _ (λ o w', Steps allowed w w' ∧ (o = Done tt → record_seen record (cw_history w')
    ∧ ∀ instance, expected = Some instance → cr_broker_instance_id record = Some instance))).
  { destruct expected as [instance|] eqn:Hexp; [|by apply ends_ret]. rewrite <-Hexp.
    eapply ends_mono; [by apply check_expected_ends|]. intros o w1 [S1 Hok]. split; [done|]. intros Ho.
    destruct (Hok Ho) as [? ?]. split; [done|]. rewrite Hexp. by intros i [= <-]. }
  intros o w1 [S1 Hok]. destruct o as [[]| |]; cbn [bound]; [|done..]. destruct (Hok eq_refl) as [Hseen1 Hinst].
  apply ends_bind, ends_catch. eapply ends_mono; [by apply request_stop_ends|]. intros o w2 S2. cbn [bound].
  apply ends_ret. by etrans.
Qed.

Lemma stop_turn_ends file w :
  ends (stop_turn outside paths file expected deadline)
    (λ o w', Steps allowed w w'
       ∧ (o = Done (inl tt) → (cw_clock w < deadline)%Z ∧ (cw_clock w + DESCRIPTOR_RECHECK ≤ cw_clock w')%Z)
       ∧ (o = Done (inr tt) → since (cw_history w) (cw_history w') lock_free)) w.
Proof.
  apply ends_bind. eapply ends_mono; [apply (try_flock_ends _ allowed)|]. intros locked w1 (S1 & Hfree & _).
  pose proof (steps_clock _ _ _ S1). destruct locked as [[]| |]; cbn [bound]; [| |done..].
  { apply ends_ret. split_and!; [done..|]. intros _. apply since_now; [exact (steps_suffix _ _ _ S1)|auto]. }
  apply ends_bind, ends_catch. eapply ends_mono; [apply (read_record_ends allowed)|]. intros read w2 [S2 Hseen].
  pose proof (steps_clock _ _ _ S2). cbn [bound]. assert (Steps allowed w w2) as S02 by (by etrans).
  apply ends_bind, (ends_mono _ (λ _ w', Steps allowed w2 w')).
  { destruct read as [record|e|msg]; [|apply ends_bind, (now_ends _ allowed); [done|]|by apply ends_lift].
    - destruct (String.eqb_spec (cr_scope_key record) (scope_key (rp_scope paths))); [|by apply ends_lift].
      apply stop_record_ends; auto.
    - intros w3 S3 _. cbn [bound]. case_match; [by apply ends_ret|by apply ends_lift]. }
  intros o w3 S3. pose proof (steps_clock _ _ _ S3). assert (Steps allowed w w3) as S03 by (by etrans).
  destruct o as [[]| |]; cbn [bound]; [|done..].
  apply ends_bind, (now_ends _ allowed); [done|]. intros w4 S4 _. pose proof (steps_clock _ _ _ S4). cbn [bound].
  assert (Steps allowed w w4) as S04 by (by etrans).
  destruct (Z.leb_spec deadline (cw_clock w4)); [by apply ends_lift|].
  apply ends_bind, (call_ends _ allowed); [done|]. intros [] w5 S5 _ Hc. simpl in Hc. apply ends_ret.
  split_and!; [by etrans|intros _; lia|done].
Qed.
End stopping.

Section stop_command.
Context {serde : RuntimeSerde} {crypto : ApiCrypto} {coord_serde : CoordSerde}.
Context (outside : Outside) (uid : Z) (fuel : nat) (Hfuel : 200 ≤ fuel).

(** [stop_expected] ends; after it has found its paths its calls are those of [stop_call]. *)
Lemma stop_expected_ends expected w :
  ends (stop_expected outside uid (S fuel) expected)
    (λ o w', ∃ r, Extends (stop_call r expected) (MkCoordEntry (cw_clock w) Discover r :: cw_history w) (cw_history w')
       ∧ (cw_clock w ≤ cw_clock w')%Z
       ∧ (o = Done tt → since (cw_history w) (cw_history w') lock_free)) w.
Proof.
  apply ends_bind, ends_bind, (call_ends _ (λ _ _, True)); [done|]. intros r w1 [S1 _] Hh1 _. cbn [bound].
  apply ends_lift. destruct r as [paths|e|msg]; cbn [bound map_error]; [|by eexists; rewrite Hh1..].
  set (allowed := stop_call (Done paths) expected).
  assert (Harmless allowed) as Hquiet by apply stop_harmless.
  assert (∀ (o : Outcome CoordError ()) w', Steps allowed w1 w' → (o = Done tt → since (cw_history w1) (cw_history w') lock_free) →
    ∃ r, Extends (stop_call r expected) (MkCoordEntry (cw_clock w) Discover r :: cw_history w) (cw_history w')
       ∧ (cw_clock w ≤ cw_clock w')%Z
       ∧ (o = Done tt → since (cw_history w) (cw_history w') lock_free)) as Hlater.
  { intros o w' [C E] Hfree. exists (Done paths). rewrite Hh1 in E. split_and!; [done|lia|].
    intros Ho. eapply since_weaken; [|done|exact (Hfree Ho)]. rewrite Hh1. by apply suffix_cons_r. }
  apply ends_bind, ends_catch. eapply ends_mono; [by apply (open_lock_ends _ _ allowed)|].
  intros opened w2 [S2 Hnf]. cbn [bound].
  destruct opened as [file|e|msg]; [|destruct (is_not_found _) eqn:He|by apply ends_lift, Hlater].
  2: { apply ends_ret, Hlater; auto. }
  2: { by apply ends_bind, ends_lift, Hlater. }
  apply ends_bind. eapply ends_mono; [by apply (try_flock_ends _ allowed)|]. intros locked w3 (S3 & Hfree & _).
  assert (Steps allowed w1 w3) as S13 by (by etrans).
  destruct locked as [[]| |]; cbn [bound]; [| |by apply Hlater..].
  { apply ends_ret, Hlater; [done|]. intros _. apply since_now; [exact (steps_suffix _ _ _ S13)|auto]. }
  apply ends_bind, (now_ends _ allowed); [done|]. intros w4 S4 _. cbn [bound]. cbv zeta.
  assert (Steps allowed w1 w4) as S14 by (by etrans).
  apply (loop_ends DESCRIPTOR_RECHECK _ (cw_clock w4 + STOP_TIMEOUT) (λ _ w', Steps allowed w1 w')); [done| |done|].
  2: { change STOP_TIMEOUT with (200 * DESCRIPTOR_RECHECK)%Z. assert (0 < DESCRIPTOR_RECHECK)%Z by done. nia. }
  intros [] w5 S5. eapply ends_mono; [apply stop_turn_ends|]. intros o w6 (S6 & Hgo & Hend).
  assert (Steps allowed w1 w6) by (by etrans).
  destruct o as [[[]|[]]| |]; [| |by apply Hlater..].
  - destruct (Hgo eq_refl). auto.
  - apply Hlater; [done|]. intros _. eapply since_weaken; [exact (steps_suffix _ _ _ S5)|done|auto].
Qed.
End stop_command.

(** ** Stopping a registered process *)

Section registered.
Context {serde : RuntimeSerde} {crypto : ApiCrypto} {coord_serde : CoordSerde}.
Context (outside : Outside) (uid : Z) (entry : ManagedProcessEntry) (deadline : Z).

(** A stop is sent with the port and the nonce of the entry, after the lock was seen to hold
    them; only the descriptor and the registration of the entry are removed. *)
Definition registered_call (e : CoordEntry) (h : History) : Prop :=
  match e with
  | MkCoordEntry _ c _ =>
      match c with
      | SendStop port request _ =>
          ∃ record g, g `suffix_of` h ∧ record_seen record g ∧ records_entry entry record = true
            ∧ port = me_control_port entry ∧ request = as_bytes (me_control_nonce entry) ++ [10%Z]
      | RemoveDescriptor _ instance => instance = me_broker_instance_id entry
      | UnregisterProcess unregistered => unregistered = entry
      | c => harmless c = true
      end
  end.

#[global] Instance registered_harmless : Harmless registered_call.
Proof. intros A c t a h Hc. by destruct c. Qed.

(** Both processes were seen to be gone. *)
Definition entry_retired (h h' : History) : Prop :=
  since h h' (seen_absent (me_coordinator_pid entry)) ∧ since h h' (seen_absent (me_broker_pid entry)).

Lemma require_entry_retired_ends w :
  ends (require_entry_retired outside entry)
    (λ o w', Steps registered_call w w' ∧ (o = Done tt → entry_retired (cw_history w) (cw_history w'))) w.
Proof.
  apply ends_bind, ends_catch. eapply ends_mono; [by apply (require_gone_ends _ registered_call)|]. intros o1 w1 [S1 Habs1].
  cbn [bound]. apply ends_bind, ends_catch. eapply ends_mono; [by apply (require_gone_ends _ registered_call)|]. intros o2 w2 [S2 Habs2].
  cbn [bound]. assert (Steps registered_call w w2) as S02 by (by etrans). apply ends_bind, ends_lift.
  destruct o1 as [[]| |]; cbn [bound]; [|done..]. apply ends_lift. split; [done|]. intros ->. split.
  - exists (cw_history w1). split_and!; [exact (steps_suffix _ _ _ S1)|exact (steps_suffix _ _ _ S2)|auto].
  - apply since_now; [exact (steps_suffix _ _ _ S02)|auto].
Qed.

(** Once the lock was seen to hold the record of the entry, stops can be sent. *)
Lemma request_entry_stop record g w :
  g `suffix_of` cw_history w → record_seen record g → records_entry entry record = true →
  ends (request_stop outside record deadline) (λ _ w', Steps registered_call w w') w.
Proof.
  intros Hg Hseen Hrec. apply ends_bind, ends_lift.
  destruct (validate_control_record record) as [[]| |]; cbn [bound]; [|done..].
  apply ends_bind, (now_ends _ registered_call); [done|]. intros w1 S1 Hh. cbn [bound]. cbv zeta.
  case_match; [by apply ends_lift|]. apply ends_bind, (call_ends _ registered_call).
  - intros r. exists record, g. pose proof Hrec as Hsame. unfold records_entry in Hrec.
    apply andb_true_iff in Hrec as [[[[_ Hport%Z.eqb_eq]%andb_true_iff Hnonce%String.eqb_eq]%andb_true_iff _]%andb_true_iff _].
    unfold stop_request. rewrite <-Hport, <-Hnonce. split_and!; try done.
    etrans; [exact Hg|exact (steps_suffix _ _ _ S1)].
  - intros r w2 S2 _ _. apply ends_lift. by etrans.
Qed.

Lemma drain_turn_ends file record g w :
  g `suffix_of` cw_history w → record_seen record g → records_entry entry record = true →
  ends (drain_turn outside file record deadline)
    (λ o w', Steps registered_call w w' ∧ (o = Done (inl tt) → (cw_clock w < deadline)%Z
       ∧ (cw_clock w + DESCRIPTOR_RECHECK ≤ cw_clock w' ∨ deadline ≤ cw_clock w')%Z)) w.
Proof.
  intros Hg Hseen Hrec. apply ends_bind, ends_bind, (now_ends _ registered_call); [done|]. intros w1 S1 _. cbn [bound].
  pose proof (steps_clock _ _ _ S1). apply ends_lift. unfold reject_if.
  destruct (Z.leb_spec deadline (cw_clock w1)); cbn [bound]; [done|].
  apply ends_bind, ends_catch. eapply ends_mono.
  { apply (request_entry_stop record g); [|done..]. etrans; [exact Hg|exact (steps_suffix _ _ _ S1)]. }
  intros sent w2 S2. cbn [bound]. pose proof (steps_clock _ _ _ S2).
  apply ends_bind. eapply (calm_then registered_call); [quiet|]. intros o w3 S3. pose proof (steps_clock _ _ _ S3).
  assert (Steps registered_call w w3) as S03 by (etrans; [exact S1|]; etrans; [exact S2|exact S3]).
  destruct o as [[]| |]; cbn [bound]; [| |done..].
  - apply ends_bind. eapply (calm_then registered_call); [quiet|]. intros o w4 S4.
    assert (Steps registered_call w w4) by (by etrans). destruct o as [[]| |]; cbn [bound]; [|done..]. by apply ends_ret.
  - apply ends_bind, (sleep_until_stop_recheck_ends _ registered_call); [done..|]. intros o w4 S4 Hc.
    assert (Steps registered_call w w4) by (by etrans).
    destruct o as [[]| |]; cbn [bound]; [|done..]. apply ends_ret. split; [done|]. intros _.
    specialize (Hc eq_refl). split; lia.
Qed.

Context (fuel : nat).

Lemma stop_running_ends paths w :
  (deadline - cw_clock w ≤ Z.of_nat fuel * DESCRIPTOR_RECHECK)%Z →
  ends (stop_running_entry outside uid (S fuel) paths entry deadline)
    (λ o w', Steps registered_call w w' ∧ (o = Done tt → entry_retired (cw_history w) (cw_history w'))) w.
Proof.
  intros Hfuel. unfold stop_running_entry.
  do 2 quietly registered_call w.
  apply ends_bind, (call_ends _ registered_call); [done|]. intros r w1 S1 _ _. cbn [bound].
  assert (Steps registered_call w w1) as S01 by (by etrans).
  do 5 quietly registered_call w. apply ends_reject; [done|]. intros _.
  apply ends_bind. eapply ends_mono; [apply (read_record_ends _ registered_call)|]. intros o w2 [S2 Hseen].
  assert (Steps registered_call w w2) as S02 by (by etrans).
  destruct o as [record| |]; cbn [bound]; [|done..]. specialize (Hseen record eq_refl).
  apply ends_reject; [done|]. intros Hrec%negb_false_iff.
  apply ends_bind, (loop_ends DESCRIPTOR_RECHECK _ deadline (λ _ w', Steps registered_call w2 w')); [done| |done|].
  2: { pose proof (steps_clock _ _ _ S02). lia. }
  { intros [] w3 S3. eapply ends_mono.
    { apply (drain_turn_ends _ record (cw_history w2)); [exact (steps_suffix _ _ _ S3)|done..]. }
    intros o w4 [S4 Hgo]. assert (Steps registered_call w2 w4) as S24 by (by etrans).
    assert (Steps registered_call w w4) as S04 by (by etrans).
    destruct o as [[[]|[]]| |]; cbn [bound]; [by auto| |done..].
    apply ends_bind. eapply (calm_then registered_call); [quiet|]. intros o w5 S5.
    assert (Steps registered_call w w5) as S05 by (by etrans). destruct o as [[]| |]; cbn [bound]; [|done..].
    apply ends_bind. eapply ends_mono; [apply require_entry_retired_ends|]. intros o w6 [S6 Hret].
    assert (Steps registered_call w w6) as S06 by (by etrans). destruct o as [[]| |]; cbn [bound]; [|done..].
    eapply (calm_then registered_call); [quiet|]. intros o w7 S7. split; [by etrans|]. intros _.
    destruct (Hret eq_refl) as [Hc Hb].
    split; (eapply since_weaken; [exact (steps_suffix _ _ _ S05)|exact (steps_suffix _ _ _ S7)|done]). }
Qed.

Lemma clean_retired_ends paths w :
  ends (clean_retired_entry outside uid paths entry deadline) (λ _ w', Steps registered_call w w') w.
Proof.
  revert w. change (calm registered_call (clean_retired_entry outside uid paths entry deadline)). unfold clean_retired_entry.
  apply calm_bind; [apply calm_call; done|]. intros r. apply calm_bind.
  - destruct r as [descriptor|error]; [|by repeat case_match; first [apply calm_ret|apply calm_lift]].
    repeat (apply calm_bind; [quiet|intros ?]). apply calm_bind; [by apply calm_call|]. intros ?. apply calm_lift.
  - intros _. apply calm_bind; [quiet|]. intros _. apply calm_bind; [by apply calm_call|]. intros r'. apply calm_lift.
Qed.

Lemma stop_registered_ends w :
  (deadline - cw_clock w ≤ Z.of_nat fuel * DESCRIPTOR_RECHECK)%Z →
  ends (stop_registered_process outside uid (S fuel) entry deadline)
    (λ o w', Steps registered_call w w' ∧ (o = Done tt → entry_retired (cw_history w) (cw_history w'))) w.
Proof.
  intros Hfuel. unfold stop_registered_process. do 2 quietly registered_call w.
  apply ends_bind. eapply ends_mono; [by apply (observed_absent _ registered_call)|]. intros o1 w1 [S1 Habs1].
  assert (Steps registered_call w w1) as S01 by (by etrans). destruct o1 as [coordinator| |]; cbn [bound]; [|done..].
  apply ends_bind. eapply ends_mono; [by apply (observed_absent _ registered_call)|]. intros o2 w2 [S2 Habs2].
  assert (Steps registered_call w w2) as S02 by (by etrans). destruct o2 as [broker| |]; cbn [bound]; [|done..].
  case_match eqn:Hgone.
  - apply andb_true_iff in Hgone as [Hc Hb]. destruct coordinator, broker; try done.
    eapply ends_mono; [apply clean_retired_ends|]. intros o w3 S3. split; [by etrans|]. intros _. split.
    + exists (cw_history w1). split_and!; [exact (steps_suffix _ _ _ S01)| |auto].
      etrans; [exact (steps_suffix _ _ _ S2)|exact (steps_suffix _ _ _ S3)].
    + exists (cw_history w2). split_and!; [exact (steps_suffix _ _ _ S02)|exact (steps_suffix _ _ _ S3)|auto].
  - eapply ends_mono; [apply stop_running_ends|].
    + pose proof (steps_clock _ _ _ S02). lia.
    + intros o w3 [S3 Hret]. split; [by etrans|]. intros Ho. destruct (Hret Ho) as [Hc Hb].
      split; (eapply since_weaken; [exact (steps_suffix _ _ _ S02)|done|done]).
Qed.
End registered.

(** ** Restarting *)

Section restarting.
Context {serde : RuntimeSerde} {crypto : ApiCrypto} {coord_serde : CoordSerde}.

(** The broker of [descriptor] has just proved that it has its token and instance. *)
Definition proved (descriptor : RuntimeDescriptor) (h : History) : Prop :=
  match h with
  | MkCoordEntry _ c answer :: _ =>
      match c in CoordCall A return A → Prop with
      | VerifyProof asked _ => λ r, asked = descriptor ∧ r = Proved
      | _ => λ _, False
      end answer
  | [] => False
  end.

(** Between [h] and [h'] the lock of the scope was held, its record named the instance of
    [descriptor], and the two processes it names were alive with the executable. *)
Definition supervised (paths : RuntimePaths) (descriptor : RuntimeDescriptor) (record : CoordinatorRecord)
    (h h' : History) : Prop :=
  since h h' lock_held ∧ since h h' (record_seen record)
  ∧ cr_scope_key record = scope_key (rp_scope paths)
  ∧ cr_broker_instance_id record = Some (rdesc_broker_instance_id descriptor)
  ∧ since h h' (seen_alive (cr_pid record) (cr_start_identity record) (rdesc_executable_path descriptor))
  ∧ ∃ start, cr_broker_start_identity record = Some start
      ∧ since h h' (seen_alive (rdesc_broker_pid descriptor) start (rdesc_executable_path descriptor)).

(** The calls of a restart: a stop, addressed as by [stop_call], and the action that starts a
    broker. *)
Definition restart_call (instance : string) (e : CoordEntry) (h : History) : Prop :=
  match e with
  | MkCoordEntry _ c _ =>
      match c with
      | SendStop _ _ _ => ∃ discovered, stop_call discovered (Some instance) e h
      | InvokeAction => True
      | c => harmless c = true
      end
  end.

#[global] Instance restart_harmless instance : Harmless (restart_call instance).
Proof. intros A c t a h Hc. by destruct c. Qed.

Lemma stop_is_restart discovered instance e h :
  stop_call discovered (Some instance) e h → restart_call instance e h.
Proof. destruct e as [A t c a]. destruct c; simpl; try done. by eexists. Qed.

Context (outside : Outside) (uid : Z) (P : CoordEntry → History → Prop) `{!Harmless P}.

Lemma ends_calm {A B} (m : Coord A) (k : A → Coord B) (Q : Outcome CoordError B → CoordWorld → Prop) w :
  calm P m →
  (∀ o w', Steps P w w' → match o with Done a => ends (k a) Q w' | Fail e => Q (Fail e) w' | Panic msg => Q (Panic msg) w' end) →
  ends (m ≫= k) Q w.
Proof.
  intros Hm Hk. apply ends_bind. eapply calm_then; [exact Hm|]. intros o w' S'. specialize (Hk o w' S').
  by destruct o.
Qed.

Lemma protected_descriptor_ends paths deadline w :
  ends (protected_descriptor outside paths deadline)
    (λ o w', Steps P w w' ∧ ∀ descriptor, o = Done (Some descriptor) → proved descriptor (cw_history w')) w.
Proof.
  apply ends_bind, (call_ends _ P); [intros; by apply harmless_call|]. intros r w1 S1 _ _. cbn [bound].
  destruct r as [descriptor|]; [|by apply ends_ret].
  apply ends_bind, (now_ends _ P); [by apply harmless_call|]. intros w2 S2 _. cbn [bound]. cbv zeta.
  assert (Steps P w w2) by (by etrans). case_match; [by apply ends_lift|].
  apply ends_bind, (call_ends _ P); [intros; by apply harmless_call|]. intros built w3 S3 _ _. cbn [bound].
  assert (Steps P w w3) by (by etrans). destruct built; [|by apply ends_lift].
  apply ends_bind, (call_ends _ P); [intros; by apply harmless_call|]. intros answer w4 S4 Hh _. cbn [bound].
  assert (Steps P w w4) by (by etrans). destruct answer; [|by apply ends_ret|by apply ends_lift..].
  apply ends_ret. split; [done|]. intros d [= <-]. by rewrite Hh.
Qed.

Lemma require_proof_ends pid start exe w :
  ends (require_process_proof outside pid start exe)
    (λ o w', Steps P w w' ∧ (o = Done tt → seen_alive pid start exe (cw_history w'))) w.
Proof.
  apply ends_bind, (observed_ends _ P); [intros; by apply harmless_call|]. intros read w1 S1 Hh.
  destruct (process_proof read) as [[proof|]| |] eqn:Hproof; cbn [bound map_error]; [|by apply ends_lift|done..].
  apply ends_lift. split; [done|]. intros Hr%reject_if_Done%negb_false_iff. exists read, proof. by rewrite Hh.
Qed.

Lemma since_trans_steps w0 w1 w2 w3 Φ :
  Steps P w0 w1 → Steps P w2 w3 → since (cw_history w1) (cw_history w2) Φ → since (cw_history w0) (cw_history w3) Φ.
Proof. intros S1 S2. apply since_weaken; [exact (steps_suffix _ _ _ S1)|exact (steps_suffix _ _ _ S2)]. Qed.

Lemma record_turn_ends paths descriptor deadline w :
  ends (coordinator_record_turn outside uid paths descriptor deadline)
    (λ o w', Steps P w w'
       ∧ (o = Done (inl tt) → cw_clock w < deadline ∧ cw_clock w + DESCRIPTOR_RECHECK ≤ cw_clock w')%Z
       ∧ ∀ record, o = Done (inr record) →
       supervised paths descriptor record (cw_history w) (cw_history w')) w.
Proof.
  apply ends_bind. eapply (calm_then P); [quiet|]. intros o w1 S1. destruct o as [file| |]; cbn [bound]; [|done..].
  apply ends_bind. eapply ends_mono; [by apply (try_flock_ends _ P)|]. intros locked w2 (S2 & _ & Hheld).
  assert (Steps P w w2) as S02 by (by etrans). destruct locked as [[]| |]; cbn [bound]; [by apply ends_lift| |done..].
  apply ends_bind. eapply ends_mono; [by apply (read_record_ends _ P)|]. intros o w3 [S3 Hseen].
  assert (Steps P w w3) as S03 by (by etrans). destruct o as [record| |]; cbn [bound]; [|done..].
  specialize (Hseen record eq_refl). apply ends_bind, ends_lift.
  destruct (validate_control_record record) as [[]| |]; cbn [bound]; [|done..].
  apply ends_reject; [done|]. intros Hscope%negb_false_iff%String.eqb_eq.
  destruct (cr_broker_instance_id record) as [instance|] eqn:Hinst.
  2: { apply ends_bind, (now_ends _ P); [by apply harmless_call|]. intros w4 S4 _. cbn [bound].
       assert (Steps P w w4) as S04 by (by etrans). case_match eqn:Hlate; [|by apply ends_lift].
       apply ends_bind, (call_ends _ P); [intros; by apply harmless_call|]. intros [] w5 S5 _ Hc. apply ends_ret.
       apply Z.ltb_lt in Hlate. pose proof (steps_clock _ _ _ S04). cbn [least_time] in Hc.
       split_and!; [by etrans| |done]. intros _. lia. }
  destruct (String.eqb_spec instance (rdesc_broker_instance_id descriptor)) as [->|]; [|by apply ends_lift].
  apply ends_bind, ends_lift. destruct (cr_broker_start_identity record) as [start|] eqn:Hstart; cbn [ok_or bound]; [|done].
  apply ends_bind. eapply ends_mono; [apply require_proof_ends|]. intros o w4 [S4 Hc].
  assert (Steps P w w4) as S04 by (by etrans). destruct o as [[]| |]; cbn [bound]; [|done..].
  apply ends_bind. eapply ends_mono; [apply require_proof_ends|]. intros o w5 [S5 Hb].
  assert (Steps P w w5) as S05 by (by etrans). destruct o as [[]| |]; cbn [bound]; [|done..].
  apply ends_ret. split_and!; [done..|]. intros r [= <-].
  assert (Steps P w3 w5) as S35 by (by etrans). assert (Steps P w2 w5) as S25 by (by etrans).
  split_and!; [| |done..| |].
  - exists (cw_history w2). split_and!; [exact (steps_suffix _ _ _ S02)|exact (steps_suffix _ _ _ S25)|auto].
  - exists (cw_history w3). split_and!; [exact (steps_suffix _ _ _ S03)|exact (steps_suffix _ _ _ S35)|done].
  - exists (cw_history w4). split_and!; [exact (steps_suffix _ _ _ S04)|exact (steps_suffix _ _ _ S5)|auto].
  - exists start. split; [done|]. apply since_now; [exact (steps_suffix _ _ _ S05)|auto].
Qed.

Lemma supervised_weaken paths descriptor record h0 h h' h1 :
  h0 `suffix_of` h → h' `suffix_of` h1 → supervised paths descriptor record h h' →
  supervised paths descriptor record h0 h1.
Proof.
  intros H0 H1 (? & ? & ? & ? & ? & start & ? & ?). split_and!; try done; [by eapply since_weaken..|].
  exists start. split; [done|by eapply since_weaken].
Qed.

Lemma wait_record_ends fuel paths descriptor deadline w :
  (deadline - cw_clock w ≤ Z.of_nat fuel * DESCRIPTOR_RECHECK)%Z →
  ends (wait_for_coordinator_record_for_descriptor outside uid (S fuel) paths descriptor deadline)
    (λ o w', Steps P w w' ∧ ∀ record, o = Done record →
       supervised paths descriptor record (cw_history w) (cw_history w')) w.
Proof.
  intros Hfuel. apply (loop_ends DESCRIPTOR_RECHECK _ deadline (λ _ w', Steps P w w')); [done| |done..].
  intros [] w1 S1. eapply ends_mono; [apply record_turn_ends|]. intros o w2 (S2 & Hgo & Hrec).
  assert (Steps P w w2) by (by etrans). destruct o as [[[]|record]| |]; [| |done..].
  - destruct (Hgo eq_refl). auto.
  - split; [done|]. intros r [= <-]. eapply supervised_weaken; [exact (steps_suffix _ _ _ S1)|done|auto].
Qed.

Lemma originals_retired_ends original coordinator w :
  ends (require_original_processes_retired outside original coordinator)
    (λ o w', Steps P w w' ∧ (o = Done tt →
       since (cw_history w) (cw_history w') (seen_absent (cr_pid coordinator))
       ∧ since (cw_history w) (cw_history w') (seen_absent (rdesc_broker_pid original)))) w.
Proof.
  apply ends_bind. eapply ends_mono; [by apply (require_gone_ends _ P)|]. intros o w1 [S1 Hc].
  destruct o as [[]| |]; cbn [bound]; [|done..].
  apply ends_bind, ends_lift. destruct (cr_broker_start_identity coordinator); cbn [ok_or bound]; [|done].
  eapply ends_mono; [by apply (require_gone_ends _ P)|]. intros o w2 [S2 Hb]. assert (Steps P w w2) as S02 by (by etrans).
  split; [done|]. intros Ho. split.
  - exists (cw_history w1). split_and!; [exact (steps_suffix _ _ _ S1)|exact (steps_suffix _ _ _ S2)|auto].
  - apply since_now; [exact (steps_suffix _ _ _ S02)|auto].
Qed.

(** From [h] to [h'] a replacement of [original] was established: the processes of the
    original were seen to be gone; then the replacement, another instance of the same
    executable for the same scope, proved itself; then its supervision was seen. *)
Definition replaced (paths : RuntimePaths) (original : RuntimeDescriptor) (coordinator : CoordinatorRecord)
    (h h' : History) : Prop :=
  ∃ replacement record g1 g2,
    h `suffix_of` g1 ∧ g1 `suffix_of` g2 ∧ g2 `suffix_of` h'
    ∧ since h g1 (seen_absent (cr_pid coordinator)) ∧ since h g1 (seen_absent (rdesc_broker_pid original))
    ∧ proved replacement g2 ∧ supervised paths replacement record g2 h'
    ∧ rdesc_broker_instance_id replacement ≠ rdesc_broker_instance_id original
    ∧ rdesc_session_key replacement = scope_session_key (rp_scope paths)
    ∧ rdesc_workspace_id replacement = scope_workspace_id (rp_scope paths)
    ∧ path_eqb (rdesc_executable_path replacement) (rdesc_executable_path original) = true.

Lemma validate_replacement_ends fuel paths original coordinator candidate deadline w :
  (deadline - cw_clock w ≤ Z.of_nat fuel * DESCRIPTOR_RECHECK)%Z →
  ends (validate_replacement_after_retirement outside uid (S fuel) paths original coordinator candidate deadline)
    (λ o w', Steps P w w' ∧ ∀ descriptor, o = Done descriptor →
       replaced paths original coordinator (cw_history w) (cw_history w')) w.
Proof.
  intros Hfuel.
  apply ends_bind. eapply ends_mono; [apply originals_retired_ends|]. intros o w1 [S1 Hgone].
  destruct o as [[]| |]; cbn [bound]; [|done..]. destruct (Hgone eq_refl) as [Hgc Hgb].
  apply ends_bind. eapply ends_mono; [apply protected_descriptor_ends|]. intros o w2 [S2 Hproved].
  assert (Steps P w w2) as S02 by (by etrans). destruct o as [[replacement|]| |]; cbn [bound]; [|by apply ends_bind, ends_lift|done..].
  specialize (Hproved replacement eq_refl). apply ends_bind, ends_lift. cbn [ok_or bound].
  apply ends_reject; [done|]. intros _. apply ends_reject; [done|]. intros Hsame.
  apply orb_false_iff in Hsame as [[[Hinst%String.eqb_neq Hkey%negb_false_iff%String.eqb_eq]%orb_false_iff
    Hws%negb_false_iff%String.eqb_eq]%orb_false_iff Hexe%negb_false_iff].
  pose proof (steps_clock _ _ _ S02).
  apply ends_bind. eapply ends_mono; [apply wait_record_ends; lia|]. intros o w3 [S3 Hsup].
  assert (Steps P w w3) as S03 by (by etrans). destruct o as [record| |]; cbn [bound]; [|done..].
  apply ends_ret. split; [done|]. intros _ _. exists replacement, record, (cw_history w1), (cw_history w2).
  split_and!; try done;
    [exact (steps_suffix _ _ _ S1)|exact (steps_suffix _ _ _ S2)|exact (steps_suffix _ _ _ S3)|auto].
Qed.
End restarting.

(** ** Waiting for a broker *)

(** No two changes of the runtime directory are seen at the same time. *)
Definition changes_take_time {serde : RuntimeSerde} (outside : Outside) : Prop :=
  ∀ duration h, (1 ≤ (outside unit (SleepOrChange duration) h).2)%N.

Section waiting.
Context {serde : RuntimeSerde} {crypto : ApiCrypto} {coord_serde : CoordSerde}.
Context (outside : Outside) (P : CoordEntry → History → Prop) `{!Harmless P}.

Lemma change_ends duration Q w :
  changes_take_time outside →
  (∀ w', Steps P w w' → (cw_clock w + 1 ≤ cw_clock w')%Z → Q (Done tt) w') →
  ends (call outside (SleepOrChange duration)) Q w.
Proof.
  intros Htime HQ. specialize (Htime duration (cw_history w)). unfold ends, call.
  destruct (outside unit (SleepOrChange duration) (cw_history w)) as [[] elapsed].
  eexists _, _. split; [done|]. apply HQ; cbn [cw_clock least_time snd] in *; [|lia].
  split; cbn [cw_clock]; [lia|]. constructor; [constructor|by apply harmless_call].
Qed.

(** The least time between two looks at the descriptor. *)
Definition quantum (watched : bool) : Z := if watched then 1%Z else DESCRIPTOR_RECHECK.

Lemma wait_protected_ends fuel paths deadline watched w :
  (watched = true → changes_take_time outside) →
  (deadline - cw_clock w ≤ Z.of_nat fuel * quantum watched)%Z →
  ends (wait_for_protected_descriptor outside (S fuel) paths deadline watched)
    (λ o w', Steps P w w' ∧ ∀ descriptor, o = Done descriptor →
       since (cw_history w) (cw_history w') (proved descriptor)) w.
Proof.
  intros Htime Hfuel.
  apply (loop_ends (quantum watched) _ deadline (λ _ w', Steps P w w')); [by destruct watched| |done..].
  intros [] w1 S1. apply ends_bind. eapply ends_mono; [by apply (protected_descriptor_ends _ P)|].
  intros o w2 [S2 Hproved]. assert (Steps P w w2) as S02 by (by etrans).
  destruct o as [[descriptor|]| |]; cbn [bound]; [| |done..].
  { apply ends_ret. split; [done|]. intros d [= <-]. apply since_now; [exact (steps_suffix _ _ _ S02)|auto]. }
  apply ends_bind, (now_ends _ P); [by apply harmless_call|]. intros w3 S3 _. cbn [bound]. cbv zeta.
  assert (Steps P w w3) as S03 by (by etrans). assert (Steps P w1 w3) as S13 by (by etrans).
  pose proof (steps_clock _ _ _ S13) as Hclock.
  case_match eqn:Hlate; [by apply ends_lift|]. apply Z.eqb_neq in Hlate. unfold saturating_duration_since in *.
  apply ends_bind. destruct watched.
  - apply change_ends; [auto|]. intros w4 S4 Hc. apply ends_ret. split_and!; [by etrans|lia|]. left. cbn [quantum]. lia.
  - apply (call_ends _ P); [intros; by apply harmless_call|]. intros [] w4 S4 _ Hc. cbn [least_time] in Hc.
    apply ends_ret. split_and!; [by etrans|lia|]. cbn [quantum]. lia.
Qed.
End waiting.

Section restart_command.
Context {serde : RuntimeSerde} {crypto : ApiCrypto} {coord_serde : CoordSerde}.
Context (outside : Outside) (uid : Z) (Htime : changes_take_time outside).
(** Ten seconds in nanoseconds. *)
Context (fuel : nat) (Hfuel : (DEFAULT_ENSURE_TIMEOUT ≤ Z.of_nat fuel)%Z).

Lemma rechecks_suffice deadline w w' P :
  (deadline ≤ cw_clock w + DEFAULT_ENSURE_TIMEOUT)%Z → Steps P w w' →
  (deadline - cw_clock w' ≤ Z.of_nat fuel * DESCRIPTOR_RECHECK)%Z.
Proof. intros Hd [Hc _]. assert (1 < DESCRIPTOR_RECHECK)%Z by done. nia. Qed.

Lemma stop_turns_suffice : 200 ≤ fuel.
Proof. assert (200 ≤ DEFAULT_ENSURE_TIMEOUT)%Z by done. lia. Qed.

Lemma launcher_ensure_ends P `{!Harmless P} scope deadline w :
  (∀ t answer h, P (MkCoordEntry t InvokeAction answer) h) →
  (deadline ≤ cw_clock w + DEFAULT_ENSURE_TIMEOUT)%Z →
  ends (launcher_ensure outside (S fuel) scope deadline)
    (λ o w', Steps P w w' ∧ ∀ descriptor, o = Done descriptor →
       since (cw_history w) (cw_history w') (proved descriptor)) w.
Proof.
  intros Haction Hd.
  apply ends_bind, (call_ends _ P); [intros; by apply harmless_call|]. intros r w1 S1 _ _. cbn [bound].
  apply ends_bind, ends_lift. destruct r as [paths| |]; cbn [bound map_error]; [|done..].
  case_match; [by apply ends_lift|].
  apply ends_bind. eapply ends_mono; [by apply (protected_descriptor_ends _ P)|]. intros o w2 [S2 Hproved].
  assert (Steps P w w2) as S02 by (by etrans).
  destruct o as [[descriptor|]| |]; cbn [bound]; [| |done..].
  { apply ends_ret. split; [done|]. intros d [= <-]. apply since_now; [exact (steps_suffix _ _ _ S02)|auto]. }
  apply (ends_calm P); [by apply calm_now; intros; apply harmless_call|]. intros o w3 S3.
  assert (Steps P w w3) as S03 by (by etrans). destruct o as [now| |]; [|done..]. case_match; [by apply ends_lift|].
  apply (ends_calm P); [by apply calm_call; intros; apply harmless_call|]. intros o w4 S4.
  assert (Steps P w w4) as S04 by (by etrans).
  destruct o as [r| |]; [|done..]. apply ends_bind, ends_lift. destruct r as [[]|]; cbn [bound map_error of_result]; [|done].
  apply (ends_calm P); [by apply calm_call|]. intros o w5 S5. assert (Steps P w w5) as S05 by (by etrans).
  destruct o as [r| |]; [|done..]. apply ends_bind, ends_lift. destruct r as [[]|]; cbn [bound map_error of_result]; [|done].
  eapply ends_mono.
  { apply (wait_protected_ends _ P); [done|]. pose proof (steps_clock _ _ _ S05). cbn [quantum]. lia. }
  intros o w6 [S6 Hdone]. split; [by etrans|]. intros d Ho.
  eapply since_weaken; [exact (steps_suffix _ _ _ S05)|done|auto].
Qed.

Lemma removal_loop_ends instance paths original coordinator deadline deadline' recovered w :
  (deadline ≤ cw_clock w + DEFAULT_ENSURE_TIMEOUT)%Z →
  ends (loop (S fuel) (removal_turn outside paths original coordinator deadline deadline') recovered)
    (λ _ w', Steps (restart_call instance) w w') w.
Proof.
  set (P := restart_call instance). assert (Harmless P) as Hquiet by apply restart_harmless.
  intros Hd. apply (loop_ends DESCRIPTOR_RECHECK _ deadline (λ _ w', Steps P w w'));
    [done| |done|by eapply (rechecks_suffice _ w w P)].
  intros s w1 S1. unfold removal_turn.
  case_match; [by apply ends_ret|].
  apply (ends_calm P); [by apply calm_call|]. intros o w2 S2. assert (Steps P w w2) as S02 by (by etrans).
  destruct o as [present| |]; [|done..]. case_match; [by apply ends_ret|].
  apply (ends_calm P); [by apply calm_call|]. intros o w3 S3. assert (Steps P w w3) as S03 by (by etrans).
  destruct o as [[observed|]| |]; [|by apply ends_lift|done..].
  apply (ends_calm P).
  { case_match; [|quiet]. apply calm_bind; [|intros; quiet].
    intros w'. eapply ends_mono; [apply originals_retired_ends; apply _|]. by intros o w'' [? _]. }
  intros o w4 S4. assert (Steps P w w4) as S04 by (by etrans).
  destruct o as [replaced| |]; [|done..]. case_match; [by apply ends_ret|].
  apply ends_bind, (now_ends _ P); [done|]. intros w5 S5 _. cbn [bound].
  assert (Steps P w1 w5) as S15 by (etrans; [exact S2|]; etrans; [exact S3|]; by etrans).
  case_match eqn:Hlate; [apply ends_lift; by etrans|]. apply Z.leb_gt in Hlate.
  apply ends_bind, (call_ends _ P); [done|]. intros [] w6 S6 _ Hc. cbn [least_time] in Hc. apply ends_ret.
  pose proof (steps_clock _ _ _ S15). split_and!; [etrans; [|exact S6]; by etrans|lia..].
Qed.

(** Nothing but harmless calls. *)
Definition quiet_call (e : CoordEntry) (_ : History) : Prop :=
  match e with MkCoordEntry _ c _ => harmless c = true end.
#[global] Instance quiet_harmless : Harmless quiet_call.
Proof. by intros A c t a h Hc. Qed.
Lemma quiet_is P `{!Harmless P} w w' : Steps quiet_call w w' → Steps P w w'.
Proof. apply steps_mono. intros [A t c a] h Hc. by apply harmless_call. Qed.

(** The descriptor [original] was read from the paths. *)
Definition descriptor_read (paths : RuntimePaths) (original : RuntimeDescriptor) (h : History) : Prop :=
  last_answer (λ A c, match c in CoordCall A return A → option (RuntimePaths * Result RuntimeError RuntimeDescriptor) with
                      | ReadDescriptor p => λ r, Some (p, r)
                      | _ => λ _, None
                      end) h = Some (paths, Ok original).

(** Up to [g] a restart has only looked; there the broker of the descriptor that it read
    proved itself, and all that it did to processes since is for that instance. *)
Definition restart_addressed (paths : RuntimePaths) (original : RuntimeDescriptor) (h h' : History) : Prop :=
  ∃ g, Extends quiet_call h g ∧ descriptor_read paths original g ∧ proved original g
    ∧ Extends (restart_call (rdesc_broker_instance_id original)) g h'.

(** What a restart that succeeds has seen. *)
Definition restarted (w w' : CoordWorld) : Prop :=
  ∃ paths original coordinator g0 g1,
    cw_history w `suffix_of` g0 ∧ g0 `suffix_of` g1 ∧ g1 `suffix_of` cw_history w'
    ∧ proved original g0 ∧ supervised paths original coordinator g0 g1
    ∧ replaced paths original coordinator g1 (cw_history w')
    ∧ Extends (restart_call (rdesc_broker_instance_id original)) (cw_history w) (cw_history w').

(** [restart] once the original broker has proved itself. *)
Lemma restart_proved_ends paths original deadline w :
  (deadline ≤ cw_clock w + DEFAULT_ENSURE_TIMEOUT)%Z →
  ends (original_coordinator ← wait_for_coordinator_record_for_descriptor outside uid (S fuel) paths original deadline;
        stop_result ← catch (stop_expected outside uid (S fuel) (Some (rdesc_broker_instance_id original)));
        now ← instant_now outside;
        let replacement_deadline := (now + DEFAULT_ENSURE_TIMEOUT)%Z in
        recovered ← match stop_result with
            | Done _ => mret None
            | Fail stop_error =>
                found ← proved_replacement_after_retirement outside paths original original_coordinator replacement_deadline;
                match found with Some replacement => mret (Some replacement) | None => fail stop_error end
            | Panic msg => lift (Panic msg)
            end;
        recovered ← loop (S fuel) (removal_turn outside paths original original_coordinator deadline replacement_deadline) recovered;
        replacement ← match recovered with
            | Some replacement => mret replacement
            | None => launcher_ensure outside (S fuel) (rp_scope paths) replacement_deadline
            end;
        _ ← validate_replacement_after_retirement outside uid (S fuel) paths original original_coordinator replacement
              replacement_deadline;
        mret tt)
    (λ o w', Steps (restart_call (rdesc_broker_instance_id original)) w w' ∧ (o = Done tt → ∃ coordinator g1,
       cw_history w `suffix_of` g1 ∧ g1 `suffix_of` cw_history w'
       ∧ supervised paths original coordinator (cw_history w) g1
       ∧ replaced paths original coordinator g1 (cw_history w'))) w.
Proof.
  intros Hd. set (instance := rdesc_broker_instance_id original). set (P := restart_call instance).
  assert (Harmless P) as Hquiet by apply restart_harmless.
  apply ends_bind. eapply ends_mono; [by apply (wait_record_ends _ _ P), (rechecks_suffice _ w w P)|]. intros o w1 [S1 Hsup].
  destruct o as [coordinator| |]; cbn [bound]; [|done..]. specialize (Hsup coordinator eq_refl).
  apply ends_bind, ends_catch. eapply ends_mono; [apply stop_expected_ends, stop_turns_suffice|].
  intros stop_result w2 (r & E2 & C2 & _). cbn [bound].
  assert (Steps P w1 w2) as S12.
  { split; [done|].
    etrans; [|eapply extends_mono; [|exact E2]; intros e h; apply stop_is_restart]. constructor; [constructor|done]. }
  assert (Steps P w w2) as S02 by (by etrans).
  apply ends_bind, (now_ends _ P); [done|]. intros w3 S3 _. assert (Steps P w w3) as S03 by (by etrans).
  cbn [bound]. cbv zeta. pose proof (steps_clock _ _ _ S03).
  apply (ends_calm P).
  { destruct stop_result; [quiet| |quiet]. apply calm_bind; [|intros [|]; quiet]. apply calm_bind; [|intros; quiet].
    intros w'. eapply ends_mono; [by apply (originals_retired_ends _ P)|]. by intros o w'' [? _]. }
  intros o w4 S4. pose proof (steps_clock _ _ _ S4). assert (Steps P w w4) as S04 by (by etrans).
  destruct o as [recovered| |]; [|done..].
  apply ends_bind. eapply ends_mono; [apply (removal_loop_ends instance); lia|]. intros o w5 S5.
  assert (Steps P w3 w5) as S35 by (etrans; [exact S4|exact S5]). assert (Steps P w w5) as S05 by (by etrans).
  destruct o as [recovered'| |]; cbn [bound]; [|done..].
  apply ends_bind, (ends_mono _ (λ _ w', Steps P w3 w')).
  { destruct recovered' as [replacement|]; [by apply ends_ret|]. pose proof (steps_clock _ _ _ S35).
    eapply ends_mono; [apply (launcher_ensure_ends P); [done|lia]|]. intros o w6 [S6 _]. by etrans. }
  intros o w6 S36. assert (Steps P w w6) as S06 by (etrans; [exact S03|exact S36]). destruct o as [replacement| |]; cbn [bound]; [|done..].
  apply ends_bind. eapply ends_mono; [by apply (validate_replacement_ends _ _ P), (rechecks_suffice _ w3 w6 P)|].
  intros o w7 [S7 Hrep]. assert (Steps P w w7) as S07 by (by etrans).
  destruct o as [d| |]; cbn [bound]; [|done..]. apply ends_ret. split; [done|]. intros _.
  exists coordinator, (cw_history w6). split_and!; [exact (steps_suffix _ _ _ S06)|exact (steps_suffix _ _ _ S7)| |eauto].
  assert (Steps P w1 w6) as S16 by (etrans; [exact S12|]; by etrans).
  eapply supervised_weaken; [done|exact (steps_suffix _ _ _ S16)|exact Hsup].
Qed.

(** [restart] ends; it only looks or is addressed to one instance, and when it succeeds the
    broker was replaced. *)
Lemma restart_ends w :
  ends (restart outside uid (S fuel)) (λ o w',
    (Extends quiet_call (cw_history w) (cw_history w') ∨
       ∃ paths original, restart_addressed paths original (cw_history w) (cw_history w'))
    ∧ (o = Done tt → restarted w w')) w.
Proof.
  assert (∀ (o : Outcome CoordError ()) w', Steps quiet_call w w' → o ≠ Done tt →
    (Extends quiet_call (cw_history w) (cw_history w') ∨
       ∃ paths original, restart_addressed paths original (cw_history w) (cw_history w'))
    ∧ (o = Done tt → restarted w w')) as Hlooked.
  { intros o w' [_ He] Ho. split; [by left|done]. }
  apply (ends_calm quiet_call); [quiet|]. intros o w1 S1. destruct o as [paths| |]; [|by apply Hlooked..].
  apply ends_bind, (now_ends _ quiet_call); [done|]. intros w2 S2 _. cbn [bound]. cbv zeta.
  apply ends_bind, (call_ends _ quiet_call); [done|]. intros r w3 S3 Hread _. cbn [bound].
  assert (Steps quiet_call w w3) as S03 by (etrans; [exact S1|]; by etrans).
  apply ends_bind, ends_lift. destruct r as [original|]; cbn [bound map_error of_result]; [|by apply Hlooked].
  apply ends_bind, (call_ends _ quiet_call); [done|]. intros r w4 S4 Hbuild _. cbn [bound].
  assert (Steps quiet_call w w4) as S04 by (by etrans).
  apply ends_bind, ends_lift. destruct r as [[]|]; cbn [bound map_error of_result]; [|by apply Hlooked].
  apply ends_bind, (call_ends _ quiet_call); [done|]. intros answer w5 S5 Hh _. cbn [bound].
  assert (Steps quiet_call w w5) as S05 by (by etrans).
  apply ends_bind. destruct answer; [apply ends_ret|by apply ends_lift, Hlooked..]. cbn [bound].
  assert (Steps quiet_call w2 w5) as S25 by (etrans; [exact S3|]; by etrans). pose proof (steps_clock _ _ _ S25).
  eapply ends_mono; [apply restart_proved_ends; lia|]. intros o w6 [S6 Hdone].
  assert (proved original (cw_history w5)) as Hproved by (by rewrite Hh). split.
  - right. exists paths, original, (cw_history w5).
    split_and!; [exact (steps_history _ _ _ S05)| |done|exact (steps_history _ _ _ S6)].
    unfold descriptor_read. by rewrite Hh, Hbuild, Hread.
  - intros Ho. destruct (Hdone Ho) as (coordinator & g1 & Hg1 & Hg2 & Hsup & Hrep).
    exists paths, original, coordinator, (cw_history w5), g1. split_and!; try done; [exact (steps_suffix _ _ _ S05)|].
    etrans; [|exact (steps_history _ _ _ S6)]. apply steps_history, (quiet_is _ _ _ S05).
Qed.
End restart_command.

(** ** Serving *)

(** A function of [R] in a sequence that began in [w]. *)
Ltac within_calls R w :=
  apply (ends_calm R); [quiet|]; intros ? ? ?;
  match goal with
  | S : Steps ?P0 ?w1 ?w2 |- match ?o with _ => _ end =>
      assert (Steps P0 w w2) by (etrans; [|exact S]; assumption); destruct o; [|by split; [assumption|]..]
  end.

Section serving.
Context {serde : RuntimeSerde} {crypto : ApiCrypto} {coord_serde : CoordSerde}.

(** The lock file that was created or opened last, with the paths it was opened for. *)
Definition lock_opened : History → option (RuntimePaths * nat) :=
  last_answer (λ A c, match c in CoordCall A return A → option (RuntimePaths * nat) with
                      | OpenLock paths true => λ r, match r with Ok file => Some (paths, file) | Err _ => None end
                      | _ => λ _, None
                      end).
(** The last thing that happened to the lock of [file]: it was taken or given up. *)
Definition lock_event (file : nat) : History → option bool :=
  last_answer (λ A c, match c in CoordCall A return A → option bool with
                      | Flock taken => λ r,
                          match r with Ok _ => if (taken =? file)%nat then Some true else None | Err _ => None end
                      | CloseLock closed => λ _, if (closed =? file)%nat then Some false else None
                      | _ => λ _, None
                      end).
(** The lock of [paths] is held: its file is [file], locked and not closed since. *)
Definition locked (paths : RuntimePaths) (file : nat) (h : History) : Prop :=
  lock_opened h = Some (paths, file) ∧ lock_event file h = Some true.

(** How many brokers were spawned. *)
Fixpoint spawns (h : History) : nat :=
  match h with
  | [] => 0
  | MkCoordEntry _ c _ :: h => match c with SpawnBroker _ => S (spawns h) | _ => spawns h end
  end.

(** The reservation is one for the scope. *)
Definition reserved_for (paths : RuntimePaths) (entry : ManagedStartingProcessEntry) : Prop :=
  se_runtime_root entry = rp_root paths ∧ se_scope_key entry = scope_key (rp_scope paths).

(** Calls that stay within the scope of [paths], whose lock file is [file]. *)
Definition within (paths : RuntimePaths) (file : nat) {A} (c : CoordCall A) : Prop :=
  match c with
  | RemoveDescriptor p _ | BrokerEnvironment p => p = paths
  | WriteLock f _ => f = file
  | ReserveStart entry | BindStart entry _ | UnregisterStart entry => reserved_for paths entry
  | RegisterProcess entry | UnregisterProcess entry =>
      me_runtime_root entry = rp_root paths ∧ me_scope_key entry = scope_key (rp_scope paths)
  | OpenLock _ true | CloseLock _ | SendStop _ _ _ | InvokeAction => False
  | _ => True
  end.

(** The calls of [serve] after [h0], for the paths it discovered: the lock file that it
    creates is that of these paths, one broker is spawned at most, and whatever changes
    anything else is done under this lock and within the scope. *)
Definition serve_call (discovered : Outcome RuntimeError RuntimePaths) (h0 : History)
    (e : CoordEntry) (h : History) : Prop :=
  match e with
  | MkCoordEntry _ c _ =>
      match c with
      | OpenLock paths true => discovered = Done paths
      | CloseLock file => ∃ paths, discovered = Done paths ∧ locked paths file h
      | SpawnBroker _ => spawns h = spawns h0 ∧ ∃ paths file, discovered = Done paths ∧ locked paths file h
      | c => harmless c = true
             ∨ ∃ paths file, discovered = Done paths ∧ locked paths file h ∧ within paths file c
      end
  end.

(** The calls made under the lock; a broker is spawned when [spawning] permits it. *)
Definition locked_call (paths : RuntimePaths) (file : nat) (spawning : History → Prop)
    (e : CoordEntry) (h : History) : Prop :=
  match e with
  | MkCoordEntry _ c _ => match c with SpawnBroker _ => spawning h | c => within paths file c end
  end.

#[global] Instance locked_harmless paths file spawning : Harmless (locked_call paths file spawning).
Proof. intros A c t a h Hc. destruct c; try done. by destruct create. Qed.

Lemma locked_stays paths file spawning h h' :
  Extends (locked_call paths file spawning) h h' → locked paths file h → locked paths file h'.
Proof.
  unfold locked. induction 1 as [|[A t c a] h' He IH Hc]; [done|]. intros Hl. destruct (IH Hl) as [Ho Hf].
  destruct c; try done.
  - destruct create; [done|]. by split.
  - split; [done|]. cbn. destruct a; [|done]. by destruct (_ =? _)%nat.
Qed.

Lemma unspawned_spawns paths file h h' :
  Extends (locked_call paths file (λ _, False)) h h' → spawns h' = spawns h.
Proof. induction 1 as [|[A t c a] h' He IH Hc]; [done|]. by destruct c. Qed.

Lemma locked_is_serve paths file h0 h h' :
  locked paths file h → Extends (locked_call paths file (λ g, spawns g = spawns h0)) h h' →
  Extends (serve_call (Done paths) h0) h h'.
Proof.
  intros Hl. induction 1 as [|e h' He IH Hc]; [constructor|]. constructor; [done|].
  pose proof (locked_stays _ _ _ _ _ He Hl). destruct e as [A t c a].
  destruct c; simpl in *; try (right; by exists paths, file); try done.
  - destruct create; [done|]. by left.
  - split; [done|]. by exists paths, file.
Qed.

Lemma serve_spawns discovered h0 h h' :
  spawns h ≤ S (spawns h0) → Extends (serve_call discovered h0) h h' → spawns h' ≤ S (spawns h0).
Proof.
  intros Hn. induction 1 as [|[A t c a] h' He IH Hc]; [done|]. destruct c; try exact IH.
  destruct Hc as [Hs _]. simpl. by rewrite Hs.
Qed.

Context (outside : Outside) (uid : Z) (fuel : nat) (Hfuel : 400 ≤ fuel).

Lemma ensure_turns_suffice w : (cw_clock w + DEFAULT_ENSURE_TIMEOUT - cw_clock w ≤ Z.of_nat fuel * DESCRIPTOR_RECHECK)%Z.
Proof. change DEFAULT_ENSURE_TIMEOUT with (400 * DESCRIPTOR_RECHECK)%Z. assert (0 < DESCRIPTOR_RECHECK)%Z by done. nia. Qed.

Section locked.
Context (paths : RuntimePaths) (file : nat).

Section under_lock.
Context (spawning : History → Prop).
Local Abbreviation P := (locked_call paths file spawning).

Ltac calmly_locked := repeat first [quiet | apply calm_catch | apply calm_bind; [|intros ?] | by apply calm_call | case_match].

(** Cleaning up after an error makes no result and adds calls only. *)
Lemma on_error_ends {A} (m : Coord A) cleanup (Φ : A → CoordWorld → Prop) w :
  calm P cleanup →
  ends m (λ o w', Steps P w w' ∧ ∀ a, o = Done a → Φ a w') w →
  ends (on_error m cleanup) (λ o w', Steps P w w' ∧ ∀ a, o = Done a → Φ a w') w.
Proof.
  intros Hc Hm. apply ends_bind, ends_catch. eapply ends_mono; [exact Hm|]. intros o w1 [S1 HΦ]. cbn [bound].
  destruct o as [a| |]; [by apply ends_ret; auto| |].
  all: apply ends_bind; eapply calm_then; [exact Hc|]; intros o2 w2 S2; assert (Steps P w w2) by (by etrans);
    destruct o2; cbn [bound]; [by apply ends_lift|done..].
Qed.

Lemma calm_terminate : calm P (terminate_child outside).
Proof. unfold terminate_child. calmly_locked. Qed.
Lemma calm_cleanup pid : calm P (cleanup_descriptor_for_child outside paths pid).
Proof. unfold cleanup_descriptor_for_child. calmly_locked. Qed.
Lemma calm_drop active entry : reserved_for paths entry → calm P (drop_reservation outside active entry).
Proof. intros Hentry. unfold drop_reservation. calmly_locked. Qed.
Lemma calm_write_record record : calm P (write_record outside file record).
Proof. unfold write_record. calmly_locked. Qed.
Lemma calm_registration_proof pid message : calm P (registration_process_proof outside pid message).
Proof. unfold registration_process_proof. calmly_locked. Qed.
Hint Resolve calm_terminate calm_cleanup calm_write_record calm_registration_proof : calm.
Lemma calm_supervise : calm P (supervise outside).
Proof. unfold supervise. calmly_locked. Qed.

Lemma owned_turn_ends pid deadline w :
  ends (owned_descriptor_turn outside paths pid deadline) (λ o w', Steps P w w'
    ∧ (o = Done (inl tt) → cw_clock w < deadline ∧ cw_clock w + DESCRIPTOR_RECHECK ≤ cw_clock w')%Z
    ∧ ∀ d, o = Done (inr d) → proved d (cw_history w') ∧ rdesc_broker_pid d = pid) w.
Proof.
  apply ends_bind, (now_ends _ P); [done|]. intros w1 S1 _. cbn [bound]. case_match eqn:Hlate.
  { apply ends_bind. eapply (calm_then P); [quiet|]. intros o w2 S2. assert (Steps P w w2) by (by etrans).
    destruct o; cbn [bound]; [by apply ends_lift|done..]. }
  apply ends_bind. eapply ends_mono; [by apply (protected_descriptor_ends _ P)|]. intros o w2 [S2 Hproved].
  assert (Steps P w w2) as S02 by (by etrans). destruct o as [[d|]| |]; cbn [bound]; [| |done..].
  - case_match eqn:Hpid.
    + apply ends_bind. eapply (calm_then P); [quiet|]. intros o w3 S3. assert (Steps P w w3) by (by etrans).
      destruct o; cbn [bound]; [by apply ends_lift|done..].
    + apply ends_ret. split_and!; [done..|]. intros d' [= <-]. split; [auto|]. by apply negb_false_iff, Z.eqb_eq in Hpid.
  - apply ends_bind, (call_ends _ P); [done|]. intros exited w3 S3 _ Hc. cbn [bound least_time] in *.
    assert (Steps P w w3) as S03 by (by etrans). destruct exited as [[]|].
    1,2: by apply ends_bind, ends_lift; cbn [bound map_error of_result]; first [apply ends_lift|done].
    apply ends_ret. apply Z.leb_gt in Hlate. pose proof (steps_clock _ _ _ S1). pose proof (steps_clock _ _ _ S02).
    split_and!; [done| |done]. intros _. lia.
Qed.

Lemma owned_wait_ends pid deadline w :
  (deadline - cw_clock w ≤ Z.of_nat fuel * DESCRIPTOR_RECHECK)%Z →
  ends (wait_for_owned_descriptor outside (S fuel) paths pid deadline) (λ o w', Steps P w w'
    ∧ ∀ d, o = Done d → since (cw_history w) (cw_history w') (proved d)) w.
Proof.
  intros Hd. apply (loop_ends DESCRIPTOR_RECHECK _ deadline (λ _ w', Steps P w w')); [done| |done..].
  intros [] w1 S1. eapply ends_mono; [apply owned_turn_ends|]. intros o w2 (S2 & Hgo & Hend).
  assert (Steps P w w2) as S02 by (by etrans). destruct o as [[[]|d]| |]; [| |done..].
  - destruct (Hgo eq_refl). auto.
  - split; [done|]. intros d' [= <-]. apply since_now; [exact (steps_suffix _ _ _ S02)|]. by apply Hend.
Qed.

(** Some broker has proved itself. *)
Definition broker_proved (h h' : History) : Prop := ∃ d, since h h' (proved d).
Lemma broker_proved_weaken h0 h h' h1 :
  h0 `suffix_of` h → h' `suffix_of` h1 → broker_proved h h' → broker_proved h0 h1.
Proof. intros H0 H1 [d Hd]. exists d. by eapply since_weaken. Qed.

(** The entry of the registry is one for the scope. *)
Definition adopted_for (entry : ManagedProcessEntry) : Prop :=
  me_runtime_root entry = rp_root paths ∧ me_scope_key entry = scope_key (rp_scope paths).

Lemma adopt_ends proof spawned w :
  ends (adopt_broker outside (S fuel) paths file proof spawned) (λ o w', Steps P w w'
    ∧ ∀ r, o = Done r → adopted_for r.1.2 ∧ broker_proved (cw_history w) (cw_history w')) w.
Proof.
  apply ends_bind, (now_ends _ P); [done|]. intros w1 S1 _. cbn [bound].
  apply ends_bind, ends_catch. eapply ends_mono; [apply owned_wait_ends, ensure_turns_suffice|].
  intros waited w2 [S2 Hproved]. cbn [bound]. assert (Steps P w w2) as S02 by (by etrans).
  apply ends_bind. destruct waited as [d|e|msg].
  2,3: apply ends_bind; eapply (calm_then P); [quiet|]; intros o w3 S3; assert (Steps P w w3) by (by etrans);
    destruct o; cbn [bound]; [by apply ends_lift|done..].
  apply ends_ret. cbn [bound]. specialize (Hproved d eq_refl).
  assert (broker_proved (cw_history w) (cw_history w2)) as Hd
    by (exists d; eapply since_weaken; [exact (steps_suffix _ _ _ S1)|done..]).
  case_match.
  { within_calls (locked_call paths file spawning) w. within_calls (locked_call paths file spawning) w. by apply ends_lift. }
  cbv zeta. apply (ends_calm P); [quiet|]. intros o w3 S3. assert (Steps P w w3) as S03 by (by etrans).
  destruct o; [|done..]. apply ends_bind, (call_ends _ P); [done|]. intros r w4 S4 _ _. cbn [bound].
  assert (Steps P w w4) as S04 by (by etrans). destruct r as [registered|error].
  - apply ends_ret. split; [done|]. intros _ [= <-]. split; [done|].
    eapply broker_proved_weaken; [done| |exact Hd].
    exact (steps_suffix _ _ _ (transitivity S3 S4)).
  - within_calls (locked_call paths file spawning) w. within_calls (locked_call paths file spawning) w. by apply ends_lift.
Qed.
End under_lock.

Lemma steps_unspawned spawning w w' :
  Steps (locked_call paths file (λ _, False)) w w' → Steps (locked_call paths file spawning) w w'.
Proof. apply steps_mono. intros [B t c a] h. by destruct c. Qed.

(** A function before the broker is spawned: what fails there fails under the lock. *)
Ltac unspawned w :=
  apply (ends_calm (locked_call paths file (λ _, False)));
    [first [quiet | by apply calm_call | by apply calm_registration_proof | by apply calm_write_record | by apply calm_now]|];
  intros ? ? ?;
  match goal with
  | S : Steps ?P0 ?w1 ?w2 |- match ?o with _ => _ end =>
      first [constr_eq w1 w | assert (Steps P0 w w2) by (etrans; [|exact S]; assumption); clear S];
      destruct o; [|by split; [apply steps_unspawned|]..]
  end.

(** Under the lock [spawn_broker] spawns once. *)
Lemma spawn_ends active entry w :
  reserved_for paths entry →
  ends (spawn_broker outside paths file active entry)
    (λ o w', Steps (locked_call paths file (λ h, spawns h = spawns (cw_history w))) w w'
       ∧ ∀ spawned, o = Done spawned → reserved_for paths (sp_entry spawned)) w.
Proof.
  intros Hentry. set (P := locked_call paths file (λ h, spawns h = spawns (cw_history w))).
  apply ends_bind. eapply ends_mono;
    [eapply (on_error_ends (λ h, spawns h = spawns (cw_history w)) _ _ (λ spawned _, sp_entry spawned = entry)); [by apply calm_drop|]|].
  - do 3 unspawned w.
    apply ends_bind, (call_ends _ P); [intros ?; refine (unspawned_spawns _ _ _ _ (steps_history _ _ _ _)); eassumption|].
    intros r w3 S3 _ _. cbn [bound]. assert (Steps P w w3) as S03 by (etrans; [by apply steps_unspawned|done]).
    do 2 within_calls P w. apply (ends_calm P); [by apply calm_call|]. intros o w4 S4.
    assert (Steps P w w4) by (etrans; [|exact S4]; assumption). destruct o; [|done..].
    within_calls P w. apply (ends_calm P); [apply calm_registration_proof|]. intros o w5 S5.
    assert (Steps P w w5) by (etrans; [|exact S5]; assumption). destruct o; [|done..]. apply ends_ret. split; [done|]. by intros spawned [= <-].
  - intros o w1 [S1 Hsp]. destruct o as [spawned| |]; cbn [bound]; [|done..]. cbv zeta.
    specialize (Hsp spawned eq_refl).
    destruct active; [|apply ends_ret; split; [done|]; intros ? [= <-]; by rewrite Hsp]. apply ends_bind.
    eapply ends_mono; [eapply (on_error_ends (λ h, spawns h = spawns (cw_history w)) _ _ (λ _ _, True)); [by apply calm_drop|]|].
    + eapply (calm_then P); [apply calm_bind; [by apply calm_call|]; intros ?; quiet|]. intros o w2 S2. by split.
    + intros o w2 [S2 _]. assert (Steps P w w2) by (by etrans). destruct o; cbn [bound]; [|done..].
      apply ends_ret. split; [done|]. by intros ? [= <-].
Qed.

Lemma serve_broker_ends port nonce w :
  ends (serve_broker outside (S fuel) paths file port nonce)
    (λ o w', Steps (locked_call paths file (λ h, spawns h = spawns (cw_history w))) w w'
       ∧ ∀ r, o = Done r → adopted_for r.1.1.2 ∧ broker_proved (cw_history w) (cw_history w')) w.
Proof.
  do 6 unspawned w. cbv zeta. unspawned w. cbv zeta.
  apply (ends_calm (locked_call paths file (λ _, False))); [by apply calm_call|]. intros o w0 S0.
  match goal with S : Steps ?P0 w ?v |- _ => assert (Steps P0 w w0) by (etrans; [exact S|exact S0]); clear S S0 end.
  destruct o; [|by split; [apply steps_unspawned|]..]. unspawned w.
  match goal with S : Steps (locked_call paths file (λ _, False)) w ?v |- _ =>
    rename v into w1; rename S into S1; pose proof (unspawned_spawns _ _ _ _ (steps_history _ _ _ S1)) as Heq;
    apply (steps_unspawned (λ h, spawns h = spawns (cw_history w))) in S1 end.
  set (P := locked_call paths file (λ h, spawns h = spawns (cw_history w))) in *.
  apply ends_bind. eapply ends_mono; [by apply spawn_ends|]. intros o w2 [S2 Hres]. rewrite Heq in S2. fold P in S2.
  assert (Steps P w w2) as S02 by (by etrans). destruct o as [spawned| |]; cbn [bound]; [|done..].
  apply ends_bind. eapply ends_mono; [apply on_error_ends; [by apply calm_drop, Hres|apply adopt_ends]|].
  intros o w3 [S3 Hproved]. assert (Steps P w w3) as S03 by (by etrans).
  destruct o as [adopted| |]; cbn [bound]; [|done..]. destruct (Hproved adopted eq_refl) as [Hfor Hpr].
  apply (ends_calm P); [apply calm_supervise|]. intros o w4 S4. assert (Steps P w w4) as S04 by (by etrans).
  destruct o; [|done..]. apply ends_ret. split; [done|]. intros ? [= <-]. split; [done|].
  eapply broker_proved_weaken; [exact (steps_suffix _ _ _ S02)|exact (steps_suffix _ _ _ S4)|done].
Qed.

Lemma serve_locked_ends w :
  ends (serve_locked outside (S fuel) paths file)
    (λ o w', Steps (locked_call paths file (λ h, spawns h = spawns (cw_history w))) w w'
       ∧ ∀ r, o = Done r → broker_proved (cw_history w) (cw_history w')) w.
Proof.
  unspawned w. apply ends_bind.
  eapply ends_mono; [apply (protected_descriptor_ends _ (locked_call paths file (λ _, False))); apply _|].
  intros o w1 [S1 Hproved]. match goal with S : Steps _ w _ |- _ => rename S into S0 end.
  assert (Steps (locked_call paths file (λ _, False)) w w1) as S01 by (by etrans).
  destruct o as [found| |]; cbn [bound]; [|by split; [apply steps_unspawned|]..].
  destruct found as [d|]; cbn [is_some].
  { apply ends_ret. split; [by apply steps_unspawned|]. intros _ _. exists d.
    apply since_now; [exact (steps_suffix _ _ _ S01)|auto]. }
  clear S0 S1. do 6 unspawned w.
  match goal with S : Steps (locked_call paths file (λ _, False)) w ?v |- ends _ _ ?v =>
    rename v into w2; rename S into S2; pose proof (unspawned_spawns _ _ _ _ (steps_history _ _ _ S2)) as Heq;
    apply (steps_unspawned (λ h, spawns h = spawns (cw_history w))) in S2 end.
  set (P := locked_call paths file (λ h, spawns h = spawns (cw_history w))) in *.
  apply ends_bind. eapply ends_mono; [apply on_error_ends; [by apply calm_call|apply serve_broker_ends]|].
  rewrite Heq. fold P. intros o w3 [S3 Hbroker]. assert (Steps P w w3) as S03 by (by etrans).
  destruct o as [[[[d entry] registered] child]| |]; cbn [bound]; [|done..].
  destruct (Hbroker _ eq_refl) as [Hfor Hpr]. cbn [fst snd] in Hfor.
  eapply (calm_then P).
  { apply calm_bind; [by apply calm_call|]. intros _. apply calm_bind; [by apply calm_call|]. intros cleanup.
    apply calm_bind; [quiet|]. intros _. apply calm_bind; [quiet|]. intros _.
    destruct registered; [|quiet]. apply calm_bind; [by apply calm_call|]. intros ?. quiet. }
  intros o w4 S4. split; [by etrans|]. intros _ _.
  eapply broker_proved_weaken; [exact (steps_suffix _ _ _ S2)|exact (steps_suffix _ _ _ S4)|done].
Qed.
End locked.

(** *** Without the lock *)

(** Calls that change nothing but the lock file of the paths, and take no lock. *)
Definition idle_call (discovered : Outcome RuntimeError RuntimePaths) (e : CoordEntry) (_ : History) : Prop :=
  match e with
  | MkCoordEntry _ c answer =>
      match c in CoordCall A return A → Prop with
      | OpenLock paths true => λ _, discovered = Done paths
      | Flock _ => λ r, match r with Ok _ => False | Err _ => True end
      | c => λ _, harmless c = true
      end answer
  end.

Lemma idle_entry_serves discovered h0 e h : idle_call discovered e h → serve_call discovered h0 e h.
Proof.
  destruct e as [A t c a]. intros Hc. destruct c; simpl in *; try (by left); try done. destruct create; [done|by left].
Qed.

Lemma idle_is_serve discovered h0 w w' :
  Steps (idle_call discovered) w w' → Steps (serve_call discovered h0) w w'.
Proof. apply steps_mono. intros e h. apply idle_entry_serves. Qed.

Lemma idle_spawns discovered h h' : Extends (idle_call discovered) h h' → spawns h' = spawns h.
Proof. induction 1 as [|[A t c a] h' He IH Hc]; [done|]. by destruct c. Qed.

(** What a function that returns has called. *)
Definition makes (P : CoordEntry → History → Prop) {A} (m : Coord A) : Prop :=
  ∀ w o w', m w = Some (o, w') → Extends P (cw_history w) (cw_history w').

Section makes.
Context (P : CoordEntry → History → Prop).
Lemma makes_lift {A} (o : Outcome CoordError A) : makes P (lift o).
Proof. by intros w o' w' [= _ <-]. Qed.
Lemma makes_ret {A} (a : A) : makes P (mret a).
Proof. by intros w o' w' [= _ <-]. Qed.
Lemma makes_bind {A B} (m : Coord A) (k : A → Coord B) : makes P m → (∀ a, makes P (k a)) → makes P (m ≫= k).
Proof.
  intros Hm Hk w o w'. unfold mbind, coord_bind. destruct (m w) as [[o1 w1]|] eqn:Hrun; [|done].
  specialize (Hm _ _ _ Hrun). destruct o1; [|by intros [= _ <-]..]. intros Hnext. etrans; [exact Hm|by eapply Hk].
Qed.
Lemma makes_call {A} (c : CoordCall A) : (∀ t a h, P (MkCoordEntry t c a) h) → makes P (call outside c).
Proof.
  intros Hc w o w'. unfold call. destruct (outside A c (cw_history w)). intros [= _ <-].
  constructor; [constructor|done].
Qed.
Lemma makes_now : (∀ t a h, P (MkCoordEntry t Now a) h) → makes P (instant_now outside).
Proof.
  intros Hc w o w'. unfold instant_now. pose proof (makes_call Now Hc w) as Hn.
  destruct (call outside Now w) as [[o1 w1]|]; [|done]. intros [= _ <-]. by eapply Hn.
Qed.
Lemma makes_loop {St A} n (body : St → Coord (St + A)) s : (∀ s, makes P (body s)) → makes P (loop n body s).
Proof.
  intros Hb. revert s. induction n as [|n IH]; intros s; [by intros w o w'|]. apply makes_bind; [done|].
  intros [s'|a]; [done|apply makes_ret].
Qed.
End makes.

Ltac making := repeat first
  [ apply makes_lift | apply makes_ret | apply makes_bind; [|intros ?] | by apply makes_call | by apply makes_now
  | apply makes_loop; intros ? | case_match ].

Lemma wait_makes discovered n paths deadline :
  makes (idle_call discovered) (wait_for_protected_descriptor outside n paths deadline false).
Proof. unfold wait_for_protected_descriptor, protected_descriptor, sleep. making. Qed.

(** The end of a call that returns and whose calls are known. *)
Lemma ends_makes (P : CoordEntry → History → Prop) {A} (m : Coord A) Q w :
  makes P m → ends m Q w → ends m (λ o w', Extends P (cw_history w) (cw_history w') ∧ Q o w') w.
Proof. intros Hm (o & w' & Hrun & HQ). exists o, w'. split; [done|]. split; [by eapply Hm|done]. Qed.

(** Opening the lock file of the paths. *)
Lemma open_ends paths w :
  ends (open_coordinator_lock outside uid paths true) (λ o w', Steps (idle_call (Done paths)) w w'
    ∧ ∀ file, o = Done file → lock_opened (cw_history w') = Some (paths, file)) w.
Proof.
  set (idle := idle_call (Done paths)). unfold open_coordinator_lock.
  apply ends_bind, (call_ends _ idle); [done|]. intros r w1 S1 _ _. cbn [bound].
  apply (ends_calm idle); [destruct r; [|case_match]; quiet|]. intros o w0 S0.
  assert (Steps idle w w0) by (by etrans). destruct o as [[]| |]; [|done..].
  apply ends_bind, (call_ends _ idle); [done|]. intros opened w2 S2 Hh2 _. cbn [bound].
  assert (Steps idle w w2) by (etrans; [|exact S2]; assumption). apply ends_bind, ends_lift.
  destruct opened as [file|]; cbn [bound map_error of_result]; [|done].
  assert (lock_opened (cw_history w2) = Some (paths, file)) as Ho by (by rewrite Hh2).
  apply ends_bind, (call_ends _ idle); [done|]. intros stat w3 S3 Hh3 _. cbn [bound].
  assert (Steps idle w w3) by (etrans; [|exact S3]; assumption). apply ends_bind, ends_lift.
  destruct stat as [metadata|]; cbn [bound map_error of_result]; [|done]. apply ends_reject; [done|]. intros _.
  apply ends_bind, (call_ends _ idle); [done|]. intros mode w4 S4 Hh4 _. cbn [bound].
  assert (Steps idle w w4) by (etrans; [|exact S4]; assumption). apply ends_bind, ends_lift.
  destruct mode as [[]|]; cbn [bound map_error of_result]; [|done].
  apply ends_bind, (call_ends _ idle); [done|]. intros stat w5 S5 Hh5 _. cbn [bound].
  assert (Steps idle w w5) by (etrans; [|exact S5]; assumption). apply ends_bind, ends_lift.
  destruct stat as [metadata'|]; cbn [bound map_error of_result]; [|done]. apply ends_reject; [done|]. intros _.
  apply ends_ret. split; [done|]. intros ? [= <-]. by rewrite Hh5, Hh4, Hh3.
Qed.

(** The lock is taken with the last call, or no lock is. *)
Lemma acquire_ends paths w :
  ends (acquire_coordinator_lock outside uid paths) (λ o w',
    match o with
    | Done (Some file) => locked paths file (cw_history w') ∧ (cw_clock w ≤ cw_clock w')%Z
        ∧ ∃ e h, cw_history w' = e :: h ∧ Extends (idle_call (Done paths)) (cw_history w) h
            ∧ serve_call (Done paths) (cw_history w) e h ∧ spawns (e :: h) = spawns h
    | _ => Steps (idle_call (Done paths)) w w'
    end) w.
Proof.
  set (idle := idle_call (Done paths)). apply ends_bind.
  eapply ends_mono; [apply open_ends|]. intros o w1 [S1 Hopen]. destruct o as [file| |]; cbn [bound]; [|done..].
  specialize (Hopen file eq_refl). apply ends_bind, ends_bind, (call_ends _ (λ _ _, True)); [done|].
  intros r w2 [C2 _] H2 _. cbn [bound]. pose proof (steps_clock _ _ _ S1).
  destruct r as [[]|errno].
  - apply ends_ret. cbn [bound]. apply ends_ret. rewrite H2. split_and!; [|lia|].
    + split; [exact Hopen|]. cbn. by rewrite Nat.eqb_refl.
    + eexists _, _. split; [done|]. split_and!; [exact (steps_history _ _ _ S1)|by left|done].
  - assert (Steps idle w w2) as S02.
    { split; [lia|]. rewrite H2. constructor; [exact (steps_history _ _ _ S1)|done]. }
    destruct errno; first [by apply ends_lift | apply ends_ret; cbn [bound]; by apply ends_ret].
Qed.

(** The last call of [h] closes the lock file of the paths, which was locked. *)
Definition lock_released (discovered : Outcome RuntimeError RuntimePaths) (h : History) : Prop :=
  ∃ t paths file before, h = MkCoordEntry t (CloseLock file) tt :: before
    ∧ discovered = Done paths ∧ locked paths file before.

(** What [serve] has done when it ends with [o]. *)
Definition served (o : Outcome CoordError ()) (w w' : CoordWorld) : Prop :=
  ∃ discovered, let h := MkCoordEntry (cw_clock w) Discover discovered :: cw_history w in
    Extends (serve_call discovered h) h (cw_history w')
    ∧ spawns (cw_history w') ≤ S (spawns (cw_history w))
    ∧ (Extends (idle_call discovered) h (cw_history w') ∨ lock_released discovered (cw_history w'))
    ∧ (o = Done tt → broker_proved (cw_history w) (cw_history w')).

Lemma served_idle discovered o w w1 w' :
  cw_history w1 = MkCoordEntry (cw_clock w) Discover discovered :: cw_history w →
  Steps (idle_call discovered) w1 w' → (o = Done tt → broker_proved (cw_history w) (cw_history w')) → served o w w'.
Proof.
  intros Hh Si Hp. exists discovered. cbv zeta. rewrite <-Hh.
  pose proof (steps_history _ _ _ (idle_is_serve _ (cw_history w1) _ _ Si)) as Hs.
  assert (spawns (cw_history w1) = spawns (cw_history w)) as Hn by (by rewrite Hh).
  split_and!; [done|rewrite <-Hn; by eapply serve_spawns; [|exact Hs]; lia|left; exact (steps_history _ _ _ Si)|done].
Qed.

Lemma serve_ends w : ends (serve outside uid (S fuel)) (λ o w', served o w w') w.
Proof.
  apply ends_bind, ends_bind, (call_ends _ (λ _ _, True)); [done|]. intros r w1 [C1 _] H1 _. cbn [bound].
  apply ends_lift.
  assert (cw_history w `suffix_of` cw_history w1) as Hsuf by (rewrite H1; by apply suffix_cons_r).
  destruct r as [paths|e|msg]; cbn [bound map_error]; [|by apply (served_idle _ _ _ _ _ H1)..].
  apply ends_bind. eapply ends_mono; [apply acquire_ends|]. intros o w2 Hacquired.
  destruct o as [[file|]|e|msg]; cbn [bound]; [| |by apply (served_idle _ _ _ _ _ H1)..].
  - destruct Hacquired as (Hl & C2 & e & h & H2 & Hidle & He & Hne).
    assert (Extends (serve_call (Done paths) (cw_history w1)) (cw_history w1) (cw_history w2)) as V02.
    { rewrite H2. constructor; [|done]. eapply (extends_mono (idle_call (Done paths))); [|exact Hidle].
      intros e' h' Hc. exact (idle_entry_serves _ _ _ _ Hc). }
    assert (spawns (cw_history w2) = spawns (cw_history w1)) as Hn by (rewrite H2, Hne; by eapply idle_spawns).
    apply ends_bind, ends_catch. eapply ends_mono; [apply serve_locked_ends|]. intros o w3 [S3 Hproved]. cbn [bound].
    rewrite Hn in S3. pose proof (locked_stays _ _ _ _ _ (steps_history _ _ _ S3) Hl) as Hl3.
    assert (Extends (serve_call (Done paths) (cw_history w1)) (cw_history w1) (cw_history w3)) as V03.
    { etrans; [exact V02|]. eapply locked_is_serve; [exact Hl|exact (steps_history _ _ _ S3)]. }
    apply ends_bind, (call_ends _ (λ _ _, True)); [done|]. intros [] w4 _ Hh _. cbn [bound]. apply ends_lift.
    assert (Extends (serve_call (Done paths) (cw_history w1)) (cw_history w1) (cw_history w4)) as V04.
    { rewrite Hh. constructor; [done|]. by exists paths. }
    assert (spawns (cw_history w1) = spawns (cw_history w)) as Hw by (by rewrite H1).
    exists (Done paths). cbv zeta. rewrite <-H1.
    split_and!; [done|rewrite <-Hw; by eapply serve_spawns; [|exact V04]; lia|right; by eexists _, _, _, _|].
    intros ->. eapply broker_proved_weaken; [|rewrite Hh; by apply suffix_cons_r|by eapply Hproved].
    etrans; [exact Hsuf|by eapply extends_suffix].
  - apply ends_bind, (now_ends _ (idle_call (Done paths))); [done|]. intros w3 S3 _. cbn [bound].
    assert (Steps (idle_call (Done paths)) w1 w3) as S03 by (by etrans).
    apply ends_bind. eapply ends_mono.
    { apply (ends_makes (idle_call (Done paths))); [apply wait_makes|].
      apply (wait_protected_ends _ quiet_call); [done|apply ensure_turns_suffice]. }
    intros o w4 (E4 & [C4 _] & Hproved).
    assert (Steps (idle_call (Done paths)) w1 w4) as S04 by (etrans; [exact S03|by split]).
    destruct o as [d|e|msg]; cbn [bound]; [|by apply (served_idle _ _ _ _ _ H1)..].
    apply ends_ret, (served_idle _ _ _ _ _ H1); [done|]. intros _. exists d.
    eapply since_weaken; [etrans; [exact Hsuf|exact (steps_suffix _ _ _ S03)]|done|auto].
Qed.
End serving.

(** ** The commands *)

Section control.
Context {serde : RuntimeSerde} {crypto : ApiCrypto} {coord_serde : CoordSerde}.

(** The coordinator that published a valid record accepts the request for it. *)
Lemma stop_request_accepted record connections :
  validate_control_record record = Done tt →
  control_wait (cr_control_nonce record) (Ok (true, Some (stop_request record)) :: connections) = Some (Ok tt).
Proof.
  intros Hvalid%reject_if_Done. assert (length (as_bytes (cr_control_nonce record)) = 64) as Hlen.
  { rewrite length_as_bytes. apply orb_false_iff in Hvalid as [Hvalid _]. apply orb_false_iff in Hvalid as [Hvalid _].
    apply orb_false_iff in Hvalid as [_ Hlen]. by apply negb_false_iff, Nat.eqb_eq in Hlen. }
  cbn [control_wait negb]. unfold stop_request.
  rewrite list_lookup_middle, take_app_length' by done. by rewrite !bool_decide_eq_true_2.
Qed.

(** Nothing but the nonce, from this host, ends the wait. *)
Lemma control_wait_sound nonce connections :
  control_wait nonce connections = Some (Ok tt) →
  ∃ request, Ok (true, Some request) ∈ connections ∧ take 64 request = as_bytes nonce ∧ request !! 64 = Some 10%Z.
Proof.
  induction connections as [|[[loopback request]|failure] connections IH]; [done| |done]. cbn [control_wait].
  destruct loopback; cbn [negb]; [|intros (r & Hr & Hrest)%IH; exists r; split; [by right|done]].
  destruct request as [request|]; [|intros (r & Hr & Hrest)%IH; exists r; split; [by right|done]].
  case_match eqn:Hok; [|intros (r & Hr & Hrest)%IH; exists r; split; [by right|done]]. intros _.
  apply andb_true_iff in Hok as [Hend%bool_decide_eq_true Hnonce%bool_decide_eq_true].
  exists request. split_and!; [by left|done..].
Qed.
End control.

(** The turns of 25 ms until the deadline, and the 120 of the longest phase of a retirement. *)
Definition stop_turns (deadline : Z) (clock : Z) : nat :=
  Nat.max 120 (Z.to_nat ((deadline - clock) / DESCRIPTOR_RECHECK + 1)).

Lemma stop_turns_enough deadline clock :
  (deadline - clock ≤ Z.of_nat (stop_turns deadline clock) * DESCRIPTOR_RECHECK)%Z.
Proof.
  unfold stop_turns. assert (0 < DESCRIPTOR_RECHECK)%Z as Hpos by done.
  pose proof (Z.mul_succ_div_gt (deadline - clock) _ Hpos).
  set (q := ((deadline - clock) / DESCRIPTOR_RECHECK)%Z) in *. set (c := 120).
  assert (q + 1 ≤ Z.of_nat (Nat.max c (Z.to_nat (q + 1))))%Z by lia. nia.
Qed.

Section commands.
Context {serde : RuntimeSerde} {crypto : ApiCrypto} {coord_serde : CoordSerde}.

(** C28: [stop_starting_process] returns, whatever the rest of the system does.  It sends
    signals only to the coordinator and the broker that the entry names, each time right
    after that process was seen with the identity of the entry (or to be gone), and removes
    a descriptor only if it is that broker's and the broker is gone.  When it succeeds, both
    processes were seen to be gone and the lock was seen to be free. *)
Theorem starting_process_is_stopped (outside : Outside) uid entry deadline w :
  ∃ o w', stop_starting_process outside uid (S (stop_turns deadline (cw_clock w))) entry deadline w = Some (o, w')
    ∧ Extends (starting_call entry) (cw_history w) (cw_history w')
    ∧ (o = Done tt → starting_stopped entry (cw_history w) (cw_history w')).
Proof.
  destruct (stop_starting_ends outside uid entry deadline (stop_turns deadline (cw_clock w))
    (Nat.le_max_l _ _) w (stop_turns_enough _ _)) as (o & w' & Hrun & [_ He] & Hstopped). eauto.
Qed.

(** C29: [stop_registered_process] returns.  It sends stops only to the port of the entry and
    with its nonce, after the lock was seen to hold a record that agrees with the entry, and
    removes only the descriptor and the registration of the entry.  When it succeeds, the
    coordinator and the broker were seen to be gone. *)
Theorem registered_process_is_stopped (outside : Outside) uid entry deadline w :
  ∃ o w', stop_registered_process outside uid (S (stop_turns deadline (cw_clock w))) entry deadline w = Some (o, w')
    ∧ Extends (registered_call entry) (cw_history w) (cw_history w')
    ∧ (o = Done tt → entry_retired entry (cw_history w) (cw_history w')).
Proof.
  destruct (stop_registered_ends outside uid entry deadline (stop_turns deadline (cw_clock w)) w
    (stop_turns_enough _ _)) as (o & w' & Hrun & [_ He] & Hretired). eauto.
Qed.

(** C30: a stop ends within its 200 turns.  Each request goes to the port that the record in
    the lock of this scope names, which is valid and, if an instance is expected, names that
    instance; a coordinator with this record accepts the request, and accepts only requests
    with its nonce.  Success means that the lock was seen to be free. *)
Theorem stop_is_addressed (outside : Outside) uid expected w :
  ∃ o w' discovered, stop_expected outside uid 201 expected w = Some (o, w')
    ∧ Extends (stop_call discovered expected)
        (MkCoordEntry (cw_clock w) Discover discovered :: cw_history w) (cw_history w')
    ∧ (∀ record connections, validate_control_record record = Done tt →
         control_wait (cr_control_nonce record) (Ok (true, Some (stop_request record)) :: connections) = Some (Ok tt))
    ∧ (∀ nonce connections, control_wait nonce connections = Some (Ok tt) →
         ∃ request, Ok (true, Some request) ∈ connections ∧ take 64 request = as_bytes nonce
           ∧ request !! 64 = Some 10%Z)
    ∧ (o = Done tt → since (cw_history w) (cw_history w') lock_free).
Proof.
  destruct (stop_expected_ends outside uid 200 (le_n 200) expected w) as (o & w' & Hrun & r & He & _ & Hfree).
  exists o, w', r. split_and!; [exact Hrun|exact He|apply stop_request_accepted|apply control_wait_sound|exact Hfree].
Qed.

(** C26: [restart] returns, if each wait for a change of the runtime directory takes time.
    Until a broker of the descriptor it read has proved itself it only looks; from then on it
    sends stops to the instance of that descriptor, addressed as above, invokes the action,
    and does nothing else, however it ends.  When it succeeds: the original broker had proved itself and was
    supervised; then its processes were seen to be gone; then another instance of the same
    executable proved itself for the same scope, and its coordinator was seen to hold the
    lock with both processes alive. *)
Theorem restart_replaces_broker (outside : Outside) uid :
  changes_take_time outside →
  ∃ enough, ∀ fuel w, enough ≤ fuel → ∃ o w', restart outside uid fuel w = Some (o, w')
    ∧ (Extends quiet_call (cw_history w) (cw_history w') ∨ ∃ paths original,
         restart_addressed paths original (cw_history w) (cw_history w'))
    ∧ (o = Done tt → restarted w w').
Proof.
  intros Htime. exists (S (Z.to_nat DEFAULT_ENSURE_TIMEOUT)). intros [|fuel] w Hfuel; [by apply Nat.nle_succ_0 in Hfuel|].
  assert (DEFAULT_ENSURE_TIMEOUT ≤ Z.of_nat fuel)%Z as Henough.
  { rewrite <-(Z2Nat.id DEFAULT_ENSURE_TIMEOUT) by done. apply Nat2Z.inj_le. by apply le_S_n. }
  destruct (restart_ends outside uid Htime fuel Henough w) as (o & w' & Hrun & He & Hdone). eauto.
Qed.

(** C27: [serve] returns once its broker ends, within 400 turns of its waits.  The lock file
    it creates is that of the paths it discovered.  It spawns one broker at most; it
    publishes, registers, spawns, signals and removes only within that scope and while it
    holds the lock of that file.  Either it took no lock and changed nothing but the lock
    file, or its last call closes that file, still locked.  It succeeds only after a broker
    has proved itself, its own or the one that was there. *)
Theorem serve_is_single_flight (outside : Outside) uid w :
  ∃ o w' discovered, serve outside uid 401 w = Some (o, w')
    ∧ let h := MkCoordEntry (cw_clock w) Discover discovered :: cw_history w in
      Extends (serve_call discovered h) h (cw_history w')
    ∧ spawns (cw_history w') ≤ S (spawns (cw_history w))
    ∧ (Extends (idle_call discovered) h (cw_history w') ∨ lock_released discovered (cw_history w'))
    ∧ (o = Done tt → broker_proved (cw_history w) (cw_history w')).
Proof.
  destruct (serve_ends outside uid 400 (le_n 400) w) as (o & w' & Hrun & discovered & Hserved).
  by exists o, w', discovered.
Qed.
End commands.

(** ** A restart *)

Module CoordinatorSample.

Definition instance_of (c : string) : string := String.concat "" (repeat c 43).

#[local] Instance crypto : ApiCrypto := {|
  api_sha256 := λ m, m; hmac_sha256 := λ _ m, m; base64url_encode := λ _, EmptyString; base64url_decode := λ _, None;
|}.
#[local] Instance serde : RuntimeSerde := {|
  JsonError := ();
  json_error_display := λ _, "json";
  io_error_display := λ _, "io";
  lock_to_vec := λ _, Err tt;
  lock_from_slice := λ _, Err tt;
  descriptor_to_vec := λ _, Err tt;
  descriptor_from_slice := λ _, Err tt;
|}.

Definition paths : RuntimePaths := from_scope "/run" (MkRuntimeScope "session" "workspace" "key").
Definition broker (instance : string) (pid : Z) : RuntimeDescriptor :=
  MkRuntimeDescriptor "session" "workspace" "http://127.0.0.1:4000" "token" (instance_of instance) "/bin/broker" pid 1000.
Definition record (instance : string) (pid : Z) : CoordinatorRecord :=
  MkCoordinatorRecord pid "42" "key" 4001 (String.concat "" (repeat "0" 64)) (Some (instance_of instance)) (Some "42").

#[local] Instance records : CoordSerde := {|
  record_to_vec := λ _, Err "unused";
  record_from_slice := λ b, match b with [1%Z] => Ok (record "a" 10) | _ => Ok (record "b" 20) end;
|}.

Definition called (f : ∀ A, CoordCall A → A → option ()) (h : History) : bool := is_some (last_answer f h).
(** The original was asked to stop; its lock was seen to be free; the new descriptor was seen
    to appear. *)
Definition stopped : History → bool :=
  called (λ A c, match c in CoordCall A return A → option () with SendStop _ _ _ => λ _, Some tt | _ => λ _, None end).
Definition released : History → bool :=
  called (λ A c, match c in CoordCall A return A → option () with
                 | Flock _ => λ r, match r with Ok _ => Some tt | Err _ => None end | _ => λ _, None end).
Definition appeared : History → bool :=
  called (λ A c, match c in CoordCall A return A → option () with SleepOrChange _ => λ _, Some tt | _ => λ _, None end).

Definition gone : IoFailure := MkIoFailure NotFoundKind "gone".
Definition alive : ProcRead :=
  MkProcRead (Ok (as_bytes "1 (herdr-a2a) S 1 1 1 1 1 1 1 1 1 1 1 1 1 1 1 1 1 1 42 0")) (Ok "/bin/broker") (Ok "/bin/broker").
Definition dead : ProcRead := MkProcRead (Err gone) (Err gone) (Err gone).

(** The coordinator 10 and its broker 11 stop when asked to; then 20 and 21 are started. *)
Definition answer {A} (c : CoordCall A) (h : History) : A :=
  match c in CoordCall A return A with
  | Now | Sleep _ | SleepOrChange _ | CloseLock _ | Kill _ _ | CloseLiveness | UnregisterStart _ => tt
  | Discover => Done paths
  | ReadDescriptor _ =>
      if negb (stopped h) then Ok (broker "a" 11)
      else if appeared h then Ok (broker "b" 21) else Err (RtIo (Os NOENT))
  | RemoveDescriptor _ _ => Ok tt
  | DescriptorExists _ => negb (stopped h)
  | BuildClient _ _ | NewWatcher _ | InvokeAction | ChmodLock _ | WriteLock _ _ | SendStop _ _ _ => Ok tt
  | InstallSignals | OpenLiveness | KillChild => Ok tt
  | VerifyProof _ _ => Proved
  | OpenLock _ _ => Ok 3
  | StatLock _ => Ok (MkLockMetadata true 1000 1 384)
  | Flock _ => if stopped h && negb (released h) then Ok tt else Err WOULDBLOCK
  | ReadLock _ => Ok (if stopped h then [2%Z] else [1%Z])
  | ReadProc pid => if (pid <? 20)%Z && stopped h then dead else alive
  | ExecutableDigest _ => Ok "digest"
  | ReserveStart _ | RegisterProcess _ => Ok false
  | BindStart _ _ | UnregisterProcess _ => Ok tt
  | BindControl => Ok (4001%Z, [])
  | CurrentExe | Canonicalize _ => Ok "/bin/broker"
  | CurrentPid => 20%Z
  | BrokerEnvironment _ => Ok tt
  | SpawnBroker _ => Ok (Some 21%Z)
  | ChildId => Some 21%Z
  | WaitChild _ => None
  | AwaitServe => ShutdownSignal
  end.
Definition replacing : Outside := λ A c h, (answer c h, 1000000%N).

Definition start : CoordWorld := MkCoordWorld 0 [].

(** A process that is alive at the first look only, when every call takes a second. *)
Definition lagging : Outside := λ A c h,
  (match c in CoordCall A return A → A with
   | ReadProc _ => λ _, if is_some (last_read h) then dead else alive
   | _ => id
   end (answer c h), 1000000000%N).

(** Whether KILL was sent to a process that was last seen to be gone. *)
Fixpoint kills_absent (h : History) : bool :=
  match h with
  | [] => false
  | MkCoordEntry _ c _ :: h =>
      match c with
      | Kill pid KILL =>
          match last_read h with
          | Some (read_pid, read) =>
              (read_pid =? pid)%Z && match process_proof read with Done None => true | _ => false end
          | None => false
          end
      | _ => false
      end || kills_absent h
  end.

(** [validate_reserved_process] accepts a process that is gone, and so
    [force_retire_reserved_process] may send KILL to a process it has just seen to be gone. *)
Lemma absent_process_is_killed :
  ∃ o w, force_retire_reserved_process lagging 5 10 "42" "/bin/broker" (from_secs 100) start = Some (o, w)
    ∧ kills_absent (cw_history w) = true.
Proof. eexists _, _. split; [vm_compute; reflexivity|vm_compute; reflexivity]. Qed.

(** The restart succeeds, and so it has replaced the broker. *)
Lemma restart_replaces_broker_witness :
  (∃ w, restart replacing 1000 10 start = Some (Done tt, w))
  ∧ ∃ enough, ∀ fuel w, enough ≤ fuel → ∃ o w', restart replacing 1000 fuel w = Some (o, w')
    ∧ (Extends quiet_call (cw_history w) (cw_history w') ∨ ∃ paths original,
         restart_addressed paths original (cw_history w) (cw_history w'))
    ∧ (o = Done tt → restarted w w').
Proof.
  split; [eexists; vm_compute; reflexivity|].
  assert (changes_take_time replacing) as Htime by (intros duration h; vm_compute; discriminate).
  exact (restart_replaces_broker replacing 1000 Htime).
Defined.
End CoordinatorSample.
